(* ===== verification/_CoqProject ===== *)
-Q . S2P
Prelude.v
Path.v
Errors.v
Planner.v
Types.v
Internal.v
Compound.v
Session.v
Cursor.v
Client.v
IoProgress.v
Loops.v
Exchange.v
Server.v
Batch.v
BatchOps.v
BatchRun.v
BatchOnce.v
Resolve.v
Single.v
BatchSpec.v
Reads.v
Mutations.v
Opens.v
Lifecycle.v
Remove.v
Readdir.v
Merged.v
MergedOnce.v
MergedAttrs.v
MergedExamples.v
ChunkReply.v
PathIo.v
PathSpec.v
PathFill.v
PathCollect.v
PathRead.v
OpenPaths.v
Identity.v
Metadata.v
Uring.v
UringSpec.v
UringWave.v
UringCall.v
UringApi.v
StdPath.v
Backend.v
Namespace.v
Files.v
DescriptorIo.v
DescriptorWrite.v
WriteSpec.v
WriteWaves.v
WriteBatch.v
Descriptors.v
Recovery.v
