(* ===== verification/Prelude.v ===== *)
(** * The vNFS client, verified

    This library models the NFSv4.1 client of vNFS, the file-system backend on
    top of it, the io_uring engine and the backend-independent core they share,
    and proves the properties that make them correct.  It is a shallow
    embedding: a Rust function is a Rocq function of the same name, translated
    from the source.

    ** The program

    vNFS is a vectorized file-system client.  An application hands it a batch of
    operations; the client packs as many as fit into one NFSv4.1 COMPOUND, sends
    it on the single slot of a session, and attributes the reply to the items of
    the batch.  The parts, from the bottom up:

    - [crates/vfsi-core]: byte paths ([path.rs]), errors ([error.rs]), flags,
      descriptors and attributes ([types.rs], [write.rs]), and the contracts the
      backends share ([internal.rs], [internal/adb.rs], [internal/budget.rs]).
    - [crates/vfsi-nfs/src/planner.rs]: the adaptive batch window, the map from
      response positions to caller items, and the replay policy.
    - [crates/vfsi-nfs/src/compound.rs]: request building, size preflight, reply
      validation and typed access to results.
    - [crates/vfsi-nfs/src/session.rs]: handshake, slot sequencing, teardown.
    - [crates/vfsi-nfs/src/client.rs] and [client/]: the operations of the
      client on handles and on paths, their chunking, retry and clean-up.
    - [crates/vfsi-nfs/src/identity.rs]: owner and group names.
    - [crates/vfsi-nfs/src/nfs.rs] and [nfs/]: the backend, which has a working
      directory, a table of open files with cursors, path walks that follow
      links, vectored I/O through descriptors, and recovery from a lost
      connection.
    - [crates/vfsi-uring/src/engine.rs] and [crates/vfsi-local/src/io.rs]: the
      execution of batches of local reads and writes.

    ** The files

    The core:
    - [Prelude]: machine integers with Rust's overflow behaviour, [result] as a
      monad, byte strings, and the lemmas and tactics the components share.
    - [Path], [Errors], [Types], [Internal]: the files of [vfsi-core] of these
      names ([Types] also [write.rs], [Internal] also [internal/], and the
      request types of [api/metadata.rs] and [api/support.rs]).

    The protocol:
    - [Planner], [Compound], [Session]: [planner.rs], [compound.rs],
      [session.rs].
    - [Loops]: the form of the client's loops, and their termination argument.
    - [Exchange], [Server]: what is relied on.  [transport_ok] is the transport,
      [nfs_spec] an abstract file service, [implements] that the transport leads
      to a server of it; [spec_server] is such a server for every service, and
      [MemFs] a service in memory for the examples.

    The client, [client.rs] and [client/]:
    - [Cursor]: [CfhCursor], the filehandles of a compound under construction.
    - [Client]: the state [NfsClient], budgets, the guarded send, write waves,
      chunking, the selection of CLOSEs.  [IoProgress]: short transfers.
    - [Batch]: tolerant batches ([lookup_many], [lookup_getattr_many]).
      [BatchOps]: the fail-fast batch runner and the batches built on it;
      [BatchRun] its contract, [BatchOnce] and [BatchSpec] that contract as
      effects on a server and as steps of the file service.
    - [Resolve] (walking a path), [Single] (operations on one object), [Reads],
      [Mutations], [Opens], [Remove], [Readdir] (batches by handle).
    - [Merged], [MergedOnce], [MergedAttrs], [MergedExamples]: attributes,
      removals and renames by path.  [ChunkReply], [PathIo], [PathSpec],
      [PathFill], [PathCollect], [PathRead]: reads and writes by path.
      [OpenPaths]: opens by path and by handle.
    - [Lifecycle]: connecting, closes kept for later, replacing a connection,
      shutting down.  [Identity]: [identity.rs].

    The backend, [nfs.rs] and [nfs/]:
    - [Metadata]: decoding of attributes and statistics ([nfs/metadata.rs]).
    - [StdPath]: the operations of [std::path] that the backend uses.
    - [Backend]: the state [NfsVecFs], and operations on it as a monad [op] with
      a logic [returns].
    - [Namespace], [Files]: [nfs/namespace.rs].
    - [DescriptorIo], [DescriptorWrite], [WriteSpec], [WriteWaves],
      [WriteBatch]: vectored I/O through open files ([nfs/io.rs]).
    - [Descriptors]: the table of open files ([nfs/open.rs],
      [nfs/handle_backend.rs], [nfs/vector_backend.rs]).
    - [Recovery]: [nfs/recovery.rs], and the reads that go through it.

    Local I/O:
    - [Uring] (the engine), [UringSpec] (the kernel and what is promised),
      [UringWave], [UringCall], [UringApi] (the proofs, one level each).

    ** How code becomes definitions

    A w-bit integer is a [Z] with its bounds or wrap-around written out;
    [usize] is 64 bits.  A [Vec<u8>] or a path is a list of bytes.  A [&mut self]
    method takes the record and returns it; an operation that talks to the
    server also takes and returns the state [W] of the world.  [Result] is
    [result], and a panic (an index out of range, an accessor applied to the
    wrong result) is [None] or [Panicked]; a loop is [OutOfFuel] when its fuel
    is used up.

    The transport [rpc : Compound.t → W → RpcResult COMPOUND4res * W] and the
    XDR size [xdr_len : Compound.t → Z] are parameters, because the codec is
    generated code and the RPC layer is libntirpc.  So are the name service, the
    kernel below the io_uring engine, the clock, and the iteration order of a
    hash table.  What is relied on is stated by name: [XdrSizes], [transport_ok],
    [implements], [kernel_ok], [undisturbed], [shows], [stores] and the
    contracts of the server that the statements about effects need
    ([slot_server], [serves], [applies_in_order], [reads_file], [writes_file],
    [FhTree], and [LiveTree] with [executes_live] for a tree that the batch
    itself changes).  [stores] gives contents to objects, of which two handles
    may be one; the theorem on vectored writes is for batches whose unequal
    handles are of different objects.  Every theorem with such a hypothesis is applied to a concrete
    server.

    ** Loops and fuel

    A loop of the source is a function of its state and of fuel, and the theorem
    about it says that the fuel named in it is enough for every server, so the
    code terminates.  The bounds come from a measure that every round decreases:
    [(n + 1) * (N + 1) * (n + 1)] rounds for a tolerant or merged batch of [n]
    items with [N] operations negotiated (progress, then the adaptive window,
    then the chunk), [(n + 1)] squared for a fail-fast batch, [count + 1] rounds
    for a transfer of [count] bytes, 40 doublings for the size preflight of a
    32-bit limit, forty expansions of a link and one walk of the components for
    each in a path walk, and the same bounds for the batches a backend operation
    is made of.

    ** What the theorems show

    - Batches: a mutating batch is applied once and in order, or cut off at the
      item the error names; it is the single operations one after the other;
      lookups and reads return for each item what the operation alone returns.
      Removals and renames by path act in the directories the paths lead to when
      their turn comes.  By handle and by path, for every server, however it rejects sizes,
      shortens transfers or loses replies.
    - Single operations: each refines one step of the file service.
    - Requests and replies: every request is within the negotiated limits; only
      well-formed answers are accepted; failures are attributed to the right
      item; the cursor reaches the directories that walks from the root reach.
    - Sessions and state: the slot never falls out of step, teardown happens
      once, no OPEN and no CLOSE the client knows of is lost.
    - Names: a walk follows links as POSIX does, within the configured root, as
      long as no component of the root is a link and the targets have their [..]
      at the beginning ([plain_links]; the code removes [..] before it follows
      the links in front of it); batches of operands are resolved as each alone.
    - Descriptors: a vectored read returns the bytes of the files and moves the
      cursors only on success; a vectored write, sent in waves, is the writes
      one after the other; closing accounts for every open state; a reconnect
      keeps every descriptor and leaves the server with the old states closed,
      or keeps them to be closed, or changes nothing; and a read survives it.
    - Local I/O: the engine writes every byte it acknowledges exactly once and
      reads what the files hold, in whatever order completions arrive.
    - Attributes, names of owners and directory pages are decoded exactly, and
      attributes to set are encoded so that they decode to what was asked.

    Examples show behaviour the code does not intend: [openv_path_loses_opens],
    [paged_error_index_is_chunk_local], [removev_marks_refused],
    [renamev_invalid_destination_hides_prefix] and [aliased_writes_overlap].

    ** What is not modelled

    - The XDR codec, the RPC transport, the kernel, NSS: generated code, FFI and
      system services, which are parameters; NSS is a function of the name, so
      its answers do not change during a run.
    - Telemetry, byte counters, observers, the fault injection of tests, [Debug]
      and most [Display] output: no effect on results.
    - Of the backend: opening by path with its symlink and truncation
      fallbacks, copies, directory handles, the pool of reading connections, the
      dispatch of batches by path, the re-validation of a resolved mount, the
      cache of object identities.  They
      compose the modelled operations with threads, with the traversal
      machinery of [vfsi-sync] or with the kernel's mount table.
    - The mount table ([mount.rs]), [vfsi-sync], [vfsi-smb], [vfsi-local] and
      [vfsi-posix] apart from [io.rs], [vnfs], and the C and Python bindings:
      other protocols, system calls, and layers that forward to a backend. *)

From Stdlib Require Import Strings.Byte.
From stdpp Require Import base numbers list list_numbers gmap strings.

#[global] Open Scope Z_scope.
#[global] Set Default Goal Selector "!".

(** ** Machine integers

    [usize] and [u64] are both 64 bits wide (the crates are built for 64-bit
    Linux).  An unsigned machine integer is a [Z] in its range; the operations
    below are Rust's, with the overflow behaviour written out. *)

Definition U8_MAX : Z := 2 ^ 8 - 1.
Definition U16_MAX : Z := 2 ^ 16 - 1.
Definition U32_MAX : Z := 2 ^ 32 - 1.
Definition U64_MAX : Z := 2 ^ 64 - 1.
Definition USIZE_MAX : Z := U64_MAX.
Definition I32_MAX : Z := 2 ^ 31 - 1.
Definition I64_MAX : Z := 2 ^ 63 - 1.
Definition I64_MIN : Z := - 2 ^ 63.

Definition is_u32 (n : Z) : Prop := 0 <= n <= U32_MAX.
Definition is_u64 (n : Z) : Prop := 0 <= n <= U64_MAX.
Abbreviation is_usize := is_u64.

(** [saturating_add], [saturating_sub] and [saturating_mul] on 64 bits. *)
Definition sat_add (a b : Z) : Z := Z.min (a + b) U64_MAX.
Definition sat_sub (a b : Z) : Z := Z.max (a - b) 0.
Definition sat_mul (a b : Z) : Z := Z.min (a * b) U64_MAX.

(** [checked_add], [checked_sub] and [checked_mul] on 64 bits. *)
Definition checked_add (a b : Z) : option Z :=
  if a + b <=? U64_MAX then Some (a + b) else None.
Definition checked_sub (a b : Z) : option Z :=
  if b <=? a then Some (a - b) else None.
Definition checked_mul (a b : Z) : option Z :=
  if a * b <=? U64_MAX then Some (a * b) else None.

(** [wrapping_add] at 32 and at 64 bits. *)
Definition wrapping_add32 (a b : Z) : Z := (a + b) mod 2 ^ 32.
Definition wrapping_add64 (a b : Z) : Z := (a + b) mod 2 ^ 64.

(** An [as u32] cast of an unsigned integer. *)
Definition as_u32 (a : Z) : Z := a mod 2 ^ 32.

(** ** Results

    Rust's [Result<T, E>]; the error type comes first so that [result E] is a
    monad and stdpp's [x ← e; k] is Rust's [?]. *)

Inductive result (E T : Type) : Type :=
| Ok (value : T)
| Err (error : E).
Arguments Ok {E T} value.
Arguments Err {E T} error.

#[global] Instance result_ret E : MRet (result E) := λ T v, Ok v.
#[global] Instance result_bind E : MBind (result E) := λ T U k r,
  match r with Ok v => k v | Err e => Err e end.
#[global] Instance result_fmap E : FMap (result E) := λ T U f r,
  match r with Ok v => Ok (f v) | Err e => Err e end.

Definition map_err {E F T} (f : E → F) (r : result E T) : result F T :=
  match r with Ok v => Ok v | Err e => Err (f e) end.

Definition ok_or {E T} (o : option T) (e : E) : result E T :=
  match o with Some v => Ok v | None => Err e end.

Definition is_ok {E T} (r : result E T) : bool :=
  match r with Ok _ => true | Err _ => false end.

Definition result_ok {E T} (r : result E T) : option T :=
  match r with Ok v => Some v | Err _ => None end.

(** ** Bytes *)

Abbreviation bytes := (list Byte.byte).

#[global] Instance byte_eq_dec : EqDecision Byte.byte := Byte.byte_eq_dec.
#[global] Program Instance byte_countable : Countable Byte.byte :=
  inj_countable Byte.to_N Byte.of_N _.
Next Obligation. intros b. apply Byte.of_to_N. Qed.

(** A Rust byte-string literal [b"..."]. *)
Definition bstr (s : string) : bytes := String.list_byte_of_string s.

(** The numeric value of a byte. *)
Definition byte_val (b : Byte.byte) : Z := Z.of_N (Byte.to_N b).

(** ** Slices *)

Section Slices.
Context {A : Type}.
Implicit Types (p : A → bool) (l : list A).

(** [slice.iter().position(p)]. *)
Fixpoint position p l : option nat :=
  match l with
  | [] => None
  | x :: r => if p x then Some 0%nat else S <$> position p r
  end.

(** [slice.iter().rposition(p)]: the largest index that satisfies [p]. *)
Fixpoint rposition p l : option nat :=
  match l with
  | [] => None
  | x :: r =>
      match rposition p r with
      | Some i => Some (S i)
      | None => if p x then Some 0%nat else None
      end
  end.

(** [slice.split(p)]: the (possibly empty) pieces between separators. *)
Fixpoint split_on p l : list (list A) :=
  match l with
  | [] => [[]]
  | x :: r =>
      if p x then [] :: split_on p r
      else match split_on p r with
           | piece :: rest => (x :: piece) :: rest
           | [] => [[x]]
           end
  end.

(** [&l[a..b]]. *)
Definition slice (a b : nat) l : list A := drop a (take b l).

(** [slice.last()] is stdpp's [last]; [starts_with] is the prefix test. *)
Fixpoint starts_with `{EqDecision A} l (prefix : list A) {struct prefix} : bool :=
  match prefix, l with
  | [], _ => true
  | _ :: _, [] => false
  | y :: ps, x :: r => bool_decide (x = y) && starts_with r ps
  end.

(** [slice.strip_prefix(prefix)]. *)
Fixpoint strip_prefix `{EqDecision A} l (prefix : list A) {struct prefix} : option (list A) :=
  match prefix, l with
  | [], _ => Some l
  | _ :: _, [] => None
  | y :: ps, x :: r => if decide (x = y) then strip_prefix r ps else None
  end.

(** Pieces written back to back with one separator between two of them. *)
Fixpoint join_sep (sep : A) (parts : list (list A)) : list A :=
  match parts with
  | [] => []
  | [part] => part
  | part :: rest => part ++ sep :: join_sep sep rest
  end.
End Slices.

(** A prefix of the slice after [a] extends the prefix of length [a]. *)
Lemma take_app_slice {A} (a len k : nat) (l : list A) :
  take a l ++ take k (slice a (a + len) l) = take (a + k `min` len) l.
Proof.
  unfold slice. rewrite take_drop_commute, take_take, Nat.add_min_distr_l, <-take_drop_commute.
  apply take_take_drop.
Qed.

(** ** Automation *)

(** The lengths of lists built from others, and arithmetic on them. *)
Create Rewrite HintDb lengths.
#[export] Hint Rewrite @length_app @length_fmap @length_take @length_drop @length_replicate @length_zip_with @length_insert @length_reverse
  @length_imap : lengths.
Ltac lengths := autorewrite with lengths in *; lia.

(** What clients and backends keep; each component adds its lemmas. *)
Create HintDb vnfs.

(** Unfold the machine-integer operations and decide with [lia]. *)
Ltac ints :=
  unfold is_u32, is_u64, sat_add, sat_sub, sat_mul, checked_add, checked_sub,
    checked_mul, wrapping_add32, wrapping_add64, as_u32, USIZE_MAX, U8_MAX,
    U16_MAX, U32_MAX, U64_MAX, I32_MAX, I64_MAX, I64_MIN in *;
  repeat case_match; simplify_eq/=; try lia.

(** Split a conjunction of a boolean test into its propositional parts. *)
Ltac bool_solve :=
  repeat match goal with
  | H : (_ && _) = true |- _ => apply andb_true_iff in H as [? ?]
  | H : (_ || _) = false |- _ => apply orb_false_iff in H as [? ?]
  | H : negb _ = true |- _ => apply negb_true_iff in H
  | H : negb _ = false |- _ => apply negb_false_iff in H
  | H : bool_decide _ = true |- _ => apply bool_decide_eq_true in H
  | H : bool_decide _ = false |- _ => apply bool_decide_eq_false in H
  end.

(** ** Flag sets

    A [bitflags] type is its [bits()]. *)

Definition flags_contain (flags other : Z) : bool := Z.land flags other =? other.
Definition flags_intersect (flags other : Z) : bool := negb (Z.land flags other =? 0).
Definition flags_difference (flags other : Z) : Z := Z.ldiff flags other.

(** The masked update of one bit: [bits & !mask | if value { mask } else { 0 }]. *)
Definition set_bit (flags bit : Z) (value : bool) : Z :=
  Z.lor (Z.ldiff flags (Z.shiftl 1 bit)) (if value then Z.shiftl 1 bit else 0).

Lemma shiftl_1_pos bit : 0 <= bit → 0 < Z.shiftl 1 bit.
Proof. intros ?. rewrite Z.shiftl_1_l. by apply Z.pow_pos_nonneg. Qed.

Lemma land_pow2 flags bit : 0 <= bit →
  Z.land flags (Z.shiftl 1 bit) = if Z.testbit flags bit then Z.shiftl 1 bit else 0.
Proof.
  intros Hb. rewrite Z.shiftl_1_l. apply Z.bits_inj'. intros n Hn.
  rewrite Z.land_spec. destruct (decide (n = bit)) as [->|Hne].
  - rewrite Z.pow2_bits_true, andb_true_r by done.
    destruct (Z.testbit flags bit); [by rewrite Z.pow2_bits_true | by rewrite Z.bits_0].
  - rewrite Z.pow2_bits_false, andb_false_r by done.
    destruct (Z.testbit flags bit); [by rewrite Z.pow2_bits_false | by rewrite Z.bits_0].
Qed.

Lemma flags_contain_bit flags bit : 0 <= bit →
  flags_contain flags (Z.shiftl 1 bit) = Z.testbit flags bit.
Proof.
  intros Hb. unfold flags_contain. rewrite land_pow2 by done.
  pose proof (shiftl_1_pos bit Hb).
  destruct (Z.testbit flags bit); [apply Z.eqb_refl | apply Z.eqb_neq; lia].
Qed.

Lemma flags_intersect_bit flags bit : 0 <= bit →
  flags_intersect flags (Z.shiftl 1 bit) = Z.testbit flags bit.
Proof.
  intros Hb. unfold flags_intersect. rewrite land_pow2 by done.
  pose proof (shiftl_1_pos bit Hb).
  destruct (Z.testbit flags bit); [apply negb_true_iff, Z.eqb_neq; lia | done].
Qed.

Lemma testbit_set_bit flags bit value n : 0 <= bit → 0 <= n →
  Z.testbit (set_bit flags bit value) n = if decide (n = bit) then value else Z.testbit flags n.
Proof.
  intros Hb Hn. unfold set_bit. rewrite Z.lor_spec, Z.ldiff_spec, Z.shiftl_1_l.
  destruct (decide (n = bit)) as [->|Hne].
  - rewrite Z.pow2_bits_true, andb_false_r by done.
    destruct value; simpl; [by rewrite Z.pow2_bits_true | by rewrite Z.bits_0].
  - rewrite Z.pow2_bits_false, andb_true_r by done.
    destruct value; [rewrite Z.pow2_bits_false by done | rewrite Z.bits_0]; apply orb_false_r.
Qed.

Lemma set_bit_range flags bit value w :
  0 <= bit < w → 0 <= flags < 2 ^ w → 0 <= set_bit flags bit value < 2 ^ w.
Proof.
  intros Hb Hf. assert (0 <= set_bit flags bit value) as H0.
  { unfold set_bit. apply Z.lor_nonneg. rewrite Z.ldiff_nonneg. rewrite Z.shiftl_1_l.
    pose proof (Z.pow_nonneg 2 bit). split; [left; lia|destruct value; lia]. }
  split; [done|]. destruct (decide (set_bit flags bit value = 0)) as [->|Hz]; [lia|].
  apply Z.log2_lt_pow2; [lia|]. destruct (decide (Z.log2 (set_bit flags bit value) < w)); [done|].
  pose proof (Z.bit_log2 (set_bit flags bit value) ltac:(lia)) as Htop.
  rewrite testbit_set_bit in Htop by lia. rewrite decide_False in Htop by lia.
  rewrite Z.bits_above_log2 in Htop; [done|lia|].
  destruct (decide (flags = 0)) as [->|]; [simpl; lia|].
  assert (Z.log2 flags < w) by (apply Z.log2_lt_pow2; lia). lia.
Qed.

(** ** Bounded loops *)

(** [for _ in 0..n { body }] with early return: the body either continues with a
    new state ([inl]) or returns ([inr]).  The bound is binary, so that a loop
    over a machine range is executable. *)
Fixpoint for_upto {A B} (n : positive) (body : A → A + B) (a : A) : A + B :=
  match n with
  | xH => body a
  | xO n =>
      match for_upto n body a with
      | inl a => for_upto n body a
      | inr b => inr b
      end
  | xI n =>
      match body a with
      | inr b => inr b
      | inl a =>
          match for_upto n body a with
          | inl a => for_upto n body a
          | inr b => inr b
          end
      end
  end.

(** The same loop counting in unary. *)
Fixpoint for_nat {A B} (n : nat) (body : A → A + B) (a : A) : A + B :=
  match n with
  | O => inl a
  | S n => match body a with inl a => for_nat n body a | inr b => inr b end
  end.

Lemma for_nat_add {A B} n m (body : A → A + B) a :
  for_nat (n + m) body a =
  match for_nat n body a with inl a => for_nat m body a | inr b => inr b end.
Proof. revert a. induction n as [|n IH]; intros a; simpl; [done|]. destruct (body a); auto. Qed.

Lemma for_upto_nat {A B} n (body : A → A + B) a :
  for_upto n body a = for_nat (Pos.to_nat n) body a.
Proof.
  revert a. induction n as [n IH|n IH|]; intros a; cbn [for_upto].
  - rewrite Pos2Nat.inj_xI. simpl. destruct (body a) as [a'|]; [|done].
    rewrite Nat.add_0_r, for_nat_add, <-!IH. destruct (for_upto n body a'); [|done]. by rewrite <-IH.
  - rewrite Pos2Nat.inj_xO. simpl. rewrite Nat.add_0_r, for_nat_add, <-!IH.
    destruct (for_upto n body a); [|done]. by rewrite <-IH.
  - simpl. by destruct (body a).
Qed.

(** ** Lemmas on results *)

Lemma bind_ok {E T U} (r : result E T) (k : T → result E U) u :
  (r ≫= k) = Ok u ↔ ∃ t, r = Ok t ∧ k t = Ok u.
Proof. destruct r; simpl; naive_solver. Qed.

Lemma bind_err {E T U} (r : result E T) (k : T → result E U) e :
  (r ≫= k) = Err e ↔ r = Err e ∨ ∃ t, r = Ok t ∧ k t = Err e.
Proof. destruct r; simpl; naive_solver. Qed.

Lemma ok_or_ok {E T} (o : option T) (e : E) t : ok_or o e = Ok t ↔ o = Some t.
Proof. destruct o; simpl; naive_solver. Qed.

(** ** Lemmas on slices *)

Section SliceLemmas.
Context {A : Type}.
Implicit Types (p : A → bool) (l : list A).

Lemma position_Some p l i :
  position p l = Some i →
  ∃ pre x post, l = pre ++ x :: post ∧ length pre = i ∧ p x = true ∧
    Forall (λ y, p y = false) pre.
Proof.
  revert i. induction l as [|x l IH]; intros i; simpl; [done|].
  destruct (p x) eqn:Hx.
  - intros [= <-]. exists [], x, l. by repeat constructor.
  - rewrite fmap_Some. intros (j & Hj & ->).
    apply IH in Hj as (pre & y & post & -> & <- & Hy & Hpre).
    exists (x :: pre), y, post. by repeat constructor.
Qed.

Lemma position_None p l : position p l = None ↔ Forall (λ x, p x = false) l.
Proof.
  induction l as [|x l IH]; simpl; [by split|].
  rewrite Forall_cons. destruct (p x); [naive_solver|].
  rewrite fmap_None, IH. naive_solver.
Qed.

Lemma rposition_None p l : rposition p l = None ↔ Forall (λ x, p x = false) l.
Proof.
  induction l as [|x l IH]; simpl; [by split|].
  rewrite Forall_cons, <-IH. destruct (rposition p l), (p x); naive_solver.
Qed.

Lemma rposition_Some p l i :
  rposition p l = Some i →
  ∃ pre x post, l = pre ++ x :: post ∧ length pre = i ∧ p x = true ∧
    Forall (λ y, p y = false) post.
Proof.
  revert i. induction l as [|x l IH]; intros i; simpl; [done|].
  destruct (rposition p l) as [j|] eqn:Hj.
  - intros [= <-]. destruct (IH j eq_refl) as (pre & y & post & -> & <- & ? & ?).
    by exists (x :: pre), y, post.
  - apply rposition_None in Hj. destruct (p x) eqn:Hx; [|done].
    intros [= <-]. by exists [], x, l.
Qed.

Lemma position_intro p pre x post :
  Forall (λ y, p y = false) pre → p x = true →
  position p (pre ++ x :: post) = Some (length pre).
Proof.
  intros Hpre Hx. induction Hpre as [|y pre Hy _ IH]; simpl; [by rewrite Hx|].
  by rewrite Hy, IH.
Qed.

Lemma rposition_intro p pre x post :
  p x = true → Forall (λ y, p y = false) post →
  rposition p (pre ++ x :: post) = Some (length pre).
Proof.
  intros Hx Hpost. induction pre as [|y pre IH]; simpl.
  - apply rposition_None in Hpost. by rewrite Hpost, Hx.
  - by rewrite IH.
Qed.

Lemma mjoin_cons (g : list A) gs : mjoin (g :: gs) = g ++ mjoin gs.
Proof. done. Qed.

Lemma list_filter_all (P : A → Prop) `{!∀ x, Decision (P x)} l : Forall P l → filter P l = l.
Proof. induction 1; [done|]. rewrite filter_cons_True by done. by f_equal. Qed.

Lemma list_filter_none (P : A → Prop) `{!∀ x, Decision (P x)} l : Forall (λ x, ¬ P x) l → filter P l = [].
Proof. induction 1; [done|]. by rewrite filter_cons_False. Qed.

Lemma drop_past pre x (post : list A) : drop (length pre + 1) (pre ++ x :: post) = post.
Proof.
  change (x :: post) with ([x] ++ post). rewrite app_assoc. apply drop_app_length'.
  by rewrite length_app.
Qed.

Lemma split_on_nonempty p l : split_on p l ≠ [].
Proof. destruct l as [|x l]; simpl; [done|]. by repeat case_match. Qed.

Lemma split_on_length p l : (length (split_on p l) <= S (length l))%nat.
Proof. induction l as [|x l IH]; simpl; [done|]. repeat case_match; simpl in *; lia. Qed.

Lemma split_on_no_sep p l : Forall (λ x, p x = false) l → split_on p l = [l].
Proof. induction 1 as [|x l Hx _ IH]; simpl; [done|]. by rewrite Hx, IH. Qed.

(** Splitting commutes with gluing two lists at a separator. *)
Lemma split_on_app_sep p l x r :
  p x = true → split_on p (l ++ x :: r) = split_on p l ++ split_on p r.
Proof.
  intros Hx. induction l as [|y l IH]; simpl; [by rewrite Hx|].
  rewrite IH. destruct (p y); [done|].
  destruct (split_on p l) eqn:Hs; [by apply split_on_nonempty in Hs|done].
Qed.

Lemma split_on_pieces p l :
  Forall (Forall (λ x, p x = false)) (split_on p l).
Proof.
  induction l as [|x l IH]; simpl; [by repeat constructor|].
  destruct (p x) eqn:Hx; [by constructor|].
  destruct (split_on p l) as [|piece rest]; [by repeat constructor|].
  apply Forall_cons in IH as [? ?]. by repeat constructor.
Qed.

Lemma split_on_join sep p parts :
  p sep = true → Forall (Forall (λ x, p x = false)) parts → parts ≠ [] →
  split_on p (join_sep sep parts) = parts.
Proof.
  intros Hsep Hparts. induction Hparts as [|part rest Hpart Hrest IH]; [done|].
  intros _. destruct rest as [|part' rest]; simpl; [by apply split_on_no_sep|].
  rewrite split_on_app_sep by done. rewrite (split_on_no_sep p part) by done.
  simpl. f_equal. by apply IH.
Qed.

Lemma starts_with_spec `{EqDecision A} l prefix :
  starts_with l prefix = true ↔ ∃ rest, l = prefix ++ rest.
Proof.
  revert l. induction prefix as [|y ps IH]; intros l; simpl.
  - split; [intros _; by exists l|done].
  - destruct l as [|x l].
    + split; [done|]. intros [? ?]; done.
    + rewrite andb_true_iff, bool_decide_eq_true, IH. naive_solver.
Qed.

Lemma strip_prefix_spec `{EqDecision A} l prefix rest :
  strip_prefix l prefix = Some rest ↔ l = prefix ++ rest.
Proof.
  revert l. induction prefix as [|y ps IH]; intros l; simpl; [naive_solver|].
  destruct l as [|x l]; [naive_solver|]. case_decide; [|naive_solver].
  rewrite IH. naive_solver.
Qed.
End SliceLemmas.
