(* ===== verification/Path.v ===== *)
(** * Byte-preserving path helpers

    A model of [crates/vfsi-core/src/path.rs]: slash-delimited byte paths are
    trimmed, split into a parent and a final component, joined and lexically
    normalized.  The specification is the list of non-empty components of a
    path, and the stack machine that gives ["."] and [".."] their meaning. *)

From Stdlib Require Import Strings.Byte.
From stdpp Require Import base numbers list strings.
From S2P Require Import Prelude.

Definition is_slash (b : Byte.byte) : bool := Byte.eqb b "/"%byte.

(** [trim_slashes]: the slice between the first and the last non-slash byte. *)
Definition trim_slashes (path : bytes) : bytes :=
  let start := default (length path) (position (λ b, negb (is_slash b)) path) in
  let end_ := default start (S <$> rposition (λ b, negb (is_slash b)) path) in
  slice start end_ path.

Definition split_path_bytes (path : bytes) : result unit (bytes * bytes) :=
  let trimmed := trim_slashes path in
  if bool_decide (trimmed = []) then Err tt
  else
    let '(dir, name) :=
      match rposition is_slash trimmed with
      | Some split => (take split trimmed, drop (split + 1) trimmed)
      | None => ([], trimmed)
      end in
    Ok (trim_slashes dir, name).

Definition join_path_bytes (dir name : bytes) : bytes :=
  if bool_decide (dir = []) then name
  else
    let separator := bool_decide (last dir ≠ Some "/"%byte) in
    (dir ++ if separator then ["/"%byte] else []) ++ name.

(** One iteration of the component loop of [normalize_bytes]. *)
Definition normalize_step (parts : list bytes) (comp : bytes) : list bytes :=
  if bool_decide (comp = []) then parts
  else if bool_decide (comp = bstr ".") then parts
  else if bool_decide (comp = bstr "..") then take (length parts - 1) parts
  else parts ++ [comp].

(** The output loop of [normalize_bytes]: a slash before every part but the
    first. *)
Definition join_parts (parts : list bytes) : bytes :=
  foldl (λ out '(i, part),
           (if bool_decide (0 < i)%nat then out ++ ["/"%byte] else out) ++ part)
        [] (imap pair parts).

Definition normalize_bytes (path : bytes) : bytes :=
  join_parts (foldl normalize_step [] (split_on is_slash (trim_slashes path))).

Definition components_bytes (path : bytes) : list bytes :=
  filter (λ c, c ≠ []) (split_on is_slash (trim_slashes path)).

(** [CString::new(bytes).ok()]: NUL is the only rejected byte. *)
Definition cstring_from_bytes (b : bytes) : option bytes :=
  if existsb (λ c, Byte.eqb c "000"%byte) b then None else Some b.

(** ** Specification *)

(** The non-empty pieces of a byte string between slashes. *)
Definition comps (path : bytes) : list bytes :=
  filter (λ c, c ≠ []) (split_on is_slash path).

(** A single path component: non-empty and without a slash. *)
Definition is_component (c : bytes) : Prop :=
  c ≠ [] ∧ Forall (λ b, is_slash b = false) c.

(** The meaning of a component list: [".."] pops, ["."] is skipped. *)
Definition resolve (cs : list bytes) : list bytes := foldl normalize_step [] cs.

(** A component that [normalize_bytes] can emit. *)
Definition normal_component (c : bytes) : Prop :=
  is_component c ∧ c ≠ bstr "." ∧ c ≠ bstr "..".

(** ** Lemmas *)

Lemma is_slash_spec b : is_slash b = true ↔ b = "/"%byte.
Proof.
  split; [apply Byte.byte_dec_bl|apply Byte.byte_dec_lb].
Qed.

Lemma comps_nil : comps [] = [].
Proof. done. Qed.

Lemma comps_app_sep l b r : is_slash b = true → comps (l ++ b :: r) = comps l ++ comps r.
Proof. intros Hb. unfold comps. by rewrite split_on_app_sep, filter_app by done. Qed.

Lemma comps_slashes l r :
  Forall (λ b, is_slash b = true) l → comps (l ++ r) = comps r.
Proof.
  induction 1 as [|b l Hb _ IH]; [done|].
  change ((b :: l) ++ r) with ([] ++ b :: (l ++ r)). by rewrite comps_app_sep, IH.
Qed.

Lemma comps_app_slashes l r :
  Forall (λ b, is_slash b = true) r → comps (l ++ r) = comps l.
Proof.
  intros Hr. destruct r as [|b r]; [by rewrite app_nil_r|].
  apply Forall_cons in Hr as [Hb Hr]. rewrite comps_app_sep by done.
  rewrite <-(app_nil_r r), (comps_slashes r) by done. by rewrite app_nil_r.
Qed.

Lemma comps_component c : is_component c → comps c = [c].
Proof.
  intros [Hne Hc]. unfold comps. rewrite split_on_no_sep by done.
  by rewrite filter_cons_True.
Qed.

Lemma comps_Forall path : Forall is_component (comps path).
Proof.
  unfold comps. apply Forall_forall. intros c [Hne Hin]%list_elem_of_filter.
  split; [done|]. pose proof (split_on_pieces is_slash path) as H.
  rewrite Forall_forall in H. by apply H.
Qed.

Definition slashes (l : bytes) : Prop := Forall (λ b, is_slash b = true) l.

(** A trimmed string does not start or end with a slash. *)
Definition trimmed (l : bytes) : Prop :=
  l = [] ∨
  (∃ x m, l = x :: m ∧ is_slash x = false) ∧ (∃ m y, l = m ++ [y] ∧ is_slash y = false).

Lemma slashes_negb l :
  slashes l → Forall (λ b, negb (is_slash b) = false) l.
Proof. intros Hl. eapply Forall_impl; [exact Hl|]. by intros b ->. Qed.

Lemma negb_slashes l :
  Forall (λ b, negb (is_slash b) = false) l → slashes l.
Proof. intros Hl. eapply Forall_impl; [exact Hl|]. by intros b ?%negb_false_iff. Qed.

(** [trim_slashes] removes exactly the outer slashes. *)
Lemma trim_slashes_mid a t b :
  slashes a → slashes b → trimmed t → trim_slashes (a ++ t ++ b) = t.
Proof.
  intros Ha Hb [->|[(x & m & -> & Hx) (m' & y & Ht & Hy)]]; unfold trim_slashes.
  - assert (slashes (a ++ [] ++ b)) as Hall by by apply Forall_app.
    apply slashes_negb in Hall as Hn. rewrite (proj2 (position_None _ _) Hn).
    rewrite (proj2 (rposition_None _ _) Hn). simpl. unfold slice.
    by rewrite take_ge, drop_all by done.
  - assert (position (λ c, negb (is_slash c)) (a ++ (x :: m) ++ b) = Some (length a)) as ->.
    { apply (position_intro _ a x (m ++ b)); [by apply slashes_negb|by rewrite Hx]. }
    rewrite Ht, <-app_assoc, app_assoc. simpl.
    rewrite (rposition_intro _ (a ++ m') y b); [|by rewrite Hy|by apply slashes_negb].
    replace ((a ++ m') ++ y :: b) with ((a ++ m' ++ [y]) ++ b) by by rewrite <-!app_assoc.
    simpl. unfold slice. rewrite take_app_length' by (rewrite !length_app; simpl; lia).
    by rewrite drop_app_length.
Qed.

Lemma trim_slashes_exists path :
  ∃ a t b, path = a ++ t ++ b ∧ slashes a ∧ slashes b ∧ trimmed t.
Proof.
  destruct (position (λ b, negb (is_slash b)) path) as [i|] eqn:Hpos.
  - apply position_Some in Hpos as (a & x & post & -> & _ & Hx%negb_true_iff & Ha).
    destruct (rposition (λ b, negb (is_slash b)) (x :: post)) as [j|] eqn:Hr.
    2:{ apply rposition_None, Forall_cons in Hr as [?%negb_false_iff _]. congruence. }
    apply rposition_Some in Hr as (m & y & b & Heq & _ & Hy%negb_true_iff & Hb).
    exists a, (m ++ [y]), b. rewrite Heq, <-app_assoc.
    split; [done|]. split; [by apply negb_slashes|]. split; [by apply negb_slashes|].
    right. split; [|by exists m, y].
    destruct m as [|z m]; simplify_eq/=; [by exists y, []|by exists z, (m ++ [y])].
  - apply position_None, negb_slashes in Hpos.
    exists path, [], []. rewrite !app_nil_r. split; [done|].
    split; [done|]. split; [constructor|by left].
Qed.

Lemma trim_slashes_spec path :
  ∃ a b, path = a ++ trim_slashes path ++ b ∧ slashes a ∧ slashes b ∧
    trimmed (trim_slashes path).
Proof.
  destruct (trim_slashes_exists path) as (a & t & b & -> & Ha & Hb & Ht).
  exists a, b. by rewrite trim_slashes_mid.
Qed.

Lemma trim_slashes_trimmed t : trimmed t → trim_slashes t = t.
Proof.
  intros Ht. rewrite <-(app_nil_r t) at 1.
  apply (trim_slashes_mid [] t []); [constructor|constructor|done].
Qed.

Lemma comps_trim path : comps (trim_slashes path) = comps path.
Proof.
  destruct (trim_slashes_spec path) as (a & b & Heq & Ha & Hb & _).
  rewrite Heq at 2. by rewrite comps_slashes, comps_app_slashes.
Qed.

Lemma components_bytes_comps path : components_bytes path = comps path.
Proof. apply comps_trim. Qed.

Lemma component_trimmed c : is_component c → trimmed c.
Proof.
  intros [Hne Hc]. right. split.
  - destruct c as [|x m]; [done|]. apply Forall_cons in Hc as [? _]. by exists x, m.
  - destruct c as [|y m _] using rev_ind; [done|].
    apply Forall_app in Hc as [_ [? _]%Forall_cons]. by exists m, y.
Qed.

(** The parent/leaf decomposition of a component list. *)
Lemma split_path_bytes_spec path :
  match split_path_bytes path with
  | Ok (dir, name) =>
      is_component name ∧ trimmed dir ∧ comps path = comps dir ++ [name]
  | Err _ => comps path = []
  end.
Proof.
  unfold split_path_bytes.
  destruct (trim_slashes_spec path) as (_ & _ & _ & _ & _ & Ht).
  rewrite <-(comps_trim path). destruct (decide (trim_slashes path = [])) as [He|Hne].
  { by rewrite bool_decide_true, He by done. }
  rewrite bool_decide_false by done.
  destruct Ht as [?|[_ (m & y & Heq & Hy)]]; [done|]. rewrite Heq. clear Heq Hne.
  assert (∀ d, trimmed (trim_slashes d)) as Htr.
  { intros d. by destruct (trim_slashes_spec d) as (_ & _ & _ & _ & _ & ?). }
  destruct (rposition is_slash (m ++ [y])) as [i|] eqn:Hr.
  - apply rposition_Some in Hr as (d & x & n & Heq & <- & Hx & Hn).
    rewrite Heq, take_app_length, drop_past, comps_app_sep, comps_trim by done.
    assert (is_component n) as Hcn.
    { split; [|done]. intros ->. apply app_inj_tail in Heq as [_ ->]. congruence. }
    by rewrite (comps_component n).
  - apply rposition_None in Hr. assert (is_component (m ++ [y])) as Hc.
    { split; [|done]. by destruct m. }
    split; [done|]. split; [by apply Htr|]. by rewrite comps_component.
Qed.

Lemma join_path_bytes_comps dir name :
  comps (join_path_bytes dir name) = comps dir ++ comps name.
Proof.
  unfold join_path_bytes. case_bool_decide as Hd; [by subst|].
  case_bool_decide as Hs; rewrite <-app_assoc; simpl.
  - by apply comps_app_sep.
  - destruct dir as [|y m _] using rev_ind; [done|].
    rewrite last_snoc in Hs. assert (y = "/"%byte) as -> by (apply dec_stable; congruence).
    rewrite <-app_assoc. simpl. rewrite !comps_app_sep by done.
    by rewrite comps_nil, app_nil_r.
Qed.

(** The output loop is the separator join. *)
Lemma join_parts_fold acc k parts :
  (0 < k)%nat →
  foldl (λ out '(i, part),
           (if bool_decide (0 < i)%nat then out ++ ["/"%byte] else out) ++ part)
        acc (imap (λ i, pair (k + i)%nat) parts) =
  acc ++ concat ((λ p, "/"%byte :: p) <$> parts).
Proof.
  revert acc k. induction parts as [|part parts IH]; intros acc k Hk; simpl.
  { by rewrite app_nil_r. }
  rewrite bool_decide_true by lia.
  erewrite imap_ext; [rewrite (IH _ (S k)) by lia|].
  - by rewrite <-!app_assoc.
  - intros i x _. simpl. f_equal. lia.
Qed.

Lemma join_parts_sep parts : join_parts parts = join_sep "/"%byte parts.
Proof.
  destruct parts as [|part parts]; [done|]. unfold join_parts. simpl.
  erewrite imap_ext; [rewrite (join_parts_fold _ 1) by lia|].
  - revert part. induction parts as [|p parts IH]; intros part; simpl; [by rewrite app_nil_r|].
    f_equal. f_equal. apply IH.
  - intros i x _. done.
Qed.

Lemma normalize_step_normal parts c :
  Forall normal_component parts → c = [] ∨ is_component c →
  Forall normal_component (normalize_step parts c).
Proof.
  intros Hparts Hc. unfold normalize_step.
  case_bool_decide; [done|]. case_bool_decide; [done|].
  case_bool_decide; [by apply Forall_take|].
  apply Forall_app. split; [done|]. apply Forall_singleton. split; naive_solver.
Qed.

Lemma foldl_normalize_normal parts cs :
  Forall normal_component parts → Forall is_component cs →
  Forall normal_component (foldl normalize_step parts cs).
Proof.
  intros Hparts Hcs. revert parts Hparts.
  induction Hcs as [|c cs Hc _ IH]; intros parts Hparts; simpl; [done|].
  apply IH, normalize_step_normal; auto.
Qed.

Lemma foldl_normalize_filter parts cs :
  foldl normalize_step parts (filter (λ c, c ≠ []) cs) = foldl normalize_step parts cs.
Proof.
  revert parts. induction cs as [|c cs IH]; intros parts; [done|].
  destruct (decide (c = [])) as [->|Hne].
  - by rewrite filter_cons_False by naive_solver.
  - rewrite filter_cons_True by done. simpl. apply IH.
Qed.

(** Normal components are pushed unchanged. *)
Lemma foldl_normalize_push parts cs :
  Forall normal_component cs → foldl normalize_step parts cs = parts ++ cs.
Proof.
  intros Hcs. revert parts. induction Hcs as [|c cs Hc _ IH]; intros parts; simpl.
  { by rewrite app_nil_r. }
  rewrite IH. unfold normalize_step. destruct Hc as ([Hne _] & Hdot & Hdd).
  rewrite !bool_decide_false by done. by rewrite <-app_assoc.
Qed.

Lemma resolve_comps_normal path : Forall normal_component (resolve (comps path)).
Proof. apply foldl_normalize_normal; [constructor|apply comps_Forall]. Qed.

Lemma resolve_app a b :
  Forall is_component a → resolve (resolve a ++ b) = resolve (a ++ b).
Proof.
  intros Ha. unfold resolve. rewrite !foldl_app. f_equal.
  apply (foldl_normalize_push []). apply foldl_normalize_normal; [constructor|done].
Qed.

Lemma normalize_bytes_join path :
  normalize_bytes path = join_sep "/"%byte (resolve (comps path)).
Proof.
  unfold normalize_bytes, resolve. rewrite join_parts_sep.
  rewrite <-(comps_trim path). unfold comps. by rewrite foldl_normalize_filter.
Qed.

Lemma filter_components parts :
  Forall is_component parts → filter (λ c : bytes, c ≠ []) parts = parts.
Proof.
  induction 1 as [|c parts [Hne _] _ IH]; [done|]. by rewrite filter_cons_True, IH.
Qed.

Lemma comps_join_sep parts :
  Forall is_component parts → comps (join_sep "/"%byte parts) = parts.
Proof.
  intros Hparts. destruct (decide (parts = [])) as [->|Hne]; [done|].
  unfold comps. rewrite split_on_join; [by apply filter_components|done| |done].
  eapply Forall_impl; [exact Hparts|]. by intros c [].
Qed.

Lemma comps_normalize path : comps (normalize_bytes path) = resolve (comps path).
Proof.
  rewrite normalize_bytes_join. apply comps_join_sep.
  eapply Forall_impl; [apply resolve_comps_normal|]. by intros c [].
Qed.

Lemma slashes_one : slashes ["/"%byte].
Proof. by apply Forall_singleton. Qed.

Lemma trim_slashes_slashes d s : slashes s → trim_slashes (d ++ s) = trim_slashes d.
Proof.
  intros Hs. destruct (trim_slashes_exists d) as (a & t & b & -> & Ha & Hb & Ht).
  rewrite <-!app_assoc, !trim_slashes_mid; try done. by apply Forall_app.
Qed.

Lemma split_path_bytes_sep d name :
  is_component name → split_path_bytes (d ++ "/"%byte :: name) = Ok (trim_slashes d, name).
Proof.
  intros Hname. pose proof (component_trimmed _ Hname) as Hn.
  destruct (trim_slashes_exists d) as (a & t & b & -> & Ha & Hb & Ht).
  rewrite (trim_slashes_mid a t b) by done. unfold split_path_bytes.
  pose proof Ht as [->|[(x & m & -> & Hx) _]].
  - assert (trim_slashes ((a ++ [] ++ b) ++ "/"%byte :: name) = name) as ->.
    { rewrite <-(app_nil_r name) at 1. change ("/"%byte :: name ++ []) with (["/"%byte] ++ name ++ []).
      rewrite app_assoc. apply trim_slashes_mid; [|constructor|done].
      apply Forall_app. split; [by apply Forall_app|apply slashes_one]. }
    rewrite bool_decide_false by apply Hname.
    assert (rposition is_slash name = None) as -> by (apply rposition_None; apply Hname).
    done.
  - assert (trim_slashes ((a ++ (x :: m) ++ b) ++ "/"%byte :: name) =
            ((x :: m) ++ b) ++ "/"%byte :: name) as ->.
    { rewrite <-app_assoc, <-(app_nil_r (((x :: m) ++ b) ++ _)) at 1.
      apply trim_slashes_mid; [done|constructor|]. right. split.
      - by exists x, ((m ++ b) ++ "/"%byte :: name).
      - destruct Hn as [->|[_ (n & y & -> & Hy)]]; [by destruct Hname|].
        exists (((x :: m) ++ b) ++ "/"%byte :: n), y. by rewrite <-!app_assoc. }
    rewrite bool_decide_false by done.
    rewrite rposition_intro by (done || apply Hname).
    rewrite take_app_length, drop_past. f_equal. f_equal.
    by apply (trim_slashes_mid [] (x :: m) b); [constructor|done|].
Qed.

(** ** Properties *)

(** [split_path_bytes] separates the final component from its parent: on
    success the components of the path are the components of the returned
    parent followed by the returned name, the name is one non-empty component
    and the parent carries no outer slash; it fails only for a path without
    components. *)
Theorem split_path_bytes_components path :
  match split_path_bytes path with
  | Ok (dir, name) =>
      components_bytes path = components_bytes dir ++ [name] ∧
      is_component name ∧ trim_slashes dir = dir
  | Err _ => components_bytes path = []
  end.
Proof.
  pose proof (split_path_bytes_spec path) as H.
  rewrite !components_bytes_comps. destruct (split_path_bytes path) as [[dir name]|[]]; [|done].
  destruct H as (Hn & Hd & Hc). rewrite components_bytes_comps.
  split; [done|]. split; [done|]. by apply trim_slashes_trimmed.
Qed.

(** joining a directory and a component and splitting the result gives the
    component back, with the directory up to its outer slashes. *)
Theorem split_join_roundtrip dir name :
  is_component name →
  split_path_bytes (join_path_bytes dir name) = Ok (trim_slashes dir, name).
Proof.
  intros Hname. unfold join_path_bytes. case_bool_decide as Hd; [subst|].
  - unfold split_path_bytes. rewrite trim_slashes_trimmed by by apply component_trimmed.
    rewrite bool_decide_false by apply Hname.
    by assert (rposition is_slash name = None) as -> by (apply rposition_None; apply Hname).
  - case_bool_decide as Hs; rewrite <-app_assoc; simpl; [by apply split_path_bytes_sep|].
    destruct dir as [|y m _] using rev_ind; [done|].
    rewrite last_snoc in Hs. assert (y = "/"%byte) as -> by (apply dec_stable; congruence).
    rewrite <-app_assoc. simpl. rewrite split_path_bytes_sep by done.
    by rewrite trim_slashes_slashes by apply slashes_one.
Qed.

Lemma split_join_roundtrip_witness :
  split_path_bytes (join_path_bytes (bstr "/a//") (bstr "b")) = Ok (bstr "a", bstr "b").
Proof.
  apply (split_join_roundtrip (bstr "/a//") (bstr "b")).
  split; [done|]. by repeat constructor.
Defined.

(** [normalize_bytes] computes the lexical meaning of a path: its
    components are the stack-machine meaning of the input's components, none of
    them is empty, ["."] or [".."], and normalizing twice changes nothing. *)
Theorem normalize_bytes_correct path :
  components_bytes (normalize_bytes path) = resolve (components_bytes path) ∧
  Forall normal_component (components_bytes (normalize_bytes path)) ∧
  normalize_bytes (normalize_bytes path) = normalize_bytes path.
Proof.
  rewrite !components_bytes_comps, comps_normalize.
  split; [done|]. split; [apply resolve_comps_normal|].
  rewrite !normalize_bytes_join, comps_join_sep.
  - f_equal. pose proof (resolve_app (comps path) [] (comps_Forall path)) as H.
    by rewrite !app_nil_r in H.
  - eapply Forall_impl; [apply resolve_comps_normal|]. by intros c [].
Qed.

(** a relative path may be joined to an already normalized directory:
    normalizing the directory first does not change the normalized result. *)
Theorem normalize_join_normalized dir name :
  normalize_bytes (join_path_bytes (normalize_bytes dir) name) =
  normalize_bytes (join_path_bytes dir name).
Proof.
  rewrite (normalize_bytes_join (join_path_bytes (normalize_bytes dir) name)).
  rewrite (normalize_bytes_join (join_path_bytes dir name)).
  rewrite !join_path_bytes_comps, comps_normalize.
  f_equal. apply resolve_app, comps_Forall.
Qed.

