(* ===== verification/Errors.v ===== *)
(** * Errors

    A model of [crates/vfsi-core/src/error.rs]: the low-level [RpcError], the
    portable [VfError] with its status, client or transport detail, and the
    conversions between them.  Messages are strings, paths are byte strings, and
    an [std::io::Error] is the three observations the code makes of it. *)

From stdpp Require Import base numbers list strings pretty.
From S2P Require Import Prelude.

(** [std::io::ErrorKind]: the categories the code names.  [OtherKind] stands for
    the remaining categories of the standard library by number. *)
Inductive ErrorKind : Set :=
| NotFound | PermissionDenied | AlreadyExists | NotADirectory | IsADirectory
| DirectoryNotEmpty | InvalidInput | InvalidData | InvalidFilename | Unsupported
| TimedOut | WouldBlock | Interrupted | StorageFull | QuotaExceeded
| StaleNetworkFileHandle | FileTooLarge | ReadOnlyFilesystem | ResourceBusy
| CrossesDevices | TooManyLinks | OutOfMemory | BrokenPipe | ConnectionRefused
| ConnectionReset | ConnectionAborted | NotConnected | Other
| OtherKind (n : nat).

#[global] Instance ErrorKind_eq_dec : EqDecision ErrorKind.
Proof. solve_decision. Defined.

(** What the code observes of an [std::io::Error]. *)
Record io_error : Type := IoError {
  io_kind : ErrorKind;
  io_raw_os_error : option Z;
  io_text : string;
}.

#[global] Instance io_error_eq_dec : EqDecision io_error.
Proof. solve_decision. Defined.

(** Linux errno values (the [libc] constants the code uses). *)
Definition ENOENT : Z := 2.
Definition EINTR : Z := 4.
Definition EIO : Z := 5.
Definition EBADF : Z := 9.
Definition EAGAIN : Z := 11.
Definition ENOMEM : Z := 12.
Definition EACCES : Z := 13.
Definition EBUSY : Z := 16.
Definition EEXIST : Z := 17.
Definition EXDEV : Z := 18.
Definition ENOTDIR : Z := 20.
Definition EISDIR : Z := 21.
Definition EINVAL : Z := 22.
Definition EMFILE : Z := 24.
Definition EFBIG : Z := 27.
Definition ENOSPC : Z := 28.
Definition EROFS : Z := 30.
Definition EMLINK : Z := 31.
Definition EPIPE : Z := 32.
Definition ENAMETOOLONG : Z := 36.
Definition ENOTEMPTY : Z := 39.
Definition EBADMSG : Z := 74.
Definition EOVERFLOW : Z := 75.
Definition EOPNOTSUPP : Z := 95.
Definition ECONNABORTED : Z := 103.
Definition ECONNRESET : Z := 104.
Definition ENOTCONN : Z := 107.
Definition ETIMEDOUT : Z := 110.
Definition ECONNREFUSED : Z := 111.
Definition ESTALE : Z := 116.
Definition EDQUOT : Z := 122.

(** [code as i32] for a [u32]. *)
Definition as_i32 (code : Z) : Z :=
  if code <=? I32_MAX then code else code - 2 ^ 32.
(** [code as u32] for an [i32]. *)
Definition i32_as_u32 (code : Z) : Z := code mod 2 ^ 32.

(** NFS4 status used for transport-level failures. *)
Definition STATUS_TRANSPORT : Z := U32_MAX.
Definition VF_ERR_RPC : Z := U32_MAX.
Definition VF_ERR_UNSUPPORTED : Z := U32_MAX - 1.

Inductive TransportKind : Set := Timeout | Connection | InvalidReply | Auth | OtherTransport.

#[global] Instance TransportKind_eq_dec : EqDecision TransportKind.
Proof. solve_decision. Defined.

(** ** RpcError *)

Module RpcError.
Record t : Type := Make {
  op_index : Z;
  status : Z;
  message : string;
  transport_kind : option TransportKind;
}.

Definition op (op_index status : Z) : t := Make op_index status "" None.

Definition transport_with_kind (kind : TransportKind) (message : string) : t :=
  Make 0 STATUS_TRANSPORT message (Some kind).

Definition transport (message : string) : t := transport_with_kind OtherTransport message.

Definition from_io (error : io_error) : t :=
  let kind :=
    match io_kind error with
    | TimedOut => Timeout
    | ConnectionRefused | ConnectionReset | ConnectionAborted | NotConnected
    | BrokenPipe => Connection
    | _ => OtherTransport
    end in
  transport_with_kind kind (io_text error).

Definition is_transport (e : t) : bool := status e =? STATUS_TRANSPORT.

Definition with_op_index (e : t) (index : Z) : t :=
  Make index (status e) (message e) (transport_kind e).

Definition with_message (e : t) (message : string) : t :=
  Make (op_index e) (status e) message (transport_kind e).

#[global] Instance RpcError_eq_dec : EqDecision t.
Proof. solve_decision. Defined.
End RpcError.

Abbreviation RpcResult := (result RpcError.t).

(** ** VfError *)

Inductive StatusCode : Set :=
| Errno (code : Z)
| NfsStatus (code : Z)
| SmbStatus (code : Z).

Inductive ErrorDetail : Set :=
| StatusDetail (status : StatusCode)
| ClientDetail (kind : ErrorKind)
| TransportDetail (kind : TransportKind).

Inductive ErrorDomain : Set := FilesystemDomain | NfsDomain | SmbDomain | TransportDomain | ClientDomain.

#[global] Instance StatusCode_eq_dec : EqDecision StatusCode.
Proof. solve_decision. Defined.
#[global] Instance ErrorDetail_eq_dec : EqDecision ErrorDetail.
Proof. solve_decision. Defined.

Module VfError.
Record context := Context {
  ctx_operation : option string;
  ctx_path : option bytes;
  ctx_message : option string;
  ctx_source : option io_error;
}.

Record t : Type := Make {
  index : option Z;
  detail : ErrorDetail;
  ctx : option context;
}.

Definition empty_context : context := Context None None None None.

(** [context_mut] followed by one field update. *)
Definition update_context (f : context → context) (e : t) : t :=
  Make (index e) (detail e) (Some (f (default empty_context (ctx e)))).

Definition from_status (index : option Z) (status : StatusCode) : t :=
  Make index (StatusDetail status) None.
Definition errno (index : option Z) (code : Z) : t := from_status index (Errno code).
Definition from_kind (index : option Z) (kind : ErrorKind) : t :=
  Make index (ClientDetail kind) None.
Definition nfs (index : option Z) (status : Z) : t := from_status index (NfsStatus status).
Definition smb (index : option Z) (status : Z) : t := from_status index (SmbStatus status).

Definition with_message (e : t) (message : string) : t :=
  update_context (λ c, Context (ctx_operation c) (ctx_path c) (Some message) (ctx_source c)) e.

Definition with_context (e : t) (operation : string) (path : bytes) : t :=
  update_context (λ c, Context (Some operation) (Some path) (ctx_message c) (ctx_source c)) e.

Definition from_io (index : option Z) (source : io_error) : t :=
  let error :=
    match io_raw_os_error source with
    | Some code => errno index (i32_as_u32 code)
    | None => from_kind index (io_kind source)
    end in
  update_context (λ c, Context (ctx_operation c) (ctx_path c) (ctx_message c) (Some source)) error.

Definition transport_with_kind (index : option Z) (kind : TransportKind) (message : string) : t :=
  with_message (Make index (TransportDetail kind) None) message.
Definition transport (index : option Z) (message : string) : t :=
  transport_with_kind index OtherTransport message.
Definition invalid_reply (index : option Z) (message : string) : t :=
  transport_with_kind index InvalidReply message.
Definition unsupported (index : option Z) : t := from_kind index Unsupported.

Definition status (e : t) : option StatusCode :=
  match detail e with StatusDetail s => Some s | _ => None end.

Definition domain (e : t) : ErrorDomain :=
  match detail e with
  | StatusDetail (Errno _) => FilesystemDomain
  | StatusDetail (NfsStatus _) => NfsDomain
  | StatusDetail (SmbStatus _) => SmbDomain
  | ClientDetail _ => ClientDomain
  | TransportDetail _ => TransportDomain
  end.

Definition is_transport (e : t) : bool :=
  match detail e with TransportDetail _ => true | _ => false end.

Definition transport_kind (e : t) : option TransportKind :=
  match detail e with TransportDetail k => Some k | _ => None end.

Definition message (e : t) : option string := ctx e ≫= ctx_message.
Definition operation (e : t) : option string := ctx e ≫= ctx_operation.
Definition path (e : t) : option bytes := ctx e ≫= ctx_path.

Definition transport_message (e : t) : option string :=
  if is_transport e then message e else None.

Definition with_index (e : t) (i : Z) : t := Make (Some i) (detail e) (ctx e).
Definition map_index (e : t) (f : Z → Z) : t := Make (f <$> index e) (detail e) (ctx e).

(** The portable category of an NFSv4 status. *)
Definition nfs_kind (code : Z) : ErrorKind :=
  match code with
  | 1 | 13 | 10016 => PermissionDenied
  | 2 => NotFound
  | 17 => AlreadyExists
  | 18 => CrossesDevices
  | 20 => NotADirectory
  | 21 => IsADirectory
  | 22 => InvalidInput
  | 27 => FileTooLarge
  | 28 => StorageFull
  | 30 => ReadOnlyFilesystem
  | 31 => TooManyLinks
  | 63 => InvalidFilename
  | 66 => DirectoryNotEmpty
  | 69 => QuotaExceeded
  | 70 => StaleNetworkFileHandle
  | 10004 | 10019 | 10032 => Unsupported
  | 10008 => WouldBlock
  | _ => Other
  end.

(** The portable category of an SMB status. *)
Definition smb_kind (code : Z) : ErrorKind :=
  match code with
  | 0xc0000022 | 0xc000006d | 0xc000006a | 0xc000006e | 0xc0000071
  | 0xc0000072 | 0xc0000234 | 0xc000006f | 0xc0000070 | 0xc0000193
  | 0xc0000224 => PermissionDenied
  | 0xc000000f | 0xc0000034 | 0xc000003a | 0xc00000cc => NotFound
  | 0xc0000035 => AlreadyExists
  | 0xc000000d => InvalidInput
  | 0xc0000033 | 0xc0000106 => InvalidFilename
  | 0xc0000043 | 0xc0000054 => ResourceBusy
  | 0xc000007f => StorageFull
  | 0xc0000044 => QuotaExceeded
  | 0xc00000a2 => ReadOnlyFilesystem
  | 0xc0000002 | 0xc0000010 | 0xc00000bb | 0xc0000257 => Unsupported
  | 0xc0000101 => DirectoryNotEmpty
  | 0xc0000103 => NotADirectory
  | 0xc00000ba => IsADirectory
  | 0xc00000d4 => CrossesDevices
  | _ => Other
  end.

(** The errno that stands for a category at a language boundary. *)
Definition kind_errno (kind : ErrorKind) : Z :=
  match kind with
  | NotFound => ENOENT
  | PermissionDenied => EACCES
  | AlreadyExists => EEXIST
  | NotADirectory => ENOTDIR
  | IsADirectory => EISDIR
  | DirectoryNotEmpty => ENOTEMPTY
  | InvalidInput => EINVAL
  | InvalidData => EBADMSG
  | InvalidFilename => ENAMETOOLONG
  | Unsupported => EOPNOTSUPP
  | TimedOut => ETIMEDOUT
  | WouldBlock => EAGAIN
  | Interrupted => EINTR
  | StorageFull => ENOSPC
  | QuotaExceeded => EDQUOT
  | StaleNetworkFileHandle => ESTALE
  | FileTooLarge => EFBIG
  | ReadOnlyFilesystem => EROFS
  | ResourceBusy => EBUSY
  | CrossesDevices => EXDEV
  | TooManyLinks => EMLINK
  | OutOfMemory => ENOMEM
  | BrokenPipe => EPIPE
  | ConnectionRefused => ECONNREFUSED
  | ConnectionReset => ECONNRESET
  | ConnectionAborted => ECONNABORTED
  | NotConnected => ENOTCONN
  | _ => EIO
  end.

Section OsKind.
(** The platform's classification of a raw errno
    ([std::io::Error::from_raw_os_error(code).kind()]). *)
Variable os_error_kind : Z → ErrorKind.

Definition kind (e : t) : ErrorKind :=
  match detail e with
  | ClientDetail k => k
  | TransportDetail Timeout => TimedOut
  | TransportDetail InvalidReply => InvalidData
  | TransportDetail Auth => PermissionDenied
  | TransportDetail _ => Other
  | StatusDetail (Errno code) => os_error_kind (as_i32 code)
  | StatusDetail (NfsStatus code) => nfs_kind code
  | StatusDetail (SmbStatus code) => smb_kind code
  end.

Definition to_errno (e : t) : Z :=
  match status e with
  | Some (Errno code) => as_i32 code
  | _ => kind_errno (kind e)
  end.

Definition raw_code (e : t) : Z :=
  match detail e with
  | StatusDetail (Errno n) | StatusDetail (NfsStatus n) | StatusDetail (SmbStatus n) => n
  | TransportDetail _ => VF_ERR_RPC
  | ClientDetail Unsupported => VF_ERR_UNSUPPORTED
  | ClientDetail _ => i32_as_u32 (to_errno e)
  end.
End OsKind.

#[global] Instance context_eq_dec : EqDecision context.
Proof. solve_decision. Defined.
#[global] Instance VfError_eq_dec : EqDecision t.
Proof. solve_decision. Defined.
End VfError.

Abbreviation VfResult := (result VfError.t).

(** ** Conversions *)

Definition error_from_rpc (error : RpcError.t) (index : option Z) : VfError.t :=
  if RpcError.is_transport error then
    VfError.transport_with_kind index
      (default OtherTransport (RpcError.transport_kind error)) (RpcError.message error)
  else
    let result := VfError.nfs index (RpcError.status error) in
    if bool_decide (RpcError.message error = "") then result
    else VfError.with_message result (RpcError.message error).

Definition error_from_rpc_indexed (error : RpcError.t) : VfError.t :=
  if RpcError.is_transport error then error_from_rpc error None
  else error_from_rpc error (Some (RpcError.op_index error)).

(** ** Properties *)

Lemma kind_errno_pos k : 0 < VfError.kind_errno k <= 122.
Proof. by destruct k. Qed.

(** The indexed conversion of a low-level error never invents an
    attribution: a transport failure becomes a transport error without an input
    index, and a server status keeps its code, its operation index and its
    message. *)
Theorem error_from_rpc_indexed_attribution e :
  VfError.is_transport (error_from_rpc_indexed e) = RpcError.is_transport e ∧
  VfError.index (error_from_rpc_indexed e) =
    (if RpcError.is_transport e then None else Some (RpcError.op_index e)) ∧
  VfError.status (error_from_rpc_indexed e) =
    (if RpcError.is_transport e then None else Some (NfsStatus (RpcError.status e))) ∧
  (∀ k, RpcError.is_transport e = true → RpcError.transport_kind e = Some k →
    VfError.transport_kind (error_from_rpc_indexed e) = Some k).
Proof.
  unfold error_from_rpc_indexed, error_from_rpc.
  destruct (RpcError.is_transport e); simpl.
  - repeat split; try done. by intros k _ ->.
  - case_bool_decide; repeat split; done.
Qed.

(** no error is reported as success at an errno boundary: outside the errno
    namespace the lossy errno is a small positive Linux errno, and the
    compatibility code of a status error is the untouched native status. *)
Theorem to_errno_positive os_error_kind e :
  (∀ code, VfError.status e ≠ Some (Errno code)) →
  0 < VfError.to_errno os_error_kind e <= 122 ∧
  ∀ n, VfError.status e = Some (NfsStatus n) ∨ VfError.status e = Some (SmbStatus n) →
    VfError.raw_code os_error_kind e = n.
Proof.
  intros Hs. unfold VfError.to_errno. split.
  - destruct (VfError.status e) as [[code|n|n]|] eqn:He; try apply kind_errno_pos.
    by destruct (Hs code).
  - unfold VfError.raw_code, VfError.status. destruct (VfError.detail e) as [[]| |]; naive_solver.
Qed.

Lemma to_errno_positive_witness :
  0 < VfError.to_errno (λ _, Other) (VfError.nfs (Some 3) 10018) <= 122.
Proof. apply (to_errno_positive (λ _, Other) (VfError.nfs (Some 3) 10018)). done. Defined.
