(* ===== verification/Planner.v ===== *)
(** * Failure attribution and adaptive batching

    A model of [crates/vfsi-nfs/src/planner.rs]: the adaptive batch sizer and the
    per-shape compound limits, the map from response positions to caller items
    with its reply analysis, and the recovery policy.  The specification of the
    analysis is the execution rule of an NFSv4.1 COMPOUND: the server evaluates
    the operations in order and stops after the first one that fails. *)

From stdpp Require Import base numbers list list_numbers gmap strings.
From S2P Require Import Prelude.

Definition NFS_OK : Z := 0.
Definition NFS4ERR_IO : Z := 5.
Definition NFS4ERR_INVAL : Z := 22.
Definition NFS4ERR_RESOURCE : Z := 10018.
Definition NFS4ERR_MINOR_VERS_MISMATCH : Z := 10021.
Definition NFS4ERR_OLD_STATEID : Z := 10024.
Definition NFS4ERR_BAD_STATEID : Z := 10025.
Definition NFS4ERR_BADSESSION : Z := 10052.
Definition NFS4ERR_COMPLETE_ALREADY : Z := 10054.
Definition NFS4ERR_REQ_TOO_BIG : Z := 10065.
Definition NFS4ERR_REP_TOO_BIG : Z := 10066.
Definition NFS4ERR_TOO_MANY_OPS : Z := 10070.
Definition NFS4ERR_DEADSESSION : Z := 10078.

(** ** Adaptive batch sizer *)

Module AdaptiveBatchSizer.
Record t := Make {
  current : Z;
  ceiling : Z;
  resource_backoff : Z;
  successes_at_limit : Z;
}.

Definition new (conservative_start negotiated_capacity : Z) : t :=
  let ceiling := Z.max negotiated_capacity 1 in
  Make (Z.min (Z.max conservative_start 1) ceiling) ceiling 0 0.

Definition next (s : t) (remaining caller_cap : Z) : Z :=
  let cap := if caller_cap =? 0 then current s else Z.min (current s) caller_cap in
  Z.min remaining cap.

Definition succeeded (s : t) (attempted : Z) (more_work : bool) : t :=
  if negb more_work || (attempted <? sat_sub (current s) 16) then s
  else
    let successes := successes_at_limit s + 1 in
    let needed := Z.shiftl 1 (resource_backoff s) in
    if needed <=? successes then
      Make (Z.min (sat_add (current s) 8) (ceiling s)) (ceiling s) (resource_backoff s) 0
    else Make (current s) (ceiling s) (resource_backoff s) successes.

Definition resource_rejected (s : t) (attempted : Z) : t :=
  Make (Z.min (current s) (Z.max (attempted / 2) 1)) (ceiling s)
    (Z.min (Z.min (resource_backoff s + 1) U8_MAX) 5) 0.

Definition op_limit_rejected (s : t) (attempted : Z) : t :=
  if 1 <? attempted then
    Make (Z.min (current s) (Z.max (attempted / 2) 1))
      (Z.min (ceiling s) (attempted - 1)) (resource_backoff s) 0
  else s.

(** The sizer's invariant: the window never leaves [1 .. ceiling], the back-off
    exponent is at most five and the success counter stays below the number of
    successes the back-off asks for. *)
Definition wf (s : t) : Prop :=
  1 <= current s <= ceiling s ∧ ceiling s <= USIZE_MAX ∧
  0 <= resource_backoff s <= 5 ∧
  0 <= successes_at_limit s < 2 ^ resource_backoff s.
End AdaptiveBatchSizer.

(** ** Per-shape compound limits *)

Module AdaptiveCompoundLimits.
Record t := Make {
  negotiated_ops : Z;
  shapes : gmap bytes AdaptiveBatchSizer.t;
}.

Definition new (negotiated_ops : Z) : t := Make negotiated_ops ∅.

(** The read-only shapes that start at 96 operations. *)
Definition probing_shapes : list bytes :=
  [bstr "lookup_typev"; bstr "getattrv"; bstr "getattrv1"; bstr "vstatfs_impl";
   bstr "readlinkv"; bstr "readv"; bstr "readv1"; bstr "readv2";
   bstr "readdir_children"; bstr "readdir_pages"].

Definition starting_ops (tag : bytes) (negotiated_ops : Z) : Z :=
  if bool_decide (tag = bstr "removev") then 26
  else if bool_decide (tag = bstr "lookupv") then 73
  else if bool_decide (tag ∈ probing_shapes) then 96
  else negotiated_ops.

Definition limit (l : t) (tag : bytes) : Z :=
  match shapes l !! tag with
  | Some size => AdaptiveBatchSizer.next size USIZE_MAX 0
  | None => Z.min (starting_ops tag (negotiated_ops l)) (negotiated_ops l)
  end.

Definition record (size : AdaptiveBatchSizer.t) (sent_ops status reply_ops : Z)
    : AdaptiveBatchSizer.t :=
  if status =? NFS_OK then AdaptiveBatchSizer.succeeded size sent_ops true
  else if status =? NFS4ERR_RESOURCE then AdaptiveBatchSizer.resource_rejected size sent_ops
  else if status =? NFS4ERR_TOO_MANY_OPS then AdaptiveBatchSizer.op_limit_rejected size sent_ops
  else size.

Definition observe (l : t) (tag : bytes) (sent_ops status reply_ops : Z) : t :=
  match shapes l !! tag with
  | Some size =>
      Make (negotiated_ops l) (<[tag := record size sent_ops status reply_ops]> (shapes l))
  | None =>
      let size := AdaptiveBatchSizer.new (starting_ops tag (negotiated_ops l)) (negotiated_ops l) in
      Make (negotiated_ops l) (<[tag := record size sent_ops status reply_ops]> (shapes l))
  end.

Definition wf (l : t) : Prop :=
  1 <= negotiated_ops l <= USIZE_MAX ∧
  ∀ tag size, shapes l !! tag = Some size →
    AdaptiveBatchSizer.wf size ∧ AdaptiveBatchSizer.ceiling size <= negotiated_ops l.

(** One observed reply. *)
Record observation := Observation {
  obs_tag : bytes;
  obs_sent : Z;
  obs_status : Z;
  obs_reply_ops : Z;
}.

Definition observe_all (l : t) (os : list observation) : t :=
  foldl (λ l o, observe l (obs_tag o) (obs_sent o) (obs_status o) (obs_reply_ops o)) l os.
End AdaptiveCompoundLimits.

(** ** Replies *)

(** The [ReplyView] trait: the compound status and the per-operation statuses. *)
Class ReplyView (R : Type) := {
  rv_status : R → Z;
  rv_nops : R → Z;
  rv_op_status : R → Z → Z;
}.

(** A decoded reply holds at most [usize::MAX] operations. *)
Class ReplyViewLaws (R : Type) `{ReplyView R} :=
  rv_nops_range : ∀ r : R, 0 <= rv_nops r <= USIZE_MAX.

(** The deterministic reply of the planner's tests, and the reply a conforming
    server produces. *)
Record MockReply := Mock { mock_status : Z; mock_ops : list Z }.

#[global] Instance MockReply_view : ReplyView MockReply := {|
  rv_status := mock_status;
  rv_nops r := Z.of_nat (length (mock_ops r));
  rv_op_status r i := default 0 (mock_ops r !! Z.to_nat i);
|}.

Definition resource_rejected_before_mutation {R} `{ReplyView R} (reply : R) : bool :=
  if negb (rv_status reply =? NFS4ERR_RESOURCE)
     && negb (rv_status reply =? NFS4ERR_TOO_MANY_OPS) then false
  else
    match rv_nops reply with
    | 0 | 1 => true
    | 2 => negb (rv_op_status reply 1 =? NFS_OK)
    | _ => false
    end.

(** ** Execution map *)

Record ItemFailure := Failure { if_caller : Z; if_op_index : Z; if_status : Z }.

Record ExecutionReport := Report {
  completed : list Z;
  failure : option ItemFailure;
  unexecuted : list Z;
  compound_failure : option Z;
  compound_failure_op : option Z;
}.

Inductive MalformedReply :=
| MissingSequence
| TruncatedItem (caller expected_end actual : Z)
| OperationsAfterFailure (failed_op actual : Z)
| StatusMismatch (compound operation : Z).

Module ExecutionMap.
(** [(caller index, first op, end op exclusive)]. *)
Definition range : Type := Z * Z * Z.
Definition r_caller (r : range) : Z := r.1.1.
Definition r_start (r : range) : Z := r.1.2.
Definition r_end (r : range) : Z := r.2.

Record t := Make { ranges : list range; next : Z }.

Definition new : t := Make [] 1.

Definition begin (m : t) (caller : Z) : t :=
  Make (ranges m ++ [(caller, next m, next m)]) (next m).

Definition note_ops (m : t) (count : Z) : t := Make (ranges m) (sat_add (next m) count).

Definition end_ (m : t) : t :=
  match last (ranges m) with
  | Some r =>
      Make (take (length (ranges m) - 1) (ranges m) ++ [(r_caller r, r_start r, next m)]) (next m)
  | None => m
  end.

Definition completed_ranges (m : t) (report : ExecutionReport) : list range :=
  take (length (completed report)) (ranges m).

Definition executed_ranges (m : t) (report : ExecutionReport) : list (Z * Z) :=
  ((λ r, (r_start r, r_end r)) <$> completed_ranges m report) ++
  match failure report with
  | Some f =>
      match list_find (λ r, r_caller r = if_caller f) (ranges m) with
      | Some (_, r) => [(r_start r, if_op_index f)]
      | None => []
      end
  | None => []
  end.

Section Analyze.
Context {R : Type} `{ReplyView R}.

(** The inner loop: the first failing operation in [[from, from + count)]. *)
Fixpoint find_failed (reply : R) (from : Z) (count : nat) : option (Z * Z) :=
  match count with
  | O => None
  | S count =>
      let status := rv_op_status reply from in
      if negb (status =? NFS_OK) then Some (from, status)
      else find_failed reply (from + 1) count
  end.

(** The outer loop over the ranges; [done] is the completed prefix. *)
Fixpoint analyze_ranges (reply : R) (rs : list range) (done : list Z)
    : result MalformedReply (list Z * option ItemFailure * list Z) :=
  match rs with
  | [] => Ok (done, None, [])
  | (caller, start, end_) :: rest =>
      if rv_nops reply <=? start then Ok (done, None, r_caller <$> rs)
      else
        match find_failed reply start (Z.to_nat (Z.min end_ (rv_nops reply) - start)) with
        | Some (op_index, status) =>
            if negb (rv_nops reply =? op_index + 1) then
              Err (OperationsAfterFailure op_index (rv_nops reply))
            else if negb (rv_status reply =? status) then
              Err (StatusMismatch (rv_status reply) status)
            else Ok (done, Some (Failure caller op_index status), r_caller <$> rest)
        | None =>
            if rv_nops reply <? end_ then
              Err (TruncatedItem caller end_ (rv_nops reply))
            else analyze_ranges reply rest (done ++ [caller])
        end
  end.

Definition analyze (m : t) (reply : R) : result MalformedReply ExecutionReport :=
  if rv_nops reply =? 0 then
    if negb (rv_status reply =? NFS_OK) then
      Ok (Report [] None (r_caller <$> ranges m) (Some (rv_status reply)) None)
    else Err MissingSequence
  else if negb (rv_op_status reply 0 =? NFS_OK) then
    Ok (Report [] None (r_caller <$> ranges m) (Some (rv_op_status reply 0)) (Some 0))
  else
    '(completed, failure, unexecuted) ← analyze_ranges reply (ranges m) [];
    match failure with
    | None =>
        if negb (rv_status reply =? NFS_OK) then
          let op_index := rv_nops reply - 1 in
          let operation := rv_op_status reply op_index in
          if negb (operation =? rv_status reply) then
            Err (StatusMismatch (rv_status reply) operation)
          else Ok (Report completed failure unexecuted (Some (rv_status reply)) (Some op_index))
        else Ok (Report completed failure unexecuted None None)
    | Some _ => Ok (Report completed failure unexecuted None None)
    end.
End Analyze.

(** Ranges in execution order: every item starts at or after the end of the
    previous one, and after the implicit SEQUENCE at index zero. *)
Fixpoint wf_from (lo : Z) (rs : list range) : Prop :=
  match rs with
  | [] => True
  | r :: rest => lo <= r_start r ∧ r_start r <= r_end r ∧ wf_from (r_end r) rest
  end.

Definition wf (m : t) : Prop :=
  wf_from 1 (ranges m) ∧ 1 <= next m <= USIZE_MAX ∧
  Forall (λ r, r_end r <= next m) (ranges m).

(** Every item appended at least one operation. *)
Definition items_nonempty (m : t) : Prop := Forall (λ r, r_start r < r_end r) (ranges m).
End ExecutionMap.

(** ** COMPOUND execution

    RFC 8881: the server evaluates the operations in order and stops after the
    first one whose status is not NFS4_OK; the compound status is the status of
    the last operation evaluated.  [outs] are the statuses the operations
    (SEQUENCE first) would return. *)

Fixpoint run_ops (outs : list Z) : list Z :=
  match outs with
  | [] => []
  | o :: rest => if o =? NFS_OK then o :: run_ops rest else [o]
  end.

Definition conforming_reply (outs : list Z) : MockReply :=
  Mock (default NFS_OK (last (run_ops outs))) (run_ops outs).

(** The index of the first operation that fails, or the number of operations. *)
Fixpoint first_failure (outs : list Z) : Z :=
  match outs with
  | [] => 0
  | o :: rest => if o =? NFS_OK then 1 + first_failure rest else 0
  end.

(** What the execution rule says of the items of a map: an item whose operations
    all precede the first failure completed, the one the first failure falls
    into failed there, and one that starts after it was not executed.  A
    failure outside every item is reported for the compound. *)
Definition expected_report (m : ExecutionMap.t) (outs : list Z) : ExecutionReport :=
  let ff := first_failure outs in
  let st := default NFS_OK (outs !! Z.to_nat ff) in
  let hit := head (filter (λ r, ExecutionMap.r_start r <= ff < ExecutionMap.r_end r)
                     (ExecutionMap.ranges m)) in
  let trailing := bool_decide (hit = None) && (ff <? Z.of_nat (length outs)) in
  Report (ExecutionMap.r_caller <$> filter (λ r, ExecutionMap.r_end r <= ff) (ExecutionMap.ranges m))
    ((λ r, Failure (ExecutionMap.r_caller r) ff st) <$> hit)
    (ExecutionMap.r_caller <$> filter (λ r, ff < ExecutionMap.r_start r) (ExecutionMap.ranges m))
    (if trailing then Some st else None) (if trailing then Some ff else None).

(** Only the last returned operation may have failed. *)
Definition stops_at_failure {R} `{ReplyView R} (reply : R) : Prop :=
  ∀ i, 0 <= i < rv_nops reply - 1 → rv_op_status reply i = NFS_OK.

(** ** Recovery policy *)

Inductive RequestSafety := ReadOnly | IdempotentMutation | NonIdempotentMutation.
Inductive FailureCause := ItemStatus | ResourceLimit | Transport (exact_replay : bool).
Inductive RecoveryAction :=
| ContinueSuffix | ReplaySame | ReconnectAndRetry | SplitAndRetry | ReturnFailure | Ambiguous.

#[global] Instance RecoveryAction_eq_dec : EqDecision RecoveryAction.
Proof. solve_decision. Defined.

Definition recovery_action (safety : RequestSafety) (cause : FailureCause)
    (independent_suffix : bool) : RecoveryAction :=
  match cause with
  | ItemStatus => if independent_suffix then ContinueSuffix else ReturnFailure
  | ResourceLimit => SplitAndRetry
  | Transport true => ReplaySame
  | Transport false =>
      match safety with
      | ReadOnly => ReconnectAndRetry
      | IdempotentMutation | NonIdempotentMutation => Ambiguous
      end
  end.

(** ** Sizer lemmas *)

Module SizerLemmas.
Import AdaptiveBatchSizer.

Lemma sizer_new_wf start cap : cap <= USIZE_MAX → wf (new start cap).
Proof. intros ?. unfold wf, new; simpl. ints. Qed.

Lemma succeeded_wf s n more : wf s → wf (succeeded s n more).
Proof.
  intros (Hc & Hm & Hb & Hs). unfold succeeded. case_match; [done|].
  rewrite Z.shiftl_1_l. destruct (Z.leb_spec (2 ^ resource_backoff s) (successes_at_limit s + 1)).
  - unfold wf; simpl. pose proof (Z.pow_pos_nonneg 2 (resource_backoff s)). ints.
  - unfold wf; simpl. lia.
Qed.

Lemma resource_rejected_wf s n : wf s → wf (resource_rejected s n).
Proof.
  intros (Hc & Hm & Hb & Hs). unfold wf, resource_rejected; simpl.
  set (b := Z.min _ 5). assert (0 <= b <= 5) by (subst b; ints).
  pose proof (Z.pow_pos_nonneg 2 b). ints.
Qed.

Lemma op_limit_rejected_wf s n : wf s → wf (op_limit_rejected s n).
Proof.
  intros (Hc & Hm & Hb & Hs). unfold op_limit_rejected.
  destruct (Z.ltb_spec 1 n); [|done]. unfold wf; simpl.
  pose proof (Z.pow_pos_nonneg 2 (resource_backoff s)).
  assert (n / 2 <= n - 1) by (apply Z.div_le_upper_bound; lia). ints.
Qed.

Lemma record_wf s n st k : wf s → wf (AdaptiveCompoundLimits.record s n st k).
Proof.
  intros Hs. unfold AdaptiveCompoundLimits.record.
  repeat case_match; auto using succeeded_wf, resource_rejected_wf, op_limit_rejected_wf.
Qed.

(** The ceiling never grows. *)
Lemma record_ceiling s n st k : ceiling (AdaptiveCompoundLimits.record s n st k) <= ceiling s.
Proof.
  unfold AdaptiveCompoundLimits.record, succeeded, resource_rejected, op_limit_rejected.
  repeat case_match; simpl; lia.
Qed.
End SizerLemmas.

Module LimitsLemmas.
Import AdaptiveCompoundLimits.

(** The sizer an observation starts from. *)
Definition sizer_of (l : t) (tag : bytes) : AdaptiveBatchSizer.t :=
  default (AdaptiveBatchSizer.new (starting_ops tag (negotiated_ops l)) (negotiated_ops l))
    (shapes l !! tag).

Lemma observe_eq l tag n st k :
  observe l tag n st k =
  Make (negotiated_ops l) (<[tag := record (sizer_of l tag) n st k]> (shapes l)).
Proof. unfold observe, sizer_of. by destruct (shapes l !! tag). Qed.

Lemma sizer_of_wf l tag :
  wf l → AdaptiveBatchSizer.wf (sizer_of l tag) ∧
         AdaptiveBatchSizer.ceiling (sizer_of l tag) <= negotiated_ops l.
Proof.
  intros [Hn Hs]. unfold sizer_of. destruct (shapes l !! tag) as [size|] eqn:E; simpl.
  - eauto.
  - split; [apply SizerLemmas.sizer_new_wf; lia | simpl; lia].
Qed.

Lemma starting_ops_pos tag n : 1 <= n → 1 <= starting_ops tag n.
Proof. intros ?. unfold starting_ops. repeat case_bool_decide; lia. Qed.

Lemma limit_sizer l tag : wf l → limit l tag = AdaptiveBatchSizer.current (sizer_of l tag).
Proof.
  intros Hwf. pose proof (sizer_of_wf l tag Hwf) as [[Hc [Hm _]] Hn]. destruct Hwf as [Hneg _].
  unfold limit, sizer_of in *. destruct (shapes l !! tag); simpl in *.
  - unfold AdaptiveBatchSizer.next; simpl. lia.
  - pose proof (starting_ops_pos tag (negotiated_ops l)). lia.
Qed.

Lemma observe_wf l tag n st k : wf l → wf (observe l tag n st k).
Proof.
  intros Hwf. pose proof (sizer_of_wf l tag Hwf) as [Hw Hc]. destruct Hwf as [Hn Hs].
  rewrite observe_eq. split; [done|]. intros tag' size; simpl.
  intros [[<- <-]|[_ E]]%lookup_insert_Some; [|eauto].
  split; [by apply SizerLemmas.record_wf|].
  etransitivity; [apply SizerLemmas.record_ceiling | done].
Qed.

Lemma observe_all_wf l os : wf l → wf (observe_all l os).
Proof.
  revert l. unfold observe_all. induction os as [|o os IH]; intros l Hl; simpl; [done|].
  by apply IH, observe_wf.
Qed.

Lemma observe_negotiated l tag n st k : negotiated_ops (observe l tag n st k) = negotiated_ops l.
Proof. by rewrite observe_eq. Qed.

Lemma observe_all_negotiated l os : negotiated_ops (observe_all l os) = negotiated_ops l.
Proof.
  revert l. unfold observe_all. induction os as [|o os IH]; intros l; simpl; [done|].
  by rewrite IH, observe_negotiated.
Qed.

Lemma sizer_of_observe l tag tag' n st k :
  sizer_of (observe l tag n st k) tag' =
  if decide (tag = tag') then record (sizer_of l tag) n st k else sizer_of l tag'.
Proof.
  rewrite observe_eq. unfold sizer_of; simpl. destruct (decide (tag = tag')) as [->|Hne].
  - by rewrite lookup_insert_eq.
  - by rewrite lookup_insert_ne.
Qed.

Lemma observe_all_ceiling l os tag :
  AdaptiveBatchSizer.ceiling (sizer_of (observe_all l os) tag)
    <= AdaptiveBatchSizer.ceiling (sizer_of l tag).
Proof.
  revert l. unfold observe_all. induction os as [|o os IH]; intros l; simpl; [done|].
  etransitivity; [apply IH|]. rewrite sizer_of_observe. case_decide; [|done]. subst.
  apply SizerLemmas.record_ceiling.
Qed.

Lemma observe_all_other l os tag :
  Forall (λ o, obs_tag o ≠ tag) os → sizer_of (observe_all l os) tag = sizer_of l tag.
Proof.
  revert l. unfold observe_all. induction os as [|o os IH]; intros l; simpl; [done|].
  intros [Ho Hos]%Forall_cons. rewrite IH by done. by rewrite sizer_of_observe, decide_False.
Qed.

(** The batching windows are safe under every history of replies.  Whatever
    sequence of replies a session observed, for whatever shapes and with
    whatever statuses, the window of every shape is at least one operation (so
    a batch loop always makes progress) and at most the operation count
    CREATE_SESSION negotiated (so a compound is never larger than the server
    agreed to). *)
Theorem limit_within_negotiated (ops : Z) (os : list observation) (tag : bytes) :
  1 <= ops <= USIZE_MAX →
  1 <= limit (observe_all (new ops) os) tag <= ops.
Proof.
  intros Hops. assert (Hwf : wf (observe_all (new ops) os)).
  { apply observe_all_wf. split; [done|]. intros ??; simpl. by rewrite lookup_empty. }
  rewrite limit_sizer by done. destruct (sizer_of_wf _ tag Hwf) as [[Hc _] Hn].
  rewrite observe_all_negotiated in Hn. simpl in Hn. lia.
Qed.

Lemma limit_within_negotiated_witness :
  1 <= limit (observe_all (new 64)
         [Observation (bstr "removev") 26 NFS4ERR_TOO_MANY_OPS 0;
          Observation (bstr "removev") 13 NFS4ERR_RESOURCE 1]) (bstr "removev") <= 64.
Proof. apply limit_within_negotiated. vm_compute. done. Defined.

(** A rejected size is never tried again.  Once the server answered a
    compound of [sent] > 1 operations of some shape with NFS4ERR_TOO_MANY_OPS,
    no later history, successes of that shape included, raises the window of
    the shape back to [sent]: the rejected size stays out of every probe. *)
Theorem too_many_ops_never_retried (l : t) (tag : bytes) (sent k : Z) (os : list observation) :
  wf l → 1 < sent →
  limit (observe_all (observe l tag sent NFS4ERR_TOO_MANY_OPS k) os) tag < sent.
Proof.
  intros Hl Hs. set (l' := observe l tag sent NFS4ERR_TOO_MANY_OPS k).
  assert (Hl' : wf l') by by apply observe_wf.
  assert (Hwf : wf (observe_all l' os)) by by apply observe_all_wf.
  rewrite limit_sizer by done. destruct (sizer_of_wf _ tag Hwf) as [[Hc _] _].
  pose proof (observe_all_ceiling l' os tag) as Hceil.
  assert (AdaptiveBatchSizer.ceiling (sizer_of l' tag) < sent); [|lia].
  unfold l'. rewrite sizer_of_observe, decide_True by done. unfold record; simpl.
  unfold AdaptiveBatchSizer.op_limit_rejected.
  replace (1 <? sent) with true by lia. simpl. lia.
Qed.

Lemma too_many_ops_never_retried_witness :
  limit (observe_all (observe (new 64) (bstr "writev") 40 NFS4ERR_TOO_MANY_OPS 0)
           [Observation (bstr "writev") 20 NFS_OK 20; Observation (bstr "writev") 28 NFS_OK 28])
    (bstr "writev") < 40.
Proof.
  apply too_many_ops_never_retried; [|lia]. split; [vm_compute; done|].
  intros ??; simpl. by rewrite lookup_empty.
Defined.

(** Shapes are isolated: replies to compounds of other shapes never move a
    shape's window, so a throttled READ does not slow down metadata work. *)
Theorem shapes_isolated (l : t) (os : list observation) (tag : bytes) :
  wf l → Forall (λ o, obs_tag o ≠ tag) os →
  limit (observe_all l os) tag = limit l tag.
Proof.
  intros Hl Hos. rewrite !limit_sizer by auto using observe_all_wf.
  by rewrite observe_all_other.
Qed.

Lemma shapes_isolated_witness :
  limit (observe_all (new 128) [Observation (bstr "readv") 96 NFS4ERR_RESOURCE 1]) (bstr "getattrv")
  = limit (new 128) (bstr "getattrv").
Proof.
  apply shapes_isolated.
  - split; [vm_compute; done|]. intros ??; simpl. by rewrite lookup_empty.
  - repeat constructor. by vm_compute.
Defined.
End LimitsLemmas.

(** ** Execution map lemmas *)

Module MapLemmas.
Import ExecutionMap.

Lemma wf_from_mono lo lo' rs : lo' <= lo → wf_from lo rs → wf_from lo' rs.
Proof. destruct rs; simpl; [done|]. intros ? (?&?&?). split_and!; [lia|done|done]. Qed.

Lemma wf_from_snoc lo rs r :
  wf_from lo rs → lo <= r_start r → r_start r <= r_end r →
  Forall (λ q, r_end q <= r_start r) rs → wf_from lo (rs ++ [r]).
Proof.
  revert lo. induction rs as [|q rs IH]; intros lo Hwf Hlo Hr Hall; simpl in *; [done|].
  destruct Hwf as (?&?&Hwf). apply Forall_cons in Hall as [Hq Hall].
  split_and!; [done|done|]. by apply IH.
Qed.

Lemma wf_from_app lo rs rs' : wf_from lo (rs ++ rs') → wf_from lo rs.
Proof.
  revert lo. induction rs as [|q rs IH]; intros lo Hwf; simpl in *; [done|].
  destruct Hwf as (?&?&Hwf). eauto.
Qed.

Lemma wf_from_last lo rs r : wf_from lo (rs ++ [r]) →
  lo <= r_start r ∧ r_start r <= r_end r ∧ Forall (λ q, r_end q <= r_start r) rs.
Proof.
  revert lo. induction rs as [|q rs IH]; intros lo Hwf; simpl in *.
  { destruct Hwf as (?&?&_). split_and!; [done|done|constructor]. }
  destruct Hwf as (?&?&(?&?&?)%IH). split_and!; [lia|done|]. by constructor.
Qed.

Lemma wf_from_starts lo rs : wf_from lo rs → Forall (λ r, lo <= r_start r) rs.
Proof.
  revert lo. induction rs as [|q rs IH]; intros lo Hwf; simpl in *; [constructor|].
  destruct Hwf as (?&?&Hwf%IH). constructor; [done|].
  eapply Forall_impl; [exact Hwf|]. simpl. lia.
Qed.

Lemma map_new_wf : wf new.
Proof. split_and!; simpl; [done|done|done|constructor]. Qed.

Lemma begin_wf m c : wf m → wf (begin m c).
Proof.
  intros (Hwf & Hn & Hall). split_and!; simpl; try lia.
  - apply wf_from_snoc; unfold r_start, r_end; simpl; [done|lia|lia|done].
  - apply Forall_app; split; [done|]. apply Forall_singleton. unfold r_end; simpl; lia.
Qed.

Lemma note_ops_wf m k : 0 <= k → wf m → wf (note_ops m k).
Proof.
  intros Hk (Hwf & Hn & Hall). unfold wf, note_ops; simpl.
  assert (next m <= sat_add (next m) k <= USIZE_MAX) by ints.
  split_and!; [done|lia|lia|]. eapply Forall_impl; [exact Hall|]. simpl; lia.
Qed.

Lemma end_wf m : wf m → wf (end_ m).
Proof.
  intros (Hwf & Hn & Hall). unfold end_. destruct (last (ranges m)) as [r|] eqn:E; [|done].
  apply last_Some in E as [rs E]. rewrite E in *.
  rewrite length_app, take_app_le, take_ge by (simpl; lia).
  apply Forall_app in Hall as [Hall Hr]. rewrite Forall_singleton in Hr.
  destruct (wf_from_last _ _ _ Hwf) as (?&?&?). split_and!; simpl; try lia.
  - apply wf_from_snoc; unfold r_start, r_end in *; simpl; try lia.
    + by eapply wf_from_app.
    + done.
  - apply Forall_app; split; [done|]. apply Forall_singleton. unfold r_end; simpl; lia.
Qed.

Section Reply.
Context {R : Type} `{ReplyView R}.
Implicit Types (reply : R).

Lemma find_failed_None reply from count :
  find_failed reply from count = None →
  ∀ i, from <= i < from + Z.of_nat count → rv_op_status reply i = NFS_OK.
Proof.
  revert from. induction count as [|count IH]; intros from Hf i Hi; [lia|]. simpl in Hf.
  destruct (Z.eqb_spec (rv_op_status reply from) NFS_OK); simpl in Hf; [|done].
  destruct (decide (i = from)) as [->|]; [done|]. apply (IH (from + 1)); [done|lia].
Qed.

Lemma find_failed_Some reply from count j st :
  find_failed reply from count = Some (j, st) →
  from <= j < from + Z.of_nat count ∧ rv_op_status reply j = st ∧ st ≠ NFS_OK ∧
  ∀ i, from <= i < j → rv_op_status reply i = NFS_OK.
Proof.
  revert from. induction count as [|count IH]; intros from Hf; [done|]. simpl in Hf.
  destruct (Z.eqb_spec (rv_op_status reply from) NFS_OK) as [Hok|]; simpl in Hf.
  - destruct (IH _ Hf) as (?&?&?&Hpre). split_and!; [lia|lia|done|done|].
    intros i ?. destruct (decide (i = from)) as [->|]; [done|]. apply Hpre; lia.
  - simplify_eq. split_and!; [lia|lia|done|done|]. intros; lia.
Qed.

(** What the scan of the ranges [rs] found: [k] of them completed. *)
Record scanned (reply : R) (rs : list range) (k : nat) (f : option ItemFailure) (un : list Z)
    : Prop := {
  sc_le : (k <= length rs)%nat;
  sc_ok : ∀ r i, r ∈ take k rs → r_start r <= i < r_end r →
            i < rv_nops reply ∧ rv_op_status reply i = NFS_OK;
  sc_fail : match f with
    | Some f => ∃ r, rs !! k = Some r ∧ if_caller f = r_caller r ∧
        r_start r <= if_op_index f < r_end r ∧ rv_nops reply = if_op_index f + 1 ∧
        rv_op_status reply (if_op_index f) = if_status f ∧ if_status f ≠ NFS_OK ∧
        rv_status reply = if_status f ∧
        (∀ i, r_start r <= i < if_op_index f → rv_op_status reply i = NFS_OK) ∧
        un = r_caller <$> drop (S k) rs
    | None => un = r_caller <$> drop k rs ∧
        (∀ r, rs !! k = Some r → rv_nops reply <= r_start r)
    end;
}.

Lemma analyze_ranges_scanned reply rs done done' f un :
  wf_from 0 rs →
  analyze_ranges reply rs done = Ok (done', f, un) →
  ∃ k, done' = done ++ (r_caller <$> take k rs) ∧ scanned reply rs k f un.
Proof.
  revert done. induction rs as [|[[c s] e] rs IH]; intros done Hwf Ha; simpl in Ha.
  { simplify_eq. exists 0%nat. split; [by rewrite app_nil_r|].
    constructor; [done|by intros ?? ?%not_elem_of_nil|]. split; [done|].
    intros ?; by rewrite lookup_nil. }
  destruct Hwf as (Hlo & Hse & Hwf). unfold r_start, r_end in Hlo, Hse; simpl in Hlo, Hse.
  destruct (Z.leb_spec (rv_nops reply) s) as [Hn|Hn].
  { simplify_eq. exists 0%nat. split; [by rewrite app_nil_r|].
    constructor; [simpl; lia|by intros ?? ?%not_elem_of_nil|]. split; [done|].
    intros r ?; simplify_eq/=. done. }
  destruct (find_failed _ _ _) as [[j st]|] eqn:Hff.
  - apply find_failed_Some in Hff as (Hj & Hst & Hne & Hpre).
    destruct (Z.eqb_spec (rv_nops reply) (j + 1)); simpl in Ha; [|done].
    destruct (Z.eqb_spec (rv_status reply) st); simpl in Ha; [|done]. simplify_eq.
    exists 0%nat. split; [by rewrite app_nil_r|].
    constructor; [simpl; lia|by intros ?? ?%not_elem_of_nil|].
    exists (c, s, e). unfold r_start, r_end, r_caller; simpl.
    split_and!; try done; lia.
  - pose proof (find_failed_None _ _ _ Hff) as Hok.
    destruct (Z.ltb_spec (rv_nops reply) e); [done|].
    apply (wf_from_mono _ 0) in Hwf; [|unfold r_end; simpl; lia].
    destruct (IH (done ++ [c]) Hwf Ha) as (k & -> & [Hle Hs Hf]).
    exists (S k). split; [simpl; by rewrite <-app_assoc|].
    constructor; [simpl; lia| |exact Hf].
    intros r i [->|Hr]%elem_of_cons Hi; [|by eapply Hs].
    unfold r_start, r_end in Hi; simpl in Hi. split; [lia|]. apply Hok; lia.
Qed.

(** Every way [analyze] succeeds. *)
Lemma analyze_cases m reply report :
  analyze m reply = Ok report →
  (completed report = [] ∧ failure report = None ∧
   unexecuted report = (r_caller <$> ranges m) ∧
   (rv_nops reply = 0 ∨ rv_op_status reply 0 ≠ NFS_OK)) ∨
  (rv_nops reply ≠ 0 ∧ rv_op_status reply 0 = NFS_OK ∧
   analyze_ranges reply (ranges m) [] =
     Ok (completed report, failure report, unexecuted report)).
Proof.
  unfold analyze. intros Ha.
  destruct (Z.eqb_spec (rv_nops reply) 0).
  { case_match; simplify_eq/=. left. auto. }
  destruct (Z.eqb_spec (rv_op_status reply 0) NFS_OK); simpl in Ha.
  2:{ simplify_eq/=. left. auto. }
  right. split_and!; [done|done|].
  destruct (analyze_ranges _ _ _) as [[[d f] u]|] eqn:E; simpl in Ha; [|done].
  repeat case_match; simplify_eq/=; done.
Qed.

Lemma wf_from_order lo rs a b r r' :
  wf_from lo rs → rs !! a = Some r → rs !! b = Some r' → (a < b)%nat → r_end r <= r_start r'.
Proof.
  revert lo a b. induction rs as [|q rs IH]; intros lo a b Hwf Ha Hb Hab; [done|].
  destruct Hwf as (?&?&Hwf). destruct b as [|b]; [lia|]. destruct a as [|a]; simpl in *; simplify_eq.
  - apply wf_from_starts in Hwf. by eapply (proj1 (Forall_lookup _ _) Hwf).
  - eapply IH; eauto; lia.
Qed.

Lemma wf_from_le lo rs a r : wf_from lo rs → rs !! a = Some r → r_start r <= r_end r.
Proof.
  revert lo a. induction rs as [|q rs IH]; intros lo a Hwf Ha; [done|].
  destruct Hwf as (?&?&?). destruct a; simplify_eq/=; eauto.
Qed.

(** The outcome of [analyze] as a scan of all the ranges. *)
Lemma analyze_scanned m reply report :
  wf m → analyze m reply = Ok report →
  (completed report = [] ∧ failure report = None ∧
   unexecuted report = (r_caller <$> ranges m) ∧
   (rv_nops reply = 0 ∨ rv_op_status reply 0 ≠ NFS_OK)) ∨
  (∃ k, k = length (completed report) ∧ completed report = (r_caller <$> take k (ranges m)) ∧
        scanned reply (ranges m) k (failure report) (unexecuted report)).
Proof.
  intros [Hwf _] Ha. destruct (analyze_cases m reply report Ha) as [?|(_ & _ & Hs)]; [by left|].
  right. destruct (analyze_ranges_scanned reply (ranges m) [] _ _ _
    (wf_from_mono 1 0 _ ltac:(lia) Hwf) Hs) as (k & Hd & Hsc).
  exists k. simpl in Hd. split_and!; [|done|done].
  rewrite Hd, length_fmap, length_take. pose proof (sc_le _ _ _ _ _ Hsc). lia.
Qed.

Lemma unexecuted_not_run m reply report r :
  wf m → analyze m reply = Ok report → stops_at_failure reply →
  r ∈ drop (length (completed report) + length (option_list (failure report))) (ranges m) →
  rv_nops reply <= r_start r.
Proof.
  intros Hwf Ha Hstop Hr. destruct (analyze_scanned m reply report Hwf Ha)
    as [(Hc & Hf & _ & Hz)|(k & -> & _ & Hsc)]; destruct Hwf as (Hwf & _).
  - rewrite Hc, Hf in Hr. simpl in Hr. rewrite drop_0 in Hr.
    assert (rv_nops reply <= 1).
    { destruct Hz as [->|Hz]; [lia|]. destruct (decide (rv_nops reply <= 1)); [done|].
      destruct Hz. apply Hstop. lia. }
    pose proof (proj1 (Forall_forall _ _) (wf_from_starts _ _ Hwf) r Hr). simpl in *. lia.
  - set (k := length (completed report)) in *.
    apply list_elem_of_lookup in Hr as [d Hd]. rewrite lookup_drop in Hd.
    pose proof (sc_fail _ _ _ _ _ Hsc) as Hfail. destruct (failure report) as [f|]; simpl in *.
    + destruct Hfail as (q & Hq & _ & Hi & Hn & _).
      pose proof (wf_from_order _ _ _ _ _ _ Hwf Hq Hd ltac:(lia)). lia.
    + destruct Hfail as [_ Hnone]. destruct (decide (d = 0%nat)) as [->|].
      { apply Hnone. by rewrite !Nat.add_0_r in Hd. }
      assert (is_Some (ranges m !! k)) as [q Hq].
      { apply lookup_lt_is_Some. apply lookup_lt_Some in Hd. lia. }
      pose proof (wf_from_order _ _ _ _ _ _ Hwf Hq Hd ltac:(lia)).
      pose proof (Hnone q Hq).
      pose proof (wf_from_le _ _ _ _ Hwf Hq). lia.
Qed.
End Reply.

(** C28: The reply analysis attributes every item correctly, for every reply a
    server could send.  When [analyze] accepts a reply, the caller items split,
    in order, into completed, at most one failed, and unexecuted ones; every
    operation of a completed item is in the reply with NFS4_OK; the failed item
    is the one right after the completed prefix, its failing operation lies in
    its own range, is the last of the reply, carries the compound status, and
    everything before it in the item succeeded; and, in a reply that stops at
    its first failure, no operation of an unexecuted item was run. *)
Theorem analyze_sound {R} `{ReplyView R} (m : t) (reply : R) (report : ExecutionReport) :
  wf m → analyze m reply = Ok report →
  (r_caller <$> ranges m) =
    completed report ++ (if_caller <$> option_list (failure report)) ++ unexecuted report ∧
  (∀ r i, r ∈ completed_ranges m report → r_start r <= i < r_end r →
     i < rv_nops reply ∧ rv_op_status reply i = NFS_OK) ∧
  (∀ f, failure report = Some f →
     ∃ r, ranges m !! length (completed report) = Some r ∧ if_caller f = r_caller r ∧
       r_start r <= if_op_index f < r_end r ∧ rv_nops reply = if_op_index f + 1 ∧
       rv_op_status reply (if_op_index f) = if_status f ∧ if_status f ≠ NFS_OK ∧
       rv_status reply = if_status f ∧
       (∀ i, r_start r <= i < if_op_index f → rv_op_status reply i = NFS_OK)) ∧
  (stops_at_failure reply → ∀ r,
     r ∈ drop (length (completed report) + length (option_list (failure report))) (ranges m) →
     rv_nops reply <= r_start r).
Proof.
  intros Hwf Ha. split_and!; [| | |intros; by eapply unexecuted_not_run].
  all: unfold completed_ranges; destruct (analyze_scanned m reply report Hwf Ha)
      as [(Hc & Hf & Hu & _)|(k & Hk & Hc & Hsc)].
  all: rewrite <-?Hk, ?Hc, ?Hf, ?Hu; try done.
  - pose proof (sc_fail _ _ _ _ _ Hsc) as Hfail. rewrite <-(take_drop k (ranges m)) at 1.
    rewrite fmap_app. f_equal. destruct (failure report) as [f|]; simpl; [|by destruct Hfail].
    destruct Hfail as (r & Hr & Hcall & _ & _ & _ & _ & _ & _ & ->).
    by rewrite (drop_S _ _ _ Hr), Hcall.
  - by intros ?? ?%not_elem_of_nil.
  - by apply (sc_ok _ _ _ _ _ Hsc).
  - intros f Hf. pose proof (sc_fail _ _ _ _ _ Hsc) as Hfail. rewrite Hf in Hfail.
    destruct Hfail as (r & ? & ? & ? & ? & ? & ? & ? & ? & ?). by exists r.
Qed.

Definition example_map : t :=
  end_ (note_ops (begin (end_ (note_ops (begin (end_ (note_ops (begin new 7) 3)) 8) 3)) 9) 3).
Definition example_reply : MockReply := Mock NFS4ERR_IO [0; 0; 0; 0; 0; NFS4ERR_IO].
Definition example_report : ExecutionReport :=
  Report [7] (Some (Failure 8 5 NFS4ERR_IO)) [9] None None.

Lemma analyze_sound_witness :
  (r_caller <$> ranges example_map) =
    completed example_report ++ (if_caller <$> option_list (failure example_report))
      ++ unexecuted example_report.
Proof.
  apply (analyze_sound example_map example_reply example_report); [|reflexivity].
  repeat first [apply end_wf | apply note_ops_wf; [lia|] | apply begin_wf | apply map_new_wf].
Defined.

Lemma find_caller (rs : list range) k r :
  NoDup (r_caller <$> rs) → rs !! k = Some r →
  ∃ i, list_find (λ q, r_caller q = r_caller r) rs = Some (i, r).
Proof.
  intros Hnd Hr. exists k. apply list_find_Some. split_and!; [done|done|].
  intros j q Hq Hjk Heq. assert (j = k); [|lia]. eapply NoDup_lookup; [exact Hnd| |].
  - by rewrite list_lookup_fmap, Hq.
  - rewrite list_lookup_fmap, Hr. simpl. by rewrite Heq.
Qed.

Lemma executed_sound {R} `{ReplyView R} m (reply : R) report i p :
  wf m → NoDup (r_caller <$> ranges m) → analyze m reply = Ok report →
  p ∈ executed_ranges m report → p.1 <= i < p.2 →
  (∃ r, r ∈ ranges m ∧ r_start r <= i < r_end r) ∧
  i < rv_nops reply ∧ rv_op_status reply i = NFS_OK.
Proof.
  intros Hwf Hnd Ha. unfold executed_ranges, completed_ranges.
  destruct (analyze_scanned m reply report Hwf Ha) as [(-> & -> & _)|(k & <- & _ & Hsc)].
  { by intros ?%not_elem_of_nil. }
  pose proof (sc_fail _ _ _ _ _ Hsc) as Hfail. intros [Hp|Hp]%elem_of_app Hi.
  - apply list_elem_of_fmap in Hp as (r & -> & Hr). split; [|by eapply sc_ok].
    exists r. split; [|done]. rewrite <-(take_drop k (ranges m)). set_solver.
  - destruct (failure report) as [f|]; [|by apply not_elem_of_nil in Hp].
    destruct Hfail as (r & Hr & Hcal & Hj & Hn & _ & _ & _ & Hpre & _).
    rewrite Hcal in Hp. destruct (find_caller _ _ _ Hnd Hr) as [? Hfi]. rewrite Hfi in Hp.
    apply list_elem_of_singleton in Hp as ->. simpl in Hi.
    split; [|split; [lia|apply Hpre; lia]].
    exists r. split; [by eapply list_elem_of_lookup_2|lia].
Qed.

Lemma executed_complete {R} `{ReplyView R} m (reply : R) report i r :
  wf m → NoDup (r_caller <$> ranges m) → analyze m reply = Ok report → stops_at_failure reply →
  r ∈ ranges m → r_start r <= i < r_end r → i < rv_nops reply → rv_op_status reply i = NFS_OK →
  ∃ p, p ∈ executed_ranges m report ∧ p.1 <= i < p.2.
Proof.
  intros Hwf Hnd Ha Hstop Hr Hi Hn Hok.
  pose proof (unexecuted_not_run m reply report r Hwf Ha Hstop) as Hun.
  rewrite <-(take_drop (length (completed report) + length (option_list (failure report)))
    (ranges m)) in Hr.
  apply elem_of_app in Hr as [Hr|Hr]; [|specialize (Hun Hr); lia].
  apply list_elem_of_lookup in Hr as (d & [Hd Hlt]%lookup_take_Some).
  unfold executed_ranges, completed_ranges.
  destruct (analyze_scanned m reply report Hwf Ha) as [(Hc & Hf & _)|(k & Hk & _ & Hsc)].
  { rewrite Hc, Hf in Hlt. simpl in Hlt. lia. }
  rewrite <-Hk in Hlt |- *. destruct (decide (d < k)%nat).
  { exists (r_start r, r_end r). split; [|done]. apply elem_of_app; left.
    apply list_elem_of_fmap. exists r. split; [done|].
    apply list_elem_of_lookup. exists d. by apply lookup_take_Some. }
  pose proof (sc_fail _ _ _ _ _ Hsc) as Hfail.
  destruct (failure report) as [f|]; simpl in Hlt; [|lia]. assert (d = k) as -> by lia.
  destruct Hfail as (r' & Hr & Hcal & Hj & Hnops & Hst & Hne & _).
  assert (r' = r) as -> by congruence. exists (r_start r, if_op_index f). split.
  - apply elem_of_app; right. rewrite Hcal. destruct (find_caller _ _ _ Hnd Hr) as [? ->].
    by apply list_elem_of_singleton.
  - simpl. destruct (decide (i = if_op_index f)) as [->|]; [congruence|lia].
Qed.

(** [executed_ranges], from which cleanup collects the stateids to release,
    is exact.  Every operation it covers ran and succeeded, and, for a reply
    that stops at its first failure, every operation of any item that ran and
    succeeded is covered, the successful prefix of the failed item included: no
    resource is missed and none is invented. *)
Theorem executed_ranges_exact {R} `{ReplyView R} (m : t) (reply : R) (report : ExecutionReport) :
  wf m → NoDup (r_caller <$> ranges m) → analyze m reply = Ok report → stops_at_failure reply →
  ∀ i, (∃ p, p ∈ executed_ranges m report ∧ p.1 <= i < p.2) ↔
       (∃ r, r ∈ ranges m ∧ r_start r <= i < r_end r) ∧
       i < rv_nops reply ∧ rv_op_status reply i = NFS_OK.
Proof.
  intros Hwf Hnd Ha Hstop i. split.
  - intros (p & Hp & Hi). by eapply executed_sound.
  - intros ((r & Hr & Hi) & Hn & Hok). by eapply executed_complete.
Qed.

Lemma executed_ranges_exact_witness :
  (∃ p, p ∈ executed_ranges example_map example_report ∧ p.1 <= 4 < p.2) ↔
  (∃ r, r ∈ ranges example_map ∧ r_start r <= 4 < r_end r) ∧
  4 < rv_nops example_reply ∧ rv_op_status example_reply 4 = NFS_OK.
Proof.
  apply executed_ranges_exact; [|by apply (bool_decide_unpack _)|reflexivity|].
  - repeat first [apply end_wf | apply note_ops_wf; [lia|] | apply begin_wf | apply map_new_wf].
  - intros i Hi. simpl in Hi. assert (i ∈ [0;1;2;3;4]) as Hin by set_solver by lia.
    repeat (apply elem_of_cons in Hin as [->|Hin]; [reflexivity|]). by apply not_elem_of_nil in Hin.
Defined.
End MapLemmas.

Module ConformLemmas.
Import ExecutionMap MapLemmas.

Lemma first_failure_bounds outs : 0 <= first_failure outs <= Z.of_nat (length outs).
Proof. induction outs as [|o outs IH]; simpl; [lia|]. destruct (o =? NFS_OK); simpl; lia. Qed.

Lemma run_ops_length outs :
  Z.of_nat (length (run_ops outs)) = Z.min (first_failure outs + 1) (Z.of_nat (length outs)).
Proof.
  induction outs as [|o outs IH]; simpl; [done|]. pose proof (first_failure_bounds outs).
  destruct (o =? NFS_OK); simpl; lia.
Qed.

Lemma run_ops_prefix outs : run_ops outs `prefix_of` outs.
Proof.
  induction outs as [|o outs IH]; simpl; [done|]. destruct (o =? NFS_OK).
  - by apply prefix_cons.
  - apply prefix_cons, prefix_nil.
Qed.

Lemma first_failure_ok outs i :
  0 <= i < first_failure outs → outs !! Z.to_nat i = Some NFS_OK.
Proof.
  revert i. induction outs as [|o outs IH]; intros i Hi; simpl in Hi; [lia|].
  destruct (Z.eqb_spec o NFS_OK) as [->|]; [|lia].
  destruct (decide (i = 0)) as [->|]; [done|].
  replace (Z.to_nat i) with (S (Z.to_nat (i - 1))) by lia. simpl. apply IH. lia.
Qed.

Lemma first_failure_bad outs :
  first_failure outs < Z.of_nat (length outs) →
  ∃ st, outs !! Z.to_nat (first_failure outs) = Some st ∧ st ≠ NFS_OK.
Proof.
  induction outs as [|o outs IH]; simpl; [lia|]. destruct (Z.eqb_spec o NFS_OK) as [->|Ho].
  - intros Hlt. pose proof (first_failure_bounds outs).
    replace (Z.to_nat (1 + first_failure outs)) with (S (Z.to_nat (first_failure outs))) by lia.
    apply IH. lia.
  - intros _. by exists o.
Qed.

(** A reply that executed up to the first failure, seen through the view. *)
Record executed {R} `{ReplyView R} (reply : R) (ff len st : Z) : Prop := {
  ex_bounds : 0 <= ff <= len;
  ex_nops : rv_nops reply = Z.min (ff + 1) len;
  ex_ok : ∀ i, 0 <= i < ff → rv_op_status reply i = NFS_OK;
  ex_bad : ff < len → rv_op_status reply ff = st ∧ st ≠ NFS_OK ∧ rv_status reply = st;
  ex_all : ff = len → rv_status reply = NFS_OK;
}.

Lemma run_ops_lookup outs i :
  0 <= i <= first_failure outs → i < Z.of_nat (length outs) →
  run_ops outs !! Z.to_nat i = outs !! Z.to_nat i.
Proof.
  intros Hi Hlt. destruct (run_ops_prefix outs) as [k Hk]. rewrite Hk at 2.
  rewrite lookup_app_l; [done|]. pose proof (run_ops_length outs). lia.
Qed.

Lemma conforming_executed outs :
  executed (conforming_reply outs) (first_failure outs) (Z.of_nat (length outs))
    (default NFS_OK (outs !! Z.to_nat (first_failure outs))).
Proof.
  pose proof (first_failure_bounds outs) as Hb. pose proof (run_ops_length outs) as Hlen.
  constructor; simpl; [lia|done| | |].
  - intros i Hi. rewrite run_ops_lookup by lia. by rewrite first_failure_ok.
  - intros Hlt. destruct (first_failure_bad outs Hlt) as (st & Hst & Hne).
    rewrite run_ops_lookup by lia. rewrite Hst; simpl. split_and!; [done|done|].
    rewrite last_lookup.
    replace (pred (length (run_ops outs))) with (Z.to_nat (first_failure outs)) by lia.
    rewrite run_ops_lookup by lia. by rewrite Hst.
  - intros Heq. rewrite last_lookup.
    destruct (decide (length outs = 0)%nat) as [Hz|].
    { apply nil_length_inv in Hz as ->. done. }
    replace (pred (length (run_ops outs))) with (Z.to_nat (first_failure outs - 1)) by lia.
    rewrite run_ops_lookup by lia. by rewrite first_failure_ok by lia.
Qed.

Lemma find_failed_all_ok {R} `{ReplyView R} (reply : R) from count :
  (∀ i, from <= i < from + Z.of_nat count → rv_op_status reply i = NFS_OK) →
  find_failed reply from count = None.
Proof.
  intros Hok. destruct (find_failed reply from count) as [[j st]|] eqn:E; [|done].
  apply find_failed_Some in E as (Hj & Hst & Hne & _). rewrite Hok in Hst by lia. congruence.
Qed.

Lemma find_failed_first {R} `{ReplyView R} (reply : R) from count j :
  from <= j < from + Z.of_nat count → rv_op_status reply j ≠ NFS_OK →
  (∀ i, from <= i < j → rv_op_status reply i = NFS_OK) →
  find_failed reply from count = Some (j, rv_op_status reply j).
Proof.
  intros Hj Hbad Hpre. destruct (find_failed reply from count) as [[j' st]|] eqn:E.
  - apply find_failed_Some in E as (Hj' & <- & Hne & Hpre').
    destruct (Z.lt_trichotomy j j') as [?|[->|?]]; [|done|].
    + destruct Hbad. apply Hpre'. lia.
    + destruct Hne. apply Hpre. lia.
  - destruct Hbad. by apply (find_failed_None _ _ _ E).
Qed.

Lemma filter_all `{P : A → Prop} `{∀ x, Decision (P x)} (l : list A) : Forall P l → filter P l = l.
Proof. induction 1; [done|]. by rewrite filter_cons_True, IHForall. Qed.

Lemma filter_none `{P : A → Prop} `{∀ x, Decision (P x)} (l : list A) :
  Forall (λ x, ¬ P x) l → filter P l = [].
Proof. induction 1; [done|]. by rewrite filter_cons_False. Qed.

(** Nothing of a suffix that starts after the failure completed or failed. *)
Lemma filters_after ff lo rs : ff < lo → wf_from lo rs →
  filter (λ r, r_end r <= ff) rs = [] ∧ filter (λ r, r_start r <= ff < r_end r) rs = [] ∧
  filter (λ r, ff < r_start r) rs = rs.
Proof.
  intros Hlt Hwf. pose proof (wf_from_starts _ _ Hwf) as Hs.
  assert (Forall (λ r, r_start r <= r_end r) rs) as Hle.
  { apply Forall_lookup. intros i r Hr. by eapply wf_from_le. }
  split_and!; [apply filter_none|apply filter_none|apply filter_all];
    (eapply Forall_impl; [apply Forall_and; split; [exact Hs|exact Hle]|]); simpl; intros; lia.
Qed.

Lemma analyze_ranges_executed {R} `{ReplyView R} (reply : R) ff len st lo rs done :
  executed reply ff len st → 0 <= lo → wf_from lo rs →
  Forall (λ r, r_start r < r_end r <= len) rs →
  analyze_ranges reply rs done =
    Ok (done ++ (r_caller <$> filter (λ r, r_end r <= ff) rs),
        (λ r, Failure (r_caller r) ff st) <$> head (filter (λ r, r_start r <= ff < r_end r) rs),
        r_caller <$> filter (λ r, ff < r_start r) rs).
Proof.
  intros [Hb Hn Hok Hbad _]. revert lo done.
  induction rs as [|[[c s] e] rs IH]; intros lo done Hlo Hwf Hall;
    cbn [analyze_ranges].
  { by rewrite filter_nil, app_nil_r. }
  apply Forall_cons in Hall as [Hr Hall]. unfold r_start, r_end in Hr; simpl in Hr.
  destruct (decide (ff < s)) as [Hlt|Hge].
  { destruct (filters_after ff s (@cons range (c, s, e) rs)) as (-> & -> & ->); [done| |].
    { destruct Hwf as (?&?&?). split_and!; [by unfold r_start|done|done]. }
    replace (rv_nops reply <=? s) with true by lia. by rewrite app_nil_r. }
  destruct Hwf as (Hs & _ & Hwf). unfold r_start in Hs; simpl in Hs.
  replace (rv_nops reply <=? s) with false by lia.
  rewrite (filter_cons_False (λ r, ff < r_start r)) by (unfold r_start; simpl; lia).
  destruct (decide (e <= ff)) as [Hle|Hgt].
  - rewrite find_failed_all_ok by (intros; apply Hok; lia).
    replace (rv_nops reply <? e) with false by lia.
    rewrite (IH e) by (done || lia).
    rewrite (filter_cons_True (λ r, r_end r <= ff)) by (unfold r_end; simpl; lia).
    rewrite (filter_cons_False (λ r, r_start r <= ff < r_end r)) by (unfold r_end; simpl; lia).
    simpl. by rewrite <-app_assoc.
  - destruct Hbad as (Hst & Hne & Hrs); [lia|].
    rewrite (find_failed_first _ _ _ ff) by (congruence || lia || (intros; apply Hok; lia)).
    destruct (filters_after ff e rs) as (Hf1 & _ & Hf2); [lia|done|].
    rewrite (filter_cons_False (λ r, r_end r <= ff)) by (unfold r_end; simpl; lia).
    rewrite (filter_cons_True (λ r, r_start r <= ff < r_end r))
      by (unfold r_start, r_end; simpl; lia).
    rewrite Hf1, Hf2, Hst, Hrs, Z.eqb_refl. replace (rv_nops reply =? ff + 1) with true by lia. simpl.
    by rewrite app_nil_r.
Qed.

Lemma analyze_executed {R} `{ReplyView R} (m : t) (reply : R) ff len st :
  executed reply ff len st → wf m → items_nonempty m → next m <= len →
  let hit := head (filter (λ r, r_start r <= ff < r_end r) (ranges m)) in
  let trailing := bool_decide (hit = None) && (ff <? len) in
  analyze m reply =
    Ok (Report (r_caller <$> filter (λ r, r_end r <= ff) (ranges m))
          ((λ r, Failure (r_caller r) ff st) <$> hit)
          (r_caller <$> filter (λ r, ff < r_start r) (ranges m))
          (if trailing then Some st else None) (if trailing then Some ff else None)).
Proof.
  intros Hex (Hwf & Hn & Hend) Hne Hlen hit trailing.
  pose proof Hex as [Hb Hnops Hok Hbad Hall]. unfold analyze.
  replace (rv_nops reply =? 0) with false by lia.
  destruct (decide (ff = 0)) as [->|Hff].
  { destruct Hbad as (Hst & Hbad & _); [lia|]. rewrite Hst.
    replace (st =? NFS_OK) with false by lia. simpl. unfold trailing, hit.
    destruct (filters_after 0 1 (ranges m)) as (-> & -> & ->); [lia|done|].
    rewrite bool_decide_eq_true_2 by done. by replace (0 <? len) with true by lia. }
  rewrite Hok by lia. simpl.
  rewrite (analyze_ranges_executed reply ff len st 1) by
    (done || (apply Forall_and; split; [done|]; eapply Forall_impl; [exact Hend|simpl; lia])).
  simpl. unfold trailing. destruct hit as [r|] eqn:Hhit; unfold hit in Hhit; rewrite Hhit; simpl.
  { done. }
  destruct (Z.ltb_spec ff len) as [Hlt|Hge].
  - destruct (Hbad Hlt) as (Hst & Hbad' & Hrs). rewrite Hrs.
    replace (rv_nops reply - 1) with ff by lia. rewrite Hst, Z.eqb_refl.
    by replace (st =? NFS_OK) with false by lia.
  - by rewrite Hall by lia.
Qed.

(** C29: Functional correctness of the analysis on the replies of a conforming
    server.  For every map the builders can produce and every statuses its
    operations may return, the reply of a server that executes the compound as
    RFC 8881 prescribes is accepted, and the report is exactly the one the
    execution rule determines: never a [MalformedReply], never an item
    attributed to the wrong caller. *)
Theorem analyze_conforming (m : t) (outs : list Z) :
  wf m → items_nonempty m → next m <= Z.of_nat (length outs) →
  analyze m (conforming_reply outs) = Ok (expected_report m outs).
Proof.
  intros Hwf Hne Hlen. unfold expected_report.
  by apply (analyze_executed m (conforming_reply outs) _ _ _ (conforming_executed outs)).
Qed.

Lemma analyze_conforming_witness :
  analyze example_map (conforming_reply [0; 0; 0; 0; 0; NFS4ERR_IO; 0; 0; 0; 0])
  = Ok (Report [7] (Some (Failure 8 5 NFS4ERR_IO)) [9] None None).
Proof.
  apply (analyze_conforming example_map [0; 0; 0; 0; 0; NFS4ERR_IO; 0; 0; 0; 0]).
  - repeat first [apply end_wf | apply note_ops_wf; [lia|] | apply begin_wf | apply map_new_wf].
  - by apply (bool_decide_unpack _).
  - done.
Defined.

(** A conforming reply stops at its first failure. *)
Lemma conforming_stops outs : stops_at_failure (conforming_reply outs).
Proof.
  intros i Hi. destruct (conforming_executed outs) as [Hb Hn Hok _ _]. apply Hok. lia.
Qed.

(** Replaying a rejected mutation is safe.  When
    [resource_rejected_before_mutation] holds of the reply of a conforming
    server to a compound whose operations after SEQUENCE and the leading PUTFH
    may mutate, no operation from index two on succeeded: it was never run. *)
Theorem replay_runs_no_mutation (outs : list Z) :
  resource_rejected_before_mutation (conforming_reply outs) = true →
  ∀ i, 2 <= i → run_ops outs !! Z.to_nat i = None ∧ first_failure outs <= 1.
Proof.
  intros Hr i Hi. unfold resource_rejected_before_mutation in Hr.
  destruct (conforming_executed outs) as [Hb Hn Hok Hbad Hall].
  set (len := Z.of_nat (length outs)) in *. set (ff := first_failure outs) in *.
  assert (rv_status (conforming_reply outs) ≠ NFS_OK) as Hst.
  { intros E. rewrite E in Hr. done. }
  assert (ff < len) as Hlt by (destruct (decide (ff = len)) as [Heq|]; [by specialize (Hall Heq)|lia]).
  assert (rv_nops (conforming_reply outs) <= 2) as Hle.
  { case_match; [done|]. repeat case_match; try done; lia. }
  split; [|lia]. apply lookup_ge_None. simpl in Hle. lia.
Qed.

Lemma replay_runs_no_mutation_witness :
  run_ops [0; NFS4ERR_RESOURCE; 0; 0] !! Z.to_nat 2 = None ∧
  first_failure [0; NFS4ERR_RESOURCE; 0; 0] <= 1.
Proof. apply (replay_runs_no_mutation [0; NFS4ERR_RESOURCE; 0; 0]); [reflexivity|lia]. Defined.
End ConformLemmas.
