(* ===== verification/Types.v ===== *)
(** * Operation and result types

    A model of [crates/vfsi-core/src/types.rs] and [write.rs]: open flags and
    descriptors, file operands, object types and the attribute mask, sparse
    attributes, filesystem statistics, and the option and request builders.
    [bitflags] and [bitfield] types are their bits. *)

From stdpp Require Import base numbers list gmap strings.
From S2P Require Import Prelude Errors.

(** ** Open flags *)

Module OpenFlags.
Definition READ : Z := Z.shiftl 1 0.
Definition WRITE : Z := Z.shiftl 1 1.
Definition APPEND : Z := Z.shiftl 1 2.
Definition TRUNCATE : Z := Z.shiftl 1 3.
Definition CREATE : Z := Z.shiftl 1 4.
Definition CREATE_NEW : Z := Z.shiftl 1 5.
Definition all : Z :=
  Z.lor READ (Z.lor WRITE (Z.lor APPEND (Z.lor TRUNCATE (Z.lor CREATE CREATE_NEW)))).
End OpenFlags.

(** The Linux [open(2)] flags. *)
Definition O_RDONLY : Z := 0.
Definition O_WRONLY : Z := 1.
Definition O_RDWR : Z := 2.
Definition O_CREAT : Z := 64.
Definition O_EXCL : Z := 128.
Definition O_TRUNC : Z := 512.
Definition O_APPEND : Z := 1024.

Definition invalid_input {T} : result VfError.t T := Err (VfError.from_kind (Some 0) InvalidInput).

Definition open_flags_to_libc (flags : Z) : result VfError.t Z :=
  if negb (Z.ldiff flags OpenFlags.all =? 0) then invalid_input
  else
    let writable := flags_intersect flags (Z.lor OpenFlags.WRITE OpenFlags.APPEND) in
    raw ← match flags_contain flags OpenFlags.READ, writable with
          | true, true => Ok O_RDWR
          | true, false => Ok O_RDONLY
          | false, true => Ok O_WRONLY
          | false, false => invalid_input
          end;
    if flags_contain flags OpenFlags.TRUNCATE && negb writable then invalid_input
    else if flags_intersect flags (Z.lor OpenFlags.CREATE OpenFlags.CREATE_NEW) && negb writable
    then invalid_input
    else
      let raw := if flags_contain flags OpenFlags.APPEND then Z.lor raw O_APPEND else raw in
      let raw := if flags_contain flags OpenFlags.TRUNCATE then Z.lor raw O_TRUNC else raw in
      let raw := if flags_intersect flags (Z.lor OpenFlags.CREATE OpenFlags.CREATE_NEW)
                 then Z.lor raw O_CREAT else raw in
      let raw := if flags_contain flags OpenFlags.CREATE_NEW then Z.lor raw O_EXCL else raw in
      Ok raw.

(** What [open(2)] makes of a flag word. *)
Record open_semantics := OpenSemantics {
  os_readable : bool; os_writable : bool; os_append : bool;
  os_truncate : bool; os_create : bool; os_exclusive : bool;
}.

#[global] Instance open_semantics_eq_dec : EqDecision open_semantics.
Proof. solve_decision. Defined.

Definition libc_semantics (raw : Z) : open_semantics :=
  let acc := Z.land raw 3 in
  OpenSemantics ((acc =? O_RDONLY) || (acc =? O_RDWR)) ((acc =? O_WRONLY) || (acc =? O_RDWR))
    (flags_contain raw O_APPEND) (flags_contain raw O_TRUNC)
    (flags_contain raw O_CREAT) (flags_contain raw O_EXCL).

(** What the typed flags ask for, bit by bit. *)
Definition requested_semantics (flags : Z) : open_semantics :=
  let b := Z.testbit flags in
  OpenSemantics (b 0) (b 1 || b 2) (b 2) (b 3) (b 4 || b 5) (b 5).

(** The requests that make sense: known bits, an access mode, and write access
    for whatever changes the file. *)
Definition valid_open (flags : Z) : bool :=
  let s := requested_semantics flags in
  (Z.shiftr flags 6 =? 0) && (os_readable s || os_writable s) &&
  (negb (os_truncate s || os_create s) || os_writable s).

Record OpenOp := MakeOpenOp { oo_path : bytes; oo_flags : Z; oo_mode : Z }.

Module OpenOp.
Definition new (path : bytes) (flags : Z) : OpenOp := MakeOpenOp path flags 0x1b6.
Definition mode (op : OpenOp) (m : Z) : OpenOp := MakeOpenOp (oo_path op) (oo_flags op) m.
End OpenOp.

(** ** Descriptors *)

Section InsertFd.
Context {T : Type}.
Implicit Types (files : gmap Z T).

(** One iteration: the next candidate, wrapping to one, taken when vacant. *)
Definition insert_fd_step (obj : T) (st : Z * gmap Z T) : (Z * gmap Z T) + (Z * (Z * gmap Z T)) :=
  let '(next_fd, files) := st in
  let candidate := if next_fd + 1 <=? I32_MAX then next_fd + 1 else 1 in
  match files !! candidate with
  | None => inr (candidate, (candidate, <[candidate := obj]> files))
  | Some _ => inl (candidate, files)
  end.

Definition insert_fd (next_fd : Z) (files : gmap Z T) (obj : T)
    : result VfError.t Z * (Z * gmap Z T) :=
  match for_upto (Z.to_pos I32_MAX) (insert_fd_step obj) (next_fd, files) with
  | inr (fd, st) => (Ok fd, st)
  | inl st => (Err (VfError.errno (Some 0) EMFILE), st)
  end.
End InsertFd.

(** ** File operands *)

Inductive VfPathBase := BaseCwd | BaseAbs.
Inductive SeekFrom := SeekSet | SeekCur | SeekEnd.

Inductive FileOperand :=
| Cwd
| Fd (fd : Z)
| PathOperand (base : VfPathBase) (path : bytes)
| CwdPath (path : bytes)
| Saved.

Module FileOperand.
Definition from_path_bytes (path : bytes) : FileOperand :=
  let base := if starts_with path (bstr "/") then BaseAbs else BaseCwd in
  PathOperand base path.
Definition is_fd (f : FileOperand) : bool := match f with Fd _ => true | _ => false end.
Definition fd (f : FileOperand) : option Z := match f with Fd n => Some n | _ => None end.
Definition path (f : FileOperand) : option bytes :=
  match f with PathOperand _ p | CwdPath p => Some p | _ => None end.
End FileOperand.

(** ** Object types *)

Definition NF4REG : Z := 1.
Definition NF4DIR : Z := 2.
Definition NF4BLK : Z := 3.
Definition NF4CHR : Z := 4.
Definition NF4LNK : Z := 5.
Definition NF4SOCK : Z := 6.
Definition NF4FIFO : Z := 7.

Inductive VfType :=
| Regular | Directory | Symlink | BlockDevice | CharDevice | Fifo | Socket | OtherType (code : Z).

#[global] Instance VfType_eq_dec : EqDecision VfType.
Proof. solve_decision. Defined.

Definition file_type_from_nfs (code : Z) : VfType :=
  if code =? NF4REG then Regular
  else if code =? NF4DIR then Directory
  else if code =? NF4LNK then Symlink
  else if code =? NF4BLK then BlockDevice
  else if code =? NF4CHR then CharDevice
  else if code =? NF4FIFO then Fifo
  else if code =? NF4SOCK then Socket
  else OtherType code.

Definition file_type_to_nfs (t : VfType) : Z :=
  match t with
  | Regular => NF4REG
  | Directory => NF4DIR
  | Symlink => NF4LNK
  | BlockDevice => NF4BLK
  | CharDevice => NF4CHR
  | Fifo => NF4FIFO
  | Socket => NF4SOCK
  | OtherType code => code
  end.

Inductive VfOffset := At (offset : Z) | Cur | End_.

(** ** Attribute mask *)

Module AttrMask.
Definition MODE : Z := Z.shiftl 1 0.
Definition SIZE : Z := Z.shiftl 1 1.
Definition NLINK : Z := Z.shiftl 1 2.
Definition FILEID : Z := Z.shiftl 1 3.
Definition BLOCKS : Z := Z.shiftl 1 4.
Definition UID : Z := Z.shiftl 1 5.
Definition GID : Z := Z.shiftl 1 6.
Definition RDEV : Z := Z.shiftl 1 7.
Definition ATIME : Z := Z.shiftl 1 8.
Definition MTIME : Z := Z.shiftl 1 9.
Definition CTIME : Z := Z.shiftl 1 10.
Definition NAMED_ATTR : Z := Z.shiftl 1 11.
Definition CHANGE : Z := Z.shiftl 1 12.
Definition FS_ID : Z := Z.shiftl 1 13.
Definition stat : Z := Z.lor MODE (Z.lor SIZE (Z.lor NLINK (Z.lor FILEID FS_ID))).
Definition identity : Z := Z.lor FILEID FS_ID.
End AttrMask.

(** ** Time

    The standard library's [SystemTime] on Linux: seconds in an [i64] and
    nanoseconds below one second, counted from the epoch. *)

Definition NSEC_PER_SEC : Z := 1000000000.

Record Duration := MakeDuration { d_secs : Z; d_nanos : Z }.
Record SystemTime := MakeTime { tv_sec : Z; tv_nsec : Z }.

#[global] Instance SystemTime_eq_dec : EqDecision SystemTime.
Proof. solve_decision. Defined.

Definition time_valid (t : SystemTime) : Prop :=
  I64_MIN <= tv_sec t <= I64_MAX ∧ 0 <= tv_nsec t < NSEC_PER_SEC.

Definition UNIX_EPOCH : SystemTime := MakeTime 0 0.

Definition duration_new (secs nanos : Z) : Duration :=
  MakeDuration (secs + nanos / NSEC_PER_SEC) (nanos mod NSEC_PER_SEC).
Definition duration_from_secs (secs : Z) : Duration := MakeDuration secs 0.
Definition duration_from_nanos (nanos : Z) : Duration :=
  MakeDuration (nanos / NSEC_PER_SEC) (nanos mod NSEC_PER_SEC).

Definition i64_checked (n : Z) : option Z :=
  if (I64_MIN <=? n) && (n <=? I64_MAX) then Some n else None.

Definition time_checked_add (t : SystemTime) (d : Duration) : option SystemTime :=
  secs ← i64_checked (tv_sec t + d_secs d);
  let nsec := tv_nsec t + d_nanos d in
  if NSEC_PER_SEC <=? nsec then
    secs ← i64_checked (secs + 1); Some (MakeTime secs (nsec - NSEC_PER_SEC))
  else Some (MakeTime secs nsec).

Definition time_checked_sub (t : SystemTime) (d : Duration) : option SystemTime :=
  secs ← i64_checked (tv_sec t - d_secs d);
  let nsec := tv_nsec t - d_nanos d in
  if nsec <? 0 then
    secs ← i64_checked (secs - 1); Some (MakeTime secs (nsec + NSEC_PER_SEC))
  else Some (MakeTime secs nsec).

(** The time as nanoseconds since the epoch. *)
Definition time_nanos (t : SystemTime) : Z := tv_sec t * NSEC_PER_SEC + tv_nsec t.

(** [duration_since(UNIX_EPOCH)]: the distance, or the distance the other way. *)
Definition duration_since_epoch (t : SystemTime) : result Duration Duration :=
  if 0 <=? time_nanos t then Ok (duration_from_nanos (time_nanos t))
  else Err (duration_from_nanos (- time_nanos t)).

Definition system_time (seconds nanos : Z) : option SystemTime :=
  if seconds <? 0 then
    t ← time_checked_sub UNIX_EPOCH (duration_from_secs (Z.abs seconds));
    time_checked_add t (duration_from_nanos nanos)
  else time_checked_add UNIX_EPOCH (duration_new seconds nanos).

(** ** Attributes *)

Record VfAttrs := MakeVfAttrs {
  va_file : FileOperand; va_masks : Z; va_returned : Z; va_ftype : VfType;
  va_mode : Z; va_size : Z; va_nlink : Z; va_fileid : Z; va_fs_id : Z; va_change : Z;
  va_uid : Z; va_gid : Z; va_rdev : Z; va_blocks : Z;
  va_mtime_sec : Z; va_mtime_nsec : Z; va_atime_sec : Z; va_atime_nsec : Z;
  va_ctime_sec : Z; va_ctime_nsec : Z; va_has_named_attr : bool;
}.

Module Permissions.
Definition t := Z.
Definition from_mode (mode : Z) : t := Z.land mode 0xfff.
Definition readonly (p : t) : bool := Z.land p 0x92 =? 0.
End Permissions.

Record FsObjId := MakeFsObjId { fo_fs_id : Z; fo_file_id : Z }.

Module Attrs.
Record t := Make {
  file_type : VfType; len_ : Z; permissions_ : Permissions.t; returned : Z;
  mode_ : Z; blocks_ : Z; device_id_ : Z; has_named_attributes : option bool;
  modified : option SystemTime; accessed : option SystemTime; changed : option SystemTime;
  nlink_ : Z; fs_id_ : Z; file_id_ : Z; change_id_ : Z; uid_ : Z; gid_ : Z;
}.

Definition absent_mask (a : t) (requested : Z) : Z := flags_difference requested (returned a).
Definition contains (a : t) (requested : Z) : bool := absent_mask a requested =? 0.

(** [self.returned.contains(mask).then_some(value)]. *)
Definition present {T} (a : t) (mask : Z) (v : T) : option T :=
  if flags_contain (returned a) mask then Some v else None.

Definition mode (a : t) : option Z := present a AttrMask.MODE (mode_ a).
Definition blocks (a : t) : option Z := present a AttrMask.BLOCKS (blocks_ a).
Definition device_id (a : t) : option Z := present a AttrMask.RDEV (device_id_ a).
Definition len (a : t) : option Z := present a AttrMask.SIZE (len_ a).
Definition is_empty (a : t) : option bool := (λ n, n =? 0) <$> len a.
Definition permissions (a : t) : option Permissions.t := present a AttrMask.MODE (permissions_ a).
Definition nlink (a : t) : option Z := present a AttrMask.NLINK (nlink_ a).
Definition file_id (a : t) : option Z := present a AttrMask.FILEID (file_id_ a).
Definition fs_id (a : t) : option Z := present a AttrMask.FS_ID (fs_id_ a).
Definition fs_obj_id (a : t) : option FsObjId :=
  fs ← fs_id a; file ← file_id a; Some (MakeFsObjId fs file).
Definition change_id (a : t) : option Z := present a AttrMask.CHANGE (change_id_ a).
Definition uid (a : t) : option Z := present a AttrMask.UID (uid_ a).
Definition gid (a : t) : option Z := present a AttrMask.GID (gid_ a).

Definition require (a : t) (fields : Z) : result VfError.t t :=
  let invalid_time :=
    existsb (λ p : Z * option SystemTime,
        flags_contain fields p.1 && bool_decide (p.2 = None))
      [(AttrMask.ATIME, accessed a); (AttrMask.MTIME, modified a); (AttrMask.CTIME, changed a)] in
  if negb (contains a fields) || invalid_time then
    Err (VfError.with_message (VfError.unsupported None)
      "required attributes are missing or cannot be represented")
  else Ok a.
End Attrs.

Definition metadata_from_attrs (attributes : VfAttrs) : Attrs.t :=
  let returned := va_returned attributes in
  let integer mask v := if flags_contain returned mask then v else 0 in
  let time mask s n := if flags_contain returned mask then system_time s n else None in
  Attrs.Make (va_ftype attributes)
    (integer AttrMask.SIZE (va_size attributes))
    (Permissions.from_mode (integer AttrMask.MODE (va_mode attributes)))
    returned
    (integer AttrMask.MODE (va_mode attributes))
    (integer AttrMask.BLOCKS (va_blocks attributes))
    (integer AttrMask.RDEV (va_rdev attributes))
    (if flags_contain returned AttrMask.NAMED_ATTR then Some (va_has_named_attr attributes) else None)
    (time AttrMask.MTIME (va_mtime_sec attributes) (va_mtime_nsec attributes))
    (time AttrMask.ATIME (va_atime_sec attributes) (va_atime_nsec attributes))
    (time AttrMask.CTIME (va_ctime_sec attributes) (va_ctime_nsec attributes))
    (integer AttrMask.NLINK (va_nlink attributes))
    (integer AttrMask.FS_ID (va_fs_id attributes))
    (integer AttrMask.FILEID (va_fileid attributes))
    (integer AttrMask.CHANGE (va_change attributes))
    (integer AttrMask.UID (va_uid attributes))
    (integer AttrMask.GID (va_gid attributes)).

(** ** Filesystem statistics

    Thirteen integers and two booleans, each with one presence bit.  The
    [filesystem_stat_field!] macro generates the same getter and setter for
    every integer field, so they are defined once over the field's name. *)

Module FilesystemStats.
Record flags_t := Flags { present : Z; read_only_ : bool; no_set_id_ : bool }.

Record t := Make {
  total_bytes_ : Z;
  free_bytes_ : Z;
  available_bytes_ : Z;
  total_files_ : Z;
  free_files_ : Z;
  available_files_ : Z;
  block_size_ : Z;
  fragment_size_ : Z;
  max_name_len_ : Z;
  max_path_len_ : Z;
  max_links_ : Z;
  max_file_size_ : Z;
  file_size_bits_ : Z;
  flags : flags_t;
}.

Inductive field :=
| total_bytes | free_bytes | available_bytes | total_files | free_files | available_files | block_size
| fragment_size | max_name_len | max_path_len | max_links | max_file_size | file_size_bits.

#[global] Instance field_eq_dec : EqDecision field.
Proof. solve_decision. Defined.

(** The presence bit of each field, as the macro's invocations give it. *)
Definition field_bit (f : field) : Z :=
  match f with
  | total_bytes => 0
  | free_bytes => 1
  | available_bytes => 2
  | total_files => 3
  | free_files => 4
  | available_files => 5
  | block_size => 6
  | fragment_size => 7
  | max_name_len => 8
  | max_path_len => 9
  | max_links => 10
  | max_file_size => 11
  | file_size_bits => 12
  end.

(** [self.$field] and [self.$field = v]. *)
Definition payload (f : field) (s : t) : Z :=
  match f with
  | total_bytes => total_bytes_ s
  | free_bytes => free_bytes_ s
  | available_bytes => available_bytes_ s
  | total_files => total_files_ s
  | free_files => free_files_ s
  | available_files => available_files_ s
  | block_size => block_size_ s
  | fragment_size => fragment_size_ s
  | max_name_len => max_name_len_ s
  | max_path_len => max_path_len_ s
  | max_links => max_links_ s
  | max_file_size => max_file_size_ s
  | file_size_bits => file_size_bits_ s
  end.

Definition set_payload (f : field) (v : Z) (s : t) : t :=
  let pick g := if decide (f = g) then v else payload g s in
  Make
    (pick total_bytes) (pick free_bytes) (pick available_bytes)
    (pick total_files) (pick free_files) (pick available_files)
    (pick block_size) (pick fragment_size) (pick max_name_len)
    (pick max_path_len) (pick max_links) (pick max_file_size)
    (pick file_size_bits)
    (flags s).

Definition set_present (bit : Z) (p : bool) (s : t) : t :=
  Make (total_bytes_ s) (free_bytes_ s) (available_bytes_ s) (total_files_ s)
    (free_files_ s) (available_files_ s) (block_size_ s) (fragment_size_ s)
    (max_name_len_ s) (max_path_len_ s) (max_links_ s) (max_file_size_ s)
    (file_size_bits_ s)
    (Flags (set_bit (present (flags s)) bit p) (read_only_ (flags s)) (no_set_id_ (flags s))).

Definition set_flags (fl : flags_t) (s : t) : t :=
  Make (total_bytes_ s) (free_bytes_ s) (available_bytes_ s) (total_files_ s)
    (free_files_ s) (available_files_ s) (block_size_ s) (fragment_size_ s)
    (max_name_len_ s) (max_path_len_ s) (max_links_ s) (max_file_size_ s)
    (file_size_bits_ s)
    fl.

Definition get (f : field) (s : t) : option Z :=
  if negb (Z.land (present (flags s)) (Z.shiftl 1 (field_bit f)) =? 0)
  then Some (payload f s) else None.

Definition with_ (f : field) (value : option Z) (s : t) : t :=
  set_payload f (default 0 value) (set_present (field_bit f) (bool_decide (is_Some value)) s).

Definition read_only (s : t) : option bool :=
  if negb (Z.land (present (flags s)) (Z.shiftl 1 13) =? 0)
  then Some (read_only_ (flags s)) else None.

Definition with_read_only (value : option bool) (s : t) : t :=
  let s := set_present 13 (bool_decide (is_Some value)) s in
  set_flags (Flags (present (flags s)) (default false value) (no_set_id_ (flags s))) s.

Definition no_set_id (s : t) : option bool :=
  if negb (Z.land (present (flags s)) (Z.shiftl 1 14) =? 0)
  then Some (no_set_id_ (flags s)) else None.

Definition with_no_set_id (value : option bool) (s : t) : t :=
  let s := set_present 14 (bool_decide (is_Some value)) s in
  set_flags (Flags (present (flags s)) (read_only_ (flags s)) (default false value)) s.

Definition default_stats : t := Make 0 0 0 0 0 0 0 0 0 0 0 0 0 (Flags 0 false false).

(** Unknown payloads are zero, and the presence word has fifteen bits. *)
Definition canonical (s : t) : Prop :=
  (∀ f, get f s = None → payload f s = 0) ∧
  (read_only s = None → read_only_ (flags s) = false) ∧
  (no_set_id s = None → no_set_id_ (flags s) = false) ∧
  0 <= present (flags s) < 2 ^ 15.

(** The values the public interface can build. *)
Inductive built : t → Prop :=
| built_default : built default_stats
| built_with f v s : built s → built (with_ f v s)
| built_read_only v s : built s → built (with_read_only v s)
| built_no_set_id v s : built s → built (with_no_set_id v s).
End FilesystemStats.

(** ** Options and requests *)

Module RemoveOptions.
(** [flags] is the [u8] bit field whose bit zero is [continue_on_error]. *)
Record t := Make { flags : Z; batch : option positive; retries : Z }.
Definition default_options : t := Make 0 None 4.
Definition with_continue_on_error (o : t) (value : bool) : t :=
  Make (set_bit (flags o) 0 value) (batch o) (retries o).
Definition continue_on_error (o : t) : bool := Z.testbit (flags o) 0.
Definition with_batch_size (o : t) (value : option positive) : t := Make (flags o) value (retries o).
Definition with_retries (o : t) (value : Z) : t := Make (flags o) (batch o) value.
End RemoveOptions.

Module CopyOptions.
Definition t := Z.
Definition default_options : t := 1.
Definition with_follow_source_symlinks (o : t) (follow : bool) : t := set_bit o 0 follow.
Definition follow_source_symlinks (o : t) : bool := Z.testbit o 0.
End CopyOptions.

Module WriteRequest.
(** The native write request: bit zero of [flags] is creation, bit one truncation. *)
Record t (T : Type) := Make { file : T; offset : VfOffset; data : bytes; flags : Z }.
Arguments Make {T}. Arguments file {T}. Arguments offset {T}. Arguments data {T}. Arguments flags {T}.
Definition new {T} (f : T) (o : VfOffset) (d : bytes) : t T := Make f o d 0.
Definition at_ {T} (f : T) (o : Z) (d : bytes) : t T := new f (At o) d.
Definition creates {T} (w : t T) : bool := Z.testbit (flags w) 0.
Definition truncates {T} (w : t T) : bool := Z.testbit (flags w) 1.
Definition with_creation {T} (w : t T) : t T :=
  Make (file w) (offset w) (data w) (set_bit (flags w) 0 true).
Definition with_truncate {T} (w : t T) : t T :=
  Make (file w) (offset w) (data w) (set_bit (flags w) 1 true).
End WriteRequest.

(** ** Open flags: theorems *)

Definition open_flags_ok (flags : Z) : bool :=
  match open_flags_to_libc flags with
  | Ok raw => valid_open flags && bool_decide (libc_semantics raw = requested_semantics flags)
  | Err e => negb (valid_open flags) && bool_decide (VfError.detail e = ClientDetail InvalidInput)
  end.

Lemma open_flags_small : Forall (λ n, open_flags_ok n = true) (seqZ 0 64).
Proof. apply (bool_decide_unpack _). by vm_compute. Qed.

Lemma open_flags_unknown flags : 64 <= flags → open_flags_ok flags = true.
Proof.
  intros Hf. assert (Z.shiftr flags 6 ≠ 0) as Hsh.
  { rewrite Z.shiftr_div_pow2 by lia. intros E. apply Z.div_small_iff in E; lia. }
  assert (Z.ldiff flags OpenFlags.all ≠ 0) as Hd.
  { intros E. apply Hsh. apply Z.bits_inj'. intros n Hn. rewrite Z.shiftr_spec, Z.bits_0 by done.
    assert (Z.testbit (Z.ldiff flags OpenFlags.all) (n + 6) = false) as Ht by by rewrite E, Z.bits_0.
    rewrite Z.ldiff_spec in Ht. change OpenFlags.all with (Z.ones 6) in Ht.
    rewrite Z.ones_spec_high, andb_true_r in Ht by lia. done. }
  unfold open_flags_ok, open_flags_to_libc, valid_open.
  apply Z.eqb_neq in Hd, Hsh. rewrite Hd, Hsh. done.
Qed.

(** [open_flags_to_libc] is exact on every flag word.  It accepts precisely
    the requests with known bits, an access mode, and write access for whatever
    truncates or creates; and the libc word it returns means to [open(2)]
    exactly what the typed flags ask for: read and write access, append,
    truncation, creation and exclusive creation.  Anything else is refused with
    [InvalidInput]. *)
Theorem open_flags_to_libc_exact (flags : Z) :
  0 <= flags →
  match open_flags_to_libc flags with
  | Ok raw => valid_open flags = true ∧ libc_semantics raw = requested_semantics flags
  | Err e => valid_open flags = false ∧ VfError.detail e = ClientDetail InvalidInput
  end.
Proof.
  intros Hf. assert (open_flags_ok flags = true) as Hok.
  { destruct (decide (flags < 64)); [|apply open_flags_unknown; lia].
    apply (proj1 (Forall_forall _ _) open_flags_small). apply elem_of_seqZ. lia. }
  unfold open_flags_ok in Hok. destruct (open_flags_to_libc flags).
  - apply andb_true_iff in Hok as [? ?%bool_decide_eq_true]. done.
  - apply andb_true_iff in Hok as [? ?%bool_decide_eq_true]. split; [|done]. by apply negb_true_iff.
Qed.

Lemma open_flags_to_libc_exact_witness :
  libc_semantics (Z.lor O_RDWR (Z.lor O_CREAT O_EXCL)) = requested_semantics (0x23).
Proof. apply (open_flags_to_libc_exact 0x23). lia. Defined.

(** ** Descriptors: theorems *)

Section InsertFdLemmas.
Context {T : Type}.
Implicit Types (files : gmap Z T) (obj : T).

Lemma insert_fd_candidate next : 0 <= next <= I32_MAX →
  (if next + 1 <=? I32_MAX then next + 1 else 1) = next mod I32_MAX + 1.
Proof.
  intros Hn. destruct (Z.leb_spec (next + 1) I32_MAX).
  - rewrite Z.mod_small; lia.
  - replace next with I32_MAX by lia. rewrite Z.mod_same; [done|]. by vm_compute.
Qed.

Lemma insert_fd_loop_full obj n next files st :
  0 <= next <= I32_MAX →
  for_nat n (insert_fd_step obj) (next, files) = inl st →
  st.2 = files ∧ ∀ j, 0 <= j < Z.of_nat n → is_Some (files !! ((next + j) mod I32_MAX + 1)).
Proof.
  revert next. induction n as [|n IH]; intros next Hn; cbn [for_nat].
  { intros [= <-]. split; [done|]. intros; lia. }
  unfold insert_fd_step at 1. rewrite insert_fd_candidate by done.
  destruct (files !! (next mod I32_MAX + 1)) as [x|] eqn:Hx; [|done]. intros Hl.
  assert (0 <= next mod I32_MAX < I32_MAX) as Hm by (apply Z.mod_pos_bound; by vm_compute).
  destruct (IH (next mod I32_MAX + 1) ltac:(lia) Hl) as [Hst Hall]. split; [done|].
  intros j Hj. destruct (decide (j = 0)) as [->|]; [by rewrite Z.add_0_r, Hx|].
  specialize (Hall (j - 1) ltac:(lia)).
  replace (next mod I32_MAX + 1 + (j - 1)) with (next mod I32_MAX + j) in Hall by lia.
  by rewrite Zplus_mod_idemp_l in Hall.
Qed.

Lemma insert_fd_loop_found obj n next files fd st :
  0 <= next <= I32_MAX →
  for_nat n (insert_fd_step obj) (next, files) = inr (fd, st) →
  1 <= fd <= I32_MAX ∧ files !! fd = None ∧ st = (fd, <[fd := obj]> files).
Proof.
  revert next. induction n as [|n IH]; intros next Hn; cbn [for_nat]; [done|].
  unfold insert_fd_step at 1. rewrite insert_fd_candidate by done.
  assert (0 <= next mod I32_MAX < I32_MAX) as Hm by (apply Z.mod_pos_bound; by vm_compute).
  destruct (files !! (next mod I32_MAX + 1)) as [x|] eqn:Hx.
  - intros Hl. apply (IH (next mod I32_MAX + 1)); [lia|done].
  - intros [= <- <-]. split_and!; [lia|lia|done|done].
Qed.
End InsertFdLemmas.

(** Descriptors are never reused while live, and never run out early.
    [insert_fd] returns a positive descriptor that was not in the table and
    inserts the object under it, leaving every other descriptor alone; it fails
    with EMFILE, changing no entry, only when all 2^31 - 1 positive descriptors
    are live. *)
Theorem insert_fd_fresh {T} (next_fd : Z) (files : gmap Z T) (obj : T) :
  0 <= next_fd <= I32_MAX →
  match insert_fd next_fd files obj with
  | (Ok fd, (next', files')) =>
      1 <= fd <= I32_MAX ∧ files !! fd = None ∧ files' = <[fd := obj]> files ∧ next' = fd
  | (Err e, (_, files')) =>
      files' = files ∧ e = VfError.errno (Some 0) EMFILE ∧
      ∀ fd, 1 <= fd <= I32_MAX → is_Some (files !! fd)
  end.
Proof.
  intros Hn. unfold insert_fd. rewrite for_upto_nat.
  destruct (for_nat _ _ _) as [[n' f']|[fd st]] eqn:E.
  - apply insert_fd_loop_full in E as [Hf Hall]; [|done]. simpl in Hf. split_and!; [done|done|].
    intros fd Hfd. assert (0 < I32_MAX) by by vm_compute.
    specialize (Hall ((fd - 1 - next_fd) mod I32_MAX)).
    rewrite Zplus_mod_idemp_r in Hall.
    replace (next_fd + (fd - 1 - next_fd)) with (fd - 1) in Hall by lia.
    rewrite (Z.mod_small (fd - 1)) in Hall by lia.
    replace (fd - 1 + 1) with fd in Hall by lia. apply Hall.
    rewrite positive_nat_Z, Z2Pos.id by done. by apply Z.mod_pos_bound.
  - by apply insert_fd_loop_found in E as (? & ? & ->).
Qed.

Lemma insert_fd_fresh_witness :
  match insert_fd I32_MAX (<[1 := tt]> ∅) tt with
  | (Ok fd, (next', files')) =>
      1 <= fd <= I32_MAX ∧ (<[1 := tt]> ∅ : gmap Z unit) !! fd = None ∧
      files' = <[fd := tt]> (<[1 := tt]> ∅) ∧ next' = fd
  | (Err e, (_, files')) => False
  end.
Proof.
  pose proof (insert_fd_fresh I32_MAX (<[1 := tt]> ∅) tt ltac:(by vm_compute)) as H.
  assert (insert_fd I32_MAX (<[1 := tt]> ∅) tt = (Ok 2, (2, <[2 := tt]> (<[1 := tt]> ∅)))) as E
    by (vm_compute; reflexivity).
  rewrite E in H |- *. exact H.
Defined.

(** The object-type codec.  Decoding and re-encoding a wire code always gives
    the code back, and decoding an encoded type gives the type back for every
    type a decoder can produce. *)
Theorem file_type_codec (code : Z) :
  file_type_to_nfs (file_type_from_nfs code) = code ∧
  file_type_from_nfs (file_type_to_nfs (file_type_from_nfs code)) = file_type_from_nfs code.
Proof.
  assert (file_type_to_nfs (file_type_from_nfs code) = code) as H.
  { unfold file_type_from_nfs. repeat case_match; simpl; lia. }
  by rewrite H.
Qed.

(** ** Sparse attributes: theorems *)

Module AttrsLemmas.
Import Attrs.

(** Every observation the public accessors allow. *)
Definition observations (a : t) :=
  (file_type a, returned a, (mode a, blocks a, device_id a, len a, permissions a, nlink a),
   (file_id a, fs_id a, change_id a, uid a, gid a),
   (has_named_attributes a, modified a, accessed a, changed a)).

Lemma sparse_integer returned mask v w :
  (if flags_contain returned mask then Some (if flags_contain returned mask then v else 0) else None)
  = (if flags_contain returned mask then Some (if flags_contain returned mask then w else 0) else None)
  → (if flags_contain returned mask then v else 0) = (if flags_contain returned mask then w else 0).
Proof. destruct (flags_contain returned mask); congruence. Qed.

(** Equality of attributes is semantic.  Two [Attrs] built from backend
    attributes are equal as soon as every public accessor agrees on them: what
    a backend left in fields it did not return never shows. *)
Theorem attrs_equality_semantic (a b : VfAttrs) :
  observations (metadata_from_attrs a) = observations (metadata_from_attrs b) →
  metadata_from_attrs a = metadata_from_attrs b.
Proof.
  unfold observations, metadata_from_attrs, mode, blocks, device_id, len, permissions, nlink,
    file_id, fs_id, change_id, uid, gid, present.
  cbn [file_type returned mode_ blocks_ device_id_ len_ permissions_ nlink_ fs_id_ file_id_
       change_id_ uid_ gid_ has_named_attributes modified accessed changed].
  intros Heq. injection Heq as Hft Hret Hmode Hblocks Hdev Hlen Hperm Hnlink Hfile Hfs Hchange
    Huid Hgid Hnamed Hmod Hacc Hch.
  rewrite <-Hret in *.
  apply sparse_integer in Hmode, Hblocks, Hdev, Hlen, Hnlink, Hfile, Hfs, Hchange, Huid, Hgid.
  by rewrite Hft, Hmode, Hblocks, Hdev, Hlen, Hnlink, Hfile, Hfs, Hchange, Huid, Hgid,
    Hnamed, Hmod, Hacc, Hch.
Qed.

Definition example_attrs (junk : Z) : VfAttrs :=
  MakeVfAttrs Cwd 0 (Z.lor AttrMask.SIZE AttrMask.MTIME) Regular junk 42 junk junk junk junk junk
    junk junk junk 100 5 junk junk junk junk false.

Lemma attrs_equality_semantic_witness :
  metadata_from_attrs (example_attrs 7) = metadata_from_attrs (example_attrs 9).
Proof. apply attrs_equality_semantic. by vm_compute. Defined.

Lemma contains_testbit a fields :
  contains a fields = true ↔
  ∀ n, 0 <= n → Z.testbit fields n = true → Z.testbit (returned a) n = true.
Proof.
  unfold contains, absent_mask, flags_difference. rewrite Z.eqb_eq. split.
  - intros E n Hn Hf. assert (Z.testbit (Z.ldiff fields (returned a)) n = false) as Ht
      by by rewrite E, Z.bits_0.
    rewrite Z.ldiff_spec, Hf in Ht. by destruct (Z.testbit (returned a) n).
  - intros Hall. apply Z.bits_inj'. intros n Hn. rewrite Z.ldiff_spec, Z.bits_0.
    specialize (Hall n Hn). destruct (Z.testbit fields n); [|done]. by rewrite Hall.
Qed.

(** [Attrs::require] is exact: it succeeds, returning the attributes, if and
    only if every requested field was returned by the backend and every
    requested timestamp could be represented. *)
Theorem require_exact (a : t) (fields : Z) :
  require a fields = Ok a ↔
  (∀ n, 0 <= n → Z.testbit fields n = true → Z.testbit (returned a) n = true) ∧
  (Z.testbit fields 8 = true → is_Some (accessed a)) ∧
  (Z.testbit fields 9 = true → is_Some (modified a)) ∧
  (Z.testbit fields 10 = true → is_Some (changed a)).
Proof.
  rewrite <-contains_testbit. unfold require. cbn [existsb fst snd].
  unfold AttrMask.ATIME, AttrMask.MTIME, AttrMask.CTIME. rewrite !flags_contain_bit by lia.
  assert (∀ b (o : option SystemTime), b && bool_decide (o = None) = false ↔ (b = true → is_Some o))
    as Htime.
  { intros [] [?|]; simpl; (split; [eauto|]); try done. intros [? ?]; done. }
  rewrite <-!Htime, orb_false_r.
  destruct (contains a fields), (_ && _), (_ && _), (_ && _); simpl; naive_solver.
Qed.
End AttrsLemmas.

(** ** Filesystem statistics: theorems *)

Module StatsLemmas.
Import FilesystemStats.

Local Ltac reduce_flags :=
  unfold with_read_only, with_no_set_id, set_flags, set_present;
  cbn [flags present read_only_ no_set_id_].

Lemma field_bit_range f : 0 <= field_bit f < 13.
Proof. destruct f; simpl; lia. Qed.

Lemma field_bit_inj f g : field_bit f = field_bit g → f = g.
Proof. destruct f, g; simpl; congruence. Qed.

Lemma field_bit_surj n : 0 <= n < 13 → ∃ f, field_bit f = n.
Proof.
  intros Hn.
  assert (n = 0 ∨ n = 1 ∨ n = 2 ∨ n = 3 ∨ n = 4 ∨ n = 5 ∨ n = 6
    ∨ n = 7 ∨ n = 8 ∨ n = 9 ∨ n = 10 ∨ n = 11 ∨ n = 12)
    as Hcases by lia.
  destruct_or! Hcases; subst;
    [by exists total_bytes|by exists free_bytes|by exists available_bytes|by exists total_files|by exists free_files
    |by exists available_files|by exists block_size|by exists fragment_size|by exists max_name_len|by exists max_path_len
    |by exists max_links|by exists max_file_size|by exists file_size_bits].
Qed.

Lemma get_testbit f s :
  get f s = if Z.testbit (present (flags s)) (field_bit f) then Some (payload f s) else None.
Proof.
  unfold get. pose proof (field_bit_range f).
  change (negb (Z.land ?a ?b =? 0)) with (flags_intersect a b).
  by rewrite flags_intersect_bit by lia.
Qed.

Lemma read_only_testbit s :
  read_only s = if Z.testbit (present (flags s)) 13 then Some (read_only_ (flags s)) else None.
Proof.
  unfold read_only. change (negb (Z.land ?a ?b =? 0)) with (flags_intersect a b).
  by rewrite flags_intersect_bit by lia.
Qed.

Lemma no_set_id_testbit s :
  no_set_id s = if Z.testbit (present (flags s)) 14 then Some (no_set_id_ (flags s)) else None.
Proof.
  unfold no_set_id. change (negb (Z.land ?a ?b =? 0)) with (flags_intersect a b).
  by rewrite flags_intersect_bit by lia.
Qed.

Lemma payload_set_payload f g v s :
  payload g (set_payload f v s) = if decide (f = g) then v else payload g s.
Proof. by destruct g. Qed.

Lemma payload_set_present f bit p s : payload f (set_present bit p s) = payload f s.
Proof. by destruct f. Qed.

Lemma flags_with f v s :
  flags (with_ f v s) =
  Flags (set_bit (present (flags s)) (field_bit f) (bool_decide (is_Some v)))
    (read_only_ (flags s)) (no_set_id_ (flags s)).
Proof. done. Qed.

Lemma payload_with f g v s :
  payload g (with_ f v s) = if decide (f = g) then default 0 v else payload g s.
Proof. unfold with_. by rewrite payload_set_payload, payload_set_present. Qed.

Lemma get_with f g v s : get g (with_ f v s) = if decide (f = g) then v else get g s.
Proof.
  rewrite !get_testbit, flags_with, payload_with; cbn [present].
  pose proof (field_bit_range f). pose proof (field_bit_range g).
  rewrite testbit_set_bit by lia. destruct (decide (f = g)) as [->|Hne].
  - rewrite decide_True by done. by destruct v.
  - rewrite decide_False; [done|]. intros E. by apply Hne, eq_sym, field_bit_inj.
Qed.

Lemma flag_with bit f v s :
  13 <= bit → Z.testbit (present (flags (with_ f v s))) bit = Z.testbit (present (flags s)) bit.
Proof.
  intros Hb. rewrite flags_with; cbn [present]. pose proof (field_bit_range f).
  rewrite testbit_set_bit by lia. by rewrite decide_False by lia.
Qed.

(** The field accessors obey the record laws under the packed presence word:
    a field reads back exactly the option last written to it ([None] included),
    and writing one field changes the reading of no other field and of neither
    boolean. *)
Theorem stats_get_with (f g : field) (v : option Z) (s : t) :
  get g (with_ f v s) = (if decide (f = g) then v else get g s) ∧
  read_only (with_ f v s) = read_only s ∧ no_set_id (with_ f v s) = no_set_id s.
Proof.
  split_and!; [apply get_with| |].
  - by rewrite !read_only_testbit, flag_with.
  - by rewrite !no_set_id_testbit, flag_with.
Qed.

Lemma get_with_read_only f v s : get f (with_read_only v s) = get f s.
Proof.
  rewrite !get_testbit. reduce_flags. pose proof (field_bit_range f).
  rewrite testbit_set_bit, decide_False by lia. by destruct f.
Qed.

Lemma get_with_no_set_id f v s : get f (with_no_set_id v s) = get f s.
Proof.
  rewrite !get_testbit. reduce_flags. pose proof (field_bit_range f).
  rewrite testbit_set_bit, decide_False by lia. by destruct f.
Qed.

Lemma built_canonical s : built s → canonical s.
Proof.
  induction 1 as [|f v s _ (Hg & Hr & Hn & Hp)|v s _ (Hg & Hr & Hn & Hp)|v s _ (Hg & Hr & Hn & Hp)].
  - split_and!; [by intros []|done|done|done|done].
  - pose proof (field_bit_range f). split; [|split; [|split]].
    + intros g. rewrite get_with, payload_with. case_decide; [by intros ->|apply Hg].
    + revert Hr. by rewrite !read_only_testbit, flag_with by lia.
    + revert Hn. by rewrite !no_set_id_testbit, flag_with by lia.
    + rewrite flags_with; cbn [present]. apply set_bit_range; lia.
  - split; [|split; [|split]].
    + intros g. rewrite get_with_read_only. intros E. rewrite <-(Hg g E). by destruct g.
    + rewrite read_only_testbit. reduce_flags.
      rewrite testbit_set_bit by lia. by destruct v.
    + revert Hn. rewrite !no_set_id_testbit. reduce_flags.
      by rewrite testbit_set_bit, decide_False by lia.
    + apply set_bit_range; lia.
  - split; [|split; [|split]].
    + intros g. rewrite get_with_no_set_id. intros E. rewrite <-(Hg g E). by destruct g.
    + revert Hr. rewrite !read_only_testbit. reduce_flags.
      by rewrite testbit_set_bit, decide_False by lia.
    + rewrite no_set_id_testbit. reduce_flags.
      rewrite testbit_set_bit by lia. by destruct v.
    + apply set_bit_range; lia.
Qed.

Lemma canonical_payload f s s' :
  canonical s → canonical s' → get f s = get f s' → payload f s = payload f s'.
Proof.
  intros (Hg & _) (Hg' & _) E. specialize (Hg f). specialize (Hg' f).
  rewrite !get_testbit in *. revert E Hg Hg'.
  destruct (Z.testbit (present (flags s)) _), (Z.testbit (present (flags s')) _); try congruence.
  intros _ Hg Hg'. by rewrite Hg, Hg'.
Qed.

Lemma get_bit f s s' : get f s = get f s' →
  Z.testbit (present (flags s)) (field_bit f) = Z.testbit (present (flags s')) (field_bit f).
Proof.
  rewrite !get_testbit. destruct (Z.testbit (present (flags s)) _), (Z.testbit (present (flags s')) _);
    congruence.
Qed.

Lemma testbit_eq_range a b w :
  0 <= w → 0 <= a < 2 ^ w → 0 <= b < 2 ^ w →
  (∀ n, 0 <= n < w → Z.testbit a n = Z.testbit b n) → a = b.
Proof.
  intros Hw Ha Hb Hall. apply Z.bits_inj'. intros n Hn.
  destruct (decide (n < w)); [by apply Hall|].
  rewrite <-(Z.mod_small a (2 ^ w)), <-(Z.mod_small b (2 ^ w)) by lia.
  by rewrite !Z.mod_pow2_bits_high by lia.
Qed.

Lemma canonical_present s s' :
  canonical s → canonical s' → (∀ f, get f s = get f s') →
  read_only s = read_only s' → no_set_id s = no_set_id s' →
  present (flags s) = present (flags s').
Proof.
  intros (_ & _ & _ & Hp) (_ & _ & _ & Hp') Hget Hro Hns.
  apply (testbit_eq_range _ _ 15); [lia|done|done|]. intros n Hn.
  rewrite !read_only_testbit in Hro. rewrite !no_set_id_testbit in Hns.
  destruct (decide (n < 13)).
  - destruct (field_bit_surj n ltac:(lia)) as [f <-]. by apply get_bit.
  - destruct (decide (n = 13)) as [->|]; [clear Hns; revert Hro|].
    { by destruct (Z.testbit (present (flags s)) 13), (Z.testbit (present (flags s')) 13). }
    replace n with 14 by lia. revert Hns.
    by destruct (Z.testbit (present (flags s)) 14), (Z.testbit (present (flags s')) 14).
Qed.

(** Equality of statistics is semantic.  Two values built through the public
    setters, in any order and whatever their update history, are equal as soon
    as all fifteen getters agree. *)
Theorem stats_equality_semantic (s s' : t) :
  built s → built s' → (∀ f, get f s = get f s') →
  read_only s = read_only s' → no_set_id s = no_set_id s' → s = s'.
Proof.
  intros Hs%built_canonical Hs'%built_canonical Hget Hro Hns.
  pose proof (canonical_present s s' Hs Hs' Hget Hro Hns) as Hpres.
  pose proof (λ f, canonical_payload f s s' Hs Hs' (Hget f)) as Hpay.
  assert (read_only_ (flags s) = read_only_ (flags s')) as Hr.
  { destruct Hs as (_ & Hr & _), Hs' as (_ & Hr' & _). rewrite !read_only_testbit in *.
    rewrite Hpres in *. revert Hr Hr' Hro.
    destruct (Z.testbit _ 13); [congruence|intros Hr Hr' _; by rewrite Hr, Hr']. }
  assert (no_set_id_ (flags s) = no_set_id_ (flags s')) as Hn.
  { destruct Hs as (_ & _ & Hn & _), Hs' as (_ & _ & Hn' & _). rewrite !no_set_id_testbit in *.
    rewrite Hpres in *. revert Hn Hn' Hns.
    destruct (Z.testbit _ 14); [congruence|intros Hn Hn' _; by rewrite Hn, Hn']. }
  destruct s as [? ? ? ? ? ? ? ? ? ? ? ? ? [? ? ?]], s' as [? ? ? ? ? ? ? ? ? ? ? ? ? [? ? ?]].
  simpl in *. subst.
  f_equal; [exact (Hpay total_bytes)|exact (Hpay free_bytes)|exact (Hpay available_bytes)
    |exact (Hpay total_files)|exact (Hpay free_files)|exact (Hpay available_files)
    |exact (Hpay block_size)|exact (Hpay fragment_size)|exact (Hpay max_name_len)
    |exact (Hpay max_path_len)|exact (Hpay max_links)|exact (Hpay max_file_size)
    |exact (Hpay file_size_bits)].
Qed.

Lemma stats_equality_semantic_witness :
  with_ free_bytes None (with_ total_bytes (Some 9) (with_ free_bytes (Some 3) default_stats))
  = with_ total_bytes (Some 9) default_stats.
Proof. apply stats_equality_semantic; [repeat constructor|repeat constructor|by intros []|done|done]. Defined.
End StatsLemmas.
