(* ===== verification/Internal.v ===== *)
(** * Backend contracts

    A model of [crates/vfsi-core/src/internal.rs] with [internal/budget.rs] and
    [internal/adb.rs], and of the request and limit types of [api/metadata.rs]
    and [api/support.rs] they work on: batch validation, timestamps, ordered
    partial results and their strict collection, traversal budgets, and the
    layout of application data blocks. *)

From stdpp Require Import base numbers list list_numbers gmap strings pretty.
From S2P Require Import Prelude Errors Types.

(** ** Attribute updates *)

Module SetAttrsOp.
(** Bits zero to three of [present] are permissions, uid, gid and length; bit
    zero of [flags] is the follow policy. *)
Record t (T : Type) := Make {
  target : T; permissions_ : Permissions.t; uid_ : Z; gid_ : Z; len_ : Z;
  accessed_ : option SystemTime; modified_ : option SystemTime; flags : Z; present : Z;
}.
Arguments Make {T}. Arguments target {T}. Arguments permissions_ {T}. Arguments uid_ {T}.
Arguments gid_ {T}. Arguments len_ {T}. Arguments accessed_ {T}. Arguments modified_ {T}.
Arguments flags {T}. Arguments present {T}.

Definition new {T} (x : T) : t T := Make x (Permissions.from_mode 0) 0 0 0 None None 1 0.

Definition with_follow_final_symlink {T} (o : t T) (follow : bool) : t T :=
  Make (target o) (permissions_ o) (uid_ o) (gid_ o) (len_ o) (accessed_ o) (modified_ o)
    (set_bit (flags o) 0 follow) (present o).
Definition permissions {T} (o : t T) (p : Permissions.t) : t T :=
  Make (target o) p (uid_ o) (gid_ o) (len_ o) (accessed_ o) (modified_ o)
    (flags o) (Z.lor (present o) (Z.shiftl 1 0)).
Definition uid {T} (o : t T) (v : Z) : t T :=
  Make (target o) (permissions_ o) v (gid_ o) (len_ o) (accessed_ o) (modified_ o)
    (flags o) (Z.lor (present o) (Z.shiftl 1 1)).
Definition gid {T} (o : t T) (v : Z) : t T :=
  Make (target o) (permissions_ o) (uid_ o) v (len_ o) (accessed_ o) (modified_ o)
    (flags o) (Z.lor (present o) (Z.shiftl 1 2)).
Definition len {T} (o : t T) (v : Z) : t T :=
  Make (target o) (permissions_ o) (uid_ o) (gid_ o) v (accessed_ o) (modified_ o)
    (flags o) (Z.lor (present o) (Z.shiftl 1 3)).
Definition accessed {T} (o : t T) (v : SystemTime) : t T :=
  Make (target o) (permissions_ o) (uid_ o) (gid_ o) (len_ o) (Some v) (modified_ o)
    (flags o) (present o).
Definition modified {T} (o : t T) (v : SystemTime) : t T :=
  Make (target o) (permissions_ o) (uid_ o) (gid_ o) (len_ o) (accessed_ o) (Some v)
    (flags o) (present o).
Definition with_target {T U} (o : t T) (x : U) : t U :=
  Make x (permissions_ o) (uid_ o) (gid_ o) (len_ o) (accessed_ o) (modified_ o)
    (flags o) (present o).

Definition requested {T A} (o : t T) (bit : Z) (v : A) : option A :=
  if negb (Z.land (present o) (Z.shiftl 1 bit) =? 0) then Some v else None.
Definition requested_permissions {T} (o : t T) := requested o 0 (permissions_ o).
Definition requested_uid {T} (o : t T) := requested o 1 (uid_ o).
Definition requested_gid {T} (o : t T) := requested o 2 (gid_ o).
Definition requested_len {T} (o : t T) := requested o 3 (len_ o).
Definition follow_final_symlink {T} (o : t T) : bool := Z.testbit (flags o) 0.
End SetAttrsOp.

(** ** Batch validation *)

Fixpoint validate_open_requests_from (index : Z) (requests : list OpenOp) : result VfError.t unit :=
  match requests with
  | [] => Ok tt
  | request :: rest =>
      _ ← map_err (λ e, VfError.with_context (VfError.with_index e index) "vopen" (oo_path request))
            (open_flags_to_libc (oo_flags request));
      validate_open_requests_from (index + 1) rest
  end.

Definition validate_open_requests (requests : list OpenOp) : result VfError.t unit :=
  validate_open_requests_from 0 requests.

Definition system_time_parts (t : SystemTime) : result VfError.t (Z * Z) :=
  let overflow := VfError.errno (Some 0) EOVERFLOW in
  match duration_since_epoch t with
  | Ok d =>
      secs ← ok_or (i64_checked (d_secs d)) overflow;
      Ok (secs, d_nanos d)
  | Err d =>
      seconds ← ok_or (i64_checked (d_secs d)) overflow;
      if d_nanos d =? 0 then Ok (- seconds, 0)
      else
        seconds ← ok_or (i64_checked (seconds + 1)) overflow;
        Ok (- seconds, NSEC_PER_SEC - d_nanos d)
  end.

(** [option.map(f).transpose()]. *)
Definition transpose_map {A B E} (f : A → result E B) (o : option A) : result E (option B) :=
  match o with
  | None => Ok None
  | Some a => b ← f a; Ok (Some b)
  end.

Definition validate_setattrs {P} (op : SetAttrsOp.t P)
    : result VfError.t (option (Z * Z) * option (Z * Z)) :=
  if bool_decide (SetAttrsOp.requested_uid op = Some U32_MAX)
     || bool_decide (SetAttrsOp.requested_gid op = Some U32_MAX)
  then Err (VfError.from_kind (Some 0) InvalidInput)
  else
    atime ← transpose_map system_time_parts (SetAttrsOp.accessed_ op);
    mtime ← transpose_map system_time_parts (SetAttrsOp.modified_ op);
    Ok (atime, mtime).

(** ** Ordered partial results *)

Definition declared_count_error (declared expected : Z) : VfError.t :=
  VfError.invalid_reply None
    ("backend declared " +:+ pretty declared +:+ " requests for " +:+ pretty expected +:+ " inputs").

Definition result_count_error (reported requested : Z) : VfError.t :=
  VfError.invalid_reply None
    ("backend reported " +:+ pretty reported +:+ " results for " +:+ pretty requested
       +:+ " requests").

Module ManyResults.
Record t (T : Type) := Make { requested : Z; results : list (result VfError.t T) }.
Arguments Make {T}. Arguments requested {T}. Arguments results {T}.

Section Collect.
Context {T : Type}.

Definition all_success (values : list T) : t T := Make (Z.of_nat (length values)) (Ok <$> values).
Definition reported_len (m : t T) : Z := Z.of_nat (length (results m)).
Definition is_complete (m : t T) : bool := reported_len m =? requested m.

(** The collection loop, [values] being the values pushed so far. *)
Fixpoint collect_loop (index : Z) (rs : list (result VfError.t T)) (values : list T)
    : result VfError.t (list T) :=
  match rs with
  | [] => Ok values
  | r :: rest =>
      v ← map_err (λ e, VfError.with_index e index) r;
      collect_loop (index + 1) rest (values ++ [v])
  end.

Definition try_collect (m : t T) : result VfError.t (list T) :=
  let reported := reported_len m in
  if requested m <? reported then Err (result_count_error reported (requested m))
  else
    values ← collect_loop 0 (results m) [];
    if negb (Z.of_nat (length values) =? requested m)
    then Err (result_count_error (Z.of_nat (length values)) (requested m))
    else Ok values.

(** The partition loop: the successful values with their positions, and the
    first error with its position. *)
Fixpoint partition_loop (index : Z) (rs : list (result VfError.t T))
    (values : list (Z * T)) (first_error : option VfError.t) : list (Z * T) * option VfError.t :=
  match rs with
  | [] => (values, first_error)
  | Ok v :: rest => partition_loop (index + 1) rest (values ++ [(index, v)]) first_error
  | Err e :: rest =>
      partition_loop (index + 1) rest values
        (match first_error with None => Some (VfError.with_index e index) | Some _ => first_error end)
  end.

(** [cleanup] acts on the state [S]; its own result is discarded. *)
Definition try_collect_with_cleanup {S} (m : t T) (expected : Z)
    (cleanup : Z → T → S → result VfError.t unit * S) (s : S) : result VfError.t (list T) * S :=
  let declared := requested m in
  let reported := reported_len m in
  let '(values, first_error) := partition_loop 0 (results m) [] None in
  let primary :=
    if negb (declared =? expected) then Some (declared_count_error declared expected)
    else if expected <? reported then Some (result_count_error reported expected)
    else match first_error with
         | Some e => Some e
         | None => if negb (reported =? expected) then Some (result_count_error reported expected)
                   else None
         end in
  match primary with
  | Some error => (Err error, foldl (λ s p, (cleanup p.1 p.2 s).2) s values)
  | None => (Ok (values.*2), s)
  end.
End Collect.
End ManyResults.

(** ** Traversal budget *)

Definition limit_error : VfError.t := VfError.errno (Some 0) EFBIG.

Module TraversalBudget.
Record t := Make { entries : Z; bytes_ : Z }.

Definition charge_bytes (b : t) (n : Z) : result VfError.t unit * t :=
  match checked_sub (bytes_ b) n with
  | Some rest => (Ok tt, Make (entries b) rest)
  | None => (Err limit_error, b)
  end.

Definition charge_path (b : t) (path : bytes) : result VfError.t unit * t :=
  charge_bytes b (Z.of_nat (length path)).

(** The [try_fold] over the path lengths. *)
Fixpoint total_bytes (total : Z) (paths : list bytes) : result VfError.t Z :=
  match paths with
  | [] => Ok total
  | p :: rest =>
      total ← ok_or (checked_add total (Z.of_nat (length p))) limit_error;
      total_bytes total rest
  end.

Definition charge_paths (b : t) (paths : list bytes) : result VfError.t unit * t :=
  if entries b =? 0 then (Err limit_error, b)
  else
    match total_bytes 0 paths with
    | Err e => (Err e, b)
    | Ok n =>
        match charge_bytes b n with
        | (Ok _, b) => (Ok tt, Make (entries b - 1) (bytes_ b))
        | (Err e, b) => (Err e, b)
        end
    end.

Definition charge (b : t) (path : bytes) : result VfError.t unit * t := charge_paths b [path].
End TraversalBudget.

(** ** Application data blocks *)

Record Adb := MakeAdb {
  adb_path : bytes;
  adb_offset : Z;
  adb_block_size : Z;
  adb_block_count : Z;
  adb_reloff_blocknum : option Z;
  adb_block_num : Z;
  adb_reloff_pattern : option Z;
  adb_pattern_data : bytes;
}.

Definition Block : Type := Z * option Z * option Z.

(** The block the iterator yields, with [u64] arithmetic that wraps. *)
Definition adb_block (p : Adb) (block : Z) : Block :=
  let base := wrapping_add64 (adb_offset p) ((block * adb_block_size p) mod 2 ^ 64) in
  (wrapping_add64 (adb_block_num p) block,
   (λ relative, wrapping_add64 base relative) <$> adb_reloff_blocknum p,
   (λ relative, wrapping_add64 base relative) <$> adb_reloff_pattern p).

Definition adb_layout (p : Adb) (index : Z) : result VfError.t (list Block) :=
  let overflow := VfError.errno (Some index) EOVERFLOW in
  let pattern_len := Z.of_nat (length (adb_pattern_data p)) in
  let field base relative length :=
    transpose_map (λ relative,
      offset ← ok_or (checked_add base relative) overflow;
      _ ← ok_or (checked_add offset length) overflow;
      Ok offset) relative in
  _ ← match checked_sub (adb_block_count p) 1 with
      | Some last =>
          base ← ok_or (off ← checked_mul last (adb_block_size p); checked_add (adb_offset p) off)
                   overflow;
          _ ← ok_or (checked_add (adb_block_num p) last) overflow;
          _ ← field base (adb_reloff_blocknum p) 8;
          _ ← field base (adb_reloff_pattern p) pattern_len;
          Ok tt
      | None => Ok tt
      end;
  Ok (adb_block p <$> seqZ 0 (adb_block_count p)).

(** Reference: the blocks in exact arithmetic, and what it means that they fit. *)
Definition adb_block_exact (p : Adb) (block : Z) : Block :=
  let base := adb_offset p + block * adb_block_size p in
  (adb_block_num p + block,
   (λ relative, base + relative) <$> adb_reloff_blocknum p,
   (λ relative, base + relative) <$> adb_reloff_pattern p).

Definition adb_fits (p : Adb) : Prop :=
  ∀ block, 0 <= block < adb_block_count p →
    let base := adb_offset p + block * adb_block_size p in
    base <= U64_MAX ∧ adb_block_num p + block <= U64_MAX ∧
    (∀ r, adb_reloff_blocknum p = Some r → base + r + 8 <= U64_MAX) ∧
    (∀ r, adb_reloff_pattern p = Some r →
       base + r + Z.of_nat (length (adb_pattern_data p)) <= U64_MAX).

(** The fields are [u64] values and the count a [usize]. *)
Definition adb_typed (p : Adb) : Prop :=
  is_u64 (adb_offset p) ∧ is_u64 (adb_block_size p) ∧ is_usize (adb_block_count p) ∧
  is_u64 (adb_block_num p) ∧
  (∀ r, adb_reloff_blocknum p = Some r → is_u64 r) ∧
  (∀ r, adb_reloff_pattern p = Some r → is_u64 r).

(** ** Depth limits *)

Module DepthLimit.
(** The [NonZeroU16] payload. *)
Definition t := Z.
Definition new (depth : Z) : option t :=
  if depth <=? U16_MAX - 2 then Some ((depth + 1) mod 2 ^ 16) else None.
Definition unlimited : t := U16_MAX.
Definition is_unlimited (d : t) : bool := d =? U16_MAX.
Definition get (d : t) : Z := if is_unlimited d then USIZE_MAX else d - 1.
End DepthLimit.

(** ** Strict collection: theorems *)

Module CollectLemmas.
Import ManyResults.
Section Collect.
Context {T : Type}.
Implicit Types (rs : list (result VfError.t T)) (m : t T).

Lemma collect_loop_ok i rs acc vs :
  collect_loop i rs acc = Ok vs ↔ ∃ ws, rs = Ok <$> ws ∧ vs = acc ++ ws.
Proof.
  revert i acc. induction rs as [|r rs IH]; intros i acc; simpl.
  - split; [intros [= <-]; exists []; by rewrite app_nil_r|].
    intros ([|w ws] & Hn & ->); [by rewrite app_nil_r|done].
  - destruct r as [v|e]; simpl.
    + rewrite IH. split.
      * intros (ws & -> & ->). exists (v :: ws). by rewrite <-app_assoc.
      * intros ([|w ws] & Hw & ->); simplify_eq/=. exists ws. by rewrite <-app_assoc.
    + split; [done|]. by intros ([|w ws] & Hw & _).
Qed.

Lemma collect_loop_first_error i (acc ws : list T) e rest :
  collect_loop i ((Ok <$> ws) ++ Err e :: rest) acc =
  Err (VfError.with_index e (i + Z.of_nat (length ws))).
Proof.
  revert i acc. induction ws as [|w ws IH]; intros i acc; simpl.
  - by rewrite Z.add_0_r.
  - rewrite IH. do 2 f_equal. lia.
Qed.

(** The successful values with their positions. *)
Definition successes (i : Z) (rs : list (result VfError.t T)) : list (Z * T) :=
  omap (λ p : Z * result VfError.t T,
          match p.2 with Ok v => Some (p.1, v) | Err _ => None end)
    (zip (seqZ i (Z.of_nat (length rs))) rs).

Lemma successes_cons i r rs :
  successes i (r :: rs) =
  match r with Ok v => [(i, v)] | Err _ => [] end ++ successes (i + 1) rs.
Proof.
  unfold successes. cbn [length]. rewrite seqZ_cons by lia.
  replace (Z.pred (Z.of_nat (S (length rs)))) with (Z.of_nat (length rs)) by lia.
  rewrite <-Z.add_1_r. by destruct r.
Qed.

Lemma partition_loop_values i rs acc fe :
  (partition_loop i rs acc fe).1 = acc ++ successes i rs.
Proof.
  revert i acc fe. induction rs as [|r rs IH]; intros i acc fe; simpl.
  - by rewrite app_nil_r.
  - rewrite successes_cons. destruct r; rewrite IH; [by rewrite <-app_assoc|done].
Qed.

Lemma partition_loop_no_error i rs acc fe :
  (partition_loop i rs acc fe).2 = None ↔ fe = None ∧ ∃ vs, rs = Ok <$> vs.
Proof.
  revert i acc fe. induction rs as [|r rs IH]; intros i acc fe; simpl.
  - split; [intros ->; split; [done|by exists []]|by intros [-> _]].
  - destruct r as [v|e]; rewrite IH.
    + split; intros [-> [vs Hvs]]; (split; [done|]).
      * exists (v :: vs). by rewrite Hvs.
      * destruct vs; simplify_eq/=. eauto.
    + split; [by destruct fe; intros [? _]|]. by intros [_ [[|] ?]].
Qed.

Lemma successes_all_ok i vs : (successes i (Ok <$> vs)).*2 = vs.
Proof.
  revert i. induction vs as [|v vs IH]; intros i; [done|].
  rewrite fmap_cons, successes_cons. simpl. by rewrite IH.
Qed.
End Collect.

(** Strict collection loses nothing and invents nothing.  [try_collect]
    returns values exactly when the backend reported one success for every
    request, in order; and when it reported no more results than requests and
    the first failure is at position [i], the error returned is that failure
    with its index set to [i]. *)
Theorem try_collect_strict {T} (m : t T) :
  (∀ vs, try_collect m = Ok vs ↔
     results m = Ok <$> vs ∧ requested m = Z.of_nat (length vs)) ∧
  (∀ ws e rest, results m = (Ok <$> ws) ++ Err e :: rest → reported_len m <= requested m →
     try_collect m = Err (VfError.with_index e (Z.of_nat (length ws)))).
Proof.
  unfold try_collect, reported_len. split.
  - intros vs. split.
    + destruct (Z.ltb_spec (requested m) (Z.of_nat (length (results m)))); [done|].
      intros (ws & Hws & Hk)%bind_ok. apply collect_loop_ok in Hws as (us & Hus & ->).
      simpl in Hk. destruct (Z.eqb_spec (Z.of_nat (length us)) (requested m)); simpl in Hk; [|done].
      by simplify_eq.
    + intros [Hr Hq]. rewrite Hr, Hq, length_fmap.
      replace (Z.of_nat (length vs) <? Z.of_nat (length vs)) with false by lia.
      rewrite (proj2 (collect_loop_ok 0 (Ok <$> vs) [] vs)) by eauto. simpl. by rewrite Z.eqb_refl.
  - intros ws e rest Hr Hle. replace (requested m <? _) with false by lia.
    by rewrite Hr, collect_loop_first_error.
Qed.

Lemma try_collect_strict_witness :
  try_collect (Make 3 [Ok 1; Err (VfError.errno None EIO); Ok 2])
  = Err (VfError.with_index (VfError.errno None EIO) 1).
Proof.
  apply (proj2 (try_collect_strict (Make 3 [Ok 1; Err (VfError.errno None EIO); Ok 2]))
           [1] (VfError.errno None EIO) [Ok 2]); [reflexivity|]. unfold reported_len. simpl. lia.
Defined.

(** Handle-producing batches do not leak.  [try_collect_with_cleanup] either
    returns one value for every expected request and runs no cleanup, or
    returns an error and runs the cleanup exactly once, in order, on every value
    that was produced, each with its position; the cleanup's own failures never
    replace the error. *)
Theorem cleanup_exactly_once {T S} (m : t T) (expected : Z)
    (cleanup : Z → T → S → result VfError.t unit * S) (s : S) :
  match try_collect_with_cleanup m expected cleanup s with
  | (Ok vs, s') => results m = Ok <$> vs ∧ requested m = expected ∧
                   expected = Z.of_nat (length vs) ∧ s' = s
  | (Err _, s') => s' = foldl (λ s p, (cleanup p.1 p.2 s).2) s (successes 0 (results m)) ∧
                   ¬ (∃ vs, results m = Ok <$> vs ∧ requested m = expected ∧
                            expected = Z.of_nat (length vs))
  end.
Proof.
  unfold try_collect_with_cleanup, reported_len.
  pose proof (partition_loop_values 0 (results m) [] None) as Hv.
  pose proof (partition_loop_no_error 0 (results m) [] None) as Hn.
  destruct (partition_loop 0 (results m) [] None) as [values fe]. simpl in *. subst values.
  destruct (Z.eqb_spec (requested m) expected) as [Hd|Hd]; simpl; [|split; naive_solver].
  destruct (Z.ltb_spec expected (Z.of_nat (length (results m)))).
  { split; [done|]. intros (vs & Hr & _ & He). rewrite Hr, length_fmap in *. lia. }
  destruct fe as [e|].
  { split; [done|]. intros (vs & Hr & _). destruct Hn as [_ Hn]. discriminate Hn. eauto. }
  destruct Hn as [Hn _]. destruct (Hn eq_refl) as (_ & vs & Hr). rewrite Hr, length_fmap in *.
  destruct (Z.eqb_spec (Z.of_nat (length vs)) expected); simpl.
  - by rewrite successes_all_ok.
  - split; [done|]. intros (us & Hu & _ & He). apply (f_equal length) in Hu.
    rewrite !length_fmap in Hu. lia.
Qed.
End CollectLemmas.

(** ** Application data blocks: theorems *)

Module AdbLemmas.

Lemma checked_add_cases a b :
  checked_add a b = Some (a + b) ∧ a + b <= U64_MAX ∨ checked_add a b = None ∧ U64_MAX < a + b.
Proof. unfold checked_add. destruct (Z.leb_spec (a + b) U64_MAX); auto. Qed.

(** The monotonicity the source relies on: the last block bounds every block. *)
Lemma adb_base_mono p b c : adb_typed p → 0 <= b <= c →
  adb_offset p + b * adb_block_size p <= adb_offset p + c * adb_block_size p.
Proof. intros (?&[? _]&_) ?. apply Z.add_le_mono_l, Z.mul_le_mono_nonneg_r; lia. Qed.

Lemma adb_block_no_wrap p block :
  adb_typed p → adb_fits p → 0 <= block < adb_block_count p →
  adb_block p block = adb_block_exact p block.
Proof.
  intros ([? _] & [Hs _] & _ & [? _] & Hbn & Hpat) Hfit Hb.
  destruct (Hfit block Hb) as (Hbase & Hnum & Hf1 & Hf2).
  assert (0 <= block * adb_block_size p) by (apply Z.mul_nonneg_nonneg; lia).
  unfold adb_block, adb_block_exact, wrapping_add64. unfold U64_MAX in *.
  rewrite !(Z.mod_small (block * _)), !(Z.mod_small (adb_offset p + _)),
    (Z.mod_small (adb_block_num p + _)) by lia.
  f_equal; [f_equal|].
  - destruct (adb_reloff_blocknum p) as [r|]; [|done]. simpl. f_equal.
    specialize (Hbn r eq_refl) as [? _]. specialize (Hf1 r eq_refl). rewrite Z.mod_small; lia.
  - destruct (adb_reloff_pattern p) as [r|]; [|done]. simpl. f_equal.
    specialize (Hpat r eq_refl) as [? _]. specialize (Hf2 r eq_refl). rewrite Z.mod_small; lia.
Qed.

(** The check of the last block, as a proposition. *)
Definition adb_last_fits (p : Adb) : Prop :=
  let base := adb_offset p + (adb_block_count p - 1) * adb_block_size p in
  (adb_block_count p - 1) * adb_block_size p <= U64_MAX ∧ base <= U64_MAX ∧
  adb_block_num p + (adb_block_count p - 1) <= U64_MAX ∧
  (∀ r, adb_reloff_blocknum p = Some r → base + r <= U64_MAX ∧ base + r + 8 <= U64_MAX) ∧
  (∀ r, adb_reloff_pattern p = Some r →
     base + r <= U64_MAX ∧ base + r + Z.of_nat (length (adb_pattern_data p)) <= U64_MAX).

Lemma adb_last_fits_all p : adb_typed p → 0 < adb_block_count p → adb_last_fits p → adb_fits p.
Proof.
  intros Hty Hc (_ & Hb & Hn & H1 & H2) block Hblock.
  pose proof (adb_base_mono p block (adb_block_count p - 1) Hty ltac:(lia)) as Hm.
  split_and!; [lia|lia| |]; intros r Hr.
  - specialize (H1 r Hr). lia.
  - specialize (H2 r Hr). lia.
Qed.

Lemma adb_fits_last p : adb_typed p → 0 < adb_block_count p → adb_fits p → adb_last_fits p.
Proof.
  intros Hty Hc Hfit. destruct (Hfit (adb_block_count p - 1) ltac:(lia)) as (Hb & Hn & H1 & H2).
  destruct Hty as ([? _] & _). split_and!; [lia|lia|lia| |]; intros r Hr.
  - specialize (H1 r Hr). lia.
  - specialize (H2 r Hr). lia.
Qed.

(** The field check of the layout. *)
Lemma field_check (overflow : VfError.t) base rel len :
  (∃ o, transpose_map (λ relative,
      offset ← ok_or (checked_add base relative) overflow;
      _ ← ok_or (checked_add offset len) overflow; Ok offset) rel = Ok o) ∧
    (∀ r, rel = Some r → base + r <= U64_MAX ∧ base + r + len <= U64_MAX) ∨
  transpose_map (λ relative,
      offset ← ok_or (checked_add base relative) overflow;
      _ ← ok_or (checked_add offset len) overflow; Ok offset) rel = Err overflow ∧
    ¬ (∀ r, rel = Some r → base + r <= U64_MAX ∧ base + r + len <= U64_MAX).
Proof.
  destruct rel as [r|]; simpl; [|left; split; [eauto|done]].
  unfold checked_add. destruct (Z.leb_spec (base + r) U64_MAX); simpl.
  - destruct (Z.leb_spec (base + r + len) U64_MAX); simpl.
    + left. split; [eauto|]. by intros ? [= <-].
    + right. split; [done|]. intros Hall. specialize (Hall r eq_refl). lia.
  - right. split; [done|]. intros Hall. specialize (Hall r eq_refl). lia.
Qed.

Lemma adb_layout_cases p index :
  0 < adb_block_count p →
  adb_layout p index = Ok (adb_block p <$> seqZ 0 (adb_block_count p)) ∧ adb_last_fits p ∨
  adb_layout p index = Err (VfError.errno (Some index) EOVERFLOW) ∧ ¬ adb_last_fits p.
Proof.
  intros Hc. unfold adb_layout, adb_last_fits, checked_sub.
  replace (1 <=? adb_block_count p) with true by lia.
  unfold checked_mul. destruct (Z.leb_spec ((adb_block_count p - 1) * adb_block_size p) U64_MAX);
    simpl; [|right; split; [done|lia]].
  destruct (checked_add_cases (adb_offset p) ((adb_block_count p - 1) * adb_block_size p))
    as [[-> ?]|[-> ?]]; simpl; [|right; split; [done|lia]].
  destruct (checked_add_cases (adb_block_num p) (adb_block_count p - 1))
    as [[-> ?]|[-> ?]]; simpl; [|right; split; [done|lia]].
  destruct (field_check (VfError.errno (Some index) EOVERFLOW)
    (adb_offset p + (adb_block_count p - 1) * adb_block_size p) (adb_reloff_blocknum p) 8)
    as [[[o ->] Hf1]|[-> Hf1]]; simpl; [|right; naive_solver].
  destruct (field_check (VfError.errno (Some index) EOVERFLOW)
    (adb_offset p + (adb_block_count p - 1) * adb_block_size p) (adb_reloff_pattern p)
    (Z.of_nat (length (adb_pattern_data p)))) as [[[o' ->] Hf2]|[-> Hf2]]; simpl.
  - left. done.
  - right. naive_solver.
Qed.

(** Checking the last block checks them all.  For every pattern,
    [adb_layout] returns EOVERFLOW exactly when some block, block number or
    field end does not fit in 64 bits, and otherwise the offsets and block
    numbers it yields, computed with wrapping 64-bit arithmetic, are those of
    exact integer arithmetic: nothing wrapped. *)
Theorem adb_layout_exact (p : Adb) (index : Z) :
  adb_typed p →
  match adb_layout p index with
  | Ok blocks => adb_fits p ∧ blocks = (adb_block_exact p <$> seqZ 0 (adb_block_count p))
  | Err e => ¬ adb_fits p ∧ e = VfError.errno (Some index) EOVERFLOW
  end.
Proof.
  intros Hty. destruct (decide (0 < adb_block_count p)) as [Hc|Hc].
  - destruct (adb_layout_cases p index Hc) as [[-> Hl]|[-> Hl]].
    + pose proof (adb_last_fits_all p Hty Hc Hl) as Hfit. split; [done|].
      apply list_fmap_ext. intros i b Hb%list_elem_of_lookup_2%elem_of_seqZ.
      apply adb_block_no_wrap; [done|done|lia].
    + split; [|done]. intros Hfit. by apply Hl, adb_fits_last.
  - destruct Hty as (_ & _ & [? _] & _). unfold adb_layout, checked_sub.
    replace (1 <=? adb_block_count p) with false by lia. simpl.
    replace (adb_block_count p) with 0 by lia. split; [|done]. intros block ?. lia.
Qed.

Definition example_adb : Adb := MakeAdb [] 4096 512 3 (Some 0) 10 (Some 8) (bstr "pattern").

Lemma adb_layout_exact_witness :
  match adb_layout example_adb 0 with
  | Ok blocks => adb_fits example_adb ∧ blocks = (adb_block_exact example_adb <$> seqZ 0 3)
  | Err e => False
  end.
Proof.
  assert (adb_typed example_adb) as H.
  { unfold adb_typed, is_u64, U64_MAX; cbn. split_and!; try lia; intros r [= <-]; lia. }
  exact (adb_layout_exact example_adb 0 H).
Defined.
End AdbLemmas.

(** ** Timestamps: theorems *)

Module TimeLemmas.

Lemma i64_checked_some n : I64_MIN <= n <= I64_MAX → i64_checked n = Some n.
Proof. intros ?. unfold i64_checked. by replace (_ && _) with true by lia. Qed.

Lemma i64_checked_none n : ¬ (I64_MIN <= n <= I64_MAX) → i64_checked n = None.
Proof. intros ?. unfold i64_checked. by replace (_ && _) with false by lia. Qed.

Lemma system_time_some s n :
  I64_MIN <= s <= I64_MAX → 0 <= n < NSEC_PER_SEC → system_time s n = Some (MakeTime s n).
Proof.
  intros Hs Hn. assert (0 <= I64_MAX) by done. unfold system_time. destruct (Z.ltb_spec s 0).
  - replace (Z.abs s) with (- s) by lia.
    unfold time_checked_sub, duration_from_secs, UNIX_EPOCH; cbn [tv_sec tv_nsec d_secs d_nanos].
    replace (0 - - s) with s by lia. rewrite i64_checked_some by lia. simpl.
    unfold time_checked_add, duration_from_nanos; cbn [tv_sec tv_nsec d_secs d_nanos].
    rewrite Z.div_small, Z.mod_small, i64_checked_some by lia. simpl.
    replace (NSEC_PER_SEC <=? 0 - 0 + n) with false by lia. do 2 f_equal; lia.
  - unfold time_checked_add, duration_new, UNIX_EPOCH; cbn [tv_sec tv_nsec d_secs d_nanos].
    rewrite Z.div_small, Z.mod_small, i64_checked_some by lia. cbn -[Z.add Z.leb NSEC_PER_SEC].
    replace (NSEC_PER_SEC <=? 0 + n) with false by lia. do 2 f_equal; lia.
Qed.

(** A non-negative time splits back into its fields. *)
Lemma nanos_split s n : 0 <= n < NSEC_PER_SEC →
  (s * NSEC_PER_SEC + n) / NSEC_PER_SEC = s ∧ (s * NSEC_PER_SEC + n) mod NSEC_PER_SEC = n.
Proof.
  intros Hn. assert (NSEC_PER_SEC ≠ 0) by done.
  rewrite Z.div_add_l, Z.div_small by done. split; [lia|].
  rewrite Z.add_comm, Z.mod_add by done. by apply Z.mod_small.
Qed.

(** Timestamps survive the round trip between the wire form and
    [SystemTime].  Every second and nanosecond pair of the wire is
    representable, and validating the resulting time yields the same pair,
    times before the epoch included; only the single second [i64::MIN] is
    refused, with EOVERFLOW. *)
Theorem system_time_roundtrip (s n : Z) :
  I64_MIN <= s <= I64_MAX → 0 <= n < NSEC_PER_SEC →
  ∃ t, system_time s n = Some t ∧
       system_time_parts t =
         if s =? I64_MIN then Err (VfError.errno (Some 0) EOVERFLOW) else Ok (s, n).
Proof.
  intros Hs Hn. exists (MakeTime s n). split; [by apply system_time_some|].
  unfold system_time_parts, duration_since_epoch, time_nanos; simpl.
  assert (0 < NSEC_PER_SEC) as Hpos by done.
  assert (I64_MIN = - I64_MAX - 1) as HM by done.
  destruct (decide (0 <= s)) as [Hp|Hneg].
  - replace (0 <=? s * NSEC_PER_SEC + n) with true by lia.
    destruct (nanos_split s n Hn) as [Hd Hm]. unfold duration_from_nanos; cbn [d_secs d_nanos].
    rewrite Hd, Hm, i64_checked_some by done. simpl.
    replace (s =? I64_MIN) with false by (assert (0 <= I64_MAX) by done; lia). done.
  - assert (s * NSEC_PER_SEC <= - 1 * NSEC_PER_SEC) by (apply Z.mul_le_mono_nonneg_r; lia).
    replace (0 <=? s * NSEC_PER_SEC + n) with false by lia.
    unfold duration_from_nanos; cbn [d_secs d_nanos].
    destruct (decide (n = 0)) as [->|Hnz].
    + replace (- (s * NSEC_PER_SEC + 0)) with (- s * NSEC_PER_SEC + 0) by lia.
      destruct (nanos_split (- s) 0 ltac:(lia)) as [-> ->].
      destruct (Z.eqb_spec s I64_MIN).
      * rewrite i64_checked_none by lia. done.
      * rewrite i64_checked_some by lia. simpl. by rewrite Z.opp_involutive.
    + replace (- (s * NSEC_PER_SEC + n)) with ((- s - 1) * NSEC_PER_SEC + (NSEC_PER_SEC - n)) by lia.
      destruct (nanos_split (- s - 1) (NSEC_PER_SEC - n) ltac:(lia)) as [-> ->].
      rewrite i64_checked_some by lia. simpl. replace (NSEC_PER_SEC - n =? 0) with false by lia.
      replace (- s - 1 + 1) with (- s) by lia. destruct (Z.eqb_spec s I64_MIN).
      * rewrite i64_checked_none by lia. done.
      * rewrite i64_checked_some by lia. simpl. do 2 f_equal; lia.
Qed.

Lemma system_time_roundtrip_witness :
  ∃ t, system_time (-7) 250000000 = Some t ∧ system_time_parts t = Ok (-7, 250000000).
Proof. apply (system_time_roundtrip (-7) 250000000); by vm_compute. Defined.
End TimeLemmas.

(** ** Traversal budgets: theorems *)

Module BudgetLemmas.
Import TraversalBudget.

Definition path_bytes (paths : list bytes) : Z := Z.of_nat (sum_list_with length paths).

Lemma total_bytes_spec total paths :
  0 <= total <= U64_MAX →
  total_bytes total paths =
  if total + path_bytes paths <=? U64_MAX then Ok (total + path_bytes paths) else Err limit_error.
Proof.
  unfold path_bytes. revert total. induction paths as [|p paths IH]; intros total Ht; simpl.
  - rewrite Z.add_0_r. by replace (total <=? U64_MAX) with true by lia.
  - unfold checked_add. destruct (Z.leb_spec (total + Z.of_nat (length p)) U64_MAX); simpl.
    + rewrite IH by lia. by replace (total + Z.of_nat (length p + _))
        with (total + Z.of_nat (length p) + Z.of_nat (sum_list_with length paths)) by lia.
    + by destruct (Z.leb_spec (total + Z.of_nat (length p + sum_list_with length paths)) U64_MAX); [lia|].
Qed.

(** Traversal budgets are charged atomically and never overdrawn.  A charge
    succeeds exactly when an entry is left and the bytes of all its paths fit
    in what is left, and then takes one entry and exactly those bytes; a
    refused charge leaves the budget untouched. *)
Theorem charge_paths_atomic (b : t) (paths : list bytes) :
  0 <= entries b → 0 <= bytes_ b <= U64_MAX →
  charge_paths b paths =
  if (0 <? entries b) && (path_bytes paths <=? bytes_ b)
  then (Ok tt, Make (entries b - 1) (bytes_ b - path_bytes paths))
  else (Err limit_error, b).
Proof.
  intros He Hb. unfold charge_paths.
  destruct (Z.eqb_spec (entries b) 0) as [E|E].
  { by replace (0 <? entries b) with false by lia. }
  replace (0 <? entries b) with true by lia. cbn [andb].
  assert (0 <= path_bytes paths) by (unfold path_bytes; lia).
  rewrite total_bytes_spec by (unfold U64_MAX; lia). rewrite Z.add_0_l.
  destruct (Z.leb_spec (path_bytes paths) U64_MAX) as [Hl|Hl].
  - unfold charge_bytes, checked_sub. by destruct (path_bytes paths <=? bytes_ b).
  - by replace (path_bytes paths <=? bytes_ b) with false by lia.
Qed.

Lemma charge_paths_atomic_witness :
  charge_paths (Make 1 5) [bstr "/a"; bstr "/b"] = (Ok tt, Make 0 1) ∧
  charge_paths (Make 1 5) [bstr "/long"; bstr "x"] = (Err limit_error, Make 1 5).
Proof.
  split.
  - by rewrite (charge_paths_atomic (Make 1 5) [bstr "/a"; bstr "/b"]) by (unfold U64_MAX; simpl; lia).
  - by rewrite (charge_paths_atomic (Make 1 5) [bstr "/long"; bstr "x"]) by (unfold U64_MAX; simpl; lia).
Defined.
End BudgetLemmas.

(** ** Batch validation: theorems *)

Module ValidateLemmas.

Lemma open_flags_to_libc_ok_iff flags : 0 <= flags →
  valid_open flags = true ↔ ∃ raw, open_flags_to_libc flags = Ok raw.
Proof.
  intros Hf. assert (open_flags_ok flags = true) as Hok.
  { destruct (decide (flags < 64)); [|apply open_flags_unknown; lia].
    apply (proj1 (Forall_forall _ _) open_flags_small). apply elem_of_seqZ. lia. }
  unfold open_flags_ok in Hok. destruct (open_flags_to_libc flags); apply andb_true_iff in Hok as [H _].
  - naive_solver.
  - apply negb_true_iff in H. split; [congruence|]. by intros [? ?].
Qed.

(** An open batch is validated as a whole before any I/O: it passes exactly
    when every request's flags are valid. *)
Theorem validate_open_requests_all (requests : list OpenOp) :
  Forall (λ r, 0 <= oo_flags r) requests →
  validate_open_requests requests = Ok tt ↔ Forall (λ r, valid_open (oo_flags r) = true) requests.
Proof.
  unfold validate_open_requests. generalize 0 at 2.
  induction requests as [|r rs IH]; intros i Hall; simpl; [split; [constructor|done]|].
  apply Forall_cons in Hall as [Hr Hall]. rewrite Forall_cons, (open_flags_to_libc_ok_iff _ Hr).
  destruct (open_flags_to_libc (oo_flags r)) as [raw|e]; simpl.
  - rewrite IH by done. naive_solver.
  - split; [done|]. by intros [[? ?] _].
Qed.

Lemma validate_open_requests_all_witness :
  validate_open_requests [OpenOp.new (bstr "/a") 1; OpenOp.new (bstr "/b") 0x12] = Ok tt.
Proof.
  apply (validate_open_requests_all [OpenOp.new (bstr "/a") 1; OpenOp.new (bstr "/b") 0x12]).
  - repeat (constructor; [simpl; lia|]). constructor.
  - repeat (constructor; [reflexivity|]). constructor.
Defined.
End ValidateLemmas.
