(* ===== verification/Compound.v ===== *)
(** * COMPOUND requests and replies

    A model of [crates/vfsi-nfs/src/compound.rs]: the request builder with the
    operations and attribute payloads it encodes, the bounded size preflight
    with its cache, and the decoded reply with the validation every reply
    passes before the typed accessors see it.  XDR encoding itself is generated
    code and appears as a parameter. *)

From stdpp Require Import base numbers list list_numbers strings pretty.
From S2P Require Import Prelude Errors Types Planner.

(** ** Wire constants *)

Definition OP_CLOSE : Z := 4.
Definition OP_CREATE : Z := 6.
Definition OP_GETATTR : Z := 9.
Definition OP_GETFH : Z := 10.
Definition OP_LINK : Z := 11.
Definition OP_LOOKUP : Z := 15.
Definition OP_LOOKUPP : Z := 16.
Definition OP_NVERIFY : Z := 17.
Definition OP_OPEN : Z := 18.
Definition OP_PUTFH : Z := 22.
Definition OP_PUTROOTFH : Z := 24.
Definition OP_READ : Z := 25.
Definition OP_READDIR : Z := 26.
Definition OP_READLINK : Z := 27.
Definition OP_REMOVE : Z := 28.
Definition OP_RENAME : Z := 29.
Definition OP_RESTOREFH : Z := 31.
Definition OP_SAVEFH : Z := 32.
Definition OP_SETATTR : Z := 34.
Definition OP_WRITE : Z := 38.
Definition OP_BIND_CONN_TO_SESSION : Z := 41.
Definition OP_EXCHANGE_ID : Z := 42.
Definition OP_CREATE_SESSION : Z := 43.
Definition OP_DESTROY_SESSION : Z := 44.
Definition OP_SEQUENCE : Z := 53.
Definition OP_DESTROY_CLIENTID : Z := 57.
Definition OP_RECLAIM_COMPLETE : Z := 58.
Definition OP_COPY : Z := 60.

Definition FATTR4_TYPE : Z := 1.
Definition FATTR4_CHANGE : Z := 3.
Definition FATTR4_SIZE : Z := 4.
Definition FATTR4_NAMED_ATTR : Z := 7.
Definition FATTR4_FSID : Z := 8.
Definition FATTR4_FILEID : Z := 20.
Definition FATTR4_FILES_AVAIL : Z := 21.
Definition FATTR4_FILES_FREE : Z := 22.
Definition FATTR4_FILES_TOTAL : Z := 23.
Definition FATTR4_MAXFILESIZE : Z := 27.
Definition FATTR4_MAXLINK : Z := 28.
Definition FATTR4_MAXNAME : Z := 29.
Definition FATTR4_MODE : Z := 33.
Definition FATTR4_NUMLINKS : Z := 35.
Definition FATTR4_OWNER : Z := 36.
Definition FATTR4_OWNER_GROUP : Z := 37.
Definition FATTR4_RAWDEV : Z := 41.
Definition FATTR4_SPACE_AVAIL : Z := 42.
Definition FATTR4_SPACE_FREE : Z := 43.
Definition FATTR4_SPACE_TOTAL : Z := 44.
Definition FATTR4_SPACE_USED : Z := 45.
Definition FATTR4_TIME_ACCESS : Z := 47.
Definition FATTR4_TIME_ACCESS_SET : Z := 48.
Definition FATTR4_TIME_METADATA : Z := 52.
Definition FATTR4_TIME_MODIFY : Z := 53.
Definition FATTR4_TIME_MODIFY_SET : Z := 54.
Definition SET_TO_CLIENT_TIME4 : Z := 1.

(** [n.to_be_bytes()] of a [w]-byte integer, two's complement. *)
Fixpoint be_bytes (w : nat) (n : Z) : bytes :=
  match w with
  | O => []
  | S w' =>
      default Byte.x00 (Byte.of_N (Z.to_N ((n / 2 ^ (8 * Z.of_nat w')) mod 256))) :: be_bytes w' n
  end.

(** ** Requests *)

Definition nfs_fh4 := bytes.
Definition verifier4 := bytes.
Definition sessionid4 := bytes.
Record stateid4 := StateId { st_seqid : Z; st_other : bytes }.

(** The all-zero stateid, and the special current stateid. *)
Definition zero_stateid : stateid4 := StateId 0 (replicate 12 Byte.x00).
Definition current_stateid : stateid4 := StateId 1 (replicate 12 Byte.x00).

Record bitmap4 := Bitmap { bitmap4_len : Z; bitmap4_map : Z * Z * Z }.
Record fattr4 := FAttr { attrmask : bitmap4; attr_vals : bytes }.

Inductive openflag4 :=
| NoCreate
| CreateUnchecked (attrs : fattr4)
| CreateGuarded (attrs : fattr4)
| CreateExclusive (verf : verifier4).

Inductive open_claim4 := ClaimNull (file : bytes) | ClaimFh.

Record OPEN4args := OpenArgs {
  oa_seqid : Z; oa_share_access : Z; oa_share_deny : Z;
  oa_clientid : Z; oa_owner : bytes; oa_openhow : openflag4; oa_claim : open_claim4;
}.

Inductive createtype4 := CreateLink (target : bytes) | CreateDev (ftype : Z) | CreateOther (ftype : Z).

(** [nfs_argop4]: the operations the builder can push. *)
Inductive argop :=
| APutFh (fh : nfs_fh4) | APutRootFh | AGetFh | ALookup (name : bytes) | ALookupp
| ASaveFh | ARestoreFh
| ASequence (sessionid : sessionid4) (seqid slotid highest : Z)
| AOpen (args : OPEN4args)
| ARead (stateid : stateid4) (offset count : Z)
| AWrite (stateid : stateid4) (offset stable : Z) (data : bytes)
| ACopy (src dst : stateid4) (src_offset dst_offset count : Z)
| AClose (seqid : Z) (stateid : stateid4)
| AExchangeId (verifier : verifier4) (owner : bytes) (flags : Z)
| ACreateSession (clientid sequence : Z)
| AReclaimComplete
| ACreate (name : bytes) (objtype : createtype4)
| AReadlink | AGetattr (request : bitmap4) | ANverify (attrs : fattr4)
| ASetattr (stateid : stateid4) (attrs : fattr4)
| AReaddir (cookie : Z) (verf : verifier4) (dircount maxcount : Z) (request : bitmap4)
| ARemove (name : bytes) | ARename (oldname newname : bytes) | ALink (newname : bytes)
| ABindConn (sessionid : sessionid4)
| ADestroySession (sessionid : sessionid4) | ADestroyClientid (clientid : Z).

Definition argop_num (a : argop) : Z :=
  match a with
  | APutFh _ => OP_PUTFH | APutRootFh => OP_PUTROOTFH | AGetFh => OP_GETFH
  | ALookup _ => OP_LOOKUP | ALookupp => OP_LOOKUPP
  | ASaveFh => OP_SAVEFH | ARestoreFh => OP_RESTOREFH
  | ASequence _ _ _ _ => OP_SEQUENCE | AOpen _ => OP_OPEN
  | ARead _ _ _ => OP_READ | AWrite _ _ _ _ => OP_WRITE | ACopy _ _ _ _ _ => OP_COPY
  | AClose _ _ => OP_CLOSE | AExchangeId _ _ _ => OP_EXCHANGE_ID
  | ACreateSession _ _ => OP_CREATE_SESSION | AReclaimComplete => OP_RECLAIM_COMPLETE
  | ACreate _ _ => OP_CREATE | AReadlink => OP_READLINK | AGetattr _ => OP_GETATTR
  | ANverify _ => OP_NVERIFY | ASetattr _ _ => OP_SETATTR | AReaddir _ _ _ _ _ => OP_READDIR
  | ARemove _ => OP_REMOVE | ARename _ _ => OP_RENAME | ALink _ => OP_LINK
  | ABindConn _ => OP_BIND_CONN_TO_SESSION
  | ADestroySession _ => OP_DESTROY_SESSION | ADestroyClientid _ => OP_DESTROY_CLIENTID
  end.

Module Compound.
(** [keep] holds the variable-length payloads the operations point into, and
    [size_check] the cached preflight. *)
Record t := Make {
  minorversion : Z;
  ops : list argop;
  keep_ : list bytes;
  tag_ : option bytes;
  size_check : option (Z * option Z);
}.

Definition new : t := Make 1 [] [] None None.

Definition push (c : t) (op : argop) : t :=
  Make (minorversion c) (ops c ++ [op]) (keep_ c) (tag_ c) None.
Definition insert0 (c : t) (op : argop) : t :=
  Make (minorversion c) (op :: ops c) (keep_ c) (tag_ c) None.
Definition op_count (c : t) : Z := Z.of_nat (length (ops c)).
Definition keep (c : t) (b : bytes) : t :=
  Make (minorversion c) (ops c) (keep_ c ++ [b]) (tag_ c) None.
Definition tag (c : t) (b : bytes) : t :=
  let c := keep c b in Make (minorversion c) (ops c) (keep_ c) (Some b) (size_check c).
Definition tag_bytes (c : t) : bytes := default [] (tag_ c).
(** [c.args.minorversion = v]. *)
Definition set_minorversion (c : t) (v : Z) : t :=
  Make v (ops c) (keep_ c) (tag_ c) (size_check c).

(** One more bit of a three-word attribute map.  Attribute ids are below 96; the
    source's array index panics on any other. *)
Definition map_set (m : Z * Z * Z) (a : Z) : Z * Z * Z :=
  let '(w0, w1, w2) := m in
  let bit := Z.shiftl 1 (a mod 32) in
  match a / 32 with
  | 0 => (Z.lor w0 bit, w1, w2)
  | 1 => (w0, Z.lor w1 bit, w2)
  | 2 => (w0, w1, Z.lor w2 bit)
  | _ => m
  end.

(** The index past the last non-zero word. *)
Definition map_len (m : Z * Z * Z) : Z :=
  let '(w0, w1, w2) := m in
  if negb (w2 =? 0) then 3 else if negb (w1 =? 0) then 2 else if negb (w0 =? 0) then 1 else 0.

Definition bitmap (attrs : list Z) : bitmap4 :=
  let m := foldl map_set (0, 0, 0) attrs in Bitmap (map_len m) m.

Definition putfh (c : t) (fh : nfs_fh4) : t := push c (APutFh fh).
Definition putrootfh (c : t) : t := push c APutRootFh.
Definition getfh (c : t) : t := push c AGetFh.
Definition lookup (c : t) (name : bytes) : t := push (keep c name) (ALookup name).
Definition sequence (c : t) (sid : sessionid4) (seqid slotid highest : Z) : t :=
  push c (ASequence sid seqid slotid highest).
Definition open (c : t) (args : OPEN4args) : t := push c (AOpen args).

Definition open_claim_null (c : t) (seqid access deny clientid : Z) (owner : bytes)
    (how : openflag4) (file : bytes) : t :=
  open (keep (keep c owner) file) (OpenArgs seqid access deny clientid owner how (ClaimNull file)).

Definition open_claim_fh (c : t) (access clientid : Z) (owner : bytes) : t :=
  open (keep c owner) (OpenArgs 0 access 0 clientid owner NoCreate ClaimFh).

Definition open_claim_null_create_mode (c : t) (seqid access deny clientid : Z) (owner file : bytes)
    (mode : option Z) (truncate : bool) : t :=
  let '(m, vals) :=
    if truncate then (map_set (0, 0, 0) FATTR4_SIZE, be_bytes 8 0) else ((0, 0, 0), []) in
  let '(m, vals) :=
    match mode with
    | Some mode => (map_set m FATTR4_MODE, vals ++ be_bytes 4 mode)
    | None => (m, vals)
    end in
  let c := keep c vals in
  open_claim_null c seqid access deny clientid owner
    (CreateUnchecked (FAttr (Bitmap (map_len m) m) vals)) file.

Definition read (c : t) (st : stateid4) (offset count : Z) : t := push c (ARead st offset count).
Definition write (c : t) (st : stateid4) (offset stable : Z) (data : bytes) : t :=
  push (keep c data) (AWrite st offset stable data).
Definition copy (c : t) (src dst : stateid4) (so d_o n : Z) : t := push c (ACopy src dst so d_o n).
Definition close (c : t) (seqid : Z) (st : stateid4) : t := push c (AClose seqid st).
Definition exchange_id (c : t) (verf : verifier4) (owner : bytes) (flags : Z) : t :=
  push c (AExchangeId verf owner flags).
Definition create_session (c : t) (clientid sequence : Z) : t :=
  push c (ACreateSession clientid sequence).
Definition reclaim_complete (c : t) : t := push c AReclaimComplete.

Definition create (c : t) (name : bytes) (ftype : Z) (linkdata : option bytes) : t :=
  let c := keep c name in
  match linkdata with
  | Some target => push (keep c target) (ACreate name (CreateLink target))
  | None =>
      push c (ACreate name
        (if (ftype =? NF4BLK) || (ftype =? NF4CHR) then CreateDev ftype else CreateOther ftype))
  end.

Definition readlink (c : t) : t := push c AReadlink.
Definition getattr (c : t) (attrs : list Z) : t := push c (AGetattr (bitmap attrs)).
Definition nverify_type (c : t) (expected : Z) : t :=
  let values := be_bytes 4 expected in
  push (keep c values) (ANverify (FAttr (bitmap [FATTR4_TYPE]) values)).

(** Padding of a variable-length XDR item to a multiple of four. *)
Definition pad4 (vals : bytes) : bytes :=
  vals ++ replicate (Z.to_nat (Z.ldiff (Z.of_nat (length vals) + 3) 3) - length vals) Byte.x00.

Definition encode_identity (acc : (Z * Z * Z) * bytes) (p : Z * option Z) : (Z * Z * Z) * bytes :=
  let '(m, vals) := acc in
  let '(attribute, ident) := p in
  match ident with
  | Some id =>
      let text := bstr (pretty id) in
      (map_set m attribute, pad4 (vals ++ be_bytes 4 (Z.of_nat (length text)) ++ text))
  | None => (m, vals)
  end.

Definition encode_time (acc : (Z * Z * Z) * bytes) (p : Z * option (Z * Z)) : (Z * Z * Z) * bytes :=
  let '(m, vals) := acc in
  let '(attribute, time) := p in
  match time with
  | Some (seconds, nanoseconds) =>
      (map_set m attribute,
       vals ++ be_bytes 4 SET_TO_CLIENT_TIME4 ++ be_bytes 8 seconds ++ be_bytes 4 nanoseconds)
  | None => (m, vals)
  end.

Definition setattr_fattr (mode size uid gid : option Z) (atime mtime : option (Z * Z)) : fattr4 :=
  let acc := ((0, 0, 0), []) in
  let acc := match size with
             | Some s => (map_set acc.1 FATTR4_SIZE, acc.2 ++ be_bytes 8 s) | None => acc end in
  let acc := match mode with
             | Some m => (map_set acc.1 FATTR4_MODE, acc.2 ++ be_bytes 4 m) | None => acc end in
  let acc := foldl encode_identity acc [(FATTR4_OWNER, uid); (FATTR4_OWNER_GROUP, gid)] in
  let acc := encode_time acc (FATTR4_TIME_ACCESS_SET, atime) in
  let acc := encode_time acc (FATTR4_TIME_MODIFY_SET, mtime) in
  FAttr (Bitmap (map_len acc.1) acc.1) acc.2.

Definition setattr_ownership (c : t) (mode size : option Z) (ownership : option Z * option Z)
    (atime mtime : option (Z * Z)) (st : stateid4) : t :=
  let attrs := setattr_fattr mode size ownership.1 ownership.2 atime mtime in
  push (keep c (attr_vals attrs)) (ASetattr st attrs).
Definition setattr_values (c : t) (mode size : option Z) (atime mtime : option (Z * Z))
    (st : stateid4) : t :=
  setattr_ownership c mode size (None, None) atime mtime st.
Definition setattr_with_stateid (c : t) (mode size : option Z) (st : stateid4) : t :=
  setattr_values c mode size None None st.
Definition setattr (c : t) (mode size : option Z) : t := setattr_with_stateid c mode size zero_stateid.

Definition readdir (c : t) (cookie : Z) (verf : verifier4) (dircount maxcount : Z)
    (attrs : list Z) : t := push c (AReaddir cookie verf dircount maxcount (bitmap attrs)).
Definition remove (c : t) (name : bytes) : t := push (keep c name) (ARemove name).
Definition rename (c : t) (oldname newname : bytes) : t :=
  push (keep (keep c oldname) newname) (ARename oldname newname).
Definition savefh (c : t) : t := push c ASaveFh.
Definition restorefh (c : t) : t := push c ARestoreFh.
Definition lookupp (c : t) : t := push c ALookupp.
Definition link (c : t) (newname : bytes) : t := push (keep c newname) (ALink newname).
Definition bind_fore_channel (c : t) (sid : sessionid4) : t := push c (ABindConn sid).
Definition destroy_session (c : t) (sid : sessionid4) : t := push c (ADestroySession sid).
Definition destroy_clientid (c : t) (clientid : Z) : t := push c (ADestroyClientid clientid).
Definition prepend_sequence (c : t) (op : argop) : t := insert0 c op.
End Compound.

(** ** Size preflight *)

Section Preflight.
(** The length of the XDR encoding of a request; the encoder succeeds on a
    buffer exactly when the encoding fits. *)
Variable xdr_len : Compound.t → Z.

(** The buffer-doubling loop.  [None]: out of fuel. *)
Fixpoint encode_loop (fuel : nat) (size limit capacity : Z) : option (option Z) :=
  match fuel with
  | O => None
  | S fuel =>
      if size <=? capacity then Some (Some size)
      else if limit <=? capacity then Some None
      else encode_loop fuel size limit (Z.min (sat_mul capacity 2) limit)
  end.

(** [encoded_len_up_to], returning the answer and the builder with its cache. *)
Definition encoded_len_up_to (c : Compound.t) (limit : Z) : option (option Z * Compound.t) :=
  let compute :=
    if existsb (λ b, U32_MAX <? Z.of_nat (length b)) (Compound.keep_ c) then Some (None, c)
    else if limit =? 0 then Some (None, c)
    else
      let limit := Z.ldiff (Z.min limit U32_MAX) 3 in
      if limit <? 4 then Some (None, c)
      else
        let payload := foldl (λ total b, sat_add total (Z.of_nat (length b))) 0 (Compound.keep_ c) in
        let estimate := sat_add (sat_add payload (sat_mul (Compound.op_count c) 128)) 64 in
        r ← encode_loop 40 (xdr_len c) limit (Z.min (Z.max estimate 1024) limit);
        Some (r, Compound.Make (Compound.minorversion c) (Compound.ops c) (Compound.keep_ c)
                   (Compound.tag_ c) (Some (limit, r))) in
  match Compound.size_check c with
  | Some (checked_limit, r) => if checked_limit =? limit then Some (r, c) else compute
  | None => compute
  end.
End Preflight.

(** ** Replies *)

(** A counted XDR array: its length field and its storage, [None] being the null
    pointer. *)
Record xdr_vec := XdrVec { xv_len : Z; xv_val : option bytes }.

(** [entry4]: one entry of a READDIR reply, a node of its linked list. *)
Record entry4 := Entry { en_cookie : Z; en_name : xdr_vec; en_attrs : xdr_vec }.

(** [nfs_resop4]: the result union, tagged by the operation; operations whose
    payload no code reads share one constructor. *)
Inductive resop :=
| RGetFh (status : Z) (object : xdr_vec)
| RRead (status : Z) (eof : bool) (data : xdr_vec)
| RReadlink (status : Z) (link : xdr_vec)
| RGetattr (status : Z) (mask : bitmap4) (vals : xdr_vec)
| ROpen (status : Z) (stateid : stateid4) (attrset : bitmap4)
| RWrite (status count committed : Z)
| RReaddir (status : Z) (entries : list entry4) (eof : bool)
| RCopy (status count : Z)
| RExchangeId (status clientid sequenceid flags : Z)
| RCreateSession (status : Z) (sessionid : sessionid4)
    (maxrequestsize maxresponsesize maxoperations : Z)
| RPlain (op status : Z).

Definition resop_num (r : resop) : Z :=
  match r with
  | RGetFh _ _ => OP_GETFH | RRead _ _ _ => OP_READ | RReadlink _ _ => OP_READLINK
  | RGetattr _ _ _ => OP_GETATTR | ROpen _ _ _ => OP_OPEN | RWrite _ _ _ => OP_WRITE
  | RReaddir _ _ _ => OP_READDIR | RCopy _ _ => OP_COPY
  | RExchangeId _ _ _ _ => OP_EXCHANGE_ID | RCreateSession _ _ _ _ _ => OP_CREATE_SESSION
  | RPlain op _ => op
  end.

(** The status fields [response_op_status] reads besides those with a payload. *)
Definition plain_ops : list Z :=
  [OP_PUTFH; OP_PUTROOTFH; OP_LOOKUP; OP_SEQUENCE; OP_NVERIFY; OP_CLOSE;
   OP_BIND_CONN_TO_SESSION; OP_RECLAIM_COMPLETE; OP_CREATE; OP_SETATTR;
   OP_REMOVE; OP_RENAME; OP_LINK; OP_SAVEFH; OP_RESTOREFH; OP_LOOKUPP; OP_DESTROY_SESSION;
   OP_DESTROY_CLIENTID].

Definition response_op_status (r : resop) : Z :=
  match r with
  | RGetFh st _ | RRead st _ _ | RReadlink st _ | RGetattr st _ _ | ROpen st _ _ | RWrite st _ _
  | RReaddir st _ _ | RCopy st _
  | RExchangeId st _ _ _ | RCreateSession st _ _ _ _ => st
  | RPlain op st => if bool_decide (op ∈ plain_ops) then st else U32_MAX
  end.

(** A decoded [COMPOUND4res]; the array pointer may be null. *)
Record COMPOUND4res := Res {
  cr_status : Z;
  cr_len : Z;
  cr_val : option (list resop);
}.

Definition empty_response (status : Z) : COMPOUND4res := Res status 0 None.

Definition invalid_reply {T} (message : string) : RpcResult T :=
  Err (RpcError.transport_with_kind InvalidReply message).

Definition vec_is_null (status : Z) (v : xdr_vec) : bool :=
  (status =? NFS_OK) && negb (xv_len v =? 0) && bool_decide (xv_val v = None).

Definition null_payload (r : resop) : bool :=
  match r with
  | RGetFh st v | RRead st _ v | RReadlink st v | RGetattr st _ v => vec_is_null st v
  | _ => false
  end.

Definition malformed (s : string) : string := "malformed NFS COMPOUND reply: " +:+ s.

(** The per-operation loop; [index] counts from zero. *)
Fixpoint validate_ops (request : list argop) (results : list resop) (count index status : Z)
    : RpcResult unit :=
  match request, results with
  | expected :: request, actual :: results =>
      if negb (resop_num actual =? argop_num expected) then
        invalid_reply (malformed ("operation " +:+ pretty index +:+ " is "
          +:+ pretty (resop_num actual) +:+ ", expected " +:+ pretty (argop_num expected)))
      else if response_op_status actual =? U32_MAX then
        invalid_reply (malformed ("operation " +:+ pretty index +:+ " has unsupported opcode "
          +:+ pretty (resop_num actual)))
      else if negb (response_op_status actual =?
                    (if index + 1 =? count then status else NFS_OK)) then
        invalid_reply (malformed ("operation " +:+ pretty index +:+ " status "
          +:+ pretty (response_op_status actual) +:+ " does not match compound status "
          +:+ pretty status))
      else if null_payload actual then
        invalid_reply (malformed ("operation " +:+ pretty index +:+ " has a null payload pointer"))
      else validate_ops request results count (index + 1) status
  | _, _ => Ok tt
  end.

Definition validate_response_ops (request : list argop) (res : COMPOUND4res) : RpcResult unit :=
  let count := cr_len res in
  let len := Z.of_nat (length request) in
  if len <? count then
    invalid_reply (malformed ("returned " +:+ pretty count +:+ " operations for "
      +:+ pretty len +:+ " requests"))
  else if negb (count =? 0) && bool_decide (cr_val res = None) then
    invalid_reply (malformed "non-empty operation array has a null pointer")
  else if (cr_status res =? NFS_OK) && negb (count =? len) then
    invalid_reply (malformed ("successful reply returned " +:+ pretty count
      +:+ " operations for " +:+ pretty len +:+ " requests"))
  else validate_ops request (take (Z.to_nat count) (default [] (cr_val res))) count 0 (cr_status res).

(** The operations whose result carries a payload of its own. *)
Definition payload_ops : list Z :=
  [OP_GETFH; OP_READ; OP_READLINK; OP_GETATTR; OP_OPEN; OP_WRITE; OP_EXCHANGE_ID;
   OP_CREATE_SESSION; OP_READDIR; OP_COPY].

(** What the decoder guarantees: the array holds exactly [resarray_len] results,
    each with the union member its opcode selects, a non-null counted array
    holds its length, and channel limits are unsigned; the names and attributes of a directory page are not
    checked by the validation, so the decoder's storage is relied on. *)
Definition vec_decoded (v : xdr_vec) : Prop :=
  ∀ b, xv_val v = Some b → Z.of_nat (length b) = xv_len v.
Definition vec_owned (v : xdr_vec) : Prop :=
  vec_decoded v ∧ (xv_len v ≠ 0 → xv_val v ≠ None).
Definition resop_decoded (r : resop) : Prop :=
  match r with
  | RPlain op _ => op ∉ payload_ops
  | RGetFh _ v | RRead _ _ v | RReadlink _ v | RGetattr _ _ v => vec_decoded v
  | RReaddir _ entries _ => Forall (λ e, vec_owned (en_name e) ∧ vec_owned (en_attrs e)) entries
  | RCreateSession _ _ req resp ops => 0 <= req ∧ 0 <= resp ∧ 0 <= ops
  | _ => True
  end.
Definition decoded (res : COMPOUND4res) : Prop :=
  0 <= cr_len res <= U32_MAX ∧
  ∀ l, cr_val res = Some l → Z.of_nat (length l) = cr_len res ∧ Forall resop_decoded l.

Module CompoundRes.
Definition t := COMPOUND4res.
Definition status (r : t) : Z := cr_status r.
Definition nops (r : t) : Z := cr_len r.
(** [resop]; [None] is the out-of-range panic. *)
Definition op (r : t) (i : Z) : option resop :=
  if (0 <=? i) && (i <? nops r) then default [] (cr_val r) !! Z.to_nat i else None.
Definition op_status (r : t) (i : Z) : Z := from_option response_op_status 0 (op r i).

Definition try_op_status (r : t) (i : Z) : RpcResult Z :=
  if nops r <=? i then Err (RpcError.op (sat_sub (nops r) 1) (status r)) else Ok (op_status r i).

(** The typed accessors; [None] is the panic of [expect_op]. *)
Definition expect_op (r : t) (i want : Z) : option resop :=
  ro ← op r i;
  if (resop_num ro =? want) && (response_op_status ro =? NFS_OK) then Some ro else None.

Definition vec_bytes (v : xdr_vec) : option bytes :=
  if xv_len v =? 0 then Some [] else xv_val v.

Definition getfh (r : t) (i : Z) : option nfs_fh4 :=
  ro ← expect_op r i OP_GETFH; match ro with RGetFh _ v => vec_bytes v | _ => None end.
Definition open (r : t) (i : Z) : option stateid4 :=
  ro ← expect_op r i OP_OPEN; match ro with ROpen _ st _ => Some st | _ => None end.
Definition open_attrset (r : t) (i : Z) : option bitmap4 :=
  ro ← expect_op r i OP_OPEN; match ro with ROpen _ _ mask => Some mask | _ => None end.
Definition read_data (r : t) (i : Z) : option bytes :=
  ro ← expect_op r i OP_READ; match ro with RRead _ _ v => vec_bytes v | _ => None end.
Definition read_eof (r : t) (i : Z) : option bool :=
  ro ← expect_op r i OP_READ; match ro with RRead _ e _ => Some e | _ => None end.
Definition write (r : t) (i : Z) : option (Z * Z) :=
  ro ← expect_op r i OP_WRITE; match ro with RWrite _ n c => Some (n, c) | _ => None end.
Definition readlink (r : t) (i : Z) : option bytes :=
  ro ← expect_op r i OP_READLINK; match ro with RReadlink _ v => vec_bytes v | _ => None end.
Definition getattr (r : t) (i : Z) : option bytes :=
  ro ← expect_op r i OP_GETATTR; match ro with RGetattr _ _ v => vec_bytes v | _ => None end.
Definition getattr_with_bitmap (r : t) (i : Z) : option (bitmap4 * bytes) :=
  ro ← expect_op r i OP_GETATTR;
  match ro with RGetattr _ mask v => b ← vec_bytes v; Some (mask, b) | _ => None end.
Definition readdir (r : t) (i : Z) : option (list entry4 * bool) :=
  ro ← expect_op r i OP_READDIR; match ro with RReaddir _ es eof => Some (es, eof) | _ => None end.
Definition copy (r : t) (i : Z) : option Z :=
  ro ← expect_op r i OP_COPY; match ro with RCopy _ n => Some n | _ => None end.
Definition exchange_id (r : t) (i : Z) : option (Z * Z * Z) :=
  ro ← expect_op r i OP_EXCHANGE_ID;
  match ro with RExchangeId _ c s f => Some (c, s, f) | _ => None end.
Definition create_session (r : t) (i : Z) : option (sessionid4 * (Z * Z * Z)) :=
  ro ← expect_op r i OP_CREATE_SESSION;
  match ro with RCreateSession _ sid a b c => Some (sid, (a, b, c)) | _ => None end.

(** The successful OPEN results of the executed ranges, each with the handle the
    GETFH right after it returned, in visiting order. *)
Definition open_results_at (r : t) (end_ index : Z) : list (nfs_fh4 * stateid4) :=
  match op r index, op r (index + 1) with
  | Some o, Some g =>
      if (resop_num o =? OP_OPEN) && (index + 1 <? end_) && (index + 1 <? nops r)
         && (resop_num g =? OP_GETFH)
      then match open r index, getfh r (index + 1) with
           | Some st, Some fh => [(fh, st)]
           | _, _ => []
           end
      else []
  | _, _ => []
  end.

Definition for_each_open_result (r : t) (ranges : list (Z * Z)) : list (nfs_fh4 * stateid4) :=
  ranges ≫= λ p, seqZ p.1 (Z.min p.2 (nops r) - p.1) ≫= open_results_at r p.2.
End CompoundRes.

#[global] Instance CompoundRes_view : ReplyView COMPOUND4res := {|
  rv_status := CompoundRes.status;
  rv_nops := CompoundRes.nops;
  rv_op_status := CompoundRes.op_status;
|}.

(** ** Sending a request *)

Section Call.
(** The transport with the XDR codec: what came back for a request, or a
    transport error; the state is the network's and the server's. *)
Context {W : Type} (rpc : Compound.t → W → RpcResult COMPOUND4res * W).

Definition call (c : Compound.t) (w : W) : RpcResult COMPOUND4res * W :=
  let '(result, w) := rpc c w in
  match result with
  | Err e => (Err e, w)
  | Ok response =>
      match validate_response_ops (Compound.ops c) response with
      | Ok _ => (Ok response, w)
      | Err e => (Err e, w)
      end
  end.
End Call.

(** ** Reply validation: theorems *)

(** What an accepted reply satisfies: a prefix of the request, complete on
    success, opcode by opcode, every operation but the last successful and the
    last one carrying the compound status, no payload missing. *)
Definition op_ok (expected : argop) (actual : resop) (status : Z) : Prop :=
  resop_num actual = argop_num expected ∧ response_op_status actual ≠ U32_MAX ∧
  response_op_status actual = status ∧ null_payload actual = false.

Definition reply_ok (request : list argop) (res : COMPOUND4res) : Prop :=
  cr_len res <= Z.of_nat (length request) ∧
  (cr_len res ≠ 0 → cr_val res ≠ None) ∧
  (cr_status res = NFS_OK → cr_len res = Z.of_nat (length request)) ∧
  ∀ i a r, request !! i = Some a → default [] (cr_val res) !! i = Some r →
    Z.of_nat i < cr_len res →
    op_ok a r (if Z.of_nat i + 1 =? cr_len res then cr_status res else NFS_OK).

Module ValidateReplyLemmas.

Lemma validate_ops_ok request results count index status :
  validate_ops request results count index status = Ok tt ↔
  ∀ i a r, request !! i = Some a → results !! i = Some r →
    op_ok a r (if index + Z.of_nat i + 1 =? count then status else NFS_OK).
Proof.
  revert results index. induction request as [|a request IH]; intros results index.
  { simpl. split; [|done]. intros _ i ? ? Hi. by rewrite lookup_nil in Hi. }
  destruct results as [|r results].
  { simpl. split; [|done]. intros _ i ? ? _ Hi. by rewrite lookup_nil in Hi. }
  assert ((∀ i x y, (a :: request) !! i = Some x → (r :: results) !! i = Some y →
      op_ok x y (if index + Z.of_nat i + 1 =? count then status else NFS_OK)) ↔
    op_ok a r (if index + 1 =? count then status else NFS_OK) ∧
    validate_ops request results count (index + 1) status = Ok tt) as ->.
  { rewrite IH. split.
    - intros Hall. split.
      + specialize (Hall 0%nat a r eq_refl eq_refl). by rewrite Z.add_0_r in Hall.
      + intros i x y Hx Hy. specialize (Hall (S i) x y Hx Hy).
        by replace (index + 1 + Z.of_nat i + 1) with (index + Z.of_nat (S i) + 1) by lia.
    - intros [H0 Hall] [|i] x y Hx Hy; simplify_eq/=.
      + by rewrite Z.add_0_r.
      + specialize (Hall i x y Hx Hy).
        by replace (index + Z.of_nat (S i) + 1) with (index + 1 + Z.of_nat i + 1) by lia. }
  cbn [validate_ops]. unfold op_ok, invalid_reply.
  destruct (Z.eqb_spec (resop_num r) (argop_num a)); simpl; [|by split; [|intros [(?&?&?&?) ?]]].
  destruct (Z.eqb_spec (response_op_status r) U32_MAX); simpl; [by split; [|intros [(?&?&?&?) ?]]|].
  destruct (Z.eqb_spec (response_op_status r) (if index + 1 =? count then status else NFS_OK));
    simpl; [|by split; [|intros [(?&?&?&?) ?]]].
  destruct (null_payload r); [by split; [|intros [(?&?&?&?) ?]]|].
  split; [intros; split_and!; done|by intros [_ ?]].
Qed.

Lemma validate_ops_err request results count index status e :
  validate_ops request results count index status = Err e →
  RpcError.transport_kind e = Some InvalidReply ∧ RpcError.is_transport e = true.
Proof.
  revert results index. induction request as [|a request IH]; intros [|r results] index; simpl; try done.
  unfold invalid_reply. repeat case_match; first [by intros [= <-] | apply IH].
Qed.

Lemma decoded_take res :
  decoded res → take (Z.to_nat (cr_len res)) (default [] (cr_val res)) = default [] (cr_val res) ∧
    Z.of_nat (length (default [] (cr_val res))) <= cr_len res.
Proof.
  intros [Hlen Hval]. destruct (cr_val res) as [l|]; simpl.
  - destruct (Hval l eq_refl) as [Hl _]. rewrite take_ge by lia. split; [done|lia].
  - rewrite take_nil. split; [done|lia].
Qed.

Lemma validate_response_ops_iff request res :
  decoded res → validate_response_ops request res = Ok tt ↔ reply_ok request res.
Proof.
  intros Hd. destruct (decoded_take res Hd) as [Htake Hle].
  unfold validate_response_ops, reply_ok, invalid_reply. rewrite Htake.
  destruct (Z.ltb_spec (Z.of_nat (length request)) (cr_len res)); [split; [done|lia]|].
  destruct (negb (cr_len res =? 0) && bool_decide (cr_val res = None)) eqn:E1.
  { apply andb_true_iff in E1 as [E1 E2%bool_decide_eq_true]. split; [done|].
    intros (_ & Hn & _). destruct Hn; [lia|done]. }
  destruct ((cr_status res =? NFS_OK) && negb (cr_len res =? Z.of_nat (length request))) eqn:E2.
  { apply andb_true_iff in E2 as [E2 E3]. split; [done|]. intros (_ & _ & Hs & _). lia. }
  apply andb_false_iff in E1, E2. rewrite validate_ops_ok. split.
  - intros Hall. split_and!; [done| |lia|].
    + intros Hz Hn. destruct E1 as [E1|E1]; [lia|]. by apply bool_decide_eq_false in E1.
    + intros i a r Ha Hr _. by apply Hall.
  - intros (_ & _ & _ & Hall) i a r Ha Hr. apply Hall; [done|done|].
    apply lookup_lt_Some in Hr. lia.
Qed.

Lemma op_Some res i :
  decoded res → 0 <= i < cr_len res → cr_val res ≠ None →
  ∃ r, default [] (cr_val res) !! Z.to_nat i = Some r ∧ CompoundRes.op res i = Some r ∧
       resop_decoded r.
Proof.
  intros [_ Hval] Hi Hn. destruct (cr_val res) as [l|] eqn:E; [|done].
  destruct (Hval l eq_refl) as [Hl Hf].
  assert (is_Some (l !! Z.to_nat i)) as [r Hr] by (apply lookup_lt_is_Some; lia).
  exists r. unfold CompoundRes.op, CompoundRes.nops. rewrite E. simpl.
  replace ((0 <=? i) && (i <? cr_len res)) with true by lia. split_and!; [done|done|].
  by eapply (proj1 (Forall_lookup _ _) Hf).
Qed.

(** A validated operation, seen through the accessors. *)
Lemma validated_op request res i :
  decoded res → reply_ok request res → 0 <= i < cr_len res →
  ∃ a r, request !! Z.to_nat i = Some a ∧ CompoundRes.op res i = Some r ∧ resop_decoded r ∧
    op_ok a r (if i + 1 =? cr_len res then cr_status res else NFS_OK).
Proof.
  intros Hd (Hle & Hnull & _ & Hall) Hi.
  destruct (op_Some res i Hd Hi (Hnull ltac:(lia))) as (r & Hr & Hop & Hdec).
  assert (is_Some (request !! Z.to_nat i)) as [a Ha] by (apply lookup_lt_is_Some; lia).
  exists a, r. split; [done|]. split; [done|]. split; [done|].
  specialize (Hall (Z.to_nat i) a r Ha Hr). rewrite Z2Nat.id in Hall by lia. apply Hall. lia.
Qed.

(** A rejected reply is reported as a transport error. *)
Lemma validate_error_transport request res e :
  validate_response_ops request res = Err e → RpcError.is_transport e = true.
Proof.
  assert (Hops : ∀ req results count index status e, validate_ops req results count index status = Err e →
    RpcError.is_transport e = true).
  { induction req as [|a req IH]; intros [|r results] count index status e'; cbn; try done.
    unfold invalid_reply. repeat case_match; first [by intros [= <-] | apply IH]. }
  unfold validate_response_ops, invalid_reply. repeat case_match; first [by intros [= <-] | apply Hops].
Qed.

Lemma reply_ok_stops request res :
  decoded res → reply_ok request res → stops_at_failure res.
Proof.
  intros Hd Hok i Hi. simpl in *. unfold CompoundRes.nops in Hi.
  destruct (validated_op request res i Hd Hok ltac:(lia)) as (a & r & _ & Hop & _ & _ & _ & Hst & _).
  unfold CompoundRes.op_status. rewrite Hop. simpl. rewrite Hst.
  by replace (i + 1 =? cr_len res) with false by lia.
Qed.

(** C30: Validation is exact.  A decoded reply passes [validate_response_ops] if
    and only if it is well formed: no more results than requests and all of
    them on success, the same opcode at every position, every result but the
    last one successful and the last one carrying the compound status, and no
    missing payload.  Every refusal is a transport error of kind
    [InvalidReply], never an operation status. *)
Theorem validate_response_ops_exact (request : list argop) (res : COMPOUND4res) :
  decoded res →
  (validate_response_ops request res = Ok tt ↔ reply_ok request res) ∧
  (∀ e, validate_response_ops request res = Err e →
     RpcError.transport_kind e = Some InvalidReply ∧ RpcError.is_transport e = true).
Proof.
  intros Hd. split; [by apply validate_response_ops_iff|]. intros e.
  unfold validate_response_ops, invalid_reply. repeat case_match; first [by intros [= <-] | apply validate_ops_err].
Qed.

Definition example_request : list argop :=
  [ASequence [] 1 0 0; APutRootFh; ALookup (bstr "a"); AGetFh].
Definition example_res : COMPOUND4res :=
  Res 2 3 (Some [RPlain OP_SEQUENCE 0; RPlain OP_PUTROOTFH 0; RPlain OP_LOOKUP 2]).

Lemma validate_response_ops_exact_witness :
  validate_response_ops example_request example_res = Ok tt ↔ reply_ok example_request example_res.
Proof.
  apply (validate_response_ops_exact example_request example_res).
  split; [by vm_compute|]. intros ? [= <-]. split; [done|].
  repeat (constructor; [by apply (bool_decide_unpack _)|]). constructor.
Defined.

Lemma vec_bytes_total v : vec_is_null NFS_OK v = false → is_Some (CompoundRes.vec_bytes v).
Proof.
  unfold vec_is_null, CompoundRes.vec_bytes. simpl. destruct (xv_len v =? 0); simpl; [eauto|].
  intros Hn%bool_decide_eq_false. destruct (xv_val v); [eauto|done].
Qed.

(** After validation nothing can panic or read garbage.  In a reply that
    passed validation for a request, the operation at every position is the
    one that was requested, every result before the last is successful (so the
    planner's attribution applies), and the typed accessors of GETFH, OPEN,
    READ, WRITE, READLINK, GETATTR, READDIR, COPY, EXCHANGE_ID and
    CREATE_SESSION are defined wherever the operation succeeded. *)
Theorem validated_accessors_total (request : list argop) (res : COMPOUND4res) :
  decoded res → validate_response_ops request res = Ok tt →
  stops_at_failure res ∧
  ∀ i, 0 <= i < CompoundRes.nops res → CompoundRes.op_status res i = NFS_OK →
    ∃ a, request !! Z.to_nat i = Some a ∧
      match a with
      | AGetFh => is_Some (CompoundRes.getfh res i)
      | AOpen _ => is_Some (CompoundRes.open res i)
      | ARead _ _ _ => is_Some (CompoundRes.read_data res i)
      | AWrite _ _ _ _ => is_Some (CompoundRes.write res i)
      | AReadlink => is_Some (CompoundRes.readlink res i)
      | AGetattr _ => is_Some (CompoundRes.getattr res i)
      | AReaddir _ _ _ _ _ => is_Some (CompoundRes.readdir res i)
      | ACopy _ _ _ _ _ => is_Some (CompoundRes.copy res i)
      | AExchangeId _ _ _ => is_Some (CompoundRes.exchange_id res i)
      | ACreateSession _ _ => is_Some (CompoundRes.create_session res i)
      | _ => True
      end.
Proof.
  intros Hd Hv%validate_response_ops_iff; [|done]. split; [by eapply reply_ok_stops|].
  intros i Hi Hst. unfold CompoundRes.nops in Hi.
  destruct (validated_op request res i Hd Hv Hi) as (a & r & Ha & Hop & Hdec & Hnum & _ & _ & Hnull).
  exists a. split; [done|].
  unfold CompoundRes.op_status in Hst. rewrite Hop in Hst. simpl in Hst.
  destruct a; try done; destruct r; try done; simpl in *; subst;
    try (exfalso; by apply Hdec, (bool_decide_unpack _));
    unfold CompoundRes.getfh, CompoundRes.open, CompoundRes.read_data, CompoundRes.write,
      CompoundRes.readlink, CompoundRes.getattr, CompoundRes.readdir, CompoundRes.copy,
      CompoundRes.exchange_id,
      CompoundRes.create_session, CompoundRes.expect_op;
    rewrite Hop; simpl; eauto using vec_bytes_total.
Qed.

Lemma validated_accessors_total_witness :
  stops_at_failure (Res 0 2 (Some [RPlain OP_PUTROOTFH 0; RGetFh 0 (XdrVec 1 (Some (bstr "h")))])) ∧
  is_Some (CompoundRes.getfh
    (Res 0 2 (Some [RPlain OP_PUTROOTFH 0; RGetFh 0 (XdrVec 1 (Some (bstr "h")))])) 1).
Proof.
  destruct (validated_accessors_total [APutRootFh; AGetFh]
    (Res 0 2 (Some [RPlain OP_PUTROOTFH 0; RGetFh 0 (XdrVec 1 (Some (bstr "h")))]))) as [Hs Ha].
  - split; [by vm_compute|]. intros l [= <-]. split; [done|].
    constructor; [by apply (bool_decide_unpack _)|]. constructor; [by intros ? [= <-]|constructor].
  - reflexivity.
  - split; [exact Hs|]. destruct (Ha 1) as (a & [= <-] & H); [by vm_compute|reflexivity|exact H].
Defined.
End ValidateReplyLemmas.

(** ** Size preflight: theorems *)

Module PreflightLemmas.
Section Preflight.
Variable xdr_len : Compound.t → Z.
(** The cache is not part of the wire form. *)
Hypothesis xdr_len_cache : ∀ c r,
  xdr_len (Compound.Make (Compound.minorversion c) (Compound.ops c) (Compound.keep_ c)
             (Compound.tag_ c) r) = xdr_len c.

(** The answer the preflight stands for: the encoded length, if every payload
    has a 32-bit length and the encoding fits the limit rounded down to words. *)
Definition fits_spec (c : Compound.t) (limit : Z) : option Z :=
  let words := Z.ldiff (Z.min limit U32_MAX) 3 in
  if existsb (λ b, U32_MAX <? Z.of_nat (length b)) (Compound.keep_ c) then None
  else if (4 <=? words) && (xdr_len c <=? words) then Some (xdr_len c) else None.

(** A cached answer is the answer for its limit. *)
Definition cache_ok (c : Compound.t) : Prop :=
  ∀ l r, Compound.size_check c = Some (l, r) →
    Z.ldiff (Z.min l U32_MAX) 3 = l ∧ r = fits_spec c l.

Lemma encode_loop_spec fuel size limit capacity :
  0 < capacity <= limit → limit <= U32_MAX → limit <= capacity * 2 ^ Z.of_nat fuel →
  encode_loop (S fuel) size limit capacity = Some (if size <=? limit then Some size else None).
Proof.
  revert capacity. induction fuel as [|fuel IH]; intros capacity Hc Hl Hp.
  - simpl in Hp. rewrite Z.mul_1_r in Hp. assert (capacity = limit) as -> by lia.
    cbn [encode_loop]. destruct (size <=? limit); [done|]. by rewrite Z.leb_refl.
  - cbn [encode_loop]. destruct (Z.leb_spec size capacity).
    { by replace (size <=? limit) with true by lia. }
    destruct (Z.leb_spec limit capacity).
    { by replace (size <=? limit) with false by lia. }
    assert (sat_mul capacity 2 = capacity * 2) as ->
      by (unfold sat_mul, U64_MAX, U32_MAX in *; lia).
    rewrite Nat2Z.inj_succ, Z.pow_succ_r in Hp by lia.
    pose proof (Z.pow_pos_nonneg 2 (Z.of_nat fuel) ltac:(lia) ltac:(lia)).
    apply IH; [lia|done|].
    destruct (Z.min_spec (capacity * 2) limit) as [[? ->]|[? ->]]; nia.
Qed.

Lemma words_mult n : 0 <= n → Z.ldiff (Z.ldiff n 3) 3 = Z.ldiff n 3 ∧ 0 <= Z.ldiff n 3 <= n.
Proof.
  intros Hn. split.
  - apply Z.bits_inj'. intros k Hk. rewrite !Z.ldiff_spec. by destruct (Z.testbit n k), (Z.testbit 3 k).
  - change 3 with (Z.ones 2). rewrite Z.ldiff_ones_r, Z.shiftl_mul_pow2, Z.shiftr_div_pow2 by lia.
    pose proof (Z.mul_div_le n (2 ^ 2) ltac:(lia)). pose proof (Z.div_pos n (2 ^ 2) Hn ltac:(lia)). lia.
Qed.

Lemma encoded_len_spec (c : Compound.t) (limit : Z) :
  0 <= limit → cache_ok c →
  ∃ c', encoded_len_up_to xdr_len c limit = Some (fits_spec c limit, c') ∧ cache_ok c' ∧
        Compound.ops c' = Compound.ops c ∧ Compound.keep_ c' = Compound.keep_ c ∧
        Compound.tag_ c' = Compound.tag_ c ∧ xdr_len c' = xdr_len c.
Proof.
  intros Hl Hc. unfold encoded_len_up_to. set (compute := if existsb _ _ then _ else _).
  assert (∃ c', compute = Some (fits_spec c limit, c') ∧ cache_ok c' ∧
    Compound.ops c' = Compound.ops c ∧ Compound.keep_ c' = Compound.keep_ c ∧
    Compound.tag_ c' = Compound.tag_ c ∧ xdr_len c' = xdr_len c) as Hcomp.
  { unfold compute, fits_spec. destruct (existsb _ (Compound.keep_ c)) eqn:Hbig; [by eexists|].
    set (words := Z.ldiff (Z.min limit U32_MAX) 3).
    destruct (words_mult (Z.min limit U32_MAX)) as [Hw Hwr]; [unfold U32_MAX; lia|].
    fold words in Hw, Hwr.
    destruct (Z.eqb_spec limit 0) as [->|]; [by eexists|].
    destruct (Z.ltb_spec words 4).
    { replace (4 <=? words) with false by lia. by eexists. }
    replace (4 <=? words) with true by lia. cbn [andb].
    rewrite (encode_loop_spec 39) by (unfold sat_add, U64_MAX, U32_MAX in *; simpl Z.of_nat; lia).
    eexists. split; [reflexivity|]. split; [|by rewrite xdr_len_cache]. intros l r; cbn. intros [= <- <-].
    rewrite (Z.min_l words U32_MAX) by lia. rewrite Hw. split; [done|].
    unfold fits_spec. cbn. rewrite Hbig, (Z.min_l words U32_MAX), Hw, xdr_len_cache by lia.
    by replace (4 <=? words) with true by lia. }
  destruct (Compound.size_check c) as [[l r]|] eqn:E; [|done].
  destruct (Z.eqb_spec l limit) as [->|]; [|done].
  destruct (Hc limit r E) as [_ ->]. by exists c.
Qed.

(** The size preflight is exact and its cache is transparent.  For every
    request and every limit [encoded_len_up_to] terminates (the doubling buffer
    needs at most 40 rounds) and answers with the encoded length exactly when
    all payload lengths are 32-bit and the encoding fits the limit rounded down
    to a whole word; the answer is the same whether or not a previous check is
    cached, and the cache it leaves behind is valid again. *)
Theorem encoded_len_exact (c : Compound.t) (limit : Z) :
  0 <= limit → cache_ok c →
  ∃ c', encoded_len_up_to xdr_len c limit = Some (fits_spec c limit, c') ∧ cache_ok c' ∧
        Compound.ops c' = Compound.ops c ∧ Compound.keep_ c' = Compound.keep_ c.
Proof.
  intros Hl Hc. destruct (encoded_len_spec c limit Hl Hc) as (c' & ? & ? & ? & ? & _). by exists c'.
Qed.
End Preflight.

Lemma encoded_len_exact_witness :
  ∃ c', encoded_len_up_to (λ _, 1500) (Compound.putrootfh Compound.new) 4096
        = Some (Some 1500, c') ∧
        Compound.ops c' = [APutRootFh].
Proof.
  destruct (encoded_len_exact (λ _, 1500) (λ _ _, eq_refl) (Compound.putrootfh Compound.new) 4096)
    as (c' & H & _ & Hops & _); [lia|done|]. exists c'. split; [exact H|exact Hops].
Defined.
End PreflightLemmas.

(** ** Attribute encoding: theorems *)

Module SetattrLemmas.
Import Compound.

(** The reading side, after RFC 8881: values follow the bitmap in ascending
    attribute order; an integer is big-endian, an opaque string is counted and
    padded to a word, a settable time starts with its discriminant. *)
Definition be_val (b : bytes) : Z := foldl (λ acc x, acc * 256 + byte_val x) 0 b.

Definition p_uint (w : nat) (b : bytes) : option (Z * bytes) :=
  if (length b <? w)%nat then None else Some (be_val (take w b), drop w b).

Definition p_int64 (b : bytes) : option (Z * bytes) :=
  '(v, r) ← p_uint 8 b; Some (if v <? 2 ^ 63 then v else v - 2 ^ 64, r).

Definition p_opaque (b : bytes) : option (bytes * bytes) :=
  '(n, r) ← p_uint 4 b;
  let n := Z.to_nat n in
  Some (take n r, drop (Z.to_nat (Z.ldiff (Z.of_nat n + 3) 3)) r).

Definition p_time (b : bytes) : option (Z * Z * bytes) :=
  '(how, r) ← p_uint 4 b;
  if how =? SET_TO_CLIENT_TIME4 then
    '(s, r) ← p_int64 r; '(n, r) ← p_uint 4 r; Some (s, n, r)
  else None.

Definition has_attr (m : bitmap4) (a : Z) : bool :=
  let '(w0, w1, w2) := bitmap4_map m in
  let word := match a / 32 with 0 => w0 | 1 => w1 | 2 => w2 | _ => 0 end in
  (a / 32 <? bitmap4_len m) && Z.testbit word (a mod 32).

Definition p_opt {A} (present : bool) (p : bytes → option (A * bytes)) (b : bytes)
    : option (option A * bytes) :=
  if present then '(x, r) ← p b; Some (Some x, r) else Some (None, b).

Record settable := Settable {
  s_size : option Z; s_mode : option Z; s_owner : option bytes; s_group : option bytes;
  s_atime : option (Z * Z); s_mtime : option (Z * Z);
}.

Definition decode_settable (a : fattr4) : option settable :=
  let has := has_attr (attrmask a) in
  '(size, r) ← p_opt (has FATTR4_SIZE) (p_uint 8) (attr_vals a);
  '(mode, r) ← p_opt (has FATTR4_MODE) (p_uint 4) r;
  '(owner, r) ← p_opt (has FATTR4_OWNER) p_opaque r;
  '(group, r) ← p_opt (has FATTR4_OWNER_GROUP) p_opaque r;
  '(atime, r) ← p_opt (has FATTR4_TIME_ACCESS_SET) p_time r;
  '(mtime, r) ← p_opt (has FATTR4_TIME_MODIFY_SET) p_time r;
  if bool_decide (r = []) then Some (Settable size mode owner group atime mtime) else None.

Lemma length_be_bytes w n : length (be_bytes w n) = w.
Proof. induction w; simpl; auto. Qed.

Lemma byte_val_of_N n : 0 <= n < 256 → byte_val (default Byte.x00 (Byte.of_N (Z.to_N n))) = n.
Proof.
  intros Hn. unfold byte_val. destruct (Byte.of_N (Z.to_N n)) as [b|] eqn:E.
  - apply Byte.to_of_N in E. simpl. rewrite E. lia.
  - apply Byte.of_N_None_iff in E. lia.
Qed.

Lemma be_val_app a b : be_val (a ++ b) = be_val a * 256 ^ Z.of_nat (length b) + be_val b.
Proof.
  unfold be_val. rewrite foldl_app. generalize (foldl (λ acc x, acc * 256 + byte_val x) 0 a) as x.
  induction b as [|y b IH] using rev_ind; intros x; simpl; [lia|].
  rewrite !foldl_app, length_app. simpl. rewrite IH, Nat2Z.inj_add, Z.pow_add_r by lia. lia.
Qed.

Lemma be_val_cons x b : be_val (x :: b) = byte_val x * 256 ^ Z.of_nat (length b) + be_val b.
Proof. exact (be_val_app [x] b). Qed.

Lemma be_val_be_bytes w n : be_val (be_bytes w n) = n mod 2 ^ (8 * Z.of_nat w).
Proof.
  induction w as [|w IH]; [by rewrite Z.mod_1_r|]. cbn [be_bytes].
  rewrite be_val_cons, IH, length_be_bytes.
  rewrite byte_val_of_N by (apply Z.mod_pos_bound; lia).
  replace (256 ^ Z.of_nat w) with (2 ^ (8 * Z.of_nat w)) by (by rewrite Z.pow_mul_r by lia).
  replace (8 * Z.of_nat (S w)) with (8 * Z.of_nat w + 8) by lia.
  rewrite Z.pow_add_r by lia. change (2 ^ 8) with 256.
  pose proof (Z.pow_pos_nonneg 2 (8 * Z.of_nat w) ltac:(lia) ltac:(lia)).
  rewrite Z.rem_mul_r by lia. lia.
Qed.

Lemma p_uint_mod w n rest :
  p_uint w (be_bytes w n ++ rest) = Some (n mod 2 ^ (8 * Z.of_nat w), rest).
Proof.
  unfold p_uint. rewrite length_app, length_be_bytes.
  replace (w + length rest <? w)%nat with false by (symmetry; apply Nat.ltb_ge; lia).
  rewrite take_app_length', drop_app_length' by (by rewrite length_be_bytes).
  by rewrite be_val_be_bytes.
Qed.

Lemma p_uint_enc w n rest :
  0 <= n < 2 ^ (8 * Z.of_nat w) → p_uint w (be_bytes w n ++ rest) = Some (n, rest).
Proof. intros Hn. by rewrite p_uint_mod, Z.mod_small. Qed.

Lemma p_int64_enc n rest :
  I64_MIN <= n <= I64_MAX → p_int64 (be_bytes 8 n ++ rest) = Some (n, rest).
Proof.
  intros Hn. unfold I64_MIN, I64_MAX in Hn. unfold p_int64. rewrite p_uint_mod.
  cbn [mbind option_bind]. change (8 * Z.of_nat 8) with 64. destruct (decide (0 <= n)).
  - rewrite Z.mod_small by lia. by replace (n <? 2 ^ 63) with true by lia.
  - replace (n mod 2 ^ 64) with (n + 2 ^ 64).
    + replace (n + 2 ^ 64 <? 2 ^ 63) with false by lia. do 2 f_equal. lia.
    + rewrite <-(Z.mod_add n 1 (2 ^ 64)), Z.mul_1_l by lia. rewrite Z.mod_small; lia.
Qed.

(** A counted string padded to a word. *)
Definition enc_opaque (text : bytes) : bytes := pad4 (be_bytes 4 (Z.of_nat (length text)) ++ text).
Definition enc_time (t : Z * Z) : bytes :=
  be_bytes 4 SET_TO_CLIENT_TIME4 ++ be_bytes 8 t.1 ++ be_bytes 4 t.2.
Definition enc_opt {A} (enc : A → bytes) (o : option A) : bytes :=
  match o with Some x => enc x | None => [] end.

Lemma word_up n : 0 <= n → Z.ldiff (n + 3) 3 = (n + 3) / 4 * 4.
Proof.
  intros Hn. change 3 with (Z.ones 2) at 2.
  by rewrite Z.ldiff_ones_r, Z.shiftl_mul_pow2, Z.shiftr_div_pow2 by lia.
Qed.

Lemma pad4_app a b : Z.of_nat (length a) mod 4 = 0 → pad4 (a ++ b) = a ++ pad4 b.
Proof.
  intros Ha. unfold pad4. rewrite <-app_assoc. do 2 f_equal. f_equal.
  rewrite !word_up, length_app by lia.
  pose proof (Z.div_mod (Z.of_nat (length a)) 4 ltac:(lia)) as Hd. rewrite Ha in Hd.
  rewrite Nat2Z.inj_add.
  replace (Z.of_nat (length a) + Z.of_nat (length b) + 3)
    with (Z.of_nat (length b) + 3 + Z.of_nat (length a) / 4 * 4) by lia.
  rewrite Z.div_add by lia. lia.
Qed.

Lemma length_pad4 b : Z.of_nat (length (pad4 b)) mod 4 = 0.
Proof.
  unfold pad4. rewrite length_app, length_replicate, word_up by lia.
  pose proof (Z.div_mod (Z.of_nat (length b) + 3) 4 ltac:(lia)).
  pose proof (Z.mod_pos_bound (Z.of_nat (length b) + 3) 4 ltac:(lia)).
  replace (Z.of_nat _) with ((Z.of_nat (length b) + 3) / 4 * 4) by lia. by apply Z.mod_mul.
Qed.

Lemma p_opaque_enc text rest :
  Z.of_nat (length text) <= U32_MAX → p_opaque (enc_opaque text ++ rest) = Some (text, rest).
Proof.
  intros Hl. unfold enc_opaque. rewrite pad4_app by (by rewrite length_be_bytes).
  unfold p_opaque. rewrite <-app_assoc, p_uint_enc by (unfold U32_MAX in *; simpl; lia).
  cbn -[take drop Z.ldiff Z.add]. rewrite Nat2Z.id. unfold pad4. rewrite <-app_assoc.
  rewrite take_app_length. do 2 f_equal. rewrite app_assoc, drop_app_length'; [done|].
  rewrite length_app, length_replicate, word_up by lia.
  pose proof (Z.div_mod (Z.of_nat (length text) + 3) 4 ltac:(lia)).
  pose proof (Z.mod_pos_bound (Z.of_nat (length text) + 3) 4 ltac:(lia)). lia.
Qed.

Lemma p_time_enc t rest :
  I64_MIN <= t.1 <= I64_MAX → is_u32 t.2 → p_time (enc_time t ++ rest) = Some (t.1, t.2, rest).
Proof.
  intros Hs Hn. unfold p_time, enc_time. rewrite <-!app_assoc.
  rewrite p_uint_enc by (by vm_compute). cbn [mbind option_bind].
  rewrite Z.eqb_refl, p_int64_enc by done. cbn [mbind option_bind].
  rewrite p_uint_enc; [done|]. unfold is_u32, U32_MAX in Hn. simpl. lia.
Qed.

Lemma p_opt_enc {A} (p : bytes → option (A * bytes)) enc (o : option A) rest :
  (∀ x, o = Some x → p (enc x ++ rest) = Some (x, rest)) →
  p_opt (bool_decide (is_Some o)) p (enc_opt enc o ++ rest) = Some (o, rest).
Proof. intros Hp. destruct o as [x|]; simpl; [|done]. by rewrite Hp. Qed.

Abbreviation decimal := (λ n : Z, bstr (pretty n)).

Lemma word_app (a b : bytes) :
  Z.of_nat (length a) mod 4 = 0 → Z.of_nat (length b) mod 4 = 0 →
  Z.of_nat (length (a ++ b)) mod 4 = 0.
Proof. intros Ha Hb. rewrite length_app, Nat2Z.inj_add, Z.add_mod, Ha, Hb by lia. done. Qed.

Lemma encode_identity_vals m vals a o :
  Z.of_nat (length vals) mod 4 = 0 →
  ∃ m', encode_identity (m, vals) (a, o) = (m', vals ++ enc_opt enc_opaque (decimal <$> o)) ∧
        Z.of_nat (length (vals ++ enc_opt enc_opaque (decimal <$> o))) mod 4 = 0.
Proof.
  intros Hv. destruct o as [n|]; cbn [encode_identity fmap option_fmap option_map enc_opt].
  - rewrite pad4_app by done. eexists. split; [reflexivity|]. apply word_app; [done|apply length_pad4].
  - eexists. split; [by rewrite app_nil_r|]. by rewrite app_nil_r.
Qed.

Lemma encode_time_vals acc a o : (encode_time acc (a, o)).2 = acc.2 ++ enc_opt enc_time o.
Proof. destruct acc, o as [[??]|]; cbn; by rewrite ?app_nil_r. Qed.

(** The values as the concatenation of the encodings in attribute order. *)
Lemma setattr_vals mode size uid gid atime mtime :
  attr_vals (setattr_fattr mode size uid gid atime mtime) =
  enc_opt (be_bytes 8) size ++ enc_opt (be_bytes 4) mode ++
  enc_opt enc_opaque (decimal <$> uid) ++ enc_opt enc_opaque (decimal <$> gid) ++
  enc_opt enc_time atime ++ enc_opt enc_time mtime ++ [].
Proof.
  unfold setattr_fattr. cbn [attr_vals foldl]. rewrite !encode_time_vals.
  set (acc := match mode with Some _ => _ | None => _ end).
  assert (acc.2 = enc_opt (be_bytes 8) size ++ enc_opt (be_bytes 4) mode) as Hacc.
  { unfold acc. destruct size, mode; cbn [fst snd enc_opt app]; by rewrite ?app_nil_r. }
  assert (Z.of_nat (length acc.2) mod 4 = 0) as Hw.
  { rewrite Hacc. apply word_app; [destruct size|destruct mode]; cbn [enc_opt];
      rewrite ?length_be_bytes; done. }
  destruct acc as [m vals]. cbn [snd] in *.
  destruct (encode_identity_vals m vals FATTR4_OWNER uid Hw) as (m' & -> & Hw').
  destruct (encode_identity_vals m' _ FATTR4_OWNER_GROUP gid Hw') as (m'' & -> & _).
  cbn [snd]. by rewrite Hacc, <-!app_assoc, app_nil_r.
Qed.

Lemma setattr_mask mode size uid gid atime mtime :
  let has := has_attr (attrmask (setattr_fattr mode size uid gid atime mtime)) in
  has FATTR4_SIZE = bool_decide (is_Some size) ∧ has FATTR4_MODE = bool_decide (is_Some mode) ∧
  has FATTR4_OWNER = bool_decide (is_Some uid) ∧ has FATTR4_OWNER_GROUP = bool_decide (is_Some gid) ∧
  has FATTR4_TIME_ACCESS_SET = bool_decide (is_Some atime) ∧
  has FATTR4_TIME_MODIFY_SET = bool_decide (is_Some mtime).
Proof.
  destruct size, mode, uid, gid, atime as [[??]|], mtime as [[??]|]; split_and!; reflexivity.
Qed.

(** The request's fields are in the ranges of their types, and decimal user ids
    are at most ten digits long. *)
Definition setattr_typed (mode size : option Z) (uid gid : option bytes)
    (atime mtime : option (Z * Z)) : Prop :=
  (∀ m, mode = Some m → is_u32 m) ∧ (∀ s, size = Some s → is_u64 s) ∧
  (∀ t, uid = Some t → Z.of_nat (length t) <= U32_MAX) ∧
  (∀ t, gid = Some t → Z.of_nat (length t) <= U32_MAX) ∧
  (∀ t, atime = Some t → I64_MIN <= t.1 <= I64_MAX ∧ is_u32 t.2) ∧
  (∀ t, mtime = Some t → I64_MIN <= t.1 <= I64_MAX ∧ is_u32 t.2).

(** C39: SETATTR requests decode to what was asked.  For every combination of
    mode, size, owner, group and timestamps, negative seconds included,
    [setattr_ownership] adds one SETATTR under the stateid to the compound, and
    reading its bitmap and its values in the order of RFC 8881 gives back exactly
    the requested changes, the others absent, and consumes the payload to its
    last byte. *)
Theorem setattr_roundtrip (c : t) (mode size uid gid : option Z) (atime mtime : option (Z * Z)) (st : stateid4) :
  let owner := decimal <$> uid in
  let group := decimal <$> gid in
  setattr_typed mode size owner group atime mtime →
  ∃ attrs, Compound.ops (setattr_ownership c mode size (uid, gid) atime mtime st) = Compound.ops c ++ [ASetattr st attrs] ∧
    decode_settable attrs = Some (Settable size mode owner group atime mtime).
Proof.
  intros owner group (Hm & Hs & Hu & Hg & Ha & Ht). exists (setattr_fattr mode size uid gid atime mtime). split; [done|]. unfold decode_settable.
  destruct (setattr_mask mode size uid gid atime mtime) as (-> & -> & -> & -> & -> & ->).
  rewrite setattr_vals. fold owner group.
  replace (bool_decide (is_Some uid)) with (bool_decide (is_Some owner)) by (by destruct uid).
  replace (bool_decide (is_Some gid)) with (bool_decide (is_Some group)) by (by destruct gid).
  rewrite p_opt_enc by (intros x Hx; apply p_uint_enc; specialize (Hs x Hx);
    unfold is_u64, U64_MAX in Hs; simpl; lia). cbn [mbind option_bind].
  rewrite p_opt_enc by (intros x Hx; apply p_uint_enc; specialize (Hm x Hx);
    unfold is_u32, U32_MAX in Hm; simpl; lia). cbn [mbind option_bind].
  rewrite p_opt_enc by (intros x Hx; apply p_opaque_enc; auto). cbn [mbind option_bind].
  rewrite p_opt_enc by (intros x Hx; apply p_opaque_enc; auto). cbn [mbind option_bind].
  rewrite p_opt_enc by (intros [s n] Hx; destruct (Ha _ Hx); by apply (p_time_enc (s, n))).
  cbn [mbind option_bind].
  rewrite p_opt_enc by (intros [s n] Hx; destruct (Ht _ Hx); by apply (p_time_enc (s, n))).
  done.
Qed.

Lemma setattr_roundtrip_witness :
  ∃ attrs, Compound.ops (setattr_ownership Compound.new (Some 0x1a4) (Some 0) (Some 1000, None) (Some (-5, 7)) None zero_stateid) =
      [ASetattr zero_stateid attrs] ∧
    decode_settable attrs = Some (Settable (Some 0) (Some 0x1a4) (Some (bstr "1000")) None (Some (-5, 7)) None).
Proof.
  apply (setattr_roundtrip Compound.new (Some 0x1a4) (Some 0) (Some 1000) None (Some (-5, 7)) None zero_stateid).
  split_and!; intros x Hx; try discriminate Hx; injection Hx as <-; vm_compute; split_and?; done.
Defined.
End SetattrLemmas.
