(* ===== verification/Session.v ===== *)
(** * Sessions

    A model of [crates/vfsi-nfs/src/session.rs]: the EXCHANGE_ID /
    CREATE_SESSION / RECLAIM_COMPLETE handshake, the SEQUENCE bookkeeping of the
    single slot with its poisoning rule, minor-version negotiation, and
    teardown, including the one [Drop] runs on a half-built session.  The
    transport is a parameter; everything it changes is in its state. *)

From stdpp Require Import base numbers list list_numbers strings.
From S2P Require Import Prelude Errors Planner Compound.

Definition EXCHGID4_FLAG_CONFIRMED_R : Z := 0x80000000.
Definition NFS4ERR_SEQ_MISORDERED : Z := 10063.

Record OpenOwner := MakeOwner { ow_name : bytes; ow_seqid : Z }.

Module Session.
Record t := Make {
  clientid : Z;
  sessionid : sessionid4;
  minorversion : Z;
  slot_seqid : Z;
  create_session_seqid : Z;
  session_created : bool;
  owns_clientid : bool;
  poisoned : bool;
  max_requestsize : Z;
  max_responsesize : Z;
  max_operations : Z;
  open_owner : OpenOwner;
  path_owner : OpenOwner;
  client_owner : option bytes;
}.

(** The session before the handshake. *)
Definition initial (minorversion : Z) (client_owner : option bytes) : t :=
  Make 0 (replicate 16 Byte.x00) minorversion 1 1 false false false
    (4 * 1024 * 1024) (4 * 1024 * 1024) 256
    (MakeOwner (bstr "vnfs-open-owner") 0) (MakeOwner (bstr "vnfs-path-open-owner") 0) client_owner.

Definition abandon (s : t) : t :=
  Make 0 (sessionid s) (minorversion s) (slot_seqid s) (create_session_seqid s)
    (session_created s) (owns_clientid s) (poisoned s) (max_requestsize s) (max_responsesize s)
    (max_operations s) (open_owner s) (path_owner s) (client_owner s).

Definition set_exchanged (s : t) (cid seq : Z) (owns : bool) : t :=
  Make cid (sessionid s) (minorversion s) (slot_seqid s) seq
    (session_created s) owns (poisoned s) (max_requestsize s) (max_responsesize s)
    (max_operations s) (open_owner s) (path_owner s) (client_owner s).

Definition set_created (s : t) (sid : sessionid4) : t :=
  Make (clientid s) sid (minorversion s) (slot_seqid s) (create_session_seqid s)
    true (owns_clientid s) (poisoned s) (max_requestsize s) (max_responsesize s)
    (max_operations s) (open_owner s) (path_owner s) (client_owner s).

Definition set_limits (s : t) (req resp ops : Z) : t :=
  Make (clientid s) (sessionid s) (minorversion s) (slot_seqid s) (create_session_seqid s)
    (session_created s) (owns_clientid s) (poisoned s) req resp ops
    (open_owner s) (path_owner s) (client_owner s).

Definition set_slot (s : t) (seqid : Z) (p : bool) : t :=
  Make (clientid s) (sessionid s) (minorversion s) seqid (create_session_seqid s)
    (session_created s) (owns_clientid s) p (max_requestsize s) (max_responsesize s)
    (max_operations s) (open_owner s) (path_owner s) (client_owner s).

Definition set_owns (s : t) (owns : bool) : t :=
  Make (clientid s) (sessionid s) (minorversion s) (slot_seqid s) (create_session_seqid s)
    (session_created s) owns (poisoned s) (max_requestsize s) (max_responsesize s)
    (max_operations s) (open_owner s) (path_owner s) (client_owner s).

Section Transport.
Context {W : Type} (rpc : Compound.t → W → RpcResult COMPOUND4res * W).

(** A request outside the session: minor version, tag, one operation. *)
Definition single (s : t) (tag : string) (op : argop) : Compound.t :=
  Compound.push
    (Compound.tag (Compound.set_minorversion Compound.new (minorversion s)) (bstr tag)) op.

(** The accessors panic on a mismatched operation; the [None] branches below
    stand for that panic, which validation excludes.  [generated] is the owner
    id the code derives from the process id and the
    clock, [verifier] the given or freshly made verifier. *)
Definition exchange_id (s : t) (verifier : verifier4) (generated : bytes) (w : W)
    : RpcResult unit * t * W :=
  let owner := default generated (client_owner s) in
  let '(r, w) := call rpc (single s "exchange_id" (AExchangeId verifier owner 0)) w in
  match r with
  | Err e => (Err e, s, w)
  | Ok res =>
      match CompoundRes.try_op_status res 0 with
      | Err e => (Err e, s, w)
      | Ok st =>
          if negb (st =? NFS_OK) then (Err (RpcError.op 0 st), s, w)
          else
            match CompoundRes.exchange_id res 0 with
            | Some (cid, seq, flags) =>
                (Ok tt, set_exchanged s cid seq (Z.land flags EXCHGID4_FLAG_CONFIRMED_R =? 0), w)
            | None => (Err (RpcError.op 0 st), s, w)
            end
      end
  end.

Definition create_session (s : t) (w : W) : RpcResult unit * t * W :=
  let '(r, w) :=
    call rpc (single s "create_session" (ACreateSession (clientid s) (create_session_seqid s))) w in
  match r with
  | Err e => (Err e, s, w)
  | Ok res =>
      match CompoundRes.try_op_status res 0 with
      | Err e => (Err e, s, w)
      | Ok st =>
          if negb (st =? NFS_OK) then (Err (RpcError.op 0 st), s, w)
          else
            match CompoundRes.create_session res 0 with
            | Some (sid, (req, resp, ops)) =>
                let s := set_created s sid in
                if (req =? 0) || (resp =? 0) || (ops =? 0) then
                  (Err (RpcError.transport
                     "server returned invalid zero-valued fore-channel limits"), s, w)
                else (Ok tt, set_limits s req resp ops, w)
            | None => (Err (RpcError.op 0 st), s, w)
            end
      end
  end.

(** Send a compound on the slot. *)
Definition compound (s : t) (c : Compound.t) (w : W) : RpcResult COMPOUND4res * t * W :=
  if poisoned s then
    (Err (RpcError.transport
       "NFS session is unusable after an ambiguous transport failure; reconnect"), s, w)
  else
    let c := Compound.set_minorversion c (minorversion s) in
    let c := Compound.prepend_sequence c (ASequence (sessionid s) (slot_seqid s) 0 0) in
    let '(r, w) := call rpc c w in
    match r with
    | Err e => (Err e, set_slot s (slot_seqid s) true, w)
    | Ok res =>
        let s :=
          if (0 <? CompoundRes.nops res) && (CompoundRes.op_status res 0 =? NFS_OK)
          then set_slot s (wrapping_add32 (slot_seqid s) 1) (poisoned s) else s in
        (Ok res, s, w)
    end.

Definition reclaim_complete (s : t) (w : W) : RpcResult unit * t * W :=
  let c := Compound.reclaim_complete (Compound.tag Compound.new (bstr "reclaim_complete")) in
  let '(r, s, w) := compound s c w in
  match r with
  | Err e => (Err e, s, w)
  | Ok res =>
      match CompoundRes.try_op_status res 1 with
      | Err e => (Err e, s, w)
      | Ok st =>
          if negb (st =? NFS_OK) && negb (st =? NFS4ERR_COMPLETE_ALREADY)
          then (Err (RpcError.op 1 st), s, w) else (Ok tt, s, w)
      end
  end.

Definition destroy_session (s : t) (sid : sessionid4) (w : W) : RpcResult unit * W :=
  let '(r, w) := call rpc (single s "destroy_session" (ADestroySession sid)) w in
  match r with
  | Err e => (Err e, w)
  | Ok res =>
      let status := CompoundRes.status res in
      if (status =? NFS_OK) || (status =? NFS4ERR_BADSESSION) || (status =? NFS4ERR_DEADSESSION)
      then (Ok tt, w) else (Err (RpcError.op 0 status), w)
  end.

Definition shutdown (s : t) (w : W) : RpcResult unit * t * W :=
  if clientid s =? 0 then (Ok tt, s, w)
  else
    let '(first_error, w) :=
      if session_created s then
        match destroy_session s (sessionid s) w with
        | (Err e, w) => (Some e, w)
        | (Ok _, w) => (None, w)
        end
      else (None, w) in
    let '(first_error, w) :=
      if owns_clientid s then
        let '(r, w) := call rpc (single s "destroy_clientid" (ADestroyClientid (clientid s))) w in
        match r, first_error with
        | Ok res, None =>
            ((if CompoundRes.status res =? NFS_OK then None
              else Some (RpcError.op 0 (CompoundRes.status res))), w)
        | Err e, None => (Some e, w)
        | _, Some _ => (first_error, w)
        end
      else (first_error, w) in
    (match first_error with None => Ok tt | Some e => Err e end, abandon s, w).

(** [Drop]. *)
Definition drop_session (s : t) (w : W) : W := (shutdown s w).2.

(** [connect_minor_with_identity] on an established transport: on any error the
    half-built session is dropped, which tears down what was set up. *)
Definition connect (minorversion : Z) (client_owner : option bytes) (verifier : verifier4)
    (generated : bytes) (w : W) : RpcResult t * W :=
  let s := initial minorversion client_owner in
  let '(r, s, w) := exchange_id s verifier generated w in
  match r with
  | Err e => (Err e, drop_session s w)
  | Ok _ =>
      let '(r, s, w) := create_session s w in
      match r with
      | Err e => (Err e, drop_session s w)
      | Ok _ =>
          let '(r, s, w) := reclaim_complete s w in
          match r with
          | Err e => (Err e, drop_session s w)
          | Ok _ => (Ok s, w)
          end
      end
  end.

Definition shares_identity (s previous : t) : bool :=
  negb (clientid s =? 0) && (clientid s =? clientid previous).

Definition retire_previous_session (s previous : t) (w : W) : t * W :=
  let '(r, w) := call rpc (single s "bind_retired_session" (ABindConn (sessionid previous))) w in
  let w :=
    match r with
    | Ok res => if CompoundRes.status res =? NFS_OK
                then (destroy_session s (sessionid previous) w).2 else w
    | Err _ => w
    end in
  (set_owns s (owns_clientid previous), w).
End Transport.

(** [first_compound_failure] and [expect_all_ok]. *)
Definition first_compound_failure (compound_status : Z) (op_statuses : list Z) : option (Z * Z) :=
  match list_find (λ st, st ≠ NFS_OK) op_statuses with
  | Some (i, st) => Some (Z.of_nat i, st)
  | None => if negb (compound_status =? NFS_OK) then Some (0, compound_status) else None
  end.

Definition expect_all_ok (res : COMPOUND4res) : RpcResult unit :=
  match first_compound_failure (CompoundRes.status res)
          (CompoundRes.op_status res <$> seqZ 0 (CompoundRes.nops res)) with
  | None => Ok tt
  | Some (index, status) => Err (RpcError.op index status)
  end.

Definition PREFERRED_MINOR_VERSION : Z := 2.
Definition FALLBACK_MINOR_VERSION : Z := 1.

Definition negotiate_minor {T W} (attempt : Z → W → RpcResult T * W) (w : W) : RpcResult T * W :=
  match attempt PREFERRED_MINOR_VERSION w with
  | (Ok v, w) => (Ok v, w)
  | (Err e, w) =>
      if RpcError.status e =? NFS4ERR_MINOR_VERS_MISMATCH then attempt FALLBACK_MINOR_VERSION w
      else (Err e, w)
  end.
End Session.

(** ** The slot protocol *)

(** The slot of a conforming server (RFC 8881, section 2.10.6.1), seen from the
    client: it accepts a SEQUENCE exactly when the sequence id is one more than
    the last one it accepted, modulo 2^32; otherwise, or when it rejects the
    compound before SEQUENCE, the slot does not move.  Nothing is assumed when
    no reply, or a malformed one, comes back. *)
Record slot_server {W} (rpc : Compound.t → W → RpcResult COMPOUND4res * W) (slot : W → Z) : Prop := {
  slot_accept : ∀ c w res w' sid q rest,
    rpc c w = (Ok res, w') → Compound.ops c = ASequence sid q 0 0 :: rest →
    0 < CompoundRes.nops res → CompoundRes.op_status res 0 = NFS_OK →
    q = (slot w + 1) mod 2 ^ 32 ∧ slot w' = q;
  slot_refuse : ∀ c w res w',
    rpc c w = (Ok res, w') →
    (CompoundRes.nops res <= 0 ∨ CompoundRes.op_status res 0 ≠ NFS_OK) → slot w' = slot w;
  slot_misordered : ∀ c w res w' sid q rest,
    rpc c w = (Ok res, w') → Compound.ops c = ASequence sid q 0 0 :: rest →
    CompoundRes.op_status res 0 = NFS4ERR_SEQ_MISORDERED → q ≠ (slot w + 1) mod 2 ^ 32;
}.

Module SlotLemmas.
Import Session.
Section Slot.
Context {W : Type} (rpc : Compound.t → W → RpcResult COMPOUND4res * W) (slot : W → Z).
Hypothesis server : slot_server rpc slot.

(** Client and server agree on the next sequence id, or the client knows it
    does not know. *)
Definition in_sync (s : t) (w : W) : Prop :=
  poisoned s = true ∨ slot_seqid s = (slot w + 1) mod 2 ^ 32.

Fixpoint run_compounds (s : t) (cs : list Compound.t) (w : W)
    : list (RpcResult COMPOUND4res) * t * W :=
  match cs with
  | [] => ([], s, w)
  | c :: cs =>
      let '(r, s, w) := compound rpc s c w in
      let '(rs, s, w) := run_compounds s cs w in
      (r :: rs, s, w)
  end.

Lemma call_inv c w res w' : call rpc c w = (Ok res, w') → rpc c w = (Ok res, w').
Proof.
  unfold call. destruct (rpc c w) as [[response|e] w1]; [|done].
  destruct (validate_response_ops _ _); [|done]. congruence.
Qed.

Lemma compound_in_sync s c w r s' w' :
  in_sync s w → compound rpc s c w = (r, s', w') →
  in_sync s' w' ∧ ∀ res, r = Ok res → CompoundRes.op_status res 0 ≠ NFS4ERR_SEQ_MISORDERED.
Proof.
  unfold compound, in_sync. destruct (poisoned s) eqn:Hp.
  { intros _ [= <- <- <-]. split; [by left|done]. }
  intros [?|Hs]; [done|].
  set (c' := Compound.prepend_sequence _ _).
  destruct (call rpc c' w) as [[res|e] w1] eqn:Hcall; intros [= <- <- <-].
  2:{ split; [by left|done]. }
  apply call_inv in Hcall. split.
  2:{ intros res' [= <-] Hmis.
      destruct (slot_misordered _ _ server c' w res w1 _ _ _ Hcall eq_refl Hmis). done. }
  right. destruct ((0 <? CompoundRes.nops res) && _) eqn:Hok.
  - apply andb_true_iff in Hok as [Hn Hst].
    destruct (slot_accept _ _ server c' w res w1 _ _ _ Hcall eq_refl) as [_ Hw]; [lia|lia|].
    simpl. unfold wrapping_add32. rewrite Hw. done.
  - rewrite (slot_refuse _ _ server c' w res w1 Hcall); [done|].
    apply andb_false_iff in Hok. lia.
Qed.

(** C31: The slot never gets out of order.  Against a conforming server, and for
    any sequence of compounds with any mix of successes, rejections before
    SEQUENCE, lost requests, lost replies and malformed replies, after every
    step the client's next sequence id is the one the server expects, or the
    session has poisoned itself; no reply is ever NFS4ERR_SEQ_MISORDERED.  The
    sequence id wraps from 2^32 - 1 to 0. *)
Theorem slot_always_in_sync (cs : list Compound.t) (s : t) (w : W) :
  in_sync s w →
  let '(rs, s', w') := run_compounds s cs w in
  in_sync s' w' ∧
  Forall (λ r, ∀ res, r = Ok res → CompoundRes.op_status res 0 ≠ NFS4ERR_SEQ_MISORDERED) rs.
Proof.
  revert s w. induction cs as [|c cs IH]; intros s w Hs; simpl; [split; [done|constructor]|].
  destruct (compound rpc s c w) as [[r s1] w1] eqn:Hc.
  destruct (compound_in_sync _ _ _ _ _ _ Hs Hc) as [Hs1 Hr]. specialize (IH s1 w1 Hs1).
  destruct (run_compounds s1 cs w1) as [[rs s2] w2]. destruct IH as [? ?]. split; [done|].
  by constructor.
Qed.

(** A poisoned session sends nothing more. *)
Lemma poisoned_silent cs s w :
  poisoned s = true → (run_compounds s cs w).1.2 = s ∧ (run_compounds s cs w).2 = w.
Proof.
  intros Hp. induction cs as [|c cs IH]; simpl; [done|]. unfold compound at 1 2. rewrite Hp.
  destruct (run_compounds s cs w) as [[rs s'] w']. done.
Qed.
End Slot.

(** A server with one slot and operations that all succeed. *)
Definition all_ok_reply (ops : list argop) : COMPOUND4res :=
  Res NFS_OK (Z.of_nat (length ops)) (Some ((λ a, RPlain (argop_num a) NFS_OK) <$> ops)).

Definition example_server (c : Compound.t) (w : Z) : RpcResult COMPOUND4res * Z :=
  match Compound.ops c with
  | ASequence _ q _ _ :: _ =>
      if q =? (w + 1) mod 2 ^ 32 then (Ok (all_ok_reply (Compound.ops c)), q)
      else (Ok (Res NFS4ERR_SEQ_MISORDERED 1 (Some [RPlain OP_SEQUENCE NFS4ERR_SEQ_MISORDERED])), w)
  | _ => (Ok (empty_response NFS4ERR_INVAL), w)
  end.

Lemma all_ok_sequence sid q a b rest :
  CompoundRes.op_status (all_ok_reply (ASequence sid q a b :: rest)) 0 = NFS_OK.
Proof.
  unfold CompoundRes.op_status, CompoundRes.op, CompoundRes.nops, all_ok_reply. cbn [cr_len cr_val].
  assert ((0 <? Z.of_nat (length (ASequence sid q a b :: rest))) = true) as ->
    by (apply Z.ltb_lt; cbn [length]; lia).
  done.
Qed.

Lemma example_slot_server : slot_server example_server (λ w, w).
Proof.
  constructor.
  - intros c w res w' sid q rest Hr Hops. unfold example_server in Hr. rewrite Hops in Hr.
    destruct (Z.eqb_spec q ((w + 1) mod 2 ^ 32)); [|by simplify_eq/=].
    injection Hr as <- <-. done.
  - intros c w res w' Hr Hno. unfold example_server in Hr.
    destruct (Compound.ops c) as [|[] rest] eqn:Hops; try by simplify_eq/=.
    destruct (seqid =? (w + 1) mod 2 ^ 32); [|by simplify_eq/=].
    injection Hr as <- <-. exfalso. destruct Hno as [Hno|Hno]; [|by rewrite all_ok_sequence in Hno].
    unfold CompoundRes.nops, all_ok_reply in Hno. cbn [cr_len length] in Hno. lia.
  - intros c w res w' sid q rest Hr Hops Hmis Hq. unfold example_server in Hr. rewrite Hops in Hr.
    rewrite Hq, Z.eqb_refl in Hr. injection Hr as <- _. by rewrite all_ok_sequence in Hmis.
Qed.

Definition example_session : t := set_slot (initial 1 None) 0 false.

Lemma slot_always_in_sync_witness :
  let '(rs, s', w') :=
    run_compounds example_server example_session
      [Compound.putrootfh Compound.new; Compound.getfh Compound.new] (2 ^ 32 - 1) in
  in_sync (λ w, w) s' w' ∧
  Forall (λ r, ∀ res, r = Ok res → CompoundRes.op_status res 0 ≠ NFS4ERR_SEQ_MISORDERED) rs.
Proof.
  apply (slot_always_in_sync example_server (λ w, w) example_slot_server
    [Compound.putrootfh Compound.new; Compound.getfh Compound.new] example_session (2 ^ 32 - 1)).
  right. reflexivity.
Defined.
End SlotLemmas.

(** ** Handshake and teardown *)

(** A transport that records the operations of every request it carries. *)
Definition logged {W} (rpc : Compound.t → W → RpcResult COMPOUND4res * W)
    (c : Compound.t) (w : W * list (list argop)) : RpcResult COMPOUND4res * (W * list (list argop)) :=
  let '(r, w1) := rpc c w.1 in (r, (w1, w.2 ++ [Compound.ops c])).

(** The transport returns what its decoder produced. *)
Definition rpc_decoded {W} (rpc : Compound.t → W → RpcResult COMPOUND4res * W) : Prop :=
  ∀ c w res w', rpc c w = (Ok res, w') → decoded res.

Module HandshakeLemmas.
Import Session.
Section Handshake.
Context {W : Type} (rpc : Compound.t → W → RpcResult COMPOUND4res * W).
Implicit Types (s : t) (log : list (list argop)).

(** The requests a teardown of [s] sends. *)
Definition teardown_requests (s : t) : list (list argop) :=
  if clientid s =? 0 then []
  else (if session_created s then [[ADestroySession (sessionid s)]] else []) ++
       (if owns_clientid s then [[ADestroyClientid (clientid s)]] else []).

Lemma call_logged c w log :
  ∃ r w', call (logged rpc) c (w, log) = (r, (w', log ++ [Compound.ops c])).
Proof.
  unfold call, logged. simpl. destruct (rpc c w) as [[res|e] w1]; [|eauto].
  destruct (validate_response_ops (Compound.ops c) res); eauto.
Qed.

Lemma destroy_session_logged s sid w log :
  ∃ r w', destroy_session (logged rpc) s sid (w, log) = (r, (w', log ++ [[ADestroySession sid]])).
Proof.
  unfold destroy_session.
  destruct (call_logged (single s "destroy_session" (ADestroySession sid)) w log) as (r & w' & ->).
  destruct r; [|eauto]. case_match; eauto.
Qed.

Lemma shutdown_logged s w log :
  ∃ r s' w', shutdown (logged rpc) s (w, log) = (r, s', (w', log ++ teardown_requests s)) ∧
             clientid s' = 0.
Proof.
  unfold shutdown, teardown_requests. destruct (Z.eqb_spec (clientid s) 0).
  { rewrite app_nil_r. by do 3 eexists. }
  set (first := if session_created s then _ else _).
  assert (∃ o w1, first = (o, (w1, log ++ if session_created s
    then [[ADestroySession (sessionid s)]] else []))) as (o & w1 & ->).
  { unfold first. destruct (session_created s); [|rewrite app_nil_r; eauto].
    destruct (destroy_session_logged s (sessionid s) w log) as ([?|?] & ? & ->); eauto. }
  destruct (owns_clientid s).
  - destruct (call_logged (single s "destroy_clientid" (ADestroyClientid (clientid s))) w1
      (log ++ if session_created s then [[ADestroySession (sessionid s)]] else []))
      as (r & w2 & ->).
    rewrite <-app_assoc. destruct r, o; by do 3 eexists.
  - rewrite app_nil_r. by do 3 eexists.
Qed.

(** C36: Teardown is exact and happens once.  Shutting a session down sends
    DESTROY_SESSION if and only if a session was created, then DESTROY_CLIENTID
    if and only if this connection owns the client id, whatever the replies;
    afterwards the session is dead: a second shutdown, such as the one [Drop]
    runs, sends nothing and succeeds. *)
Theorem shutdown_exactly_once (s : t) (w : W) (log : list (list argop)) :
  let '(_, s', (w', log')) := shutdown (logged rpc) s (w, log) in
  log' = log ++ teardown_requests s ∧
  shutdown (logged rpc) s' (w', log') = (Ok tt, s', (w', log')).
Proof.
  destruct (shutdown_logged s w log) as (r & s' & w' & -> & Hc). split; [done|].
  unfold shutdown. by rewrite Hc.
Qed.

Lemma drop_logged s w log :
  ∃ w', drop_session (logged rpc) s (w, log) = (w', log ++ teardown_requests s).
Proof.
  unfold drop_session. destruct (shutdown_logged s w log) as (r & s' & w' & -> & _). eauto.
Qed.

Lemma teardown_not_owned s : owns_clientid s = false →
  Forall (λ ops, ∀ cid, ADestroyClientid cid ∉ ops) (teardown_requests s).
Proof.
  intros Ho. unfold teardown_requests. rewrite Ho. case_match; [constructor|].
  rewrite app_nil_r. case_match; [|constructor]. constructor; [|constructor].
  intros cid [?|?%not_elem_of_nil]%elem_of_cons; done.
Qed.
End Handshake.

Section Confirmed.
Context {W : Type} (rpc : Compound.t → W → RpcResult COMPOUND4res * W).

Definition no_destroy (log : list (list argop)) : Prop :=
  Forall (λ ops, ∀ cid, ADestroyClientid cid ∉ ops) log.

Lemma call_logged_ok c w log res w' :
  call (logged rpc) c (w, log) = (Ok res, w') → ∃ w1, rpc c w = (Ok res, w1).
Proof.
  unfold call, logged. simpl. destruct (rpc c w) as [[r|e] w1]; [|done].
  destruct (validate_response_ops (Compound.ops c) r); [|done]. intros [= <- <-]. eauto.
Qed.

(** Every EXCHANGE_ID reply says the identity was already confirmed. *)
Hypothesis confirmed : ∀ c w res w' cid seq flags,
  rpc c w = (Ok res, w') → CompoundRes.exchange_id res 0 = Some (cid, seq, flags) →
  Z.land flags EXCHGID4_FLAG_CONFIRMED_R ≠ 0.

Lemma exchange_id_confirmed s v g w log r s' w' log' :
  owns_clientid s = false →
  exchange_id (logged rpc) s v g (w, log) = (r, s', (w', log')) →
  owns_clientid s' = false ∧ ∃ o, log' = log ++ [[AExchangeId v o 0]].
Proof.
  intros Ho. unfold exchange_id.
  destruct (call_logged rpc (single s "exchange_id"
    (AExchangeId v (default g (client_owner s)) 0)) w log) as (r0 & w0 & Hc). rewrite Hc.
  destruct r0 as [res|e]; [|intros [= <- <- <- <-]; eauto].
  destruct (call_logged_ok _ _ _ _ _ Hc) as [w1 Hrpc].
  destruct (CompoundRes.try_op_status res 0); [|intros [= <- <- <- <-]; eauto].
  case_match; [intros [= <- <- <- <-]; eauto|].
  destruct (CompoundRes.exchange_id res 0) as [[[cid seq] fl]|] eqn:Hx;
    intros [= <- <- <- <-]; [|eauto].
  split; [|eauto]. simpl. apply Z.eqb_neq. eapply confirmed; eauto.
Qed.

Lemma create_session_logged s w log r s' w' log' :
  create_session (logged rpc) s (w, log) = (r, s', (w', log')) →
  owns_clientid s' = owns_clientid s ∧
  log' = log ++ [[ACreateSession (clientid s) (create_session_seqid s)]].
Proof.
  unfold create_session.
  destruct (call_logged rpc (single s "create_session"
    (ACreateSession (clientid s) (create_session_seqid s))) w log) as (r0 & w0 & ->).
  destruct r0 as [res|e]; [|by intros [= <- <- <- <-]].
  destruct (CompoundRes.try_op_status res 0); [|by intros [= <- <- <- <-]].
  case_match; [by intros [= <- <- <- <-]|].
  destruct (CompoundRes.create_session res 0) as [[sid [[a b] c]]|]; [|by intros [= <- <- <- <-]].
  case_match; by intros [= <- <- <- <-].
Qed.

Lemma compound_logged s c w log r s' w' log' :
  compound (logged rpc) s c (w, log) = (r, s', (w', log')) →
  owns_clientid s' = owns_clientid s ∧
  ∃ q, log' = log ++ q ∧ Forall (λ ops, ∃ sid n, ops = ASequence sid n 0 0 :: Compound.ops c) q.
Proof.
  unfold compound. destruct (poisoned s).
  { intros [= <- <- <- <-]. split; [done|]. exists []. by rewrite app_nil_r. }
  destruct (call_logged rpc (Compound.prepend_sequence
    (Compound.set_minorversion c (minorversion s))
    (ASequence (sessionid s) (slot_seqid s) 0 0)) w log) as (r0 & w0 & ->).
  destruct r0 as [res|e]; intros [= <- <- <- <-]; (split; [by try case_match|]);
    eexists; (split; [reflexivity|]); constructor; eauto.
Qed.

Lemma reclaim_complete_logged s w log r s' w' log' :
  reclaim_complete (logged rpc) s (w, log) = (r, s', (w', log')) →
  owns_clientid s' = owns_clientid s ∧ (no_destroy log → no_destroy log').
Proof.
  unfold reclaim_complete. set (c := Compound.reclaim_complete _).
  destruct (compound (logged rpc) s c (w, log)) as [[r0 s0] [w0 log0]] eqn:Hc.
  apply compound_logged in Hc as (Ho & q & -> & Hq).
  assert (no_destroy log → no_destroy (log ++ q)).
  { intros Hl. apply Forall_app. split; [done|]. eapply Forall_impl; [exact Hq|].
    intros ops (sid & n & ->) cid [?|[?|?%not_elem_of_nil]%elem_of_cons]%elem_of_cons; done. }
  destruct r0 as [res|e]; [|by intros [= <- <- <- <-]].
  destruct (CompoundRes.try_op_status res 1); [|by intros [= <- <- <- <-]].
  case_match; by intros [= <- <- <- <-].
Qed.

(** C38: A failed handshake never destroys somebody else's client id.  When the
    server reports the identity as already confirmed, that is, owned by the
    connection this one is about to replace, no handshake, whether it succeeds
    or fails at any of its three steps and tears the half-built session down,
    ever sends DESTROY_CLIENTID. *)
Theorem connect_spares_confirmed (mv : Z) (co : option bytes) (v : verifier4) (g : bytes) (w : W) :
  no_destroy (connect (logged rpc) mv co v g (w, [])).2.2.
Proof.
  unfold connect.
  destruct (exchange_id (logged rpc) (initial mv co) v g (w, [])) as [[r1 s1] [w1 log1]] eqn:H1.
  apply exchange_id_confirmed in H1 as [Ho1 [o ->]]; [|done]. rewrite app_nil_l.
  assert (no_destroy [[AExchangeId v o 0]]) as Hl1.
  { constructor; [|constructor]. intros cid [?|?%not_elem_of_nil]%elem_of_cons; done. }
  assert (∀ s w log, owns_clientid s = false → no_destroy log →
    no_destroy (drop_session (logged rpc) s (w, log)).2) as Hdrop.
  { intros s w' log Ho Hl. destruct (drop_logged rpc s w' log) as [w'' ->].
    apply Forall_app. split; [done|by apply teardown_not_owned]. }
  destruct r1 as [[]|e]; [|by apply Hdrop].
  destruct (create_session (logged rpc) s1 (w1, [[AExchangeId v o 0]])) as [[r2 s2] [w2 log2]] eqn:H2.
  apply create_session_logged in H2 as [Ho2 ->].
  assert (no_destroy ([[AExchangeId v o 0]] ++
    [[ACreateSession (clientid s1) (create_session_seqid s1)]])) as Hl2.
  { apply Forall_app. split; [done|]. constructor; [|constructor].
    intros cid [?|?%not_elem_of_nil]%elem_of_cons; done. }
  rewrite Ho1 in Ho2. destruct r2 as [[]|e]; [|by apply Hdrop].
  destruct (reclaim_complete _ s2 (w2, _)) as [[r3 s3] [w3 log3]] eqn:H3.
  apply reclaim_complete_logged in H3 as [Ho3 Hl3]. rewrite Ho2 in Ho3.
  destruct r3 as [[]|e]; [by apply Hl3|]. apply Hdrop; auto.
Qed.
End Confirmed.

(** A server that confirms every identity and refuses the session. *)
Definition refusing_server (c : Compound.t) (w : unit) : RpcResult COMPOUND4res * unit :=
  match Compound.ops c with
  | [AExchangeId _ _ _] => (Ok (Res 0 1 (Some [RExchangeId 0 77 1 EXCHGID4_FLAG_CONFIRMED_R])), w)
  | _ => (Ok (empty_response NFS4ERR_RESOURCE), w)
  end.

Lemma connect_spares_confirmed_witness :
  no_destroy (connect (logged refusing_server) 1 None [] [] (tt, [])).2.2.
Proof.
  apply (connect_spares_confirmed refusing_server).
  intros c w res w' cid seq flags Hr Hx. unfold refusing_server in Hr.
  destruct (Compound.ops c) as [|[] [|]] eqn:Hops; injection Hr as <- <-; try discriminate Hx.
  injection Hx as <- <- <-. vm_compute. discriminate.
Defined.

Section Established.
Context {W : Type} (rpc : Compound.t → W → RpcResult COMPOUND4res * W).

Lemma exchange_id_ok s v g w s' w' :
  exchange_id rpc s v g w = (Ok tt, s', w') →
  ∃ cid seq owns, s' = set_exchanged s cid seq owns.
Proof.
  unfold exchange_id. destruct (call rpc _ w) as [[res|e] w1]; [|done].
  destruct (CompoundRes.try_op_status res 0); [|done]. case_match; [done|].
  destruct (CompoundRes.exchange_id res 0) as [[[??]?]|]; [|done]. intros [= <- <-]. eauto.
Qed.

Lemma create_session_ok s w s' w' :
  create_session rpc s w = (Ok tt, s', w') →
  ∃ sid a b c, s' = set_limits (set_created s sid) a b c ∧ a ≠ 0 ∧ b ≠ 0 ∧ c ≠ 0.
Proof.
  unfold create_session. destruct (call rpc _ w) as [[res|e] w1]; [|done].
  destruct (CompoundRes.try_op_status res 0); [|done]. case_match; [done|].
  destruct (CompoundRes.create_session res 0) as [[sid [[a b] c]]|]; [|done].
  case_match eqn:Hz; [done|]. intros [= <- <-]. exists sid, a, b, c. split; [done|].
  apply orb_false_iff in Hz as [Hz ?]. apply orb_false_iff in Hz as [? ?]. lia.
Qed.

(** The reply to a compound whose second operation has a result consumed the
    sequence id. *)
Lemma compound_consumed s c w res s' w' st :
  rpc_decoded rpc → compound rpc s c w = (Ok res, s', w') →
  CompoundRes.try_op_status res 1 = Ok st →
  s' = set_slot s (wrapping_add32 (slot_seqid s) 1) (poisoned s) ∧ poisoned s = false.
Proof.
  intros Hdec Hc Hop. unfold compound in Hc. destruct (poisoned s) eqn:Hp; [done|].
  destruct (call rpc _ w) as [[r|e] w1] eqn:Hcall; [|done]. injection Hc as -> <- <-.
  unfold call in Hcall. destruct (rpc _ w) as [[r0|?] ?] eqn:Hrpc; [|done].
  destruct (validate_response_ops _ r0) as [[]|] eqn:Hv; [|done]. injection Hcall as -> ->.
  apply Hdec in Hrpc. apply ValidateReplyLemmas.validate_response_ops_iff in Hv; [|done].
  pose proof (ValidateReplyLemmas.reply_ok_stops _ _ Hrpc Hv 0) as H0. simpl in H0.
  unfold CompoundRes.try_op_status in Hop. destruct (Z.leb_spec (CompoundRes.nops res) 1); [done|].
  rewrite H0 by lia. by replace (0 <? CompoundRes.nops res) with true by lia.
Qed.

(** A completed handshake leaves a usable session.  When the three steps
    succeed the session is created and not poisoned, its limits are the
    server's and none of them is zero, its minor version is the one asked for,
    and its next sequence id is 2, RECLAIM_COMPLETE having consumed the first. *)
Theorem connect_established (mv : Z) (co : option bytes) (v : verifier4) (g : bytes)
    (w w' : W) (s : t) :
  rpc_decoded rpc → connect rpc mv co v g w = (Ok s, w') →
  session_created s = true ∧ poisoned s = false ∧ slot_seqid s = 2 ∧ minorversion s = mv ∧
  max_requestsize s ≠ 0 ∧ max_responsesize s ≠ 0 ∧ max_operations s ≠ 0.
Proof.
  intros Hdec. unfold connect.
  destruct (exchange_id rpc (initial mv co) v g w) as [[[[]|e] s1] w1] eqn:H1; [|done].
  apply exchange_id_ok in H1 as (cid & seq & owns & ->).
  destruct (create_session rpc _ w1) as [[[[]|e] s2] w2] eqn:H2; [|done].
  apply create_session_ok in H2 as (sid & a & b & c & -> & Ha & Hb & Hc).
  destruct (reclaim_complete rpc _ w2) as [[[[]|e] s3] w3] eqn:H3; [|done]. intros [= -> ->].
  unfold reclaim_complete in H3. destruct (compound rpc _ _ w2) as [[[res|?] s4] w4] eqn:H4; [|done].
  destruct (CompoundRes.try_op_status res 1) as [st|] eqn:Hst; [|done].
  case_match; [done|]. injection H3 as -> ->.
  destruct (compound_consumed _ _ _ _ _ _ _ Hdec H4 Hst) as [-> _]. done.
Qed.
End Established.

Definition accepting_server (c : Compound.t) (w : unit) : RpcResult COMPOUND4res * unit :=
  match Compound.ops c with
  | [AExchangeId _ _ _] => (Ok (Res 0 1 (Some [RExchangeId 0 77 1 0])), w)
  | [ACreateSession _ _] => (Ok (Res 0 1 (Some [RCreateSession 0 [] 4096 4096 16])), w)
  | _ => (Ok (Res 0 2 (Some [RPlain OP_SEQUENCE 0; RPlain OP_RECLAIM_COMPLETE 0])), w)
  end.

Lemma connect_established_witness :
  ∃ s, connect accepting_server 2 None [] [] tt = (Ok s, tt) ∧ slot_seqid s = 2.
Proof.
  eexists. split; [reflexivity|].
  eapply (connect_established accepting_server 2 None [] [] tt tt); [|reflexivity].
  intros c w res w' Hr. unfold accepting_server in Hr.
  assert (∀ l, l = [RExchangeId 0 77 1 0] ∨ l = [RCreateSession 0 [] 4096 4096 16] ∨
    l = [RPlain OP_SEQUENCE 0; RPlain OP_RECLAIM_COMPLETE 0] → Forall resop_decoded l) as Hl.
  { intros l [->|[->| ->]]; repeat (constructor; [done || by apply (bool_decide_unpack _)|]); constructor. }
  destruct (Compound.ops c) as [|[] [|]]; injection Hr as <- <-;
    (split; [by vm_compute|]); intros ? [= <-]; (split; [done|]); apply Hl; auto.
Defined.
End HandshakeLemmas.
