(* ===== verification/Cursor.v ===== *)
(** * The filehandle cursor of merged path compounds

    Models [CfhCursor] of [crates/vfsi-nfs/src/client.rs]: the client-side
    account of the current and the saved filehandle of a compound under
    construction, which lets the parent directory of one path be reached from
    the parent of the previous one.  The second half gives the filehandle
    semantics of the operations the cursor emits, and proves that a compound
    built with the cursor reaches the same directories as one that resolves
    every path from the root. *)
From stdpp Require Import base list option strings.
From S2P Require Import Prelude Path Compound.

(** ** The cursor *)

(** [path_components]: the non-empty pieces between slashes. *)
Definition path_components (path : bytes) : list bytes :=
  filter (λ component, component ≠ []) (split_on is_slash path).

Module CfhCursor.
Record t := Make { saved_dir : option bytes; at_saved : bool }.

Definition default_cursor : t := Make None false.

(** [saved.zip(target).take_while(==).count()]. *)
Fixpoint common_prefix (saved target : list bytes) : nat :=
  match saved, target with
  | a :: saved, b :: target => if decide (a = b) then S (common_prefix saved target) else 0%nat
  | _, _ => 0%nat
  end.

(** [for comp in comps { c.lookup(comp) }] and [for _ in 0..ups { c.lookupp() }]. *)
Definition lookups (c : Compound.t) (comps : list bytes) : Compound.t := foldl Compound.lookup c comps.
Definition lookupps (c : Compound.t) (ups : nat) : Compound.t := Nat.iter ups Compound.lookupp c.

(** The walk from the root: PUTROOTFH and one LOOKUP per component. *)
Definition root_walk (self : t) (c : Compound.t) (dir : bytes) : nat * t * Compound.t :=
  (S (length (path_components dir)), Make (saved_dir self) false,
   lookups (Compound.putrootfh c) (path_components dir)).

(** [walk_parent]: the operation count, the cursor and the builder. *)
Definition walk_parent (self : t) (c : Compound.t) (dir : bytes) : nat * t * Compound.t :=
  if bool_decide (saved_dir self = Some dir) then
    if at_saved self then (0%nat, self, c)
    else (1%nat, Make (saved_dir self) true, Compound.restorefh c)
  else
    match saved_dir self with
    | None => root_walk self c dir
    | Some saved =>
        let saved_comps := path_components saved in
        let target_comps := path_components dir in
        let common := common_prefix saved_comps target_comps in
        let ups := (length saved_comps - common)%nat in
        let target_count := length target_comps in
        let downs := (target_count - common)%nat in
        if bool_decide (ups + downs < 1 + target_count)%nat then
          let '(ops, c) := if at_saved self then (0%nat, c) else (1%nat, Compound.restorefh c) in
          let c := lookupps c ups in
          let c := lookups c (drop common target_comps) in
          ((ops + ups + length (drop common target_comps))%nat, Make (saved_dir self) false, c)
        else root_walk self c dir
    end.

(** [set_parent]: [None] for a path without a final component. *)
Definition set_parent (self : t) (c : Compound.t) (path : bytes) : option (bytes * nat * t * Compound.t) :=
  '(dir, leaf) ← result_ok (split_path_bytes path);
  let changed := bool_decide (saved_dir self ≠ Some dir) in
  let '(ops, self, c) := walk_parent self c dir in
  if changed then Some (leaf, S ops, Make (Some dir) true, Compound.savefh c)
  else Some (leaf, ops, self, c).

(** [set_current_parent]: moves only the current filehandle. *)
Definition set_current_parent (self : t) (c : Compound.t) (path : bytes)
    : option (bytes * nat * t * Compound.t) :=
  '(dir, leaf) ← result_ok (split_path_bytes path);
  let '(ops, self, c) := walk_parent self c dir in
  Some (leaf, ops, self, c).

Definition set_handle (self : t) (c : Compound.t) (fh : nfs_fh4) : t * Compound.t :=
  (Make (saved_dir self) false, Compound.putfh c fh).

Definition descend (self : t) : t := Make (saved_dir self) false.
End CfhCursor.

(** ** The server's filehandles

    A server resolves names in directories.  [child] is the operation the
    item itself performs at its parent directory (OPEN, LOOKUP, REMOVE ...): the
    filehandle current after it, or [None] when it fails. *)
Record fh_server := FhServer {
  fh_root : nfs_fh4;
  fh_lookup : nfs_fh4 → bytes → option nfs_fh4;
  fh_lookupp : nfs_fh4 → option nfs_fh4;
  fh_is_dir : nfs_fh4 → bool;
  fh_child : nfs_fh4 → bytes → option nfs_fh4;
  fh_rename : nfs_fh4 → bytes → nfs_fh4 → bytes → option nfs_fh4;
}.

(** What the protocol documents of a directory tree: names are only found in
    directories, LOOKUPP in a directory gives the directory it was found in,
    and operations on a name succeed only in a directory. *)
Class FhTree (s : fh_server) : Prop := {
  lookup_in_dir d n x : fh_lookup s d n = Some x → fh_is_dir s d = true;
  lookupp_lookup d n x : fh_lookup s d n = Some x → fh_is_dir s x = true → fh_lookupp s x = Some d;
  child_in_dir d n x : fh_child s d n = Some x → fh_is_dir s d = true;
  rename_in_dirs d n d' n' x : fh_rename s d n d' n' = Some x → fh_is_dir s d = true;
}.

(** The filehandle slots of a running compound. *)
Record fhs := Fhs { cur : option nfs_fh4; sav : option nfs_fh4 }.

Section Semantics.
Context (s : fh_server).

(** The effect of an operation on the slots; [None] when it fails.  The cursor
    emits no other operation. *)
Definition fh_step (m : fhs) (op : argop) : option fhs :=
  match op with
  | APutRootFh => Some (Fhs (Some (fh_root s)) (sav m))
  | APutFh fh => Some (Fhs (Some fh) (sav m))
  | ALookup n => d ← cur m; x ← fh_lookup s d n; Some (Fhs (Some x) (sav m))
  | ALookupp => x ← cur m; d ← fh_lookupp s x; Some (Fhs (Some d) (sav m))
  | ASaveFh => x ← cur m; Some (Fhs (Some x) (Some x))
  | ARestoreFh => x ← sav m; Some (Fhs (Some x) (sav m))
  | _ => None
  end.

Definition fh_run (m : fhs) (ops : list argop) : option fhs := foldl (λ o op, o ≫= λ m, fh_step m op) (Some m) ops.

(** The operations of a walk: they move the current filehandle and nothing else. *)
Definition walks (op : argop) : bool :=
  match op with APutRootFh | ALookup _ | ALookupp | ARestoreFh => true | _ => false end.

(** Resolution of a path from the root. *)
Definition resolve_from (d : option nfs_fh4) (cs : list bytes) : option nfs_fh4 :=
  foldl (λ o n, o ≫= λ d, fh_lookup s d n) d cs.
Definition resolve_dir (dir : bytes) : option nfs_fh4 :=
  resolve_from (Some (fh_root s)) (path_components dir).

(** The items of a merged compound. *)
Inductive item :=
  | IAt (path : bytes)                (* an operation that keeps the current filehandle: REMOVE *)
  | IInto (path : bytes)              (* an operation that moves it to the child: OPEN, LOOKUP *)
  | IHandle (fh : nfs_fh4)            (* an operation on an open file *)
  | IRename (src dst : bytes).        (* RENAME between the parents of two paths *)

(** What the operation of an item is applied to. *)
Inductive target :=
  | TAt (dir : nfs_fh4) (leaf : bytes)
  | THandle (fh : nfs_fh4)
  | TRename (src : nfs_fh4) (sname : bytes) (dst : nfs_fh4) (dname : bytes).

(** The reference: every parent is resolved from the root.  The targets
    operated on up to the first failure. *)
Fixpoint reference_run (items : list item) : list target :=
  let at_parent path rest :=
    match result_ok (split_path_bytes path) with
    | Some (dir, leaf) =>
        match resolve_dir dir with
        | Some d => match fh_child s d leaf with Some _ => TAt d leaf :: rest | None => [] end
        | None => []
        end
    | None => []
    end in
  match items with
  | [] => []
  | IAt path :: items | IInto path :: items => at_parent path (reference_run items)
  | IHandle fh :: items => THandle fh :: reference_run items
  | IRename src dst :: items =>
      match result_ok (split_path_bytes src), result_ok (split_path_bytes dst) with
      | Some (sdir, sname), Some (ddir, dname) =>
          match resolve_dir sdir, resolve_dir ddir with
          | Some sd, Some dd =>
              match fh_rename s sd sname dd dname with
              | Some _ => TRename sd sname dd dname :: reference_run items
              | None => []
              end
          | _, _ => []
          end
      | _, _ => []
      end
  end.

(** The operations the cursor appends for one path, run on the slots. *)
Definition appended (before after : Compound.t) : list argop :=
  drop (length (Compound.ops before)) (Compound.ops after).

(** The same items through the cursor, as the merged builders drive it. *)
Fixpoint cursor_run (items : list item) (self : CfhCursor.t) (c : Compound.t) (m : fhs) : list target :=
  match items with
  | [] => []
  | IAt path :: items =>
      match CfhCursor.set_parent self c path with
      | Some (leaf, _, self', c') =>
          match fh_run m (appended c c') with
          | Some (Fhs (Some d) sv) =>
              match fh_child s d leaf with
              | Some _ => TAt d leaf :: cursor_run items self' c' (Fhs (Some d) sv)
              | None => []
              end
          | _ => []
          end
      | None => []
      end
  | IInto path :: items =>
      match CfhCursor.set_parent self c path with
      | Some (leaf, _, self', c') =>
          match fh_run m (appended c c') with
          | Some (Fhs (Some d) sv) =>
              match fh_child s d leaf with
              | Some x => TAt d leaf :: cursor_run items (CfhCursor.descend self') c' (Fhs (Some x) sv)
              | None => []
              end
          | _ => []
          end
      | None => []
      end
  | IHandle fh :: items =>
      let '(self', c') := CfhCursor.set_handle self c fh in
      match fh_run m (appended c c') with
      | Some (Fhs (Some x) sv) => THandle x :: cursor_run items (CfhCursor.descend self') c' (Fhs (Some x) sv)
      | _ => []
      end
  | IRename src dst :: items =>
      match CfhCursor.set_parent self c src with
      | Some (sname, _, self1, c1) =>
          match CfhCursor.set_current_parent self1 c1 dst with
          | Some (dname, _, self2, c2) =>
              match fh_run m (appended c c2) with
              | Some (Fhs (Some dd) (Some sd)) =>
                  match fh_rename s sd sname dd dname with
                  | Some x => TRename sd sname dd dname :: cursor_run items (CfhCursor.descend self2) c2 (Fhs (Some x) (Some sd))
                  | None => []
                  end
              | _ => []
              end
          | None => []
          end
      | None => []
      end
  end.

(** What the cursor believes of the slots. *)
Definition tracks (self : CfhCursor.t) (m : fhs) : Prop :=
  match CfhCursor.saved_dir self with
  | None => CfhCursor.at_saved self = false
  | Some dir => ∃ d, resolve_dir dir = Some d ∧ fh_is_dir s d = true ∧ sav m = Some d ∧
                     (CfhCursor.at_saved self = true → cur m = Some d)
  end.
End Semantics.

(** ** Lemmas *)

Module CursorLemmas.
Import CfhCursor.

Lemma path_components_comps path : path_components path = comps path.
Proof. reflexivity. Qed.

Lemma ops_lookups c cs : Compound.ops (lookups c cs) = Compound.ops c ++ map ALookup cs.
Proof.
  revert c. induction cs as [|x cs IH]; intros c; cbn; [by rewrite app_nil_r|].
  unfold lookups in IH. rewrite IH. cbn. by rewrite <-app_assoc.
Qed.

Lemma ops_lookupps c n : Compound.ops (lookupps c n) = Compound.ops c ++ replicate n ALookupp.
Proof.
  induction n as [|n IH]; [cbn; by rewrite app_nil_r|].
  change (lookupps c (S n)) with (Compound.lookupp (lookupps c n)).
  rewrite replicate_S_end, app_assoc, <-IH. done.
Qed.

Lemma tag_lookups c cs : Compound.tag_ (lookups c cs) = Compound.tag_ c.
Proof. revert c. induction cs as [|n cs IH]; intros c; [done|]. cbn. by rewrite IH. Qed.
Lemma tag_lookupps c n : Compound.tag_ (lookupps c n) = Compound.tag_ c.
Proof. by induction n. Qed.
Lemma cache_lookups c cs : Compound.size_check c = None → Compound.size_check (lookups c cs) = None.
Proof. revert c. induction cs as [|n cs IH]; intros c Hc; [done|]. cbn. by apply IH. Qed.
Lemma cache_lookupps c n : Compound.size_check c = None → Compound.size_check (lookupps c n) = None.
Proof. by destruct n. Qed.

Lemma common_prefix_spec saved target :
  take (common_prefix saved target) saved = take (common_prefix saved target) target ∧
  (common_prefix saved target <= length saved)%nat ∧ (common_prefix saved target <= length target)%nat.
Proof.
  revert target. induction saved as [|a saved IH]; intros [|b target]; cbn; try (split_and!; [done|lia..]).
  case_decide as Hab; cbn; [|split_and!; [done|lia..]].
  destruct (IH target) as (H1 & H2 & H3). split_and!; [congruence|lia..].
Qed.

Section Walks.
Context (s : fh_server) `{!FhTree s}.

Lemma fh_run_app m a b : fh_run s m (a ++ b) = m' ← fh_run s m a; fh_run s m' b.
Proof.
  unfold fh_run. rewrite foldl_app. destruct (foldl _ (Some m) a) as [m'|]; cbn; [done|].
  induction b; cbn; done.
Qed.

Lemma fh_run_cons m op b : fh_run s m (op :: b) = m' ← fh_step s m op; fh_run s m' b.
Proof. change (op :: b) with ([op] ++ b). by rewrite fh_run_app. Qed.

Lemma resolve_from_None cs : resolve_from s None cs = None.
Proof. induction cs; cbn; done. Qed.

Lemma resolve_from_app d a b : resolve_from s d (a ++ b) = resolve_from s (resolve_from s d a) b.
Proof. unfold resolve_from. by rewrite foldl_app. Qed.

Lemma fh_run_lookups d sv cs :
  fh_run s (Fhs (Some d) sv) (map ALookup cs) =
  fh ← resolve_from s (Some d) cs; Some (Fhs (Some fh) sv).
Proof.
  revert d. induction cs as [|x cs IH]; intros d; [done|].
  cbn [map]. rewrite fh_run_cons. cbn. destruct (fh_lookup s d x) as [y|] eqn:E; cbn.
  - rewrite IH. done.
  - fold (resolve_from s None cs). by rewrite resolve_from_None.
Qed.

(** Climbing as many times as there are components undoes their lookups. *)
Lemma fh_run_lookupps d x sv cs :
  resolve_from s (Some d) cs = Some x → fh_is_dir s x = true →
  fh_run s (Fhs (Some x) sv) (replicate (length cs) ALookupp) = Some (Fhs (Some d) sv) ∧ fh_is_dir s d = true.
Proof.
  revert x. induction cs as [|n cs IH] using rev_ind; intros x Hres Hdir.
  { cbn in *. by simplify_eq. }
  rewrite resolve_from_app in Hres. destruct (resolve_from s (Some d) cs) as [y|] eqn:E; [|done].
  cbn in Hres. rewrite length_app, Nat.add_comm. cbn [length Nat.add replicate].
  rewrite fh_run_cons. cbn. rewrite (lookupp_lookup y n x) by done. cbn.
  apply IH; [done|]. by eapply lookup_in_dir.
Qed.

(** Bringing the saved directory back costs one RESTOREFH at most. *)
Lemma restore_spec self m d : sav m = Some d → (at_saved self = true → cur m = Some d) →
  fh_run s m (if at_saved self then [] else [ARestoreFh]) = Some (Fhs (Some d) (sav m)).
Proof.
  intros Hsav Hcur. destruct (at_saved self); [|cbn; by rewrite Hsav].
  destruct m as [cu sv]. cbn in *. by rewrite Hcur.
Qed.

Definition walk_ok (self : t) (c : Compound.t) (dir : bytes) (m : fhs) (res : nat * t * Compound.t) : Prop :=
  let '(n, self', c') := res in
  ∃ ops, Compound.ops c' = Compound.ops c ++ ops ∧ n = length ops ∧
    (n <= 1 + length (path_components dir))%nat ∧ saved_dir self' = saved_dir self ∧
    (at_saved self' = true ↔ saved_dir self = Some dir) ∧
    fh_run s m ops = fh ← resolve_dir s dir; Some (Fhs (Some fh) (sav m)).

Lemma root_walk_ok self c dir m : saved_dir self ≠ Some dir → walk_ok self c dir m (root_walk self c dir).
Proof.
  intros Hne. exists (APutRootFh :: map ALookup (path_components dir)). split_and!; try done.
  - rewrite ops_lookups. cbn. by rewrite <-app_assoc.
  - cbn [length]. by rewrite length_map.
  - rewrite fh_run_cons. cbn [fh_step mbind option_bind]. apply fh_run_lookups.
Qed.

(** The walk relative to the saved directory. *)
Lemma relative_walk_run saved dir d m self :
  resolve_dir s saved = Some d → fh_is_dir s d = true → sav m = Some d → (at_saved self = true → cur m = Some d) →
  let common := common_prefix (path_components saved) (path_components dir) in
  fh_run s m ((if at_saved self then [] else [ARestoreFh]) ++
     replicate (length (path_components saved) - common) ALookupp ++
     map ALookup (drop common (path_components dir))) =
  fh ← resolve_dir s dir; Some (Fhs (Some fh) (sav m)).
Proof.
  intros Hres Hdir Hsav Hcur common.
  destruct (common_prefix_spec (path_components saved) (path_components dir)) as (Hpre & Hlen & _).
  fold common in Hpre, Hlen. unfold resolve_dir in *.
  rewrite <-(take_drop common (path_components saved)), resolve_from_app, Hpre in Hres.
  destruct (resolve_from s (Some (fh_root s)) (take common (path_components dir))) as [a|] eqn:Ea;
    [|by rewrite resolve_from_None in Hres].
  destruct (fh_run_lookupps a d (sav m) _ Hres Hdir) as [Hups _]. rewrite length_drop in Hups.
  rewrite fh_run_app, (restore_spec _ _ d) by done. cbn [mbind option_bind].
  rewrite fh_run_app, Hups. cbn [mbind option_bind]. rewrite fh_run_lookups.
  rewrite <-(take_drop common (path_components dir)) at 2. by rewrite resolve_from_app, Ea.
Qed.

Lemma walk_parent_ok self c dir m : tracks s self m → walk_ok self c dir m (walk_parent self c dir).
Proof.
  intros Htr. unfold walk_parent, tracks in *. case_bool_decide as Hsame.
  - rewrite Hsame in Htr. destruct Htr as (d & Hres & Hdir & Hsav & Hcur).
    pose proof (restore_spec self m d Hsav Hcur) as Hrun.
    destruct (at_saved self) eqn:Eat; [exists []|exists [ARestoreFh]]; rewrite Hres;
      cbn [saved_dir at_saved]; split_and!; try done; try (cbn; lia).
    by rewrite app_nil_r.
  - destruct (saved_dir self) as [saved|] eqn:Es; [|apply root_walk_ok; congruence].
    destruct Htr as (d & Hres & Hdir & Hsav & Hcur).
    destruct (common_prefix_spec (path_components saved) (path_components dir)) as (_ & Hl1 & Hl2).
    case_bool_decide as Hcheap; [|apply root_walk_ok; congruence].
    pose proof (relative_walk_run saved dir d m self Hres Hdir Hsav Hcur) as Hrun.
    set (common := common_prefix _ _) in *.
    destruct (at_saved self) eqn:Eat; (eexists; split_and!; [| | | | |exact Hrun]); cbn [saved_dir at_saved];
      rewrite ?ops_lookups, ?ops_lookupps, ?length_app, ?length_replicate, ?length_map, ?length_drop; try done;
      try (cbn [length Compound.ops Compound.restorefh Compound.push]; rewrite <-?app_assoc; done || lia);
      by split; intros ?; simplify_eq.
Qed.

Lemma appended_app c c' ops : Compound.ops c' = Compound.ops c ++ ops → appended c c' = ops.
Proof. unfold appended. intros ->. by rewrite drop_app_length. Qed.

Lemma tracks_descend self m x : tracks s self m → tracks s (descend self) (Fhs x (sav m)).
Proof.
  unfold tracks. cbn. destruct (saved_dir self) as [dir|]; [|done].
  intros (d & ? & ? & ? & _). by exists d.
Qed.

Lemma tracks_descend_self self m : tracks s self m → tracks s (Make (saved_dir self) false) m.
Proof. destruct m as [x y]. apply (tracks_descend self (Fhs x y)). Qed.

Lemma tracks_here dir at_saved d :
  resolve_dir s dir = Some d → fh_is_dir s d = true → tracks s (Make (Some dir) at_saved) (Fhs (Some d) (Some d)).
Proof. intros ??. by exists d. Qed.

Lemma set_parent_ok self c path dir leaf m :
  tracks s self m → split_path_bytes path = Ok (dir, leaf) →
  ∃ c' ops, set_parent self c path = Some (leaf, length ops, Make (Some dir) true, c') ∧
    Compound.ops c' = Compound.ops c ++ ops ∧ (length ops <= 2 + length (path_components dir))%nat ∧
    fh_run s m ops = fh ← resolve_dir s dir; Some (Fhs (Some fh) (Some fh)).
Proof.
  intros Htr Hsplit. unfold set_parent. rewrite Hsplit. cbn [result_ok mbind option_bind].
  pose proof (walk_parent_ok self c dir m Htr) as Hw.
  destruct (walk_parent self c dir) as [[n [sd at_]] c'].
  destruct Hw as (ops & Hops & -> & Hlen & Hsd & Hat & Hrun). cbn in Hsd, Hat. subst sd.
  case_bool_decide as Hch.
  - exists (Compound.savefh c'), (ops ++ [ASaveFh]). cbn [Compound.savefh Compound.push Compound.ops].
    rewrite Hops, length_app, Nat.add_comm, fh_run_app, Hrun, app_assoc.
    cbn [length Nat.add]. split_and!; try done; [lia|]. by destruct (resolve_dir s dir).
  - rewrite Hch in Hat |- *. destruct at_; [|naive_solver].
    exists c', ops. split_and!; try done; [lia|]. rewrite Hrun.
    unfold tracks in Htr. rewrite Hch in Htr. destruct Htr as (d & -> & _ & -> & _). done.
Qed.

Lemma set_current_parent_ok self c path dir leaf m :
  tracks s self m → split_path_bytes path = Ok (dir, leaf) →
  ∃ self' c' ops, set_current_parent self c path = Some (leaf, length ops, self', c') ∧
    Compound.ops c' = Compound.ops c ++ ops ∧ saved_dir self' = saved_dir self ∧
    fh_run s m ops = fh ← resolve_dir s dir; Some (Fhs (Some fh) (sav m)).
Proof.
  intros Htr Hsplit. unfold set_current_parent. rewrite Hsplit. cbn [result_ok mbind option_bind].
  pose proof (walk_parent_ok self c dir m Htr) as Hw.
  destruct (walk_parent self c dir) as [[n self'] c'].
  destruct Hw as (ops & Hops & -> & _ & Hsd & _ & Hrun). by exists self', c', ops.
Qed.

(** What a walk appends, whatever the server: operations that only move the
    current filehandle, as many as reported. *)
Lemma walk_parent_shape self c dir :
  ∃ ops, Compound.ops (walk_parent self c dir).2 = Compound.ops c ++ ops ∧ Forall walks ops ∧
    (walk_parent self c dir).1.1 = length ops ∧ (length ops <= 1 + length (path_components dir))%nat ∧
    Compound.tag_ (walk_parent self c dir).2 = Compound.tag_ c ∧
    (Compound.size_check c = None → Compound.size_check (walk_parent self c dir).2 = None) ∧
    saved_dir (walk_parent self c dir).1.2 = saved_dir self ∧
    (saved_dir self = Some dir → at_saved (walk_parent self c dir).1.2 = true).
Proof.
  assert (Hl : ∀ cs, Forall walks (map ALookup cs)) by (intros; by apply Forall_map, Forall_true).
  assert (Hp : ∀ n, Forall walks (replicate n ALookupp)) by (intros; by apply Forall_replicate).
  assert (Hroot : ∃ ops, Compound.ops (root_walk self c dir).2 = Compound.ops c ++ ops ∧ Forall walks ops ∧
    (root_walk self c dir).1.1 = length ops ∧ (length ops <= 1 + length (path_components dir))%nat ∧
    Compound.tag_ (root_walk self c dir).2 = Compound.tag_ c ∧
    (Compound.size_check c = None → Compound.size_check (root_walk self c dir).2 = None) ∧
    saved_dir (root_walk self c dir).1.2 = saved_dir self).
  { exists (APutRootFh :: map ALookup (path_components dir)). cbn [root_walk fst snd]. rewrite ops_lookups, tag_lookups.
    cbn [length]. rewrite length_map. split_and!; try done; [cbn; by rewrite <-app_assoc|by constructor|].
    intros _. by apply cache_lookups. }
  unfold walk_parent. case_bool_decide as Hsame.
  - destruct (at_saved self) eqn:Eat; [exists []|exists [ARestoreFh]]; cbn [fst snd length];
      (split_and!; [by rewrite ?app_nil_r|by repeat constructor|done|lia|done..]).
  - destruct (saved_dir self) as [saved|] eqn:Es; [|naive_solver].
    destruct (common_prefix_spec (path_components saved) (path_components dir)) as (_ & Hl1 & Hl2).
    case_bool_decide as Hcheap; [|naive_solver]. set (common := common_prefix _ _) in *.
    exists ((if at_saved self then [] else [ARestoreFh]) ++ replicate (length (path_components saved) - common) ALookupp ++
      map ALookup (drop common (path_components dir))).
    destruct (at_saved self); cbn [fst snd saved_dir]; rewrite ops_lookups, tag_lookups, ops_lookupps, tag_lookupps;
      rewrite !length_app, length_replicate, length_map, length_drop; cbn [length];
      (split_and!; [cbn; by rewrite <-?app_assoc| |lia|lia|done| |done|congruence]);
      try (intros Hs; by apply cache_lookups, cache_lookupps);
      repeat (apply Forall_app; split); auto; by repeat constructor.
Qed.

Lemma set_parent_shape self c path :
  match result_ok (split_path_bytes path) with
  | None => set_parent self c path = None
  | Some (dir, leaf) =>
      ∃ c' ops, set_parent self c path = Some (leaf, length ops, Make (Some dir) true, c') ∧
        Compound.ops c' = Compound.ops c ++ ops ∧ Forall (λ op, walks op ∨ op = ASaveFh) ops ∧
        (length ops <= 2 + length (path_components dir))%nat ∧ Compound.tag_ c' = Compound.tag_ c ∧
        (Compound.size_check c = None → Compound.size_check c' = None)
  end.
Proof.
  unfold set_parent. destruct (split_path_bytes path) as [[dir leaf]|e]; cbn [result_ok mbind option_bind]; [|done].
  destruct (walk_parent_shape self c dir) as (ops & Hops & Hw & Hn & Hlen & Htag & Hcache & Hsd & Hat).
  destruct (walk_parent self c dir) as [[n [sd at_]] c']. cbn [fst snd saved_dir at_saved] in *. subst n sd.
  assert (Hw' : Forall (λ op, walks op ∨ op = ASaveFh) ops) by (eapply Forall_impl; [exact Hw|by left]).
  case_bool_decide as Hch.
  - exists (Compound.savefh c'), (ops ++ [ASaveFh]). cbn [Compound.savefh Compound.push Compound.ops Compound.tag_ Compound.size_check].
    rewrite Hops, length_app, Nat.add_comm, app_assoc. cbn [length Nat.add]. split_and!; try done; [|lia].
    apply Forall_app. split; [done|]. by repeat constructor; right.
  - exists c', ops. rewrite Hch, Hat by done. split_and!; try done. lia.
Qed.

Lemma set_current_parent_shape self c path :
  match result_ok (split_path_bytes path) with
  | None => set_current_parent self c path = None
  | Some (dir, leaf) =>
      ∃ self' c' ops, set_current_parent self c path = Some (leaf, length ops, self', c') ∧
        Compound.ops c' = Compound.ops c ++ ops ∧ Forall walks ops ∧
        (length ops <= 1 + length (path_components dir))%nat ∧ Compound.tag_ c' = Compound.tag_ c ∧
        (Compound.size_check c = None → Compound.size_check c' = None) ∧ saved_dir self' = saved_dir self
  end.
Proof.
  unfold set_current_parent. destruct (split_path_bytes path) as [[dir leaf]|e]; cbn [result_ok mbind option_bind]; [|done].
  destruct (walk_parent_shape self c dir) as (ops & Hops & Hw & Hn & Hlen & Htag & Hcache & Hsd & _).
  destruct (walk_parent self c dir) as [[n self'] c']. cbn [fst snd] in *. subst n. by exists self', c', ops.
Qed.

Lemma walks_not_save ops : Forall walks ops → Forall (λ op, op ≠ ASaveFh) ops.
Proof. intros H. eapply Forall_impl; [exact H|]. by intros []. Qed.

Lemma fh_run_keeps_saved m m' ops :
  Forall (λ op, op ≠ ASaveFh) ops → fh_run s m ops = Some m' → sav m' = sav m.
Proof.
  intros Hops. revert m. induction Hops as [|op ops Hop _ IH]; intros m; [by intros [= ->]|].
  rewrite fh_run_cons. intros (m1 & Hstep & Hrun)%bind_Some. rewrite (IH m1 Hrun).
  destruct op; try done; cbn in Hstep; repeat (apply bind_Some in Hstep as (? & ? & Hstep)); by simplify_eq.
Qed.

(** One step of the equivalence: positioning on the parent of [path]. *)
Lemma set_parent_step self c path m : tracks s self m →
  match result_ok (split_path_bytes path) with
  | None => set_parent self c path = None
  | Some (dir, leaf) =>
      ∃ n c', set_parent self c path = Some (leaf, n, Make (Some dir) true, c') ∧
        fh_run s m (appended c c') = fh ← resolve_dir s dir; Some (Fhs (Some fh) (Some fh))
  end.
Proof.
  intros Htr. destruct (split_path_bytes path) as [[dir leaf]|e] eqn:Hsplit; cbn [result_ok].
  - destruct (set_parent_ok self c path dir leaf m Htr Hsplit) as (c' & ops & Hset & Hops & _ & Hrun).
    exists (length ops), c'. by rewrite (appended_app _ _ _ Hops).
  - unfold set_parent. by rewrite Hsplit.
Qed.

(** The same for RENAME: the source parent saved, the target parent current. *)
Lemma rename_step self c src dst m sdir sname :
  tracks s self m → split_path_bytes src = Ok (sdir, sname) →
  ∃ n c1, set_parent self c src = Some (sname, n, Make (Some sdir) true, c1) ∧
  match result_ok (split_path_bytes dst) with
  | None => set_current_parent (Make (Some sdir) true) c1 dst = None
  | Some (ddir, dname) =>
      ∃ n' self2 c2, set_current_parent (Make (Some sdir) true) c1 dst = Some (dname, n', self2, c2) ∧
        saved_dir self2 = Some sdir ∧
        match resolve_dir s sdir with
        | None => fh_run s m (appended c c2) = None
        | Some sd =>
            if fh_is_dir s sd
            then fh_run s m (appended c c2) = dd ← resolve_dir s ddir; Some (Fhs (Some dd) (Some sd))
            else ∀ m', fh_run s m (appended c c2) = Some m' → sav m' = Some sd
        end
  end.
Proof.
  intros Htr Hs. destruct (set_parent_ok self c src sdir sname m Htr Hs) as (c1 & ops1 & Hset & Hops1 & _ & Hrun1).
  exists (length ops1), c1. split; [done|].
  destruct (split_path_bytes dst) as [[ddir dname]|e] eqn:Hd; cbn [result_ok];
    [|unfold set_current_parent; by rewrite Hd].
  destruct (walk_parent_shape (Make (Some sdir) true) c1 ddir) as (ops2 & Hops2 & Hsave%walks_not_save & _).
  unfold set_current_parent. rewrite Hd. cbn [result_ok mbind option_bind].
  pose proof (walk_parent_ok (Make (Some sdir) true) c1 ddir) as Hw.
  destruct (walk_parent (Make (Some sdir) true) c1 ddir) as [[n' self2] c2] eqn:Ew. cbn in Hops2.
  exists n', self2, c2. split; [done|].
  assert (Happ : appended c c2 = ops1 ++ ops2).
  { apply appended_app. by rewrite Hops2, Hops1, app_assoc. }
  split.
  { revert Ew. unfold walk_parent, root_walk. repeat case_match; by intros [= <- <- <-]. }
  rewrite Happ, fh_run_app, Hrun1. destruct (resolve_dir s sdir) as [sd|] eqn:Er; cbn [mbind option_bind]; [|done].
  destruct (fh_is_dir s sd) eqn:Ed.
  - destruct (Hw (Fhs (Some sd) (Some sd))) as (ops & Hops & _ & _ & _ & _ & Hrun); [by apply tracks_here|].
    rewrite Hops2 in Hops. by apply app_inv_head in Hops as <-.
  - intros m' Hrun. by apply fh_run_keeps_saved in Hrun.
Qed.

Lemma cursor_run_reference items self c m :
  tracks s self m → cursor_run s items self c m = reference_run s items.
Proof.
  revert self c m. induction items as [|[path|path|fh|src dst] items IH]; intros self c m Htr; cbn [cursor_run reference_run]; [done|..].
  - pose proof (set_parent_step self c path m Htr) as Hstep.
    destruct (result_ok (split_path_bytes path)) as [[dir leaf]|]; [|by rewrite Hstep].
    destruct Hstep as (n & c' & -> & ->). destruct (resolve_dir s dir) as [d|] eqn:Er; cbn [mbind option_bind]; [|done].
    destruct (fh_child s d leaf) as [x|] eqn:Ec; [|done]. f_equal. apply IH.
    apply tracks_here; [done|]. by eapply child_in_dir.
  - pose proof (set_parent_step self c path m Htr) as Hstep.
    destruct (result_ok (split_path_bytes path)) as [[dir leaf]|]; [|by rewrite Hstep].
    destruct Hstep as (n & c' & -> & ->). destruct (resolve_dir s dir) as [d|] eqn:Er; cbn [mbind option_bind]; [|done].
    destruct (fh_child s d leaf) as [x|] eqn:Ec; [|done]. f_equal. apply IH.
    apply (tracks_descend _ (Fhs (Some d) (Some d))), tracks_here; [done|]. by eapply child_in_dir.
  - cbn [set_handle]. rewrite (appended_app _ _ [APutFh fh]) by done. cbn. f_equal. apply IH.
    by apply (tracks_descend (Make _ _) (Fhs None (sav m))), tracks_descend.
  - destruct (split_path_bytes src) as [[sdir sname]|e] eqn:Hs; cbn [result_ok];
      [|by unfold set_parent; rewrite Hs].
    destruct (rename_step self c src dst m sdir sname Htr Hs) as (n & c1 & -> & Hr).
    destruct (result_ok (split_path_bytes dst)) as [[ddir dname]|]; [|by rewrite Hr].
    destruct Hr as (n' & self2 & c2 & -> & Hsd & Hr).
    destruct (resolve_dir s sdir) as [sd|] eqn:Er; [|by rewrite Hr].
    destruct (fh_is_dir s sd) eqn:Ed.
    + rewrite Hr. destruct (resolve_dir s ddir) as [dd|] eqn:Er'; cbn [mbind option_bind]; [|done].
      destruct (fh_rename s sd sname dd dname) as [x|]; [|done]. f_equal. apply IH.
      unfold descend. rewrite Hsd.
      by apply (tracks_descend (Make (Some sdir) true) (Fhs (Some sd) (Some sd))), tracks_here.
    + assert (Hno : ∀ dd, fh_rename s sd sname dd dname = None).
      { intros dd. destruct (fh_rename s sd sname dd dname) eqn:E; [|done]. apply rename_in_dirs in E. congruence. }
      destruct (fh_run s m (appended c c2)) as [[[dd|] sv]|] eqn:Erun; cbn;
        try (specialize (Hr _ eq_refl); cbn in Hr; subst sv);
        rewrite ?Hno; destruct (resolve_dir s ddir); by rewrite ?Hno.
Qed.
End Walks.

(** [set_parent] fails exactly on a path with no component.  Otherwise it
    returns the leaf, appends exactly the number of operations it reports, at
    most two more than the directory has components, and running them brings
    both filehandle slots to the directory resolved from the root, or fails
    when that resolution fails; the cursor describes the slots again. *)
Theorem set_parent_resolves s `{!FhTree s} self c path m : tracks s self m →
  match set_parent self c path with
  | None => comps path = []
  | Some (leaf, n, self', c') =>
      ∃ dir, comps path = comps dir ++ [leaf] ∧
        Compound.ops c' = Compound.ops c ++ appended c c' ∧ n = length (appended c c') ∧
        (n <= 2 + length (path_components dir))%nat ∧
        match resolve_dir s dir with
        | None => fh_run s m (appended c c') = None
        | Some d => fh_run s m (appended c c') = Some (Fhs (Some d) (Some d)) ∧
                    (fh_is_dir s d = true → tracks s self' (Fhs (Some d) (Some d)))
        end
  end.
Proof.
  intros Htr. pose proof (split_path_bytes_spec path) as Hspec.
  destruct (split_path_bytes path) as [[dir leaf]|e] eqn:Hsplit.
  - destruct (set_parent_ok s self c path dir leaf m Htr Hsplit) as (c' & ops & -> & Hops & Hlen & Hrun).
    rewrite (appended_app _ _ _ Hops). exists dir. split_and!; try done; [naive_solver|].
    rewrite Hrun. destruct (resolve_dir s dir) as [d|] eqn:Er; cbn; [|done].
    split; [done|]. intros. by apply tracks_here.
  - unfold set_parent. rewrite Hsplit. cbn. naive_solver.
Qed.

(** C26: A compound built with the cursor is equivalent to one that resolves
    every path from the root: for every sequence of items the same operations
    succeed, on the same directories and names, up to the same first failure. *)
Theorem cursor_equals_root_walks s `{!FhTree s} items c :
  cursor_run s items default_cursor c (Fhs None None) = reference_run s items.
Proof. by apply cursor_run_reference. Qed.

(** A tree whose filehandles are the paths themselves. *)
Definition path_server : fh_server :=
  let lookup d n := if decide (Forall (λ b, is_slash b = false) n) then Some (d ++ Byte.x2f :: n) else None in
  FhServer [] lookup (λ x, i ← rposition is_slash x; Some (take i x)) (λ _, true) lookup
    (λ d n d' n', Some d').

#[global] Instance path_server_tree : FhTree path_server.
Proof.
  split; try done. intros d n x. cbn. case_decide as Hn; [|done]. intros [= <-] _.
  rewrite (rposition_intro is_slash d Byte.x2f n) by done. cbn. by rewrite take_app_length.
Qed.

Definition example_items : list item :=
  [IInto (bstr "/a/b/c/f"); IInto (bstr "/a/b/d/g"); IAt (bstr "/a/b/d/h"); IHandle (bstr "open");
   IRename (bstr "/a/x") (bstr "/a/b/d/y"); IAt (bstr "z/deep/third")].

Lemma set_parent_resolves_witness :
  match set_parent (Make (Some (bstr "a/b/c")) false) Compound.new (bstr "/a/b/d/g") with
  | None => False
  | Some (leaf, n, self', c') =>
      leaf = bstr "g" ∧ n = length (appended Compound.new c') ∧
      appended Compound.new c' = [ARestoreFh; ALookupp; ALookup (bstr "d"); ASaveFh]
  end.
Proof.
  pose proof (set_parent_resolves path_server (Make (Some (bstr "a/b/c")) false) Compound.new (bstr "/a/b/d/g")
    (Fhs (Some (bstr "/a/b/c/f")) (Some (bstr "/a/b/c")))) as H.
  destruct (set_parent _ _ _) as [[[[leaf n] self'] c']|] eqn:E; [|by vm_compute in E].
  destruct H as (dir & _ & _ & Hn & _); [by exists (bstr "/a/b/c")|].
  split; [|split; [exact Hn|]]; vm_compute in E; by injection E as <- <- <- <-.
Defined.

Lemma cursor_equals_root_walks_witness :
  cursor_run path_server example_items default_cursor Compound.new (Fhs None None) =
  [TAt (bstr "/a/b/c") (bstr "f"); TAt (bstr "/a/b/d") (bstr "g"); TAt (bstr "/a/b/d") (bstr "h");
   THandle (bstr "open"); TRename (bstr "/a") (bstr "x") (bstr "/a/b/d") (bstr "y");
   TAt (bstr "/z/deep") (bstr "third")].
Proof. rewrite (cursor_equals_root_walks path_server). vm_compute. reflexivity. Defined.
End CursorLemmas.
