(* ===== verification/Client.v ===== *)
(** * The client: limits, write waves, chunking, clean-up

    Models the stateful core of [crates/vfsi-nfs/src/client.rs]: the negotiated
    operation and byte budgets, the guarded send of a compound, and the helpers
    of merged path I/O: write waves, chunk lengths, selection of the CLOSEs of
    temporary OPENs ([client/path_open_cleanup.rs]). *)
From stdpp Require Import base numbers list list_numbers gmap strings pretty.
From S2P Require Import Prelude Errors Planner Compound Session.

Definition SEQUENCE_XDR_BYTES : Z := 36.
Definition DEFAULT_MAX_COMPOUND_BYTES : Z := Z.shiftl 4 20.
Definition MAX_OP_BYTES : Z := Z.shiftl 64 20.
Definition MAX_COMPOUND_OPS : Z := 256.

(** ** Budgets *)

Module CompoundBudget.
Record t := Make { max_ops : Z }.

Definition batch_capacity (b : t) (ops_per_item : Z) : RpcResult Z :=
  let capacity := sat_sub (max_ops b) 1 / ops_per_item in
  if capacity =? 0 then Err (RpcError.op 0 NFS4ERR_TOO_MANY_OPS) else Ok capacity.

Definition merged_limit (b : t) (reserve min_ops_per_item : Z) : Z :=
  let minimum := sat_add 1 min_ops_per_item in
  if max_ops b <? minimum then 0
  else Z.min (Z.max (sat_sub (max_ops b) reserve) minimum) (max_ops b).

Definition ensure (b : t) (c : Compound.t) : RpcResult unit :=
  if max_ops b <? sat_add (Compound.op_count c) 1
  then Err (RpcError.op 0 NFS4ERR_TOO_MANY_OPS) else Ok tt.
End CompoundBudget.

(** [configured] is [Option<NonZeroUsize>]. *)
Definition effective_request_limit (server : Z) (configured : option Z) : Z :=
  match configured with None => server | Some limit => Z.min limit server end.

Definition response_payload_budget (negotiated : Z) : Z := Z.max (sat_mul negotiated 3 / 4) 1.

Definition checked_offset (base delta op_index : Z) : RpcResult Z :=
  ok_or (checked_add base delta) (RpcError.op op_index NFS4ERR_INVAL).

Definition remove_result_index (op_index item_count : Z) : Z :=
  Z.min (sat_sub op_index 2) (sat_sub item_count 1).

Record CloseOp := Close { cl_fh : nfs_fh4; cl_stateid : stateid4 }.

(** ** The client state *)

Inductive NfsAuth := AuthSys | RpcsecGss.

Module NfsClient.
Record t := Make {
  session : Session.t;
  root : nfs_fh4;
  max_compound_bytes : Z;
  max_response_bytes : Z;
  max_ops : Z;
  compound_limits : AdaptiveCompoundLimits.t;
  server_max_request_bytes : Z;
  configured_max_request_bytes : option Z;
  rpc_envelope_reserve : Z;
  deferred_path_closes : list CloseOp;
  next_public_open_owner_id : Z;
}.

Definition set_session (c : t) (s : Session.t) : t :=
  Make s (root c) (max_compound_bytes c) (max_response_bytes c) (max_ops c) (compound_limits c)
    (server_max_request_bytes c) (configured_max_request_bytes c) (rpc_envelope_reserve c)
    (deferred_path_closes c) (next_public_open_owner_id c).
Definition set_compound_limits (c : t) (l : AdaptiveCompoundLimits.t) : t :=
  Make (session c) (root c) (max_compound_bytes c) (max_response_bytes c) (max_ops c) l
    (server_max_request_bytes c) (configured_max_request_bytes c) (rpc_envelope_reserve c)
    (deferred_path_closes c) (next_public_open_owner_id c).
Definition set_deferred (c : t) (l : list CloseOp) : t :=
  Make (session c) (root c) (max_compound_bytes c) (max_response_bytes c) (max_ops c)
    (compound_limits c) (server_max_request_bytes c) (configured_max_request_bytes c)
    (rpc_envelope_reserve c) l (next_public_open_owner_id c).
Definition set_next_owner (c : t) (id : Z) : t :=
  Make (session c) (root c) (max_compound_bytes c) (max_response_bytes c) (max_ops c)
    (compound_limits c) (server_max_request_bytes c) (configured_max_request_bytes c)
    (rpc_envelope_reserve c) (deferred_path_closes c) id.

Definition set_max_compound_bytes (c : t) (n : Z) : t :=
  let configured := if n =? 0 then None else Some n in
  Make (session c) (root c) (effective_request_limit (server_max_request_bytes c) configured)
    (max_response_bytes c) (max_ops c) (compound_limits c) (server_max_request_bytes c) configured
    (rpc_envelope_reserve c) (deferred_path_closes c) (next_public_open_owner_id c).

(** Byte budgets. *)
Definition max_request_arg_bytes (c : t) : Z :=
  sat_sub (Z.min (max_compound_bytes c) (server_max_request_bytes c)) (rpc_envelope_reserve c).
Definition per_op_bytes (c : t) : Z :=
  Z.min (Z.max (sat_sub (max_request_arg_bytes c) 1024) 1) MAX_OP_BYTES.
Definition read_compound_bytes (c : t) : Z := response_payload_budget (max_response_bytes c).
Definition read_per_op_bytes (c : t) : Z :=
  Z.min (per_op_bytes c) (Z.max (sat_sub (read_compound_bytes c) 256) 1).
Definition readdir_limits (c : t) (operations : Z) : Z * Z :=
  let per_operation := Z.max (read_compound_bytes c / Z.max operations 1) 1 in
  let maxcount := Z.min per_operation U32_MAX in
  (Z.max (maxcount / 4) 1, Z.max maxcount 1).

(** Operation budgets. *)
Definition op_budget_for (c : t) (tag : bytes) (one_item_ops : Z) : CompoundBudget.t :=
  CompoundBudget.Make
    (Z.max (Z.min (AdaptiveCompoundLimits.limit (compound_limits c) tag) (max_ops c))
       (Z.min one_item_ops (max_ops c))).
Definition remove_batch_capacity (c : t) : Z :=
  Z.max (sat_sub (CompoundBudget.max_ops (op_budget_for c (bstr "removev") 3)) 2) 1.
Definition lookup_batch_capacity (c : t) : Z :=
  Z.max (sat_sub (CompoundBudget.max_ops (op_budget_for c (bstr "lookupv") 4)) 1 / 3) 1.

Definition can_retry_merged_resource (c : t) (tag : bytes) (reply : COMPOUND4res)
    (old_budget reserve per_item : Z) : bool :=
  resource_rejected_before_mutation reply &&
  (CompoundBudget.merged_limit (op_budget_for c tag (1 + per_item)) reserve per_item <? old_budget).
Definition can_retry_read_only_merged_resource (c : t) (tag : bytes) (reply : COMPOUND4res)
    (old_budget reserve per_item : Z) : bool :=
  ((CompoundRes.status reply =? NFS4ERR_RESOURCE) || (CompoundRes.status reply =? NFS4ERR_TOO_MANY_OPS)) &&
  (CompoundBudget.merged_limit (op_budget_for c tag (1 + per_item)) reserve per_item <? old_budget).

(** The name of a fresh public open owner: the session's owner name, a dash and
    the decimal counter. *)
Definition next_public_open_owner_name (c : t) : bytes * t :=
  let id := next_public_open_owner_id c in
  (ow_name (Session.open_owner (session c)) ++ bstr "-" ++ bstr (pretty id),
   set_next_owner c (wrapping_add64 id 1)).

Definition prepare_reconnect (c previous : t) : t :=
  set_next_owner c (next_public_open_owner_id previous).

Definition abandon (c : t) : t := set_session c (Session.abandon (session c)).

Section Transport.
Context {W : Type} (rpc : Compound.t → W → RpcResult COMPOUND4res * W).
(** The length of the XDR encoding of a request. *)
Context (xdr_len : Compound.t → Z).

(** [compound_request_fits]; the preflight always answers
    ([encoded_len_spec]), so the [None] branch is not taken. *)
Definition compound_request_fits (c : t) (compound : Compound.t) : bool * Compound.t :=
  let arg_limit := sat_sub (max_request_arg_bytes c) SEQUENCE_XDR_BYTES in
  match encoded_len_up_to xdr_len compound arg_limit with
  | Some (Some _, compound) => (true, compound)
  | Some (None, compound) => (false, compound)
  | None => (false, compound)
  end.

Definition merged_paths_need_repack (c : t) (tag : bytes) (one_item_ops : Z) (compound : Compound.t)
    (items : Z) : bool * Compound.t :=
  if items <=? 1 then (false, compound)
  else if CompoundBudget.max_ops (op_budget_for c tag one_item_ops) <? sat_add (Compound.op_count compound) 1
  then (true, compound)
  else let '(fits, compound) := compound_request_fits c compound in (negb fits, compound).

(** The guarded send. *)
Definition call_compound (c : t) (compound : Compound.t) (w : W) : RpcResult COMPOUND4res * t * W :=
  match CompoundBudget.ensure (CompoundBudget.Make (max_ops c)) compound with
  | Err e => (Err e, c, w)
  | Ok _ =>
      let '(fits, compound) := compound_request_fits c compound in
      if negb fits then (Err (RpcError.op 0 NFS4ERR_REQ_TOO_BIG), c, w)
      else
        let sent_ops := sat_add (Compound.op_count compound) 1 in
        let '(r, s, w) := Session.compound rpc (session c) compound w in
        let c := set_session c s in
        match r with
        | Err e => (Err e, c, w)
        | Ok reply =>
            let limits := AdaptiveCompoundLimits.observe (compound_limits c) (Compound.tag_bytes compound)
                            sent_ops (CompoundRes.status reply) (CompoundRes.nops reply) in
            (Ok reply, set_compound_limits c limits, w)
        end
  end.

Definition ambiguous_message (m : string) : string :=
  "ambiguous outcome for mutating compound; request was not retried: " +:+ m.

Definition call_compound_with_safety (c : t) (compound : Compound.t) (safety : RequestSafety) (w : W)
    : RpcResult COMPOUND4res * t * W :=
  let '(r, c, w) := call_compound c compound w in
  (map_err (λ error,
     if RpcError.is_transport error &&
        bool_decide (recovery_action safety (Transport false) false = Ambiguous)
     then RpcError.Make (RpcError.op_index error) (RpcError.status error)
            (ambiguous_message (RpcError.message error)) (RpcError.transport_kind error)
     else error) r, c, w).
End Transport.
End NfsClient.

(** ** Write waves *)

(** [Range<u64>] as its start and end. *)
Definition range_is_empty (r : Z * Z) : bool := r.2 <=? r.1.

Module WriteWaveAccess.
Record t := Make { positional : bool; first : Z * Z; additional : gmap Z Z }.

Definition new (range : Z * Z) (positional : bool) : t := Make positional range ∅.

(** [additional.range(..bound).next_back()]: the entry with the largest key
    below [bound]. *)
Definition predecessor (m : gmap Z Z) (bound : Z) : option (Z * Z) :=
  foldr (λ kv acc,
    if kv.1 <? bound then
      match acc with
      | Some best => if best.1 <? kv.1 then Some kv else acc
      | None => Some kv
      end
    else acc) None (map_to_list m).

(** Whether the write joins the wave, and the wave with it. *)
Definition admit_ (self : t) (range : Z * Z) (pos : bool) : bool * t :=
  if negb (positional self) || negb pos then (false, self)
  else if range_is_empty range then (true, self)
  else if negb (range_is_empty (first self)) && (range.1 <? (first self).2) && ((first self).1 <? range.2)
  then (false, self)
  else if from_option (λ kv : Z * Z, range.1 <? kv.2) false (predecessor (additional self) range.2)
  then (false, self)
  else (true, Make (positional self) (first self) (<[range.1 := range.2]> (additional self))).
End WriteWaveAccess.

(** ** Chunks of one transfer *)

(** [(start..end).step_by(per)] has [ceil((end - start) / per)] elements. *)
Definition div_ceil (a b : Z) : Z := (a + b - 1) / b.

Definition chunk_lens (start end_ per : Z) : list Z :=
  (λ i, Z.min (end_ - (start + i * per)) per) <$> seqZ 0 (div_ceil (end_ - start) per).

Definition path_io_chunk_end (start total per_op room available_ops : Z) (allow_first : bool) : option Z :=
  let remaining := sat_sub total start in
  let chunks_total := Z.max (div_ceil remaining per_op) 1 in
  let per_chunk := Z.max (Z.min per_op remaining) 1 in
  let by_bytes := if per_chunk <=? room then Z.max (room / per_chunk) 1 else 0 in
  let take := Z.min (Z.min chunks_total available_ops) by_bytes in
  if (take =? 0) && negb allow_first then None
  else
    let take := if take =? 0 then 1 else take in
    let end_ := Z.min (start + take * per_op) total in
    if (end_ =? start) && (0 <? remaining) then None else Some end_.

(** ** Closing temporary OPENs *)

(** The backward scan of [latest_path_open_closes]; [seen] is the hash set. *)
Fixpoint scan_closes (opens : list (nfs_fh4 * stateid4)) (seen : gset nfs_fh4) : list CloseOp :=
  match opens with
  | [] => []
  | (fh, stateid) :: rest =>
      if bool_decide (fh ∈ seen) then scan_closes rest seen
      else Close fh stateid :: scan_closes rest ({[ fh ]} ∪ seen)
  end.

Definition latest_path_open_closes (opens : list (nfs_fh4 * stateid4)) : list CloseOp :=
  match opens with
  | [(fh, stateid)] => [Close fh stateid]
  | _ => reverse (scan_closes (reverse opens) ∅)
  end.

(** ** Classification of batches *)

Definition batch_is_read_only (tag : bytes) : bool :=
  bool_decide (tag ∈ [bstr "getattrv"; bstr "vstatfs_impl"; bstr "readlinkv"; bstr "readv"]).

Definition batch_resource_progress (tag : bytes) (per_op status : Z) (failed_op : option Z) : option Z :=
  if batch_is_read_only tag && ((status =? NFS4ERR_RESOURCE) || (status =? NFS4ERR_TOO_MANY_OPS))
  then Some (sat_sub (default 0 failed_op) 1 / per_op) else None.

Definition remap_cleanup_error (error : RpcError.t) (cleanup_indices : list Z) : RpcError.t :=
  if RpcError.is_transport error then error
  else let op_index := RpcError.op_index error in
       RpcError.with_op_index error (default op_index (cleanup_indices !! Z.to_nat op_index)).

(** [Display] of a malformed reply. *)
Definition display_malformed (e : MalformedReply) : string :=
  match e with
  | MissingSequence => "response omitted SEQUENCE"
  | TruncatedItem caller expected_end actual =>
      "response truncated caller item " +:+ pretty caller +:+ ": expected through op "
        +:+ pretty expected_end +:+ ", got " +:+ pretty actual +:+ " ops"
  | OperationsAfterFailure failed_op actual =>
      "response contains operations after failed op " +:+ pretty failed_op +:+ " ("
        +:+ pretty actual +:+ " total ops)"
  | StatusMismatch compound operation =>
      "compound status " +:+ pretty compound +:+ " does not match failing operation status "
        +:+ pretty operation
  end.

Definition first_failed_range (res : COMPOUND4res) (map : ExecutionMap.t) : RpcResult (option (Z * Z)) :=
  match ExecutionMap.analyze map res with
  | Err error => invalid_reply (malformed (display_malformed error))
  | Ok report =>
      match compound_failure report with
      | Some status => Err (RpcError.op 0 status)
      | None => Ok ((λ f, (if_caller f, if_status f)) <$> failure report)
      end
  end.

(** ** Lemmas on budgets *)

Module BudgetsLemmas.
Import CompoundBudget.

(** The operation budgets are tight.  A batch capacity is the largest
    positive number of items whose operations fit beside SEQUENCE, and there is
    an error exactly when not even one fits; the limit of a merged builder never
    exceeds the negotiated maximum, and leaves room for one minimal item whenever
    the maximum does; [ensure] accepts exactly the compounds that fit beside
    SEQUENCE. *)
Theorem budget_tight (b : t) (per reserve : Z) (c : Compound.t) :
  0 <= max_ops b <= USIZE_MAX → 0 < per < USIZE_MAX → Compound.op_count c < USIZE_MAX →
  match batch_capacity b per with
  | Ok n => 1 <= n ∧ 1 + n * per <= max_ops b < 1 + (n + 1) * per
  | Err e => max_ops b < 1 + per ∧ RpcError.status e = NFS4ERR_TOO_MANY_OPS
  end ∧
  merged_limit b reserve per <= max_ops b ∧
  (if 1 + per <=? max_ops b then 1 + per <= merged_limit b reserve per else merged_limit b reserve per = 0) ∧
  (ensure b c = Ok tt ↔ Compound.op_count c + 1 <= max_ops b).
Proof.
  intros Hm Hp Hc. assert (0 <= Compound.op_count c) by (unfold Compound.op_count; lia). split.
  { unfold batch_capacity. set (q := sat_sub (max_ops b) 1 / per).
    pose proof (Z.div_mod (sat_sub (max_ops b) 1) per ltac:(lia)).
    pose proof (Z.mod_pos_bound (sat_sub (max_ops b) 1) per ltac:(lia)).
    assert (0 <= q) by (apply Z.div_pos; unfold sat_sub; lia). fold q in H0. unfold sat_sub in *.
    destruct (Z.eqb_spec q 0); [split; [nia|done]|]. nia. }
  unfold merged_limit, ensure, sat_add, sat_sub, USIZE_MAX in *.
  split; [case_match; lia|]. split; [repeat case_match; lia|]. case_match; (split; [lia || done|]); lia || done.
Qed.

Lemma budget_tight_witness :
  batch_capacity (Make 16) 3 = Ok 5 ∧ 1 + 5 * 3 <= 16 < 1 + (5 + 1) * 3.
Proof.
  destruct (budget_tight (Make 16) 3 4 Compound.new) as [H _]; [by vm_compute|by vm_compute|by vm_compute|].
  split; [reflexivity|]. apply H.
Defined.
End BudgetsLemmas.

(** ** Write waves: equivalence with the pairwise check *)

Module WaveLemmas.
Import WriteWaveAccess.

Definition overlap (a b : Z * Z) : bool :=
  negb (range_is_empty a) && negb (range_is_empty b) && (a.1 <? b.2) && (b.1 <? a.2).

(** The reference: compare with every range admitted so far. *)
Fixpoint pairwise_run (pos : bool) (admitted : list (Z * Z)) (reqs : list (Z * Z * bool)) : list bool :=
  match reqs with
  | [] => []
  | (r, p) :: reqs =>
      if pos && p && forallb (λ a, negb (overlap a r)) admitted
      then true :: pairwise_run pos (r :: admitted) reqs
      else false :: pairwise_run pos admitted reqs
  end.

Fixpoint admit_run (w : t) (reqs : list (Z * Z * bool)) : list bool :=
  match reqs with
  | [] => []
  | (r, p) :: reqs => let '(ok, w) := admit_ w r p in ok :: admit_run w reqs
  end.

Lemma predecessor_spec m bound :
  match predecessor m bound with
  | Some (k, v) => m !! k = Some v ∧ k < bound ∧ ∀ k' v', m !! k' = Some v' → k' < bound → k' <= k
  | None => ∀ k v, m !! k = Some v → bound <= k
  end.
Proof.
  unfold predecessor.
  assert (H : ∀ l, match foldr (λ kv acc, if (kv : Z * Z).1 <? bound then
      match acc with Some best => if (best : Z * Z).1 <? kv.1 then Some kv else acc | None => Some kv end
      else acc) None l with
    | Some (k, v) => (k, v) ∈ l ∧ k < bound ∧ ∀ k' v', (k', v') ∈ l → k' < bound → k' <= k
    | None => ∀ k v, (k, v) ∈ l → bound <= k
    end).
  { induction l as [|[k v] l IH]; cbn [foldr fst]; [by intros ?? ?%elem_of_nil|].
    destruct (foldr _ None l) as [[bk bv]|]; destruct (Z.ltb_spec k bound).
    - destruct IH as (Hin & Hlt & Hmax). cbn [fst]. destruct (Z.ltb_spec bk k).
      + split; [left|split; [done|]]. intros k' v' [[= -> ->]|Hin']%elem_of_cons ?; [lia|].
        pose proof (Hmax _ _ Hin'). lia.
      + split; [by right|split; [done|]]. intros k' v' [[= -> ->]|Hin']%elem_of_cons ?; [lia|eauto].
    - destruct IH as (Hin & Hlt & Hmax). split; [by right|split; [done|]].
      intros k' v' [[= -> ->]|Hin']%elem_of_cons ?; [lia|eauto].
    - split; [left|split; [done|]]. intros k' v' [[= -> ->]|Hin']%elem_of_cons ?; [lia|].
      pose proof (IH _ _ Hin'). lia.
    - intros k' v' [[= -> ->]|Hin']%elem_of_cons; [done|eauto]. }
  specialize (H (map_to_list m)). destruct (foldr _ None _) as [[k v]|].
  - destruct H as (Hin & Hlt & Hmax). split; [by apply elem_of_map_to_list|]. split; [done|].
    intros k' v' Hk'. by apply (Hmax k' v'), elem_of_map_to_list.
  - intros k v Hk. by apply (H k v), elem_of_map_to_list.
Qed.

(** The index holds the non-empty ranges admitted after the first, and they are
    disjoint. *)
Record represents (w : t) (admitted : list (Z * Z)) : Prop := {
  rep_first : first w ∈ admitted;
  rep_in k v : additional w !! k = Some v → (k, v) ∈ admitted ∧ k < v;
  rep_out r : r ∈ admitted → range_is_empty r = true ∨ r = first w ∨ additional w !! r.1 = Some r.2;
  rep_disjoint k v k' v' : additional w !! k = Some v → additional w !! k' = Some v' → k < k' → v <= k';
}.

(** Only the predecessor of the end of a range can overlap it. *)
Lemma predecessor_decides w admitted r : represents w admitted → range_is_empty r = false →
  from_option (λ kv : Z * Z, r.1 <? kv.2) false (predecessor (additional w) r.2) = true ↔
  ∃ k v, additional w !! k = Some v ∧ overlap (k, v) r = true.
Proof.
  intros Hrep Hne. pose proof (predecessor_spec (additional w) r.2) as Hpred.
  unfold overlap, range_is_empty in *. destruct r as [a b]. cbn [fst snd] in *.
  destruct (predecessor _ _) as [[pk pv]|]; cbn [from_option snd].
  - destruct Hpred as (Hp & Hlt & Hmax). destruct (rep_in _ _ Hrep pk pv Hp) as [_ Hpne]. split.
    + intros Ha. exists pk, pv. split; [done|]. cbn. lia.
    + intros (k & v & Hk & Hov). cbn in Hov. pose proof (rep_in _ _ Hrep k v Hk) as [_ Hkv].
      assert (k <= pk) by (eapply Hmax; [done|lia]).
      destruct (decide (k = pk)) as [->|]; [simplify_eq; lia|].
      pose proof (rep_disjoint _ _ Hrep k v pk pv Hk Hp ltac:(lia)). lia.
  - split; [done|]. intros (k & v & Hk & Hov). cbn in Hov. pose proof (Hpred k v Hk). lia.
Qed.

Lemma represents_new r pos : represents (new r pos) [r].
Proof.
  split; cbn; [by left|done| |done]. intros r' ->%list_elem_of_singleton. auto.
Qed.

Lemma forallb_overlap admitted r :
  forallb (λ a, negb (overlap a r)) admitted = true ↔ ∀ a, a ∈ admitted → overlap a r = false.
Proof.
  rewrite forallb_forall. split; intros H a Ha.
  - apply negb_true_iff, H, list_elem_of_In, Ha.
  - apply negb_true_iff, H, list_elem_of_In, Ha.
Qed.

(** Admitting a range that overlaps nothing keeps the index disjoint. *)
Lemma represents_insert w admitted r : represents w admitted → range_is_empty r = false →
  (∀ a, a ∈ admitted → overlap a r = false) →
  represents (Make (positional w) (first w) (<[r.1 := r.2]> (additional w))) (r :: admitted).
Proof.
  intros Hrep Hne Hno. destruct r as [a b]. unfold range_is_empty in Hne. cbn [fst snd] in *.
  assert (Hfree : ∀ k v, additional w !! k = Some v → v <= a ∨ b <= k).
  { intros k v Hk. destruct (rep_in _ _ Hrep k v Hk) as [Hin Hkv]. specialize (Hno _ Hin).
    unfold overlap, range_is_empty in Hno. cbn in Hno. lia. }
  split; cbn [first additional positional].
  - right. apply (rep_first _ _ Hrep).
  - intros k v [[<- <-]|[? Hk]]%lookup_insert_Some; [split; [left|lia]|].
    destruct (rep_in _ _ Hrep k v Hk). split; [by right|done].
  - intros r' [->|Hr']%elem_of_cons; [right; right; apply lookup_insert_eq|].
    destruct (rep_out _ _ Hrep r' Hr') as [?|[?|Hk]]; [by left|by right; left|right; right].
    rewrite lookup_insert_ne; [done|]. intros ->. pose proof (Hfree _ _ Hk).
    destruct (rep_in _ _ Hrep _ _ Hk). lia.
  - intros k v k' v' [[<- <-]|[? Hk]]%lookup_insert_Some [[<- <-]|[? Hk']]%lookup_insert_Some Hlt; try lia.
    + pose proof (Hfree _ _ Hk'). destruct (rep_in _ _ Hrep _ _ Hk'). lia.
    + pose proof (Hfree _ _ Hk). lia.
    + by eapply (rep_disjoint _ _ Hrep).
Qed.

(** One admission agrees with the pairwise check. *)
Lemma admit_pairwise w admitted r p : represents w admitted →
  let ok := positional w && p && forallb (λ a, negb (overlap a r)) admitted in
  (admit_ w r p).1 = ok ∧ positional (admit_ w r p).2 = positional w ∧
  represents (admit_ w r p).2 (if ok then r :: admitted else admitted).
Proof.
  intros Hrep. unfold admit_. destruct (positional w) eqn:Ep, p; cbn [negb orb andb]; try (split_and!; done).
  destruct (range_is_empty r) eqn:Ee.
  { assert (forallb (λ a, negb (overlap a r)) admitted = true) as ->.
    { apply forallb_overlap. intros a _. unfold overlap. rewrite Ee. by rewrite andb_false_r. }
    split_and!; [done..|]. destruct Hrep as [H1 H2 H3 H4]. split; [by right| | |done].
    - intros k v Hk. destruct (H2 k v Hk). split; [by right|done].
    - intros r' [->|Hr']%elem_of_cons; [by left|eauto]. }
  destruct (negb (range_is_empty (first w)) && _ && _) eqn:Ef.
  { assert (forallb (λ a, negb (overlap a r)) admitted = false) as ->; [|done].
    apply not_true_iff_false. intros Hall. pose proof (proj1 (forallb_overlap _ _) Hall _ (rep_first _ _ Hrep)) as Hn.
    unfold overlap in Hn. rewrite Ee in Hn. by destruct (range_is_empty (first w)), (r.1 <? _), (_ <? r.2). }
  pose proof (predecessor_decides w admitted r Hrep Ee) as Hd.
  destruct (from_option _ false _) eqn:Eo.
  { assert (forallb (λ a, negb (overlap a r)) admitted = false) as ->; [|done].
    destruct (proj1 Hd eq_refl) as (k & v & Hk & Hov). apply not_true_iff_false. intros Hall.
    rewrite (proj1 (forallb_overlap _ _) Hall (k, v)) in Hov; [done|]. by apply (rep_in _ _ Hrep). }
  assert (Hno : ∀ a, a ∈ admitted → overlap a r = false).
  { intros a Ha. apply not_true_iff_false. intros Hov.
    destruct (rep_out _ _ Hrep a Ha) as [Hempty|[->|Hk]].
    - unfold overlap in Hov. by rewrite Hempty in Hov.
    - unfold overlap in Hov. rewrite Ee in Hov. by destruct (range_is_empty (first w)), (r.1 <? _), (_ <? r.2).
    - enough (false = true) by done. apply Hd. exists a.1, a.2. split; [done|]. by destruct a. }
  rewrite (proj2 (forallb_overlap _ _) Hno). split_and!; [done..|].
  pose proof (represents_insert w admitted r Hrep Ee Hno) as Hi. by rewrite Ep in Hi.
Qed.

(** The write-wave index decides exactly like comparing each write with
    every write already admitted: for every sequence of ranges, empty ones and
    decreasing offsets included, a write joins the wave if and only if both it
    and the wave are positional and it overlaps no admitted write. *)
Theorem wave_equals_pairwise (r : Z * Z) (pos : bool) (reqs : list (Z * Z * bool)) :
  admit_run (new r pos) reqs = pairwise_run pos [r] reqs.
Proof.
  assert (H : ∀ w admitted, represents w admitted → positional w = pos →
    admit_run w reqs = pairwise_run pos admitted reqs); [|by apply H, eq_refl; apply represents_new].
  induction reqs as [|[r' p] reqs IH]; intros w admitted Hrep <-; cbn [admit_run pairwise_run]; [done|].
  destruct (admit_pairwise w admitted r' p Hrep) as (Hok & Hpos & Hrep').
  destruct (admit_ w r' p) as [ok w']. cbn in Hok, Hpos, Hrep'. rewrite <-Hok in *.
  destruct ok; f_equal; by apply IH.
Qed.
End WaveLemmas.

(** ** Chunks: theorems *)

Module ChunkLemmas.

Definition total_len (lens : list Z) : Z := foldr Z.add 0 lens.

Lemma div_ceil_step n per : 0 < per → div_ceil n per = 1 + div_ceil (n - per) per.
Proof.
  intros. unfold div_ceil. replace (n + per - 1) with (n - per + per - 1 + 1 * per) by lia.
  rewrite Z.div_add by lia. lia.
Qed.

Lemma div_ceil_bounds n per : 0 < per → (div_ceil n per - 1) * per < n <= div_ceil n per * per.
Proof.
  intros. unfold div_ceil. pose proof (Z.div_mod (n + per - 1) per ltac:(lia)).
  pose proof (Z.mod_pos_bound (n + per - 1) per ltac:(lia)). nia.
Qed.

Lemma chunk_lens_nil start end_ per : 0 < per → end_ <= start → chunk_lens start end_ per = [].
Proof.
  intros. unfold chunk_lens. pose proof (div_ceil_bounds (end_ - start) per ltac:(lia)).
  rewrite seqZ_nil; [done|]. nia.
Qed.

Lemma chunk_lens_cons start end_ per : 0 < per → start < end_ →
  chunk_lens start end_ per = Z.min (end_ - start) per :: chunk_lens (start + per) end_ per.
Proof.
  intros Hp Hlt. unfold chunk_lens. pose proof (div_ceil_bounds (end_ - start) per Hp).
  rewrite seqZ_cons by nia. rewrite fmap_cons. f_equal; [f_equal; lia|].
  replace (Z.succ 0) with (1 + 0) by lia.
  rewrite <-fmap_add_seqZ, <-list_fmap_compose, (div_ceil_step (end_ - start)) by done.
  replace (end_ - start - per) with (end_ - (start + per)) by lia.
  replace (Z.pred (1 + div_ceil (end_ - (start + per)) per)) with (div_ceil (end_ - (start + per)) per) by lia.
  apply list_fmap_ext. intros i x _. cbn. f_equal. lia.
Qed.

Lemma chunk_lens_spec start end_ per : 0 < per → start <= end_ →
  total_len (chunk_lens start end_ per) = end_ - start ∧
  Forall (λ l, 0 < l <= per) (chunk_lens start end_ per) ∧
  Z.of_nat (length (chunk_lens start end_ per)) = div_ceil (end_ - start) per.
Proof.
  intros Hp Hle. split.
  - remember (Z.to_nat (end_ - start)) as n eqn:Hn. revert start Hle Hn.
    induction n as [n IH] using lt_wf_ind. intros start Hle Hn.
    destruct (decide (start < end_)).
    + rewrite chunk_lens_cons by lia. cbn [total_len foldr]. fold (total_len (chunk_lens (start + per) end_ per)).
      destruct (decide (start + per <= end_)); [rewrite (IH (Z.to_nat (end_ - (start + per)))); lia|].
      rewrite chunk_lens_nil by lia. cbn. lia.
    + rewrite chunk_lens_nil by lia. cbn. lia.
  - unfold chunk_lens. pose proof (div_ceil_bounds (end_ - start) per Hp). split.
    + apply Forall_fmap, Forall_forall. intros i Hi%elem_of_seqZ. cbn. nia.
    + rewrite length_fmap, length_seqZ. nia.
Qed.

(** A number of operations bounds the span they cover, in operations and in bytes. *)
Lemma span_fits tk per rem room : 1 <= tk → 0 < per → 0 <= rem → tk * Z.max (Z.min per rem) 1 <= room →
  div_ceil (Z.min (tk * per) rem) per <= tk ∧ Z.min (tk * per) rem <= room.
Proof.
  intros Ht Hp Hr Hroom. split.
  - pose proof (div_ceil_bounds (Z.min (tk * per) rem) per Hp). nia.
  - destruct (Z.le_gt_cases per rem).
    + rewrite (Z.min_l per rem), Z.max_l in Hroom by lia. lia.
    + rewrite (Z.min_r per rem) in Hroom by lia. nia.
Qed.

(** The byte budget in chunks. *)
Lemma by_bytes_spec room pc : 0 <= room → 1 <= pc →
  let bb := if pc <=? room then Z.max (room / pc) 1 else 0 in
  0 <= bb ∧ bb * pc <= room ∧ (bb = 0 ↔ room < pc).
Proof.
  intros Hr Hpc bb. unfold bb. destruct (Z.leb_spec pc room); [|lia].
  pose proof (Z.mul_div_le room pc ltac:(lia)). pose proof (Z.div_le_lower_bound room pc 1 ltac:(lia) ltac:(lia)).
  rewrite Z.max_l by lia. lia.
Qed.

Lemma chunk_end_spec (start total per_op room available_ops : Z) (allow_first : bool) :
  0 < per_op → 0 <= start <= total → 0 <= room → 0 <= available_ops →
  match path_io_chunk_end start total per_op room available_ops allow_first with
  | None => allow_first = false ∧
            (available_ops = 0 ∨ room < Z.max 1 (Z.min per_op (total - start)))
  | Some end_ =>
      let lens := chunk_lens start end_ per_op in
      start <= end_ <= total ∧ (start < total → start < end_) ∧
      total_len lens = end_ - start ∧ Forall (λ l, 0 < l <= per_op) lens ∧
      (Z.of_nat (length lens) <= available_ops ∧ end_ - start <= room ∨
       allow_first = true ∧ (length lens <= 1)%nat)
  end.
Proof.
  intros Hp Hs Hr Ha. unfold path_io_chunk_end.
  replace (sat_sub total start) with (total - start) by (unfold sat_sub; lia).
  set (rem := total - start). assert (0 <= rem) by lia.
  destruct (by_bytes_spec room (Z.max (Z.min per_op rem) 1)) as (Hb0 & Hb1 & Hb2); [lia..|].
  set (bb := if _ <=? room then _ else 0) in *. clearbody bb.
  set (tk := Z.min (Z.min (Z.max (div_ceil rem per_op) 1) available_ops) bb).
  assert (Hend : ∀ k, 1 <= k →
    let end_ := Z.min (start + k * per_op) total in
    (end_ =? start) && (0 <? rem) = false ∧ end_ - start = Z.min (k * per_op) rem ∧
    start <= end_ <= total ∧ (start < total → start < end_)).
  { intros k Hk end_. assert (0 < k * per_op) by nia. unfold end_, rem. split; lia. }
  destruct (Z.eqb_spec tk 0) as [H0|H0]; cbn [andb].
  - destruct allow_first; cbn [negb]; [|split; [done|]; unfold tk in *; lia].
    destruct (Hend 1) as (-> & Hspan & Hrange & Hprog); [lia|].
    destruct (chunk_lens_spec start (Z.min (start + 1 * per_op) total) per_op) as (H1 & H2 & H3); [lia..|].
    split_and!; [apply Hrange..|done|done|done|]. right. split; [done|].
    destruct (span_fits 1 per_op rem (1 * Z.max (Z.min per_op rem) 1)) as [Hc _]; [lia..|].
    rewrite Hspan in H3. lia.
  - assert (1 <= tk ∧ tk <= available_ops ∧ tk <= bb) as (Ht1 & Ht2 & Ht3) by (unfold tk in *; lia).
    clearbody tk. destruct (Hend tk Ht1) as (-> & Hspan & Hrange & Hprog).
    destruct (chunk_lens_spec start (Z.min (start + tk * per_op) total) per_op) as (H1 & H2 & H3); [lia..|].
    split_and!; [apply Hrange..|done|done|done|]. left.
    destruct (span_fits tk per_op rem room) as [Hc Hroom]; [lia..| |].
    { transitivity (bb * Z.max (Z.min per_op rem) 1); [|done]. apply Z.mul_le_mono_nonneg_r; lia. }
    rewrite Hspan in *. lia.
Qed.

(** Splitting a transfer over compounds makes progress within the budgets.
    [path_io_chunk_end] gives up exactly when the current compound has no
    operation or not enough bytes left for the next chunk and may be sent as it
    is; otherwise the end it picks moves past [start] unless nothing is left,
    the per-operation lengths add up to the span, each is positive and at most
    the per-operation limit, and they respect the remaining operations and
    bytes, except for the one operation an empty compound must take. *)
Theorem chunk_end_tight (start total per_op room available_ops : Z) (allow_first : bool) :
  0 < per_op → 0 <= start <= total → 0 <= room → 0 <= available_ops →
  match path_io_chunk_end start total per_op room available_ops allow_first with
  | None => allow_first = false ∧
            (available_ops = 0 ∨ room < Z.max 1 (Z.min per_op (total - start)))
  | Some end_ =>
      let lens := chunk_lens start end_ per_op in
      start <= end_ <= total ∧ (start < total → start < end_) ∧
      total_len lens = end_ - start ∧ Forall (λ l, 0 < l <= per_op) lens ∧
      (Z.of_nat (length lens) <= available_ops ∧ end_ - start <= room ∨
       allow_first = true ∧ (length lens <= 1)%nat)
  end.
Proof. apply chunk_end_spec. Qed.

Lemma chunk_end_tight_witness :
  path_io_chunk_end 0 10000 4096 9000 5 false = Some 8192 ∧ total_len (chunk_lens 0 8192 4096) = 8192 - 0.
Proof.
  assert (E : path_io_chunk_end 0 10000 4096 9000 5 false = Some 8192) by reflexivity.
  pose proof (chunk_end_tight 0 10000 4096 9000 5 false ltac:(lia) ltac:(lia) ltac:(lia) ltac:(lia)) as H.
  rewrite E in H. destruct H as (_ & _ & H & _). split; [exact E|exact H].
Defined.
End ChunkLemmas.

(** ** Closing temporary OPENs: theorems *)

Module ClosesLemmas.

(** The observations no later one of the same object replaces. *)
Fixpoint latest (opens : list (nfs_fh4 * stateid4)) : list CloseOp :=
  match opens with
  | [] => []
  | (fh, stateid) :: rest =>
      if bool_decide (fh ∈ rest.*1) then latest rest else Close fh stateid :: latest rest
  end.

Lemma scan_closes_snoc l fh st seen :
  scan_closes (l ++ [(fh, st)]) seen =
  scan_closes l seen ++ if bool_decide (fh ∈ seen ∨ fh ∈ l.*1) then [] else [Close fh st].
Proof.
  revert seen. induction l as [|[f s] l IH]; intros seen; cbn [scan_closes app].
  - case_bool_decide; [rewrite bool_decide_true by naive_solver; done|].
    rewrite bool_decide_false; [done|]. intros [?|?%elem_of_nil]; done.
  - case_bool_decide as Hf; rewrite IH; cbn [app]; repeat f_equal;
      (erewrite bool_decide_ext; [reflexivity|cbn; set_solver]).
Qed.

Lemma reverse_scan_latest opens : reverse (scan_closes (reverse opens) ∅) = latest opens.
Proof.
  induction opens as [|[fh st] rest IH]; [done|]. cbn [latest].
  rewrite reverse_cons, scan_closes_snoc, reverse_app, IH.
  rewrite (bool_decide_ext _ (fh ∈ rest.*1)).
  - by case_bool_decide.
  - rewrite fmap_reverse, elem_of_reverse. set_solver.
Qed.

Lemma latest_path_open_closes_latest opens : latest_path_open_closes opens = latest opens.
Proof.
  destruct opens as [|[fh st] [|y rest]]; [done|done|]. apply reverse_scan_latest.
Qed.

Lemma latest_fhs opens fh : fh ∈ cl_fh <$> latest opens ↔ fh ∈ opens.*1.
Proof.
  induction opens as [|[f s] rest IH]; cbn [latest]; [done|]. case_bool_decide; cbn; set_solver.
Qed.

Lemma latest_sublist opens : latest opens `sublist_of` ((λ o, Close o.1 o.2) <$> opens).
Proof.
  induction opens as [|[f s] rest IH]; cbn [latest]; [done|]. case_bool_decide; cbn; by constructor.
Qed.

Lemma latest_NoDup opens : NoDup (cl_fh <$> latest opens).
Proof.
  induction opens as [|[f s] rest IH]; cbn [latest]; [constructor|].
  case_bool_decide; [done|]. cbn. constructor; [by rewrite latest_fhs|done].
Qed.

Lemma latest_last opens pre fh st post :
  opens = pre ++ (fh, st) :: post → fh ∉ post.*1 → Close fh st ∈ latest opens.
Proof.
  revert opens. induction pre as [|[f s] pre IH]; intros opens -> Hlast; cbn [latest app].
  - rewrite bool_decide_false by done. left.
  - case_bool_decide; [by apply IH|right; by apply IH].
Qed.

(** The cleanup closes each object the batch opened exactly once, with the
    stateid of its last OPEN and in the order of those last OPENs: no handle
    appears twice, every opened handle appears, and the stateid closed is the
    one observed last. *)
Theorem closes_latest_once (opens : list (nfs_fh4 * stateid4)) :
  let closes := latest_path_open_closes opens in
  NoDup (cl_fh <$> closes) ∧
  closes `sublist_of` ((λ o, Close o.1 o.2) <$> opens) ∧
  (∀ fh, fh ∈ cl_fh <$> closes ↔ fh ∈ opens.*1) ∧
  (∀ pre fh st post, opens = pre ++ (fh, st) :: post → fh ∉ post.*1 → Close fh st ∈ closes).
Proof.
  cbn zeta. rewrite latest_path_open_closes_latest. split_and!.
  - apply latest_NoDup.
  - apply latest_sublist.
  - intros fh. apply latest_fhs.
  - intros. by eapply latest_last.
Qed.
End ClosesLemmas.

(** ** The guarded send *)

(** A transport that records every request it carries. *)
Definition recorded {W} (rpc : Compound.t → W → RpcResult COMPOUND4res * W)
    (c : Compound.t) (w : W * list Compound.t) : RpcResult COMPOUND4res * (W * list Compound.t) :=
  let '(r, w1) := rpc c w.1 in (r, (w1, w.2 ++ [c])).

(** The learned limits changed by observing replies only. *)
Definition learned (l l' : AdaptiveCompoundLimits.t) : Prop :=
  AdaptiveCompoundLimits.negotiated_ops l' = AdaptiveCompoundLimits.negotiated_ops l ∧
  (AdaptiveCompoundLimits.wf l → AdaptiveCompoundLimits.wf l').

(** Two states of a client with the same identity and the same negotiated and
    configured limits. *)
Definition same_limits (c c' : NfsClient.t) : Prop :=
  NfsClient.max_ops c' = NfsClient.max_ops c ∧
  NfsClient.max_compound_bytes c' = NfsClient.max_compound_bytes c ∧
  NfsClient.server_max_request_bytes c' = NfsClient.server_max_request_bytes c ∧
  NfsClient.rpc_envelope_reserve c' = NfsClient.rpc_envelope_reserve c ∧
  NfsClient.max_response_bytes c' = NfsClient.max_response_bytes c ∧
  NfsClient.root c' = NfsClient.root c ∧
  NfsClient.deferred_path_closes c' = NfsClient.deferred_path_closes c ∧
  Session.clientid (NfsClient.session c') = Session.clientid (NfsClient.session c) ∧
  learned (NfsClient.compound_limits c) (NfsClient.compound_limits c').

(** Weaker: what the loops over paths need of a client. *)
Definition same_caps (c c' : NfsClient.t) : Prop :=
  NfsClient.max_ops c' = NfsClient.max_ops c ∧ NfsClient.root c' = NfsClient.root c.

(** The XDR facts the byte budget rests on: the preflight cache is not encoded,
    and SEQUENCE adds its fixed size (opcode, 16-byte session id, three 32-bit
    words and a flag). *)
Class XdrSizes (xdr_len : Compound.t → Z) : Prop := {
  xdr_len_cache c r : xdr_len (Compound.Make (Compound.minorversion c) (Compound.ops c)
    (Compound.keep_ c) (Compound.tag_ c) r) = xdr_len c;
  xdr_len_sequence c mv sid q : xdr_len (Compound.prepend_sequence (Compound.set_minorversion c mv)
    (ASequence sid q 0 0)) = xdr_len c + SEQUENCE_XDR_BYTES;
}.

Module SendLemmas.
Import NfsClient.

Section Send.
Context {W : Type} (rpc : Compound.t → W → RpcResult COMPOUND4res * W).
Context (xdr_len : Compound.t → Z) `{!XdrSizes xdr_len}.

Lemma same_limits_refl c : same_limits c c.
Proof. by unfold same_limits. Qed.

Lemma learned_observe l tag n st k : learned l (AdaptiveCompoundLimits.observe l tag n st k).
Proof. split; [apply LimitsLemmas.observe_negotiated|apply LimitsLemmas.observe_wf]. Qed.

Lemma same_limits_trans a b c : same_limits a b → same_limits b c → same_limits a c.
Proof. unfold same_limits, learned. intros. intuition congruence. Qed.

#[global] Instance same_limits_preorder : PreOrder same_limits.
Proof. split; [exact same_limits_refl|exact same_limits_trans]. Qed.
#[global] Instance same_caps_preorder : PreOrder same_caps.
Proof. split; [by intros c|]. intros a b c [] []. split; congruence. Qed.
Lemma limits_caps c c' : same_limits c c' → same_caps c c'.
Proof. intros (? & _ & _ & _ & _ & ? & _). by split. Qed.

(** What a builder that was never preflighted looks like to the limits. *)
Definition request_fits (cl : t) (c : Compound.t) : bool :=
  bool_decide (is_Some (PreflightLemmas.fits_spec xdr_len c
    (sat_sub (max_request_arg_bytes cl) SEQUENCE_XDR_BYTES))).

Lemma compound_request_fits_spec cl c : PreflightLemmas.cache_ok xdr_len c →
  ∃ c', compound_request_fits xdr_len cl c = (request_fits cl c, c') ∧
    PreflightLemmas.cache_ok xdr_len c' ∧ Compound.ops c' = Compound.ops c ∧
    Compound.tag_ c' = Compound.tag_ c ∧ xdr_len c' = xdr_len c ∧ request_fits cl c' = request_fits cl c.
Proof.
  intros Hc. unfold compound_request_fits, request_fits.
  destruct (PreflightLemmas.encoded_len_spec xdr_len xdr_len_cache c
    (sat_sub (max_request_arg_bytes cl) SEQUENCE_XDR_BYTES)) as (c' & -> & Hc' & Hops & Hkeep & Htag & Hlen);
    [unfold sat_sub; lia|done|].
  exists c'. split_and!; try done; [by destruct (PreflightLemmas.fits_spec _ _ _)|].
  unfold PreflightLemmas.fits_spec. by rewrite Hkeep, Hlen.
Qed.

(** The request the session puts on the wire. *)
Definition on_wire (cl : t) (c : Compound.t) : Compound.t :=
  Compound.prepend_sequence (Compound.set_minorversion c (Session.minorversion (session cl)))
    (ASequence (Session.sessionid (session cl)) (Session.slot_seqid (session cl)) 0 0).

(** Every outcome of a guarded send: refused locally, refused by a poisoned
    session, or sent once, the reply validated and the window adjusted. *)
Lemma call_compound_cases cl c w r cl' w' :
  PreflightLemmas.cache_ok xdr_len c → call_compound rpc xdr_len cl c w = (r, cl', w') →
  same_limits cl cl' ∧
  ((∃ e, r = Err e ∧ w' = w ∧ compound_limits cl' = compound_limits cl ∧
     (CompoundBudget.ensure (CompoundBudget.Make (max_ops cl)) c = Err e ∨
      request_fits cl c = false ∧ e = RpcError.op 0 NFS4ERR_REQ_TOO_BIG ∨ RpcError.is_transport e = true)) ∨
   (CompoundBudget.ensure (CompoundBudget.Make (max_ops cl)) c = Ok tt ∧ request_fits cl c = true ∧
    ∃ c', Compound.ops c' = Compound.ops c ∧ Compound.tag_ c' = Compound.tag_ c ∧ xdr_len c' = xdr_len c ∧
      call rpc (on_wire cl c') w = (r, w') ∧
      compound_limits cl' =
        match r with
        | Ok reply => AdaptiveCompoundLimits.observe (compound_limits cl) (Compound.tag_bytes c)
                        (sat_add (Compound.op_count c) 1) (CompoundRes.status reply) (CompoundRes.nops reply)
        | Err _ => compound_limits cl
        end)).
Proof.
  intros Hc. unfold call_compound.
  destruct (CompoundBudget.ensure _ c) as [[]|e] eqn:He.
  2:{ intros [= <- <- <-]. split; [apply same_limits_refl|]. left. eauto 10. }
  destruct (compound_request_fits_spec cl c Hc) as (c' & -> & _ & Hops & Htag & Hlen & _).
  destruct (request_fits cl c) eqn:Hf; cbn [negb].
  2:{ intros [= <- <- <-]. split; [apply same_limits_refl|]. left. eauto 10. }
  unfold Session.compound. destruct (Session.poisoned (session cl)).
  { intros [= <- <- <-]. split; [by unfold same_limits|]. left. eauto 10. }
  fold (on_wire cl c'). destruct (call rpc (on_wire cl c') w) as [[res|e] w1] eqn:Hcall; intros [= <- <- <-].
  - split; [unfold same_limits; split_and!; try done; [cbn; by case_match|apply learned_observe]|]. right. split_and!; [done..|]. exists c'. split_and!; try done.
    cbn. unfold Compound.op_count, Compound.tag_bytes. by rewrite Hops, Htag.
  - split; [by unfold same_limits|]. right. split_and!; [done..|]. exists c'. by split_and!.
Qed.

Lemma call_recorded c w log r w' log' :
  call (recorded rpc) c (w, log) = (r, (w', log')) → log' = log ++ [c].
Proof.
  unfold call, recorded. cbn. destruct (rpc c w) as [[res|e] w1]; [|by intros [= _ _ <-]].
  destruct (validate_response_ops _ _); by intros [= _ _ <-].
Qed.

Lemma request_fits_len cl c : request_fits cl c = true →
  xdr_len c + SEQUENCE_XDR_BYTES + rpc_envelope_reserve cl
    <= Z.min (max_compound_bytes cl) (server_max_request_bytes cl).
Proof.
  unfold request_fits. intros [n Hn]%bool_decide_eq_true. revert Hn. unfold PreflightLemmas.fits_spec.
  destruct (existsb _ _); [done|]. set (words := Z.ldiff _ 3).
  destruct (PreflightLemmas.words_mult (Z.min (sat_sub (max_request_arg_bytes cl) SEQUENCE_XDR_BYTES) U32_MAX))
    as [_ Hw]; [unfold sat_sub, U32_MAX; lia|]. fold words in Hw.
  destruct ((4 <=? words) && _) eqn:E; [|done]. intros _.
  unfold max_request_arg_bytes, sat_sub, SEQUENCE_XDR_BYTES in *. lia.
Qed.

(** C32: No request leaves the client beyond what was negotiated.  A guarded send
    puts at most one request on the wire; with its SEQUENCE it has at most
    [max_ops] operations, and its encoding together with the reserved RPC and
    authentication envelope fits both the configured and the server's request
    size. *)
Theorem sends_within_limits cl c w log r cl' w' log' :
  PreflightLemmas.cache_ok xdr_len c → max_ops cl < USIZE_MAX →
  call_compound (recorded rpc) xdr_len cl c (w, log) = (r, cl', (w', log')) →
  log' = log ∨
  ∃ req, log' = log ++ [req] ∧ Z.of_nat (length (Compound.ops req)) <= max_ops cl ∧
    xdr_len req + rpc_envelope_reserve cl <= Z.min (max_compound_bytes cl) (server_max_request_bytes cl).
Proof.
  intros Hc Hm. unfold call_compound.
  destruct (CompoundBudget.ensure _ c) as [[]|e] eqn:He; [|intros [= _ _ _ <-]; by left].
  destruct (compound_request_fits_spec cl c Hc) as (c' & -> & _ & Hops & _ & Hlen & _).
  destruct (request_fits cl c) eqn:Hf; cbn [negb]; [|intros [= _ _ _ <-]; by left].
  unfold Session.compound. destruct (Session.poisoned (session cl)); [intros [= _ _ _ <-]; by left|].
  fold (on_wire cl c'). destruct (call (recorded rpc) (on_wire cl c') (w, log)) as [r1 [w1 log1]] eqn:Hcall.
  apply call_recorded in Hcall as ->. intros Heq. right. exists (on_wire cl c').
  assert (log' = log ++ [on_wire cl c']) as -> by (destruct r1; by injection Heq). split; [done|].
  apply request_fits_len in Hf. unfold on_wire. rewrite xdr_len_sequence, Hlen. split; [|lia].
  cbn [Compound.prepend_sequence Compound.insert0 Compound.set_minorversion Compound.ops length]. rewrite Hops.
  revert He. unfold CompoundBudget.ensure. cbn [CompoundBudget.max_ops]. unfold sat_add, Compound.op_count.
  destruct (Z.ltb_spec (max_ops cl) (Z.min (Z.of_nat (length (Compound.ops c)) + 1) U64_MAX)); [done|].
  unfold USIZE_MAX in Hm. lia.
Qed.
End Send.

(** Encoded sizes for the examples: 36 bytes for SEQUENCE, 24 for any other
    operation, 20 for the header. *)
Definition example_xdr_len (c : Compound.t) : Z :=
  foldr (λ op n, (match op with ASequence _ _ _ _ => 36 | _ => 24 end) + n) 20 (Compound.ops c).

#[global] Instance example_xdr_sizes : XdrSizes example_xdr_len.
Proof. split; [done|]. intros c mv sid q. unfold example_xdr_len, SEQUENCE_XDR_BYTES. cbn. lia. Qed.

Definition example_client : t :=
  Make SlotLemmas.example_session [] 4096 4096 8 (AdaptiveCompoundLimits.new 8) 4096 None 1024 [] 0.

Lemma sends_within_limits_witness :
  ∃ req, (call_compound (recorded SlotLemmas.example_server) example_xdr_len example_client
            (Compound.getfh (Compound.putrootfh Compound.new)) (0, [])).2.2 = [req] ∧
         Z.of_nat (length (Compound.ops req)) <= 8.
Proof.
  destruct (call_compound (recorded SlotLemmas.example_server) example_xdr_len example_client
    (Compound.getfh (Compound.putrootfh Compound.new)) (0, [])) as [[r cl'] [w' log']] eqn:E.
  destruct (sends_within_limits SlotLemmas.example_server example_xdr_len example_client
    (Compound.getfh (Compound.putrootfh Compound.new)) 0 [] r cl' w' log' ltac:(done) ltac:(done) E) as [H|(req & H & Hl & _)].
  - exfalso. subst log'. by vm_compute in E.
  - exists req. split; [exact H|exact Hl].
Defined.
End SendLemmas.

#[global] Hint Resolve SendLemmas.same_limits_refl SendLemmas.limits_caps : vnfs.
