(* ===== verification/IoProgress.v ===== *)
(** * Completing short transfers

    Models [crates/vfsi-nfs/src/client/io_progress.rs]: the loops that complete
    a READ or a WRITE the server acknowledged only in part.  [C] is the state
    the closures act on (the client and the server behind it). *)
From stdpp Require Import base numbers list list_numbers strings.
From S2P Require Import Prelude Errors Planner Compound Session Client.

Definition FILE_SYNC4 : Z := 2.

Section Loops.
Context {C : Type}.

(** The READ loop: [received] bytes are in [out].  [None] is out of fuel. *)
Fixpoint read_loop (read : C → Z → Z → RpcResult (bytes * bool) * C) (fuel : nat) (client : C)
    (caller offset count received : Z) (eof : bool) (out : bytes) : option (RpcResult bool * bytes * C) :=
  match fuel with
  | O => None
  | S fuel =>
      if negb ((received <? count) && negb eof) then Some (Ok eof, out, client)
      else
        let remaining := count - received in
        match checked_offset offset received caller with
        | Err e => Some (Err e, out, client)
        | Ok at_ =>
            let '(r, client) := read client at_ remaining in
            match r with
            | Err error => Some (Err (RpcError.with_op_index error caller), out, client)
            | Ok (data, end_) =>
                let len := Z.of_nat (length data) in
                if (remaining <? len) || ((len =? 0) && negb end_)
                then Some (Err (RpcError.op caller NFS4ERR_IO), out, client)
                else read_loop read fuel client caller offset count (received + len) end_ (out ++ data)
            end
        end
  end.

(** [complete_read_suffix]; [out] is what [on_data] received. *)
Definition complete_read_suffix (read : C → Z → Z → RpcResult (bytes * bool) * C) (client : C)
    (caller offset count : Z) : option (RpcResult bool * bytes * C) :=
  match checked_offset offset count caller with
  | Err e => Some (Err e, [], client)
  | Ok _ => read_loop read (S (Z.to_nat count)) client caller offset count 0 false []
  end.

(** The WRITE loop: [written] bytes of [data] are acknowledged. *)
Fixpoint write_loop (write : C → Z → bytes → RpcResult (Z * Z) * C) (fuel : nat) (client : C)
    (caller offset : Z) (data : bytes) (written committed : Z) : option (RpcResult Z * C) :=
  match fuel with
  | O => None
  | S fuel =>
      let len := Z.of_nat (length data) in
      if negb (written <? len) then Some (Ok committed, client)
      else
        match checked_offset offset written caller with
        | Err e => Some (Err e, client)
        | Ok at_ =>
            let '(r, client) := write client at_ (drop (Z.to_nat written) data) in
            match r with
            | Err error => Some (Err (RpcError.with_op_index error caller), client)
            | Ok (count, stable) =>
                if (count =? 0) || (len - written <? count)
                then Some (Err (RpcError.op caller NFS4ERR_IO), client)
                else write_loop write fuel client caller offset data (written + count)
                       (Z.min committed stable)
            end
        end
  end.

Definition complete_write_suffix (write : C → Z → bytes → RpcResult (Z * Z) * C) (client : C)
    (caller offset : Z) (data : bytes) : option (RpcResult Z * C) :=
  match checked_offset offset (Z.of_nat (length data)) caller with
  | Err e => Some (Err e, client)
  | Ok _ => write_loop write (S (length data)) client caller offset data 0 FILE_SYNC4
  end.
End Loops.

(** ** What the loops are measured against *)

(** A closure with the record of its calls and their results. *)
Definition traced {C A R} (f : C → Z → A → R * C) (c : C * list (Z * A * R)) (at_ : Z) (a : A)
    : R * (C * list (Z * A * R)) :=
  let '(r, c1) := f c.1 at_ a in (r, (c1, c.2 ++ [(at_, a, r)])).

(** READ returns a prefix of the file from the offset, and the EOF flag only
    when the data reaches the end. *)
Definition reads_file {C} (read : C → Z → Z → RpcResult (bytes * bool) * C) (file : bytes) : Prop :=
  ∀ c at_ n data eof c', read c at_ n = (Ok (data, eof), c') →
    data `prefix_of` drop (Z.to_nat at_) file ∧
    (eof = true → Z.of_nat (length file) <= at_ + Z.of_nat (length data)).

(** Overwriting a file at an offset; a gap reads as zeroes. *)
Definition splice (file : bytes) (at_ : nat) (data : bytes) : bytes :=
  let file := file ++ replicate (at_ - length file) Byte.x00 in
  take at_ file ++ data ++ drop (at_ + length data) file.

(** WRITE stores the bytes it acknowledges. *)
Definition writes_file {C} (write : C → Z → bytes → RpcResult (Z * Z) * C) (file : C → bytes) : Prop :=
  ∀ c at_ data n st c', write c at_ data = (Ok (n, st), c') → 0 <= n ∧
    (n <= Z.of_nat (length data) → file c' = splice (file c) (Z.to_nat at_) (take (Z.to_nat n) data)).

(** What a reply settles; nothing is asked for after a failure or the end of the
    file. *)
Definition received_by (r : RpcResult (bytes * bool)) : option Z :=
  match r with Ok (data, false) => Some (Z.of_nat (length data)) | _ => None end.
Definition acknowledged_by (r : RpcResult (Z * Z)) : option Z :=
  match r with Ok (n, _) => Some n | Err _ => None end.

(** Every call concerns exactly the [rest] still missing of a request of [count]
    bytes, at its own offset: the first one what follows the [from] bytes already
    settled, and each next one what follows those and the bytes its predecessor's
    reply settled.  A reply that settles nothing, or more than was asked for, is
    the last. *)
Fixpoint suffix_calls {A R} (offset count : Z) (rest : Z → A) (settles : R → option Z) (from : Z)
    (calls : list (Z * A * R)) : Prop :=
  match calls with
  | [] => True
  | (at_, a, r) :: calls =>
      at_ = offset + from ∧ a = rest from ∧ from < count ∧
      match settles r with
      | Some n => if (0 <? n) && (n <=? count - from) then suffix_calls offset count rest settles (from + n) calls
                  else calls = []
      | None => calls = []
      end
  end.

Module IoLemmas.

Lemma suffix_calls_last {A R} offset count (rest : Z → A) (settles : R → option Z) from r : from < count →
  suffix_calls offset count rest settles from [(offset + from, rest from, r)].
Proof. intros Hf. cbn. split_and!; [done..|]. destruct (settles r); [|done]. by destruct (_ && _). Qed.

Lemma suffix_calls_cons {A R} offset count (rest : Z → A) (settles : R → option Z) from n r calls :
  from < count → settles r = Some n → 0 < n <= count - from → suffix_calls offset count rest settles (from + n) calls →
  suffix_calls offset count rest settles from ((offset + from, rest from, r) :: calls).
Proof.
  intros Hf Hs Hn Hc. cbn. rewrite Hs. destruct (Z.ltb_spec 0 n); [|lia]. destruct (Z.leb_spec n (count - from)); [|lia].
  by split_and!.
Qed.

(** The loops without the record. *)
Lemma read_loop_untraced {C} (read : C → Z → Z → RpcResult (bytes * bool) * C) fuel c log caller offset count received eof out
    r out' c' log' :
  read_loop (traced read) fuel (c, log) caller offset count received eof out = Some (r, out', (c', log')) →
  read_loop read fuel c caller offset count received eof out = Some (r, out', c').
Proof.
  revert c log received eof out. induction fuel as [|fuel IH]; intros c log received eof out; cbn [read_loop]; [done|].
  destruct (negb _); [by intros [= <- <- <- _]|]. destruct (checked_offset _ _ _); [|by intros [= <- <- <- _]].
  unfold traced at 1. cbn [fst snd]. destruct (read c _ _) as [[[data end_]|e] c1]; [|by intros [= <- <- <- _]].
  destruct (_ || _); [by intros [= <- <- <- _]|]. apply IH.
Qed.

Lemma write_loop_untraced {C} (write : C → Z → bytes → RpcResult (Z * Z) * C) fuel c log caller offset data written committed
    r c' log' :
  write_loop (traced write) fuel (c, log) caller offset data written committed = Some (r, (c', log')) →
  write_loop write fuel c caller offset data written committed = Some (r, c').
Proof.
  revert c log written committed. induction fuel as [|fuel IH]; intros c log written committed; cbn [write_loop]; [done|].
  destruct (negb _); [by intros [= <- <- _]|]. destruct (checked_offset _ _ _); [|by intros [= <- <- _]].
  unfold traced at 1. cbn [fst snd]. destruct (write c _ _) as [[[n st]|e] c1]; [|by intros [= <- <- _]].
  destruct (_ || _); [by intros [= <- <- _]|]. apply IH.
Qed.

Section Reading.
Context {C : Type} (read : C → Z → Z → RpcResult (bytes * bool) * C) (file : bytes) (P : C → Prop).
(** In the states of interest, which reading does not leave. *)
Hypothesis Hread : ∀ c at_ n r c', P c → read c at_ n = (r, c') → P c' ∧
  match r with
  | Ok (data, eof) => data `prefix_of` drop (Z.to_nat at_) file ∧
      (eof = true → Z.of_nat (length file) <= at_ + Z.of_nat (length data))
  | Err _ => True
  end.

(** Received data extends the part of the file already held. *)
Lemma take_extend (l data : bytes) (k : nat) :
  data `prefix_of` drop k l → take k l ++ data = take (k + length data) l.
Proof.
  intros [rest Hrest]. rewrite <-take_take_drop. by rewrite Hrest, take_app_length.
Qed.

Lemma read_loop_spec fuel c log caller offset count received eof out :
  0 <= offset → offset + count <= U64_MAX → 0 <= received <= count →
  out = take (Z.to_nat received) (drop (Z.to_nat offset) file) →
  Z.of_nat (length out) = received →
  (eof = true → Z.of_nat (length file) <= offset + received) →
  (if eof then 1 else count - received + 1) <= Z.of_nat fuel → P c →
  ∃ r out' c' calls,
    read_loop (traced read) fuel (c, log) caller offset count received eof out
      = Some (r, out', (c', log ++ calls)) ∧ P c' ∧
    suffix_calls offset count (λ k, count - k) received_by received calls ∧ (eof = true → calls = []) ∧
    match r with
    | Ok eof' => out' = take (Z.to_nat count) (drop (Z.to_nat offset) file) ∧
                 (eof' = false → Z.of_nat (length out') = count) ∧
                 (eof' = true → Z.of_nat (length file) <= offset + Z.of_nat (length out'))
    | Err e => RpcError.op_index e = caller ∧ out' `prefix_of` drop (Z.to_nat offset) file
    end.
Proof.
  intros Ho Hoc. revert c log received eof out.
  induction fuel as [|fuel IH]; intros c log received eof out Hr Hout Hlen Heof Hfuel HP; [destruct eof; lia|].
  cbn [read_loop]. destruct ((received <? count) && negb eof) eqn:Hgo; cbn [negb].
  2:{ exists (Ok eof), out, c, []. rewrite app_nil_r. split; [done|]. split; [done|]. split; [done|].
      split; [done|]. split; [|split; intros ->; [lia|specialize (Heof eq_refl); lia]]. destruct eof; [|by replace count with received by lia].
      rewrite Hout. specialize (Heof eq_refl). rewrite !take_ge; [done|lengths..]. }
  apply andb_true_iff in Hgo as [Hlt ->%negb_true_iff]. unfold checked_offset, checked_add.
  destruct (Z.leb_spec (offset + received) U64_MAX) as [_|?]; [|lia]. cbn [ok_or].
  unfold traced at 1. cbn [fst snd].
  destruct (read c (offset + received) (count - received)) as [[[data end_]|e] c1] eqn:Er;
    destruct (Hread _ _ _ _ _ HP Er) as [HP1 Hfile].
  2:{ exists (Err (RpcError.with_op_index e caller)), out, c1, [(offset + received, count - received, Err e)].
      split; [done|]. split; [done|]. split; [apply (suffix_calls_last _ _ (λ k, count - k)); lia|].
      split; [done|]. split; [done|]. rewrite Hout. apply prefix_take. }
  destruct Hfile as [Hpre Hend].
  destruct ((count - received <? _) || _) eqn:Hbad.
  { eexists _, out, c1, [(offset + received, count - received, Ok (data, end_))]. split; [done|].
    split; [done|]. split; [apply (suffix_calls_last _ _ (λ k, count - k)); lia|].
    split; [done|]. split; [done|]. rewrite Hout. apply prefix_take. }
  destruct (IH c1 (log ++ [(offset + received, count - received, Ok (data, end_))])
    (received + Z.of_nat (length data)) end_ (out ++ data)) as (r & out' & c' & calls & Hloop & HP' & Hcalls & Hnil & Hres).
  - lia.
  - rewrite Hout, take_extend; [f_equal; lia|]. rewrite drop_drop.
    by replace (Z.to_nat offset + Z.to_nat received)%nat with (Z.to_nat (offset + received)) by lia.
  - lengths.
  - intros Hend'. specialize (Hend Hend'). lia.
  - destruct end_; lia.
  - done.
  - exists r, out', c', ((offset + received, count - received, Ok (data, end_)) :: calls).
    rewrite Hloop, <-app_assoc. split; [done|]. split; [done|]. split; [|split; [done|exact Hres]].
    destruct end_; [rewrite Hnil by done; apply (suffix_calls_last _ _ (λ k, count - k)); lia|].
    apply (suffix_calls_cons _ _ (λ k, count - k) _ _ (Z.of_nat (length data))); [lia|done|lia|done].
Qed.
End Reading.

Section Writing.

Lemma splice_app file at_ a b : splice (splice file at_ a) (at_ + length a) b = splice file at_ (a ++ b).
Proof.
  unfold splice. set (F := file ++ replicate (at_ - length file) Byte.x00).
  assert (HF : (at_ <= length F)%nat) by (unfold F; lengths).
  assert (Hl : length (take at_ F) = at_) by (lengths).
  replace (at_ + length a - length (take at_ F ++ a ++ drop (at_ + length a) F))%nat with 0%nat
    by (lengths).
  cbn [replicate]. rewrite app_nil_r. rewrite (app_assoc (take at_ F) a (drop _ F)).
  assert (Ha : length (take at_ F ++ a) = (at_ + length a)%nat) by (lengths).
  rewrite (take_app_length' (take at_ F ++ a)) by lia.
  rewrite (drop_app_ge (take at_ F ++ a)) by lia.
  rewrite drop_drop, Ha, length_app, <-!app_assoc. do 4 f_equal. lia.
Qed.

Context {C : Type} (write : C → Z → bytes → RpcResult (Z * Z) * C) (file : C → bytes).
Hypothesis Hwrite : writes_file write file.

(** The file after the first [w] bytes of [data]. *)
Definition progress (f : bytes) (offset : Z) (data : bytes) (w : Z) : bytes :=
  if w =? 0 then f else splice f (Z.to_nat offset) (take (Z.to_nat w) data).

Lemma progress_step f offset data w n : 0 <= offset → 0 <= w → 0 < n → w + n <= Z.of_nat (length data) →
  splice (progress f offset data w) (Z.to_nat (offset + w)) (take (Z.to_nat n) (drop (Z.to_nat w) data)) =
  progress f offset data (w + n).
Proof.
  intros Ho Hw Hn Hle. unfold progress. replace (w + n =? 0) with false by lia.
  destruct (Z.eqb_spec w 0) as [->|Hw0].
  { rewrite drop_0. by replace (offset + 0) with offset by lia. }
  replace (Z.to_nat (offset + w)) with (Z.to_nat offset + length (take (Z.to_nat w) data))%nat
    by (lengths).
  rewrite splice_app, take_take_drop. do 2 f_equal. lia.
Qed.

(** The stability levels the acknowledgements reported. *)
Definition stables (calls : list (Z * bytes * RpcResult (Z * Z))) : list Z :=
  omap (λ x, match x.2 with Ok (_, st) => Some st | Err _ => None end) calls.

Lemma write_loop_spec fuel c log caller offset data written committed f :
  0 <= offset → offset + Z.of_nat (length data) <= U64_MAX → 0 <= written <= Z.of_nat (length data) →
  file c = progress f offset data written → Z.of_nat (length data) - written + 1 <= Z.of_nat fuel →
  ∃ r c' calls,
    write_loop (traced write) fuel (c, log) caller offset data written committed
      = Some (r, (c', log ++ calls)) ∧
    suffix_calls offset (Z.of_nat (length data)) (λ k, drop (Z.to_nat k) data) acknowledged_by written calls ∧
    match r with
    | Ok level => file c' = progress f offset data (Z.of_nat (length data)) ∧
                  level = foldl Z.min committed (stables calls)
    | Err e => RpcError.op_index e = caller
    end.
Proof.
  intros Ho Hoc. revert c log written committed.
  induction fuel as [|fuel IH]; intros c log written committed Hw Hf Hfuel; [lia|]. cbn [write_loop].
  destruct (Z.ltb_spec written (Z.of_nat (length data))) as [Hlt|Hge]; cbn [negb].
  2:{ exists (Ok committed), c, []. rewrite app_nil_r. split; [done|]. split; [done|].
      split; [|done]. by replace (Z.of_nat (length data)) with written by lia. }
  unfold checked_offset, checked_add.
  destruct (Z.leb_spec (offset + written) U64_MAX) as [_|?]; [|lia]. cbn [ok_or].
  unfold traced at 1. cbn [fst snd].
  assert (Hone : ∀ r : RpcResult (Z * Z), suffix_calls offset (Z.of_nat (length data))
    (λ k, drop (Z.to_nat k) data) acknowledged_by written [(offset + written, drop (Z.to_nat written) data, r)]).
  { intros r. by apply (suffix_calls_last _ _ (λ k, drop (Z.to_nat k) data)). }
  destruct (write c _ _) as [[[n st]|e] c1] eqn:Ew.
  2:{ exists (Err (RpcError.with_op_index e caller)), c1, [(offset + written, drop (Z.to_nat written) data, Err e)].
      split; [done|]. split; [apply Hone|done]. }
  destruct (Hwrite _ _ _ _ _ _ Ew) as [Hn0 Hst]. rewrite length_drop in Hst.
  destruct ((n =? 0) || _) eqn:Hbad.
  { eexists _, c1, [(offset + written, drop (Z.to_nat written) data, Ok (n, st))]. split; [done|].
    split; [apply Hone|done]. }
  destruct (IH c1 (log ++ [(offset + written, drop (Z.to_nat written) data, Ok (n, st))]) (written + n)
    (Z.min committed st)) as (r & c' & calls & Hloop & Hcalls & Hres); [lia| |lia|].
  { rewrite Hst by lia. rewrite Hf. apply progress_step; lia. }
  exists r, c', ((offset + written, drop (Z.to_nat written) data, Ok (n, st)) :: calls).
  rewrite Hloop, <-app_assoc. split; [done|]. split; [|done].
  apply (suffix_calls_cons _ _ (λ k, drop (Z.to_nat k) data) _ _ n); [lia|done|lia|done].
Qed.
End Writing.

(** Completing a short READ returns exactly the requested bytes.  Against a
    server that returns file contents, in pieces of any size, the loop always
    terminates; on success the caller received the file from [offset] for
    [count] bytes, or up to its end, and a result without EOF has all [count]
    bytes; on failure the error names the caller's item and what was delivered
    is a prefix of the file.  No byte is ever requested twice.  A range that
    overflows the offset type is refused before any request. *)
Theorem read_suffix_exact {C} (read : C → Z → Z → RpcResult (bytes * bool) * C) (file : bytes)
    (c : C) (caller offset count : Z) :
  reads_file read file → 0 <= offset → 0 <= count →
  ∃ r out c' calls,
    complete_read_suffix (traced read) (c, []) caller offset count = Some (r, out, (c', calls)) ∧
    suffix_calls offset count (λ k, count - k) received_by 0 calls ∧
    match r with
    | Ok eof => offset + count <= U64_MAX ∧
                out = take (Z.to_nat count) (drop (Z.to_nat offset) file) ∧
                (eof = false → Z.of_nat (length out) = count)
    | Err e => RpcError.op_index e = caller ∧ out `prefix_of` drop (Z.to_nat offset) file ∧
               (U64_MAX < offset + count → calls = [])
    end.
Proof.
  intros Hread Ho Hc. unfold complete_read_suffix, checked_offset, checked_add.
  destruct (Z.leb_spec (offset + count) U64_MAX) as [Hle|Hgt]; cbn [ok_or].
  - destruct (read_loop_spec read file (λ _, True)) with (fuel := S (Z.to_nat count)) (c := c) (log := @nil (Z * Z * RpcResult (bytes * bool)))
      (caller := caller) (offset := offset) (count := count) (received := 0) (eof := false) (out := @nil Byte.byte)
      as (r & out & c' & calls & Hloop & _ & Hcalls & _ & Hres); [|lia|lia|lia|done|done|done|lia|done|].
    { intros c1 at_ n [[data eof]|e] c2 _ Hr; (split; [done|]); [by eapply Hread|done]. }
    exists r, out, c', calls. split; [done|]. split; [done|]. destruct r; [by destruct Hres as (? & ? & _)|].
    destruct Hres. split_and!; [done..|lia].
  - eexists _, [], c, []. split; [done|]. split; [done|]. split_and!; [done|apply prefix_nil|done].
Qed.

(** A server that returns three bytes at a time. *)
Definition example_file : bytes := bstr "abcdefgh".
Definition example_read (c : unit) (at_ n : Z) : RpcResult (bytes * bool) * unit :=
  let data := take (Z.to_nat (Z.min n 3)) (drop (Z.to_nat at_) example_file) in
  (Ok (data, Z.of_nat (length example_file) <=? at_ + Z.of_nat (length data)), c).

Lemma read_suffix_exact_witness :
  ∃ r out c' calls,
    complete_read_suffix (traced example_read) (tt, []) 4 1 20 = Some (r, out, (c', calls)) ∧
    suffix_calls 1 20 (λ k, 20 - k) received_by 0 calls ∧ r = Ok true ∧ out = bstr "bcdefgh".
Proof.
  destruct (read_suffix_exact example_read example_file tt 4 1 20) as (r & out & c' & calls & E & H & _).
  - intros c at_ n data eof c' [= <- <- <-]. split; [apply prefix_take|intros Heof%Z.leb_le; exact Heof].
  - lia.
  - lia.
  - exists r, out, c', calls. split; [exact E|]. split; [exact H|].
    vm_compute in E. by injection E as <- <- _ _.
Defined.

(** C33: Completing a short WRITE stores exactly the caller's bytes.  Against a
    server that stores what it acknowledges, in pieces of any size, the loop
    always terminates; on success the file holds [data] at [offset] and nothing
    else changed, and the stability returned is the weakest one acknowledged; on
    failure the error names the caller's item.  Acknowledged bytes are never
    sent again, and no other is left out: the first request carries all of [data],
    and every next one exactly what the acknowledgements before it leave over, at
    its own offset. *)
Theorem write_suffix_exact {C} (write : C → Z → bytes → RpcResult (Z * Z) * C) (file : C → bytes)
    (c : C) (caller offset : Z) (data : bytes) :
  writes_file write file → 0 <= offset →
  ∃ r c' calls,
    complete_write_suffix (traced write) (c, []) caller offset data = Some (r, (c', calls)) ∧
    suffix_calls offset (Z.of_nat (length data)) (λ k, drop (Z.to_nat k) data) acknowledged_by 0 calls ∧
    match r with
    | Ok level => file c' = (if decide (data = []) then file c else splice (file c) (Z.to_nat offset) data) ∧
                  level = foldl Z.min FILE_SYNC4 (stables calls)
    | Err e => RpcError.op_index e = caller ∧ (U64_MAX < offset + Z.of_nat (length data) → calls = [])
    end.
Proof.
  intros Hwrite Ho. unfold complete_write_suffix, checked_offset, checked_add.
  destruct (Z.leb_spec (offset + Z.of_nat (length data)) U64_MAX) as [Hle|Hgt]; cbn [ok_or].
  - destruct (write_loop_spec write file Hwrite (S (length data)) c [] caller offset data 0 FILE_SYNC4 (file c))
      as (r & c' & calls & Hloop & Hcalls & Hres); [lia|lia|lia|done|lia|].
    exists r, c', calls. split; [done|]. split; [done|]. destruct r as [level|e]; [|split; [done|lia]].
    destruct Hres as [-> ->]. split; [|done]. unfold progress.
    case_decide as Hd; [by subst|]. destruct data; [done|]. cbn [Z.eqb].
    rewrite take_ge by lia. done.
  - eexists _, c, []. split; [done|]. split; [done|]. done.
Qed.

(** A server that stores three bytes at a time. *)
Definition example_write (c : bytes) (at_ : Z) (data : bytes) : RpcResult (Z * Z) * bytes :=
  let n := Z.min (Z.of_nat (length data)) 3 in
  (Ok (n, if at_ =? 5 then 0 else FILE_SYNC4), splice c (Z.to_nat at_) (take (Z.to_nat n) data)).

Lemma write_suffix_exact_witness :
  ∃ r c' calls,
    complete_write_suffix (traced example_write) (bstr "0123456789abcdef", []) 7 2 (bstr "WRITTEN")
      = Some (r, (c', calls)) ∧
    suffix_calls 2 7 (λ k, drop (Z.to_nat k) (bstr "WRITTEN")) acknowledged_by 0 calls ∧
    r = Ok 0 ∧ c' = bstr "01WRITTEN9abcdef".
Proof.
  destruct (write_suffix_exact example_write (λ f, f) (bstr "0123456789abcdef") 7 2 (bstr "WRITTEN"))
    as (r & c' & calls & E & H & _).
  - intros c at_ data n st c' [= <- <- <-]. split; [lia|done].
  - lia.
  - exists r, c', calls. split; [exact E|]. split; [exact H|]. vm_compute in E. by injection E as <- <- _.
Defined.
End IoLemmas.
