(* ===== verification/Loops.v ===== *)
(** * Loops

    The loops of the client keep a state (the client, the server behind it and
    their locals), and every turn either goes on with another state or returns.
    This file gives them one form, [run], and the one induction their
    termination proofs share. *)
From stdpp Require Import base numbers list.
From S2P Require Import Prelude.

(** How a loop ends: a value, the panic of an accessor or an index, or the
    model's fuel exhausted. *)
Inductive outcome (A : Type) : Type := Done (a : A) | Panicked | OutOfFuel.
Arguments Done {_} _.
Arguments Panicked {_}.
Arguments OutOfFuel {_}.

(** Sequencing: a panic or exhausted fuel ends the caller as well. *)
#[global] Instance outcome_bind : MBind outcome := λ A B k a,
  match a with Done a => k a | Panicked => Panicked | OutOfFuel => OutOfFuel end.

(** An accessor that may panic. *)
Definition or_panic {A} (o : option A) : outcome A :=
  match o with Some a => Done a | None => Panicked end.

(** One turn of a loop: another turn, or the value returned. *)
Inductive turn (S A : Type) : Type := Again (s : S) | Return (a : A).
Arguments Again {_ _} _.
Arguments Return {_ _} _.

Section Run.
Context {State A : Type}.
(** [while guard { body } finish]; the body is [None] where it panics. *)
Context (guard : State → bool) (body : State → option (turn State A)) (finish : State → A).

Fixpoint run (fuel : nat) (st : State) : outcome A :=
  if guard st then
    match fuel with
    | O => OutOfFuel
    | S fuel =>
        match body st with
        | None => Panicked
        | Some (Return a) => Done a
        | Some (Again st) => run fuel st
        end
    end
  else Done (finish st).

(** What a turn must do: keep the invariant and decrease the measure, or return
    something allowed. *)
Definition turn_keeps (inv : State → Prop) (measure : State → Z) (allowed : A → Prop) (st : State)
    (t : option (turn State A)) : Prop :=
  match t with
  | None => False
  | Some (Return a) => allowed a
  | Some (Again st') => inv st' ∧ measure st' < measure st
  end.

Lemma run_ok (inv : State → Prop) (measure : State → Z) (allowed : A → Prop) :
  (∀ st, inv st → 0 <= measure st) →
  (∀ st, inv st → guard st = true → turn_keeps inv measure allowed st (body st)) →
  (∀ st, inv st → guard st = false → allowed (finish st)) →
  ∀ fuel st, inv st → measure st < Z.of_nat fuel → ∃ a, run fuel st = Done a ∧ allowed a.
Proof.
  intros Hpos Hbody Hfin fuel. induction fuel as [|fuel IH]; intros st Hi Hfuel.
  { specialize (Hpos st Hi). lia. }
  cbn [run]. destruct (guard st) eqn:Hg; [|eauto].
  specialize (Hbody st Hi Hg). destruct (body st) as [[st'|a]|]; cbn in Hbody; [|eauto|done].
  destruct Hbody as [Hi' Hlt]. apply IH; [done|lia].
Qed.
End Run.

Section RunIn.
Context {State A : Type}.
(** The same for a body that calls loops of its own. *)
Context (guard : State → bool) (body : State → outcome (turn State A)) (finish : State → A).

Fixpoint run_in (fuel : nat) (st : State) : outcome A :=
  if guard st then
    match fuel with
    | O => OutOfFuel
    | S fuel =>
        t ← body st;
        match t with
        | Return a => Done a
        | Again st => run_in fuel st
        end
    end
  else Done (finish st).

Lemma run_in_ok (inv : State → Prop) (measure : State → Z) (allowed : A → Prop) :
  (∀ st, inv st → 0 <= measure st) →
  (∀ st, inv st → guard st = true → ∃ t, body st = Done t ∧ turn_keeps inv measure allowed st (Some t)) →
  (∀ st, inv st → guard st = false → allowed (finish st)) →
  ∀ fuel st, inv st → measure st < Z.of_nat fuel → ∃ a, run_in fuel st = Done a ∧ allowed a.
Proof.
  intros Hpos Hbody Hfin fuel. induction fuel as [|fuel IH]; intros st Hi Hfuel.
  { specialize (Hpos st Hi). lia. }
  cbn [run_in]. destruct (guard st) eqn:Hg; [|eauto].
  destruct (Hbody st Hi Hg) as (t & -> & Ht). cbn [mbind outcome_bind].
  destruct t as [st'|a]; cbn in Ht; [|eauto]. destruct Ht as [Hi' Hlt]. apply IH; [done|lia].
Qed.
End RunIn.

(** The measure of the loops over chunks is lexicographic: the work left, the
    budget, the items allowed. *)
Lemma measure_less A B a b c a' b' c' : 0 < A → 0 < B → a' < a → 0 <= b → b' < A → 0 <= c → c' < B →
  a' * (A * B) + b' * B + c' < a * (A * B) + b * B + c.
Proof.
  intros HA HB Ha Hb Hb' Hc Hc'. assert (Hab : (a' + 1) * A <= a * A) by (apply Z.mul_le_mono_nonneg_r; lia).
  assert ((a' * A + b' + 1) * B <= (a * A + b) * B) by (apply Z.mul_le_mono_nonneg_r; lia). lia.
Qed.
