(* ===== verification/Exchange.v ===== *)
(** * Exchanges with the server

    What the operations of the client share: the guarantees of the transport,
    what an accepted reply says of its request, and the contract of a server
    that walks directories. *)
From stdpp Require Import base numbers list list_numbers gmap strings.
From S2P Require Import Prelude Errors Planner Compound Session Client.

Definition resource_status (status : Z) : bool :=
  (status =? NFS4ERR_TOO_MANY_OPS) || (status =? NFS4ERR_RESOURCE).

(** What the transport guarantees: a reply is what the decoder produced, and its
    own failures are transport errors. *)
Record transport_ok {W} (rpc : Compound.t → W → RpcResult COMPOUND4res * W) : Prop := {
  tr_decoded : rpc_decoded rpc;
  tr_errors c w e w' : rpc c w = (Err e, w') → RpcError.is_transport e = true;
}.

(** The statuses of a validated reply: every operation but the last succeeded,
    and the last one carries the compound status. *)
Lemma validated_status request res i : decoded res → reply_ok request res → 0 <= i < CompoundRes.nops res →
  CompoundRes.op_status res i = if i + 1 =? CompoundRes.nops res then CompoundRes.status res else NFS_OK.
Proof.
  intros Hd Hok Hi.
  destruct (ValidateReplyLemmas.validated_op request res i Hd Hok Hi) as (a & r & _ & Hop & _ & _ & _ & Hst & _).
  unfold CompoundRes.op_status. by rewrite Hop.
Qed.

(** ** A directory server *)

(** What the server knows: whether a handle is acceptable, what a name in a
    directory is, and which pages it may return for a directory and a cookie. *)
Record dir_server := DirServer {
  ds_putfh : nfs_fh4 → Z;
  ds_lookup : nfs_fh4 → bytes → result Z nfs_fh4;
  ds_page : nfs_fh4 → Z → list entry4 * bool → Prop;
}.

(** The results of a compound, operation by operation: a successful one did what
    it is documented to do to the current filehandle, a failed one reports the
    server's reason, or that the server ran out of resources. *)
Fixpoint executes (s : dir_server) (cur : option nfs_fh4) (ops : list argop) (rs : list resop) : Prop :=
  match rs, ops with
  | [], _ => True
  | r :: rs, op :: ops =>
      if response_op_status r =? NFS_OK then
        match op with
        | ASequence _ _ _ _ => executes s cur ops rs
        | APutFh fh => ds_putfh s fh = NFS_OK ∧ executes s (Some fh) ops rs
        | ALookup n => ∃ d x, cur = Some d ∧ ds_lookup s d n = Ok x ∧ executes s (Some x) ops rs
        | AGetFh => (∃ st v, r = RGetFh st v ∧ CompoundRes.vec_bytes v = cur) ∧ executes s cur ops rs
        | AReaddir cookie _ _ _ _ =>
            (∃ d st entries eof, cur = Some d ∧ r = RReaddir st entries eof ∧ ds_page s d cookie (entries, eof)) ∧
            executes s cur ops rs
        | _ => False
        end
      else
        resource_status (response_op_status r) = true ∨
        match op with
        | ASequence _ _ _ _ | AReaddir _ _ _ _ _ => True
        | APutFh fh => ds_putfh s fh = response_op_status r
        | ALookup n => ∃ d, cur = Some d ∧ ds_lookup s d n = Err (response_op_status r)
        | _ => False
        end
  | _ :: _, [] => False
  end.

Definition results (res : COMPOUND4res) : list resop := take (Z.to_nat (cr_len res)) (default [] (cr_val res)).

(** The operations after SEQUENCE a reply shows as carried out. *)
Definition ops_done (res : COMPOUND4res) : nat :=
  Z.to_nat (CompoundRes.nops res - 1 - (if CompoundRes.status res =? NFS_OK then 0 else 1)).

(** The server answers lookup compounds truthfully. *)
Definition serves {W} (s : dir_server) (rpc : Compound.t → W → RpcResult COMPOUND4res * W) : Prop :=
  ∀ c w res w', rpc c w = (Ok res, w') → reply_ok (Compound.ops c) res →
    executes s None (Compound.ops c) (results res).

Module ExchangeLemmas.
Lemma results_op res i : 0 <= i < CompoundRes.nops res → CompoundRes.op res i = results res !! Z.to_nat i.
Proof.
  intros Hi. unfold CompoundRes.op, results, CompoundRes.nops in *.
  replace ((0 <=? i) && (i <? cr_len res)) with true by lia. by rewrite lookup_take_lt by lia.
Qed.

Lemma results_length res : decoded res → cr_val res ≠ None → Z.of_nat (length (results res)) = CompoundRes.nops res.
Proof.
  intros [Hr Hv] Hnn. unfold results, CompoundRes.nops. destruct (cr_val res) as [l|]; [|done]. cbn.
  destruct (Hv l eq_refl) as [Hl _]. lengths.
Qed.

(** The check every operation makes of its reply: the compound status decides,
    and the error names the last operation executed. *)
Lemma expect_all_ok_spec request res : decoded res → reply_ok request res →
  Session.expect_all_ok res =
    if CompoundRes.status res =? NFS_OK then Ok tt
    else Err (RpcError.op (sat_sub (CompoundRes.nops res) 1) (CompoundRes.status res)).
Proof.
  intros Hd Hok. pose proof (λ i, validated_status request res i Hd Hok) as Hst.
  assert (Hn : 0 <= CompoundRes.nops res) by (destruct Hd as [? _]; unfold CompoundRes.nops; lia).
  unfold Session.expect_all_ok, Session.first_compound_failure.
  destruct (list_find _ _) as [[i st]|] eqn:E.
  - apply list_find_Some in E as (Hi & Hbad & _). rewrite list_lookup_fmap in Hi.
    destruct (seqZ 0 _ !! i) as [j|] eqn:Hj; [|done]. injection Hi as <-. apply lookup_seqZ in Hj as [-> Hj].
    rewrite Hst in Hbad |- * by lia. destruct (Z.eqb_spec (0 + Z.of_nat i + 1) (CompoundRes.nops res)); [|done].
    destruct (Z.eqb_spec (CompoundRes.status res) NFS_OK); [done|]. unfold sat_sub. do 2 f_equal. lia.
  - apply list_find_None in E. destruct (Z.eqb_spec (CompoundRes.status res) NFS_OK) as [|Hne]; [done|]. cbn [negb].
    destruct (decide (CompoundRes.nops res = 0)) as [->|Hnz]; [done|]. exfalso.
    assert (CompoundRes.status res ∈ CompoundRes.op_status res <$> seqZ 0 (CompoundRes.nops res)) as Hin.
    { apply list_elem_of_fmap. exists (CompoundRes.nops res - 1). split; [|apply elem_of_seqZ; lia].
      rewrite Hst by lia. by replace (CompoundRes.nops res - 1 + 1 =? CompoundRes.nops res) with true by lia. }
    pose proof (proj1 (Forall_forall _ _) E _ Hin) as H. by apply dec_stable in H.
Qed.

(** The results of an accepted reply: all successful and complete, or a
    successful prefix of the request and the failed operation that ended it, or
    none at all. *)
Lemma results_shape request res : decoded res → reply_ok request res →
  if CompoundRes.status res =? NFS_OK then
    Forall (λ r, response_op_status r = NFS_OK) (results res) ∧ length (results res) = length request ∧
    CompoundRes.nops res = Z.of_nat (length request)
  else
    CompoundRes.nops res = 0 ∨
    ∃ pre r, results res = pre ++ [r] ∧ Forall (λ r, response_op_status r = NFS_OK) pre ∧
      response_op_status r = CompoundRes.status res ∧ CompoundRes.nops res = Z.of_nat (S (length pre)).
Proof.
  intros Hd Hok. assert (Hn : 0 <= CompoundRes.nops res) by (destruct Hd as [? _]; unfold CompoundRes.nops; lia).
  destruct (decide (CompoundRes.nops res = 0)) as [Hz|Hnz].
  { destruct (Z.eqb_spec (CompoundRes.status res) NFS_OK) as [Hs|]; [|by left].
    destruct Hok as (_ & _ & Hfull & _). specialize (Hfull Hs). unfold CompoundRes.nops in *.
    assert (results res = []) as -> by (unfold results; by rewrite Hz).
    split; [constructor|]. cbn. split; [lia|lia]. }
  pose proof Hok as (_ & Hnn & Hfull & _). pose proof (results_length res Hd (Hnn Hnz)) as Hlen.
  assert (Hst : ∀ i r, results res !! i = Some r → response_op_status r =
    if Z.of_nat i + 1 =? CompoundRes.nops res then CompoundRes.status res else NFS_OK).
  { intros i r Hr. pose proof (lookup_lt_Some _ _ _ Hr). rewrite <-(validated_status request res) by (done || lia).
    unfold CompoundRes.op_status. by rewrite results_op, Nat2Z.id, Hr by lia. }
  destruct (Z.eqb_spec (CompoundRes.status res) NFS_OK) as [Hs|Hs].
  - specialize (Hfull Hs). unfold CompoundRes.nops in *. split; [|lia]. apply Forall_lookup. intros i r Hr.
    rewrite (Hst i r Hr), Hs. by case_match.
  - right. destruct (exists_last (l := results res)) as (pre & r & E); [intros E; rewrite E in Hlen; done|].
    rewrite E in *. rewrite length_app in Hlen. cbn in Hlen. exists pre, r. split; [done|]. split_and!; [| |lia].
    + apply Forall_lookup. intros i r' Hr. pose proof (lookup_lt_Some _ _ _ Hr).
      rewrite (Hst i r') by (by apply lookup_app_l_Some).
      by replace (Z.of_nat i + 1 =? CompoundRes.nops res) with false by lia.
    + rewrite (Hst (length pre) r) by (by rewrite lookup_app_r, Nat.sub_diag by lia).
      by replace (Z.of_nat (length pre) + 1 =? CompoundRes.nops res) with true by lia.
Qed.

(** After [k] successful operations the rest of the reply still executes the
    rest of the request. *)
Lemma executes_drop s cur ops rs k :
  executes s cur ops rs → (k <= length rs)%nat →
  (∀ i r, (i < k)%nat → rs !! i = Some r → response_op_status r = NFS_OK) →
  ∃ cur', executes s cur' (drop k ops) (drop k rs).
Proof.
  revert cur ops rs. induction k as [|k IH]; intros cur ops rs Hex Hk Hok.
  { exists cur. by rewrite !drop_0. }
  destruct rs as [|r rs]; [cbn in Hk; lia|]. destruct ops as [|op ops]; [done|].
  pose proof (Hok 0%nat r ltac:(lia) eq_refl) as H0. cbn [executes] in Hex. rewrite H0 in Hex. cbn [Z.eqb NFS_OK] in Hex.
  assert (∃ cur', executes s cur' ops rs) as [cur' Hex'] by (destruct op; naive_solver).
  destruct (IH cur' ops rs Hex') as [cur'' Hd]; [cbn in Hk; lia| |by exists cur''].
  intros i r' Hi Hr'. apply (Hok (S i) r'); [lia|done].
Qed.

Lemma drop_mjoin {A B} (f : A → list B) (p : nat) (items : list A) j x :
  (∀ y, length (f y) = p) → items !! j = Some x →
  drop (p * j) (mjoin (f <$> items)) = f x ++ mjoin (f <$> drop (S j) items).
Proof.
  intros Hp. revert j. induction items as [|y items IH]; intros [|j] Hj; [done|done|..].
  - injection Hj as ->. by rewrite Nat.mul_0_r.
  - change (mjoin (f <$> y :: items)) with (f y ++ mjoin (f <$> items)).
    replace (p * S j)%nat with (length (f y) + p * j)%nat by (rewrite Hp; lia). rewrite drop_app_add. by apply IH.
Qed.

Section Exchange.
Context {W : Type} (rpc : Compound.t → W → RpcResult COMPOUND4res * W) (Hrpc : transport_ok rpc).
Context (xdr_len : Compound.t → Z) `{!XdrSizes xdr_len}.

(** A request that was answered and accepted. *)
Definition exchanged (ops : list argop) (w : W) (res : COMPOUND4res) (w' : W) : Prop :=
  ∃ req sid q, rpc req w = (Ok res, w') ∧ Compound.ops req = ASequence sid q 0 0 :: ops ∧
               decoded res ∧ reply_ok (Compound.ops req) res.

Lemma call_exchanged cl c w res w' :
  call rpc (SendLemmas.on_wire cl c) w = (Ok res, w') → exchanged (Compound.ops c) w res w'.
Proof.
  intros Hcall. pose proof (SlotLemmas.call_inv rpc _ _ _ _ Hcall) as Hr.
  pose proof (tr_decoded _ Hrpc _ _ _ _ Hr) as Hd.
  eexists _, _, _. split; [exact Hr|]. split; [reflexivity|]. split; [done|].
  revert Hcall. unfold call. rewrite Hr.
  destruct (validate_response_ops _ res) as [[]|e] eqn:Hv; [|done]. intros _.
  by apply ValidateReplyLemmas.validate_response_ops_iff.
Qed.

Lemma call_error c w e w' : call rpc c w = (Err e, w') → RpcError.is_transport e = true.
Proof.
  unfold call. destruct (rpc c w) as [[res|e1] w1] eqn:Hr.
  - destruct (validate_response_ops _ res) as [[]|e1] eqn:Hv; [done|]. intros [= <- <-].
    by eapply ValidateReplyLemmas.validate_error_transport.
  - intros [= <- <-]. by eapply tr_errors.
Qed.

(** A guarded send that returned a reply, or failed. *)
Lemma call_compound_ok cl c w res cl' w' :
  PreflightLemmas.cache_ok xdr_len c → NfsClient.call_compound rpc xdr_len cl c w = (Ok res, cl', w') →
  same_limits cl cl' ∧ exchanged (Compound.ops c) w res w' ∧
  NfsClient.compound_limits cl' =
    AdaptiveCompoundLimits.observe (NfsClient.compound_limits cl) (Compound.tag_bytes c)
      (sat_add (Compound.op_count c) 1) (CompoundRes.status res) (CompoundRes.nops res).
Proof.
  intros Hc Hcall. destruct (SendLemmas.call_compound_cases rpc xdr_len cl c w _ _ _ Hc Hcall)
    as [Hs [(e & ? & _)|(_ & _ & c' & Hops & _ & _ & Hr & Hl)]]; [done|].
  split; [done|]. split; [|done]. rewrite <-Hops. by eapply call_exchanged.
Qed.

Lemma call_compound_err cl c w e cl' w' :
  PreflightLemmas.cache_ok xdr_len c → Compound.op_count c + 1 <= NfsClient.max_ops cl →
  NfsClient.call_compound rpc xdr_len cl c w = (Err e, cl', w') →
  same_limits cl cl' ∧ NfsClient.compound_limits cl' = NfsClient.compound_limits cl ∧
  (RpcError.is_transport e = true ∨
   SendLemmas.request_fits xdr_len cl c = false ∧ e = RpcError.op 0 NFS4ERR_REQ_TOO_BIG).
Proof.
  intros Hc Hm Hcall. destruct (SendLemmas.call_compound_cases rpc xdr_len cl c w _ _ _ Hc Hcall)
    as [Hs [(e' & [= <-] & _ & Hl & Hwhy)|(_ & _ & c' & _ & _ & _ & Hr & Hl)]]; (split; [done|]); (split; [done|]).
  - destruct Hwhy as [He|[[??]|?]]; [|by right|by left]. exfalso. revert He.
    unfold CompoundBudget.ensure. cbn [CompoundBudget.max_ops].
    assert (sat_add (Compound.op_count c) 1 <= NfsClient.max_ops cl) by (unfold sat_add; lia).
    by destruct (Z.ltb_spec (NfsClient.max_ops cl) (sat_add (Compound.op_count c) 1)); [lia|].
  - left. by eapply call_error.
Qed.

(** What a complete reply says of one item: the server executed its operations,
    all successfully, from some current filehandle on. *)
Lemma item_executed (s : dir_server) {T} (f : T → list argop) (p : nat) items w res w' j x :
  serves s rpc → (∀ y, length (f y) = p) → exchanged (mjoin (f <$> items)) w res w' →
  CompoundRes.status res = NFS_OK → items !! j = Some x →
  ∃ cur rest rs, executes s cur (f x ++ rest) rs ∧ (p <= length rs)%nat ∧
    ∀ k r, rs !! k = Some r → CompoundRes.op res (1 + Z.of_nat p * Z.of_nat j + Z.of_nat k) = Some r ∧
      response_op_status r = NFS_OK ∧ resop_decoded r.
Proof.
  intros Hs Hp (req & sid & q & Hr & Hops & Hd & Hok) Hst Hj.
  pose proof (Hs _ _ _ _ Hr Hok) as Hex. pose proof (results_shape _ res Hd Hok) as Hsh. rewrite Hst in Hsh.
  cbn [Z.eqb NFS_OK] in Hsh. destruct Hsh as (Hall & Hlen & Hn). rewrite Hops in Hex, Hlen, Hn.
  assert (Hbig : (S (p * j) + p <= length (results res))%nat).
  { rewrite Hlen. cbn [length]. rewrite <-(take_drop (p * j) (mjoin _)), length_app, (drop_mjoin f p items j x), length_app, Hp by done.
    rewrite length_take. enough (p * j <= length (mjoin (f <$> items)))%nat by lia.
    pose proof (lookup_lt_Some _ _ _ Hj). assert (length (mjoin (f <$> items)) = p * length items)%nat as ->; [|nia].
    clear -Hp. induction items as [|y items IH]; [cbn; lia|].
    change (mjoin (f <$> y :: items)) with (f y ++ mjoin (f <$> items)). rewrite length_app, Hp, IH. cbn [length]. lia. }
  destruct (executes_drop s None _ _ (S (p * j)) Hex) as [cur Hex']; [lia| |].
  { intros i r _ Hi. exact (proj1 (Forall_lookup _ _) Hall i r Hi). }
  cbn [drop] in Hex'. rewrite (drop_mjoin f p items j x) in Hex' by done.
  exists cur, (mjoin (f <$> drop (S j) items)), (drop (S (p * j)) (results res)).
  split; [done|]. split; [lengths|]. intros k r Hk. rewrite lookup_drop in Hk.
  pose proof (lookup_lt_Some _ _ _ Hk). split_and!.
  - rewrite results_op by lia. by replace (Z.to_nat (1 + Z.of_nat p * Z.of_nat j + Z.of_nat k)) with (S (p * j) + k)%nat by lia.
  - exact (proj1 (Forall_lookup _ _) Hall _ r Hk).
  - unfold results in Hk. destruct Hd as [_ Hv]. destruct (cr_val res) as [l|]; cbn in Hk; [|by rewrite take_nil in Hk].
    destruct (Hv l eq_refl) as [_ Hf]. apply lookup_take_Some in Hk as [Hk _]. exact (proj1 (Forall_lookup _ _) Hf _ _ Hk).
Qed.

(** The form of the send that words transport failures of mutations. *)
Lemma safe_call cl c safety w r cl' w' :
  NfsClient.call_compound_with_safety rpc xdr_len cl c safety w = (r, cl', w') →
  ∃ r0, NfsClient.call_compound rpc xdr_len cl c w = (r0, cl', w') ∧
    match r, r0 with
    | Ok res, Ok res0 => res = res0
    | Err e, Err e0 => RpcError.status e = RpcError.status e0 ∧ RpcError.op_index e = RpcError.op_index e0
    | _, _ => False
    end.
Proof.
  unfold NfsClient.call_compound_with_safety. destruct (NfsClient.call_compound _ _ _ _ _) as [[r0 cl1] w1].
  intros [= <- <- <-]. exists r0. split; [done|]. destruct r0 as [res|e]; cbn; [done|]. by case_match.
Qed.

(** A request that reached the transport, whatever came back. *)
Definition sent (ops : list argop) (w : W) (r : RpcResult COMPOUND4res) (w' : W) : Prop :=
  ∃ req sid q, rpc req w = (r, w') ∧ Compound.ops req = ASequence sid q 0 0 :: ops.

(** What a send comes to: an accepted reply, a request the client kept back
    (nothing happened), or a transport failure after the request was sent. *)
Lemma send_outcomes cl c w r cl' w' :
  PreflightLemmas.cache_ok xdr_len c → NfsClient.call_compound rpc xdr_len cl c w = (r, cl', w') →
  same_limits cl cl' ∧
  match r with
  | Ok res => exchanged (Compound.ops c) w res w'
  | Err e => w' = w ∧ (RpcError.is_transport e = true ∨ RpcError.op_index e = 0) ∨
             RpcError.is_transport e = true ∧ ∃ r0, sent (Compound.ops c) w r0 w'
  end.
Proof.
  intros Hc Hcall. destruct (SendLemmas.call_compound_cases rpc xdr_len cl c w _ _ _ Hc Hcall)
    as [Hs [(e & -> & -> & _ & Hwhy)|(_ & _ & c' & Hops & _ & _ & Hr & _)]]; (split; [done|]).
  - left. split; [done|]. destruct Hwhy as [He|[[_ ->]|?]]; [right|by right|by left].
    revert He. unfold CompoundBudget.ensure. case_match; [by intros [= <-]|done].
  - rewrite <-Hops. destruct r as [res|e]; [by eapply call_exchanged|]. right.
    split; [by eapply call_error|]. revert Hr. unfold call.
    destruct (rpc _ _) as [[res|e'] w1] eqn:Hrpc'; [|intros [= _ <-]; by eexists _, _, _, _].
    destruct (validate_response_ops _ _); intros [= _ <-]; by eexists _, _, _, _.
Qed.

(** A request that was refused before it changed anything did nothing. *)
Lemma rejected_nothing_done (res : COMPOUND4res) : decoded res →
  resource_rejected_before_mutation res = true → ops_done res = 0%nat.
Proof.
  intros Hd. unfold resource_rejected_before_mutation, ops_done. cbn [rv_status rv_nops rv_op_status CompoundRes_view].
  destruct (Z.eqb_spec (CompoundRes.status res) NFS_OK) as [->|]; [done|]. destruct (negb _ && negb _); [done|].
  destruct (CompoundRes.nops res) as [|[p|[p|p|]|]|p]; lia || done.
Qed.

(** A request the client kept back for its size. *)
Lemma kept_back_status cl c w e cl' w' :
  PreflightLemmas.cache_ok xdr_len c → NfsClient.call_compound rpc xdr_len cl c w = (Err e, cl', w') →
  RpcError.is_transport e = true ∨
  RpcError.op_index e = 0 ∧ (RpcError.status e = NFS4ERR_TOO_MANY_OPS ∨ RpcError.status e = NFS4ERR_REQ_TOO_BIG).
Proof.
  intros Hc Hcall. destruct (SendLemmas.call_compound_cases rpc xdr_len cl c w _ _ _ Hc Hcall)
    as [_ [(e' & [= <-] & _ & _ & Hwhy)|(_ & _ & c' & _ & _ & _ & Hr & _)]]; [|left; by eapply call_error].
  destruct Hwhy as [He|[[_ ->]|?]]; [right|right; cbn; auto|by left].
  revert He. unfold CompoundBudget.ensure. case_match; [intros [= <-]; cbn; auto|done].
Qed.
End Exchange.
End ExchangeLemmas.

