(* ===== verification/Server.v ===== *)
(** * An abstract NFSv4 server

    What the client talks to, as a specification: the operations of a file
    service on an abstract state, the machine that runs the operations of a
    compound one after the other on the current and the saved filehandle, and
    the contract of a transport behind which such a server answers.  The
    reference server answers every request by running the machine; it meets the
    contract for every specification, so the contract can be met. *)
From stdpp Require Import base numbers list list_numbers gmap strings.
From S2P Require Import Prelude Errors Planner Compound Session Client Exchange.

Definition NFS4ERR_NOFILEHANDLE : Z := 10020.
Definition NFS4ERR_OP_ILLEGAL : Z := 10044.

(** ** The file service *)

(** The operations on the state of the file system; an [Err] is the status the
    operation fails with, and a failed operation changes nothing. *)
Record nfs_spec (F : Type) := NfsSpec {
  sp_putfh : F → nfs_fh4 → result Z unit;
  sp_root : nfs_fh4;
  sp_lookup : F → nfs_fh4 → bytes → result Z nfs_fh4;
  sp_lookupp : F → nfs_fh4 → result Z nfs_fh4;
  sp_getattr : F → nfs_fh4 → bitmap4 → result Z (bitmap4 * bytes);
  sp_nverify : F → nfs_fh4 → fattr4 → result Z unit;
  sp_setattr : F → nfs_fh4 → stateid4 → fattr4 → result Z F;
  sp_readlink : F → nfs_fh4 → result Z bytes;
  sp_readdir : F → nfs_fh4 → Z → verifier4 → Z → Z → bitmap4 → result Z (list entry4 * bool);
  sp_read : F → nfs_fh4 → stateid4 → Z → Z → result Z (bytes * bool);
  sp_write : F → nfs_fh4 → stateid4 → Z → Z → bytes → result Z (F * (Z * Z));
  sp_copy : F → nfs_fh4 → nfs_fh4 → stateid4 → stateid4 → Z → Z → Z → result Z (F * Z);
  sp_create : F → nfs_fh4 → bytes → createtype4 → result Z (F * nfs_fh4);
  sp_remove : F → nfs_fh4 → bytes → result Z F;
  sp_rename : F → nfs_fh4 → bytes → nfs_fh4 → bytes → result Z F;
  sp_link : F → nfs_fh4 → nfs_fh4 → bytes → result Z F;
  sp_open : F → nfs_fh4 → OPEN4args → result Z (F * (nfs_fh4 * stateid4 * bitmap4));
  sp_close : F → nfs_fh4 → Z → stateid4 → result Z F;
}.
Arguments NfsSpec {F}.
Arguments sp_putfh {F}.
Arguments sp_root {F}.
Arguments sp_lookup {F}.
Arguments sp_lookupp {F}.
Arguments sp_getattr {F}.
Arguments sp_nverify {F}.
Arguments sp_setattr {F}.
Arguments sp_readlink {F}.
Arguments sp_readdir {F}.
Arguments sp_read {F}.
Arguments sp_write {F}.
Arguments sp_copy {F}.
Arguments sp_create {F}.
Arguments sp_remove {F}.
Arguments sp_rename {F}.
Arguments sp_link {F}.
Arguments sp_open {F}.
Arguments sp_close {F}.

(** ** The machine of a compound *)

Record machine (F : Type) := Machine { mc_fs : F; mc_cur : option nfs_fh4; mc_sav : option nfs_fh4 }.
Arguments Machine {F}.
Arguments mc_fs {F}.
Arguments mc_cur {F}.
Arguments mc_sav {F}.

(** A payload as the decoder stores it. *)
Definition vec_of (b : bytes) : xdr_vec := XdrVec (Z.of_nat (length b)) (Some b).

(** The operations a compound may carry behind SEQUENCE here. *)
Definition file_op (op : argop) : bool :=
  match op with
  | ASequence _ _ _ _ | AExchangeId _ _ _ | ACreateSession _ _ | AReclaimComplete | ABindConn _
  | ADestroySession _ | ADestroyClientid _ => false
  | _ => true
  end.

Section Machine.
Context {F : Type} (s : nfs_spec F).

Definition start (f : F) : machine F := Machine f None None.

(** The current, or the saved, filehandle. *)
Definition need {A} (fh : option nfs_fh4) (k : nfs_fh4 → result Z A) : result Z A :=
  match fh with Some x => k x | None => Err NFS4ERR_NOFILEHANDLE end.
Definition keep_fh {A} (m : machine F) (r : result Z A) (payload : A → resop) : result Z (machine F * resop) :=
  match r with Ok v => Ok (m, payload v) | Err st => Err st end.
Definition keep_at {A} (m : machine F) (r : result Z (F * A)) (payload : A → resop) : result Z (machine F * resop) :=
  match r with Ok (f, v) => Ok (Machine f (mc_cur m) (mc_sav m), payload v) | Err st => Err st end.
Definition keep_fs (m : machine F) (r : result Z F) (op : Z) : result Z (machine F * resop) :=
  match r with Ok f => Ok (Machine f (mc_cur m) (mc_sav m), RPlain op NFS_OK) | Err st => Err st end.
Definition go_fh (m : machine F) (r : result Z nfs_fh4) (op : Z) : result Z (machine F * resop) :=
  match r with Ok x => Ok (Machine (mc_fs m) (Some x) (mc_sav m), RPlain op NFS_OK) | Err st => Err st end.

(** One operation: the machine after it and its result, or its status. *)
Definition spec_step (m : machine F) (op : argop) : result Z (machine F * resop) :=
  let 'Machine f cur sav := m in
  match op with
  | APutFh fh => match sp_putfh s f fh with
                 | Ok _ => Ok (Machine f (Some fh) sav, RPlain OP_PUTFH NFS_OK)
                 | Err st => Err st
                 end
  | APutRootFh => Ok (Machine f (Some (sp_root s)) sav, RPlain OP_PUTROOTFH NFS_OK)
  | AGetFh => need cur (λ x, Ok (m, RGetFh NFS_OK (vec_of x)))
  | ASaveFh => need cur (λ x, Ok (Machine f cur (Some x), RPlain OP_SAVEFH NFS_OK))
  | ARestoreFh => need sav (λ x, Ok (Machine f (Some x) sav, RPlain OP_RESTOREFH NFS_OK))
  | ALookup n => need cur (λ x, go_fh m (sp_lookup s f x n) OP_LOOKUP)
  | ALookupp => need cur (λ x, go_fh m (sp_lookupp s f x) OP_LOOKUPP)
  | AGetattr a => need cur (λ x, keep_fh m (sp_getattr s f x a) (λ v, RGetattr NFS_OK v.1 (vec_of v.2)))
  | ANverify a => need cur (λ x, keep_fh m (sp_nverify s f x a) (λ _, RPlain OP_NVERIFY NFS_OK))
  | ASetattr st a => need cur (λ x, keep_fs m (sp_setattr s f x st a) OP_SETATTR)
  | AReadlink => need cur (λ x, keep_fh m (sp_readlink s f x) (λ v, RReadlink NFS_OK (vec_of v)))
  | AReaddir c v d n a => need cur (λ x, keep_fh m (sp_readdir s f x c v d n a) (λ p, RReaddir NFS_OK p.1 p.2))
  | ARead st off n => need cur (λ x, keep_fh m (sp_read s f x st off n) (λ v, RRead NFS_OK v.2 (vec_of v.1)))
  | AWrite st off h b => need cur (λ x, keep_at m (sp_write s f x st off h b) (λ v, RWrite NFS_OK v.1 v.2))
  | ACopy a b o o' n =>
      need sav (λ y, need cur (λ x, keep_at m (sp_copy s f y x a b o o' n) (λ v, RCopy NFS_OK v)))
  | ACreate n t => need cur (λ x, match sp_create s f x n t with
                                  | Ok (f, y) => Ok (Machine f (Some y) sav, RPlain OP_CREATE NFS_OK)
                                  | Err st => Err st
                                  end)
  | ARemove n => need cur (λ x, keep_fs m (sp_remove s f x n) OP_REMOVE)
  | ARename o n => need sav (λ y, need cur (λ x, keep_fs m (sp_rename s f y o x n) OP_RENAME))
  | ALink n => need sav (λ y, need cur (λ x, keep_fs m (sp_link s f y x n) OP_LINK))
  | AOpen a => need cur (λ x, match sp_open s f x a with
                              | Ok (f, (y, st, mask)) => Ok (Machine f (Some y) sav, ROpen NFS_OK st mask)
                              | Err st => Err st
                              end)
  | AClose q st => need cur (λ x, keep_fs m (sp_close s f x q st) OP_CLOSE)
  | _ => Err NFS4ERR_OP_ILLEGAL
  end.

(** All of a list of operations, when none fails. *)
Fixpoint spec_steps (m : machine F) (ops : list argop) : option (machine F * list resop) :=
  match ops with
  | [] => Some (m, [])
  | op :: ops =>
      match spec_step m op with
      | Ok (m, r) => '(m, rs) ← spec_steps m ops; Some (m, r :: rs)
      | Err _ => None
      end
  end.
End Machine.

(** A result of the wire that carries the payload of the machine. *)
Definition shows (actual expected : resop) : Prop :=
  match actual, expected with
  | RGetFh _ v, RGetFh _ v' | RReadlink _ v, RReadlink _ v' => CompoundRes.vec_bytes v = CompoundRes.vec_bytes v'
  | RRead _ e v, RRead _ e' v' => e = e' ∧ CompoundRes.vec_bytes v = CompoundRes.vec_bytes v'
  | RGetattr _ a v, RGetattr _ a' v' => a = a' ∧ CompoundRes.vec_bytes v = CompoundRes.vec_bytes v'
  | _, _ => actual = expected
  end.

(** The transport leads to a server of this specification, [fs] being the state
    of its file system.  Of every request some prefix of the operations is
    carried out.  When the client accepts the reply, it is the prefix the reply
    shows, with the payloads of the machine, and the operation after it failed
    with the status of the reply, or the server ran out of resources. *)
Definition implements {F W} (s : nfs_spec F) (rpc : Compound.t → W → RpcResult COMPOUND4res * W) (fs : W → F)
    : Prop :=
  ∀ c w r w' sid q ops, rpc c w = (r, w') → Compound.ops c = ASequence sid q 0 0 :: ops → Forall file_op ops →
    ∃ k m rs, spec_steps s (start (fs w)) (take k ops) = Some (m, rs) ∧ fs w' = mc_fs m ∧
      ∀ res, r = Ok res → reply_ok (Compound.ops c) res →
        k = ops_done res ∧ Forall2 shows (take k (drop 1 (results res))) rs ∧
        ∀ op, 1 < CompoundRes.nops res → CompoundRes.status res ≠ NFS_OK → ops !! k = Some op →
          spec_step s m op = Err (CompoundRes.status res) ∨ resource_status (CompoundRes.status res) = true.

(** ** The reference server *)

(** The result of an operation that failed. *)
Definition failed_resop (op : argop) (st : Z) : resop :=
  match op with
  | AGetFh => RGetFh st (XdrVec 0 None)
  | ARead _ _ _ => RRead st false (XdrVec 0 None)
  | AReadlink => RReadlink st (XdrVec 0 None)
  | AGetattr _ => RGetattr st (Bitmap 0 (0, 0, 0)) (XdrVec 0 None)
  | AOpen _ => ROpen st zero_stateid (Bitmap 0 (0, 0, 0))
  | AWrite _ _ _ _ => RWrite st 0 0
  | AReaddir _ _ _ _ _ => RReaddir st [] true
  | ACopy _ _ _ _ _ => RCopy st 0
  | AExchangeId _ _ _ => RExchangeId st 0 0 0
  | ACreateSession _ _ => RCreateSession st [] 0 0 0
  | _ => RPlain (argop_num op) st
  end.

Section Reference.
Context {F : Type} (s : nfs_spec F).

Fixpoint spec_run (m : machine F) (ops : list argop) : machine F * list resop * Z :=
  match ops with
  | [] => (m, [], NFS_OK)
  | op :: ops =>
      match spec_step s m op with
      | Ok (m, r) => let '(m, rs, st) := spec_run m ops in (m, r :: rs, st)
      | Err st => (m, [failed_resop op st], st)
      end
  end.

(** A request of more than [limit] operations is refused before SEQUENCE. *)
Definition spec_server (limit : Z) (c : Compound.t) (f : F) : RpcResult COMPOUND4res * F :=
  match Compound.ops c with
  | ASequence _ _ _ _ :: ops =>
      if limit <? Z.of_nat (length ops) then (Ok (Res NFS4ERR_RESOURCE 0 None), f)
      else let '(m, rs, st) := spec_run (start f) ops in
           (Ok (Res st (1 + Z.of_nat (length rs)) (Some (RPlain OP_SEQUENCE NFS_OK :: rs))), mc_fs m)
  | _ => (Ok (Res NFS4ERR_OP_ILLEGAL 0 None), f)
  end.
End Reference.

Module ServerLemmas.
Section Steps.
Context {F : Type} (s : nfs_spec F).

Lemma spec_steps_app m a b : spec_steps s m (a ++ b) =
  '(m1, r1) ← spec_steps s m a; '(m2, r2) ← spec_steps s m1 b; Some (m2, r1 ++ r2).
Proof.
  revert m. induction a as [|op a IH]; intros m; cbn; [by destruct (spec_steps s m b) as [[]|]|].
  destruct (spec_step s m op) as [[m1 r1]|st]; [|done]. rewrite IH.
  destruct (spec_steps s m1 a) as [[m2 r2]|]; cbn; [|done]. by destruct (spec_steps s m2 b) as [[m3 r3]|].
Qed.

Lemma spec_steps_length m ops m' rs : spec_steps s m ops = Some (m', rs) → length rs = length ops.
Proof.
  revert m m' rs. induction ops as [|op ops IH]; intros m m' rs; cbn; [by intros [= _ <-]|].
  destruct (spec_step s m op) as [[m1 r1]|st]; [|done].
  intros ([m2 r2] & H & [= <- <-])%bind_Some. cbn. f_equal. by eapply IH.
Qed.

(** A run: the operations up to the first that fails, and its status. *)
Lemma spec_run_steps m ops : ∃ k m' rs, spec_steps s m (take k ops) = Some (m', rs) ∧ (k <= length ops)%nat ∧
  (k = length ops ∧ spec_run s m ops = (m', rs, NFS_OK) ∨
   ∃ op st, ops !! k = Some op ∧ spec_step s m' op = Err st ∧
     spec_run s m ops = (m', rs ++ [failed_resop op st], st)).
Proof.
  revert m. induction ops as [|op ops IH]; intros m; cbn [spec_run].
  { exists 0%nat, m, []. split; [done|]. split; [done|]. by left. }
  destruct (spec_step s m op) as [[m1 r1]|st] eqn:Hs.
  - destruct (IH m1) as (k & m' & rs & Hk & Hle & Hr). exists (S k), m', (r1 :: rs). cbn. rewrite Hs, Hk. cbn.
    split; [done|]. split; [lia|]. destruct Hr as [[-> ->]|(op' & st & Ho & Hst & ->)]; [by left|right].
    by exists op', st.
  - exists 0%nat, m, []. split; [done|]. split; [cbn; lia|]. right. by exists op, st.
Qed.
End Steps.

(** What the decoder adds to a specification: proper statuses, and directory
    pages with owned names. *)
Record spec_ok {F} (s : nfs_spec F) : Prop := {
  spec_status m op st : spec_step s m op = Err st → st ≠ NFS_OK ∧ st ≠ U32_MAX;
  spec_pages f x c v d n a p : sp_readdir s f x c v d n a = Ok p → resop_decoded (RReaddir NFS_OK p.1 p.2);
}.

Section Reference.
Context {F : Type} (s : nfs_spec F) (Hs : spec_ok s).

Lemma vec_of_decoded b : vec_decoded (vec_of b).
Proof. by intros ? [= <-]. Qed.

Lemma vec_of_bytes b : CompoundRes.vec_bytes (vec_of b) = Some b.
Proof. unfold CompoundRes.vec_bytes. cbn. by destruct b. Qed.

Lemma vec_of_not_null st b : vec_is_null st (vec_of b) = false.
Proof. unfold vec_is_null. cbn. by rewrite andb_false_r. Qed.

Lemma shows_refl r : shows r r.
Proof. by destruct r. Qed.

(** The result of a successful operation. *)
Lemma step_result m op m' r : spec_step s m op = Ok (m', r) →
  resop_decoded r ∧ resop_num r = argop_num op ∧ response_op_status r = NFS_OK ∧ null_payload r = false.
Proof.
  destruct m as [f c sv]. destruct op; try done; cbn [spec_step]; unfold need, keep_fh, keep_at, keep_fs, go_fh; intros Hst;
    repeat (case_match; simplify_eq/=); simplify_eq;
    (split; [first [done | apply vec_of_decoded | by eapply spec_pages | by apply (bool_decide_unpack _)]|]);
    (split; [done|]); (split; [done|]); first [done | apply vec_of_not_null].
Qed.

Lemma failed_result op st : st ≠ NFS_OK →
  resop_decoded (failed_resop op st) ∧ resop_num (failed_resop op st) = argop_num op ∧
  response_op_status (failed_resop op st) = st ∧ null_payload (failed_resop op st) = false.
Proof.
  intros Hst. assert ((st =? NFS_OK) = false) as Hne by (by apply Z.eqb_neq).
  destruct op; try done; cbn; unfold vec_is_null; rewrite ?Hne;
    (split; [first [done | by apply (bool_decide_unpack _) | constructor]|done]).
Qed.

Lemma steps_results m ops m' rs : spec_steps s m ops = Some (m', rs) →
  Forall2 (λ op r, resop_decoded r ∧ op_ok op r NFS_OK) ops rs.
Proof.
  revert m m' rs. induction ops as [|op ops IH]; intros m m' rs; cbn; [intros [= _ <-]; constructor|].
  destruct (spec_step s m op) as [[m1 r1]|st] eqn:E; [|done].
  intros ([m2 r2] & H & [= <- <-])%bind_Some. constructor; [|by eapply IH].
  destruct (step_result _ _ _ _ E) as (? & ? & Hst & ?). split; [done|]. split_and!; try done. by rewrite Hst.
Qed.

(** The reply to a request within the limit. *)
Definition ran (st : Z) (rs : list resop) : COMPOUND4res :=
  Res st (1 + Z.of_nat (length rs)) (Some (RPlain OP_SEQUENCE NFS_OK :: rs)).

Lemma results_ran st rs : results (ran st rs) = RPlain OP_SEQUENCE NFS_OK :: rs.
Proof. unfold results. cbn [ran cr_len cr_val default]. apply take_ge. cbn. lia. Qed.

Lemma spec_run_reply m ops m' rs st : spec_run s m ops = (m', rs, st) →
  (length rs <= length ops)%nat ∧ Forall resop_decoded rs ∧
  ∃ rs0, spec_steps s m (take (ops_done (ran st rs)) ops) = Some (m', rs0) ∧
    Forall2 shows (take (ops_done (ran st rs)) rs) rs0 ∧
    ∀ op, st ≠ NFS_OK → ops !! ops_done (ran st rs) = Some op → spec_step s m' op = Err st.
Proof.
  intros Hrun. destruct (spec_run_steps s m ops) as (k & m1 & rs1 & Hk & Hle & Hr).
  pose proof (spec_steps_length s _ _ _ _ Hk) as Hlen. rewrite length_take, Nat.min_l in Hlen by lia.
  pose proof (steps_results _ _ _ _ Hk) as Hrs.
  assert (Forall resop_decoded rs1) as Hdec by (clear -Hrs; induction Hrs as [|????[]]; by constructor).
  assert (Hrefl : Forall2 shows rs1 rs1) by (clear; induction rs1; constructor; [apply shows_refl|done]).
  destruct Hr as [[-> Hr]|(op & st' & Hop & Hst & Hr)]; rewrite Hr in Hrun; injection Hrun as <- <- <-.
  - assert (ops_done (ran NFS_OK rs1) = length ops) as -> by (unfold ops_done; cbn; lia).
    split; [lia|]. split; [done|]. exists rs1. split; [done|]. rewrite take_ge by lia. by split.
  - destruct (spec_status s Hs _ _ _ Hst) as [Hne _]. pose proof (lookup_lt_Some _ _ _ Hop).
    assert (ops_done (ran st' (rs1 ++ [failed_resop op st'])) = k) as ->.
    { unfold ops_done. cbn [ran CompoundRes.nops CompoundRes.status cr_len cr_status].
      destruct (Z.eqb_spec st' NFS_OK); [done|]. rewrite length_app. cbn. lia. }
    rewrite length_app. cbn [length]. split; [lia|]. split.
    { apply Forall_app. split; [done|]. constructor; [|done]. by apply failed_result. }
    exists rs1. split; [done|]. rewrite <-Hlen, take_app_length. split; [done|]. intros op' _ Hop'. congruence.
Qed.

(** The reference server meets the contract. *)
Lemma spec_server_implements limit : implements s (spec_server s limit) id.
Proof.
  intros c f r f' sid q ops Hr Hops _. unfold spec_server in Hr. rewrite Hops in Hr.
  destruct (limit <? _).
  { injection Hr as <- <-. exists 0%nat, (start f), []. split; [done|]. split; [done|].
    intros res [= <-] _. by split_and!. }
  destruct (spec_run s (start f) ops) as [[m rs] st] eqn:Hrun. injection Hr as <- <-.
  destruct (spec_run_reply _ _ _ _ _ Hrun) as (Hlen & _ & rs0 & Hk & Hsh & Hst).
  exists (ops_done (ran st rs)), m, rs0. split; [done|]. split; [done|]. intros res [= <-] _.
  split; [done|]. fold (ran st rs). rewrite results_ran. cbn [drop]. rewrite drop_0. split; [done|].
  intros op _ Hne Hop. left. by apply Hst.
Qed.

Lemma spec_server_transport limit : limit < U32_MAX → transport_ok (spec_server s limit).
Proof.
  intros Hlim. split; [|intros c f e f'; unfold spec_server; repeat case_match; done].
  intros c f res f'. unfold spec_server.
  assert (Hnone : ∀ st, decoded (Res st 0 None)) by (intros st; split; [done|by intros l]).
  destruct (Compound.ops c) as [|op ops]; [by intros [= <- _]|]. destruct op; try by intros [= <- _].
  destruct (Z.ltb_spec limit (Z.of_nat (length ops))); [by intros [= <- _]|].
  destruct (spec_run s (start f) ops) as [[m rs] st] eqn:Hrun. intros [= <- _].
  destruct (spec_run_reply _ _ _ _ _ Hrun) as (Hlen & Hdec & _). split; [cbn; lia|].
  intros l [= <-]. split; [cbn; lia|]. constructor; [by apply (bool_decide_unpack _)|done].
Qed.
End Reference.
End ServerLemmas.

(** ** A file system in memory *)

(** A concrete service for the examples: files, directories and links by
    handle.  What it does not offer fails with NFS4ERR_NOTSUPP. *)
Inductive node := NFile (data : bytes) | NDir (entries : gmap bytes bytes) | NLink (target : bytes).
Record mem := Mem { nodes : gmap bytes node; fresh : Z; opened : list stateid4 }.

#[global] Instance stateid4_eq_dec : EqDecision stateid4.
Proof. solve_decision. Defined.
#[global] Instance bitmap4_eq_dec : EqDecision bitmap4.
Proof. solve_decision. Defined.

Module MemFs.
Definition NOENT : Z := 2.
Definition EXIST : Z := 17.
Definition NOTDIR : Z := 20.
Definition INVAL : Z := 22.
Definition STALE : Z := 70.
Definition NOTSUPP : Z := 10004.
Definition FBIG : Z := 27.
Definition BAD_STATEID : Z := 10025.
Definition SYMLINK : Z := 10029.

Definition node_at (f : mem) (fh : bytes) : result Z node :=
  match nodes f !! fh with Some n => Ok n | None => Err STALE end.
Definition dir_at (f : mem) (fh : bytes) : result Z (gmap bytes bytes) :=
  match node_at f fh with
  | Ok (NDir d) => Ok d
  | Ok (NLink _) => Err SYMLINK
  | Ok (NFile _) => Err NOTDIR
  | Err st => Err st
  end.
Definition set_node (f : mem) (fh : bytes) (n : node) : mem := Mem (<[fh := n]> (nodes f)) (fresh f) (opened f).
Definition lookup (f : mem) (fh name : bytes) : result Z bytes :=
  match dir_at f fh with
  | Ok d => match d !! name with Some x => Ok x | None => Err NOENT end
  | Err st => Err st
  end.
Definition new_object (f : mem) (dir name : bytes) (n : node) : result Z (mem * bytes) :=
  match dir_at f dir with
  | Ok d =>
      if d !! name is Some _ then Err EXIST
      else let fh := be_bytes 2 (fresh f) in
           let f := set_node (set_node f dir (NDir (<[name := fh]> d))) fh n in
           Ok (Mem (nodes f) (fresh f + 1) (opened f), fh)
  | Err st => Err st
  end.
Definition read (f : mem) (fh : bytes) (off n : Z) : result Z (bytes * bool) :=
  match node_at f fh with
  | Ok (NFile b) =>
      if off <? 0 then Err INVAL
      else Ok (slice (Z.to_nat off) (Z.to_nat (off + n)) b, Z.of_nat (length b) <=? off + n)
  | Ok _ => Err INVAL
  | Err st => Err st
  end.
Definition write (f : mem) (fh : bytes) (off : Z) (data : bytes) : result Z (mem * (Z * Z)) :=
  match node_at f fh with
  | Ok (NFile b) =>
      let b := if data is [] then b
               else take (Z.to_nat off) b ++ replicate (Z.to_nat off - length b) Byte.x00 ++ data ++
                    drop (Z.to_nat off + length data) b in
      Ok (set_node f fh (NFile b), (Z.of_nat (length data), 2))
  | Ok _ => Err INVAL
  | Err st => Err st
  end.
Definition remove (f : mem) (dir name : bytes) : result Z mem :=
  match dir_at f dir, lookup f dir name with
  | Ok d, Ok _ => Ok (set_node f dir (NDir (delete name d)))
  | _, Err st | Err st, _ => Err st
  end.
Definition link (f : mem) (src dir name : bytes) : result Z mem :=
  match dir_at f dir with
  | Ok d => if d !! name is Some _ then Err EXIST else Ok (set_node f dir (NDir (<[name := src]> d)))
  | Err st => Err st
  end.
Definition rename (f : mem) (sd o dd n : bytes) : result Z mem :=
  match lookup f sd o, remove f sd o with
  | Ok x, Ok f' =>
      match dir_at f' dd with Ok d => Ok (set_node f' dd (NDir (<[n := x]> d))) | Err st => Err st end
  | Err st, _ | _, Err st => Err st
  end.
(** Every OPEN gets a stateid of its own. *)
Definition register (f : mem) (fh : bytes) : mem * (bytes * stateid4 * bitmap4) :=
  let st := StateId 1 (be_bytes 12 (fresh f)) in
  (Mem (nodes f) (fresh f + 1) (st :: opened f), (fh, st, Bitmap 0 (0, 0, 0))).
Definition open (f : mem) (dir : bytes) (a : OPEN4args) : result Z (mem * (bytes * stateid4 * bitmap4)) :=
  match oa_claim a, oa_openhow a with
  | ClaimFh, _ => match node_at f dir with Ok _ => Ok (register f dir) | Err st => Err st end
  | ClaimNull name, how =>
      match lookup f dir name, how with
      | Ok x, (NoCreate | CreateUnchecked _) => Ok (register f x)
      | Ok _, _ => Err EXIST
      | Err st, NoCreate => Err st
      | Err _, _ => match new_object f dir name (NFile []) with Ok (f, x) => Ok (register f x) | Err st => Err st end
      end
  end.
Definition close (f : mem) (st : stateid4) : result Z mem :=
  if bool_decide (st ∈ opened f) then Ok (Mem (nodes f) (fresh f) (filter (λ x, x ≠ st) (opened f)))
  else Err BAD_STATEID.

Definition spec : nfs_spec mem := {|
  sp_putfh f fh := match node_at f fh with Ok _ => Ok tt | Err st => Err st end;
  sp_root := bstr "root";
  sp_lookup := lookup;
  sp_lookupp _ _ := Err NOTSUPP;
  sp_getattr f fh a :=
    match node_at f fh with
    | Ok n =>
        if bool_decide (a = Compound.bitmap [FATTR4_TYPE]) then
          Ok (a, be_bytes 4 (match n with NFile _ => 1 | NDir _ => 2 | NLink _ => 5 end))
        else
          let size := match n with NFile b => Z.of_nat (length b) | _ => 0 end in
          if size <=? U64_MAX then Ok (a, be_bytes 8 size) else Err FBIG
    | Err st => Err st
    end;
  sp_nverify f fh _ := match node_at f fh with Ok _ => Ok tt | Err st => Err st end;
  sp_setattr f fh _ _ := match node_at f fh with Ok _ => Ok f | Err st => Err st end;
  sp_readlink f fh := match node_at f fh with Ok (NLink t) => Ok t | Ok _ => Err INVAL | Err st => Err st end;
  sp_readdir _ _ _ _ _ _ _ := Err NOTSUPP;
  sp_read f fh _ off n := read f fh off n;
  sp_write f fh _ off _ data := write f fh off data;
  sp_copy _ _ _ _ _ _ _ _ := Err NOTSUPP;
  sp_create f dir name t :=
    new_object f dir name (match t with CreateLink target => NLink target | _ => NDir ∅ end);
  sp_remove := remove;
  sp_rename := rename;
  sp_link := link;
  sp_open := open;
  sp_close f _ _ st := close f st;
|}.

Lemma mem_spec_ok : ServerLemmas.spec_ok spec.
Proof.
  split; [|done]. intros [f c sv] op st.
  destruct op; cbn; unfold need, keep_fh, keep_at, keep_fs, go_fh, write, read, close, open, new_object, rename, remove,
    link, lookup, dir_at, node_at; intros H; repeat (case_match; simplify_eq/=); simplify_eq; done.
Qed.
End MemFs.
