(* ===== verification/Batch.v ===== *)
(** * Tolerant batches

    Models the batched lookups of [crates/vfsi-nfs/src/client.rs]
    ([lookup_many], [lookup_getattr_many]).  The loop repacks a batch that does
    not fit, shrinks it when the server rejects its size, and records a failure
    at the item it belongs to before it goes on with the next one. *)
From stdpp Require Import base numbers list list_numbers gmap strings pretty.
From S2P Require Import Prelude Errors Planner Compound Session Client Loops Exchange.

(** [v[i] = x]; [None] is the out-of-range panic. *)
Definition vec_set {A} (v : list A) (i : Z) (x : A) : option (list A) :=
  if (0 <=? i) && (i <? Z.of_nat (length v)) then Some (<[Z.to_nat i := x]> v) else None.

(** ** Tolerant lookups

    [lookup_many] and [lookup_getattr_many] are the same loop with another tag,
    another operation sequence per item and another result. *)

Module Tolerant.
Section Loop.
Context {W : Type} (rpc : Compound.t → W → RpcResult COMPOUND4res * W) (xdr_len : Compound.t → Z).
Context {T R : Type} (tag : string) (per : Z) (add : Compound.t → T → Compound.t).
Context (extract : COMPOUND4res → Z → option R).

Record state := State {
  client : NfsClient.t;
  world : W;
  cursor : Z;
  max_items : Z;
  out : list (option (result Z R));
}.

(** The compound for a chunk of items, and its execution map. *)
Fixpoint build (c : Compound.t) (map : ExecutionMap.t) (caller : Z) (items : list T)
    : Compound.t * ExecutionMap.t :=
  match items with
  | [] => (c, map)
  | item :: items =>
      build (add c item)
        (ExecutionMap.end_ (ExecutionMap.note_ops (ExecutionMap.begin map caller) per))
        (caller + 1) items
  end.

(** [for &(caller, start, _) in map.completed_ranges(&report)]. *)
Fixpoint store (res : COMPOUND4res) (rs : list ExecutionMap.range) (out : list (option (result Z R)))
    : option (list (option (result Z R))) :=
  match rs with
  | [] => Some out
  | r :: rs =>
      v ← extract res (ExecutionMap.r_start r);
      out ← vec_set out (ExecutionMap.r_caller r) (Some (Ok v));
      store res rs out
  end.

Definition answer : Type := RpcResult (list (result Z R)) * NfsClient.t * W.

(** The part of the loop body after an accepted reply; [None] is a panic. *)
Definition after_reply (cl : NfsClient.t) (w : W) (cursor end_ : Z) (out : list (option (result Z R)))
    (map : ExecutionMap.t) (res : COMPOUND4res) : option (turn state answer) :=
  match ExecutionMap.analyze map res with
  | Err error =>
      Some (Return (invalid_reply ("malformed " +:+ tag +:+ " COMPOUND reply: "
                      +:+ display_malformed error), cl, w))
  | Ok report =>
      match compound_failure report with
      | Some status =>
          if resource_status status && (1 <? end_ - cursor)
          then Some (Again (State cl w cursor USIZE_MAX out))
          else Some (Return (Err (RpcError.op cursor status), cl, w))
      | None =>
          out ← store res (ExecutionMap.completed_ranges map report) out;
          match failure report with
          | Some f =>
              if resource_status (if_status f) && (1 <? end_ - cursor)
              then Some (Again (State cl w (if_caller f) USIZE_MAX out))
              else out ← vec_set out (if_caller f) (Some (Err (if_status f)));
                   Some (Again (State cl w (if_caller f + 1) USIZE_MAX out))
          | None => Some (Again (State cl w end_ USIZE_MAX out))
          end
      end
  end.

(** The body of the loop. *)
Definition round (ops : list T) (st : state) : option (turn state answer) :=
  let 'State cl w cursor max_items out := st in
  match CompoundBudget.batch_capacity (NfsClient.op_budget_for cl (bstr tag) (1 + per)) per with
  | Err e => Some (Return (Err e, cl, w))
  | Ok capacity =>
      let end_ := Z.min (cursor + Z.min capacity max_items) (Z.of_nat (length ops)) in
      let '(c, map) := build (Compound.tag Compound.new (bstr tag)) ExecutionMap.new cursor
                         (slice (Z.to_nat cursor) (Z.to_nat end_) ops) in
      let '(fits, c) := NfsClient.compound_request_fits xdr_len cl c in
      if negb fits && (1 <? end_ - cursor)
      then Some (Again (State cl w cursor ((end_ - cursor) / 2) out))
      else
        let '(r, cl, w) := NfsClient.call_compound_with_safety rpc xdr_len cl c ReadOnly w in
        match r with
        | Err e => Some (Return (Err e, cl, w))
        | Ok res => after_reply cl w cursor end_ out map res
        end
  end.

(** The final collection: every slot is filled. *)
Fixpoint collect (caller : Z) (out : list (option (result Z R))) : RpcResult (list (result Z R)) :=
  match out with
  | [] => Ok []
  | v :: out =>
      v ← ok_or v (RpcError.transport (tag +:+ " planner omitted caller item " +:+ pretty caller));
      rest ← collect (caller + 1) out;
      Ok (v :: rest)
  end.

Definition loop (fuel : nat) (ops : list T) (st : state) : outcome answer :=
  run (λ st, cursor st <? Z.of_nat (length ops)) (round ops)
    (λ st, (collect 0 (out st), client st, world st)) fuel st.

Definition many (fuel : nat) (cl : NfsClient.t) (ops : list T) (w : W) : outcome answer :=
  match ops with
  | [] => Done (Ok [], cl, w)
  | _ => loop fuel ops (State cl w 0 USIZE_MAX (replicate (length ops) None))
  end.
End Loop.
End Tolerant.

(** [lookup_many]: [PUTFH, LOOKUP, GETFH] per item. *)
Definition add_lookup (c : Compound.t) (op : nfs_fh4 * bytes) : Compound.t :=
  Compound.getfh (Compound.lookup (Compound.putfh c op.1) op.2).

Definition lookup_many {W} (rpc : Compound.t → W → RpcResult COMPOUND4res * W) (xdr_len : Compound.t → Z) :=
  Tolerant.many rpc xdr_len "lookupv" 3 add_lookup (λ res start, CompoundRes.getfh res (start + 2)).

(** [u32::from_be_bytes(bytes[0..4])], zero for a short value. *)
Definition be_u32 (b : bytes) : Z :=
  if 4 <=? Z.of_nat (length b) then foldl (λ acc x, acc * 256 + byte_val x) 0 (take 4 b) else 0.

(** [lookup_getattr_many]: [PUTFH, LOOKUP, GETFH, GETATTR] per item. *)
Definition add_lookup_getattr (c : Compound.t) (op : nfs_fh4 * bytes) : Compound.t :=
  Compound.getattr (add_lookup c op) [FATTR4_TYPE].

Definition lookup_getattr_many {W} (rpc : Compound.t → W → RpcResult COMPOUND4res * W)
    (xdr_len : Compound.t → Z) :=
  Tolerant.many rpc xdr_len "lookup_typev" 4 add_lookup_getattr
    (λ res start, fh ← CompoundRes.getfh res (start + 2);
                  b ← CompoundRes.getattr res (start + 3);
                  Some (fh, be_u32 b)).

(** ** Lemmas on the tolerant loop *)

(** What an item appends to a compound: its own operations, always as many. *)
Class ItemShape {T} (add : Compound.t → T → Compound.t) (per : Z) (item_ops : T → list argop) : Prop := {
  shape_pos : 0 < per;
  shape_ops c x : Compound.ops (add c x) = Compound.ops c ++ item_ops x;
  shape_len x : Z.of_nat (length (item_ops x)) = per;
  shape_tag c x : Compound.tag_ (add c x) = Compound.tag_ c;
  shape_cache c x : Compound.size_check (add c x) = None;
}.

#[global] Instance add_lookup_shape :
  ItemShape add_lookup 3 (λ op, [APutFh op.1; ALookup op.2; AGetFh]).
Proof. split; try done. intros c [d n]. cbn. by rewrite <-!app_assoc. Qed.

#[global] Instance add_lookup_getattr_shape :
  ItemShape add_lookup_getattr 4
    (λ op, [APutFh op.1; ALookup op.2; AGetFh; AGetattr (Compound.bitmap [FATTR4_TYPE])]).
Proof. split; try done. intros c [d n]. cbn. by rewrite <-!app_assoc. Qed.

(** A rejected size makes the next batch of the shape smaller. *)
Lemma observe_shrinks l tag sent status k :
  AdaptiveCompoundLimits.wf l → resource_status status = true →
  2 <= sent <= AdaptiveCompoundLimits.limit l tag →
  AdaptiveCompoundLimits.limit (AdaptiveCompoundLimits.observe l tag sent status k) tag
    < AdaptiveCompoundLimits.limit l tag.
Proof.
  intros Hwf Hst. rewrite !LimitsLemmas.limit_sizer by eauto using LimitsLemmas.observe_wf.
  rewrite LimitsLemmas.sizer_of_observe, decide_True by done. intros Hs.
  assert (sent / 2 < sent) by (apply Z.div_lt; lia). assert (1 <= sent / 2) by (apply Z.div_le_lower_bound; lia).
  unfold resource_status in Hst. unfold AdaptiveCompoundLimits.record.
  assert (status = NFS4ERR_RESOURCE ∨ status = NFS4ERR_TOO_MANY_OPS) as [-> | ->] by lia;
    cbn [Z.eqb Pos.eqb NFS4ERR_RESOURCE NFS4ERR_TOO_MANY_OPS NFS_OK].
  - cbn [AdaptiveBatchSizer.resource_rejected AdaptiveBatchSizer.current]. lia.
  - unfold AdaptiveBatchSizer.op_limit_rejected. destruct (Z.ltb_spec 1 sent); [|lia].
    cbn [AdaptiveBatchSizer.current]. lia.
Qed.

Module TolerantLemmas.
Import Tolerant.

(** The ranges of a chunk of equally long items. *)
Fixpoint chunk_ranges (per caller first : Z) (n : nat) : list ExecutionMap.range :=
  match n with
  | O => []
  | S n => (caller, first, first + per) :: chunk_ranges per (caller + 1) (first + per) n
  end.

Lemma chunk_ranges_length per caller first n : length (chunk_ranges per caller first n) = n.
Proof. revert caller first. induction n; intros; cbn; congruence. Qed.

Lemma chunk_ranges_lookup per caller first n j : (j < n)%nat →
  chunk_ranges per caller first n !! j =
  Some (caller + Z.of_nat j, first + per * Z.of_nat j, first + per * (Z.of_nat j + 1)).
Proof.
  revert caller first j. induction n as [|n IH]; intros caller first j Hj; [lia|].
  destruct j as [|j]; cbn [chunk_ranges lookup list_lookup].
  - f_equal. apply f_equal2; [apply f_equal2|]; lia.
  - rewrite IH by lia. f_equal. apply f_equal2; [apply f_equal2|]; lia.
Qed.

Lemma chunk_ranges_wf per caller first n : 0 < per → ExecutionMap.wf_from first (chunk_ranges per caller first n).
Proof.
  intros Hp. revert caller first. induction n as [|n IH]; intros; cbn; [done|].
  unfold ExecutionMap.r_start, ExecutionMap.r_end. cbn. split_and!; [lia|lia|apply IH].
Qed.

Section Build.
Context {T : Type} (add : Compound.t → T → Compound.t) (per : Z) (item_ops : T → list argop).
Context `{Hshape : !ItemShape add per item_ops}.

Lemma build_compound c map caller items c' map' :
  build per add c map caller items = (c', map') →
  Compound.ops c' = Compound.ops c ++ mjoin (item_ops <$> items) ∧ Compound.tag_ c' = Compound.tag_ c ∧
  (items ≠ [] ∨ Compound.size_check c = None → Compound.size_check c' = None).
Proof.
  revert c map caller. induction items as [|x items IH]; intros c map caller; cbn [build].
  - intros [= <- <-]. cbn. rewrite app_nil_r. naive_solver.
  - intros H. apply IH in H as (Hops & Htag & Hcache).
    rewrite Hops, Htag, shape_ops, shape_tag, <-app_assoc. split_and!; [done|done|]. intros _.
    apply Hcache. right. apply shape_cache.
Qed.

Lemma build_map c map caller items c' map' :
  build per add c map caller items = (c', map') → 0 <= ExecutionMap.next map →
  ExecutionMap.next map + per * Z.of_nat (length items) <= USIZE_MAX →
  ExecutionMap.ranges map' =
    ExecutionMap.ranges map ++ chunk_ranges per caller (ExecutionMap.next map) (length items) ∧
  ExecutionMap.next map' = ExecutionMap.next map + per * Z.of_nat (length items).
Proof.
  pose proof (shape_pos (ItemShape := Hshape)) as Hper.
  revert c map caller. induction items as [|x items IH]; intros c map caller; cbn [build length].
  - intros [= <- <-] _ _. cbn. rewrite app_nil_r. split; [done|lia].
  - intros H Hn Hle.
    assert (Hstep : ExecutionMap.end_ (ExecutionMap.note_ops (ExecutionMap.begin map caller) per) =
      ExecutionMap.Make (ExecutionMap.ranges map ++ [(caller, ExecutionMap.next map, ExecutionMap.next map + per)])
        (ExecutionMap.next map + per)).
    { unfold ExecutionMap.end_, ExecutionMap.note_ops, ExecutionMap.begin. cbn [ExecutionMap.ranges ExecutionMap.next].
      rewrite last_snoc, length_app. cbn [length]. rewrite Nat.add_sub, take_app_length.
      unfold sat_add, USIZE_MAX in *. by rewrite Z.min_l by nia. }
    rewrite Hstep in H. apply IH in H as [Hr Hx]; cbn [ExecutionMap.ranges ExecutionMap.next] in *; [|lia|lia].
    rewrite Hr, Hx, <-app_assoc. split; [done|lia].
Qed.
End Build.

(** The capacity of a round. *)
Lemma capacity_spec cl tag per :
  0 < per → 0 <= NfsClient.max_ops cl →
  match CompoundBudget.batch_capacity (NfsClient.op_budget_for cl tag (1 + per)) per with
  | Ok cap => 1 <= cap ∧ 1 + cap * per <= NfsClient.max_ops cl ∧
              (2 <= cap → 1 + cap * per <= AdaptiveCompoundLimits.limit (NfsClient.compound_limits cl) tag)
  | Err e => NfsClient.max_ops cl < 1 + per ∧ e = RpcError.op 0 NFS4ERR_TOO_MANY_OPS
  end.
Proof.
  intros Hp Hm. unfold CompoundBudget.batch_capacity, NfsClient.op_budget_for. cbn [CompoundBudget.max_ops].
  set (B := Z.max _ _). set (L := AdaptiveCompoundLimits.limit _ _) in *.
  pose proof (Z.mul_div_le (sat_sub B 1) per Hp). pose proof (Z.mul_succ_div_gt (sat_sub B 1) per Hp).
  assert (0 <= sat_sub B 1 / per) by (apply Z.div_pos; unfold sat_sub; lia).
  set (q := sat_sub B 1 / per) in *. unfold sat_sub in *.
  destruct (Z.eqb_spec q 0) as [Hq|Hq]; [unfold B in *; split; [nia|done]|].
  assert (1 + q * per <= B) by nia. split; [lia|]. split; [unfold B in *; lia|]. intros Hq2.
  assert (1 + 2 * per <= B) by nia. unfold B in *. lia.
Qed.

(** What a report says of a chunk, for an accepted reply. *)
Record chunk_report (per cursor : Z) (k : nat) (res : COMPOUND4res) (report : ExecutionReport) (m : nat) : Prop := {
  ch_le : (m <= k)%nat;
  ch_completed : length (completed report) = m;
  ch_ok j i : (j < m)%nat → 1 + per * Z.of_nat j <= i < 1 + per * (Z.of_nat j + 1) →
    i < CompoundRes.nops res ∧ CompoundRes.op_status res i = NFS_OK;
  ch_failure : match failure report with
    | Some f => (m < k)%nat ∧ if_caller f = cursor + Z.of_nat m ∧
        1 + per * Z.of_nat m <= if_op_index f < 1 + per * (Z.of_nat m + 1) ∧
        if_op_index f < CompoundRes.nops res ∧ CompoundRes.op_status res (if_op_index f) = if_status f ∧
        if_status f ≠ NFS_OK ∧ CompoundRes.status res = if_status f
    | None => m = k
    end;
}.

(** The scan found no failure in an accepted reply: there is none after
    SEQUENCE. *)
Lemma scanned_no_failure per cursor k (res : COMPOUND4res) request m un :
  0 < per → decoded res → reply_ok request res → Z.of_nat (length request) = 1 + per * Z.of_nat k →
  CompoundRes.nops res ≠ 0 → CompoundRes.op_status res 0 = NFS_OK →
  MapLemmas.scanned res (chunk_ranges per cursor 1 k) m None un →
  CompoundRes.status res = NFS_OK ∧ m = k.
Proof.
  intros Hp Hd Hok Hlen Hn0 Hop0 Hsc. set (n := CompoundRes.nops res) in *.
  pose proof (MapLemmas.sc_le _ _ _ _ _ Hsc) as Hle. rewrite chunk_ranges_length in Hle.
  destruct (MapLemmas.sc_fail _ _ _ _ _ Hsc) as [_ Hnext].
  assert (Hn : 0 < n) by (destruct Hd as [? _]; unfold n, CompoundRes.nops in *; lia).
  assert (Hbound : (m < k)%nat → n <= 1 + per * Z.of_nat m).
  { intros Hm. apply (Hnext _ (chunk_ranges_lookup per cursor 1 k m Hm)). }
  assert (Hst : CompoundRes.status res = NFS_OK).
  { pose proof (validated_status request res (n - 1) Hd Hok ltac:(lia)) as Hlast. fold n in Hlast.
    replace (n - 1 + 1 =? n) with true in Hlast by lia. rewrite <-Hlast.
    destruct (decide (n = 1)) as [->|]; [done|].
    assert (Hnk : n <= 1 + per * Z.of_nat k) by (destruct Hok as [Hok _]; unfold n, CompoundRes.nops; lia).
    set (j := Z.to_nat ((n - 2) / per)).
    assert (Hj : Z.of_nat j = (n - 2) / per) by (unfold j; rewrite Z2Nat.id; [done|apply Z.div_pos; lia]).
    pose proof (Z.mul_div_le (n - 2) per Hp). pose proof (Z.mul_succ_div_gt (n - 2) per Hp).
    assert (Hjm : (j < m)%nat) by (destruct (decide (m < k)%nat) as [Hm|]; [specialize (Hbound Hm)|]; nia).
    eapply (MapLemmas.sc_ok _ _ _ _ _ Hsc).
    - apply list_elem_of_lookup. exists j. rewrite lookup_take_lt by done. apply chunk_ranges_lookup. lia.
    - unfold ExecutionMap.r_start, ExecutionMap.r_end. cbn. nia. }
  split; [done|]. destruct (decide (m < k)%nat) as [Hm|]; [|lia]. exfalso.
  destruct Hok as (_ & _ & Hfull & _). specialize (Hfull Hst). specialize (Hbound Hm).
  unfold n, CompoundRes.nops in *. nia.
Qed.

Lemma chunk_analysis per cursor k (res : COMPOUND4res) request map report :
  0 < per → decoded res → reply_ok request res → Z.of_nat (length request) = 1 + per * Z.of_nat k →
  ExecutionMap.ranges map = chunk_ranges per cursor 1 k → ExecutionMap.analyze map res = Ok report →
  (∃ st, compound_failure report = Some st ∧ CompoundRes.status res = st ∧
     (CompoundRes.nops res = 0 ∨ CompoundRes.op_status res 0 ≠ NFS_OK)) ∨
  (compound_failure report = None ∧ ∃ m, chunk_report per cursor k res report m).
Proof.
  intros Hp Hd Hok Hlen Hmap Ha. unfold ExecutionMap.analyze in Ha. rewrite Hmap in Ha. cbn [rv_nops rv_status rv_op_status CompoundRes_view] in Ha.
  destruct (Z.eqb_spec (CompoundRes.nops res) 0) as [Hn|Hn].
  { case_match; [|done]. injection Ha as <-. left. eauto. }
  destruct (Z.eqb_spec (CompoundRes.op_status res 0) NFS_OK) as [H0|H0]; cbn [negb] in Ha.
  2:{ injection Ha as <-. left. eexists. split; [done|]. split; [|by right].
      assert (0 <= 0 < CompoundRes.nops res) as Hr by (destruct Hd as [? _]; unfold CompoundRes.nops in *; lia).
      pose proof (validated_status request res 0 Hd Hok Hr) as Hv. case_match; [done|congruence]. }
  destruct (ExecutionMap.analyze_ranges _ _ _) as [[[done_ f] un]|] eqn:Es; [|done]. cbn in Ha.
  apply MapLemmas.analyze_ranges_scanned in Es as (m & -> & Hsc);
    [|eapply MapLemmas.wf_from_mono; [|by apply chunk_ranges_wf]; lia].
  rewrite app_nil_l in Ha.
  pose proof (MapLemmas.sc_le _ _ _ _ _ Hsc) as Hle. rewrite chunk_ranges_length in Hle.
  assert (Hcomp : length (ExecutionMap.r_caller <$> take m (chunk_ranges per cursor 1 k)) = m).
  { rewrite length_fmap, length_take, chunk_ranges_length. lia. }
  assert (Hoks : ∀ j i, (j < m)%nat → 1 + per * Z.of_nat j <= i < 1 + per * (Z.of_nat j + 1) →
    i < CompoundRes.nops res ∧ CompoundRes.op_status res i = NFS_OK).
  { intros j i Hj Hi. apply (MapLemmas.sc_ok _ _ _ _ _ Hsc
      (cursor + Z.of_nat j, 1 + per * Z.of_nat j, 1 + per * (Z.of_nat j + 1))); [|exact Hi].
    apply list_elem_of_lookup. exists j. rewrite lookup_take_lt by done. apply chunk_ranges_lookup. lia. }
  right. destruct f as [f|].
  - injection Ha as <-. split; [done|]. exists m. split; try done; cbn [failure].
    destruct (MapLemmas.sc_fail _ _ _ _ _ Hsc) as (r & Hr & Hc & Hi & Hnops & Hst & Hne & Hs & _ & _).
    assert (m < k)%nat by (apply lookup_lt_Some in Hr; by rewrite chunk_ranges_length in Hr).
    rewrite chunk_ranges_lookup in Hr by done. injection Hr as <-.
    unfold ExecutionMap.r_caller, ExecutionMap.r_start, ExecutionMap.r_end in *. cbn in *.
    split_and!; try done; lia.
  - destruct (scanned_no_failure _ _ _ _ _ _ _ Hp Hd Hok Hlen Hn H0 Hsc) as [Hst ->].
    rewrite Hst in Ha. cbn in Ha. injection Ha as <-. split; [done|]. exists k. by split.
Qed.

Lemma vec_set_ok {A} (v : list A) i x : 0 <= i < Z.of_nat (length v) →
  vec_set v i x = Some (<[Z.to_nat i := x]> v).
Proof. intros Hi. unfold vec_set. by replace ((0 <=? i) && (i <? Z.of_nat (length v))) with true by lia. Qed.

(** Storing the results of completed items fills their slots and no other. *)
Lemma store_spec {R} (extract : COMPOUND4res → Z → option R) res rs out (P : Z → R → Prop) :
  (∀ r, r ∈ rs → 0 <= ExecutionMap.r_caller r < Z.of_nat (length out) ∧
     ∃ v, extract res (ExecutionMap.r_start r) = Some v ∧ P (ExecutionMap.r_caller r) v) →
  ∃ out', store extract res rs out = Some out' ∧ length out' = length out ∧
    (∀ i, out' !! i = out !! i ∨ ∃ v, out' !! i = Some (Some (Ok v)) ∧ P (Z.of_nat i) v) ∧
    (∀ r, r ∈ rs → ∃ v, out' !! Z.to_nat (ExecutionMap.r_caller r) = Some (Some (Ok v)) ∧
       P (ExecutionMap.r_caller r) v).
Proof.
  revert out. induction rs as [|r rs IH]; intros out Hrs; cbn [store].
  { exists out. split_and!; [done|done|by left|by intros ? ?%elem_of_nil]. }
  destruct (Hrs r) as [Hr (v & Hv & HP)]; [left|].
  rewrite Hv. cbn [mbind option_bind]. rewrite vec_set_ok by done. cbn [mbind option_bind].
  destruct (IH (<[Z.to_nat (ExecutionMap.r_caller r) := Some (Ok v)]> out)) as (out' & Hst & Hlen & Hold & Hnew).
  { intros r' Hr'. rewrite length_insert. apply Hrs. by right. }
  rewrite length_insert in Hlen. exists out'. split_and!; [done|done| |].
  - intros i. destruct (Hold i) as [Hi|?]; [|by right].
    destruct (decide (i = Z.to_nat (ExecutionMap.r_caller r))) as [->|Hne].
    + right. exists v. rewrite Hi, list_lookup_insert_eq by lia. split; [done|].
      by rewrite Z2Nat.id by lia.
    + left. by rewrite Hi, list_lookup_insert_ne.
  - intros r' [->|Hr']%elem_of_cons; [|by apply Hnew].
    destruct (Hold (Z.to_nat (ExecutionMap.r_caller r))) as [Hi|(v' & Hi & HP')].
    + exists v. by rewrite Hi, list_lookup_insert_eq by lia.
    + exists v'. split; [done|]. by rewrite Z2Nat.id in HP' by lia.
Qed.

Lemma many_unfold {W T R} rpc xdr_len tag per (add : Compound.t → T → Compound.t)
    (extract : COMPOUND4res → Z → option R) fuel cl (l : list T) (w : W) :
  many rpc xdr_len tag per add extract fuel cl l w =
  if decide (l = []) then Done (Ok [], cl, w)
  else loop rpc xdr_len tag per add extract fuel l (State cl w 0 USIZE_MAX (replicate (length l) None)).
Proof. by destruct l. Qed.

Section Round.
Context {W : Type} (rpc : Compound.t → W → RpcResult COMPOUND4res * W) (Hrpc : transport_ok rpc).
Context (xdr_len : Compound.t → Z) `{!XdrSizes xdr_len}.
Context {T R : Type} (tag : string) (per : Z) (add : Compound.t → T → Compound.t).
Context (extract : COMPOUND4res → Z → option R) (item_ops : T → list argop).
Context `{Hshape : !ItemShape add per item_ops}.

(** The true result of an item, and that an accepted reply tells it: the values
    of a completed item are there and true, and a failed operation of an item
    tells the item's failure, or that the server ran out of resources. *)
Context (truth : T → result Z R → Prop).
(** What the server is known to keep. *)
Context (P : W → Prop).
Hypothesis Hkeeps : ∀ items w r w', P w → ExchangeLemmas.sent rpc (mjoin (item_ops <$> items)) w r w' → P w'.

Definition tells_truth : Prop := ∀ items w res w', P w →
  ExchangeLemmas.exchanged rpc (mjoin (item_ops <$> items)) w res w' →
  ∀ j x, items !! j = Some x →
    let start := 1 + per * Z.of_nat j in
    ((∀ i, start <= i < start + per → i < CompoundRes.nops res ∧ CompoundRes.op_status res i = NFS_OK) →
     ∃ v, extract res start = Some v ∧ truth x (Ok v)) ∧
    (∀ i st, start <= i < start + per → i < CompoundRes.nops res → CompoundRes.op_status res i = st →
     st ≠ NFS_OK → resource_status st = true ∨ truth x (Err st)).
Hypothesis Htruth : tells_truth.

(** A slot is filled with the truth, or with a resource status the server kept
    reporting for the item alone. *)
Definition good (x : T) (v : result Z R) : Prop :=
  truth x v ∨ ∃ st, v = Err st ∧ resource_status st = true.

Context (ops : list T) (cl0 : NfsClient.t).
Let n : Z := Z.of_nat (length ops).
Let N : Z := AdaptiveCompoundLimits.negotiated_ops (NfsClient.compound_limits cl0).
Hypothesis Hmax : 0 <= NfsClient.max_ops cl0 < USIZE_MAX.

Record inv (st : state (W := W) (R := R)) : Prop := {
  inv_limits : same_limits cl0 (client st);
  inv_wf : AdaptiveCompoundLimits.wf (NfsClient.compound_limits (client st));
  inv_negotiated : AdaptiveCompoundLimits.negotiated_ops (NfsClient.compound_limits (client st)) = N;
  inv_cursor : 0 <= cursor st <= n;
  inv_max : 1 <= max_items st;
  inv_out : Z.of_nat (length (out st)) = n;
  inv_good i x : ops !! i = Some x → Z.of_nat i < cursor st → ∃ v, out st !! i = Some (Some v) ∧ good x v;
  inv_kept : P (world st);
}.

Definition limit_of (st : state (W := W) (R := R)) : Z :=
  AdaptiveCompoundLimits.limit (NfsClient.compound_limits (client st)) (bstr tag).

(** The size of the next chunk. *)
Definition chunk_of (st : state (W := W) (R := R)) : Z :=
  match CompoundBudget.batch_capacity (NfsClient.op_budget_for (client st) (bstr tag) (1 + per)) per with
  | Ok capacity => Z.min (Z.min capacity (max_items st)) (n - cursor st)
  | Err _ => 0
  end.

(** Every further turn has fewer items left, or a smaller window, or a smaller
    chunk. *)
Definition measure (st : state (W := W) (R := R)) : Z :=
  ((n - cursor st) * (N + 1) + limit_of st) * (n + 1) + chunk_of st.

(** Why a batch is given up. *)
Definition aborts (e : RpcError.t) : Prop :=
  RpcError.is_transport e = true ∨
  NfsClient.max_ops cl0 < 1 + per ∧ RpcError.status e = NFS4ERR_TOO_MANY_OPS ∨
  RpcError.status e = NFS4ERR_REQ_TOO_BIG ∧
    (∃ x, x ∈ ops ∧ SendLemmas.request_fits xdr_len cl0 (add (Compound.tag Compound.new (bstr tag)) x) = false) ∨
  (∃ req w res w', rpc req w = (Ok res, w') ∧ RpcError.status e = CompoundRes.status res ∧
     (CompoundRes.nops res = 0 ∨ CompoundRes.op_status res 0 ≠ NFS_OK)).

Lemma limit_range st : inv st → 1 <= limit_of st <= N.
Proof.
  intros Hi. unfold limit_of. pose proof (inv_wf _ Hi) as Hwf. rewrite LimitsLemmas.limit_sizer by done.
  destruct (LimitsLemmas.sizer_of_wf _ (bstr tag) Hwf) as [[Hc _] Hn]. rewrite (inv_negotiated _ Hi) in Hn. lia.
Qed.

Lemma chunk_range st : inv st → 0 <= chunk_of st <= n.
Proof.
  intros Hi. pose proof (inv_cursor _ Hi). pose proof (inv_max _ Hi). unfold chunk_of.
  destruct (CompoundBudget.batch_capacity _ _) as [cap|e] eqn:E; [|lia].
  pose proof (capacity_spec (client st) (bstr tag) per shape_pos) as Hcap. rewrite E in Hcap.
  destruct (inv_limits _ Hi) as [Hm _]. destruct Hcap as [? _]; lia.
Qed.

Lemma measure_progress st st' : inv st → inv st' → cursor st < cursor st' → measure st' < measure st.
Proof.
  intros Hi Hi' Hlt. pose proof (limit_range _ Hi). pose proof (limit_range _ Hi').
  pose proof (chunk_range _ Hi). pose proof (chunk_range _ Hi'). unfold measure.
  assert ((n - cursor st') * (N + 1) + limit_of st' + 1 <= (n - cursor st) * (N + 1) + limit_of st) by nia.
  nia.
Qed.

Lemma measure_shrink st st' :
  inv st → inv st' → cursor st = cursor st' → limit_of st' < limit_of st → measure st' < measure st.
Proof.
  intros Hi Hi' Hc Hlt. pose proof (chunk_range _ Hi). pose proof (chunk_range _ Hi'). unfold measure.
  rewrite Hc. nia.
Qed.

Lemma mjoin_item_ops items : Z.of_nat (length (mjoin (item_ops <$> items))) = per * Z.of_nat (length items).
Proof.
  induction items as [|x items IH]; [cbn; lia|].
  change (mjoin (item_ops <$> x :: items)) with (item_ops x ++ mjoin (item_ops <$> items)).
  rewrite length_app, Nat2Z.inj_add, shape_len, IH. cbn [length]. lia.
Qed.

(** The compound of a round. *)
Record prepared (st : state (W := W) (R := R)) (end_ : Z) (items : list T) (c : Compound.t) (map : ExecutionMap.t)
    : Prop := {
  pr_end : cursor st + 1 <= end_ <= n;
  pr_items j : items !! j = if Z.of_nat j <? end_ - cursor st then ops !! (Z.to_nat (cursor st) + j)%nat else None;
  pr_length : Z.of_nat (length items) = end_ - cursor st;
  pr_ops : Compound.ops c = mjoin (item_ops <$> items);
  pr_tag : Compound.tag_bytes c = bstr tag;
  pr_cache : PreflightLemmas.cache_ok xdr_len c;
  pr_ranges : ExecutionMap.ranges map = chunk_ranges per (cursor st) 1 (length items);
  pr_budget : 1 + per * (end_ - cursor st) <= NfsClient.max_ops (client st);
  pr_window : 2 <= end_ - cursor st → 1 + per * (end_ - cursor st) <= limit_of st;
}.

Lemma prepare st cap c map :
  inv st → cursor st < n →
  CompoundBudget.batch_capacity (NfsClient.op_budget_for (client st) (bstr tag) (1 + per)) per = Ok cap →
  let end_ := Z.min (cursor st + Z.min cap (max_items st)) n in
  let items := slice (Z.to_nat (cursor st)) (Z.to_nat end_) ops in
  build per add (Compound.tag Compound.new (bstr tag)) ExecutionMap.new (cursor st) items = (c, map) →
  prepared st end_ items c map ∧ chunk_of st = end_ - cursor st.
Proof.
  intros Hi Hlt Hcap end_ items Hb. pose proof (shape_pos (ItemShape := Hshape)) as Hp.
  destruct (inv_limits _ Hi) as [Hm _]. pose proof (inv_max _ Hi). pose proof (inv_cursor _ Hi).
  pose proof (capacity_spec (client st) (bstr tag) per Hp) as Hcs. rewrite Hcap in Hcs.
  destruct Hcs as (Hc1 & Hc2 & Hc3); [lia|].
  assert (Hend : cursor st + 1 <= end_ <= n) by (unfold end_; lia).
  assert (Hlen : Z.of_nat (length items) = end_ - cursor st).
  { unfold items, slice. rewrite length_drop, length_take. unfold n in *. lia. }
  assert (Hk : end_ - cursor st <= cap) by (unfold end_; lia).
  pose proof (build_compound add per item_ops _ _ _ _ _ _ Hb) as (Hops & Htag & Hcache).
  destruct (build_map add per item_ops _ _ _ _ _ _ Hb) as [Hr _]; [done|cbn; nia|].
  split; [|unfold chunk_of; rewrite Hcap; unfold end_; lia].
  split; try done.
  - intros j. unfold items, slice. rewrite lookup_drop.
    destruct (Z.ltb_spec (Z.of_nat j) (end_ - cursor st)); [rewrite lookup_take_lt by lia; done|].
    apply lookup_take_ge. lia.
  - unfold Compound.tag_bytes. by rewrite Htag.
  - intros l r Hsz. rewrite Hcache in Hsz; [done|]. right. done.
  - nia.
  - intros Hk2. unfold limit_of. etransitivity; [|apply Hc3; lia]. nia.
Qed.

(** The state after a reply keeps the invariant when the slots are good. *)
Lemma inv_reply st cl' w' cur max_ out' c res :
  inv st → same_limits (client st) cl' →
  NfsClient.compound_limits cl' = AdaptiveCompoundLimits.observe (NfsClient.compound_limits (client st))
    (Compound.tag_bytes c) (sat_add (Compound.op_count c) 1) (CompoundRes.status res) (CompoundRes.nops res) →
  P w' → 0 <= cur <= n → 1 <= max_ → Z.of_nat (length out') = n →
  (∀ i x, ops !! i = Some x → Z.of_nat i < cur → ∃ v, out' !! i = Some (Some v) ∧ good x v) →
  inv (State cl' w' cur max_ out').
Proof.
  intros Hi Hs Hl ?????. split; cbn [client cursor max_items out world]; try done.
  - exact (SendLemmas.same_limits_trans _ _ _ (inv_limits _ Hi) Hs).
  - rewrite Hl. apply LimitsLemmas.observe_wf, (inv_wf _ Hi).
  - rewrite Hl, LimitsLemmas.observe_negotiated. exact (inv_negotiated _ Hi).
Qed.

(** A rejected size shrinks the window of the next round. *)
Lemma reply_shrinks st cl' w' cur max_ out' c res end_ items map :
  inv st → prepared st end_ items c map →
  NfsClient.compound_limits cl' = AdaptiveCompoundLimits.observe (NfsClient.compound_limits (client st))
    (Compound.tag_bytes c) (sat_add (Compound.op_count c) 1) (CompoundRes.status res) (CompoundRes.nops res) →
  resource_status (CompoundRes.status res) = true → 2 <= end_ - cursor st →
  limit_of (State cl' w' cur max_ out') < limit_of st.
Proof.
  intros Hi Hpr Hl Hst Hk. pose proof (shape_pos (ItemShape := Hshape)) as Hp. unfold limit_of. cbn [client].
  rewrite Hl, (pr_tag _ _ _ _ _ Hpr). apply observe_shrinks; [exact (inv_wf _ Hi)|done|].
  assert (Hc : Compound.op_count c = per * (end_ - cursor st)).
  { unfold Compound.op_count. rewrite (pr_ops _ _ _ _ _ Hpr), mjoin_item_ops. by rewrite (pr_length _ _ _ _ _ Hpr). }
  pose proof (pr_window _ _ _ _ _ Hpr Hk). pose proof (pr_budget _ _ _ _ _ Hpr). destruct (inv_limits _ Hi) as [Hm _].
  rewrite Hc. fold (limit_of st). unfold sat_add, USIZE_MAX in *. rewrite Z.min_l by nia. nia.
Qed.

(** Storing the completed prefix of a chunk. *)
Lemma store_chunk st end_ items c map res w w' report m :
  inv st → prepared st end_ items c map → P w → ExchangeLemmas.exchanged rpc (Compound.ops c) w res w' →
  chunk_report per (cursor st) (length items) res report m →
  ∃ out', store extract res (ExecutionMap.completed_ranges map report) (out st) = Some out' ∧
    Z.of_nat (length out') = n ∧
    (∀ i x, ops !! i = Some x → Z.of_nat i < cursor st + Z.of_nat m → ∃ v, out' !! i = Some (Some v) ∧ good x v).
Proof.
  intros Hi Hpr HPw Hex Hch. rewrite (pr_ops _ _ _ _ _ Hpr) in Hex.
  pose proof (inv_cursor _ Hi). pose proof (inv_out _ Hi). pose proof (pr_end _ _ _ _ _ Hpr) as Hend.
  pose proof (pr_length _ _ _ _ _ Hpr) as Hlen. pose proof (ch_le _ _ _ _ _ _ Hch) as Hle.
  unfold ExecutionMap.completed_ranges. rewrite (ch_completed _ _ _ _ _ _ Hch), (pr_ranges _ _ _ _ _ Hpr).
  set (Q := λ (i : Z) (v : R), ∀ x, ops !! Z.to_nat i = Some x → truth x (Ok v)).
  destruct (store_spec extract res (take m (chunk_ranges per (cursor st) 1 (length items))) (out st) Q)
    as (out' & Hst & Hlen' & Hold & Hnew).
  { intros r [j Hj]%list_elem_of_lookup. assert (j < m)%nat as Hjm.
    { apply lookup_lt_Some in Hj. rewrite length_take in Hj. lia. }
    rewrite lookup_take_lt, chunk_ranges_lookup in Hj by lia. injection Hj as <-.
    unfold ExecutionMap.r_caller, ExecutionMap.r_start. cbn [fst snd]. split; [lia|].
    assert (is_Some (items !! j)) as [x Hx] by (apply lookup_lt_is_Some; lia).
    destruct (Htruth items w res w' HPw Hex j x Hx) as [Hval _]. destruct Hval as (v & Hv & Htr).
    { intros i Hr. apply (ch_ok _ _ _ _ _ _ Hch j); [done|lia]. }
    exists v. split; [done|]. intros x' Hx'. rewrite (pr_items _ _ _ _ _ Hpr) in Hx.
    destruct (Z.ltb_spec (Z.of_nat j) (end_ - cursor st)); [|done].
    replace (Z.to_nat (cursor st + Z.of_nat j)) with (Z.to_nat (cursor st) + j)%nat in Hx' by lia. congruence. }
  exists out'. split; [done|]. split; [lia|]. intros i x Hx Hlt.
  destruct (Hold i) as [Ho|(v & Hv & HP)].
  2:{ exists (Ok v). split; [done|]. left. apply HP. by rewrite Nat2Z.id. }
  destruct (decide (Z.of_nat i < cursor st)) as [Hc|Hc].
  { rewrite Ho. by apply (inv_good _ Hi). }
  destruct (Hnew (cursor st + Z.of_nat (i - Z.to_nat (cursor st)),
    1 + per * Z.of_nat (i - Z.to_nat (cursor st)), 1 + per * (Z.of_nat (i - Z.to_nat (cursor st)) + 1)))
    as (v & Hv & HP).
  { apply list_elem_of_lookup. exists (i - Z.to_nat (cursor st))%nat.
    rewrite lookup_take_lt by lia. apply chunk_ranges_lookup. lia. }
  unfold ExecutionMap.r_caller in Hv, HP. cbn [fst snd] in Hv, HP.
  replace (Z.to_nat (cursor st + Z.of_nat (i - Z.to_nat (cursor st)))) with i in Hv by lia.
  exists (Ok v). split; [done|]. left. apply HP.
  by replace (Z.to_nat (cursor st + Z.of_nat (i - Z.to_nat (cursor st)))) with i by lia.
Qed.

Definition turn_ok (st : state) (t : option (turn (state (W := W) (R := R)) (answer (W := W) (R := R)))) : Prop :=
  match t with
  | None => False
  | Some (Return (r, cl', w')) => (∃ e, r = Err e ∧ aborts e) ∧ same_limits cl0 cl' ∧ P w'
  | Some (Again st') => inv st' ∧ measure st' < measure st
  end.

(** Recording the failed item [m] of a chunk extends the good slots by one. *)
Lemma record_failure st end_ items c map res w w' m f out' :
  prepared st end_ items c map → P w → ExchangeLemmas.exchanged rpc (Compound.ops c) w res w' →
  0 <= cursor st → Z.of_nat (length out') = n → (m < length items)%nat →
  1 + per * Z.of_nat m <= if_op_index f < 1 + per * (Z.of_nat m + 1) → if_op_index f < CompoundRes.nops res →
  CompoundRes.op_status res (if_op_index f) = if_status f → if_status f ≠ NFS_OK →
  (∀ i x, ops !! i = Some x → Z.of_nat i < cursor st + Z.of_nat m → ∃ v, out' !! i = Some (Some v) ∧ good x v) →
  ∀ i x, ops !! i = Some x → Z.of_nat i < cursor st + Z.of_nat m + 1 →
    ∃ v, <[Z.to_nat (cursor st + Z.of_nat m) := Some (Err (if_status f))]> out' !! i = Some (Some v) ∧ good x v.
Proof.
  intros Hpr HPw Hex Hcur Hlen Hm Hrange Hnops Hst Hne Hgood i x Hx Hlt.
  destruct (decide (i = Z.to_nat (cursor st + Z.of_nat m))) as [->|Hne'].
  2:{ rewrite list_lookup_insert_ne by done. apply Hgood; [done|lia]. }
  exists (Err (if_status f)). apply lookup_lt_Some in Hx as Hlt'. rewrite list_lookup_insert_eq by (unfold n in *; lia). split; [done|].
  destruct (Htruth items w res w') with (j := m) (x := x) as [_ Hbad].
  - done.
  - by rewrite <-(pr_ops _ _ _ _ _ Hpr).
  - pose proof (pr_length _ _ _ _ _ Hpr). rewrite (pr_items _ _ _ _ _ Hpr).
    replace (Z.of_nat m <? end_ - cursor st) with true by lia.
    by replace (Z.to_nat (cursor st) + m)%nat with (Z.to_nat (cursor st + Z.of_nat m)) by lia.
  - destruct (Hbad (if_op_index f) (if_status f)) as [?|?]; try done; [lia| |]; [right; eauto|by left].
Qed.

Lemma after_reply_ok st end_ items c map w res cl' w' :
  inv st → prepared st end_ items c map → same_limits (client st) cl' → P w →
  ExchangeLemmas.exchanged rpc (Compound.ops c) w res w' →
  NfsClient.compound_limits cl' = AdaptiveCompoundLimits.observe (NfsClient.compound_limits (client st))
    (Compound.tag_bytes c) (sat_add (Compound.op_count c) 1) (CompoundRes.status res) (CompoundRes.nops res) →
  turn_ok st (after_reply tag extract cl' w' (cursor st) end_ (out st) map res).
Proof.
  intros Hi Hpr Hs HPw Hex Hl. pose proof (shape_pos (ItemShape := Hshape)) as Hp.
  pose proof (inv_cursor _ Hi). pose proof (pr_end _ _ _ _ _ Hpr) as Hend. pose proof (pr_length _ _ _ _ _ Hpr) as Hlen.
  assert (Hs0 : same_limits cl0 cl') by (eapply SendLemmas.same_limits_trans; [exact (inv_limits _ Hi)|done]).
  pose proof Hex as (req & sid & q & Hr & Hops & Hd & Hok).
  assert (HPw' : P w') by (apply (Hkeeps items w (Ok res) w' HPw); exists req, sid, q; by rewrite <-(pr_ops _ _ _ _ _ Hpr)).
  unfold after_reply. destruct (ExecutionMap.analyze map res) as [report|error] eqn:Ha.
  2:{ split; [|done]. eexists. split; [done|]. by left. }
  destruct (chunk_analysis per (cursor st) (length items) res (Compound.ops req) map report Hp Hd Hok)
    as [(status & -> & Hst & Hwhy)|(-> & m & Hch)].
  { rewrite Hops, (pr_ops _ _ _ _ _ Hpr). cbn [length]. rewrite Nat2Z.inj_succ, mjoin_item_ops. lia. }
  { by rewrite (pr_ranges _ _ _ _ _ Hpr). }
  { done. }
  { destruct (resource_status status && _) eqn:Hretry; cbn.
    - apply andb_true_iff in Hretry as [Hrs Hk].
      assert (Hi' : inv (State cl' w' (cursor st) USIZE_MAX (out st))) by (eapply inv_reply; try apply Hi; done).
      split; [done|]. apply measure_shrink; [done|done|done|].
      eapply reply_shrinks; [done|done|exact Hl|by rewrite Hst|lia].
    - split; [|done]. eexists. split; [done|]. right. right. right. exists req, w, res, w'. done. }
  destruct (store_chunk st end_ items c map res w w' report m) as (out' & -> & Hlen' & Hgood);
    [done|done|done|done|done|]. cbn [mbind option_bind].
  pose proof (ch_failure _ _ _ _ _ _ Hch) as Hf. pose proof (ch_le _ _ _ _ _ _ Hch) as Hle.
  destruct (failure report) as [f|].
  - destruct Hf as (Hmk & Hcaller & Hidx & Hin & Hfst & Hne & Hstat). rewrite Hcaller.
    destruct (resource_status (if_status f) && _) eqn:Hretry; cbn [turn_ok].
    + apply andb_true_iff in Hretry as [Hrs Hk].
      assert (Hi' : inv (State cl' w' (cursor st + Z.of_nat m) USIZE_MAX out')) by (eapply inv_reply; try done; lia).
      split; [done|]. destruct (decide (m = 0%nat)) as [->|]; [|apply measure_progress; cbn; lia || done].
      apply measure_shrink; [done|done|cbn; lia|]. eapply reply_shrinks; [done|done|exact Hl|by rewrite Hstat|lia].
    + rewrite vec_set_ok by lia. cbn [mbind option_bind turn_ok].
      assert (Hi' : inv (State cl' w' (cursor st + Z.of_nat m + 1) USIZE_MAX
        (<[Z.to_nat (cursor st + Z.of_nat m) := Some (Err (if_status f))]> out'))).
      { eapply inv_reply; try done; [lia|by rewrite length_insert|].
        eapply record_failure; [exact Hpr|exact HPw|exact Hex|lia|done..]. }
      split; [done|]. apply measure_progress; [done|done|cbn; lia].
  - subst m. assert (Hi' : inv (State cl' w' end_ USIZE_MAX out')).
    { eapply inv_reply; try done; [lia|]. intros. apply Hgood; [done|lia]. }
    split; [done|]. apply measure_progress; [done|done|cbn; lia].
Qed.

(** A request limit that one state of the client refuses, all refuse. *)
Lemma request_fits_same cl cl' c : same_limits cl cl' →
  SendLemmas.request_fits xdr_len cl' c = SendLemmas.request_fits xdr_len cl c.
Proof.
  intros (_ & H1 & H2 & H3 & _). unfold SendLemmas.request_fits, NfsClient.max_request_arg_bytes.
  by rewrite H1, H2, H3.
Qed.

(** Halving a chunk that does not fit keeps the invariant and shrinks the chunk. *)
Lemma repack_ok st end_ cap :
  inv st → CompoundBudget.batch_capacity (NfsClient.op_budget_for (client st) (bstr tag) (1 + per)) per = Ok cap →
  chunk_of st = end_ - cursor st → 2 <= end_ - cursor st →
  turn_ok st (Some (Again (State (client st) (world st) (cursor st) ((end_ - cursor st) / 2) (out st)))).
Proof.
  intros Hi Hcap Hchunk Hk.
  assert (1 <= (end_ - cursor st) / 2) by (apply Z.div_le_lower_bound; lia).
  assert ((end_ - cursor st) / 2 < end_ - cursor st) by (apply Z.div_lt; lia).
  split; [destruct Hi; split; done|]. unfold measure. cbn [cursor].
  change (limit_of (State (client st) (world st) (cursor st) _ (out st))) with (limit_of st).
  enough (chunk_of (State (client st) (world st) (cursor st) ((end_ - cursor st) / 2) (out st)) < chunk_of st) by lia.
  rewrite Hchunk. unfold chunk_of. cbn [client cursor max_items]. rewrite Hcap. lia.
Qed.

(** A chunk of one item that is too large for the session is that item's fault. *)
Lemma nofit_item st end_ items c map : prepared st end_ items c map → end_ - cursor st = 1 →
  ∃ x, x ∈ ops ∧ items = [x].
Proof.
  intros Hpr Hone. pose proof (pr_length _ _ _ _ _ Hpr) as Hlen.
  destruct items as [|x [|y items']]; [cbn in Hlen; lia| |cbn in Hlen; lia].
  exists x. split; [|done]. pose proof (pr_items _ _ _ _ _ Hpr 0) as H0. rewrite Hone in H0. cbn in H0.
  symmetry in H0. by apply list_elem_of_lookup_2 in H0.
Qed.

Lemma round_ok st : inv st → cursor st < n → turn_ok st (round rpc xdr_len tag per add extract ops st).
Proof.
  intros Hi Hlt. pose proof (inv_limits _ Hi) as Hs0. pose proof Hs0 as [Hm _].
  pose proof (shape_pos (ItemShape := Hshape)) as Hp. destruct st as [cl w cur mx o]. cbn [cursor client] in *.
  unfold round. set (st := State cl w cur mx o) in *. destruct (CompoundBudget.batch_capacity _ _) as [cap|e] eqn:Hcap.
  2:{ pose proof (capacity_spec cl (bstr tag) per Hp ltac:(lia)) as Hcs. rewrite Hcap in Hcs.
      destruct Hcs as [? ->]. split; [|split; [done|apply Hi]]. eexists. split; [done|]. right. left. split; [lia|done]. }
  fold n. set (end_ := Z.min _ n). set (items := slice _ _ ops).
  destruct (build _ _ _ _ _ _) as [c map] eqn:Hb.
  destruct (prepare st cap c map Hi Hlt Hcap Hb) as [Hpr Hchunk]. cbn [st cursor max_items] in Hpr, Hchunk.
  fold end_ items in Hpr, Hchunk. pose proof (pr_end _ _ _ _ _ Hpr) as Hend. cbn [st cursor] in Hend.
  destruct (SendLemmas.compound_request_fits_spec xdr_len cl c (pr_cache _ _ _ _ _ Hpr))
    as (c' & -> & Hc' & Hops & Htag & _ & Hfits').
  destruct (negb _ && _) eqn:Hrepack.
  { apply andb_true_iff in Hrepack as [_ Hk]. by apply (repack_ok st end_ cap); [| | |cbn [st cursor]; lia]. }
  destruct (NfsClient.call_compound_with_safety _ _ _ _ _ _) as [[r cl'] w'] eqn:Hcall.
  apply ExchangeLemmas.safe_call in Hcall as (r0 & Hcall & Hr0).
  assert (Hcount : Compound.op_count c' = per * (end_ - cur)).
  { unfold Compound.op_count. rewrite Hops, (pr_ops _ _ _ _ _ Hpr), mjoin_item_ops. by rewrite (pr_length _ _ _ _ _ Hpr). }
  destruct r as [res|e], r0 as [res0|e0]; try done.
  - subst res0. destruct (ExchangeLemmas.call_compound_ok rpc Hrpc xdr_len cl c' w res cl' w' Hc' Hcall) as (Hs & Hex & Hl).
    rewrite Hops in Hex. apply (after_reply_ok st end_ items c map w res cl' w' Hi Hpr Hs (inv_kept _ Hi) Hex).
    rewrite Hl. unfold Compound.op_count, Compound.tag_bytes. by rewrite Hops, Htag.
  - pose proof (pr_budget _ _ _ _ _ Hpr) as Hbud. cbn [st client cursor] in Hbud.
    destruct (ExchangeLemmas.send_outcomes rpc Hrpc xdr_len cl c' w (Err e0) cl' w' Hc' Hcall) as [Hs Hout].
    assert (Hkept : same_limits cl0 cl' ∧ P w').
    { split; [by eapply SendLemmas.same_limits_trans|]. pose proof (inv_kept _ Hi) as HPw. cbn [st world] in HPw.
      destruct Hout as [[-> _]|[_ [r1 Hsent]]]; [done|]. rewrite Hops, (pr_ops _ _ _ _ _ Hpr) in Hsent. by eapply Hkeeps. }
    destruct (ExchangeLemmas.call_compound_err rpc Hrpc xdr_len cl c' w e0 cl' w' Hc' ltac:(lia) Hcall)
      as (_ & _ & [Ht|[Hnofit ->]]); (split; [|exact Hkept]).
    + eexists. split; [done|]. left. destruct Hr0 as [Hr0 _]. unfold RpcError.is_transport in *. by rewrite Hr0.
    + eexists. split; [done|]. right. right. left. split; [apply Hr0|].
      rewrite Hfits' in Hnofit. rewrite Hnofit in Hrepack. cbn in Hrepack.
      assert (Hone : end_ - cur = 1) by lia.
      destruct (nofit_item st end_ items c map Hpr Hone) as (x & Hx & Eitems). exists x. split; [done|].
      rewrite Eitems in Hb.
      cbn in Hb. injection Hb as Hb _. rewrite <-(request_fits_same cl0 cl), <-Hnofit by done. by rewrite <-Hb.
Qed.

Lemma collect_ok caller o : (∀ i, (i < length o)%nat → ∃ v, o !! i = Some (Some v)) →
  ∃ vs, collect (R := R) tag caller o = Ok vs ∧ length vs = length o ∧ ∀ i v, vs !! i = Some v ↔ o !! i = Some (Some v).
Proof.
  revert caller. induction o as [|v o IH]; intros caller Ho; cbn [collect].
  { exists []. split_and!; [done|done|]. intros i v. by rewrite !lookup_nil. }
  destruct (Ho 0%nat) as [v0 [= ->]]; [cbn; lia|]. cbn [ok_or mbind result_bind].
  destruct (IH (caller + 1)) as (vs & -> & Hlen & Hvs).
  { intros i Hi. apply (Ho (S i)). cbn. lia. }
  exists (v0 :: vs). cbn [length]. split_and!; [done|by rewrite Hlen|]. intros [|i] v; cbn; [naive_solver|apply Hvs].
Qed.

Lemma measure_nonneg st : inv st → 0 <= measure st.
Proof.
  intros Hi. pose proof (limit_range _ Hi). pose proof (chunk_range _ Hi). pose proof (inv_cursor _ Hi).
  unfold measure. assert (0 <= (n - cursor st) * (N + 1)) by (apply Z.mul_nonneg_nonneg; lia).
  assert (0 <= ((n - cursor st) * (N + 1) + limit_of st) * (n + 1)) by (apply Z.mul_nonneg_nonneg; lia). lia.
Qed.

Definition answer_ok (r : RpcResult (list (result Z R))) : Prop :=
  match r with
  | Ok vs => length vs = length ops ∧ ∀ i x v, ops !! i = Some x → vs !! i = Some v → good x v
  | Err e => aborts e
  end.

Lemma finish_ok st : inv st → n <= cursor st → answer_ok (collect tag 0 (out st)).
Proof.
  intros Hi Hge. pose proof (inv_cursor _ Hi). pose proof (inv_out _ Hi) as Hout.
  assert (Hfull : ∀ i, (i < length (out st))%nat → ∃ v, out st !! i = Some (Some v)).
  { intros i Hi'. assert (is_Some (ops !! i)) as [x Hx] by (apply lookup_lt_is_Some; unfold n in *; lia).
    destruct (inv_good _ Hi i x Hx) as (v & Hv & _); [unfold n in *; lia|eauto]. }
  destruct (collect_ok 0 (out st) Hfull) as (vs & -> & Hlen & Hvs).
  split; [unfold n in *; lia|]. intros i x v Hx Hv%Hvs.
  destruct (inv_good _ Hi i x Hx) as (v' & Hv' & Hg); [apply lookup_lt_Some in Hx; unfold n in *; lia|].
  congruence.
Qed.

Lemma loop_ok fuel st : inv st → measure st < Z.of_nat fuel →
  ∃ r cl' w', loop rpc xdr_len tag per add extract fuel ops st = Done (r, cl', w') ∧ answer_ok r ∧ same_limits cl0 cl' ∧ P w'.
Proof.
  intros Hi0 Hfuel. enough (∃ a, loop rpc xdr_len tag per add extract fuel ops st = Done a ∧ answer_ok a.1.1 ∧ same_limits cl0 a.1.2 ∧ P a.2)
    as ([[r cl'] w'] & ? & ?) by eauto. revert st Hi0 Hfuel. revert fuel.
  apply (run_ok _ _ _ inv measure (λ a, answer_ok a.1.1 ∧ same_limits cl0 a.1.2 ∧ P a.2)).
  - apply measure_nonneg.
  - intros st' Hi Hlt. pose proof (round_ok st' Hi ltac:(unfold n; lia)) as Ht. revert Ht.
    destruct (round _ _ _ _ _ _ _ _) as [[st''|[[r cl'] w']]|]; [done| |done]. by intros ((e & -> & He) & Hs).
  - intros st' Hi Hge. split; [apply finish_ok; [done|unfold n; lia]|]. split; apply Hi.
Qed.

(** Fuel that suffices for every server: one turn per item, window size and
    chunk size. *)
Definition enough_fuel : Z := (n + 1) * (N + 1) * (n + 1).

Lemma many_ok fuel w : AdaptiveCompoundLimits.wf (NfsClient.compound_limits cl0) → enough_fuel <= Z.of_nat fuel → P w →
  ∃ r cl' w', many rpc xdr_len tag per add extract fuel cl0 ops w = Done (r, cl', w') ∧ answer_ok r ∧ same_limits cl0 cl' ∧ P w'.
Proof.
  intros Hwf Hfuel HPw. rewrite many_unfold. case_decide as Hops.
  { eexists _, _, _. split; [done|]. split; [|split; [auto with vnfs|done]].
    split; [by rewrite Hops|]. intros i x v. by rewrite Hops, lookup_nil. }
  set (st := State cl0 w 0 USIZE_MAX _).
  assert (Hi : inv st).
  { split; cbn; try done; [unfold n; lia|by rewrite length_replicate|lia]. }
  apply loop_ok; [done|]. pose proof (limit_range _ Hi). pose proof (chunk_range _ Hi).
  unfold measure, enough_fuel in *. cbn [st cursor] in *. nia.
Qed.
End Round.
End TolerantLemmas.

(** ** Lookups against a directory server *)

(** The result of looking [name] up below [dir]. *)
Definition look (s : dir_server) (op : nfs_fh4 * bytes) : result Z nfs_fh4 :=
  if ds_putfh s op.1 =? NFS_OK then ds_lookup s op.1 op.2 else Err (ds_putfh s op.1).

Module LookupLemmas.
Import ExchangeLemmas.

Lemma lookup_ops_drop (items : list (nfs_fh4 * bytes)) j d n :
  items !! j = Some (d, n) →
  ∃ rest, drop (3 * j) (mjoin ((λ op, [APutFh op.1; ALookup op.2; AGetFh]) <$> items)) =
    APutFh d :: ALookup n :: AGetFh :: rest.
Proof.
  revert j. induction items as [|x items IH]; intros [|j] Hj; [done|done|..].
  - injection Hj as ->. by eexists.
  - destruct (IH j Hj) as [rest Hr]. exists rest.
    replace (3 * S j)%nat with (S (S (S (3 * j)))) by lia. exact Hr.
Qed.

Section Truth.
Context {W : Type} (rpc : Compound.t → W → RpcResult COMPOUND4res * W) (s : dir_server) (Hserves : serves s rpc).

(** What an accepted reply says from the first operation of an item on. *)
Lemma item_executes (items : list (nfs_fh4 * bytes)) w res w' j d n :
  ExchangeLemmas.exchanged rpc (mjoin ((λ op, [APutFh op.1; ALookup op.2; AGetFh]) <$> items)) w res w' →
  items !! j = Some (d, n) → 1 + 3 * Z.of_nat j < CompoundRes.nops res →
  ∃ cur rest, executes s cur (APutFh d :: ALookup n :: AGetFh :: rest) (drop (1 + 3 * j) (results res)) ∧
    (∀ i, 0 <= i < CompoundRes.nops res → ∃ r, results res !! Z.to_nat i = Some r ∧
       response_op_status r = CompoundRes.op_status res i).
Proof.
  intros (req & sid & q & Hr & Hops & Hd & Hok) Hj Hn.
  pose proof (Hserves _ _ _ _ Hr Hok) as Hex. rewrite Hops in Hex.
  assert (Hstat : ∀ i, 0 <= i < CompoundRes.nops res → ∃ r, results res !! Z.to_nat i = Some r ∧
       response_op_status r = CompoundRes.op_status res i).
  { intros i Hi. destruct (ValidateReplyLemmas.validated_op _ res i Hd Hok Hi) as (a & r & _ & Hop & _).
    exists r. rewrite <-results_op by done. split; [done|]. unfold CompoundRes.op_status. by rewrite Hop. }
  assert (Hnn : cr_val res ≠ None) by (destruct Hok as (_ & Hnn & _); apply Hnn; unfold CompoundRes.nops in Hn; lia).
  pose proof (results_length res Hd Hnn) as Hlen.
  destruct (executes_drop s None _ _ (1 + 3 * j) Hex) as [cur Hex']; [lia| |].
  { intros i r Hi Hr'. destruct (Hstat (Z.of_nat i)) as (r' & Hr'' & Hst); [lia|].
    rewrite Nat2Z.id in Hr''. rewrite Hr' in Hr''. injection Hr'' as <-. rewrite Hst.
    rewrite (validated_status (Compound.ops req)) by (done || lia).
    by replace (Z.of_nat i + 1 =? CompoundRes.nops res) with false by lia. }
  destruct (lookup_ops_drop items j d n Hj) as [rest Hdrop].
  exists cur, rest. split; [|done]. cbn [drop Nat.add] in Hex' |- *. by rewrite Hdrop in Hex'.
Qed.

(** The results of item [j], as a prefix of what the server executed for it. *)
Lemma item_results (items : list (nfs_fh4 * bytes)) w res w' j d n (k : nat) :
  ExchangeLemmas.exchanged rpc (mjoin ((λ op, [APutFh op.1; ALookup op.2; AGetFh]) <$> items)) w res w' →
  items !! j = Some (d, n) → 1 + 3 * Z.of_nat j + Z.of_nat k < CompoundRes.nops res →
  ∃ r, drop (1 + 3 * j) (results res) !! k = Some r ∧
    results res !! Z.to_nat (1 + 3 * Z.of_nat j + Z.of_nat k) = Some r ∧
    response_op_status r = CompoundRes.op_status res (1 + 3 * Z.of_nat j + Z.of_nat k).
Proof.
  intros Hx Hj Hk. destruct (item_executes items w res w' j d n Hx Hj) as (cur & rest & _ & Hst); [lia|].
  destruct (Hst (1 + 3 * Z.of_nat j + Z.of_nat k)) as (r & Hr & Hrs); [lia|]. exists r. rewrite lookup_drop.
  by replace (1 + 3 * j + k)%nat with (Z.to_nat (1 + 3 * Z.of_nat j + Z.of_nat k)) by lia.
Qed.

(** An item whose three operations succeeded returns the child's handle. *)
Lemma lookup_value (items : list (nfs_fh4 * bytes)) w res w' j d n :
  ExchangeLemmas.exchanged rpc (mjoin ((λ op, [APutFh op.1; ALookup op.2; AGetFh]) <$> items)) w res w' →
  items !! j = Some (d, n) → let start := 1 + 3 * Z.of_nat j in
  (∀ i, start <= i < start + 3 → i < CompoundRes.nops res ∧ CompoundRes.op_status res i = NFS_OK) →
  ∃ v, CompoundRes.getfh res (start + 2) = Some v ∧ Ok v = look s (d, n).
Proof.
  intros Hx Hj start Hall. destruct (Hall (start + 2)) as [Hn H2]; [lia|].
  destruct (Hall (start + 0)) as [_ H0]; [lia|]. destruct (Hall (start + 1)) as [_ H1]; [lia|].
  destruct (item_executes items w res w' j d n Hx Hj) as (cur & rest & Hex & _); [lia|].
  destruct (item_results items w res w' j d n 0 Hx Hj) as (r0 & Hr0 & _ & Hs0); [lia|].
  destruct (item_results items w res w' j d n 1 Hx Hj) as (r1 & Hr1 & _ & Hs1); [lia|].
  destruct (item_results items w res w' j d n 2 Hx Hj) as (r2 & Hr2 & Hop2 & Hs2); [lia|]. fold start in Hs0, Hs1, Hs2, Hop2.
  destruct (drop _ _) as [|a0 [|a1 [|a2 rs]]]; [done..|]. injection Hr0 as ->. injection Hr1 as ->. injection Hr2 as ->.
  change (Z.of_nat 0) with 0 in Hs0. change (Z.of_nat 1) with 1 in Hs1. change (Z.of_nat 2) with 2 in Hs2, Hop2.
  cbn [executes] in Hex. rewrite Hs0, H0, Hs1, H1, Hs2, H2 in Hex. cbn [Z.eqb NFS_OK] in Hex.
  destruct Hex as (Hput & d' & x & [= <-] & Hl & (st & v & -> & Hv) & _).
  exists x. unfold look. cbn [fst snd]. rewrite Hput, Hl. split; [|done]. cbn in Hs2.
  unfold CompoundRes.getfh, CompoundRes.expect_op.
  rewrite results_op, Hop2 by lia. cbn. rewrite Hs2, H2. cbn. exact Hv.
Qed.

(** An item that failed at [i] failed there because the directory says so, or
    for a reason the server gives to any request. *)
Lemma lookup_error (items : list (nfs_fh4 * bytes)) w res w' j d n i st :
  ExchangeLemmas.exchanged rpc (mjoin ((λ op, [APutFh op.1; ALookup op.2; AGetFh]) <$> items)) w res w' →
  items !! j = Some (d, n) → let start := 1 + 3 * Z.of_nat j in
  start <= i < start + 3 → i < CompoundRes.nops res →
  CompoundRes.op_status res i = st → st ≠ NFS_OK → resource_status st = true ∨ Err st = look s (d, n).
Proof.
  intros Hx Hj start Hi Hn Hst Hne. pose proof Hx as (req & sid & q & _ & _ & Hd & Hok).
  assert (Hpre : ∀ i', 0 <= i' → i' + 1 < CompoundRes.nops res → CompoundRes.op_status res i' = NFS_OK).
  { intros i' Hi' Hlt. rewrite (validated_status (Compound.ops req)) by (done || lia).
    by replace (i' + 1 =? CompoundRes.nops res) with false by lia. }
  destruct (item_executes items w res w' j d n Hx Hj) as (cur & rest & Hex & _); [lia|].
  pose proof (λ k, item_results items w res w' j d n k Hx Hj) as Hlook. fold start in Hlook.
  unfold look. cbn [fst snd]. destruct (Hlook 0%nat) as (r0 & Hr0 & _ & Hs0); [lia|].
  replace (start + Z.of_nat 0) with start in Hs0 by lia.
  destruct (drop _ _) as [|a0 rs]; [done|]. injection Hr0 as ->. cbn [executes] in Hex. rewrite Hs0 in Hex.
  destruct (decide (i = start)) as [->|Hi0].
  { rewrite Hst in Hex. destruct (Z.eqb_spec st NFS_OK); [done|]. destruct Hex as [?|Hp]; [by left|right].
    rewrite Hp. by destruct (Z.eqb_spec st NFS_OK). }
  rewrite Hpre in Hex by lia. cbn [Z.eqb NFS_OK] in Hex. destruct Hex as [Hput Hex]. rewrite Hput. cbn [Z.eqb NFS_OK].
  destruct (Hlook 1%nat) as (r1 & Hr1 & _ & Hs1); [lia|]. replace (start + Z.of_nat 1) with (start + 1) in Hs1 by lia.
  destruct rs as [|a1 rs]; [done|]. injection Hr1 as ->. rewrite Hs1 in Hex.
  destruct (decide (i = start + 1)) as [->|Hi1].
  { rewrite Hst in Hex. destruct (Z.eqb_spec st NFS_OK); [done|].
    destruct Hex as [?|(d' & [= <-] & Hl)]; [by left|by right]. }
  rewrite Hpre in Hex by lia. cbn [Z.eqb NFS_OK] in Hex. destruct Hex as (d' & x & [= <-] & Hl & Hex).
  assert (i = start + 2) as -> by lia.
  destruct (Hlook 2%nat) as (r2 & Hr2 & _ & Hs2); [lia|]. replace (start + Z.of_nat 2) with (start + 2) in Hs2 by lia.
  destruct rs as [|a2 rs]; [done|]. injection Hr2 as ->. rewrite Hs2, Hst in Hex.
  destruct (Z.eqb_spec st NFS_OK); [done|]. destruct Hex as [?|[]]. by left.
Qed.

Lemma lookups_tell_truth :
  TolerantLemmas.tells_truth rpc 3 (λ res start, CompoundRes.getfh res (start + 2))
    (λ op : nfs_fh4 * bytes, [APutFh op.1; ALookup op.2; AGetFh]) (λ op v, v = look s op) (λ _, True).
Proof.
  intros items w res w' _ Hx j [d n] Hj start. split.
  - by apply (lookup_value items w res w').
  - intros i st. by apply (lookup_error items w res w').
Qed.
End Truth.

(** C5: Batched lookups are transparent and always finish.  Against every
    transport whose replies are truthful, however it rejects sizes, drops
    requests or fails, [lookup_many] terminates; when it returns a list, the
    entry of every item is exactly what looking that item up alone gives, errors
    included, except for a resource status the server reports even for the item
    alone; and it gives up only for a transport failure, a negotiated limit that
    does not admit a single item, or a compound the server rejected before its
    first item. *)
Theorem lookup_many_correct {W} (rpc : Compound.t → W → RpcResult COMPOUND4res * W)
    (xdr_len : Compound.t → Z) `{!XdrSizes xdr_len} (s : dir_server) (cl : NfsClient.t)
    (ops : list (nfs_fh4 * bytes)) (w : W) (fuel : nat) :
  transport_ok rpc → serves s rpc → AdaptiveCompoundLimits.wf (NfsClient.compound_limits cl) →
  0 <= NfsClient.max_ops cl < USIZE_MAX → TolerantLemmas.enough_fuel ops cl <= Z.of_nat fuel →
  ∃ r cl' w', lookup_many rpc xdr_len fuel cl ops w = Done (r, cl', w') ∧
    match r with
    | Ok vs => length vs = length ops ∧ ∀ i x v, ops !! i = Some x → vs !! i = Some v →
        v = look s x ∨ ∃ st, v = Err st ∧ resource_status st = true
    | Err e => TolerantLemmas.aborts rpc xdr_len "lookupv" 3 add_lookup ops cl e
    end.
Proof.
  intros Hrpc Hs Hwf Hmax Hfuel.
  destruct (TolerantLemmas.many_ok rpc Hrpc xdr_len "lookupv" 3 add_lookup _ _ _ (λ _, True) ltac:(done)
    (lookups_tell_truth rpc s Hs) ops cl Hmax fuel w Hwf Hfuel) as (r & cl' & w' & E & Hr & _); [done|]. by exists r, cl', w'.
Qed.

(** A server with a small operation limit, one unusable handle, one missing name
    and directories of three entries, one to a page. *)
Definition example_page (cookie : Z) : list entry4 * bool :=
  ([Entry (cookie + 1) (XdrVec 1 (Some (bstr "x"))) (XdrVec 0 None)], 2 <=? cookie).

Definition example_dirs : dir_server :=
  DirServer (λ fh, if bool_decide (fh = bstr "stale") then 70 else 0)
    (λ d n, if bool_decide (n = bstr "missing") then Err 2 else Ok (d ++ bstr "/" ++ n))
    (λ d cookie page, page = example_page cookie).

Fixpoint serve (s : dir_server) (cur : option nfs_fh4) (ops : list argop) : list resop :=
  match ops with
  | ASequence _ _ _ _ :: ops => RPlain OP_SEQUENCE 0 :: serve s cur ops
  | APutFh fh :: ops =>
      if ds_putfh s fh =? NFS_OK then RPlain OP_PUTFH 0 :: serve s (Some fh) ops
      else [RPlain OP_PUTFH (ds_putfh s fh)]
  | ALookup n :: ops =>
      match cur with
      | Some d =>
          match ds_lookup s d n with
          | Ok x => RPlain OP_LOOKUP 0 :: serve s (Some x) ops
          | Err st => [RPlain OP_LOOKUP st]
          end
      | None => [RPlain OP_LOOKUP NFS4ERR_RESOURCE]
      end
  | AGetFh :: ops =>
      match cur with
      | Some fh => RGetFh 0 (XdrVec (Z.of_nat (length fh)) (Some fh)) :: serve s cur ops
      | None => [RGetFh NFS4ERR_RESOURCE (XdrVec 0 None)]
      end
  | AReaddir cookie _ _ _ _ :: ops =>
      match cur with
      | Some _ => RReaddir 0 (example_page cookie).1 (example_page cookie).2 :: serve s cur ops
      | None => [RReaddir NFS4ERR_RESOURCE [] true]
      end
  | _ => []
  end.

Definition example_lookup_rpc (c : Compound.t) (w : Z) : RpcResult COMPOUND4res * Z :=
  let ops := Compound.ops c in
  let rs := serve example_dirs None ops in
  (if Z.of_nat (length ops) <=? 8
   then Ok (Res (from_option response_op_status 0 (last rs)) (Z.of_nat (length rs)) (Some rs))
   else Ok (empty_response NFS4ERR_RESOURCE), w + 1).

Lemma serve_executes ops cur : executes example_dirs cur ops (serve example_dirs cur ops).
Proof.
  revert cur. induction ops as [|op ops IH]; intros cur; [done|]. destruct op; cbn [serve]; try done.
  - destruct (ds_putfh example_dirs fh =? NFS_OK) eqn:E; cbn [executes].
    + change (response_op_status (RPlain OP_PUTFH 0)) with 0. split; [lia|apply IH].
    + change (response_op_status (RPlain OP_PUTFH ?x)) with x. rewrite E. by right.
  - destruct cur as [fh|]; cbn [executes response_op_status].
    + split; [|apply IH]. eexists _, _. split; [done|]. cbn. by destruct fh.
    + by left.
  - destruct cur as [d|]; [|by left].
    destruct (ds_lookup example_dirs d name) as [x|st] eqn:E; cbn [executes].
    + change (response_op_status (RPlain OP_LOOKUP 0)) with 0. by exists d, x.
    + change (response_op_status (RPlain OP_LOOKUP st)) with st. cbn in E. case_bool_decide; [|done].
      injection E as <-. right. exists d. split; [done|]. cbn. by rewrite bool_decide_true.
  - cbn [executes]. change (response_op_status (RPlain OP_SEQUENCE 0)) with 0. apply IH.
  - destruct cur as [d|]; cbn [executes response_op_status]; [|by left].
    split; [|apply IH]. by eexists _, _, _, _.
Qed.

Lemma serve_decoded ops cur : Forall resop_decoded (serve example_dirs cur ops) ∧
  (length (serve example_dirs cur ops) <= length ops)%nat.
Proof.
  assert (Hp : ∀ op st, op ∈ [OP_SEQUENCE; OP_PUTFH; OP_LOOKUP] → resop_decoded (RPlain op st)).
  { intros op st Hop. cbn. intros Hin. assert (H : Forall (λ op, op ∉ payload_ops) [OP_SEQUENCE; OP_PUTFH; OP_LOOKUP])
      by (by apply (bool_decide_unpack _)). by apply (proj1 (Forall_forall _ _) H op). }
  revert cur. induction ops as [|op ops IH]; intros cur; [done|].
  destruct op; cbn [serve]; repeat case_match; cbn [length]; try (split; [constructor|lia]);
    try (destruct (IH cur); split; [|lia]); try (destruct (IH (Some fh)); split; [|lia]);
    try (match goal with x : nfs_fh4 |- _ => destruct (IH (Some x)); split; [|lia] end);
    repeat constructor; try done; try (apply Hp; by apply (bool_decide_unpack _)); by intros ? [= <-].
Qed.

Lemma example_lookup_rpc_ok : transport_ok example_lookup_rpc ∧ serves example_dirs example_lookup_rpc.
Proof.
  split.
  - split; [|by unfold example_lookup_rpc; intros ????; case_match].
    intros c w res w'. unfold example_lookup_rpc. destruct (Z.leb_spec (Z.of_nat (length (Compound.ops c))) 8); intros [= <- <-].
    + destruct (serve_decoded (Compound.ops c) None) as [Hf Hl]. split; [cbn; unfold U32_MAX; lia|].
      intros l [= <-]. done.
    + by split.
  - intros c w res w'. unfold example_lookup_rpc. destruct (Z.leb_spec (Z.of_nat (length (Compound.ops c))) 8); intros [= <- <-] _.
    + unfold results. cbn [cr_len cr_val default]. rewrite Nat2Z.id, take_ge by done. apply serve_executes.
    + by destruct (Compound.ops c).
Qed.

Definition example_lookups : list (nfs_fh4 * bytes) :=
  [(bstr "d", bstr "a"); (bstr "d", bstr "missing"); (bstr "stale", bstr "b"); (bstr "d", bstr "c"); (bstr "e", bstr "d")].
Definition example_lookup_client : NfsClient.t :=
  NfsClient.Make SlotLemmas.example_session [] 4096 4096 16 (AdaptiveCompoundLimits.new 16) 4096 None 1024 [] 0.

Lemma lookup_many_correct_witness :
  ∃ r cl' w', lookup_many example_lookup_rpc SendLemmas.example_xdr_len 612 example_lookup_client example_lookups 0
      = Done (r, cl', w') ∧
    r = Ok [Ok (bstr "d/a"); Err 2; Err 70; Ok (bstr "d/c"); Ok (bstr "e/d")].
Proof.
  destruct example_lookup_rpc_ok as [Ht Hs].
  destruct (lookup_many_correct example_lookup_rpc SendLemmas.example_xdr_len example_dirs example_lookup_client
    example_lookups 0 612 Ht Hs) as (r & cl' & w' & E & _).
  - split; [by vm_compute|]. intros tag size H. cbn in H. by rewrite lookup_empty in H.
  - by vm_compute.
  - by vm_compute.
  - assert (Hr : match lookup_many example_lookup_rpc SendLemmas.example_xdr_len 612 example_lookup_client
        example_lookups 0 with
      Done (v, _, _) => v = Ok [Ok (bstr "d/a"); Err 2; Err 70; Ok (bstr "d/c"); Ok (bstr "e/d")]
      | _ => False end) by (vm_compute; reflexivity).
    exists r, cl', w'. split; [exact E|]. by rewrite E in Hr.
Defined.
End LookupLemmas.
