(* ===== verification/BatchRun.v ===== *)
(** * The batch runner against a contract

    What [batch_ops_fallible_with_failure] guarantees for every tag, every
    [extract] and every [on_failure]: it terminates, hands the results of the
    items over in order, and stops at the item it reports.  What the items do to
    the server is a parameter, the record [runner_ok]; the batches of mutations,
    of reads and of opens are its instances. *)
From stdpp Require Import base numbers list list_numbers gmap strings.
From S2P Require Import Prelude Errors Planner Compound Session Client Loops Exchange Batch BatchOps.

Import ExchangeLemmas.

Section Contract.
Context {W : Type} (rpc : Compound.t → W → RpcResult COMPOUND4res * W).
Context {T R : Type} (tag : string) (per : Z) (item_ops : T → Z → list argop).
Context (extract : nat → COMPOUND4res → Z → option (RpcResult R)).
Context (on_failure : NfsClient.t → list R → W → option (NfsClient.t * W)).
Context (ops : list T) (cl0 : NfsClient.t).

(** The groups of the items from [k] on. *)
Definition chunk_groups (k len : Z) : list (list argop) :=
  slice (Z.to_nat k) (Z.to_nat (k + len)) (item_groups item_ops 0 ops).

(** The results of the first [k] items. *)
Definition collected (good : nat → T → R → Prop) (k : Z) (out : list R) : Prop :=
  length out = Z.to_nat k ∧ ∀ i x v, ops !! i = Some x → out !! i = Some v → good i x v.

(** After the first [k] items nothing more was sent, or one request that was not
    answered. *)
Definition unanswered (upto : Z → W → Prop) (k : Z) (w : W) : Prop :=
  ∃ w1, upto k w1 ∧ (w = w1 ∨ ∃ len r, sent rpc (mjoin (chunk_groups k len)) w1 r w).

(** The contract: [upto k] is the state of the world when the first [k] items
    are done and the batch may go on, [stop k] when it may have to stop there,
    [good] what a result says of its item (by position), [final] how the batch may end. *)
Record runner_ok (upto stop : Z → W → Prop) (good : nat → T → R → Prop)
    (final : RpcResult (list R) → NfsClient.t → W → Prop) : Prop := {
  rn_upto_stop k w : upto k w → stop k w;
  rn_answer k len w res w' :
    0 <= k → 1 <= len <= Z.of_nat (length ops) - k → upto k w →
    exchanged rpc (mjoin (chunk_groups k len)) w res w' →
    let done_ := Z.of_nat (completed_groups per res) in
    (CompoundRes.status res = NFS_OK → upto (k + done_) w') ∧
    (resource_rejected_before_mutation res = true → upto k w') ∧
    (batch_is_read_only (bstr tag) = true → upto (k + done_) w') ∧
    stop (k + done_) w' ∧
    ∀ j out x, 0 <= j < done_ → collected good (k + j) out → ops !! Z.to_nat (k + j) = Some x →
      ∃ r, extract (length out) res j = Some r ∧
        match r with Ok v => good (Z.to_nat (k + j)) x v | Err e => ∀ cl, same_limits cl0 cl → final (Err e) cl w' end;
  rn_lost k len w r w' :
    0 <= k → 1 <= len <= Z.of_nat (length ops) - k → upto k w →
    sent rpc (mjoin (chunk_groups k len)) w r w' → ∃ k', k <= k' <= Z.of_nat (length ops) ∧ stop k' w';
  rn_done out cl w : same_limits cl0 cl → collected good (Z.of_nat (length ops)) out → upto (Z.of_nat (length ops)) w → final (Ok out) cl w;
  rn_fail k k' out cl w e :
    same_limits cl0 cl → 0 <= k <= k' → k' <= Z.of_nat (length ops) → collected good k out → stop k' w →
    RpcError.is_transport e = true ∧ unanswered upto k w ∨ RpcError.op_index e = k ∧ k' = k ∧ k < Z.of_nat (length ops) →
    ∃ cl' w', on_failure cl out w = Some (cl', w') ∧ final (Err e) cl' w';
}.
End Contract.

Module BatchRunLemmas.
Import BatchOps BatchOpsLemmas.

Section Chunks.
Context {W T : Type} (rpc : Compound.t → W → RpcResult COMPOUND4res * W) (per : Z).
Context (add : Compound.t → T → Z → Compound.t) (item_ops : T → Z → list argop) `{Hshape : !BatchShape add per item_ops}.
Context (ops : list T).

(** The groups of the next [len] items. *)
Lemma chunk_groups_length k len : 0 <= k → 1 <= len <= Z.of_nat (length ops) - k →
  Forall (λ g, Z.of_nat (length g) = per) (chunk_groups item_ops ops k len) ∧
  Z.of_nat (length (chunk_groups item_ops ops k len)) = len.
Proof.
  intros Hk Hlen. split.
  - apply Forall_drop, Forall_take, (item_groups_lengths add per item_ops).
  - unfold chunk_groups, slice. rewrite length_drop, length_take, item_groups_length. lia.
Qed.

(** How many groups of a chunk an accepted reply completes. *)
Lemma completed_count (request : list argop) len res :
  decoded res → reply_ok request res → Z.of_nat (length request) = 1 + per * len → 1 <= len →
  Z.of_nat (completed_groups per res) =
    if CompoundRes.status res =? NFS_OK then len else Z.max ((CompoundRes.nops res - 2) / per) 0.
Proof.
  intros Hd (_ & _ & Hfull & _) Hreq Hlen. pose proof (bshape_pos (BatchShape := Hshape)) as Hp. unfold completed_groups.
  destruct (Z.eqb_spec (CompoundRes.status res) NFS_OK) as [Hs|Hs].
  - specialize (Hfull Hs). unfold CompoundRes.nops. rewrite Hfull, Hreq.
    replace (1 + per * len - 1 - 0) with (len * per) by lia. rewrite Z.div_mul by lia. lia.
  - replace (CompoundRes.nops res - 1 - 1) with (CompoundRes.nops res - 2) by lia. lia.
Qed.

(** The range of the completed items of a chunk, and when it is none. *)
Lemma completed_range k len w res w' : 0 <= k → 1 <= len <= Z.of_nat (length ops) - k →
  exchanged rpc (mjoin (chunk_groups item_ops ops k len)) w res w' →
  let done_ := Z.of_nat (completed_groups per res) in
  0 <= done_ <= len ∧ (CompoundRes.status res = NFS_OK → done_ = len) ∧
  (resource_rejected_before_mutation res = true → done_ = 0) ∧
  match BatchOps.first_bad res with
  | Some i => done_ < len ∧ sat_sub i 1 / per = done_
  | None => if CompoundRes.status res =? NFS_OK then done_ = len else done_ = 0 ∧ CompoundRes.nops res = 0
  end.
Proof.
  intros Hk Hlen (req & sid & q & _ & Hops & Hd & Hok) done_. pose proof (bshape_pos (BatchShape := Hshape)) as Hp.
  destruct (chunk_groups_length k len Hk Hlen) as (HG & HlenG).
  assert (Hreq : Z.of_nat (length (Compound.ops req)) = 1 + per * len).
  { rewrite Hops. cbn [length]. rewrite Nat2Z.inj_succ, (mjoin_groups_length per) by done. rewrite HlenG. lia. }
  assert (Hn0 : 0 <= CompoundRes.nops res <= 1 + per * len).
  { destruct Hd as [? _], Hok as [? _]. unfold CompoundRes.nops. lia. }
  pose proof (completed_count _ len res Hd Hok Hreq ltac:(lia)) as Hdone. fold done_ in Hdone.
  pose proof (first_bad_spec _ res Hd Hok) as Hbad.
  pose proof (Z.mul_div_le (CompoundRes.nops res - 2) per Hp). pose proof (Z.mul_succ_div_gt (CompoundRes.nops res - 2) per Hp).
  set (qd := (CompoundRes.nops res - 2) / per) in *. clearbody done_.
  destruct (Z.eqb_spec (CompoundRes.status res) NFS_OK) as [Hs|Hs].
  - split_and!; [lia|lia|done|by unfold resource_rejected_before_mutation; cbn; rewrite Hs|].
    destruct (first_bad res); [by destruct Hbad as (_ & _ & _ & ?)|done].
  - split_and!; [nia|nia|done| |].
    + unfold resource_rejected_before_mutation. cbn [rv_status rv_nops rv_op_status CompoundRes_view]. intros Hrej.
      enough (CompoundRes.nops res <= 2) by nia. revert Hrej.
      destruct (negb _ && negb _); [done|]. destruct (CompoundRes.nops res) as [|[p|[p|p|]|]|p]; lia || done.
    + destruct (first_bad res) as [i|]; [|destruct Hbad as [[? _]|[_ ?]]; [done|split; [nia|done]]].
      destruct Hbad as (-> & Hi0 & _). unfold sat_sub. replace (CompoundRes.nops res - 1 - 1) with (CompoundRes.nops res - 2) by lia.
      split; [nia|]. destruct (Z.max_spec (CompoundRes.nops res - 2) 0) as [[? ->]|[? ->]]; [|fold qd; nia].
      rewrite Z.div_0_l by lia. nia.
Qed.
End Chunks.

Lemma batch_unfold {W T R} (rpc : Compound.t → W → RpcResult COMPOUND4res * W) xdr_len tag per
    (add : Compound.t → T → Z → Compound.t) (extract : nat → COMPOUND4res → Z → option (RpcResult R)) on_failure
    fuel cl (l : list T) (w : W) :
  batch_ops_fallible_with_failure rpc xdr_len tag per add extract on_failure fuel cl l w =
  if decide (l = []) then Done (Ok [], cl, w)
  else loop rpc xdr_len tag per add extract on_failure fuel l (State cl w 0 USIZE_MAX []).
Proof. by destruct l. Qed.

Section Runner.
Context {W : Type} (rpc : Compound.t → W → RpcResult COMPOUND4res * W) (Hrpc : transport_ok rpc).
Context (xdr_len : Compound.t → Z) `{!XdrSizes xdr_len}.
Context {T R : Type} (tag : string) (per : Z) (add : Compound.t → T → Z → Compound.t).
Context (item_ops : T → Z → list argop) `{Hshape : !BatchShape add per item_ops}.
Context (extract : nat → COMPOUND4res → Z → option (RpcResult R)).
Context (on_failure : NfsClient.t → list R → W → option (NfsClient.t * W)).
Context (ops : list T) (cl0 : NfsClient.t).
Context (upto stop : Z → W → Prop) (good : nat → T → R → Prop) (final : RpcResult (list R) → NfsClient.t → W → Prop).
Hypothesis Hrun : runner_ok rpc tag per item_ops extract on_failure ops cl0 upto stop good final.
Hypothesis Hmax : 0 <= NfsClient.max_ops cl0 < USIZE_MAX.
Let n : Z := Z.of_nat (length ops).

Record inv (st : state (W := W) (R := R)) : Prop := {
  inv_limits : same_limits cl0 (client st);
  inv_global : 0 <= global st <= n;
  inv_max : 1 <= max_items st;
  inv_out : collected ops good (global st) (out st);
  inv_upto : upto (global st) (world st);
  inv_fits : 0 < global st → 1 + per <= NfsClient.max_ops cl0;
}.

Definition chunk_of (st : state (W := W) (R := R)) : Z :=
  match capacity tag per (client st) with
  | Ok cap => Z.min (Z.min cap (max_items st)) (n - global st)
  | Err _ => 0
  end.

Definition measure (st : state (W := W) (R := R)) : Z := (n - global st) * (n + 1) + chunk_of st.

Definition turn_ok (st : state) (t : option (turn (state (W := W) (R := R)) (answer (W := W) (R := R)))) : Prop :=
  match t with
  | None => False
  | Some (Return (r, cl, w)) => final r cl w
  | Some (Again st') => inv st' ∧ measure st' < measure st
  end.

Lemma batch_chunk_range st : inv st → 0 <= chunk_of st <= n.
Proof.
  intros Hi. pose proof (inv_global _ Hi). pose proof (inv_max _ Hi). unfold chunk_of, capacity.
  destruct (CompoundBudget.batch_capacity _ _) as [cap|e] eqn:E; [|lia].
  pose proof (TolerantLemmas.capacity_spec (client st) (bstr tag) per bshape_pos) as Hcap. rewrite E in Hcap.
  destruct (inv_limits _ Hi) as [Hm _]. destruct Hcap as [? _]; lia.
Qed.

Lemma batch_measure_progress st st' : inv st → inv st' → global st < global st' → measure st' < measure st.
Proof.
  intros Hi Hi' Hlt. pose proof (batch_chunk_range _ Hi). pose proof (batch_chunk_range _ Hi'). unfold measure. nia.
Qed.

(** What an accepted reply to a chunk of [len] items means: [done_] of them were
    done. *)
Record answered (st : state (W := W) (R := R)) (len : Z) (res : COMPOUND4res) (w' : W) (done_ : Z) : Prop := {
  an_len : 1 <= len <= n - global st;
  an_done : 0 <= done_ <= len;
  an_ok : CompoundRes.status res = NFS_OK → upto (global st + done_) w';
  an_retry : resource_rejected_before_mutation res = true → upto (global st) w';
  an_resume : batch_is_read_only (bstr tag) = true → upto (global st + done_) w';
  an_stop : stop (global st + done_) w';
  an_extract j out x : 0 <= j < done_ → collected ops good (global st + j) out → ops !! Z.to_nat (global st + j) = Some x →
      ∃ r, extract (length out) res j = Some r ∧
        match r with Ok v => good (Z.to_nat (global st + j)) x v | Err e => ∀ cl, same_limits cl0 cl → final (Err e) cl w' end;
  an_bad : match first_bad res with
    | Some i => done_ < len ∧ sat_sub i 1 / per = done_
    | None => if CompoundRes.status res =? NFS_OK then done_ = len
              else done_ = 0 ∧ CompoundRes.nops res = 0
    end;
}.

Lemma exchange_answered st len res w' : inv st → 1 <= len <= n - global st →
  exchanged rpc (mjoin (chunk_groups item_ops ops (global st) len)) (world st) res w' →
  ∃ done_, answered st len res w' done_.
Proof.
  intros Hi Hlen Hex. pose proof (inv_global _ Hi) as Hg.
  destruct (rn_answer _ _ _ _ _ _ _ _ _ _ _ _ Hrun (global st) len (world st) res w' ltac:(lia) Hlen (inv_upto _ Hi) Hex)
    as (Hok & Hretry & Hresume & Hstop & Hext).
  destruct (completed_range rpc per add item_ops ops (global st) len (world st) res w' ltac:(lia) Hlen Hex)
    as (Hd & _ & _ & Hbad).
  by exists (Z.of_nat (completed_groups per res)).
Qed.

Lemma collected_snoc k out x v : 0 <= k → collected ops good k out → ops !! Z.to_nat k = Some x → good (Z.to_nat k) x v →
  collected ops good (k + 1) (out ++ [v]).
Proof.
  intros Hk [Hlen Hc] Hx Hv. split; [rewrite length_app; cbn; lia|]. intros i y u Hy [Hu|[Hi Hu]]%lookup_app_Some; [by eapply Hc|].
  apply list_lookup_singleton_Some in Hu as [E <-]. assert (i = Z.to_nat k) as -> by lia. congruence.
Qed.

Lemma push_results_ok st len res w' done_ : inv st → answered st len res w' done_ →
  ∀ (c : nat) j out, 0 <= j → j + Z.of_nat c <= done_ → collected ops good (global st + j) out →
  match push_results extract res j c out with
  | Some (Ok out') => collected ops good (global st + j + Z.of_nat c) out'
  | Some (Err e) => ∀ cl, same_limits cl0 cl → final (Err e) cl w'
  | None => False
  end.
Proof.
  intros Hi Han. pose proof (inv_global _ Hi). pose proof (an_len _ _ _ _ _ Han). pose proof (an_done _ _ _ _ _ Han).
  induction c as [|c IH]; intros j o Hj Hc Ho; cbn [push_results].
  { by replace (global st + j + Z.of_nat 0) with (global st + j) by lia. }
  assert (is_Some (ops !! Z.to_nat (global st + j))) as [x Hx] by (apply lookup_lt_is_Some; unfold n in *; lia).
  destruct (an_extract _ _ _ _ _ Han j o x ltac:(lia) Ho Hx) as (r & -> & Hr). cbn [mbind option_bind].
  destruct r as [v|e]; [|done]. pose proof (collected_snoc (global st + j) _ _ _ ltac:(lia) Ho Hx Hr) as Ho'.
  replace (global st + j + 1) with (global st + (j + 1)) in Ho' by lia.
  specialize (IH (j + 1) (o ++ [v]) ltac:(lia) ltac:(lia) Ho').
  by replace (global st + j + Z.of_nat (S c)) with (global st + (j + 1) + Z.of_nat c) by lia.
Qed.

(** Collecting [c] results of the chunk and going on. *)
Lemma pushing_ok st len res cl' w' done_ c k : inv st → same_limits cl0 cl' → answered st len res w' done_ → 0 <= c <= done_ →
  (∀ out, collected ops good (global st + c) out → turn_ok st (k out)) →
  turn_ok st (pushing extract cl' w' res c (out st) k).
Proof.
  intros Hi Hs Han Hc Hk. unfold pushing.
  pose proof (push_results_ok st len res w' done_ Hi Han (Z.to_nat c) 0 (out st) ltac:(lia) ltac:(lia)) as Hp.
  replace (global st + 0) with (global st) in Hp by lia. specialize (Hp (inv_out _ Hi)).
  replace (global st + Z.of_nat (Z.to_nat c)) with (global st + c) in Hp by lia.
  destruct (push_results _ _ _ _ _) as [[o'|e]|]; cbn [mbind option_bind]; [by apply Hk|by apply Hp|done].
Qed.

(** Stopping at an item. *)
Lemma failing_ok st k k' o cl w e : same_limits cl0 cl → 0 <= k <= k' → k' <= n → collected ops good k o → stop k' w →
  RpcError.is_transport e = true ∧ unanswered rpc item_ops ops upto k w ∨ RpcError.op_index e = k ∧ k' = k ∧ k < n →
  turn_ok st (failing on_failure cl w o e).
Proof.
  intros Hs Hk Hk' Ho Hst He. destruct (rn_fail _ _ _ _ _ _ _ _ _ _ _ _ Hrun k k' o cl w e Hs Hk Hk' Ho Hst He)
    as (cl' & w' & Hf & Hfin). unfold failing. by rewrite Hf.
Qed.

Lemma finish_chunk_ok st cl' w' len res done_ :
  inv st → 1 + per <= NfsClient.max_ops cl0 → same_limits cl0 cl' → answered st len res w' done_ →
  turn_ok st (finish_chunk per extract on_failure cl' w' (global st) len (out st) res).
Proof.
  intros Hi Hfit Hs Han. pose proof (inv_global _ Hi). pose proof (an_len _ _ _ _ _ Han) as Hlen.
  pose proof (an_done _ _ _ _ _ Han) as Hd. pose proof (an_stop _ _ _ _ _ Han) as Hstop.
  pose proof (an_bad _ _ _ _ _ Han) as Hbad. pose proof (bshape_pos (BatchShape := Hshape)). unfold finish_chunk.
  destruct (first_bad res) as [i|].
  - destruct Hbad as [Hlt Hq]. rewrite Hq, Z.min_l by lia. eapply pushing_ok; [done|done|done|lia|].
    intros o Ho. apply (failing_ok st (global st + done_) (global st + done_)); [done|lia|lia|done|done|]. right.
    unfold caller_index. cbn. rewrite Hq. unfold sat_sub. split; [lia|]. split; [done|lia].
  - destruct (Z.eqb_spec (CompoundRes.status res) NFS_OK) as [Hok|Hne]; cbn [negb].
    + subst done_. eapply pushing_ok; [done|done|done|lia|]. intros o Ho.
      assert (Hi' : inv (State cl' w' (global st + len) USIZE_MAX o)).
      { split; cbn; try done; [lia|]. by apply (an_ok _ _ _ _ _ Han). }
      split; [done|]. apply batch_measure_progress; [done|done|cbn; lia].
    + destruct Hbad as [-> Hn0]. rewrite Hn0. change (sat_sub 0 1) with 0. rewrite Z.div_0_l, !Z.min_l by lia.
      eapply pushing_ok; [done|done|done|lia|]. intros o Ho. replace (global st + 0) with (global st) in * by lia.
      apply (failing_ok st (global st) (global st)); [done|lia|lia|done|done|]. right. cbn. lia.
Qed.

(** The capacity after a reply is still defined. *)
Lemma capacity_kept cl' : 1 + per <= NfsClient.max_ops cl0 → same_limits cl0 cl' →
  ∃ smaller, capacity tag per cl' = Ok smaller ∧ 1 <= smaller.
Proof.
  intros Hfit [Hm _]. pose proof (bshape_pos (BatchShape := Hshape)) as Hp.
  pose proof (TolerantLemmas.capacity_spec cl' (bstr tag) per Hp ltac:(lia)) as Hc. unfold capacity.
  destruct (CompoundBudget.batch_capacity _ _) as [smaller|e]; [exists smaller; naive_solver lia|lia].
Qed.

(** Going on at the same item with a smaller chunk. *)
Lemma again_smaller st cl' w' len o smaller : inv st → same_limits cl0 cl' → upto (global st) w' →
  collected ops good (global st) o → chunk_of st = len → capacity tag per cl' = Ok smaller → smaller < len →
  turn_ok st (Some (Again (State cl' w' (global st) USIZE_MAX o))).
Proof.
  intros Hi Hs Hw Ho Hchunk Hcap Hlt. split; [split; cbn; try done; apply Hi|].
  unfold measure. cbn [global]. rewrite Hchunk. unfold chunk_of. cbn [client global max_items]. rewrite Hcap. lia.
Qed.

Lemma resume_read_only_ok st cl' w' len res done_ :
  inv st → 1 + per <= NfsClient.max_ops cl0 → same_limits cl0 cl' → answered st len res w' done_ → chunk_of st = len →
  turn_ok st (resume_read_only tag per extract on_failure cl' w' (global st) len (out st) res).
Proof.
  intros Hi Hfit Hs Han Hchunk. pose proof (finish_chunk_ok st cl' w' len res done_ Hi Hfit Hs Han) as Hfin.
  pose proof (an_bad _ _ _ _ _ Han) as Hbad. pose proof (an_done _ _ _ _ _ Han). pose proof (an_len _ _ _ _ _ Han).
  pose proof (inv_global _ Hi). pose proof (bshape_pos (BatchShape := Hshape)) as Hp.
  unfold resume_read_only, batch_resource_progress. destruct (batch_is_read_only (bstr tag)) eqn:Hro; [|done].
  destruct (_ || _) eqn:Hst; [|done]. destruct (1 <? len); [|done]. cbn [andb].
  assert (sat_sub (default 0 (first_bad res)) 1 / per = done_) as ->.
  { destruct (first_bad res) as [i|]; [by destruct Hbad|]. cbn [from_option] in Hst |- *.
    change (sat_sub 0 1) with 0. rewrite Z.div_0_l by lia.
    destruct (Z.eqb_spec (CompoundRes.status res) NFS_OK) as [E|]; [by rewrite E in Hst|by destruct Hbad]. }
  destruct (capacity_kept cl' Hfit Hs) as (smaller & Hcap & Hs1). rewrite Hcap.
  pose proof (an_resume _ _ _ _ _ Han Hro) as Hup.
  destruct (Z.ltb_spec 0 done_) as [Hpos|Hz]; cbn [orb].
  - eapply pushing_ok; [done|done|done|lia|]. intros o Ho.
    assert (Hi' : inv (State cl' w' (global st + done_) USIZE_MAX o)) by (split; cbn; try done; lia).
    split; [done|]. apply batch_measure_progress; [done|done|cbn; lia].
  - assert (done_ = 0) as -> by lia. destruct (Z.ltb_spec smaller len); [|done]. replace (global st + 0) with (global st) in Hup |- * by lia.
    eapply pushing_ok; [done|done|done|lia|]. intros o Ho. replace (global st + 0) with (global st) in Ho by lia.
    by apply (again_smaller st cl' w' len o smaller).
Qed.

Lemma batch_after_reply_ok st cl' w' len res done_ :
  inv st → 1 + per <= NfsClient.max_ops cl0 → same_limits cl0 cl' → answered st len res w' done_ → chunk_of st = len →
  turn_ok st (after_reply tag per extract on_failure cl' w' (global st) len (out st) res).
Proof.
  intros Hi Hfit Hs Han Hchunk. pose proof (resume_read_only_ok st cl' w' len res done_ Hi Hfit Hs Han Hchunk) as Hres.
  unfold after_reply. destruct (negb _ && _ && _) eqn:Hretry; [|done].
  apply andb_true_iff in Hretry as [_ Hrej]. destruct (capacity_kept cl' Hfit Hs) as (smaller & Hcap & _). rewrite Hcap.
  destruct (Z.ltb_spec smaller len); [|done].
  apply (again_smaller st cl' w' len _ smaller); try done; [by apply (an_retry _ _ _ _ _ Han)|apply Hi].
Qed.

(** A send that failed: nothing was sent, or the reply was lost. *)
Lemma send_failed_ok st len cl' w' e : inv st → 1 <= len <= n - global st → same_limits cl0 cl' →
  w' = world st ∧ (RpcError.is_transport e = true ∨ RpcError.op_index e = 0) ∨
  RpcError.is_transport e = true ∧ (∃ r0, sent rpc (mjoin (chunk_groups item_ops ops (global st) len)) (world st) r0 w') →
  turn_ok st (if RpcError.is_transport e then failing on_failure cl' w' (out st) e
    else failing on_failure cl' w' (out st)
      (RpcError.with_op_index e (caller_index per (RpcError.op_index e) (global st) len))).
Proof.
  intros Hi Hlen Hs Hwhy. pose proof (inv_global _ Hi). pose proof (bshape_pos (BatchShape := Hshape)).
  pose proof (rn_upto_stop _ _ _ _ _ _ _ _ _ _ _ _ Hrun _ _ (inv_upto _ Hi)) as Hstop0.
  destruct (RpcError.is_transport e) eqn:Et.
  - destruct Hwhy as [[-> _]|[_ [r0 Hsent]]].
    + apply (failing_ok st (global st) (global st)); [done|lia|lia|apply Hi|done|left]. split; [done|].
      exists (world st). split; [apply Hi|by left].
    + destruct (rn_lost _ _ _ _ _ _ _ _ _ _ _ _ Hrun (global st) len (world st) r0 w') as (k' & Hk' & Hst);
        [lia|done|apply Hi|done|]. apply (failing_ok st (global st) k'); [done|lia|unfold n; lia|apply Hi|done|left].
      split; [done|]. exists (world st). split; [apply Hi|by eauto].
  - destruct Hwhy as [[-> [?|Hidx]]|[? _]]; [done| |done].
    apply (failing_ok st (global st) (global st)); [done|lia|lia|apply Hi|done|]. right.
    rewrite Hidx. unfold caller_index. change (sat_sub 0 1) with 0. rewrite Z.div_0_l by lia.
    cbn [RpcError.with_op_index RpcError.op_index]. unfold sat_sub. lia.
Qed.

Lemma batch_round_ok st : inv st → global st < n →
  turn_ok st (round rpc xdr_len tag per add extract on_failure ops st).
Proof.
  intros Hi Hlt. pose proof (inv_limits _ Hi) as Hs0. pose proof Hs0 as [Hm _]. pose proof (inv_global _ Hi).
  pose proof (bshape_pos (BatchShape := Hshape)) as Hp. pose proof (inv_max _ Hi).
  destruct st as [cl w g mx o]. cbn [global client max_items] in *. unfold round. set (st := State cl w g mx o) in *.
  destruct (capacity tag per cl) as [cap|e] eqn:Hcap; pose proof Hcap as Hcap0; unfold capacity in Hcap0;
    pose proof (TolerantLemmas.capacity_spec cl (bstr tag) per Hp ltac:(lia)) as Hcs; rewrite Hcap0 in Hcs.
  2:{ destruct Hcs as [Hsmall ->]. destruct (decide (0 < g)) as [Hg|]; [pose proof (inv_fits _ Hi Hg); lia|].
      apply (failing_ok st g g); [done|lia|lia|apply Hi| |right; cbn; lia].
      apply (rn_upto_stop _ _ _ _ _ _ _ _ _ _ _ _ Hrun), Hi. }
  destruct Hcs as (Hc1 & Hc2 & _). assert (Hfit : 1 + per <= NfsClient.max_ops cl0) by nia.
  fold n. set (end_ := Z.min _ n). set (chunk := slice _ _ ops). set (c := build _ _ _ _).
  assert (Hlen : Z.of_nat (length chunk) = end_ - g).
  { unfold chunk, slice. rewrite length_drop, length_take. unfold n in *. lia. }
  set (len := Z.of_nat (length chunk)) in *. assert (Hlr : 1 <= len <= n - g) by lia.
  assert (Hchunk : chunk_of st = len) by (unfold chunk_of; cbn [st client global max_items]; rewrite Hcap; lia).
  destruct (batch_build add per item_ops (Compound.tag Compound.new (bstr tag)) g chunk) as (Hops & Htag & Hcache).
  fold c in Hops, Htag, Hcache. cbn [Compound.tag Compound.keep Compound.ops Compound.new app] in Hops.
  replace g with (Z.of_nat (Z.to_nat g)) in Hops at 1 by lia. unfold chunk in Hops.
  rewrite item_groups_slice in Hops by (unfold n in *; lia). replace end_ with (g + len) in Hops by lia.
  assert (Hc : PreflightLemmas.cache_ok xdr_len c).
  { intros l r Hsz. rewrite Hcache in Hsz; [done|]. by right. }
  destruct (SendLemmas.compound_request_fits_spec xdr_len cl c Hc) as (c' & -> & Hc' & Hops' & Htag' & _ & _).
  destruct (negb _ && _) eqn:Hrepack.
  { apply andb_true_iff in Hrepack as [_ Hk].
    assert (1 <= len / 2) by (apply Z.div_le_lower_bound; lia). assert (len / 2 < len) by (apply Z.div_lt; lia).
    split; [destruct Hi; split; done|]. unfold measure. cbn [st global]. fold st. rewrite Hchunk.
    unfold chunk_of. cbn [client global max_items]. rewrite Hcap. lia. }
  destruct (NfsClient.call_compound _ _ _ _ _) as [[r cl'] w'] eqn:Hcall.
  destruct (send_outcomes rpc Hrpc xdr_len cl c' w r cl' w' Hc' Hcall) as [Hs Hout].
  assert (Hs' : same_limits cl0 cl') by (by eapply SendLemmas.same_limits_trans). rewrite Hops', Hops in Hout.
  destruct r as [res|e].
  - destruct (exchange_answered st len res w' Hi Hlr Hout) as [done_ Han].
    by apply (batch_after_reply_ok st cl' w' len res done_).
  - by apply (send_failed_ok st len cl' w' e Hi Hlr Hs').
Qed.

Lemma batch_run_ok fuel w : upto 0 w → (n + 1) * (n + 1) <= Z.of_nat fuel →
  ∃ r cl' w', batch_ops_fallible_with_failure rpc xdr_len tag per add extract on_failure fuel cl0 ops w =
    Done (r, cl', w') ∧ final r cl' w'.
Proof.
  intros Hw Hfuel. assert (Hs : same_limits cl0 cl0) by done.
  rewrite batch_unfold. destruct (decide (ops = [])) as [He|He].
  { assert (Hfin : final (Ok []) cl0 w).
    { apply (rn_done _ _ _ _ _ _ _ _ _ _ _ _ Hrun); [done|by rewrite He|by rewrite He]. }
    by exists (Ok []), cl0, w. }
  set (st := State cl0 w 0 USIZE_MAX ([] : list R)).
  assert (Hi : inv st) by (split; cbn; done || lia || constructor).
  enough (∃ a, loop rpc xdr_len tag per add extract on_failure fuel ops st = Done a ∧ final a.1.1 a.1.2 a.2)
    as ([[r cl'] w'] & ? & ?) by eauto.
  assert (Hm : measure st < Z.of_nat fuel).
  { pose proof (batch_chunk_range st Hi). unfold measure. cbn [st global]. nia. }
  clearbody st. revert st Hi Hm. clear w Hw Hfuel He. revert fuel.
  apply (run_ok _ _ _ inv measure (λ a, final a.1.1 a.1.2 a.2)).
  - intros st' Hi. pose proof (batch_chunk_range st' Hi). pose proof (inv_global _ Hi). unfold measure. nia.
  - intros st' Hi Hlt. pose proof (batch_round_ok st' Hi ltac:(unfold n; lia)) as Ht. revert Ht.
    by destruct (round _ _ _ _ _ _ _ _ _) as [[st''|[[r cl'] w']]|].
  - intros st' Hi Hge. cbn [fst snd]. pose proof (inv_global _ Hi). pose proof (inv_out _ Hi) as Ho.
    assert (global st' = n) as Hg by (unfold n in *; lia). pose proof (inv_upto _ Hi) as Hu. rewrite Hg in Hu, Ho.
    apply (rn_done _ _ _ _ _ _ _ _ _ _ _ _ Hrun); [apply Hi|done|done].
Qed.
End Runner.
End BatchRunLemmas.
