(* ===== verification/BatchOnce.v ===== *)
(** * Batches of mutations

    The theorem that a mutating batch is applied exactly once, in order, or is
    cut off at a known point: the batch runner's contract with a server that
    applies the groups of a compound in order.  The batched SETATTR, RENAME,
    LINK, WRITE, COPY and CLOSE are shapes it covers. *)
From stdpp Require Import base numbers list list_numbers gmap strings.
From S2P Require Import Prelude Errors Planner Compound Session Client IoProgress Loops Exchange Batch BatchOps BatchRun.

Module BatchOnceLemmas.
Import BatchOps BatchOpsLemmas ExchangeLemmas BatchRunLemmas.

Section Once.
Context {W : Type} (rpc : Compound.t → W → RpcResult COMPOUND4res * W).
Context {T R : Type} (tag : string) (per : Z) (add : Compound.t → T → Z → Compound.t).
Context (extract : COMPOUND4res → Z → option R) (item_ops : T → Z → list argop).
Context `{Hshape : !BatchShape add per item_ops}.
Context (applied : W → list (list argop)) (Happ : applies_in_order rpc per applied).

(** The result of a completed item can be read. *)
Definition extract_defined : Prop := ∀ groups w res w' j,
  exchanged rpc (mjoin groups) w res w' → Forall (λ g, Z.of_nat (length g) = per) groups →
  0 <= j < Z.of_nat (completed_groups per res) → is_Some (extract res j).
Hypothesis Hextract : extract_defined.

Context (ops : list T) (cl0 : NfsClient.t) (w0 : W).
Let n : Z := Z.of_nat (length ops).
Let all : list (list argop) := item_groups item_ops 0 ops.

(** The first [k] items are applied, and nothing else. *)
Definition applied_upto (k : Z) (w : W) : Prop := applied w = applied w0 ++ take (Z.to_nat k) all.

(** The ways a mutating batch may end. *)
Definition final_ok (r : RpcResult (list R)) (_ : NfsClient.t) (w : W) : Prop :=
  match r with
  | Ok out => length out = length ops ∧ applied_upto n w
  | Err e =>
      if RpcError.is_transport e then ∃ k, 0 <= k <= n ∧ applied_upto k w
      else 0 <= RpcError.op_index e < n ∧ applied_upto (RpcError.op_index e) w
  end.

(** A prefix of the groups of a chunk extends the groups before it. *)
Lemma chunk_prefix k len (j : nat) : 0 <= k → 0 <= len →
  take (Z.to_nat k) all ++ take j (chunk_groups item_ops ops k len) =
  take (Z.to_nat (k + Z.min (Z.of_nat j) len)) all.
Proof.
  intros Hk Hlen. unfold chunk_groups. fold all.
  replace (Z.to_nat (k + len)) with (Z.to_nat k + Z.to_nat len)%nat by lia.
  rewrite take_app_slice. f_equal. lia.
Qed.

Lemma mutations_ok :
  runner_ok rpc tag per item_ops (λ _ res i, Ok <$> extract res i) (λ cl _ w, Some (cl, w)) ops cl0
    applied_upto applied_upto (λ _ _ _, True) final_ok.
Proof.
  split.
  - done.
  - intros k len w res w' Hk Hlen Hup Hex done_.
    destruct (chunk_groups_length per add item_ops ops k len Hk Hlen) as [HG HlenG].
    pose proof Hex as (req & sid & q & Hr & Hops & Hd & Hok).
    destruct (Happ _ _ _ _ _ _ _ Hr Hops HG) as (j & Hj & Hjr). specialize (Hjr res eq_refl Hok).
    destruct (completed_range rpc per add item_ops ops k len w res w' Hk Hlen Hex) as (Hdl & _ & Hrej & _).
    fold done_ in Hdl, Hrej.
    assert (Hup' : applied_upto (k + done_) w').
    { unfold applied_upto. rewrite Hj, Hup, <-app_assoc, chunk_prefix, Hjr by lia. fold done_. by rewrite Z.min_l by lia. }
    split_and!; [done| |done|done|].
    + intros E%Hrej. rewrite E in Hup'. by replace (k + 0) with k in Hup' by lia.
    + intros i o x Hi _ _. destruct (Hextract _ _ _ _ i Hex HG Hi) as [v ->]. by exists (Ok v).
  - intros k len w r w' Hk Hlen Hup (req & sid & q & Hr & Hops).
    destruct (chunk_groups_length per add item_ops ops k len Hk Hlen) as [HG HlenG].
    destruct (Happ _ _ _ _ _ _ _ Hr Hops HG) as (j & Hj & _). exists (k + Z.min (Z.of_nat j) len). split; [lia|].
    unfold applied_upto. by rewrite Hj, Hup, <-app_assoc, chunk_prefix by lia.
  - intros o cl w _ [Ho _] Hup. split; [lia|done].
  - intros k k' o cl w e _ Hk Hk' _ Hst He. exists cl, w. split; [done|]. cbn. fold n in Hk', He.
    destruct (RpcError.is_transport e); [exists k'; split; [lia|done]|].
    destruct He as [[? _]|(-> & -> & ?)]; [done|]. split; [lia|done].
Qed.
End Once.

(** C1: A mutating batch is applied exactly once, in order, or is cut off at a
    known point.  For every batch of equally shaped mutations, every transport
    and every server that applies the operations of a compound in order, with
    any pattern of size rejections, failures and lost replies, the runner
    terminates; if it succeeds, the server has applied every item once, in the
    caller's order, and nothing else; if it reports a failure at an item, exactly
    the items before it have been applied; and if the transport failed, some
    prefix of the items has been applied, none of them twice. *)
Theorem batch_exactly_once {W T R} (rpc : Compound.t → W → RpcResult COMPOUND4res * W)
    (xdr_len : Compound.t → Z) `{!XdrSizes xdr_len} (tag : string) (per : Z)
    (add : Compound.t → T → Z → Compound.t) (extract : COMPOUND4res → Z → option R)
    (item_ops : T → Z → list argop) `{!BatchShape add per item_ops}
    (applied : W → list (list argop)) (ops : list T) (cl : NfsClient.t) (w : W) (fuel : nat) :
  transport_ok rpc → applies_in_order rpc per applied → extract_defined rpc per extract →
  0 <= NfsClient.max_ops cl < USIZE_MAX →
  (Z.of_nat (length ops) + 1) * (Z.of_nat (length ops) + 1) <= Z.of_nat fuel →
  ∃ r cl' w', batch_ops rpc xdr_len tag per add extract fuel cl ops w = Done (r, cl', w') ∧
    let upto k := applied w' = applied w ++ take k (item_groups item_ops 0 ops) in
    match r with
    | Ok out => length out = length ops ∧ applied w' = applied w ++ item_groups item_ops 0 ops
    | Err e =>
        if RpcError.is_transport e then ∃ k, (k <= length ops)%nat ∧ upto k
        else 0 <= RpcError.op_index e < Z.of_nat (length ops) ∧ upto (Z.to_nat (RpcError.op_index e))
    end.
Proof.
  intros Hrpc Happ Hext Hmax Hfuel.
  destruct (batch_run_ok rpc Hrpc xdr_len tag per add item_ops _ _ ops cl _ _ _ _
    (mutations_ok rpc tag per add extract item_ops applied Happ Hext ops cl w) Hmax fuel w) as (r & cl' & w' & E & Hfin).
  { unfold applied_upto. by rewrite app_nil_r. }
  { done. }
  exists r, cl', w'. split; [exact E|]. cbn zeta. clear E. destruct r as [out|e]; cbn [final_ok] in Hfin.
  - destruct Hfin as [Hl Ha]. split; [done|]. unfold applied_upto in Ha. rewrite Ha, take_ge; [done|]. rewrite item_groups_length. lia.
  - destruct (RpcError.is_transport e); [|done]. destruct Hfin as (k & Hk & Ha). exists (Z.to_nat k). split; [lia|done].
Qed.

(** The shapes of the mutating operations. *)
#[global] Instance add_setattr_shape : BatchShape add_setattr 2 (λ op _,
  [APutFh (sa_fh op); ASetattr zero_stateid (Compound.setattr_fattr (sa_mode op) (sa_size op) (sa_uid op) (sa_gid op)
     (sa_atime op) (sa_mtime op))]).
Proof. split; try done. intros c op i. cbn. by rewrite <-!app_assoc. Qed.

#[global] Instance add_rename_shape : BatchShape add_rename 4 (λ op _,
  [APutFh (rn_srcdir op); ASaveFh; APutFh (rn_dstdir op); ARename (rn_oldname op) (rn_newname op)]).
Proof. split; try done. intros c op i. cbn. by rewrite <-!app_assoc. Qed.

#[global] Instance add_link_shape : BatchShape add_link 4 (λ op _,
  [APutFh (ln_src op); ASaveFh; APutFh (ln_dstdir op); ALink (ln_newname op)]).
Proof. split; try done. intros c op i. cbn. by rewrite <-!app_assoc. Qed.

#[global] Instance add_write_shape : BatchShape add_write 2 (λ op _,
  [APutFh (wr_fh op); AWrite (wr_stateid op) (wr_offset op) FILE_SYNC4 (wr_data op)]).
Proof. split; try done. intros c op i. cbn. by rewrite <-!app_assoc. Qed.

#[global] Instance add_copy_shape : BatchShape add_copy 4 (λ op _,
  [APutFh (cp_src_fh op); ASaveFh; APutFh (cp_dst_fh op);
   ACopy (cp_src_stateid op) (cp_dst_stateid op) (cp_src_offset op) (cp_dst_offset op) (cp_count op)]).
Proof. split; try done. intros c op i. cbn. by rewrite <-!app_assoc. Qed.

#[global] Instance add_close_shape slot base : BatchShape (add_close slot base) 2 (λ op i,
  [APutFh (cl_fh op);
   AClose (match slot with User => base | PathSlot => wrapping_add32 base (as_u32 i) end) (cl_stateid op)]).
Proof. split; try done. intros c op i. cbn. by rewrite <-!app_assoc. Qed.

(** A server that closes files, refuses one handle, and rejects compounds of
    more than six operations; its state is what it has carried out. *)
Fixpoint close_groups (ops : list argop) : list (list argop) * list resop * Z :=
  match ops with
  | APutFh fh :: AClose seqid st :: rest =>
      if bool_decide (fh = bstr "bad") then ([], [RPlain OP_PUTFH 0; RPlain OP_CLOSE 10025], 10025)
      else let '(g, rs, status) := close_groups rest in
           ([APutFh fh; AClose seqid st] :: g, RPlain OP_PUTFH 0 :: RPlain OP_CLOSE 0 :: rs, status)
  | [] => ([], [], 0)
  | _ => ([], [RPlain OP_PUTFH NFS4ERR_RESOURCE], NFS4ERR_RESOURCE)
  end.

Definition example_close_rpc (c : Compound.t) (w : list (list argop)) : RpcResult COMPOUND4res * list (list argop) :=
  match Compound.ops c with
  | ASequence _ _ _ _ :: ops =>
      if 6 <? Z.of_nat (length ops) then (Ok (empty_response NFS4ERR_RESOURCE), w)
      else let '(g, rs, status) := close_groups ops in
           (Ok (Res status (1 + Z.of_nat (length rs)) (Some (RPlain OP_SEQUENCE 0 :: rs))), w ++ g)
  | _ => (Ok (empty_response NFS4ERR_RESOURCE), w)
  end.

Lemma close_groups_spec groups : Forall (λ g, Z.of_nat (length g) = 2) groups →
  let '(g, rs, status) := close_groups (mjoin groups) in
  ∃ k, g = take k groups ∧ k = Z.to_nat ((Z.of_nat (length rs) - (if status =? NFS_OK then 0 else 1)) / 2) ∧
       ((status =? NFS_OK) = false → rs ≠ []).
Proof.
  induction 1 as [|x groups Hx _ IH]; [by exists 0%nat|].
  destruct x as [|a [|b [|]]]; try (cbn in Hx; lia).
  change (mjoin ([a; b] :: groups)) with (a :: b :: mjoin groups). cbn [close_groups].
  destruct a; try (by exists 0%nat). destruct b; try (by exists 0%nat).
  case_bool_decide; [by exists 0%nat|].
  destruct (close_groups (mjoin groups)) as [[g rs] status]. destruct IH as (k & -> & -> & Hne).
  eexists (S _). split; [done|]. split; [|done]. cbn [length]. rewrite !Nat2Z.inj_succ.
  destruct (status =? NFS_OK).
  - replace (Z.succ (Z.succ (Z.of_nat (length rs))) - 0) with (Z.of_nat (length rs) - 0 + 1 * 2) by lia.
    rewrite Z.div_add by lia. pose proof (Z.div_pos (Z.of_nat (length rs) - 0) 2). lia.
  - replace (Z.succ (Z.succ (Z.of_nat (length rs))) - 1) with (Z.of_nat (length rs) - 1 + 1 * 2) by lia.
    rewrite Z.div_add by lia. destruct rs as [|r rs]; [by destruct Hne|].
    pose proof (Z.div_pos (Z.of_nat (length (r :: rs)) - 1) 2). cbn [length] in *. lia.
Qed.

Lemma close_groups_decoded ops :
  Forall resop_decoded (close_groups ops).1.2 ∧ (length (close_groups ops).1.2 <= S (length ops))%nat.
Proof.
  assert (Hp : ∀ st, resop_decoded (RPlain OP_PUTFH st)) by (intros st; by apply (bool_decide_unpack _)).
  assert (Hc : ∀ st, resop_decoded (RPlain OP_CLOSE st)) by (intros st; by apply (bool_decide_unpack _)).
  induction ops as [ops IH] using (induction_ltof1 _ length). unfold ltof in IH.
  destruct ops as [|a [|b ops]]; cbn [close_groups fst snd length]; [split; [constructor|lia]|destruct a; cbn [close_groups fst snd length]; (split; [auto using Forall_cons_2, Forall_nil_2|lia])|].
  destruct a; try (cbn [close_groups fst snd length]; split; [auto using Forall_cons_2, Forall_nil_2|lia]).
  destruct b; try (cbn [close_groups fst snd length]; split; [auto using Forall_cons_2, Forall_nil_2|lia]).
  case_bool_decide; [cbn [close_groups fst snd length]; split; [auto using Forall_cons_2, Forall_nil_2|lia]|].
  destruct (IH ops) as [Hf Hl]; [cbn; lia|]. destruct (close_groups ops) as [[g rs] status]. cbn [close_groups fst snd length] in *.
  split; [auto using Forall_cons_2, Forall_nil_2|lia].
Qed.

Lemma example_close_rpc_ok :
  transport_ok example_close_rpc ∧ applies_in_order example_close_rpc 2 (λ w, w).
Proof.
  assert (Hs : resop_decoded (RPlain OP_SEQUENCE 0)) by (by apply (bool_decide_unpack _)).
  split; [split|].
  - intros c w res w'. unfold example_close_rpc. destruct (Compound.ops c) as [|[] ops]; try (intros [= <- <-]; by split).
    destruct (Z.ltb_spec 6 (Z.of_nat (length ops))); [intros [= <- <-]; by split|].
    destruct (close_groups_decoded ops) as [Hf Hl]. destruct (close_groups ops) as [[g rs] status]. cbn in Hf, Hl.
    intros [= <- <-]. split; [cbn; unfold U32_MAX; lia|]. intros l [= <-]. cbn [cr_len].
    split; [cbn [length]; lia|by constructor].
  - intros c w e w'. unfold example_close_rpc. repeat case_match; done.
  - intros c w r w' sid q groups Hr Hops HG. unfold example_close_rpc in Hr. rewrite Hops in Hr.
    destruct (6 <? _); [injection Hr as <- <-; exists 0%nat; split; [by rewrite take_0, app_nil_r|by intros ? [= <-]]|].
    pose proof (close_groups_spec groups HG) as Hspec. destruct (close_groups (mjoin groups)) as [[g rs] status].
    injection Hr as <- <-. destruct Hspec as (k & -> & Hk & _). exists k. split; [done|].
    intros res [= <-] _. rewrite Hk. unfold completed_groups. cbn [CompoundRes.nops CompoundRes.status cr_len cr_status].
    do 2 f_equal. lia.
Qed.

Definition example_closes : list CloseOp :=
  [Close (bstr "a") zero_stateid; Close (bstr "b") zero_stateid; Close (bstr "c") zero_stateid;
   Close (bstr "d") zero_stateid; Close (bstr "bad") zero_stateid; Close (bstr "e") zero_stateid].

Lemma batch_exactly_once_witness :
  ∃ r cl' w',
    batch_ops example_close_rpc SendLemmas.example_xdr_len "closev" 2 (add_close User 1) (λ _ _, Some tt) 49
      LookupLemmas.example_lookup_client example_closes [] = Done (r, cl', w') ∧
    r = Err (RpcError.op 4 10025) ∧
    w' = [] ++ take 4 (item_groups (λ op i, [APutFh (cl_fh op); AClose 1 (cl_stateid op)]) 0 example_closes).
Proof.
  destruct example_close_rpc_ok as [Ht Ha].
  destruct (batch_exactly_once example_close_rpc SendLemmas.example_xdr_len "closev" 2 (add_close User 1)
    (λ _ _, Some tt) _ (λ w, w) example_closes LookupLemmas.example_lookup_client [] 49 Ht Ha)
    as (r & cl' & w' & E & H); [by intros ????? _ _ _; eexists|by vm_compute|by vm_compute|].
  exists r, cl', w'. split; [exact E|].
  assert (Hr : match batch_ops example_close_rpc SendLemmas.example_xdr_len "closev" 2 (add_close User 1)
      (λ _ _, Some tt) 49 LookupLemmas.example_lookup_client example_closes [] with
    Done (v, _, _) => v = Err (RpcError.op 4 10025) | _ => False end) by (vm_compute; reflexivity).
  rewrite E in Hr.
  rewrite Hr in H |- *. split; [reflexivity|]. apply H.
Defined.
End BatchOnceLemmas.
