(* ===== verification/Resolve.v ===== *)
(** * Path resolution

    Models [lookup], [lookup_getattr] and [resolve] of
    [crates/vfsi-nfs/src/client.rs].  [resolve] walks a path from the export
    root with chains of LOOKUPs, split at the learned operation limit and at the
    request size.  The theorem shows that it terminates for every server and
    returns what walking the components one by one returns. *)
From stdpp Require Import base numbers list list_numbers gmap strings.
From S2P Require Import Prelude Errors Planner Compound Session Cursor Client Loops Exchange Batch.

(** The components [lookup] and [lookup_getattr] add are those of the batched
    forms; an operation of one item is checked with [expect_all_ok]. *)
Module NfsOps.
Section Single.
Context {W : Type} (rpc : Compound.t → W → RpcResult COMPOUND4res * W) (xdr_len : Compound.t → Z).

(** [call_compound(&mut c)?; expect_all_ok(&res)?; extract]; [None] is a panic. *)
Definition exchange_one {R} (cl : NfsClient.t) (c : Compound.t) (extract : COMPOUND4res → option R) (w : W)
    : option (RpcResult R * NfsClient.t * W) :=
  let '(r, cl, w) := NfsClient.call_compound rpc xdr_len cl c w in
  match r with
  | Err e => Some (Err e, cl, w)
  | Ok res =>
      match Session.expect_all_ok res with
      | Err e => Some (Err e, cl, w)
      | Ok _ => v ← extract res; Some (Ok v, cl, w)
      end
  end.

Definition lookup (cl : NfsClient.t) (dir : nfs_fh4) (name : bytes) (w : W) :=
  exchange_one cl (add_lookup (Compound.tag Compound.new (bstr "lookup")) (dir, name))
    (λ res, CompoundRes.getfh res 3) w.

Definition lookup_getattr (cl : NfsClient.t) (dir : nfs_fh4) (name : bytes) (w : W) :=
  exchange_one cl (add_lookup_getattr (Compound.tag Compound.new (bstr "lookup_getattr")) (dir, name))
    (λ res, fh ← CompoundRes.getfh res 3; t ← CompoundRes.getattr res 4; Some (fh, be_u32 t)) w.
End Single.
End NfsOps.

Module Resolve.
Section Loop.
Context {W : Type} (rpc : Compound.t → W → RpcResult COMPOUND4res * W) (xdr_len : Compound.t → Z).

Record state := State {
  client : NfsClient.t;
  world : W;
  current : nfs_fh4;
  cursor : Z;
  max_components : Z;
}.

Definition answer : Type := RpcResult nfs_fh4 * NfsClient.t * W.

(** SEQUENCE, PUTFH and GETFH leave room for this many LOOKUPs. *)
Definition capacity (cl : NfsClient.t) : Z :=
  sat_sub (CompoundBudget.max_ops (NfsClient.op_budget_for cl (bstr "resolve") 4)) 3.

Definition build (current : nfs_fh4) (chunk : list bytes) : Compound.t :=
  Compound.getfh
    (foldl Compound.lookup (Compound.putfh (Compound.tag Compound.new (bstr "resolve")) current) chunk).

Definition round (components : list bytes) (st : state) : option (turn state answer) :=
  let 'State cl w current cursor max_components := st in
  if capacity cl =? 0 then
    Some (Return (Err (RpcError.transport
      "NFS compound operation budget cannot resolve one path component"), cl, w))
  else
    let take := Z.min (Z.min (capacity cl) max_components) (Z.of_nat (length components) - cursor) in
    let c := build current (slice (Z.to_nat cursor) (Z.to_nat (cursor + take)) components) in
    let '(fits, c) := NfsClient.compound_request_fits xdr_len cl c in
    if negb fits && (1 <? take) then Some (Again (State cl w current cursor (take / 2)))
    else
      let '(r, cl, w) := NfsClient.call_compound rpc xdr_len cl c w in
      match r with
      | Err e => Some (Return (Err e, cl, w))
      | Ok res =>
          if (1 <? take) && resource_status (CompoundRes.status res) && (capacity cl <? take)
          then Some (Again (State cl w current cursor USIZE_MAX))
          else
            match Session.expect_all_ok res with
            | Err e => Some (Return (Err e, cl, w))
            | Ok _ =>
                fh ← CompoundRes.getfh res (2 + take);
                Some (Again (State cl w fh (cursor + take) USIZE_MAX))
            end
      end.

Definition resolve (fuel : nat) (cl : NfsClient.t) (path : bytes) (w : W) : outcome answer :=
  let components := path_components path in
  if bool_decide (components = []) then Done (Ok (NfsClient.root cl), cl, w)
  else
    run (λ st, cursor st <? Z.of_nat (length components)) (round components)
      (λ st, (Ok (current st), client st, world st)) fuel (State cl w (NfsClient.root cl) 0 USIZE_MAX).
End Loop.
End Resolve.

(** ** Walking on the server *)

(** The directory a list of names leads to. *)
Fixpoint walk (s : dir_server) (d : nfs_fh4) (names : list bytes) : result Z nfs_fh4 :=
  match names with
  | [] => Ok d
  | name :: names => match ds_lookup s d name with Ok x => walk s x names | Err st => Err st end
  end.

(** The walk stops with [st] at some directory it reaches: the server does not
    accept its handle, or does not know the next name. *)
Definition walk_stops (s : dir_server) (d : nfs_fh4) (names : list bytes) (st : Z) : Prop :=
  ∃ (k : nat) (h : nfs_fh4), walk s d (take k names) = Ok h ∧
    (ds_putfh s h = st ∨ ∃ name, names !! k = Some name ∧ ds_lookup s h name = Err st).

Module ResolveLemmas.
Import Resolve ExchangeLemmas.

Lemma walk_app s d a b :
  walk s d (a ++ b) = match walk s d a with Ok x => walk s x b | Err st => Err st end.
Proof. revert d. induction a as [|n a IH]; intros d; cbn; [done|]. by destruct (ds_lookup s d n). Qed.

Lemma walk_stops_app s d a b x st : walk s d a = Ok x → walk_stops s x b st → walk_stops s d (a ++ b) st.
Proof.
  intros Ha (k & h & Hk & Hst). exists (length a + k)%nat, h.
  rewrite take_app_add, walk_app, Ha. split; [done|]. destruct Hst as [?|(n & Hn & ?)]; [by left|right].
  exists n. by rewrite lookup_app_r, Nat.add_sub' by lia.
Qed.

(** Walking a longer list of names stops where walking its prefix stops. *)
Lemma walk_stops_prefix s d a b st : walk_stops s d a st → walk_stops s d (a ++ b) st.
Proof.
  intros (k & h & Hk & Hst). destruct (decide (k <= length a)%nat) as [Hle|Hgt].
  - exists k, h. rewrite take_app_le by lia. split; [done|]. destruct Hst as [?|(n & Hn & ?)]; [by left|right].
    exists n. split; [by apply lookup_app_l_Some|done].
  - rewrite take_ge in Hk by lia. exists (length a), h. rewrite take_app_length. split; [done|].
    destruct Hst as [?|(n & Hn & ?)]; [by left|]. apply lookup_lt_Some in Hn. lia.
Qed.

(** A chain of LOOKUPs that succeeded returns the directory walked to. *)
Lemma chain_ok s d chunk rs :
  executes s (Some d) ((ALookup <$> chunk) ++ [AGetFh]) rs →
  Forall (λ r, response_op_status r = NFS_OK) rs → length rs = S (length chunk) →
  ∃ st v fh, rs !! length chunk = Some (RGetFh st v) ∧ CompoundRes.vec_bytes v = Some fh ∧ walk s d chunk = Ok fh.
Proof.
  revert d rs. induction chunk as [|n chunk IH]; intros d [|r rs] Hex Hok Hlen; try done;
    apply Forall_cons in Hok as [Hr Hok]; cbn [executes fmap list_fmap app] in Hex; rewrite Hr in Hex;
    cbn [Z.eqb NFS_OK] in Hex.
  - destruct Hex as [(st & v & -> & Hv) _]. by exists st, v, d.
  - destruct Hex as (d' & x & [= <-] & Hl & Hex). cbn in Hlen. destruct (IH x rs Hex Hok) as (st & v & fh & ? & ? & ?); [lia|].
    exists st, v, fh. cbn [walk]. by rewrite Hl.
Qed.

(** One that failed did so for want of resources, or because the walk stops. *)
Lemma chain_failed s d chunk pre r :
  executes s (Some d) ((ALookup <$> chunk) ++ [AGetFh]) (pre ++ [r]) →
  Forall (λ r, response_op_status r = NFS_OK) pre → response_op_status r ≠ NFS_OK →
  resource_status (response_op_status r) = true ∨ walk_stops s d chunk (response_op_status r).
Proof.
  intros Hex Hok Hne. apply Z.eqb_neq in Hne.
  revert d pre Hex Hok. induction chunk as [|n chunk IH]; intros d [|r0 pre] Hex Hok;
    cbn [executes fmap list_fmap app] in Hex; rewrite ?Hne in Hex.
  - destruct Hex as [?|[]]. by left.
  - apply Forall_cons in Hok as [Hr Hok]. rewrite Hr in Hex. cbn [Z.eqb NFS_OK] in Hex.
    destruct Hex as [_ Hex]. by destruct pre.
  - destruct Hex as [?|(d' & [= <-] & Hl)]; [by left|right]. exists 0%nat, d. split; [done|]. right. by exists n.
  - apply Forall_cons in Hok as [Hr Hok]. rewrite Hr in Hex. cbn [Z.eqb NFS_OK] in Hex.
    destruct Hex as (d' & x & [= <-] & Hl & Hex). destruct (IH x pre Hex Hok) as [?|Hw]; [by left|right].
    apply (walk_stops_app s d [n] chunk x); [cbn; by rewrite Hl|done].
Qed.

Section Chunk.
Context {W : Type} (rpc : Compound.t → W → RpcResult COMPOUND4res * W) (s : dir_server) (Hserves : serves s rpc).

(** The server refused the request as a whole. *)
Definition refused (res : COMPOUND4res) : Prop := CompoundRes.nops res = 0 ∨ CompoundRes.op_status res 0 ≠ NFS_OK.

Lemma chunk_resolved cur chunk w res w' :
  exchanged rpc (APutFh cur :: (ALookup <$> chunk) ++ [AGetFh]) w res w' →
  if CompoundRes.status res =? NFS_OK then
    ∃ fh, CompoundRes.getfh res (2 + Z.of_nat (length chunk)) = Some fh ∧ walk s cur chunk = Ok fh
  else
    resource_status (CompoundRes.status res) = true ∨ refused res ∨ walk_stops s cur chunk (CompoundRes.status res).
Proof.
  intros (req & sid & q & Hr & Hops & Hd & Hok). pose proof (Hserves _ _ _ _ Hr Hok) as Hex. rewrite Hops in Hex.
  pose proof (results_shape _ res Hd Hok) as Hsh. rewrite Hops in Hsh.
  destruct (Z.eqb_spec (CompoundRes.status res) NFS_OK) as [Hs|Hs].
  - destruct Hsh as (Hall & Hlen & Hn). cbn [length] in Hlen, Hn. rewrite length_app, length_fmap in Hlen, Hn. cbn in Hlen, Hn.
    destruct (results res) as [|r0 [|r1 rs]] eqn:E; [done|cbn in Hlen; lia|].
    apply Forall_cons in Hall as [H0 Hall]. apply Forall_cons in Hall as [H1 Hall].
    cbn [executes] in Hex. rewrite H0, H1 in Hex. cbn [Z.eqb NFS_OK] in Hex. destruct Hex as [_ Hex]. cbn in Hlen.
    destruct (chain_ok s cur chunk rs Hex Hall) as (st & v & fh & Hv & Hb & Hw); [lia|]. exists fh. split; [|done].
    unfold CompoundRes.getfh, CompoundRes.expect_op. rewrite results_op, E by lia.
    replace (Z.to_nat (2 + Z.of_nat (length chunk))) with (S (S (length chunk))) by lia.
    change ((r0 :: r1 :: rs) !! S (S (length chunk))) with (rs !! length chunk). rewrite Hv. cbn. pose proof (proj1 (Forall_lookup _ _) Hall _ _ Hv) as Hst. cbn in Hst. by rewrite Hst.
  - destruct Hsh as [Hz|(pre & r & E & Hpre & Hst & Hn)]; [by right; left; left|]. rewrite E in Hex. rewrite <-Hst in *.
    apply Z.eqb_neq in Hs as Hs'. destruct pre as [|r0 pre].
    { right. left. right. unfold CompoundRes.op_status. rewrite results_op, E by lia. done. }
    apply Forall_cons in Hpre as [H0 Hpre]. cbn [executes app] in Hex. rewrite H0 in Hex. cbn [Z.eqb NFS_OK] in Hex.
    destruct pre as [|r1 pre]; cbn [executes app] in Hex.
    { rewrite Hs' in Hex. destruct Hex as [?|Hp]; [by left|]. right. right. exists 0%nat, cur. split; [done|]. by left. }
    apply Forall_cons in Hpre as [H1 Hpre]. rewrite H1 in Hex. cbn [Z.eqb NFS_OK] in Hex. destruct Hex as [_ Hex].
    destruct (chain_failed s cur chunk pre r Hex Hpre Hs) as [?|?]; [by left|by right; right].
Qed.
End Chunk.

Lemma resolve_capacity cl : 0 <= NfsClient.max_ops cl →
  0 <= capacity cl ∧ (capacity cl ≠ 0 → capacity cl + 3 <= NfsClient.max_ops cl).
Proof.
  intros Hm. unfold capacity, NfsClient.op_budget_for, sat_sub. cbn [CompoundBudget.max_ops].
  set (L := AdaptiveCompoundLimits.limit _ _). lia.
Qed.

Lemma build_chain cur chunk :
  Compound.ops (build cur chunk) = APutFh cur :: (ALookup <$> chunk) ++ [AGetFh] ∧
  Compound.size_check (build cur chunk) = None.
Proof.
  split; [|done]. unfold build. cbn [Compound.getfh Compound.push Compound.ops].
  set (c0 := Compound.putfh _ _). change (APutFh cur :: (ALookup <$> chunk) ++ [AGetFh])
    with ((Compound.ops c0 ++ (ALookup <$> chunk)) ++ [AGetFh]). f_equal. generalize c0. clear.
  induction chunk as [|n chunk IH]; intros c0; cbn [foldl fmap list_fmap]; [by rewrite app_nil_r|].
  rewrite IH. cbn. by rewrite <-app_assoc.
Qed.

(** The compound of a chunk. *)
Definition chain (cur : nfs_fh4) (chunk : list bytes) : list argop := APutFh cur :: (ALookup <$> chunk) ++ [AGetFh].

Section Loop.
Context {W : Type} (rpc : Compound.t → W → RpcResult COMPOUND4res * W) (Hrpc : transport_ok rpc).
Context (xdr_len : Compound.t → Z) `{!XdrSizes xdr_len}.
Context (comps : list bytes) (cl0 : NfsClient.t) (Hmax : 0 <= NfsClient.max_ops cl0 < USIZE_MAX).
Let n : Z := Z.of_nat (length comps).
Let root : nfs_fh4 := NfsClient.root cl0.
(** What the server is known to keep, which handle a list of names leads to, and
    with which statuses a walk may stop. *)
Context (P : W → Prop) (reach : list bytes → nfs_fh4 → Prop) (stops : Z → Prop).
Context (Hstart : reach [] root).
Context (Hsent : ∀ cur chunk w r w', P w → sent rpc (chain cur chunk) w r w' → P w').
Context (Hchunk : ∀ done_ chunk rest cur w res w', comps = (done_ ++ chunk) ++ rest → reach done_ cur → P w →
  exchanged rpc (chain cur chunk) w res w' →
  if CompoundRes.status res =? NFS_OK then
    ∃ fh, CompoundRes.getfh res (2 + Z.of_nat (length chunk)) = Some fh ∧ reach (done_ ++ chunk) fh
  else stops (CompoundRes.status res)).

Record resolving (st : state (W := W)) : Prop := {
  rs_limits : same_limits cl0 (client st);
  rs_cursor : 0 <= cursor st <= n;
  rs_max : 1 <= max_components st;
  rs_walk : reach (take (Z.to_nat (cursor st)) comps) (current st);
  rs_kept : P (world st);
}.

Definition chunk_of (st : state (W := W)) : Z :=
  Z.min (Z.min (capacity (client st)) (max_components st)) (n - cursor st).
Definition resolve_measure (st : state (W := W)) : Z := (n - cursor st) * (n + 1) + chunk_of st.

(** Why a path is not resolved. *)
Definition not_resolved (e : RpcError.t) : Prop :=
  RpcError.is_transport e = true ∨
  RpcError.status e = NFS4ERR_REQ_TOO_BIG ∧
    (∃ d name, name ∈ comps ∧ SendLemmas.request_fits xdr_len cl0 (build d [name]) = false) ∨
  stops (RpcError.status e).

Definition resolve_allowed (a : answer (W := W)) : Prop :=
  same_limits cl0 a.1.2 ∧ P a.2 ∧ match a.1.1 with Ok fh => reach comps fh | Err e => not_resolved e end.

Lemma resolve_chunk_range st : resolving st → 0 <= chunk_of st <= n.
Proof.
  intros Hi. pose proof (rs_cursor _ Hi). pose proof (rs_max _ Hi). destruct (rs_limits _ Hi) as [Hm _].
  destruct (resolve_capacity (client st)) as [? _]; [lia|]. unfold chunk_of. lia.
Qed.

Lemma resolve_progress st st' : resolving st → resolving st' → cursor st < cursor st' →
  resolve_measure st' < resolve_measure st.
Proof.
  intros Hi Hi' Hlt. pose proof (resolve_chunk_range _ Hi). pose proof (resolve_chunk_range _ Hi').
  unfold resolve_measure. nia.
Qed.

(** The components of a chunk, between the part walked and the rest. *)
Lemma chunk_split st len : resolving st → 0 <= len <= n - cursor st →
  let chunk := slice (Z.to_nat (cursor st)) (Z.to_nat (cursor st + len)) comps in
  Z.of_nat (length chunk) = len ∧ take (Z.to_nat (cursor st + len)) comps = take (Z.to_nat (cursor st)) comps ++ chunk ∧
  comps = (take (Z.to_nat (cursor st)) comps ++ chunk) ++ drop (Z.to_nat (cursor st + len)) comps.
Proof.
  intros Hi Hlen chunk. pose proof (rs_cursor _ Hi). unfold chunk.
  assert (Htk : take (Z.to_nat (cursor st + len)) comps = take (Z.to_nat (cursor st)) comps ++
    slice (Z.to_nat (cursor st)) (Z.to_nat (cursor st + len)) comps).
  { replace (Z.to_nat (cursor st + len)) with (Z.to_nat (cursor st) + Z.to_nat len)%nat by lia.
    rewrite <-(take_ge (slice _ _ comps) (Z.to_nat len)), take_app_slice, Nat.min_id; [done|].
    unfold slice. lengths. }
  split_and!; [unfold slice; rewrite length_drop, length_take; unfold n in *; lia|done|].
  rewrite <-Htk. by rewrite take_drop.
Qed.

Lemma resolve_reply st len res cl' w' :
  resolving st → 1 <= len <= n - cursor st → chunk_of st = len → same_limits cl0 cl' →
  exchanged rpc (chain (current st) (slice (Z.to_nat (cursor st)) (Z.to_nat (cursor st + len)) comps)) (world st) res w' →
  turn_keeps resolving resolve_measure resolve_allowed st
    (if (1 <? len) && resource_status (CompoundRes.status res) && (capacity cl' <? len)
     then Some (Again (State cl' w' (current st) (cursor st) USIZE_MAX))
     else match Session.expect_all_ok res with
          | Err e => Some (Return (Err e, cl', w'))
          | Ok _ => fh ← CompoundRes.getfh res (2 + len);
                    Some (Again (State cl' w' fh (cursor st + len) USIZE_MAX))
          end).
Proof.
  intros Hi Hlen Hch Hs Hex. pose proof (rs_cursor _ Hi). destruct (chunk_split st len Hi ltac:(lia)) as (Hl & Htk & Hall).
  pose proof (Hchunk _ _ _ _ _ _ _ Hall (rs_walk _ Hi) (rs_kept _ Hi) Hex) as Hres.
  pose proof Hex as (req & sid & q & Hr & Hops & Hd & Hok).
  assert (HP : P w') by (eapply Hsent; [apply Hi|]; by exists req, sid, q).
  destruct (_ && _ && _) eqn:Hretry.
  { apply andb_true_iff in Hretry as [_ Hcap].
    assert (Hi' : resolving (State cl' w' (current st) (cursor st) USIZE_MAX)) by (destruct Hi; by split).
    split; [done|]. unfold resolve_measure. cbn [cursor]. rewrite Hch. unfold chunk_of. cbn [client cursor max_components]. lia. }
  rewrite (expect_all_ok_spec _ res Hd Hok). rewrite Hl in Hres.
  destruct (Z.eqb_spec (CompoundRes.status res) NFS_OK) as [_|Hne].
  - destruct Hres as (fh & -> & Hw). cbn [mbind option_bind turn_keeps].
    assert (Hi' : resolving (State cl' w' fh (cursor st + len) USIZE_MAX)).
    { split; cbn; [done|lia|done|by rewrite Htk|done]. }
    split; [done|]. apply resolve_progress; [done|done|cbn; lia].
  - split; [done|]. split; [done|]. by do 2 right.
Qed.

Lemma resolve_round st : resolving st → (cursor st <? n) = true →
  turn_keeps resolving resolve_measure resolve_allowed st (round rpc xdr_len comps st).
Proof.
  intros Hi Hlt. pose proof (rs_cursor _ Hi). pose proof (rs_max _ Hi). pose proof (rs_limits _ Hi) as Hs0.
  pose proof (rs_kept _ Hi) as HP. pose proof Hs0 as [Hm _]. destruct st as [cl w cur g mx].
  cbn [client cursor max_components world] in *. unfold round.
  set (st := State cl w cur g mx) in *. destruct (resolve_capacity cl) as [Hc0 Hc1]; [lia|].
  destruct (Z.eqb_spec (capacity cl) 0) as [|Hcap]; [split; [done|]; split; [done|]; by left|]. fold n. set (len := Z.min _ (n - g)).
  assert (Hch : chunk_of st = len) by done. assert (Hlen : 1 <= len <= n - g) by (unfold len; lia).
  set (chunk := slice _ _ comps). destruct (chunk_split st len Hi ltac:(cbn; lia)) as (Hl & _ & Hall).
  cbn [st cursor] in Hl, Hall. fold chunk in Hl, Hall.
  destruct (build_chain cur chunk) as [Hops Hcache]. set (c := build cur chunk) in *.
  assert (Hc : PreflightLemmas.cache_ok xdr_len c) by (intros l r Hsz; by rewrite Hcache in Hsz).
  destruct (SendLemmas.compound_request_fits_spec xdr_len cl c Hc) as (c' & -> & Hc' & Hops' & _ & _ & Hfits').
  destruct (negb _ && _) eqn:Hrepack.
  { apply andb_true_iff in Hrepack as [_ Hk].
    assert (1 <= len / 2) by (apply Z.div_le_lower_bound; lia). assert (len / 2 < len) by (apply Z.div_lt; lia).
    split; [destruct Hi; by split|]. unfold resolve_measure. cbn [st cursor]. fold st. rewrite Hch.
    unfold chunk_of. cbn [client cursor max_components]. lia. }
  destruct (NfsClient.call_compound _ _ _ _ _) as [[r cl'] w'] eqn:Hcall.
  destruct (send_outcomes rpc Hrpc xdr_len cl c' w _ _ _ Hc' Hcall) as [Hs Hout]. rewrite Hops', Hops in Hout.
  assert (same_limits cl0 cl') by (by etrans). destruct r as [res|e]; [by apply (resolve_reply st len res cl' w')|].
  assert (P w') by (destruct Hout as [[-> _]|[_ [r0 Hr]]]; [done|by eapply Hsent]).
  split; [done|]. split; [done|].
  assert (Hcount : Compound.op_count c' = len + 2).
  { unfold Compound.op_count. rewrite Hops', Hops. cbn [length]. rewrite length_app, length_fmap. cbn. lia. }
  destruct (call_compound_err rpc Hrpc xdr_len cl c' w e cl' w' Hc' ltac:(lia) Hcall) as (_ & _ & [?|[Hno ->]]); [by left|].
  right. left. split; [done|]. rewrite Hfits' in Hno. rewrite Hno in Hrepack. cbn in Hrepack.
  destruct chunk as [|name [|? ?]] eqn:E; [cbn in Hl; lia| |cbn in Hl; lia]. exists cur, name.
  split; [rewrite Hall; set_solver|by rewrite <-(TolerantLemmas.request_fits_same xdr_len cl0 cl)].
Qed.

Lemma resolve_ok path w fuel : path_components path = comps → P w → (n + 1) * (n + 1) <= Z.of_nat fuel →
  ∃ r cl' w', resolve rpc xdr_len fuel cl0 path w = Done (r, cl', w') ∧ resolve_allowed (r, cl', w').
Proof.
  intros Hpath HP Hfuel. unfold resolve. rewrite Hpath. case_bool_decide as Hnil.
  { eexists _, _, _. split; [done|]. split; [auto with vnfs|]. split; [done|]. cbn. by rewrite Hnil. }
  assert (Hn : 1 <= n) by (unfold n; destruct comps; [done|cbn; lia]).
  set (st := State cl0 w root 0 USIZE_MAX).
  assert (Hi : resolving st) by (split; cbn; [auto with vnfs|lia|done|done|done]).
  destruct (run_ok (λ st, cursor st <? n) (round rpc xdr_len comps) (λ st, (Ok (current st), client st, world st))
    resolving resolve_measure resolve_allowed) with (fuel := fuel) (st := st)
    as ([[r cl'] w'] & Hrun & Hall); [| | |done| |by exists r, cl', w'].
  - intros st' Hi'. pose proof (resolve_chunk_range st' Hi'). pose proof (rs_cursor _ Hi'). unfold resolve_measure. nia.
  - intros st' Hi' Hlt. by apply resolve_round.
  - intros st' Hi' Hge. pose proof (rs_cursor _ Hi'). split; [apply Hi'|]. split; [apply Hi'|]. cbn [fst].
    pose proof (rs_walk _ Hi') as Hw. by rewrite take_ge in Hw by (unfold n in *; lia).
  - pose proof (resolve_chunk_range st Hi) as Hc. unfold resolve_measure. change (cursor st) with 0. nia.
Qed.
End Loop.

(** Why a path is not resolved by a server of directories. *)
Definition resolve_fails {W} (rpc : Compound.t → W → RpcResult COMPOUND4res * W) (xdr_len : Compound.t → Z) (s : dir_server)
    (comps : list bytes) (cl0 : NfsClient.t) (e : RpcError.t) : Prop :=
  RpcError.is_transport e = true ∨
  RpcError.status e = NFS4ERR_REQ_TOO_BIG ∧
    (∃ d name, name ∈ comps ∧ SendLemmas.request_fits xdr_len cl0 (build d [name]) = false) ∨
  resource_status (RpcError.status e) = true ∨
  (∃ req w res w', rpc req w = (Ok res, w') ∧ refused res ∧ RpcError.status e = CompoundRes.status res) ∨
  walk_stops s (NfsClient.root cl0) comps (RpcError.status e).

(** C25: Path resolution is a walk, and always finishes.  For every path and
    every transport whose replies are truthful, however it rejects sizes or
    fails, [resolve] terminates; a handle it returns is the one that walking the
    components from the export root leads to, and a server error it returns is
    the one at which that walk stops.  The other errors are a failed transport,
    a component that does not fit a request, a server short of resources and a
    request refused as a whole. *)
Theorem resolve_correct {W} (rpc : Compound.t → W → RpcResult COMPOUND4res * W) (xdr_len : Compound.t → Z)
    `{!XdrSizes xdr_len} (s : dir_server) (cl : NfsClient.t) (path : bytes) (w : W) (fuel : nat) :
  transport_ok rpc → serves s rpc → 0 <= NfsClient.max_ops cl < USIZE_MAX →
  let comps := path_components path in
  let n := Z.of_nat (length comps) in
  (n + 1) * (n + 1) <= Z.of_nat fuel →
  ∃ r cl' w', resolve rpc xdr_len fuel cl path w = Done (r, cl', w') ∧
    match r with
    | Ok fh => walk s (NfsClient.root cl) comps = Ok fh
    | Err e => resolve_fails rpc xdr_len s comps cl e
    end.
Proof.
  intros Hrpc Hserves Hmax comps n Hfuel.
  destruct (resolve_ok rpc Hrpc xdr_len comps cl Hmax (λ _, True) (λ names fh, walk s (NfsClient.root cl) names = Ok fh)
    (λ st, resource_status st = true ∨ (∃ req w res w', rpc req w = (Ok res, w') ∧ refused res ∧ st = CompoundRes.status res) ∨
       walk_stops s (NfsClient.root cl) comps st)) with (path := path) (w := w) (fuel := fuel)
    as (r & cl' & w' & E & _ & _ & Hr); [done|done| |done|done|done|by exists r, cl', w'].
  intros done_ chunk rest cur w1 res w2 Hc Hcur _ Hex. pose proof (chunk_resolved rpc s Hserves _ _ _ _ _ Hex) as Hres.
  pose proof Hex as (req & sid & q & Hr & _). destruct (_ =? NFS_OK).
  - destruct Hres as (fh & Hfh & Hw). exists fh. split; [done|]. by rewrite walk_app, Hcur.
  - destruct Hres as [?|[?|Hw]]; [by left|right; left; by exists req, w1, res, w2|]. right. right.
    rewrite Hc. apply walk_stops_prefix. by apply (walk_stops_app _ _ _ _ cur).
Qed.

(** Against a server that refuses compounds of more than eight operations. *)
Lemma resolve_correct_witness :
  ∃ cl' w', resolve LookupLemmas.example_lookup_rpc SendLemmas.example_xdr_len 64 LookupLemmas.example_lookup_client
      (bstr "/a/b//c/d/e/f/g") 0 = Done (Ok (bstr "/a/b/c/d/e/f/g"), cl', w').
Proof.
  destruct LookupLemmas.example_lookup_rpc_ok as [Ht Hs].
  destruct (resolve_correct LookupLemmas.example_lookup_rpc SendLemmas.example_xdr_len LookupLemmas.example_dirs
    LookupLemmas.example_lookup_client (bstr "/a/b//c/d/e/f/g") 0 64 Ht Hs) as (r & cl' & w' & E & _).
  - by vm_compute.
  - by vm_compute.
  - assert (Hr : match resolve LookupLemmas.example_lookup_rpc SendLemmas.example_xdr_len 64
        LookupLemmas.example_lookup_client (bstr "/a/b//c/d/e/f/g") 0 with
      Done (v, _, _) => v = Ok (bstr "/a/b/c/d/e/f/g") | _ => False end) by (vm_compute; reflexivity).
    exists cl', w'. rewrite E in Hr. by rewrite E, Hr.
Defined.
End ResolveLemmas.
