(* ===== verification/Single.v ===== *)
(** * Operations on one object

    Models the operations of [crates/vfsi-nfs/src/client.rs] that send one
    compound for one object: [read], [write], [create], [mkdir], [symlink],
    [readlink], [getattr], the three forms of [setattr], [remove], [rename],
    [link] and [close].  The theorem shows that each refines one step of the abstract file
    service: a success is that step, a failure leaves the file system as it was,
    and what an operation reports is what the server answered. *)
From stdpp Require Import base numbers list list_numbers gmap strings.
From S2P Require Import Prelude Errors Planner Types Compound Session Client IoProgress Loops Exchange Server Batch BatchOps Resolve.

Module Single.
Section Operations.
Context {W : Type} (rpc : Compound.t → W → RpcResult COMPOUND4res * W) (xdr_len : Compound.t → Z).

Definition validate_read_length (actual requested : Z) : RpcResult unit :=
  if requested <? actual then
    Err (RpcError.transport_with_kind InvalidReply "NFS READ reply exceeded requested count")
  else Ok tt.

(** [Compound::new(); c.tag(..); c.putfh(..)]. *)
Definition on (tag : string) (fh : nfs_fh4) : Compound.t := Compound.putfh (Compound.tag Compound.new (bstr tag)) fh.
(** [expect_all_ok(&res)?; Ok(())]. *)
Definition no_result (_ : COMPOUND4res) : option unit := Some tt.

(** The data and the end-of-file flag of the READ at index [i]. *)
Definition read_result (res : COMPOUND4res) (i : Z) : option (bytes * bool) :=
  data ← CompoundRes.read_data res i; eof ← CompoundRes.read_eof res i; Some (data, eof).

Definition read (cl : NfsClient.t) (fh : nfs_fh4) (stateid : stateid4) (offset count : Z) (w : W)
    : option (RpcResult (bytes * bool) * NfsClient.t * W) :=
  let count := Z.min count (as_u32 (NfsClient.read_per_op_bytes cl)) in
  let c := Compound.read (on "read" fh) stateid offset count in
  '(r, cl, w) ← NfsOps.exchange_one rpc xdr_len cl c
    (λ res, read_result res 2) w;
  Some (match r with
        | Ok (data, eof) =>
            match validate_read_length (Z.of_nat (length data)) count with
            | Ok _ => Ok (data, eof)
            | Err e => Err e
            end
        | Err e => Err e
        end, cl, w).

Definition write (cl : NfsClient.t) (fh : nfs_fh4) (stateid : stateid4) (offset : Z) (data : bytes) (w : W) :=
  NfsOps.exchange_one rpc xdr_len cl (Compound.write (on "write" fh) stateid offset FILE_SYNC4 data)
    (λ res, CompoundRes.write res 2) w.

Definition create (cl : NfsClient.t) (dir : nfs_fh4) (name : bytes) (ftype : Z) (linkdata : option bytes) (w : W) :=
  NfsOps.exchange_one rpc xdr_len cl (Compound.getfh (Compound.create (on "create" dir) name ftype linkdata))
    (λ res, CompoundRes.getfh res 3) w.
Definition mkdir (cl : NfsClient.t) (dir : nfs_fh4) (name : bytes) (w : W) := create cl dir name NF4DIR None w.
Definition symlink (cl : NfsClient.t) (dir : nfs_fh4) (name target : bytes) (w : W) :=
  create cl dir name NF4LNK (Some target) w.

Definition readlink (cl : NfsClient.t) (fh : nfs_fh4) (w : W) :=
  NfsOps.exchange_one rpc xdr_len cl (Compound.readlink (on "readlink" fh)) (λ res, CompoundRes.readlink res 2) w.
Definition getattr (cl : NfsClient.t) (fh : nfs_fh4) (attrs : list Z) (w : W) :=
  NfsOps.exchange_one rpc xdr_len cl (Compound.getattr (on "getattr" fh) attrs) (λ res, CompoundRes.getattr res 2) w.

Definition setattr (cl : NfsClient.t) (fh : nfs_fh4) (mode size : option Z) (w : W) :=
  NfsOps.exchange_one rpc xdr_len cl (Compound.setattr (on "setattr" fh) mode size) no_result w.
Definition setattr_values (cl : NfsClient.t) (fh : nfs_fh4) (mode size : option Z) (atime mtime : option (Z * Z)) (w : W) :=
  NfsOps.exchange_one rpc xdr_len cl
    (Compound.setattr_values (on "setattr-values" fh) mode size atime mtime zero_stateid) no_result w.
Definition setattr_ownership (cl : NfsClient.t) (fh : nfs_fh4) (mode size : option Z)
    (ownership : option Z * option Z) (atime mtime : option (Z * Z)) (w : W) :=
  NfsOps.exchange_one rpc xdr_len cl
    (Compound.setattr_ownership (on "setattr-ownership" fh) mode size ownership atime mtime zero_stateid) no_result w.

Definition remove (cl : NfsClient.t) (dir : nfs_fh4) (name : bytes) (w : W) :=
  NfsOps.exchange_one rpc xdr_len cl (Compound.remove (on "remove" dir) name) no_result w.
Definition rename (cl : NfsClient.t) (srcdir : nfs_fh4) (oldname : bytes) (dstdir : nfs_fh4) (newname : bytes) (w : W) :=
  NfsOps.exchange_one rpc xdr_len cl
    (Compound.rename (Compound.putfh (Compound.savefh (on "rename" srcdir)) dstdir) oldname newname) no_result w.
Definition link (cl : NfsClient.t) (dir src : nfs_fh4) (newname : bytes) (w : W) :=
  NfsOps.exchange_one rpc xdr_len cl
    (Compound.link (Compound.putfh (Compound.savefh (on "link" src)) dir) newname) no_result w.

Definition path_owner (cl : NfsClient.t) : OpenOwner := Session.path_owner (NfsClient.session cl).

Definition close_slot (cl : NfsClient.t) (fh : nfs_fh4) (stateid : stateid4) (slot : OwnerSlot) (w : W)
    : option (RpcResult unit * NfsClient.t * W) :=
  let seqid := match slot with User => 1 | PathSlot => ow_seqid (path_owner cl) end in
  '(r, cl, w) ← NfsOps.exchange_one rpc xdr_len cl (Compound.close (on "close" fh) seqid stateid) no_result w;
  Some (r,
        match r, slot with
        | Ok _, PathSlot => set_path_seqid cl (wrapping_add32 (ow_seqid (path_owner cl)) 1)
        | _, _ => cl
        end, w).

Definition close (cl : NfsClient.t) (fh : nfs_fh4) (stateid : stateid4) (w : W) := close_slot cl fh stateid User w.
(** [close_cleanup_slot] without fault injection. *)
Definition close_cleanup_slot (cl : NfsClient.t) (fh : nfs_fh4) (stateid : stateid4) (slot : OwnerSlot) (w : W) :=
  close_slot cl fh stateid slot w.
Definition close_path (cl : NfsClient.t) (fh : nfs_fh4) (stateid : stateid4) (w : W) :=
  close_cleanup_slot cl fh stateid PathSlot w.
Definition close_unregistered (cl : NfsClient.t) (fh : nfs_fh4) (stateid : stateid4) (w : W) :=
  close_cleanup_slot cl fh stateid User w.
End Operations.
End Single.

(** ** What each operation means *)

(** The operations, by the type of their result. *)
Inductive single : Type → Type :=
| SRead (fh : nfs_fh4) (stateid : stateid4) (offset count : Z) : single (bytes * bool)
| SWrite (fh : nfs_fh4) (stateid : stateid4) (offset : Z) (data : bytes) : single (Z * Z)
| SCreate (dir : nfs_fh4) (name : bytes) (ftype : Z) (linkdata : option bytes) : single nfs_fh4
| SReadlink (fh : nfs_fh4) : single bytes
| SGetattr (fh : nfs_fh4) (attrs : list Z) : single bytes
| SSetattr (fh : nfs_fh4) (mode size : option Z) : single unit
| SSetattrValues (fh : nfs_fh4) (mode size : option Z) (atime mtime : option (Z * Z)) : single unit
| SSetattrOwnership (fh : nfs_fh4) (mode size : option Z) (ownership : option Z * option Z)
    (atime mtime : option (Z * Z)) : single unit
| SRemove (dir : nfs_fh4) (name : bytes) : single unit
| SRename (srcdir : nfs_fh4) (oldname : bytes) (dstdir : nfs_fh4) (newname : bytes) : single unit
| SLink (dir src : nfs_fh4) (newname : bytes) : single unit
| SClose (fh : nfs_fh4) (stateid : stateid4) : single unit.

Definition perform {W R} (rpc : Compound.t → W → RpcResult COMPOUND4res * W) (xdr_len : Compound.t → Z)
    (cl : NfsClient.t) (op : single R) (w : W) : option (RpcResult R * NfsClient.t * W) :=
  match op in single R return option (RpcResult R * NfsClient.t * W) with
  | SRead fh st off n => Single.read rpc xdr_len cl fh st off n w
  | SWrite fh st off data => Single.write rpc xdr_len cl fh st off data w
  | SCreate dir name t target => Single.create rpc xdr_len cl dir name t target w
  | SReadlink fh => Single.readlink rpc xdr_len cl fh w
  | SGetattr fh attrs => Single.getattr rpc xdr_len cl fh attrs w
  | SSetattr fh mode size => Single.setattr rpc xdr_len cl fh mode size w
  | SSetattrValues fh mode size a m => Single.setattr_values rpc xdr_len cl fh mode size a m w
  | SSetattrOwnership fh mode size own a m => Single.setattr_ownership rpc xdr_len cl fh mode size own a m w
  | SRemove dir name => Single.remove rpc xdr_len cl dir name w
  | SRename sd o dd n => Single.rename rpc xdr_len cl sd o dd n w
  | SLink dir src n => Single.link rpc xdr_len cl dir src n w
  | SClose fh st => Single.close rpc xdr_len cl fh st w
  end.

Section Meaning.
Context {F : Type} (s : nfs_spec F) (f : F).

(** An operation at a filehandle the server accepts. *)
Definition at_fh {A} (fh : nfs_fh4) (k : result Z A) : result Z A :=
  match sp_putfh s f fh with Ok _ => k | Err st => Err st end.
Definition unchanged {A} (r : result Z A) : result Z (F * A) :=
  match r with Ok v => Ok (f, v) | Err st => Err st end.
Definition changed (r : result Z F) : result Z (F * unit) :=
  match r with Ok f => Ok (f, tt) | Err st => Err st end.
Definition object_type (ftype : Z) (linkdata : option bytes) : createtype4 :=
  match linkdata with
  | Some target => CreateLink target
  | None => if (ftype =? NF4BLK) || (ftype =? NF4CHR) then CreateDev ftype else CreateOther ftype
  end.

(** The one step of the file service an operation stands for; a READ asks for
    no more than [most] bytes. *)
Definition meaning {R} (most : Z) (op : single R) : result Z (F * R) :=
  match op in single R return result Z (F * R) with
  | SRead fh st off n => at_fh fh (unchanged (sp_read s f fh st off (Z.min n most)))
  | SWrite fh st off data => at_fh fh (sp_write s f fh st off FILE_SYNC4 data)
  | SCreate dir name t target => at_fh dir (sp_create s f dir name (object_type t target))
  | SReadlink fh => at_fh fh (unchanged (sp_readlink s f fh))
  | SGetattr fh attrs =>
      at_fh fh (unchanged (match sp_getattr s f fh (Compound.bitmap attrs) with Ok v => Ok v.2 | Err st => Err st end))
  | SSetattr fh mode size =>
      at_fh fh (changed (sp_setattr s f fh zero_stateid (Compound.setattr_fattr mode size None None None None)))
  | SSetattrValues fh mode size a m =>
      at_fh fh (changed (sp_setattr s f fh zero_stateid (Compound.setattr_fattr mode size None None a m)))
  | SSetattrOwnership fh mode size own a m =>
      at_fh fh (changed (sp_setattr s f fh zero_stateid (Compound.setattr_fattr mode size own.1 own.2 a m)))
  | SRemove dir name => at_fh dir (changed (sp_remove s f dir name))
  | SRename sd o dd n => at_fh sd (at_fh dd (changed (sp_rename s f sd o dd n)))
  | SLink dir src n => at_fh src (at_fh dir (changed (sp_link s f src dir n)))
  | SClose fh st => at_fh fh (changed (sp_close s f fh 1 st))
  end.
End Meaning.

Module SingleLemmas.
Import ExchangeLemmas ServerLemmas.

(** A reply that carries the results of the machine, all successful. *)
Definition complete (res : COMPOUND4res) (rs : list resop) : Prop :=
  ∀ i r, rs !! i = Some r →
    ∃ ro, CompoundRes.op res (1 + Z.of_nat i) = Some ro ∧ shows ro r ∧ response_op_status ro = NFS_OK.

Lemma complete_at res rs i r want : complete res rs → rs !! i = Some r → resop_num r = want →
  ∃ ro, CompoundRes.expect_op res (1 + Z.of_nat i) want = Some ro ∧ shows ro r.
Proof.
  intros Hc Hi <-. destruct (Hc i r Hi) as (ro & Hop & Hsh & Hst). exists ro. split; [|done].
  unfold CompoundRes.expect_op. rewrite Hop. cbn. rewrite Hst, Z.eqb_refl, andb_true_r.
  assert (resop_num ro = resop_num r) as ->; [|by rewrite Z.eqb_refl]. by destruct ro, r; simplify_eq/=.
Qed.

(** What the accessors return for a result of the machine. *)
Lemma complete_accessors res rs i r : complete res rs → rs !! i = Some r →
  let j := 1 + Z.of_nat i in
  match r with
  | RGetFh _ v => CompoundRes.getfh res j = CompoundRes.vec_bytes v
  | RRead _ e v => CompoundRes.read_data res j = CompoundRes.vec_bytes v ∧ CompoundRes.read_eof res j = Some e
  | RReadlink _ v => CompoundRes.readlink res j = CompoundRes.vec_bytes v
  | RGetattr _ a v => CompoundRes.getattr res j = CompoundRes.vec_bytes v
  | ROpen _ st a => CompoundRes.open res j = Some st ∧ CompoundRes.open_attrset res j = Some a
  | RWrite _ n c => CompoundRes.write res j = Some (n, c)
  | RCopy _ n => CompoundRes.copy res j = Some n
  | _ => True
  end.
Proof.
  intros Hc Hi j. destruct (complete_at res rs i r _ Hc Hi eq_refl) as (ro & Hro & Hsh). fold j in Hro.
  unfold CompoundRes.getfh, CompoundRes.read_data, CompoundRes.read_eof, CompoundRes.readlink, CompoundRes.getattr,
    CompoundRes.open, CompoundRes.open_attrset, CompoundRes.write, CompoundRes.copy.
  destruct r; cbn [resop_num] in Hro; try done; rewrite Hro; destruct ro; naive_solver.
Qed.

Section Exchange.
Context {F W : Type} (s : nfs_spec F) (rpc : Compound.t → W → RpcResult COMPOUND4res * W) (fs : W → F).
Context (Hrpc : transport_ok rpc) (Himp : implements s rpc fs).
Context (xdr_len : Compound.t → Z) `{!XdrSizes xdr_len}.

(** What an accepted reply shows: the run of the machine up to the operation
    that failed, or all of it. *)
Lemma exchanged_runs ops w res w' : exchanged rpc ops w res w' → Forall file_op ops →
  ∃ m rs, spec_steps s (start (fs w)) (take (ops_done res) ops) = Some (m, rs) ∧ fs w' = mc_fs m ∧ complete res rs ∧
    if CompoundRes.status res =? NFS_OK then ops_done res = length ops
    else CompoundRes.nops res <= 1 ∧ ops_done res = 0%nat ∨
      ∃ op, ops !! ops_done res = Some op ∧ CompoundRes.nops res = 2 + Z.of_nat (ops_done res) ∧
        (spec_step s m op = Err (CompoundRes.status res) ∨ resource_status (CompoundRes.status res) = true).
Proof.
  intros (req & sid & q & Hr & Hops & Hd & Hok) Hf.
  destruct (Himp _ _ _ _ _ _ _ Hr Hops Hf) as (k & m & rs & Hk & Hfs & Hres).
  destruct (Hres res eq_refl Hok) as (-> & Hsh & Hfail). exists m, rs. split; [done|]. split; [done|].
  pose proof Hok as (Hle & Hnn & Hfull & _). rewrite Hops in Hle, Hfull. cbn [length] in Hle, Hfull.
  assert (Hdone : ops_done res = Z.to_nat (cr_len res - 1 - (if CompoundRes.status res =? NFS_OK then 0 else 1))) by done.
  split.
  - intros i r Hi. destruct (Forall2_lookup_r _ _ _ _ _ Hsh Hi) as (ro & Hro & Hs).
    apply lookup_take_Some in Hro as [Hro Hlt]. rewrite lookup_drop in Hro. rewrite Hdone in Hlt. exists ro.
    assert (Hrange : 0 <= 1 + Z.of_nat i < cr_len res) by (destruct (CompoundRes.status res =? NFS_OK); lia).
    assert (Hop : CompoundRes.op res (1 + Z.of_nat i) = Some ro).
    { rewrite results_op by done.
      by replace (Z.to_nat (1 + Z.of_nat i)) with (1 + i)%nat by lia. }
    split; [done|]. split; [done|].
    pose proof (validated_status _ res (1 + Z.of_nat i) Hd Hok) as Hst. unfold CompoundRes.op_status in Hst.
    rewrite Hop in Hst. cbn [from_option] in Hst. unfold CompoundRes.nops in Hst. rewrite Hst by done.
    destruct (Z.eqb_spec (CompoundRes.status res) NFS_OK) as [E|E]; [rewrite E; by case_match|].
    by replace (1 + Z.of_nat i + 1 =? cr_len res) with false by lia.
  - unfold CompoundRes.nops in *. destruct (Z.eqb_spec (CompoundRes.status res) NFS_OK) as [Hst|Hst].
    + specialize (Hfull Hst). lia.
    + destruct (decide (cr_len res <= 1)) as [Hsmall|Hbig]; [left; split; [done|lia]|right].
      assert (is_Some (ops !! ops_done res)) as [op Hop] by (apply lookup_lt_is_Some; lia).
      exists op. split; [done|]. split; [lia|]. apply Hfail; [lia|done|done].
Qed.

(** The outcome of one exchange: the run of the machine it stands for. *)
Lemma exchange_one_runs {R} cl c (extract : COMPOUND4res → option R) (P : F → R → Prop) w :
  Compound.size_check c = None → Forall file_op (Compound.ops c) →
  (∀ m rs res, spec_steps s (start (fs w)) (Compound.ops c) = Some (m, rs) → complete res rs →
     ∃ v, extract res = Some v ∧ P (mc_fs m) v) →
  ∃ r cl' w', NfsOps.exchange_one rpc xdr_len cl c extract w = Some (r, cl', w') ∧ same_limits cl cl' ∧
    match r with
    | Ok v => P (fs w') v
    | Err e => ∃ k m rs, spec_steps s (start (fs w)) (take k (Compound.ops c)) = Some (m, rs) ∧ fs w' = mc_fs m ∧
        (RpcError.is_transport e = true ∨
         RpcError.op_index e = 0 ∧ k = 0%nat ∧
           (RpcError.status e = NFS4ERR_TOO_MANY_OPS ∨ RpcError.status e = NFS4ERR_REQ_TOO_BIG ∨
            ∃ res w1, exchanged rpc (Compound.ops c) w res w1 ∧ CompoundRes.nops res <= 1 ∧
              RpcError.status e = CompoundRes.status res) ∨
         ∃ op, Compound.ops c !! k = Some op ∧ RpcError.op_index e = 1 + Z.of_nat k ∧
           (spec_step s m op = Err (RpcError.status e) ∨ resource_status (RpcError.status e) = true))
    end.
Proof.
  intros Hc Hf Hext. unfold NfsOps.exchange_one.
  destruct (NfsClient.call_compound rpc xdr_len cl c w) as [[r cl'] w'] eqn:Hcall.
  destruct (send_outcomes rpc Hrpc xdr_len cl c w r cl' w') as [Hs Hout]; [by intros l r' Hsz; rewrite Hc in Hsz|done|].
  destruct r as [res|e].
  - pose proof Hout as (req & sid & q & _ & _ & Hd & Hok). rewrite (expect_all_ok_spec _ res Hd Hok).
    destruct (exchanged_runs _ _ _ _ Hout Hf) as (m & rs & Hk & Hfs & Hcomp & Hres).
    destruct (CompoundRes.status res =? NFS_OK) eqn:Est.
    + rewrite Hres, take_ge in Hk by lia.
      destruct (Hext m rs res Hk Hcomp) as (v & -> & HP). eexists _, _, _. split; [reflexivity|]. by rewrite Hfs.
    + eexists _, _, _. split; [reflexivity|]. split; [done|]. exists (ops_done res), m, rs. split; [done|]. split; [done|].
      right. cbn. unfold sat_sub. destruct Hres as [[Hn Hz]|(op & Hop & Hn & Hst)].
      * left. split; [lia|]. split; [done|]. right. right. by exists res, w'.
      * right. exists op. split; [done|]. split; [lia|done].
  - eexists _, _, _. split; [reflexivity|]. split; [done|].
    pose proof (kept_back_status rpc Hrpc xdr_len cl c w e cl' w' ltac:(by intros l r' Hsz; rewrite Hc in Hsz) Hcall) as Hkept.
    destruct Hout as [[-> _]|[Ht (r0 & req & sid & q & Hr & Hops)]].
    + exists 0%nat, (start (fs w)), []. split; [done|]. split; [done|]. destruct Hkept as [?|[? Hst]]; [by left|right; left].
      split; [done|]. split; [done|]. tauto.
    + destruct (Himp _ _ _ _ _ _ _ Hr Hops Hf) as (k & m & rs & Hk & Hfs & _). exists k, m, rs. auto.
Qed.

(** A CREATE may succeed and the GETFH after it fail. *)
Definition creates {R} (op : single R) : bool := match op with SCreate _ _ _ _ => true | _ => false end.

(** How an operation may end, [f] and [f'] being the file system before and
    after: it happened; or it failed and did not happen, for the reason the
    server has or for lack of resources; or it is not known whether it happened
    because the exchange failed.  An object whose handle could not be returned
    was created. *)
Definition refined {R} (most : Z) (op : single R) (f : F) (r : RpcResult R) (f' : F) : Prop :=
  match r with
  | Ok v => meaning s f most op = Ok (f', v)
  | Err e =>
      if RpcError.is_transport e then f' = f ∨ ∃ v, meaning s f most op = Ok (f', v)
      else if RpcError.op_index e =? 0 then f' = f
      else f' = f ∧ meaning s f most op = Err (RpcError.status e) ∨
           resource_status (RpcError.status e) = true ∧
           (f' = f ∨ creates op ∧ RpcError.op_index e = 3 ∧ ∃ v, meaning s f most op = Ok (f', v))
  end.

(** The two facts about the machine an operation's refinement needs: a prefix of
    its compound changes nothing before the operation itself, and its failure is
    the operation's failure. *)
Record compiled {R} (most : Z) (op : single R) (f : F) (ops : list argop) : Prop := {
  cp_prefix k m rs : spec_steps s (start f) (take k ops) = Some (m, rs) →
    mc_fs m = f ∨ (∃ v, meaning s f most op = Ok (mc_fs m, v)) ∧ ((length ops <= k)%nat ∨ creates op ∧ k = 2%nat);
  cp_fails k m rs o st : spec_steps s (start f) (take k ops) = Some (m, rs) → ops !! k = Some o →
    spec_step s m o = Err st → mc_fs m = f ∧ meaning s f most op = Err st;
}.

Lemma exchange_refines {R} cl c (extract : COMPOUND4res → option R) most (op : single R) w :
  Compound.size_check c = None → Forall file_op (Compound.ops c) → compiled most op (fs w) (Compound.ops c) →
  (∀ m rs res, spec_steps s (start (fs w)) (Compound.ops c) = Some (m, rs) → complete res rs →
     ∃ v, extract res = Some v ∧ meaning s (fs w) most op = Ok (mc_fs m, v)) →
  ∃ r cl' w', NfsOps.exchange_one rpc xdr_len cl c extract w = Some (r, cl', w') ∧ same_limits cl cl' ∧
    refined most op (fs w) r (fs w').
Proof.
  intros Hc Hf [Hpre Hfail] Hext.
  destruct (exchange_one_runs cl c extract (λ f' v, meaning s (fs w) most op = Ok (f', v)) w Hc Hf Hext)
    as (r & cl' & w' & Hx & Hs & Hr). exists r, cl', w'. split; [done|]. split; [done|].
  destruct r as [v|e]; [done|]. destruct Hr as (k & m & rs & Hk & Hfs & Hwhy). cbn.
  specialize (Hpre k m rs Hk). rewrite <-Hfs in Hpre.
  destruct (RpcError.is_transport e); [naive_solver|]. destruct (Z.eqb_spec (RpcError.op_index e) 0) as [Hi|Hi].
  - destruct Hwhy as [?|[(_ & -> & _)|(o & _ & Hi' & _)]]; [done| |lia]. by injection Hk as <- _.
  - destruct Hwhy as [?|[[? _]|(o & Ho & Hi' & Hst)]]; [done|done|]. pose proof (lookup_lt_Some _ _ _ Ho).
    destruct Hst as [Hst|Hres].
    + left. rewrite Hfs. by eapply Hfail.
    + right. split; [done|]. destruct Hpre as [?|[Hv [?|[Hcr ->]]]]; [by left|lia|right].
      split; [done|]. split; [lia|done].
Qed.
End Exchange.

(** Running the machine on the few operations of a compound. *)
Ltac machine :=
  repeat (progress (unfold start, keep_fh, keep_at, keep_fs, go_fh, need, at_fh, unchanged, changed in *)
          || case_match || (progress simplify_eq/=)).

(** The operations of the compound of each operation. *)
Definition wire {R} (most : Z) (op : single R) : list argop :=
  match op with
  | SRead fh st off n => [APutFh fh; ARead st off (Z.min n most)]
  | SWrite fh st off data => [APutFh fh; AWrite st off FILE_SYNC4 data]
  | SCreate dir name t target => [APutFh dir; ACreate name (object_type t target); AGetFh]
  | SReadlink fh => [APutFh fh; AReadlink]
  | SGetattr fh attrs => [APutFh fh; AGetattr (Compound.bitmap attrs)]
  | SSetattr fh mode size => [APutFh fh; ASetattr zero_stateid (Compound.setattr_fattr mode size None None None None)]
  | SSetattrValues fh mode size a m =>
      [APutFh fh; ASetattr zero_stateid (Compound.setattr_fattr mode size None None a m)]
  | SSetattrOwnership fh mode size own a m =>
      [APutFh fh; ASetattr zero_stateid (Compound.setattr_fattr mode size own.1 own.2 a m)]
  | SRemove dir name => [APutFh dir; ARemove name]
  | SRename sd o dd n => [APutFh sd; ASaveFh; APutFh dd; ARename o n]
  | SLink dir src n => [APutFh src; ASaveFh; APutFh dir; ALink n]
  | SClose fh st => [APutFh fh; AClose 1 st]
  end.

Section Compiled.
Context {F R : Type} (s : nfs_spec F) (most : Z) (op : single R) (f : F).

(** The machine after a list of operations, or the status of the one that failed. *)
Fixpoint spec_result (m : machine F) (ops : list argop) : result Z (machine F) :=
  match ops with
  | [] => Ok m
  | op :: ops => match spec_step s m op with Ok (m, _) => spec_result m ops | Err st => Err st end
  end.

Lemma spec_steps_result m ops m' rs : spec_steps s m ops = Some (m', rs) → spec_result m ops = Ok m'.
Proof.
  revert m rs. induction ops as [|o ops IH]; intros m rs; cbn; [by intros [= <- _]|].
  destruct (spec_step s m o) as [[m1 r1]|st]; [|done]. intros ([m2 r2] & H & [= <- _])%bind_Some. by eapply IH.
Qed.

Lemma spec_result_app m a b :
  spec_result m (a ++ b) = match spec_result m a with Ok m => spec_result m b | Err st => Err st end.
Proof. revert m. induction a as [|o a IH]; intros m; cbn; [done|]. by destruct (spec_step s m o) as [[]|]. Qed.

(** Operations that only move filehandles. *)
Definition moves (o : argop) : bool := match o with APutFh _ | ASaveFh => true | _ => false end.

Lemma moves_fs m ops m' : Forall moves ops → spec_result m ops = Ok m' → mc_fs m' = mc_fs m.
Proof.
  intros Hm. revert m. induction Hm as [|o ops Ho _ IH]; intros m; cbn; [by intros [= ->]|].
  destruct (spec_step s m o) as [[m1 r1]|st] eqn:E; [|done]. intros H. rewrite (IH _ H). clear -Ho E.
  destruct m as [f0 c sv], o; try done; cbn in E; unfold need in E; by repeat case_match; simplify_eq.
Qed.

(** The status of an operation that fails after a prefix is the run's. *)
Lemma prefix_fails ops k m rs o st : spec_steps s (start f) (take k ops) = Some (m, rs) → ops !! k = Some o →
  spec_step s m o = Err st → spec_result (start f) ops = Err st.
Proof.
  intros Hk%spec_steps_result Ho Hst. rewrite <-(take_drop_middle _ _ _ Ho), spec_result_app, Hk. cbn. by rewrite Hst.
Qed.

(** A compound that moves filehandles and then acts. *)
Lemma compiled_act pre o : Forall moves pre →
  (match spec_result (start f) (pre ++ [o]) with
   | Ok m => ∃ v, meaning s f most op = Ok (mc_fs m, v)
   | Err st => meaning s f most op = Err st
   end) → compiled s most op f (pre ++ [o]).
Proof.
  intros Hpre H. assert (Hquiet : ∀ k m rs, (k <= length pre)%nat →
    spec_steps s (start f) (take k (pre ++ [o])) = Some (m, rs) → mc_fs m = f).
  { intros k m rs Hk Hst. rewrite take_app_le in Hst by done.
    by apply spec_steps_result, moves_fs in Hst; [|apply Forall_take]. }
  split.
  - intros k m rs Hk. destruct (decide (k <= length pre)%nat) as [Hle|Hgt]; [left; by eapply Hquiet|right].
    rewrite take_ge in Hk by (rewrite length_app; cbn; lia). rewrite (spec_steps_result _ _ _ _ Hk) in H.
    split; [done|]. left. rewrite length_app. cbn. lia.
  - intros k m rs o' st Hk Ho Hst. pose proof (lookup_lt_Some _ _ _ Ho) as Hlt. rewrite length_app in Hlt. cbn in Hlt.
    rewrite (prefix_fails _ _ _ _ _ _ Hk Ho Hst) in H. split; [|done]. eapply Hquiet, Hk. lia.
Qed.
End Compiled.

Lemma compiled_create {F} (s : nfs_spec F) most dir name t target f :
  let op := SCreate dir name t target in compiled s most op f (wire most op).
Proof.
  cbn [wire]. split.
  - intros [|[|[|k]]] m rs; cbn [take]; rewrite ?take_nil; intros H%spec_steps_result; cbn in H |- *; machine;
      try (by left); right; (split; [by eauto|]); [by right|left; lia].
  - intros [|[|[|k]]] m rs o st; cbn [take]; rewrite ?take_nil; intros H%spec_steps_result Ho Hst; cbn in H, Hst |- *;
      simplify_eq/=; machine; done.
Qed.

Lemma wire_compiled {F R} (s : nfs_spec F) most (op : single R) f : compiled s most op f (wire most op).
Proof.
  destruct op; cbn [wire].
  3: apply compiled_create.
  9,10: apply (compiled_act _ _ _ _ [_; _; _] _); [by repeat constructor|]; cbn; machine; eauto.
  all: apply (compiled_act _ _ _ _ [_] _); [by repeat constructor|]; cbn; machine; eauto.
Qed.

Section Refinement.
Context {F W : Type} (s : nfs_spec F) (rpc : Compound.t → W → RpcResult COMPOUND4res * W) (fs : W → F).
Context (Hrpc : transport_ok rpc) (Himp : implements s rpc fs).
Context (xdr_len : Compound.t → Z) `{!XdrSizes xdr_len}.

Lemma read_refines cl fh st off n w :
  ∃ r cl' w', Single.read rpc xdr_len cl fh st off n w = Some (r, cl', w') ∧ same_limits cl cl' ∧
    refined s (as_u32 (NfsClient.read_per_op_bytes cl)) (SRead fh st off n) (fs w) r (fs w') ∧
    ∀ data eof, r = Ok (data, eof) → Z.of_nat (length data) <= n.
Proof.
  set (most := as_u32 (NfsClient.read_per_op_bytes cl)). unfold Single.read. fold most.
  set (c := Compound.read _ _ _ _). set (extract := λ res, Single.read_result res 2).
  destruct (exchange_refines s rpc fs Hrpc Himp xdr_len cl c extract most (SRead fh st off n) w) as (r & cl' & w' & -> & Hs & Hr).
  - done.
  - by repeat constructor.
  - apply (wire_compiled s most (SRead fh st off n)).
  - intros m rs res Hm Hcomp. cbn in Hm. machine.
    pose proof (complete_accessors _ _ 1 _ Hcomp eq_refl) as [Hd He]. rewrite vec_of_bytes in Hd.
    unfold extract, Single.read_result. change 2 with (1 + Z.of_nat 1). rewrite Hd. cbn [mbind option_bind]. rewrite He. eexists. split; [reflexivity|].
    repeat f_equal. by destruct value.
  - eexists _, _, _. split; [reflexivity|]. split; [done|]. destruct r as [[data eof]|e]; [|by split].
    unfold Single.validate_read_length. destruct (Z.ltb_spec (Z.min n most) (Z.of_nat (length data))).
    + split; [|done]. right. by eexists.
    + split; [done|]. intros ?? [= <- <-]. lia.
Qed.

Lemma perform_refines_most {R} cl (op : single R) w :
  ∃ r cl' w', perform rpc xdr_len cl op w = Some (r, cl', w') ∧ same_limits cl cl' ∧
    refined s (as_u32 (NfsClient.read_per_op_bytes cl)) op (fs w) r (fs w').
Proof.
  set (most := as_u32 (NfsClient.read_per_op_bytes cl)).
  pose proof (wire_compiled s most op (fs w)) as Hc. destruct op; cbn [perform wire] in *.
  { destruct (read_refines cl fh stateid offset count w) as (r & cl' & w' & ? & ? & ? & _). by exists r, cl', w'. }
  2:{ assert (Hops : Compound.ops (Compound.getfh (Compound.create (Single.on "create" dir) name ftype linkdata)) =
        [APutFh dir; ACreate name (object_type ftype linkdata); AGetFh]) by (by destruct linkdata).
      apply (exchange_refines s rpc fs Hrpc Himp xdr_len); rewrite ?Hops; [done|by repeat constructor|exact Hc|].
      intros m rs res Hs Hcomp. cbn in Hs. machine. pose proof (complete_accessors _ _ 2 _ Hcomp eq_refl) as Hacc.
      cbn -[vec_of CompoundRes.vec_bytes] in Hacc. rewrite vec_of_bytes in Hacc. by eexists. }
  10:{ unfold Single.close, Single.close_slot.
       destruct (exchange_refines s rpc fs Hrpc Himp xdr_len cl (Compound.close (Single.on "close" fh) 1 stateid)
         Single.no_result most (SClose fh stateid) w) as (r & cl' & w' & -> & Hs & Hr);
         [done|by repeat constructor|exact Hc| |by exists r, cl', w'; destruct r].
       intros m rs res Hs _. cbn in Hs. machine. by exists tt. }
  all: apply (exchange_refines s rpc fs Hrpc Himp xdr_len); [done|by repeat constructor|exact Hc|].
  all: intros m rs res Hs Hcomp; cbn in Hs; machine; pose proof (complete_accessors _ _ 1 _ Hcomp eq_refl) as Hacc;
    cbn -[vec_of CompoundRes.vec_bytes] in Hacc; rewrite ?vec_of_bytes in Hacc; eexists; (split; [first [exact Hacc | reflexivity]|]);
    by rewrite <-?surjective_pairing.
Qed.
End Refinement.

(** C9: Every operation on one object refines one step of the file service.
    For every server, whatever its file system, and every transport, READ,
    WRITE, CREATE, READLINK, GETATTR, the three forms of SETATTR, REMOVE, RENAME,
    LINK and CLOSE return without panicking, and: a success means that the one step
    the operation stands for happened, and its value is that step's; an error of
    the operation means that nothing changed and the status is the one the step
    fails with, or the server ran out of resources (after which a created object
    may exist whose handle was not returned); a transport failure means the step
    happened completely or not at all. *)
Theorem single_operations_refine {F W R} (s : nfs_spec F) (rpc : Compound.t → W → RpcResult COMPOUND4res * W)
    (fs : W → F) (xdr_len : Compound.t → Z) `{!XdrSizes xdr_len} (cl : NfsClient.t) (op : single R) (w : W) :
  transport_ok rpc → implements s rpc fs →
  ∃ r cl' w', perform rpc xdr_len cl op w = Some (r, cl', w') ∧
    refined s (as_u32 (NfsClient.read_per_op_bytes cl)) op (fs w) r (fs w').
Proof.
  intros Hrpc Himp. destruct (perform_refines_most s rpc fs Hrpc Himp xdr_len cl op w) as (r & cl' & w' & ? & _ & ?).
  by exists r, cl', w'.
Qed.

Definition example_mem : mem :=
  Mem (<[bstr "root" := NDir {[bstr "a" := bstr "fa"]}]> {[bstr "fa" := NFile (bstr "data")]}) 7 [].

Lemma single_operations_refine_witness :
  ∃ r cl' w', perform (spec_server MemFs.spec 20) SendLemmas.example_xdr_len SendLemmas.example_client
      (SRename (bstr "root") (bstr "a") (bstr "root") (bstr "b")) example_mem = Some (r, cl', w') ∧
    r = Ok tt ∧
    meaning MemFs.spec example_mem (as_u32 (NfsClient.read_per_op_bytes SendLemmas.example_client))
      (SRename (bstr "root") (bstr "a") (bstr "root") (bstr "b")) = Ok (w', tt).
Proof.
  destruct (single_operations_refine MemFs.spec (spec_server MemFs.spec 20) id SendLemmas.example_xdr_len
    SendLemmas.example_client (SRename (bstr "root") (bstr "a") (bstr "root") (bstr "b")) example_mem)
    as (r & cl' & w' & E & H).
  - apply spec_server_transport; [apply MemFs.mem_spec_ok|reflexivity].
  - apply spec_server_implements, MemFs.mem_spec_ok.
  - exists r, cl', w'. split; [exact E|].
    assert (Hr : match perform (spec_server MemFs.spec 20) SendLemmas.example_xdr_len SendLemmas.example_client
        (SRename (bstr "root") (bstr "a") (bstr "root") (bstr "b")) example_mem with
      Some (v, _, _) => v = Ok tt | None => False end) by (vm_compute; reflexivity).
    rewrite E in Hr. subst r. split; [reflexivity|exact H].
Defined.
End SingleLemmas.
