(* ===== verification/BatchSpec.v ===== *)
(** * Batches as steps of the file service

    What a batch of [crates/vfsi-nfs/src/client.rs] means for the abstract file
    service: one step per item, each with its answer, in the caller's order.
    The lemmas take the shape of the item's operation group as a contract
    ([performs]) and give, for every server and every cut into compounds, that
    the batch has carried out a prefix of the steps and hands over their
    answers.  The batches of mutations, writes, copies and opens are instances. *)
From stdpp Require Import base numbers list list_numbers gmap strings.
From S2P Require Import Prelude Errors Planner Compound Session Client Loops Exchange Server Batch BatchOps BatchRun Resolve Single.

(** ** Steps with answers *)

(** One step after the other, up to the first that fails. *)
Fixpoint answers {F R} (steps : list (F → result Z (F * R))) (f : F) : result Z (F * list R) :=
  match steps with
  | [] => Ok (f, [])
  | step :: steps =>
      match step f with
      | Ok (f, v) => match answers steps f with Ok (f, vs) => Ok (f, v :: vs) | Err st => Err st end
      | Err st => Err st
      end
  end.

Section Contract.
Context {F T R : Type} (s : nfs_spec F) (item_ops : T → Z → list argop) (per : nat).
Context (act : T → Z → F → result Z (F * R)) (payload : R → list resop → Prop) (atomic : bool).

(** The group of an item performs its step, wherever it starts, and shows the
    answer; cut short it has done nothing, or, where it is not [atomic], the
    whole step without showing its answer. *)
Record performs : Prop := {
  pf_len x i : length (item_ops x i) = per;
  pf_pos : (0 < per)%nat;
  pf_file x i : Forall file_op (item_ops x i);
  pf_whole x i m m' rs : spec_steps s m (item_ops x i) = Some (m', rs) →
    ∃ v, act x i (mc_fs m) = Ok (mc_fs m', v) ∧ payload v rs;
  pf_part x i k m m' rs : (k < per)%nat → spec_steps s m (take k (item_ops x i)) = Some (m', rs) →
    mc_fs m' = mc_fs m ∨ atomic = false ∧ ∃ v, act x i (mc_fs m) = Ok (mc_fs m', v);
}.
End Contract.

Module BatchSpecLemmas.
Import ExchangeLemmas ServerLemmas SingleLemmas BatchOpsLemmas BatchRunLemmas.

Section Answers.
Context {F R : Type}.
Implicit Types (a b l : list (F → result Z (F * R))).

Lemma answers_app a b f : answers (a ++ b) f =
  match answers a f with
  | Ok (f1, vs) => match answers b f1 with Ok (f2, us) => Ok (f2, vs ++ us) | Err st => Err st end
  | Err st => Err st
  end.
Proof.
  revert f. induction a as [|x a IH]; intros f; cbn; [by destruct (answers b f) as [[]|]|].
  destruct (x f) as [[f1 v]|st]; [|done]. rewrite IH. destruct (answers a f1) as [[f2 vs]|st]; [|done].
  by destruct (answers b f2) as [[]|].
Qed.

Lemma answers_length l f f' vs : answers l f = Ok (f', vs) → length vs = length l.
Proof.
  revert f f' vs. induction l as [|x l IH]; intros f f' vs; cbn; [by intros [= _ <-]|].
  destruct (x f) as [[f1 v]|st]; [|done]. destruct (answers l f1) as [[f2 us]|st] eqn:E; [|done].
  intros [= <- <-]. cbn. f_equal. by eapply IH.
Qed.

(** The answers of a prefix are the first answers. *)
Lemma answers_prefix l k j f f' vs : answers (take k l) f = Ok (f', vs) → (j <= k)%nat →
  ∃ f1, answers (take j l) f = Ok (f1, take j vs).
Proof.
  revert k j f vs. induction l as [|x l IH]; intros k j f vs H Hjk.
  { rewrite take_nil in H. injection H as <- <-. exists f. by rewrite !take_nil. }
  destruct j as [|j]; [by exists f|]. destruct k as [|k]; [lia|]. cbn in H |- *. destruct (x f) as [[f1 v]|st]; [|done].
  destruct (answers (take k l) f1) as [[f2 us]|st] eqn:E; [|done]. injection H as <- <-.
  destruct (IH k j f1 us E ltac:(lia)) as [f3 ->]. by exists f3.
Qed.
End Answers.

Section Groups.
Context {F T R : Type} (s : nfs_spec F) (item_ops : T → Z → list argop) (per : nat).
Context (act : T → Z → F → result Z (F * R)) (payload : R → list resop → Prop) (atomic : bool).
Hypothesis Hperf : performs s item_ops per act payload atomic.

(** A run that stops after [d] operations has performed the [d / per] items it
    completed, and perhaps one more where a group is not atomic. *)
Lemma groups_run i items d m m' rs :
  spec_steps s m (take d (mjoin (item_groups item_ops i items))) = Some (m', rs) →
  let k := ((d / per) `min` length items)%nat in
  ∃ k' vs, (k' = k ∨ atomic = false ∧ k' = S k ∧ (k' <= length items)%nat) ∧
    answers (take k' (item_groups act i items)) (mc_fs m) = Ok (mc_fs m', vs) ∧
    ∀ j v, (j < k)%nat → vs !! j = Some v → payload v (take per (drop (j * per) rs)).
Proof.
  revert i d m rs. induction items as [|x items IH]; intros i d m rs; cbn [item_groups].
  { change (mjoin []) with (@nil argop). rewrite take_nil. intros [= <- <-]. cbn [length]. rewrite Nat.min_0_r.
    exists 0%nat, []. split; [by left|]. split; [done|lia]. }
  change (mjoin (?g :: ?gs)) with (g ++ mjoin gs). pose proof (pf_pos _ _ _ _ _ _ Hperf).
  destruct (decide (d < per)%nat) as [Hlt|Hge].
  - rewrite Nat.div_small by done. rewrite take_app_le by (rewrite (pf_len _ _ _ _ _ _ Hperf); lia). intros H'. cbn.
    destruct (pf_part _ _ _ _ _ _ Hperf x i d m m' rs Hlt H') as [->|(Hat & v & Hv)].
    + exists 0%nat, []. split; [by left|]. split; [done|lia].
    + exists 1%nat, [v]. split; [right; split_and!; [done|done|lia]|]. cbn. rewrite Hv. split; [done|lia].
  - replace d with (length (item_ops x i) + (d - per))%nat at 1 by (rewrite (pf_len _ _ _ _ _ _ Hperf); lia).
    rewrite take_app_add, spec_steps_app. intros ([m1 r1] & H1 & ([m2 r2] & H2 & [= <- <-])%bind_Some)%bind_Some.
    destruct (pf_whole _ _ _ _ _ _ Hperf x i m m1 r1 H1) as (v & Hv & Hpay).
    pose proof (spec_steps_length s _ _ _ _ H1) as Hl1. rewrite (pf_len _ _ _ _ _ _ Hperf) in Hl1.
    destruct (IH (i + 1) (d - per)%nat m1 r2 H2) as (k' & vs & Hk' & Hans & Hvs).
    assert (d / per = S ((d - per) / per))%nat as Hdiv.
    { replace d with ((d - per) + 1 * per)%nat at 1 by lia. rewrite Nat.div_add by lia. lia. }
    rewrite Hdiv. cbn [length Nat.min]. exists (S k'), (v :: vs). split; [|split].
    + destruct Hk' as [->|(? & -> & ?)]; [by left|right; split_and!; [done|done|lia]].
    + cbn. by rewrite Hv, Hans.
    + intros [|j] u Hj Hu; cbn in Hu.
      * injection Hu as <-. by rewrite drop_0, <-Hl1, take_app_length.
      * replace (S j * per)%nat with (length r1 + j * per)%nat by lia. rewrite drop_app_add. apply Hvs; [lia|done].
Qed.
End Groups.

(** The groups a reply completes are the ones its operations fill. *)
Lemma completed_per (per : nat) (res : COMPOUND4res) : (0 < per)%nat →
  completed_groups (Z.of_nat per) res = (ops_done res / per)%nat.
Proof.
  intros Hp. unfold completed_groups, ops_done. set (z := CompoundRes.nops res - 1 - _).
  destruct (Z.le_gt_cases 0 z).
  - rewrite <-(Z2Nat.id z) at 1 by done. by rewrite <-Nat2Z.inj_div, Nat2Z.id.
  - replace (Z.to_nat z) with 0%nat by lia. rewrite Nat.Div0.div_0_l.
    pose proof (Z.div_lt_upper_bound z (Z.of_nat per) 0). lia.
Qed.

Section Runner.
Context {F W : Type} (s : nfs_spec F) (rpc : Compound.t → W → RpcResult COMPOUND4res * W) (fs : W → F).
Context (Hrpc : transport_ok rpc) (Himp : implements s rpc fs).
Context (xdr_len : Compound.t → Z) `{!XdrSizes xdr_len}.
Context {T R : Type} (tag : string) (per : nat) (add : Compound.t → T → Z → Compound.t) (item_ops : T → Z → list argop).
Context `{Hshape : !BatchShape add (Z.of_nat per) item_ops}.
Context (act : T → Z → F → result Z (F * R)) (payload : R → list resop → Prop) (atomic : bool).
Hypothesis Hperf : performs s item_ops per act payload atomic.
Hypothesis Hro : batch_is_read_only (bstr tag) = true → atomic = true.
Context (extract : nat → COMPOUND4res → Z → option (RpcResult R)).
Hypothesis Hextract : ∀ res rs j v pos, complete res rs → payload v (take per (drop (j * per) rs)) →
  extract pos res (Z.of_nat j) = Some (Ok v).
Context (ops : list T) (cl0 : NfsClient.t) (f0 : F).
Let n : nat := length ops.
Let steps : list (F → result Z (F * R)) := item_groups act 0 ops.

(** What the batch does when it fails, given the answers it has. *)
Context (on_failure : NfsClient.t → list R → W → option (NfsClient.t * W)).
Context (released : list R → NfsClient.t → W → NfsClient.t → W → Prop).
Hypothesis Hfail : ∀ out cl w, same_limits cl0 cl → (length out <= n)%nat →
  ∃ cl' w', on_failure cl out w = Some (cl', w') ∧ same_limits cl0 cl' ∧ released out cl w cl' w'.

(** The first [k] items were performed, and nothing else. *)
Definition performed (k : Z) (w : W) : Prop := ∃ vs, answers (take (Z.to_nat k) steps) f0 = Ok (fs w, vs).
Definition performed_most (k : Z) (w : W) : Prop :=
  performed k w ∨ atomic = false ∧ k < Z.of_nat n ∧ performed (k + 1) w.
Definition answer_at (i : nat) (_ : T) (v : R) : Prop :=
  ∃ f vs, answers (take (S i) steps) f0 = Ok (f, vs) ∧ vs !! i = Some v.

(** How the batch may end. *)
Definition batch_final (r : RpcResult (list R)) (cl : NfsClient.t) (w : W) : Prop :=
  same_limits cl0 cl ∧
  match r with
  | Ok out => answers steps f0 = Ok (fs w, out)
  | Err e =>
      ∃ k k' cl1 w1 vs, (k <= k' <= n)%nat ∧ answers (take k' steps) f0 = Ok (fs w1, vs) ∧
        released (take k vs) cl1 w1 cl w ∧
        (RpcError.is_transport e = true ∧ unanswered rpc item_ops ops performed (Z.of_nat k) w1 ∨
         RpcError.op_index e = Z.of_nat k ∧ (k < n)%nat ∧ (k' = k ∨ atomic = false ∧ k' = S k))
  end.

Lemma steps_length : length steps = n.
Proof. apply item_groups_length. Qed.

Lemma collected_answers k k' out f vs : collected ops answer_at (Z.of_nat k) out → (k <= k' <= n)%nat →
  answers (take k' steps) f0 = Ok (f, vs) → out = take k vs.
Proof.
  intros [Hlen Hout] Hk Hvs. pose proof (answers_length _ _ _ _ Hvs) as Hl. rewrite length_take, steps_length in Hl.
  apply list_eq. intros i. destruct (decide (i < k)%nat) as [Hi|Hi].
  - rewrite lookup_take_lt by done.
    assert (is_Some (ops !! i)) as [x Hx] by (apply lookup_lt_is_Some; unfold n in *; lia).
    assert (is_Some (out !! i)) as [v Hv] by (apply lookup_lt_is_Some; lia).
    destruct (Hout i x v Hx Hv) as (f1 & us & Hus & Hu).
    destruct (answers_prefix _ _ (S i) _ _ _ Hvs ltac:(lia)) as [f2 Hf2]. rewrite Hus in Hf2. injection Hf2 as <- ->.
    rewrite lookup_take_lt in Hu by lia. congruence.
  - rewrite (proj2 (lookup_ge_None _ _)), (proj2 (lookup_ge_None _ _)); [done|lengths|lia].
Qed.

Lemma chunk_file k len : Forall file_op (mjoin (chunk_groups item_ops ops k len)).
Proof.
  apply Forall_join. unfold chunk_groups, slice. apply Forall_drop, Forall_take. clear -Hperf. generalize 0.
  induction ops as [|x l IH]; intros i; cbn; constructor; [apply (pf_file _ _ _ _ _ _ Hperf)|done].
Qed.

(** A run of a chunk that stops anywhere. *)
Lemma chunk_performed k len d w m rs : 0 <= k → 0 <= len → k + len <= Z.of_nat n → performed k w →
  spec_steps s (start (fs w)) (take d (mjoin (chunk_groups item_ops ops k len))) = Some (m, rs) →
  let d' := Z.min (Z.of_nat (d / per)) len in
  ∃ k' vs, (k' = k + d' ∨ atomic = false ∧ k' = k + d' + 1 ∧ k + d' < k + len) ∧
    answers (take (Z.to_nat k') steps) f0 = Ok (mc_fs m, vs) ∧
    ∀ j v, (Z.of_nat j < d') → vs !! (Z.to_nat k + j)%nat = Some v → payload v (take per (drop (j * per) rs)).
Proof.
  intros Hk Hlen Hn [us Hw] Hst d'. unfold chunk_groups in Hst.
  replace (Z.to_nat k) with (Z.to_nat (Z.of_nat (Z.to_nat k))) in Hst by lia.
  rewrite Nat2Z.id, <-item_groups_slice in Hst by (unfold n in *; lia).
  destruct (groups_run s item_ops per act payload atomic Hperf _ _ _ _ _ _ Hst) as (c & vs & Hc & Hans & Hpay).
  assert (Hl : length (slice (Z.to_nat k) (Z.to_nat (k + len)) ops) = Z.to_nat len).
  { unfold slice. rewrite length_drop, length_take. unfold n in *. lia. }
  rewrite Hl in Hc, Hpay. cbn [mc_fs start] in Hans. rewrite item_groups_slice in Hans by (unfold n in *; lia). fold steps in Hans.
  pose proof (answers_length _ _ _ _ Hw) as Hul. rewrite length_take, steps_length in Hul.
  exists (k + Z.of_nat c), (us ++ vs). split_and!.
  - destruct Hc as [->|(? & -> & ?)]; [left; lia|right; split_and!; [done|lia|lia]].
  - replace (Z.to_nat (k + Z.of_nat c)) with (Z.to_nat k + c)%nat by lia.
    rewrite <-take_take_drop, answers_app, Hw.
    replace (take c (drop (Z.to_nat k) steps)) with (take c (slice (Z.to_nat k) (Z.to_nat (k + len)) steps)); [by rewrite Hans|].
    unfold slice. rewrite take_drop_commute, take_take, Nat.min_l, <-take_drop_commute; [done|]. lia.
  - intros j v Hj Hv. apply Hpay; [lia|]. rewrite lookup_app_r in Hv by lia. by replace j with (Z.to_nat k + j - length us)%nat by lia.
Qed.

Lemma batch_spec_ok :
  runner_ok rpc tag (Z.of_nat per) item_ops extract on_failure ops cl0 performed performed_most answer_at batch_final.
Proof.
  pose proof (pf_pos _ _ _ _ _ _ Hperf) as Hpos. split.
  - by left.
  - intros k len w res w' Hk Hlen Hw Hex done_.
    destruct (completed_range rpc (Z.of_nat per) add item_ops ops k len w res w' Hk Hlen Hex) as (Hdl & Hfull & Hrej & _).
    fold done_ in Hdl, Hfull, Hrej.
    destruct (exchanged_runs s rpc fs Himp _ w res w' Hex (chunk_file k len)) as (m & rs & Hst & Hfs & Hcomp & _).
    destruct (chunk_performed k len (ops_done res) w m rs ltac:(lia) ltac:(lia) ltac:(unfold n; lia) Hw Hst)
      as (k' & vs & Hk' & Hans & Hpay). rewrite <-completed_per in Hk', Hpay by done. fold done_ in Hk', Hpay.
    rewrite Z.min_l in Hk', Hpay by lia. rewrite <-Hfs in Hans.
    assert (Hmost : performed_most (k + done_) w').
    { destruct Hk' as [->|(? & -> & ?)]; [left; by exists vs|right]. split_and!; [done|unfold n; lia|by exists vs]. }
    assert (Hexact : atomic = true ∨ done_ = len → performed (k + done_) w').
    { intros Hor. destruct Hk' as [->|(? & _ & ?)]; [by exists vs|]. destruct Hor; [congruence|lia]. }
    split_and!; [by auto|..|by auto|done|].
    + intros Hr. pose proof Hex as (? & ? & ? & _ & _ & Hd & _). rewrite (rejected_nothing_done res Hd Hr) in Hst.
      rewrite take_0 in Hst. injection Hst as <- <-. destruct Hw as [us Hw]. exists us. by rewrite Hfs.
    + intros j o x Hj Ho Hx. pose proof (answers_length _ _ _ _ Hans) as Hl. rewrite length_take, steps_length in Hl.
      assert (is_Some (vs !! Z.to_nat (k + j))) as [v Hv] by (apply lookup_lt_is_Some; unfold n in *; lia).
      exists (Ok v). split; [rewrite <-(Z2Nat.id j) at 1 by lia; eapply Hextract; [done|]; apply Hpay; [lia|]|].
      { by replace (Z.to_nat k + Z.to_nat j)%nat with (Z.to_nat (k + j)) by lia. }
      destruct (answers_prefix _ _ (S (Z.to_nat (k + j))) _ _ _ Hans ltac:(lia)) as [f1 Hf1].
      exists f1, (take (S (Z.to_nat (k + j))) vs). split; [done|]. by rewrite lookup_take_lt by lia.
  - intros k len w r w' Hk Hlen Hw (req & sid & q & Hr & Hops).
    destruct (Himp _ _ _ _ _ _ _ Hr Hops (chunk_file k len)) as (d & m & rs & Hst & Hfs & _).
    destruct (chunk_performed k len d w m rs ltac:(lia) ltac:(lia) ltac:(unfold n; lia) Hw Hst) as (k' & vs & Hk' & Hans & _).
    exists k'. split; [lia|]. left. exists vs. by rewrite Hfs.
  - intros o cl w Hs Ho [vs Hw]. split; [done|]. fold n in Ho, Hw. rewrite Nat2Z.id in Hw.
    rewrite (collected_answers n n _ _ _ Ho ltac:(lia) Hw).
    pose proof (answers_length _ _ _ _ Hw) as Hl. rewrite length_take, steps_length in Hl.
    rewrite take_ge in Hw by (rewrite steps_length; lia). by rewrite take_ge by lia.
  - intros k k' o cl w e Hs Hk Hk' Ho Hst He. fold n in Hk', He.
    destruct (Hfail o cl w Hs) as (cl' & w' & Hf & Hs' & Hrel); [destruct Ho as [-> _]; lia|].
    exists cl', w'. split; [done|]. split; [done|].
    assert (∃ k2 vs, k <= k2 <= Z.of_nat n ∧ answers (take (Z.to_nat k2) steps) f0 = Ok (fs w, vs) ∧
      (RpcError.is_transport e = true ∧ unanswered rpc item_ops ops performed k w ∨
       RpcError.op_index e = k ∧ k < Z.of_nat n ∧ (k2 = k ∨ atomic = false ∧ k2 = k + 1)))
      as (k2 & vs & Hk2 & Hvs & Hwhy).
    { destruct Hst as [[vs Hvs]|(? & ? & vs & Hvs)]; [exists k', vs|exists (k' + 1), vs]; (split; [lia|]); (split; [done|]);
        destruct He as [?|(? & -> & ?)]; [by left| |by left|]; right; split_and!; try done; [by left|by right]. }
    exists (Z.to_nat k), (Z.to_nat k2), cl, w, vs. rewrite !Z2Nat.id by lia. split; [lia|]. split; [done|]. split.
    + rewrite <-(collected_answers (Z.to_nat k) (Z.to_nat k2) o (fs w) vs); [done|by rewrite Z2Nat.id by lia|lia|done].
    + destruct Hwhy as [?|(? & ? & Hx)]; [by left|right]. split_and!; [lia|lia|]. destruct Hx as [->|[? ->]]; [by left|right; split; [done|lia]].
Qed.

Lemma batch_spec_run fuel w : fs w = f0 → 0 <= NfsClient.max_ops cl0 < USIZE_MAX →
  (Z.of_nat n + 1) * (Z.of_nat n + 1) <= Z.of_nat fuel →
  ∃ r cl' w', BatchOps.batch_ops_fallible_with_failure rpc xdr_len tag (Z.of_nat per) add extract on_failure fuel cl0 ops w =
      Done (r, cl', w') ∧ batch_final r cl' w'.
Proof.
  intros Hw Hmax Hfuel.
  apply (batch_run_ok rpc Hrpc xdr_len tag (Z.of_nat per) add item_ops extract on_failure ops cl0 _ _ _ _ batch_spec_ok Hmax); [|done].
  exists []. cbn. by rewrite Hw.
Qed.
End Runner.
End BatchSpecLemmas.
