(* ===== verification/Reads.v ===== *)
(** * Batches of reads

    Models [readv] and [readv_decode] of [crates/vfsi-nfs/src/client.rs], which
    cut a list of READs at the response budget and hand each part to the batch
    runner.  The theorems show that the read-only batches (READ, GETATTR and
    READLINK) terminate against every server and return, item by item and in
    order, what the file service answers, whatever the server rejects for size
    on the way. *)
From stdpp Require Import base numbers list list_numbers gmap strings.
From S2P Require Import Prelude Errors Planner Types Compound Session Client IoProgress Loops Exchange Server Batch BatchOps BatchRun Resolve Single BatchSpec.

Record ReadOp := Read { rd_fh : nfs_fh4; rd_stateid : stateid4; rd_offset : Z; rd_count : Z }.

Definition add_read (c : Compound.t) (op : ReadOp) (_ : Z) : Compound.t :=
  Compound.read (Compound.putfh c (rd_fh op)) (rd_stateid op) (rd_offset op) (rd_count op).

Module Readv.
Section Loop.
Context {W : Type} (rpc : Compound.t → W → RpcResult COMPOUND4res * W) (xdr_len : Compound.t → Z).
(** The destination of each READ: its wire index, its data, its end-of-file flag. *)
Context {R : Type} (decode : Z → bytes → bool → RpcResult R).

Record state := State { client : NfsClient.t; world : W; start_ : Z; results_ : list R }.

Definition answer : Type := RpcResult (list R) * NfsClient.t * W.

(** The inner loop: how many READs fit the byte budget. *)
Fixpoint segment (byte_budget bytes : Z) (ops : list ReadOp) : nat :=
  match ops with
  | [] => 0
  | op :: ops =>
      let next := sat_add (rd_count op) 128 in
      if byte_budget <? sat_add bytes next then 0 else S (segment byte_budget (bytes + next) ops)
  end.

(** The closure that decodes the [extracted]-th reply of a part. *)
Definition extract (ops : list ReadOp) (start : Z) (extracted : nat) (res : COMPOUND4res) (i : Z)
    : option (RpcResult R) :=
  let local_index := Z.of_nat extracted in
  let wire_index := start + local_index in
  '(data, eof) ← Single.read_result res (2 + 2 * i);
  op ← ops !! Z.to_nat wire_index;
  Some (match Single.validate_read_length (Z.of_nat (length data)) (rd_count op) with
        | Err e => Err (RpcError.with_op_index e local_index)
        | Ok _ =>
            match decode wire_index data eof with
            | Ok v => Ok v
            | Err e => Err (RpcError.with_op_index e local_index)
            end
        end).

Definition round (fuel : nat) (byte_budget : Z) (ops : list ReadOp) (st : state) : outcome (turn state answer) :=
  let 'State cl w start results := st in
  let end_ := start + Z.of_nat (segment byte_budget 0 (drop (Z.to_nat start) ops)) in
  if end_ =? start then Done (Return (Err (RpcError.op start NFS4ERR_REP_TOO_BIG), cl, w))
  else
    match BatchOps.batch_ops_fallible rpc xdr_len "readv" 2 add_read (extract ops start) fuel cl
            (slice (Z.to_nat start) (Z.to_nat end_) ops) w with
    | Done (Ok chunk, cl, w) => Done (Again (State cl w end_ (results ++ chunk)))
    | Done (Err e, cl, w) => Done (Return (Err (RpcError.with_op_index e (start + RpcError.op_index e)), cl, w))
    | Panicked => Panicked
    | OutOfFuel => OutOfFuel
    end.

(** The outer loop; every turn gets the same fuel for its batch. *)
Fixpoint loop (turns fuel : nat) (byte_budget : Z) (ops : list ReadOp) (st : state) : outcome answer :=
  if start_ st <? Z.of_nat (length ops) then
    match turns with
    | O => OutOfFuel
    | S turns =>
        match round fuel byte_budget ops st with
        | Done (Again st) => loop turns fuel byte_budget ops st
        | Done (Return a) => Done a
        | Panicked => Panicked
        | OutOfFuel => OutOfFuel
        end
    end
  else Done (Ok (results_ st), client st, world st).

Definition readv_decode (fuel : nat) (cl : NfsClient.t) (ops : list ReadOp) (w : W) : outcome answer :=
  let byte_budget := sat_sub (NfsClient.read_compound_bytes cl) 128 in
  loop fuel fuel byte_budget ops (State cl w 0 []).
End Loop.

Definition readv {W} (rpc : Compound.t → W → RpcResult COMPOUND4res * W) (xdr_len : Compound.t → Z) :=
  readv_decode rpc xdr_len (λ _ data eof, Ok (data, eof)).
End Readv.

(** What an item that reads appends: its handle and one operation. *)
#[global] Instance add_read_shape : BatchShape add_read 2 (λ op _,
  [APutFh (rd_fh op); ARead (rd_stateid op) (rd_offset op) (rd_count op)]).
Proof. split; try done. intros c op i. cbn. by rewrite <-!app_assoc. Qed.

#[global] Instance add_getattr_shape : BatchShape add_getattr 2 (λ op _,
  [APutFh (ga_fh op); AGetattr (Compound.bitmap (ga_attrs op))]).
Proof. split; try done. intros c op i. cbn. by rewrite <-!app_assoc. Qed.

#[global] Instance add_readlink_shape : BatchShape add_readlink 2 (λ op _, [APutFh (rl_fh op); AReadlink]).
Proof. split; try done. intros c op i. cbn. by rewrite <-!app_assoc. Qed.

Module ReadLemmas.
Import ExchangeLemmas ServerLemmas SingleLemmas BatchOpsLemmas BatchRunLemmas BatchSpecLemmas.

Section Reads.
Context {F W : Type} (s : nfs_spec F) (rpc : Compound.t → W → RpcResult COMPOUND4res * W) (fs : W → F).
Context (Hrpc : transport_ok rpc) (Himp : implements s rpc fs).
Context (xdr_len : Compound.t → Z) `{!XdrSizes xdr_len}.

(** Items that only ask: the answer of the file service, the result it comes
    in, and what the client makes of it. *)
Context {T A R : Type} (fh_of : T → nfs_fh4) (op_of : T → argop).
Context (ask : F → T → result Z A) (payload : A → resop).
Hypothesis Hfile : ∀ x, file_op (op_of x) = true.
Hypothesis Hask : ∀ f sv x, spec_step s (Machine f (Some (fh_of x)) sv) (op_of x) =
  keep_fh (Machine f (Some (fh_of x)) sv) (ask f x) payload.

Definition read_ops (x : T) (_ : Z) : list argop := [APutFh (fh_of x); op_of x].

(** Whole groups run without changing anything, and give the answers. *)
Lemma read_groups_run f c sv start items m rs :
  spec_steps s (Machine f c sv) (mjoin (item_groups read_ops start items)) = Some (m, rs) →
  mc_fs m = f ∧ mc_sav m = sv ∧
  ∀ j x, items !! j = Some x → ∃ v, at_fh s f (fh_of x) (ask f x) = Ok v ∧ rs !! (2 * j + 1)%nat = Some (payload v).
Proof.
  revert c start rs. induction items as [|x items IH]; intros c start rs; cbn [item_groups].
  { intros [= <- <-]. by split_and!. }
  change (mjoin (?g :: ?gs)) with (g ++ mjoin gs). cbn [read_ops app spec_steps].
  cbn [spec_step]. destruct (sp_putfh s f (fh_of x)) as [[]|st] eqn:Hput; [|done].
  rewrite Hask. unfold keep_fh. destruct (ask f x) as [v|st] eqn:Hv; [|done].
  intros ([m1 r1] & ([m2 r2] & H & [= <- <-])%bind_Some & [= <- <-])%bind_Some.
  destruct (IH _ _ _ H) as (? & ? & Hall). split_and!; [done|done|]. intros [|j] y.
  - intros [= <-]. exists v. unfold at_fh. by rewrite Hput.
  - intros Hy. destruct (Hall j y Hy) as (v' & ? & ?). exists v'. split; [done|].
    by replace (2 * S j + 1)%nat with (S (S (2 * j + 1))) by lia.
Qed.

Lemma read_groups_length start items :
  Z.of_nat (length (mjoin (item_groups read_ops start items))) = 2 * Z.of_nat (length items).
Proof.
  revert start. induction items as [|x items IH]; intros start; [done|]. cbn [item_groups].
  change (mjoin (?g :: ?gs)) with (g ++ mjoin gs). rewrite length_app, Nat2Z.inj_add, IH. cbn [read_ops length]. lia.
Qed.

(** A run that stops in the middle of the groups. *)
Lemma read_prefix_run f start items d m rs :
  spec_steps s (Machine f None None) (take d (mjoin (item_groups read_ops start items))) = Some (m, rs) →
  mc_fs m = f ∧
  ∀ j x, (j < d / 2)%nat → items !! j = Some x →
    ∃ v, at_fh s f (fh_of x) (ask f x) = Ok v ∧ rs !! (2 * j + 1)%nat = Some (payload v).
Proof.
  destruct (decide (length items <= d / 2)%nat) as [Hge|Hlt].
  { rewrite take_ge.
    2:{ pose proof (read_groups_length start items). pose proof (Nat.div_mod_eq d 2). lia. }
    intros H. destruct (read_groups_run f None None start items m rs H) as (? & _ & Hj). split; [done|].
    intros j x _. apply Hj. }
  assert (is_Some (items !! (d / 2)%nat)) as [y Hy] by (apply lookup_lt_is_Some; lia).
  rewrite <-(take_drop_middle _ _ _ Hy) at 1. rewrite item_groups_app. cbn [item_groups].
  rewrite join_app. change (mjoin (?g :: ?gs)) with (g ++ mjoin gs).
  set (pre := mjoin (item_groups read_ops start (take (d / 2) items))).
  assert (Hpre : Z.of_nat (length pre) = 2 * Z.of_nat (d / 2)).
  { unfold pre. rewrite read_groups_length, length_take. lia. }
  pose proof (Nat.div_mod_eq d 2) as Hd. pose proof (Nat.mod_upper_bound d 2 ltac:(lia)) as Hm.
  replace d with (length pre + d mod 2)%nat at 1 by lia. rewrite take_app_add.
  rewrite spec_steps_app. intros ([m1 r1] & H1 & ([m2 r2] & H2 & [= <- <-])%bind_Some)%bind_Some.
  destruct (read_groups_run f None None start _ m1 r1 H1) as (Hf & _ & Hj). split.
  - rewrite <-Hf. clear -H2 Hm. destruct (d mod 2)%nat as [|[|]]; [| |lia].
    + rewrite take_0 in H2. by injection H2 as <- _.
    + destruct m1. cbn in H2. by destruct (sp_putfh _ _ _); simplify_eq/=.
  - intros j x Hjd Hx. destruct (Hj j x) as (v & ? & Hv); [by rewrite lookup_take_lt by lia|].
    exists v. split; [done|]. by apply lookup_app_l_Some.
Qed.

Context (add : Compound.t → T → Z → Compound.t) `{Hshape : !BatchShape add 2 read_ops} (ops : list T).

Lemma read_chunk_file k len : Forall file_op (mjoin (chunk_groups read_ops ops k len)).
Proof.
  apply Forall_join. unfold chunk_groups, slice. apply Forall_drop, Forall_take. clear -Hfile. generalize 0.
  induction ops as [|x l IH]; intros i; cbn; constructor; [|done]. constructor; [done|]. constructor; [|done]. by rewrite Hfile.
Qed.

(** What an accepted reply to a chunk tells: nothing changed, and every completed
    item has its answer. *)
Lemma reads_exchanged k len w res w' : 0 <= k → 1 <= len <= Z.of_nat (length ops) - k →
  exchanged rpc (mjoin (chunk_groups read_ops ops k len)) w res w' →
  fs w' = fs w ∧ ∃ rs, complete res rs ∧
    ∀ j x, 0 <= j < Z.of_nat (completed_groups 2 res) → ops !! Z.to_nat (k + j) = Some x →
      ∃ v, at_fh s (fs w) (fh_of x) (ask (fs w) x) = Ok v ∧ rs !! (2 * Z.to_nat j + 1)%nat = Some (payload v).
Proof.
  intros Hk Hlen Hex. destruct (completed_range rpc 2 add read_ops ops k len w res w' Hk Hlen Hex) as (Hdl & _).
  destruct (exchanged_runs s rpc fs Himp _ w res w' Hex (read_chunk_file k len)) as (m & rs & Hst & Hfs & Hcomp & _).
  unfold chunk_groups in Hst. replace (Z.to_nat k) with (Z.to_nat (Z.of_nat (Z.to_nat k))) in Hst by lia.
  rewrite Nat2Z.id, <-item_groups_slice in Hst by lia.
  destruct (read_prefix_run _ _ _ _ _ _ Hst) as [Hf Hj]. split; [congruence|]. exists rs. split; [done|].
  intros j x Hjr Hx. apply Hj; [rewrite <-(completed_per 2) by lia; change (Z.of_nat 2) with 2; lia|].
  unfold slice. rewrite lookup_drop, lookup_take_lt by lia. by replace (Z.to_nat k + Z.to_nat j)%nat with (Z.to_nat (k + j)) by lia.
Qed.

(** The contract of a batch of reads. *)
Context (extract : nat → COMPOUND4res → Z → option (RpcResult R)) (f : F) (cl0 : NfsClient.t).
Context (good : T → R → Prop) (refused : RpcError.t → Prop).
Hypothesis Hextract : ∀ res rs j pos x v, complete res rs → ops !! pos = Some x → at_fh s f (fh_of x) (ask f x) = Ok v →
  rs !! (2 * Z.to_nat j + 1)%nat = Some (payload v) → 0 <= j →
  ∃ r, extract pos res j = Some r ∧ match r with Ok y => good x y | Err e => refused e end.

Definition reads_final (r : RpcResult (list R)) (cl : NfsClient.t) (w : W) : Prop :=
  same_limits cl0 cl ∧ fs w = f ∧
  match r with
  | Ok out => Forall2 good ops out
  | Err e => RpcError.is_transport e = true ∨ 0 <= RpcError.op_index e < Z.of_nat (length ops) ∨ refused e
  end.

Lemma reads_ok (tag : string) :
  runner_ok rpc tag 2 read_ops extract (λ cl _ w, Some (cl, w)) ops cl0
    (λ _ w, fs w = f) (λ _ w, fs w = f) (λ _, good) reads_final.
Proof.
  split.
  - done.
  - intros k len w res w' Hk Hlen Hw Hex done_.
    destruct (reads_exchanged k len w res w' Hk Hlen Hex) as (Hf & rs & Hcomp & Hall).
    rewrite Hw in Hf, Hall. split_and!; try done. intros j o x Hj Ho Hx.
    destruct (Hall j x Hj Hx) as (v & Hv & Hrs). destruct Ho as [Ho _].
    pose proof (lookup_lt_Some _ _ _ Hx). rewrite Ho.
    destruct (Hextract res rs j _ x v Hcomp Hx Hv Hrs ltac:(lia)) as (r & Hr & Hgood). exists r. split; [done|].
    destruct r; [done|]. intros cl Hs. split_and!; try done. auto.
  - intros k len w r w' Hk Hlen Hw (req & sid & q & Hr & Hops). exists k. split; [lia|].
    destruct (Himp _ _ _ _ _ _ _ Hr Hops (read_chunk_file k len)) as (d & m & rs & Hst & Hfs & _).
    unfold chunk_groups in Hst. replace (Z.to_nat k) with (Z.to_nat (Z.of_nat (Z.to_nat k))) in Hst by lia.
    rewrite Nat2Z.id, <-item_groups_slice in Hst by lia.
    destruct (read_prefix_run _ _ _ _ _ _ Hst) as [Hf _]. congruence.
  - intros o cl w Hs [Hlen Ho] Hw. split_and!; [done|done|]. apply Forall2_same_length_lookup. split; [lia|eauto].
  - intros k k' o cl w e Hs Hk Hk' _ Hw He. exists cl, w. split; [done|]. split_and!; [done|done|].
    destruct He as [[? _]|(-> & _ & ?)]; [by left|right; left; lia].
Qed.

Lemma reads_run (tag : string) fuel w : fs w = f → 0 <= NfsClient.max_ops cl0 < USIZE_MAX →
  (Z.of_nat (length ops) + 1) * (Z.of_nat (length ops) + 1) <= Z.of_nat fuel →
  ∃ r cl' w', BatchOps.batch_ops_fallible rpc xdr_len tag 2 add extract fuel cl0 ops w = Done (r, cl', w') ∧
    reads_final r cl' w'.
Proof.
  intros Hw Hmax Hfuel.
  by apply (batch_run_ok rpc Hrpc xdr_len tag 2 add read_ops extract _ ops cl0 _ _ (λ _, good) reads_final (reads_ok tag) Hmax).
Qed.
End Reads.

Section Readv.
Context {F W : Type} (s : nfs_spec F) (rpc : Compound.t → W → RpcResult COMPOUND4res * W) (fs : W → F).
Context (Hrpc : transport_ok rpc) (Himp : implements s rpc fs).
Context (xdr_len : Compound.t → Z) `{!XdrSizes xdr_len}.
Context (ops : list ReadOp) (f : F) (cl0 : NfsClient.t).
Hypothesis Hmax : 0 <= NfsClient.max_ops cl0 < USIZE_MAX.
Let n : Z := Z.of_nat (length ops).

(** The answer of the file service to a READ, no longer than was asked for. *)
Definition read_answer (op : ReadOp) (v : bytes * bool) : Prop :=
  meaning s f (rd_count op) (SRead (rd_fh op) (rd_stateid op) (rd_offset op) (rd_count op)) = Ok (f, v) ∧
  Z.of_nat (length v.1) <= rd_count op.

Definition readv_final (a : Readv.answer (W := W) (R := bytes * bool)) : Prop :=
  let '(r, cl, w) := a in
  same_limits cl0 cl ∧ fs w = f ∧
  match r with
  | Ok out => Forall2 read_answer ops out
  | Err e => RpcError.is_transport e = true ∨ 0 <= RpcError.op_index e < n
  end.

Record readv_inv (st : Readv.state (W := W) (R := bytes * bool)) : Prop := {
  ri_limits : same_limits cl0 (Readv.client st);
  ri_fs : fs (Readv.world st) = f;
  ri_start : 0 <= Readv.start_ st <= n;
  ri_results : Forall2 read_answer (take (Z.to_nat (Readv.start_ st)) ops) (Readv.results_ st);
}.

Lemma segment_le budget bytes l : (Readv.segment budget bytes l <= length l)%nat.
Proof. revert bytes. induction l as [|op l IH]; intros b; cbn; [done|]. case_match; [lia|]. specialize (IH (b + sat_add (rd_count op) 128)). lia. Qed.

(** Decoding one READ of a part. *)
Lemma readv_extract k len res rs j pos x v :
  0 <= k → 0 <= len → k + len <= n → complete res rs → slice (Z.to_nat k) (Z.to_nat (k + len)) ops !! pos = Some x →
  at_fh s f (rd_fh x) (sp_read s f (rd_fh x) (rd_stateid x) (rd_offset x) (rd_count x)) = Ok v →
  rs !! (2 * Z.to_nat j + 1)%nat = Some (RRead NFS_OK v.2 (vec_of v.1)) → 0 <= j →
  ∃ r, Readv.extract (λ _ data eof, Ok (data, eof)) ops k pos res j = Some r ∧
    match r with Ok y => read_answer x y | Err e => RpcError.is_transport e = true end.
Proof.
  intros Hk Hlen Hkn Hcomp Hx Hv Hrs Hj. destruct v as [data eof].
  destruct (complete_accessors _ _ _ _ Hcomp Hrs) as [Hd He]. rewrite vec_of_bytes in Hd.
  unfold slice in Hx. rewrite lookup_drop in Hx. apply lookup_take_Some in Hx as [Hx _].
  unfold Readv.extract, Single.read_result. replace (2 + 2 * j) with (1 + Z.of_nat (2 * Z.to_nat j + 1)) by lia.
  rewrite Hd. cbn [mbind option_bind]. rewrite He. cbn [mbind option_bind fst snd].
  replace (Z.to_nat (k + Z.of_nat pos)) with (Z.to_nat k + pos)%nat by lia. rewrite Hx. cbn [mbind option_bind].
  eexists. split; [reflexivity|]. unfold Single.validate_read_length.
  destruct (Z.ltb_spec (rd_count x) (Z.of_nat (length data))); [done|]. split; [|done].
  cbn [meaning]. rewrite Z.min_id. revert Hv. unfold at_fh, unchanged. repeat case_match; by intros [= ->].
Qed.

(** The results of one part. *)
Lemma readv_part fuel cl w k len : same_limits cl0 cl → fs w = f → 0 <= k → 0 <= len → k + len <= n →
  (n + 1) * (n + 1) <= Z.of_nat fuel →
  ∃ r cl' w', BatchOps.batch_ops_fallible rpc xdr_len "readv" 2 add_read
      (Readv.extract (λ _ data eof, Ok (data, eof)) ops k) fuel cl (slice (Z.to_nat k) (Z.to_nat (k + len)) ops) w =
      Done (r, cl', w') ∧ same_limits cl0 cl' ∧ fs w' = f ∧
    match r with
    | Ok out => Forall2 read_answer (slice (Z.to_nat k) (Z.to_nat (k + len)) ops) out
    | Err e => RpcError.is_transport e = true ∨ 0 <= RpcError.op_index e < len
    end.
Proof.
  intros Hs Hw Hk Hlen Hkn Hfuel. set (part := slice _ _ ops).
  assert (Hpl : Z.of_nat (length part) = len).
  { unfold part, slice. rewrite length_drop, length_take. unfold n in *. lia. }
  destruct (reads_run s rpc fs Hrpc Himp xdr_len rd_fh (λ op, ARead (rd_stateid op) (rd_offset op) (rd_count op))
    (λ f op, sp_read s f (rd_fh op) (rd_stateid op) (rd_offset op) (rd_count op))
    (λ v, RRead NFS_OK v.2 (vec_of v.1)) (λ _, eq_refl) (λ _ _ _, eq_refl) add_read part
    (Readv.extract (λ _ data eof, Ok (data, eof)) ops k) f cl read_answer (λ e, RpcError.is_transport e = true)
    (λ res rs j pos x v Hc Hx Hv Hrs Hj, readv_extract k len res rs j pos x v Hk Hlen Hkn Hc Hx Hv Hrs Hj)
    "readv" fuel w Hw) as (r & cl' & w' & E & Hs' & Hf & Hr).
  - destruct Hs as [-> _]. done.
  - rewrite Hpl. nia.
  - exists r, cl', w'. split; [exact E|]. split; [by eapply SendLemmas.same_limits_trans|]. split; [done|].
    destruct r as [o|e]; [done|]. rewrite Hpl in Hr. tauto.
Qed.

Lemma readv_round_ok fuel budget st : readv_inv st → Readv.start_ st < n → (n + 1) * (n + 1) <= Z.of_nat fuel →
  match Readv.round rpc xdr_len (λ _ data eof, Ok (data, eof)) fuel budget ops st with
  | Done (Again st') => readv_inv st' ∧ Readv.start_ st < Readv.start_ st'
  | Done (Return a) => readv_final a
  | _ => False
  end.
Proof.
  intros [Hs Hf Hst Hres] Hlt Hfuel. destruct st as [cl w k o]. cbn [Readv.client Readv.world Readv.start_ Readv.results_] in *.
  cbn [Readv.round]. pose proof (segment_le budget 0 (drop (Z.to_nat k) ops)) as Hseg. rewrite length_drop in Hseg.
  set (len := Z.of_nat (Readv.segment _ _ _)). assert (Hlen : 0 <= len <= n - k) by (unfold n, len in *; lia).
  destruct (Z.eqb_spec (k + len) k).
  { split_and!; [done|done|]. right. cbn. unfold n in *. lia. }
  destruct (readv_part fuel cl w k len Hs Hf ltac:(lia) ltac:(lia) ltac:(lia) Hfuel) as (r & cl' & w' & -> & Hs' & Hf' & Hr).
  destruct r as [part|e].
  - split; [|cbn; lia]. split; cbn; [done|done|lia|].
    replace (Z.to_nat (k + len)) with (Z.to_nat k + Z.to_nat len)%nat in * by lia.
    assert (take (Z.to_nat k + Z.to_nat len) ops = take (Z.to_nat k) ops ++
      slice (Z.to_nat k) (Z.to_nat k + Z.to_nat len) ops) as ->; [|by apply Forall2_app].
    unfold slice. rewrite <-(take_drop (Z.to_nat k) (take _ ops)) at 1. by rewrite take_take, Nat.min_l by lia.
  - split_and!; [done|done|]. destruct Hr as [?|?]; [by left|right]. cbn. lia.
Qed.

Lemma readv_loop_ok fuel budget turns st : readv_inv st → n - Readv.start_ st <= Z.of_nat turns →
  (n + 1) * (n + 1) <= Z.of_nat fuel →
  ∃ a, Readv.loop rpc xdr_len (λ _ data eof, Ok (data, eof)) turns fuel budget ops st = Done a ∧ readv_final a.
Proof.
  intros Hi Ht Hfuel. revert st Hi Ht. induction turns as [|turns IH]; intros st Hi Ht; cbn [Readv.loop]; fold n;
    pose proof (ri_start _ Hi); destruct (Z.ltb_spec (Readv.start_ st) n) as [Hlt|Hge]; try lia.
  2:{ pose proof (readv_round_ok fuel budget st Hi Hlt Hfuel) as Hr.
      destruct (Readv.round _ _ _ _ _ _ _) as [[st'|a]| |]; try done; [|by eauto]. destruct Hr as [Hi' Hlt']. apply IH; [done|lia]. }
  all: eexists; (split; [reflexivity|]); destruct Hi as [Hs Hf _ Hres]; split_and!; [done|done|].
  all: by rewrite take_ge in Hres by (unfold n in *; lia).
Qed.
End Readv.

(** C22: A vectored read returns what the files hold.  For every list of READs,
    every server and every transport, with any pattern of size rejections and
    lost replies, [readv] terminates without panicking and leaves the file
    system as it was; if it succeeds, it returns one result per READ, in order,
    each the file service's answer to that READ and no longer than was asked
    for; otherwise the transport failed or the error names one of the READs. *)
Theorem readv_correct {F W} (s : nfs_spec F) (rpc : Compound.t → W → RpcResult COMPOUND4res * W) (fs : W → F)
    (xdr_len : Compound.t → Z) `{!XdrSizes xdr_len} (ops : list ReadOp) (cl : NfsClient.t) (w : W) (fuel : nat) :
  transport_ok rpc → implements s rpc fs → 0 <= NfsClient.max_ops cl < USIZE_MAX →
  (Z.of_nat (length ops) + 1) * (Z.of_nat (length ops) + 1) <= Z.of_nat fuel →
  ∃ r cl' w', Readv.readv rpc xdr_len fuel cl ops w = Done (r, cl', w') ∧ fs w' = fs w ∧
    match r with
    | Ok out => Forall2 (λ op v,
        meaning s (fs w) (rd_count op) (SRead (rd_fh op) (rd_stateid op) (rd_offset op) (rd_count op)) =
          Ok (fs w, v) ∧ Z.of_nat (length v.1) <= rd_count op) ops out
    | Err e => RpcError.is_transport e = true ∨ 0 <= RpcError.op_index e < Z.of_nat (length ops)
    end.
Proof.
  intros Hrpc Himp Hmax Hfuel.
  destruct (readv_loop_ok s rpc fs Hrpc Himp xdr_len ops (fs w) cl Hmax fuel
    (sat_sub (NfsClient.read_compound_bytes cl) 128) fuel (Readv.State cl w 0 [])) as ([[r cl'] w'] & E & Hs & Hf & Hr).
  - split; cbn; [done|done|lia|constructor].
  - cbn. nia.
  - done.
  - exists r, cl', w'. split; [exact E|]. by split.
Qed.

Lemma complete_getattr res rs i a b : complete res rs → rs !! i = Some (RGetattr NFS_OK a (vec_of b)) →
  CompoundRes.getattr res (1 + Z.of_nat i) = Some b.
Proof. intros Hc Hi. rewrite <-(vec_of_bytes b). exact (complete_accessors _ _ _ _ Hc Hi). Qed.

Lemma complete_readlink res rs i b : complete res rs → rs !! i = Some (RReadlink NFS_OK (vec_of b)) →
  CompoundRes.readlink res (1 + Z.of_nat i) = Some b.
Proof. intros Hc Hi. rewrite <-(vec_of_bytes b). exact (complete_accessors _ _ _ _ Hc Hi). Qed.

(** Three READs against a server that takes four operations at a time. *)
Definition example_reads : list ReadOp :=
  [Read (bstr "fa") zero_stateid 0 2; Read (bstr "fa") zero_stateid 2 9; Read (bstr "fa") zero_stateid 1 1].

Lemma readv_correct_witness :
  ∃ r cl' w', Readv.readv (spec_server MemFs.spec 4) SendLemmas.example_xdr_len 16 LookupLemmas.example_lookup_client
      example_reads example_mem = Done (r, cl', w') ∧
    r = Ok [(bstr "da", false); (bstr "ta", true); (bstr "a", false)] ∧ w' = example_mem.
Proof.
  destruct (readv_correct MemFs.spec (spec_server MemFs.spec 4) id SendLemmas.example_xdr_len example_reads
    LookupLemmas.example_lookup_client example_mem 16) as (r & cl' & w' & E & Hf & _).
  - apply spec_server_transport; [apply MemFs.mem_spec_ok|reflexivity].
  - apply spec_server_implements, MemFs.mem_spec_ok.
  - by vm_compute.
  - by vm_compute.
  - exists r, cl', w'. split; [exact E|].
    assert (Hr : match Readv.readv (spec_server MemFs.spec 4) SendLemmas.example_xdr_len 16 LookupLemmas.example_lookup_client
        example_reads example_mem with
      Done (v, _, _) => v = Ok [(bstr "da", false); (bstr "ta", true); (bstr "a", false)] | _ => False end)
      by (vm_compute; reflexivity).
    rewrite E in Hr. split; [exact Hr|exact Hf].
Defined.

(** C23: The batched GETATTR and READLINK answer item by item.  For every server
    and transport, with any pattern of size rejections, resumed chunks and lost
    replies, they terminate without panicking and change nothing; a success
    holds, for every item and in order, what the operation on that one object
    would return; otherwise the transport failed or the error names one of the
    items. *)
Theorem read_batches_correct {F W} (s : nfs_spec F) (rpc : Compound.t → W → RpcResult COMPOUND4res * W) (fs : W → F)
    (xdr_len : Compound.t → Z) `{!XdrSizes xdr_len} (gops : list GetattrOp) (lops : list ReadlinkOp)
    (cl : NfsClient.t) (w : W) (fuel : nat) :
  transport_ok rpc → implements s rpc fs → 0 <= NfsClient.max_ops cl < USIZE_MAX →
  let batch {T R} (ops : list T) (a : outcome (RpcResult (list R) * NfsClient.t * W)) (one : T → single R) :=
    (Z.of_nat (length ops) + 1) * (Z.of_nat (length ops) + 1) <= Z.of_nat fuel →
    ∃ r cl' w', a = Done (r, cl', w') ∧ fs w' = fs w ∧
      match r with
      | Ok out => Forall2 (λ op v, meaning s (fs w) 0 (one op) = Ok (fs w, v)) ops out
      | Err e => RpcError.is_transport e = true ∨ 0 <= RpcError.op_index e < Z.of_nat (length ops)
      end in
  batch gops (getattr_many rpc xdr_len fuel cl gops w) (λ op, SGetattr (ga_fh op) (ga_attrs op)) ∧
  batch lops (readlink_many rpc xdr_len fuel cl lops w) (λ op, SReadlink (rl_fh op)).
Proof.
  intros Hrpc Himp Hmax batch. split; intros Hfuel.
  - destruct (reads_run s rpc fs Hrpc Himp xdr_len ga_fh (λ op, AGetattr (Compound.bitmap (ga_attrs op)))
      (λ f op, sp_getattr s f (ga_fh op) (Compound.bitmap (ga_attrs op))) (λ v, RGetattr NFS_OK v.1 (vec_of v.2))
      (λ _, eq_refl) (λ _ _ _, eq_refl) add_getattr gops
      (λ _ res i, Ok <$> CompoundRes.getattr res (2 + 2 * i)) (fs w) cl
      (λ op v, meaning s (fs w) 0 (SGetattr (ga_fh op) (ga_attrs op)) = Ok (fs w, v)) (λ _, False))
      with "getattrv" fuel w as (r & cl' & w' & E & _ & Hf & Hr); try done.
    + intros res rs j pos x v Hc _ Hv Hrs Hj. replace (2 + 2 * j) with (1 + Z.of_nat (2 * Z.to_nat j + 1)) by lia.
      rewrite (complete_getattr _ _ _ _ _ Hc Hrs). eexists. split; [reflexivity|]. cbn [meaning]. revert Hv. unfold at_fh, unchanged.
      destruct (sp_putfh _ _ _); [|done]. intros ->. done.
    + exists r, cl', w'. split; [exact E|]. split; [done|]. destruct r; [done|]. tauto.
  - destruct (reads_run s rpc fs Hrpc Himp xdr_len rl_fh (λ op, AReadlink)
      (λ f op, sp_readlink s f (rl_fh op)) (λ v, RReadlink NFS_OK (vec_of v))
      (λ _, eq_refl) (λ _ _ _, eq_refl) add_readlink lops
      (λ _ res i, Ok <$> CompoundRes.readlink res (2 + 2 * i)) (fs w) cl
      (λ op v, meaning s (fs w) 0 (SReadlink (rl_fh op)) = Ok (fs w, v)) (λ _, False))
      with "readlinkv" fuel w as (r & cl' & w' & E & _ & Hf & Hr); try done.
    + intros res rs j pos x v Hc _ Hv Hrs Hj. replace (2 + 2 * j) with (1 + Z.of_nat (2 * Z.to_nat j + 1)) by lia.
      rewrite (complete_readlink _ _ _ _ Hc Hrs). eexists. split; [reflexivity|]. cbn [meaning]. revert Hv. unfold at_fh, unchanged.
      destruct (sp_putfh _ _ _); [|done]. by intros ->.
    + exists r, cl', w'. split; [exact E|]. split; [done|]. destruct r; [done|]. tauto.
Qed.

Definition example_getattrs : list GetattrOp :=
  [Getattr (bstr "fa") [4]; Getattr (bstr "root") [4]; Getattr (bstr "fa") [4]].

Lemma read_batches_correct_witness :
  ∃ r cl' w', getattr_many (spec_server MemFs.spec 4) SendLemmas.example_xdr_len 25 LookupLemmas.example_lookup_client
      example_getattrs example_mem = Done (r, cl', w') ∧
    r = Ok [be_bytes 8 4; be_bytes 8 0; be_bytes 8 4] ∧ w' = example_mem.
Proof.
  destruct (read_batches_correct MemFs.spec (spec_server MemFs.spec 4) id SendLemmas.example_xdr_len
    example_getattrs [] LookupLemmas.example_lookup_client example_mem 25) as [H _].
  - apply spec_server_transport; [apply MemFs.mem_spec_ok|reflexivity].
  - apply spec_server_implements, MemFs.mem_spec_ok.
  - by vm_compute.
  - destruct H as (r & cl' & w' & E & Hf & _); [by vm_compute|]. exists r, cl', w'. split; [exact E|].
    assert (Hr : match getattr_many (spec_server MemFs.spec 4) SendLemmas.example_xdr_len 25
        LookupLemmas.example_lookup_client example_getattrs example_mem with
      Done (v, _, _) => v = Ok [be_bytes 8 4; be_bytes 8 0; be_bytes 8 4] | _ => False end)
      by (vm_compute; reflexivity).
    rewrite E in Hr. split; [exact Hr|exact Hf].
Defined.
End ReadLemmas.
