(* ===== verification/Mutations.v ===== *)
(** * Batches of mutations, as the operations one after the other

    The batched SETATTR, RENAME, LINK, CREATE, CLOSE, WRITE and COPY of
    [crates/vfsi-nfs/src/client.rs] against the abstract file service: the
    theorem shows that a batch is the operations on the single objects, one
    after the other, however it is cut into compounds. *)
From stdpp Require Import base numbers list list_numbers gmap strings.
From S2P Require Import Prelude Errors Planner Types Compound Session Client IoProgress Loops Exchange Server Batch BatchOps BatchRun BatchOnce Resolve Single BatchSpec.

(** A batch, by the answer of an item and of the whole. *)
Inductive batch : Type → Type → Type :=
| BSetattr (ops : list SetattrOp) : batch unit unit
| BRename (ops : list RenameOp) : batch unit unit
| BLink (ops : list LinkOp) : batch unit unit
| BCreate (ops : list CreateOp) : batch unit unit
| BClose (ops : list CloseOp) : batch unit unit
| BWrite (ops : list WriteOp) : batch (Z * Z) (list (Z * Z))
| BCopy (ops : list CopyOp) : batch Z (list Z).

Definition run_batch {W R A} (rpc : Compound.t → W → RpcResult COMPOUND4res * W) (xdr_len : Compound.t → Z)
    (fuel : nat) (cl : NfsClient.t) (b : batch R A) (w : W) : outcome (RpcResult A * NfsClient.t * W) :=
  match b in batch R A return outcome (RpcResult A * NfsClient.t * W) with
  | BSetattr ops => setattr_many rpc xdr_len fuel cl ops w
  | BRename ops => rename_many rpc xdr_len fuel cl ops w
  | BLink ops => link_many rpc xdr_len fuel cl ops w
  | BCreate ops => create_many rpc xdr_len fuel cl ops w
  | BClose ops => close_many_slot rpc xdr_len User fuel cl ops w
  | BWrite ops => writev rpc xdr_len fuel cl ops w
  | BCopy ops => copy_many rpc xdr_len fuel cl ops w
  end.

(** The answer of a batch, of those of its items. *)
Definition gather {R A} (b : batch R A) : list R → A :=
  match b in batch R A return list R → A with
  | BSetattr _ | BRename _ | BLink _ | BCreate _ | BClose _ => λ _, tt
  | BWrite _ | BCopy _ => id
  end.

Section Spec.
Context {F : Type} (s : nfs_spec F).

(** What an operation on one object does to the file system, and its answer. *)
Definition step_of {R} (op : single R) (f : F) : result Z (F * R) := meaning s f 0 op.
Definition create_step (op : CreateOp) (f : F) : result Z (F * unit) :=
  match step_of (SCreate (cr_dir op) (cr_name op) (cr_ftype op) (cr_linkdata op)) f with
  | Ok (f, _) => Ok (f, tt)
  | Err st => Err st
  end.
Definition copy_step (op : CopyOp) (f : F) : result Z (F * Z) :=
  at_fh s f (cp_src_fh op) (at_fh s f (cp_dst_fh op)
    (sp_copy s f (cp_src_fh op) (cp_dst_fh op) (cp_src_stateid op) (cp_dst_stateid op) (cp_src_offset op)
       (cp_dst_offset op) (cp_count op))).

(** The steps of a batch. *)
Definition steps_of {R A} (b : batch R A) : list (F → result Z (F * R)) :=
  match b in batch R A return list (F → result Z (F * R)) with
  | BSetattr ops => (λ op, step_of (SSetattrOwnership (sa_fh op) (sa_mode op) (sa_size op) (sa_uid op, sa_gid op)
                                        (sa_atime op) (sa_mtime op))) <$> ops
  | BRename ops => (λ op, step_of (SRename (rn_srcdir op) (rn_oldname op) (rn_dstdir op) (rn_newname op))) <$> ops
  | BLink ops => (λ op, step_of (SLink (ln_dstdir op) (ln_src op) (ln_newname op))) <$> ops
  | BCreate ops => create_step <$> ops
  | BClose ops => (λ op, step_of (SClose (cl_fh op) (cl_stateid op))) <$> ops
  | BWrite ops => (λ op, step_of (SWrite (wr_fh op) (wr_stateid op) (wr_offset op) (wr_data op))) <$> ops
  | BCopy ops => copy_step <$> ops
  end.

(** How a batch may end, [f] and [f'] being the file system before and after. *)
Definition batch_refined {R A} (b : batch R A) (f : F) (r : RpcResult A) (f' : F) : Prop :=
  match r with
  | Ok a => ∃ vs, answers (steps_of b) f = Ok (f', vs) ∧ a = gather b vs
  | Err e =>
      ∃ k vs, answers (take k (steps_of b)) f = Ok (f', vs) ∧
        (RpcError.is_transport e = true ∨ RpcError.op_index e = Z.of_nat k ∧ (k < length (steps_of b))%nat)
  end.
End Spec.

Module MutationLemmas.
Import ExchangeLemmas ServerLemmas SingleLemmas BatchOpsLemmas BatchRunLemmas BatchOnceLemmas BatchSpecLemmas.

(** A group that moves filehandles and then acts. *)
Lemma performs_last {F} (s : nfs_spec F) {T R} (pre : T → list argop) (last : T → argop) per
    (act : T → F → result Z (F * R)) (payload : R → list resop → Prop) :
  (∀ x, length (pre x) = per) → (∀ x, Forall moves (pre x)) → (∀ x, file_op (last x)) →
  (∀ x m m' rs, spec_steps s m (pre x ++ [last x]) = Some (m', rs) → ∃ v, act x (mc_fs m) = Ok (mc_fs m', v) ∧ payload v rs) →
  performs s (λ x _, pre x ++ [last x]) (S per) (λ x _, act x) payload true.
Proof.
  intros Hlen Hpre Hlast Hact. split; [|lia| |by eauto|].
  - intros x _. rewrite length_app, Hlen. cbn. lia.
  - intros x _. apply Forall_app. split; [|by constructor; [apply Hlast|]].
    eapply Forall_impl; [apply Hpre|]. by intros [].
  - intros x _ k m m' rs Hk Hst. left. rewrite take_app_le in Hst by (rewrite Hlen; lia).
    apply spec_steps_result in Hst. eapply moves_fs; [|exact Hst]. by apply Forall_take.
Qed.

(** Running the machine through a group. *)
Ltac group_runs :=
  intros x [f c sv] m' rs H; cbn in H |- *; unfold step_of, create_step, copy_step, at_fh in *;
  cbn [meaning]; machine; eexists; (split; [reflexivity|]); done.

Definition any_answer {R} (_ : R) (_ : list resop) : Prop := True.

(** The groups of the batches. *)
Lemma performs_setattr {F} (s : nfs_spec F) :
  performs s (λ op _, [APutFh (sa_fh op); ASetattr zero_stateid (Compound.setattr_fattr (sa_mode op) (sa_size op) (sa_uid op)
    (sa_gid op) (sa_atime op) (sa_mtime op))]) 2
    (λ op _, step_of s (SSetattrOwnership (sa_fh op) (sa_mode op) (sa_size op) (sa_uid op, sa_gid op) (sa_atime op) (sa_mtime op)))
    any_answer true.
Proof.
  apply (performs_last s (λ op, [_]) (λ op, ASetattr zero_stateid _) 1); try done; [by repeat constructor|]. group_runs.
Qed.

Lemma performs_rename {F} (s : nfs_spec F) :
  performs s (λ op _, [APutFh (rn_srcdir op); ASaveFh; APutFh (rn_dstdir op); ARename (rn_oldname op) (rn_newname op)]) 4
    (λ op _, step_of s (SRename (rn_srcdir op) (rn_oldname op) (rn_dstdir op) (rn_newname op))) any_answer true.
Proof.
  apply (performs_last s (λ op, [_; _; _]) (λ op, ARename (rn_oldname op) (rn_newname op)) 3); try done; [by repeat constructor|].
  group_runs.
Qed.

Lemma performs_link {F} (s : nfs_spec F) :
  performs s (λ op _, [APutFh (ln_src op); ASaveFh; APutFh (ln_dstdir op); ALink (ln_newname op)]) 4
    (λ op _, step_of s (SLink (ln_dstdir op) (ln_src op) (ln_newname op))) any_answer true.
Proof.
  apply (performs_last s (λ op, [_; _; _]) (λ op, ALink (ln_newname op)) 3); try done; [by repeat constructor|]. group_runs.
Qed.

#[global] Instance add_create_shape : BatchShape add_create 2 (λ op _,
  [APutFh (cr_dir op); ACreate (cr_name op) (object_type (cr_ftype op) (cr_linkdata op))]).
Proof.
  split; try done; intros c op i; unfold add_create, Compound.create; destruct (cr_linkdata op); cbn; try done;
    by rewrite <-!app_assoc.
Qed.

Lemma performs_create {F} (s : nfs_spec F) :
  performs s (λ op _, [APutFh (cr_dir op); ACreate (cr_name op) (object_type (cr_ftype op) (cr_linkdata op))]) 2
    (λ op _, create_step s op) any_answer true.
Proof.
  apply (performs_last s (λ op, [_]) (λ op, ACreate (cr_name op) (object_type (cr_ftype op) (cr_linkdata op))) 1); try done;
    [by repeat constructor|]. group_runs.
Qed.

Lemma performs_close {F} (s : nfs_spec F) :
  performs s (λ op _, [APutFh (cl_fh op); AClose 1 (cl_stateid op)]) 2
    (λ op _, step_of s (SClose (cl_fh op) (cl_stateid op))) any_answer true.
Proof.
  apply (performs_last s (λ op, [_]) (λ op, AClose 1 (cl_stateid op)) 1); try done; [by repeat constructor|]. group_runs.
Qed.

Lemma performs_write {F} (s : nfs_spec F) :
  performs s (λ op _, [APutFh (wr_fh op); AWrite (wr_stateid op) (wr_offset op) FILE_SYNC4 (wr_data op)]) 2
    (λ op _, step_of s (SWrite (wr_fh op) (wr_stateid op) (wr_offset op) (wr_data op)))
    (λ v rs, rs !! 1%nat = Some (RWrite NFS_OK v.1 v.2)) true.
Proof.
  apply (performs_last s (λ op, [_]) (λ op, AWrite (wr_stateid op) (wr_offset op) FILE_SYNC4 (wr_data op)) 1); try done;
    [by repeat constructor|]. group_runs.
Qed.

Lemma performs_copy {F} (s : nfs_spec F) :
  performs s (λ op _, [APutFh (cp_src_fh op); ASaveFh; APutFh (cp_dst_fh op);
      ACopy (cp_src_stateid op) (cp_dst_stateid op) (cp_src_offset op) (cp_dst_offset op) (cp_count op)]) 4
    (λ op _, copy_step s op) (λ v rs, rs !! 3%nat = Some (RCopy NFS_OK v)) true.
Proof.
  apply (performs_last s (λ op, [_; _; _]) (λ op, ACopy (cp_src_stateid op) (cp_dst_stateid op) (cp_src_offset op)
    (cp_dst_offset op) (cp_count op)) 3); try done; [by repeat constructor|]. group_runs.
Qed.

Section Runner.
Context {F W : Type} (s : nfs_spec F) (rpc : Compound.t → W → RpcResult COMPOUND4res * W) (fs : W → F).
Context (Hrpc : transport_ok rpc) (Himp : implements s rpc fs).
Context (xdr_len : Compound.t → Z) `{!XdrSizes xdr_len}.

(** A batch whose items act once each, and what its answers make. *)
Lemma batch_refines {T R A} (b : batch R A) tag per add item_ops `{!BatchShape add (Z.of_nat per) item_ops}
    (act : T → F → result Z (F * R)) payload (extract : COMPOUND4res → Z → option R) (ops : list T) cl w fuel :
  performs s item_ops per (λ x _, act x) payload true →
  (∀ res rs j v, complete res rs → payload v (take per (drop (j * per) rs)) → extract res (Z.of_nat j) = Some v) →
  steps_of s b = act <$> ops →
  0 <= NfsClient.max_ops cl < USIZE_MAX →
  let n := Z.of_nat (length (steps_of s b)) in
  (n + 1) * (n + 1) <= Z.of_nat fuel →
  ∃ r cl' w', BatchOps.batch_ops rpc xdr_len tag (Z.of_nat per) add extract fuel cl ops w = Done (r, cl', w') ∧
    same_limits cl cl' ∧ batch_refined s b (fs w) (match r with Ok vs => Ok (gather b vs) | Err e => Err e end) (fs w').
Proof.
  intros Hperf Hext Hsteps Hmax n Hfuel. unfold n in Hfuel. rewrite Hsteps, length_fmap in Hfuel.
  destruct (batch_spec_run s rpc fs Hrpc Himp xdr_len tag per add item_ops (λ x _, act x) payload true Hperf (λ _, eq_refl)
    (λ _ res i, Ok <$> extract res i)
    ltac:(intros res rs j v pos Hc Hp; cbn beta; by rewrite (Hext _ _ _ _ Hc Hp))
    ops cl (fs w) (λ cl (_ : list R) (w : W), Some (cl, w)) (λ (_ : list R) (_ : NfsClient.t) (w : W) (_ : NfsClient.t) (w' : W), w = w')
    ltac:(by eauto) fuel w eq_refl Hmax Hfuel) as (r & cl' & w' & E & Hs & Hfin).
  assert (Hgs : item_groups (λ x (_ : Z), act x) 0 ops = act <$> ops).
  { generalize 0. clear. induction ops as [|x l IH]; intros i; cbn; [done|]. by rewrite IH. }
  rewrite Hgs, <-Hsteps in Hfin. exists r, cl', w'. split; [exact E|]. split; [done|]. destruct r as [vs|e].
  - by exists vs.
  - destruct Hfin as (k & k' & cl1 & w1 & vs & Hk & Hvs & -> & Hwhy). exists k', vs. split; [done|].
    destruct Hwhy as [[? _]|(? & ? & [->|[? _]])]; [by left|right|done]. by rewrite Hsteps, length_fmap.
Qed.

(** The unit answer of a batch that discards those of its items. *)
Lemma discard_refines (b : batch unit unit) cl w a :
  (∃ r cl' w', a = Done (r, cl', w') ∧ same_limits cl cl' ∧
     batch_refined s b (fs w) (match r with Ok vs => Ok (gather b vs) | Err e => Err e end) (fs w')) →
  ∃ r cl' w', discard a = Done (r, cl', w') ∧ same_limits cl cl' ∧ batch_refined s b (fs w) r (fs w').
Proof.
  intros (r & cl' & w' & -> & Hs & Hr). eexists _, cl', w'. split; [reflexivity|]. split; [done|].
  destruct r as [vs|e]; [|done]. by destruct (gather b vs).
Qed.

(** The answer of a batch that hands over those of its items. *)
Lemma keep_refines {R} (b : batch R (list R)) cl w a : (∀ vs, gather b vs = vs) →
  (∃ r cl' w', a = Done (r, cl', w') ∧ same_limits cl cl' ∧
     batch_refined s b (fs w) (match r with Ok vs => Ok (gather b vs) | Err e => Err e end) (fs w')) →
  ∃ r cl' w', a = Done (r, cl', w') ∧ same_limits cl cl' ∧ batch_refined s b (fs w) r (fs w').
Proof.
  intros Hid (r & cl' & w' & -> & Hs & Hr). exists r, cl', w'. split; [done|]. split; [done|].
  destruct r as [vs|e]; [|done]. by rewrite Hid in Hr.
Qed.

Lemma run_batch_refines {R A} (b : batch R A) (cl : NfsClient.t) (w : W) (fuel : nat) :
  0 <= NfsClient.max_ops cl < USIZE_MAX →
  let n := Z.of_nat (length (steps_of s b)) in
  (n + 1) * (n + 1) <= Z.of_nat fuel →
  ∃ r cl' w', run_batch rpc xdr_len fuel cl b w = Done (r, cl', w') ∧ same_limits cl cl' ∧
    batch_refined s b (fs w) r (fs w').
Proof.
  intros Hmax n Hfuel.
  destruct b as [ops|ops|ops|ops|ops|ops|ops]; cbn [run_batch].
  - apply (discard_refines (BSetattr ops)). eapply (batch_refines (BSetattr ops) "setattrv" 2 add_setattr);
      [apply _|apply performs_setattr|by intros ??? []|done..].
  - apply (discard_refines (BRename ops)). eapply (batch_refines (BRename ops) "renamev" 4 add_rename);
      [apply _|apply performs_rename|by intros ??? []|done..].
  - apply (discard_refines (BLink ops)). eapply (batch_refines (BLink ops) "linkv" 4 add_link);
      [apply _|apply performs_link|by intros ??? []|done..].
  - apply (discard_refines (BCreate ops)). eapply (batch_refines (BCreate ops) "createv" 2 add_create);
      [apply _|apply performs_create|by intros ??? []|done..].
  - destruct (discard_refines (BClose ops) cl w
      (BatchOps.batch_ops rpc xdr_len "closev" 2 (add_close User 1) (λ _ _, Some tt) fuel cl ops w)) as (r & cl' & w' & E & Hs & Hr).
    { eapply (batch_refines (BClose ops) "closev" 2 (add_close User 1)); [apply _|apply performs_close|by intros ??? []|done..]. }
    exists r, cl', w'. split; [|done]. unfold close_many_slot. rewrite E. by destruct r as [[]|].
  - apply (keep_refines (BWrite ops)); [done|]. eapply (batch_refines (BWrite ops) "writev" 2 add_write); [apply _|apply performs_write| |done..].
    intros res rs j [k c] Hc Hp. apply lookup_take_Some in Hp as [Hp _]. rewrite lookup_drop in Hp.
    replace (2 + 2 * Z.of_nat j) with (1 + Z.of_nat (j * 2 + 1)) by lia. exact (complete_accessors _ _ _ _ Hc Hp).
  - apply (keep_refines (BCopy ops)); [done|]. eapply (batch_refines (BCopy ops) "copyv" 4 add_copy); [apply _|apply performs_copy| |done..].
    intros res rs j k Hc Hp. apply lookup_take_Some in Hp as [Hp _]. rewrite lookup_drop in Hp.
    replace (4 + 4 * Z.of_nat j) with (1 + Z.of_nat (j * 4 + 3)) by lia. exact (complete_accessors _ _ _ _ Hc Hp).
Qed.
End Runner.

(** C10: A batch of mutations is the single operations, one after the other.  For
    the batched SETATTR, RENAME, LINK, CREATE, CLOSE, WRITE and COPY, every server
    and every transport, with any pattern of size rejections, failures and lost
    replies, the batch terminates; if it succeeds, the file system is what the
    operations on the single objects lead to, in the caller's order, and the
    counts it returns are theirs; if it reports an item, the file system is what
    the items before that one lead to; and if the transport failed, it is what
    some prefix of the items leads to. *)
Theorem batched_mutations_refine {F W R A} (s : nfs_spec F) (rpc : Compound.t → W → RpcResult COMPOUND4res * W) (fs : W → F)
    (xdr_len : Compound.t → Z) `{!XdrSizes xdr_len} (b : batch R A) (cl : NfsClient.t) (w : W) (fuel : nat) :
  transport_ok rpc → implements s rpc fs → 0 <= NfsClient.max_ops cl < USIZE_MAX →
  let n := Z.of_nat (length (steps_of s b)) in
  (n + 1) * (n + 1) <= Z.of_nat fuel →
  ∃ r cl' w', run_batch rpc xdr_len fuel cl b w = Done (r, cl', w') ∧ batch_refined s b (fs w) r (fs w').
Proof.
  intros Hrpc Himp Hmax n Hfuel.
  destruct (run_batch_refines s rpc fs Hrpc Himp xdr_len b cl w fuel Hmax Hfuel) as (r & cl' & w' & ? & _ & ?).
  by exists r, cl', w'.
Qed.

(** Three renames, the last of a name that is gone, against a server that takes
    four operations at a time. *)
Definition example_renames : batch unit unit :=
  BRename [Rename (bstr "root") (bstr "a") (bstr "root") (bstr "b"); Rename (bstr "root") (bstr "b") (bstr "root") (bstr "c");
           Rename (bstr "root") (bstr "a") (bstr "root") (bstr "d")].

Lemma batched_mutations_refine_witness :
  ∃ r cl' w', run_batch (spec_server MemFs.spec 4) SendLemmas.example_xdr_len 16 LookupLemmas.example_lookup_client
      example_renames example_mem = Done (r, cl', w') ∧
    r = Err (RpcError.op 2 MemFs.NOENT) ∧
    ∃ vs, answers (take 2 (steps_of MemFs.spec example_renames)) example_mem = Ok (w', vs).
Proof.
  destruct (batched_mutations_refine MemFs.spec (spec_server MemFs.spec 4) id SendLemmas.example_xdr_len example_renames
    LookupLemmas.example_lookup_client example_mem 16) as (r & cl' & w' & E & Hf).
  - apply spec_server_transport; [apply MemFs.mem_spec_ok|reflexivity].
  - apply spec_server_implements, MemFs.mem_spec_ok.
  - by vm_compute.
  - by vm_compute.
  - exists r, cl', w'. split; [exact E|].
    assert (Hr : match run_batch (spec_server MemFs.spec 4) SendLemmas.example_xdr_len 16 LookupLemmas.example_lookup_client
        example_renames example_mem with
      Done (v, _, _) => v = Err (RpcError.op 2 MemFs.NOENT) | _ => False end) by (vm_compute; reflexivity).
    rewrite E in Hr. subst r. split; [reflexivity|]. destruct Hf as (k & vs & Hf & [Hk|[Hk _]]); [discriminate Hk|].
    assert (k = 2%nat) as -> by (cbn in Hk; lia). by exists vs.
Defined.
End MutationLemmas.
