(* ===== verification/Opens.v ===== *)
(** * Opening and closing files

    Models the OPEN and CLOSE operations of [crates/vfsi-nfs/src/client.rs]: one
    file at a time ([open], [open_path], [open_with_mode], [close],
    [close_path]) and in batches ([open_many], [open_many_path], [close_many]),
    for the two open owners of a session, with the repair of the attributes an
    exclusive create stores its verifier in, and the release of what a failed
    batch had opened. *)
From stdpp Require Import base numbers list list_numbers gmap strings.
From S2P Require Import Prelude Errors Planner Compound Session Client IoProgress Loops Exchange Server Batch BatchOps BatchRun BatchOnce Resolve Single BatchSpec Mutations.

Inductive OpenCreate := ONoCreate | OExclusive | OGuarded | OUnchecked.
#[global] Instance OpenCreate_eq_dec : EqDecision OpenCreate.
Proof. solve_decision. Defined.

Record OpenOp := Open { op_dir : nfs_fh4; op_name : bytes; op_access : Z; op_create : OpenCreate }.

Definition OPEN4_SHARE_DENY_NONE : Z := 0.

(** The attributes an exclusive create may have used to store its verifier. *)
Record VerifierStorageAttrs := StorageAttrs { vs_mode : bool; vs_atime : bool; vs_mtime : bool }.

Definition attrset_has (attrset : bitmap4) (attribute : Z) : bool :=
  let word := attribute / 32 in
  let '(m0, m1, m2) := bitmap4_map attrset in
  let value := if word =? 0 then m0 else if word =? 1 then m1 else m2 in
  (word <? bitmap4_len attrset) && (word <? 3) && negb (Z.land value (Z.shiftl 1 (attribute mod 32)) =? 0).

Definition verifier_storage_attrs (attrset : bitmap4) : VerifierStorageAttrs :=
  StorageAttrs (attrset_has attrset FATTR4_MODE)
    (attrset_has attrset FATTR4_TIME_ACCESS || attrset_has attrset FATTR4_TIME_ACCESS_SET)
    (attrset_has attrset FATTR4_TIME_MODIFY || attrset_has attrset FATTR4_TIME_MODIFY_SET).

Definition any_storage (attrs : VerifierStorageAttrs) : bool := vs_mode attrs || vs_atime attrs || vs_mtime attrs.

(** [bool::then_some]. *)
Definition then_some {A} (b : bool) (v : A) : option A := if b then Some v else None.

Definition verifier_cleanup_setattr (fh : nfs_fh4) (attrs : VerifierStorageAttrs) (mode : option Z)
    (timestamp : Z * Z) : SetattrOp :=
  Setattr fh (match mode with Some m => Some m | None => then_some (vs_mode attrs) 384 (* 0o600 *) end) None None None
    (then_some (vs_atime attrs) timestamp) (then_some (vs_mtime attrs) timestamp).

(** [make_open_how]; the verifier is the next value of a counter the whole
    process shares, an argument here. *)
Definition empty_fattr : fattr4 := FAttr (Bitmap 0 (0, 0, 0)) [].
Definition make_open_how (create : OpenCreate) (verifier : verifier4) : openflag4 :=
  match create with
  | ONoCreate => NoCreate
  | OExclusive => CreateExclusive verifier
  | OGuarded => CreateGuarded empty_fattr
  | OUnchecked => CreateUnchecked empty_fattr
  end.

Section Operations.
Context {W : Type} (rpc : Compound.t → W → RpcResult COMPOUND4res * W) (xdr_len : Compound.t → Z).
(** The verifiers drawn for the items of a batch, and the clock. *)
Context (verifier : Z → verifier4) (now : Z * Z).

Definition clientid (cl : NfsClient.t) : Z := Session.clientid (NfsClient.session cl).

(** ** CLOSE *)

Definition close_many (fuel : nat) (cl : NfsClient.t) (ops : list CloseOp) (w : W) :=
  close_many_slot rpc xdr_len User fuel cl ops w.
(** [close_many_cleanup_slot] without fault injection. *)
Definition close_many_cleanup_slot (slot : OwnerSlot) (fuel : nat) (cl : NfsClient.t) (ops : list CloseOp) (w : W) :=
  close_many_slot rpc xdr_len slot fuel cl ops w.
Definition close_many_path := close_many_cleanup_slot PathSlot.
Definition close_unregistered_many := close_many_cleanup_slot User.

(** [match slot { User => close_many, Path => close_many_path }]. *)
Definition close_opened (slot : OwnerSlot) (fuel : nat) (cl : NfsClient.t) (ops : list CloseOp) (w : W) :=
  match slot with User => close_many fuel cl ops w | PathSlot => close_many_path fuel cl ops w end.

(** ** OPEN of one file *)

(** The sequence id and the owner an OPEN uses. *)
Definition open_owner_of (cl : NfsClient.t) (slot : OwnerSlot) : Z * bytes * NfsClient.t :=
  match slot with
  | User => let '(name, cl) := NfsClient.next_public_open_owner_name cl in (0, name, cl)
  | PathSlot => (ow_seqid (Single.path_owner cl), ow_name (Single.path_owner cl), cl)
  end.

Definition opened_at (res : COMPOUND4res) (i : Z) : option (nfs_fh4 * stateid4 * VerifierStorageAttrs) :=
  st ← CompoundRes.open res i; mask ← CompoundRes.open_attrset res i; fh ← CompoundRes.getfh res (i + 1);
  Some (fh, st, verifier_storage_attrs mask).

Definition open_slot (fuel : nat) (cl : NfsClient.t) (dir : nfs_fh4) (name : bytes) (access : Z)
    (create : OpenCreate) (slot : OwnerSlot) (post_create_mode : option Z) (w : W)
    : outcome (RpcResult (nfs_fh4 * stateid4) * NfsClient.t * W) :=
  let '(seqid, owner, cl) := open_owner_of cl slot in
  let c := Compound.getfh (Compound.open_claim_null (Single.on "open" dir) seqid access OPEN4_SHARE_DENY_NONE
             (clientid cl) owner (make_open_how create (verifier 0)) name) in
  '(r, cl, w) ← or_panic (NfsOps.exchange_one rpc xdr_len cl c (λ res, opened_at res 2) w);
  match r with
  | Err e => Done (Err e, cl, w)
  | Ok (fh, stateid, attrs) =>
      let cl := match slot with
                | PathSlot => set_path_seqid cl (wrapping_add32 (ow_seqid (Single.path_owner cl)) 1)
                | User => cl
                end in
      if bool_decide (create = OExclusive) && (bool_decide (is_Some post_create_mode) || any_storage attrs) then
        '(r, cl, w) ← setattr_many rpc xdr_len fuel cl [verifier_cleanup_setattr fh attrs post_create_mode now] w;
        match r with
        | Err error =>
            '(_, cl, w) ← close_opened slot fuel cl [Close fh stateid] w;
            Done (Err error, cl, w)
        | Ok _ => Done (Ok (fh, stateid), cl, w)
        end
      else Done (Ok (fh, stateid), cl, w)
  end.

Definition open (fuel : nat) (cl : NfsClient.t) (dir : nfs_fh4) (name : bytes) (access : Z) (create : OpenCreate) (w : W) :=
  open_slot fuel cl dir name access create User None w.
Definition open_path (fuel : nat) (cl : NfsClient.t) (dir : nfs_fh4) (name : bytes) (access : Z) (create : OpenCreate) (w : W) :=
  open_slot fuel cl dir name access create PathSlot None w.
Definition open_with_mode (fuel : nat) (cl : NfsClient.t) (dir : nfs_fh4) (name : bytes) (access : Z)
    (create : OpenCreate) (mode : Z) (w : W) :=
  open_slot fuel cl dir name access create User (Some (Z.land mode 4095 (* 0o7777 *))) w.

(** ** OPEN of several files *)

(** [(0..n).map(|_| next_public_open_owner_name()).collect()]. *)
Fixpoint public_owner_names (n : nat) (cl : NfsClient.t) : list bytes * NfsClient.t :=
  match n with
  | O => ([], cl)
  | S n =>
      let '(name, cl) := NfsClient.next_public_open_owner_name cl in
      let '(names, cl) := public_owner_names n cl in (name :: names, cl)
  end.

(** The groups of the batch; [names] are the owners of a user batch, one per item. *)
Definition add_open (slot : OwnerSlot) (base cid : Z) (owner : bytes) (names : list bytes)
    (c : Compound.t) (op : OpenOp) (gi : Z) : Compound.t :=
  let '(seqid, owner) :=
    match slot with
    | User => (0, default [] (names !! Z.to_nat gi))
    | PathSlot => (wrapping_add32 base (as_u32 gi), owner)
    end in
  Compound.getfh (Compound.open_claim_null (Compound.putfh c (op_dir op)) seqid (op_access op) OPEN4_SHARE_DENY_NONE
    cid owner (make_open_how (op_create op) (verifier gi)) (op_name op)).

Definition open_result := (nfs_fh4 * stateid4 * VerifierStorageAttrs)%type.

(** The exclusive creates whose verifier left traces, with their positions. *)
Definition cleanup_of (ops : list OpenOp) (out : list open_result) : list (Z * SetattrOp) :=
  omap (λ p : nat * (OpenOp * open_result),
    let '(i, (op, (fh, _, attrs))) := p in
    if bool_decide (op_create op = OExclusive) && any_storage attrs
    then Some (Z.of_nat i, verifier_cleanup_setattr fh attrs None now) else None)
    (imap pair (zip ops out)).

Definition closes_of (out : list open_result) : list CloseOp := (λ o : open_result, Close o.1.1 o.1.2) <$> out.

(** [if !cleanup.is_empty() { setattr_many(&cleanup) }]. *)
Definition run_cleanup (fuel : nat) (cl : NfsClient.t) (cleanup : list (Z * SetattrOp)) (w : W)
    : outcome (RpcResult unit * NfsClient.t * W) :=
  match cleanup with
  | [] => Done (Ok tt, cl, w)
  | _ => setattr_many rpc xdr_len fuel cl (cleanup.*2) w
  end.

(** The [on_failure] closure: repair, then close what was opened. *)
Definition release_opened (slot : OwnerSlot) (base : Z) (fuel : nat) (ops : list OpenOp) (cl : NfsClient.t)
    (out : list open_result) (w : W) : outcome (NfsClient.t * W) :=
  '(_, cl, w) ← run_cleanup fuel cl (cleanup_of ops out) w;
  let cl := match slot with
            | PathSlot => set_path_seqid cl (wrapping_add32 base (as_u32 (Z.of_nat (length out))))
            | User => cl
            end in
  '(_, cl, w) ← close_opened slot fuel cl (closes_of out) w;
  Done (cl, w).

Definition open_many_slot (slot : OwnerSlot) (fuel : nat) (cl : NfsClient.t) (ops : list OpenOp) (w : W)
    : outcome (RpcResult (list (nfs_fh4 * stateid4)) * NfsClient.t * W) :=
  let '(base, owner) := match slot with
                        | User => (0, [])
                        | PathSlot => (ow_seqid (Single.path_owner cl), ow_name (Single.path_owner cl))
                        end in
  let '(names, cl) := match slot with User => public_owner_names (length ops) cl | PathSlot => ([], cl) end in
  '(r, cl, w) ← BatchOps.batch_ops_fallible_with_failure rpc xdr_len "openv" 3
      (add_open slot base (clientid cl) owner names) (λ _ res i, Ok <$> opened_at res (2 + 3 * i))
      (λ cl out w, match release_opened slot base fuel ops cl out w with Done x => Some x | _ => None end) fuel cl ops w;
  match r with
  | Err e => Done (Err e, cl, w)
  | Ok out =>
      let cl := match slot with
                | PathSlot => set_path_seqid cl (wrapping_add32 base (as_u32 (Z.of_nat (length ops))))
                | User => cl
                end in
      let cleanup := cleanup_of ops out in
      '(r, cl, w) ← run_cleanup fuel cl cleanup w;
      match r with
      | Err error =>
          let error := remap_cleanup_error error (cleanup.*1) in
          '(_, cl, w) ← close_opened slot fuel cl (closes_of out) w;
          Done (Err error, cl, w)
      | Ok _ => Done (Ok (fst <$> out), cl, w)
      end
  end.

Definition open_many := open_many_slot User.
Definition open_many_path := open_many_slot PathSlot.
End Operations.

(** ** What opening several files means *)

Section Spec.
Context {F W : Type} (s : nfs_spec F) (rpc : Compound.t → W → RpcResult COMPOUND4res * W) (fs : W → F).
Context (xdr_len : Compound.t → Z) (verifier : Z → verifier4) (now : Z * Z) (names : list bytes) (cid : Z).

(** The OPEN of an item of a user batch, under the owner drawn for it. *)
Definition open_args (op : OpenOp) (i : Z) : OPEN4args :=
  OpenArgs 0 (op_access op) OPEN4_SHARE_DENY_NONE cid (default [] (names !! Z.to_nat i))
    (make_open_how (op_create op) (verifier i)) (ClaimNull (op_name op)).
Definition open_step (op : OpenOp) (i : Z) (f : F) : result Z (F * open_result) :=
  at_fh s f (op_dir op)
    match sp_open s f (op_dir op) (open_args op i) with
    | Ok (f, (fh, st, mask)) => Ok (f, (fh, st, verifier_storage_attrs mask))
    | Err st => Err st
    end.

(** The operations of an item. *)
Definition open_group (op : OpenOp) (i : Z) : list argop := [APutFh (op_dir op); AOpen (open_args op i); AGetFh].

(** From [w] to [w'] the opened files [out] were handed to a repair, which did what
    its result [r1] says, and then all of them to a CLOSE, which did what its
    result [r2] says and was the last thing the call did. *)
Definition released (fuel : nat) (ops : list OpenOp) (out : list open_result) (cl : NfsClient.t) (w : W)
    (cl' : NfsClient.t) (w' : W) : Prop :=
  ∃ r1 cl1 w1 r2,
    run_cleanup rpc xdr_len fuel cl (cleanup_of now ops out) w = Done (r1, cl1, w1) ∧
    batch_refined s (BSetattr ((cleanup_of now ops out).*2)) (fs w) r1 (fs w1) ∧
    close_many rpc xdr_len fuel cl1 (closes_of out) w1 = Done (r2, cl', w') ∧
    batch_refined s (BClose (closes_of out)) (fs w1) r2 (fs w').

(** How [open_many] may end.  [k'] files were opened, of which the client knows
    the first [k]: all of them, or all but the one whose handle was not handed
    over, or all but those of the last request, if it was not answered. *)
Definition opens_refined (fuel : nat) (ops : list OpenOp) (w : W) (r : RpcResult (list (nfs_fh4 * stateid4)))
    (cl' : NfsClient.t) (w' : W) : Prop :=
  let steps := item_groups open_step 0 ops in
  let opened k w1 := ∃ out, answers (take (Z.to_nat k) steps) (fs w) = Ok (fs w1, out) in
  match r with
  | Ok files =>
      ∃ out f1, answers steps (fs w) = Ok (f1, out) ∧ files = fst <$> out ∧
        batch_refined s (BSetattr ((cleanup_of now ops out).*2)) f1 (Ok tt) (fs w')
  | Err e =>
      ∃ k k' cl1 w1 out, (k <= k' <= length ops)%nat ∧ answers (take k' steps) (fs w) = Ok (fs w1, out) ∧
        released fuel ops (take k out) cl1 w1 cl' w' ∧
        (RpcError.is_transport e = true ∧ unanswered rpc open_group ops opened (Z.of_nat k) w1 ∨
         (* the OPEN of item [k] failed, or its handle was not handed over *)
         RpcError.op_index e = Z.of_nat k ∧ (k < length ops)%nat ∧ (k' <= S k)%nat ∨
         (* everything was opened, and the repair of an exclusive create failed *)
         k = length ops ∧ ∃ op, ops !! Z.to_nat (RpcError.op_index e) = Some op ∧ op_create op = OExclusive)
  end.
End Spec.

Module OpenLemmas.
Import ExchangeLemmas ServerLemmas SingleLemmas BatchOpsLemmas BatchRunLemmas BatchOnceLemmas BatchSpecLemmas MutationLemmas.

Section Opens.
Context {F W : Type} (s : nfs_spec F) (rpc : Compound.t → W → RpcResult COMPOUND4res * W) (fs : W → F).
Context (Hrpc : transport_ok rpc) (Himp : implements s rpc fs).
Context (xdr_len : Compound.t → Z) `{!XdrSizes xdr_len}.
Context (verifier : Z → verifier4) (now : Z * Z).

#[global] Instance add_open_shape names cid : BatchShape (add_open verifier User 0 cid [] names) 3 (open_group verifier names cid).
Proof. split; try done. intros c op i. cbn. by rewrite <-!app_assoc. Qed.

Definition open_shown (v : open_result) (rs : list resop) : Prop :=
  ∃ mask, rs !! 1%nat = Some (ROpen NFS_OK v.1.2 mask) ∧ v.2 = verifier_storage_attrs mask ∧
    rs !! 2%nat = Some (RGetFh NFS_OK (vec_of v.1.1)).

Lemma performs_open names cid :
  performs s (open_group verifier names cid) 3 (open_step s verifier names cid) open_shown false.
Proof.
  split; [done|lia|by repeat constructor| |].
  - intros x i [f c sv] m' rs H. cbn -[vec_of] in H. unfold open_step. machine; try congruence.
    eexists (_, _, _). split; [reflexivity|]. by eexists.
  - intros x i k [f c sv] m' rs Hk H. destruct k as [|[|[|k]]]; [| | |lia]; cbn -[vec_of] in H; unfold open_step; machine; auto; try congruence.
    right. split; [done|]. by eexists.
Qed.

Lemma opened_shown res rs j v : complete res rs → open_shown v (take 3 (drop (j * 3) rs)) →
  opened_at res (2 + 3 * Z.of_nat j) = Some v.
Proof.
  intros Hc (mask & [H1 _]%lookup_take_Some & Hm & [H2 _]%lookup_take_Some). rewrite lookup_drop in H1, H2.
  destruct (complete_accessors _ _ _ _ Hc H1) as [Ho Ha]. pose proof (complete_accessors _ _ _ _ Hc H2) as Hg.
  cbn -[vec_of] in Hg. rewrite vec_of_bytes in Hg. unfold opened_at.
  replace (2 + 3 * Z.of_nat j + 1) with (1 + Z.of_nat (j * 3 + 2)) by lia.
  replace (2 + 3 * Z.of_nat j) with (1 + Z.of_nat (j * 3 + 1)) by lia.
  rewrite Ho. cbn [mbind option_bind]. rewrite Ha. cbn [mbind option_bind]. rewrite Hg. cbn [mbind option_bind].
  rewrite <-Hm. by destruct v as [[]].
Qed.

Lemma cleanup_of_length ops out : (length (cleanup_of now ops out) <= length out)%nat.
Proof.
  assert (Hom : ∀ {A B} (f : A → option B) l, (length (omap f l) <= length l)%nat).
  { intros A B f l. induction l as [|x l IH]; cbn; [lia|]. destruct (f x); cbn; lia. }
  unfold cleanup_of. etransitivity; [apply Hom|]. rewrite length_imap, length_zip. lia.
Qed.

(** The positions of the repairs are those of exclusive creates. *)
Lemma cleanup_of_exclusive ops out k i : ((cleanup_of now ops out).*1) !! k = Some i →
  ∃ op, ops !! Z.to_nat i = Some op ∧ op_create op = OExclusive.
Proof.
  intros Hk. apply list_elem_of_lookup_2, list_elem_of_fmap in Hk as ([j sa] & -> & Hin).
  apply list_elem_of_omap in Hin as ([m [op [[fh st] attrs]]] & Hin & Hif).
  apply list_elem_of_lookup in Hin as [p Hp]. rewrite list_lookup_imap_Some in Hp. destruct Hp as (q & Hq & E).
  injection E as <- <-. apply lookup_zip_with_Some in Hq as (a & b & [= <- <-] & Ha & _).
  cbn in Hif. destruct (bool_decide _) eqn:Hx; [|done]. destruct (any_storage attrs); [|done]. injection Hif as <- <-. cbn.
  rewrite Nat2Z.id. exists op. split; [done|]. by apply bool_decide_eq_true in Hx.
Qed.

Lemma run_cleanup_refines fuel cl cleanup w : 0 <= NfsClient.max_ops cl < USIZE_MAX →
  (Z.of_nat (length cleanup) + 1) * (Z.of_nat (length cleanup) + 1) <= Z.of_nat fuel →
  ∃ r cl' w', run_cleanup rpc xdr_len fuel cl cleanup w = Done (r, cl', w') ∧ same_limits cl cl' ∧
    batch_refined s (BSetattr (cleanup.*2)) (fs w) r (fs w').
Proof.
  intros Hmax Hfuel. destruct (decide (cleanup = [])) as [->|Hne].
  { eexists _, _, _. split; [reflexivity|]. split; [done|]. by exists []. }
  assert (run_cleanup rpc xdr_len fuel cl cleanup w = setattr_many rpc xdr_len fuel cl (cleanup.*2) w) as -> by (by destruct cleanup).
  apply (run_batch_refines s rpc fs Hrpc Himp xdr_len (BSetattr (cleanup.*2))); [done|]. cbn [steps_of]. by rewrite !length_fmap.
Qed.

Lemma close_opened_refines fuel cl out w : 0 <= NfsClient.max_ops cl < USIZE_MAX →
  (Z.of_nat (length out) + 1) * (Z.of_nat (length out) + 1) <= Z.of_nat fuel →
  ∃ r cl' w', close_opened rpc xdr_len User fuel cl (closes_of out) w = Done (r, cl', w') ∧ same_limits cl cl' ∧
    batch_refined s (BClose (closes_of out)) (fs w) r (fs w').
Proof.
  intros Hmax Hfuel. apply (run_batch_refines s rpc fs Hrpc Himp xdr_len (BClose (closes_of out))); [done|].
  cbn [steps_of]. unfold closes_of. by rewrite !length_fmap.
Qed.

Lemma release_opened_released base n ops out cl w fuel : 0 <= NfsClient.max_ops cl < USIZE_MAX → (length out <= n)%nat →
  (Z.of_nat n + 1) * (Z.of_nat n + 1) <= Z.of_nat fuel →
  ∃ cl' w', release_opened rpc xdr_len now User base fuel ops cl out w = Done (cl', w') ∧ same_limits cl cl' ∧
    released s rpc fs xdr_len now fuel ops out cl w cl' w'.
Proof.
  intros Hmax Hout Hfuel. pose proof (cleanup_of_length ops out). unfold release_opened.
  destruct (run_cleanup_refines fuel cl (cleanup_of now ops out) w) as (r1 & cl1 & w1 & E1 & Hs1 & Hr1); [done|nia|].
  rewrite E1. cbn [mbind outcome_bind].
  destruct (close_opened_refines fuel cl1 out w1) as (r2 & cl2 & w2 & E2 & Hs2 & Hr2); [destruct Hs1 as [-> _]; done|nia|].
  rewrite E2. exists cl2, w2. split; [done|]. split; [by etransitivity|]. by exists r1, cl1, w1, r2.
Qed.

Lemma public_owner_names_limits n cl : NfsClient.max_ops (public_owner_names n cl).2 = NfsClient.max_ops cl.
Proof.
  revert cl. induction n as [|n IH]; intros cl; [done|]. cbn [public_owner_names].
  destruct (NfsClient.next_public_open_owner_name cl) as [name cl1] eqn:E. unfold NfsClient.next_public_open_owner_name in E.
  injection E as <- <-. specialize (IH (NfsClient.set_next_owner cl (wrapping_add64 (NfsClient.next_public_open_owner_id cl) 1))).
  by destruct (public_owner_names n _).
Qed.

Lemma open_many_refines fuel cl ops w :
  let names := (public_owner_names (length ops) cl).1 in
  0 <= NfsClient.max_ops cl < USIZE_MAX →
  (Z.of_nat (length ops) + 1) * (Z.of_nat (length ops) + 1) <= Z.of_nat fuel →
  ∃ r cl' w', open_many rpc xdr_len verifier now fuel cl ops w = Done (r, cl', w') ∧
    opens_refined s rpc fs xdr_len verifier now names (clientid (public_owner_names (length ops) cl).2) fuel ops w r cl' w'.
Proof.
  intros names Hmax Hfuel. rewrite <-(public_owner_names_limits (length ops)) in Hmax. unfold open_many, open_many_slot, names.
  destruct (public_owner_names (length ops) cl) as [ns cl0]. cbn [fst snd] in *. clear names.
  destruct (batch_spec_run s rpc fs Hrpc Himp xdr_len "openv" 3 (add_open verifier User 0 (clientid cl0) [] ns) (open_group verifier ns (clientid cl0))
    (open_step s verifier ns (clientid cl0)) open_shown false (performs_open ns (clientid cl0)) ltac:(done)
    (λ _ res i, Ok <$> opened_at res (2 + 3 * i))
    ltac:(intros res rs j v pos Hc Hp; cbn beta; by rewrite (opened_shown _ _ _ _ Hc Hp))
    ops cl0 (fs w)
    (λ cl out w, match release_opened rpc xdr_len now User 0 fuel ops cl out w with Done x => Some x | _ => None end)
    (released s rpc fs xdr_len now fuel ops)) with (fuel := fuel) (w := w) as (r & cl1 & w1 & E & Hs & Hfin); [|done..|].
  { intros out cl1 w1 Hs1 Hout. destruct Hs1 as [Hm Hs1].
    destruct (release_opened_released 0 (length ops) ops out cl1 w1 fuel) as (cl2 & w2 & -> & Hs2 & Hr); [by rewrite Hm|done|done|].
    exists cl2, w2. split; [done|]. split; [by transitivity cl1|done]. }
  assert (Hlen : ∀ k f1 out, answers (take k (item_groups (open_step s verifier ns (clientid cl0)) 0 ops)) (fs w) = Ok (f1, out) →
    length out = (k `min` length ops)%nat).
  { intros k f1 out Ha. rewrite (answers_length _ _ _ _ Ha), length_take, item_groups_length. lia. }
  lazymatch goal with |- context [mbind _ ?x] => replace x with (Done (r, cl1, w1)) by (symmetry; exact E) end.
  cbn [mbind outcome_bind]. destruct r as [out|e]; cycle 1.
  { eexists _, _, _. split; [reflexivity|]. destruct Hfin as (k & k' & cl2 & w2 & out & Hk & Ha & Hrel & Hwhy).
    exists k, k', cl2, w2, out. split; [done|]. split; [done|]. split; [done|].
    destruct Hwhy as [?|(? & ? & Hk')]; [by left|right; left]. split_and!; [done|done|lia]. }
  pose proof (cleanup_of_length ops out). specialize (Hlen (length ops) (fs w1) out). rewrite take_ge in Hlen by (by rewrite item_groups_length).
  specialize (Hlen Hfin). rewrite Nat.min_id in Hlen. destruct Hs as [Hm Hs].
  destruct (run_cleanup_refines fuel cl1 (cleanup_of now ops out) w1) as (r & cl2 & w2 & E2 & Hs2 & Hr); [by rewrite Hm|nia|].
  rewrite E2. cbn [mbind outcome_bind]. destruct r as [[]|e].
  { eexists _, _, _. split; [reflexivity|]. by exists out, (fs w1). }
  destruct (close_opened_refines fuel cl2 out w2) as (r3 & cl3 & w3 & E3 & _ & Hr3); [destruct Hs2 as [-> _]; by rewrite Hm|nia|].
  rewrite E3. eexists _, _, _. split; [reflexivity|]. exists (length ops), (length ops), cl1, w1, out. split; [lia|].
  rewrite take_ge by (by rewrite item_groups_length). split; [done|]. split.
  { rewrite take_ge by lia. by exists (Err e), cl2, w2, r3. }
  unfold remap_cleanup_error. destruct (RpcError.is_transport e) eqn:Ht.
  { left. split; [done|]. exists w1. split; [|by left]. exists out. by rewrite take_ge by (rewrite item_groups_length; lia). }
  right. right. split; [done|].
  destruct Hr as (k & vs & _ & [Hx|(Hi & Hk)]); [congruence|]. cbn [steps_of] in Hk. rewrite !length_fmap in Hk.
  rewrite Hi, Nat2Z.id. assert (is_Some ((cleanup_of now ops out).*1 !! k)) as [i Hx] by (apply lookup_lt_is_Some; by rewrite length_fmap).
  rewrite Hx. cbn. by eapply cleanup_of_exclusive.
Qed.
End Opens.

(** C19: Opening several files opens them one after the other, or gives back those
    it opened.  For every server and every transport, [open_many]
    terminates without panicking.  A success means that every OPEN happened, in
    the caller's order and each under its own owner, that the handles and
    stateids returned are the server's answers to these OPENs, and that the
    attributes in which exclusive creates keep their verifier were repaired.  An
    error names the first item that was not opened, or an exclusive create whose
    repair failed, or is the transport's; then the last thing the call did was to
    hand every file it had opened to a repair and to a CLOSE, in order, except the
    one whose GETFH failed and those of a last request that was not answered. *)
Theorem open_many_correct {F W} (s : nfs_spec F) (rpc : Compound.t → W → RpcResult COMPOUND4res * W) (fs : W → F)
    (xdr_len : Compound.t → Z) `{!XdrSizes xdr_len} (verifier : Z → verifier4) (now : Z * Z)
    (cl : NfsClient.t) (ops : list OpenOp) (w : W) (fuel : nat) :
  transport_ok rpc → implements s rpc fs → 0 <= NfsClient.max_ops cl < USIZE_MAX →
  (Z.of_nat (length ops) + 1) * (Z.of_nat (length ops) + 1) <= Z.of_nat fuel →
  let '(names, cl0) := public_owner_names (length ops) cl in
  ∃ r cl' w', open_many rpc xdr_len verifier now fuel cl ops w = Done (r, cl', w') ∧
    opens_refined s rpc fs xdr_len verifier now names (clientid cl0) fuel ops w r cl' w'.
Proof.
  intros Hrpc Himp Hmax Hfuel. destruct (open_many_refines s rpc fs Hrpc Himp xdr_len verifier now fuel cl ops w Hmax Hfuel)
    as (r & cl' & w' & E & Hr). destruct (public_owner_names (length ops) cl). by exists r, cl', w'.
Qed.

(** Two opens and one of a name that does not exist, against a server that takes
    four operations at a time: nothing stays open. *)
Definition example_opens : list OpenOp :=
  [Open (bstr "root") (bstr "a") 1 ONoCreate; Open (bstr "root") (bstr "n") 3 OExclusive;
   Open (bstr "root") (bstr "missing") 1 ONoCreate].

Lemma open_many_correct_witness :
  ∃ r cl' w', open_many (spec_server MemFs.spec 4) SendLemmas.example_xdr_len (λ _, []) (0, 0) 16
      LookupLemmas.example_lookup_client example_opens example_mem = Done (r, cl', w') ∧
    r = Err (RpcError.op 2 MemFs.NOENT) ∧ opened w' = [].
Proof.
  pose proof (open_many_correct MemFs.spec (spec_server MemFs.spec 4) id SendLemmas.example_xdr_len (λ _, []) (0, 0)
    LookupLemmas.example_lookup_client example_opens example_mem 16) as H.
  destruct (public_owner_names _ _) as [names cl0]. destruct H as (r & cl' & w' & E & _).
  - apply spec_server_transport; [apply MemFs.mem_spec_ok|reflexivity].
  - apply spec_server_implements, MemFs.mem_spec_ok.
  - by vm_compute.
  - by vm_compute.
  - exists r, cl', w'. split; [exact E|].
    assert (Hr : match open_many (spec_server MemFs.spec 4) SendLemmas.example_xdr_len (λ _, []) (0, 0) 16
        LookupLemmas.example_lookup_client example_opens example_mem with
      Done (v, _, m) => v = Err (RpcError.op 2 MemFs.NOENT) ∧ opened m = [] | _ => False end) by (vm_compute; split; reflexivity).
    rewrite E in Hr. exact Hr.
Defined.
End OpenLemmas.
