(* ===== verification/Lifecycle.v ===== *)
(** * The life of a client

    Models how [crates/vfsi-nfs/src/client.rs] connects, replaces and shuts down
    a client: [connect_minor_with_identity] and its negotiation, the closes that
    are kept for later when they fail ([close_path_or_defer],
    [drain_deferred_path_closes]), [retire_replaced_connection] and [shutdown].
    The theorems show that connecting gives a well-formed client, which sending
    preserves, and that no close is lost: it is answered or it is still kept. *)
From stdpp Require Import base numbers list list_numbers gmap strings pretty.
From S2P Require Import Prelude Errors Planner Compound Session Client IoProgress Loops Exchange Server Batch BatchOps BatchRun BatchOnce Resolve Single BatchSpec Mutations Opens.

Definition NFS4ERR_OLD_STATEID : Z := 10024.
Definition NFS4ERR_BAD_STATEID : Z := 10025.

Module Lifecycle.
Section Operations.
Context {W : Type} (rpc : Compound.t → W → RpcResult COMPOUND4res * W) (xdr_len : Compound.t → Z).

(** ** Connecting *)

Definition session_mount_root (s : Session.t) (w : W) : option (RpcResult nfs_fh4 * Session.t * W) :=
  let c := Compound.getfh (Compound.putrootfh (Compound.tag Compound.new (bstr "mount"))) in
  let '(r, s, w) := Session.compound rpc s c w in
  match r with
  | Err e => Some (Err e, s, w)
  | Ok res =>
      match Session.expect_all_ok res with
      | Err e => Some (Err e, s, w)
      | Ok _ => fh ← CompoundRes.getfh res 2; Some (Ok fh, s, w)
      end
  end.

Definition envelope_reserve (auth : NfsAuth) : Z := match auth with AuthSys => 1024 | RpcsecGss => 8192 end.

(** The client of an established session, or the reason it is refused. *)
Definition client_of (auth : NfsAuth) (session : Session.t) (root : nfs_fh4) : RpcResult NfsClient.t :=
  let configured := Some DEFAULT_MAX_COMPOUND_BYTES in
  let max_compound_bytes := effective_request_limit (Session.max_requestsize session) configured in
  let max_response_bytes := Z.min (Session.max_responsesize session) DEFAULT_MAX_COMPOUND_BYTES in
  let max_ops := Z.min (Session.max_operations session) MAX_COMPOUND_OPS in
  if max_compound_bytes <=? envelope_reserve auth + 128 then
    Err (RpcError.transport ("negotiated NFS request limit " +:+ pretty max_compound_bytes +:+
           " is too small for the RPC/authentication envelope"))
  else Ok (NfsClient.Make session root max_compound_bytes max_response_bytes max_ops
             (AdaptiveCompoundLimits.new max_ops) (Session.max_requestsize session) configured
             (envelope_reserve auth) [] 0).

(** [connect_minor_with_identity] on an established transport; a session that is
    not handed over is dropped, which tears it down. *)
Definition connect_minor_with_identity (auth : NfsAuth) (client_owner : option bytes) (verifier : verifier4)
    (generated : bytes) (minorversion : Z) (w : W) : option (RpcResult NfsClient.t * W) :=
  let '(r, w) := Session.connect rpc minorversion client_owner verifier generated w in
  match r with
  | Err e => Some (Err e, w)
  | Ok session =>
      '(r, session, w) ← session_mount_root session w;
      match r with
      | Err e => Some (Err e, Session.drop_session rpc session w)
      | Ok root =>
          match client_of auth session root with
          | Err e => Some (Err e, Session.drop_session rpc session w)
          | Ok cl => Some (Ok cl, w)
          end
      end
  end.

(** [negotiate_minor] of the attempts. *)
Definition connect_with_identity (auth : NfsAuth) (client_owner : option bytes) (verifier : verifier4)
    (generated : bytes) (w : W) : option (RpcResult NfsClient.t * W) :=
  '(r, w) ← connect_minor_with_identity auth client_owner verifier generated Session.PREFERRED_MINOR_VERSION w;
  match r with
  | Ok cl => Some (Ok cl, w)
  | Err e =>
      if RpcError.status e =? NFS4ERR_MINOR_VERS_MISMATCH
      then connect_minor_with_identity auth client_owner verifier generated Session.FALLBACK_MINOR_VERSION w
      else Some (Err e, w)
  end.

(** ** Closes kept for later *)

Definition close_path_or_defer (fuel : nat) (cl : NfsClient.t) (closes : list CloseOp) (w : W)
    : outcome (NfsClient.t * W) :=
  match closes with
  | [] => Done (cl, w)
  | _ =>
      '(r, cl, w) ← close_unregistered_many rpc xdr_len fuel cl closes w;
      Done (match r with
            | Ok _ => cl
            | Err _ => NfsClient.set_deferred cl (NfsClient.deferred_path_closes cl ++ closes)
            end, w)
  end.

(** The loop over the closes taken out of the client. *)
Fixpoint drain (remaining : list CloseOp) (cl : NfsClient.t) (w : W) : option (RpcResult unit * NfsClient.t * W) :=
  match remaining with
  | [] => Some (Ok tt, cl, w)
  | close :: remaining =>
      '(r, cl, w) ← Single.close_unregistered rpc xdr_len cl (cl_fh close) (cl_stateid close) w;
      match r with
      | Ok _ => drain remaining cl w
      | Err error =>
          if (RpcError.status error =? NFS4ERR_BAD_STATEID) || (RpcError.status error =? NFS4ERR_OLD_STATEID)
          then drain remaining cl w
          else Some (Err error,
                 NfsClient.set_deferred cl (NfsClient.deferred_path_closes cl ++ close :: remaining), w)
      end
  end.

Definition drain_deferred_path_closes (cl : NfsClient.t) (w : W) : option (RpcResult unit * NfsClient.t * W) :=
  drain (NfsClient.deferred_path_closes cl) (NfsClient.set_deferred cl []) w.

(** ** Replacing and shutting down *)

Definition retire_replaced_connection (fuel : nat) (cl previous : NfsClient.t) (closes : list CloseOp) (w : W)
    : outcome (NfsClient.t * W) :=
  if negb (Session.shares_identity (NfsClient.session cl) (NfsClient.session previous)) then Done (cl, w)
  else
    '(cl, w) ← close_path_or_defer fuel cl (closes ++ NfsClient.deferred_path_closes previous) w;
    let '(s, w) := Session.retire_previous_session rpc (NfsClient.session cl) (NfsClient.session previous) w in
    Done (NfsClient.set_session cl s, w).

Definition shutdown (cl : NfsClient.t) (w : W) : option (RpcResult unit * NfsClient.t * W) :=
  '(cleanup, cl, w) ← drain_deferred_path_closes cl w;
  let '(shut, s, w) := Session.shutdown rpc (NfsClient.session cl) w in
  Some (match cleanup with Ok _ => shut | Err e => Err e end, NfsClient.set_session cl s, w).
End Operations.
End Lifecycle.

(** ** What becomes of a close *)

(** The server no longer knows the stateid. *)
Definition stateid_gone (status : Z) : bool := (status =? NFS4ERR_BAD_STATEID) || (status =? NFS4ERR_OLD_STATEID).

(** SEQUENCE, or a server that does not even start a compound, does not complain
    about a stateid (RFC 8881, section 18.46). *)
Definition sequence_statuses {W} (rpc : Compound.t → W → RpcResult COMPOUND4res * W) : Prop :=
  ∀ ops w res w', ExchangeLemmas.exchanged rpc ops w res w' → CompoundRes.nops res <= 1 →
    stateid_gone (CompoundRes.status res) = false.

Section Settled.
Context {F : Type} (s : nfs_spec F).

Definition closed (op : CloseOp) : F → result Z (F * unit) := step_of s (SClose (cl_fh op) (cl_stateid op)).

(** Every close of a list, in order, released its stateid or found it gone. *)
Inductive settled : list CloseOp → F → F → Prop :=
| settled_nil f : settled [] f f
| settled_closed op ops f f1 f2 : closed op f = Ok (f1, tt) → settled ops f1 f2 → settled (op :: ops) f f2
| settled_gone op ops f f2 st :
    closed op f = Err st → stateid_gone st = true → settled ops f f2 → settled (op :: ops) f f2.
End Settled.

(** ** Well-formed clients *)

(** What every client satisfies: its operation limit is at least one and no
    larger than the static limit of a compound, its request limit does not
    exceed the server's, replies have room, the learned windows are those of
    this operation limit, and the next owner identifier is a 64-bit number. *)
Record client_wf (cl : NfsClient.t) : Prop := {
  wf_ops : 1 <= NfsClient.max_ops cl <= MAX_COMPOUND_OPS;
  wf_request : NfsClient.max_compound_bytes cl <= NfsClient.server_max_request_bytes cl;
  wf_response : 1 <= NfsClient.max_response_bytes cl <= DEFAULT_MAX_COMPOUND_BYTES;
  wf_windows : AdaptiveCompoundLimits.wf (NfsClient.compound_limits cl) ∧
    AdaptiveCompoundLimits.negotiated_ops (NfsClient.compound_limits cl) = NfsClient.max_ops cl;
  wf_owner : 0 <= NfsClient.next_public_open_owner_id cl < 2 ^ 64;
}.

(** The client states that arise: a connection that succeeded, and whatever the
    operations do to a client from there.  The operations change a client by
    sending compounds and through these setters only. *)
Inductive reachable {W} (rpc : Compound.t → W → RpcResult COMPOUND4res * W) (xdr_len : Compound.t → Z)
    : NfsClient.t → Prop :=
| reach_connect auth owner verifier generated mv w cl w' :
    Lifecycle.connect_minor_with_identity rpc auth owner verifier generated mv w = Some (Ok cl, w') →
    reachable rpc xdr_len cl
| reach_send cl c w r cl' w' : reachable rpc xdr_len cl →
    NfsClient.call_compound rpc xdr_len cl c w = (r, cl', w') → reachable rpc xdr_len cl'
| reach_owner cl : reachable rpc xdr_len cl → reachable rpc xdr_len (NfsClient.next_public_open_owner_name cl).2
| reach_seqid cl q : reachable rpc xdr_len cl → reachable rpc xdr_len (set_path_seqid cl q)
| reach_defer cl l : reachable rpc xdr_len cl → reachable rpc xdr_len (NfsClient.set_deferred cl l)
| reach_limit cl n : reachable rpc xdr_len cl → 0 <= n → reachable rpc xdr_len (NfsClient.set_max_compound_bytes cl n)
| reach_reconnect cl previous : reachable rpc xdr_len cl → reachable rpc xdr_len previous →
    reachable rpc xdr_len (NfsClient.prepare_reconnect cl previous)
| reach_retire cl previous w : reachable rpc xdr_len cl →
    reachable rpc xdr_len (NfsClient.set_session cl
      (Session.retire_previous_session rpc (NfsClient.session cl) (NfsClient.session previous) w).1)
| reach_abandon cl : reachable rpc xdr_len cl → reachable rpc xdr_len (NfsClient.abandon cl).

Module LifecycleLemmas.
Import Lifecycle ExchangeLemmas SingleLemmas MutationLemmas.

Section Closes.
Context {F W : Type} (s : nfs_spec F) (rpc : Compound.t → W → RpcResult COMPOUND4res * W) (fs : W → F).
Context (Hrpc : transport_ok rpc) (Himp : implements s rpc fs) (Hseq : sequence_statuses rpc).
Context (xdr_len : Compound.t → Z) `{!XdrSizes xdr_len}.

Lemma close_outcome cl op w :
  ∃ r cl' w', Single.close_unregistered rpc xdr_len cl (cl_fh op) (cl_stateid op) w = Some (r, cl', w') ∧
    same_limits cl cl' ∧
    match r with
    | Ok _ => closed s op (fs w) = Ok (fs w', tt)
    | Err e => (fs w' = fs w ∨ RpcError.is_transport e = true ∧ closed s op (fs w) = Ok (fs w', tt)) ∧
               (stateid_gone (RpcError.status e) = true → fs w' = fs w ∧ closed s op (fs w) = Err (RpcError.status e))
    end.
Proof.
  unfold Single.close_unregistered, Single.close_cleanup_slot, Single.close_slot.
  set (c := Compound.close _ _ _).
  destruct (exchange_one_runs s rpc fs Hrpc Himp xdr_len cl c Single.no_result (λ f' _, closed s op (fs w) = Ok (f', tt)) w)
    as (r & cl' & w' & -> & Hs & Hr); [done|by repeat constructor| |].
  { intros m rs res Hm _. exists tt. split; [done|]. cbn in Hm. unfold closed, step_of. cbn [meaning]. machine. done. }
  exists r, cl', w'. split; [by destruct r|]. split; [done|]. destruct r as [[]|e]; [done|].
  destruct Hr as (k & m & rs & Hk & Hfs & Hwhy). cbn [c Compound.ops] in Hk, Hwhy. change (Compound.ops c) with
    [APutFh (cl_fh op); AClose 1 (cl_stateid op)] in *.
  pose proof (wire_compiled s 0 (SClose (cl_fh op) (cl_stateid op)) (fs w)) as [Hpre Hfail]. cbn [wire] in Hpre, Hfail.
  specialize (Hpre k m rs Hk). specialize (Hfail k m rs). rewrite <-Hfs in Hpre, Hfail. unfold closed, step_of in *.
  destruct Hwhy as [Ht|[(_ & -> & Hst)|(o & Ho & _ & Hst)]].
  - split; [|unfold stateid_gone, RpcError.is_transport, STATUS_TRANSPORT, NFS4ERR_BAD_STATEID, NFS4ERR_OLD_STATEID, U32_MAX in *; intros; exfalso; lia].
    destruct Hpre as [?|[[[] Hv] _]]; [by left|right]. split; [done|]. by rewrite Hv.
  - injection Hk as <- _. cbn in Hfs. split; [by left|]. intros Hg.
    destruct Hst as [E|[E|(res & w1 & Hex & Hn & E)]]; [by rewrite E in Hg|by rewrite E in Hg|].
    rewrite E, (Hseq _ _ _ _ Hex Hn) in Hg. done.
  - destruct Hst as [Hst|Hres].
    + destruct (Hfail o _ Hk Ho Hst) as [E ->]. split; [by left|]. by split.
    + assert (stateid_gone (RpcError.status e) = false) as ->.
      { unfold resource_status, stateid_gone, NFS4ERR_TOO_MANY_OPS, NFS4ERR_RESOURCE, NFS4ERR_BAD_STATEID, NFS4ERR_OLD_STATEID in *. lia. }
      split; [|done]. destruct Hpre as [?|[_ [Hl|[? _]]]]; [by left| |done].
      pose proof (lookup_lt_Some _ _ _ Ho). cbn in *. lia.
Qed.

Lemma drain_spec remaining cl w : NfsClient.deferred_path_closes cl = [] →
  ∃ r cl' w', drain rpc xdr_len remaining cl w = Some (r, cl', w') ∧
    ∃ k f1, settled s (take k remaining) (fs w) f1 ∧ NfsClient.deferred_path_closes cl' = drop k remaining ∧
      match r with
      | Ok _ => k = length remaining ∧ fs w' = f1
      | Err e => ∃ op, remaining !! k = Some op ∧
          (fs w' = f1 ∨ RpcError.is_transport e = true ∧ closed s op f1 = Ok (fs w', tt))
      end.
Proof.
  revert cl w. induction remaining as [|op remaining IH]; intros cl w Hd; cbn [drain].
  { eexists _, _, _. split; [reflexivity|]. exists 0%nat, (fs w). by split; [constructor|]. }
  destruct (close_outcome cl op w) as (r & cl1 & w1 & -> & Hs & Hr). cbn [mbind option_bind].
  assert (Hd1 : NfsClient.deferred_path_closes cl1 = []) by (destruct Hs as (_ & _ & _ & _ & _ & _ & -> & _); done).
  destruct r as [[]|e].
  - destruct (IH cl1 w1 Hd1) as (r & cl' & w' & E & k & f1 & Hset & Hdef & Hfin). exists r, cl', w'. split; [done|].
    exists (S k), f1. split; [by eapply settled_closed|]. split; [done|].
    destruct r; [|done]. destruct Hfin as [-> ?]. done.
  - destruct Hr as [Hr Hg]. fold (stateid_gone (RpcError.status e)).
    destruct (stateid_gone (RpcError.status e)) eqn:Eg.
    + destruct (Hg eq_refl) as [Hf Hc]. destruct (IH cl1 w1 Hd1) as (r & cl' & w' & E & k & f1 & Hset & Hdef & Hfin).
      rewrite Hf in Hset. exists r, cl', w'. split; [done|]. exists (S k), f1.
      split; [by eapply settled_gone|]. split; [done|]. destruct r; [|done]. destruct Hfin as [-> ?]. done.
    + eexists _, _, _. split; [reflexivity|]. exists 0%nat, (fs w). split; [constructor|].
      split; [cbn; by rewrite Hd1|]. by exists op.
Qed.

Lemma close_path_or_defer_spec fuel cl closes w : 0 <= NfsClient.max_ops cl < USIZE_MAX →
  (Z.of_nat (length closes) + 1) * (Z.of_nat (length closes) + 1) <= Z.of_nat fuel →
  ∃ cl' w', close_path_or_defer rpc xdr_len fuel cl closes w = Done (cl', w') ∧ same_caps cl cl' ∧ clientid cl' = clientid cl ∧
    ∃ k vs, answers (closed s <$> take k closes) (fs w) = Ok (fs w', vs) ∧
      ((length closes <= k)%nat ∧ NfsClient.deferred_path_closes cl' = NfsClient.deferred_path_closes cl ∨
       NfsClient.deferred_path_closes cl' = NfsClient.deferred_path_closes cl ++ closes).
Proof.
  intros Hmax Hfuel. destruct (decide (closes = [])) as [->|Hne].
  { eexists _, _. split; [reflexivity|]. split; [done|]. split; [done|]. exists 0%nat, []. auto. }
  assert (Hu : close_path_or_defer rpc xdr_len fuel cl closes w =
    ('(r, cl, w) ← close_many_slot rpc xdr_len User fuel cl closes w;
     Done (match r with Ok _ => cl | Err _ => NfsClient.set_deferred cl (NfsClient.deferred_path_closes cl ++ closes) end, w)))
    by (by destruct closes).
  destruct (run_batch_refines s rpc fs Hrpc Himp xdr_len (BClose closes) cl w fuel Hmax) as (r & cl1 & w1 & E & Hs & Hr).
  { cbn [steps_of]. by rewrite length_fmap. }
  cbn [run_batch] in E. rewrite Hu, E. pose proof (SendLemmas.limits_caps _ _ Hs). destruct Hs as (_ & _ & _ & _ & _ & _ & Hd & Hid & _).
  cbn [mbind outcome_bind]. destruct r as [[]|e]; (eexists _, _; split; [reflexivity|]; split; [done|]; split; [exact Hid|]); cbn [batch_refined steps_of] in Hr.
  - destruct Hr as (vs & Hvs & _). exists (length closes), vs. rewrite firstn_all. split; [done|]. left. by split.
  - destruct Hr as (k & vs & Hk & _). exists k, vs. rewrite fmap_take. split; [done|]. right. cbn. by rewrite Hd.
Qed.
End Closes.

(** A client built on an established session. *)
Lemma client_of_wf auth session root cl : 1 <= Session.max_operations session → 1 <= Session.max_responsesize session →
  client_of auth session root = Ok cl → client_wf cl.
Proof.
  intros Ho Hr. unfold client_of, effective_request_limit.
  destruct (_ <=? _); [done|]. intros [= <-]. split; cbn [NfsClient.max_ops NfsClient.max_compound_bytes
    NfsClient.server_max_request_bytes NfsClient.max_response_bytes NfsClient.compound_limits NfsClient.next_public_open_owner_id].
  - unfold MAX_COMPOUND_OPS. lia.
  - lia.
  - change DEFAULT_MAX_COMPOUND_BYTES with 4194304. lia.
  - split; [|done]. split; [cbn; unfold MAX_COMPOUND_OPS, USIZE_MAX, U64_MAX; lia|]. intros tag size H.
    cbn in H. by rewrite lookup_empty in H.
  - lia.
Qed.

Section Reachable.
Context {W : Type} (rpc : Compound.t → W → RpcResult COMPOUND4res * W) (Hdec : rpc_decoded rpc).
Context (xdr_len : Compound.t → Z).

(** The limits of a session that was created. *)
Lemma create_session_limits s w s' w' : Session.create_session rpc s w = (Ok tt, s', w') →
  1 <= Session.max_operations s' ∧ 1 <= Session.max_responsesize s'.
Proof.
  unfold Session.create_session, call. destruct (rpc _ w) as [[res|e] w1] eqn:Hr; [|done].
  destruct (validate_response_ops _ _) as [[]|e]; [|done].
  destruct (CompoundRes.try_op_status res 0); [|done]. case_match; [done|].
  destruct (CompoundRes.create_session res 0) as [[sid [[a b] c]]|] eqn:Hcs; [|done].
  destruct (_ || _) eqn:Hz; [done|]. intros [= <- _]. cbn.
  unfold CompoundRes.create_session, CompoundRes.expect_op in Hcs.
  destruct (CompoundRes.op res 0) as [ro|] eqn:Hop; [|done]. cbn in Hcs. case_match; [|done]. cbn in Hcs.
  destruct ro; try done. injection Hcs as <- <- <- <-.
  unfold CompoundRes.op in Hop. case_match; [|done]. destruct (Hdec _ _ _ _ Hr) as [_ Hv].
  destruct (cr_val res) as [l|]; [|done]. destruct (Hv l eq_refl) as [_ Hf].
  pose proof (proj1 (Forall_lookup _ _) Hf _ _ Hop) as (? & ? & ?). lia.
Qed.

Lemma session_compound_limits s c w r s' w' : Session.compound rpc s c w = (r, s', w') →
  Session.max_operations s' = Session.max_operations s ∧ Session.max_responsesize s' = Session.max_responsesize s.
Proof.
  unfold Session.compound. destruct (Session.poisoned s); [by intros [= _ <- _]|].
  destruct (call rpc _ w) as [[res|e] w1]; [|by intros [= _ <- _]]. intros [= _ <- _]. by case_match.
Qed.

Lemma connect_limits mv owner verifier generated w s w' :
  Session.connect rpc mv owner verifier generated w = (Ok s, w') →
  1 <= Session.max_operations s ∧ 1 <= Session.max_responsesize s.
Proof.
  unfold Session.connect. destruct (Session.exchange_id _ _ _ _ _) as [[[[]|e] s1] w1]; [|done].
  destruct (Session.create_session rpc s1 w1) as [[[[]|e] s2] w2] eqn:H2; [|done].
  apply create_session_limits in H2.
  destruct (Session.reclaim_complete rpc s2 w2) as [[[[]|e] s3] w3] eqn:H3; [|done]. intros [= -> ->].
  unfold Session.reclaim_complete in H3. destruct (Session.compound rpc s2 _ w2) as [[[res|e] s4] w4] eqn:H4; [|done].
  apply session_compound_limits in H4 as [Ho Hr]. rewrite <-Ho, <-Hr in H2.
  destruct (CompoundRes.try_op_status res 1); [|done]. case_match; [done|]. by injection H3 as <- _.
Qed.

Lemma connected_wf auth owner verifier generated mv w cl w' :
  connect_minor_with_identity rpc auth owner verifier generated mv w = Some (Ok cl, w') → client_wf cl.
Proof.
  unfold connect_minor_with_identity. destruct (Session.connect rpc mv owner verifier generated w) as [[s|e] w1] eqn:Hc; [|done].
  apply connect_limits in Hc. intros ([[r s2] w2] & Hm & H)%bind_Some.
  unfold session_mount_root in Hm. destruct (Session.compound rpc s _ w1) as [[r1 s3] w3] eqn:H3.
  apply session_compound_limits in H3 as [Ho Hr]. rewrite <-Ho, <-Hr in Hc.
  assert (s2 = s3) as ->.
  { destruct r1 as [res|e]; [|by injection Hm]. destruct (Session.expect_all_ok res); [|by injection Hm].
    by apply bind_Some in Hm as (? & _ & [= _ <- _]). }
  destruct r as [root|e]; [|done]. destruct (client_of auth s3 root) as [cl0|e] eqn:Hcl; [|done].
  injection H as <- _. destruct Hc. by eapply (client_of_wf auth s3 root).
Qed.

Lemma send_wf cl c w r cl' w' : client_wf cl → NfsClient.call_compound rpc xdr_len cl c w = (r, cl', w') → client_wf cl'.
Proof.
  intros Hwf. unfold NfsClient.call_compound. destruct (CompoundBudget.ensure _ c); [|by intros [= _ <- _]].
  destruct (NfsClient.compound_request_fits xdr_len cl c) as [[] c']; cbn [negb]; [|by intros [= _ <- _]].
  destruct (Session.compound _ _ _ _) as [[[reply|e] s] w1]; intros [= _ <- _]; destruct Hwf as [H1 H2 H3 [H4 H4'] H5]; split; try done.
  cbn. split; [by apply LimitsLemmas.observe_wf|]. by rewrite LimitsLemmas.observe_negotiated.
Qed.
End Reachable.

(** C35: Every client is well formed.  Connecting gives a client whose operation
    limit is between one and the static limit of a compound, whose request limit
    is within the server's, whose windows fit the limit and whose counters are in
    range; and everything that changes a client (sending, whatever comes back,
    drawing an owner, keeping closes, a new byte limit, replacing a connection,
    abandoning it) keeps it so.  The theorems about batches and paths require
    just these bounds. *)
Theorem client_well_formed {W} (rpc : Compound.t → W → RpcResult COMPOUND4res * W) (xdr_len : Compound.t → Z)
    (cl : NfsClient.t) :
  rpc_decoded rpc → reachable rpc xdr_len cl → client_wf cl.
Proof.
  intros Hdec. induction 1 as [|cl c w r cl' w' _ IH Hsend|cl _ [H1 H2 H3 H4 H5]|cl q _ [H1 H2 H3 H4 H5]|cl l _ [H1 H2 H3 H4 H5]
    |cl n _ [H1 H2 H3 H4 H5] Hn|cl previous _ [H1 H2 H3 H4 H5] _ [P1 P2 P3 P4 P5]|cl previous w _ [H1 H2 H3 H4 H5]|cl _ [H1 H2 H3 H4 H5]].
  - by eapply connected_wf.
  - by eapply send_wf.
  - split; try done. cbn. unfold wrapping_add64. by apply Z.mod_pos_bound.
  - by split.
  - by split.
  - split; try done. cbn. unfold effective_request_limit. destruct (n =? 0); lia.
  - by split.
  - by split.
  - by split.
Qed.
(** A server that grants sixteen operations and has a root. *)
Definition mounting_server (c : Compound.t) (w : unit) : RpcResult COMPOUND4res * unit :=
  match Compound.ops c with
  | [AExchangeId _ _ _] => (Ok (Res 0 1 (Some [RExchangeId 0 77 1 0])), w)
  | [ACreateSession _ _] => (Ok (Res 0 1 (Some [RCreateSession 0 [] 4096 4096 16])), w)
  | [_; AReclaimComplete] => (Ok (Res 0 2 (Some [RPlain OP_SEQUENCE 0; RPlain OP_RECLAIM_COMPLETE 0])), w)
  | _ => (Ok (Res 0 3 (Some [RPlain OP_SEQUENCE 0; RPlain OP_PUTROOTFH 0; RGetFh 0 (vec_of (bstr "root"))])), w)
  end.

Lemma mounting_server_decoded : rpc_decoded mounting_server.
Proof.
  intros c w res w' Hr. unfold mounting_server in Hr.
  assert (∀ l, l = [RExchangeId 0 77 1 0] ∨ l = [RCreateSession 0 [] 4096 4096 16] ∨
    l = [RPlain OP_SEQUENCE 0; RPlain OP_RECLAIM_COMPLETE 0] ∨
    l = [RPlain OP_SEQUENCE 0; RPlain OP_PUTROOTFH 0; RGetFh 0 (vec_of (bstr "root"))] → Forall resop_decoded l) as Hl.
  { intros l [->|[->|[->| ->]]]; repeat (constructor; [by apply (bool_decide_unpack _) || done || by intros ? [= <-]|]); constructor. }
  repeat case_match; injection Hr as <- <-; (split; [by vm_compute|]); intros ? [= <-]; (split; [done|]); apply Hl; auto.
Qed.

Lemma client_well_formed_witness :
  ∃ cl, connect_minor_with_identity mounting_server AuthSys None [] [] 2 tt = Some (Ok cl, tt) ∧ client_wf cl.
Proof.
  destruct (connect_minor_with_identity mounting_server AuthSys None [] [] 2 tt) as [[[cl|e] []]|] eqn:E.
  - exists cl. split; [reflexivity|].
    exact (client_well_formed mounting_server SendLemmas.example_xdr_len cl mounting_server_decoded
      (reach_connect _ _ AuthSys None [] [] 2 tt cl tt E)).
  - exfalso. vm_compute in E. discriminate E.
  - exfalso. vm_compute in E. discriminate E.
Defined.

(** C21: No close is lost.  A list of closes handed to [close_path_or_defer] is
    carried out in order, or kept in full for later; and draining the kept
    closes, which happens before a client shuts down, settles them in order (the
    server released the stateid or said it no longer knows it) and keeps all
    those from the first that could not be settled on.  Neither panics, for any
    server and any transport failure. *)
Theorem no_close_lost {F W} (s : nfs_spec F) (rpc : Compound.t → W → RpcResult COMPOUND4res * W) (fs : W → F)
    (xdr_len : Compound.t → Z) `{!XdrSizes xdr_len} (cl : NfsClient.t) (closes : list CloseOp) (w : W) (fuel : nat) :
  transport_ok rpc → implements s rpc fs → sequence_statuses rpc → 0 <= NfsClient.max_ops cl < USIZE_MAX →
  (Z.of_nat (length closes) + 1) * (Z.of_nat (length closes) + 1) <= Z.of_nat fuel →
  let kept := NfsClient.deferred_path_closes in
  (∃ cl' w', close_path_or_defer rpc xdr_len fuel cl closes w = Done (cl', w') ∧
     ∃ k vs, answers (closed s <$> take k closes) (fs w) = Ok (fs w', vs) ∧
       ((length closes <= k)%nat ∧ kept cl' = kept cl ∨ kept cl' = kept cl ++ closes)) ∧
  (∃ r cl' w', drain_deferred_path_closes rpc xdr_len cl w = Some (r, cl', w') ∧
     ∃ k f1, settled s (take k (kept cl)) (fs w) f1 ∧ kept cl' = drop k (kept cl) ∧
       match r with
       | Ok _ => k = length (kept cl) ∧ fs w' = f1
       | Err e => ∃ op, kept cl !! k = Some op ∧
           (fs w' = f1 ∨ RpcError.is_transport e = true ∧ closed s op f1 = Ok (fs w', tt))
       end).
Proof.
  intros Hrpc Himp Hseq Hmax Hfuel kept. split.
  { destruct (close_path_or_defer_spec s rpc fs Hrpc Himp xdr_len fuel cl closes w Hmax Hfuel) as (cl' & w' & E & _ & _ & H). eauto. }
  unfold drain_deferred_path_closes. by apply drain_spec.
Qed.

Lemma spec_server_sequence {F} (s : nfs_spec F) limit : sequence_statuses (spec_server s limit).
Proof.
  intros ops w res w' (req & sid & q & Hr & Hops & _) Hn. unfold spec_server in Hr. rewrite Hops in Hr.
  destruct (limit <? _); [by injection Hr as <- _|].
  destruct (spec_run s (start w) ops) as [[m rs] st] eqn:Hrun. injection Hr as <- _.
  change (1 + Z.of_nat (length rs) <= 1) in Hn. destruct rs; [|cbn [length] in Hn; lia].
  destruct ops as [|op ops]; cbn [spec_run] in Hrun; [by simplify_eq|].
  destruct (spec_step s (start w) op) as [[m1 r1]|st1]; [|by simplify_eq].
  destruct (spec_run s m1 ops) as [[m2 rs2] st2]. by simplify_eq.
Qed.

(** One open file, closed twice. *)
Definition example_stateid : stateid4 := StateId 1 (be_bytes 12 7).
Definition example_closing : NfsClient.t :=
  NfsClient.set_deferred LookupLemmas.example_lookup_client
    [Close (bstr "fa") example_stateid; Close (bstr "fa") example_stateid].

Lemma no_close_lost_witness :
  ∃ r cl' w', drain_deferred_path_closes (spec_server MemFs.spec 4) SendLemmas.example_xdr_len example_closing
      (Mem (nodes example_mem) 8 [example_stateid]) = Some (r, cl', w') ∧
    r = Ok tt ∧ NfsClient.deferred_path_closes cl' = [] ∧ opened w' = [].
Proof.
  destruct (no_close_lost MemFs.spec (spec_server MemFs.spec 4) id SendLemmas.example_xdr_len example_closing []
    (Mem (nodes example_mem) 8 [example_stateid]) 1) as [_ (r & cl' & w' & E & k & f1 & _ & Hk & Hr)].
  - apply ServerLemmas.spec_server_transport; [apply MemFs.mem_spec_ok|reflexivity].
  - apply ServerLemmas.spec_server_implements, MemFs.mem_spec_ok.
  - apply spec_server_sequence.
  - by vm_compute.
  - by vm_compute.
  - exists r, cl', w'. split; [exact E|].
    assert (Hrun : match drain_deferred_path_closes (spec_server MemFs.spec 4) SendLemmas.example_xdr_len example_closing
        (Mem (nodes example_mem) 8 [example_stateid]) with
      Some (v, _, m) => v = Ok tt ∧ opened m = [] | _ => False end) by (vm_compute; split; reflexivity).
    rewrite E in Hrun. destruct Hrun as [-> Ho]. destruct Hr as [-> _]. split; [reflexivity|]. split; [|exact Ho].
    rewrite Hk. reflexivity.
Defined.
End LifecycleLemmas.
