(* ===== verification/Remove.v ===== *)
(** * Removing names

    Models [remove_many] of [crates/vfsi-nfs/src/client.rs]: REMOVE leaves the
    current filehandle on the directory, so one PUTFH serves a whole chunk.  The
    theorem shows that every name is removed once and in order, whatever sizes
    the server rejects, and that an error names the first entry that was not
    removed. *)
From stdpp Require Import base numbers list list_numbers gmap strings.
From S2P Require Import Prelude Errors Planner Compound Session Client Loops Exchange.

Module RemoveMany.
Section Loop.
Context {W : Type} (rpc : Compound.t → W → RpcResult COMPOUND4res * W) (xdr_len : Compound.t → Z).

Record state := State { client : NfsClient.t; world : W; start : Z; max_items : Z }.
Definition answer : Type := RpcResult unit * NfsClient.t * W.

Definition build (dir : nfs_fh4) (names : list bytes) : Compound.t :=
  foldl Compound.remove (Compound.putfh (Compound.tag Compound.new (bstr "removev")) dir) names.

Definition round (dir : nfs_fh4) (names : list bytes) (st : state) : option (turn state answer) :=
  let 'State cl w start max_items := st in
  let take := Z.min (Z.min (NfsClient.remove_batch_capacity cl) max_items) (Z.of_nat (length names) - start) in
  let c := build dir (slice (Z.to_nat start) (Z.to_nat (start + take)) names) in
  let '(fits, c) := NfsClient.compound_request_fits xdr_len cl c in
  if negb fits && (1 <? take) then Some (Again (State cl w start (take / 2)))
  else
    let map op_index := start + remove_result_index op_index take in
    let '(r, cl, w) := NfsClient.call_compound_with_safety rpc xdr_len cl c NonIdempotentMutation w in
    match r with
    | Err e => Some (Return (Err (RpcError.with_op_index e (map (RpcError.op_index e))), cl, w))
    | Ok res =>
        if (1 <? take) && resource_rejected_before_mutation res && (NfsClient.remove_batch_capacity cl <? take)
        then Some (Again (State cl w start USIZE_MAX))
        else
          match Session.expect_all_ok res with
          | Err e => Some (Return (Err (RpcError.with_op_index e (map (RpcError.op_index e))), cl, w))
          | Ok _ => Some (Again (State cl w (start + take) USIZE_MAX))
          end
    end.

Definition remove_many (fuel : nat) (cl : NfsClient.t) (dir : nfs_fh4) (names : list bytes) (w : W)
    : outcome answer :=
  run (λ st, start st <? Z.of_nat (length names)) (round dir names) (λ st, (Ok tt, client st, world st))
    fuel (State cl w 0 USIZE_MAX).
End Loop.
End RemoveMany.

(** ** A server that removes in order *)

(** The REMOVEs a reply shows as carried out: after SEQUENCE and PUTFH, without
    the failed one. *)
Definition removals_done (res : COMPOUND4res) : nat :=
  Z.to_nat (CompoundRes.nops res - 2 - (if CompoundRes.status res =? NFS_OK then 0 else 1)).

(** [removed] lists the entries the server has removed.  A compound of REMOVEs
    removes a prefix of its names; when the client accepts the reply, the prefix
    is the one the reply shows. *)
Definition removes_in_order {W} (rpc : Compound.t → W → RpcResult COMPOUND4res * W)
    (removed : W → list (nfs_fh4 * bytes)) : Prop :=
  ∀ c w r w' sid q d names, rpc c w = (r, w') →
    Compound.ops c = ASequence sid q 0 0 :: APutFh d :: (ARemove <$> names) →
    ∃ k, removed w' = removed w ++ ((λ n, (d, n)) <$> take k names) ∧
      ∀ res, r = Ok res → reply_ok (Compound.ops c) res → k = removals_done res.

Module RemoveLemmas.
Import RemoveMany ExchangeLemmas.

Lemma remove_capacity cl : 1 <= NfsClient.remove_batch_capacity cl.
Proof. unfold NfsClient.remove_batch_capacity. lia. Qed.

Lemma build_removes dir names :
  Compound.ops (build dir names) = APutFh dir :: (ARemove <$> names) ∧
  Compound.size_check (build dir names) = None.
Proof.
  unfold build. set (c0 := Compound.putfh _ _).
  change (APutFh dir :: (ARemove <$> names)) with (Compound.ops c0 ++ (ARemove <$> names)).
  assert (H0 : Compound.size_check c0 = None) by done. revert H0. generalize c0. clear c0.
  induction names as [|n names IH]; intros c0 H0; cbn [foldl fmap list_fmap]; [by rewrite app_nil_r|].
  destruct (IH (Compound.remove c0 n)) as [-> ->]; [done|]. cbn. by rewrite <-app_assoc.
Qed.

Section Once.
Context {W : Type} (rpc : Compound.t → W → RpcResult COMPOUND4res * W) (Hrpc : transport_ok rpc).
Context (xdr_len : Compound.t → Z) `{!XdrSizes xdr_len}.
Context (removed : W → list (nfs_fh4 * bytes)) (Hrem : removes_in_order rpc removed).
Context (dir : nfs_fh4) (names : list bytes) (w0 : W).
Let n : Z := Z.of_nat (length names).

(** Exactly the first [k] names have been removed since the start. *)
Definition removed_upto (k : Z) (w : W) : Prop :=
  removed w = removed w0 ++ ((λ name, (dir, name)) <$> take (Z.to_nat k) names).

Record removing (st : state (W := W)) : Prop := {
  rm_start : 0 <= start st <= n;
  rm_max : 1 <= max_items st;
  rm_done : removed_upto (start st) (world st);
}.

Definition remove_chunk (st : state (W := W)) : Z :=
  Z.min (Z.min (NfsClient.remove_batch_capacity (client st)) (max_items st)) (n - start st).
Definition remove_measure (st : state (W := W)) : Z := (n - start st) * (n + 1) + remove_chunk st.

(** The ways the removal may end. *)
Definition remove_final (r : RpcResult unit) (w : W) : Prop :=
  match r with
  | Ok _ => removed_upto n w
  | Err e =>
      if RpcError.is_transport e then ∃ k, 0 <= k <= n ∧ removed_upto k w
      else 0 <= RpcError.op_index e < n ∧ removed_upto (RpcError.op_index e) w
  end.

Lemma remove_chunk_range st : removing st → 0 <= remove_chunk st <= n.
Proof.
  intros Hi. pose proof (rm_start _ Hi). pose proof (rm_max _ Hi). pose proof (remove_capacity (client st)).
  unfold remove_chunk. lia.
Qed.

Lemma remove_progress st st' : removing st → removing st' → start st < start st' → remove_measure st' < remove_measure st.
Proof.
  intros Hi Hi' Hlt. pose proof (remove_chunk_range _ Hi). pose proof (remove_chunk_range _ Hi').
  unfold remove_measure. nia.
Qed.

(** A prefix of the next chunk extends what has been removed. *)
Lemma removed_more st len w' (k : nat) : removing st → 0 <= len <= n - start st →
  removed w' = removed (world st) ++ ((λ name, (dir, name)) <$>
    take k (slice (Z.to_nat (start st)) (Z.to_nat (start st + len)) names)) →
  removed_upto (start st + Z.min (Z.of_nat k) len) w'.
Proof.
  intros Hi Hlen Hk. pose proof (rm_start _ Hi). unfold removed_upto. rewrite Hk, (rm_done _ Hi), <-app_assoc, <-fmap_app.
  do 2 f_equal. replace (Z.to_nat (start st + len)) with (Z.to_nat (start st) + Z.to_nat len)%nat by lia.
  rewrite take_app_slice. f_equal. lia.
Qed.

(** What an accepted reply to a chunk says was removed. *)
Lemma removals_counted len request res :
  decoded res → reply_ok request res → Z.of_nat (length request) = 2 + len → 1 <= len →
  Z.of_nat (removals_done res) = if CompoundRes.status res =? NFS_OK then len
    else Z.min (sat_sub (sat_sub (CompoundRes.nops res) 1) 2) (sat_sub len 1).
Proof.
  intros Hd (Hle & _ & Hfull & _) Hreq Hlen. unfold removals_done.
  assert (0 <= CompoundRes.nops res) by (destruct Hd as [? _]; unfold CompoundRes.nops; lia).
  destruct (Z.eqb_spec (CompoundRes.status res) NFS_OK) as [Hs|Hs].
  - specialize (Hfull Hs). unfold CompoundRes.nops in *. lia.
  - unfold CompoundRes.nops, sat_sub in *. lia.
Qed.

Lemma remove_reply st len res cl' w' :
  removing st → 1 <= len <= n - start st → remove_chunk st = len →
  exchanged rpc (APutFh dir :: (ARemove <$> slice (Z.to_nat (start st)) (Z.to_nat (start st + len)) names))
    (world st) res w' →
  let map op_index := start st + remove_result_index op_index len in
  turn_keeps removing remove_measure (λ a, remove_final a.1.1 a.2) st
    (if (1 <? len) && resource_rejected_before_mutation res && (NfsClient.remove_batch_capacity cl' <? len)
     then Some (Again (State cl' w' (start st) USIZE_MAX))
     else match Session.expect_all_ok res with
          | Err e => Some (Return (Err (RpcError.with_op_index e (map (RpcError.op_index e))), cl', w'))
          | Ok _ => Some (Again (State cl' w' (start st + len) USIZE_MAX))
          end).
Proof.
  intros Hi Hlen Hchunk Hex map. pose proof (rm_start _ Hi). pose proof Hex as (req & sid & q & Hr & Hops & Hd & Hok).
  destruct (Hrem _ _ _ _ _ _ _ _ Hr Hops) as (k & Hk & Hkr). specialize (Hkr res eq_refl Hok).
  pose proof (removed_more st len w' k Hi ltac:(lia) Hk) as Hup.
  assert (Hreq : Z.of_nat (length (Compound.ops req)) = 2 + len).
  { rewrite Hops. cbn [length]. rewrite length_fmap. unfold slice. rewrite length_drop, length_take. unfold n in *. lia. }
  pose proof (removals_counted len _ res Hd Hok Hreq ltac:(lia)) as Hcount. rewrite <-Hkr in Hcount.
  destruct (_ && _ && _) eqn:Hretry.
  { apply andb_true_iff in Hretry as [Hrej Hcap]. apply andb_true_iff in Hrej as [_ Hrej].
    assert (Hk0 : k = 0%nat).
    { rewrite Hkr. revert Hrej. unfold resource_rejected_before_mutation, removals_done.
      cbn [rv_status rv_nops rv_op_status CompoundRes_view].
      destruct (Z.eqb_spec (CompoundRes.status res) NFS_OK) as [->|]; [done|]. destruct (negb _ && negb _); [done|].
      destruct (CompoundRes.nops res) as [|[p|[p|p|]|]|p]; lia || done. }
    rewrite Hk0 in Hup. replace (start st + Z.min (Z.of_nat 0) len) with (start st) in Hup by lia.
    split; [split; cbn; [done|done|done]|]. unfold remove_measure. cbn [start]. rewrite Hchunk.
    unfold remove_chunk. cbn [client start max_items]. lia. }
  rewrite (expect_all_ok_spec _ res Hd Hok). destruct (Z.eqb_spec (CompoundRes.status res) NFS_OK) as [_|Hne].
  - rewrite Hcount, Z.min_id in Hup. cbn [turn_keeps].
    assert (Hi' : removing (State cl' w' (start st + len) USIZE_MAX)) by (split; cbn; [lia|done|done]).
    split; [done|]. apply remove_progress; [done|done|cbn; lia].
  - cbn [turn_keeps fst snd remove_final]. unfold map. cbn [RpcError.op RpcError.op_index].
    replace (start st + Z.min (Z.of_nat k) len)
      with (start st + remove_result_index (sat_sub (CompoundRes.nops res) 1) len) in Hup
      by (unfold remove_result_index, sat_sub in *; lia).
    set (i := start st + remove_result_index (sat_sub (CompoundRes.nops res) 1) len) in *. assert (0 <= i < n) by (unfold i, remove_result_index, sat_sub; lia).
    case_match; [exists i; split; [lia|done]|done].
Qed.

Lemma remove_round st : removing st → (start st <? n) = true →
  turn_keeps removing remove_measure (λ a, remove_final a.1.1 a.2) st (round rpc xdr_len dir names st).
Proof.
  intros Hi Hlt. pose proof (rm_start _ Hi). pose proof (rm_max _ Hi). destruct st as [cl w g mx].
  cbn [start max_items] in *. unfold round. set (st := State cl w g mx) in *. pose proof (remove_capacity cl).
  fold n. set (len := Z.min _ (n - g)). assert (Hlen : 1 <= len <= n - g) by (unfold len; lia).
  assert (Hchunk : remove_chunk st = len) by done. set (chunk := slice _ _ names).
  destruct (build_removes dir chunk) as [Hops Hcache]. set (c := build dir chunk) in *.
  assert (Hc : PreflightLemmas.cache_ok xdr_len c) by (intros l r Hsz; by rewrite Hcache in Hsz).
  destruct (SendLemmas.compound_request_fits_spec xdr_len cl c Hc) as (c' & -> & Hc' & Hops' & _).
  destruct (negb _ && _) eqn:Hrepack.
  { apply andb_true_iff in Hrepack as [_ Hk].
    assert (1 <= len / 2) by (apply Z.div_le_lower_bound; lia). assert (len / 2 < len) by (apply Z.div_lt; lia).
    split; [destruct Hi; by split|]. unfold remove_measure. cbn [st start]. fold st. rewrite Hchunk.
    unfold remove_chunk. cbn [client start max_items]. lia. }
  destruct (NfsClient.call_compound_with_safety _ _ _ _ _ _) as [[r cl'] w'] eqn:Hcall.
  apply safe_call in Hcall as (r0 & Hcall & Hr0).
  destruct (send_outcomes rpc Hrpc xdr_len cl c' w r0 cl' w' Hc' Hcall) as [_ Hout]. rewrite Hops', Hops in Hout.
  destruct r as [res|e], r0 as [res0|e0]; try done.
  - subst res0. by apply (remove_reply st len res cl' w').
  - cbn [turn_keeps fst snd remove_final]. destruct Hr0 as [Hst Hidx].
    assert (Ht : RpcError.is_transport e0 = RpcError.is_transport e) by (unfold RpcError.is_transport; by rewrite Hst).
    change (RpcError.is_transport (RpcError.with_op_index e _)) with (RpcError.is_transport e). rewrite Ht in Hout.
    destruct Hout as [[-> Hwhy]|[-> (r0 & req & sid & q & Hr & Hops0)]].
    + pose proof (rm_done _ Hi) as Hd. destruct (RpcError.is_transport e); [by exists g|].
      destruct Hwhy as [?|Hi0]; [done|]. cbn [RpcError.with_op_index RpcError.op_index]. rewrite Hidx, Hi0.
      unfold remove_result_index. change (sat_sub 0 2) with 0. replace (g + Z.min 0 (sat_sub len 1)) with g by (unfold sat_sub; lia).
      split; [lia|done].
    + destruct (Hrem _ _ _ _ _ _ _ _ Hr Hops0) as (k & Hk & _). eexists. split; [|by eapply removed_more; [exact Hi| |exact Hk]; cbn; lia].
      cbn. lia.
Qed.
End Once.

(** C24: Names are removed exactly once and in order.  For every list of names,
    every transport and every server that carries out the REMOVEs of a compound
    in order, with any pattern of size rejections, failures and lost replies,
    [remove_many] terminates; if it succeeds, the server has removed every name
    once, in the order given; if it reports an error of the server, exactly the
    names before the reported one were removed; after a transport failure some
    prefix was, and no name twice. *)
Theorem remove_many_once {W} (rpc : Compound.t → W → RpcResult COMPOUND4res * W) (xdr_len : Compound.t → Z)
    `{!XdrSizes xdr_len} (removed : W → list (nfs_fh4 * bytes)) (cl : NfsClient.t) (dir : nfs_fh4)
    (names : list bytes) (w : W) (fuel : nat) :
  transport_ok rpc → removes_in_order rpc removed →
  let n := Z.of_nat (length names) in
  (n + 1) * (n + 1) <= Z.of_nat fuel →
  ∃ r cl' w', remove_many rpc xdr_len fuel cl dir names w = Done (r, cl', w') ∧
    let upto k := removed w' = removed w ++ ((λ name, (dir, name)) <$> take (Z.to_nat k) names) in
    match r with
    | Ok _ => upto n
    | Err e =>
        if RpcError.is_transport e then ∃ k, 0 <= k <= n ∧ upto k
        else 0 <= RpcError.op_index e < n ∧ upto (RpcError.op_index e)
    end.
Proof.
  intros Hrpc Hrem n Hfuel. set (st := State cl w 0 USIZE_MAX).
  assert (Hi : removing removed dir names w st).
  { split; cbn; [unfold n; lia|done|]. unfold removed_upto. cbn. by rewrite app_nil_r. }
  destruct (run_ok (λ st, start st <? n) (round rpc xdr_len dir names) (λ st, (Ok tt, client st, world st))
    (removing removed dir names w) (remove_measure names) (λ a, remove_final removed dir names w a.1.1 a.2))
    with (fuel := fuel) (st := st) as ([[r cl'] w'] & Hrun & Hall); [| | |done| |by exists r, cl', w'].
  - intros st' Hi'. pose proof (remove_chunk_range _ _ _ _ _ Hi'). pose proof (rm_start _ _ _ _ _ Hi').
    unfold remove_measure. nia.
  - intros st' Hi' Hlt. by apply remove_round.
  - intros st' Hi' Hge. pose proof (rm_start _ _ _ _ _ Hi'). cbn [fst snd remove_final].
    pose proof (rm_done _ _ _ _ _ Hi') as Hd. by replace (start st') with n in Hd by (unfold n in *; lia).
  - pose proof (remove_chunk_range _ _ _ _ _ Hi) as Hc. fold n in Hc. unfold remove_measure. fold n.
    change (start st) with 0. nia.
Qed.

(** A server that refuses compounds of more than six operations and does not
    know one of the names. *)
Fixpoint remove_all (d : nfs_fh4) (ops : list argop) : list (nfs_fh4 * bytes) * list resop * Z :=
  match ops with
  | ARemove n :: ops =>
      if bool_decide (n = bstr "missing") then ([], [RPlain OP_REMOVE 2], 2)
      else let '(l, rs, st) := remove_all d ops in ((d, n) :: l, RPlain OP_REMOVE 0 :: rs, st)
  | _ => ([], [], 0)
  end.

Definition example_remove_rpc (c : Compound.t) (w : list (nfs_fh4 * bytes))
    : RpcResult COMPOUND4res * list (nfs_fh4 * bytes) :=
  match Compound.ops c with
  | ASequence _ _ _ _ :: APutFh d :: ops =>
      if Z.of_nat (length ops) <=? 4 then
        let '(l, rs, st) := remove_all d ops in
        (Ok (Res st (Z.of_nat (2 + length rs)) (Some (RPlain OP_SEQUENCE 0 :: RPlain OP_PUTFH 0 :: rs))), w ++ l)
      else (Ok (empty_response NFS4ERR_RESOURCE), w)
  | _ => (Err (RpcError.transport "unexpected"), w)
  end.

Lemma remove_all_spec d names : let '(l, rs, st) := remove_all d (ARemove <$> names) in
  l = (λ n, (d, n)) <$> take (length rs - (if (st =? 0)%Z then 0 else 1)) names ∧
  (st = 0 ∨ (1 <= length rs)%nat) ∧ (length rs <= length names)%nat ∧ Forall resop_decoded rs.
Proof.
  assert (Hp : ∀ st, resop_decoded (RPlain OP_REMOVE st)) by (intros st; by apply (bool_decide_unpack _)).
  induction names as [|n names IH]; [by repeat constructor|]. cbn [fmap list_fmap remove_all]. case_bool_decide as Hn.
  { split_and!; [done|by right; cbn; lia|cbn; lia|by repeat constructor]. }
  change (list_fmap _ _ ARemove names) with (ARemove <$> names).
  destruct (remove_all d (ARemove <$> names)) as [[l rs] st]. destruct IH as (-> & Hst & Hle & Hf).
  split_and!; [|right; cbn; lia|cbn; lia|by constructor]. cbn [length].
  replace (S (length rs) - (if (st =? 0)%Z then 0 else 1))%nat with (S (length rs - (if (st =? 0)%Z then 0 else 1)))
    by (destruct (Z.eqb_spec st 0); lia).
  done.
Qed.

Lemma example_remove_rpc_ok : transport_ok example_remove_rpc ∧ removes_in_order example_remove_rpc (λ w, w).
Proof.
  split; [split|].
  - intros c w res w'. unfold example_remove_rpc. destruct (Compound.ops c) as [|[] [|[] ops]]; try done.
    destruct (Z.leb_spec (Z.of_nat (length ops)) 4) as [Hle|]; [|by intros [= <- <-]].
    assert (Hdec : ∀ ops, Forall resop_decoded (remove_all fh ops).1.2 ∧ (length (remove_all fh ops).1.2 <= length ops)%nat).
    { assert (Hp : ∀ st, resop_decoded (RPlain OP_REMOVE st)) by (intros st; by apply (bool_decide_unpack _)).
      clear -Hp. induction ops as [|[] ops IH]; cbn [remove_all fst snd length]; try (split; [constructor|lia]). case_bool_decide.
      - split; [by repeat constructor|cbn; lia].
      - destruct (remove_all fh ops) as [[l rs] st]. cbn [fst snd length] in *. destruct IH. split; [by constructor|lia]. }
    specialize (Hdec ops). destruct (remove_all fh ops) as [[l rs] st]. destruct Hdec as [Hf Hl]. intros [= <- <-].
    split; [cbn in *; unfold U32_MAX; lia|]. intros l' [= <-]. split; [cbn; lia|].
    by repeat (constructor; [by apply (bool_decide_unpack _)|]).
  - intros c w e w'. unfold example_remove_rpc. repeat case_match; first [done|by intros [= <- <-]].
  - intros c w r w' sid q d names Hr Hops. unfold example_remove_rpc in Hr. rewrite Hops in Hr.
    destruct (_ <=? 4).
    2:{ injection Hr as <- <-. exists 0%nat. split; [by rewrite take_0, app_nil_r|]. by intros res [= <-]. }
    pose proof (remove_all_spec d names) as Hspec. destruct (remove_all d _) as [[l rs] st].
    destruct Hspec as (-> & Hst & _). injection Hr as <- <-. eexists. split; [done|]. intros res [= <-] _.
    unfold removals_done. cbn [CompoundRes.nops CompoundRes.status cr_len cr_status]. unfold NFS_OK.
    destruct (Z.eqb_spec st 0); lia.
Qed.

Lemma remove_many_once_witness :
  ∃ e cl' w', remove_many example_remove_rpc SendLemmas.example_xdr_len 49 SendLemmas.example_client (bstr "d")
      [bstr "a"; bstr "b"; bstr "c"; bstr "e"; bstr "missing"; bstr "f"] [] = Done (Err e, cl', w') ∧
    RpcError.op_index e = 4 ∧
    w' = [(bstr "d", bstr "a"); (bstr "d", bstr "b"); (bstr "d", bstr "c"); (bstr "d", bstr "e")].
Proof.
  destruct example_remove_rpc_ok as [Ht Hs].
  destruct (remove_many_once example_remove_rpc SendLemmas.example_xdr_len (λ w, w) SendLemmas.example_client (bstr "d")
    [bstr "a"; bstr "b"; bstr "c"; bstr "e"; bstr "missing"; bstr "f"] [] 49 Ht Hs) as (r & cl' & w' & E & H); [by vm_compute|].
  assert (Hr : match remove_many example_remove_rpc SendLemmas.example_xdr_len 49 SendLemmas.example_client (bstr "d")
      [bstr "a"; bstr "b"; bstr "c"; bstr "e"; bstr "missing"; bstr "f"] [] with
    Done (v, _, _) => v = Err (RpcError.op 4 2) | _ => False end) by (vm_compute; reflexivity).
  rewrite E in Hr. subst r. exists (RpcError.op 4 2), cl', w'. split; [exact E|]. split; [reflexivity|].
  exact (proj2 H).
Defined.
End RemoveLemmas.
