(* ===== verification/Readdir.v ===== *)
(** * Directory pages

    Models the READDIR operations of [crates/vfsi-nfs/src/client.rs]: the
    decoding of a page ([collect_readdir]), one page of one directory
    ([readdir_bounded]), and the batched forms [readdir_pages_bounded] and
    [readdir_children_bounded]. *)
From Stdlib Require Import Strings.Byte.
From stdpp Require Import base numbers list list_numbers gmap strings.
From S2P Require Import Prelude Path Errors Planner Compound Session Client Loops Exchange Batch.

(** [DirEntry] and [ChildListing]. *)
Record DirEntry := MkDirEntry { de_name : bytes; de_cookie : Z; de_attrs : bytes }.
Record ChildListing := MkChildListing { ch_fh : nfs_fh4; ch_entries : list DirEntry; ch_cookie : Z }.

Definition valid_name (name : bytes) : bool :=
  negb (bool_decide (name = []) || existsb is_slash name || existsb (Byte.eqb Byte.x00) name).

Definition is_dot (name : bytes) : bool := bool_decide (name = bstr ".") || bool_decide (name = bstr "..").

(** The walk of the entry list; [None] is the use of a null pointer. *)
Fixpoint collect_entries (entries : list entry4) (out : list DirEntry) (cookie : Z)
    : option (RpcResult (list DirEntry * Z)) :=
  match entries with
  | [] => Some (Ok (out, cookie))
  | ent :: entries =>
      name ← CompoundRes.vec_bytes (en_name ent);
      if negb (valid_name name) then
        Some (Err (RpcError.transport_with_kind InvalidReply "READDIR returned an invalid name component"))
      else if is_dot name then collect_entries entries out (en_cookie ent)
      else
        attrs ← CompoundRes.vec_bytes (en_attrs ent);
        collect_entries entries (out ++ [MkDirEntry name (en_cookie ent) attrs]) (en_cookie ent)
  end.

Definition collect_readdir (ok : list entry4 * bool) : option (RpcResult (list DirEntry * Z)) :=
  let '(entries, eof) := ok in
  r ← collect_entries entries [] 0;
  match r with
  | Err e => Some (Err e)
  | Ok (out, cookie) =>
      if negb eof && (cookie =? 0) then Some (Err (RpcError.transport "READDIR page has no continuation progress"))
      else Some (Ok (out, if eof then 0 else cookie))
  end.

Definition zeroverf : verifier4 := replicate 8 Byte.x00.

(** [dircount] and [maxcount] of a request for [operations] directories. *)
Definition bounded_limits (cl : NfsClient.t) (operations max_response_bytes : Z) : Z * Z :=
  let '(dircount, maxcount) := NfsClient.readdir_limits cl operations in
  let maxcount := Z.min maxcount (Z.min (Z.max max_response_bytes 4096) U32_MAX) in
  (Z.max (Z.min dircount (maxcount / 4)) 1, maxcount).

Module Readdir.
Section Ops.
Context {W : Type} (rpc : Compound.t → W → RpcResult COMPOUND4res * W) (xdr_len : Compound.t → Z).

Definition readdir_bounded (cl : NfsClient.t) (dir : nfs_fh4) (cookie : Z) (attrs : list Z)
    (max_response_bytes : Z) (w : W) : option (RpcResult (list DirEntry) * NfsClient.t * W) :=
  let c := Compound.putfh (Compound.tag Compound.new (bstr "readdir")) dir in
  let '(dircount, maxcount) := bounded_limits cl 1 max_response_bytes in
  let c := Compound.readdir c cookie zeroverf dircount maxcount attrs in
  let '(r, cl, w) := NfsClient.call_compound rpc xdr_len cl c w in
  match r with
  | Err e => Some (Err e, cl, w)
  | Ok res =>
      match Session.expect_all_ok res with
      | Err e => Some (Err e, cl, w)
      | Ok _ =>
          page ← CompoundRes.readdir res 2;
          r ← collect_readdir page;
          Some (match r with Ok (entries, _) => Ok entries | Err e => Err e end, cl, w)
      end
  end.

Definition readdir (cl : NfsClient.t) (dir : nfs_fh4) (cookie : Z) (attrs : list Z) (w : W) :=
  readdir_bounded cl dir cookie attrs USIZE_MAX w.

(** [readdir_children_bounded] and [readdir_pages_bounded] are the same loop
    with another tag, another operation sequence per item and another result. *)
Section Loop.
Context {T R : Type} (tag : string) (per : Z) (max_page_bytes : Z).
Context (add : Z → Z → Compound.t → T → Compound.t).
Context (extract : COMPOUND4res → Z → option (RpcResult R)).

Record state := State { client : NfsClient.t; world : W; out : list R }.
Definition answer : Type := RpcResult (list R) * NfsClient.t * W.

Definition capacity (cl : NfsClient.t) : RpcResult Z :=
  CompoundBudget.batch_capacity (NfsClient.op_budget_for cl (bstr tag) (1 + per)) per.

(** [for (i, _) in chunk.iter().enumerate()]. *)
Fixpoint collect_pages (res : COMPOUND4res) (i : Z) (count : nat) (out : list R) : option (RpcResult (list R)) :=
  match count with
  | O => Some (Ok out)
  | S count =>
      r ← extract res i;
      match r with
      | Err e => Some (Err e)
      | Ok v => collect_pages res (i + 1) count (out ++ [v])
      end
  end.

(** The last part of the body: report the failure, or collect the chunk. *)
Definition finish_chunk (cl : NfsClient.t) (w : W) (len : Z) (out : list R) (res : COMPOUND4res)
    : option (turn state answer) :=
  let map op_index := Z.min (sat_sub len 1) (sat_sub op_index 1 / per) in
  match Session.expect_all_ok res with
  | Err e => Some (Return (Err (RpcError.with_op_index e (map (RpcError.op_index e))), cl, w))
  | Ok _ =>
      r ← collect_pages res 0 (Z.to_nat len) out;
      match r with
      | Err e => Some (Return (Err e, cl, w))
      | Ok out => Some (Again (State cl w out))
      end
  end.

Definition after_reply (cl : NfsClient.t) (w : W) (len : Z) (out : list R) (res : COMPOUND4res)
    : option (turn state answer) :=
  if (1 <? len) && resource_status (CompoundRes.status res) then
    match capacity cl with
    | Err e => Some (Return (Err e, cl, w))
    | Ok cap => if cap <? len then Some (Again (State cl w out)) else finish_chunk cl w len out res
    end
  else finish_chunk cl w len out res.

Definition round (ops : list T) (st : state) : option (turn state answer) :=
  let 'State cl w out := st in
  match capacity cl with
  | Err e => Some (Return (Err e, cl, w))
  | Ok per_chunk =>
      let start := Z.of_nat (length out) in
      let chunk := slice (length out) (Z.to_nat (Z.min (start + per_chunk) (Z.of_nat (length ops)))) ops in
      let len := Z.of_nat (length chunk) in
      let '(dircount, maxcount) := bounded_limits cl len max_page_bytes in
      let map op_index := Z.min (sat_sub len 1) (sat_sub op_index 1 / per) in
      let c := foldl (add dircount maxcount) (Compound.tag Compound.new (bstr tag)) chunk in
      let '(r, cl, w) := NfsClient.call_compound rpc xdr_len cl c w in
      match r with
      | Err e => Some (Return (Err (RpcError.with_op_index e (map (RpcError.op_index e))), cl, w))
      | Ok res => after_reply cl w len out res
      end
  end.

Definition paged (fuel : nat) (cl : NfsClient.t) (ops : list T) (w : W) : outcome answer :=
  match ops with
  | [] => Done (Ok [], cl, w)
  | _ => run (λ st, Z.of_nat (length (out st)) <? Z.of_nat (length ops)) (round ops)
           (λ st, (Ok (out st), client st, world st)) fuel (State cl w [])
  end.
End Loop.

(** [PUTFH parent, LOOKUP, GETFH, READDIR] per child. *)
Definition add_child (attrs : list Z) (dircount maxcount : Z) (c : Compound.t) (op : nfs_fh4 * bytes) : Compound.t :=
  Compound.readdir (Compound.getfh (Compound.lookup (Compound.putfh c op.1) op.2)) 0 zeroverf dircount maxcount attrs.

Definition readdir_children_bounded (fuel : nat) (cl : NfsClient.t) (ops : list (nfs_fh4 * bytes)) (attrs : list Z)
    (max_page_bytes : Z) (w : W) : outcome (RpcResult (list ChildListing) * NfsClient.t * W) :=
  paged "readdir_children" 4 max_page_bytes (add_child attrs)
    (λ res i, fh ← CompoundRes.getfh res (3 + 4 * i);
              page ← CompoundRes.readdir res (4 + 4 * i);
              r ← collect_readdir page;
              Some (match r with
                    | Ok (entries, cookie) => Ok (MkChildListing fh entries cookie)
                    | Err e => Err e
                    end))
    fuel cl ops w.

(** [PUTFH fh, READDIR(cookie)] per directory. *)
Definition add_page (attrs : list Z) (dircount maxcount : Z) (c : Compound.t) (op : nfs_fh4 * Z) : Compound.t :=
  Compound.readdir (Compound.putfh c op.1) op.2 zeroverf dircount maxcount attrs.

Definition readdir_pages_bounded (fuel : nat) (cl : NfsClient.t) (ops : list (nfs_fh4 * Z)) (attrs : list Z)
    (max_page_bytes : Z) (w : W) : outcome (RpcResult (list (list DirEntry * Z)) * NfsClient.t * W) :=
  paged "readdir_pages" 2 max_page_bytes (add_page attrs)
    (λ res i, page ← CompoundRes.readdir res (2 + 2 * i); collect_readdir page) fuel cl ops w.
End Ops.
End Readdir.

(** ** One page *)

(** What the caller sees of an entry. *)
Definition entry_bytes (e : entry4) : option (bytes * Z * bytes) :=
  name ← CompoundRes.vec_bytes (en_name e); attrs ← CompoundRes.vec_bytes (en_attrs e); Some (name, en_cookie e, attrs).

Module PageLemmas.

Lemma owned_bytes v : vec_owned v → ∃ b, CompoundRes.vec_bytes v = Some b.
Proof.
  intros [_ Hn]. unfold CompoundRes.vec_bytes. destruct (Z.eqb_spec (xv_len v) 0) as [|Hz]; [eauto|].
  destruct (xv_val v); [eauto|]. by specialize (Hn Hz).
Qed.

Lemma collect_entries_spec views entries out cookie :
  Forall2 (λ e v, entry_bytes e = Some v) entries views →
  collect_entries entries out cookie =
    Some (if forallb (λ v, valid_name v.1.1) views
          then Ok (out ++ ((λ v, MkDirEntry v.1.1 v.1.2 v.2) <$> filter (λ v, is_dot v.1.1 = false) views),
                   from_option (λ v, v.1.2) cookie (last views))
          else Err (RpcError.transport_with_kind InvalidReply "READDIR returned an invalid name component")).
Proof.
  intros HF. revert out cookie. induction HF as [|e [[name ck] attrs] entries views He HF IH]; intros out cookie.
  { cbn. by rewrite app_nil_r. }
  unfold entry_bytes in He. cbn [collect_entries]. destruct (CompoundRes.vec_bytes (en_name e)) as [nm|]; [|done].
  destruct (CompoundRes.vec_bytes (en_attrs e)) as [at_|]; [|done]. cbn in He. injection He as -> <- ->.
  cbn [mbind option_bind forallb fst snd]. destruct (valid_name name); cbn [negb andb]; [|done].
  assert (Hlast : from_option (λ v : bytes * Z * bytes, v.1.2) cookie (last ((name, en_cookie e, attrs) :: views)) =
    from_option (λ v, v.1.2) (en_cookie e) (last views)) by (rewrite last_cons; by destruct (last views)).
  rewrite Hlast, filter_cons. cbn [fst]. destruct (is_dot name) eqn:Hdot; cbn [mbind option_bind].
  - rewrite decide_False by done. apply IH.
  - rewrite decide_True by done. rewrite IH. cbn [fmap list_fmap fst snd]. by rewrite <-app_assoc.
Qed.

Lemma owned_views entries : Forall (λ e, vec_owned (en_name e) ∧ vec_owned (en_attrs e)) entries →
  ∃ views, Forall2 (λ e v, entry_bytes e = Some v) entries views.
Proof.
  induction 1 as [|e entries [Hn Ha] _ [views IH]]; [by exists []|].
  destruct (owned_bytes _ Hn) as [n En]. destruct (owned_bytes _ Ha) as [a Ea].
  exists ((n, en_cookie e, a) :: views). constructor; [|done]. unfold entry_bytes. by rewrite En, Ea.
Qed.

(** A directory page is decoded faithfully.  For every page the decoder
    produced, [collect_readdir] returns its entries in order without "." and
    "..", and the cookie to continue from, which is zero exactly on the last
    page; it fails exactly when a name is empty or contains a slash or a NUL
    byte, or when a page that is not the last gives nothing to continue from. *)
Theorem collect_readdir_exact (entries : list entry4) (eof : bool) (views : list (bytes * Z * bytes)) :
  Forall2 (λ e v, entry_bytes e = Some v) entries views →
  ∃ r, collect_readdir (entries, eof) = Some r ∧
    let next := from_option (λ v, v.1.2) 0 (last views) in
    match r with
    | Ok (out, cookie) =>
        Forall (λ v, valid_name v.1.1 = true) views ∧
        out = (λ v, MkDirEntry v.1.1 v.1.2 v.2) <$> filter (λ v, is_dot v.1.1 = false) views ∧
        cookie = (if eof then 0 else next) ∧ (cookie = 0 ↔ eof = true)
    | Err e =>
        RpcError.is_transport e = true ∧
        (Exists (λ v, valid_name v.1.1 = false) views ∨ eof = false ∧ next = 0)
    end.
Proof.
  intros HF. unfold collect_readdir. rewrite (collect_entries_spec views entries [] 0 HF). cbn [mbind option_bind app].
  set (next := from_option _ 0 (last views)). destruct (forallb _ views) eqn:Hall.
  - destruct (negb eof && (next =? 0)) eqn:Hstop; eexists; (split; [done|]).
    + cbn. apply andb_true_iff in Hstop as [? ?]. split; [done|]. right. destruct eof; [done|]. split; [done|lia].
    + cbn. split_and!; [|done|done|].
      * apply Forall_forall. intros v Hv. apply forallb_forall with (x := v) in Hall; [done|]. by apply list_elem_of_In.
      * destruct eof; cbn in *; [done|]. split; [lia|done].
  - eexists. split; [done|]. cbn. split; [done|]. left. apply Exists_exists.
    apply not_true_iff_false in Hall. rewrite forallb_forall in Hall.
    destruct (decide (Exists (λ v, valid_name v.1.1 = false) views)) as [Hx|Hx]; [by apply Exists_exists in Hx|].
    exfalso. apply Hall. intros v Hv. apply not_false_iff_true. intros Hf. apply Hx, Exists_exists. exists v.
    split; [by apply list_elem_of_In|done].
Qed.

Lemma collect_readdir_exact_witness :
  ∃ r, collect_readdir ([Entry 1 (XdrVec 1 (Some (bstr "."))) (XdrVec 0 None);
                         Entry 7 (XdrVec 1 (Some (bstr "a"))) (XdrVec 2 (Some (bstr "xy")))], false) = Some r ∧
       r = Ok ([MkDirEntry (bstr "a") 7 (bstr "xy")], 7).
Proof.
  destruct (collect_readdir_exact [Entry 1 (XdrVec 1 (Some (bstr "."))) (XdrVec 0 None);
    Entry 7 (XdrVec 1 (Some (bstr "a"))) (XdrVec 2 (Some (bstr "xy")))] false
    [(bstr ".", 1, []); (bstr "a", 7, bstr "xy")]) as (r & E & _).
  - repeat constructor.
  - exists r. split; [exact E|]. vm_compute in E. by injection E as <-.
Defined.
End PageLemmas.

(** ** Many pages *)

Module PagedLemmas.
Import Readdir ExchangeLemmas.

(** What an item appends to a request. *)
Class PagedShape {T} (per : Z) (add : Z → Z → Compound.t → T → Compound.t) (item_ops : Z → Z → T → list argop) : Prop := {
  pg_pos : 0 < per;
  pg_ops dc mc c x : Compound.ops (add dc mc c x) = Compound.ops c ++ item_ops dc mc x;
  pg_len dc mc x : Z.of_nat (length (item_ops dc mc x)) = per;
  pg_cache dc mc c x : Compound.size_check (add dc mc c x) = None;
}.

#[global] Instance add_page_shape attrs : PagedShape 2 (add_page attrs)
  (λ dc mc op, [APutFh op.1; AReaddir op.2 zeroverf dc mc (Compound.bitmap attrs)]).
Proof. split; try done. intros. cbn. by rewrite <-app_assoc. Qed.

#[global] Instance add_child_shape attrs : PagedShape 4 (add_child attrs)
  (λ dc mc op, [APutFh op.1; ALookup op.2; AGetFh; AReaddir 0 zeroverf dc mc (Compound.bitmap attrs)]).
Proof. split; try done. intros. cbn. by rewrite <-!app_assoc. Qed.

Lemma paged_unfold {W T R} (rpc : Compound.t → W → RpcResult COMPOUND4res * W) xdr_len tag per max_page_bytes
    (add : Z → Z → Compound.t → T → Compound.t) (extract : COMPOUND4res → Z → option (RpcResult R)) fuel cl l w :
  paged rpc xdr_len tag per max_page_bytes add extract fuel cl l w =
  if decide (l = []) then Done (Ok [], cl, w)
  else run (λ st, Z.of_nat (length (out st)) <? Z.of_nat (length l))
         (round rpc xdr_len tag per max_page_bytes add extract l)
         (λ st, (Ok (out st), client st, world st)) fuel (State cl w []).
Proof. by destruct l. Qed.

Section Loop.
Context {W : Type} (rpc : Compound.t → W → RpcResult COMPOUND4res * W) (Hrpc : transport_ok rpc).
Context (xdr_len : Compound.t → Z) `{!XdrSizes xdr_len}.
Context {T R : Type} (tag : string) (per max_page_bytes : Z) (add : Z → Z → Compound.t → T → Compound.t).
Context (extract : COMPOUND4res → Z → option (RpcResult R)) (item_ops : Z → Z → T → list argop).
Context `{Hshape : !PagedShape per add item_ops}.

(** The result read for an item of a complete reply is acceptable. *)
Context (good : T → R → Prop).
Definition pages_true : Prop := ∀ dc mc items w res w',
  exchanged rpc (mjoin (item_ops dc mc <$> items)) w res w' → CompoundRes.status res = NFS_OK →
  ∀ j x, items !! j = Some x → ∃ r, extract res (Z.of_nat j) = Some r ∧ ∀ v, r = Ok v → good x v.
Hypothesis Hpages : pages_true.

Context (ops : list T) (cl0 : NfsClient.t) (Hmax : 0 <= NfsClient.max_ops cl0).
Let n : Z := Z.of_nat (length ops).

Record paging (st : state (W := W) (R := R)) : Prop := {
  pg_limits : same_limits cl0 (client st);
  pg_out : Z.of_nat (length (out st)) <= n;
  pg_good i x v : ops !! i = Some x → out st !! i = Some v → good x v;
}.

Definition page_chunk (st : state (W := W) (R := R)) : Z :=
  match capacity tag per (client st) with
  | Ok cap => Z.min cap (n - Z.of_nat (length (out st)))
  | Err _ => 0
  end.
Definition page_measure (st : state (W := W) (R := R)) : Z :=
  (n - Z.of_nat (length (out st))) * (n + 1) + page_chunk st.

Definition paged_allowed (a : answer (W := W) (R := R)) : Prop :=
  match a.1.1 with Ok out => Forall2 good ops out | Err _ => True end.

Lemma page_capacity cl : 0 <= NfsClient.max_ops cl →
  match capacity tag per cl with Ok cap => 1 <= cap | Err _ => True end.
Proof.
  intros Hm. pose proof (pg_pos (PagedShape := Hshape)). unfold capacity, CompoundBudget.batch_capacity.
  set (q := sat_sub _ 1 / per). assert (0 <= q) by (apply Z.div_pos; unfold sat_sub; lia).
  destruct (Z.eqb_spec q 0); [done|lia].
Qed.

Lemma page_chunk_range st : paging st → 0 <= page_chunk st <= n.
Proof.
  intros Hi. pose proof (pg_out _ Hi). destruct (pg_limits _ Hi) as [Hm _]. unfold page_chunk.
  pose proof (page_capacity (client st) ltac:(lia)) as Hc. destruct (capacity _ _ _); lia.
Qed.

Lemma build_pages dc mc c items :
  Compound.ops (foldl (add dc mc) c items) = Compound.ops c ++ mjoin (item_ops dc mc <$> items) ∧
  (Compound.size_check c = None → Compound.size_check (foldl (add dc mc) c items) = None).
Proof.
  revert c. induction items as [|x items IH]; intros c; cbn [foldl]; [cbn; by rewrite app_nil_r|].
  destruct (IH (add dc mc c x)) as [-> Hc]. rewrite pg_ops. split; [cbn; by rewrite <-app_assoc|].
  intros _. apply Hc, pg_cache.
Qed.

(** The results of a chunk are appended in order, or the first failure returned. *)
Lemma collect_pages_ok res items i o :
  (∀ j x, items !! j = Some x → ∃ r, extract res (i + Z.of_nat j) = Some r ∧ ∀ v, r = Ok v → good x v) →
  ∃ r, collect_pages extract res i (length items) o = Some r ∧
    ∀ o', r = Ok o' → ∃ vs, o' = o ++ vs ∧ Forall2 good items vs.
Proof.
  revert i o. induction items as [|x items IH]; intros i o Hex; cbn [length collect_pages].
  { eexists. split; [done|]. intros o' [= <-]. exists []. by rewrite app_nil_r. }
  destruct (Hex 0%nat x eq_refl) as (r & Hr & Hgood). replace (i + Z.of_nat 0) with i in Hr by lia. rewrite Hr.
  cbn [mbind option_bind]. destruct r as [v|e]; [|eexists; by split].
  destruct (IH (i + 1) (o ++ [v])) as (r & -> & Hrest).
  { intros j y Hy. destruct (Hex (S j) y Hy) as (r & Hr' & ?). exists r. by replace (i + 1 + Z.of_nat j) with (i + Z.of_nat (S j)) by lia. }
  exists r. split; [done|]. intros o' Ho. destruct (Hrest o' Ho) as (vs & -> & HF).
  exists (v :: vs). rewrite <-app_assoc. split; [done|]. constructor; [by apply Hgood|done].
Qed.

Lemma page_finish st len w res cl' w' dc mc :
  paging st → 1 <= len <= n - Z.of_nat (length (out st)) → same_limits cl0 cl' →
  let chunk := slice (length (out st)) (length (out st) + Z.to_nat len) ops in
  exchanged rpc (mjoin (item_ops dc mc <$> chunk)) w res w' →
  turn_keeps paging page_measure paged_allowed st (finish_chunk per extract cl' w' len (out st) res).
Proof.
  intros Hi Hlen Hs chunk Hex. pose proof (pg_out _ Hi). pose proof Hex as (req & sid & q & _ & _ & Hd & Hok).
  assert (Hl : length chunk = Z.to_nat len) by (unfold chunk, slice; rewrite length_drop, length_take; unfold n in *; lia).
  unfold finish_chunk. rewrite (expect_all_ok_spec _ res Hd Hok).
  destruct (Z.eqb_spec (CompoundRes.status res) NFS_OK) as [Hst|]; [|done].
  destruct (collect_pages_ok res chunk 0 (out st)) as (r & Hr & Hgood).
  { intros j x Hx. by apply (Hpages dc mc chunk w res w' Hex Hst). }
  rewrite <-Hl, Hr. cbn [mbind option_bind]. destruct r as [o'|e]; [|done]. destruct (Hgood o' eq_refl) as (vs & -> & HF).
  pose proof (Forall2_length _ _ _ HF) as Hvs.
  assert (Hi' : paging (State cl' w' (out st ++ vs))).
  { split; cbn [client out]; [done|rewrite length_app; unfold n in *; lia|]. intros i x v Hx Hv.
    apply lookup_app_Some in Hv as [Hv|[Hge Hv]]; [by apply (pg_good _ Hi i)|].
    eapply (Forall2_lookup_lr _ _ _ _ _ _ HF); [|exact Hv]. unfold chunk, slice. rewrite lookup_drop.
    apply lookup_lt_Some in Hv. rewrite lookup_take_lt by lia.
    by replace (length (out st) + (i - length (out st)))%nat with i by lia. }
  split; [done|]. pose proof (page_chunk_range _ Hi). pose proof (page_chunk_range _ Hi').
  unfold page_measure. cbn [out]. rewrite length_app. nia.
Qed.

Lemma page_reply st len w res cl' w' dc mc :
  paging st → 1 <= len <= n - Z.of_nat (length (out st)) → page_chunk st = len → same_limits cl0 cl' →
  exchanged rpc (mjoin (item_ops dc mc <$> slice (length (out st)) (length (out st) + Z.to_nat len) ops)) w res w' →
  turn_keeps paging page_measure paged_allowed st (after_reply tag per extract cl' w' len (out st) res).
Proof.
  intros Hi Hlen Hchunk Hs Hex. pose proof (page_finish st len w res cl' w' dc mc Hi Hlen Hs Hex) as Hfin.
  unfold after_reply. destruct ((1 <? len) && _); [|done].
  destruct (capacity tag per cl') as [cap|e] eqn:Hcap; [|done]. destruct (Z.ltb_spec cap len) as [Hlt|]; [|done].
  assert (Hi' : paging (State cl' w' (out st))) by (destruct Hi; by split). split; [done|].
  unfold page_measure. cbn [out]. rewrite Hchunk. unfold page_chunk. cbn [client out]. rewrite Hcap. lia.
Qed.

Lemma page_round st : paging st → (Z.of_nat (length (out st)) <? n) = true →
  turn_keeps paging page_measure paged_allowed st (round rpc xdr_len tag per max_page_bytes add extract ops st).
Proof.
  intros Hi Hlt. pose proof (pg_limits _ Hi) as Hs0. pose proof Hs0 as [Hm _]. destruct st as [cl w o].
  cbn [client out] in *. unfold round. set (st := State cl w o) in *.
  pose proof (page_capacity cl ltac:(lia)) as Hc1. destruct (capacity tag per cl) as [cap|e] eqn:Hcap; [|done].
  fold n. set (end_ := Z.min _ n). set (chunk := slice _ _ ops). set (len := Z.of_nat (length chunk)).
  assert (Hlen : len = end_ - Z.of_nat (length o)).
  { unfold len, chunk, slice. rewrite length_drop, length_take. unfold n in *. lia. }
  assert (Hlr : 1 <= len <= n - Z.of_nat (length o)) by lia.
  assert (Hchunk : page_chunk st = len) by (unfold page_chunk; cbn [st client out]; rewrite Hcap; lia).
  destruct (bounded_limits cl len max_page_bytes) as [dc mc].
  destruct (build_pages dc mc (Compound.tag Compound.new (bstr tag)) chunk) as [Hops Hcache].
  set (c := foldl _ _ chunk) in *. cbn [Compound.tag Compound.keep Compound.ops Compound.new app] in Hops.
  assert (Hc : PreflightLemmas.cache_ok xdr_len c) by (intros l r Hsz; by rewrite Hcache in Hsz).
  destruct (NfsClient.call_compound _ _ _ _ _) as [[r cl'] w'] eqn:Hcall.
  destruct (send_outcomes rpc Hrpc xdr_len cl c w r cl' w' Hc Hcall) as [Hs Hout].
  destruct r as [res|e]; [|done]. rewrite Hops in Hout.
  apply (page_reply st len w res cl' w' dc mc Hi Hlr Hchunk); [by eapply SendLemmas.same_limits_trans|].
  cbn [st out]. by replace (length o + Z.to_nat len)%nat with (Z.to_nat end_) by lia.
Qed.

(** Enough fuel for every server, and what is then returned. *)
Lemma paged_ok fuel w : (n + 1) * (n + 1) <= Z.of_nat fuel →
  ∃ r cl' w', paged rpc xdr_len tag per max_page_bytes add extract fuel cl0 ops w = Done (r, cl', w') ∧
    paged_allowed (r, cl', w').
Proof.
  intros Hfuel. rewrite paged_unfold. case_decide as Hnil.
  { eexists _, _, _. split; [done|]. unfold paged_allowed. cbn [fst]. rewrite Hnil. constructor. }
  assert (Hi : paging (State cl0 w [])) by (split; cbn; [auto with vnfs|lia|done]).
  destruct (run_ok (λ st, Z.of_nat (length (out st)) <? n) (round rpc xdr_len tag per max_page_bytes add extract ops)
    (λ st, (Ok (out st), client st, world st)) paging page_measure paged_allowed) with (fuel := fuel) (st := State (R := R) cl0 w [])
    as ([[r cl'] w'] & Hrun & Hall); [| | |done| |by exists r, cl', w'].
  - intros st Hi'. pose proof (page_chunk_range st Hi'). pose proof (pg_out _ Hi'). unfold page_measure. nia.
  - intros st Hi' Hlt. by apply page_round.
  - intros st Hi' Hge. pose proof (pg_out _ Hi'). unfold paged_allowed. cbn [fst]. apply Forall2_same_length_lookup.
    split; [unfold n in *; lia|]. apply (pg_good _ Hi').
  - pose proof (page_chunk_range _ Hi). unfold page_measure. cbn [out length].
    assert (length ops ≠ 0%nat) by (by intros ?%nil_length_inv). unfold n in *. nia.
Qed.
End Loop.

(** A page the decoder produced can be collected. *)
Lemma page_collects st entries eof : resop_decoded (RReaddir st entries eof) → ∃ r, collect_readdir (entries, eof) = Some r.
Proof.
  intros Hd. destruct (PageLemmas.owned_views entries Hd) as [views HF].
  unfold collect_readdir. rewrite (PageLemmas.collect_entries_spec views entries [] 0 HF).
  cbn [mbind option_bind]. destruct (forallb _ views); [case_match|]; eauto.
Qed.

Lemma readdir_at res i st entries eof :
  CompoundRes.op res i = Some (RReaddir st entries eof) → st = NFS_OK → CompoundRes.readdir res i = Some (entries, eof).
Proof. intros Hop ->. unfold CompoundRes.readdir, CompoundRes.expect_op. by rewrite Hop. Qed.

(** What a page of a directory is to the caller. *)
Definition page_of (s : dir_server) (fh : nfs_fh4) (cookie : Z) (page : list DirEntry * Z) : Prop :=
  ∃ raw, ds_page s fh cookie raw ∧ collect_readdir raw = Some (Ok page).

Section Server.
Context {W : Type} (rpc : Compound.t → W → RpcResult COMPOUND4res * W) (s : dir_server) (Hserves : serves s rpc).

Lemma page_results attrs :
  pages_true rpc (λ res i, page ← CompoundRes.readdir res (2 + 2 * i); collect_readdir page)
    (λ dc mc op, [APutFh op.1; AReaddir op.2 zeroverf dc mc (Compound.bitmap attrs)])
    (λ op page, page_of s op.1 op.2 page).
Proof.
  intros dc mc items w res w' Hex Hst j [fh cookie] Hj.
  destruct (item_executed rpc s (λ op : nfs_fh4 * Z, [APutFh op.1; AReaddir op.2 zeroverf dc mc (Compound.bitmap attrs)]) 2
    items w res w' j (fh, cookie) Hserves ltac:(done) Hex Hst Hj) as (cur & rest & rs & Hrun & Hlen & Hop).
  destruct rs as [|r0 [|r1 rs]]; [cbn in Hlen; lia|cbn in Hlen; lia|].
  destruct (Hop 0%nat r0 eq_refl) as (_ & H0 & _). destruct (Hop 1%nat r1 eq_refl) as (Hop1 & H1 & Hdec).
  cbn [executes app fst snd] in Hrun. rewrite H0, H1 in Hrun. cbn [Z.eqb NFS_OK] in Hrun.
  destruct Hrun as (_ & (d & st & entries & eof & [= <-] & -> & Hpage) & _). cbn in H1.
  rewrite (readdir_at res _ st entries eof); [|by rewrite <-Hop1; f_equal; lia|done].
  cbn [mbind option_bind]. destruct (page_collects st entries eof Hdec) as [r Hr]. exists r. split; [done|].
  intros v ->. by exists (entries, eof).
Qed.

Lemma child_results attrs :
  pages_true rpc
    (λ res i, fh ← CompoundRes.getfh res (3 + 4 * i);
              page ← CompoundRes.readdir res (4 + 4 * i);
              r ← collect_readdir page;
              Some (match r with
                    | Ok (entries, cookie) => Ok (MkChildListing fh entries cookie)
                    | Err e => Err e
                    end))
    (λ dc mc op, [APutFh op.1; ALookup op.2; AGetFh; AReaddir 0 zeroverf dc mc (Compound.bitmap attrs)])
    (λ op l, ds_lookup s op.1 op.2 = Ok (ch_fh l) ∧ page_of s (ch_fh l) 0 (ch_entries l, ch_cookie l)).
Proof.
  intros dc mc items w res w' Hex Hst j [parent name] Hj.
  destruct (item_executed rpc s (λ op : nfs_fh4 * bytes, [APutFh op.1; ALookup op.2; AGetFh;
    AReaddir 0 zeroverf dc mc (Compound.bitmap attrs)]) 4 items w res w' j (parent, name) Hserves ltac:(done) Hex Hst Hj)
    as (cur & rest & rs & Hrun & Hlen & Hop).
  destruct rs as [|r0 [|r1 [|r2 [|r3 rs]]]]; try (cbn in Hlen; lia).
  destruct (Hop 0%nat r0 eq_refl) as (_ & H0 & _). destruct (Hop 1%nat r1 eq_refl) as (_ & H1 & _).
  destruct (Hop 2%nat r2 eq_refl) as (Hop2 & H2 & _). destruct (Hop 3%nat r3 eq_refl) as (Hop3 & H3 & Hdec).
  cbn [executes app fst snd] in Hrun. rewrite H0, H1, H2, H3 in Hrun. cbn [Z.eqb NFS_OK] in Hrun.
  destruct Hrun as (_ & d0 & x & [= <-] & Hl & (st2 & v & -> & Hv) & (d & st & entries & eof & [= <-] & -> & Hpage) & _).
  cbn in H2, H3. replace (CompoundRes.getfh res (3 + 4 * Z.of_nat j)) with (Some x).
  2:{ unfold CompoundRes.getfh, CompoundRes.expect_op. replace (3 + 4 * Z.of_nat j) with (1 + Z.of_nat 4 * Z.of_nat j + Z.of_nat 2) by lia.
      rewrite Hop2. cbn. by rewrite H2. }
  rewrite (readdir_at res _ st entries eof); [|by rewrite <-Hop3; f_equal; lia|done].
  cbn [mbind option_bind]. destruct (page_collects st entries eof Hdec) as [r Hr]. rewrite Hr. cbn [mbind option_bind].
  eexists. split; [done|]. destruct r as [[es ck]|e]; [|done]. intros l [= <-]. split; [done|]. by exists (entries, eof).
Qed.
End Server.

(** C34: Batched directory reads always finish and return the directories asked
    for.  Against every server, however it rejects sizes or fails,
    [readdir_pages_bounded] and [readdir_children_bounded] terminate; when they
    return a list, it has one entry per request, in order: a page the server has
    for that directory and cookie, and for a child the directory that its name
    in the given parent leads to, with the first page of that directory. *)
Theorem directory_pages_correct {W} (rpc : Compound.t → W → RpcResult COMPOUND4res * W) (xdr_len : Compound.t → Z)
    `{!XdrSizes xdr_len} (s : dir_server) (cl : NfsClient.t) (attrs : list Z) (max_page_bytes : Z)
    (pages : list (nfs_fh4 * Z)) (children : list (nfs_fh4 * bytes)) (w : W) (fuel : nat) :
  transport_ok rpc → serves s rpc → 0 <= NfsClient.max_ops cl →
  let bound k := (Z.of_nat k + 1) * (Z.of_nat k + 1) in
  bound (length pages) <= Z.of_nat fuel → bound (length children) <= Z.of_nat fuel →
  (∃ r cl' w', readdir_pages_bounded rpc xdr_len fuel cl pages attrs max_page_bytes w = Done (r, cl', w') ∧
     ∀ out, r = Ok out → Forall2 (λ op page, page_of s op.1 op.2 page) pages out) ∧
  (∃ r cl' w', readdir_children_bounded rpc xdr_len fuel cl children attrs max_page_bytes w = Done (r, cl', w') ∧
     ∀ out, r = Ok out → Forall2 (λ op l, ds_lookup s op.1 op.2 = Ok (ch_fh l) ∧
       page_of s (ch_fh l) 0 (ch_entries l, ch_cookie l)) children out).
Proof.
  intros Hrpc Hs Hmax bound Hf1 Hf2. split.
  - destruct (paged_ok rpc Hrpc xdr_len "readdir_pages" 2 max_page_bytes (add_page attrs) _ _ _
      (page_results rpc s Hs attrs) pages cl Hmax fuel w Hf1) as (r & cl' & w' & Hrun & Hall).
    exists r, cl', w'. split; [exact Hrun|]. by intros out ->.
  - destruct (paged_ok rpc Hrpc xdr_len "readdir_children" 4 max_page_bytes (add_child attrs) _ _ _
      (child_results rpc s Hs attrs) children cl Hmax fuel w Hf2) as (r & cl' & w' & Hrun & Hall).
    exists r, cl', w'. split; [exact Hrun|]. by intros out ->.
Qed.

Lemma directory_pages_correct_witness :
  ∃ cl' w', readdir_pages_bounded LookupLemmas.example_lookup_rpc SendLemmas.example_xdr_len 25
      LookupLemmas.example_lookup_client [(bstr "d", 0); (bstr "d", 1); (bstr "e", 2); (bstr "e", 0)] [] 8192 0 =
    Done (Ok [([MkDirEntry (bstr "x") 1 []], 1); ([MkDirEntry (bstr "x") 2 []], 2); ([MkDirEntry (bstr "x") 3 []], 0);
              ([MkDirEntry (bstr "x") 1 []], 1)], cl', w').
Proof.
  destruct LookupLemmas.example_lookup_rpc_ok as [Ht Hs].
  destruct (directory_pages_correct LookupLemmas.example_lookup_rpc SendLemmas.example_xdr_len LookupLemmas.example_dirs
    LookupLemmas.example_lookup_client [] 8192 [(bstr "d", 0); (bstr "d", 1); (bstr "e", 2); (bstr "e", 0)] [] 0 25 Ht Hs)
    as [(r & cl' & w' & E & _) _]; [by vm_compute|by vm_compute|by vm_compute|].
  assert (Hr : match readdir_pages_bounded LookupLemmas.example_lookup_rpc SendLemmas.example_xdr_len 25
      LookupLemmas.example_lookup_client [(bstr "d", 0); (bstr "d", 1); (bstr "e", 2); (bstr "e", 0)] [] 8192 0 with
    | Done (v, _, _) => v = Ok [([MkDirEntry (bstr "x") 1 []], 1); ([MkDirEntry (bstr "x") 2 []], 2);
        ([MkDirEntry (bstr "x") 3 []], 0); ([MkDirEntry (bstr "x") 1 []], 1)]
    | _ => False end) by (vm_compute; reflexivity).
  rewrite E in Hr. exists cl', w'. by rewrite E, Hr.
Defined.

(** The index an error of a batched directory read carries counts from the first item of its chunk, not from
    the first item of the call: the server fails only the fifth directory here,
    and the error names the first. *)
Example paged_error_index_is_chunk_local :
  match readdir_pages_bounded LookupLemmas.example_lookup_rpc SendLemmas.example_xdr_len 36
      LookupLemmas.example_lookup_client
      [(bstr "d", 0); (bstr "d", 0); (bstr "d", 0); (bstr "d", 0); (bstr "stale", 0)] [] 8192 0 with
  | Done (Err e, _, _) => e = RpcError.op 0 70
  | _ => False
  end.
Proof. vm_compute. reflexivity. Qed.
End PagedLemmas.
