(* ===== verification/Merged.v ===== *)
(** * Merged path compounds

    Models [getattr_path_compound], [setattr_path_compound],
    [removev_path_compound] and [renamev_path_compound] of
    [crates/vfsi-nfs/src/client.rs]: many operations that name their files by
    path share a compound, the cursor walks from the parent of one path to the
    parent of the next, and the execution map says which operations belong to
    which item. *)
From stdpp Require Import base numbers list list_numbers gmap strings.
From S2P Require Import Prelude Path Errors Types Planner Compound Session Cursor Client Loops Exchange Batch.

Inductive FileRef := FPath (path : bytes) | FHandle (fh : nfs_fh4).

Record PathGetattrOp := PathGetattr { pg_file : FileRef; pg_attrs : list Z }.
Record PathSetattrOp := PathSetattr {
  ps_file : FileRef;
  ps_mode : option Z;
  ps_uid : option Z;
  ps_gid : option Z;
  ps_size : option Z;
  ps_atime : option (Z * Z);
  ps_mtime : option (Z * Z);
  ps_check_type : bool;
}.
Record PathRenamePair := PathRename { pr_src : bytes; pr_dst : bytes }.

(** The builder, the cursor and the execution map of a compound under
    construction. *)
Record building := Building {
  b_cursor : CfhCursor.t;
  b_map : ExecutionMap.t;
  b_compound : Compound.t;
}.

(** ** What an item adds to the compound

    [false] for a path without a final component; what was appended before that
    was noticed stays in the builder. *)

Definition note (b : building) (n : nat) : building :=
  Building (b_cursor b) (ExecutionMap.note_ops (b_map b) (Z.of_nat n)) (b_compound b).

(** [cursor.set_parent(&mut c, p)?; map.note_ops(nops)], with the leaf. *)
Definition at_parent (b : building) (path : bytes) : option (bytes * building) :=
  '(leaf, nops, cursor, c) ← CfhCursor.set_parent (b_cursor b) (b_compound b) path;
  Some (leaf, note (Building cursor (b_map b) c) nops).

(** One operation, noted. *)
Definition add_op (b : building) (f : Compound.t → Compound.t) : building :=
  note (Building (b_cursor b) (b_map b) (f (b_compound b))) 1.

Definition end_item (b : building) : building :=
  Building (b_cursor b) (ExecutionMap.end_ (b_map b)) (b_compound b).
Definition end_and_descend (b : building) : building :=
  Building (CfhCursor.descend (b_cursor b)) (ExecutionMap.end_ (b_map b)) (b_compound b).

(** [match &op.file { Path => set_parent, lookup; Handle => set_handle }]. *)
Definition at_file (b : building) (file : FileRef) : option building :=
  match file with
  | FPath p => '(leaf, b) ← at_parent b p; Some (add_op b (λ c, Compound.lookup c leaf))
  | FHandle fh =>
      let '(cursor, c) := CfhCursor.set_handle (b_cursor b) (b_compound b) fh in
      Some (note (Building cursor (b_map b) c) 1)
  end.

Definition emit_getattr (op : PathGetattrOp) (b : building) : bool * building :=
  match at_file b (pg_file op) with
  | None => (false, b)
  | Some b => (true, end_and_descend (add_op b (λ c, Compound.getattr c (pg_attrs op))))
  end.

(** What precedes SETATTR: NVERIFY under a symlink guard, or the type asked for;
    [guard] is the item's symlink guard, [None] without guards. *)
Definition checked (op : PathSetattrOp) (guard : option bool) (b : building) : building :=
  match guard with
  | Some true => add_op b (λ c, Compound.nverify_type c NF4LNK)
  | Some false => b
  | None => if ps_check_type op then add_op b (λ c, Compound.getattr c [FATTR4_TYPE]) else b
  end.

Definition emit_setattr (item : PathSetattrOp * option bool) (b : building) : bool * building :=
  let '(op, guard) := item in
  match at_file b (ps_file op) with
  | None => (false, b)
  | Some b =>
      (true, end_and_descend (add_op (checked op guard b) (λ c,
         Compound.setattr_ownership c (ps_mode op) (ps_size op) (ps_uid op, ps_gid op)
           (ps_atime op) (ps_mtime op) zero_stateid)))
  end.

(** REMOVE leaves the current filehandle on the parent. *)
Definition emit_remove (path : bytes) (b : building) : bool * building :=
  match at_parent b path with
  | None => (false, b)
  | Some (leaf, b) => (true, end_item (add_op b (λ c, Compound.remove c leaf)))
  end.

Definition emit_rename (pair : PathRenamePair) (b : building) : bool * building :=
  match at_parent b (pr_src pair) with
  | None => (false, b)
  | Some (sname, b) =>
      match CfhCursor.set_current_parent (b_cursor b) (b_compound b) (pr_dst pair) with
      | None => (false, b)
      | Some (dname, dnops, cursor, c) =>
          let b := note (Building cursor (b_map b) c) dnops in
          (true, end_and_descend (add_op b (λ c, Compound.rename c sname dname)))
      end
  end.

(** ** The loop the merged operations share *)

Module Merged.
Section Loop.
Context {W : Type} (rpc : Compound.t → W → RpcResult COMPOUND4res * W) (xdr_len : Compound.t → Z).
Context {T Out : Type}.

(** What distinguishes one operation from another: the tag, the budget
    parameters, what an item adds, how the compound is sent, when a rejected one
    is sent again, and what a reply stores. *)
Record shape := Shape {
  sh_tag : string;
  sh_per_file : Z;
  sh_reserve : Z;
  sh_est : Z;
  sh_emit : T → building → bool * building;
  sh_safety : option RequestSafety;
  sh_retry : NfsClient.t → bytes → COMPOUND4res → Z → Z → Z → bool;
  sh_collect : COMPOUND4res → list ExecutionMap.range → Out → option Out;
}.
Context (sh : shape).

Record state := State {
  client : NfsClient.t;
  world : W;
  global : Z;
  max_items : Z;
  out : Out;
  failed : option (Z * Z);
}.

(** The answer: the results and the first failure, or an error. *)
Definition answer : Type := RpcResult (Out * option (Z * Z)) * NfsClient.t * W.

(** [while global < n && map.ranges.len() < max_items && map.next + per_file <= budget]
    over the items from [global] on; a path without a leaf sets [failed] and
    [global = n]. *)
Fixpoint fill (arg_bytes budget max_items n : Z) (items : list T) (global payload : Z) (b : building)
    : option (Z * Z) * Z * building :=
  match items with
  | [] => (None, global, b)
  | item :: items =>
      if (Z.of_nat (length (ExecutionMap.ranges (b_map b))) <? max_items) &&
         (ExecutionMap.next (b_map b) + sh_per_file sh <=? budget) then
        if (0 <? payload) && (0 <? arg_bytes) && (arg_bytes <? payload + sh_est sh) then (None, global, b)
        else
          let begun := Building (b_cursor b) (ExecutionMap.begin (b_map b) global) (b_compound b) in
          match sh_emit sh item begun with
          | (false, b) => (Some (global, NFS4ERR_INVAL), n, b)
          | (true, b) =>
              let payload := payload + sh_est sh in
              let global := global + 1 in
              if (budget <? ExecutionMap.next (b_map b) + sh_per_file sh) && (global <? n) then (None, global, b)
              else fill arg_bytes budget max_items n items global payload b
          end
      else (None, global, b)
  end.

Definition budget_of (cl : NfsClient.t) : Z :=
  CompoundBudget.merged_limit (NfsClient.op_budget_for cl (bstr (sh_tag sh)) (1 + sh_per_file sh))
    (sh_reserve sh) (sh_per_file sh).

Definition send (cl : NfsClient.t) (c : Compound.t) (w : W) : RpcResult COMPOUND4res * NfsClient.t * W :=
  match sh_safety sh with
  | Some safety => NfsClient.call_compound_with_safety rpc xdr_len cl c safety w
  | None => NfsClient.call_compound rpc xdr_len cl c w
  end.

(** [failed.get_or_insert((chunk_start, TOO_MANY_OPS))]. *)
Definition or_too_many (failed : option (Z * Z)) (chunk_start : Z) : option (Z * Z) :=
  Some (default (chunk_start, NFS4ERR_TOO_MANY_OPS) failed).

(** After the reply: the results of the items before the failed one, or of all. *)
Definition after_reply (cl : NfsClient.t) (w : W) (chunk_start global budget : Z) (o : Out)
    (failed : option (Z * Z)) (map : ExecutionMap.t) (res : COMPOUND4res) : option (turn state answer) :=
  if sh_retry sh cl (bstr (sh_tag sh)) res budget (sh_reserve sh) (sh_per_file sh)
  then Some (Again (State cl w chunk_start USIZE_MAX o failed))
  else
    match first_failed_range res map with
    | Err e => Some (Return (Err e, cl, w))
    | Ok (Some (caller, st)) =>
        o ← sh_collect sh res (filter (λ r, ExecutionMap.r_caller r < caller) (ExecutionMap.ranges map)) o;
        Some (Return (Ok (o, Some (caller, st)), cl, w))
    | Ok None =>
        o ← sh_collect sh res (ExecutionMap.ranges map) o;
        if chunk_start =? global
        then Some (Return (Ok (o, or_too_many failed chunk_start), cl, w))
        else Some (Again (State cl w global USIZE_MAX o failed))
    end.

Definition round (ops : list T) (st : state) : option (turn state answer) :=
  let 'State cl w chunk_start max_items o failed := st in
  let budget := budget_of cl in
  let start := Building CfhCursor.default_cursor ExecutionMap.new
                 (Compound.tag Compound.new (bstr (sh_tag sh))) in
  let '(invalid, global, b) :=
    fill (NfsClient.max_request_arg_bytes cl) budget max_items (Z.of_nat (length ops))
      (drop (Z.to_nat chunk_start) ops) chunk_start 0 start in
  let failed := match invalid with Some f => Some f | None => failed end in
  let items := Z.of_nat (length (ExecutionMap.ranges (b_map b))) in
  if items =? 0 then Some (Return (Ok (o, or_too_many failed chunk_start), cl, w))
  else
    let '(repack, c) :=
      match failed with
      | None => NfsClient.merged_paths_need_repack xdr_len cl (bstr (sh_tag sh)) (1 + sh_per_file sh)
                  (b_compound b) items
      | Some _ => (false, b_compound b)
      end in
    if repack then Some (Again (State cl w chunk_start (items - 1) o failed))
    else
      let '(r, cl, w) := send cl c w in
      match r with
      | Err e => Some (Return (Err e, cl, w))
      | Ok res => after_reply cl w chunk_start global budget o failed (b_map b) res
      end.

Definition merged (fuel : nat) (cl : NfsClient.t) (ops : list T) (o : Out) (w : W) : outcome answer :=
  run (λ st, global st <? Z.of_nat (length ops)) (round ops)
    (λ st, (Ok (out st, failed st), client st, world st)) fuel (State cl w 0 USIZE_MAX o None).
End Loop.
Arguments shape : clear implicits.
Arguments state : clear implicits.
End Merged.

(** ** The operations *)

(** [for (c, s, e) in ranges { for j in s..e { if op(j) is GETATTR { out[c] = f(bytes) } } }]. *)
Fixpoint collect_getattrs_in {A} (f : bytes → option A) (res : COMPOUND4res) (caller from : Z) (count : nat)
    (o : list (option A)) : option (list (option A)) :=
  match count with
  | O => Some o
  | S count =>
      r ← CompoundRes.op res from;
      o ← (if resop_num r =? OP_GETATTR
           then b ← CompoundRes.getattr res from; vec_set o caller (f b)
           else Some o);
      collect_getattrs_in f res caller (from + 1) count o
  end.

Fixpoint collect_getattrs {A} (f : bytes → option A) (res : COMPOUND4res) (rs : list ExecutionMap.range)
    (o : list (option A)) : option (list (option A)) :=
  match rs with
  | [] => Some o
  | r :: rs =>
      o ← collect_getattrs_in f res (ExecutionMap.r_caller r) (ExecutionMap.r_start r)
            (Z.to_nat (ExecutionMap.r_end r - ExecutionMap.r_start r)) o;
      collect_getattrs f res rs o
  end.

(** [for (c, _, _) in ranges { done[c] = Some(()) }]. *)
Fixpoint mark_done (rs : list ExecutionMap.range) (o : list (option unit)) : option (list (option unit)) :=
  match rs with
  | [] => Some o
  | r :: rs => o ← vec_set o (ExecutionMap.r_caller r) (Some tt); mark_done rs o
  end.

(** [(b.len() >= 4).then(|| u32::from_be_bytes(b[0..4]))]. *)
Definition type_of_attrs (b : bytes) : option Z :=
  if 4 <=? Z.of_nat (length b) then Some (be_u32 b) else None.

Definition getattrv_shape : Merged.shape PathGetattrOp (list (option bytes)) :=
  Merged.Shape "getattrv1" 4 16 256 emit_getattr (Some IdempotentMutation)
    NfsClient.can_retry_read_only_merged_resource (collect_getattrs Some).

Definition setattrv_shape : Merged.shape (PathSetattrOp * option bool) (list (option Z)) :=
  Merged.Shape "setattrv1" 5 16 256 emit_setattr None
    NfsClient.can_retry_merged_resource (collect_getattrs type_of_attrs).

Definition removev_shape : Merged.shape bytes (list (option unit)) :=
  Merged.Shape "removev1" 3 16 128 emit_remove (Some NonIdempotentMutation)
    NfsClient.can_retry_merged_resource (λ _, mark_done).

Definition renamev_shape : Merged.shape PathRenamePair (list (option unit)) :=
  Merged.Shape "renamev1" 8 16 256 emit_rename (Some NonIdempotentMutation)
    NfsClient.can_retry_merged_resource (λ _, mark_done).

Section Operations.
Context {W : Type} (rpc : Compound.t → W → RpcResult COMPOUND4res * W) (xdr_len : Compound.t → Z).

Definition getattr_path_compound (fuel : nat) (cl : NfsClient.t) (ops : list PathGetattrOp) (w : W) :=
  Merged.merged rpc xdr_len getattrv_shape fuel cl ops (replicate (length ops) None) w.

Definition setattr_path_compound (fuel : nat) (cl : NfsClient.t) (ops : list PathSetattrOp) (w : W) :=
  Merged.merged rpc xdr_len setattrv_shape fuel cl ((λ op, (op, None)) <$> ops) (replicate (length ops) None) w.

Definition setattr_path_compound_guarded (fuel : nat) (cl : NfsClient.t) (ops : list PathSetattrOp)
    (guards : list bool) (w : W) :=
  if bool_decide (length ops = length guards)
  then Merged.merged rpc xdr_len setattrv_shape fuel cl (zip ops (Some <$> guards)) [] w
  else Done (Err (RpcError.transport "invalid SETATTR symlink-guard count"), cl, w).

Definition removev_path_compound (fuel : nat) (cl : NfsClient.t) (paths : list bytes) (w : W) :=
  Merged.merged rpc xdr_len removev_shape fuel cl paths (replicate (length paths) None) w.

Definition renamev_path_compound (fuel : nat) (cl : NfsClient.t) (pairs : list PathRenamePair) (w : W) :=
  Merged.merged rpc xdr_len renamev_shape fuel cl pairs (replicate (length pairs) None) w.
End Operations.

(** ** What the server does with a merged compound *)

(** The effects of the mutating operations, with the filehandles they apply to. *)
Inductive effect :=
  | ERemove (dir : nfs_fh4) (name : bytes)
  | ERename (sdir : nfs_fh4) (sname : bytes) (ddir : nfs_fh4) (dname : bytes)
  | ESetattr (fh : nfs_fh4) (attrs : fattr4).

Section Effects.
Context (s : fh_server).

(** A successful operation in the tree [s]: the filehandle slots after it, and
    its effect. *)
Definition path_step (m : fhs) (op : argop) : option (fhs * list effect) :=
  match op with
  | ARemove n => d ← cur m; if fh_is_dir s d then Some (m, [ERemove d n]) else None
  | ARename o n =>
      sd ← sav m; dd ← cur m; if fh_is_dir s sd && fh_is_dir s dd then Some (m, [ERename sd o dd n]) else None
  | ASetattr _ a => x ← cur m; Some (m, [ESetattr x a])
  | AGetattr _ | ANverify _ => x ← cur m; Some (m, [])
  | _ => m ← fh_step s m op; Some (m, [])
  end.

Fixpoint path_run (m : fhs) (ops : list argop) : option (fhs * list effect) :=
  match ops with
  | [] => Some (m, [])
  | op :: ops => '(m, es) ← path_step m op; '(m, es') ← path_run m ops; Some (m, es ++ es')
  end.

(** [log] lists the effects on a server whose names stay as they are.  Of every
    request some prefix is carried out; when the client accepts the reply, it is
    the prefix the reply shows. *)
Definition executes_paths {W} (rpc : Compound.t → W → RpcResult COMPOUND4res * W) (log : W → list effect) : Prop :=
  ∀ c w r w' sid q ops, rpc c w = (r, w') → Compound.ops c = ASequence sid q 0 0 :: ops →
    ∃ k m es, path_run (Fhs None None) (take k ops) = Some (m, es) ∧ log w' = log w ++ es ∧
      ∀ res, r = Ok res → reply_ok (Compound.ops c) res → k = ops_done res.

(** What an item is meant to do: its effect at the directories its paths name,
    resolved from the root. *)
Definition parent_of (path : bytes) : option (nfs_fh4 * bytes) :=
  '(dir, leaf) ← result_ok (split_path_bytes path); d ← resolve_dir s dir; Some (d, leaf).
Definition file_of (file : FileRef) : option nfs_fh4 :=
  match file with
  | FPath p => '(d, leaf) ← parent_of p; fh_lookup s d leaf
  | FHandle fh => Some fh
  end.

Definition remove_effect (path : bytes) : option (list effect) :=
  '(d, leaf) ← parent_of path; Some [ERemove d leaf].
Definition rename_effect (pair : PathRenamePair) : option (list effect) :=
  '(sd, sname) ← parent_of (pr_src pair); '(dd, dname) ← parent_of (pr_dst pair);
  Some [ERename sd sname dd dname].
Definition setattr_effect (item : PathSetattrOp * option bool) : option (list effect) :=
  x ← file_of (ps_file item.1);
  Some [ESetattr x (Compound.setattr_fattr (ps_mode item.1) (ps_size item.1) (ps_uid item.1) (ps_gid item.1)
                      (ps_atime item.1) (ps_mtime item.1))].
Definition getattr_effect (op : PathGetattrOp) : option (list effect) :=
  x ← file_of (pg_file op); Some [].
End Effects.

(** *** A tree that changes

    [tree l] are the directories after the effects [l]: an entry that was removed
    or renamed is no longer found, and what a path leads to can change with
    every operation of a compound. *)
Section Live.
Context (tree : list effect → fh_server).

Fixpoint live_run (l : list effect) (m : fhs) (ops : list argop) : option (fhs * list effect) :=
  match ops with
  | [] => Some (m, [])
  | op :: ops => '(m, es) ← path_step (tree l) m op; '(m, es') ← live_run (l ++ es) m ops; Some (m, es ++ es')
  end.

Definition executes_live {W} (rpc : Compound.t → W → RpcResult COMPOUND4res * W) (log : W → list effect) : Prop :=
  ∀ c w r w' sid q ops, rpc c w = (r, w') → Compound.ops c = ASequence sid q 0 0 :: ops →
    ∃ k m es, live_run (log w) (Fhs None None) (take k ops) = Some (m, es) ∧ log w' = log w ++ es ∧
      ∀ res, r = Ok res → reply_ok (Compound.ops c) res → k = ops_done res.

(** What a list of items is meant to do: one after the other, each at the
    directories its paths name when its turn comes. *)
Fixpoint in_turn {T} (intended : fh_server → T → option (list effect)) (l : list effect) (items : list T)
    : option (list effect) :=
  match items with
  | [] => Some []
  | item :: items => es ← intended (tree l) item; es' ← in_turn intended (l ++ es) items; Some (es ++ es')
  end.

(** The directory whose entry an effect takes away; attributes are of no
    directory. *)
Definition acts_in (e : effect) (d : nfs_fh4) : Prop :=
  match e with ERemove d' _ | ERename d' _ _ _ => d' = d | ESetattr _ _ => True end.

(** At every moment the directories are a tree, and an entry taken away was not on
    the way to its own directory. *)
Class LiveTree : Prop := {
  live_tree l :: FhTree (tree l);
  live_stays l e dir d : acts_in e d → resolve_dir (tree l) dir = Some d → fh_is_dir (tree l) d = true →
    resolve_dir (tree (l ++ [e])) dir = Some d ∧ fh_is_dir (tree (l ++ [e])) d = true;
}.
End Live.

Module EmitLemmas.
Import CursorLemmas CfhCursor.

(** What was appended to a building: operations, noted in the map. *)
Record extends (b b' : building) (ops : list argop) : Prop := {
  ex_ops : Compound.ops (b_compound b') = Compound.ops (b_compound b) ++ ops;
  ex_tag : Compound.tag_ (b_compound b') = Compound.tag_ (b_compound b);
  ex_cache : Compound.size_check (b_compound b) = None → Compound.size_check (b_compound b') = None;
  ex_ranges : ExecutionMap.ranges (b_map b') = ExecutionMap.ranges (b_map b);
  ex_next : ExecutionMap.next (b_map b) <= U64_MAX →
    ExecutionMap.next (b_map b') = sat_add (ExecutionMap.next (b_map b)) (Z.of_nat (length ops));
}.

Lemma extends_refl b : extends b b [].
Proof. split; try done; [by rewrite app_nil_r|]. intros. cbn. unfold sat_add. lia. Qed.

Lemma extends_trans b1 b2 b3 a c : extends b1 b2 a → extends b2 b3 c → extends b1 b3 (a ++ c).
Proof.
  intros [H1 H2 H3 H4 H5] [J1 J2 J3 J4 J5]. split; try congruence; try tauto.
  - by rewrite J1, H1, app_assoc.
  - intros Hle. rewrite J5, H5, length_app by (rewrite ?H5 by done; unfold sat_add; lia). unfold sat_add. lia.
Qed.

Lemma extends_add b f op : (∀ c, Compound.ops (f c) = Compound.ops c ++ [op]) →
  (∀ c, Compound.tag_ (f c) = Compound.tag_ c) → (∀ c, Compound.size_check (f c) = None) →
  extends b (add_op b f) [op].
Proof. intros H1 H2 H3. by split; cbn. Qed.

Lemma split_size path dir leaf : split_path_bytes path = Ok (dir, leaf) →
  (length (path_components dir) <= length path)%nat.
Proof.
  intros H. pose proof (split_path_bytes_spec path) as Hs. rewrite H in Hs. destruct Hs as (_ & _ & Hs).
  rewrite path_components_comps. apply (f_equal length) in Hs. rewrite length_app in Hs. cbn in Hs.
  assert (length (comps path) <= S (length path))%nat; [|lia]. unfold comps.
  etrans; [apply length_filter|apply split_on_length].
Qed.

Lemma at_parent_shape b path :
  match result_ok (split_path_bytes path) with
  | None => at_parent b path = None
  | Some (dir, leaf) =>
      ∃ b' ops, at_parent b path = Some (leaf, b') ∧ extends b b' ops ∧ b_cursor b' = Make (Some dir) true ∧
        Forall (λ op, walks op ∨ op = ASaveFh) ops ∧ (length ops <= 2 + length (path_components dir))%nat
  end.
Proof.
  pose proof (set_parent_shape (b_cursor b) (b_compound b) path) as H. unfold at_parent.
  destruct (result_ok (split_path_bytes path)) as [[dir leaf]|]; [|by rewrite H].
  destruct H as (c' & ops & -> & Hops & Hw & Hlen & Htag & Hc). cbn.
  eexists _, ops. split; [done|]. split; [split; cbn; done|]. done.
Qed.

Section Run.
Context (s : fh_server) `{!FhTree s}.

Lemma path_run_app m a b : path_run s m (a ++ b) =
  '(m1, e1) ← path_run s m a; '(m2, e2) ← path_run s m1 b; Some (m2, e1 ++ e2).
Proof.
  revert m. induction a as [|op a IH]; intros m; cbn; [by destruct (path_run s m b) as [[]|]|].
  destruct (path_step s m op) as [[m1 e1]|]; cbn; [|done]. rewrite IH.
  destruct (path_run s m1 a) as [[m2 e2]|]; cbn; [|done]. destruct (path_run s m2 b) as [[m3 e3]|]; cbn; [|done].
  by rewrite app_assoc.
Qed.

(** Walks have no effect. *)
Lemma path_run_walks m ops : Forall (λ op, walks op ∨ op = ASaveFh) ops →
  path_run s m ops = m' ← fh_run s m ops; Some (m', []).
Proof.
  intros H. revert m. induction H as [|op ops Hop _ IH]; intros m; [done|]. cbn [path_run]. rewrite fh_run_cons.
  assert (path_step s m op = m' ← fh_step s m op; Some (m', [])) as -> by (by destruct op, Hop).
  destruct (fh_step s m op) as [m'|]; cbn; [|done]. rewrite IH. by destruct (fh_run s m' ops).
Qed.

(** Nor have the other operations before the last of an item. *)
Definition quiet (op : argop) : bool :=
  match op with ARemove _ | ARename _ _ | ASetattr _ _ => false | _ => true end.

Lemma walks_quiet ops : Forall (λ op, walks op ∨ op = ASaveFh) ops → Forall quiet ops.
Proof. intros H. eapply Forall_impl; [exact H|]. by intros [] []. Qed.

Lemma quiet_run m ops m' es : Forall quiet ops → path_run s m ops = Some (m', es) → es = [].
Proof.
  intros H. revert m m' es. induction H as [|op ops Hop _ IH]; intros m m' es; [by intros [= _ <-]|]. cbn [path_run].
  intros ([m1 e1] & Hstep & ([m2 e2] & Hrun & [= _ <-])%bind_Some)%bind_Some. rewrite (IH _ _ _ Hrun), app_nil_r.
  destruct op; try done; cbn in Hstep; by repeat (apply bind_Some in Hstep as (? & ? & Hstep) || simplify_eq).
Qed.

(** An item acts with its last operation, or not at all. *)
Lemma item_prefix m ops op k m' es : Forall quiet ops →
  path_run s m (take k (ops ++ [op])) = Some (m', es) →
  if (length (ops ++ [op]) <=? k)%nat
  then ∃ m1, path_run s m ops = Some (m1, []) ∧ path_step s m1 op = Some (m', es) else es = [].
Proof.
  intros Hq. rewrite length_app. cbn [length]. destruct (Nat.leb_spec (length ops + 1) k) as [Hk|Hk].
  - rewrite take_ge, path_run_app by (rewrite length_app; cbn; lia).
    intros ([m1 e1] & Hrun & ([m2 e2] & Hstep & [= -> <-])%bind_Some)%bind_Some.
    pose proof (quiet_run _ _ _ _ Hq Hrun) as ->. exists m1. split; [done|]. revert Hstep. cbn.
    intros ([m3 e3] & -> & [= -> <-])%bind_Some. by rewrite app_nil_r.
  - rewrite take_app_le by lia. apply quiet_run. by apply Forall_take.
Qed.

(** Positioning on the parent of a path. *)
Lemma parent_run b path dir leaf b' ops m m1 es :
  tracks s (b_cursor b) m → split_path_bytes path = Ok (dir, leaf) →
  at_parent b path = Some (leaf, b') → extends b b' ops → path_run s m ops = Some (m1, es) →
  ∃ d, resolve_dir s dir = Some d ∧ m1 = Fhs (Some d) (Some d).
Proof.
  intros Htr Hs Hat Hex Hrun. pose proof (at_parent_shape b path) as Hsh. rewrite Hs in Hsh.
  destruct Hsh as (b2 & ops2 & Hat2 & Hex2 & _ & Hw & _). rewrite Hat in Hat2. injection Hat2 as <-.
  assert (ops2 = ops) as ->.
  { pose proof (ex_ops _ _ _ Hex) as H1. rewrite (ex_ops _ _ _ Hex2) in H1. by apply app_inv_head in H1. }
  destruct (set_parent_ok s (b_cursor b) (b_compound b) path dir leaf m Htr Hs) as (c' & ops' & Hset & Hops & _ & Hfh).
  unfold at_parent in Hat. rewrite Hset in Hat. injection Hat as <-.
  pose proof (ex_ops _ _ _ Hex) as H1. cbn in H1. rewrite Hops in H1. apply app_inv_head in H1 as ->.
  rewrite path_run_walks, Hfh in Hrun by done. destruct (resolve_dir s dir) as [d|]; [|done].
  exists d. by injection Hrun as <-.
Qed.
(** The same for the second path of RENAME. *)
Lemma current_parent_run self c path dir leaf n self' c' ops m m' d :
  tracks s self m → split_path_bytes path = Ok (dir, leaf) →
  set_current_parent self c path = Some (leaf, n, self', c') → Compound.ops c' = Compound.ops c ++ ops →
  fh_run s m ops = Some m' → cur m' = Some d → resolve_dir s dir = Some d.
Proof.
  intros Htr Hs Hset Hops Hfh Hcur.
  destruct (set_current_parent_ok s self c path dir leaf m Htr Hs) as (self2 & c2 & ops2 & Hset2 & Hops2 & _ & Hfh2).
  rewrite Hset in Hset2. injection Hset2 as _ <- <-. rewrite Hops in Hops2. apply app_inv_head in Hops2 as ->.
  rewrite Hfh in Hfh2. destruct (resolve_dir s dir) as [x|]; [|done]. cbn in Hfh2. injection Hfh2 as ->. done.
Qed.

(** Positioning on a file. *)
Lemma file_run b file b' ops m m1 es :
  tracks s (b_cursor b) m → at_file b file = Some b' → extends b b' ops → path_run s m ops = Some (m1, es) →
  ∃ x, file_of s file = Some x ∧ cur m1 = Some x ∧ tracks s (descend (b_cursor b')) m1.
Proof.
  intros Htr Hat Hex Hrun. destruct file as [path|fh]; cbn [at_file] in Hat.
  - pose proof (at_parent_shape b path) as Hp.
    destruct (split_path_bytes path) as [[dir leaf]|e] eqn:Hs; cbn [result_ok] in Hp; [|by rewrite Hp in Hat].
    destruct Hp as (b1 & nav & Hat1 & Hex1 & Hcur & Hw & _). rewrite Hat1 in Hat. cbn in Hat. injection Hat as <-.
    assert (ops = nav ++ [ALookup leaf]) as ->.
    { pose proof (ex_ops _ _ _ Hex) as H1. cbn in H1. rewrite (ex_ops _ _ _ Hex1), <-app_assoc in H1. by apply app_inv_head in H1. }
    rewrite path_run_app in Hrun. apply bind_Some in Hrun as ([m2 e2] & Hnav & Hrun).
    destruct (parent_run b path dir leaf b1 nav m m2 e2 Htr Hs Hat1 Hex1 Hnav) as (d & Hd & ->).
    cbn in Hrun. destruct (fh_lookup s d leaf) as [x|] eqn:Hx; [|done]. cbn in Hrun. injection Hrun as <- _.
    exists x. unfold file_of, parent_of. rewrite Hs. cbn [result_ok mbind option_bind]. rewrite Hd. cbn.
    split; [done|]. split; [done|]. rewrite Hcur. apply (tracks_descend s (Make (Some dir) true) (Fhs (Some d) (Some d))), tracks_here;
      [done|by eapply lookup_in_dir].
  - injection Hat as <-. assert (ops = [APutFh fh]) as ->.
    { pose proof (ex_ops _ _ _ Hex) as H1. cbn in H1. by apply app_inv_head in H1. }
    cbn in Hrun. injection Hrun as <- _. exists fh. split; [done|]. split; [done|].
    cbn. by apply (tracks_descend s (Make (saved_dir (b_cursor b)) false) (Fhs (cur m) (sav m))), tracks_descend_self.
Qed.
End Run.

Definition file_size (file : FileRef) : Z :=
  match file with FPath p => 4 + Z.of_nat (length p) | FHandle _ => 1 end.

Lemma at_file_shape b file b' : at_file b file = Some b' →
  ∃ ops, extends b b' ops ∧ Forall quiet ops ∧ Forall (λ op, argop_num op ≠ OP_GETATTR) ops ∧ ops ≠ [] ∧
    Z.of_nat (length ops) <= file_size file.
Proof.
  destruct file as [path|fh]; cbn [at_file].
  - pose proof (at_parent_shape b path) as Hp.
    destruct (split_path_bytes path) as [[dir leaf]|e] eqn:Hs; cbn [result_ok] in Hp; [|by rewrite Hp].
    destruct Hp as (b1 & nav & -> & Hex & _ & Hw & Hlen). cbn. intros [= <-]. exists (nav ++ [ALookup leaf]).
    split; [eapply extends_trans; [done|by apply extends_add]|]. split; [apply Forall_app; split; [by apply walks_quiet|by repeat constructor]|].
    split; [apply Forall_app; split; [eapply Forall_impl; [exact Hw|by intros [] []]|by repeat constructor]|].
    split; [by destruct nav|]. pose proof (split_size path dir leaf Hs). rewrite length_app. cbn. lia.
  - intros [= <-]. exists [APutFh fh]. split; [by split|]. split_and!; [by repeat constructor|by repeat constructor|done|cbn; lia].
Qed.

(** At most one effect, in the directory the cursor has saved. *)
Definition settled (s : fh_server) (self : CfhCursor.t) (es : list effect) : Prop :=
  (length es <= 1)%nat ∧ Forall (λ e, ∀ dir d, saved_dir self = Some dir → resolve_dir s dir = Some d → acts_in e d) es.

(** What [emit] promises of an item: operations of bounded number, all noted, of
    which only the last one has an effect, the intended one, in the directory the
    cursor has saved; after it the cursor still describes the slots. *)
Class EmitsItem {T} (emit : T → building → bool * building)
    (intended : fh_server → T → option (list effect)) (size : T → Z) : Prop := {
  emits item b ok b' : emit item b = (ok, b') → ∃ b1 ops, extends b b1 ops ∧
    Z.of_nat (length ops) <= size item ∧ b_compound b' = b_compound b1 ∧
    (if ok then b_map b' = ExecutionMap.end_ (b_map b1) ∧ ops ≠ [] else b_map b' = b_map b1) ∧
    Forall quiet (if ok then removelast ops else ops) ∧
    ∀ s, FhTree s → ∀ m k m' es, tracks s (b_cursor b) m → path_run s m (take k ops) = Some (m', es) →
      if ok && (length ops <=? k)%nat
      then tracks s (b_cursor b') m' ∧ intended s item = Some es ∧ settled s (b_cursor b') es else es = [];
  emits_same item b1 b2 : (emit item b1).1 = (emit item b2).1;
}.

Lemma settled_one s self e : (∀ dir d, saved_dir self = Some dir → resolve_dir s dir = Some d → acts_in e d) →
  settled s self [e].
Proof. intros H. split; [done|]. by constructor. Qed.

(** Whether an item is accepted depends on its paths alone. *)
Lemma remove_same path b1 b2 : (emit_remove path b1).1 = (emit_remove path b2).1.
Proof.
  unfold emit_remove. pose proof (at_parent_shape b1 path) as H1. pose proof (at_parent_shape b2 path) as H2.
  destruct (result_ok _) as [[dir leaf]|]; [|by rewrite H1, H2].
  destruct H1 as (? & ? & -> & _), H2 as (? & ? & -> & _). done.
Qed.

Lemma rename_same pair b1 b2 : (emit_rename pair b1).1 = (emit_rename pair b2).1.
Proof.
  unfold emit_rename. pose proof (at_parent_shape b1 (pr_src pair)) as H1. pose proof (at_parent_shape b2 (pr_src pair)) as H2.
  destruct (result_ok _) as [[dir leaf]|]; [|by rewrite H1, H2].
  destruct H1 as (c1 & ? & -> & _), H2 as (c2 & ? & -> & _).
  pose proof (set_current_parent_shape (b_cursor c1) (b_compound c1) (pr_dst pair)) as H1.
  pose proof (set_current_parent_shape (b_cursor c2) (b_compound c2) (pr_dst pair)) as H2.
  destruct (result_ok _) as [[ddir dleaf]|]; [|by rewrite H1, H2].
  destruct H1 as (? & ? & ? & -> & _), H2 as (? & ? & ? & -> & _). done.
Qed.

Lemma at_file_same file b1 b2 : at_file b1 file = None ↔ at_file b2 file = None.
Proof.
  unfold at_file. destruct file as [path|fh]; [|done].
  pose proof (at_parent_shape b1 path) as H1. pose proof (at_parent_shape b2 path) as H2.
  destruct (result_ok _) as [[dir leaf]|]; [|by rewrite H1, H2].
  destruct H1 as (? & ? & -> & _), H2 as (? & ? & -> & _). done.
Qed.

Lemma getattr_same op b1 b2 : (emit_getattr op b1).1 = (emit_getattr op b2).1.
Proof.
  unfold emit_getattr. pose proof (at_file_same (pg_file op) b1 b2) as [H1 H2].
  destruct (at_file b1 _), (at_file b2 _); [done|by specialize (H2 eq_refl)|by specialize (H1 eq_refl)|done].
Qed.

Lemma setattr_same item b1 b2 : (emit_setattr item b1).1 = (emit_setattr item b2).1.
Proof.
  destruct item as [op guard]. unfold emit_setattr.
  pose proof (at_file_same (ps_file op) b1 b2) as [H1 H2].
  destruct (at_file b1 _), (at_file b2 _); [done|by specialize (H2 eq_refl)|by specialize (H1 eq_refl)|done].
Qed.

Definition path_size (path : bytes) : Z := 4 + Z.of_nat (length path).

Lemma parent_effect s path dir leaf d : split_path_bytes path = Ok (dir, leaf) → resolve_dir s dir = Some d →
  parent_of s path = Some (d, leaf).
Proof. intros Hs Hd. unfold parent_of. rewrite Hs. cbn. by rewrite Hd. Qed.

#[global] Instance emits_remove : EmitsItem emit_remove remove_effect path_size.
Proof.
  split; [|intros path b1 b2; apply remove_same].
  intros path b ok b'. unfold emit_remove. pose proof (at_parent_shape b path) as Hp.
  destruct (split_path_bytes path) as [[dir leaf]|e] eqn:Hs; cbn [result_ok] in Hp.
  2:{ rewrite Hp. intros [= <- <-]. exists b, []. split; [by apply extends_refl|]. split; [unfold path_size; cbn; lia|].
      split_and!; [done|done|constructor|]. intros s _ m k m' es _. rewrite take_nil. by intros [= _ <-]. }
  destruct Hp as (b1 & nav & Hat & Hex & Hcur & Hw & Hlen). rewrite Hat. intros [= <- <-].
  exists (add_op b1 (λ c, Compound.remove c leaf)), (nav ++ [ARemove leaf]).
  split; [eapply extends_trans; [done|by apply extends_add]|]. pose proof (split_size path dir leaf Hs).
  split; [rewrite length_app; unfold path_size; cbn; lia|]. split; [done|]. split; [split; [done|by destruct nav]|].
  split; [rewrite removelast_last; by apply walks_quiet|]. intros s ? m k m' es Htr Hrun.
  apply item_prefix in Hrun; [|by apply walks_quiet]. cbn [andb]. case_match; [|done].
  destruct Hrun as (m1 & Hnav & Hstep). destruct (parent_run s b path dir leaf b1 nav m m1 [] Htr Hs Hat Hex Hnav) as (d & Hd & ->).
  cbn in Hstep. destruct (fh_is_dir s d) eqn:Edir; [|done]. injection Hstep as <- <-. cbn [end_item b_cursor add_op note].
  rewrite Hcur. split; [by apply tracks_here|]. unfold remove_effect. rewrite (parent_effect s path dir leaf d) by done.
  split; [done|]. apply settled_one. intros ? x [= <-] Hx. cbn. congruence.
Qed.

#[global] Instance emits_rename :
  EmitsItem emit_rename rename_effect (λ p, path_size (pr_src p) + path_size (pr_dst p)).
Proof.
  split; [|intros [src dst] b1 b2; apply rename_same].
  intros [src dst] b ok b'. unfold emit_rename. cbn [pr_src pr_dst].
  pose proof (at_parent_shape b src) as Hp.
  destruct (split_path_bytes src) as [[sdir sname]|e] eqn:Hs; cbn [result_ok] in Hp.
  2:{ rewrite Hp. intros [= <- <-]. exists b, []. split; [by apply extends_refl|]. split; [unfold path_size; cbn; lia|].
      split_and!; [done|done|constructor|]. intros s _ m k m' es _. rewrite take_nil. by intros [= _ <-]. }
  destruct Hp as (b1 & nav & Hat & Hex & Hcur & Hw & Hlen). rewrite Hat. pose proof (split_size src sdir sname Hs).
  pose proof (set_current_parent_shape (b_cursor b1) (b_compound b1) dst) as Hp.
  destruct (split_path_bytes dst) as [[ddir dname]|e] eqn:Hd; cbn [result_ok] in Hp.
  2:{ rewrite Hp. intros [= <- <-]. exists b1, nav. split; [done|]. split; [unfold path_size; lia|].
      split_and!; [done|done|by apply walks_quiet|]. intros s ? m k m' es _ Hrun. cbn. eapply quiet_run; [|exact Hrun].
      by apply Forall_take, walks_quiet. }
  destruct Hp as (self2 & c2 & nav2 & Hset & Hops & Hw2 & Hlen2 & Htag & Hcache & Hsd). rewrite Hset. intros [= <- <-].
  pose proof (split_size dst ddir dname Hd). set (b2 := note _ _).
  exists (add_op b2 (λ c, Compound.rename c sname dname)), ((nav ++ nav2) ++ [ARename sname dname]).
  assert (Hex2 : extends b1 b2 nav2) by (split; cbn; done).
  split; [eapply extends_trans; [by eapply extends_trans|by apply extends_add]|].
  split; [rewrite !length_app; unfold path_size; cbn; lia|]. split; [done|]. split; [split; [done|by destruct nav, nav2]|].
  assert (Hw2' : Forall (λ op, walks op ∨ op = ASaveFh) nav2) by (eapply Forall_impl; [exact Hw2|by left]).
  split; [rewrite removelast_last; by apply Forall_app; split; apply walks_quiet|]. intros s ? m k m' es Htr Hrun.
  apply item_prefix in Hrun; [|by apply Forall_app; split; apply walks_quiet]. cbn [andb]. case_match; [|done].
  destruct Hrun as (m2 & Hnav & Hstep). rewrite path_run_app in Hnav.
  apply bind_Some in Hnav as ([m1 e1] & Hnav1 & ([m3 e2] & Hnav2 & [= -> _])%bind_Some).
  destruct (parent_run s b src sdir sname b1 nav m m1 e1 Htr Hs Hat Hex Hnav1) as (sd & Hsd' & ->).
  rewrite path_run_walks in Hnav2 by done. apply bind_Some in Hnav2 as (m3 & Hfh & [= -> _]).
  assert (Hsav : sav m2 = Some sd) by (by apply (fh_run_keeps_saved s _ _ nav2) in Hfh; [|apply walks_not_save]).
  cbn in Hstep. rewrite Hsav in Hstep. cbn in Hstep. apply bind_Some in Hstep as (dd & Hdd & Hstep).
  destruct (fh_is_dir s sd && fh_is_dir s dd) eqn:Edir; [|done]. apply andb_true_iff in Edir as [Esd Edd].
  injection Hstep as <- <-.
  assert (Hdst : resolve_dir s ddir = Some dd)
    by (eapply (current_parent_run s (b_cursor b1)); [by rewrite Hcur; apply tracks_here|exact Hd|exact Hset|exact Hops|exact Hfh|done]).
  cbn [end_and_descend b_cursor add_op note b2]. unfold descend. rewrite Hsd, Hcur. cbn [saved_dir]. split; [|split].
  - destruct m2 as [c2' sv2]. cbn in Hsav. subst sv2.
    by apply (tracks_descend s (Make (Some sdir) true) (Fhs (Some sd) (Some sd))), tracks_here.
  - unfold rename_effect. cbn [pr_src pr_dst].
    by rewrite (parent_effect s src sdir sname sd), (parent_effect s dst ddir dname dd).
  - apply settled_one. intros ? x [= <-] Hx. cbn. congruence.
Qed.

#[global] Instance emits_getattr :
  EmitsItem emit_getattr getattr_effect (λ op, 1 + file_size (pg_file op)).
Proof.
  split; [|intros op b1 b2; apply getattr_same].
  intros op b ok b'. unfold emit_getattr. destruct (at_file b (pg_file op)) as [b1|] eqn:Hat.
  2:{ intros [= <- <-]. exists b, []. split; [by apply extends_refl|]. split; [destruct (pg_file op); cbn; lia|].
      split_and!; [done|done|constructor|]. intros s _ m k m' es _. rewrite take_nil. by intros [= _ <-]. }
  destruct (at_file_shape b _ b1 Hat) as (nav & Hex & Hq & _ & Hne & Hlen). intros [= <- <-].
  exists (add_op b1 (λ c, Compound.getattr c (pg_attrs op))), (nav ++ [AGetattr (Compound.bitmap (pg_attrs op))]).
  split; [eapply extends_trans; [done|by apply extends_add]|].
  split; [rewrite !length_app; cbn; lia|]. split; [done|]. split; [split; [done|by destruct nav]|].
  split; [by rewrite removelast_last|]. intros s ? m k m' es Htr Hrun. apply item_prefix in Hrun; [|done]. cbn [andb]. case_match; [|done].
  destruct Hrun as (m1 & Hnav & Hstep).
  destruct (file_run s b _ b1 nav m m1 [] Htr Hat Hex Hnav) as (x & Hx & Hc & Htr').
  cbn in Hstep. rewrite Hc in Hstep. cbn in Hstep. injection Hstep as <- <-. split; [done|].
  unfold getattr_effect. rewrite Hx. split; [done|]. by split; [cbn; lia|constructor].
Qed.

(** The check before SETATTR neither moves nor changes anything. *)
Lemma checked_shape op guard b : ∃ mid, extends b (checked op guard b) mid ∧ (length mid <= 1)%nat ∧
  b_cursor (checked op guard b) = b_cursor b ∧ Forall quiet mid ∧
  ∀ s m m' es, path_run s m mid = Some (m', es) → m' = m.
Proof.
  assert (Hone : ∀ f o, (∀ c, Compound.ops (f c) = Compound.ops c ++ [o]) → (∀ c, Compound.tag_ (f c) = Compound.tag_ c) →
      (∀ c, Compound.size_check (f c) = None) → quiet o → (∀ s m m' es, path_step s m o = Some (m', es) → m' = m) →
      ∃ mid, extends b (add_op b f) mid ∧ (length mid <= 1)%nat ∧ b_cursor (add_op b f) = b_cursor b ∧ Forall quiet mid ∧
        ∀ s m m' es, path_run s m mid = Some (m', es) → m' = m).
  { intros f o H1 H2 H3 Hq Hm. exists [o]. split; [by apply extends_add|]. split_and!; [done|done|by repeat constructor|].
    intros s m m' es ([m1 e1] & Hs & [= <- _])%bind_Some. by eapply Hm. }
  assert (Hnone : ∃ mid, extends b b mid ∧ (length mid <= 1)%nat ∧ b_cursor b = b_cursor b ∧ Forall quiet mid ∧
        ∀ s m m' es, path_run s m mid = Some (m', es) → m' = m).
  { exists []. split; [by apply extends_refl|]. split_and!; [cbn; lia|done|constructor|]. by intros s m m' es [= -> _]. }
  unfold checked. destruct guard as [[]|]; [|done|destruct (ps_check_type op); [|done]]; (eapply Hone; [done..|]);
    by intros s m m' es (? & _ & [= <- _])%bind_Some.
Qed.

#[global] Instance emits_setattr :
  EmitsItem emit_setattr setattr_effect (λ item, 2 + file_size (ps_file item.1)).
Proof.
  split; [|intros [op guard] b1 b2; apply setattr_same].
  intros [op guard] b ok b'. unfold emit_setattr. cbn [fst].
  destruct (at_file b (ps_file op)) as [b1|] eqn:Hat.
  2:{ intros [= <- <-]. exists b, []. split; [by apply extends_refl|]. split; [destruct (ps_file op); cbn; lia|].
      split_and!; [done|done|constructor|]. intros s _ m k m' es _. rewrite take_nil. by intros [= _ <-]. }
  destruct (at_file_shape b _ b1 Hat) as (nav & Hex & Hq & _ & Hne & Hlen).
  destruct (checked_shape op guard b1) as (mid & Hex2 & Hmid & Hcur & Hq2 & Hm). intros [= <- <-].
  set (set_ := ASetattr zero_stateid (Compound.setattr_fattr (ps_mode op) (ps_size op) (ps_uid op) (ps_gid op)
    (ps_atime op) (ps_mtime op))).
  exists (add_op (checked op guard b1) (λ c, Compound.setattr_ownership c (ps_mode op) (ps_size op) (ps_uid op, ps_gid op)
    (ps_atime op) (ps_mtime op) zero_stateid)), ((nav ++ mid) ++ [set_]). split; [eapply extends_trans; [by eapply extends_trans|by apply extends_add]|].
  split; [rewrite !length_app; cbn; lia|]. split; [done|]. split; [split; [done|by destruct nav, mid]|].
  split; [rewrite removelast_last; by apply Forall_app|]. intros s ? m k m' es Htr Hrun. apply item_prefix in Hrun; [|by apply Forall_app]. cbn [andb]. case_match; [|done].
  destruct Hrun as (m2 & Hnav & Hstep). rewrite path_run_app in Hnav.
  apply bind_Some in Hnav as ([m1 e1] & Hnav1 & ([m3 e2] & Hnav2 & [= -> _])%bind_Some). apply Hm in Hnav2 as ->.
  destruct (file_run s b _ b1 nav m m1 e1 Htr Hat Hex Hnav1) as (x & Hx & Hc & Htr').
  cbn in Hstep. rewrite Hc in Hstep. cbn in Hstep. injection Hstep as <- <-.
  cbn [end_and_descend b_cursor add_op note]. rewrite Hcur. split; [done|].
  unfold setattr_effect. cbn [fst]. rewrite Hx. split; [done|]. by apply settled_one.
Qed.
End EmitLemmas.

(** ** The chunks the loop sends *)

Module GroupLemmas.
Import ExecutionMap.

(** The ranges of consecutive items with the given operations. *)
Fixpoint group_ranges (caller first : Z) (gs : list (list argop)) : list range :=
  match gs with
  | [] => []
  | g :: gs => (caller, first, first + Z.of_nat (length g)) :: group_ranges (caller + 1) (first + Z.of_nat (length g)) gs
  end.

(** How many items the first [k] operations complete. *)
Fixpoint complete (gs : list (list argop)) (k : nat) : nat :=
  match gs with
  | [] => 0
  | g :: gs => if (length g <=? k)%nat then S (complete gs (k - length g)) else 0
  end.

Definition offset (gs : list (list argop)) (j : nat) : nat := length (mjoin (take j gs)).

Lemma group_ranges_length caller first gs : length (group_ranges caller first gs) = length gs.
Proof. revert caller first. induction gs as [|g gs IH]; intros; cbn; [done|]. by rewrite IH. Qed.

Lemma group_ranges_lookup caller first gs j : (j < length gs)%nat →
  group_ranges caller first gs !! j =
    Some (caller + Z.of_nat j, first + Z.of_nat (offset gs j), first + Z.of_nat (offset gs (S j))).
Proof.
  revert caller first j. induction gs as [|g gs IH]; intros caller first [|j] Hj; cbn in Hj; [lia|lia|..].
  - cbn. rewrite take_0. unfold offset. cbn. rewrite app_nil_r. do 3 f_equal; lia.
  - cbn [group_ranges]. cbn [lookup list_lookup]. change (list_lookup j ?l) with (l !! j). rewrite IH by lia.
    unfold offset. cbn [take]. rewrite !mjoin_cons, !length_app. do 2 f_equal; [f_equal|]; lia.
Qed.

Lemma group_ranges_app caller first a b :
  group_ranges caller first (a ++ b) =
  group_ranges caller first a ++ group_ranges (caller + Z.of_nat (length a)) (first + Z.of_nat (length (mjoin a))) b.
Proof.
  revert caller first. induction a as [|g a IH]; intros; cbn [app group_ranges length].
  - f_equal; cbn; lia.
  - rewrite IH, mjoin_cons, length_app. cbn. do 3 f_equal; lia.
Qed.

Lemma group_ranges_wf caller first gs tail_start : tail_start = first + Z.of_nat (length (mjoin gs)) →
  wf_from first (group_ranges caller first gs ++ [(caller + Z.of_nat (length gs), tail_start, tail_start)]) ∧
  wf_from first (group_ranges caller first gs).
Proof.
  revert caller first. induction gs as [|g gs IH]; intros caller first Ht; cbn [group_ranges app wf_from].
  - cbn in *. unfold r_start, r_end. cbn. split; [lia|done].
  - rewrite mjoin_cons, length_app in Ht. cbn [length]. unfold r_start, r_end. cbn [fst snd].
    destruct (IH (caller + 1) (first + Z.of_nat (length g))) as [H1 H2]; [lia|].
    replace (caller + Z.of_nat (S (length gs))) with (caller + 1 + Z.of_nat (length gs)) by lia.
    split_and!; try lia; [exact H1|exact H2].
Qed.

Lemma offset_S gs j g : gs !! j = Some g → offset gs (S j) = (offset gs j + length g)%nat.
Proof. intros H. unfold offset. rewrite (take_S_r _ _ _ H), join_app, length_app. cbn. by rewrite app_nil_r. Qed.

(** The number of completed items, by their offsets. *)
Lemma complete_between gs k j : (j < length gs)%nat → (offset gs j <= k < offset gs (S j))%nat → complete gs k = j.
Proof.
  revert k j. induction gs as [|g gs IH]; intros k j Hj Hk; [cbn in Hj; lia|]. unfold offset in Hk. cbn [complete].
  destruct j as [|j]; cbn [take] in Hk; rewrite ?mjoin_cons, ?length_app in Hk.
  - rewrite take_0 in Hk. cbn in Hk. destruct (Nat.leb_spec (length g) k); [lia|done].
  - destruct (Nat.leb_spec (length g) k); [|lia]. f_equal. apply IH; [cbn in Hj; lia|]. unfold offset. lia.
Qed.

Lemma complete_all gs k : (length (mjoin gs) <= k)%nat → complete gs k = length gs.
Proof.
  revert k. induction gs as [|g gs IH]; intros k Hk; [done|]. rewrite mjoin_cons, length_app in Hk. cbn.
  destruct (Nat.leb_spec (length g) k); [|lia]. f_equal. apply IH. lia.
Qed.

Lemma complete_le gs k : (complete gs k <= length gs)%nat.
Proof. revert k. induction gs as [|g gs IH]; intros k; cbn; [lia|]. case_match; [|lia]. specialize (IH (k - length g)%nat). lia. Qed.

Lemma complete_offset gs k i : (i < complete gs k)%nat → (offset gs (S i) <= k)%nat.
Proof.
  revert k i. induction gs as [|g gs IH]; intros k i; cbn [complete]; [lia|].
  destruct (Nat.leb_spec (length g) k) as [Hk|]; [|lia]. unfold offset. cbn [take]. rewrite mjoin_cons, length_app.
  destruct i as [|i]; [rewrite take_0; cbn; lia|]. intros Hi. specialize (IH (k - length g)%nat i ltac:(lia)).
  unfold offset in IH. lia.
Qed.

Lemma offset_take gs i x : gs !! i = Some x → take (offset gs i + length x) (mjoin gs) = mjoin (take i gs) ++ x.
Proof.
  intros H. rewrite <-(take_drop_middle _ _ _ H) at 2. rewrite join_app, mjoin_cons, app_assoc.
  apply take_app_length'. rewrite length_app. done.
Qed.

Lemma offset_lookup gs tail i x p a : gs !! i = Some x → x !! p = Some a →
  (mjoin gs ++ tail) !! (offset gs i + p)%nat = Some a.
Proof.
  intros Hg Hp. pose proof (lookup_lt_Some _ _ _ Hp).
  assert (Hl : take (offset gs i + length x) (mjoin gs) !! (offset gs i + p)%nat = Some a).
  { rewrite (offset_take _ _ _ Hg), lookup_app_r by (unfold offset; lia). unfold offset. by rewrite Nat.add_comm, Nat.add_sub. }
  apply lookup_take_Some in Hl as [Hl _]. by apply lookup_app_l_Some.
Qed.

Lemma offset_le gs i x : gs !! i = Some x → (offset gs i + length x <= length (mjoin gs))%nat.
Proof.
  intros Hg. rewrite <-(offset_S _ _ _ Hg). unfold offset. rewrite <-(take_drop (S i) gs) at 2. rewrite join_app, length_app. lia.
Qed.

Lemma complete_zero gs : Forall (λ g, g ≠ []) gs → complete gs 0 = 0%nat.
Proof. intros [|g gs' Hg _]; [done|]. cbn. by destruct g. Qed.

(** The ranges before a failed item. *)
Lemma group_ranges_before caller first gs j extra : (j <= length gs)%nat →
  Forall (λ r, caller + Z.of_nat (length gs) <= r_caller r) extra →
  filter (λ r, r_caller r < caller + Z.of_nat j) (group_ranges caller first gs ++ extra) =
  group_ranges caller first (take j gs).
Proof.
  intros Hj Hx. rewrite <-(take_drop j gs) at 1. rewrite group_ranges_app, !filter_app.
  assert (Hall : ∀ c f l, Forall (λ r, c <= r_caller r < c + Z.of_nat (length l)) (group_ranges c f l)).
  { intros c f l. revert c f. induction l as [|g l IH]; intros; cbn; constructor; [unfold r_caller; cbn; lia|].
    eapply Forall_impl; [apply IH|]. intros r Hr. cbn in Hr. lia. }
  rewrite list_filter_all, (list_filter_none _ (group_ranges _ _ (drop j gs))), (list_filter_none _ extra), !app_nil_r; [done|..].
  - eapply Forall_impl; [exact Hx|]. cbn. intros; lia.
  - rewrite length_take. eapply Forall_impl; [apply Hall|]. cbn. intros; lia.
  - eapply Forall_impl; [apply Hall|]. cbn. rewrite length_take. intros; lia.
Qed.
End GroupLemmas.

Module MergedLemmas.
Import Merged ExchangeLemmas EmitLemmas GroupLemmas ExecutionMap.

(** A request that was answered: how many items its reply shows as done. *)
Lemma failed_range_spec request res map g gs extra tail sid q :
  decoded res → reply_ok request res → request = ASequence sid q 0 0 :: mjoin gs ++ tail →
  ranges map = group_ranges g 1 gs ++ extra →
  (extra = [] ∨ extra = [(g + Z.of_nat (length gs), 1 + Z.of_nat (length (mjoin gs)), 1 + Z.of_nat (length (mjoin gs)))]) →
  match first_failed_range res map with
  | Ok (Some (caller, st)) => ∃ j, caller = g + Z.of_nat j ∧ (j < length gs)%nat ∧ complete gs (ops_done res) = j
  | Ok None => complete gs (ops_done res) = length gs ∧ CompoundRes.status res = NFS_OK
  | Err _ => True
  end.
Proof.
  intros Hd Hok Hreq Hmap Hextra. unfold first_failed_range. destruct (analyze map res) as [report|] eqn:Ha; [|done].
  destruct (compound_failure report) eqn:Hcf; [done|].
  assert (Hwf : wf_from 0 (ranges map)).
  { rewrite Hmap. destruct (group_ranges_wf g 1 gs _ eq_refl) as [H1 H2].
    destruct Hextra as [-> | ->]; [rewrite app_nil_r|]; (eapply MapLemmas.wf_from_mono; [|done]; lia). }
  unfold analyze in Ha. cbn [rv_nops rv_status rv_op_status CompoundRes_view] in Ha.
  destruct (Z.eqb_spec (CompoundRes.nops res) 0); [case_match; [|done]; by injection Ha as <-|].
  destruct (negb _) eqn:E0; [by injection Ha as <-|].
  destruct (analyze_ranges _ _ _) as [[[done_ f] un]|] eqn:Es; [|done]. cbn in Ha.
  apply MapLemmas.analyze_ranges_scanned in Es as (k & _ & Hsc); [|done].
  destruct f as [f|].
  - injection Ha as <-. cbn.
    destruct (MapLemmas.sc_fail _ _ _ _ _ Hsc) as (r & Hr & Hc & Hi & Hnops & _ & Hne & Hst & _).
    cbn [rv_nops rv_status CompoundRes_view] in Hnops, Hst. rewrite Hmap in Hr.
    assert (Hk : (k < length gs)%nat).
    { destruct (decide (k < length gs)%nat) as [|Hge]; [done|]. exfalso.
      rewrite lookup_app_r, group_ranges_length in Hr by (rewrite group_ranges_length; lia).
      destruct Hextra as [-> | ->]; [by rewrite lookup_nil in Hr|]. destruct (k - length gs)%nat as [|x]; [|by rewrite lookup_cons, lookup_nil in Hr].
      injection Hr as <-. unfold r_start, r_end in Hi. cbn in Hi. lia. }
    rewrite lookup_app_l, group_ranges_lookup in Hr by (rewrite ?group_ranges_length; lia). injection Hr as <-.
    unfold r_start, r_end, r_caller in *. cbn [fst snd] in *.
    exists k. split; [done|]. split; [done|]. apply complete_between; [done|]. unfold ops_done. rewrite Hst.
    destruct (Z.eqb_spec (if_status f) NFS_OK); [done|]. lia.
  - destruct (Z.eqb_spec (CompoundRes.status res) NFS_OK) as [Hs|Hs]; cbn in Ha.
    2:{ exfalso. revert Ha. case_match; [done|]. intros [= <-]. done. }
    injection Ha as <-. cbn. split; [|done]. apply complete_all. unfold ops_done. rewrite Hs. cbn [Z.eqb NFS_OK].
    destruct Hok as (_ & _ & Hfull & _). specialize (Hfull Hs). rewrite Hreq in Hfull. cbn in Hfull. rewrite length_app in Hfull.
    unfold CompoundRes.nops in *. lia.
Qed.

(** The range of an item: the operations appended between [begin] and [end_]. *)
Lemma item_noted b b1 ops g : extends (Building (b_cursor b) (begin (b_map b) g) (b_compound b)) b1 ops →
  next (b_map b) + Z.of_nat (length ops) <= U64_MAX →
  next (end_ (b_map b1)) = next (b_map b) + Z.of_nat (length ops) ∧
  ranges (end_ (b_map b1)) = ranges (b_map b) ++ [(g, next (b_map b), next (b_map b) + Z.of_nat (length ops))].
Proof.
  intros Hex Hbig. pose proof (ex_ranges _ _ _ Hex) as Hr. pose proof (ex_next _ _ _ Hex) as Hn. cbn in Hr, Hn.
  specialize (Hn ltac:(lia)). unfold end_. rewrite Hr, last_snoc. cbn [next ranges]. rewrite Hn.
  assert (sat_add (next (b_map b)) (Z.of_nat (length ops)) = next (b_map b) + Z.of_nat (length ops)) as -> by (unfold sat_add; lia).
  split; [done|]. rewrite length_app. cbn [length]. by rewrite take_app_le, take_ge by lia.
Qed.

(** Running in a tree that changes: nothing changes during an item, and after it
    the cursor still describes the slots. *)
Section Live.
Context (tree : list effect → fh_server).

Lemma live_run_app l m a b : live_run tree l m (a ++ b) =
  '(m1, e1) ← live_run tree l m a; '(m2, e2) ← live_run tree (l ++ e1) m1 b; Some (m2, e1 ++ e2).
Proof.
  revert l m. induction a as [|op a IH]; intros l m; cbn; [rewrite app_nil_r; by destruct (live_run tree l m b) as [[]|]|].
  destruct (path_step (tree l) m op) as [[m1 e1]|]; cbn; [|done]. rewrite IH.
  destruct (live_run tree (l ++ e1) m1 a) as [[m2 e2]|]; cbn; [|done]. rewrite app_assoc.
  destruct (live_run tree ((l ++ e1) ++ e2) m2 b) as [[m3 e3]|]; cbn; [|done]. by rewrite app_assoc.
Qed.

Lemma live_run_quiet l m ops : Forall quiet ops → live_run tree l m ops = path_run (tree l) m ops.
Proof.
  intros H. revert m. induction H as [|op ops Hop _ IH]; intros m; [done|]. cbn.
  destruct (path_step (tree l) m op) as [[m1 e1]|] eqn:E; cbn; [|done].
  assert (path_run (tree l) m [op] = Some (m1, e1)) as Hone by (cbn; rewrite E; cbn; by rewrite app_nil_r).
  apply (quiet_run (tree l)) in Hone as ->; [|by repeat constructor]. by rewrite app_nil_r, IH.
Qed.

Lemma live_run_item l m ops k : Forall quiet (removelast ops) →
  live_run tree l m (take k ops) = path_run (tree l) m (take k ops).
Proof.
  destruct ops as [|op nav _] using rev_ind; [by rewrite take_nil|]. rewrite removelast_last. intros Hq.
  destruct (decide (k <= length nav)%nat).
  { rewrite take_app_le by done. by apply live_run_quiet, Forall_take. }
  rewrite take_ge by (rewrite length_app; cbn; lia). rewrite live_run_app, path_run_app, live_run_quiet by done.
  destruct (path_run (tree l) m nav) as [[m1 e1]|] eqn:E; [|done]. apply quiet_run in E as ->; [|done].
  cbn. rewrite app_nil_r. by destruct (path_step _ _ _) as [[]|].
Qed.

Lemma tracks_settled `{!LiveTree tree} l self m es :
  tracks (tree l) self m → settled (tree l) self es → tracks (tree (l ++ es)) self m.
Proof.
  intros Htr [Hlen Hes]. destruct es as [|e [|]]; [by rewrite app_nil_r| |cbn in Hlen; lia].
  rewrite Forall_singleton in Hes. unfold tracks in *. destruct (CfhCursor.saved_dir self) as [dir|]; [|done].
  destruct Htr as (d & Hd & Hdir & Hsav). destruct (live_stays tree l e dir d) as [H1 H2]; [by eapply Hes|done..|].
  by exists d.
Qed.
End Live.

(** A tree that does not change. *)
Lemma live_run_static s l m ops : live_run (λ _, s) l m ops = path_run s m ops.
Proof.
  revert l m. induction ops as [|op ops IH]; intros l m; cbn; [done|].
  destruct (path_step s m op) as [[m1 e1]|]; cbn; [|done]. by rewrite IH.
Qed.

#[global] Instance static_live s `{!FhTree s} : LiveTree (λ _, s).
Proof. split; [done|]. by intros l e dir d _. Qed.

Lemma executes_static {W} s (rpc : Compound.t → W → RpcResult COMPOUND4res * W) log :
  executes_paths s rpc log → executes_live (λ _, s) rpc log.
Proof.
  intros H c w r w' sid q ops Hr Hc. destruct (H _ _ _ _ _ _ _ Hr Hc) as (k & m & es & Hrun & Hrest).
  exists k, m, es. by rewrite live_run_static.
Qed.

Section Fill.
Context {T Out : Type} (sh : shape T Out) (tree : list effect → fh_server) `{!LiveTree tree}.
Context (intended : fh_server → T → option (list effect)) (size : T → Z).
Context `{!EmitsItem (sh_emit sh) intended size}.

(** What [fill] appended: the operations of the items it took, and what an item
    without a leaf left behind. *)
Record filled (items : list T) (g n : Z) (b b' : building) (invalid : option (Z * Z)) (g' : Z)
    (gs : list (list argop)) (tail : list argop) : Prop := {
  fl_ops : Compound.ops (b_compound b') = Compound.ops (b_compound b) ++ mjoin gs ++ tail;
  fl_tag : Compound.tag_ (b_compound b') = Compound.tag_ (b_compound b);
  fl_cache : Compound.size_check (b_compound b) = None → Compound.size_check (b_compound b') = None;
  fl_ranges : ranges (b_map b') = ranges (b_map b) ++ group_ranges g (next (b_map b)) gs ++
    (if invalid is Some _ then let e := next (b_map b) + Z.of_nat (length (mjoin gs)) in [(g + Z.of_nat (length gs), e, e)] else []);
  fl_nonempty : Forall (λ x, x ≠ []) gs;
  fl_end : match invalid with
    | None => g' = g + Z.of_nat (length gs) ∧ tail = [] ∧ (length gs <= length items)%nat
    | Some f => f = (g + Z.of_nat (length gs), NFS4ERR_INVAL) ∧ g' = n ∧
        ∃ item, items !! length gs = Some item ∧ ∀ b, (sh_emit sh item b).1 = false
    end;
  fl_valid i item : (i < length gs)%nat → items !! i = Some item → ∀ b, (sh_emit sh item b).1 = true;
  fl_effects l m k m' es : tracks (tree l) (b_cursor b) m → live_run tree l m (take k (mjoin gs ++ tail)) = Some (m', es) →
    in_turn tree intended l (take (complete gs k) items) = Some es;
  fl_at i item ops l m m' es : items !! i = Some item → gs !! i = Some ops → tracks (tree l) (b_cursor b) m →
    live_run tree l m (mjoin (take i gs)) = Some (m', es) →
    ∃ b1 b2 b3, sh_emit sh item b1 = (true, b3) ∧ extends b1 b2 ops ∧ b_compound b3 = b_compound b2 ∧
      tracks (tree (l ++ es)) (b_cursor b1) m';
}.

Lemma filled_none items g n b : filled items g n b b None g [] [].
Proof.
  split; cbn; rewrite ?app_nil_r; try done; try lia; [split_and!; [lia|done|lia]|].
  intros l m k m' es _. rewrite take_nil. by intros [= _ <-].
Qed.

(** One more item in front. *)
Lemma filled_cons item items g n b b1 b2 b' ops invalid g' gs tail :
  sh_emit sh item (Building (b_cursor b) (begin (b_map b) g) (b_compound b)) = (true, b2) →
  extends (Building (b_cursor b) (begin (b_map b) g) (b_compound b)) b1 ops →
  b_compound b2 = b_compound b1 → b_map b2 = end_ (b_map b1) → ops ≠ [] →
  Forall quiet (removelast ops) →
  (∀ s, FhTree s → ∀ m k m' es, tracks s (b_cursor b) m → path_run s m (take k ops) = Some (m', es) →
      if (length ops <=? k)%nat
      then tracks s (b_cursor b2) m' ∧ intended s item = Some es ∧ settled s (b_cursor b2) es else es = []) →
  next (b_map b) + Z.of_nat (length ops) <= U64_MAX →
  filled items (g + 1) n b2 b' invalid g' gs tail →
  filled (item :: items) g n b b' invalid g' (ops :: gs) tail.
Proof.
  intros Hemit Hex Hc Hm Hne Hq Heff Hbig [F1 F2 F3 F4 F5 F6 F7 F8 F9].
  assert (Hitem : ∀ l m m1 e1, tracks (tree l) (b_cursor b) m → live_run tree l m ops = Some (m1, e1) →
    intended (tree l) item = Some e1 ∧ tracks (tree (l ++ e1)) (b_cursor b2) m1).
  { intros l m m1 e1 Htr Hrun. specialize (Heff (tree l) _ m (length ops) m1 e1 Htr).
    rewrite <-(live_run_item tree), take_ge, Nat.leb_refl in Heff by done. destruct (Heff Hrun) as (Htr2 & Hint & Hset).
    split; [done|]. by apply tracks_settled. }
  destruct (item_noted _ _ _ _ Hex Hbig) as [Hn2 Hr2]. rewrite <-Hm in Hn2, Hr2.
  split; rewrite ?mjoin_cons; cbn [length].
  - rewrite F1, Hc, (ex_ops _ _ _ Hex). cbn. by rewrite <-!app_assoc.
  - by rewrite F2, Hc, (ex_tag _ _ _ Hex).
  - intros H. apply F3. rewrite Hc. by apply (ex_cache _ _ _ Hex).
  - rewrite F4, Hr2, Hn2, <-app_assoc. cbn [group_ranges app]. do 2 f_equal. rewrite length_app.
    destruct invalid; [|done]. do 2 f_equal. cbn zeta. f_equal; [f_equal|]; lia.
  - by constructor.
  - destruct invalid as [f|]; [destruct F6 as (-> & -> & H)|destruct F6 as (-> & -> & H)].
    + split_and!; [f_equal; lia|done|exact H].
    + split_and!; [lia|done|cbn; lia].
  - intros [|i] it Hi Hit b0; [|by apply (F7 i it); [lia|]]. injection Hit as <-.
    by rewrite (emits_same item _ (Building (b_cursor b) (begin (b_map b) g) (b_compound b))), Hemit.
  - intros l m k m' es Htr. rewrite <-app_assoc. cbn [complete]. destruct (Nat.leb_spec (length ops) k) as [Hk|Hk].
    + replace k with (length ops + (k - length ops))%nat at 1 by lia. rewrite take_app_add, live_run_app.
      intros ([m1 e1] & Hrun & ([m2 e2] & Hrun2 & [= _ <-])%bind_Some)%bind_Some.
      destruct (Hitem l m m1 e1 Htr Hrun) as [Hint Htr2]. cbn [take in_turn]. rewrite Hint. cbn.
      by rewrite (F8 _ _ _ _ _ Htr2 Hrun2).
    + rewrite take_app_le, live_run_item by (done || lia). intros Hrun. specialize (Heff (tree l) _ m k m' es Htr Hrun).
      destruct (Nat.leb_spec (length ops) k); [lia|]. by rewrite Heff.
  - intros [|i] it o l m m' es Hit Ho Htr; cbn [take lookup list_lookup] in *.
    + injection Hit as <-. injection Ho as <-. intros [= <- <-]. rewrite app_nil_r.
      exists (Building (b_cursor b) (begin (b_map b) g) (b_compound b)), b1, b2. by split_and!.
    + rewrite mjoin_cons, live_run_app. intros ([m1 e1] & Hrun & ([m2 e2] & Hrun2 & [= <- <-])%bind_Some)%bind_Some.
      destruct (Hitem l m m1 e1 Htr Hrun) as [_ Htr2]. rewrite app_assoc. by eapply F9.
Qed.

Lemma fill_ok arg budget mx n items g payload b invalid g' b' :
  fill sh arg budget mx n items g payload b = (invalid, g', b') →
  0 <= sh_per_file sh → Forall (λ item, size item + budget <= U64_MAX) items →
  ∃ gs tail, filled items g n b b' invalid g' gs tail ∧
    (Z.of_nat (length (ranges (b_map b))) <= mx → Z.of_nat (length (ranges (b_map b'))) <= mx).
Proof.
  intros Hfill Hper Hsize. revert g payload b Hfill.
  induction Hsize as [|item items Hsz _ IH]; intros g payload b Hfill; cbn [fill] in Hfill.
  { injection Hfill as <- <- <-. exists [], []. split; [apply filled_none|done]. }
  destruct (_ && _) eqn:Eguard.
  2:{ injection Hfill as <- <- <-. exists [], []. split; [apply filled_none|done]. }
  apply andb_true_iff in Eguard as [Emx Ebud]. apply Z.ltb_lt in Emx. apply Z.leb_le in Ebud.
  destruct (_ && _ && _).
  { injection Hfill as <- <- <-. exists [], []. split; [apply filled_none|done]. }
  set (begun := Building _ _ _) in *. destruct (sh_emit sh item begun) as [ok b2] eqn:Hemit.
  destruct (emits item begun ok b2 Hemit) as (b1 & ops & Hex & Hlen & Hc & Hmap & Hq & Heff).
  destruct ok.
  - destruct Hmap as [Hm Hne].
    assert (Hmx2 : Z.of_nat (length (ranges (b_map b2))) <= mx).
    { pose proof (ex_ranges _ _ _ Hex) as Hr. cbn in Hr. rewrite Hm. unfold end_. rewrite Hr, last_snoc. cbn [ranges].
      rewrite !length_app, length_take, length_app. cbn. lia. }
    assert (Hnext : ∀ invalid g' b' gs tail, filled items (g + 1) n b2 b' invalid g' gs tail →
      filled (item :: items) g n b b' invalid g' (ops :: gs) tail).
    { intros. eapply filled_cons; [exact Hemit|exact Hex|done|done|done|exact Hq|exact Heff|lia|done]. }
    destruct (_ && _).
    + injection Hfill as <- <- <-. exists [ops], []. split; [apply Hnext, filled_none|done].
    + destruct (IH _ _ _ Hfill) as (gs & tail & Hf & Hmx). exists (ops :: gs), tail. split; [by apply Hnext|auto].
  - injection Hfill as <- <- <-. exists [], ops. split.
    2:{ intros _. rewrite Hmap, (ex_ranges _ _ _ Hex). cbn. rewrite length_app. cbn. lia. }
    split; cbn; try done; try lia.
    + rewrite Hc. apply (ex_ops _ _ _ Hex).
    + rewrite Hc. apply (ex_tag _ _ _ Hex).
    + intros H. rewrite Hc. by apply (ex_cache _ _ _ Hex).
    + rewrite Hmap, (ex_ranges _ _ _ Hex). cbn. do 2 f_equal. f_equal; [f_equal|]; lia.
    + split; [f_equal; lia|]. split; [done|]. exists item. split; [done|]. intros b0.
      by rewrite (emits_same item b0 begun), Hemit.
    + intros l m k m' es Htr. rewrite live_run_quiet by (by apply Forall_take).
      intros Hrun. by rewrite (Heff (tree l) _ m k m' es Htr Hrun).
Qed.

(** An item is taken whenever the budget has room for one. *)
Lemma fill_takes arg budget mx n item items g b :
  ranges (b_map b) = [] → 1 <= mx → next (b_map b) + sh_per_file sh <= budget →
  ∀ invalid g' b', fill sh arg budget mx n (item :: items) g 0 b = (invalid, g', b') →
  0 <= sh_per_file sh → Forall (λ item, size item + budget <= U64_MAX) (item :: items) → ranges (b_map b') ≠ [].
Proof.
  intros Hr Hmx Hb invalid g' b' Hfill Hper Hsize. pose proof (fill_ok _ _ _ _ _ _ _ _ _ _ _ Hfill Hper Hsize) as (gs & tail & Hf & _).
  rewrite (fl_ranges _ _ _ _ _ _ _ _ _ Hf). destruct invalid as [f|]; [intros H; apply (f_equal length) in H; rewrite !length_app in H; cbn in H; lia|].
  destruct gs as [|ops gs]; [|by destruct (ranges (b_map b))]. exfalso.
  pose proof (fl_end _ _ _ _ _ _ _ _ _ Hf) as (Hg & _). cbn in Hg. revert Hfill. cbn [fill]. rewrite Hr. cbn [length].
  destruct (Z.ltb_spec (Z.of_nat 0) mx); [|lia]. destruct (Z.leb_spec (next (b_map b) + sh_per_file sh) budget); [|lia].
  cbn [Z.ltb Z.compare andb].
  destruct (sh_emit sh item _) as [[] b2]; [|done]. destruct (_ && _).
  { intros [= <- _]. lia. }
  intros Hfill. apply Forall_cons in Hsize as [_ Hsize].
  pose proof (fill_ok _ _ _ _ _ _ _ _ _ _ _ Hfill Hper Hsize) as (gs & tail' & Hf' & _).
  pose proof (fl_end _ _ _ _ _ _ _ _ _ Hf') as (Hg' & _). lia.
Qed.

Lemma fill_no_room arg budget mx n items g b : budget < next (b_map b) + sh_per_file sh →
  fill sh arg budget mx n items g 0 b = (None, g, b).
Proof.
  intros Hb. destruct items as [|item items]; [done|]. cbn [fill].
  destruct (Z.leb_spec (next (b_map b) + sh_per_file sh) budget); [lia|]. by rewrite andb_false_r.
Qed.
End Fill.
End MergedLemmas.
