(* ===== verification/MergedOnce.v ===== *)
(** * Merged path compounds act once

    The loop of the merged path operations, against a server that carries out
    the operations of a compound in order: whatever sizes it rejects and
    whichever replies are lost, the items are carried out once and in order, at
    the directories their paths name, and the outcome says how many were. *)
From stdpp Require Import base numbers list list_numbers gmap strings.
From S2P Require Import Prelude Path Errors Types Planner Compound Session Cursor Client Loops Exchange Batch Merged.

Module MergedOnceLemmas.
Import Merged ExchangeLemmas EmitLemmas GroupLemmas ExecutionMap MergedLemmas.

Lemma merged_limit_range b reserve per : 0 <= CompoundBudget.max_ops b → 0 <= per < U32_MAX →
  0 <= CompoundBudget.merged_limit b reserve per <= CompoundBudget.max_ops b ∧
  (1 + per <= CompoundBudget.max_ops b → 1 + per <= CompoundBudget.merged_limit b reserve per).
Proof.
  intros Hb Hp. unfold CompoundBudget.merged_limit, sat_add, sat_sub, U64_MAX, U32_MAX in *. case_match; lia.
Qed.

Lemma in_turn_app {T} tree (intended : fh_server → T → option (list effect)) l a b :
  in_turn tree intended l (a ++ b) =
    es ← in_turn tree intended l a; es' ← in_turn tree intended (l ++ es) b; Some (es ++ es').
Proof.
  revert l. induction a as [|item a IH]; intros l; cbn; [rewrite app_nil_r; by destruct (in_turn _ _ l b)|].
  destruct (intended (tree l) item) as [e1|]; cbn; [|done]. rewrite IH.
  destruct (in_turn _ _ (l ++ e1) a) as [e2|]; cbn; [|done]. rewrite app_assoc.
  destruct (in_turn _ _ ((l ++ e1) ++ e2) b) as [e3|]; cbn; [|done]. by rewrite app_assoc.
Qed.

Section Once.
Context {W : Type} (rpc : Compound.t → W → RpcResult COMPOUND4res * W) (Hrpc : transport_ok rpc).
Context (xdr_len : Compound.t → Z) `{!XdrSizes xdr_len}.
Context (tree : list effect → fh_server) `{!LiveTree tree} (log : W → list effect) (Hexec : executes_live tree rpc log).
Context {T Out : Type} (sh : shape T Out) (intended : fh_server → T → option (list effect)) (size : T → Z).
Context `{!EmitsItem (sh_emit sh) intended size}.
Context (Hper : 0 <= sh_per_file sh < U32_MAX).
Context (Hretry : ∀ cl res b, sh_retry sh cl (bstr (sh_tag sh)) res b (sh_reserve sh) (sh_per_file sh) = true →
  budget_of sh cl < b ∧
  (resource_rejected_before_mutation res = true ∨ ∀ s item es, intended s item = Some es → es = [])).
Context (ops : list T) (cl0 : NfsClient.t) (w0 : W).
Context (Hops : 0 <= NfsClient.max_ops cl0 <= U32_MAX) (Hsize : Forall (λ item, size item <= I64_MAX) ops).
Let n : Z := Z.of_nat (length ops).
Let N : Z := NfsClient.max_ops cl0.

Definition start_building : building :=
  Building CfhCursor.default_cursor ExecutionMap.new (Compound.tag Compound.new (bstr (sh_tag sh))).

(** What the results say when the items before [d] are done, with an empty range
    of item [d] stored or not, and that storing the results of completed items
    keeps it so. *)
Context (out_ok : Z → bool → Out → Prop).
Context (Hcollect : ∀ g b' invalid g' gs tail w res w' j (x : bool) extra o, 0 <= g →
  filled sh tree intended (drop (Z.to_nat g) ops) g n start_building b' invalid g' gs tail →
  exchanged rpc (mjoin gs ++ tail) w res w' → (j <= complete gs (ops_done res))%nat → g + Z.of_nat j <= n →
  (if x then ∃ e, extra = [(g + Z.of_nat j, e, e)] ∧ g + Z.of_nat j < n else extra = []) → out_ok g false o →
  ∃ o', sh_collect sh res (group_ranges g 1 (take j gs) ++ extra) o = Some o' ∧ out_ok (g + Z.of_nat j) x o').

(** Exactly the first [k] items have been carried out since the start. *)
Definition upto (k : Z) (w : W) : Prop :=
  ∃ es, in_turn tree intended (log w0) (take (Z.to_nat k) ops) = Some es ∧ log w = log w0 ++ es.

Definition invalid_item (k : Z) : Prop := ∃ item, ops !! Z.to_nat k = Some item ∧ ∀ b, (sh_emit sh item b).1 = false.

(** How far the loop is: the items before [d] are done.  Item [d] is stored
    without being done when it is the invalid one that ended the loop. *)
Definition reached (st : state W Out) (d : Z) : Prop :=
  upto d (world st) ∧
  match failed st with
  | None => d = global st ∧ out_ok d false (out st)
  | Some f => f = (f.1, NFS4ERR_INVAL) ∧ 0 <= f.1 < n ∧ invalid_item f.1 ∧ 1 + sh_per_file sh <= N ∧
              (global st = n ∧ d = f.1 ∧ out_ok d true (out st) ∨
               d = global st ∧ global st <= f.1 ∧ out_ok d false (out st))
  end.

Record inv (st : state W Out) : Prop := {
  mi_global : 0 <= global st <= n;
  mi_max : 1 <= max_items st;
  mi_limits : same_limits cl0 (client st);
  mi_reached : ∃ d, reached st d;
}.

Definition measure (st : state W Out) : Z :=
  (n - global st) * ((N + 1) * (n + 1)) + budget_of sh (client st) * (n + 1) + Z.min (max_items st) n.

Definition final (r : RpcResult (Out * option (Z * Z))) (w : W) : Prop :=
  match r with
  | Ok (o, None) => upto n w ∧ out_ok n false o
  | Ok (o, Some (k, st)) => 0 <= k < n ∧ upto k w ∧
      ∃ x, out_ok k x o ∧ (x = true ↔ st = NFS4ERR_INVAL ∧ invalid_item k)
  | Err _ => ∃ k, 0 <= k <= n ∧ upto k w
  end.

Lemma budget_range cl : same_limits cl0 cl →
  0 <= budget_of sh cl <= N ∧ (1 + sh_per_file sh <= N → 1 + sh_per_file sh <= budget_of sh cl).
Proof.
  intros (Hm & _). unfold budget_of.
  pose proof (merged_limit_range (NfsClient.op_budget_for cl (bstr (sh_tag sh)) (1 + sh_per_file sh)) (sh_reserve sh) (sh_per_file sh)) as H.
  unfold NfsClient.op_budget_for in *. cbn [CompoundBudget.max_ops] in *. rewrite Hm in *. fold N in H.
  unfold N in *. destruct H as [H1 H2]; [lia|lia|]. split; [lia|]. intros H. apply H2. lia.
Qed.

Lemma merged_measure_progress st st' : inv st → inv st' → global st < global st' → measure st' < measure st.
Proof.
  intros Hi Hi' Hlt. pose proof (mi_global _ Hi). pose proof (mi_global _ Hi'). pose proof (mi_max _ Hi). pose proof (mi_max _ Hi').
  destruct (budget_range _ (mi_limits _ Hi)) as [? _]. destruct (budget_range _ (mi_limits _ Hi')) as [? _].
  unfold measure. nia.
Qed.

(** A chunk that was sent carries out some of its items; an accepted reply shows
    which. *)
Lemma chunk_sent g b' invalid g' gs tail w r w' req sid q :
  0 <= g → filled sh tree intended (drop (Z.to_nat g) ops) g n start_building b' invalid g' gs tail →
  upto g w → rpc req w = (r, w') → Compound.ops req = ASequence sid q 0 0 :: mjoin gs ++ tail →
  ∃ k, upto (g + Z.of_nat (complete gs k)) w' ∧
    ∀ res, r = Ok res → reply_ok (Compound.ops req) res → k = ops_done res.
Proof.
  intros Hg Hf (es & Hes & Hlog) Hr Hreq. destruct (Hexec _ _ _ _ _ _ _ Hr Hreq) as (k & m & es' & Hrun & Hlog' & Hres).
  pose proof (fl_effects _ _ _ _ _ _ _ _ _ _ _ _ Hf (log w) (Fhs None None) k m es' eq_refl Hrun) as Hes'.
  exists k. split; [|done]. exists (es ++ es'). rewrite Hlog', Hlog, app_assoc. split; [|done].
  replace (Z.to_nat (g + Z.of_nat (complete gs k))) with (Z.to_nat g + complete gs k)%nat by lia.
  rewrite <-take_take_drop, in_turn_app, Hes. cbn. rewrite <-Hlog, Hes'. done.
Qed.

(** Items without effects change nothing, so as many or fewer have been carried
    out. *)
Lemma no_effects l items es : (∀ s item es, intended s item = Some es → es = []) →
  in_turn tree intended l items = Some es → es = [].
Proof.
  intros Hnone. revert l es. induction items as [|item items IH]; intros l es; cbn; [by intros [= <-]|].
  intros (e1 & ->%Hnone & (e2 & ->%IH & [= <-])%bind_Some)%bind_Some. done.
Qed.

Lemma upto_quiet a w : (∀ s item es, intended s item = Some es → es = []) → upto a w → log w = log w0.
Proof. intros Hnone (es & Hes & ->). by rewrite (no_effects _ _ _ Hnone Hes), app_nil_r. Qed.

Lemma upto_less a b w : (∀ s item es, intended s item = Some es → es = []) → a <= b → upto b w → upto a w.
Proof.
  intros Hnone Hle Hup. pose proof (upto_quiet b w Hnone Hup) as Hsame. destruct Hup as (es & Hes & Hlog).
  rewrite <-(take_drop (Z.to_nat a) (take (Z.to_nat b) ops)), take_take, Nat.min_l, in_turn_app in Hes by lia.
  apply bind_Some in Hes as (e1 & He & _). exists e1. split; [done|].
  by rewrite (no_effects _ _ _ Hnone He), app_nil_r.
Qed.

(** The chunk a round builds. *)
Record chunk (st : state W Out) (b' : building) (invalid : option (Z * Z)) (g' : Z) (gs : list (list argop))
    (tail : list argop) : Prop := {
  ck_filled : filled sh tree intended (drop (Z.to_nat (global st)) ops) (global st) n start_building b' invalid g' gs tail;
  ck_ops : Compound.ops (b_compound b') = mjoin gs ++ tail;
  ck_ranges : ranges (b_map b') = group_ranges (global st) 1 gs ++
    (if invalid is Some _ then let e := 1 + Z.of_nat (length (mjoin gs)) in [(global st + Z.of_nat (length gs), e, e)] else []);
  ck_some : ranges (b_map b') ≠ [];
  ck_room : 1 + sh_per_file sh <= N;
  ck_le : global st + Z.of_nat (length gs) + (if invalid is Some _ then 1 else 0) <= n;
}.

Lemma chunk_built st invalid g' b' : inv st → global st < n →
  fill sh (NfsClient.max_request_arg_bytes (client st)) (budget_of sh (client st)) (max_items st) n
    (drop (Z.to_nat (global st)) ops) (global st) 0 start_building = (invalid, g', b') →
  (ranges (b_map b') = [] ∧ invalid = None ∧ ¬ 1 + sh_per_file sh <= N) ∨
  ∃ gs tail, chunk st b' invalid g' gs tail ∧ Z.of_nat (length (ranges (b_map b'))) <= max_items st.
Proof.
  intros Hi Hlt Hfill. pose proof (mi_global _ Hi). pose proof (mi_max _ Hi).
  destruct (budget_range _ (mi_limits _ Hi)) as [Hb Hroom].
  assert (Hsz : Forall (λ item, size item + budget_of sh (client st) <= U64_MAX) (drop (Z.to_nat (global st)) ops)).
  { apply Forall_drop. eapply Forall_impl; [exact Hsize|]. intros item. cbn. unfold N, U64_MAX, I64_MAX, U32_MAX in *. lia. }
  destruct (fill_ok sh tree intended size _ _ _ _ _ _ _ _ _ _ _ Hfill ltac:(lia) Hsz) as (gs & tail & Hf & Hmx).
  pose proof (fl_ranges _ _ _ _ _ _ _ _ _ _ _ _ Hf) as Hr. cbn in Hr. pose proof (fl_end _ _ _ _ _ _ _ _ _ _ _ _ Hf) as He.
  destruct (decide (ranges (b_map b') = [])) as [Hnil|Hne].
  - left. split; [done|]. split; [destruct invalid; [|done]; rewrite Hnil in Hr; by destruct (group_ranges _ _ _)|].
    intros Hn. destruct (drop (Z.to_nat (global st)) ops) as [|item items] eqn:Ed.
    { apply (f_equal length) in Ed. rewrite length_drop in Ed. cbn in Ed. unfold n in *. lia. }
    eapply (fill_takes sh tree intended size); [| | |exact Hfill|lia|exact Hsz|exact Hnil]; [done|done|]. cbn. auto.
  - right. exists gs, tail. split; [|apply Hmx; cbn; lia]. split; try done; [apply (fl_ops _ _ _ _ _ _ _ _ _ _ _ _ Hf)|..].
    { destruct (decide (1 + sh_per_file sh <= budget_of sh (client st))); [lia|].
      rewrite fill_no_room in Hfill by (cbn; lia). by injection Hfill as <- <- <-. }
    destruct invalid as [f|].
    + destruct He as (_ & _ & item & Hit & _). apply lookup_lt_Some in Hit. rewrite length_drop in Hit. unfold n. lia.
    + destruct He as (_ & _ & Hle). rewrite length_drop in Hle. unfold n. lia.
Qed.

Definition failed_after (st : state W Out) (invalid : option (Z * Z)) : option (Z * Z) :=
  match invalid with Some f => Some f | None => failed st end.

(** While items are left, the items before [global] are the ones done. *)
Lemma reached_here st : inv st → global st < n → reached st (global st).
Proof.
  intros Hi Hlt. destruct (mi_reached _ Hi) as (d & Hup & Hd). unfold reached.
  destruct (failed st) as [f|] eqn:E; [|by destruct Hd as [-> ?]].
  destruct Hd as (Hf & Hr & Hinv & Hroom & [[? _]|(-> & ? & ?)]); [lia|].
  split; [done|]. split_and!; [done|lia|lia|done|done|by right].
Qed.

Lemma reached_out st : inv st → global st < n → out_ok (global st) false (out st).
Proof.
  intros Hi Hlt. destruct (reached_here st Hi Hlt) as (_ & Hd). destruct (failed st); [|by destruct Hd].
  destruct Hd as (_ & _ & _ & _ & [[? _]|(_ & _ & ?)]); [lia|done].
Qed.

(** A chunk that was refused as a whole changes nothing. *)
Lemma reached_again st b' invalid g' gs tail cl' w' mx : inv st → global st < n → chunk st b' invalid g' gs tail →
  upto (global st) w' → same_limits cl0 cl' → 1 <= mx →
  inv (State cl' w' (global st) mx (out st) (failed_after st invalid)).
Proof.
  intros Hi Hlt Hc Hup Hl Hmx. pose proof (mi_global _ Hi). split; cbn; try done. exists (global st).
  pose proof (reached_out st Hi Hlt) as Ho. destruct (reached_here st Hi Hlt) as (_ & Hd). split; [done|]. cbn.
  destruct invalid as [f|]; cbn; [|destruct (failed st); [|done]; naive_solver].
  destruct (fl_end _ _ _ _ _ _ _ _ _ _ _ _ (ck_filled _ _ _ _ _ _ Hc)) as (-> & _ & item & Hit & Hbad). cbn.
  pose proof (ck_le _ _ _ _ _ _ Hc). pose proof (ck_room _ _ _ _ _ _ Hc). split_and!; [done|lia|lia| |lia|right; split_and!; [done|lia|done]].
  exists item. rewrite lookup_drop in Hit.
  by replace (Z.to_nat (global st + Z.of_nat (length gs))) with (Z.to_nat (global st) + length gs)%nat by lia.
Qed.

(** The items of a chunk have valid paths. *)
Lemma valid_taken st b' invalid g' gs tail j : inv st → chunk st b' invalid g' gs tail → (j < length gs)%nat →
  ¬ invalid_item (global st + Z.of_nat j).
Proof.
  intros Hi Hc Hj (item & Hit & Hbad). pose proof (mi_global _ Hi). specialize (Hbad start_building).
  rewrite (fl_valid _ _ _ _ _ _ _ _ _ _ _ _ (ck_filled _ _ _ _ _ _ Hc) j item) in Hbad; [done|done|].
  rewrite lookup_drop. by replace (Z.to_nat (global st) + j)%nat with (Z.to_nat (global st + Z.of_nat j)) by lia.
Qed.

(** After a chunk whose items were all carried out. *)
Lemma reached_next st b' invalid g' gs tail cl' w' o' : inv st → global st < n → chunk st b' invalid g' gs tail →
  upto (global st + Z.of_nat (length gs)) w' →
  out_ok (global st + Z.of_nat (length gs)) (if invalid is Some _ then true else false) o' → same_limits cl0 cl' →
  global st < g' ∧ inv (State cl' w' g' USIZE_MAX o' (failed_after st invalid)).
Proof.
  intros Hi Hlt Hc Hup Ho Hl. pose proof (mi_global _ Hi). pose proof (ck_le _ _ _ _ _ _ Hc). pose proof (ck_room _ _ _ _ _ _ Hc).
  pose proof (fl_end _ _ _ _ _ _ _ _ _ _ _ _ (ck_filled _ _ _ _ _ _ Hc)) as He. destruct invalid as [f|].
  - destruct He as (-> & -> & item & Hit & Hbad). split; [done|]. split; cbn; try done; [lia|].
    exists (global st + Z.of_nat (length gs)). split; [done|]. cbn. split_and!; [done|lia|lia| |lia|by left].
    exists item. rewrite lookup_drop in Hit.
    by replace (Z.to_nat (global st + Z.of_nat (length gs))) with (Z.to_nat (global st) + length gs)%nat by lia.
  - destruct He as (-> & -> & _).
    assert (gs ≠ []) by (intros ->; apply (ck_some _ _ _ _ _ _ Hc); by rewrite (ck_ranges _ _ _ _ _ _ Hc)).
    assert (0 < length gs)%nat by (destruct gs; [done|cbn; lia]). split; [lia|]. split; cbn; try done; [lia|].
    exists (global st + Z.of_nat (length gs)). split; [done|]. cbn.
    destruct (reached_here st Hi Hlt) as (_ & Hd). destruct (failed st) as [f|]; [|done].
    destruct Hd as (Hf & Hr & Hinv & Hroom & Hle). split_and!; [done|lia|lia|done|lia|]. right. split; [done|]. split; [|done].
    destruct (decide (f.1 < global st + Z.of_nat (length gs))); [|lia]. exfalso.
    apply (valid_taken st b' None (global st + Z.of_nat (length gs)) gs [] (Z.to_nat (f.1 - global st)) Hi Hc); [lia|].
    by replace (global st + Z.of_nat (Z.to_nat (f.1 - global st))) with f.1 by lia.
Qed.

Lemma merged_after_reply_ok st b' invalid g' gs tail cl' res w' : inv st → global st < n → chunk st b' invalid g' gs tail →
  exchanged rpc (mjoin gs ++ tail) (world st) res w' → same_limits cl0 cl' →
  turn_keeps inv measure (λ a, final a.1.1 a.2) st
    (after_reply sh cl' w' (global st) g' (budget_of sh (client st)) (out st) (failed_after st invalid) (b_map b') res).
Proof.
  intros Hi Hlt Hc Hex Hl. pose proof Hex as (req & sid & q & Hr & Hreq & Hd & Hok). pose proof (mi_global _ Hi) as Hg.
  pose proof (ck_filled _ _ _ _ _ _ Hc) as Hf. pose proof (ck_le _ _ _ _ _ _ Hc) as Hle.
  pose proof (reached_out st Hi Hlt) as Ho. destruct (reached_here st Hi Hlt) as (Hup & _).
  destruct (chunk_sent (global st) _ _ _ _ _ _ _ _ _ _ _ ltac:(lia) Hf Hup Hr Hreq) as (k & Hk & Hdone).
  specialize (Hdone res eq_refl Hok). subst k. pose proof (complete_le gs (ops_done res)).
  unfold after_reply. destruct (sh_retry _ _ _ _ _ _ _) eqn:Er.
  { apply Hretry in Er as [Hb Hwhy].
    assert (upto (global st) w').
    { destruct Hwhy as [Hrej|Hnone]; [|by eapply upto_less; [exact Hnone| |exact Hk]; lia].
      by rewrite rejected_nothing_done, complete_zero, Z.add_0_r in Hk by (done || apply (fl_nonempty _ _ _ _ _ _ _ _ _ _ _ _ Hf)). }
    assert (Hi' : inv (State cl' w' (global st) USIZE_MAX (out st) (failed_after st invalid))) by (by eapply reached_again).
    split; [done|]. pose proof (mi_max _ Hi). destruct (budget_range _ Hl) as [? _].
    unfold measure. cbn [global client max_items]. nia. }
  set (extra := if invalid is Some _ then let e := 1 + Z.of_nat (length (mjoin gs)) in [(global st + Z.of_nat (length gs), e, e)] else []).
  assert (Hx : (extra = [] ∨ extra = [(global st + Z.of_nat (length gs), 1 + Z.of_nat (length (mjoin gs)), 1 + Z.of_nat (length (mjoin gs)))])
    ∧ global st + Z.of_nat (length gs) + Z.of_nat (length extra) <= n) by (unfold extra; destruct invalid; cbn; split; auto; lia).
  assert (Hxi : if invalid is Some _ then extra = [(global st + Z.of_nat (length gs), 1 + Z.of_nat (length (mjoin gs)),
    1 + Z.of_nat (length (mjoin gs)))] else extra = []) by (by unfold extra; destruct invalid).
  destruct Hx as [Hx Hxl]. assert (Hrs : ranges (b_map b') = group_ranges (global st) 1 gs ++ extra) by apply Hc. clearbody extra.
  pose proof (failed_range_spec _ res (b_map b') (global st) gs extra tail sid q Hd Hok Hreq Hrs Hx) as Hfr.
  destruct (first_failed_range res (b_map b')) as [[[caller stt]|]|e]; rewrite ?Hrs.
  - destruct Hfr as (j & -> & Hj & Hcj). rewrite Hcj in Hk.
    rewrite group_ranges_before; [|lia|destruct Hx as [-> | ->]; [by constructor|by apply Forall_singleton]].
    destruct (Hcollect _ _ _ _ _ _ _ _ _ j false [] (out st) (proj1 Hg) Hf Hex) as (o' & Hcol & Ho'); [lia|lia|done|done|].
    rewrite app_nil_r in Hcol. rewrite Hcol. cbn. split; [lia|]. split; [done|]. exists false. split; [done|].
    split; [done|]. intros [_ Hinv]. exfalso. by apply (valid_taken st b' invalid g' gs tail j).
  - destruct Hfr as [Hcj _]. rewrite Hcj in Hk.
    destruct (Hcollect _ _ _ _ _ _ _ _ _ (length gs) (if invalid is Some _ then true else false) extra (out st) (proj1 Hg) Hf Hex)
      as (o' & Hcol & Ho'); [lia|lia| |done|].
    { destruct invalid as [f|]; [|done]. rewrite Hxi in Hxl |- *. cbn in Hxl. eexists. split; [done|lia]. }
    rewrite take_ge in Hcol by lia. rewrite Hcol. cbn [mbind option_bind].
    destruct (reached_next st b' invalid g' gs tail cl' w' o' Hi Hlt Hc Hk Ho' Hl) as [Hmore Hi'].
    destruct (Z.eqb_spec (global st) g'); [lia|]. split; [done|]. by apply merged_measure_progress.
  - cbn. eexists. split; [|exact Hk]. lia.
Qed.

(** What a send comes to. *)
Lemma send_ok st b' invalid g' gs tail c r cl' w' : inv st → global st < n → chunk st b' invalid g' gs tail →
  PreflightLemmas.cache_ok xdr_len c → Compound.ops c = mjoin gs ++ tail →
  send rpc xdr_len sh (client st) c (world st) = (r, cl', w') →
  same_limits cl0 cl' ∧
  match r with
  | Ok res => exchanged rpc (mjoin gs ++ tail) (world st) res w'
  | Err e => ∃ k, 0 <= k <= n ∧ upto k w'
  end.
Proof.
  intros Hi Hlt Hc Hcache Hcops Hsend. pose proof (mi_global _ Hi). pose proof (ck_le _ _ _ _ _ _ Hc).
  assert (∃ r0, NfsClient.call_compound rpc xdr_len (client st) c (world st) = (r0, cl', w') ∧
    match r, r0 with Ok res, Ok res0 => res = res0 | Err _, Err _ => True | _, _ => False end) as (r0 & Hcall & Hr0).
  { unfold send in Hsend. destruct (sh_safety sh) as [safety|].
    - apply safe_call in Hsend as (r0 & Hcall & Hr0). exists r0. split; [done|]. by destruct r, r0.
    - exists r. split; [done|]. by destruct r. }
  destruct (send_outcomes rpc Hrpc xdr_len _ c _ r0 cl' w' Hcache Hcall) as [Hs Hout]. rewrite Hcops in Hout.
  split; [eapply SendLemmas.same_limits_trans; [apply Hi|done]|].
  destruct (reached_here st Hi Hlt) as (Hup & _). destruct r as [res|e], r0 as [res0|e0]; try done; [by subst res0|].
  destruct Hout as [[-> _]|[_ (r1 & req & sid & q & Hr & Hreq)]]; [exists (global st); split; [lia|done]|].
  destruct (chunk_sent (global st) _ _ _ _ _ _ _ _ _ _ _ ltac:(lia) (ck_filled _ _ _ _ _ _ Hc) Hup Hr Hreq) as (k & Hk & _).
  pose proof (complete_le gs k). eexists. split; [|exact Hk]. destruct invalid; lia.
Qed.

Lemma repack_spec cl tag one c items : PreflightLemmas.cache_ok xdr_len c →
  ∃ repack c', NfsClient.merged_paths_need_repack xdr_len cl tag one c items = (repack, c') ∧
    PreflightLemmas.cache_ok xdr_len c' ∧ Compound.ops c' = Compound.ops c ∧ (repack = true → 1 < items).
Proof.
  intros Hc. unfold NfsClient.merged_paths_need_repack. destruct (Z.leb_spec items 1); [by exists false, c|].
  case_match; [by exists true, c|].
  destruct (SendLemmas.compound_request_fits_spec xdr_len cl c Hc) as (c' & -> & Hc' & Hops' & _). by eexists _, c'.
Qed.

Lemma merged_round_ok st : inv st → global st < n →
  turn_keeps inv measure (λ a, final a.1.1 a.2) st (round rpc xdr_len sh ops st).
Proof.
  intros Hi Hlt. pose proof (mi_global _ Hi).
  pose proof (reached_out st Hi Hlt) as Ho. pose proof (reached_here st Hi Hlt) as (Hup & Hd).
  destruct st as [cl w g mx o f]. unfold round. set (st := State cl w g mx o f) in *. cbn [client world global max_items out failed] in *.
  assert (0 <= g ∧ g < n) by (cbn in *; lia). fold n start_building. destruct (fill _ _ _ _ _ _ _ _ _) as [[invalid g'] b'] eqn:Hfill.
  destruct (chunk_built st _ _ _ Hi Hlt Hfill) as [(Hnil & -> & Hroom)|(gs & tail & Hc & Hmx)].
  { rewrite Hnil. cbn. destruct f as [f|]; [by destruct Hd as (_ & _ & _ & ? & _)|]. cbn. split; [lia|].
    split; [done|]. exists false. split; [done|]. split; [done|]. by intros [? _]. }
  destruct (Z.eqb_spec (Z.of_nat (length (ranges (b_map b')))) 0) as [Hz|Hnz].
  { exfalso. apply (ck_some _ _ _ _ _ _ Hc), length_zero_iff_nil. lia. }
  set (items := Z.of_nat (length (ranges (b_map b')))) in *.
  assert (Hcache : PreflightLemmas.cache_ok xdr_len (b_compound b')).
  { intros l r. by rewrite (fl_cache _ _ _ _ _ _ _ _ _ _ _ _ (ck_filled _ _ _ _ _ _ Hc) eq_refl). }
  assert (Hsent : ∀ c, PreflightLemmas.cache_ok xdr_len c → Compound.ops c = Compound.ops (b_compound b') →
    turn_keeps inv measure (λ a, final a.1.1 a.2) st
      (let '(r, cl0, w1) := send rpc xdr_len sh cl c w in
       match r with
       | Ok res => after_reply sh cl0 w1 g g' (budget_of sh cl) o (failed_after st invalid) (b_map b') res
       | Err e => Some (Return (Err e, cl0, w1))
       end)).
  { intros c Hcc Hcops. destruct (send _ _ _ _ _ _) as [[r cl'] w'] eqn:Hsend. rewrite (ck_ops _ _ _ _ _ _ Hc) in Hcops.
    destruct (send_ok st b' invalid g' gs tail c r cl' w' Hi Hlt Hc Hcc Hcops Hsend) as [Hl Hr].
    destruct r as [res|e]; [|exact Hr]. by apply (merged_after_reply_ok st b' invalid g' gs tail cl' res w'). }
  change (match invalid with Some f0 => Some f0 | None => f end) with (failed_after st invalid).
  destruct (failed_after st invalid) as [f'|] eqn:Ef; [by apply Hsent|].
  destruct (repack_spec cl (bstr (sh_tag sh)) (1 + sh_per_file sh) (b_compound b') items Hcache)
    as (repack & c' & -> & Hcc & Hcops & Hmany). destruct repack; [|by apply Hsent].
  specialize (Hmany eq_refl). rewrite <-Ef.
  assert (Hi' : inv (State cl w g (items - 1) o (failed_after st invalid)))
    by (apply (reached_again st b' invalid g' gs tail cl w (items - 1)); try done; [apply Hi|lia]).
  split; [done|]. assert (items <= n).
  { unfold items. pose proof (ck_le _ _ _ _ _ _ Hc) as Hle. rewrite (ck_ranges _ _ _ _ _ _ Hc), length_app, group_ranges_length.
    cbn in Hle. destruct invalid; cbn [length]; lia. }
  unfold measure. cbn [st global client max_items] in *. lia.
Qed.

Lemma merged_ok fuel o : (n + 1) * (N + 1) * (n + 1) <= Z.of_nat fuel → out_ok 0 false o →
  ∃ r cl' w', merged rpc xdr_len sh fuel cl0 ops o w0 = Done (r, cl', w') ∧ final r w'.
Proof.
  intros Hfuel Ho. set (st := State cl0 w0 0 USIZE_MAX o None).
  assert (Hi : inv st).
  { split; cbn; [unfold n; lia|done|auto with vnfs|]. exists 0. split; [|done].
    exists []. by rewrite app_nil_r. }
  destruct (run_ok (λ st, global st <? n) (round rpc xdr_len sh ops) (λ st, (Ok (out st, failed st), client st, world st))
    inv measure (λ a, final a.1.1 a.2)) with (fuel := fuel) (st := st) as ([[r cl'] w'] & Hrun & Hall);
    [| | |done| |by exists r, cl', w'].
  - intros st' Hi'. pose proof (mi_global _ Hi'). pose proof (mi_max _ Hi'). destruct (budget_range _ (mi_limits _ Hi')) as [? _].
    unfold measure, N in *. nia.
  - intros st' Hi' Hlt%Z.ltb_lt. by apply merged_round_ok.
  - intros st' Hi' Hge%Z.ltb_ge. pose proof (mi_global _ Hi'). destruct (mi_reached _ Hi') as (d & Hup & Hd). cbn.
    destruct (failed st') as [[k st1]|]; [|destruct Hd as [-> Ho']; by replace (global st') with n in * by lia].
    destruct Hd as (Hst & Hr & Hinv & _ & [(_ & -> & Ho')|(_ & ? & _)]); cbn in *; [|lia]. injection Hst as ->.
    split; [lia|]. split; [done|]. by exists true.
  - destruct (budget_range _ (mi_limits _ Hi)) as [Hb _]. assert (0 <= n) by (unfold n; lia). cbn in Hb.
    unfold measure. cbn [st global client max_items]. assert (budget_of sh cl0 * (n + 1) <= N * (n + 1)) by nia. nia.
Qed.
End Once.

(** ** Removing and renaming by path *)

(** A path without a final component. *)
Definition leafless (path : bytes) : bool :=
  match split_path_bytes path with Ok _ => false | Err _ => true end.
Definition leafless_pair (pair : PathRenamePair) : bool := leafless (pr_src pair) || leafless (pr_dst pair).

Lemma remove_leafless path b : (emit_remove path b).1 = negb (leafless path).
Proof.
  unfold emit_remove, leafless. pose proof (at_parent_shape b path) as H.
  destruct (split_path_bytes path) as [[dir leaf]|e]; cbn [result_ok] in H; [|by rewrite H].
  by destruct H as (b' & ops & -> & _).
Qed.

Lemma rename_leafless pair b : (emit_rename pair b).1 = negb (leafless_pair pair).
Proof.
  unfold emit_rename, leafless_pair, leafless. pose proof (at_parent_shape b (pr_src pair)) as H.
  destruct (split_path_bytes (pr_src pair)) as [[dir leaf]|e]; cbn [result_ok] in H; [|by rewrite H].
  destruct H as (b1 & ops & -> & _). cbn [orb].
  pose proof (CursorLemmas.set_current_parent_shape (b_cursor b1) (b_compound b1) (pr_dst pair)) as H.
  destruct (split_path_bytes (pr_dst pair)) as [[ddir dleaf]|e]; cbn [result_ok] in H; [|by rewrite H].
  by destruct H as (self & c & ops' & -> & _).
Qed.

(** The items before [d] are marked, item [d] as [x] says, the ones after it are
    not. *)
Definition marks_upto (n : nat) (d : Z) (x : bool) : list (option unit) :=
  let k := Z.to_nat d in
  replicate k (Some tt) ++ (if x then Some tt :: replicate (n - S k) None else replicate (n - k) None).
Definition marked (n : nat) (d : Z) (x : bool) (o : list (option unit)) : Prop := o = marks_upto n d x.

Lemma mark_done_app a b o : mark_done (a ++ b) o = o' ← mark_done a o; mark_done b o'.
Proof. revert o. induction a as [|r a IH]; intros o; cbn; [done|]. destruct (vec_set o _ _); cbn; [apply IH|done]. Qed.

Lemma mark_next n d s e : 0 <= d < Z.of_nat n →
  mark_done [(d, s, e)] (marks_upto n d false) = Some (marks_upto n d true) ∧ marks_upto n d true = marks_upto n (d + 1) false.
Proof.
  intros Hd. unfold marks_upto. cbn [mark_done]. unfold ExecutionMap.r_caller. cbn [fst].
  rewrite TolerantLemmas.vec_set_ok by lengths. cbn [mbind option_bind]. split.
  - rewrite insert_app_r_alt by lengths. rewrite length_replicate, Nat.sub_diag.
    by replace (n - Z.to_nat d)%nat with (S (n - S (Z.to_nat d))) by lia.
  - replace (Z.to_nat (d + 1)) with (S (Z.to_nat d)) by lia. rewrite replicate_S_end, <-app_assoc. done.
Qed.

Lemma mark_group n g first gs : 0 <= g → g + Z.of_nat (length gs) <= Z.of_nat n →
  mark_done (group_ranges g first gs) (marks_upto n g false) = Some (marks_upto n (g + Z.of_nat (length gs)) false).
Proof.
  revert g first. induction gs as [|x gs IH]; intros g first Hg Hle; cbn [group_ranges length].
  { by rewrite Z.add_0_r. }
  cbn [length] in Hle. change (?r :: ?rs) with ([r] ++ rs). rewrite mark_done_app.
  destruct (mark_next n g first (first + Z.of_nat (length x))) as [-> ->]; [lia|]. cbn [mbind option_bind].
  rewrite IH by lia. by replace (g + 1 + Z.of_nat (length gs)) with (g + Z.of_nat (S (length gs))) by lia.
Qed.

Lemma marks_collect n g gs (j k : nat) (x : bool) extra o : 0 <= g → (j <= complete gs k)%nat → g + Z.of_nat j <= Z.of_nat n →
  (if x then ∃ e, extra = [(g + Z.of_nat j, e, e)] ∧ g + Z.of_nat j < Z.of_nat n else extra = []) →
  marked n g false o → ∃ o', mark_done (group_ranges g 1 (take j gs) ++ extra) o = Some o' ∧ marked n (g + Z.of_nat j) x o'.
Proof.
  intros Hg Hj Hle Hx ->. pose proof (complete_le gs k). assert (length (take j gs) = j) as Hl by (lengths).
  revert Hl Hle Hx. generalize (take j gs). intros gs' <- Hle Hx. rewrite mark_done_app, mark_group by done.
  cbn [mbind option_bind]. destruct x; [|subst extra; by eexists].
  destruct Hx as (e & -> & Hlt). eexists. by split; [apply (mark_next n); lia|].
Qed.

Lemma retry_mutation sh_tag per reserve cl res b :
  NfsClient.can_retry_merged_resource cl (bstr sh_tag) res b reserve per = true →
  CompoundBudget.merged_limit (NfsClient.op_budget_for cl (bstr sh_tag) (1 + per)) reserve per < b ∧
  resource_rejected_before_mutation res = true.
Proof. unfold NfsClient.can_retry_merged_resource. intros [H1 H2]%andb_true_iff. split; [lia|done]. Qed.

(** The outcome of a merged mutation: what was carried out, and what is reported.
    An item refused for its path ([bad]) is the only one that is marked without
    having been carried out. *)
Definition mutation_outcome {W T} (tree : list effect → fh_server) (log : W → list effect)
    (intended : fh_server → T → option (list effect)) (bad : T → bool) (items : list T)
    (w : W) (r : RpcResult (list (option unit) * option (Z * Z))) (w' : W) : Prop :=
  let n := length items in
  let did (k : nat) := ∃ es, in_turn tree intended (log w) (take k items) = Some es ∧ log w' = log w ++ es in
  match r with
  | Ok (marks, None) => did n ∧ marks = replicate n (Some tt)
  | Ok (marks, Some (k, st)) => ∃ i item, k = Z.of_nat i ∧ items !! i = Some item ∧ did i ∧
      marks = replicate i (Some tt) ++
              (if bad item && (st =? NFS4ERR_INVAL) then Some tt else None) :: replicate (n - S i) None
  | Err _ => ∃ k, (k <= n)%nat ∧ did k
  end.

Lemma final_outcome {W T} tree (log : W → list effect) (sh : shape T (list (option unit)))
    (intended : fh_server → T → option (list effect)) (bad : T → bool) (items : list T) w r w' :
  (∀ item b, (sh_emit sh item b).1 = negb (bad item)) →
  final tree log sh intended items w (marked (length items)) r w' → mutation_outcome tree log intended bad items w r w'.
Proof.
  intros Hbad. unfold mutation_outcome, final, upto. destruct r as [[marks [[k st]|]]|e].
  - intros (Hk & Hup & x & -> & Hx). destruct (lookup_lt_is_Some_2 items (Z.to_nat k)) as [item Hit]; [lia|].
    exists (Z.to_nat k), item. split_and!; [lia|done|done|]. unfold marks_upto. f_equal.
    assert (x = bad item && (st =? NFS4ERR_INVAL)) as ->; [|destruct (bad item && _)].
    { apply eq_bool_prop_intro. rewrite andb_True, !Is_true_true, Z.eqb_eq, Hx. unfold invalid_item. split.
      - intros [-> (it & Hit' & Hb)]. rewrite Hit in Hit'. injection Hit' as <-. split; [|done].
        specialize (Hb (start_building sh)). rewrite Hbad in Hb. by destruct (bad item).
      - intros [Hb ->]. split; [done|]. exists item. split; [done|]. intros b. by rewrite Hbad, Hb. }
    + done.
    + by replace (length items - Z.to_nat k)%nat with (S (length items - S (Z.to_nat k))) by lia.
  - rewrite Nat2Z.id. intros [? ->]. split; [done|]. unfold marks_upto. by rewrite Nat2Z.id, Nat.sub_diag, app_nil_r.
  - intros (k & Hk & Hup). exists (Z.to_nat k). split; [lia|done].
Qed.

(** C2: Files named by paths are removed exactly once and in order, each in the
    directory its path leads to when its turn comes.  For every list of paths,
    every server that carries out a compound in order, whose directories change
    with what is removed, and any pattern of size rejections, failures and lost
    replies, [removev_path_compound] terminates without a panic; if it reports no
    failure every path was removed and is marked; if it reports a failure, exactly
    the paths before the reported one were removed, and the marks are theirs and,
    when the reported path was refused for having no final component, also that
    path's, which was not removed; after an error some prefix was removed, and
    nothing twice. *)
Theorem removev_path_once {W} (rpc : Compound.t → W → RpcResult COMPOUND4res * W) (xdr_len : Compound.t → Z)
    `{!XdrSizes xdr_len} (tree : list effect → fh_server) `{!LiveTree tree} (log : W → list effect) (cl : NfsClient.t)
    (paths : list bytes) (w : W) (fuel : nat) :
  transport_ok rpc → executes_live tree rpc log → 0 <= NfsClient.max_ops cl <= U32_MAX →
  Forall (λ p, path_size p <= I64_MAX) paths →
  let n := Z.of_nat (length paths) in
  (n + 1) * (NfsClient.max_ops cl + 1) * (n + 1) <= Z.of_nat fuel →
  ∃ r cl' w', removev_path_compound rpc xdr_len fuel cl paths w = Done (r, cl', w') ∧
    mutation_outcome tree log remove_effect leafless paths w r w'.
Proof.
  intros Hrpc Hexec Hops Hsize n Hfuel.
  destruct (merged_ok rpc Hrpc xdr_len tree log Hexec removev_shape remove_effect path_size ltac:(cbn; unfold U32_MAX; lia))
    with (ops := paths) (cl0 := cl) (w0 := w) (out_ok := marked (length paths)) (fuel := fuel)
      (o := replicate (length paths) (None : option unit)) as (r & cl' & w' & Hrun & Hfin); [|done|done| |done| |].
  - intros cl1 res b [H1 H2]%retry_mutation. split; [done|by left].
  - intros g b' invalid g' gs tail w1 res w2 j x extra o Hg Hf _ Hj Hle Hx Ho. cbn. by eapply marks_collect.
  - unfold marked, marks_upto. by rewrite Nat.sub_0_r.
  - exists r, cl', w'. split; [exact Hrun|]. by apply (final_outcome tree log removev_shape); [apply remove_leafless|].
Qed.

(** C8: Renames by path happen exactly once and in order, between the
    directories their two paths lead to when their turn comes, also when an
    earlier rename of the batch moved a directory on the way; the same outcomes as
    for removals, with a pair refused when one of its paths has no final
    component. *)
Theorem renamev_path_once {W} (rpc : Compound.t → W → RpcResult COMPOUND4res * W) (xdr_len : Compound.t → Z)
    `{!XdrSizes xdr_len} (tree : list effect → fh_server) `{!LiveTree tree} (log : W → list effect) (cl : NfsClient.t)
    (pairs : list PathRenamePair) (w : W) (fuel : nat) :
  transport_ok rpc → executes_live tree rpc log → 0 <= NfsClient.max_ops cl <= U32_MAX →
  Forall (λ p, path_size (pr_src p) + path_size (pr_dst p) <= I64_MAX) pairs →
  let n := Z.of_nat (length pairs) in
  (n + 1) * (NfsClient.max_ops cl + 1) * (n + 1) <= Z.of_nat fuel →
  ∃ r cl' w', renamev_path_compound rpc xdr_len fuel cl pairs w = Done (r, cl', w') ∧
    mutation_outcome tree log rename_effect leafless_pair pairs w r w'.
Proof.
  intros Hrpc Hexec Hops Hsize n Hfuel.
  destruct (merged_ok rpc Hrpc xdr_len tree log Hexec renamev_shape rename_effect _ ltac:(cbn; unfold U32_MAX; lia))
    with (ops := pairs) (cl0 := cl) (w0 := w) (out_ok := marked (length pairs)) (fuel := fuel)
      (o := replicate (length pairs) (None : option unit)) as (r & cl' & w' & Hrun & Hfin); [|done|done| |done| |].
  - intros cl1 res b [H1 H2]%retry_mutation. split; [done|by left].
  - intros g b' invalid g' gs tail w1 res w2 j x extra o Hg Hf _ Hj Hle Hx Ho. cbn. by eapply marks_collect.
  - unfold marked, marks_upto. by rewrite Nat.sub_0_r.
  - exists r, cl', w'. split; [exact Hrun|]. by apply (final_outcome tree log renamev_shape); [apply rename_leafless|].
Qed.
End MergedOnceLemmas.
