(* ===== verification/MergedAttrs.v ===== *)
(** * Attributes of files named by paths

    The merged GETATTRs: the list returned for an item is the one the server
    holds for the object its path (or handle) names, however the items were
    packed into compounds and however often a rejected compound was sent again. *)
From stdpp Require Import base numbers list list_numbers gmap strings.
From S2P Require Import Prelude Path Errors Types Planner Compound Session Cursor Client Loops Exchange Batch Merged MergedOnce.

(** The attributes the server holds; they do not change meanwhile.  An accepted
    reply carries, for a GETATTR that was carried out, those of the current
    filehandle. *)
Definition serves_attrs {W} (s : fh_server) (attr : nfs_fh4 → bitmap4 → bytes)
    (rpc : Compound.t → W → RpcResult COMPOUND4res * W) : Prop :=
  ∀ c w res w' sid q ops j mask m es, rpc c w = (Ok res, w') → Compound.ops c = ASequence sid q 0 0 :: ops →
    reply_ok (Compound.ops c) res → ops !! j = Some (AGetattr mask) → (j < ops_done res)%nat →
    path_run s (Fhs None None) (take j ops) = Some (m, es) →
    ∃ x, cur m = Some x ∧ CompoundRes.getattr res (1 + Z.of_nat j) = Some (attr x mask).

Module MergedAttrsLemmas.
Import Merged ExchangeLemmas EmitLemmas GroupLemmas ExecutionMap MergedLemmas MergedOnceLemmas.

Lemma collect_in_app {A} (f : bytes → option A) res caller (from : Z) (a b : nat) (o : list (option A)) :
  collect_getattrs_in f res caller from (a + b)%nat o =
  (o' ← collect_getattrs_in f res caller from a o; collect_getattrs_in f res caller (from + Z.of_nat a) b o').
Proof.
  revert from o. induction a as [|a IH]; intros from o; cbn [Nat.add collect_getattrs_in mbind option_bind].
  { by rewrite Z.add_0_r. }
  destruct (CompoundRes.op res from) as [r|]; cbn; [|done]. set (x := if resop_num r =? OP_GETATTR then _ else _).
  destruct x as [o1|]; cbn; [|done]. rewrite IH. by replace (from + 1 + Z.of_nat a) with (from + Z.of_nat (S a)) by lia.
Qed.

(** Operations other than GETATTR store nothing. *)
Lemma collect_in_other {A} (f : bytes → option A) request res caller (first : nat) ops o :
  decoded res → reply_ok request res → (∀ p a, ops !! p = Some a → request !! (first + p)%nat = Some a) →
  Z.of_nat (first + length ops) <= CompoundRes.nops res → Forall (λ op, argop_num op ≠ OP_GETATTR) ops →
  collect_getattrs_in f res caller (Z.of_nat first) (length ops) o = Some o.
Proof.
  intros Hd Hok. revert first. induction ops as [|a ops IH]; intros first Hreq Hn Hf; [done|]. cbn [length collect_getattrs_in].
  cbn [length] in Hn. apply Forall_cons in Hf as [Ha Hf]. unfold CompoundRes.nops in Hn.
  destruct (ValidateReplyLemmas.validated_op request res (Z.of_nat first) Hd Hok ltac:(lia)) as (a' & r & Hq & -> & _ & Hnum & _).
  cbn [mbind option_bind]. rewrite Nat2Z.id in Hq. specialize (Hreq 0%nat a eq_refl) as H0. rewrite Nat.add_0_r in H0.
  rewrite H0 in Hq. injection Hq as <-. destruct (Z.eqb_spec (resop_num r) OP_GETATTR); [congruence|].
  replace (Z.of_nat first + 1) with (Z.of_nat (S first)) by lia. apply IH; [|unfold CompoundRes.nops; lia|done].
  intros p x Hp. specialize (Hreq (S p) x Hp). by replace (first + S p)%nat with (S first + p)%nat in Hreq by lia.
Qed.

Lemma path_run_prefix s m a b m' es : path_run s m (a ++ b) = Some (m', es) → ∃ m1 es1, path_run s m a = Some (m1, es1).
Proof. rewrite path_run_app. destruct (path_run s m a) as [[m1 es1]|]; [eauto|done]. Qed.

Section Attrs.
Context {W : Type} (rpc : Compound.t → W → RpcResult COMPOUND4res * W) (s : fh_server) `{!FhTree s}.
Context (attr : nfs_fh4 → bitmap4 → bytes) (Hattr : serves_attrs s attr rpc).
Context (log : W → list effect) (Hexec : executes_paths s rpc log) (ops : list PathGetattrOp).

(** The results of the items before [d]. *)
Definition answered (d : Z) (o : list (option bytes)) : Prop :=
  length o = length ops ∧ ∀ i op, Z.of_nat i < d → ops !! i = Some op →
    ∃ x, file_of s (pg_file op) = Some x ∧ o !! i = Some (Some (attr x (Compound.bitmap (pg_attrs op)))).

(** The operations of an item, found in the chunk. *)
Lemma item_ops b1 b2 b3 op g m :
  emit_getattr op b1 = (true, b3) → extends b1 b2 g → b_compound b3 = b_compound b2 → tracks s (b_cursor b1) m →
  ∃ nav, g = nav ++ [AGetattr (Compound.bitmap (pg_attrs op))] ∧ Forall (λ op, argop_num op ≠ OP_GETATTR) nav ∧
    ∀ mi es, path_run s m nav = Some (mi, es) → ∃ x, file_of s (pg_file op) = Some x ∧ cur mi = Some x.
Proof.
  unfold emit_getattr. destruct (at_file b1 (pg_file op)) as [b4|] eqn:Hat; [|done]. intros [= <-] Hex Hc Htr.
  destruct (at_file_shape b1 _ b4 Hat) as (nav & Hex4 & _ & Hno & _). exists nav. split_and!; [|done|].
  - pose proof (ex_ops _ _ _ Hex) as H1. rewrite <-Hc in H1. cbn in H1. rewrite (ex_ops _ _ _ Hex4), <-app_assoc in H1.
    by apply app_inv_head in H1.
  - intros mi es Hrun. destruct (file_run s b1 _ b4 nav m mi es Htr Hat Hex4 Hrun) as (x & Hx & Hcur & _). eauto.
Qed.

(** The first [k] operations the server carried out, up to those of an item. *)
Lemma run_to_item gs tail i grp w res w' :
  exchanged rpc (mjoin gs ++ tail) w res w' → (i < complete gs (ops_done res))%nat → gs !! i = Some grp →
  ∃ m es m' es', path_run s (Fhs None None) (mjoin (take i gs)) = Some (m, es) ∧ path_run s m grp = Some (m', es').
Proof.
  intros (req & sid & q & Hr & Hreq & _ & Hok) Hi Hg.
  destruct (Hexec _ _ _ _ _ _ _ Hr Hreq) as (k & m & es & Hrun & _ & Hk). specialize (Hk res eq_refl Hok).
  pose proof (complete_offset _ _ _ Hi) as Hoff. rewrite (offset_S _ _ _ Hg) in Hoff.
  rewrite <-(take_drop (offset gs i + length grp) (take k _)), take_take, Nat.min_l in Hrun by lia.
  apply path_run_prefix in Hrun as (m1 & es1 & Hrun).
  pose proof (offset_le _ _ _ Hg).
  rewrite take_app_le, (offset_take _ _ _ Hg), path_run_app in Hrun by lia.
  apply bind_Some in Hrun as ([m2 es2] & H2 & ([m3 es3] & H3 & _)%bind_Some). eauto 10.
Qed.

Lemma collect_item b' invalid g' gs tail w res w' g i op grp o :
  filled getattrv_shape (λ _, s) getattr_effect (drop (Z.to_nat g) ops) g (Z.of_nat (length ops))
    (start_building getattrv_shape) b' invalid g' gs tail →
  exchanged rpc (mjoin gs ++ tail) w res w' → (i < complete gs (ops_done res))%nat →
  drop (Z.to_nat g) ops !! i = Some op → gs !! i = Some grp → 0 <= g → length o = length ops →
  ∃ x, file_of s (pg_file op) = Some x ∧
    collect_getattrs_in Some res (g + Z.of_nat i) (1 + Z.of_nat (offset gs i)) (length grp) o =
      Some (<[Z.to_nat (g + Z.of_nat i) := Some (attr x (Compound.bitmap (pg_attrs op)))]> o).
Proof.
  intros Hf Hex Hi Hop Hg Hg0 Ho. destruct (run_to_item gs tail i grp w res w' Hex Hi Hg) as (m & es & m' & es' & Hrun & Hgrp).
  rewrite <-(live_run_static s []) in Hrun.
  destruct (fl_at _ _ _ _ _ _ _ _ _ _ _ _ Hf i op grp [] (Fhs None None) m es Hop Hg eq_refl Hrun) as (b1 & b2 & b3 & He & Hx & Hc & Htr).
  rewrite live_run_static in Hrun.
  destruct Hex as (req & sid & q & Hr & Hreq & Hd & Hok).
  pose proof (complete_offset _ _ _ Hi) as Hoff. rewrite (offset_S _ _ _ Hg) in Hoff.
  destruct (item_ops b1 b2 b3 op grp m He Hx Hc Htr) as (nav & -> & Hno & Hfile). rewrite length_app in Hoff |- *. cbn [length] in *.
  assert (Hnops : Z.of_nat (1 + offset gs i + (length nav + 1)) <= CompoundRes.nops res) by (unfold ops_done in Hoff; case_match; lia).
  rewrite path_run_app in Hgrp. apply bind_Some in Hgrp as ([mi esi] & Hnav & _).
  destruct (Hfile mi esi Hnav) as (x & Hfx & Hcur). exists x. split; [done|].
  rewrite collect_in_app. replace (1 + Z.of_nat (offset gs i)) with (Z.of_nat (1 + offset gs i)) by lia.
  rewrite (collect_in_other Some (Compound.ops req) res _ (1 + offset gs i) nav o Hd Hok); [| |lia|done].
  2:{ intros p a Hp. rewrite Hreq. apply (offset_lookup gs tail i _ p a Hg). by apply lookup_app_l_Some. }
  assert (Hlast : (mjoin gs ++ tail) !! (offset gs i + length nav)%nat = Some (AGetattr (Compound.bitmap (pg_attrs op))))
    by (apply (offset_lookup gs tail i _ _ _ Hg); by rewrite lookup_app_r, Nat.sub_diag by lia).
  destruct (Hattr req w res w' sid q _ (offset gs i + length nav)%nat (Compound.bitmap (pg_attrs op)) mi (es ++ esi) Hr Hreq Hok Hlast)
    as (x' & Hx' & Hval); [lia| |].
  { rewrite take_app_le by (pose proof (offset_le _ _ _ Hg) as Hle; rewrite length_app in Hle; cbn in Hle; lia).
    replace (take _ (mjoin gs)) with (mjoin (take i gs) ++ nav).
    2:{ pose proof (offset_take gs i _ Hg) as Ht. apply (f_equal (take (offset gs i + length nav))) in Ht.
        rewrite take_take, Nat.min_l in Ht by (rewrite length_app; cbn; lia). rewrite Ht, app_assoc.
        symmetry. apply take_app_length'. by rewrite length_app. }
    rewrite path_run_app, Hrun. cbn. rewrite Hnav. done. }
  rewrite Hcur in Hx'. injection Hx' as <-. cbn [mbind option_bind collect_getattrs_in].
  replace (Z.of_nat (1 + offset gs i) + Z.of_nat (length nav)) with (1 + Z.of_nat (offset gs i + length nav)) by lia.
  pose proof Hval as Hv. unfold CompoundRes.getattr, CompoundRes.expect_op in Hv.
  destruct (CompoundRes.op res _) as [r|]; [|done]. cbn [mbind option_bind] in Hv |- *.
  destruct (resop_num r =? OP_GETATTR); [|done]. rewrite Hval. cbn [mbind option_bind].
  pose proof (lookup_lt_Some _ _ _ Hop) as Hlt. rewrite length_drop in Hlt.
  rewrite TolerantLemmas.vec_set_ok by lia. done.
Qed.

Lemma collect_app {A} (f : bytes → option A) res a b o :
  collect_getattrs f res (a ++ b) o = (o' ← collect_getattrs f res a o; collect_getattrs f res b o').
Proof.
  revert o. induction a as [|r a IH]; intros o; cbn; [done|].
  destruct (collect_getattrs_in _ _ _ _ _ _); cbn; [apply IH|done].
Qed.

Lemma collect_items b' invalid g' gs tail w res w' g j o :
  filled getattrv_shape (λ _, s) getattr_effect (drop (Z.to_nat g) ops) g (Z.of_nat (length ops))
    (start_building getattrv_shape) b' invalid g' gs tail →
  exchanged rpc (mjoin gs ++ tail) w res w' → (j <= complete gs (ops_done res))%nat →
  g + Z.of_nat j <= Z.of_nat (length ops) → 0 <= g → answered g o →
  ∃ o', collect_getattrs Some res (group_ranges g 1 (take j gs)) o = Some o' ∧ answered (g + Z.of_nat j) o'.
Proof.
  intros Hf Hex Hj Hle Hg Ho. induction j as [|j IH].
  { exists o. by rewrite take_0, Z.add_0_r. }
  destruct IH as (o1 & Ho1 & Hl & Ha); [lia|lia|]. pose proof (complete_le gs (ops_done res)).
  destruct (lookup_lt_is_Some_2 gs j) as [grp Hgrp]; [lia|].
  destruct (lookup_lt_is_Some_2 ops (Z.to_nat g + j)) as [op Hop]; [lia|].
  destruct (collect_item b' invalid g' gs tail w res w' g j op grp o1) as (x & Hx & Hc); [done..|lia| |done|done|done|].
  { by rewrite lookup_drop. }
  rewrite (take_S_r _ _ _ Hgrp), group_ranges_app, collect_app, Ho1. cbn [mbind option_bind group_ranges collect_getattrs].
  unfold r_caller, r_start, r_end. cbn [fst snd]. rewrite length_take, Nat.min_l by lia. fold (offset gs j).
  replace (Z.to_nat (1 + Z.of_nat (offset gs j) + Z.of_nat (length grp) - (1 + Z.of_nat (offset gs j)))) with (length grp) by lia.
  rewrite Hc. cbn. eexists. split; [done|]. split; [by rewrite length_insert|]. intros i op' Hi Hop'.
  destruct (decide (i = Z.to_nat (g + Z.of_nat j))) as [->|Hne].
  - replace (Z.to_nat (g + Z.of_nat j)) with (Z.to_nat g + j)%nat in * by lia. rewrite Hop in Hop'. injection Hop' as <-.
    exists x. split; [done|]. apply list_lookup_insert_eq. lia.
  - rewrite list_lookup_insert_ne by done. apply Ha; [lia|done].
Qed.
End Attrs.

Lemma retry_read_only tag per reserve cl res b :
  NfsClient.can_retry_read_only_merged_resource cl (bstr tag) res b reserve per = true →
  CompoundBudget.merged_limit (NfsClient.op_budget_for cl (bstr tag) (1 + per)) reserve per < b.
Proof. unfold NfsClient.can_retry_read_only_merged_resource. intros [_ H]%andb_true_iff. lia. Qed.

(** C7: Attributes by path are those of the object each path names.  For every
    list of paths and handles, every server that walks directories and answers
    GETATTR truthfully, with any pattern of size rejections, failures and lost
    replies, [getattr_path_compound] terminates without a panic and changes
    nothing on the server; every list it returns before the failure it reports
    (or for every item, if it reports none) is the server's for the object that
    resolving the path from the root gives. *)
Theorem getattr_path_correct {W} (rpc : Compound.t → W → RpcResult COMPOUND4res * W) (xdr_len : Compound.t → Z)
    `{!XdrSizes xdr_len} (s : fh_server) `{!FhTree s} (log : W → list effect) (attr : nfs_fh4 → bitmap4 → bytes)
    (cl : NfsClient.t) (ops : list PathGetattrOp) (w : W) (fuel : nat) :
  transport_ok rpc → executes_paths s rpc log → serves_attrs s attr rpc →
  0 <= NfsClient.max_ops cl <= U32_MAX → Forall (λ op, 1 + file_size (pg_file op) <= I64_MAX) ops →
  let n := Z.of_nat (length ops) in
  (n + 1) * (NfsClient.max_ops cl + 1) * (n + 1) <= Z.of_nat fuel →
  ∃ r cl' w', getattr_path_compound rpc xdr_len fuel cl ops w = Done (r, cl', w') ∧ log w' = log w ∧
    match r with
    | Ok (lists, failed) =>
        let d := from_option fst n failed in
        0 <= d ∧ (if failed is Some _ then d < n else d = n) ∧
        ∀ i op, ops !! i = Some op → Z.of_nat i < d →
          ∃ x, file_of s (pg_file op) = Some x ∧
               lists !! i = Some (Some (attr x (Compound.bitmap (pg_attrs op))))
    | Err _ => True
    end.
Proof.
  intros Hrpc Hexec Hattr Hops Hsize n Hfuel.
  assert (Hnone : ∀ s op es, getattr_effect s op = Some es → es = []) by (by intros s' op es (? & _ & [= <-])%bind_Some).
  destruct (merged_ok rpc Hrpc xdr_len (λ _, s) log (executes_static s rpc log Hexec) getattrv_shape getattr_effect _ ltac:(cbn; unfold U32_MAX; lia))
    with (ops := ops) (cl0 := cl) (w0 := w) (out_ok := λ d (_ : bool), answered s attr ops d) (fuel := fuel)
      (o := replicate (length ops) (None : option bytes)) as (r & cl' & w' & Hrun & Hfin); [|done|done| |done| |].
  - intros cl1 res b H%retry_read_only. split; [done|by right].
  - intros g b' invalid g' gs tail w1 res w2 j x extra o Hg Hf Hex Hj Hle Hx Ho. cbn.
    destruct (collect_items rpc s attr Hattr log Hexec ops b' invalid g' gs tail w1 res w2 g j o Hf Hex Hj Hle Hg Ho) as (o' & Hc & Ho').
    exists o'. rewrite collect_app, Hc. split; [|done]. destruct x; [destruct Hx as (e & -> & _)|by subst extra]. cbn.
    unfold r_end, r_start. cbn. by rewrite Z.sub_diag.
  - split; [by rewrite length_replicate|]. lia.
  - exists r, cl', w'. split; [exact Hrun|].
    assert (Hsame : ∀ k, upto (λ _, s) log getattr_effect ops w k w' → log w' = log w) by (intros k; by apply upto_quiet).
    destruct r as [[lists [[k st]|]]|e]; cbn in Hfin |- *.
    + destruct Hfin as (Hk & Hup & _ & (_ & Ha) & _). split; [by eapply Hsame|]. split; [lia|]. split; [lia|]. intros i op Hi Hlt. by apply Ha.
    + destruct Hfin as (Hup & _ & Ha). split; [by eapply Hsame|]. split; [unfold n; lia|]. split; [done|].
      intros i op Hi Hlt. by apply Ha.
    + destruct Hfin as (k & _ & Hup). split; [by eapply Hsame|done].
Qed.
End MergedAttrsLemmas.
