(* ===== verification/MergedExamples.v ===== *)
(** * A small server for the merged path compounds

    The hypotheses of the theorems on merged compounds hold for an executable
    server: names lead to one another as in a path, entries that are removed or
    renamed are no longer found, one name is missing, and compounds of fourteen
    operations or more are rejected. *)
From stdpp Require Import base numbers list list_numbers gmap strings.
From S2P Require Import Prelude Path Errors Types Planner Compound Session Cursor Client Loops Exchange Batch Merged MergedOnce MergedAttrs.

Module MergedExamples.
Import CursorLemmas MergedLemmas MergedOnceLemmas MergedAttrsLemmas.

Definition tree : fh_server := path_server.

(** Whether an entry is still there after the effects [l]. *)
Definition present (l : list effect) (d : nfs_fh4) (n : bytes) : bool :=
  foldl (λ b e,
    match e with
    | ERemove d' n' => b && negb (bool_decide ((d', n') = (d, n)))
    | ERename sd sn dd dn =>
        bool_decide ((dd, dn) = (d, n)) || (b && negb (bool_decide ((sd, sn) = (d, n))))
    | ESetattr _ _ => b
    end) true l.

Definition live (l : list effect) : fh_server :=
  FhServer (fh_root tree) (λ d n, if present l d n then fh_lookup tree d n else None) (fh_lookupp tree)
    (fh_is_dir tree) (fh_child tree) (fh_rename tree).

(** The attributes of an object: its handle. *)
Definition attrs_of (x : nfs_fh4) (_ : bitmap4) : bytes := x.

Definition supported (op : argop) : bool :=
  bool_decide (argop_num op ∉ payload_ops) || (argop_num op =? OP_GETATTR).

Definition missing (op : argop) : bool :=
  match op with ALookup n | ARemove n | ARename n _ => bool_decide (n = bstr "missing") | _ => false end.

Definition reply_of (m : fhs) (op : argop) (status : Z) : resop :=
  match op with
  | AGetattr mask =>
      let x := default [] (cur m) in RGetattr status mask (XdrVec (Z.of_nat (length x)) (Some x))
  | _ => RPlain (argop_num op) status
  end.

Section Serve.
Context (dirs : list effect → fh_server).

Fixpoint serve_paths (l : list effect) (m : fhs) (ops : list argop) : list resop * list effect :=
  match ops with
  | [] => ([], [])
  | op :: ops =>
      if missing op then ([reply_of m op 2], [])
      else
        match path_step (dirs l) m op with
        | None => ([reply_of m op 20], [])
        | Some (m', es) =>
            let '(rs, es') := serve_paths (l ++ es) m' ops in (reply_of m op 0 :: rs, es ++ es')
        end
  end.

Definition serve_rpc (c : Compound.t) (w : list effect) : RpcResult COMPOUND4res * list effect :=
  match Compound.ops c with
  | ASequence _ _ _ _ :: ops =>
      if negb (forallb supported ops) then (Err (RpcError.transport "unexpected"), w)
      else if 14 <=? Z.of_nat (length ops) then (Ok (empty_response NFS4ERR_RESOURCE), w)
      else
        let '(rs, es) := serve_paths w (Fhs None None) ops in
        (Ok (Res (from_option response_op_status 0 (last rs)) (Z.of_nat (S (length rs)))
               (Some (RPlain OP_SEQUENCE 0 :: rs))), w ++ es)
  | _ => (Err (RpcError.transport "unexpected"), w)
  end.
End Serve.

Lemma reply_status m op st : supported op → response_op_status (reply_of m op st) = st.
Proof. by destruct op. Qed.

Lemma reply_decoded m op st : supported op → resop_decoded (reply_of m op st).
Proof.
  intros H. destruct op; try (by apply (bool_decide_unpack _)); try done. cbn. by intros ? [= <-].
Qed.

(** How many operations succeeded: all, or all but the last result. *)
Definition successes (rs : list resop) : nat :=
  (length rs - (if (from_option response_op_status 0%Z (last rs) =? NFS_OK)%Z then 0 else 1))%nat.

Lemma last_status r rs : response_op_status r = 0 →
  from_option response_op_status 0 (last (r :: rs)) = from_option response_op_status 0 (last rs).
Proof. intros H. destruct rs as [|r' rs]; [done|]. by rewrite last_cons_cons. Qed.

Section ServeLemmas.
Context (dirs : list effect → fh_server).

Lemma serve_runs ops l m : forallb supported ops → let '(rs, es) := serve_paths dirs l m ops in
  (length rs <= length ops)%nat ∧ Forall resop_decoded rs ∧
  (∃ m', live_run dirs l m (take (successes rs) ops) = Some (m', es)) ∧
  ∀ j mask m' es', ops !! j = Some (AGetattr mask) → (j < successes rs)%nat →
    live_run dirs l m (take j ops) = Some (m', es') →
    ∃ x, cur m' = Some x ∧ rs !! j = Some (RGetattr 0 mask (XdrVec (Z.of_nat (length x)) (Some x))).
Proof.
  revert l m. induction ops as [|op ops IH]; intros l m Hsup; cbn [serve_paths].
  { split_and!; [done|constructor|by exists m|done]. }
  apply andb_True in Hsup as [Hop Hsup].
  assert (Hstop : ∀ st, st ≠ 0 → let rs := [reply_of m op st] in
    (length rs <= length (op :: ops))%nat ∧ Forall resop_decoded rs ∧
    (∃ m', live_run dirs l m (take (successes rs) (op :: ops)) = Some (m', [])) ∧ successes rs = 0%nat).
  { intros st Hst. cbn [length]. unfold successes. cbn [last from_option length]. rewrite reply_status by done.
    destruct (Z.eqb_spec st NFS_OK); [done|]. split_and!; [lia|by repeat constructor; apply reply_decoded|by exists m|done]. }
  destruct (missing op).
  { destruct (Hstop 2) as (H1 & H2 & H3 & H4); [done|]. split_and!; try done. intros j. rewrite H4. lia. }
  destruct (path_step (dirs l) m op) as [[m1 es1]|] eqn:Hstep.
  2:{ destruct (Hstop 20) as (H1 & H2 & H3 & H4); [done|]. split_and!; try done. intros j. rewrite H4. lia. }
  specialize (IH (l ++ es1) m1 Hsup). destruct (serve_paths dirs (l ++ es1) m1 ops) as [rs es]. destruct IH as (Hl & Hd & (m2 & Hrun) & Hget).
  assert (Hsucc : successes (reply_of m op 0 :: rs) = S (successes rs)).
  { unfold successes. rewrite last_status by (by apply reply_status). cbn [length].
    destruct (Z.eqb_spec (from_option response_op_status 0 (last rs)) NFS_OK) as [|Hne]; [lia|].
    destruct rs; [done|cbn [length]; lia]. }
  split_and!; [cbn; lia|by constructor; [apply reply_decoded|]|..].
  - exists m2. rewrite Hsucc. cbn [take live_run]. rewrite Hstep. cbn. by rewrite Hrun.
  - intros [|j] mask m' es' Hj Hlt Hr.
    + injection Hj as ->. injection Hr as <- _. cbn in Hstep. destruct (cur m) as [x|] eqn:Hc; [|done].
      exists x. split; [done|]. cbn. by rewrite Hc.
    + rewrite Hsucc in Hlt. cbn [take live_run] in Hr. rewrite Hstep in Hr. cbn in Hr.
      apply bind_Some in Hr as ([m3 es3] & Hr & [= -> _]). eapply Hget; [done|lia|done].
Qed.

Lemma serve_done rs : ops_done (Res (from_option response_op_status 0 (last rs)) (Z.of_nat (S (length rs)))
  (Some (RPlain OP_SEQUENCE 0 :: rs))) = successes rs.
Proof.
  unfold ops_done, successes, CompoundRes.nops, CompoundRes.status. cbn [cr_len cr_status].
  destruct (Z.eqb_spec (from_option response_op_status 0 (last rs)) NFS_OK); lia.
Qed.

Lemma serve_rpc_cases c w r w' : serve_rpc dirs c w = (r, w') →
  (∃ e, r = Err e ∧ RpcError.is_transport e = true ∧ w' = w) ∨
  (r = Ok (empty_response NFS4ERR_RESOURCE) ∧ w' = w) ∨
  ∃ sid q x y ops rs es, Compound.ops c = ASequence sid q x y :: ops ∧ forallb supported ops ∧ Z.of_nat (length ops) < 14 ∧
    serve_paths dirs w (Fhs None None) ops = (rs, es) ∧ w' = w ++ es ∧
    r = Ok (Res (from_option response_op_status 0 (last rs)) (Z.of_nat (S (length rs))) (Some (RPlain OP_SEQUENCE 0 :: rs))).
Proof.
  unfold serve_rpc. destruct (Compound.ops c) as [|op ops] eqn:Hc; [intros [= <- <-]; left; eauto|].
  destruct op; try (intros [= <- <-]; left; by eauto).
  destruct (forallb supported ops) eqn:Es; cbn [negb]; [|intros [= <- <-]; left; eauto].
  destruct (Z.leb_spec 14 (Z.of_nat (length ops))); [intros [= <- <-]; right; left; eauto|].
  destruct (serve_paths _ _ _ ops) as [rs es] eqn:E. intros [= <- <-]. right. right. eexists _, _, _, _, _, _, _.
  split_and!; try done; by rewrite Es.
Qed.

Lemma serve_transport : transport_ok (serve_rpc dirs).
Proof.
  split.
  - intros c w res w' [(e & ? & _)|[[[= ->] ->]|(sid & q & x & y & ops & rs & es & Hc & Hs & Hl & E & -> & [= ->])]]%serve_rpc_cases;
      [done|by split|].
    pose proof (serve_runs ops w (Fhs None None) Hs) as H. rewrite E in H. destruct H as (Hlen & Hd & _).
    split; [cbn; unfold U32_MAX; lia|]. intros l [= <-]. split; [cbn; lia|]. constructor; [by apply (bool_decide_unpack _)|done].
  - intros c w e w' [(e' & [= ->] & ? & _)|[[? _]|(sid & q & x & y & ops & rs & es & _ & _ & _ & _ & _ & ?)]]%serve_rpc_cases; done.
Qed.

Lemma serve_rpc_executes : executes_live dirs (serve_rpc dirs) (λ w, w).
Proof.
  intros c w r w' sid q ops Hr Hops.
  apply serve_rpc_cases in Hr as [(e & -> & _ & ->)|[[-> ->]|(sid' & q' & x & y & ops' & rs & es & Hc & Hs & Hl & E & -> & ->)]].
  - exists 0%nat, (Fhs None None), []. by rewrite take_0, app_nil_r.
  - exists 0%nat, (Fhs None None), []. rewrite take_0, app_nil_r. split_and!; [done..|]. by intros res [= <-].
  - rewrite Hops in Hc. injection Hc as <- <- <- <- <-.
    pose proof (serve_runs ops w (Fhs None None) Hs) as H. rewrite E in H. destruct H as (_ & _ & (m & Hrun) & _).
    exists (successes rs), m, es. split_and!; [done..|]. intros res [= <-] _. by rewrite serve_done.
Qed.
End ServeLemmas.

Lemma serve_static : executes_paths tree (serve_rpc (λ _, tree)) (λ w, w) ∧ serves_attrs tree attrs_of (serve_rpc (λ _, tree)).
Proof.
  split.
  - intros c w r w' sid q ops Hr Hops.
    destruct (serve_rpc_executes (λ _, tree) c w r w' sid q ops Hr Hops) as (k & m & es & Hrun & Hrest).
    exists k, m, es. by rewrite <-(live_run_static tree w).
  - intros c w res w' sid q ops j mask m es Hr Hops _ Hj Hlt Hrun.
    apply serve_rpc_cases in Hr as [(e & ? & _)|[[[= ->] _]|(sid' & q' & x & y & ops' & rs & es' & Hc & Hs & Hl & E & -> & [= ->])]]; [done|change (ops_done _) with 0%nat in Hlt; lia|].
    rewrite Hops in Hc. injection Hc as <- <- <- <- <-. rewrite serve_done in Hlt.
    pose proof (serve_runs (λ _, tree) ops w (Fhs None None) Hs) as H. rewrite E in H. destruct H as (_ & _ & _ & Hget).
    rewrite <-(live_run_static tree w) in Hrun.
    destruct (Hget j mask m es Hj Hlt Hrun) as (z & Hz & Hres). exists z. split; [done|].
    assert (j < length rs)%nat by (by apply lookup_lt_Some in Hres).
    unfold CompoundRes.getattr, CompoundRes.expect_op, CompoundRes.op, CompoundRes.nops. cbn [cr_len cr_val default].
    destruct (Z.leb_spec 0 (1 + Z.of_nat j)); [|lia]. destruct (Z.ltb_spec (1 + Z.of_nat j) (Z.of_nat (S (length rs)))); [|lia].
    replace (Z.to_nat (1 + Z.of_nat j)) with (S j) by lia. cbn [andb mbind option_bind].
    change (id (RPlain OP_SEQUENCE 0 :: rs) !! S j) with (rs !! j). rewrite Hres. cbn. unfold attrs_of. by destruct z.
Qed.

(** An entry on the way to a directory is not in that directory. *)
Lemma present_stays l e d x n : acts_in e d → x ≠ d → present l x n = true → present (l ++ [e]) x n = true.
Proof.
  intros He Hx. unfold present. rewrite foldl_app. cbn [foldl]. intros ->.
  destruct e as [d' n'|sd sn dd dn|]; [| |done]; cbn in He; subst.
  - by rewrite bool_decide_eq_false_2 by congruence.
  - rewrite (bool_decide_eq_false_2 ((d, sn) = (x, n))) by congruence. apply orb_true_r.
Qed.

Lemma live_lookup_length l d n x : fh_lookup (live l) d n = Some x → (length d < length x)%nat.
Proof. cbn. case_match; [|done]. case_decide; [|done]. intros [= <-]. rewrite length_app. cbn. lia. Qed.

Lemma live_resolves l e d a cs : acts_in e d → resolve_from (live l) (Some a) cs = Some d →
  resolve_from (live (l ++ [e])) (Some a) cs = Some d ∧ (length a <= length d)%nat.
Proof.
  intros He. revert a. induction cs as [|n cs IH]; intros a; [by intros [= ->]|].
  change (resolve_from ?s (Some a) (n :: cs)) with (resolve_from s (fh_lookup s a n) cs).
  destruct (fh_lookup (live l) a n) as [x|] eqn:Hx; [|by rewrite (resolve_from_None (live l) cs)].
  intros Hres. destruct (IH x Hres) as [Hres' Hle]. pose proof (live_lookup_length _ _ _ _ Hx).
  assert (fh_lookup (live (l ++ [e])) a n = Some x) as ->; [|split; [done|lia]].
  revert Hx. cbn. destruct (present l a n) eqn:Hp; [|done]. rewrite (present_stays l e d a n He); [done| |done].
  intros ->. lia.
Qed.

#[global] Instance live_ok : LiveTree live.
Proof.
  split.
  - intros l. split; try done. intros d n x. cbn. case_match; [|done]. apply (lookupp_lookup (FhTree := path_server_tree)).
  - intros l e dir d He Hd _. split; [|done]. by apply (live_resolves l e d).
Qed.

Definition example_paths : list bytes :=
  [bstr "/a/b/f"; bstr "/a/b/g"; bstr "/a/c/h"; bstr "/a/c/missing"; bstr "/z"].

Lemma removev_path_once_witness :
  ∃ st cl' w', removev_path_compound (serve_rpc live) SendLemmas.example_xdr_len 612 LookupLemmas.example_lookup_client
      example_paths [] = Done (Ok ([Some tt; Some tt; Some tt; None; None], Some (3, st)), cl', w') ∧
    w' = [ERemove (bstr "/a/b") (bstr "f"); ERemove (bstr "/a/b") (bstr "g"); ERemove (bstr "/a/c") (bstr "h")].
Proof.
  destruct (removev_path_once (serve_rpc live) SendLemmas.example_xdr_len live (λ w, w) LookupLemmas.example_lookup_client example_paths [] 612
    (serve_transport live) (serve_rpc_executes live)) as (r & cl' & w' & E & H);
    [by vm_compute|apply (bool_decide_unpack _); by vm_compute|by vm_compute|].
  assert (Hr : match removev_path_compound (serve_rpc live) SendLemmas.example_xdr_len 612 LookupLemmas.example_lookup_client example_paths [] with
    Done (Ok (_, Some (k, _)), _, _) => k = 3 | _ => False end) by (vm_compute; reflexivity).
  rewrite E in Hr. destruct r as [[marks [[k st]|]]|e]; [|destruct Hr..]. subst k.
  destruct H as (i & item & Hi & Hit & (es & Hes & ->) & ->). assert (i = 3%nat) as -> by lia.
  vm_compute in Hit. injection Hit as <-. exists st, cl', es. split; [exact E|].
  vm_compute in Hes. by injection Hes as <-.
Defined.

(** The second pair moves the directory the third one names. *)
Definition example_pairs : list PathRenamePair :=
  [PathRename (bstr "/a/x") (bstr "/b/y"); PathRename (bstr "/a") (bstr "/c"); PathRename (bstr "/a/z") (bstr "/b/t")].

Lemma renamev_path_once_witness :
  ∃ st cl' w', renamev_path_compound (serve_rpc live) SendLemmas.example_xdr_len 272 LookupLemmas.example_lookup_client
      example_pairs [] = Done (Ok ([Some tt; Some tt; None], Some (2, st)), cl', w') ∧
    w' = [ERename (bstr "/a") (bstr "x") (bstr "/b") (bstr "y"); ERename [] (bstr "a") [] (bstr "c")].
Proof.
  destruct (renamev_path_once (serve_rpc live) SendLemmas.example_xdr_len live (λ w, w) LookupLemmas.example_lookup_client example_pairs [] 272
    (serve_transport live) (serve_rpc_executes live)) as (r & cl' & w' & E & H);
    [by vm_compute|apply (bool_decide_unpack _); by vm_compute|by vm_compute|].
  assert (Hr : match renamev_path_compound (serve_rpc live) SendLemmas.example_xdr_len 272 LookupLemmas.example_lookup_client example_pairs [] with
    Done (Ok (_, Some (k, _)), _, _) => k = 2 | _ => False end) by (vm_compute; reflexivity).
  rewrite E in Hr. destruct r as [[marks [[k st]|]]|e]; [|destruct Hr..]. subst k.
  destruct H as (i & item & Hi & Hit & (es & Hes & ->) & ->). assert (i = 2%nat) as -> by lia.
  vm_compute in Hit. injection Hit as <-. exists st, cl', es. split; [exact E|].
  vm_compute in Hes. by injection Hes as <-.
Defined.

Definition example_getattrs : list PathGetattrOp :=
  [PathGetattr (FPath (bstr "/a/b/f")) [FATTR4_TYPE]; PathGetattr (FHandle (bstr "open")) [FATTR4_SIZE];
   PathGetattr (FPath (bstr "/a/g")) [FATTR4_TYPE]; PathGetattr (FPath (bstr "/missing/h")) [FATTR4_TYPE]].

Lemma getattr_path_correct_witness :
  ∃ lists st cl' w', getattr_path_compound (serve_rpc (λ _, tree)) SendLemmas.example_xdr_len 425 LookupLemmas.example_lookup_client
      example_getattrs [] = Done (Ok (lists, Some (3, st)), cl', w') ∧ lists !! 2%nat = Some (Some (bstr "/a/g")).
Proof.
  destruct serve_static as [He Ha].
  destruct (getattr_path_correct (serve_rpc (λ _, tree)) SendLemmas.example_xdr_len tree (λ w, w) attrs_of LookupLemmas.example_lookup_client
    example_getattrs [] 425 (serve_transport _) He Ha) as (r & cl' & w' & E & _ & H); [by vm_compute|apply (bool_decide_unpack _); by vm_compute|by vm_compute|].
  assert (Hr : match getattr_path_compound (serve_rpc (λ _, tree)) SendLemmas.example_xdr_len 425 LookupLemmas.example_lookup_client example_getattrs [] with
    Done (Ok (_, Some (k, _)), _, _) => k = 3 | _ => False end) by (vm_compute; reflexivity).
  rewrite E in Hr. destruct r as [[lists [[k st]|]]|e]; [|destruct Hr..]. subst k.
  exists lists, st, cl', w'. split; [exact E|]. clear E. destruct H as (_ & _ & H).
  destruct (H 2%nat _ eq_refl) as (x & Hx & ->); [by vm_compute|]. injection Hx as <-. done.
Defined.

(** A rename whose destination has no final component can hide the renames before
    it.  The source is resolved before the destination is found invalid, and its
    operations stay in the compound outside every item's range; when one of them
    fails, the call returns an error at index 0 although the first rename was
    carried out, and the failure of item 1 (an invalid path) is not reported. *)
Example renamev_invalid_destination_hides_prefix :
  ∃ e cl', renamev_path_compound (serve_rpc live) SendLemmas.example_xdr_len 10 LookupLemmas.example_lookup_client
      [PathRename (bstr "/a/x") (bstr "/a/y"); PathRename (bstr "/missing/p") (bstr "/")] [] =
    Done (Err e, cl', [ERename (bstr "/a") (bstr "x") (bstr "/a") (bstr "y")]) ∧
    RpcError.op_index e = 0 ∧ RpcError.status e = 2.
Proof. eexists _, _. split; [vm_compute; reflexivity|]. by split. Qed.

(** A path without a final component is reported as refused and marked as removed
    all the same. *)
Example removev_marks_refused :
  ∃ cl', removev_path_compound (serve_rpc live) SendLemmas.example_xdr_len 10 LookupLemmas.example_lookup_client
      [bstr "/a/f"; bstr "/"] [] =
    Done (Ok ([Some tt; Some tt], Some (1, NFS4ERR_INVAL)), cl', [ERemove (bstr "/a") (bstr "f")]).
Proof. eexists. vm_compute. reflexivity. Qed.
End MergedExamples.
