(* ===== verification/ChunkReply.v ===== *)
(** * What the reply to a chunk of items says

    The compound of a chunk holds the operations of its items one after the
    other, and perhaps operations after the last item.  These lemmas say what the
    report of such a reply means: how many items were carried out, which one
    failed, and how many files the executed part can have opened. *)
From stdpp Require Import base numbers countable list list_numbers gmap strings.
From S2P Require Import Prelude Path Errors Types Planner Compound Session Cursor Client Loops Exchange Server Batch BatchOps Resolve Single BatchSpec Merged.

Module ChunkReplyLemmas.
Import ExecutionMap ExchangeLemmas ServerLemmas SingleLemmas GroupLemmas.

(** What the report of a chunk says: [k] items were carried out, and the next one
    failed, or none did and the compound failed before, between or after them. *)
Record reported (gs : list (list argop)) (g : Z) (map : ExecutionMap.t) (res : COMPOUND4res) (report : ExecutionReport) (k : nat)
    : Prop := {
  rp_le : (k <= length gs)%nat;
  rp_completed : completed_ranges map report = group_ranges g 1 (take k gs);
  rp_done : (offset gs k <= ops_done res)%nat;
  rp_nops : k = 0%nat ∨ 1 + Z.of_nat (offset gs k) <= CompoundRes.nops res;
  rp_failure : match failure report with
    | Some x => if_caller x = g + Z.of_nat k ∧ (k < length gs)%nat ∧ compound_failure report = None
    | None => (compound_failure report = None ∨
               compound_failure_op report = Some (1 + Z.of_nat (length (mjoin gs)))) → k = length gs
    end;
  rp_stop : failure report ≠ None → (ops_done res < offset gs (S k))%nat;
  rp_executed : (length (executed_ranges map report) <= length gs)%nat ∧
    ∀ i p x, executed_ranges map report !! i = Some p → gs !! i = Some x → p.2 - p.1 <= Z.of_nat (length x);
}.

Section Reply.
Context {W : Type} (rpc : Compound.t → W → RpcResult COMPOUND4res * W).

Lemma group_callers g first gs : r_caller <$> group_ranges g first gs = seqZ g (Z.of_nat (length gs)).
Proof.
  revert g first. induction gs as [|x gs IH]; intros g first; [done|].
  cbn [group_ranges length fmap list_fmap]. rewrite seqZ_cons by lia. unfold r_caller at 1. cbn [fst]. f_equal.
  change (r_caller <$> ?l) with (list_fmap _ _ r_caller l) in IH. rewrite IH. f_equal; lia.
Qed.

Lemma last_range g first gs : gs ≠ [] →
  r_end <$> last (group_ranges g first gs) = Some (first + Z.of_nat (length (mjoin gs))).
Proof.
  intros Hne. assert (0 < length gs)%nat by (destruct gs; [done|cbn; lia]).
  rewrite last_lookup, group_ranges_length, group_ranges_lookup by lia. cbn.
  replace (S (pred (length gs))) with (length gs) by lia. unfold offset. by rewrite take_ge by lia.
Qed.

(** The ranges of which something was carried out lie within the items. *)
Lemma executed_bounded gs g map report k :
  ranges map = group_ranges g 1 gs → completed_ranges map report = group_ranges g 1 (take k gs) → (k <= length gs)%nat →
  match failure report with
  | Some x => ∃ r, group_ranges g 1 gs !! k = Some r ∧ if_caller x = r_caller r ∧ r_start r <= if_op_index x < r_end r
  | None => True
  end →
  (length (executed_ranges map report) <= length gs)%nat ∧
  ∀ i p x, executed_ranges map report !! i = Some p → gs !! i = Some x → p.2 - p.1 <= Z.of_nat (length x).
Proof.
  intros Hmap Hcomp Hk Hfail. unfold executed_ranges. rewrite Hcomp.
  assert (Hrest : ∃ l, (match failure report with
      | Some f => match list_find (λ r, r_caller r = if_caller f) (ranges map) with Some (_, r) => [(r_start r, if_op_index f)] | None => [] end
      | None => [] end) = l ∧ (l = [] ∨ ∃ r i, group_ranges g 1 gs !! k = Some r ∧ l = [(r_start r, i)] ∧ i < r_end r)).
  { destruct (failure report) as [x|]; [|eexists; split; [done|by left]]. destruct Hfail as (r & Hr & Hcal & Hi).
    destruct (MapLemmas.find_caller (group_ranges g 1 gs) k r) as [q Hq]; [rewrite group_callers; apply NoDup_seqZ|done|].
    rewrite Hmap, Hcal, Hq. eexists. split; [done|]. right. exists r, (if_op_index x). split_and!; [done|done|lia]. }
  destruct Hrest as (l & -> & Hl). split.
  - rewrite length_app, length_fmap, group_ranges_length, length_take.
    destruct Hl as [->|(r & i & Hr & -> & _)]; cbn; [lia|]. apply lookup_lt_Some in Hr. rewrite group_ranges_length in Hr. lia.
  - intros i p x Hp Hx. apply lookup_app_Some in Hp as [Hp|[Hi Hp]].
    + rewrite list_lookup_fmap in Hp. pose proof (lookup_lt_Some _ _ _ Hx).
      destruct (group_ranges g 1 (take k gs) !! i) as [r|] eqn:Hr; [|done]. injection Hp as <-. cbn.
      pose proof (lookup_lt_Some _ _ _ Hr) as Hik. rewrite group_ranges_length, length_take in Hik.
      rewrite group_ranges_lookup in Hr by (lengths). injection Hr as <-. cbn.
      assert (Hxi : take k gs !! i = Some x) by (by rewrite lookup_take_lt by lia). rewrite (offset_S _ _ _ Hxi). lia.
    + rewrite length_fmap, group_ranges_length, length_take, Nat.min_l in * by lia.
      destruct Hl as [->|(r & idx & Hr & -> & Hidx)]; [by rewrite lookup_nil in Hp|].
      destruct (i - k)%nat as [|d] eqn:Hd; [|by destruct d]. injection Hp as <-. assert (i = k) as -> by lia.
      rewrite group_ranges_lookup in Hr by (by eapply lookup_lt_Some). injection Hr as <-. cbn in *. rewrite (offset_S _ _ _ Hx) in Hidx. lia.
Qed.

Lemma reply_reported gs tail g map w res w' report :
  exchanged rpc (mjoin gs ++ tail) w res w' → ranges map = group_ranges g 1 gs → Forall (λ x, x ≠ []) gs →
  analyze map res = Ok report → ∃ k, reported gs g map res report k.
Proof.
  intros (req & sid & q & Hr & Hreq & Hd & Hok) Hmap Hne Ha.
  assert (Hfirst : ∀ cf cfo, report = Report [] None (r_caller <$> ranges map) (Some cf) cfo → cfo = None ∨ cfo = Some 0 →
    ∃ k, reported gs g map res report k).
  { intros cf cfo -> Hcfo. exists 0%nat. split; [lia|unfold completed_ranges; by rewrite !take_0|unfold offset; rewrite take_0; cbn; lia|by left| |by cbn|].
    - cbn. intros [?|E]; [done|]. destruct Hcfo as [-> | ->]; [done|]. injection E as E. lia.
    - unfold executed_ranges, completed_ranges. cbn [completed failure length]. rewrite take_0. cbn. split; [lia|]. by intros i p x. }
  unfold analyze in Ha. cbn [rv_nops rv_status rv_op_status CompoundRes_view] in Ha.
  destruct (Z.eqb_spec (CompoundRes.nops res) 0) as [|Hn]; [destruct (negb _); [|done]; injection Ha as <-; eauto|].
  destruct (negb (CompoundRes.op_status res 0 =? NFS_OK)); [injection Ha as <-; eauto|]. clear Hfirst.
  destruct (analyze_ranges _ _ _) as [[[done_ f] un]|] eqn:Es; [|done]. cbn in Ha.
  assert (Hwf : wf_from 0 (ranges map)).
  { rewrite Hmap. destruct (group_ranges_wf g 1 gs _ eq_refl) as [_ H2]. eapply MapLemmas.wf_from_mono; [|done]. lia. }
  apply MapLemmas.analyze_ranges_scanned in Es as (k & Hdone & [Hle Hsok Hfail]); [|done]. cbn in Hdone. subst done_.
  rewrite Hmap in *. rewrite group_ranges_length in Hle.
  assert (Hlen : ∀ fl cf cfo, length (completed (Report (r_caller <$> take k (group_ranges g 1 gs)) fl un cf cfo)) = k).
  { intros. cbn. rewrite length_fmap, length_take, group_ranges_length. lia. }
  assert (Hcomp : ∀ fl cf cfo, completed_ranges map (Report (r_caller <$> take k (group_ranges g 1 gs)) fl un cf cfo) =
    group_ranges g 1 (take k gs)).
  { intros. unfold completed_ranges. rewrite Hlen, Hmap. rewrite <-(take_drop k gs) at 1. rewrite group_ranges_app.
    rewrite take_app_le, take_ge by (rewrite group_ranges_length, length_take; lia). done. }
  assert (Hlast : k = 0%nat ∨ Z.of_nat (offset gs k) < CompoundRes.nops res ∧ CompoundRes.op_status res (Z.of_nat (offset gs k)) = NFS_OK).
  { destruct k as [|k]; [by left|right]. destruct (lookup_lt_is_Some_2 gs k) as [x Hx]; [lia|].
    pose proof (group_ranges_lookup g 1 gs k ltac:(lia)) as Hlk. rewrite (offset_S _ _ _ Hx) in Hlk |- *.
    pose proof (proj1 (Forall_lookup _ _) Hne _ _ Hx) as Hxne. assert (0 < length x)%nat by (by destruct x; [|cbn; lia]).
    apply (Hsok (g + Z.of_nat k, 1 + Z.of_nat (offset gs k), 1 + Z.of_nat (offset gs k + length x))); [|cbn; lia].
    apply list_elem_of_lookup. exists k. by rewrite lookup_take_lt by lia. }
  assert (Hall : 1 + Z.of_nat (length (mjoin gs)) <= CompoundRes.nops res → f = None → k = length gs).
  { intros Hbig ->. destruct (decide (k = length gs)) as [|Hk]; [done|]. exfalso. destruct Hfail as [_ Hfail].
    specialize (Hfail _ (group_ranges_lookup g 1 gs k ltac:(lia))). cbn in Hfail. destruct (lookup_lt_is_Some_2 gs k) as [x Hx]; [lia|].
    pose proof (offset_le _ _ _ Hx). pose proof (proj1 (Forall_lookup _ _) Hne _ _ Hx) as Hxne.
    assert (0 < length x)%nat by (by destruct x; [|cbn; lia]). lia. }
  exists k. split.
  - done.
  - repeat case_match; simplify_eq; apply Hcomp.
  - destruct Hlast as [->|[Hl Hlok]]; [unfold offset; rewrite take_0; cbn; lia|]. unfold ops_done.
    destruct (Z.eqb_spec (CompoundRes.status res) NFS_OK) as [|Hst]; [lia|].
    rewrite (validated_status _ res _ Hd Hok) in Hlok by lia. destruct (Z.eqb_spec (Z.of_nat (offset gs k) + 1) (CompoundRes.nops res)); [done|lia].
  - destruct Hlast as [?|[? _]]; [by left|right; lia].
  - destruct f as [x|].
    + injection Ha as <-. cbn. destruct Hfail as (r & Hrk & Hcal & _). pose proof (lookup_lt_Some _ _ _ Hrk) as Hk.
      rewrite group_ranges_length in Hk. rewrite group_ranges_lookup in Hrk by done. injection Hrk as <-. done.
    + destruct (Z.eqb_spec (CompoundRes.status res) NFS_OK) as [Hst|Hst]; cbn in Ha.
      * injection Ha as <-. cbn. intros _. apply Hall; [|done]. destruct Hok as (_ & _ & Hfull & _). specialize (Hfull Hst).
        rewrite Hreq in Hfull. cbn in Hfull. rewrite length_app in Hfull. unfold CompoundRes.nops. lia.
      * case_match; [done|]. injection Ha as <-. cbn. intros [?|[= E]]; [done|]. apply Hall; [lia|done].
  - destruct f as [x|]; [|by repeat case_match; simplify_eq]. intros _. destruct Hfail as (r & Hrk & _ & Hi & Hn1 & _ & Hne1 & Hst & _).
    pose proof (lookup_lt_Some _ _ _ Hrk) as Hkl. rewrite group_ranges_length in Hkl. rewrite group_ranges_lookup in Hrk by done.
    injection Hrk as <-. cbn in Hi, Hn1, Hst. unfold ops_done. destruct (Z.eqb_spec (CompoundRes.status res) NFS_OK); [congruence|]. lia.
  - eapply executed_bounded; [done|repeat case_match; simplify_eq; apply Hcomp|done|].
    destruct f as [x|]; [|by repeat case_match; simplify_eq]. injection Ha as <-. cbn.
    destruct Hfail as (r & Hrk & Hcal & Hi & _). by exists r.
Qed.

(** No more files were opened than operations carried out. *)
Lemma opened_bounded res es (gs : list (list argop)) : (length es <= length gs)%nat →
  (∀ i p x, es !! i = Some p → gs !! i = Some x → p.2 - p.1 <= Z.of_nat (length x)) →
  (length (CompoundRes.for_each_open_result res es) <= length (mjoin gs))%nat.
Proof.
  revert gs. induction es as [|p es IH]; intros gs Hlen Hall; [cbn; lia|]. destruct gs as [|x gs]; [cbn in Hlen; lia|].
  unfold CompoundRes.for_each_open_result in *. cbn [mbind list_bind]. rewrite length_app, mjoin_cons, length_app.
  assert (Hone : ∀ l, (length (l ≫= CompoundRes.open_results_at res p.2) <= length l)%nat).
  { induction l as [|j l IHl]; [done|]. cbn [mbind list_bind length]. rewrite length_app.
    assert (length (CompoundRes.open_results_at res p.2 j) <= 1)%nat by (unfold CompoundRes.open_results_at; repeat case_match; cbn; lia).
    change (list_bind _ _ _ l) with (l ≫= CompoundRes.open_results_at res p.2). lia. }
  specialize (Hone (seqZ p.1 (Z.min p.2 (CompoundRes.nops res) - p.1))). rewrite length_seqZ in Hone.
  pose proof (Hall 0%nat p x eq_refl eq_refl).
  specialize (IH gs ltac:(cbn in Hlen; lia) (λ i q y Hq Hy, Hall (S i) q y Hq Hy)). cbn [mbind list_bind] in *. lia.
Qed.

Lemma steps_prefix {F} (s : nfs_spec F) m l d m' rs j : spec_steps s m (take d l) = Some (m', rs) → (j <= d)%nat →
  ∃ mj rj, spec_steps s m (take j l) = Some (mj, rj) ∧ rj `prefix_of` rs.
Proof.
  intros Hrun Hj. rewrite <-(take_drop j (take d l)), take_take, Nat.min_l, spec_steps_app in Hrun by done.
  apply bind_Some in Hrun as ([mj rj] & Hrj & ([m2 r2] & _ & [= _ <-])%bind_Some). exists mj, rj. split; [done|]. by eexists.
Qed.
End Reply.
End ChunkReplyLemmas.
