(* ===== verification/PathIo.v ===== *)
(** * Reads and writes by path

    Models [readv_path_compound] and [writev_path_compound] of
    [crates/vfsi-nfs/src/client.rs] and what they are made of: the OPEN, CLOSE
    and filehandle moves in front of an item ([prepare_path_io_target]), sending
    a chunk ([send_path_io_chunk]), and completing a transfer the server cut
    short ([with_path_io_repair_target], [repair_path_read],
    [repair_path_write]). *)
From stdpp Require Import base numbers countable list list_numbers gmap strings.
From S2P Require Import Prelude Path Errors Types Planner Compound Session Cursor Client IoProgress Loops Exchange Batch BatchOps Resolve Single Opens Lifecycle Merged.

Record PathWriteOp := PathWrite {
  pw_file : FileRef;
  pw_offset : Z;
  pw_data : bytes;
  pw_create : bool;
  pw_truncate : bool;
  pw_stateid : option stateid4;
}.
Record PathReadOp := PathRead {
  rp_file : FileRef;
  rp_offset : Z;
  rp_count : Z;
  rp_stateid : option stateid4;
}.
Record PathIoOpen := IoOpen {
  io_access : Z;
  io_create : OpenCreate;
  io_truncate_create : bool;
  io_truncate_existing : bool;
}.
Inductive PathIoChunkResult := Repack (max_items : Z) | Retry | Response (res : COMPOUND4res).

(** The mutable parts of [PathIoTarget]. *)
Record PathIoTarget := IoTarget {
  tg_building : building;
  tg_opened_path : option bytes;
  tg_fh_at_opened : bool;
  tg_opens : Z;
}.

Record PathReadOutcome := ReadOutcome {
  ro_data : list (option bytes);
  ro_eof : list (option bool);
  ro_opened : list (nfs_fh4 * stateid4);
  ro_failed : option (Z * Z);
  ro_close_failed : option Z;
}.
Record PathWriteOutcome := WriteOutcome {
  wo_counts : list (option Z);
  wo_committed : list (option Z);
  wo_opened : list (nfs_fh4 * stateid4);
  wo_failed : option (Z * Z);
  wo_close_failed : option Z;
}.

Definition SPECIAL_STATEID : stateid4 := StateId 1 (replicate 12 Byte.x00).
Definition OPEN4_SHARE_ACCESS_READ : Z := 1.
Definition OPEN4_SHARE_ACCESS_WRITE : Z := 2.
Definition OPEN4_SHARE_ACCESS_BOTH : Z := 3.

#[global] Instance FileRef_eq_dec : EqDecision FileRef.
Proof. solve_decision. Defined.
#[global] Instance FileRef_countable : Countable FileRef.
Proof.
  apply (inj_countable' (λ f, match f with FPath p => inl p | FHandle h => inr h end : bytes + nfs_fh4)
           (λ x, match x with inl p => FPath p | inr h => FHandle h end)).
  by intros [].
Defined.

(** [self.session.path_owner.seqid]. *)
Definition path_seqid (cl : NfsClient.t) : Z := ow_seqid (Single.path_owner cl).

(** ** In front of an item *)

Definition close_special (b : building) : building :=
  add_op b (λ c, Compound.close c (st_seqid SPECIAL_STATEID) SPECIAL_STATEID).

(** The file opened last is closed before the filehandle leaves it. *)
Definition leave_opened (close_in_compound : bool) (t : PathIoTarget) : PathIoTarget :=
  if close_in_compound && bool_decide (is_Some (tg_opened_path t)) && tg_fh_at_opened t
  then IoTarget (close_special (tg_building t)) None (tg_fh_at_opened t) (tg_opens t)
  else t.

(** Whether the file was opened for this item; [None] for a path without a final
    component.  The two callers never create exclusively, so no verifier is
    drawn. *)
Definition prepare_path_io_target (cl : NfsClient.t) (close_in_compound : bool) (base_seq : Z) (file : FileRef)
    (open : PathIoOpen) (t : PathIoTarget) : option bool * PathIoTarget :=
  match file with
  | FPath path =>
      if bool_decide (tg_opened_path t = Some path) && tg_fh_at_opened t then (Some false, t)
      else
        let t := leave_opened close_in_compound t in
        match at_parent (tg_building t) path with
        | None => (None, t)
        | Some (leaf, b) =>
            let seqid := wrapping_add32 base_seq (as_u32 (tg_opens t)) in
            let owner := ow_name (Single.path_owner cl) in
            let b := add_op b (λ c,
              if io_truncate_create open
              then Compound.open_claim_null_create_mode c seqid (io_access open) OPEN4_SHARE_DENY_NONE (clientid cl)
                     owner leaf None true
              else Compound.open_claim_null c seqid (io_access open) OPEN4_SHARE_DENY_NONE (clientid cl) owner
                     (make_open_how (io_create open) []) leaf) in
            let b := if close_in_compound then b else add_op b Compound.getfh in
            let b := if io_truncate_existing open
                     then add_op b (λ c, Compound.setattr_with_stateid c None (Some 0) SPECIAL_STATEID) else b in
            (Some true, IoTarget b (Some path) true (tg_opens t + 1))
        end
  | FHandle handle =>
      let t := leave_opened close_in_compound t in
      let '(cursor, c) := CfhCursor.set_handle (b_cursor (tg_building t)) (b_compound (tg_building t)) handle in
      (Some false, IoTarget (note (Building cursor (b_map (tg_building t)) c) 1) (tg_opened_path t) false (tg_opens t))
  end.

(** The stateid of the READs and WRITEs of an item. *)
Definition io_stateid (file : FileRef) (stateid : option stateid4) : stateid4 :=
  match file with FPath _ => SPECIAL_STATEID | FHandle _ => default SPECIAL_STATEID stateid end.

Section Operations.
Context {W : Type} (rpc : Compound.t → W → RpcResult COMPOUND4res * W) (xdr_len : Compound.t → Z).
Context (verifier : Z → verifier4) (now : Z * Z).

(** ** Sending a chunk *)

Definition send_path_io_chunk (cl : NfsClient.t) (tag : string) (one_item_ops reserve per_file old_budget : Z)
    (allow_repack : bool) (compound : Compound.t) (map : ExecutionMap.t) (base_seq opens_in_chunk : Z)
    (safety : RequestSafety) (w : W) : RpcResult PathIoChunkResult * NfsClient.t * W :=
  let items := Z.of_nat (length (ExecutionMap.ranges map)) in
  let '(repack, compound) :=
    if allow_repack then NfsClient.merged_paths_need_repack xdr_len cl (bstr tag) one_item_ops compound items
    else (false, compound) in
  if repack then (Ok (Repack (items - 1)), cl, w)
  else
    match CompoundBudget.ensure (CompoundBudget.Make (NfsClient.max_ops cl)) compound with
    | Err e => (Err e, cl, w)
    | Ok _ =>
        let cl := set_path_seqid cl (wrapping_add32 base_seq (as_u32 opens_in_chunk)) in
        let '(r, cl, w) := NfsClient.call_compound_with_safety rpc xdr_len cl compound safety w in
        match r with
        | Err e => (Err e, cl, w)
        | Ok response =>
            if resource_rejected_before_mutation response then
              let cl := set_path_seqid cl base_seq in
              if NfsClient.can_retry_merged_resource cl (bstr tag) response old_budget reserve per_file
              then (Ok Retry, cl, w) else (Ok (Response response), cl, w)
            else (Ok (Response response), cl, w)
        end
    end.

(** ** Completing what was cut short *)

Definition with_path_io_repair_target {A} (fuel : nat) (cl : NfsClient.t) (file : FileRef) (stateid : option stateid4)
    (access caller : Z) (repair : NfsClient.t → nfs_fh4 → stateid4 → W → outcome (RpcResult A * NfsClient.t * W)) (w : W)
    : outcome (RpcResult A * NfsClient.t * W) :=
  match file with
  | FHandle fh => repair cl fh (default SPECIAL_STATEID stateid) w
  | FPath path =>
      match split_path_bytes path with
      | Err _ => Done (Err (RpcError.op caller NFS4ERR_INVAL), cl, w)
      | Ok (parent, name) =>
          '(r, cl, w) ← Resolve.resolve rpc xdr_len fuel cl parent w;
          match r with
          | Err error => Done (Err (RpcError.with_op_index error caller), cl, w)
          | Ok parent =>
              '(r, cl, w) ← Opens.open rpc xdr_len verifier now fuel cl parent name access ONoCreate w;
              match r with
              | Err error => Done (Err (RpcError.with_op_index error caller), cl, w)
              | Ok (fh, stateid) =>
                  '(r, cl, w) ← repair cl fh stateid w;
                  '(cl, w) ← Lifecycle.close_path_or_defer rpc xdr_len fuel cl [Close fh stateid] w;
                  Done (r, cl, w)
              end
          end
      end
  end.

(** The client and the server as the closures of the suffix loops see them;
    [None] after a panic. *)
Definition io_state : Type := option (NfsClient.t * W).
Definition on_client {A} (f : NfsClient.t → W → option (RpcResult A * NfsClient.t * W)) (c : io_state)
    : RpcResult A * io_state :=
  match c with
  | None => (Err (RpcError.transport "panicked"), None)
  | Some (cl, w) =>
      match f cl w with
      | Some (r, cl, w) => (r, Some (cl, w))
      | None => (Err (RpcError.transport "panicked"), None)
      end
  end.

(** The output with the bytes received, and whether the file ended there. *)
Definition repair_path_read (fuel : nat) (cl : NfsClient.t) (op : PathReadOp) (caller offset count : Z)
    (output : bytes) (w : W) : outcome (RpcResult (bool * bytes) * NfsClient.t * W) :=
  with_path_io_repair_target fuel cl (rp_file op) (rp_stateid op) OPEN4_SHARE_ACCESS_READ caller
    (λ cl fh stateid w,
       match complete_read_suffix
               (λ c offset count, on_client (λ cl w, Single.read rpc xdr_len cl fh stateid offset (as_u32 count) w) c)
               (Some (cl, w)) caller offset count with
       | Some (r, data, Some (cl, w)) =>
           Done (match r with Ok end_ => Ok (end_, output ++ data) | Err e => Err e end, cl, w)
       | Some (_, _, None) => Panicked
       | None => OutOfFuel
       end) w.

(** The earlier gap is not filled through a later write to the same file: an
    overlap with an alias is an error. *)
Fixpoint check_later (fuel : nat) (cl : NfsClient.t) (ops : list PathWriteOp) (later : list ExecutionMap.range)
    (caller offset end_ : Z) (fh : nfs_fh4) (w : W) : outcome (RpcResult unit * NfsClient.t * W) :=
  match later with
  | [] => Done (Ok tt, cl, w)
  | r :: later =>
      let index := ExecutionMap.r_caller r in
      if index <=? caller then check_later fuel cl ops later caller offset end_ fh w
      else
        next ← or_panic (ops !! Z.to_nat index);
        let overlap : RpcResult bool :=
          if pw_truncate next then Ok true
          else if pw_offset next <? end_ then
            match checked_offset (pw_offset next) (Z.of_nat (length (pw_data next))) index with
            | Ok next_end => Ok (offset <? next_end)
            | Err e => Err e
            end
          else Ok false in
        match overlap with
        | Err e => Done (Err e, cl, w)
        | Ok false => check_later fuel cl ops later caller offset end_ fh w
        | Ok true =>
            '(alias, cl, w) ← match pw_file next with
                              | FHandle handle => Done (Ok (bool_decide (handle = fh)), cl, w)
                              | FPath path =>
                                  '(r, cl, w) ← Resolve.resolve rpc xdr_len fuel cl path w;
                                  Done (match r with
                                        | Ok x => Ok (bool_decide (x = fh))
                                        | Err error => Err (RpcError.with_op_index error caller)
                                        end, cl, w)
                              end;
            match alias with
            | Err e => Done (Err e, cl, w)
            | Ok true => Done (Err (RpcError.op caller NFS4ERR_IO), cl, w)
            | Ok false => check_later fuel cl ops later caller offset end_ fh w
            end
        end
  end.

Definition repair_path_write (fuel : nat) (cl : NfsClient.t) (ops : list PathWriteOp) (later : list ExecutionMap.range)
    (caller part : Z) (data : bytes) (w : W) : outcome (RpcResult Z * NfsClient.t * W) :=
  op ← or_panic (ops !! Z.to_nat caller);
  match checked_offset (pw_offset op) part caller with
  | Err e => Done (Err e, cl, w)
  | Ok offset =>
      with_path_io_repair_target fuel cl (pw_file op) (pw_stateid op) OPEN4_SHARE_ACCESS_WRITE caller
        (λ cl fh stateid w,
           match checked_offset offset (Z.of_nat (length data)) caller with
           | Err e => Done (Err e, cl, w)
           | Ok end_ =>
               '(r, cl, w) ← check_later fuel cl ops later caller offset end_ fh w;
               match r with
               | Err e => Done (Err e, cl, w)
               | Ok _ =>
                   match complete_write_suffix
                           (λ c offset data, on_client (λ cl w, Single.write rpc xdr_len cl fh stateid offset data w) c)
                           (Some (cl, w)) caller offset data with
                   | Some (r, Some (cl, w)) => Done (r, cl, w)
                   | Some (_, None) => Panicked
                   | None => OutOfFuel
                   end
               end
           end) w
  end.

(** The OPENs decoded so far are closed before an error is returned. *)
Definition read_error_with_cleanup (fuel : nat) (cl : NfsClient.t) (opened : list (nfs_fh4 * stateid4))
    (close_in_compound : bool) (w : W) : outcome (NfsClient.t * W) :=
  if negb close_in_compound && negb (bool_decide (opened = []))
  then Lifecycle.close_path_or_defer rpc xdr_len fuel cl (latest_path_open_closes opened) w
  else Done (cl, w).

(** ** Reads by path *)

Definition path_io_per_file : Z := 4.
Definition path_io_reserve : Z := 8.

(** [record_expected_read_length]. *)
Definition record_expected_read_length (expected : list Z) (requested : Z) : RpcResult (list Z) :=
  if Z.of_nat (length expected) <? MAX_COMPOUND_OPS then
    if requested <=? U32_MAX then Ok (expected ++ [requested])
    else Err (RpcError.transport "READ count exceeds protocol limit")
  else Err (RpcError.transport "too many READ operations in compound").

(** The READs of one item, from [part] on, in pieces. *)
Fixpoint add_reads (stateid : stateid4) (offset index part : Z) (lens : list Z) (b : building) (expected : list Z)
    : RpcResult (building * list Z) :=
  match lens with
  | [] => Ok (b, expected)
  | len :: lens =>
      match record_expected_read_length expected len with
      | Err e => Err e
      | Ok expected =>
          match checked_offset offset part index with
          | Err e => Err e
          | Ok at_ => add_reads stateid offset index (part + len) lens
                        (add_op b (λ c, Compound.read c stateid at_ (as_u32 len))) expected
          end
      end
  end.

(** The compound under construction, and where the items stand. *)
Record read_filling := ReadFilling {
  rf_target : PathIoTarget;
  rf_global : Z;
  rf_part : Z;
  rf_payload : Z;
  rf_expected : list Z;
  rf_failed : option (Z * Z);
}.

(** [if newly_opened { cursor.descend() }; map.end()]. *)
Definition finish_item (newly_opened : bool) (t : PathIoTarget) : PathIoTarget :=
  IoTarget (if newly_opened then end_and_descend (tg_building t) else end_item (tg_building t))
    (tg_opened_path t) (tg_fh_at_opened t) (tg_opens t).

Definition with_building (t : PathIoTarget) (b : building) : PathIoTarget :=
  IoTarget b (tg_opened_path t) (tg_fh_at_opened t) (tg_opens t).
Definition begin_item (t : PathIoTarget) (index : Z) : PathIoTarget :=
  let b := tg_building t in with_building t (Building (b_cursor b) (ExecutionMap.begin (b_map b) index) (b_compound b)).
Definition tg_next (t : PathIoTarget) : Z := ExecutionMap.next (b_map (tg_building t)).
Definition tg_items (t : PathIoTarget) : Z := Z.of_nat (length (ExecutionMap.ranges (b_map (tg_building t)))).

(** The bytes left for an item in a chunk that carries [payload] already. *)
Definition read_room (cl : NfsClient.t) (payload : Z) : Z :=
  if 0 <? NfsClient.max_response_bytes cl then
    if 0 <? payload then sat_sub (NfsClient.read_compound_bytes cl) (payload + 128)
    else NfsClient.read_compound_bytes cl
  else USIZE_MAX.

(** [while global < n && map.ranges.len() < max_items && map.next + per_file <= budget]
    over the items from [global] on. *)
Fixpoint fill_reads (cl : NfsClient.t) (close_in_compound : bool) (base_seq per_op budget max_items n : Z)
    (items : list PathReadOp) (st : read_filling) : RpcResult read_filling :=
  match items with
  | [] => Ok st
  | op :: items =>
      let 'ReadFilling t global start payload expected failed := st in
      if (tg_items t <? max_items) && (tg_next t + path_io_per_file <=? budget) then
        match path_io_chunk_end start (rp_count op) per_op (read_room cl payload) (sat_sub budget (tg_next t + 3))
                ((tg_next t =? 0) && (payload =? 0)) with
        | None => Ok st
        | Some end_ =>
            match prepare_path_io_target cl close_in_compound base_seq (rp_file op)
                    (IoOpen OPEN4_SHARE_ACCESS_READ ONoCreate false false) (begin_item t global) with
            | (None, t) => Ok (ReadFilling t n start payload expected (Some (global, NFS4ERR_INVAL)))
            | (Some newly_opened, t) =>
                let lens := if start <? end_ then chunk_lens start end_ per_op else [0] in
                match add_reads (io_stateid (rp_file op) (rp_stateid op)) (rp_offset op) global start lens
                        (tg_building t) expected with
                | Err e => Err e
                | Ok (b, expected) =>
                    let t := finish_item newly_opened (with_building t b) in
                    let payload := payload + 128 + (end_ - start) in
                    if end_ =? rp_count op then
                      let st := ReadFilling t (global + 1) 0 payload expected failed in
                      if (budget <? tg_next t + path_io_per_file) && (global + 1 <? n) then Ok st
                      else fill_reads cl close_in_compound base_seq per_op budget max_items n items st
                    else Ok (ReadFilling t global end_ payload expected failed)
                end
            end
        end
      else Ok st
  end.

(** ** What the replies give *)

(** An error of the decoding loop, with or without the clean-up of the OPENs. *)
Record io_exit := Exit { ex_cleanup : bool; ex_error : RpcError.t; ex_client : NfsClient.t; ex_world : W }.

Record collecting := Collecting {
  co_client : NfsClient.t;
  co_world : W;
  co_data : list (option bytes);
  co_eof : list (option bool);
  co_index : nat;
}.

(** One READ result. *)
Definition collect_read (fuel : nat) (ops : list PathReadOp) (expected : list Z) (res : COMPOUND4res) (caller j : Z)
    (st : collecting) : outcome (result io_exit collecting) :=
  let 'Collecting cl w data eofs index := st in
  bytes_ ← or_panic (CompoundRes.read_data res j);
  end_of_file ← or_panic (CompoundRes.read_eof res j);
  let len := Z.of_nat (length bytes_) in
  match expected !! index with
  | None => Done (Err (Exit true (RpcError.with_op_index
              (RpcError.transport "malformed readv COMPOUND reply: extra READ result") caller) cl w))
  | Some requested =>
      match Single.validate_read_length len requested with
      | Err error => Done (Err (Exit true (RpcError.with_op_index error caller) cl w))
      | Ok _ =>
          eof ← or_panic (eofs !! Z.to_nat caller);
          if bool_decide (eof = Some true) then Done (Ok (Collecting cl w data eofs (S index)))
          else
            sofar ← or_panic (data !! Z.to_nat caller);
            let output := default [] sofar ++ bytes_ in
            if (len =? 0) && negb (requested =? 0) && negb end_of_file
            then Done (Err (Exit true (RpcError.op caller NFS4ERR_IO) cl w))
            else
              let store cl w end_of_file output :=
                Done (Ok (Collecting cl w (<[Z.to_nat caller := Some output]> data)
                            (<[Z.to_nat caller := Some end_of_file]> eofs) (S index))) in
              if (len <? requested) && negb end_of_file then
                op ← or_panic (ops !! Z.to_nat caller);
                match checked_offset (rp_offset op) (Z.of_nat (length output)) caller with
                | Err e => Done (Err (Exit false e cl w))
                | Ok offset =>
                    '(r, cl, w) ← repair_path_read fuel cl op caller offset (requested - len) output w;
                    match r with
                    | Ok (end_, output) => store cl w end_ output
                    | Err error => Done (Err (Exit true error cl w))
                    end
                end
              else store cl w end_of_file output
      end
  end.

(** [for j in s..e.min(res.nops())]. *)
Fixpoint collect_reads_in (fuel : nat) (ops : list PathReadOp) (expected : list Z) (res : COMPOUND4res) (caller from : Z)
    (count : nat) (st : collecting) : outcome (result io_exit collecting) :=
  match count with
  | O => Done (Ok st)
  | S count =>
      ro ← or_panic (CompoundRes.op res from);
      r ← (if resop_num ro =? OP_READ then collect_read fuel ops expected res caller from st else Done (Ok st));
      match r with
      | Ok st => collect_reads_in fuel ops expected res caller (from + 1) count st
      | Err e => Done (Err e)
      end
  end.

Fixpoint collect_reads (fuel : nat) (ops : list PathReadOp) (expected : list Z) (res : COMPOUND4res)
    (rs : list ExecutionMap.range) (st : collecting) : outcome (result io_exit collecting) :=
  match rs with
  | [] => Done (Ok st)
  | r :: rs =>
      x ← collect_reads_in fuel ops expected res (ExecutionMap.r_caller r) (ExecutionMap.r_start r)
            (Z.to_nat (Z.min (ExecutionMap.r_end r) (CompoundRes.nops res) - ExecutionMap.r_start r)) st;
      match x with
      | Ok st => collect_reads fuel ops expected res rs st
      | Err e => Done (Err e)
      end
  end.

(** ** The loop *)

Record read_state := ReadState {
  rs_client : NfsClient.t;
  rs_world : W;
  rs_global : Z;
  rs_part : Z;
  rs_max_items : Z;
  rs_out : PathReadOutcome;
}.
Definition read_answer : Type := RpcResult PathReadOutcome * NfsClient.t * W.

(** [for i in caller + 1..n { v[i] = None }]. *)
Definition clear_after {A} (caller : Z) (v : list (option A)) : list (option A) :=
  imap (λ i x, if caller <? Z.of_nat i then None else x) v.

(** The status of the CLOSE at the end of the compound, which is no item's, or the
    error any other such failure is. *)
Definition close_status (close_in_compound : bool) (t : PathIoTarget) (report : ExecutionReport) : RpcResult (option Z) :=
  match compound_failure report with
  | None => Ok None
  | Some status =>
      let close_op := ExecutionMap.r_end <$> (last (ExecutionMap.ranges (b_map (tg_building t)))) in
      if close_in_compound && bool_decide (is_Some (tg_opened_path t)) &&
         bool_decide (compound_failure_op report = close_op)
      then Ok (Some status)
      else Err (RpcError.op 0 status)
  end.

(** After an accepted reply. *)
Definition after_read_reply (fuel : nat) (ops : list PathReadOp) (close_in_compound : bool) (cl : NfsClient.t) (w : W)
    (chunk_start : Z) (f : read_filling) (out : PathReadOutcome) (res : COMPOUND4res)
    : outcome (turn read_state read_answer) :=
  let map := b_map (tg_building (rf_target f)) in
  match ExecutionMap.analyze map res with
  | Err error =>
      Done (Return (invalid_reply ("malformed readv COMPOUND reply: " +:+ display_malformed error), cl, w))
  | Ok report =>
      let 'ReadOutcome data eofs opened _ close_failed := out in
      let '(failed, data, eofs) :=
        match failure report with
        | Some x => (Some (if_caller x, if_status x), clear_after (if_caller x) data, clear_after (if_caller x) eofs)
        | None => (rf_failed f, data, eofs)
        end in
      let opened :=
        if close_in_compound then opened
        else opened ++ CompoundRes.for_each_open_result res (ExecutionMap.executed_ranges map report) in
      x ← collect_reads fuel ops (rf_expected f) res (ExecutionMap.completed_ranges map report)
            (Collecting cl w data eofs 0);
      match x with
      | Err (Exit cleanup e cl w) =>
          '(cl, w) ← (if cleanup then read_error_with_cleanup fuel cl opened close_in_compound w else Done (cl, w));
          Done (Return (Err e, cl, w))
      | Ok (Collecting cl w data eofs _) =>
          match close_status close_in_compound (rf_target f) report with
          | Err e => Done (Return (Err e, cl, w))
          | Ok status =>
              let close_failed := match status with Some st => Some st | None => close_failed end in
              let out failed := ReadOutcome data eofs opened failed close_failed in
              if bool_decide (is_Some failed) || bool_decide (is_Some close_failed)
              then Done (Return (Ok (out failed), cl, w))
              else if (chunk_start =? rf_global f) && (rf_part f =? 0)
              then Done (Return (Ok (out (Merged.or_too_many failed chunk_start)), cl, w))
              else Done (Again (ReadState cl w (rf_global f) (rf_part f) USIZE_MAX (out failed)))
          end
      end
  end.

Definition read_round (fuel : nat) (ops : list PathReadOp) (close_in_compound : bool) (per_op : Z) (st : read_state)
    : outcome (turn read_state read_answer) :=
  let 'ReadState cl w chunk_start chunk_part max_items out := st in
  let tag := if close_in_compound then "readv1" else "readv2" in
  let budget := CompoundBudget.merged_limit (NfsClient.op_budget_for cl (bstr tag) (1 + path_io_per_file))
                  path_io_reserve path_io_per_file in
  let base_seq := path_seqid cl in
  let start := IoTarget (Building CfhCursor.default_cursor ExecutionMap.new (Compound.tag Compound.new (bstr tag)))
                 None false 0 in
  match fill_reads cl close_in_compound base_seq per_op budget max_items (Z.of_nat (length ops))
          (drop (Z.to_nat chunk_start) ops) (ReadFilling start chunk_start chunk_part 0 [] (ro_failed out)) with
  | Err e => Done (Return (Err e, cl, w))
  | Ok f =>
      let t := rf_target f in
      let out := ReadOutcome (ro_data out) (ro_eof out) (ro_opened out) (rf_failed f) (ro_close_failed out) in
      if tg_items t =? 0 then
        Done (Return (Ok (ReadOutcome (ro_data out) (ro_eof out) (ro_opened out)
                            (Merged.or_too_many (rf_failed f) chunk_start) (ro_close_failed out)), cl, w))
      else
        let b := if close_in_compound && bool_decide (is_Some (tg_opened_path t))
                 then close_special (tg_building t) else tg_building t in
        let '(r, cl, w) :=
          send_path_io_chunk cl tag (1 + path_io_per_file) path_io_reserve path_io_per_file budget
            (bool_decide (rf_failed f = None)) (b_compound b) (b_map b) base_seq (tg_opens t) ReadOnly w in
        match r with
        | Err e => Done (Return (Err e, cl, w))
        | Ok (Repack cap) => Done (Again (ReadState cl w chunk_start chunk_part cap out))
        | Ok Retry => Done (Again (ReadState cl w chunk_start chunk_part USIZE_MAX out))
        | Ok (Response res) =>
            after_read_reply fuel ops close_in_compound cl w chunk_start
              (ReadFilling (with_building t b) (rf_global f) (rf_part f) (rf_payload f) (rf_expected f) (rf_failed f))
              out res
        end
  end.

Definition readv_path_compound (fuel : nat) (cl : NfsClient.t) (ops : list PathReadOp) (close_in_compound : bool) (w : W)
    : outcome read_answer :=
  run_in (λ st, rs_global st <? Z.of_nat (length ops))
    (read_round fuel ops close_in_compound (NfsClient.read_per_op_bytes cl))
    (λ st, (Ok (rs_out st), rs_client st, rs_world st)) fuel
    (ReadState cl w 0 0 USIZE_MAX
       (ReadOutcome (replicate (length ops) None) (replicate (length ops) None) [] None None)).

(** ** Writes by path *)

Definition sat_add32 (a b : Z) : Z := Z.min (a + b) U32_MAX.

(** The WRITEs of one item, from [part] on, in pieces of the given lengths. *)
Fixpoint add_writes (stateid : stateid4) (offset index part : Z) (data : bytes) (lens : list Z) (b : building)
    (expected : list (Z * Z)) : RpcResult (building * list (Z * Z)) :=
  match lens with
  | [] => Ok (b, expected)
  | len :: lens =>
      if Z.of_nat (length expected) <? MAX_COMPOUND_OPS then
        match checked_offset offset part index with
        | Err e => Err e
        | Ok at_ =>
            add_writes stateid offset index (part + len) data lens
              (add_op b (λ c, Compound.write c stateid at_ FILE_SYNC4
                                (slice (Z.to_nat part) (Z.to_nat (part + len)) data)))
              (expected ++ [(part, len)])
        end
      else Err (RpcError.transport "too many merged WRITEs")
  end.

Record write_filling := WriteFilling {
  wf_target : PathIoTarget;
  wf_global : Z;
  wf_part : Z;
  wf_payload : Z;
  wf_expected : list (Z * Z);
  wf_active : gmap FileRef WriteWaveAccess.t;
  wf_failed : option (Z * Z);
}.

Definition write_room (cl : NfsClient.t) (payload : Z) : Z :=
  if 0 <? NfsClient.max_request_arg_bytes cl then
    if 0 <? payload then sat_sub (NfsClient.max_request_arg_bytes cl) (payload + 128)
    else NfsClient.max_request_arg_bytes cl
  else USIZE_MAX.

(** The wave with this write, or [None] when it has to wait for the next
    compound. *)
Definition admit_write (active : gmap FileRef WriteWaveAccess.t) (file : FileRef) (range : Z * Z) (positional : bool)
    : option (gmap FileRef WriteWaveAccess.t) :=
  match active !! file with
  | None => Some (<[file := WriteWaveAccess.new range positional]> active)
  | Some access =>
      let '(ok, access) := WriteWaveAccess.admit_ access range positional in
      if ok then Some (<[file := access]> active) else None
  end.

(** How the file of a write is opened. *)
Definition write_open (op : PathWriteOp) (start : Z) : PathIoOpen :=
  IoOpen OPEN4_SHARE_ACCESS_BOTH (if pw_create op then OUnchecked else ONoCreate)
    (pw_create op && pw_truncate op && (start =? 0)) (pw_truncate op && negb (pw_create op) && (start =? 0)).

Fixpoint fill_writes (cl : NfsClient.t) (close_in_compound : bool) (base_seq per_op budget max_items n : Z)
    (items : list PathWriteOp) (st : write_filling) : RpcResult write_filling :=
  match items with
  | [] => Ok st
  | op :: items =>
      let 'WriteFilling t global start payload expected active failed := st in
      let total := Z.of_nat (length (pw_data op)) in
      if (tg_items t <? max_items) && (tg_next t + path_io_per_file <=? budget) then
        match checked_offset (pw_offset op) total global with
        | Err e => Err e
        | Ok range_end =>
            match admit_write active (pw_file op) (pw_offset op, range_end) (negb (pw_truncate op)) with
            | None => Ok st
            | Some active =>
                match path_io_chunk_end start total per_op (write_room cl payload) (sat_sub budget (tg_next t + 3))
                        ((tg_next t =? 0) && (payload =? 0)) with
                | None => Ok st
                | Some end_ =>
                    match prepare_path_io_target cl close_in_compound base_seq (pw_file op) (write_open op start)
                            (begin_item t global) with
                    | (None, t) => Ok (WriteFilling t n start payload expected active (Some (global, NFS4ERR_INVAL)))
                    | (Some newly_opened, t) =>
                        let lens := if start <? end_ then chunk_lens start end_ per_op else [0] in
                        match add_writes (io_stateid (pw_file op) (pw_stateid op)) (pw_offset op) global start
                                (pw_data op) lens (tg_building t) expected with
                        | Err e => Err e
                        | Ok (b, expected) =>
                            let t := finish_item newly_opened (with_building t b) in
                            let payload := payload + 128 + (end_ - start) in
                            if end_ =? total then
                              let st := WriteFilling t (global + 1) 0 payload expected active failed in
                              if (budget <? tg_next t + path_io_per_file) && (global + 1 <? n) then Ok st
                              else fill_writes cl close_in_compound base_seq per_op budget max_items n items st
                            else Ok (WriteFilling t global end_ payload expected active failed)
                        end
                    end
                end
            end
        end
      else Ok st
  end.

Record counting := Counting {
  cn_client : NfsClient.t;
  cn_world : W;
  cn_counts : list (option Z);
  cn_committed : list (option Z);
  cn_index : nat;
}.

(** One WRITE result; [executed] are the ranges of which something was carried
    out. *)
Definition collect_write (fuel : nat) (ops : list PathWriteOp) (executed : list ExecutionMap.range)
    (expected : list (Z * Z)) (res : COMPOUND4res) (caller j : Z) (st : counting) : outcome (result io_exit counting) :=
  let 'Counting cl w counts committed index := st in
  '(received, ok_committed) ← or_panic (CompoundRes.write res j);
  match expected !! index with
  | None => Done (Err (Exit false (RpcError.transport "extra merged WRITE reply") cl w))
  | Some (part, requested) =>
      if (requested <? received) || ((received =? 0) && negb (requested =? 0))
      then Done (Err (Exit true (RpcError.op caller NFS4ERR_IO) cl w))
      else
        '(r, cl, w) ←
          (if received <? requested then
             op ← or_panic (ops !! Z.to_nat caller);
             '(r, cl, w) ← repair_path_write fuel cl ops executed caller (part + received)
                             (slice (Z.to_nat (part + received)) (Z.to_nat (part + requested)) (pw_data op)) w;
             Done (match r with Ok stable => Ok (Z.min ok_committed stable) | Err e => Err e end, cl, w)
           else Done (Ok ok_committed, cl, w));
        match r with
        | Err e => Done (Err (Exit true e cl w))
        | Ok stable =>
            count ← or_panic (counts !! Z.to_nat caller);
            commit ← or_panic (committed !! Z.to_nat caller);
            Done (Ok (Counting cl w
              (<[Z.to_nat caller := Some (sat_add32 (default 0 count) (as_u32 requested))]> counts)
              (<[Z.to_nat caller := Some (Z.min (default FILE_SYNC4 commit) stable)]> committed) (S index)))
        end
  end.

Fixpoint collect_writes_in (fuel : nat) (ops : list PathWriteOp) (executed : list ExecutionMap.range)
    (expected : list (Z * Z)) (res : COMPOUND4res) (caller from : Z) (count : nat) (st : counting)
    : outcome (result io_exit counting) :=
  match count with
  | O => Done (Ok st)
  | S count =>
      ro ← or_panic (CompoundRes.op res from);
      r ← (if resop_num ro =? OP_WRITE then collect_write fuel ops executed expected res caller from st
           else Done (Ok st));
      match r with
      | Ok st => collect_writes_in fuel ops executed expected res caller (from + 1) count st
      | Err e => Done (Err e)
      end
  end.

Fixpoint collect_writes (fuel : nat) (ops : list PathWriteOp) (executed : list ExecutionMap.range)
    (expected : list (Z * Z)) (res : COMPOUND4res) (rs : list ExecutionMap.range) (st : counting)
    : outcome (result io_exit counting) :=
  match rs with
  | [] => Done (Ok st)
  | r :: rs =>
      x ← collect_writes_in fuel ops executed expected res (ExecutionMap.r_caller r) (ExecutionMap.r_start r)
            (Z.to_nat (Z.min (ExecutionMap.r_end r) (CompoundRes.nops res) - ExecutionMap.r_start r)) st;
      match x with
      | Ok st => collect_writes fuel ops executed expected res rs st
      | Err e => Done (Err e)
      end
  end.

Record write_state := WriteState {
  ws_client : NfsClient.t;
  ws_world : W;
  ws_global : Z;
  ws_part : Z;
  ws_max_items : Z;
  ws_out : PathWriteOutcome;
}.
Definition write_answer : Type := RpcResult PathWriteOutcome * NfsClient.t * W.

Definition after_write_reply (fuel : nat) (ops : list PathWriteOp) (close_in_compound : bool) (cl : NfsClient.t) (w : W)
    (chunk_start : Z) (f : write_filling) (out : PathWriteOutcome) (res : COMPOUND4res)
    : outcome (turn write_state write_answer) :=
  let map := b_map (tg_building (wf_target f)) in
  match ExecutionMap.analyze map res with
  | Err error =>
      Done (Return (invalid_reply ("malformed writev COMPOUND reply: " +:+ display_malformed error), cl, w))
  | Ok report =>
      let 'WriteOutcome counts committed opened _ close_failed := out in
      let '(failed, counts, committed) :=
        match failure report with
        | Some x => (Some (if_caller x, if_status x), clear_after (if_caller x) counts, clear_after (if_caller x) committed)
        | None => (wf_failed f, counts, committed)
        end in
      let opened :=
        if close_in_compound then opened
        else opened ++ CompoundRes.for_each_open_result res (ExecutionMap.executed_ranges map report) in
      let executed := take (length (completed report) + (if failure report is Some _ then 1 else 0))
                        (ExecutionMap.ranges map) in
      x ← collect_writes fuel ops executed (wf_expected f) res (ExecutionMap.completed_ranges map report)
            (Counting cl w counts committed 0);
      match x with
      | Err (Exit cleanup e cl w) =>
          '(cl, w) ← (if cleanup then read_error_with_cleanup fuel cl opened close_in_compound w else Done (cl, w));
          Done (Return (Err e, cl, w))
      | Ok (Counting cl w counts committed _) =>
          match close_status close_in_compound (wf_target f) report with
          | Err e => Done (Return (Err e, cl, w))
          | Ok status =>
              let close_failed := match status with Some st => Some st | None => close_failed end in
              let out failed := WriteOutcome counts committed opened failed close_failed in
              if bool_decide (is_Some failed) || bool_decide (is_Some close_failed)
              then Done (Return (Ok (out failed), cl, w))
              else if (chunk_start =? wf_global f) && (wf_part f =? 0)
              then Done (Return (Ok (out (Merged.or_too_many failed chunk_start)), cl, w))
              else Done (Again (WriteState cl w (wf_global f) (wf_part f) USIZE_MAX (out failed)))
          end
      end
  end.

Definition write_round (fuel : nat) (ops : list PathWriteOp) (close_in_compound : bool) (per_op : Z) (st : write_state)
    : outcome (turn write_state write_answer) :=
  let 'WriteState cl w chunk_start chunk_part max_items out := st in
  let tag := if close_in_compound then "writev1" else "writev2" in
  let budget := CompoundBudget.merged_limit (NfsClient.op_budget_for cl (bstr tag) (1 + path_io_per_file))
                  path_io_reserve path_io_per_file in
  let base_seq := path_seqid cl in
  let start := IoTarget (Building CfhCursor.default_cursor ExecutionMap.new (Compound.tag Compound.new (bstr tag)))
                 None false 0 in
  match fill_writes cl close_in_compound base_seq per_op budget max_items (Z.of_nat (length ops))
          (drop (Z.to_nat chunk_start) ops) (WriteFilling start chunk_start chunk_part 0 [] ∅ (wo_failed out)) with
  | Err e => Done (Return (Err e, cl, w))
  | Ok f =>
      let t := wf_target f in
      let out := WriteOutcome (wo_counts out) (wo_committed out) (wo_opened out) (wf_failed f) (wo_close_failed out) in
      if tg_items t =? 0 then
        Done (Return (Ok (WriteOutcome (wo_counts out) (wo_committed out) (wo_opened out)
                            (Merged.or_too_many (wf_failed f) chunk_start) (wo_close_failed out)), cl, w))
      else
        let b := if close_in_compound && bool_decide (is_Some (tg_opened_path t))
                 then close_special (tg_building t) else tg_building t in
        let '(r, cl, w) :=
          send_path_io_chunk cl tag (1 + path_io_per_file) path_io_reserve path_io_per_file budget
            (bool_decide (wf_failed f = None)) (b_compound b) (b_map b) base_seq (tg_opens t) NonIdempotentMutation w in
        match r with
        | Err e => Done (Return (Err e, cl, w))
        | Ok (Repack cap) => Done (Again (WriteState cl w chunk_start chunk_part cap out))
        | Ok Retry => Done (Again (WriteState cl w chunk_start chunk_part USIZE_MAX out))
        | Ok (Response res) =>
            after_write_reply fuel ops close_in_compound cl w chunk_start
              (WriteFilling (with_building t b) (wf_global f) (wf_part f) (wf_payload f) (wf_expected f) (wf_active f)
                 (wf_failed f)) out res
        end
  end.

Definition writev_path_compound (fuel : nat) (cl : NfsClient.t) (ops : list PathWriteOp) (close_in_compound : bool)
    (w : W) : outcome write_answer :=
  run_in (λ st, ws_global st <? Z.of_nat (length ops))
    (write_round fuel ops close_in_compound (NfsClient.per_op_bytes cl))
    (λ st, (Ok (ws_out st), ws_client st, ws_world st)) fuel
    (WriteState cl w 0 0 USIZE_MAX
       (WriteOutcome (replicate (length ops) None) (replicate (length ops) None) [] None None)).
End Operations.
