(* ===== verification/PathSpec.v ===== *)
(** * Reading a tree that does not change

    What reads by path rely on, stated of the abstract server: while nobody
    writes, the service shows one tree of names and one content per file, in
    every state that reading, opening and closing can lead to.  From this follow
    the contracts of the parts of a read by path: walking, opening, reading and
    completing a read the server cut short. *)
From stdpp Require Import base numbers countable list list_numbers gmap strings.
From S2P Require Import Prelude Path Errors Types Planner Compound Session Cursor Client IoProgress Loops Exchange Server Batch BatchOps Resolve Single BatchSpec Mutations Opens Lifecycle Merged PathIo.

(** The service shows the tree [t] and the contents [content] in the states
    [P], and does not leave them by the operations of a reader.  READ may return
    fewer bytes than asked for. *)
Record readable {F} (s : nfs_spec F) (t : fh_server) (content : nfs_fh4 → option bytes) (P : F → Prop) : Prop := {
  rd_tree : FhTree t;
  rd_root : fh_root t = sp_root s;
  rd_lookup f d n x : P f → sp_lookup s f d n = Ok x → fh_lookup t d n = Some x;
  rd_lookupp f d x : P f → sp_lookupp s f d = Ok x → fh_lookupp t d = Some x;
  rd_open f d a n f' x st mask : P f → oa_claim a = ClaimNull n → oa_openhow a = NoCreate →
    sp_open s f d a = Ok (f', (x, st, mask)) → P f' ∧ fh_lookup t d n = Some x;
  rd_close f x q st f' : P f → sp_close s f x q st = Ok f' → P f';
  rd_read f x st off n data eof : P f → sp_read s f x st off n = Ok (data, eof) →
    ∃ c, content x = Some c ∧ data `prefix_of` drop (Z.to_nat off) c ∧
      (eof = true → Z.of_nat (length c) <= off + Z.of_nat (length data));
}.

Module PathSpecLemmas.
Import ExchangeLemmas ServerLemmas SingleLemmas CursorLemmas.

(** The operations a reader sends. *)
Definition moving (op : argop) : bool :=
  match op with APutRootFh | APutFh _ | ALookup _ | ALookupp | ASaveFh | ARestoreFh => true | _ => false end.
Definition reading (op : argop) : bool :=
  moving op ||
  match op with
  | AGetFh | ARead _ _ _ | AClose _ _ => true
  | AOpen a => match oa_claim a, oa_openhow a with ClaimNull _, NoCreate => true | _, _ => false end
  | _ => false
  end.

Lemma reading_file ops : Forall reading ops → Forall file_op ops.
Proof. intros H. eapply Forall_impl; [exact H|]. by intros []. Qed.

Section View.
Context {F W : Type} (s : nfs_spec F) (t : fh_server) (content : nfs_fh4 → option bytes) (P : F → Prop).
Context (Hview : readable s t content P).
#[local] Existing Instance rd_tree.

(** What continuing at [offset] gives: the next bytes, all of them unless the
    file ends before. *)
Definition read_on (x : nfs_fh4) (offset count : Z) (data : bytes) (eof : bool) : Prop :=
  ∀ c, content x = Some c → data = take (Z.to_nat count) (drop (Z.to_nat offset) c) ∧
    (eof = false → Z.of_nat (length data) = count) ∧
    (eof = true → Z.of_nat (length c) <= offset + Z.of_nat (length data)).

(** Enough turns to resolve the path of a file. *)
Definition path_fuel (file : FileRef) : Z :=
  match file with FPath p => (Z.of_nat (length p) + 2) * (Z.of_nat (length p) + 2) | FHandle _ => 0 end.

Definition slots (m : machine F) : fhs := Fhs (mc_cur m) (mc_sav m).

Lemma reading_step m op m' r : P (mc_fs m) → reading op → spec_step s m op = Ok (m', r) →
  P (mc_fs m') ∧ (moving op → fh_step t (slots m) op = Some (slots m')).
Proof.
  intros HP Hop Hst. destruct m as [f c sv]. cbn [mc_fs] in HP.
  destruct op; try done; cbn [spec_step] in Hst; unfold need, keep_fh, keep_fs, go_fh in Hst; cbn [mc_fs mc_cur mc_sav] in Hst;
    repeat (case_match; simplify_eq/=); simplify_eq/=; try done; try (split; [done|]; intros _; cbn).
  - by rewrite (rd_root _ _ _ _ Hview).
  - erewrite rd_lookup by eauto. done.
  - erewrite rd_lookupp by eauto. done.
  - split; [|done]. unfold reading in Hop. cbn in Hop. destruct (oa_claim args) eqn:Hc, (oa_openhow args) eqn:Hh; try done.
    by eapply (rd_open _ _ _ _ Hview f).
  - split; [|done]. by eapply rd_close.
Qed.
Lemma reading_steps m ops m' rs : P (mc_fs m) → Forall reading ops → spec_steps s m ops = Some (m', rs) → P (mc_fs m').
Proof.
  intros HP Hr. revert m rs HP. induction Hr as [|op ops Hop _ IH]; intros m rs HP; cbn; [by intros [= <- _]|].
  destruct (spec_step s m op) as [[m1 r1]|st] eqn:E; [|done]. intros ([m2 r2] & H & [= <- _])%bind_Some.
  destruct (reading_step _ _ _ _ HP Hop E) as [HP1 _]. by eapply IH.
Qed.

Lemma moving_reading ops : Forall moving ops → Forall reading ops.
Proof. intros H. eapply Forall_impl; [exact H|]. by intros []. Qed.

Lemma moving_steps m ops m' rs : P (mc_fs m) → Forall moving ops → spec_steps s m ops = Some (m', rs) →
  P (mc_fs m') ∧ fh_run t (slots m) ops = Some (slots m').
Proof.
  intros HP Hm. revert m rs HP. induction Hm as [|op ops Hop _ IH]; intros m rs HP; cbn [spec_steps]; [by intros [= <- _]|].
  destruct (spec_step s m op) as [[m1 r1]|st] eqn:E; [|done]. intros ([m2 r2] & H & [= <- _])%bind_Some.
  assert (reading op) by (by destruct op).
  destruct (reading_step _ _ _ _ HP ltac:(done) E) as [HP1 Hst]. rewrite fh_run_cons, (Hst Hop). by eapply IH.
Qed.

Section Client.
Context (rpc : Compound.t → W → RpcResult COMPOUND4res * W) (fs : W → F).
Context (Hrpc : transport_ok rpc) (Himp : implements s rpc fs).
Context (xdr_len : Compound.t → Z) `{!XdrSizes xdr_len}.

(** A reader's request keeps the view, whatever comes back. *)
Lemma sent_kept ops w r w' : Forall reading ops → P (fs w) → sent rpc ops w r w' → P (fs w').
Proof.
  intros Hr HP (req & sid & q & Hreq & Hops).
  destruct (Himp _ _ _ _ _ _ _ Hreq Hops (reading_file _ Hr)) as (k & m & rs & Hk & -> & _).
  eapply reading_steps, Hk; [done|by apply Forall_take].
Qed.

Lemma resolve_view cl path w fuel : 0 <= NfsClient.max_ops cl < USIZE_MAX → NfsClient.root cl = sp_root s → P (fs w) →
  (Z.of_nat (length (path_components path)) + 1) * (Z.of_nat (length (path_components path)) + 1) <= Z.of_nat fuel →
  ∃ r cl' w', Resolve.resolve rpc xdr_len fuel cl path w = Done (r, cl', w') ∧ same_limits cl cl' ∧ P (fs w') ∧
    match r with Ok fh => resolve_dir t path = Some fh | Err _ => True end.
Proof.
  intros Hmax Hroot HP Hfuel.
  destruct (ResolveLemmas.resolve_ok rpc Hrpc xdr_len (path_components path) cl Hmax (λ w, P (fs w))
    (λ names fh, resolve_from t (Some (fh_root t)) names = Some fh) (λ _, True)) with (path := path) (w := w) (fuel := fuel)
    as (r & cl' & w' & E & Hs & HP' & Hr); [| | |done|done|done|].
  - cbn. by rewrite (rd_root _ _ _ _ Hview), Hroot.
  - intros cur chunk w1 r w2 HP1 Hsent. eapply sent_kept; [|done|exact Hsent]. constructor; [done|].
    apply Forall_app. split; [by apply Forall_fmap, Forall_true|by constructor].
  - intros done_ chunk rest cur w1 res w2 _ Hcur HP1 Hex. destruct (_ =? NFS_OK) eqn:Hok; [|done].
    destruct (exchanged_runs s rpc fs Himp _ _ _ _ Hex) as (m & rs & Hrun & _ & Hc & Hdone).
    { constructor; [done|]. apply Forall_app. split; [by apply Forall_fmap, Forall_true|by constructor]. }
    rewrite Hok in Hdone. rewrite Hdone, firstn_all in Hrun. unfold ResolveLemmas.chain in Hrun.
    change (APutFh cur :: ?l ++ [AGetFh]) with ((APutFh cur :: l) ++ [AGetFh]) in Hrun.
    rewrite spec_steps_app in Hrun. apply bind_Some in Hrun as ([m1 r1] & H1 & ([m2 r2] & H2 & [= <- <-])%bind_Some).
    pose proof (spec_steps_length _ _ _ _ _ H1) as Hlen. cbn in Hlen. rewrite length_fmap in Hlen.
    destruct (moving_steps (start (fs w1)) (APutFh cur :: (ALookup <$> chunk)) m1 r1) as [_ Hfh]; [done| |exact H1|].
    { constructor; [done|]. by apply Forall_fmap, Forall_true. }
    rewrite fh_run_cons in Hfh. cbn [fh_step mbind option_bind] in Hfh.
    change (ALookup <$> chunk) with (map ALookup chunk) in Hfh. cbn [slots] in Hfh. rewrite fh_run_lookups in Hfh.
    destruct (resolve_from t (Some cur) chunk) as [fh|] eqn:Hfrom; [|done]. cbn in Hfh. exists fh.
    rewrite resolve_from_app, Hcur. split; [|done]. destruct m1 as [f1 c1 s1]. injection Hfh as <- _.
    cbn in H2. injection H2 as <- <-.
    pose proof (complete_accessors res _ (length r1) (RGetFh NFS_OK (vec_of fh)) Hc) as Hacc.
    rewrite Hlen in Hacc. replace (2 + Z.of_nat (length chunk)) with (1 + Z.of_nat (S (length chunk))) by lia.
    rewrite Hacc; [by apply vec_of_bytes|]. by rewrite lookup_app_r, Hlen, Nat.sub_diag by lia.
  - exists r, cl', w'. split; [done|]. split; [done|]. split; [done|]. by destruct r.
Qed.

Context (verifier : Z → verifier4) (now : Z * Z).

Lemma open_view cl dir name access w fuel : P (fs w) →
  ∃ r cl' w', Opens.open rpc xdr_len verifier now fuel cl dir name access ONoCreate w = Done (r, cl', w') ∧
    same_caps cl cl' ∧ P (fs w') ∧
    match r with Ok (fh, _) => fh_lookup t dir name = Some fh | Err _ => True end.
Proof.
  intros HP. unfold open, open_slot, open_owner_of. destruct (NfsClient.next_public_open_owner_name cl) as [owner cl0] eqn:Eo.
  assert (Hcaps : same_caps cl cl0) by (unfold NfsClient.next_public_open_owner_name in Eo; by injection Eo as _ <-).
  set (c := Compound.getfh _). assert (Hread : Forall reading (Compound.ops c)) by (by repeat constructor).
  destruct (exchange_one_runs s rpc fs Hrpc Himp xdr_len cl0 c (λ res, opened_at res 2)
    (λ f' v, P f' ∧ fh_lookup t dir name = Some v.1.1) w) as (r & cl1 & w1 & -> & Hs & Hr); [done|by apply reading_file| |].
  { intros m rs res Hm Hc. pose proof (reading_steps (start (fs w)) _ _ _ HP Hread Hm) as HPm. cbn -[spec_step] in Hm.
    cbn [spec_step start] in Hm. destruct (sp_putfh s (fs w) dir) as [[]|]; [|done]. cbn [spec_step] in Hm. unfold need in Hm.
    destruct (sp_open s (fs w) dir _) as [[f1 [[x st] mask]]|] eqn:Ho; [|done]. cbn -[vec_of] in Hm. injection Hm as <- <-.
    edestruct (rd_open _ _ _ _ Hview) as [_ Hx]; [exact HP| | |exact Ho|]; [reflexivity..|].
    pose proof (complete_accessors _ _ 1 _ Hc eq_refl) as [H1 H2]. pose proof (complete_accessors _ _ 2 _ Hc eq_refl) as H3.
    exists (x, st, verifier_storage_attrs mask). split; [|done]. unfold opened_at.
    change (1 + Z.of_nat 1) with 2 in *. change (2 + 1) with (1 + Z.of_nat 2). rewrite H1. cbn [mbind option_bind]. rewrite H2. cbn [mbind option_bind]. rewrite H3, vec_of_bytes. done. }
  cbn [or_panic mbind outcome_bind]. assert (same_caps cl cl1) by (etrans; [done|auto with vnfs]).
  destruct r as [[[fh st] attrs]|e]; (eexists _, _, _; split; [reflexivity|]; split; [done|]).
  - destruct Hr. by split.
  - split; [|done]. destruct Hr as (k & m & rs & Hk & -> & _). eapply reading_steps, Hk; [done|by apply Forall_take].
Qed.

Lemma read_view cl fh st off n w : P (fs w) →
  ∃ r cl' w', Single.read rpc xdr_len cl fh st off n w = Some (r, cl', w') ∧ same_limits cl cl' ∧ P (fs w') ∧
    match r with
    | Ok (data, eof) => ∃ c, content fh = Some c ∧ data `prefix_of` drop (Z.to_nat off) c ∧
        (eof = true → Z.of_nat (length c) <= off + Z.of_nat (length data))
    | Err _ => True
    end.
Proof.
  intros HP. destruct (read_refines s rpc fs Hrpc Himp xdr_len cl fh st off n w) as (r & cl' & w' & E & Hs & Hr & _).
  exists r, cl', w'. split; [done|]. split; [done|].
  assert (Hsame : ∀ f' v, meaning s (fs w) (as_u32 (NfsClient.read_per_op_bytes cl)) (SRead fh st off n) = Ok (f', v) →
    f' = fs w ∧ sp_read s (fs w) fh st off (Z.min n (as_u32 (NfsClient.read_per_op_bytes cl))) = Ok v).
  { intros f' v. cbn [meaning]. unfold at_fh, unchanged. repeat case_match; try done. by intros [= <- <-]. }
  destruct r as [[data eof]|e]; cbn [refined] in Hr.
  - destruct (Hsame _ _ Hr) as [-> Hread]. split; [done|]. by eapply rd_read.
  - split; [|done]. destruct (RpcError.is_transport e).
    { destruct Hr as [->|[v Hv]]; [done|]. by destruct (Hsame _ _ Hv) as [-> _]. }
    destruct (_ =? 0); [by rewrite Hr|]. destruct Hr as [[-> _]|[_ [->|[? _]]]]; done.
Qed.

Lemma closes_view cl closes w fuel : 0 <= NfsClient.max_ops cl < USIZE_MAX → P (fs w) →
  (Z.of_nat (length closes) + 1) * (Z.of_nat (length closes) + 1) <= Z.of_nat fuel →
  ∃ cl' w', Lifecycle.close_path_or_defer rpc xdr_len fuel cl closes w = Done (cl', w') ∧ same_caps cl cl' ∧ P (fs w').
Proof.
  intros Hmax HP Hfuel.
  destruct (LifecycleLemmas.close_path_or_defer_spec s rpc fs Hrpc Himp xdr_len fuel cl closes w Hmax Hfuel)
    as (cl' & w' & E & Hs & _ & k & vs & Hans & _). exists cl', w'. split; [done|]. split; [done|]. clear E.
  generalize dependent (fs w). revert vs. induction (take k closes) as [|op ops IH]; intros vs f HP Hans; cbn [answers fmap list_fmap] in Hans.
  { by injection Hans as <- _. }
  destruct (closed s op f) as [[f1 []]|] eqn:Ec; [|done]. destruct (answers (closed s <$> ops) f1) as [[f2 vs2]|] eqn:Ea; [|done].
  injection Hans as -> _. apply (IH vs2 f1); [|exact Ea]. unfold closed, Mutations.step_of in Ec. cbn [meaning] in Ec.
  unfold at_fh, changed in Ec. repeat case_match; try done. injection Ec as <-. by eapply rd_close.
Qed.

(** Reading on where a READ stopped. *)
Lemma suffix_view cl fh st caller offset count w : 0 <= offset → 0 <= count → P (fs w) →
  ∃ r data cl' w',
    complete_read_suffix
      (λ c offset count, on_client (λ cl w, Single.read rpc xdr_len cl fh st offset (as_u32 count) w) c)
      (Some (cl, w)) caller offset count = Some (r, data, Some (cl', w')) ∧
    same_caps cl cl' ∧ P (fs w') ∧ match r with Ok eof => read_on fh offset count data eof | Err _ => True end.
Proof.
  intros Ho Hc HP. set (read := λ c offset count, on_client _ c).
  set (keeps := λ c : io_state (W := W), ∃ cl' w', c = Some (cl', w') ∧ same_caps cl cl' ∧ P (fs w')).
  unfold complete_read_suffix, checked_offset, checked_add. destruct (Z.leb_spec (offset + count) U64_MAX) as [Hle|Hgt]; cbn [ok_or].
  2:{ eexists _, _, _, _. split; [reflexivity|]. by split. }
  destruct (IoLemmas.read_loop_spec read (default [] (content fh)) keeps) with (fuel := S (Z.to_nat count)) (c := Some (cl, w))
    (log := @nil (Z * Z * RpcResult (bytes * bool))) (caller := caller) (offset := offset) (count := count) (received := 0)
    (eof := false) (out := @nil Byte.byte) as (r & out & c' & calls & Hloop & (cl' & w' & -> & Hs & HP') & _ & _ & Hres);
    [|lia|lia|lia|done|done|done|lia|by exists cl, w|].
  - intros c1 at_ n r c2 (cl1 & w1 & -> & Hs1 & HP1) Hr. unfold read, on_client in Hr.
    destruct (read_view cl1 fh st at_ (as_u32 n) w1 HP1) as (r1 & cl2 & w2 & E & Hs2 & HP2 & Hr1). rewrite E in Hr.
    injection Hr as <- <-. split; [|destruct r1 as [[]|]; [|done]; by destruct Hr1 as (c & -> & ?)].
    exists cl2, w2. split; [done|]. split; [|done]. etrans; [done|auto with vnfs].
  - apply IoLemmas.read_loop_untraced in Hloop. eexists _, _, _, _. split; [exact Hloop|]. split; [done|]. split; [done|].
    destruct r as [eof|]; [|done]. intros c Hfile. by rewrite Hfile in Hres.
Qed.

Lemma repair_view cl op caller offset count output w fuel :
  0 <= NfsClient.max_ops cl < USIZE_MAX → NfsClient.root cl = sp_root s → P (fs w) → 0 <= offset → 0 <= count →
  path_fuel (rp_file op) <= Z.of_nat fuel →
  ∃ r cl' w', repair_path_read rpc xdr_len verifier now fuel cl op caller offset count output w = Done (r, cl', w') ∧
    same_caps cl cl' ∧ P (fs w') ∧
    match r with
    | Ok (eof, out) => ∃ x data, file_of t (rp_file op) = Some x ∧ out = output ++ data ∧ read_on x offset count data eof
    | Err _ => True
    end.
Proof.
  intros Hmax Hroot HP Ho Hc Hfuel. unfold repair_path_read, with_path_io_repair_target.
  destruct (rp_file op) as [path|fh] eqn:Hfile; cbn [path_fuel file_of] in *.
  2:{ destruct (suffix_view cl fh (default SPECIAL_STATEID (rp_stateid op)) caller offset count w Ho Hc HP)
        as (r & data & cl' & w' & -> & Hs & HP' & Hr). eexists _, _, _. split; [reflexivity|]. split; [done|]. split; [done|].
      destruct r; [|done]. by exists fh, data. }
  destruct (split_path_bytes path) as [[parent name]|e] eqn:Hsplit.
  2:{ eexists _, _, _. split; [reflexivity|]. by split. }
  pose proof (EmitLemmas.split_size _ _ _ Hsplit).
  destruct (resolve_view cl parent w fuel Hmax Hroot HP) as (r & cl1 & w1 & -> & Hs1%SendLemmas.limits_caps & HP1 & Hr1); [nia|].
  cbn [mbind outcome_bind]. destruct r as [d|e]; [|eexists _, _, _; split; [reflexivity|]; by split].
  destruct (open_view cl1 d name OPEN4_SHARE_ACCESS_READ w1 fuel HP1) as (r & cl2 & w2 & -> & Hs2 & HP2 & Hr2).
  assert (Hs02 : same_caps cl cl2) by (by etrans).
  cbn [mbind outcome_bind]. destruct r as [[fh st]|e]; [|eexists _, _, _; split; [reflexivity|]; by split].
  destruct (suffix_view cl2 fh st caller offset count w2 Ho Hc HP2) as (r & data & cl3 & w3 & -> & Hs3 & HP3 & Hr3).
  cbn [mbind outcome_bind]. assert (Hs03 : same_caps cl cl3) by (by etrans).
  destruct (closes_view cl3 [Close fh st] w3 fuel) as (cl4 & w4 & -> & Hs4 & HP4); [by destruct Hs03 as [-> _]|done|cbn; nia|].
  cbn [mbind outcome_bind]. eexists _, _, _. split; [reflexivity|]. split; [by etrans|]. split; [done|]. destruct r; [|done].
  exists fh, data. split_and!; [|done|done]. unfold parent_of. rewrite Hsplit. cbn [result_ok mbind option_bind]. by rewrite Hr1.
Qed.
End Client.
End View.
End PathSpecLemmas.

(** The reference file service, as long as its tree and its files stay as they
    are: [up] gives the parents of the directories. *)
Module MemTree.
Definition is_dir (f : mem) (x : bytes) : bool := if nodes f !! x is Some (NDir _) then true else false.
Definition tree (f : mem) (up : bytes → option bytes) : fh_server :=
  FhServer (bstr "root") (λ d n, result_ok (MemFs.lookup f d n)) up (is_dir f) (λ d n, result_ok (MemFs.lookup f d n)) (λ _ _ _ _, None).
Definition content (f : mem) (x : bytes) : option bytes := if nodes f !! x is Some (NFile b) then Some b else None.
Definition shaped (f : mem) (up : bytes → option bytes) : Prop :=
  map_Forall (λ d nd, if nd is NDir m then map_Forall (λ _ x, is_dir f x = true → up x = Some d) m else True) (nodes f).

#[global] Instance shaped_dec f up : Decision (shaped f up).
Proof. unfold shaped. apply map_Forall_dec. intros d []; apply _. Defined.

Lemma lookup_dir f d n x : MemFs.lookup f d n = Ok x → ∃ m, nodes f !! d = Some (NDir m) ∧ m !! n = Some x.
Proof.
  unfold MemFs.lookup, MemFs.dir_at, MemFs.node_at. intros H. repeat (case_match; simplify_eq/=). eauto.
Qed.

Lemma shaped_tree f up : shaped f up → FhTree (tree f up).
Proof.
  intros Hsh. split; cbn; [| | |done].
  - intros d n x Hl. destruct (MemFs.lookup f d n) as [y|] eqn:E; [|done]. apply lookup_dir in E as (m & Hm & _). unfold is_dir. by rewrite Hm.
  - intros d n x Hl Hx. destruct (MemFs.lookup f d n) as [y|] eqn:E; [|done]. injection Hl as ->. apply lookup_dir in E as (m & Hm & Hn).
    by apply (Hsh _ _ Hm _ _ Hn).
  - intros d n x Hl. destruct (MemFs.lookup f d n) as [y|] eqn:E; [|done]. apply lookup_dir in E as (m & Hm & _). unfold is_dir. by rewrite Hm.
Qed.

Lemma lookup_nodes f g d n : nodes g = nodes f → MemFs.lookup g d n = MemFs.lookup f d n.
Proof. unfold MemFs.lookup, MemFs.dir_at, MemFs.node_at. by intros ->. Qed.

Lemma mem_readable f up : shaped f up → readable MemFs.spec (tree f up) (content f) (λ g, nodes g = nodes f).
Proof.
  intros Hsh. split; [by apply shaped_tree|done|..]; cbn.
  - intros g d n x Hg Hl. rewrite (lookup_nodes f g) in Hl by done. by rewrite Hl.
  - done.
  - intros g d a n g' x st mask Hg Hc Ho. unfold MemFs.open. rewrite Hc, Ho, (lookup_nodes f g) by done.
    destruct (MemFs.lookup f d n); [|done]. cbn. by intros [= <- <- _ _].
  - intros g x q st g' Hg. unfold MemFs.close. case_bool_decide; [|done]. by intros [= <-].
  - intros g x st off k data eof Hg. change nfs_fh4 with bytes in x. unfold MemFs.read, MemFs.node_at, content. rewrite Hg.
    destruct (nodes f !! x) as [[b| |]|]; [|done..]. destruct (Z.ltb_spec off 0); [done|]. intros [= <- <-].
    exists b. split; [done|]. unfold slice. rewrite skipn_firstn_comm. split; [apply prefix_take|]. rewrite Z.leb_le, length_take, length_drop. lia.
Qed.
End MemTree.
