(* ===== verification/PathFill.v ===== *)
(** * Building the compound of a read by path

    What [fill_reads] appends to a compound: for every item taken, the operations
    that lead to its file (from wherever the item before left the filehandles)
    and its READs, noted as one range of the execution map. *)
From stdpp Require Import base numbers countable list list_numbers gmap strings.
From S2P Require Import Prelude Path Errors Types Planner Compound Session Cursor Client IoProgress Loops Exchange Server Batch BatchOps Resolve Single BatchSpec Mutations Opens Lifecycle Merged PathIo PathSpec.

(** The READs of one item from [part] on. *)
Fixpoint read_ops (stateid : stateid4) (offset part : Z) (lens : list Z) : list argop :=
  match lens with
  | [] => []
  | len :: lens => ARead stateid (offset + part) (as_u32 len) :: read_ops stateid offset (part + len) lens
  end.

(** The lengths of the READs of a span; an empty span still has one. *)
Definition span_lens (start end_ per_op : Z) : list Z :=
  if start <? end_ then chunk_lens start end_ per_op else [0].

(** What one item contributes to a chunk. *)
Record piece := Piece { pc_op : PathReadOp; pc_start : Z; pc_end : Z; pc_nav : list argop }.

Definition piece_lens (per_op : Z) (p : piece) : list Z := span_lens (pc_start p) (pc_end p) per_op.
Definition piece_reads (per_op : Z) (p : piece) : list argop :=
  read_ops (io_stateid (rp_file (pc_op p)) (rp_stateid (pc_op p))) (rp_offset (pc_op p)) (pc_start p) (piece_lens per_op p).
Definition piece_ops (per_op : Z) (p : piece) : list argop := pc_nav p ++ piece_reads per_op p.

(** The spans of consecutive items: the first one goes on at [start], and all
    but the last are complete. *)
Fixpoint spans (start : Z) (ps : list piece) : Prop :=
  match ps with
  | [] => True
  | p :: ps =>
      pc_start p = start ∧ start <= pc_end p <= rp_count (pc_op p) ∧ (start < rp_count (pc_op p) → start < pc_end p) ∧
      (ps ≠ [] → pc_end p = rp_count (pc_op p)) ∧ spans 0 ps
  end.

(** Where the items stand after them: the item, and how far into it. *)
Fixpoint ends (g start : Z) (ps : list piece) : Z * Z :=
  match ps with
  | [] => (g, start)
  | p :: ps => if pc_end p =? rp_count (pc_op p) then ends (g + 1) 0 ps else (g, pc_end p)
  end.

(** A path with a final component. *)
Definition valid_file (file : FileRef) : Prop :=
  match file with FPath p => is_Some (result_ok (split_path_bytes p)) | FHandle _ => True end.

Module PathFillLemmas.
Import CfhCursor CursorLemmas EmitLemmas GroupLemmas ServerLemmas SingleLemmas PathSpecLemmas.

(** Where the items stand before and after the item at position [j]. *)
Lemma spans_at g start ps j p : spans start ps → ps !! j = Some p →
  ends g start (take j ps) = (g + Z.of_nat j, pc_start p) ∧
  ends g start (take (S j) ps) =
    (if pc_end p =? rp_count (pc_op p) then (g + Z.of_nat j + 1, 0) else (g + Z.of_nat j, pc_end p)) ∧
  pc_start p <= pc_end p <= rp_count (pc_op p) ∧ (pc_start p < rp_count (pc_op p) → pc_start p < pc_end p) ∧
  (0 <= start → 0 <= pc_start p).
Proof.
  revert g start j. induction ps as [|q ps IH]; intros g start j; [done|]. intros (H1 & H2 & H3 & H4 & H5) Hj.
  destruct j as [|j]; cbn [lookup list_lookup] in Hj.
  - injection Hj as ->. cbn [take ends]. rewrite take_0, H1. cbn [ends Z.of_nat]. rewrite Z.add_0_r. split_and!; [done|by case_match|lia..].
  - change (list_lookup j ps) with (ps !! j) in Hj. assert (Hne : ps ≠ []) by (by intros ->). specialize (H4 Hne).
    destruct (IH (g + 1) 0 j H5 Hj) as (E1 & E2 & E3 & E4 & E5).
    rewrite firstn_cons. cbn [ends]. rewrite (proj2 (Z.eqb_eq _ _) H4), E1.
    change (take (S (S j)) (q :: ps)) with (q :: take (S j) ps). cbn [ends]. rewrite (proj2 (Z.eqb_eq _ _) H4), E2.
    replace (g + Z.of_nat (S j)) with (g + 1 + Z.of_nat j) by lia. split_and!; try done; try lia.
Qed.

(** The operations in front of the READs. *)
Definition leading (op : argop) : bool := reading op && negb (argop_num op =? OP_READ).

Lemma leading_reading ops : Forall leading ops → Forall reading ops.
Proof. intros H. eapply Forall_impl; [exact H|]. intros op Hop. by apply andb_True in Hop as [? _]. Qed.

Lemma walks_leading ops : Forall (λ op, walks op ∨ op = ASaveFh) ops → Forall leading ops ∧ Forall moving ops.
Proof. intros H. split; (eapply Forall_impl; [exact H|]); by intros [] []. Qed.

Section Target.
Context {F : Type} (s : nfs_spec F) (tr : fh_server) (content : nfs_fh4 → option bytes) (P : F → Prop).
Context (Hview : readable s tr content P).
#[local] Instance tree_laws : FhTree tr := rd_tree _ _ _ _ Hview.

(** The filehandles are where the builder believes them to be. *)
Record at_target (cursor : CfhCursor.t) (opened : option bytes) (at_opened : bool) (m : machine F) : Prop := {
  at_kept : P (mc_fs m);
  at_tracks : tracks tr cursor (slots m);
  at_opened_path p : opened = Some p → at_opened = true → ∃ x, file_of tr (FPath p) = Some x ∧ mc_cur m = Some x;
}.

(** The CLOSE before the filehandle leaves an open file. *)
Lemma leave_opened_ok cic t :
  ∃ ops, extends (tg_building t) (tg_building (leave_opened cic t)) ops ∧ Forall leading ops ∧ (length ops <= 1)%nat ∧
    b_cursor (tg_building (leave_opened cic t)) = b_cursor (tg_building t) ∧
    ∀ m m' rs, P (mc_fs m) → spec_steps s m ops = Some (m', rs) → P (mc_fs m') ∧ slots m' = slots m.
Proof.
  unfold leave_opened. destruct (_ && _ && _).
  - exists [AClose (st_seqid SPECIAL_STATEID) SPECIAL_STATEID]. split; [by apply extends_add|]. split; [by repeat constructor|].
    split; [done|]. split; [done|]. intros [f c sv] m' rs HP. cbn. unfold need. destruct c as [x|]; [|done].
    unfold keep_fs. destruct (sp_close s f x _ _) as [f'|] eqn:E; [|done]. intros [= <- _]. split; [|done]. by eapply rd_close.
  - exists []. split; [apply extends_refl|]. split; [done|]. split; [cbn; lia|]. split; [done|]. by intros m m' rs HP [= <- _].
Qed.

(** How long the way to a file can be. *)
Definition way (file : FileRef) : Z := match file with FPath p => Z.of_nat (length p) + 6 | FHandle _ => 2 end.

Lemma open_step_view m leaf m' r seqid access deny cid owner :
  P (mc_fs m) → spec_step s m (AOpen (OpenArgs seqid access deny cid owner NoCreate (ClaimNull leaf))) = Ok (m', r) →
  P (mc_fs m') ∧ mc_sav m' = mc_sav m ∧ ∃ d x, mc_cur m = Some d ∧ mc_cur m' = Some x ∧ fh_lookup tr d leaf = Some x.
Proof.
  destruct m as [f c sv]. intros HP. cbn [mc_fs mc_cur mc_sav spec_step]. unfold need. destruct c as [d|]; [|done].
  destruct (sp_open s f d _) as [[f' [[x st] mask]]|] eqn:E; [|done]. intros [= <- _]. cbn.
  edestruct (rd_open _ _ _ _ Hview) as [HP' Hx]; [exact HP| | |exact E|]; [reflexivity..|]. split; [done|]. split; [done|]. by exists d, x.
Qed.
(** The OPEN of a path, with or without the GETFH after it. *)
Definition opening (cic : bool) (args : OPEN4args) : list argop := AOpen args :: if cic then [] else [AGetFh].

Lemma opening_view cic path dir leaf d seqid access deny cid owner m m' rs :
  P (mc_fs m) → slots m = Fhs (Some d) (Some d) → split_path_bytes path = Ok (dir, leaf) → resolve_dir tr dir = Some d →
  spec_steps s m (opening cic (OpenArgs seqid access deny cid owner NoCreate (ClaimNull leaf))) = Some (m', rs) →
  ∃ x, file_of tr (FPath path) = Some x ∧ mc_cur m' = Some x ∧ at_target (descend (Make (Some dir) true)) (Some path) true m'.
Proof.
  intros HP Hm Hs Hd. unfold opening. cbn [spec_steps].
  destruct (spec_step s m _) as [[m1 r1]|] eqn:E1; [|done]. intros ([m2 r2] & H2 & [= <- _])%bind_Some.
  destruct (open_step_view _ _ _ _ _ _ _ _ _ HP E1) as (HP1 & Hsav & d' & x & Hcur & Hcur1 & Hx).
  assert (m2 = m1) as ->.
  { destruct cic; cbn in H2; [by injection H2 as <-|]. destruct m1 as [f1 c1 s1]. cbn in Hcur1. subst c1. cbn in H2. by injection H2 as <-. }
  unfold slots in Hm. injection Hm as Hm1 Hm2. rewrite Hm1 in Hcur. injection Hcur as <-. rewrite Hm2 in Hsav.
  assert (Hfile : file_of tr (FPath path) = Some x).
  { cbn. unfold parent_of. rewrite Hs. cbn. by rewrite Hd. }
  exists x. split; [done|]. split; [done|]. split; [done| |].
  - unfold slots. rewrite Hcur1, Hsav. apply (tracks_descend tr (Make (Some dir) true) (Fhs (Some d) (Some d))), tracks_here; [done|].
    by eapply lookup_in_dir.
  - intros p [= <-] _. by exists x.
Qed.

Lemma prepare_ok cl cic base access file t newly t' :
  prepare_path_io_target cl cic base file (IoOpen access ONoCreate false false) t = (Some newly, t') →
  ∃ nav, extends (tg_building t) (tg_building t') nav ∧ Forall leading nav ∧ Z.of_nat (length nav) <= way file ∧
    ∀ m m' rs, at_target (b_cursor (tg_building t)) (tg_opened_path t) (tg_fh_at_opened t) m →
      spec_steps s m nav = Some (m', rs) →
      ∃ x, file_of tr file = Some x ∧ mc_cur m' = Some x ∧
        at_target (if newly then descend (b_cursor (tg_building t')) else b_cursor (tg_building t'))
          (tg_opened_path t') (tg_fh_at_opened t') m'.
Proof.
  unfold prepare_path_io_target. destruct (leave_opened_ok cic t) as (ops1 & Hx1 & Hl1 & Hlen1 & Hcur1 & Hrun1).
  destruct file as [path|fh].
  - destruct (bool_decide _ && _) eqn:Hsame.
    { apply andb_true_iff in Hsame as [Hsame%bool_decide_eq_true Hat]. intros [= <- <-].
      exists []. split; [apply extends_refl|]. split; [done|]. split; [cbn; lia|].
      intros m m' rs Ht [= <- _]. destruct (at_opened_path _ _ _ _ Ht path Hsame Hat) as (x & Hx & Hcur). by exists x. }
    pose proof (at_parent_shape (tg_building (leave_opened cic t)) path) as Hp.
    destruct (split_path_bytes path) as [[dir leaf]|e] eqn:Hs; cbn [result_ok] in Hp; [|by rewrite Hp].
    destruct Hp as (b2 & ops2 & Hat2 & Hx2 & Hcur2 & Hw2 & Hlen2). rewrite Hat2. intros [= <- <-].
    pose proof (split_size _ _ _ Hs). cbn [tg_building tg_opened_path tg_fh_at_opened io_truncate_existing io_truncate_create].
    set (seqid := wrapping_add32 _ _). set (args := OpenArgs seqid access OPEN4_SHARE_DENY_NONE (clientid cl)
      (ow_name (Single.path_owner cl)) NoCreate (ClaimNull leaf)).
    exists (ops1 ++ ops2 ++ opening cic args). destruct (walks_leading _ Hw2) as [Hl2 Hm2]. split_and!.
    + eapply extends_trans; [exact Hx1|]. eapply extends_trans; [exact Hx2|]. unfold opening. destruct cic; [by apply extends_add|].
      change [AOpen args; AGetFh] with ([AOpen args] ++ [AGetFh]). eapply extends_trans; by apply extends_add.
    + apply Forall_app. split; [done|]. apply Forall_app. split; [done|]. by destruct cic; repeat constructor.
    + rewrite !length_app. unfold opening. destruct cic; cbn [way length]; lia.
    + intros m m' rs [HP Htr Ho]. rewrite spec_steps_app. intros ([m1 r1] & H1 & ([m2 r2] & H2 & [= <- _])%bind_Some)%bind_Some.
      rewrite spec_steps_app in H2. apply bind_Some in H2 as ([m3 r3] & H3 & ([m4 r4] & H4 & [= <- _])%bind_Some).
      destruct (Hrun1 _ _ _ HP H1) as [HP1 Hsl]. destruct (moving_steps s tr content P Hview _ _ _ _ HP1 Hm2 H3) as [HP3 Hfh].
      destruct (parent_run tr (tg_building (leave_opened cic t)) path dir leaf b2 ops2 (slots m1) (slots m3) []) as (d & Hd & Hm3);
        [by rewrite Hcur1, Hsl|done|done|done|by rewrite path_run_walks, Hfh|].
      destruct (opening_view cic path dir leaf d _ _ _ _ _ m3 m4 r4 HP3 Hm3 Hs Hd H4) as (x & Hx & Hc & Hat4).
      exists x. split; [done|]. split; [done|]. destruct cic; cbn; by rewrite Hcur2.
  - destruct (set_handle _ _ _) as [cursor c] eqn:Hset. unfold set_handle in Hset. injection Hset as <- <-. intros [= <- <-].
    exists (ops1 ++ [APutFh fh]). cbn [tg_building tg_opened_path tg_fh_at_opened b_cursor note]. split_and!.
    + eapply extends_trans; [exact Hx1|]. by split; cbn.
    + apply Forall_app. split; [done|]. by repeat constructor.
    + rewrite length_app. cbn. lia.
    + intros m m' rs [HP Htr Ho]. rewrite spec_steps_app. intros ([m1 r1] & H1 & ([m2 r2] & H2 & [= <- _])%bind_Some)%bind_Some.
      destruct (Hrun1 _ _ _ HP H1) as [HP1 Hsl].
      destruct m1 as [f1 c1 s1]. cbn in H2. destruct (sp_putfh s f1 fh); [|done]. injection H2 as <- _.
      exists fh. split; [done|]. split; [done|]. split; [done| |done]. rewrite Hcur1. unfold slots in *. cbn in *. injection Hsl as -> ->.
      apply (tracks_descend tr (b_cursor (tg_building t)) (Fhs (mc_cur m) (mc_sav m)) (Some fh)), Htr.
Qed.

Lemma prepare_valid cl cic base open_ file t : valid_file file →
  ∃ newly t', prepare_path_io_target cl cic base file open_ t = (Some newly, t').
Proof.
  intros Hv. unfold prepare_path_io_target. destruct file as [path|fh]; [|eauto].
  destruct (_ && _); [eauto|]. pose proof (at_parent_shape (tg_building (leave_opened cic t)) path) as Hp.
  destruct Hv as [[dir leaf] Hv]. rewrite Hv in Hp. destruct Hp as (b2 & ops2 & -> & _). eauto.
Qed.

Lemma add_reads_ok st offset index part lens b expected b' expected' :
  add_reads st offset index part lens b expected = Ok (b', expected') →
  extends b b' (read_ops st offset part lens) ∧ expected' = expected ++ lens ∧ b_cursor b' = b_cursor b ∧
  Forall (λ l, l <= U32_MAX) lens.
Proof.
  revert part b expected. induction lens as [|len lens IH]; intros part b expected; cbn [add_reads read_ops].
  { intros [= <- <-]. rewrite app_nil_r. split; [apply extends_refl|done]. }
  unfold record_expected_read_length. destruct (_ <? _); [|done]. destruct (Z.leb_spec len U32_MAX); [|done].
  unfold checked_offset, checked_add. destruct (Z.leb_spec (offset + part) U64_MAX); [|done]. cbn [ok_or].
  intros H'. apply IH in H' as (Hex & -> & Hcur & Hall). rewrite <-app_assoc. split_and!; [|done|done|by constructor].
  change (?x :: ?l) with ([x] ++ l). eapply extends_trans; [|exact Hex]. by apply extends_add.
Qed.

Lemma read_ops_run m st offset part lens m' rs : spec_steps s m (read_ops st offset part lens) = Some (m', rs) → m' = m.
Proof.
  revert part rs. induction lens as [|len lens IH]; intros part rs; cbn [read_ops spec_steps]; [by intros [= <- _]|].
  destruct (spec_step s m _) as [[m1 r1]|] eqn:E; [|done]. intros ([m2 r2] & H2 & [= <- _])%bind_Some.
  assert (m1 = m) as ->; [|by eapply IH]. destruct m as [f c sv]. cbn in E. unfold need, keep_fh in E. by repeat case_match; simplify_eq.
Qed.

Lemma read_ops_length st offset part lens : length (read_ops st offset part lens) = length lens.
Proof. revert part. induction lens as [|len lens IH]; intros part; cbn; [done|]. by rewrite IH. Qed.

Section Fill.
Context (cl : NfsClient.t) (cic : bool) (base per_op budget mx n : Z).

(** What [fill_reads] did. *)
Record filled_reads (t t' : PathIoTarget) (items : list PathReadOp) (g start : Z) (pos : Z * Z) (expected expected' : list Z)
    (ps : list piece) : Prop := {
  fr_ops : Compound.ops (b_compound (tg_building t')) =
    Compound.ops (b_compound (tg_building t)) ++ mjoin (piece_ops per_op <$> ps);
  fr_cache : Compound.size_check (b_compound (tg_building t)) = None → Compound.size_check (b_compound (tg_building t')) = None;
  fr_ranges : ExecutionMap.ranges (b_map (tg_building t')) =
    ExecutionMap.ranges (b_map (tg_building t)) ++ group_ranges g (tg_next t) (piece_ops per_op <$> ps);
  fr_next : tg_next t' = tg_next t + Z.of_nat (length (mjoin (piece_ops per_op <$> ps)));
  fr_expected : expected' = expected ++ mjoin (piece_lens per_op <$> ps);
  fr_items : pc_op <$> ps = take (length ps) items;
  fr_spans : spans start ps;
  fr_pos : pos = ends g start ps;
  fr_pieces : Forall (λ p, Forall leading (pc_nav p) ∧ Forall (λ l, 0 <= l <= U32_MAX) (piece_lens per_op p) ∧
    piece_lens per_op p ≠ [] ∧ ChunkLemmas.total_len (piece_lens per_op p) = pc_end p - pc_start p) ps;
  fr_at i p m m' rs : ps !! i = Some p → at_target (b_cursor (tg_building t)) (tg_opened_path t) (tg_fh_at_opened t) m →
    spec_steps s m (mjoin (piece_ops per_op <$> take i ps) ++ pc_nav p) = Some (m', rs) →
    P (mc_fs m') ∧ ∃ x, file_of tr (rp_file (pc_op p)) = Some x ∧ mc_cur m' = Some x;
}.

Lemma filled_reads_none t items g start expected : filled_reads t t items g start (g, start) expected expected [].
Proof. split; cbn; rewrite ?app_nil_r; try done; try lia. Qed.

Lemma filled_reads_count t t' items g start pos expected expected' ps :
  filled_reads t t' items g start pos expected expected' ps → tg_items t' = tg_items t + Z.of_nat (length ps).
Proof. intros Hf. unfold tg_items. rewrite (fr_ranges _ _ _ _ _ _ _ _ _ Hf), length_app, group_ranges_length, length_fmap. lia. Qed.

Lemma span_lens_spec start end_ : 0 < per_op → start <= end_ →
  span_lens start end_ per_op ≠ [] ∧ Forall (λ l, 0 <= l) (span_lens start end_ per_op) ∧
  ChunkLemmas.total_len (span_lens start end_ per_op) = end_ - start.
Proof.
  intros Hp Hle. unfold span_lens. destruct (Z.ltb_spec start end_).
  - destruct (ChunkLemmas.chunk_lens_spec start end_ per_op Hp Hle) as (H1 & H2 & H3). split_and!; [|eapply Forall_impl; [exact H2|cbn; lia]|done].
    rewrite ChunkLemmas.chunk_lens_cons by lia. done.
  - split_and!; [done|by repeat constructor|cbn; lia].
Qed.

(** One more item in front. *)
Lemma filled_reads_cons op items t t1 t' g start end_ newly b expected expected1 expected' pos1 ps :
  0 < per_op →
  prepare_path_io_target cl cic base (rp_file op) (IoOpen OPEN4_SHARE_ACCESS_READ ONoCreate false false) (begin_item t g)
    = (Some newly, t1) →
  add_reads (io_stateid (rp_file op) (rp_stateid op)) (rp_offset op) g start (span_lens start end_ per_op) (tg_building t1) expected
    = Ok (b, expected1) →
  start <= end_ <= rp_count op → (start < rp_count op → start < end_) → (ps ≠ [] → end_ = rp_count op) →
  tg_next t + way (rp_file op) + Z.of_nat (length (span_lens start end_ per_op)) <= U64_MAX →
  filled_reads (finish_item newly (with_building t1 b)) t' items (g + 1) 0 pos1 expected1 expected' ps →
  ∃ nav, filled_reads t t' (op :: items) g start (if end_ =? rp_count op then pos1 else (g, end_)) expected expected'
    (Piece op start end_ nav :: ps).
Proof.
  intros Hper Hprep Hadd Hse Hgo Hlast Hbig [F1 F2 F3 F4 F5 F6 F7 F8 F9 F10].
  destruct (prepare_ok _ _ _ _ _ _ _ _ Hprep) as (nav & Hx1 & Hl1 & Hlen1 & Hat1). exists nav.
  apply add_reads_ok in Hadd as (Hx2 & -> & Hcur2 & H32). set (p := Piece op start end_ nav).
  destruct (span_lens_spec start end_ Hper ltac:(lia)) as (Hne & Hpos & Htot).
  assert (Hex : extends (tg_building (begin_item t g)) b (piece_ops per_op p)) by (eapply extends_trans; [exact Hx1|exact Hx2]).
  assert (Hlen : Z.of_nat (length (piece_ops per_op p)) <= way (rp_file op) + Z.of_nat (length (span_lens start end_ per_op))).
  { unfold piece_ops, piece_reads, piece_lens. rewrite length_app, read_ops_length. cbn. lia. }
  destruct (MergedLemmas.item_noted _ _ _ _ Hex ltac:(unfold tg_next in *; lia)) as [Hn2 Hr2]. fold (tg_next t) in Hn2, Hr2.
  assert (Hb : b_compound (tg_building (finish_item newly (with_building t1 b))) = b_compound b ∧
    b_map (tg_building (finish_item newly (with_building t1 b))) = ExecutionMap.end_ (b_map b)) by (by destruct newly).
  destruct Hb as [Hbc Hbm]. rewrite Hbc in F1, F2. rewrite Hbm in F3. unfold tg_next at 1 in F3. rewrite Hbm, Hn2 in F3.
  unfold tg_next at 2 in F4. rewrite Hbm, Hn2 in F4.
  split; cbn [fmap list_fmap length]; change (piece_ops per_op <$> p :: ps) with (piece_ops per_op p :: (piece_ops per_op <$> ps));
    rewrite ?mjoin_cons.
  - rewrite F1, (ex_ops _ _ _ Hex). cbn. by rewrite <-app_assoc.
  - intros H. apply F2, (ex_cache _ _ _ Hex). exact H.
  - rewrite F3, Hr2, <-app_assoc. done.
  - lengths.
  - rewrite F5, <-app_assoc. done.
  - cbn. by rewrite F6.
  - cbn. split_and!; try done; lia.
  - cbn. by rewrite F8.
  - constructor; [|done]. split; [done|]. split; [|by split].
    apply Forall_and. by split.
  - intros [|i] q m m' rs Hq Hm Hrun; cbn [take lookup list_lookup] in Hq.
    + injection Hq as <-. cbn in Hrun. destruct (Hat1 m m' rs Hm Hrun) as (x & Hx & Hc & [HP _ _]). eauto.
    + cbn [take] in Hrun. change (piece_ops per_op <$> p :: take i ps) with (piece_ops per_op p :: (piece_ops per_op <$> take i ps)) in Hrun.
      rewrite mjoin_cons, <-app_assoc, spec_steps_app in Hrun. apply bind_Some in Hrun as ([m1 r1] & H1 & ([m2 r2] & H2 & [= <- _])%bind_Some).
      unfold piece_ops in H1. rewrite spec_steps_app in H1. apply bind_Some in H1 as ([m3 r3] & H3 & ([m4 r4] & H4 & [= <- _])%bind_Some).
      destruct (Hat1 m m3 r3 Hm H3) as (x & Hx & Hc & Hat3). apply read_ops_run in H4 as ->.
      apply (F10 i q m3 m2 r2 Hq); [|exact H2]. destruct newly; cbn in *; by rewrite Hcur2.
Qed.

Lemma fill_reads_ok items t g start payload expected f :
  fill_reads cl cic base per_op budget mx n items (ReadFilling t g start payload expected None) = Ok f →
  0 < per_op → 0 <= budget <= U32_MAX → 1 <= tg_next t → 0 <= start → 0 <= payload →
  Forall (λ op, valid_file (rp_file op) ∧ way (rp_file op) <= I64_MAX ∧ 0 <= rp_count op) items →
  (∀ op, head items = Some op → start <= rp_count op) →
  ∃ ps, filled_reads t (rf_target f) items g start (rf_global f, rf_part f) expected (rf_expected f) ps ∧
    rf_failed f = None ∧ tg_items t + Z.of_nat (length ps) <= Z.max mx (tg_items t).
Proof.
  intros Hfill Hper Hbud. revert t g start payload expected Hfill.
  induction items as [|op items IH]; intros t g start payload expected Hfill Hnext Hstart Hpay Hall Hhead; cbn [fill_reads] in Hfill.
  { injection Hfill as <-. exists []. split; [apply filled_reads_none|]. cbn. split; [done|lia]. }
  destruct (_ && _) eqn:Eguard; [|injection Hfill as <-; exists []; split; [apply filled_reads_none|cbn; split; [done|lia]]].
  apply andb_true_iff in Eguard as [Emx%Z.ltb_lt Ebud%Z.leb_le]. unfold path_io_per_file in *.
  apply Forall_cons in Hall as [(Hv & Hway & Hcount) Hall]. specialize (Hhead op eq_refl).
  pose proof (ChunkLemmas.chunk_end_spec start (rp_count op) per_op (read_room cl payload) (sat_sub budget (tg_next t + 3))
    ((tg_next t =? 0) && (payload =? 0)) Hper ltac:(lia)) as Hend.
  destruct (path_io_chunk_end _ _ _ _ _ _) as [end_|]; [|injection Hfill as <-; exists []; split; [apply filled_reads_none|cbn; split; [done|lia]]].
  destruct Hend as (Hse & Hgo & _ & _ & Hlens); [unfold read_room; repeat case_match; unfold sat_sub, NfsClient.read_compound_bytes, response_payload_budget, USIZE_MAX, U64_MAX; lia|unfold sat_sub; lia|].
  assert (Hl : Z.of_nat (length (span_lens start end_ per_op)) <= budget).
  { unfold span_lens. destruct (start <? end_); [|cbn; lia]. destruct Hlens as [[Hl _]|[Hf _]]; [unfold sat_sub in Hl; lia|].
    apply andb_true_iff in Hf as [?%Z.eqb_eq _]. lia. }
  destruct (prepare_valid cl cic base (IoOpen OPEN4_SHARE_ACCESS_READ ONoCreate false false) (rp_file op) (begin_item t g) Hv)
    as (newly & t1 & Hprep). rewrite Hprep in Hfill. fold (span_lens start end_ per_op) in Hfill.
  destruct (add_reads _ _ _ _ _ _ _) as [[b expected1]|] eqn:Hadd; [|done].
  set (t2 := finish_item newly (with_building t1 b)) in *.
  assert (Hbig : tg_next t + way (rp_file op) + Z.of_nat (length (span_lens start end_ per_op)) <= U64_MAX)
    by (unfold U64_MAX, I64_MAX, U32_MAX in *; lia).
  destruct (filled_reads_cons op items t t1 t2 g start end_ newly b expected expected1 expected1 (g + 1, 0) [])
    as [nav Hone]; [done..|apply filled_reads_none|].
  pose proof (filled_reads_count _ _ _ _ _ _ _ _ _ Hone) as Hcount1. cbn [length] in Hcount1.
  pose proof (fr_next _ _ _ _ _ _ _ _ _ Hone) as Hnext1.
  destruct (Z.eqb_spec end_ (rp_count op)) as [Hfull|Hpart].
  2:{ injection Hfill as <-. eexists. split; [exact Hone|]. split; [done|]. cbn. lia. }
  destruct (_ && _).
  { injection Hfill as <-. eexists. split; [exact Hone|]. split; [done|]. cbn. lia. }
  destruct (IH t2 (g + 1) 0 (payload + 128 + (end_ - start)) expected1 Hfill) as (ps & Hps & Hnone & Hmx); [lia|lia|lia|done| |].
  { intros op' Hop'. destruct items as [|o items']; [done|]. injection Hop' as <-. by apply Forall_cons in Hall as [(_ & _ & ?) _]. }
  destruct (filled_reads_cons op items t t1 (rf_target f) g start end_ newly b expected expected1 (rf_expected f) (rf_global f, rf_part f) ps)
    as [nav' Hf]; [done..|]. rewrite (proj2 (Z.eqb_eq _ _) Hfull) in Hf. eexists. split; [exact Hf|]. split; [done|]. cbn. lia.
Qed.
End Fill.
End Target.
End PathFillLemmas.
