(* ===== verification/PathCollect.v ===== *)
(** * What the replies to a read by path give

    The decoding loop of [readv_path_compound]: what the READs of a reply add to
    the outcome of the items, short ones completed. *)
From stdpp Require Import base numbers countable list list_numbers gmap strings.
From S2P Require Import Prelude Path Errors Types Planner Compound Session Cursor Client IoProgress Loops Exchange Server Batch BatchOps Resolve Single BatchSpec Mutations Opens Lifecycle Merged PathIo PathSpec PathFill.

Section Outcome.
Context (tr : fh_server) (content : nfs_fh4 → option bytes).

(** The first [part] bytes of an item are in; fewer when the file ends before. *)
Definition has (op : PathReadOp) (part : Z) (d : option bytes) (e : option bool) : Prop :=
  ∃ x c db eb, d = Some db ∧ e = Some eb ∧ file_of tr (rp_file op) = Some x ∧ content x = Some c ∧
    db = take (Z.to_nat part) (drop (Z.to_nat (rp_offset op)) c) ∧
    (eb = false → Z.of_nat (length db) = part) ∧
    (eb = true → Z.of_nat (length c) <= rp_offset op + Z.of_nat (length db)).

Definition sofar (part : Z) (op : PathReadOp) (d : option bytes) (e : option bool) : Prop :=
  d = None ∧ e = None ∧ part = 0 ∨ has op part d e.

(** The items before [g] are complete, [Q] holds of that one, and there is
    nothing of the later ones. *)
Definition standing (ops : list PathReadOp) (g : Z) (Q : PathReadOp → option bytes → option bool → Prop)
    (data : list (option bytes)) (eofs : list (option bool)) : Prop :=
  length data = length ops ∧ length eofs = length ops ∧
  ∀ i op d e, ops !! i = Some op → data !! i = Some d → eofs !! i = Some e →
    if Z.of_nat i <? g then has op (rp_count op) d e
    else if Z.of_nat i =? g then Q op d e else d = None ∧ e = None.
End Outcome.

Module PathCollectLemmas.
Import ExchangeLemmas ServerLemmas SingleLemmas GroupLemmas PathSpecLemmas PathFillLemmas.

Section Standing.
Context (tr : fh_server) (content : nfs_fh4 → option bytes) (ops : list PathReadOp).

Lemma has_sofar op part d e : has tr content op part d e → sofar tr content part op d e.
Proof. by right. Qed.

(** More bytes of the same file. *)
Lemma has_extend op x c part len (db bs : bytes) eof :
  file_of tr (rp_file op) = Some x → content x = Some c → 0 <= rp_offset op → 0 <= part →
  db = take (Z.to_nat part) (drop (Z.to_nat (rp_offset op)) c) → Z.of_nat (length db) = part →
  bs `prefix_of` drop (Z.to_nat (rp_offset op + part)) c → Z.of_nat (length bs) <= len →
  (eof = false → Z.of_nat (length bs) = len) →
  (eof = true → Z.of_nat (length c) <= rp_offset op + part + Z.of_nat (length bs)) →
  has tr content op (part + len) (Some (db ++ bs)) (Some eof).
Proof.
  intros Hx Hc Ho Hp Hdb Hl Hpre Hle Hfull Hend. exists x, c, (db ++ bs), eof. split_and!; [done..| | |].
  - rewrite Hdb, IoLemmas.take_extend.
    2:{ rewrite drop_drop. by replace (Z.to_nat (rp_offset op) + Z.to_nat part)%nat with (Z.to_nat (rp_offset op + part)) by lia. }
    destruct eof; [|specialize (Hfull eq_refl); f_equal; lia]. specialize (Hend eq_refl).
    rewrite !take_ge; [done|lengths..].
  - intros E. rewrite length_app. specialize (Hfull E). lia.
  - intros E. rewrite length_app. specialize (Hend E). lia.
Qed.

(** Nothing follows the end of the file. *)
Lemma has_ended op part len d : 0 <= len → 0 <= part → 0 <= rp_offset op → has tr content op part d (Some true) → has tr content op (part + len) d (Some true).
Proof.
  intros Hl Hp Ho (x & c & db & eb & -> & [= <-] & Hx & Hc & Hdb & _ & Hend). specialize (Hend eq_refl).
  exists x, c, db, true. split_and!; try done. rewrite Hdb in Hend |- *. rewrite length_take, length_drop in Hend.
  rewrite !take_ge; [done|lengths..].
Qed.

Lemma standing_next g data eofs op : 0 <= g → ops !! Z.to_nat g = Some op →
  standing tr content ops g (λ op, has tr content op (rp_count op)) data eofs →
  standing tr content ops (g + 1) (sofar tr content 0) data eofs.
Proof.
  intros Hg Hop (H1 & H2 & H3). split; [done|]. split; [done|]. intros i o d e Ho Hd He. specialize (H3 i o d e Ho Hd He).
  destruct (Z.ltb_spec (Z.of_nat i) g); [by replace (Z.of_nat i <? g + 1) with true by lia|].
  destruct (Z.eqb_spec (Z.of_nat i) g); [by replace (Z.of_nat i <? g + 1) with true by lia|].
  replace (Z.of_nat i <? g + 1) with false by lia. destruct H3 as [-> ->]. case_match; [by left|done].
Qed.

Lemma standing_impl g Q Q' data eofs : (∀ op d e, ops !! Z.to_nat g = Some op → data !! Z.to_nat g = Some d → eofs !! Z.to_nat g = Some e → Q op d e → Q' op d e) →
  standing tr content ops g Q data eofs → standing tr content ops g Q' data eofs.
Proof.
  intros HQ (H1 & H2 & H3). split; [done|]. split; [done|]. intros i o d e Ho Hd He. specialize (H3 i o d e Ho Hd He).
  case_match; [done|]. destruct (Z.eqb_spec (Z.of_nat i) g) as [E|]; [|done]. apply HQ; [..|done]; by rewrite <-E, Nat2Z.id.
Qed.

(** The entry of the item being read. *)
Lemma standing_at g Q data eofs op : 0 <= g → ops !! Z.to_nat g = Some op → standing tr content ops g Q data eofs →
  ∃ d e, data !! Z.to_nat g = Some d ∧ eofs !! Z.to_nat g = Some e ∧ Q op d e.
Proof.
  intros Hg Hop (H1 & H2 & H3). pose proof (lookup_lt_Some _ _ _ Hop).
  destruct (lookup_lt_is_Some_2 data (Z.to_nat g)) as [d Hd]; [lia|].
  destruct (lookup_lt_is_Some_2 eofs (Z.to_nat g)) as [e He]; [lia|]. exists d, e. split; [done|]. split; [done|].
  specialize (H3 _ _ _ _ Hop Hd He). by rewrite Z2Nat.id, Z.ltb_irrefl, Z.eqb_refl in H3 by lia.
Qed.

Lemma standing_set g Q Q' data eofs d e op : 0 <= g → ops !! Z.to_nat g = Some op → Q' op d e →
  standing tr content ops g Q data eofs →
  standing tr content ops g Q' (<[Z.to_nat g := d]> data) (<[Z.to_nat g := e]> eofs).
Proof.
  intros Hg Hop HQ (H1 & H2 & H3). unfold standing. rewrite !length_insert. split; [done|]. split; [done|].
  intros i o d' e' Ho Hd He. pose proof (lookup_lt_Some _ _ _ Hop). destruct (decide (i = Z.to_nat g)) as [->|Hne].
  - rewrite list_lookup_insert_eq in Hd by lia. rewrite list_lookup_insert_eq in He by lia. simplify_eq.
    by rewrite Z2Nat.id, Z.ltb_irrefl, Z.eqb_refl by lia.
  - rewrite list_lookup_insert_ne in Hd by done. rewrite list_lookup_insert_ne in He by done.
    specialize (H3 i o d' e' Ho Hd He). destruct (Z.eqb_spec (Z.of_nat i) g); [lia|done].
Qed.
End Standing.

Section Collect.
Context {F W : Type} (s : nfs_spec F) (tr : fh_server) (content : nfs_fh4 → option bytes) (P : F → Prop).
Context (Hview : readable s tr content P).
Context (rpc : Compound.t → W → RpcResult COMPOUND4res * W) (fs : W → F).
Context (Hrpc : transport_ok rpc) (Himp : implements s rpc fs).
Context (xdr_len : Compound.t → Z) `{!XdrSizes xdr_len} (verifier : Z → verifier4) (now : Z * Z).
Context (ops : list PathReadOp) (cl0 : NfsClient.t) (fuel : nat).
Context (Hmax : 0 <= NfsClient.max_ops cl0 < USIZE_MAX) (Hroot : NfsClient.root cl0 = sp_root s).
Context (Hops : Forall (λ op, 0 <= rp_offset op ∧ path_fuel (rp_file op) <= Z.of_nat fuel) ops).

(** The client and the server stay as they have to be. *)
Definition kept (cl : NfsClient.t) (w : W) : Prop := same_caps cl0 cl ∧ P (fs w).

(** A step of the decoding: an error, or the outcome with [Q] of the item. *)
Definition collected (g : Z) (Q : PathReadOp → option bytes → option bool → Prop) (index : nat)
    (r : result (io_exit (W := W)) (collecting (W := W))) : Prop :=
  match r with
  | Ok (Collecting cl w data eofs i) => kept cl w ∧ i = index ∧ standing tr content ops g Q data eofs
  | Err ex => kept (ex_client ex) (ex_world ex)
  end.

Lemma collect_read_ok expected res g part len j op x c bs eof cl w data eofs index :
  0 <= g → ops !! Z.to_nat g = Some op → standing tr content ops g (sofar tr content part) data eofs →
  expected !! index = Some len → 0 <= part → 0 <= len <= U32_MAX → kept cl w →
  file_of tr (rp_file op) = Some x → content x = Some c → bs `prefix_of` drop (Z.to_nat (rp_offset op + part)) c →
  (eof = true → Z.of_nat (length c) <= rp_offset op + part + Z.of_nat (length bs)) →
  CompoundRes.read_data res j = Some bs → CompoundRes.read_eof res j = Some eof →
  ∃ r, collect_read rpc xdr_len verifier now fuel ops expected res g j (Collecting cl w data eofs index) = Done r ∧
    collected g (λ op, has tr content op (part + len)) (S index) r.
Proof.
  intros Hg Hop Hst Hlen Hpart Hl [Hs HP] Hx Hc Hpre Hend Hdata Heof. unfold collect_read. rewrite Hdata, Heof. cbn [or_panic mbind outcome_bind].
  rewrite Hlen. destruct (proj1 (Forall_lookup _ _) Hops _ _ Hop) as [Hoff Hfuel].
  unfold Single.validate_read_length. destruct (Z.ltb_spec len (Z.of_nat (length bs))) as [|Hle]; [eexists; split; [reflexivity|by split]|].
  destruct (standing_at _ _ _ _ _ _ _ _ Hg Hop Hst) as (d & e & Hd & He & Hsf). rewrite He, Hd. cbn [or_panic mbind outcome_bind].
  case_bool_decide as Hended.
  { eexists. split; [reflexivity|]. split; [by split|]. split; [done|]. eapply standing_impl; [|exact Hst]. intros op' d' e' Hop' Hd' He' Hsf'.
    simplify_eq. destruct Hsf as [(_ & ? & _)|Hhas]; [done|]. apply has_ended; [lia..|done]. }
  (* what was read before, all of it *)
  assert (Hdb : ∃ db, default [] d = db ∧ db = take (Z.to_nat part) (drop (Z.to_nat (rp_offset op)) c) ∧ Z.of_nat (length db) = part).
  { destruct Hsf as [(-> & _ & ->)|(x' & c' & db & eb & -> & -> & Hx' & Hc' & Hdb & Hfull & _)]; [by exists []|].
    exists db. simplify_eq. split; [done|]. split; [done|]. apply Hfull. by destruct eb. }
  destruct Hdb as (db & -> & Hdb & Hdbl). set (output := db ++ bs).
  assert (Hstored : ∀ cl' w' more end_, kept cl' w' → bs ++ more `prefix_of` drop (Z.to_nat (rp_offset op + part)) c →
    Z.of_nat (length (bs ++ more)) <= len → (end_ = false → Z.of_nat (length (bs ++ more)) = len) →
    (end_ = true → Z.of_nat (length c) <= rp_offset op + part + Z.of_nat (length (bs ++ more))) →
    collected g (λ op, has tr content op (part + len)) (S index)
      (Ok (Collecting cl' w' (<[Z.to_nat g := Some (db ++ bs ++ more)]> data) (<[Z.to_nat g := Some end_]> eofs) (S index)))).
  { intros cl' w' more end_ Hk H1 H2 H3 H4. split; [done|]. split; [done|]. eapply standing_set; [done|done| |exact Hst].
    by eapply has_extend. }
  destruct (_ && _ && _); [eexists; split; [reflexivity|by split]|].
  destruct (Z.ltb_spec (Z.of_nat (length bs)) len) as [Hshort|Hnot]; [destruct eof|]; cbn [andb negb].
  - eexists. split; [reflexivity|]. specialize (Hstored cl w [] true). rewrite app_nil_r in Hstored. apply Hstored; try done; by split.
  - rewrite Hop. cbn [or_panic mbind outcome_bind]. unfold checked_offset, checked_add.
    destruct (Z.leb_spec (rp_offset op + Z.of_nat (length output)) U64_MAX); cbn [ok_or]; [|eexists; split; [reflexivity|by split]].
    destruct (repair_view s tr content P Hview rpc fs Hrpc Himp xdr_len verifier now cl op g (rp_offset op + Z.of_nat (length output))
      (len - Z.of_nat (length bs)) output w fuel) as (r & cl' & w' & -> & Hs' & HP' & Hr); [by destruct Hs as [-> _]|by destruct Hs as [_ ->]|done|lia|lia|done|].
    cbn [mbind outcome_bind]. assert (kept cl' w') by (split; [by etrans|done]).
    destruct r as [[end_ out]|e']; [|eexists; split; [reflexivity|done]].
    destruct Hr as (x' & more & Hx' & -> & Hmore). assert (x' = x) as -> by congruence. destruct (Hmore c Hc) as (Hm1 & Hm2 & Hm3).
    unfold output in *. rewrite length_app in Hm1, Hm3. rewrite <-app_assoc. eexists. split; [reflexivity|].
    assert (Hall : bs ++ more = take (Z.to_nat len) (drop (Z.to_nat (rp_offset op + part)) c)).
    { rewrite Hm1. destruct Hpre as [rest Hrest]. rewrite (Z2Nat.inj_add _ _ Hoff Hpart), <-drop_drop in Hrest |- *.
      replace (Z.to_nat (rp_offset op + Z.of_nat (length db + length bs)))
        with (Z.to_nat (rp_offset op) + Z.to_nat part + length bs)%nat by lia.
      rewrite <-!drop_drop, Hrest, drop_app_length, take_app_ge by lia. do 2 f_equal. lia. }
    apply Hstored; [done|rewrite Hall; apply prefix_take|rewrite Hall, length_take; lia| |].
    + intros E. rewrite length_app. specialize (Hm2 E). lia.
    + intros E. rewrite length_app. specialize (Hm3 E). lia.
  - eexists. split; [reflexivity|]. specialize (Hstored cl w [] eof). rewrite app_nil_r in Hstored.
    apply Hstored; [by split|done|done|lia|done].
Qed.

(** The results of the whole compound, and those of the operations from [pos] on. *)
Context (res : COMPOUND4res) (all : list resop) (Hall : SingleLemmas.complete res all).

Lemma result_at pos r rs : r :: rs `prefix_of` drop pos all → all !! pos = Some r ∧ rs `prefix_of` drop (S pos) all.
Proof.
  intros [rest E]. assert (Hr : all !! pos = Some r) by (rewrite <-(Nat.add_0_r pos), <-lookup_drop, E; done).
  split; [done|]. exists rest. rewrite (drop_S _ _ _ Hr) in E. by injection E.
Qed.

Lemma result_op pos r : all !! pos = Some r → ∃ ro, CompoundRes.op res (1 + Z.of_nat pos) = Some ro ∧ resop_num ro = resop_num r.
Proof.
  intros Hr. destruct (Hall pos r Hr) as (ro & Hop & Hsh & _). exists ro. split; [done|]. by destruct ro, r; simplify_eq/=.
Qed.

(** The results in front of the READs are passed over. *)
Lemma collect_nav expected g m nav m' rs pos count st : Forall leading nav → spec_steps s m nav = Some (m', rs) →
  rs `prefix_of` drop pos all →
  collect_reads_in rpc xdr_len verifier now fuel ops expected res g (1 + Z.of_nat pos) (length nav + count) st =
  collect_reads_in rpc xdr_len verifier now fuel ops expected res g (1 + Z.of_nat (pos + length nav)) count st.
Proof.
  intros Hl. revert m rs pos. induction Hl as [|op nav Hop _ IH]; intros m rs pos; cbn [spec_steps length Nat.add collect_reads_in].
  { intros _ _. by rewrite Nat.add_0_r. }
  destruct (spec_step s m op) as [[m1 r1]|] eqn:E; [|done]. intros ([m2 r2] & H2 & [= <- <-])%bind_Some Hpre.
  apply result_at in Hpre as [Hr Hpre]. destruct (result_op _ _ Hr) as (ro & -> & Hnum). cbn [or_panic mbind outcome_bind].
  assert ((resop_num ro =? OP_READ) = false) as ->.
  { rewrite Hnum. assert (resop_num r1 = argop_num op) as ->.
    { clear -E. destruct m as [f c sv]. destruct op; try done; cbn [spec_step] in E; unfold need, keep_fh, keep_at, keep_fs, go_fh in E;
        repeat (case_match; simplify_eq/=); by simplify_eq/=. }
    apply andb_True in Hop as [_ Hop]. by destruct (_ =? OP_READ). }
  cbn [mbind outcome_bind]. replace (1 + Z.of_nat pos + 1) with (1 + Z.of_nat (S pos)) by lia.
  rewrite (IH m1 r2 (S pos) H2 Hpre). do 3 f_equal. lia.
Qed.

(** The READs of one item. *)
Lemma collect_read_list expected g op x st lens m m' rs pos part cl w data eofs index :
  0 <= g → ops !! Z.to_nat g = Some op → file_of tr (rp_file op) = Some x → mc_cur m = Some x → P (mc_fs m) →
  spec_steps s m (read_ops st (rp_offset op) part lens) = Some (m', rs) → rs `prefix_of` drop pos all →
  lens `prefix_of` drop index expected → Forall (λ l, 0 <= l <= U32_MAX) lens → 0 <= part → kept cl w →
  standing tr content ops g (sofar tr content part) data eofs → lens ≠ [] →
  ∃ r, collect_reads_in rpc xdr_len verifier now fuel ops expected res g (1 + Z.of_nat pos) (length lens) (Collecting cl w data eofs index) = Done r ∧
    collected g (λ op, has tr content op (part + ChunkLemmas.total_len lens)) (index + length lens) r.
Proof.
  intros Hg Hop Hx Hcur HP. revert part rs pos cl w data eofs index.
  induction lens as [|len lens IH]; intros part rs pos cl w data eofs index Hrun Hpre Hexp H32 Hpart Hk Hst Hne; [done|].
  cbn [length collect_reads_in].
  cbn [read_ops spec_steps] in Hrun. destruct (spec_step s m _) as [[m1 r1]|] eqn:E; [|done].
  apply bind_Some in Hrun as ([m2 r2] & H2 & [= <- <-]). apply result_at in Hpre as [Hr Hpre].
  apply Forall_cons in H32 as [Hlen H32].
  destruct m as [f c sv]. cbn [mc_cur mc_fs] in Hcur, HP. subst c. cbn [spec_step need] in E. unfold keep_fh in E.
  destruct (sp_read s f x st (rp_offset op + part) (as_u32 len)) as [[bs eof]|] eqn:Eread; [|done]. cbn [fst snd] in E. injection E as <- <-.
  destruct (rd_read _ _ _ _ Hview _ _ _ _ _ _ _ HP Eread) as (c & Hc & Hbs & Heof).
  destruct (result_op _ _ Hr) as (ro & -> & Hnum). cbn [or_panic mbind outcome_bind resop_num] in Hnum |- *. rewrite Hnum.
  change (OP_READ =? OP_READ) with true. cbn iota. pose proof (complete_accessors res all pos _ Hall Hr) as [Hdata He]. rewrite vec_of_bytes in Hdata.
  assert (Hidx : expected !! index = Some len ∧ lens `prefix_of` drop (S index) expected).
  { destruct Hexp as [rest Eexp]. assert (Hi : expected !! index = Some len) by (rewrite <-(Nat.add_0_r index), <-lookup_drop, Eexp; done).
    split; [done|]. exists rest. rewrite (drop_S _ _ _ Hi) in Eexp. by injection Eexp. }
  destruct Hidx as [Hi Hexp'].
  destruct (collect_read_ok expected res g part len (1 + Z.of_nat pos) op x c bs eof cl w data eofs index) as (r & -> & Hr1); try done.
  cbn [mbind outcome_bind]. destruct r as [[cl1 w1 data1 eofs1 i1]|ex]; [|eexists; split; [reflexivity|exact Hr1]].
  destruct Hr1 as (Hk1 & -> & Hst1). replace (1 + Z.of_nat pos + 1) with (1 + Z.of_nat (S pos)) by lia.
  destruct (decide (lens = [])) as [->|Hne'].
  { eexists. split; [reflexivity|]. split; [done|]. split; [cbn; lia|]. cbn. by rewrite Z.add_0_r. }
  destruct (IH (part + len) r2 (S pos) cl1 w1 data1 eofs1 (S index)) as (r & -> & Hr2); try done; [lia| |].
  { eapply standing_impl; [|exact Hst1]. intros ? ? ? _ _ _ ?. by apply has_sofar. }
  eexists. split; [reflexivity|]. cbn [ChunkLemmas.total_len foldr]. fold (ChunkLemmas.total_len lens).
  rewrite Z.add_assoc. by rewrite Nat.add_succ_r.
Qed.

Lemma collect_reads_snoc expected a r st :
  collect_reads rpc xdr_len verifier now fuel ops expected res (a ++ [r]) st =
  (x ← collect_reads rpc xdr_len verifier now fuel ops expected res a st;
   match x with
   | Ok st => collect_reads_in rpc xdr_len verifier now fuel ops expected res (ExecutionMap.r_caller r) (ExecutionMap.r_start r)
                (Z.to_nat (Z.min (ExecutionMap.r_end r) (CompoundRes.nops res) - ExecutionMap.r_start r)) st
   | Err e => Done (Err e)
   end).
Proof.
  revert st. induction a as [|q a IH]; intros st; cbn [app collect_reads mbind outcome_bind].
  - destruct (collect_reads_in _ _ _ _ _ _ _ _ _ _ _ _) as [[]| |]; done.
  - destruct (collect_reads_in _ _ _ _ _ _ _ _ _ _ _ _) as [[]| |]; cbn; done.
Qed.

(** The steps of one piece within a run. *)
Lemma piece_steps gs m0 k mk rs j per_op p : gs !! j = Some (piece_ops per_op p) → (j < k)%nat →
  spec_steps s m0 (mjoin (take k gs)) = Some (mk, rs) → rs `prefix_of` all →
  ∃ mn rn mr rr, spec_steps s m0 (mjoin (take j gs) ++ pc_nav p) = Some (mn, rn) ∧
    spec_steps s mn (piece_reads per_op p) = Some (mr, rr) ∧
    rr `prefix_of` drop (offset gs j + length (pc_nav p)) all ∧
    ∃ mj rj rv, spec_steps s mj (pc_nav p) = Some (mn, rv) ∧ rn = rj ++ rv ∧ rv `prefix_of` drop (offset gs j) all.
Proof.
  intros Hg Hj Hrun [rest Hrest]. rewrite <-(take_drop (S j) (take k gs)), take_take, Nat.min_l in Hrun by lia.
  rewrite join_app, (take_S_r _ _ _ Hg), join_app in Hrun. cbn [mjoin list_join] in Hrun. rewrite app_nil_r in Hrun.
  unfold piece_ops in Hrun. rewrite spec_steps_app in Hrun. apply bind_Some in Hrun as ([m1 r1] & H1 & ([m2 r2] & H2 & [= _ <-])%bind_Some).
  rewrite spec_steps_app in H1. apply bind_Some in H1 as ([mj rj] & Hrj & ([m3 r3] & H3 & [= <- <-])%bind_Some).
  rewrite spec_steps_app in H3. apply bind_Some in H3 as ([mn rv] & Hrv & ([mr rr] & Hrr & [= <- <-])%bind_Some).
  pose proof (spec_steps_length _ _ _ _ _ Hrj) as Lj. pose proof (spec_steps_length _ _ _ _ _ Hrv) as Lv.
  assert (Hd : drop (offset gs j) all = rv ++ rr ++ r2 ++ rest).
  { rewrite Hrest. unfold offset. rewrite <-Lj, <-!app_assoc. apply drop_app_length. }
  exists mn, (rj ++ rv), mr, rr. split_and!.
  - rewrite spec_steps_app, Hrj. cbn. by rewrite Hrv.
  - done.
  - rewrite <-drop_drop, Hd, <-Lv, drop_app_length. by eexists.
  - exists mj, rj, rv. split_and!; [done|done|]. rewrite Hd. by eexists.
Qed.

Section Pieces.
Context (per_op : Z) (t0 t' : PathIoTarget) (g start : Z) (pos : Z * Z) (expected : list Z) (ps : list piece).
Context (Hfilled : filled_reads s tr P per_op t0 t' (drop (Z.to_nat g) ops) g start pos [] expected ps).
Context (m0 : machine F) (Hm0 : at_target tr P (b_cursor (tg_building t0)) (tg_opened_path t0) (tg_fh_at_opened t0) m0).
Context (k : nat) (mk : machine F) (rs : list resop) (Hk : (k <= length ps)%nat).
Let gs : list (list argop) := piece_ops per_op <$> ps.
Context (Hrun : spec_steps s m0 (mjoin (take k gs)) = Some (mk, rs)) (Hrs : rs `prefix_of` all).
Context (Hnops : k = 0%nat ∨ 1 + Z.of_nat (offset gs k) <= CompoundRes.nops res) (Hg : 0 <= g) (Hstart : 0 <= start).

Lemma offset_mono i j : (i <= j)%nat → (offset gs i <= offset gs j)%nat.
Proof.
  intros Hij. unfold offset. rewrite <-(take_drop i (take j gs)), take_take, Nat.min_l by lia. rewrite join_app, length_app. lia.
Qed.

Lemma collect_piece j p cl w data eofs : (j < k)%nat → ps !! j = Some p → kept cl w →
  standing tr content ops (g + Z.of_nat j) (sofar tr content (pc_start p)) data eofs →
  ∃ r, collect_reads_in rpc xdr_len verifier now fuel ops expected res (g + Z.of_nat j) (1 + Z.of_nat (offset gs j))
      (length (piece_ops per_op p)) (Collecting cl w data eofs (length (mjoin (piece_lens per_op <$> take j ps)))) = Done r ∧
    collected (ends g start (take (S j) ps)).1 (sofar tr content (ends g start (take (S j) ps)).2)
      (length (mjoin (piece_lens per_op <$> take (S j) ps))) r.
Proof.
  intros Hj Hp Hkept Hst. assert (Hgp : gs !! j = Some (piece_ops per_op p)) by (unfold gs; by rewrite list_lookup_fmap, Hp).
  destruct (piece_steps gs m0 k mk rs j per_op p Hgp Hj Hrun Hrs) as (mn & rn & mr & rr & Hn & Hr & Hrr & mj & rj & rv & Hnav & -> & Hrv).
  assert (Htake : mjoin (piece_ops per_op <$> take j ps) = mjoin (take j gs)) by (unfold gs; by rewrite fmap_take).
  rewrite <-Htake in Hn. destruct (fr_at _ _ _ _ _ _ _ _ _ _ _ _ _ Hfilled j p m0 mn _ Hp Hm0 Hn) as (HP & x & Hx & Hcur).
  destruct (proj1 (Forall_lookup _ _) (fr_pieces _ _ _ _ _ _ _ _ _ _ _ _ _ Hfilled) _ _ Hp) as (Hlead & H32 & Hne & Htot).
  destruct (spans_at g start ps j p (fr_spans _ _ _ _ _ _ _ _ _ _ _ _ _ Hfilled) Hp) as (_ & -> & Hse & _ & Hpos).
  assert (Hop : ops !! Z.to_nat (g + Z.of_nat j) = Some (pc_op p)).
  { pose proof (fr_items _ _ _ _ _ _ _ _ _ _ _ _ _ Hfilled) as Hi. apply (f_equal (lookup j)) in Hi.
    rewrite list_lookup_fmap, Hp, lookup_take_lt, lookup_drop in Hi by (by eapply lookup_lt_Some).
    by replace (Z.to_nat (g + Z.of_nat j)) with (Z.to_nat g + j)%nat by lia. }
  unfold piece_ops. rewrite length_app. unfold piece_reads. rewrite read_ops_length.
  rewrite (collect_nav expected _ mj (pc_nav p) mn rv (offset gs j)) by done.
  assert (Hlens : mjoin (piece_lens per_op <$> take (S j) ps) = mjoin (piece_lens per_op <$> take j ps) ++ piece_lens per_op p).
  { rewrite (take_S_r _ _ _ Hp), fmap_app, join_app. cbn. by rewrite app_nil_r. }
  destruct (collect_read_list expected (g + Z.of_nat j) (pc_op p) x (io_stateid (rp_file (pc_op p)) (rp_stateid (pc_op p)))
    (piece_lens per_op p) mn mr rr (offset gs j + length (pc_nav p)) (pc_start p) cl w data eofs
    (length (mjoin (piece_lens per_op <$> take j ps)))) as (r & -> & Hcol); try done; [lia| |lia|].
  { rewrite (fr_expected _ _ _ _ _ _ _ _ _ _ _ _ _ Hfilled). cbn [app].
    assert (mjoin (piece_lens per_op <$> ps) = mjoin (piece_lens per_op <$> take j ps) ++ piece_lens per_op p ++
      mjoin (piece_lens per_op <$> drop (S j) ps)) as ->.
    { rewrite <-(take_drop_middle ps j p Hp) at 1. by rewrite fmap_app, join_app. }
    rewrite drop_app_length. by eexists. }
  exists r. split; [done|]. rewrite Hlens, length_app. destruct r as [[cl1 w1 data1 eofs1 i1]|ex]; [|done].
  destruct Hcol as (Hk1 & -> & Hst1). rewrite Htot in Hst1. replace (pc_start p + (pc_end p - pc_start p)) with (pc_end p) in Hst1 by lia.
  split; [done|]. split; [done|]. destruct (Z.eqb_spec (pc_end p) (rp_count (pc_op p))) as [Hfull|Hpart]; cbn [fst snd].
  - eapply standing_next; [lia|exact Hop|]. eapply standing_impl; [|exact Hst1]. intros op' d e Hop' _ _. rewrite Hop in Hop'. injection Hop' as <-.
    by rewrite Hfull.
  - eapply standing_impl; [|exact Hst1]. intros op' d e _ _ _. apply has_sofar.
Qed.

Lemma collect_pieces cl w data eofs j : kept cl w → standing tr content ops g (sofar tr content start) data eofs → (j <= k)%nat →
  ∃ r, collect_reads rpc xdr_len verifier now fuel ops expected res (group_ranges g 1 (take j gs)) (Collecting cl w data eofs 0) = Done r ∧
    collected (ends g start (take j ps)).1 (sofar tr content (ends g start (take j ps)).2)
      (length (mjoin (piece_lens per_op <$> take j ps))) r.
Proof.
  intros Hkept Hst. induction j as [|j IH]; intros Hj.
  { eexists. split; [reflexivity|]. rewrite take_0. by split. }
  destruct IH as (r & Hr & Hcol); [lia|]. destruct (lookup_lt_is_Some_2 ps j) as [p Hp]; [lia|].
  assert (Hgp : gs !! j = Some (piece_ops per_op p)) by (unfold gs; by rewrite list_lookup_fmap, Hp).
  rewrite (take_S_r _ _ _ Hgp), group_ranges_app. cbn [group_ranges]. rewrite collect_reads_snoc, Hr. cbn [mbind outcome_bind].
  destruct r as [[cl1 w1 data1 eofs1 i1]|ex]; [|by eexists]. destruct Hcol as (Hk1 & -> & Hst1).
  destruct (spans_at g start ps j p (fr_spans _ _ _ _ _ _ _ _ _ _ _ _ _ Hfilled) Hp) as (E1 & _). rewrite E1 in Hst1. cbn [fst snd] in Hst1.
  unfold ExecutionMap.r_caller, ExecutionMap.r_start, ExecutionMap.r_end. cbn [fst snd].
  rewrite length_take, Nat.min_l by (unfold gs; lengths). fold (offset gs j).
  pose proof (offset_mono (S j) k ltac:(lia)) as Hle. rewrite (offset_S _ _ _ Hgp) in Hle.
  replace (Z.to_nat _) with (length (piece_ops per_op p)) by (destruct Hnops; lia). by apply collect_piece.
Qed.
End Pieces.
End Collect.
End PathCollectLemmas.
