(* ===== verification/PathRead.v ===== *)
(** * Reads by path are reads of the files named

    The theorem about [readv_path_compound]: against a service whose tree and
    contents do not change meanwhile, it terminates, and what it returns for an
    item are the bytes of the file the item names, however the items were packed
    into compounds, however often the server rejected or shortened one and
    however often a short READ was completed. *)
From stdpp Require Import base numbers countable list list_numbers gmap strings.
From S2P Require Import Prelude Path Errors Types Planner Compound Session Cursor Client IoProgress Loops Exchange Server Batch BatchOps Resolve Single BatchSpec Mutations Opens Lifecycle Merged MergedOnce ChunkReply PathIo PathSpec PathFill PathCollect.

(** The work left: every item costs its bytes and one more turn. *)
Definition work (items : list PathReadOp) : Z := foldr (λ op acc, rp_count op + 1 + acc) 0 items.

Module WorkLemmas.
Import PathFillLemmas.

Lemma work_cons op items : work (op :: items) = rp_count op + 1 + work items.
Proof. done. Qed.

Lemma work_nonneg items : Forall (λ op, 0 <= rp_count op) items → 0 <= work items.
Proof. induction 1 as [|op items ? _ IH]; [done|]. unfold work in *. cbn. lia. Qed.

(** A chunk of [ps] does at least one unit of work per item. *)
Lemma ends_work items g start ps :
  spans start ps → pc_op <$> ps = take (length ps) items → 0 <= start → Forall (λ op, 0 <= rp_count op) items →
  (∀ op, head items = Some op → start <= rp_count op) → 0 <= work items - start →
  ∃ q : nat, (ends g start ps).1 = g + Z.of_nat q ∧ (q <= length items)%nat ∧ 0 <= (ends g start ps).2 ∧
    (∀ op, head (drop q items) = Some op → (ends g start ps).2 <= rp_count op) ∧
    0 <= work (drop q items) - (ends g start ps).2 ∧
    work (drop q items) - (ends g start ps).2 + Z.of_nat (length ps) <= work items - start.
Proof.
  revert items g start. induction ps as [|p ps IH]; intros items g start Hsp Hit Hst Hall Hhead Hw; cbn [ends fst snd].
  { exists 0%nat. rewrite drop_0. split_and!; try done; cbn; lia. }
  destruct items as [|op items]; [done|]. cbn in Hit. injection Hit as Hp Hit. destruct Hsp as (H1 & H2 & H3 & H4 & H5).
  rewrite Hp in *. apply Forall_cons in Hall as [Hc Hall]. pose proof (work_nonneg _ Hall).
  destruct (Z.eqb_spec (pc_end p) (rp_count op)) as [Hfull|Hpart].
  - destruct (IH items (g + 1) 0 H5 Hit ltac:(lia) Hall) as (q & E1 & Hq & E2 & E3 & E4 & E5).
    { intros o Ho. destruct items; [done|]. injection Ho as ->. by apply Forall_cons in Hall as [? _]. }
    { lia. }
    exists (S q). rewrite work_cons. cbn [drop length]. split_and!; [lia|lia|done|done|done|lia].
  - assert (ps = []) as -> by (destruct ps; [done|]; exfalso; apply Hpart, H4; done).
    exists 0%nat. cbn [fst snd drop length]. rewrite work_cons in *. split_and!; [lia|lia|lia|intros o [= <-]; lia|lia|lia].
Qed.
End WorkLemmas.

(** What a read by path may return.  Against [tr] and [content], the items before
    [k] are complete and nothing is returned for those after it; [k] is the item
    named by [failed], and all of them when neither an item nor the last CLOSE
    failed. *)
Definition read_outcome (tr : fh_server) (content : nfs_fh4 → option bytes) (ops : list PathReadOp) (out : PathReadOutcome)
    : Prop :=
  ∃ k, 0 <= k <= Z.of_nat (length ops) ∧
    standing tr content ops k (λ op d e, ∃ part, sofar tr content part op d e) (ro_data out) (ro_eof out) ∧
    match ro_failed out with
    | Some (j, _) => j = k
    | None => ro_close_failed out = None → k = Z.of_nat (length ops)
    end.

Module PathReadLemmas.
Import ExchangeLemmas ServerLemmas SingleLemmas GroupLemmas EmitLemmas PathSpecLemmas PathFillLemmas PathCollectLemmas
  ChunkReplyLemmas WorkLemmas.

Section Loop.
Context {F W : Type} (s : nfs_spec F) (tr : fh_server) (content : nfs_fh4 → option bytes) (P : F → Prop).
Context (Hview : readable s tr content P).
Context (rpc : Compound.t → W → RpcResult COMPOUND4res * W) (fs : W → F).
Context (Hrpc : transport_ok rpc) (Himp : implements s rpc fs).
Context (xdr_len : Compound.t → Z) `{!XdrSizes xdr_len} (verifier : Z → verifier4) (now : Z * Z).
Context (ops : list PathReadOp) (cl0 : NfsClient.t) (fuel : nat) (cic : bool).
Let n : Z := Z.of_nat (length ops).
Let N : Z := NfsClient.max_ops cl0.
Let per_op : Z := NfsClient.read_per_op_bytes cl0.
Context (Hmax : 0 <= NfsClient.max_ops cl0 <= U32_MAX) (Hroot : NfsClient.root cl0 = sp_root s).
Context (Hops : Forall (λ op, valid_file (rp_file op) ∧ way (rp_file op) <= I64_MAX ∧ 0 <= rp_count op ∧ 0 <= rp_offset op ∧
  path_fuel (rp_file op) <= Z.of_nat fuel) ops).
Context (Hcleanup : (work ops * (N + 1) + 1) * (work ops * (N + 1) + 1) <= Z.of_nat fuel).

Definition read_tag : string := if cic then "readv1" else "readv2".
Definition budget_of (cl : NfsClient.t) : Z :=
  CompoundBudget.merged_limit (NfsClient.op_budget_for cl (bstr read_tag) (1 + path_io_per_file)) path_io_reserve path_io_per_file.
Definition remaining (g part : Z) : Z := work (drop (Z.to_nat g) ops) - part.

Record inv (st : read_state (W := W)) : Prop := {
  iv_kept : kept P fs cl0 (rs_client st) (rs_world st);
  iv_global : 0 <= rs_global st <= n;
  iv_part : 0 <= rs_part st ∧ ∀ op, head (drop (Z.to_nat (rs_global st)) ops) = Some op → rs_part st <= rp_count op;
  iv_left : 0 <= remaining (rs_global st) (rs_part st) <= work ops;
  iv_max : 1 <= rs_max_items st;
  iv_out : ro_failed (rs_out st) = None ∧ ro_close_failed (rs_out st) = None;
  iv_data : standing tr content ops (rs_global st) (sofar tr content (rs_part st)) (ro_data (rs_out st)) (ro_eof (rs_out st));
  iv_opened : Z.of_nat (length (ro_opened (rs_out st))) <= (work ops - remaining (rs_global st) (rs_part st)) * (N + 1);
}.

Definition measure (st : read_state (W := W)) : Z :=
  remaining (rs_global st) (rs_part st) * ((N + 1) * (n + 1)) + budget_of (rs_client st) * (n + 1) + Z.min (rs_max_items st) n.

Definition final (a : read_answer (W := W)) : Prop :=
  kept P fs cl0 a.1.2 a.2 ∧ match a.1.1 with Ok out => read_outcome tr content ops out | Err _ => True end.

Lemma read_budget_range cl : same_caps cl0 cl → 0 <= budget_of cl <= N.
Proof.
  clear Hops Hcleanup n. intros [Hm _]. destruct (MergedOnceLemmas.merged_limit_range (NfsClient.op_budget_for cl (bstr read_tag) (1 + path_io_per_file))
    path_io_reserve path_io_per_file) as [Hb _].
  - unfold NfsClient.op_budget_for. cbn [CompoundBudget.max_ops]. unfold path_io_per_file. lia.
  - by vm_compute.
  - unfold budget_of. split; [apply Hb|]. etransitivity; [apply Hb|]. unfold NfsClient.op_budget_for. cbn [CompoundBudget.max_ops].
    unfold N. lia.
Qed.

(** Sending a chunk. *)
Lemma send_chunk_ok cl c map base opens w r cl' w' : Compound.size_check c = None → Forall reading (Compound.ops c) →
  kept P fs cl0 cl w →
  send_path_io_chunk rpc xdr_len cl read_tag (1 + path_io_per_file) path_io_reserve path_io_per_file (budget_of cl) true c map base opens
    ReadOnly w = (r, cl', w') →
  kept P fs cl0 cl' w' ∧
  match r with
  | Err _ => True
  | Ok (Repack cap) => cap = Z.of_nat (length (ExecutionMap.ranges map)) - 1 ∧ 1 <= cap ∧ cl' = cl
  | Ok Retry => budget_of cl' < budget_of cl
  | Ok (Response res) => exchanged rpc (Compound.ops c) w res w' ∧ Compound.op_count c + 1 <= N
  end.
Proof.
  intros Hc Hread [Hs HP]. unfold send_path_io_chunk.
  destruct (MergedOnceLemmas.repack_spec xdr_len cl (bstr read_tag) (1 + path_io_per_file) c (Z.of_nat (length (ExecutionMap.ranges map))))
    as (repack & c' & -> & Hc' & Hops' & Hrep); [by intros l r' Hsz; rewrite Hc in Hsz|].
  destruct repack; [intros [= <- <- <-]; split; [by split|]; specialize (Hrep eq_refl); split_and!; [done|lia|done]|].
  unfold CompoundBudget.ensure. cbn [CompoundBudget.max_ops].
  destruct (Z.ltb_spec (NfsClient.max_ops cl) (sat_add (Compound.op_count c') 1)) as [|Hfit]; [by intros [= <- <- <-]|].
  set (cl1 := set_path_seqid cl _). destruct (NfsClient.call_compound_with_safety _ _ _ _ _ _) as [[r0 cl2] w2] eqn:Hcall.
  destruct (safe_call rpc xdr_len cl1 c' ReadOnly w r0 cl2 w2 Hcall) as (r1 & Hcall1 & Hr).
  destruct (send_outcomes rpc Hrpc xdr_len cl1 c' w r1 cl2 w2 Hc' Hcall1) as [Hs2 Hout]. rewrite Hops' in Hout.
  assert (Hs02 : same_caps cl0 cl2) by (etrans; [exact Hs|]; by apply SendLemmas.limits_caps in Hs2).
  destruct r0 as [res|e], r1 as [res1|e1]; try done.
  2:{ intros [= <- <- <-]. split; [|done]. split; [done|]. destruct Hout as [[-> _]|[_ [r2 Hsent]]]; [done|].
      eapply (sent_kept s tr content P Hview rpc fs Himp); [exact Hread|done|exact Hsent]. }
  subst res1. pose proof Hout as (req & sid & q & Hreq & Hrops & _).
  assert (HP2 : P (fs w2)) by (eapply (sent_kept s tr content P Hview rpc fs Himp); [exact Hread|done|]; by exists req, sid, q).
  assert (Hcount : Compound.op_count c + 1 <= N).
  { destruct Hs as [Hm _]. unfold N. rewrite <-Hm. unfold Compound.op_count in *. rewrite Hops' in Hfit. unfold sat_add in Hfit.
    unfold U64_MAX, U32_MAX in *. lia. }
  destruct (resource_rejected_before_mutation res); [|by intros [= <- <- <-]].
  destruct (NfsClient.can_retry_merged_resource _ _ _ _ _ _) eqn:Hretry; intros [= <- <- <-].
  - split; [by split|]. unfold NfsClient.can_retry_merged_resource in Hretry. apply andb_true_iff in Hretry as [_ Hb%Z.ltb_lt]. exact Hb.
  - split; [by split|]. done.
Qed.
(** The operations of a chunk. *)
Lemma read_ops_reading st offset part lens : Forall reading (read_ops st offset part lens).
Proof. revert part. induction lens as [|len lens IH]; intros part; constructor; [done|apply IH]. Qed.

Lemma pieces_reading ps : Forall (λ p, Forall leading (pc_nav p)) ps → Forall reading (mjoin (piece_ops per_op <$> ps)).
Proof.
  induction 1 as [|p ps Hp _ IH]; [constructor|].
  change (piece_ops per_op <$> p :: ps) with (piece_ops per_op p :: (piece_ops per_op <$> ps)). rewrite mjoin_cons.
  apply Forall_app. split; [|done]. apply Forall_app. split; [by apply leading_reading|apply read_ops_reading].
Qed.

(** Nothing is known of the items that would be cleared. *)
Lemma clear_standing g Q data eofs j : g <= j → standing tr content ops g Q data eofs →
  clear_after j data = data ∧ clear_after j eofs = eofs.
Proof.
  intros Hj (H1 & H2 & Hst).
  assert (Hnone : ∀ i d e, data !! i = Some d → eofs !! i = Some e → j < Z.of_nat i → d = None ∧ e = None).
  { intros i d e Hd He Hi. destruct (lookup_lt_is_Some_2 ops i) as [op Hop]; [apply lookup_lt_Some in Hd; lia|].
    specialize (Hst i op d e Hop Hd He). destruct (Z.ltb_spec (Z.of_nat i) g); [lia|]. by destruct (Z.eqb_spec (Z.of_nat i) g); [lia|]. }
  unfold clear_after. split; apply list_eq; intros i; rewrite list_lookup_imap.
  - destruct (data !! i) as [d|] eqn:Hd; [|done]. cbn. destruct (Z.ltb_spec j (Z.of_nat i)); [|done].
    destruct (lookup_lt_is_Some_2 eofs i) as [e He]; [apply lookup_lt_Some in Hd; lia|]. by destruct (Hnone i d e) as [-> _].
  - destruct (eofs !! i) as [e|] eqn:He; [|done]. cbn. destruct (Z.ltb_spec j (Z.of_nat i)); [|done].
    destruct (lookup_lt_is_Some_2 data i) as [d Hd]; [apply lookup_lt_Some in He; lia|]. by destruct (Hnone i d e) as [_ ->].
Qed.

(** The CLOSEs after an error. *)
Lemma cleanup_ok cl opened w : kept P fs cl0 cl w → Z.of_nat (length opened) <= work ops * (N + 1) →
  ∃ cl' w', read_error_with_cleanup rpc xdr_len fuel cl opened cic w = Done (cl', w') ∧ kept P fs cl0 cl' w'.
Proof.
  intros [Hs HP] Hlen. unfold read_error_with_cleanup. destruct (_ && _); [|by eexists _, _].
  destruct (closes_view s tr content P Hview rpc fs Hrpc Himp xdr_len cl (latest_path_open_closes opened) w fuel)
    as (cl' & w' & -> & Hs' & HP').
  - destruct Hs as [-> _]. unfold U32_MAX, USIZE_MAX, U64_MAX in *. lia.
  - done.
  - rewrite ClosesLemmas.latest_path_open_closes_latest. pose proof (sublist_length _ _ (ClosesLemmas.latest_sublist opened)) as Hsub.
    rewrite length_fmap in Hsub. nia.
  - eexists _, _. split; [done|]. split; [by etrans|done].
Qed.

(** The chunk a turn fills. *)
Definition empty_target : PathIoTarget :=
  IoTarget (Building CfhCursor.default_cursor ExecutionMap.new (Compound.tag Compound.new (bstr read_tag))) None false 0.

Lemma empty_at m : P (mc_fs m) →
  at_target tr P (b_cursor (tg_building empty_target)) (tg_opened_path empty_target) (tg_fh_at_opened empty_target) m.
Proof. by split. Qed.

(** A turn that filled a chunk with [ps] and got a reply. *)
Section Chunk.
Context (st : read_state (W := W)) (Hinv : inv st).
Context (t' : PathIoTarget) (pos : Z * Z) (expected : list Z) (ps : list piece) (Hps : ps ≠ []).
Context (Hfilled : filled_reads s tr P per_op empty_target t' (drop (Z.to_nat (rs_global st)) ops) (rs_global st) (rs_part st)
  pos [] expected ps).
Let gs : list (list argop) := piece_ops per_op <$> ps.

Lemma pieces_nonempty : Forall (λ x, x ≠ []) gs.
Proof.
  apply Forall_fmap. eapply Forall_impl; [exact (fr_pieces _ _ _ _ _ _ _ _ _ _ _ _ _ Hfilled)|]. intros p (_ & _ & Hne & _) E.
  cbn in E. apply app_eq_nil in E as [_ E]. unfold piece_reads in E. destruct (piece_lens per_op p); [done|]. done.
Qed.

(** What the reply adds. *)
Lemma chunk_decoded tail w res w' map report cl : Forall reading tail → P (fs w) → kept P fs cl0 cl w' →
  exchanged rpc (mjoin gs ++ tail) w res w' → ExecutionMap.ranges map = group_ranges (rs_global st) 1 gs →
  ExecutionMap.analyze map res = Ok report →
  ∃ k r, reported gs (rs_global st) map res report k ∧
    collect_reads rpc xdr_len verifier now fuel ops expected res (ExecutionMap.completed_ranges map report)
      (Collecting cl w' (ro_data (rs_out st)) (ro_eof (rs_out st)) 0) = Done r ∧
    collected tr content P fs ops cl0 (ends (rs_global st) (rs_part st) (take k ps)).1
      (sofar tr content (ends (rs_global st) (rs_part st) (take k ps)).2) (length (mjoin (piece_lens per_op <$> take k ps))) r.
Proof.
  intros Htail HP Hkept Hex Hmap Ha.
  destruct (reply_reported rpc gs tail (rs_global st) map w res w' report Hex Hmap pieces_nonempty Ha) as [k Hk].
  assert (Hread : Forall reading (mjoin gs ++ tail)).
  { apply Forall_app. split; [|done]. apply pieces_reading. eapply Forall_impl; [exact (fr_pieces _ _ _ _ _ _ _ _ _ _ _ _ _ Hfilled)|].
    by intros p [? _]. }
  destruct (exchanged_runs s rpc fs Himp _ _ _ _ Hex (reading_file _ Hread)) as (m & rs & Hrun & _ & Hcomplete & _).
  pose proof (rp_le _ _ _ _ _ _ Hk) as Hle. unfold gs in Hle. rewrite length_fmap in Hle.
  destruct (steps_prefix s _ _ _ _ _ (offset gs k) Hrun (rp_done _ _ _ _ _ _ Hk)) as (mk & rk & Hrunk & Hpre).
  assert (Htake : take (offset gs k) (mjoin gs ++ tail) = mjoin (take k gs)).
  { unfold offset. rewrite <-(take_drop k gs) at 2. rewrite join_app, <-app_assoc. by rewrite take_app_length. }
  rewrite Htake in Hrunk.
  destruct (collect_pieces s tr content P Hview rpc fs Hrpc Himp xdr_len verifier now ops cl0 fuel) with
    (res := res) (all := rs) (per_op := per_op) (t0 := empty_target) (t' := t') (g := rs_global st) (start := rs_part st)
    (pos := pos) (expected := expected) (ps := ps) (m0 := start (fs w)) (k := k) (mk := mk) (rs := rk)
    (cl := cl) (w := w') (data := ro_data (rs_out st)) (eofs := ro_eof (rs_out st)) (j := k) as (r & Hr & Hc).
  all: try done.
  - unfold U32_MAX, USIZE_MAX, U64_MAX in *. lia.
  - eapply Forall_impl; [exact Hops|]. cbn. by intros op (_ & _ & _ & ? & ?).
  - exact (rp_nops _ _ _ _ _ _ Hk).
  - apply (iv_global _ Hinv).
  - apply (iv_part _ Hinv).
  - apply (iv_data _ Hinv).
  - exists k, r. rewrite (rp_completed _ _ _ _ _ _ Hk). by split_and!.
Qed.
(** Where the chunk ends. *)
Lemma chunk_end : rs_global st <= pos.1 <= n ∧ 0 <= pos.2 ∧ (∀ op, head (drop (Z.to_nat pos.1) ops) = Some op → pos.2 <= rp_count op) ∧
  0 <= remaining pos.1 pos.2 ∧
  remaining pos.1 pos.2 + Z.of_nat (length ps) <= remaining (rs_global st) (rs_part st).
Proof.
  rewrite (fr_pos _ _ _ _ _ _ _ _ _ _ _ _ _ Hfilled). pose proof (iv_global _ Hinv) as Hg. unfold n in *.
  destruct (ends_work (drop (Z.to_nat (rs_global st)) ops) (rs_global st) (rs_part st) ps) as (q & E1 & Hq & E2 & E3 & E4 & E5).
  - apply (fr_spans _ _ _ _ _ _ _ _ _ _ _ _ _ Hfilled).
  - apply (fr_items _ _ _ _ _ _ _ _ _ _ _ _ _ Hfilled).
  - apply (iv_part _ Hinv).
  - apply Forall_drop. eapply Forall_impl; [exact Hops|]. cbn. by intros op (_ & _ & ? & _).
  - apply (iv_part _ Hinv).
  - apply (iv_left _ Hinv).
  - rewrite length_drop in Hq. rewrite drop_drop in *. unfold remaining. rewrite E1.
    replace (Z.to_nat (rs_global st + Z.of_nat q)) with (Z.to_nat (rs_global st) + q)%nat by lia. split_and!; try done; lia.
Qed.

Lemma pieces_count : rs_global st + Z.of_nat (length ps) <= n.
Proof.
  pose proof (f_equal length (fr_items _ _ _ _ _ _ _ _ _ _ _ _ _ Hfilled)) as Hlen. pose proof (iv_global _ Hinv).
  rewrite length_fmap, length_take, length_drop in Hlen. unfold n in *. lia.
Qed.

(** The next turn: what the reply gave, at the end of the chunk. *)
Lemma chunk_next cl w data eofs opened : kept P fs cl0 cl w → standing tr content ops pos.1 (sofar tr content pos.2) data eofs →
  Z.of_nat (length opened) <= (work ops - remaining (rs_global st) (rs_part st) + 1) * (N + 1) →
  inv (ReadState cl w pos.1 pos.2 USIZE_MAX (ReadOutcome data eofs opened None None)) ∧
  measure (ReadState cl w pos.1 pos.2 USIZE_MAX (ReadOutcome data eofs opened None None)) < measure st.
Proof.
  intros Hk Hst Ho. destruct chunk_end as (H1 & H2 & H3 & H4 & H5). pose proof (iv_global _ Hinv). pose proof (iv_left _ Hinv).
  pose proof (iv_max _ Hinv). assert (0 < Z.of_nat (length ps)) by (destruct ps; [done|cbn; lia]).
  split.
  - split; cbn [rs_client rs_world rs_global rs_part rs_max_items rs_out ro_failed ro_close_failed ro_data ro_eof ro_opened];
      [done|lia|done|lia|unfold USIZE_MAX, U64_MAX; lia|done|done|]. unfold N in *. nia.
  - unfold measure. cbn [rs_client rs_global rs_part rs_max_items]. destruct (iv_kept _ Hinv) as [Hs _].
    pose proof (read_budget_range _ Hs) as Hb. destruct Hk as [Hs' _]. pose proof (read_budget_range _ Hs') as Hb'.
    apply (measure_less (N + 1) (n + 1)); unfold n, N in *; lia.
Qed.
(** The files opened by the end of the chunk. *)
Lemma chunk_opened res map report k : reported gs (rs_global st) map res report k → Z.of_nat (length (mjoin gs)) <= N →
  Z.of_nat (length (if cic then ro_opened (rs_out st)
    else ro_opened (rs_out st) ++ CompoundRes.for_each_open_result res (ExecutionMap.executed_ranges map report))) <=
  (work ops - remaining (rs_global st) (rs_part st) + 1) * (N + 1).
Proof.
  intros Hk Hlen. pose proof (iv_opened _ Hinv). destruct (rp_executed _ _ _ _ _ _ Hk) as [He1 He2].
  pose proof (opened_bounded res _ gs He1 He2). 
  assert (Hif : ∀ (b : bool) (l l' : list (nfs_fh4 * stateid4)), (length (if b then l else l ++ l') <= length l + length l')%nat)
    by (intros [] l l'; rewrite ?length_app; lia).
  etransitivity; [apply inj_le, Hif|]. unfold N in *. nia.
Qed.

Lemma after_read_reply_ok b payload tail cl w w' res :
  ExecutionMap.ranges (b_map b) = group_ranges (rs_global st) 1 gs → Forall reading tail → P (fs w) → kept P fs cl0 cl w' →
  exchanged rpc (mjoin gs ++ tail) w res w' → Z.of_nat (length (mjoin gs)) <= N →
  ∃ t, after_read_reply rpc xdr_len verifier now fuel ops cic cl w' (rs_global st)
      (ReadFilling (with_building t' b) pos.1 pos.2 payload expected None)
      (ReadOutcome (ro_data (rs_out st)) (ro_eof (rs_out st)) (ro_opened (rs_out st)) None None) res = Done t ∧
    turn_keeps inv measure final st (Some t).
Proof.
  intros Hmap Htail HP Hkept Hex Hlen. unfold after_read_reply. cbn [rf_target rf_global rf_part rf_expected rf_failed with_building tg_building].
  destruct (ExecutionMap.analyze (b_map b) res) as [report|e] eqn:Ha; [|eexists; split; [reflexivity|by split]].
  destruct (chunk_decoded tail w res w' (b_map b) report cl Htail HP Hkept Hex Hmap Ha) as (k & r & Hk & Hr & Hc).
  pose proof (chunk_opened _ _ _ _ Hk Hlen) as Hop. set (opened := if cic then ro_opened (rs_out st) else _) in *.
  destruct chunk_end as (P1 & P2 & P3 & P4 & P5). assert (Hps1 : 0 < Z.of_nat (length ps)) by (destruct ps; [done|cbn; lia]).
  assert (Hmatch : match failure report with
      | Some x => (Some (if_caller x, if_status x), clear_after (if_caller x) (ro_data (rs_out st)), clear_after (if_caller x) (ro_eof (rs_out st)))
      | None => (None, ro_data (rs_out st), ro_eof (rs_out st)) end =
    ((λ x, (if_caller x, if_status x)) <$> failure report, ro_data (rs_out st), ro_eof (rs_out st))).
  { pose proof (rp_failure _ _ _ _ _ _ Hk) as Hf. destruct (failure report) as [x|]; [|done]. destruct Hf as [Hcal _].
    cbn. rewrite Hcal. by destruct (clear_standing (rs_global st) _ _ _ (rs_global st + Z.of_nat k) ltac:(lia) (iv_data _ Hinv)) as [-> ->]. }
  rewrite Hmatch, Hr. cbn [mbind outcome_bind]. destruct r as [[cl2 w2 data eofs idx]|[cleanup e cl2 w2]].
  2:{ destruct cleanup; [|eexists; split; [reflexivity|by split]]. cbn in Hc.
      destruct (cleanup_ok cl2 opened w2 Hc) as (cl3 & w3 & -> & Hk3); [pose proof (iv_left _ Hinv); unfold N in *; nia|].
      eexists. split; [reflexivity|by split]. }
  destruct Hc as (Hkept2 & _ & Hst2).
  pose proof (rp_failure _ _ _ _ _ _ Hk) as Hf. destruct (failure report) as [x|]; cbn [fmap option_fmap option_map].
  - destruct Hf as (Hcaller & Hkl & Hnone). unfold close_status. rewrite Hnone, Hcaller. eexists. split; [reflexivity|]. split; [done|].
    unfold gs in Hkl. rewrite length_fmap in Hkl. destruct (lookup_lt_is_Some_2 ps k Hkl) as [p Hp].
    destruct (spans_at (rs_global st) _ _ _ _ (fr_spans _ _ _ _ _ _ _ _ _ _ _ _ _ Hfilled) Hp) as (E & _). rewrite E in Hst2. cbn in Hst2.
    exists (rs_global st + Z.of_nat k). pose proof pieces_count. pose proof (iv_global _ Hinv). split; [unfold n in *; lia|].
    split; [|done]. eapply standing_impl; [|exact Hst2]. cbn. eauto.
  - destruct (close_status _ _ _) as [status|e] eqn:Hcs; [|eexists; split; [reflexivity|by split]].
    assert (k = length ps) as ->.
    { rewrite <-(length_fmap (piece_ops per_op)). apply Hf. revert Hcs. unfold close_status.
      destruct (compound_failure report); [|by left]. cbn [tg_building with_building]. rewrite Hmap.
      rewrite last_range by (unfold gs; by destruct ps). destruct (_ && _) eqn:Ec; [|done]. intros _. right.
      by apply andb_true_iff in Ec as [_ Ec%bool_decide_eq_true]. }
    rewrite take_ge, <-(fr_pos _ _ _ _ _ _ _ _ _ _ _ _ _ Hfilled) in Hst2 by lia.
    assert (Hout : ∀ fl cf, match fl with Some (j, _) => j = pos.1 | None => cf ≠ None end →
      read_outcome tr content ops (ReadOutcome data eofs opened fl cf)).
    { intros fl cf Hfl. exists pos.1. pose proof (iv_global _ Hinv). split; [unfold n in *; lia|]. split.
      - eapply standing_impl; [|exact Hst2]. cbn. eauto.
      - cbn. by destruct fl as [[j st']|]. }
    destruct status as [status|]; cbn [is_Some bool_decide orb].
    + eexists. split; [reflexivity|]. split; [done|]. by apply Hout.
    + rewrite !bool_decide_eq_false_2 by (by intros []). cbn [orb].
      destruct (_ && _) eqn:Estuck; eexists; (split; [reflexivity|]).
      * apply andb_true_iff in Estuck as [Estuck%Z.eqb_eq _]. split; [done|]. apply Hout. cbn. exact Estuck.
      * by apply chunk_next.
Qed.
End Chunk.

Lemma per_op_pos : 0 < per_op.
Proof. unfold per_op, NfsClient.read_per_op_bytes, NfsClient.per_op_bytes. change MAX_OP_BYTES with 67108864. lia. Qed.

(** The compound sent for a chunk: its items, and the CLOSE of the last file. *)
Lemma read_chunk_sent t items g start pos expected ps : filled_reads s tr P per_op empty_target t items g start pos [] expected ps →
  let b := if cic && bool_decide (is_Some (tg_opened_path t)) then close_special (tg_building t) else tg_building t in
  Compound.size_check (b_compound b) = None ∧ ExecutionMap.ranges (b_map b) = group_ranges g 1 (piece_ops per_op <$> ps) ∧
  ∃ tail, Compound.ops (b_compound b) = mjoin (piece_ops per_op <$> ps) ++ tail ∧ Forall reading tail.
Proof.
  intros Hf b. pose proof (fr_ops _ _ _ _ _ _ _ _ _ _ _ _ _ Hf) as Hops'. pose proof (fr_ranges _ _ _ _ _ _ _ _ _ _ _ _ _ Hf) as Hr.
  pose proof (fr_cache _ _ _ _ _ _ _ _ _ _ _ _ _ Hf eq_refl) as Hc. cbn in Hops', Hr. unfold b. destruct (_ && _); cbn.
  - split; [done|]. split; [done|]. exists [AClose (st_seqid SPECIAL_STATEID) SPECIAL_STATEID]. split; [by rewrite Hops'|by repeat constructor].
  - split; [done|]. split; [done|]. exists []. by rewrite app_nil_r.
Qed.

Lemma read_round_ok st : inv st → (rs_global st <? n) = true →
  ∃ t, read_round rpc xdr_len verifier now fuel ops cic per_op st = Done t ∧ turn_keeps inv measure final st (Some t).
Proof.
  intros Hinv Hg. pose proof (iv_kept _ Hinv) as [Hs HP]. destruct (iv_out _ Hinv) as [Ho1 Ho2].
  destruct st as [cl w g part mx out]. cbn [rs_client rs_world rs_global rs_part rs_max_items rs_out] in *.
  unfold read_round. fold read_tag. fold (budget_of cl). fold empty_target. rewrite Ho1, Ho2. pose proof (read_budget_range _ Hs) as Hb.
  destruct (fill_reads _ _ _ _ _ _ _ _ _) as [f|e] eqn:Hfill; [|eexists; split; [reflexivity|by split]].
  destruct (fill_reads_ok s tr content P Hview _ _ _ _ _ _ _ _ _ _ _ _ _ _ Hfill) as (ps & Hps & Hnone & Hmx).
  { exact per_op_pos. }
  { unfold N in Hb. lia. }
  { cbn. lia. }
  { apply (iv_part _ Hinv). }
  { lia. }
  { apply Forall_drop. eapply Forall_impl; [exact Hops|]. cbn. by intros op (? & ? & ? & _). }
  { apply (iv_part _ Hinv). }
  rewrite Hnone. pose proof (filled_reads_count _ _ _ _ _ _ _ _ _ _ _ _ _ Hps) as Hcount. cbn in Hcount.
  destruct (Z.eqb_spec (tg_items (rf_target f)) 0) as [Hnil|Hsome].
  { eexists. split; [reflexivity|]. split; [by split|]. exists g. split; [apply (iv_global _ Hinv)|]. split; [|done].
    eapply standing_impl; [|exact (iv_data _ Hinv)]. cbn. eauto. }
  assert (Hne : ps ≠ []) by (intros ->; by rewrite Hcount in Hsome).
  destruct (read_chunk_sent _ _ _ _ _ _ _ Hps) as (Hcache & Hranges & tail & Hsent & Htail). set (b := if _ && _ then _ else _) in *.
  assert (Hreads : Forall reading (Compound.ops (b_compound b))).
  { rewrite Hsent. apply Forall_app. split; [|done]. apply pieces_reading.
    eapply Forall_impl; [exact (fr_pieces _ _ _ _ _ _ _ _ _ _ _ _ _ Hps)|]. by intros p [? _]. }
  rewrite bool_decide_eq_true_2 by done.
  destruct (send_path_io_chunk _ _ _ _ _ _ _ _ _ _ _ _ _ _ _) as [[r cl'] w'] eqn:Hcall.
  destruct (send_chunk_ok _ _ _ _ _ _ _ _ _ Hcache Hreads (conj Hs HP) Hcall) as [Hkept Hr].
  destruct r as [[cap| |res]|e]; [| | |eexists; split; [reflexivity|by split]].
  - destruct Hr as (-> & Hcap & ->). eexists. split; [reflexivity|]. rewrite Hranges, group_ranges_length, length_fmap in *.
    pose proof (pieces_count _ Hinv _ _ _ _ Hps) as Hpc. pose proof (iv_global _ Hinv). cbn [rs_global] in *. split.
    + destruct Hinv. by split.
    + unfold measure. cbn [rs_client rs_global rs_part rs_max_items]. unfold empty_target, tg_items in Hmx. cbn in Hmx. lia.
  - eexists. split; [reflexivity|]. split; [destruct Hinv; by split|].
    unfold measure. cbn [rs_client rs_global rs_part rs_max_items]. pose proof (iv_max _ Hinv) as Hm. cbn in Hm. unfold n in *. nia.
  - destruct Hr as [Hex Hcnt]. rewrite Hsent in Hex. unfold Compound.op_count in Hcnt. rewrite Hsent, length_app in Hcnt.
    apply (after_read_reply_ok (ReadState cl w g part mx out) Hinv _ _ _ _ Hne Hps b (rf_payload f) tail cl' w w' res Hranges Htail HP Hkept Hex).
    lia.
Qed.
End Loop.

(** C6: Reads by path return the bytes of the files named.  Against any service
    whose directory tree and contents do not change meanwhile, and any transport,
    [readv_path_compound] terminates without panicking and keeps the view the
    service had.  When it succeeds there is an item [k] such that every item
    before it has exactly the bytes of its file from its offset on, as many as
    were asked for unless the file ends before (then the end-of-file flag is
    right), and nothing is returned for the items after it; [failed] names that
    item, and when neither an item nor the last CLOSE failed all items are
    complete.  This holds however the items are packed, split over compounds,
    rejected for their size and repacked, and short READs completed. *)
Theorem readv_path_correct {F W} (s : nfs_spec F) (tr : fh_server) (content : nfs_fh4 → option bytes) (P : F → Prop)
    (rpc : Compound.t → W → RpcResult COMPOUND4res * W) (fs : W → F) (xdr_len : Compound.t → Z) `{!XdrSizes xdr_len}
    (verifier : Z → verifier4) (now : Z * Z) (cl : NfsClient.t) (ops : list PathReadOp) (cic : bool) (w : W) (fuel : nat) :
  let n := Z.of_nat (length ops) in
  let per_chunk := NfsClient.max_ops cl + 1 in
  readable s tr content P → transport_ok rpc → implements s rpc fs → P (fs w) →
  0 <= NfsClient.max_ops cl <= U32_MAX → NfsClient.root cl = sp_root s →
  Forall (λ op, valid_file (rp_file op) ∧ way (rp_file op) <= I64_MAX ∧ 0 <= rp_count op ∧ 0 <= rp_offset op ∧
    path_fuel (rp_file op) <= Z.of_nat fuel) ops →
  (work ops + 1) * (per_chunk * (n + 1)) <= Z.of_nat fuel →
  (work ops * per_chunk + 1) * (work ops * per_chunk + 1) <= Z.of_nat fuel →
  ∃ r cl' w', readv_path_compound rpc xdr_len verifier now fuel cl ops cic w = Done (r, cl', w') ∧ P (fs w') ∧
    match r with Ok out => read_outcome tr content ops out | Err _ => True end.
Proof.
  intros n per_chunk Hview Hrpc Himp HP Hmax Hroot Hops Hfuel Hclean.
  set (st := ReadState cl w 0 0 USIZE_MAX (ReadOutcome (replicate (length ops) None) (replicate (length ops) None) [] None None)).
  assert (Hwork : 0 <= work ops) by (apply work_nonneg; eapply Forall_impl; [exact Hops|]; cbn; by intros op (_ & _ & ? & _)).
  assert (Hi : inv tr content P fs ops cl st).
  { split; cbn [st rs_client rs_world rs_global rs_part rs_max_items rs_out ro_failed ro_close_failed ro_data ro_eof ro_opened length];
      unfold remaining; change (Z.to_nat 0) with 0%nat; rewrite ?drop_0; try done; try lia.
    - split; [lia|]. destruct ops as [|op ops']; [done|]. intros o [= <-]. by apply Forall_cons in Hops as [(_ & _ & ? & _) _].
    - split; [by rewrite length_replicate|]. split; [by rewrite length_replicate|].
      intros i op d e _ Hd He. apply lookup_replicate in Hd as [-> _], He as [-> _].
      destruct (Z.ltb_spec (Z.of_nat i) 0); [lia|]. destruct (_ =? _); [by left|done]. }
  destruct (run_in_ok (λ st, rs_global st <? n) (read_round rpc xdr_len verifier now fuel ops cic (NfsClient.read_per_op_bytes cl))
    (λ st, (Ok (rs_out st), rs_client st, rs_world st)) (inv tr content P fs ops cl) (measure ops cl cic)
    (final tr content P fs ops cl)) with (fuel := fuel) (st := st) as ([[r cl'] w'] & Hrun & [[_ HP'] Hr]).
  - intros st0 H0. pose proof (iv_left _ _ _ _ _ _ _ H0). pose proof (iv_max _ _ _ _ _ _ _ H0).
    assert (0 <= budget_of cic (rs_client st0)) by (eapply (read_budget_range cl); [exact Hmax|]; apply (iv_kept _ _ _ _ _ _ _ H0)).
    unfold measure. nia.
  - intros st0 H0 Hg. by eapply read_round_ok.
  - intros st0 H0 Hg%Z.ltb_ge. split; [apply (iv_kept _ _ _ _ _ _ _ H0)|]. destruct (iv_out _ _ _ _ _ _ _ H0) as [E _].
    pose proof (iv_global _ _ _ _ _ _ _ H0). exists n. split; [unfold n; lia|]. cbn. rewrite E. split; [|done].
    assert (rs_global st0 = n) as <- by (unfold n in *; lia). eapply standing_impl; [|exact (iv_data _ _ _ _ _ _ _ H0)]. cbn. eauto.
  - exact Hi.
  - assert (budget_of cic cl <= NfsClient.max_ops cl) by (eapply (read_budget_range cl); [exact Hmax|done]).
    unfold measure, remaining. cbn [st rs_client rs_global rs_part rs_max_items]. change (Z.to_nat 0) with 0%nat. rewrite drop_0.
    fold n. unfold per_chunk in *. nia.
  - by exists r, cl', w'.
Qed.

(** Two directories with a file each, read through a server that takes at most
    nine operations: the last item is partly past the end of its file. *)
Definition example_tree : mem :=
  Mem (<[bstr "root" := NDir (<[bstr "a" := bstr "da"]> {[bstr "b" := bstr "db"]})]>
       (<[bstr "da" := NDir {[bstr "f" := bstr "ff"]}]>
        (<[bstr "db" := NDir {[bstr "g" := bstr "gg"]}]>
         (<[bstr "ff" := NFile (bstr "first")]> {[bstr "gg" := NFile (bstr "second")]})))) 7 [].
Definition example_up (x : bytes) : option bytes :=
  if bool_decide (x = bstr "da") || bool_decide (x = bstr "db") then Some (bstr "root") else None.
Definition example_path_reads : list PathReadOp :=
  [PathRead (FPath (bstr "/a/f")) 0 3 None; PathRead (FPath (bstr "/b/g")) 1 2 None; PathRead (FPath (bstr "/b/g")) 4 4 None].
Definition example_path_client : NfsClient.t :=
  NfsClient.Make SlotLemmas.example_session (bstr "root") 4096 4096 24 (AdaptiveCompoundLimits.new 24) 4096 None 1024 [] 0.

Lemma readv_path_correct_witness :
  ∃ r cl' w', readv_path_compound (spec_server MemFs.spec 9) SendLemmas.example_xdr_len (λ _, []) (0, 0) (Z.to_nat 100000)
      example_path_client example_path_reads false example_tree = Done (r, cl', w') ∧
    match r with
    | Ok out => ro_data out = [Some (bstr "fir"); Some (bstr "ec"); Some (bstr "nd")] ∧
        ro_eof out = [Some false; Some false; Some true] ∧ ro_failed out = None
    | Err _ => False
    end ∧ nodes w' = nodes example_tree.
Proof.
  destruct (readv_path_correct MemFs.spec (MemTree.tree example_tree example_up) (MemTree.content example_tree)
    (λ g, nodes g = nodes example_tree) (spec_server MemFs.spec 9) id SendLemmas.example_xdr_len (λ _, []) (0, 0)
    example_path_client example_path_reads false example_tree (Z.to_nat 100000)) as (r & cl' & w' & E & HP & _).
  - apply MemTree.mem_readable. apply (bool_decide_unpack _). by vm_compute.
  - apply spec_server_transport; [apply MemFs.mem_spec_ok|reflexivity].
  - apply spec_server_implements, MemFs.mem_spec_ok.
  - reflexivity.
  - by vm_compute.
  - reflexivity.
  - rewrite Z2Nat.id by lia. repeat (apply Forall_cons; split; [split_and!; [by eexists|by vm_compute..]|]). constructor.
  - rewrite Z2Nat.id by lia. by vm_compute.
  - rewrite Z2Nat.id by lia. by vm_compute.
  - exists r, cl', w'. split; [exact E|]. split; [|exact HP].
    assert (Hr : match readv_path_compound (spec_server MemFs.spec 9) SendLemmas.example_xdr_len (λ _, []) (0, 0) (Z.to_nat 100000)
        example_path_client example_path_reads false example_tree with
      Done (v, _, _) => match v with
        | Ok out => ro_data out = [Some (bstr "fir"); Some (bstr "ec"); Some (bstr "nd")] ∧
            ro_eof out = [Some false; Some false; Some true] ∧ ro_failed out = None
        | Err _ => False end
      | _ => False end) by (vm_compute; repeat split; reflexivity).
    rewrite E in Hr. exact Hr.
Defined.
End PathReadLemmas.
