(* ===== verification/OpenPaths.v ===== *)
(** * Opening files by path and by handle

    Models [openv_path_compound], [openv_handle_compound],
    [cleanup_exclusive_path_opens] and [prepare_path_opens] of
    [crates/vfsi-nfs/src/client.rs]: OPENs under one owner each, merged into as
    few compounds as fit, whose results the caller keeps. *)
From stdpp Require Import base numbers countable list list_numbers gmap strings.
From S2P Require Import Prelude Path Errors Types Planner Compound Session Cursor Client IoProgress Loops Exchange Server Batch BatchOps Resolve Single BatchSpec Mutations Opens Lifecycle Merged MergedOnce ChunkReply.

Record PathOpenOp := PathOpen {
  po_path : bytes;
  po_access : Z;
  po_create : OpenCreate;
  po_mode : option Z;
  po_truncate : bool;
}.

(** A file opened: the handle, the stateid, and for an exclusive create what its
    verifier was stored in. *)
Record opened_file := OpenedFile {
  of_fh : nfs_fh4;
  of_stateid : stateid4;
  of_verifier : option VerifierStorageAttrs;
}.

Record PathOpenOutcome := OpenOutcome {
  oo_opened : list (option (nfs_fh4 * stateid4));
  oo_failed : option (Z * Z);
}.

Definition pair_of (o : opened_file) : nfs_fh4 * stateid4 := (of_fh o, of_stateid o).
Definition outcome_of (opened : list (option opened_file)) (failed : option (Z * Z)) : PathOpenOutcome :=
  OpenOutcome (option_map pair_of <$> opened) failed.
(** [opened.iter_mut().filter_map(Option::take).map(CloseOp)]. *)
Definition closes_of_opened (opened : list (option opened_file)) : list CloseOp :=
  omap (λ o, (λ o, Close (of_fh o) (of_stateid o)) <$> o) opened.

(** [prepare_path_opens]: what was opened is closed when the next step fails. *)
Definition prepare_path_opens {C T E} (opened : list (nfs_fh4 * stateid4)) (client : C)
    (prepare : C → result E T * C) (close : C → list CloseOp → C) : result E T * C :=
  let '(result, client) := prepare client in
  match result with
  | Err e => (Err e, if bool_decide (opened = []) then client
                     else close client ((λ o, Close o.1 o.2) <$> opened))
  | Ok v => (Ok v, client)
  end.

Section Operations.
Context {W : Type} (rpc : Compound.t → W → RpcResult COMPOUND4res * W) (xdr_len : Compound.t → Z).
(** The verifiers drawn for the items, and the clock. *)
Context (verifier : Z → verifier4) (now : Z * Z).

(** ** By path *)

(** What an item adds: the walk to the parent, OPEN and GETFH.  An item carries
    its owner and its position. *)
Definition open_item : Type := PathOpenOp * bytes * Z.
Definition open_how_of (cid : Z) (item : open_item) (leaf : bytes) (c : Compound.t) : Compound.t :=
  let '(op, owner, i) := item in
  match po_create op with
  | OUnchecked =>
      Compound.open_claim_null_create_mode c 0 (po_access op) OPEN4_SHARE_DENY_NONE cid owner leaf
        (Some (default 420 (* 0o644 *) (po_mode op))) (po_truncate op)
  | create =>
      Compound.open_claim_null c 0 (po_access op) OPEN4_SHARE_DENY_NONE cid owner (make_open_how create (verifier i)) leaf
  end.
Definition emit_open (cid : Z) (item : open_item) (b : building) : bool * building :=
  match at_parent b (po_path item.1.1) with
  | None => (false, b)
  | Some (leaf, b) =>
      (true, end_and_descend (add_op (add_op b (open_how_of cid item leaf)) Compound.getfh))
  end.

(** [for j in s..e { if op(j) is OPEN { opened[c] = ...; verifier_attrs[c] = ... } }]. *)
Fixpoint collect_opens_in (ops : list PathOpenOp) (res : COMPOUND4res) (caller from : Z) (count : nat)
    (o : list (option opened_file)) : option (list (option opened_file)) :=
  match count with
  | O => Some o
  | S count =>
      r ← CompoundRes.op res from;
      o ← (if resop_num r =? OP_OPEN then
             st ← CompoundRes.open res from; mask ← CompoundRes.open_attrset res from;
             fh ← CompoundRes.getfh res (from + 1);
             op ← ops !! Z.to_nat caller;
             vec_set o caller (Some (OpenedFile fh st
               (if bool_decide (po_create op = OExclusive) then Some (verifier_storage_attrs mask) else None)))
           else Some o);
      collect_opens_in ops res caller (from + 1) count o
  end.

Fixpoint collect_opens (ops : list PathOpenOp) (res : COMPOUND4res) (rs : list ExecutionMap.range)
    (o : list (option opened_file)) : option (list (option opened_file)) :=
  match rs with
  | [] => Some o
  | r :: rs =>
      o ← collect_opens_in ops res (ExecutionMap.r_caller r) (ExecutionMap.r_start r)
            (Z.to_nat (ExecutionMap.r_end r - ExecutionMap.r_start r)) o;
      collect_opens ops res rs o
  end.

Definition openv_shape (cid : Z) (ops : list PathOpenOp) : Merged.shape open_item (list (option opened_file)) :=
  Merged.Shape "openv1" 6 16 256 (emit_open cid) (Some NonIdempotentMutation)
    NfsClient.can_retry_merged_resource (collect_opens ops).

(** The repairs of the exclusive creates among [indices], with their positions. *)
Definition exclusive_cleanup (opened : list (option opened_file)) (ops : list PathOpenOp) (indices : list Z)
    : list (Z * SetattrOp) :=
  omap (λ index,
    op ← ops !! Z.to_nat index; o ← mjoin (opened !! Z.to_nat index);
    if bool_decide (po_create op = OExclusive) then
      let attrs := default (StorageAttrs false false false) (of_verifier o) in
      let mode := (λ m, Z.land m 4095 (* 0o7777 *)) <$> po_mode op in
      if bool_decide (is_Some mode) || any_storage attrs
      then Some (index, verifier_cleanup_setattr (of_fh o) attrs mode now) else None
    else None) indices.

Definition cleanup_exclusive_path_opens (fuel : nat) (cl : NfsClient.t) (opened : list (option opened_file))
    (ops : list PathOpenOp) (indices : list Z) (w : W) : outcome (RpcResult unit * NfsClient.t * W) :=
  let cleanup := exclusive_cleanup opened ops indices in
  '(r, cl, w) ← setattr_many rpc xdr_len fuel cl (cleanup.*2) w;
  Done (match r with Ok u => Ok u | Err e => Err (remap_cleanup_error e (cleanup.*1)) end, cl, w).

Record open_state := OpenState {
  os_client : NfsClient.t;
  os_world : W;
  os_global : Z;
  os_max_items : Z;
  os_opened : list (option opened_file);
  os_failed : option (Z * Z);
}.
Definition open_answer : Type := RpcResult PathOpenOutcome * NfsClient.t * W.

(** An error after which everything opened so far is closed. *)
Definition close_and_fail (fuel : nat) (cl : NfsClient.t) (opened : list (option opened_file)) (e : RpcError.t) (w : W)
    : outcome (turn open_state open_answer) :=
  '(cl, w) ← Lifecycle.close_path_or_defer rpc xdr_len fuel cl (closes_of_opened opened) w;
  Done (Return (Err e, cl, w)).

(** The callers of the ranges with an OPEN in them, which [completed] lists. *)
Definition after_open_reply (fuel : nat) (ops : list PathOpenOp) (cl : NfsClient.t) (chunk_start global budget : Z)
    (opened : list (option opened_file)) (failed : option (Z * Z)) (map : ExecutionMap.t) (res : COMPOUND4res) (w : W)
    : outcome (turn open_state open_answer) :=
  if resource_rejected_before_mutation res && NfsClient.can_retry_merged_resource cl (bstr "openv1") res budget 16 6
  then Done (Again (OpenState cl w chunk_start USIZE_MAX opened failed))
  else
    match first_failed_range res map with
    | Err e => Done (Return (Err e, cl, w))
    | Ok (Some (caller, st)) =>
        let done_ := filter (λ r, ExecutionMap.r_caller r < caller) (ExecutionMap.ranges map) in
        opened ← or_panic (collect_opens ops res done_ opened);
        '(r, cl, w) ← cleanup_exclusive_path_opens fuel cl opened ops (ExecutionMap.r_caller <$> done_) w;
        match r with
        | Err e => close_and_fail fuel cl opened e w
        | Ok _ => Done (Return (Ok (outcome_of opened (Some (caller, st))), cl, w))
        end
    | Ok None =>
        opened ← or_panic (collect_opens ops res (ExecutionMap.ranges map) opened);
        '(r, cl, w) ← cleanup_exclusive_path_opens fuel cl opened ops (ExecutionMap.r_caller <$> ExecutionMap.ranges map) w;
        match r with
        | Err e => close_and_fail fuel cl opened e w
        | Ok _ =>
            if chunk_start =? global
            then Done (Return (Ok (outcome_of opened (Merged.or_too_many failed chunk_start)), cl, w))
            else Done (Again (OpenState cl w global USIZE_MAX opened failed))
        end
    end.

Definition open_round (fuel : nat) (ops : list PathOpenOp) (names : list bytes) (st : open_state)
    : outcome (turn open_state open_answer) :=
  let 'OpenState cl w chunk_start max_items opened failed := st in
  let sh := openv_shape (clientid cl) ops in
  let items := imap (λ i x, (x.1, x.2, Z.of_nat i)) (zip ops names) in
  let budget := Merged.budget_of sh cl in
  let start := Building CfhCursor.default_cursor ExecutionMap.new (Compound.tag Compound.new (bstr "openv1")) in
  let '(invalid, global, b) :=
    Merged.fill sh (NfsClient.max_request_arg_bytes cl) budget max_items (Z.of_nat (length ops))
      (drop (Z.to_nat chunk_start) items) chunk_start 0 start in
  let failed := match invalid with Some f => Some f | None => failed end in
  let count := Z.of_nat (length (ExecutionMap.ranges (b_map b))) in
  if count =? 0 then Done (Return (Ok (outcome_of opened (Merged.or_too_many failed chunk_start)), cl, w))
  else
    let '(repack, c) :=
      match failed with
      | None => NfsClient.merged_paths_need_repack xdr_len cl (bstr "openv1") 7 (b_compound b) count
      | Some _ => (false, b_compound b)
      end in
    if repack then Done (Again (OpenState cl w chunk_start (count - 1) opened failed))
    else
      match CompoundBudget.ensure (CompoundBudget.Make (NfsClient.max_ops cl)) c with
      | Err e => Done (Return (Err e, cl, w))
      | Ok _ =>
          let '(r, cl, w) := NfsClient.call_compound_with_safety rpc xdr_len cl c NonIdempotentMutation w in
          match r with
          | Err e => close_and_fail fuel cl opened e w
          | Ok res => after_open_reply fuel ops cl chunk_start global budget opened failed (b_map b) res w
          end
      end.

Definition openv_path_compound (fuel : nat) (cl : NfsClient.t) (ops : list PathOpenOp) (w : W) : outcome open_answer :=
  '(r, cl, w) ← or_panic (Lifecycle.drain_deferred_path_closes rpc xdr_len cl w);
  match r with
  | Err e => Done (Err e, cl, w)
  | Ok _ =>
      let '(names, cl) := public_owner_names (length ops) cl in
      run_in (λ st, os_global st <? Z.of_nat (length ops)) (open_round fuel ops names)
        (λ st, (Ok (outcome_of (os_opened st) (os_failed st)), os_client st, os_world st)) fuel
        (OpenState cl w 0 USIZE_MAX (replicate (length ops) None) None)
  end.

(** ** By handle *)

Record reopen_state := ReopenState {
  re_client : NfsClient.t;
  re_world : W;
  re_global : Z;
  re_max_items : Z;
  re_opened : list (option (nfs_fh4 * stateid4));
}.
(** How the attempt ends: with the first failure, or with an error. *)
Definition reopen_answer : Type := RpcResult (option (Z * Z)) * list (option (nfs_fh4 * stateid4)) * NfsClient.t * W.

Fixpoint fill_reopens (cid budget max_items : Z) (items : list (nfs_fh4 * Z * bytes)) (global : Z) (map : ExecutionMap.t)
    (c : Compound.t) : Z * ExecutionMap.t * Compound.t :=
  match items with
  | [] => (global, map, c)
  | (fh, access, owner) :: items =>
      if (Z.of_nat (length (ExecutionMap.ranges map)) <? max_items) && (ExecutionMap.next map + 2 <=? budget) then
        fill_reopens cid budget max_items items (global + 1)
          (ExecutionMap.end_ (ExecutionMap.note_ops (ExecutionMap.begin map global) 2))
          (Compound.open_claim_fh (Compound.putfh c fh) access cid owner)
      else (global, map, c)
  end.

(** [for &(caller, begin, _) in &map.ranges { if failed <= caller { break } opened[caller] = ... }]. *)
Fixpoint collect_reopens (ops : list (nfs_fh4 * Z)) (res : COMPOUND4res) (failed : option (Z * Z))
    (rs : list ExecutionMap.range) (opened : list (option (nfs_fh4 * stateid4)))
    : option (list (option (nfs_fh4 * stateid4))) :=
  match rs with
  | [] => Some opened
  | r :: rs =>
      let caller := ExecutionMap.r_caller r in
      if (match failed with Some (index, _) => index <=? caller | None => false end) then Some opened
      else
        op ← ops !! Z.to_nat caller; st ← CompoundRes.open res (ExecutionMap.r_start r + 1);
        opened ← vec_set opened caller (Some (op.1, st));
        collect_reopens ops res failed rs opened
  end.

Definition reopen_round (ops : list (nfs_fh4 * Z)) (owners : list bytes) (st : reopen_state)
    : option (turn reopen_state reopen_answer) :=
  let 'ReopenState cl w start max_items opened := st in
  let budget := CompoundBudget.merged_limit (NfsClient.op_budget_for cl (bstr "reopenfh") 3) 0 2 in
  let '(global, map, c) :=
    fill_reopens (clientid cl) budget max_items (drop (Z.to_nat start) (zip ops owners)) start ExecutionMap.new
      (Compound.tag Compound.new (bstr "reopenfh")) in
  let count := Z.of_nat (length (ExecutionMap.ranges map)) in
  if count =? 0 then Some (Return (Ok (Some (start, NFS4ERR_TOO_MANY_OPS)), opened, cl, w))
  else
    let '(repack, c) := NfsClient.merged_paths_need_repack xdr_len cl (bstr "reopenfh") 3 c count in
    if repack then Some (Again (ReopenState cl w start (count - 1) opened))
    else
      let '(r, cl, w) := NfsClient.call_compound_with_safety rpc xdr_len cl c NonIdempotentMutation w in
      match r with
      | Err e => Some (Return (Err e, opened, cl, w))
      | Ok res =>
          if resource_rejected_before_mutation res &&
             NfsClient.can_retry_merged_resource cl (bstr "reopenfh") res budget 0 2
          then Some (Again (ReopenState cl w start max_items opened))
          else
            match first_failed_range res map with
            | Err e => Some (Return (Err e, opened, cl, w))
            | Ok failed =>
                opened ← collect_reopens ops res failed (ExecutionMap.ranges map) opened;
                match failed with
                | Some _ => Some (Return (Ok failed, opened, cl, w))
                | None => Some (Again (ReopenState cl w global USIZE_MAX opened))
                end
            end
      end.

Definition openv_handle_compound (fuel : nat) (cl : NfsClient.t) (ops : list (nfs_fh4 * Z)) (w : W)
    : outcome (RpcResult PathOpenOutcome * NfsClient.t * W) :=
  let '(owners, cl) := public_owner_names (length ops) cl in
  '(r, opened, cl, w) ← run (λ st, re_global st <? Z.of_nat (length ops)) (reopen_round ops owners)
    (λ st, (Ok None, re_opened st, re_client st, re_world st)) fuel
    (ReopenState cl w 0 USIZE_MAX (replicate (length ops) None));
  match r with
  | Ok failed => Done (Ok (OpenOutcome opened failed), cl, w)
  | Err error =>
      '(cl, w) ← Lifecycle.close_path_or_defer rpc xdr_len fuel cl (omap (λ o, (λ o, Close o.1 o.2) <$> o) opened) w;
      Done (Err error, cl, w)
  end.
End Operations.

(** ** What reopening handles means *)

Section Spec.
Context {F W : Type} (s : nfs_spec F) (rpc : Compound.t → W → RpcResult COMPOUND4res * W) (fs : W → F).
Context (xdr_len : Compound.t → Z) (cid : Z).

(** An item: the handle, the access and the owner. *)
Definition reopen_item : Type := nfs_fh4 * Z * bytes.
Definition reopen_args (item : reopen_item) : OPEN4args := OpenArgs 0 item.1.2 0 cid item.2 NoCreate ClaimFh.
Definition reopen_step (item : reopen_item) (_ : Z) (f : F) : result Z (F * stateid4) :=
  at_fh s f item.1.1
    match sp_open s f item.1.1 (reopen_args item) with Ok (f, (_, st, _)) => Ok (f, st) | Err st => Err st end.

(** The operations of an item. *)
Definition reopen_group (item : reopen_item) (_ : Z) : list argop := [APutFh item.1.1; AOpen (reopen_args item)].

(** The outcome when the first [k] items were answered with [sts]. *)
Definition reopened (ops : list (nfs_fh4 * Z)) (sts : list stateid4) : list (option (nfs_fh4 * stateid4)) :=
  (Some <$> zip (ops.*1) sts) ++ replicate (length ops - length sts) None.

(** How [openv_handle_compound] may end: the answers of the items before the
    failing one, in order; or an error.  Then all [k] OPENs that were answered
    before, up to the world [w0], are handed to a CLOSE, which is the last thing
    the call does: they have been closed, or they are kept to be closed later.
    Only one more request can have been sent, from [w0] to [w1], with OPENs the
    client does not know of. *)
Definition reopens_refined (fuel : nat) (ops : list (nfs_fh4 * Z)) (owners : list bytes) (cl : NfsClient.t) (w : W)
    (r : RpcResult PathOpenOutcome) (cl' : NfsClient.t) (w' : W) : Prop :=
  let items := zip ops owners in
  let steps := item_groups reopen_step 0 items in
  let deferred := NfsClient.deferred_path_closes in
  match r with
  | Ok out =>
      ∃ k sts, answers (take k steps) (fs w) = Ok (fs w', sts) ∧ oo_opened out = reopened ops sts ∧ deferred cl' = deferred cl ∧
        match oo_failed out with
        | None => k = length ops
        | Some (i, _) => i = Z.of_nat k ∧ (k < length ops)%nat
        end
  | Err _ =>
      ∃ k k' cl1 w0 w1 sts, (k <= k' <= length ops)%nat ∧
        answers (take k steps) (fs w) = Ok (fs w0, take k sts) ∧ answers (take k' steps) (fs w) = Ok (fs w1, sts) ∧
        (w1 = w0 ∨ ∃ n r0, ExchangeLemmas.sent rpc (mjoin (item_groups reopen_group 0 (take n (drop k items)))) w0 r0 w1) ∧
        let closes := zip_with Close (ops.*1) (take k sts) in
        Lifecycle.close_path_or_defer rpc xdr_len fuel cl1 closes w1 = Done (cl', w') ∧
        ∃ j vs, answers (closed s <$> take j closes) (fs w1) = Ok (fs w', vs) ∧
          ((length closes <= j)%nat ∧ deferred cl' = deferred cl ∨ deferred cl' = deferred cl ++ closes)
  end.
End Spec.

Module ReopenLemmas.
Import ExchangeLemmas ServerLemmas SingleLemmas GroupLemmas BatchOpsLemmas BatchSpecLemmas ChunkReplyLemmas.

Section Reopen.
Context {F W : Type} (s : nfs_spec F) (rpc : Compound.t → W → RpcResult COMPOUND4res * W) (fs : W → F).
Context (Hrpc : transport_ok rpc) (Himp : implements s rpc fs).
Context (xdr_len : Compound.t → Z) `{!XdrSizes xdr_len}.
Context (ops : list (nfs_fh4 * Z)) (owners : list bytes) (Howners : length owners = length ops) (cl0 : NfsClient.t) (f0 : F).
Context (Hmax : 0 <= NfsClient.max_ops cl0 <= U32_MAX).
Let n : nat := length ops.
Let N : Z := NfsClient.max_ops cl0.
Let cid : Z := clientid cl0.
Let items : list reopen_item := zip ops owners.
Let steps : list (F → result Z (F * stateid4)) := item_groups (reopen_step s cid) 0 items.

Definition reopen_shown (st : stateid4) (rs : list resop) : Prop := ∃ mask, rs !! 1%nat = Some (ROpen NFS_OK st mask).

Lemma performs_reopen : performs s (reopen_group cid) 2 (reopen_step s cid) reopen_shown true.
Proof.
  split; [done|lia|by repeat constructor| |].
  - intros x i [f c sv] m' rs H. cbn -[vec_of] in H. unfold reopen_step. machine; try congruence.
    eexists. split; [reflexivity|]. by eexists.
  - intros x i k [f c sv] m' rs Hk H. left. destruct k as [|[|k]]; [| |lia]; cbn -[vec_of] in H; machine; try congruence.
Qed.

Lemma const_groups {T A} (g : T → A) i l : item_groups (λ x _, g x) i l = g <$> l.
Proof. revert i. induction l as [|x l IH]; intros i; [done|]. cbn. by rewrite IH. Qed.
Lemma reopen_groups i l : item_groups (reopen_group cid) i l = (λ x, reopen_group cid x 0) <$> l.
Proof. apply (const_groups (λ x, reopen_group cid x 0)). Qed.

Lemma fill_reopens_ok budget mx (l : list reopen_item) g map c g' map' c' : fill_reopens cid budget mx l g map c = (g', map', c') →
  0 <= ExecutionMap.next map → budget <= U32_MAX →
  let gs j := item_groups (reopen_group cid) 0 (take j l) in
  ∃ j, (j <= length l)%nat ∧ g' = g + Z.of_nat j ∧ Compound.ops c' = Compound.ops c ++ mjoin (gs j) ∧
    (Compound.size_check c = None → Compound.size_check c' = None) ∧
    ExecutionMap.ranges map' = ExecutionMap.ranges map ++ group_ranges g (ExecutionMap.next map) (gs j) ∧
    Z.of_nat (length (ExecutionMap.ranges map)) + Z.of_nat j <= Z.max mx (Z.of_nat (length (ExecutionMap.ranges map))).
Proof.
  intros Hfill Hn Hb gs. revert g map c Hfill Hn. induction l as [|[[fh access] owner] l IH]; intros g map c; cbn [fill_reopens].
  { intros [= <- <- <-] _. exists 0%nat. cbn. rewrite !app_nil_r. split_and!; try done; lia. }
  destruct (_ && _) eqn:E; cycle 1.
  { intros [= <- <- <-] _. exists 0%nat. cbn. rewrite !app_nil_r. split_and!; try done; lia. }
  apply andb_true_iff in E as [Emx%Z.ltb_lt Ebud%Z.leb_le]. intros H' Hn.
  set (map1 := ExecutionMap.end_ (ExecutionMap.note_ops (ExecutionMap.begin map g) 2)) in *.
  assert (Hr1 : ExecutionMap.ranges map1 = ExecutionMap.ranges map ++ [(g, ExecutionMap.next map, ExecutionMap.next map + 2)] ∧
    ExecutionMap.next map1 = ExecutionMap.next map + 2).
  { unfold map1, ExecutionMap.end_, ExecutionMap.note_ops, ExecutionMap.begin. cbn. rewrite last_snoc. cbn.
    rewrite length_app. cbn. rewrite Nat.add_sub, take_app_length. unfold sat_add, U64_MAX, U32_MAX in *. rewrite Z.min_l by lia. done. }
  destruct Hr1 as [Hr1 Hn1]. apply IH in H' as (j & Hj & -> & Hops & Hc & Hr & Hl); [|lia].
  exists (S j). cbn [take item_groups length]. rewrite Hops, Hr, Hr1, Hn1. cbn [length] in *.
  rewrite reopen_groups in *. subst gs. cbn beta. cbn [item_groups]. rewrite reopen_groups.
  split_and!; [lia|lia| |intros Hs; by apply Hc| |].
  - cbn. by rewrite <-!app_assoc.
  - rewrite <-app_assoc. done.
  - rewrite Hr1, length_app in Hl. cbn in Hl. lia.
Qed.
(** Storing the answers of a chunk. *)
Lemma reopened_snoc l sts op v : l !! length sts = Some op →
  length (reopened l sts) = length l ∧
  <[length sts := Some (op.1, v)]> (reopened l sts) = reopened l (sts ++ [v]).
Proof.
  unfold reopened. revert sts. induction l as [|a l IH]; intros sts Hop; [by rewrite lookup_nil in Hop|].
  destruct sts as [|st sts]; cbn in Hop.
  - injection Hop as ->. split; [cbn; by rewrite length_replicate|]. cbn. f_equal. by destruct l.
  - destruct (IH sts Hop) as [H1 H2]. cbn. split; [f_equal; exact H1|]. f_equal. exact H2.
Qed.

Lemma collect_reopens_ok res failed gs g first sts vs : Forall (λ x : list argop, length x = 2%nat) gs →
  g = Z.of_nat (length sts) → (length sts + length gs <= n)%nat → (length vs <= length gs)%nat →
  match failed with Some (i, _) => i = g + Z.of_nat (length vs) | None => length vs = length gs end →
  (∀ i v, vs !! i = Some v → CompoundRes.open res (first + Z.of_nat (2 * i) + 1) = Some v) →
  collect_reopens ops res failed (group_ranges g first gs) (reopened ops sts) = Some (reopened ops (sts ++ vs)).
Proof.
  intros Hgs. revert g first sts vs. induction Hgs as [|x gs Hx _ IH]; intros g first sts vs Hg Hn Hl Hf Hopen; cbn [group_ranges collect_reopens].
  { destruct vs; [by rewrite app_nil_r|cbn in Hl; lia]. }
  unfold ExecutionMap.r_caller, ExecutionMap.r_start. cbn [fst snd]. destruct vs as [|v vs].
  { destruct failed as [[i st]|]; [|cbn in Hf; lia]. cbn in Hf. rewrite (proj2 (Z.leb_le _ _)) by lia. by rewrite app_nil_r. }
  cbn [length] in *. replace (match failed with Some (index, _) => index <=? g | None => false end) with false
    by (destruct failed as [[i st]|]; [symmetry; apply Z.leb_gt; lia|done]).
  destruct (lookup_lt_is_Some_2 ops (length sts)) as [op Hop]; [unfold n in Hn; lia|].
  destruct (reopened_snoc ops sts op v Hop) as [Hlen Hset].
  rewrite Hg, Nat2Z.id, Hop. cbn [mbind option_bind]. pose proof (Hopen 0%nat v eq_refl) as H0. rewrite Z.add_0_r in H0. rewrite H0.
  cbn [mbind option_bind]. unfold vec_set. rewrite Hlen, Nat2Z.id, Hset. unfold n in Hn.
  rewrite (proj2 (andb_true_iff _ _)) by (split; [apply Z.leb_le|apply Z.ltb_lt]; lia). cbn [mbind option_bind].
  rewrite (IH _ _ _ vs); [by rewrite <-app_assoc|rewrite length_app; cbn; lia|rewrite length_app; cbn; unfold n; lia|lia| |].
  - destruct failed as [[i st]|]; lia.
  - intros i u Hu. specialize (Hopen (S i) u Hu). rewrite Hx. rewrite <-Hopen. f_equal. lia.
Qed.

(** A run of a chunk performs the items it completed. *)
Lemma chunk_reopened g j d w sts m rs : (g <= n)%nat → answers (take g steps) f0 = Ok (fs w, sts) →
  spec_steps s (start (fs w)) (take d (mjoin (item_groups (reopen_group cid) 0 (take j (drop g items))))) = Some (m, rs) →
  let k := ((d / 2) `min` length (take j (drop g items)))%nat in
  ∃ vs, answers (take (g + k) steps) f0 = Ok (mc_fs m, sts ++ vs) ∧ length vs = k ∧
    ∀ i v, vs !! i = Some v → reopen_shown v (take 2 (drop (i * 2) rs)).
Proof.
  intros Hg Ha Hrun k. destruct (groups_run s _ _ _ _ _ performs_reopen 0 _ _ _ _ _ Hrun) as (k' & vs & Hk & Hvs & Hpay).
  destruct Hk as [->|[? _]]; [|done]. fold k in Hvs, Hpay.
  assert (Hsteps : take k (item_groups (reopen_step s cid) 0 (take j (drop g items))) = take k (drop g steps)).
  { unfold steps, reopen_step. rewrite !const_groups. rewrite <-fmap_drop, <-!fmap_take, take_take. f_equal. f_equal. unfold k.
    lengths. }
  rewrite Hsteps in Hvs. exists vs. pose proof (answers_length _ _ _ _ Hvs) as Hlen. rewrite <-Hsteps in Hlen.
  rewrite length_take, item_groups_length in Hlen. split; [|split; [lia|]].
  - rewrite <-(take_take_drop _ g), answers_app, Ha. cbn [start mc_fs] in Hvs. by rewrite Hvs.
  - intros i v Hv. apply Hpay; [apply lookup_lt_Some in Hv; lia|done].
Qed.
Lemma call_clientid cl c w r cl' w' : NfsClient.call_compound rpc xdr_len cl c w = (r, cl', w') → clientid cl' = clientid cl.
Proof.
  unfold NfsClient.call_compound. destruct (CompoundBudget.ensure _ _); [|by intros [= _ <- _]].
  destruct (NfsClient.compound_request_fits _ _ _) as [fits c1]. destruct (negb fits); [by intros [= _ <- _]|].
  destruct (Session.compound rpc _ _ _) as [[r1 ss] w1] eqn:E.
  assert (Session.clientid ss = Session.clientid (NfsClient.session cl)).
  { unfold Session.compound in E. destruct (Session.poisoned _); [by injection E as _ <- _|].
    destruct (call rpc _ _) as [[res|e] w2]; [|by injection E as _ <- _]. injection E as _ <- _. by case_match. }
  destruct r1; by intros [= _ <- _].
Qed.

Definition reopen_budget (cl : NfsClient.t) : Z :=
  CompoundBudget.merged_limit (NfsClient.op_budget_for cl (bstr "reopenfh") 3) 0 2.

Record reopen_inv (st : reopen_state (W := W)) : Prop := {
  ri_limits : same_limits cl0 (re_client st);
  ri_clientid : clientid (re_client st) = cid;
  ri_global : 0 <= re_global st <= Z.of_nat n;
  ri_max : 1 <= re_max_items st;
  ri_answers : ∃ sts, answers (take (Z.to_nat (re_global st)) steps) f0 = Ok (fs (re_world st), sts) ∧ re_opened st = reopened ops sts;
}.

Definition reopen_measure (st : reopen_state (W := W)) : Z :=
  (Z.of_nat n - re_global st) * ((N + 1) * (Z.of_nat n + 1)) + reopen_budget (re_client st) * (Z.of_nat n + 1) +
  Z.min (re_max_items st) (Z.of_nat n).

Definition reopen_final (a : reopen_answer (W := W)) : Prop :=
  same_limits cl0 a.1.2 ∧
  match a.1.1.1 with
  | Ok failed =>
      ∃ k sts, answers (take k steps) f0 = Ok (fs a.2, sts) ∧ a.1.1.2 = reopened ops sts ∧ clientid a.1.2 = cid ∧
        match failed with None => k = n | Some (i, _) => i = Z.of_nat k ∧ (k < n)%nat end
  | Err _ =>
      ∃ k k' w0 sts, (k <= k' <= n)%nat ∧ answers (take k steps) f0 = Ok (fs w0, take k sts) ∧
        answers (take k' steps) f0 = Ok (fs a.2, sts) ∧
        (a.2 = w0 ∨ ∃ j r0, sent rpc (mjoin (item_groups (reopen_group cid) 0 (take j (drop k items)))) w0 r0 a.2) ∧
        a.1.1.2 = reopened ops (take k sts)
  end.

Lemma items_length : length items = n.
Proof. unfold items, n. lengths. Qed.
Lemma reopen_steps_length : length steps = n.
Proof. unfold steps. by rewrite item_groups_length, items_length. Qed.
Lemma answered_length k f sts : (k <= n)%nat → answers (take k steps) f0 = Ok (f, sts) → length sts = k.
Proof. intros Hk Ha. rewrite (answers_length _ _ _ _ Ha), length_take, reopen_steps_length. lia. Qed.

Lemma reopen_budget_range cl : same_limits cl0 cl → 0 <= reopen_budget cl <= N.
Proof.
  clear Howners n. intros [Hm _]. destruct (MergedOnceLemmas.merged_limit_range (NfsClient.op_budget_for cl (bstr "reopenfh") 3) 0 2) as [Hb _].
  - unfold NfsClient.op_budget_for. cbn [CompoundBudget.max_ops]. lia.
  - by vm_compute.
  - unfold reopen_budget, N. split; [apply Hb|]. etransitivity; [apply Hb|]. unfold NfsClient.op_budget_for. cbn [CompoundBudget.max_ops]. lia.
Qed.

(** Sending a chunk: a reply, or an error after which some items were reopened. *)
Lemma reopen_sent cl c w r cl' w' : Compound.size_check c = None ∨ PreflightLemmas.cache_ok xdr_len c →
  NfsClient.call_compound_with_safety rpc xdr_len cl c NonIdempotentMutation w = (r, cl', w') →
  same_limits cl cl' ∧ clientid cl' = clientid cl ∧
  match r with
  | Ok res => exchanged rpc (Compound.ops c) w res w'
  | Err _ => w' = w ∨ ∃ r0, sent rpc (Compound.ops c) w r0 w'
  end.
Proof.
  intros Hc Hcall. destruct (safe_call rpc xdr_len cl c NonIdempotentMutation w r cl' w' Hcall) as (r1 & Hcall1 & Hr).
  assert (Hcache : PreflightLemmas.cache_ok xdr_len c) by (destruct Hc as [E|]; [by intros l r' Hsz; rewrite E in Hsz|done]).
  destruct (send_outcomes rpc Hrpc xdr_len cl c w r1 cl' w' Hcache Hcall1) as [Hs Hout].
  split; [done|]. split; [by eapply call_clientid|].
  destruct r as [res|e], r1 as [res1|e1]; try done; [by subst|]. destruct Hout as [[-> _]|[_ ?]]; [by left|by right].
Qed.
Lemma reopen_pairs l : Forall (λ x : list argop, length x = 2%nat) (item_groups (reopen_group cid) 0 l).
Proof. rewrite reopen_groups. apply Forall_fmap, Forall_true. done. Qed.

Lemma pairs_offset gs j : Forall (λ x : list argop, length x = 2%nat) gs → (j <= length gs)%nat → offset gs j = (2 * j)%nat.
Proof.
  intros H. revert j. induction H as [|x gs Hx _ IH]; intros j Hj; [assert (j = 0%nat) as -> by (cbn in Hj; lia); done|].
  destruct j as [|j]; [done|]. cbn in Hj. unfold offset in *. cbn [take]. rewrite mjoin_cons, length_app, Hx, IH by lia. lia.
Qed.

(** What an accepted reply to a chunk of [j] items gives. *)
Lemma reopen_reply st j map res w' failed : reopen_inv st →
  let g := Z.to_nat (re_global st) in
  let gs := item_groups (reopen_group cid) 0 (take j (drop g items)) in
  (j <= length (drop g items))%nat → exchanged rpc (mjoin gs) (re_world st) res w' →
  ExecutionMap.ranges map = group_ranges (re_global st) 1 gs → first_failed_range res map = Ok failed →
  ∃ k sts, (k <= j)%nat ∧ answers (take (g + k) steps) f0 = Ok (fs w', sts) ∧
    collect_reopens ops res failed (ExecutionMap.ranges map) (re_opened st) = Some (reopened ops sts) ∧
    match failed with None => k = j | Some (i, _) => i = re_global st + Z.of_nat k ∧ (k < j)%nat end.
Proof.
  intros Hinv g gs Hj Hex Hmap Hff. destruct (ri_answers _ Hinv) as (sts & Ha & Ho). pose proof (ri_global _ Hinv) as Hg.
  unfold first_failed_range in Hff. destruct (ExecutionMap.analyze map res) as [report|] eqn:Ean; [|done].
  destruct (compound_failure report) eqn:Ecf; [done|]. injection Hff as <-.
  rewrite <-(app_nil_r (mjoin gs)) in Hex. pose proof (reopen_pairs (take j (drop g items))) as Hpairs. fold gs in Hpairs.
  assert (Hlen : length gs = j) by (unfold gs; rewrite item_groups_length, length_take; lia).
  destruct (reply_reported rpc gs [] (re_global st) map _ res w' report Hex Hmap) as [k Hk]; [|done|].
  { eapply Forall_impl; [exact Hpairs|]. by intros []. }
  rewrite app_nil_r in Hex. destruct (exchanged_runs s rpc fs Himp _ _ _ _ Hex) as (m & rs & Hrun & Hfs & Hcomp & _).
  { unfold gs. rewrite reopen_groups. apply Forall_join, Forall_fmap, Forall_true. intros x. by repeat constructor. }
  destruct (chunk_reopened g j _ _ sts m rs ltac:(lia) Ha Hrun) as (vs & Hvs & Hlv & Hpay).
  pose proof (rp_le _ _ _ _ _ _ Hk) as Hkj. pose proof (rp_done _ _ _ _ _ _ Hk) as Hd. rewrite pairs_offset in Hd by done.
  assert (Hkk : ((ops_done res / 2) `min` length (take j (drop g items)))%nat = k).
  { rewrite length_take. pose proof (rp_failure _ _ _ _ _ _ Hk) as Hf. pose proof (rp_stop _ _ _ _ _ _ Hk) as Hst.
    pose proof (Nat.div_le_lower_bound (ops_done res) 2 k ltac:(lia) ltac:(lia)) as Hlow. destruct (failure report) as [x|].
    - destruct Hf as (_ & Hkl & _). specialize (Hst ltac:(done)). rewrite pairs_offset in Hst by (done || lia).
      pose proof (Nat.Div0.div_lt_upper_bound (ops_done res) 2 (S k) ltac:(lia)). lia.
    - specialize (Hf (or_introl Ecf)). lia. }
  rewrite Hkk in Hvs, Hlv. pose proof (answered_length g _ _ ltac:(lia) Ha) as Hls. pose proof items_length. rewrite length_drop in Hj.
  exists k, (sts ++ vs). split; [lia|]. rewrite Hfs. split; [done|]. split.
  - rewrite Hmap, Ho. apply collect_reopens_ok; [done|lia|lia|lia| |].
    + pose proof (rp_failure _ _ _ _ _ _ Hk) as Hf. destruct (failure report) as [x|]; cbn; [lia|]. specialize (Hf (or_introl Ecf)). lia.
    + intros i v Hv. destruct (Hpay i v Hv) as [mask [Hm _]%lookup_take_Some]. rewrite lookup_drop in Hm.
      destruct (complete_accessors _ _ _ _ Hcomp Hm) as [Hop _]. rewrite <-Hop. f_equal. lia.
  - pose proof (rp_failure _ _ _ _ _ _ Hk) as Hf. destruct (failure report) as [x|]; cbn; [lia|].
    specialize (Hf (or_introl Ecf)). lia.
Qed.
Lemma groups_file i l : Forall file_op (mjoin (item_groups (reopen_group cid) i l)).
Proof. rewrite reopen_groups. apply Forall_join, Forall_fmap, Forall_true. intros x. by repeat constructor. Qed.

(** After an error some of the items sent may have been reopened as well. *)
Lemma reopen_error st j e cl' w' : reopen_inv st →
  let g := Z.to_nat (re_global st) in
  same_limits cl0 cl' →
  (w' = re_world st ∨ ∃ r0, sent rpc (mjoin (item_groups (reopen_group cid) 0 (take j (drop g items)))) (re_world st) r0 w') →
  reopen_final (Err e, re_opened st, cl', w').
Proof.
  intros Hinv g Hs Hw. split; [done|]. cbn [fst snd]. destruct (ri_answers _ Hinv) as (sts & Ha & Ho). pose proof (ri_global _ Hinv).
  pose proof (answered_length g _ _ ltac:(lia) Ha) as Hls. destruct Hw as [->|(r0 & Hsent)].
  - exists g, g, (re_world st), sts. rewrite (take_ge sts) by lia. split_and!; [lia|lia|done|done|by left|done].
  - pose proof Hsent as (req & sid & q & Hreq & Hops). destruct (Himp _ _ _ _ _ _ _ Hreq Hops (groups_file _ _)) as (d & m & rs & Hrun & Hfs & _).
    destruct (chunk_reopened g j d _ sts m rs ltac:(lia) Ha Hrun) as (vs & Hvs & Hlv & _).
    pose proof items_length. exists g, (g + length vs)%nat, (re_world st), (sts ++ vs). rewrite Hlv, Hfs, take_app_length' by done.
    split; [lengths|]. split; [done|]. split; [done|]. split; [right; by exists j, r0|done].
Qed.

Lemma exchanged_sent l w res w' : exchanged rpc l w res w' → sent rpc l w (Ok res) w'.
Proof. intros (req & sid & q & H1 & H2 & _). by exists req, sid, q. Qed.

Lemma reopen_round_ok st : reopen_inv st → (re_global st <? Z.of_nat n) = true →
  turn_keeps reopen_inv reopen_measure reopen_final st (reopen_round rpc xdr_len ops owners st).
Proof.
  intros Hinv Hlt%Z.ltb_lt. pose proof (ri_global _ Hinv) as Hg. pose proof (ri_limits _ Hinv) as Hs. pose proof (ri_clientid _ Hinv) as Hcid.
  destruct (ri_answers _ Hinv) as (sts & Ha & Ho). pose proof (ri_max _ Hinv) as Hm. pose proof (reopen_budget_range _ Hs) as Hb.
  destruct st as [cl w g mx opened]. cbn [re_client re_world re_global re_max_items re_opened] in *.
  unfold reopen_round. fold (reopen_budget cl). fold items. rewrite Hcid.
  destruct (fill_reopens _ _ _ _ _ _ _) as [[g' map] c] eqn:Hfill.
  destruct (fill_reopens_ok _ _ _ _ _ _ _ _ _ Hfill) as (j & Hj & -> & Hops & Hcache & Hranges & Hcnt); [done|unfold N in Hb; lia|].
  cbn [app ExecutionMap.ranges ExecutionMap.new ExecutionMap.next Compound.ops Compound.tag Compound.keep Compound.new] in Hops, Hranges.
  assert (Hc : Compound.size_check c = None) by (by apply Hcache). clear Hcache. cbn [ExecutionMap.ranges ExecutionMap.new length] in Hcnt.
  assert (Hlen : Z.of_nat (length (ExecutionMap.ranges map)) = Z.of_nat j).
  { rewrite Hranges, group_ranges_length, item_groups_length, length_take. lia. }
  rewrite Hlen. pose proof items_length as Hil. rewrite length_drop in Hj.
  destruct (Z.eqb_spec (Z.of_nat j) 0) as [Hz|Hnz].
  { cbn. split; [done|]. exists (Z.to_nat g), sts. split; [done|]. split; [done|]. split; [done|]. split; [lia|]. lia. }
  destruct (MergedOnceLemmas.repack_spec xdr_len cl (bstr "reopenfh") 3 c (Z.of_nat j)) as (repack & c' & -> & Hc' & Hops' & Hrep);
    [by intros l r' Hsz; rewrite Hc in Hsz|].
  destruct repack.
  { specialize (Hrep eq_refl). split; [split; cbn; [done|done|lia|lia|eauto]|].
    unfold reopen_measure. cbn [re_client re_global re_max_items]. lia. }
  destruct (NfsClient.call_compound_with_safety _ _ _ _ _ _) as [[r cl'] w'] eqn:Hcall.
  destruct (reopen_sent cl c' w r cl' w' (or_intror Hc') Hcall) as (Hs' & Hcid' & Hr). rewrite Hops', Hops in Hr.
  assert (Hs0 : same_limits cl0 cl') by (by etransitivity). destruct r as [res|e]; cycle 1.
  { cbn. apply (reopen_error (ReopenState cl w g mx opened) j); [done|done|exact Hr]. }
  assert (Herr : ∀ e, reopen_final (Err e, opened, cl', w')).
  { intros e. apply (reopen_error (ReopenState cl w g mx opened) j); [done|done|]. right. eexists. by apply exchanged_sent. }
  destruct (_ && _) eqn:Eretry.
  { apply andb_true_iff in Eretry as [Erej Ecan]. assert (Hfs : fs w' = fs w).
    { destruct (exchanged_runs s rpc fs Himp _ _ _ _ Hr (groups_file _ _)) as (m & rs & Hrun & Hfs & _).
      destruct Hr as (_ & _ & _ & _ & _ & Hd & _). rewrite (rejected_nothing_done res Hd Erej) in Hrun. by injection Hrun as <- _. }
    split; [split; cbn; [done|by rewrite Hcid'|lia|lia|rewrite Hfs; eauto]|].
    unfold NfsClient.can_retry_merged_resource in Ecan. apply andb_true_iff in Ecan as [_ Ecan%Z.ltb_lt].
    unfold reopen_measure. cbn [re_client re_global re_max_items]. change (reopen_budget cl' < reopen_budget cl) in Ecan. nia. }
  destruct (first_failed_range res map) as [failed|e] eqn:Hff; [|apply Herr].
  destruct (reopen_reply (ReopenState cl w g mx opened) j map res w' failed Hinv) as (k & sts' & Hk & Ha' & Hcol & Hf);
    [cbn; lengths|exact Hr|exact Hranges|done|]. cbn [re_opened re_global] in *. rewrite Hcol. cbn [mbind option_bind].
  pose proof (answered_length (Z.to_nat g + k) _ _ ltac:(lia) Ha') as Hls'.
  destruct failed as [[i st]|].
  - split; [done|]. cbn [fst snd]. exists (Z.to_nat g + k)%nat, sts'. split; [done|]. split; [done|]. split; [by rewrite Hcid'|]. lia.
  - subst k. split.
    + split; cbn; [done|by rewrite Hcid'|lia|unfold USIZE_MAX, U64_MAX; lia|]. exists sts'. split; [|done].
      by replace (Z.to_nat (g + Z.of_nat j)) with (Z.to_nat g + j)%nat by lia.
    + unfold reopen_measure. cbn [re_client re_global re_max_items]. pose proof (reopen_budget_range _ Hs0).
      apply measure_less; unfold N in *; lia.
Qed.
End Reopen.

Lemma public_owner_names_length k cl : length (public_owner_names k cl).1 = k.
Proof.
  revert cl. induction k as [|k IH]; intros cl; [done|]. cbn [public_owner_names].
  destruct (NfsClient.next_public_open_owner_name cl) as [name cl1]. specialize (IH cl1).
  destruct (public_owner_names k cl1). cbn in *. by rewrite IH.
Qed.
Lemma public_owner_names_deferred k cl :
  NfsClient.deferred_path_closes (public_owner_names k cl).2 = NfsClient.deferred_path_closes cl.
Proof.
  revert cl. induction k as [|k IH]; intros cl; [done|]. cbn [public_owner_names].
  destruct (NfsClient.next_public_open_owner_name cl) as [name cl1] eqn:E. unfold NfsClient.next_public_open_owner_name in E.
  injection E as <- <-. specialize (IH (NfsClient.set_next_owner cl (wrapping_add64 (NfsClient.next_public_open_owner_id cl) 1))).
  by destruct (public_owner_names k _).
Qed.

(** The closes after an error are of what was reopened. *)
Lemma reopened_closes (l : list (nfs_fh4 * Z)) sts :
  omap (λ o : option (nfs_fh4 * stateid4), (λ o, Close o.1 o.2) <$> o) (reopened l sts) = zip_with Close (l.*1) sts.
Proof.
  unfold reopened. revert sts. induction l as [|a l IH]; intros sts; [by destruct sts|]. destruct sts as [|st sts].
  - cbn. generalize (length l). intros k. induction k as [|k IHk]; [done|]. exact IHk.
  - cbn. f_equal. apply IH.
Qed.

Lemma openv_handle_ok {F W} (s : nfs_spec F) (rpc : Compound.t → W → RpcResult COMPOUND4res * W) (fs : W → F)
    (xdr_len : Compound.t → Z) `{!XdrSizes xdr_len} (cl : NfsClient.t) (ops : list (nfs_fh4 * Z)) (w : W) (fuel : nat) :
  let n := Z.of_nat (length ops) in
  transport_ok rpc → implements s rpc fs → 0 <= NfsClient.max_ops cl <= U32_MAX →
  (n + 1) * ((NfsClient.max_ops cl + 1) * (n + 1)) <= Z.of_nat fuel →
  let '(owners, cl0) := public_owner_names (length ops) cl in
  ∃ r cl' w', openv_handle_compound rpc xdr_len fuel cl ops w = Done (r, cl', w') ∧ NfsClient.max_ops cl' = NfsClient.max_ops cl ∧
    (∀ out, r = Ok out → clientid cl' = clientid cl0) ∧
    reopens_refined s rpc fs xdr_len (clientid cl0) fuel ops owners cl w r cl' w'.
Proof.
  intros n Hrpc Himp Hmax Hfuel. pose proof (public_owner_names_length (length ops) cl) as Hown.
  pose proof (OpenLemmas.public_owner_names_limits (length ops) cl) as Hlim. pose proof (public_owner_names_deferred (length ops) cl) as Hdef.
  unfold openv_handle_compound. destruct (public_owner_names (length ops) cl) as [owners cl0]. cbn [fst snd] in *. rewrite <-Hlim in Hmax, Hfuel.
  set (st := ReopenState cl0 w 0 USIZE_MAX (replicate (length ops) None)).
  assert (Hi : reopen_inv s fs ops owners cl0 (fs w) st).
  { split; cbn; [done|done|lia|unfold USIZE_MAX, U64_MAX; lia|]. exists []. split; [done|]. unfold reopened. cbn.
    rewrite Nat.sub_0_r. by destruct ops. }
  destruct (run_ok (λ st, re_global st <? n) (reopen_round rpc xdr_len ops owners)
    (λ st, (Ok None, re_opened st, re_client st, re_world st)) (reopen_inv s fs ops owners cl0 (fs w)) (reopen_measure ops cl0)
    (reopen_final s rpc fs ops owners cl0 (fs w))) with (fuel := fuel) (st := st) as ([[[r opened] cl1] w1] & Hrun & [Hs Hr]).
  - intros st0 H0. pose proof (ri_global _ _ _ _ _ _ _ H0). pose proof (ri_max _ _ _ _ _ _ _ H0).
    pose proof (reopen_budget_range cl0 Hmax _ (ri_limits _ _ _ _ _ _ _ H0)). unfold reopen_measure. nia.
  - intros st0 H0 Hg. by apply reopen_round_ok.
  - intros st0 H0 Hg%Z.ltb_ge. split; [apply (ri_limits _ _ _ _ _ _ _ H0)|]. cbn [fst snd].
    destruct (ri_answers _ _ _ _ _ _ _ H0) as (sts & Ha & Ho). pose proof (ri_global _ _ _ _ _ _ _ H0). exists (Z.to_nat (re_global st0)), sts.
    split; [done|]. split; [done|]. split; [apply (ri_clientid _ _ _ _ _ _ _ H0)|]. unfold n in Hg. lia.
  - exact Hi.
  - pose proof (reopen_budget_range cl0 Hmax cl0 ltac:(done)). unfold reopen_measure. cbn [st re_client re_global re_max_items]. unfold n in *. nia.
  - unfold n in Hrun. rewrite Hrun. cbn [mbind outcome_bind fst snd] in *. destruct Hs as (Hm & _ & _ & _ & _ & _ & Hd & _). destruct r as [failed|e].
    + eexists _, _, _. split; [reflexivity|]. split; [congruence|]. destruct Hr as (k & sts & Ha & Ho & Hcid & Hf).
      split; [by intros _ _|]. exists k, sts. cbn.
      split; [done|]. split; [done|]. split; [by rewrite Hd|done].
    + destruct Hr as (k & k' & w0 & sts & Hk & Ha0 & Ha & Hlast & Ho). rewrite Ho, reopened_closes.
      assert (Hlen : (length (zip_with Close ops.*1 (take k sts)) <= length ops)%nat) by (lengths).
      destruct (LifecycleLemmas.close_path_or_defer_spec s rpc fs Hrpc Himp xdr_len fuel cl1 (zip_with Close (ops.*1) (take k sts)) w1)
        as (cl2 & w2 & E2 & [Hc _] & _ & j & vs & Hj & Hfin); [rewrite Hm; unfold U32_MAX, USIZE_MAX, U64_MAX in *; lia|unfold n in Hfuel; nia|].
      rewrite E2. eexists _, _, _. split; [reflexivity|]. split; [congruence|]. split; [done|]. exists k, k', cl1, w0, w1, sts.
      split; [done|]. split; [done|]. split; [done|]. split; [exact Hlast|]. cbv zeta. split; [exact E2|]. exists j, vs. split; [done|]. rewrite Hd, Hdef in Hfin. exact Hfin.
Qed.

(** C20: Reopening retained handles reopens them one after the other, each under
    an owner of its own, and loses none it knows of.  For every server and transport
    [openv_handle_compound] terminates without panicking.  A success lists the
    stateids the server answered, for exactly the items before the first failing
    one, which [failed] names.  After an error every OPEN that was answered has
    been closed in order, or is kept among the closes to be sent later; OPENs that
    are neither can only be those of one last request whose results the client
    did not get. *)
Theorem openv_handle_correct {F W} (s : nfs_spec F) (rpc : Compound.t → W → RpcResult COMPOUND4res * W) (fs : W → F)
    (xdr_len : Compound.t → Z) `{!XdrSizes xdr_len} (cl : NfsClient.t) (ops : list (nfs_fh4 * Z)) (w : W) (fuel : nat) :
  let n := Z.of_nat (length ops) in
  transport_ok rpc → implements s rpc fs → 0 <= NfsClient.max_ops cl <= U32_MAX →
  (n + 1) * ((NfsClient.max_ops cl + 1) * (n + 1)) <= Z.of_nat fuel →
  let '(owners, cl0) := public_owner_names (length ops) cl in
  ∃ r cl' w', openv_handle_compound rpc xdr_len fuel cl ops w = Done (r, cl', w') ∧
    reopens_refined s rpc fs xdr_len (clientid cl0) fuel ops owners cl w r cl' w'.
Proof.
  intros n Hrpc Himp Hmax Hfuel. pose proof (openv_handle_ok s rpc fs xdr_len cl ops w fuel Hrpc Himp Hmax Hfuel) as H.
  destruct (public_owner_names (length ops) cl) as [owners cl0]. destruct H as (r & cl' & w' & E & _ & _ & H). eauto.
Qed.

Definition example_handles : list (nfs_fh4 * Z) := [(bstr "fa", 1); (bstr "fa", 2); (bstr "gone", 1)].

Lemma openv_handle_correct_witness :
  ∃ r cl' w', openv_handle_compound (spec_server MemFs.spec 4) SendLemmas.example_xdr_len 300
      LookupLemmas.example_lookup_client example_handles example_mem = Done (r, cl', w') ∧
    match r with
    | Ok out => option_map fst <$> oo_opened out = [Some (bstr "fa"); Some (bstr "fa"); None] ∧
        oo_failed out = Some (2, MemFs.STALE) ∧ length (opened w') = 2%nat
    | Err _ => False
    end.
Proof.
  pose proof (openv_handle_correct MemFs.spec (spec_server MemFs.spec 4) id SendLemmas.example_xdr_len
    LookupLemmas.example_lookup_client example_handles example_mem 300) as H.
  destruct (public_owner_names _ _) as [owners cl0]. destruct H as (r & cl' & w' & E & _).
  - apply spec_server_transport; [apply MemFs.mem_spec_ok|reflexivity].
  - apply spec_server_implements, MemFs.mem_spec_ok.
  - by vm_compute.
  - by vm_compute.
  - exists r, cl', w'. split; [exact E|].
    assert (Hr : match openv_handle_compound (spec_server MemFs.spec 4) SendLemmas.example_xdr_len 300
        LookupLemmas.example_lookup_client example_handles example_mem with
      Done (Ok out, _, m) => option_map fst <$> oo_opened out = [Some (bstr "fa"); Some (bstr "fa"); None] ∧
        oo_failed out = Some (2, MemFs.STALE) ∧ length (opened m) = 2%nat
      | _ => False end) by (vm_compute; repeat split; reflexivity).
    rewrite E in Hr. by destruct r.
Defined.
End ReopenLemmas.

(** ** Opening by path can lose the files of earlier compounds *)

Module LeakExample.
Definition NFS4ERR_DELAY : Z := 10008.

(** A server that answers the second compound with "try again later" in its
    SEQUENCE (RFC 8881, section 18.46.3), and every other one as it should. *)
Definition busy_rpc (c : Compound.t) (w : mem * Z) : RpcResult COMPOUND4res * (mem * Z) :=
  let '(m, calls) := w in
  if calls =? 1 then (Ok (Res NFS4ERR_DELAY 1 (Some [RPlain OP_SEQUENCE NFS4ERR_DELAY])), (m, calls + 1))
  else let '(r, m) := spec_server MemFs.spec 100 c m in (r, (m, calls + 1)).
Definition two_files : mem :=
  Mem (<[bstr "root" := NDir (<[bstr "a" := bstr "fa"]> {[bstr "b" := bstr "fb"]})]>
       (<[bstr "fa" := NFile (bstr "1")]> {[bstr "fb" := NFile (bstr "2")]})) 7 [].
Definition small_client : NfsClient.t :=
  NfsClient.Make SlotLemmas.example_session (bstr "root") 4096 4096 8 (AdaptiveCompoundLimits.new 8) 4096 None 1024 [] 0.
Definition two_opens : list PathOpenOp :=
  [PathOpen (bstr "/a") 1 ONoCreate None false; PathOpen (bstr "/b") 1 ONoCreate None false].

(** Opening by path can lose files it opened.  When the SEQUENCE of a later
    compound is refused, [openv_path_compound] returns the error without closing
    the files earlier compounds opened: the first file stays open on the server,
    its stateid is not in the result and not among the closes kept for later. *)
Example openv_path_loses_opens :
  ∃ e cl' w', openv_path_compound busy_rpc SendLemmas.example_xdr_len (λ _, []) (0, 0) 100 small_client two_opens (two_files, 0)
      = Done (Err e, cl', w') ∧
    RpcError.status e = NFS4ERR_DELAY ∧ length (opened w'.1) = 1%nat ∧ NfsClient.deferred_path_closes cl' = [].
Proof.
  assert (Hr : match openv_path_compound busy_rpc SendLemmas.example_xdr_len (λ _, []) (0, 0) 100 small_client two_opens (two_files, 0) with
    | Done (Err e, c, m) => RpcError.status e = NFS4ERR_DELAY ∧ length (opened m.1) = 1%nat ∧ NfsClient.deferred_path_closes c = []
    | _ => False end) by (vm_compute; repeat split; reflexivity).
  destruct (openv_path_compound _ _ _ _ _ _ _ _) as [[[[o|e] c] m]| |]; [done| |done..]. by exists e, c, m.
Qed.
End LeakExample.
