(* ===== verification/Identity.v ===== *)
(** * Owner and group names

    Models [crates/vfsi-nfs/src/identity.rs]: how an NFSv4 owner or group value
    becomes a numeric id, with the process-wide cache of the name service's
    answers.  The name service (NSS, behind [getpwnam_r] and [getgrnam_r]) is a
    parameter, a function of the name and the buffer size: it does not change
    while it is used, so a failure that is cached and would have passed is
    outside the model.  The theorem shows that the cache never changes an answer
    and never exceeds its capacity. *)
From stdpp Require Import base numbers countable list gmap strings.
From S2P Require Import Prelude Types.

Definition CACHE_CAPACITY : Z := 1024.
Definition DEFAULT_NSS_BUFFER : Z := 16 * 1024.
Definition MAX_NSS_BUFFER : Z := 1024 * 1024.

(** ** Text, as the standard library has it *)

Module Text.
Definition val (b : Byte.byte) : Z := Z.of_N (Byte.to_N b).
Definition between (lo hi : Z) (b : Byte.byte) : bool := (lo <=? val b) && (val b <=? hi).
Definition cont : Byte.byte → bool := between 0x80 0xbf.

(** [std::str::from_utf8]: the characters, each as its encoding, or nothing when
    the bytes are not well-formed UTF-8 (Unicode 15, table 3-7). *)
Fixpoint chars (s : bytes) : option (list bytes) :=
  match s with
  | [] => Some []
  | a :: s =>
      if between 0 0x7f a then cs ← chars s; Some ([a] :: cs)
      else if between 0xc2 0xdf a then
        match s with
        | b :: s => if cont b then cs ← chars s; Some ([a; b] :: cs) else None
        | _ => None
        end
      else if between 0xe0 0xef a then
        match s with
        | b :: c :: s =>
            if between (if val a =? 0xe0 then 0xa0 else 0x80) (if val a =? 0xed then 0x9f else 0xbf) b && cont c
            then cs ← chars s; Some ([a; b; c] :: cs) else None
        | _ => None
        end
      else if between 0xf0 0xf4 a then
        match s with
        | b :: c :: d :: s =>
            if between (if val a =? 0xf0 then 0x90 else 0x80) (if val a =? 0xf4 then 0x8f else 0xbf) b && cont c && cont d
            then cs ← chars s; Some ([a; b; c; d] :: cs) else None
        | _ => None
        end
      else None
  end.

(** [char::is_whitespace]: the characters with the property White_Space. *)
Definition is_whitespace (c : bytes) : bool :=
  match val <$> c with
  | [a] => between 0x09 0x0d (default Byte.x00 (head c)) || (a =? 0x20)
  | [0xc2; b] => (b =? 0x85) || (b =? 0xa0)
  | [0xe1; 0x9a; 0x80] => true
  | [0xe2; 0x80; c] => ((0x80 <=? c) && (c <=? 0x8a)) || (c =? 0xa8) || (c =? 0xa9) || (c =? 0xaf)
  | [0xe2; 0x81; 0x9f] => true
  | [0xe3; 0x80; 0x80] => true
  | _ => false
  end.

Fixpoint trim_start (cs : list bytes) : list bytes :=
  match cs with c :: cs' => if is_whitespace c then trim_start cs' else cs | [] => [] end.
Definition trim (cs : list bytes) : bytes := mjoin (reverse (trim_start (reverse (trim_start cs)))).

(** [str::parse::<u32>]. *)
Definition digit (b : Byte.byte) : option Z := if between 0x30 0x39 b then Some (val b - 0x30) else None.
Fixpoint digits (acc : Z) (s : bytes) : option Z :=
  match s with
  | [] => Some acc
  | b :: s => d ← digit b; let n := acc * 10 + d in if n <=? U32_MAX then digits n s else None
  end.
Definition parse_u32 (s : bytes) : option Z :=
  let s := match s with b :: s' => if val b =? 0x2b (* + *) then s' else s | [] => [] end in
  match s with [] => None | _ => digits 0 s end.
End Text.

(** ** The name service *)

(** What one reentrant call with a buffer of the given size says. *)
Inductive nss_reply := NssFound (id : Z) | NssRange | NssOther.

Section Lookup.
Context (nss : bytes → bool → Z → nss_reply) (sysconf : bool → Z).

Definition initial_buffer_size (is_group : bool) : Z :=
  let suggested := sysconf is_group in
  if 0 <? suggested then Z.min (Z.max suggested 1024) MAX_NSS_BUFFER else DEFAULT_NSS_BUFFER.

(** The loop over growing buffers. *)
Fixpoint lookup_from (fuel : nat) (name : bytes) (is_group : bool) (size : Z) : option (option Z) :=
  match fuel with
  | O => None
  | S fuel =>
      match nss name is_group size with
      | NssFound id => Some (Some id)
      | NssOther => Some None
      | NssRange =>
          if MAX_NSS_BUFFER <=? size then Some None
          else lookup_from fuel name is_group (Z.min (sat_mul size 2) MAX_NSS_BUFFER)
      end
  end.

(** A name with a NUL byte has no [CString]. *)
Definition LOOKUP_TURNS : nat := 11.
Definition lookup (name : bytes) (is_group : bool) : option Z :=
  if bool_decide (Byte.x00 ∈ name) then None
  else mjoin (lookup_from LOOKUP_TURNS name is_group (initial_buffer_size is_group)).
End Lookup.

(** ** The cache *)

Record IdentityCache := MakeCache {
  ic_users : gmap bytes (option Z);
  ic_groups : gmap bytes (option Z);
  ic_order : list (bytes * bool);
}.

Module IdentityCache.
Definition default_ : IdentityCache := MakeCache ∅ ∅ [].
Definition values (c : IdentityCache) (is_group : bool) : gmap bytes (option Z) :=
  if is_group then ic_groups c else ic_users c.
Definition set_values (c : IdentityCache) (is_group : bool) (m : gmap bytes (option Z)) : IdentityCache :=
  if is_group then MakeCache (ic_users c) m (ic_order c) else MakeCache m (ic_groups c) (ic_order c).
Definition set_order (c : IdentityCache) (order : list (bytes * bool)) : IdentityCache :=
  MakeCache (ic_users c) (ic_groups c) order.

Definition get (c : IdentityCache) (name : bytes) (is_group : bool) : option (option Z) := values c is_group !! name.

(** [while order.len() >= CACHE_CAPACITY { pop_front, remove }]. *)
Fixpoint evict (order : list (bytes * bool)) (c : IdentityCache) : IdentityCache :=
  match order with
  | (name, is_group) :: order' =>
      if CACHE_CAPACITY <=? Z.of_nat (length order)
      then evict order' (set_values c is_group (delete name (values c is_group)))
      else set_order c order
  | [] => set_order c []
  end.

Definition insert (c : IdentityCache) (key : bytes * bool) (value : option Z) : IdentityCache :=
  if bool_decide (is_Some (values c key.2 !! key.1)) then set_values c key.2 (<[key.1 := value]> (values c key.2))
  else
    let c := evict (ic_order c) c in
    let c := set_order c (ic_order c ++ [key]) in
    set_values c key.2 (<[key.1 := value]> (values c key.2)).
End IdentityCache.

Section Resolve.
Context (nss : bytes → bool → Z → nss_reply) (sysconf : bool → Z).

(** The id, and the cache after the call. *)
Definition name_to_id (c : IdentityCache) (value : bytes) (is_group : bool) : option Z * IdentityCache :=
  match Text.chars value with
  | None => (None, c)
  | Some cs =>
      let name := Text.trim cs in
      match Text.parse_u32 name with
      | Some id => (Some id, c)
      | None =>
          match IdentityCache.get c name is_group with
          | Some v => (v, c)
          | None => let v := lookup nss sysconf name is_group in (v, IdentityCache.insert c (name, is_group) v)
          end
      end
  end.
End Resolve.

(** ** What the cache is for *)

Section Spec.
Context (nss : bytes → bool → Z → nss_reply) (sysconf : bool → Z).

(** The id without a cache. *)
Definition resolve_name (value : bytes) (is_group : bool) : option Z :=
  cs ← Text.chars value;
  let name := Text.trim cs in
  match Text.parse_u32 name with Some id => Some id | None => lookup nss sysconf name is_group end.

(** The calls of a process, one after the other. *)
Fixpoint resolve_all (c : IdentityCache) (calls : list (bytes * bool)) : list (option Z) * IdentityCache :=
  match calls with
  | [] => ([], c)
  | (value, is_group) :: calls =>
      let '(v, c) := name_to_id nss sysconf c value is_group in
      let '(vs, c) := resolve_all c calls in (v :: vs, c)
  end.
End Spec.

Module IdentityLemmas.
Import IdentityCache.

(** The order lists the cached keys, each once, within the capacity. *)
Record cache_wf (c : IdentityCache) : Prop := {
  cw_nodup : NoDup (ic_order c);
  cw_keys name is_group : (name, is_group) ∈ ic_order c ↔ is_Some (values c is_group !! name);
  cw_bound : Z.of_nat (length (ic_order c)) <= CACHE_CAPACITY;
}.

Lemma values_set c g m g' : values (set_values c g m) g' = if decide (g = g') then m else values c g'.
Proof. by destruct g, g'. Qed.
Lemma values_order c o g : values (set_order c o) g = values c g.
Proof. by destruct g. Qed.
Lemma order_set c g m : ic_order (set_values c g m) = ic_order c.
Proof. by destruct g. Qed.

(** Evicting from the front leaves a well-formed cache with room for one more. *)
Lemma evict_spec order c : NoDup order → (∀ name g, (name, g) ∈ order ↔ is_Some (values c g !! name)) →
  cache_wf (evict order c) ∧ Z.of_nat (length (ic_order (evict order c))) < CACHE_CAPACITY ∧
  ∀ g, values (evict order c) g ⊆ values c g.
Proof.
  revert c. induction order as [|[name g] order IH]; intros c Hnd Hkeys; cbn [evict].
  { split; [split; [constructor| |done]|split; [done|]].
    - intros name g. rewrite values_order. cbn. apply Hkeys.
    - intros g. by rewrite values_order. }
  apply NoDup_cons in Hnd as [Hnin Hnd]. destruct (Z.leb_spec CACHE_CAPACITY (Z.of_nat (length ((name, g) :: order)))) as [|Hlt].
  - destruct (IH (set_values c g (delete name (values c g)))) as (Hwf & Hlt & Hsub); [done| |split; [done|]; split; [done|]].
    + intros name' g'. rewrite values_set. pose proof (Hkeys name' g') as Hk. rewrite elem_of_cons in Hk. case_decide as Hg.
      * subst g'. destruct (decide (name = name')) as [->|Hne].
        -- rewrite lookup_delete_eq. split; [by intros ?|intros [? [=]]].
        -- rewrite lookup_delete_ne by done. rewrite <-Hk. split; [by right|]. intros [[=]|]; [congruence|done].
      * rewrite <-Hk. split; [by right|]. intros [[=]|]; [congruence|done].
    + intros g'. etrans; [apply Hsub|]. rewrite values_set. case_decide; [subst; apply delete_subseteq|done].
  - split; [split; cbn [set_order ic_order]; [by constructor| |lia]|split; [done|]].
    + intros name' g'. by rewrite values_order.
    + intros g'. by rewrite values_order.
Qed.

Lemma insert_spec c name g v : cache_wf c →
  cache_wf (insert c (name, g) v) ∧
  ∀ name' g' v', values (insert c (name, g) v) g' !! name' = Some v' →
    (name' = name ∧ g' = g ∧ v' = v) ∨ values c g' !! name' = Some v'.
Proof.
  intros Hwf. unfold insert. cbn [fst snd]. case_bool_decide as Hin.
  - split.
    + split; rewrite ?order_set; [apply Hwf| |apply Hwf]. intros name' g'. rewrite values_set, (cw_keys _ Hwf). case_decide; [|done].
      subst. destruct (decide (name = name')) as [->|]; [by rewrite lookup_insert_eq|by rewrite lookup_insert_ne by done].
    + intros name' g' v'. rewrite values_set. case_decide as Hg; [subst|by right].
      rewrite lookup_insert_Some. intros [[-> ->]|[_ ?]]; [by left|by right].
  - destruct (evict_spec (ic_order c) c (cw_nodup _ Hwf) (cw_keys _ Hwf)) as (He & Hlt & Hsub). set (c1 := evict (ic_order c) c) in *.
    assert (Hno : values c1 g !! name = None).
    { destruct (values c1 g !! name) as [x|] eqn:E; [|done]. exfalso. apply Hin. exists x. by eapply lookup_weaken, Hsub. }
    split.
    + split; rewrite ?order_set; cbn [set_order ic_order].
      * apply NoDup_app. split; [apply He|]. split; [|apply NoDup_singleton].
        intros k Hk Hk2%list_elem_of_singleton. subst k. apply (cw_keys _ He) in Hk. rewrite Hno in Hk. by destruct Hk.
      * intros name' g'. rewrite elem_of_app, list_elem_of_singleton, (cw_keys _ He), values_set, !values_order. case_decide as Hg.
        -- subst g'. destruct (decide (name = name')) as [->|]; [rewrite lookup_insert_eq; naive_solver|].
           rewrite lookup_insert_ne by done. naive_solver.
        -- naive_solver.
      * rewrite length_app. cbn. lia.
    + intros name' g' v'. rewrite values_set, !values_order. case_decide as Hg; [subst g'|intros Hv; right; by eapply lookup_weaken].
      rewrite lookup_insert_Some. intros [[-> ->]|[_ Hv]]; [by left|right; by eapply lookup_weaken].
Qed.

Lemma cache_sizes c : cache_wf c → (size (ic_users c) + size (ic_groups c) <= length (ic_order c))%nat.
Proof.
  intros Hwf. set (keys g := (λ x : bytes * option Z, (x.1, g)) <$> map_to_list (values c g)).
  assert (Hkeys : ∀ g k, k ∈ keys g → k.2 = g ∧ k ∈ ic_order c).
  { intros g k ([name v] & -> & Hin)%list_elem_of_fmap. split; [done|]. apply (cw_keys _ Hwf). apply elem_of_map_to_list in Hin. eauto. }
  assert (Hnd : ∀ g, NoDup (keys g)).
  { intros g. unfold keys. pose proof (NoDup_fst_map_to_list (values c g)) as Hf.
    assert (((λ x : bytes * option Z, (x.1, g)) <$> map_to_list (values c g)) = (λ n, (n, g)) <$> (map_to_list (values c g)).*1) as ->
      by (by rewrite <-list_fmap_compose). apply NoDup_fmap_2; [by intros ?? [=]|done]. }
  assert (Hsub : keys false ++ keys true ⊆+ ic_order c).
  { apply NoDup_submseteq.
    - apply NoDup_app. split; [done|]. split; [|done]. intros k [H1 _]%Hkeys [H2 _]%Hkeys. congruence.
    - intros k [[_ ?]%Hkeys|[_ ?]%Hkeys]%elem_of_app; done. }
  apply submseteq_length in Hsub. unfold keys in Hsub. rewrite length_app, !length_fmap, !length_map_to_list in Hsub. exact Hsub.
Qed.

Section Transparent.
Context (nss : bytes → bool → Z → nss_reply) (sysconf : bool → Z).

Definition cache_true (c : IdentityCache) : Prop :=
  ∀ name g v, values c g !! name = Some v → v = lookup nss sysconf name g.

Lemma name_to_id_spec c value g : cache_wf c → cache_true c →
  (name_to_id nss sysconf c value g).1 = resolve_name nss sysconf value g ∧
  cache_wf (name_to_id nss sysconf c value g).2 ∧ cache_true (name_to_id nss sysconf c value g).2.
Proof.
  intros Hwf Ht. unfold name_to_id, resolve_name. destruct (Text.chars value) as [cs|]; [|done]. cbn [mbind option_bind].
  destruct (Text.parse_u32 (Text.trim cs)); [done|]. destruct (get c (Text.trim cs) g) as [v|] eqn:E.
  - split; [by apply Ht|done].
  - cbn [fst snd]. destruct (insert_spec c (Text.trim cs) g (lookup nss sysconf (Text.trim cs) g) Hwf) as [Hwf' Hv].
    split; [done|]. split; [done|]. intros name' g' v' H. apply Hv in H as [(-> & -> & ->)|H]; [done|by apply Ht].
Qed.

(** The buffers grow to their maximum within the turns allowed. *)
Lemma lookup_from_ends fuel name g size : 0 < size → MAX_NSS_BUFFER <= size * 2 ^ (Z.of_nat fuel) →
  is_Some (lookup_from nss (S fuel) name g size).
Proof.
  revert size. induction fuel as [|fuel IH]; intros size Hs Hf; cbn [lookup_from].
  - destruct (nss name g size); [eauto| |eauto]. destruct (Z.leb_spec MAX_NSS_BUFFER size); [eauto|]. cbn in Hf. lia.
  - destruct (nss name g size); [eauto| |eauto]. destruct (Z.leb_spec MAX_NSS_BUFFER size) as [|Hlt]; [eauto|].
    assert (Hm : MAX_NSS_BUFFER = 1048576) by done. unfold sat_mul, U64_MAX in *. apply IH; [lia|].
    rewrite Nat2Z.inj_succ, Z.pow_succ_r in Hf by lia. pose proof (Z.pow_pos_nonneg 2 (Z.of_nat fuel) ltac:(lia) ltac:(lia)). nia.
Qed.

Lemma resolve_all_spec calls c : cache_wf c → cache_true c →
  (resolve_all nss sysconf c calls).1 = (λ call, resolve_name nss sysconf call.1 call.2) <$> calls ∧
  cache_wf (resolve_all nss sysconf c calls).2.
Proof.
  revert c. induction calls as [|[value g] calls IH]; intros c Hwf Ht; [done|]. cbn [resolve_all].
  destruct (name_to_id_spec c value g Hwf Ht) as (Hv & Hwf' & Ht'). destruct (name_to_id nss sysconf c value g) as [v c']. cbn [fst snd] in *.
  destruct (IH c' Hwf' Ht') as [H1 H2]. destruct (resolve_all nss sysconf c' calls) as [vs c'']. cbn in *. by rewrite H1, Hv.
Qed.
End Transparent.

(** C37: The identity cache is invisible and bounded.  Whatever the name service
    answers, the same each time, every sequence of calls that starts with an empty cache gives,
    call by call, the answers that resolving every name afresh would give: the
    number written in the value, or the name service's, user and group names
    kept apart.  The search over growing buffers ends within its turns; the
    cache never holds more than its capacity, and holds exactly the names its
    eviction order lists. *)
Theorem identity_cache_transparent (nss : bytes → bool → Z → nss_reply) (sysconf : bool → Z) (calls : list (bytes * bool)) :
  let '(ids, c) := resolve_all nss sysconf IdentityCache.default_ calls in
  ids = (λ call, resolve_name nss sysconf call.1 call.2) <$> calls ∧
  Z.of_nat (size (ic_users c) + size (ic_groups c)) <= CACHE_CAPACITY ∧
  ∀ name g, is_Some (lookup_from nss LOOKUP_TURNS name g (initial_buffer_size sysconf g)).
Proof.
  destruct (resolve_all_spec nss sysconf calls IdentityCache.default_) as [H1 H2].
  - split; [constructor| |done]. intros name g. cbn. destruct g; cbn; rewrite lookup_empty; split; intros H; by inversion H.
  - intros name g v. destruct g; cbn; by rewrite lookup_empty.
  - destruct (resolve_all _ _ _ _) as [ids c]. cbn [fst snd] in *. split; [done|]. split.
    + pose proof (cache_sizes c H2). pose proof (cw_bound _ H2). lia.
    + intros name g. apply lookup_from_ends; unfold initial_buffer_size; change MAX_NSS_BUFFER with 1048576; change DEFAULT_NSS_BUFFER with 16384;
        case_match; cbn; lia.
Qed.
End IdentityLemmas.
