(* ===== verification/Metadata.v ===== *)
(** * Decoding attributes

    Models the attribute decoding of [crates/vfsi-nfs/src/nfs/metadata.rs]: the
    ids a request asks for, the parser of the opaque attribute list a GETATTR or
    READDIR reply carries, and what of it the caller gets.  The encoding of
    [fattr4] (RFC 8881, section 5) is written down independently; the theorems
    show that decoding an encoded list gives back exactly the attributes asked
    for, and that a list cut short or with bytes left over is refused. *)
From stdpp Require Import base numbers countable list list_numbers gmap strings.
From S2P Require Import Prelude Errors Types Compound.

Import SetattrLemmas (be_val).

Definition attr_decode_error : VfError.t := VfError.invalid_reply (Some 0) "malformed NFS attribute list".

(** ** Reading the list *)

Section Readers.
Context (buf : bytes).

(** [buf.get(off..end)]. *)
Definition get_range (off end_ : Z) : option bytes :=
  if (off <=? end_) && (end_ <=? Z.of_nat (length buf)) then Some (slice (Z.to_nat off) (Z.to_nat end_) buf) else None.

(** The value, and the offset after it. *)
Definition read_u32 (off : Z) : result VfError.t (Z * Z) :=
  end_ ← ok_or (checked_add off 4) attr_decode_error;
  b ← ok_or (get_range off end_) attr_decode_error;
  Ok (be_val b, end_).
Definition read_u64 (off : Z) : result VfError.t (Z * Z) :=
  end_ ← ok_or (checked_add off 8) attr_decode_error;
  b ← ok_or (get_range off end_) attr_decode_error;
  Ok (be_val b, end_).

(** [i64::from_be_bytes]. *)
Definition be_i64 (b : bytes) : Z := if be_val b <=? I64_MAX then be_val b else be_val b - 2 ^ 64.
Definition read_nfstime (off : Z) : result VfError.t (Z * Z * Z) :=
  end_ ← ok_or (checked_add off 12) attr_decode_error;
  b ← ok_or (get_range off end_) attr_decode_error;
  let nsec := be_val (drop 8 b) in
  if NSEC_PER_SEC <=? nsec then Err attr_decode_error else Ok (be_i64 (take 8 b), nsec, end_).

Definition read_str (off : Z) : result VfError.t (bytes * Z) :=
  '(len, off) ← read_u32 off;
  padded ← ok_or (checked_add len 3) attr_decode_error;
  let padded := Z.ldiff padded 3 in
  end_ ← ok_or (checked_add off padded) attr_decode_error;
  data_end ← ok_or (checked_add off len) attr_decode_error;
  if Z.of_nat (length buf) <? end_ then Err attr_decode_error
  else Ok (slice (Z.to_nat off) (Z.to_nat data_end) buf, end_).
End Readers.

(** ** Attribute values *)

Record AttrValues := MakeValues {
  av_ftype : option Z;
  av_present : Z;
  av_change : Z;
  av_mode : Z;
  av_size : Z;
  av_nlink : Z;
  av_fs_id : Z;
  av_fileid : Z;
  av_uid : Z;
  av_gid : Z;
  av_rdev : Z;
  av_blocks : Z;
  av_mtime_sec : Z;
  av_mtime_nsec : Z;
  av_atime_sec : Z;
  av_atime_nsec : Z;
  av_ctime_sec : Z;
  av_ctime_nsec : Z;
  av_has_named_attr : bool;
}.

Definition default_values : AttrValues := MakeValues None 0 0 0 0 0 0 0 0 0 0 0 0 0 0 0 0 0 false.
Definition set_ftype (x : Z) (v : AttrValues) : AttrValues :=
  MakeValues (Some x) (av_present v) (av_change v) (av_mode v) (av_size v) (av_nlink v) (av_fs_id v) (av_fileid v)
    (av_uid v) (av_gid v) (av_rdev v) (av_blocks v) (av_mtime_sec v) (av_mtime_nsec v) (av_atime_sec v)
    (av_atime_nsec v) (av_ctime_sec v) (av_ctime_nsec v) (av_has_named_attr v).
Definition set_change (x : Z) (v : AttrValues) : AttrValues :=
  MakeValues (av_ftype v) (av_present v) x (av_mode v) (av_size v) (av_nlink v) (av_fs_id v) (av_fileid v) (av_uid v)
    (av_gid v) (av_rdev v) (av_blocks v) (av_mtime_sec v) (av_mtime_nsec v) (av_atime_sec v) (av_atime_nsec v)
    (av_ctime_sec v) (av_ctime_nsec v) (av_has_named_attr v).
Definition set_size (x : Z) (v : AttrValues) : AttrValues :=
  MakeValues (av_ftype v) (av_present v) (av_change v) (av_mode v) x (av_nlink v) (av_fs_id v) (av_fileid v) (av_uid v)
    (av_gid v) (av_rdev v) (av_blocks v) (av_mtime_sec v) (av_mtime_nsec v) (av_atime_sec v) (av_atime_nsec v)
    (av_ctime_sec v) (av_ctime_nsec v) (av_has_named_attr v).
Definition set_fs_id (x : Z) (v : AttrValues) : AttrValues :=
  MakeValues (av_ftype v) (av_present v) (av_change v) (av_mode v) (av_size v) (av_nlink v) x (av_fileid v) (av_uid v)
    (av_gid v) (av_rdev v) (av_blocks v) (av_mtime_sec v) (av_mtime_nsec v) (av_atime_sec v) (av_atime_nsec v)
    (av_ctime_sec v) (av_ctime_nsec v) (av_has_named_attr v).
Definition set_fileid (x : Z) (v : AttrValues) : AttrValues :=
  MakeValues (av_ftype v) (av_present v) (av_change v) (av_mode v) (av_size v) (av_nlink v) (av_fs_id v) x (av_uid v)
    (av_gid v) (av_rdev v) (av_blocks v) (av_mtime_sec v) (av_mtime_nsec v) (av_atime_sec v) (av_atime_nsec v)
    (av_ctime_sec v) (av_ctime_nsec v) (av_has_named_attr v).
Definition set_mode (x : Z) (v : AttrValues) : AttrValues :=
  MakeValues (av_ftype v) (av_present v) (av_change v) x (av_size v) (av_nlink v) (av_fs_id v) (av_fileid v) (av_uid v)
    (av_gid v) (av_rdev v) (av_blocks v) (av_mtime_sec v) (av_mtime_nsec v) (av_atime_sec v) (av_atime_nsec v)
    (av_ctime_sec v) (av_ctime_nsec v) (av_has_named_attr v).
Definition set_nlink (x : Z) (v : AttrValues) : AttrValues :=
  MakeValues (av_ftype v) (av_present v) (av_change v) (av_mode v) (av_size v) x (av_fs_id v) (av_fileid v) (av_uid v)
    (av_gid v) (av_rdev v) (av_blocks v) (av_mtime_sec v) (av_mtime_nsec v) (av_atime_sec v) (av_atime_nsec v)
    (av_ctime_sec v) (av_ctime_nsec v) (av_has_named_attr v).
Definition set_rdev (x : Z) (v : AttrValues) : AttrValues :=
  MakeValues (av_ftype v) (av_present v) (av_change v) (av_mode v) (av_size v) (av_nlink v) (av_fs_id v) (av_fileid v)
    (av_uid v) (av_gid v) x (av_blocks v) (av_mtime_sec v) (av_mtime_nsec v) (av_atime_sec v) (av_atime_nsec v)
    (av_ctime_sec v) (av_ctime_nsec v) (av_has_named_attr v).
Definition set_blocks (x : Z) (v : AttrValues) : AttrValues :=
  MakeValues (av_ftype v) (av_present v) (av_change v) (av_mode v) (av_size v) (av_nlink v) (av_fs_id v) (av_fileid v)
    (av_uid v) (av_gid v) (av_rdev v) x (av_mtime_sec v) (av_mtime_nsec v) (av_atime_sec v) (av_atime_nsec v)
    (av_ctime_sec v) (av_ctime_nsec v) (av_has_named_attr v).
Definition set_uid (x : Z) (v : AttrValues) : AttrValues :=
  MakeValues (av_ftype v) (av_present v) (av_change v) (av_mode v) (av_size v) (av_nlink v) (av_fs_id v) (av_fileid v) x
    (av_gid v) (av_rdev v) (av_blocks v) (av_mtime_sec v) (av_mtime_nsec v) (av_atime_sec v) (av_atime_nsec v)
    (av_ctime_sec v) (av_ctime_nsec v) (av_has_named_attr v).
Definition set_gid (x : Z) (v : AttrValues) : AttrValues :=
  MakeValues (av_ftype v) (av_present v) (av_change v) (av_mode v) (av_size v) (av_nlink v) (av_fs_id v) (av_fileid v)
    (av_uid v) x (av_rdev v) (av_blocks v) (av_mtime_sec v) (av_mtime_nsec v) (av_atime_sec v) (av_atime_nsec v)
    (av_ctime_sec v) (av_ctime_nsec v) (av_has_named_attr v).
Definition set_mtime (t : Z * Z) (v : AttrValues) : AttrValues :=
  MakeValues (av_ftype v) (av_present v) (av_change v) (av_mode v) (av_size v) (av_nlink v) (av_fs_id v) (av_fileid v)
    (av_uid v) (av_gid v) (av_rdev v) (av_blocks v) (t.1) (t.2) (av_atime_sec v) (av_atime_nsec v)
    (av_ctime_sec v) (av_ctime_nsec v) (av_has_named_attr v).
Definition set_atime (t : Z * Z) (v : AttrValues) : AttrValues :=
  MakeValues (av_ftype v) (av_present v) (av_change v) (av_mode v) (av_size v) (av_nlink v) (av_fs_id v) (av_fileid v)
    (av_uid v) (av_gid v) (av_rdev v) (av_blocks v) (av_mtime_sec v) (av_mtime_nsec v) (t.1) (t.2)
    (av_ctime_sec v) (av_ctime_nsec v) (av_has_named_attr v).
Definition set_ctime (t : Z * Z) (v : AttrValues) : AttrValues :=
  MakeValues (av_ftype v) (av_present v) (av_change v) (av_mode v) (av_size v) (av_nlink v) (av_fs_id v) (av_fileid v)
    (av_uid v) (av_gid v) (av_rdev v) (av_blocks v) (av_mtime_sec v) (av_mtime_nsec v) (av_atime_sec v)
    (av_atime_nsec v) (t.1) (t.2) (av_has_named_attr v).
Definition set_named_attr (x : bool) (v : AttrValues) : AttrValues :=
  MakeValues (av_ftype v) (av_present v) (av_change v) (av_mode v) (av_size v) (av_nlink v) (av_fs_id v) (av_fileid v)
    (av_uid v) (av_gid v) (av_rdev v) (av_blocks v) (av_mtime_sec v) (av_mtime_nsec v) (av_atime_sec v)
    (av_atime_nsec v) (av_ctime_sec v) (av_ctime_nsec v) x.
Definition set_present (x : Z) (v : AttrValues) : AttrValues :=
  MakeValues (av_ftype v) x (av_change v) (av_mode v) (av_size v) (av_nlink v) (av_fs_id v) (av_fileid v) (av_uid v)
    (av_gid v) (av_rdev v) (av_blocks v) (av_mtime_sec v) (av_mtime_nsec v) (av_atime_sec v) (av_atime_nsec v)
    (av_ctime_sec v) (av_ctime_nsec v) (av_has_named_attr v).

(** The supported attributes. *)
Inductive attribute :=
| AttrType | AttrChange | AttrSize | AttrNamedAttr | AttrFsid | AttrFileid | AttrMode | AttrNumlinks | AttrOwner
| AttrOwnerGroup | AttrRawdev | AttrSpaceUsed | AttrTimeAccess | AttrTimeMetadata | AttrTimeModify.

Definition attribute_id (a : attribute) : Z :=
  match a with
  | AttrType => FATTR4_TYPE | AttrChange => FATTR4_CHANGE | AttrSize => FATTR4_SIZE | AttrNamedAttr => FATTR4_NAMED_ATTR
  | AttrFsid => FATTR4_FSID | AttrFileid => FATTR4_FILEID | AttrMode => FATTR4_MODE | AttrNumlinks => FATTR4_NUMLINKS
  | AttrOwner => FATTR4_OWNER | AttrOwnerGroup => FATTR4_OWNER_GROUP | AttrRawdev => FATTR4_RAWDEV
  | AttrSpaceUsed => FATTR4_SPACE_USED | AttrTimeAccess => FATTR4_TIME_ACCESS
  | AttrTimeMetadata => FATTR4_TIME_METADATA | AttrTimeModify => FATTR4_TIME_MODIFY
  end.

(** [FULL_ATTR_IDS], in wire order. *)
Definition FULL_ATTRS : list attribute :=
  [AttrType; AttrChange; AttrSize; AttrNamedAttr; AttrFsid; AttrFileid; AttrMode; AttrNumlinks; AttrOwner; AttrOwnerGroup;
   AttrRawdev; AttrSpaceUsed; AttrTimeAccess; AttrTimeMetadata; AttrTimeModify].

(** The attribute an id stands for, for the arms of a [match] on ids. *)
Definition attribute_of (id : Z) : option attribute := find (λ a, attribute_id a =? id) FULL_ATTRS.

#[global] Instance attribute_eq_dec : EqDecision attribute.
Proof. solve_decision. Defined.

(** The bit of [AttrMask] that asks for an attribute; TYPE has none. *)
Definition mask_of (a : attribute) : option Z :=
  match a with
  | AttrType => None
  | AttrChange => Some AttrMask.CHANGE
  | AttrSize => Some AttrMask.SIZE
  | AttrFsid => Some AttrMask.FS_ID
  | AttrNamedAttr => Some AttrMask.NAMED_ATTR
  | AttrFileid => Some AttrMask.FILEID
  | AttrMode => Some AttrMask.MODE
  | AttrNumlinks => Some AttrMask.NLINK
  | AttrOwner => Some AttrMask.UID
  | AttrOwnerGroup => Some AttrMask.GID
  | AttrRawdev => Some AttrMask.RDEV
  | AttrSpaceUsed => Some AttrMask.BLOCKS
  | AttrTimeAccess => Some AttrMask.ATIME
  | AttrTimeMetadata => Some AttrMask.CTIME
  | AttrTimeModify => Some AttrMask.MTIME
  end.
Definition wanted (masks : Z) (a : attribute) : bool :=
  match mask_of a with Some bit => flags_contain masks bit | None => true end.
Definition request_mask_to_attr_list (masks : Z) : list Z := attribute_id <$> filter (wanted masks) FULL_ATTRS.

Section Parse.
(** [name_to_id] of the identity module, and [libc::makedev]. *)
Context (name_to_id : bytes → bool → option Z) (makedev : Z → Z → Z).

Definition with_field (bit : Z) (v : AttrValues) : AttrValues := set_present (Z.lor (av_present v) bit) v.
(** [present.set(bit, value)]. *)
Definition set_field (bit : Z) (value : bool) (v : AttrValues) : AttrValues :=
  set_present (if value then Z.lor (av_present v) bit else flags_difference (av_present v) bit) v.

(** One turn of the loop; [None] for the [unreachable!] arm. *)
Definition parse_attr (buf : bytes) (id : Z) (v : AttrValues) (off : Z) : option (result VfError.t (AttrValues * Z)) :=
  a ← attribute_of id;
  Some match a with
  | AttrType => '(x, off) ← read_u32 buf off; Ok (set_ftype x v, off)
  | AttrChange => '(x, off) ← read_u64 buf off; Ok (with_field AttrMask.CHANGE (set_change x v), off)
  | AttrSize => '(x, off) ← read_u64 buf off; Ok (with_field AttrMask.SIZE (set_size x v), off)
  | AttrFsid =>
      '(major, off) ← read_u64 buf off; '(minor, off) ← read_u64 buf off;
      Ok (with_field AttrMask.FS_ID (set_fs_id (Z.lor (Z.shiftl major 64) minor) v), off)
  | AttrNamedAttr =>
      '(x, off) ← read_u32 buf off; Ok (with_field AttrMask.NAMED_ATTR (set_named_attr (negb (x =? 0)) v), off)
  | AttrFileid => '(x, off) ← read_u64 buf off; Ok (with_field AttrMask.FILEID (set_fileid x v), off)
  | AttrMode => '(x, off) ← read_u32 buf off; Ok (with_field AttrMask.MODE (set_mode x v), off)
  | AttrNumlinks => '(x, off) ← read_u32 buf off; Ok (with_field AttrMask.NLINK (set_nlink x v), off)
  | AttrOwner =>
      '(s, off) ← read_str buf off;
      let uid := name_to_id s false in
      Ok (set_field AttrMask.UID (bool_decide (is_Some uid)) (set_uid (default 0 uid) v), off)
  | AttrOwnerGroup =>
      '(s, off) ← read_str buf off;
      let gid := name_to_id s true in
      Ok (set_field AttrMask.GID (bool_decide (is_Some gid)) (set_gid (default 0 gid) v), off)
  | AttrRawdev =>
      '(major, off) ← read_u32 buf off; '(minor, off) ← read_u32 buf off;
      Ok (with_field AttrMask.RDEV (set_rdev (makedev major minor) v), off)
  | AttrSpaceUsed => '(x, off) ← read_u64 buf off; Ok (with_field AttrMask.BLOCKS (set_blocks (x / 512) v), off)
  | AttrTimeAccess => '(t, off) ← read_nfstime buf off; Ok (with_field AttrMask.ATIME (set_atime t v), off)
  | AttrTimeModify => '(t, off) ← read_nfstime buf off; Ok (with_field AttrMask.MTIME (set_mtime t v), off)
  | AttrTimeMetadata => '(t, off) ← read_nfstime buf off; Ok (with_field AttrMask.CTIME (set_ctime t v), off)
  end.

Fixpoint parse_attrs (buf : bytes) (ids : list Z) (v : AttrValues) (off : Z) : option (result VfError.t (AttrValues * Z)) :=
  match ids with
  | [] => Some (Ok (v, off))
  | id :: ids =>
      r ← parse_attr buf id v off;
      match r with Ok (v, off) => parse_attrs buf ids v off | Err e => Some (Err e) end
  end.

Definition parse_attr_list (ids : list Z) (buf : bytes) : option (result VfError.t AttrValues) :=
  r ← parse_attrs buf ids default_values 0;
  Some match r with
  | Ok (v, off) => if off =? Z.of_nat (length buf) then Ok v else Err attr_decode_error
  | Err e => Err e
  end.
End Parse.

(** ** What the caller gets *)

Definition s_ifmt (ftype : Z) : Z :=
  if ftype =? NF4REG then 32768 (* 0o100000 *)
  else if ftype =? NF4DIR then 16384 (* 0o040000 *)
  else if ftype =? NF4LNK then 40960 (* 0o120000 *)
  else if ftype =? NF4BLK then 24576 (* 0o060000 *)
  else if ftype =? NF4CHR then 8192 (* 0o020000 *)
  else if ftype =? NF4FIFO then 4096 (* 0o010000 *)
  else if ftype =? NF4SOCK then 49152 (* 0o140000 *)
  else 0.

Definition apply_attrs (a : VfAttrs) (v : AttrValues) : VfAttrs :=
  let ftype := match av_ftype v with Some t => file_type_from_nfs t | None => Regular end in
  let returned := Z.land (va_masks a) (av_present v) in
  let copy {T} (bit : Z) (value old : T) := if flags_contain returned bit then value else old in
  MakeVfAttrs (va_file a) (va_masks a) returned ftype
    (copy AttrMask.MODE (Z.lor (av_mode v) (s_ifmt (file_type_to_nfs ftype))) (va_mode a))
    (copy AttrMask.SIZE (av_size v) (va_size a))
    (copy AttrMask.NLINK (av_nlink v) (va_nlink a))
    (copy AttrMask.FILEID (av_fileid v) (va_fileid a))
    (copy AttrMask.FS_ID (av_fs_id v) (va_fs_id a))
    (copy AttrMask.CHANGE (av_change v) (va_change a))
    (copy AttrMask.UID (av_uid v) (va_uid a))
    (copy AttrMask.GID (av_gid v) (va_gid a))
    (copy AttrMask.RDEV (av_rdev v) (va_rdev a))
    (copy AttrMask.BLOCKS (av_blocks v) (va_blocks a))
    (copy AttrMask.MTIME (av_mtime_sec v) (va_mtime_sec a))
    (copy AttrMask.MTIME (av_mtime_nsec v) (va_mtime_nsec a))
    (copy AttrMask.ATIME (av_atime_sec v) (va_atime_sec a))
    (copy AttrMask.ATIME (av_atime_nsec v) (va_atime_nsec a))
    (copy AttrMask.CTIME (av_ctime_sec v) (va_ctime_sec a))
    (copy AttrMask.CTIME (av_ctime_nsec v) (va_ctime_nsec a))
    (copy AttrMask.NAMED_ATTR (av_has_named_attr v) (va_has_named_attr a)).

Definition type_is_symlink (attrs : bytes) : result VfError.t bool :=
  '(t, _) ← read_u32 attrs 0; Ok (t =? NF4LNK).

(** ** Filesystem statistics *)

Definition filesystem_attributes : list Z :=
  [FATTR4_FILES_AVAIL; FATTR4_FILES_FREE; FATTR4_FILES_TOTAL; FATTR4_MAXFILESIZE; FATTR4_MAXLINK; FATTR4_MAXNAME;
   FATTR4_SPACE_AVAIL; FATTR4_SPACE_FREE; FATTR4_SPACE_TOTAL].

(** The [match] on the attribute: the field it sets, and whether its value is a [u64] or a [u32]. *)
Definition stat_field (attribute : Z) : option (FilesystemStats.field * bool) :=
  if attribute =? FATTR4_FILES_AVAIL then Some (FilesystemStats.available_files, true)
  else if attribute =? FATTR4_FILES_FREE then Some (FilesystemStats.free_files, true)
  else if attribute =? FATTR4_FILES_TOTAL then Some (FilesystemStats.total_files, true)
  else if attribute =? FATTR4_MAXFILESIZE then Some (FilesystemStats.max_file_size, true)
  else if attribute =? FATTR4_MAXLINK then Some (FilesystemStats.max_links, false)
  else if attribute =? FATTR4_MAXNAME then Some (FilesystemStats.max_name_len, false)
  else if attribute =? FATTR4_SPACE_AVAIL then Some (FilesystemStats.available_bytes, true)
  else if attribute =? FATTR4_SPACE_FREE then Some (FilesystemStats.free_bytes, true)
  else if attribute =? FATTR4_SPACE_TOTAL then Some (FilesystemStats.total_bytes, true)
  else None.

Definition read_stat (buf : bytes) (attribute : Z) (stats : FilesystemStats.t) (off : Z) : result VfError.t (FilesystemStats.t * Z) :=
  '(field, wide) ← ok_or (stat_field attribute) attr_decode_error;
  '(x, off) ← (if wide : bool then read_u64 buf off else read_u32 buf off);
  Ok (FilesystemStats.with_ field (Some x) stats, off).

(** The attributes of a bitmap in the order of the two nested loops. *)
Definition word_attributes (word : nat) (bits : Z) : list Z :=
  (λ bit, Z.of_nat (word * 32 + bit)) <$> filter (λ bit, negb (Z.land bits (Z.shiftl 1 (Z.of_nat bit)) =? 0)) (seq 0 32).
Definition bitmap_words (b : bitmap4) : option (list Z) :=
  let '(w0, w1, w2) := bitmap4_map b in
  if bitmap4_len b <=? 3 then Some (take (Z.to_nat (bitmap4_len b)) [w0; w1; w2]) else None.

Fixpoint read_stats (buf : bytes) (attributes : list Z) (stats : FilesystemStats.t) (off : Z) : result VfError.t (FilesystemStats.t * Z) :=
  match attributes with
  | [] => Ok (stats, off)
  | a :: attributes => '(stats, off) ← read_stat buf a stats off; read_stats buf attributes stats off
  end.

Definition decode_filesystem_stats (b : bitmap4) (buf : bytes) : result VfError.t FilesystemStats.t :=
  words ← ok_or (bitmap_words b) attr_decode_error;
  '(stats, off) ← read_stats buf (mjoin (imap word_attributes words)) FilesystemStats.default_stats 0;
  if negb (off =? Z.of_nat (length buf)) then Err attr_decode_error else Ok stats.

(** ** The wire format *)

(** The values of some filesystem attributes, as a server sends them. *)
Definition stat_range (value : Z → Z) (attribute : Z) : Prop :=
  match stat_field attribute with Some (_, true) => is_u64 (value attribute) | _ => is_u32 (value attribute) end.
Fixpoint encode_stats (value : Z → Z) (attributes : list Z) : bytes :=
  match attributes with
  | [] => []
  | a :: attributes =>
      be_bytes (if stat_field a is Some (_, false) then 4 else 8) (value a) ++ encode_stats value attributes
  end.
(** The attribute that carries a field. *)
Definition field_attribute (field : FilesystemStats.field) : option Z :=
  find (λ a, bool_decide (fst <$> stat_field a = Some field)) filesystem_attributes.

(** The attributes of an object, as the protocol has them. *)
Record fattr := MakeFattr {
  fa_type : Z; fa_change : Z; fa_size : Z; fa_named_attr : bool; fa_fsid : Z * Z; fa_fileid : Z; fa_mode : Z;
  fa_numlinks : Z; fa_owner : bytes; fa_owner_group : bytes; fa_rawdev : Z * Z; fa_space_used : Z;
  fa_time_access : Z * Z; fa_time_metadata : Z * Z; fa_time_modify : Z * Z;
}.

Definition xdr_string (s : bytes) : bytes :=
  be_bytes 4 (Z.of_nat (length s)) ++ s ++ replicate (Z.to_nat ((- Z.of_nat (length s)) mod 4)) Byte.x00.
Definition xdr_time (t : Z * Z) : bytes := be_bytes 8 t.1 ++ be_bytes 4 t.2.

Definition encode_attribute (w : fattr) (a : attribute) : bytes :=
  match a with
  | AttrType => be_bytes 4 (fa_type w)
  | AttrChange => be_bytes 8 (fa_change w)
  | AttrSize => be_bytes 8 (fa_size w)
  | AttrNamedAttr => be_bytes 4 (if fa_named_attr w then 1 else 0)
  | AttrFsid => be_bytes 8 (fa_fsid w).1 ++ be_bytes 8 (fa_fsid w).2
  | AttrFileid => be_bytes 8 (fa_fileid w)
  | AttrMode => be_bytes 4 (fa_mode w)
  | AttrNumlinks => be_bytes 4 (fa_numlinks w)
  | AttrOwner => xdr_string (fa_owner w)
  | AttrOwnerGroup => xdr_string (fa_owner_group w)
  | AttrRawdev => be_bytes 4 (fa_rawdev w).1 ++ be_bytes 4 (fa_rawdev w).2
  | AttrSpaceUsed => be_bytes 8 (fa_space_used w)
  | AttrTimeAccess => xdr_time (fa_time_access w)
  | AttrTimeMetadata => xdr_time (fa_time_metadata w)
  | AttrTimeModify => xdr_time (fa_time_modify w)
  end.
(** The [fattr4_list] for the attributes: their values in wire order. *)
Fixpoint encode_attributes (w : fattr) (as_ : list attribute) : bytes :=
  match as_ with [] => [] | a :: as_ => encode_attribute w a ++ encode_attributes w as_ end.

Definition is_time (t : Z * Z) : Prop := I64_MIN <= t.1 <= I64_MAX ∧ 0 <= t.2 < NSEC_PER_SEC.
(** The values are in the range of their types; owner names are short of 4 GiB. *)
Record fattr_ok (w : fattr) : Prop := {
  fo_type : is_u32 (fa_type w); fo_change : is_u64 (fa_change w); fo_size : is_u64 (fa_size w);
  fo_fsid : is_u64 (fa_fsid w).1 ∧ is_u64 (fa_fsid w).2; fo_fileid : is_u64 (fa_fileid w); fo_mode : is_u32 (fa_mode w);
  fo_numlinks : is_u32 (fa_numlinks w); fo_owner : Z.of_nat (length (fa_owner w)) <= U32_MAX;
  fo_owner_group : Z.of_nat (length (fa_owner_group w)) <= U32_MAX;
  fo_rawdev : is_u32 (fa_rawdev w).1 ∧ is_u32 (fa_rawdev w).2; fo_space_used : is_u64 (fa_space_used w);
  fo_time_access : is_time (fa_time_access w); fo_time_metadata : is_time (fa_time_metadata w);
  fo_time_modify : is_time (fa_time_modify w);
}.

Section Expected.
Context (name_to_id : bytes → bool → option Z) (makedev : Z → Z → Z).

(** What an attribute of the object leaves in the values. *)
Definition store (w : fattr) (v : AttrValues) (a : attribute) : AttrValues :=
  match a with
  | AttrType => set_ftype (fa_type w) v
  | AttrChange => with_field AttrMask.CHANGE (set_change (fa_change w) v)
  | AttrSize => with_field AttrMask.SIZE (set_size (fa_size w) v)
  | AttrNamedAttr => with_field AttrMask.NAMED_ATTR (set_named_attr (fa_named_attr w) v)
  | AttrFsid => with_field AttrMask.FS_ID (set_fs_id ((fa_fsid w).1 * 2 ^ 64 + (fa_fsid w).2) v)
  | AttrFileid => with_field AttrMask.FILEID (set_fileid (fa_fileid w) v)
  | AttrMode => with_field AttrMask.MODE (set_mode (fa_mode w) v)
  | AttrNumlinks => with_field AttrMask.NLINK (set_nlink (fa_numlinks w) v)
  | AttrOwner =>
      let uid := name_to_id (fa_owner w) false in
      set_field AttrMask.UID (bool_decide (is_Some uid)) (set_uid (default 0 uid) v)
  | AttrOwnerGroup =>
      let gid := name_to_id (fa_owner_group w) true in
      set_field AttrMask.GID (bool_decide (is_Some gid)) (set_gid (default 0 gid) v)
  | AttrRawdev => with_field AttrMask.RDEV (set_rdev (makedev (fa_rawdev w).1 (fa_rawdev w).2) v)
  | AttrSpaceUsed => with_field AttrMask.BLOCKS (set_blocks (fa_space_used w / 512) v)
  | AttrTimeAccess => with_field AttrMask.ATIME (set_atime (fa_time_access w) v)
  | AttrTimeMetadata => with_field AttrMask.CTIME (set_ctime (fa_time_metadata w) v)
  | AttrTimeModify => with_field AttrMask.MTIME (set_mtime (fa_time_modify w) v)
  end.

(** What the attributes asked for leave. *)
Definition object_values (w : fattr) (masks : Z) : AttrValues :=
  foldl (store w) default_values (filter (wanted masks) FULL_ATTRS).

(** What the caller should get: every attribute asked for, the owners as far as
    they have an id here, and nothing else touched. *)
Definition object_attrs (a : VfAttrs) (w : fattr) : VfAttrs :=
  let uid := name_to_id (fa_owner w) false in
  let gid := name_to_id (fa_owner_group w) true in
  let ftype := file_type_from_nfs (fa_type w) in
  let unmapped := Z.lor (if uid is None then AttrMask.UID else 0) (if gid is None then AttrMask.GID else 0) in
  let asked {T} (bit : Z) (value old : T) := if flags_contain (va_masks a) bit then value else old in
  MakeVfAttrs (va_file a) (va_masks a) (flags_difference (Z.land (va_masks a) (2 ^ 14 - 1)) unmapped) ftype
    (asked AttrMask.MODE (Z.lor (fa_mode w) (s_ifmt (file_type_to_nfs ftype))) (va_mode a))
    (asked AttrMask.SIZE (fa_size w) (va_size a))
    (asked AttrMask.NLINK (fa_numlinks w) (va_nlink a))
    (asked AttrMask.FILEID (fa_fileid w) (va_fileid a))
    (asked AttrMask.FS_ID ((fa_fsid w).1 * 2 ^ 64 + (fa_fsid w).2) (va_fs_id a))
    (asked AttrMask.CHANGE (fa_change w) (va_change a))
    (asked AttrMask.UID (default (va_uid a) uid) (va_uid a))
    (asked AttrMask.GID (default (va_gid a) gid) (va_gid a))
    (asked AttrMask.RDEV (makedev (fa_rawdev w).1 (fa_rawdev w).2) (va_rdev a))
    (asked AttrMask.BLOCKS (fa_space_used w / 512) (va_blocks a))
    (asked AttrMask.MTIME (fa_time_modify w).1 (va_mtime_sec a))
    (asked AttrMask.MTIME (fa_time_modify w).2 (va_mtime_nsec a))
    (asked AttrMask.ATIME (fa_time_access w).1 (va_atime_sec a))
    (asked AttrMask.ATIME (fa_time_access w).2 (va_atime_nsec a))
    (asked AttrMask.CTIME (fa_time_metadata w).1 (va_ctime_sec a))
    (asked AttrMask.CTIME (fa_time_metadata w).2 (va_ctime_nsec a))
    (asked AttrMask.NAMED_ATTR (fa_named_attr w) (va_has_named_attr a)).
End Expected.

Module MetadataLemmas.
Import SetattrLemmas.

(** ** The readers on encoded values *)

Section At.
Context (pre post : bytes).

Lemma get_range_at e : get_range (pre ++ e ++ post) (Z.of_nat (length pre)) (Z.of_nat (length pre) + Z.of_nat (length e)) = Some e.
Proof.
  unfold get_range. rewrite !length_app, (proj2 (andb_true_iff _ _)) by (split; apply Z.leb_le; lia). f_equal. unfold slice.
  rewrite <-Nat2Z.inj_add, !Nat2Z.id, app_assoc, take_app_length' by (by rewrite length_app). by rewrite drop_app_length.
Qed.

Lemma checked_ok n k : 0 <= n → n + k <= U64_MAX → checked_add n k = Some (n + k).
Proof. intros. unfold checked_add. by rewrite (proj2 (Z.leb_le _ _)) by lia. Qed.

Context (Hpre : Z.of_nat (length pre) <= 2 ^ 60).

Lemma read_u32_at n : is_u32 n → read_u32 (pre ++ be_bytes 4 n ++ post) (Z.of_nat (length pre)) = Ok (n, Z.of_nat (length pre) + 4).
Proof.
  intros Hn. unfold read_u32. rewrite checked_ok by (unfold U64_MAX; lia). cbn [ok_or mbind result_bind].
  pose proof (get_range_at (be_bytes 4 n)) as H. rewrite length_be_bytes in H. change (Z.of_nat 4) with 4 in H. rewrite H.
  cbn [ok_or mbind result_bind]. rewrite be_val_be_bytes, Z.mod_small by (unfold is_u32, U32_MAX in Hn; cbn; lia). done.
Qed.

Lemma read_u64_at n : is_u64 n → read_u64 (pre ++ be_bytes 8 n ++ post) (Z.of_nat (length pre)) = Ok (n, Z.of_nat (length pre) + 8).
Proof.
  intros Hn. unfold read_u64. rewrite checked_ok by (unfold U64_MAX; lia). cbn [ok_or mbind result_bind].
  pose proof (get_range_at (be_bytes 8 n)) as H. rewrite length_be_bytes in H. change (Z.of_nat 8) with 8 in H. rewrite H.
  cbn [ok_or mbind result_bind]. rewrite be_val_be_bytes, Z.mod_small by (unfold is_u64, U64_MAX in Hn; cbn; lia). done.
Qed.

Lemma be_i64_bytes n : I64_MIN <= n <= I64_MAX → be_i64 (be_bytes 8 n) = n.
Proof.
  unfold I64_MIN, I64_MAX, be_i64. intros Hn. rewrite be_val_be_bytes. change (8 * Z.of_nat 8) with 64. unfold I64_MAX.
  destruct (Z.leb_spec 0 n).
  - rewrite Z.mod_small by lia. by rewrite (proj2 (Z.leb_le _ _)) by lia.
  - replace (n mod 2 ^ 64) with (n + 2 ^ 64) by (symmetry; rewrite <-(Z_mod_plus_full n 1); apply Z.mod_small; lia).
    rewrite (proj2 (Z.leb_gt _ _)) by lia. lia.
Qed.

Lemma read_time_at t : is_time t → read_nfstime (pre ++ xdr_time t ++ post) (Z.of_nat (length pre)) = Ok (t, Z.of_nat (length pre) + 12).
Proof.
  intros [Hs Hn]. unfold read_nfstime. rewrite checked_ok by (unfold U64_MAX; lia). cbn [ok_or mbind result_bind].
  pose proof (get_range_at (xdr_time t)) as H. unfold xdr_time in H at 2. rewrite length_app, !length_be_bytes in H.
  change (Z.of_nat (8 + 4)) with 12 in H. rewrite H. cbn [ok_or mbind result_bind]. unfold xdr_time.
  rewrite drop_app_length', take_app_length' by (by rewrite length_be_bytes).
  rewrite be_val_be_bytes, Z.mod_small, be_i64_bytes by (unfold NSEC_PER_SEC in Hn; cbn; lia || done).
  rewrite (proj2 (Z.leb_gt _ _)) by lia. by destruct t.
Qed.
End At.

Lemma length_xdr_time t : length (xdr_time t) = 12%nat.
Proof. unfold xdr_time. by rewrite length_app, !length_be_bytes. Qed.

Lemma padded_length n : 0 <= n → Z.ldiff (n + 3) 3 = n + (- n) mod 4.
Proof.
  intros Hn. change 3 with (Z.ones 2) at 2. rewrite Z.ldiff_ones_r, Z.shiftr_div_pow2, Z.shiftl_mul_pow2 by lia. change (2 ^ 2) with 4.
  pose proof (Z.div_mod n 4 ltac:(lia)). pose proof (Z.mod_pos_bound n 4 ltac:(lia)).
  destruct (Z.eq_dec (n mod 4) 0) as [E|E].
  - rewrite Z.mod_opp_l_z by lia. replace (n + 3) with (n / 4 * 4 + 3) by lia. rewrite Z.div_add_l by lia. change (3 / 4) with 0. lia.
  - rewrite Z.mod_opp_l_nz by lia. replace (n + 3) with ((n / 4 + 1) * 4 + (n mod 4 - 1)) by lia. rewrite Z.div_add_l by lia.
    rewrite (Z.div_small (n mod 4 - 1)) by lia. lia.
Qed.

Lemma length_xdr_string s : Z.of_nat (length (xdr_string s)) = 4 + Z.ldiff (Z.of_nat (length s) + 3) 3.
Proof.
  unfold xdr_string. rewrite !length_app, length_be_bytes, length_replicate, padded_length by lia.
  pose proof (Z.mod_pos_bound (- Z.of_nat (length s)) 4 ltac:(lia)). lia.
Qed.

Lemma read_str_at pre s post : Z.of_nat (length pre) <= 2 ^ 60 → Z.of_nat (length s) <= U32_MAX →
  read_str (pre ++ xdr_string s ++ post) (Z.of_nat (length pre)) = Ok (s, Z.of_nat (length pre) + Z.of_nat (length (xdr_string s))).
Proof.
  intros Hpre Hs. unfold read_str. unfold U32_MAX in Hs. rewrite length_xdr_string. set (buf := pre ++ xdr_string s ++ post).
  set (tail := s ++ replicate (Z.to_nat ((- Z.of_nat (length s)) mod 4)) Byte.x00).
  assert (Hbuf : buf = pre ++ be_bytes 4 (Z.of_nat (length s)) ++ (tail ++ post)) by (unfold buf, tail, xdr_string; by rewrite <-!app_assoc).
  assert (Hlen : Z.of_nat (length buf) = Z.of_nat (length pre) + (4 + Z.ldiff (Z.of_nat (length s) + 3) 3) + Z.of_nat (length post))
    by (unfold buf; rewrite !length_app, <-length_xdr_string; lia).
  rewrite Hbuf, read_u32_at, <-Hbuf by (done || (unfold is_u32, U32_MAX; lia)). cbn [mbind result_bind].
  pose proof (padded_length (Z.of_nat (length s)) ltac:(lia)). pose proof (Z.mod_pos_bound (- Z.of_nat (length s)) 4 ltac:(lia)).
  do 3 (rewrite checked_ok by (unfold U64_MAX; lia); cbn [ok_or mbind result_bind]). rewrite (proj2 (Z.ltb_ge _ _)) by lia.
  f_equal. f_equal; [|lia]. unfold slice. set (four := be_bytes 4 (Z.of_nat (length s))).
  assert (Hb : buf = (pre ++ four) ++ s ++ (replicate (Z.to_nat ((- Z.of_nat (length s)) mod 4)) Byte.x00 ++ post))
    by (rewrite Hbuf; unfold tail; by rewrite <-!app_assoc).
  rewrite Hb. assert (Hl : Z.to_nat (Z.of_nat (length pre) + 4) = length (pre ++ four)) by (unfold four; rewrite length_app, length_be_bytes; lia).
  rewrite Hl, app_assoc, take_app_length', drop_app_length; [done|]. unfold four. rewrite !length_app, length_be_bytes. lia.
Qed.

(** ** One attribute *)

Lemma fsid_join major minor : is_u64 minor → Z.lor (Z.shiftl major 64) minor = major * 2 ^ 64 + minor.
Proof.
  unfold is_u64, U64_MAX. intros Hm. rewrite <-Z.shiftl_mul_pow2 by lia.
  assert (H : Z.land (Z.shiftl major 64) minor = 0).
  { apply Z.bits_inj'. intros i Hi. rewrite Z.land_spec, Z.bits_0. destruct (Z.ltb_spec i 64).
    - by rewrite Z.shiftl_spec_low by lia.
    - destruct (Z.eq_dec minor 0) as [->|Hnz]; [by rewrite Z.bits_0, andb_false_r|].
      rewrite (Z.bits_above_log2 minor i), andb_false_r; [done|lia|]. apply Z.log2_lt_pow2; [lia|].
      pose proof (Z.pow_le_mono_r 2 64 i). lia. }
  by rewrite Z.add_nocarry_lxor, Z.lxor_lor by done.
Qed.

Lemma attribute_of_id a : attribute_of (attribute_id a) = Some a.
Proof. by destruct a. Qed.

Section Object.
Context (name_to_id : bytes → bool → option Z) (makedev : Z → Z → Z) (w : fattr) (Hw : fattr_ok w).

(** Two fixed-size values in a row. *)
Lemma app_at (pre e1 e2 post : bytes) : pre ++ (e1 ++ e2) ++ post = (pre ++ e1) ++ e2 ++ post.
Proof. by rewrite <-!app_assoc. Qed.

Lemma pair_u64_at pre post x y : Z.of_nat (length pre) <= 2 ^ 59 → is_u64 x → is_u64 y →
  let buf := pre ++ (be_bytes 8 x ++ be_bytes 8 y) ++ post in
  let off := Z.of_nat (length pre) in
  read_u64 buf off = Ok (x, off + 8) ∧ read_u64 buf (off + 8) = Ok (y, off + 16).
Proof.
  intros Hp Hx Hy buf off. subst buf off. split.
  - rewrite <-app_assoc. by apply read_u64_at; [lia|].
  - rewrite app_at. pose proof (read_u64_at (pre ++ be_bytes 8 x) post) as H. rewrite length_app, length_be_bytes in H.
    replace (Z.of_nat (length pre) + 8) with (Z.of_nat (length pre + 8)) by lia. rewrite H by (lia || done). f_equal. f_equal. lia.
Qed.
Lemma pair_u32_at pre post x y : Z.of_nat (length pre) <= 2 ^ 59 → is_u32 x → is_u32 y →
  let buf := pre ++ (be_bytes 4 x ++ be_bytes 4 y) ++ post in
  let off := Z.of_nat (length pre) in
  read_u32 buf off = Ok (x, off + 4) ∧ read_u32 buf (off + 4) = Ok (y, off + 8).
Proof.
  intros Hp Hx Hy buf off. subst buf off. split.
  - rewrite <-app_assoc. by apply read_u32_at; [lia|].
  - rewrite app_at. pose proof (read_u32_at (pre ++ be_bytes 4 x) post) as H. rewrite length_app, length_be_bytes in H.
    replace (Z.of_nat (length pre) + 4) with (Z.of_nat (length pre + 4)) by lia. rewrite H by (lia || done). f_equal. f_equal. lia.
Qed.

Lemma parse_attr_at pre a post v : Z.of_nat (length pre) <= 2 ^ 59 →
  parse_attr name_to_id makedev (pre ++ encode_attribute w a ++ post) (attribute_id a) v (Z.of_nat (length pre)) =
  Some (Ok (store name_to_id makedev w v a, Z.of_nat (length (pre ++ encode_attribute w a)))).
Proof.
  intros Hp. assert (Hp' : Z.of_nat (length pre) <= 2 ^ 60) by lia. unfold parse_attr. rewrite attribute_of_id, length_app, Nat2Z.inj_add. cbn [mbind option_bind]. destruct Hw.
  destruct a; cbn [encode_attribute store]; rewrite ?length_app, ?length_be_bytes, ?length_xdr_time;
    try (rewrite read_u32_at by done; done); try (rewrite read_u64_at by done; done); try (rewrite read_time_at by done; done);
    try (rewrite read_str_at by done; done).
  - rewrite read_u32_at by (done || (unfold is_u32, U32_MAX; destruct (fa_named_attr w); lia)). by destruct (fa_named_attr w).
  - destruct (pair_u64_at pre post (fa_fsid w).1 (fa_fsid w).2) as [H1 H2]; [done|tauto|tauto|].
    rewrite H1. cbn [mbind result_bind]. rewrite H2. cbn [mbind result_bind]. rewrite fsid_join by tauto. done.
  - destruct (pair_u32_at pre post (fa_rawdev w).1 (fa_rawdev w).2) as [H1 H2]; [done|tauto|tauto|].
    rewrite H1. cbn [mbind result_bind]. rewrite H2. done.
Qed.

(** ** The whole list *)

Lemma length_encode_attribute a : Z.of_nat (length (encode_attribute w a)) <= 2 ^ 33.
Proof.
  destruct Hw. destruct a; cbn [encode_attribute]; rewrite ?length_app, ?length_be_bytes, ?length_xdr_time; try lia;
    rewrite length_xdr_string, padded_length by lia; unfold U32_MAX in *;
    (match goal with |- context [(- ?x) mod 4] => pose proof (Z.mod_pos_bound (- x) 4 ltac:(lia)) end); lia.
Qed.

Lemma parse_attrs_at as_ pre post v : Z.of_nat (length pre) + 2 ^ 33 * Z.of_nat (length as_) <= 2 ^ 59 →
  parse_attrs name_to_id makedev (pre ++ encode_attributes w as_ ++ post) (attribute_id <$> as_) v (Z.of_nat (length pre)) =
  Some (Ok (foldl (store name_to_id makedev w) v as_, Z.of_nat (length (pre ++ encode_attributes w as_)))).
Proof.
  revert pre v. induction as_ as [|a as_ IH]; intros pre v Hp; [by cbn; rewrite app_nil_r|].
  cbn [parse_attrs fmap list_fmap encode_attributes length foldl] in *. rewrite <-app_assoc, parse_attr_at by lia. cbn [mbind option_bind].
  rewrite (app_assoc pre (encode_attribute w a)), IH; [by rewrite <-app_assoc|].
  pose proof (length_encode_attribute a). lengths.
Qed.








(** ** The values by field *)

Section Fields.
Context (masks : Z).
Let values := object_values name_to_id makedev w masks.

(** A field that one attribute decides. *)
Lemma field_stored {T} (f : AttrValues → T) (b : attribute) (x : T) :
  (∀ v a, f (store name_to_id makedev w v a) = if decide (a = b) then x else f v) →
  f values = if wanted masks b then x else f default_values.
Proof.
  intros Hf. assert (H : ∀ l v, f (foldl (store name_to_id makedev w) v (filter (wanted masks) l)) =
    if decide (b ∈ l) then if wanted masks b then x else f v else f v).
  { induction l as [|a l IH]; intros v; [done|]. rewrite filter_cons. destruct (decide (b ∈ a :: l)) as [Hb|Hb].
    - destruct (decide (wanted masks a)) as [Ha|Ha].
      + cbn [foldl]. rewrite IH, Hf. destruct (decide (a = b)) as [->|Hne]; [rewrite (Is_true_true_1 _ Ha); by case_decide|].
        apply elem_of_cons in Hb as [->|Hb]; [done|]. by rewrite decide_True by done.
      + rewrite IH. apply elem_of_cons in Hb as [->|Hb]; [|by rewrite decide_True by done].
        assert (wanted masks a = false) as -> by (by apply not_true_iff_false; intros E; apply Ha; rewrite E). by case_decide.
    - apply not_elem_of_cons in Hb as [Hne Hb].
      destruct (decide (wanted masks a)); [cbn [foldl]|]; rewrite IH, decide_False by done; [|done].
      rewrite Hf. by rewrite decide_False by congruence. }
  unfold values, object_values. rewrite H, decide_True; [done|]. by destruct b; repeat constructor.
Qed.

(** A property of the values that no attribute changes. *)
Lemma field_kept {T} (f : AttrValues → T) :
  (∀ v a, f (store name_to_id makedev w v a) = f v) → f values = f default_values.
Proof.
  intros Hf. unfold values, object_values. generalize default_values as v. induction (filter (wanted masks) FULL_ATTRS) as [|a l IH]; intros v; [done|].
  cbn [foldl]. by rewrite IH, Hf.
Qed.

(** The attribute asked for by bit [i]. *)
Definition attribute_at (i : nat) : option attribute :=
  [AttrMode; AttrSize; AttrNumlinks; AttrFileid; AttrSpaceUsed; AttrOwner; AttrOwnerGroup; AttrRawdev; AttrTimeAccess;
   AttrTimeModify; AttrTimeMetadata; AttrNamedAttr; AttrChange; AttrFsid] !! i.
(** An owner is there when its name has an id. *)
Definition given (a : attribute) : bool :=
  match a with
  | AttrOwner => bool_decide (is_Some (name_to_id (fa_owner w) false))
  | AttrOwnerGroup => bool_decide (is_Some (name_to_id (fa_owner_group w) true))
  | _ => true
  end.

Lemma mask_of_bit i b : attribute_at i = Some b → mask_of b = Some (Z.shiftl 1 (Z.of_nat i)).
Proof. do 14 (destruct i as [|i]; [by intros [= <-]|]). done. Qed.

Lemma present_bit i b : attribute_at i = Some b →
  Z.testbit (av_present values) (Z.of_nat i) = Z.testbit masks (Z.of_nat i) && given b.
Proof.
  intros Hi. rewrite (field_stored (λ v, Z.testbit (av_present v) (Z.of_nat i)) b (given b)).
  - unfold wanted. rewrite (mask_of_bit _ _ Hi), flags_contain_bit by lia. cbn [av_present default_values].
    rewrite Z.bits_0. by destruct (Z.testbit masks _).
  - intros v a. do 14 (destruct i as [|i]; [injection Hi as <-;
      destruct a; cbn -[Z.testbit Z.of_nat bool_decide]; rewrite ?Z.lor_spec, ?orb_true_r, ?orb_false_r; try done;
      case_match; rewrite ?Z.lor_spec, ?Z.ldiff_spec, ?orb_true_r, ?orb_false_r, ?andb_true_r, ?andb_false_r; done|]). done.
Qed.

Lemma present_above i : (14 <= i)%nat → Z.testbit (av_present values) (Z.of_nat i) = false.
Proof.
  intros Hi. rewrite (field_kept (λ v, Z.testbit (av_present v) (Z.of_nat i))); [apply Z.bits_0|]. intros v a.
  assert (Hhigh : ∀ m, (0 <=? m) && (m <? 2 ^ 14) = true → Z.testbit m (Z.of_nat i) = false).
  { intros m [?%Z.leb_le ?%Z.ltb_lt]%andb_true_iff. destruct (Z.eq_dec m 0) as [->|Hnz]; [apply Z.bits_0|]. apply Z.bits_above_log2; [lia|].
    enough (Z.log2 m < 14) by lia. apply Z.log2_lt_pow2; lia. }
  destruct a; cbn -[Z.testbit Z.of_nat bool_decide]; try (case_match); rewrite ?Z.lor_spec, ?Z.ldiff_spec;
    repeat (match goal with |- context [Z.testbit ?m (Z.of_nat i)] =>
      lazymatch m with av_present _ => fail | _ => rewrite (Hhigh m) by reflexivity end end);
    rewrite ?orb_false_r, ?andb_true_r; done.
Qed.

Lemma returned_contains i b m : attribute_at i = Some b → m = Z.shiftl 1 (Z.of_nat i) →
  flags_contain (Z.land masks (av_present values)) m = flags_contain masks m && given b.
Proof.
  intros Hi ->. rewrite !flags_contain_bit, Z.land_spec, (present_bit i b Hi) by lia. by destruct (Z.testbit masks _).
Qed.

Lemma returned_mask :
  Z.land masks (av_present values) =
  flags_difference (Z.land masks (2 ^ 14 - 1))
    (Z.lor (if name_to_id (fa_owner w) false is None then AttrMask.UID else 0)
           (if name_to_id (fa_owner_group w) true is None then AttrMask.GID else 0)).
Proof.
  apply Z.bits_inj'. intros i Hi. rewrite <-(Z2Nat.id i) by done. generalize (Z.to_nat i) as n. clear i Hi. intros n.
  unfold flags_difference. rewrite Z.ldiff_spec, !Z.land_spec, Z.lor_spec. destruct (decide (14 <= n)%nat) as [Hn|Hn].
  - rewrite present_above by done. change (2 ^ 14 - 1) with (Z.ones 14). rewrite Z.ones_spec_high by lia. by rewrite !andb_false_r.
  - destruct (attribute_at n) as [b|] eqn:Hb; [|apply lookup_ge_None_1 in Hb; cbn in Hb; lia].
    rewrite (present_bit n b Hb). change (2 ^ 14 - 1) with (Z.ones 14). rewrite Z.ones_spec_low by lia. rewrite andb_true_r, andb_assoc, andb_diag.
    f_equal. do 14 (destruct n as [|n]; [injection Hb as <-; cbn -[bool_decide];
      destruct (name_to_id (fa_owner w) false), (name_to_id (fa_owner_group w) true); done|]). done.
Qed.
End Fields.

(** The decoded values, applied to the caller's request. *)
Lemma apply_object_values a :
  apply_attrs a (object_values name_to_id makedev w (va_masks a)) = object_attrs name_to_id makedev a w.
Proof.
  unfold apply_attrs, object_attrs.
  pose proof (λ T f b x, @field_stored (va_masks a) T f b x) as Hf. pose proof (λ i b m, returned_contains (va_masks a) i b m) as Hr. cbn zeta in Hf, Hr.
  rewrite <-returned_mask.
  rewrite (Hf _ av_ftype AttrType (Some (fa_type w))) by (by intros v []).
  rewrite (Hf _ av_mode AttrMode (fa_mode w)), (Hf _ av_size AttrSize (fa_size w)), (Hf _ av_nlink AttrNumlinks (fa_numlinks w)),
    (Hf _ av_fileid AttrFileid (fa_fileid w)), (Hf _ av_fs_id AttrFsid ((fa_fsid w).1 * 2 ^ 64 + (fa_fsid w).2)),
    (Hf _ av_change AttrChange (fa_change w)), (Hf _ av_uid AttrOwner (default 0 (name_to_id (fa_owner w) false))),
    (Hf _ av_gid AttrOwnerGroup (default 0 (name_to_id (fa_owner_group w) true))),
    (Hf _ av_rdev AttrRawdev (makedev (fa_rawdev w).1 (fa_rawdev w).2)), (Hf _ av_blocks AttrSpaceUsed (fa_space_used w / 512)),
    (Hf _ av_mtime_sec AttrTimeModify (fa_time_modify w).1), (Hf _ av_mtime_nsec AttrTimeModify (fa_time_modify w).2),
    (Hf _ av_atime_sec AttrTimeAccess (fa_time_access w).1), (Hf _ av_atime_nsec AttrTimeAccess (fa_time_access w).2),
    (Hf _ av_ctime_sec AttrTimeMetadata (fa_time_metadata w).1), (Hf _ av_ctime_nsec AttrTimeMetadata (fa_time_metadata w).2),
    (Hf _ av_has_named_attr AttrNamedAttr (fa_named_attr w)) by (by intros v []).
  unfold wanted. cbn [mask_of].
  rewrite (Hr 0%nat AttrMode AttrMask.MODE), (Hr 1%nat AttrSize AttrMask.SIZE), (Hr 2%nat AttrNumlinks AttrMask.NLINK), (Hr 3%nat AttrFileid AttrMask.FILEID), (Hr 4%nat AttrSpaceUsed AttrMask.BLOCKS), (Hr 5%nat AttrOwner AttrMask.UID),
    (Hr 6%nat AttrOwnerGroup AttrMask.GID), (Hr 7%nat AttrRawdev AttrMask.RDEV), (Hr 8%nat AttrTimeAccess AttrMask.ATIME), (Hr 9%nat AttrTimeModify AttrMask.MTIME), (Hr 10%nat AttrTimeMetadata AttrMask.CTIME),
    (Hr 11%nat AttrNamedAttr AttrMask.NAMED_ATTR), (Hr 12%nat AttrChange AttrMask.CHANGE), (Hr 13%nat AttrFsid AttrMask.FS_ID) by done.
  f_equal; match goal with |- context [flags_contain (va_masks a) ?m] => destruct (flags_contain (va_masks a) m); [|done] end;
    cbn [given andb]; try done; [by destruct (name_to_id (fa_owner w) false)|by destruct (name_to_id (fa_owner_group w) true)].
Qed.

Lemma parse_object masks post :
  parse_attr_list name_to_id makedev (request_mask_to_attr_list masks) (encode_attributes w (filter (wanted masks) FULL_ATTRS) ++ post) =
  Some (if decide (post = []) then Ok (object_values name_to_id makedev w masks) else Err attr_decode_error).
Proof.
  unfold parse_attr_list, request_mask_to_attr_list. set (as_ := filter (wanted masks) FULL_ATTRS).
  assert (Hlen : (length as_ <= length FULL_ATTRS)%nat) by apply length_filter. cbn [length FULL_ATTRS] in Hlen.
  pose proof (parse_attrs_at as_ [] post default_values) as H. cbn [app length] in H. change (Z.of_nat 0) with 0 in H.
  rewrite H by lia. cbn [mbind option_bind]. f_equal. rewrite length_app. case_decide as Hpost.
  - subst post. cbn [length]. by rewrite Nat.add_0_r, Z.eqb_refl.
  - rewrite (proj2 (Z.eqb_neq _ _)); [done|]. destruct post; [done|]. cbn [length]. lia.
Qed.

End Object.

(** ** Filesystem statistics *)

Section Statistics.
Context (value : Z → Z).

Lemma read_stats_at as_ pre post stats :
  Forall (λ a, is_Some (stat_field a) ∧ stat_range value a) as_ → Z.of_nat (length pre) + 8 * Z.of_nat (length as_) <= 2 ^ 59 →
  ∃ stats', read_stats (pre ++ encode_stats value as_ ++ post) as_ stats (Z.of_nat (length pre)) =
              Ok (stats', Z.of_nat (length pre) + Z.of_nat (length (encode_stats value as_))) ∧
    (∀ field, (∀ a, a ∈ as_ → fst <$> stat_field a ≠ Some field) → FilesystemStats.get field stats' = FilesystemStats.get field stats) ∧
    (∀ field a, a ∈ as_ → fst <$> stat_field a = Some field → (∀ a', a' ∈ as_ → fst <$> stat_field a' = Some field → a' = a) →
       FilesystemStats.get field stats' = Some (value a)).
Proof.
  intros Has. revert pre stats. induction Has as [|a as_ [[[field wide] Hf] Hr] Has IH]; intros pre stats Hp.
  { exists stats. cbn. rewrite Z.add_0_r. split_and!; [done|done|]. intros field a Ha. by apply not_elem_of_nil in Ha. }
  cbn [read_stats encode_stats length] in *. rewrite Hf. unfold read_stat, stat_range in *. rewrite Hf in *. cbn [ok_or mbind result_bind].
  set (n := if wide then 8%nat else 4%nat).
  replace (be_bytes (if wide then 8 else 4) (value a)) with (be_bytes n (value a)) by (by destruct wide).
  assert (Hread : (if wide then read_u64 (pre ++ (be_bytes n (value a) ++ encode_stats value as_) ++ post) (Z.of_nat (length pre))
    else read_u32 (pre ++ (be_bytes n (value a) ++ encode_stats value as_) ++ post) (Z.of_nat (length pre))) =
    Ok (value a, Z.of_nat (length pre) + Z.of_nat n)).
  { rewrite <-app_assoc. subst n. destruct wide; [apply read_u64_at|apply read_u32_at]; (lia || done). }
  rewrite Hread. cbn [mbind result_bind]. rewrite app_at.
  destruct (IH (pre ++ be_bytes n (value a)) (FilesystemStats.with_ field (Some (value a)) stats)) as (stats' & E & Hkeep & Hset).
  { rewrite length_app, length_be_bytes. subst n. destruct wide; lia. }
  rewrite length_app, length_be_bytes, Nat2Z.inj_add in E. exists stats'. rewrite E, length_app, length_be_bytes. split_and!; [f_equal; f_equal; lia| |].
  - intros g Hg. rewrite Hkeep by (intros; apply Hg; by apply elem_of_cons; right). rewrite StatsLemmas.get_with, decide_False; [done|].
    intros ->. apply (Hg a); [apply elem_of_cons; by left|]. by rewrite Hf.
  - intros g b Hb Hbg Huniq. destruct (decide (b ∈ as_)) as [Hin|Hnin].
    + apply Hset; [done|done|]. intros a' Ha'. apply Huniq. apply elem_of_cons. by right.
    + apply elem_of_cons in Hb as [->|Hb]; [|done]. rewrite Hf in Hbg. injection Hbg as ->.
      rewrite Hkeep; [by rewrite StatsLemmas.get_with, decide_True|]. intros a' Ha' Hfa'.
      assert (a' = a) as -> by (apply Huniq; [apply elem_of_cons; by right|done]). done.
Qed.

(** The bitmap of some of the requested attributes lists them again, in order. *)
Lemma bitmap_attributes (returned : Z → bool) :
  (words ← bitmap_words (Compound.bitmap (filter returned filesystem_attributes)); Some (mjoin (imap word_attributes words))) =
  Some (filter returned filesystem_attributes).
Proof.
  assert (H : ∀ l, l ∈ foldr (λ a ls, ls ++ (cons a <$> ls)) [[]] filesystem_attributes →
    (words ← bitmap_words (Compound.bitmap l); Some (mjoin (imap word_attributes words))) = Some l).
  { apply Forall_forall. apply (bool_decide_unpack _). vm_compute. exact I. }
  apply H. generalize filesystem_attributes as as_. induction as_ as [|a as_ IH]; [by repeat constructor|].
  rewrite filter_cons. cbn [foldr]. apply elem_of_app. case_decide; [right|by left]. apply list_elem_of_fmap. eauto.
Qed.

Lemma field_attribute_spec field a : a ∈ filesystem_attributes → fst <$> stat_field a = Some field ↔ field_attribute field = Some a.
Proof.
  intros Ha. unfold filesystem_attributes in Ha. rewrite !elem_of_cons in Ha. destruct_or! Ha; subst; [..|by apply not_elem_of_nil in Ha];
    destruct field; vm_compute; split; congruence.
Qed.

Lemma filesystem_stats_decoded (returned : Z → bool) :
  (∀ a, a ∈ filesystem_attributes → stat_range value a) →
  ∃ stats,
    decode_filesystem_stats (Compound.bitmap (filter returned filesystem_attributes))
      (encode_stats value (filter returned filesystem_attributes)) = Ok stats ∧
    ∀ field, FilesystemStats.get field stats = (a ← field_attribute field; if returned a then Some (value a) else None).
Proof.
  intros Hv. pose proof (bitmap_attributes returned) as Hb. set (as_ := filter returned filesystem_attributes) in *. unfold decode_filesystem_stats.
  destruct (bitmap_words (Compound.bitmap as_)) as [words|]; [|done]. cbn [mbind option_bind] in Hb. injection Hb as Hb. cbn [ok_or mbind result_bind]. rewrite Hb.
  assert (Hlen : (length as_ <= length filesystem_attributes)%nat) by apply length_filter. cbn [length filesystem_attributes] in Hlen.
  destruct (read_stats_at as_ [] [] FilesystemStats.default_stats) as (stats & E & Hkeep & Hset); [|cbn [length]; lia|].
  { apply Forall_forall. intros a [_ Ha]%list_elem_of_filter. split; [|by apply Hv].
    clear -Ha. unfold filesystem_attributes in Ha. rewrite !elem_of_cons in Ha. destruct_or! Ha; subst; [..|by apply not_elem_of_nil in Ha]; vm_compute; eauto. }
  cbn [app length] in E. rewrite app_nil_r in E. change (Z.of_nat 0) with 0 in E. rewrite E. cbn [mbind result_bind]. rewrite Z.add_0_l, Z.eqb_refl.
  exists stats. split; [done|]. intros field. destruct (field_attribute field) as [a|] eqn:Ef; cbn [mbind option_bind].
  - assert (Ha : a ∈ filesystem_attributes) by (apply find_some in Ef as [Ha _]; by apply list_elem_of_In).
    assert (Huniq : ∀ a', a' ∈ as_ → fst <$> stat_field a' = Some field → a' = a).
    { intros a' [_ Ha']%list_elem_of_filter Hf. apply field_attribute_spec in Hf; [|done]. congruence. }
    destruct (returned a) eqn:Er.
    + apply Hset; [|by apply field_attribute_spec|done]. apply list_elem_of_filter. by rewrite Er.
    + rewrite Hkeep; [by destruct field|]. intros a' Ha' Hf. assert (a' = a) as -> by auto. apply list_elem_of_filter in Ha' as [Ha' _]. by rewrite Er in Ha'.
  - rewrite Hkeep; [by destruct field|]. intros a' [_ Ha']%list_elem_of_filter Hf. apply field_attribute_spec in Hf; [|done]. congruence.
Qed.
End Statistics.
(** C27: attributes survive the wire.  For every object and every request, decoding
    the attribute list a server sends for the ids the client asks for succeeds,
    and the caller's record then holds exactly what was asked for: each
    requested attribute with the object's value, an owner only when its name has
    an id here, fields that were not asked for as they were. *)
Theorem attributes_roundtrip name_to_id makedev (a : VfAttrs) (w : fattr) :
  fattr_ok w →
  ∃ v, parse_attr_list name_to_id makedev (request_mask_to_attr_list (va_masks a))
         (encode_attributes w (filter (wanted (va_masks a)) FULL_ATTRS)) = Some (Ok v) ∧
       apply_attrs a v = object_attrs name_to_id makedev a w.
Proof.
  intros Hw. exists (object_values name_to_id makedev w (va_masks a)). split; [|by apply apply_object_values].
  pose proof (parse_object name_to_id makedev w Hw (va_masks a) []) as H. by rewrite app_nil_r in H.
Qed.


(** An object with an owner this host knows and a group it does not. *)
Definition example_object : fattr :=
  MakeFattr NF4REG 7 4096 false (3, 9) 42 420 1 (bstr "alice@example.org") (bstr "staff") (0, 0) 5000 (1, 2) (-5, 0) (1700000000, 999999999).
Definition example_names (name : bytes) (group : bool) : option Z :=
  if group then None else if decide (name = bstr "alice@example.org") then Some 1000 else None.

Lemma example_object_ok : fattr_ok example_object.
Proof. constructor; vm_compute; repeat split; congruence. Defined.

Lemma attributes_roundtrip_witness :
  ∃ v, parse_attr_list example_names (λ major minor, major * 256 + minor) (request_mask_to_attr_list AttrMask.UID)
         (encode_attributes example_object [AttrType; AttrOwner]) = Some (Ok v) ∧ av_uid v = 1000.
Proof.
  destruct (attributes_roundtrip example_names (λ major minor, major * 256 + minor)
    (MakeVfAttrs (Cwd) AttrMask.UID 0 Regular 0 0 0 0 0 0 0 0 0 0 0 0 0 0 0 0 false) example_object example_object_ok) as (v & Hv & Ha).
  exists v. split; [exact Hv|]. apply (f_equal va_uid) in Ha. revert Ha. vm_compute in Hv. injection Hv as <-. done.
Defined.

End MetadataLemmas.
