(* ===== verification/Uring.v ===== *)
(** * The io_uring engine

    The descriptor executor of vfsi-uring: jobs are planned into bounded waves,
    adjacent writes of one file are merged into one submission, completions
    arrive in any order, and a ring that cannot be drained is never used again.
    The kernel (the ring and the positional system calls) is a parameter; what
    is relied on is [kernel_ok].  The parallel vectors [progress], [done] and
    [errors] are one list of slots, and the scratch vectors that are cleared
    before each use ([groups], [entries], [results], [pending]) are locals.  A
    group, a range of indices into [pending], is the list of its members. *)
From stdpp Require Import base numbers list sorting.
From S2P Require Import Prelude Errors Loops.

(** ** The kernel *)

(** What the engine observes of an [io::Error]. *)
Inductive ioerr := Os (errno : Z) | Simple (kind : ErrorKind).
Definition raw_os_error (e : ioerr) : option Z := match e with Os errno => Some errno | Simple _ => None end.
Definition is_interrupted (e : ioerr) : bool :=
  match e with Os errno => errno =? EINTR | Simple kind => bool_decide (kind = Interrupted) end.
Definition ENOSYS : Z := 38.

(** An open file, by the identity of its [Arc]. *)
Definition file := Z.
#[global] Instance file_eq_dec : EqDecision file := _.

Inductive sq_op := SqRead (len : Z) | SqWrite (data : bytes) | SqFsync (data_only : bool).
(** A submission; a write carries the bytes at its address, which nothing
    changes until it has completed. *)
Record sqe := Sqe { sq_file : file; sq_offset : Z; sq_what : sq_op; sq_data : Z }.
(** A completion; a read has put [cq_bytes] at its address. *)
Record cqe := Cqe { cq_data : Z; cq_result : Z; cq_bytes : bytes }.

Record kernel (W : Type) := Kernel {
  (** [submission().push(entry)]; [None] when the queue is full. *)
  k_push : sqe → W → option W;
  (** [submit_and_wait(want)]. *)
  k_enter : Z → W → result ioerr Z * W;
  (** What [completion()] yields. *)
  k_completions : W → list cqe * W;
  (** [preadv2] with RWF_NOWAIT, and [read_at]; [write_at]. *)
  k_nowait : file → Z → Z → W → result ioerr bytes * W;
  k_pread : file → Z → Z → W → result ioerr bytes * W;
  k_pwrite : file → Z → bytes → W → result ioerr Z * W;
  (** [sync_data] and [sync_all]. *)
  k_fsync : file → bool → W → result ioerr unit * W;
}.
Arguments k_push {_}. Arguments k_enter {_}. Arguments k_completions {_}. Arguments k_nowait {_}. Arguments k_pread {_}.
Arguments k_pwrite {_}. Arguments k_fsync {_}.

(** ** Options, counters, engine *)

Record Options := MakeOptions { queue_depth : Z; max_batch_bytes : Z; cached_reads : bool; syscall_writes : bool }.
Definition default_options : Options := MakeOptions 256 (2 * 1024 * 1024) false false.

Record Stats := MakeStats {
  syscall_reads : Z; st_syscall_writes : Z; cache_probes : Z; cache_hits : Z; cache_misses : Z; waves : Z;
  submissions : Z; completions : Z; peak_bytes : Z; enters : Z; scratch_growths : Z; copied_read_bytes : Z;
}.
Definition no_stats : Stats := MakeStats 0 0 0 0 0 0 0 0 0 0 0 0.
(** [fetch_add] on an [AtomicU64] wraps. *)
Definition u64_add (a b : Z) : Z := (a + b) mod 2 ^ 64.
Definition count_wave (bytes : Z) (s : Stats) : Stats :=
  MakeStats (syscall_reads s) (st_syscall_writes s) (cache_probes s) (cache_hits s) (cache_misses s) (u64_add (waves s) 1)
    (submissions s) (completions s) (peak_bytes s `max` bytes) (enters s) (scratch_growths s) (copied_read_bytes s).
Definition count_enter (s : Stats) : Stats :=
  MakeStats (syscall_reads s) (st_syscall_writes s) (cache_probes s) (cache_hits s) (cache_misses s) (waves s)
    (submissions s) (completions s) (peak_bytes s) (u64_add (enters s) 1) (scratch_growths s) (copied_read_bytes s).
Definition count_submitted (n : Z) (s : Stats) : Stats :=
  MakeStats (syscall_reads s) (st_syscall_writes s) (cache_probes s) (cache_hits s) (cache_misses s) (waves s)
    (u64_add (submissions s) n) (completions s) (peak_bytes s) (enters s) (scratch_growths s) (copied_read_bytes s).
Definition count_completion (s : Stats) : Stats :=
  MakeStats (syscall_reads s) (st_syscall_writes s) (cache_probes s) (cache_hits s) (cache_misses s) (waves s)
    (submissions s) (u64_add (completions s) 1) (peak_bytes s) (enters s) (scratch_growths s) (copied_read_bytes s).
Definition count_growth (s : Stats) : Stats :=
  MakeStats (syscall_reads s) (st_syscall_writes s) (cache_probes s) (cache_hits s) (cache_misses s) (waves s)
    (submissions s) (completions s) (peak_bytes s) (enters s) (u64_add (scratch_growths s) 1) (copied_read_bytes s).
Definition count_copied (n : Z) (s : Stats) : Stats :=
  MakeStats (syscall_reads s) (st_syscall_writes s) (cache_probes s) (cache_hits s) (cache_misses s) (waves s)
    (submissions s) (completions s) (peak_bytes s) (enters s) (scratch_growths s) (u64_add (copied_read_bytes s) n).
Definition count_cache (probes direct hits misses : Z) (s : Stats) : Stats :=
  MakeStats (u64_add (syscall_reads s) direct) (st_syscall_writes s) (u64_add (cache_probes s) probes)
    (u64_add (cache_hits s) hits) (u64_add (cache_misses s) misses) (waves s)
    (submissions s) (completions s) (peak_bytes s) (enters s) (scratch_growths s) (copied_read_bytes s).
Definition count_syscall_writes (n : Z) (s : Stats) : Stats :=
  MakeStats (syscall_reads s) (u64_add (st_syscall_writes s) n) (cache_probes s) (cache_hits s) (cache_misses s) (waves s)
    (submissions s) (completions s) (peak_bytes s) (enters s) (scratch_growths s) (copied_read_bytes s).

Record Engine := MakeEngine {
  en_ring : bool;  (* false once the ring has been given up *)
  en_options : Options;
  en_stats : Stats;
  en_scratch : bytes;
  nowait_supported : bool;
}.
Definition with_stats (e : Engine) (f : Stats → Stats) : Engine :=
  MakeEngine (en_ring e) (en_options e) (f (en_stats e)) (en_scratch e) (nowait_supported e).
Definition with_scratch (e : Engine) (s : bytes) : Engine :=
  MakeEngine (en_ring e) (en_options e) (en_stats e) s (nowait_supported e).
Definition without_ring (e : Engine) : Engine := MakeEngine false (en_options e) (en_stats e) [] (nowait_supported e).
Definition without_nowait (e : Engine) : Engine :=
  MakeEngine (en_ring e) (en_options e) (en_stats e) (en_scratch e) false.

(** [Engine::new]: [build true] sets up a ring with cooperative task work,
    [build false] an ordinary one; [supports] asks the probe for the opcodes. *)
Definition new (build : bool → Z → result ioerr unit) (register_probe : result ioerr unit) (supports : bool) (options : Options)
    : result ioerr Engine :=
  if 4096 <? queue_depth options then Err (Os EINVAL)
  else
    ring ← match build true (queue_depth options) with
           | Err error => if bool_decide (raw_os_error error = Some EINVAL) then build false (queue_depth options) else Err error
           | Ok u => Ok u
           end;
    _ ← register_probe;
    if negb supports then Err (Os EOPNOTSUPP) else Ok (MakeEngine true options no_stats [] true).

(** ** Jobs *)

Inductive Buffer := BRead (buffer : bytes) | BOwnedRead (buffer : bytes) | BWrite (data : bytes) | BSync (data_only : bool).
Record Job := MakeJob { jb_file : file; jb_offset : Z; jb_buffer : Buffer }.
Inductive Kind := KRead | KWrite | KSync (data_only : bool).
#[global] Instance Kind_eq_dec : EqDecision Kind.
Proof. solve_decision. Defined.
Definition is_write (k : Kind) : bool := if k is KWrite then true else false.
Definition is_sync (k : Kind) : bool := if k is KSync _ then true else false.
Record Pending := MakePending {
  pd_file : file;
  pd_start : Z;  (* [bytes], a range of the scratch arena *)
  pd_end : Z;
  pd_offset : Z;
  pd_kind : Kind;
  pd_job : nat;
  pd_owned : option bytes;
  pd_owned_start : Z;
  pd_result : Z;
}.
Definition pd_len (op : Pending) : Z := pd_end op - pd_start op.
Definition set_owned (op : Pending) (b : option bytes) : Pending :=
  MakePending (pd_file op) (pd_start op) (pd_end op) (pd_offset op) (pd_kind op) (pd_job op) b (pd_owned_start op) (pd_result op).
Definition set_result (op : Pending) (r : Z) : Pending :=
  MakePending (pd_file op) (pd_start op) (pd_end op) (pd_offset op) (pd_kind op) (pd_job op) (pd_owned op) (pd_owned_start op) r.

(** [slice[at..at + data.len()].copy_from_slice(data)]. *)
Definition overwrite (buf : bytes) (at_ : Z) (data : bytes) : bytes :=
  take (Z.to_nat at_) buf ++ data ++ drop (Z.to_nat at_ + length data) buf.
(** [slice[a..b]]. *)
Definition range (a b : Z) (buf : bytes) : bytes := slice (Z.to_nat a) (Z.to_nat b) buf.

(** ** One wave *)

(** Whether [op] extends the group that starts with [first] and ends with [last]. *)
Definition joins (first last op : Pending) : bool :=
  is_write (pd_kind first) && is_write (pd_kind op) &&
  bool_decide (pd_file first = pd_file op) && (pd_end last =? pd_start op) &&
  bool_decide (checked_add (pd_offset first) (pd_start op - pd_start first) = Some (pd_offset op)) &&
  (pd_end op - pd_start first <=? U32_MAX).

(** The groups, the one being built as its first and its later members in reverse. *)
Fixpoint groups_from (first : Pending) (rest : list Pending) (ops : list Pending) : list (list Pending) :=
  match ops with
  | [] => [first :: reverse rest]
  | op :: ops =>
      if joins first (default first (head rest)) op then groups_from first (op :: rest) ops
      else (first :: reverse rest) :: groups_from op [] ops
  end.
Definition groups_of (ops : list Pending) : list (list Pending) :=
  match ops with [] => [] | op :: ops => groups_from op [] ops end.

Definition group_start (g : list Pending) : Z := if g is op :: _ then pd_start op else 0.
Definition group_end (g : list Pending) : Z := if last g is Some op then pd_end op else 0.
Definition group_length (g : list Pending) : Z := group_end g - group_start g.

Definition entry_of (scratch : bytes) (index : nat) (g : list Pending) : sqe :=
  match g with
  | [] => Sqe 0 0 (SqFsync false) (Z.of_nat index) (* a group has a member *)
  | op :: _ =>
      let length := group_length g mod 2 ^ 32 in
      Sqe (pd_file op) (match pd_kind op with KSync _ => 0 | _ => pd_offset op end)
        match pd_kind op with
        | KRead => SqRead length
        | KWrite => SqWrite (range (pd_start op) (pd_start op + length) scratch)
        | KSync data_only => SqFsync data_only
        end (Z.of_nat index)
  end.

(** What the kernel leaves at the address of a submission. *)
Definition deliver (data : bytes) (g : list Pending) (scratch : bytes) : list Pending * bytes :=
  match g with
  | op :: rest =>
      match pd_kind op with
      | KRead =>
          let data := take (Z.to_nat (group_length g)) data in
          match pd_owned op with
          | Some buffer => (set_owned op (Some (overwrite buffer (pd_owned_start op) data)) :: rest, scratch)
          | None => (g, overwrite scratch (pd_start op) data)
          end
      | _ => (g, scratch)
      end
  | [] => (g, scratch)
  end.

(** A count longer than asked for, and a write of nothing, are errors. *)
Definition checked_result (g : list Pending) (result : Z) : Z :=
  if ((0 <=? result) && (group_length g <? result)) ||
     ((result =? 0) && (if g is op :: _ then is_write (pd_kind op) else false))
  then - EIO else result.

Record drained := Drained {
  dr_groups : list (list Pending); dr_results : list (option Z); dr_scratch : bytes; dr_remaining : Z; dr_stats : Stats;
}.

(** The completions of one call, in the order of the queue. *)
Fixpoint take_completions (cqes : list cqe) (d : drained) : result ioerr drained :=
  match cqes with
  | [] => Ok d
  | c :: cqes =>
      let index := Z.to_nat (cq_data c) in
      match dr_results d !! index, dr_groups d !! index with
      | Some None, Some g =>
          let recorded := checked_result g (cq_result c) in
          let '(g, scratch) := deliver (cq_bytes c) g (dr_scratch d) in
          take_completions cqes
            (Drained (<[index := g]> (dr_groups d)) (<[index := Some recorded]> (dr_results d)) scratch
               (dr_remaining d - 1) (count_completion (dr_stats d)))
      | _, _ => Err (Os EIO)
      end
  end.

Section Waves.
Context {W : Type} (k : kernel W).

(** The submissions of a wave, one by one. *)
Fixpoint push_all (entries : list sqe) (w : W) : result ioerr unit * W :=
  match entries with
  | [] => (Ok (), w)
  | e :: entries =>
      match k_push k e w with
      | Some w => push_all entries w
      | None => (Err (Os EIO), w)
      end
  end.

(** One call of [submit_and_wait] and what completed; another turn after an
    interrupted call. *)
Definition drain_turn (st : drained * W) : option (turn (drained * W) (result ioerr drained * Stats * W)) :=
  let '(d, w) := st in
  let d := Drained (dr_groups d) (dr_results d) (dr_scratch d) (dr_remaining d) (count_enter (dr_stats d)) in
  Some match k_enter k (dr_remaining d) w with
  | (Err error, w) => if is_interrupted error then Again (d, w) else Return (Err error, dr_stats d, w)
  | (Ok submitted, w) =>
      let d := Drained (dr_groups d) (dr_results d) (dr_scratch d) (dr_remaining d) (count_submitted submitted (dr_stats d)) in
      let '(cqes, w) := k_completions k w in
      match take_completions cqes d with
      | Ok d => Again (d, w)
      | Err error => Return (Err error, dr_stats d, w)
      end
  end.
Definition drain (fuel : nat) (d : drained) (w : W) : outcome (result ioerr drained * Stats * W) :=
  run (λ st, negb (dr_remaining st.1 =? 0)) drain_turn (λ st, (Ok st.1, dr_stats st.1, st.2)) fuel (d, w).

(** A completed group: its bytes count for its members in order. *)
Fixpoint share (result remaining : Z) (g : list Pending) : list Pending :=
  match g with
  | [] => []
  | op :: g =>
      let count := remaining `min` pd_len op in
      set_result op (if result <? 0 then result else count) :: share result (remaining - count) g
  end.
(** [result.unwrap()]. *)
Definition share_all (groups : list (list Pending)) (results : list (option Z)) : option (list Pending) :=
  option_map mjoin (mapM (λ gr, r ← gr.2; Some (share r (0 `max` r) gr.1)) (zip groups results)).

Definition sum_len (ops : list Pending) : Z := foldr (λ op acc, pd_len op + acc) 0 ops.

(** A wave; after an error the ring is gone, with everything in flight. *)
Definition wave (fuel : nat) (pending : list Pending) (e : Engine) (w : W) : outcome (result ioerr (list Pending) * Engine * W) :=
  if negb (en_ring e) then Done (Err (Os EIO), e, w)
  else
    let groups := groups_of pending in
    let entries := imap (entry_of (en_scratch e)) groups in
    let e := with_stats e (count_wave (sum_len pending)) in
    match push_all entries w with
    | (Err error, w) => Done (Err error, without_ring e, w)
    | (Ok _, w) =>
        '(r, stats, w) ← drain fuel (Drained groups (replicate (length entries) None) (en_scratch e) (Z.of_nat (length entries)) (en_stats e)) w;
        let e := with_stats e (λ _, stats) in
        match r with
        | Err error => Done (Err error, without_ring e, w)
        | Ok d =>
            completed ← or_panic (share_all (dr_groups d) (dr_results d));
            Done (Ok completed, with_scratch e (dr_scratch d), w)
        end
    end.

(** ** A call *)

(** A job with its entries of [progress], [done] and [errors]. *)
Record slot := Slot { sl_job : Job; sl_progress : Z; sl_done : bool; sl_error : option Z }.
Definition set_job (s : slot) (j : Job) : slot := Slot j (sl_progress s) (sl_done s) (sl_error s).
Definition set_buffer (s : slot) (b : Buffer) : slot := set_job s (MakeJob (jb_file (sl_job s)) (jb_offset (sl_job s)) b).
Definition set_progress (s : slot) (p : Z) : slot := Slot (sl_job s) p (sl_done s) (sl_error s).
Definition set_done (s : slot) (d : bool) : slot := Slot (sl_job s) (sl_progress s) d (sl_error s).
Definition fail_slot (s : slot) (errno : Z) : slot := Slot (sl_job s) (sl_progress s) true (Some errno).

Definition kind_length (b : Buffer) : Kind * Z :=
  match b with
  | BRead b | BOwnedRead b => (KRead, Z.of_nat (length b))
  | BWrite b => (KWrite, Z.of_nat (length b))
  | BSync data_only => (KSync data_only, 0)
  end.

(** The jobs of the next wave: the slots from the first unfinished one on, the
    operations already planned and the bytes left. *)
Fixpoint plan (o : Options) (slots : list slot) (index planned : nat) (budget : Z) (failed : bool)
    : list slot * list Pending * bool :=
  match slots with
  | [] => ([], [], failed)
  | s :: rest =>
      let skip s failed :=
        let '(slots, ops, failed) := plan o rest (S index) planned budget failed in (s :: slots, ops, failed) in
      if sl_done s then skip s failed
      else if Z.of_nat planned =? queue_depth o then (s :: rest, [], failed)
      else
        let '(kind, length) := kind_length (jb_buffer (sl_job s)) in
        if (length =? sl_progress s) && negb (is_sync kind) then skip (set_done s true) failed
        else if (budget =? 0) && negb (length =? 0) then (s :: rest, [], failed)
        else
          let count := ((length - sl_progress s) `min` budget) `min` U32_MAX in
          match checked_add (jb_offset (sl_job s)) (sl_progress s) with
          | None => skip (fail_slot s EOVERFLOW) true
          | Some offset =>
              let start := max_batch_bytes o - budget in
              let '(s, owned) :=
                match jb_buffer (sl_job s) with
                | BOwnedRead b => (set_buffer s (BOwnedRead []), Some b)
                | _ => (s, None)
                end in
              let op := MakePending (jb_file (sl_job s)) start (start + count) offset kind index owned (sl_progress s) 0 in
              let '(slots, ops, failed) := plan o rest (S index) (S planned) (budget - count) failed in
              (s :: slots, op :: ops, failed)
          end
  end.

(** The arena is as long as the borrowed operations of the wave need. *)
Definition scratch_need (ops : list Pending) : Z :=
  foldr (λ op acc, if pd_owned op is None then pd_end op `max` acc else acc) 0 ops.
Definition grow_scratch (ops : list Pending) (e : Engine) : Engine :=
  let bytes := scratch_need ops in
  if Z.of_nat (length (en_scratch e)) <? bytes
  then with_stats (with_scratch e (en_scratch e ++ replicate (Z.to_nat bytes - length (en_scratch e)) Byte.x00)) count_growth
  else e.
Definition load_writes (ops : list Pending) (slots : list slot) (scratch : bytes) : bytes :=
  foldl (λ scratch op,
    match slots !! pd_job op with
    | Some (Slot (MakeJob _ _ (BWrite data)) start _ _) => overwrite scratch (pd_start op) (range start (start + pd_len op) data)
    | _ => scratch
    end) scratch ops.

(** What a completed operation does to its slot, with the bytes copied. *)
Definition complete_slot (op : Pending) (scratch : bytes) (s : slot) : slot * Z * bool :=
  let s := match jb_buffer (sl_job s), pd_owned op with
           | BOwnedRead _, Some b => set_buffer s (BOwnedRead b)
           | _, _ => s
           end in
  let result := pd_result op in
  if result <? 0 then (fail_slot s (- result), 0, true)
  else if pd_len op <? result then (fail_slot s EIO, 0, true)
  else
    let '(s, copied) :=
      match jb_buffer (sl_job s) with
      | BRead buffer =>
          (set_buffer s (BRead (overwrite buffer (sl_progress s) (range (pd_start op) (pd_start op + result) scratch))), result)
      | _ => (s, 0)
      end in
    let s := set_progress s (sl_progress s + result) in
    let finished :=
      match pd_kind op with
      | KRead => (result <? pd_len op) || (sl_progress s =? snd (kind_length (jb_buffer (sl_job s))))
      | KWrite => false
      | KSync _ => true
      end in
    (set_done s finished, copied, false).

Fixpoint complete_all (ops : list Pending) (scratch : bytes) (slots : list slot) (copied : Z) (failed : bool) : list slot * Z * bool :=
  match ops with
  | [] => (slots, copied, failed)
  | op :: ops =>
      match slots !! pd_job op with
      | Some s =>
          let '(s, n, f) := complete_slot op scratch s in
          complete_all ops scratch (<[pd_job op := s]> slots) (copied + n) (failed || f)
      | None => complete_all ops scratch slots copied failed
      end
  end.

Record call := Call { ca_engine : Engine; ca_slots : list slot; ca_first : nat; ca_copied : Z; ca_world : W }.

(** [while first_pending < jobs.len() && done[first_pending]]. *)
Fixpoint skip_done (slots : list slot) (first : nat) : nat :=
  match slots with
  | s :: rest => if sl_done s then skip_done rest (S first) else first
  | [] => first
  end.

Definition finish_call (c : call) : list (result ioerr Z) * list Job * Engine * W :=
  ((λ s, match sl_error s with Some errno => Err (Os errno) | None => Ok (sl_progress s) end) <$> ca_slots c, sl_job <$> ca_slots c,
   with_stats (ca_engine c) (count_copied (ca_copied c)), ca_world c).

(** One turn of the loop over waves. *)
Definition call_turn (fuel : nat) (c : call) : outcome (turn call (list (result ioerr Z) * list Job * Engine * W)) :=
  let e := ca_engine c in
  let first := skip_done (drop (ca_first c) (ca_slots c)) (ca_first c) in
  if (first =? length (ca_slots c))%nat then Done (Return (finish_call c))
  else
    let o := en_options e in
    let '(rest, ops, failed) := plan o (drop first (ca_slots c)) first 0 (max_batch_bytes o) false in
    let slots := take first (ca_slots c) ++ rest in
    match ops with
    | [] => Done (Again (Call e slots first (ca_copied c) (ca_world c)))
    | _ =>
        let e := grow_scratch ops e in
        let e := with_scratch e (load_writes ops slots (en_scratch e)) in
        '(r, e, w) ← wave fuel ops e (ca_world c);
        match r with
        | Ok completed =>
            let '(slots, copied, failed) := complete_all completed (en_scratch e) slots (ca_copied c) failed in
            let c := Call e slots first copied w in
            Done (if failed : bool then Return (finish_call c) else Again c)
        | Err error =>
            let errno := default EIO (raw_os_error error) in
            let slots := (λ s, if sl_done s then s else fail_slot s errno) <$> slots in
            Done (Return (finish_call (Call e slots first (ca_copied c) w)))
        end
    end.

Definition execute (fuel : nat) (jobs : list Job) (e : Engine) (w : W) : outcome (list (result ioerr Z) * list Job * Engine * W) :=
  if negb (en_ring e) then Done ((λ _, Err (Os EIO)) <$> jobs, jobs, e, w)
  else
    run_in (λ c, (ca_first c <? length (ca_slots c))%nat) (call_turn fuel) finish_call fuel
      (Call e ((λ j, Slot j 0 false None) <$> jobs) 0 0 w).
End Waves.

(** ** The executor interface *)

Record ReadOp := MakeRead { rd_file : file; rd_offset : Z; rd_buffer : bytes }.
Record WriteOp := MakeWrite { wr_file : file; wr_offset : Z; wr_data : bytes }.
Definition job_of_read (op : ReadOp) : Job := MakeJob (rd_file op) (rd_offset op) (BRead (rd_buffer op)).
Definition job_of_owned (op : ReadOp) : Job := MakeJob (rd_file op) (rd_offset op) (BOwnedRead (rd_buffer op)).
Definition job_of_write (op : WriteOp) : Job := MakeJob (wr_file op) (wr_offset op) (BWrite (wr_data op)).

Section Operations.
Context {W : Type} (k : kernel W).

(** [ordered]: in input order, nothing after the first error.  [B] is what an
    item's buffer is afterwards, [skip] when it is not executed. *)
Fixpoint ordered {A B} (skip : A → B) (execute : A → W → outcome (result ioerr Z * B * W)) (items : list A) (failed : bool) (w : W)
    : outcome (list (result ioerr Z * B) * W) :=
  match items with
  | [] => Done ([], w)
  | item :: items =>
      '(r, b, w) ← (if failed then Done (Ok 0, skip item, w) else execute item w);
      '(rs, w) ← ordered skip execute items (failed || (if r is Err _ then true else false)) w;
      Done ((r, b) :: rs, w)
  end.

Definition read_ordered (ops : list ReadOp) (w : W) : outcome (list (result ioerr Z * bytes) * W) :=
  ordered rd_buffer (λ op w,
    let '(r, w) := k_pread k (rd_file op) (rd_offset op) (Z.of_nat (length (rd_buffer op))) w in
    Done (match r with
          | Ok data => (Ok (Z.of_nat (length data)), overwrite (rd_buffer op) 0 data)
          | Err error => (Err error, rd_buffer op)
          end, w)) ops false w.
Definition sync_ordered (files : list file) (data_only : bool) (w : W) : outcome (list (result ioerr Z) * W) :=
  '(rs, w) ← ordered (λ _, ()) (λ f w,
    let '(r, w) := k_fsync k f data_only w in
    Done (match r with Ok _ => Ok 0 | Err error => Err error end, (), w)) files false w;
  Done (rs.*1, w).

(** The standard library's [write_all_at]; its error for a write of nothing is of the kind [WriteZero]. *)
Definition write_zero : ioerr := Simple (OtherKind 23).
Fixpoint write_all_at (fuel : nat) (f : file) (data : bytes) (offset : Z) (w : W) : outcome (result ioerr unit * W) :=
  match data, fuel with
  | [], _ => Done (Ok (), w)
  | _, O => OutOfFuel
  | _, S fuel =>
      match k_pwrite k f offset data w with
      | (Ok n, w) =>
          if n =? 0 then Done (Err write_zero, w)
          else if Z.of_nat (length data) <? n then Panicked
          else write_all_at fuel f (drop (Z.to_nat n) data) (offset + n) w
      | (Err error, w) => if is_interrupted error then write_all_at fuel f data offset w else Done (Err error, w)
      end
  end.
Definition write_ordered (fuel : nat) (ops : list WriteOp) (w : W) : outcome (list (result ioerr Z) * W) :=
  '(rs, w) ← ordered (λ _, ()) (λ op w,
    '(r, w) ← write_all_at fuel (wr_file op) (wr_data op) (wr_offset op) w;
    Done (match r with Ok _ => Ok (Z.of_nat (length (wr_data op))) | Err e => Err e end, (), w)) ops false w;
  Done (rs.*1, w).

Definition write (fuel : nat) (ops : list WriteOp) (e : Engine) (w : W) : outcome (list (result ioerr Z) * Engine * W) :=
  if syscall_writes (en_options e) && en_ring e then
    '(results, w) ← write_ordered fuel ops w;
    let count := length (filter (λ or : WriteOp * result ioerr Z,
      negb (bool_decide (wr_data or.1 = [])) && negb (if or.2 is Ok 0 then true else false)) (zip ops results)) in
    Done (results, with_stats e (count_syscall_writes (Z.of_nat count)), w)
  else
    '(results, _, e, w) ← execute k fuel (job_of_write <$> ops) e w;
    Done (results, e, w).

Definition sync (fuel : nat) (files : list file) (data_only : bool) (e : Engine) (w : W) : outcome (list (result ioerr Z) * Engine * W) :=
  '(results, _, e, w) ← execute k fuel ((λ f, MakeJob f 0 (BSync data_only)) <$> files) e w;
  Done (results, e, w).

(** *** Reads through the page cache *)

Record probing := Probing {
  pr_failed : bool; pr_probe : bool; pr_warm : Z; pr_nowait : bool; pr_probes : Z; pr_hits : Z; pr_misses : Z; pr_direct : Z;
}.
Definition SMALL_READ : Z := 64 * 1024.

(** The attempt on one operation: a probe, an ordinary read in a warm cohort, or none. *)
Definition attempt (op : ReadOp) (p : probing) (w : W) : result ioerr bytes * probing * W :=
  let len := Z.of_nat (length (rd_buffer op)) in
  if pr_probe p && (len <=? SMALL_READ) then
    if (pr_warm p =? 0) || (pr_warm p =? 15) then
      let '(r, w) := k_nowait k (rd_file op) (rd_offset op) len w in
      (r, Probing (pr_failed p) (pr_probe p) (pr_warm p) (pr_nowait p) (pr_probes p + 1) (pr_hits p) (pr_misses p) (pr_direct p), w)
    else
      let '(r, w) := k_pread k (rd_file op) (rd_offset op) len w in
      (r, Probing (pr_failed p) (pr_probe p) (pr_warm p) (pr_nowait p) (pr_probes p) (pr_hits p) (pr_misses p) (pr_direct p + 1), w)
  else (Err (Os EAGAIN), p, w).

Definition hit (p : probing) : probing :=
  Probing (pr_failed p) (pr_probe p) (if pr_warm p =? 0 then 15 else pr_warm p - 1) (pr_nowait p) (pr_probes p)
    (if (pr_warm p =? 0) || (pr_warm p =? 15) then pr_hits p + 1 else pr_hits p) (pr_misses p) (pr_direct p).
Definition stop_probing (nowait : bool) (p : probing) : probing :=
  Probing (pr_failed p) false (pr_warm p) (pr_nowait p && nowait) (pr_probes p) (pr_hits p) (pr_misses p) (pr_direct p).
Definition miss (p : probing) : probing :=
  Probing (pr_failed p) (pr_probe p) (pr_warm p) (pr_nowait p) (pr_probes p) (pr_hits p) (pr_misses p + 1) (pr_direct p).
Definition fail_probing (p : probing) : probing :=
  Probing true (pr_probe p) (pr_warm p) (pr_nowait p) (pr_probes p) (pr_hits p) (pr_misses p) (pr_direct p).

(** The rest of an operation goes to the ring, after what the probe gave. *)
Definition probe_rest (op : ReadOp) (prefix : bytes) (p : probing) (w : W) : result ioerr Z * bytes * option Job * probing * W :=
  let n := Z.of_nat (length prefix) in
  let buffer := overwrite (rd_buffer op) 0 prefix in
  match checked_add (rd_offset op) n with
  | None => (Err (Os EOVERFLOW), buffer, None, fail_probing p, w)
  | Some offset => (Ok n, buffer, Some (MakeJob (rd_file op) offset (BRead (drop (length prefix) buffer))), miss p, w)
  end.
(** One operation: its result so far, its buffer, and the rest for the ring. *)
Definition probe_one (op : ReadOp) (p : probing) (w : W) : result ioerr Z * bytes * option Job * probing * W :=
  if pr_failed p then (Ok 0, rd_buffer op, None, p, w)
  else if bool_decide (rd_buffer op = []) then (Ok 0, rd_buffer op, None, p, w)
  else
    let '(r, p, w) := attempt op p w in
    let len := Z.of_nat (length (rd_buffer op)) in
    match r with
    | Ok data =>
        if Z.of_nat (length data) =? len then (Ok len, overwrite (rd_buffer op) 0 data, None, hit p, w)
        else probe_rest op data (stop_probing true p) w
    | Err error =>
        if bool_decide (raw_os_error error = Some EAGAIN) then probe_rest op [] (stop_probing true p) w
        else if bool_decide (raw_os_error error = Some EOPNOTSUPP) || bool_decide (raw_os_error error = Some ENOSYS)
        then probe_rest op [] (stop_probing false p) w
        else (Err error, rd_buffer op, None, fail_probing p, w)
    end.
Fixpoint probe_all (ops : list ReadOp) (p : probing) (w : W) : list (result ioerr Z * bytes * option Job) * probing * W :=
  match ops with
  | [] => ([], p, w)
  | op :: ops =>
      let '(r, b, j, p, w) := probe_one op p w in
      let '(rest, p, w) := probe_all ops p w in
      ((r, b, j) :: rest, p, w)
  end.

(** The operations sent to the ring get its results after what the probe gave. *)
Fixpoint merge_ring (probed : list (result ioerr Z * bytes * option Job)) (results : list (result ioerr Z)) (jobs : list Job)
    : list (result ioerr Z * bytes) :=
  match probed with
  | [] => []
  | (r, b, None) :: probed => (r, b) :: merge_ring probed results jobs
  | (r, b, Some _) :: probed =>
      match results, jobs, r with
      | r' :: results, j :: jobs, Ok n =>
          (match r' with Ok count => Ok (count + n) | Err error => Err error end,
           match jb_buffer j with BRead suffix => take (Z.to_nat n) b ++ suffix | _ => b end) :: merge_ring probed results jobs
      | _, _, _ => (r, b) :: merge_ring probed results jobs
      end
  end.

Definition buffer_of (j : Job) : bytes := match jb_buffer j with BRead b | BOwnedRead b => b | _ => [] end.

(** The results with the buffers as they are afterwards. *)
Definition read (fuel : nat) (ops : list ReadOp) (e : Engine) (w : W) : outcome (list (result ioerr Z * bytes) * Engine * W) :=
  if cached_reads (en_options e) && nowait_supported e && en_ring e &&
     (if head ops is Some op then Z.of_nat (length (rd_buffer op)) <=? SMALL_READ else false)
  then
    let '(probed, p, w) := probe_all ops (Probing false true 0 true 0 0 0 0) w in
    let e := if pr_nowait p then e else without_nowait e in
    let e := with_stats e (count_cache (pr_probes p) (pr_direct p) (pr_hits p) (pr_misses p)) in
    let fallback := omap (λ x, x.2) probed in
    if pr_failed p || bool_decide (fallback = []) then Done ((λ x, x.1) <$> probed, e, w)
    else
      '(results, jobs, e, w) ← execute k fuel fallback e w;
      Done (merge_ring probed results jobs, e, w)
  else
    '(results, jobs, e, w) ← execute k fuel (job_of_read <$> ops) e w;
    Done (zip results (buffer_of <$> jobs), e, w).

(** *** Reads into owned buffers *)

(** The adapter for an executor that fills borrowed buffers. *)
Definition read_owned_via_borrowed (reader : list ReadOp → Engine → W → outcome (list (result ioerr Z * bytes) * Engine * W))
    (ops : list ReadOp) (e : Engine) (w : W) : outcome (list (result ioerr bytes) * Engine * W) :=
  '(results, e, w) ← reader ops e w;
  Done (if negb (length results =? length ops)%nat then (λ _, Err (Simple InvalidData)) <$> ops
        else (λ rb : result ioerr Z * bytes, match rb.1 with
              | Ok count => if Z.of_nat (length rb.2) <? count then Err (Simple InvalidData) else Ok (take (Z.to_nat count) rb.2)
              | Err error => Err error
              end) <$> results, e, w).

(** [try_fold] with [checked_add]. *)
Fixpoint total_length (ops : list ReadOp) (bytes : Z) : option Z :=
  match ops with
  | [] => Some bytes
  | op :: ops => b ← checked_add bytes (Z.of_nat (length (rd_buffer op))); total_length ops b
  end.
Definition read_owned (fuel : nat) (ops : list ReadOp) (e : Engine) (w : W) : outcome (list (result ioerr bytes) * Engine * W) :=
  let fits := match total_length ops 0 with Some bytes => bytes <=? max_batch_bytes (en_options e) | None => false end in
  if (cached_reads (en_options e) && nowait_supported e) || negb fits then read_owned_via_borrowed (read fuel) ops e w
  else
    '(results, jobs, e, w) ← execute k fuel (job_of_owned <$> ops) e w;
    Done (zip_with (λ r j, match r with Ok count => Ok (take (Z.to_nat count) (buffer_of j)) | Err error => Err error end) results jobs, e, w).

Definition path_read_batch_size (e : Engine) : Z := queue_depth (en_options e).
Definition owned_read_window (e : Engine) : option Z :=
  if negb (cached_reads (en_options e) && nowait_supported e) then Some (max_batch_bytes (en_options e)) else None.
Definition is_ordered (e : Engine) : bool := syscall_writes (en_options e).
End Operations.
