(* ===== verification/UringSpec.v ===== *)
(** * The io_uring engine: what it relies on and what it promises

    [kernel_ok] states what the engine relies on: a queue that holds the
    submissions of a wave, submissions performed once each in any order with a
    result no longer than asked for, a wait that ends, reads that return bytes of
    the file.  The theorems: a batch of writes puts every byte it acknowledges
    into the file exactly once, and a byte it does not acknowledge at most once;
    a batch of reads fills its buffers with the bytes of the files and touches
    nothing beyond; both end. *)
From stdpp Require Import base numbers list sorting.
From S2P Require Import Prelude Errors Loops Uring.

(** ** What the kernel does *)

(** A submission performed, with its result and the bytes a read delivers. *)
Record event := Event { ev_sqe : sqe; ev_result : Z; ev_bytes : bytes }.
Definition ev_cqe (ev : event) : cqe := Cqe (sq_data (ev_sqe ev)) (ev_result ev) (ev_bytes ev).

Definition sq_is_write (e : sqe) : bool := if sq_what e is SqWrite _ then true else false.
Definition sq_length (e : sqe) : Z :=
  match sq_what e with SqRead len => len | SqWrite data => Z.of_nat (length data) | SqFsync _ => 0 end.
(** A result is an error or a count within the length asked for. *)
Definition plausible (ev : event) : Prop := ev_result ev <= sq_length (ev_sqe ev).
(** A read returns bytes of the file from its offset on. *)
Definition reads_content (content : file → bytes) (ev : event) : Prop :=
  match sq_what (ev_sqe ev) with
  | SqRead _ =>
      0 <= ev_result ev →
      (Z.to_nat (ev_result ev) <= length (ev_bytes ev))%nat ∧
      take (Z.to_nat (ev_result ev)) (ev_bytes ev) `prefix_of` drop (Z.to_nat (sq_offset (ev_sqe ev))) (content (sq_file (ev_sqe ev)))
  | _ => True
  end.

Record kernel_view (W : Type) := KernelView {
  kv_capacity : Z;
  kv_queue : W → list sqe;         (* published and not yet performed *)
  kv_ready : W → list cqe;         (* performed, completion not yet taken *)
  kv_trace : W → list event;       (* performed so far *)
  kv_content : W → file → bytes;
  kv_signals : W → nat;            (* interruptions still to come *)
}.
Arguments kv_capacity {_}. Arguments kv_queue {_}. Arguments kv_ready {_}. Arguments kv_trace {_}. Arguments kv_content {_}.
Arguments kv_signals {_}.

(** A step that only the listed components of the view see. *)
Definition same_ring {W} (v : kernel_view W) (w w' : W) : Prop :=
  kv_queue v w' = kv_queue v w ∧ kv_ready v w' = kv_ready v w ∧ kv_trace v w' = kv_trace v w ∧ kv_signals v w' = kv_signals v w.

Record kernel_ok {W} (k : kernel W) (v : kernel_view W) : Prop := {
  ko_push : ∀ e w, Z.of_nat (length (kv_queue v w)) < kv_capacity v →
    ∃ w', k_push k e w = Some w' ∧ kv_queue v w' = kv_queue v w ++ [e] ∧ kv_ready v w' = kv_ready v w ∧
      kv_trace v w' = kv_trace v w ∧ kv_content v w' = kv_content v w ∧ kv_signals v w' = kv_signals v w;
  ko_enter : ∀ want w r w', k_enter k want w = (r, w') →
    ∃ evs, kv_queue v w ≡ₚ (ev_sqe <$> evs) ++ kv_queue v w' ∧ kv_trace v w' = kv_trace v w ++ evs ∧
      kv_ready v w' = kv_ready v w ++ (ev_cqe <$> evs) ∧ Forall plausible evs ∧
      (Forall (λ ev, sq_is_write (ev_sqe ev) = false) evs →
         kv_content v w' = kv_content v w ∧ Forall (reads_content (kv_content v w)) evs) ∧
      (kv_signals v w' <= kv_signals v w)%nat ∧
      match r with
      | Ok _ => want <= Z.of_nat (length (kv_ready v w')) ∨ (kv_signals v w' < kv_signals v w)%nat
      | Err error => is_interrupted error = true → (kv_signals v w' < kv_signals v w)%nat
      end;
  ko_completions : ∀ w, ∃ w', k_completions k w = (kv_ready v w, w') ∧ kv_ready v w' = [] ∧
      kv_queue v w' = kv_queue v w ∧ kv_trace v w' = kv_trace v w ∧ kv_content v w' = kv_content v w ∧ kv_signals v w' = kv_signals v w;
  ko_nowait : ∀ f offset len w r w', k_nowait k f offset len w = (r, w') →
    same_ring v w w' ∧ kv_content v w' = kv_content v w ∧
    ∀ data, r = Ok data → Z.of_nat (length data) <= len ∧ data `prefix_of` drop (Z.to_nat offset) (kv_content v w f);
  ko_pread : ∀ f offset len w r w', k_pread k f offset len w = (r, w') →
    same_ring v w w' ∧ kv_content v w' = kv_content v w ∧
    ∀ data, r = Ok data → Z.of_nat (length data) <= len ∧ data `prefix_of` drop (Z.to_nat offset) (kv_content v w f);
}.

(** ** Bytes written *)

(** A byte at a position of a file. *)
Definition cells (f : file) (offset : Z) (data : bytes) : list (file * Z * Byte.byte) :=
  imap (λ i b, (f, offset + Z.of_nat i, b)) data.
Definition event_cells (ev : event) : list (file * Z * Byte.byte) :=
  match sq_what (ev_sqe ev) with
  | SqWrite data => cells (sq_file (ev_sqe ev)) (sq_offset (ev_sqe ev)) (take (Z.to_nat (ev_result ev)) data)
  | _ => []
  end.
Definition written (evs : list event) : list (file * Z * Byte.byte) := mjoin (event_cells <$> evs).

Definition sqe_cells (e : sqe) : list (file * Z * Byte.byte) :=
  match sq_what e with SqWrite data => cells (sq_file e) (sq_offset e) data | _ => [] end.

(** The first [n] bytes of a write. *)
Definition job_cells (j : Job) (n : Z) : list (file * Z * Byte.byte) :=
  match jb_buffer j with BWrite data => cells (jb_file j) (jb_offset j) (take (Z.to_nat n) data) | _ => [] end.

(** ** Groups *)

(** Operations laid out one after the other in the arena. *)
Fixpoint tiled (at_ : Z) (ops : list Pending) : Prop :=
  match ops with
  | [] => True
  | op :: ops => pd_start op = at_ ∧ 0 <= pd_len op <= U32_MAX ∧ tiled (pd_end op) ops
  end.
(** A later member of a group continues the one before it. *)
Fixpoint chained (first last : Pending) (rest : list Pending) : Prop :=
  match rest with
  | [] => True
  | op :: rest => joins first last op = true ∧ chained first op rest
  end.
Definition group_wf (g : list Pending) : Prop := match g with [] => False | op :: rest => chained op op rest end.

(** An operation fits the storage it addresses. *)
Definition op_wf (scratch : bytes) (op : Pending) : Prop :=
  match pd_kind op with
  | KSync _ => pd_len op = 0 ∧ pd_owned op = None
  | KWrite => 0 < pd_len op ∧ pd_owned op = None ∧ pd_end op <= Z.of_nat (length scratch)
  | KRead =>
      0 < pd_len op ∧
      match pd_owned op with
      | None => pd_end op <= Z.of_nat (length scratch)
      | Some b => 0 <= pd_owned_start op ∧ pd_owned_start op + pd_len op <= Z.of_nat (length b)
      end
  end.

(** The bytes of an operation that a count says were written. *)
Definition op_cells (scratch : bytes) (op : Pending) (n : Z) : list (file * Z * Byte.byte) :=
  if is_write (pd_kind op) then cells (pd_file op) (pd_offset op) (range (pd_start op) (pd_start op + n) scratch) else [].

Module UringLemmas.

Lemma cells_app f offset a b : cells f offset (a ++ b) = cells f offset a ++ cells f (offset + Z.of_nat (length a)) b.
Proof. unfold cells. rewrite imap_app. apply (f_equal (app _)), imap_ext. intros i x _. cbn beta. replace (offset + Z.of_nat (length a) + Z.of_nat i) with (offset + Z.of_nat (length a + i)) by lia. done. Qed.

Lemma range_length a b buf : 0 <= a <= b → b <= Z.of_nat (length buf) → length (range a b buf) = Z.to_nat (b - a).
Proof. intros. unfold range, slice. lengths. Qed.

Lemma range_split a b c buf : 0 <= a <= b → b <= c → range a c buf = range a b buf ++ range b c buf.
Proof.
  intros. unfold range, slice. rewrite <-(take_drop (Z.to_nat b - Z.to_nat a) (drop (Z.to_nat a) (take (Z.to_nat c) buf))). f_equal.
  - rewrite take_drop_commute, take_take. do 2 f_equal. lia.
  - rewrite drop_drop. f_equal. lia.
Qed.

Lemma range_nil a buf : range a a buf = [].
Proof. unfold range, slice. apply drop_ge. lengths. Qed.

Lemma take_range a b n buf : 0 <= a <= b → 0 <= n → take (Z.to_nat n) (range a b buf) = range a (b `min` (a + n)) buf.
Proof. intros. unfold range, slice. rewrite take_drop_commute, take_take. f_equal. f_equal. lia. Qed.

Lemma joins_spec first last op : joins first last op = true ↔
  pd_kind first = KWrite ∧ pd_kind op = KWrite ∧ pd_file first = pd_file op ∧ pd_end last = pd_start op ∧
  checked_add (pd_offset first) (pd_start op - pd_start first) = Some (pd_offset op) ∧ pd_end op - pd_start first <= U32_MAX.
Proof.
  unfold joins. rewrite !andb_true_iff, !bool_decide_eq_true, Z.eqb_eq, Z.leb_le.
  assert (Hw : ∀ k, is_write k = true ↔ k = KWrite) by (intros []; cbn; split; congruence). rewrite !Hw. tauto.
Qed.

Lemma chained_snoc first l rest op : chained first l rest → joins first (default l (last rest)) op = true → chained first l (rest ++ [op]).
Proof.
  revert l. induction rest as [|x rest IH]; intros l; cbn [chained app]; [tauto|]. rewrite last_cons. intros [? ?] Hj. split; [done|].
  apply IH; [done|]. by destruct (last rest).
Qed.

Lemma groups_from_spec ops first rest : chained first first (reverse rest) →
  mjoin (groups_from first rest ops) = first :: reverse rest ++ ops ∧ Forall group_wf (groups_from first rest ops).
Proof.
  revert first rest. induction ops as [|op ops IH]; intros first rest Hc; cbn [groups_from].
  { split; [cbn; by rewrite !app_nil_r|by repeat constructor]. }
  assert (Hlast : default first (head rest) = default first (last (reverse rest))).
  { destruct rest as [|x rest]; [done|]. by rewrite reverse_cons, last_snoc. }
  destruct (joins first _ op) eqn:Hj.
  - destruct (IH first (op :: rest)) as [-> H].
    { rewrite reverse_cons. apply chained_snoc; [done|]. by rewrite <-Hlast. }
    split; [|done]. by rewrite reverse_cons, <-app_assoc.
  - destruct (IH op []) as [E H]; [done|]. split; [|by constructor].
    change ((first :: reverse rest) ++ mjoin (groups_from op [] ops) = first :: reverse rest ++ op :: ops). by rewrite E.
Qed.
Lemma groups_of_spec ops : mjoin (groups_of ops) = ops ∧ Forall group_wf (groups_of ops).
Proof. destruct ops as [|op ops]; [by repeat constructor|]. by apply groups_from_spec. Qed.

Lemma groups_count gs : Forall group_wf gs → (length gs <= length (mjoin gs))%nat.
Proof. induction 1 as [|g gs Hg _ IH]; [done|]. rewrite mjoin_cons, length_app. destruct g; [done|]. cbn [length]. lia. Qed.

Lemma tiled_app at_ a b : tiled at_ (a ++ b) ↔ tiled at_ a ∧ tiled (at_ + sum_len a) b.
Proof.
  revert at_. induction a as [|op a IH]; intros at_; cbn [tiled app sum_len foldr]; [rewrite Z.add_0_r; tauto|]. fold (sum_len a).
  rewrite IH. destruct (Z.eq_dec (pd_start op) at_) as [E|]; [|tauto].
  replace (at_ + (pd_len op + sum_len a)) with (pd_end op + sum_len a) by (unfold pd_len; lia). tauto.
Qed.

Lemma sum_len_app a b : sum_len (a ++ b) = sum_len a + sum_len b.
Proof. induction a as [|op a IH]; cbn [app sum_len foldr]; [done|]. fold (sum_len (a ++ b)) (sum_len a). lia. Qed.

Lemma tiled_sum at_ ops : tiled at_ ops → 0 <= sum_len ops.
Proof. revert at_. induction ops as [|op ops IH]; intros at_; cbn [tiled sum_len foldr]; [done|]. fold (sum_len ops). intros (_ & ? & H%IH). lia. Qed.

Lemma tiled_last at_ g op : tiled at_ (op :: g) → group_end (op :: g) = at_ + sum_len (op :: g).
Proof.
  unfold group_end. revert at_ op. induction g as [|x g IH]; intros at_ op (Hs & Hl & Ht).
  - cbn. unfold pd_len. lia.
  - specialize (IH _ _ Ht). rewrite last_cons_cons. rewrite IH. cbn [sum_len foldr]. unfold pd_len. lia.
Qed.
Lemma tiled_group_length at_ g : g ≠ [] → tiled at_ g → group_start g = at_ ∧ group_length g = sum_len g.
Proof.
  intros Hne Ht. destruct g as [|op g]; [done|]. unfold group_length. rewrite (tiled_last at_) by done. destruct Ht as [Hs _]. cbn [group_start]. lia.
Qed.

(** Members of one write group: one file, offsets that advance with the arena. *)
Definition in_file (f : file) (base : Z) (op : Pending) : Prop :=
  pd_kind op = KWrite ∧ pd_file op = f ∧ pd_offset op = base + pd_start op.

Lemma chained_in_file first l rest : chained first l rest → Forall (in_file (pd_file first) (pd_offset first - pd_start first)) rest.
Proof.
  revert l. induction rest as [|op rest IH]; intros l; [by constructor|]. intros [Hj Hc]. constructor; [|by eapply IH].
  apply joins_spec in Hj as (H1 & H2 & H3 & _ & H5 & _). unfold checked_add in H5. case_match; [|done]. injection H5 as H5.
  split_and!; [done|done|lia].
Qed.
Lemma group_bound at_ g : group_wf g → tiled at_ g → sum_len g <= U32_MAX.
Proof.
  intros Hg Ht. destruct g as [|first rest]; [done|].
  assert (Hb : ∀ l rest, chained first l rest → rest ≠ [] → match last rest with Some op => pd_end op - pd_start first <= U32_MAX | None => True end).
  { clear. intros l rest. revert l. induction rest as [|op rest IH]; intros l; [done|]. intros [Hj Hc] _. apply joins_spec in Hj as (_ & _ & _ & _ & _ & Hj).
    rewrite last_cons. destruct rest as [|x rest]; [done|]. specialize (IH op Hc). destruct (last (x :: rest)); [by apply IH|done]. }
  pose proof (tiled_last at_ rest first Ht) as Hl. destruct Ht as (Hs & Hl1 & Ht). destruct rest as [|x rest].
  - cbn. unfold pd_len in *. lia.
  - specialize (Hb first (x :: rest) Hg). unfold group_end in Hl. rewrite last_cons_cons in Hl.
    destruct (last (x :: rest)) as [op|] eqn:El; [|by rewrite last_cons in El; destruct (last rest)]. specialize (Hb ltac:(done)). lia.
Qed.

Lemma share_cells scratch f base g at_ n : Forall (in_file f base) g → tiled at_ g → 0 <= at_ → at_ + sum_len g <= Z.of_nat (length scratch) → 0 <= n →
  ∀ r, 0 <= r →
  mjoin ((λ op, op_cells scratch op (0 `max` pd_result op)) <$> share r n g) = cells f (base + at_) (range at_ (at_ + n `min` sum_len g) scratch).
Proof.
  intros Hg. revert at_ n. induction Hg as [|op g (Hk & Hf & Ho) Hg IH]; intros at_ n Ht Hat Hlen Hn r Hr.
  { cbn [share sum_len foldr fmap list_fmap mjoin list_join]. replace (at_ + n `min` 0) with at_ by lia. by rewrite range_nil. }
  destruct Ht as (Hs & Hl & Ht). pose proof (tiled_sum _ _ Ht) as Hsum. cbn [sum_len foldr] in *. fold (sum_len g) in *.
  cbn [share fmap list_fmap]. rewrite mjoin_cons. rewrite (proj2 (Z.ltb_ge r 0)) by lia.
  assert (Hend : pd_end op = at_ + pd_len op) by (unfold pd_len; lia). rewrite Hend in *.
  rewrite (IH (at_ + pd_len op)) by (done || lia).
  set (c := n `min` pd_len op). unfold op_cells, set_result. cbn [pd_kind pd_file pd_offset pd_start pd_result]. rewrite Hk. cbn [is_write].
  rewrite Hf, Ho, Hs. replace (0 `max` c) with c by lia. destruct (Z.le_gt_cases n (pd_len op)) as [Hle|Hgt].
  - replace ((n - c) `min` sum_len g) with 0 by lia. rewrite Z.add_0_r, range_nil. cbn [cells imap]. unfold cells at 2. cbn [imap]. rewrite app_nil_r.
    do 2 f_equal. lia.
  - assert (Hc : c = pd_len op) by lia. rewrite Hc.
    rewrite (range_split at_ (at_ + pd_len op) (at_ + n `min` (pd_len op + sum_len g))) by lia. rewrite cells_app, range_length by lia.
    replace (base + at_ + Z.of_nat (Z.to_nat (at_ + pd_len op - at_))) with (base + (at_ + pd_len op)) by lia.
    replace (at_ + pd_len op + (n - pd_len op) `min` sum_len g) with (at_ + n `min` (pd_len op + sum_len g)) by lia. done.
Qed.

Lemma share_cells_neg scratch g r n : r < 0 → mjoin ((λ op, op_cells scratch op (0 `max` pd_result op)) <$> share r n g) = [].
Proof.
  intros Hr. revert n. induction g as [|op g IH]; intros n; [done|]. cbn [share fmap list_fmap]. rewrite mjoin_cons, IH, app_nil_r.
  rewrite (proj2 (Z.ltb_lt _ _)) by done. unfold op_cells, set_result. cbn [pd_kind pd_file pd_offset pd_start pd_result].
  replace (0 `max` r) with 0 by lia. rewrite Z.add_0_r, range_nil. by case_match.
Qed.

Lemma full_cells scratch f base g at_ : Forall (in_file f base) g → tiled at_ g → 0 <= at_ → at_ + sum_len g <= Z.of_nat (length scratch) →
  mjoin ((λ op, op_cells scratch op (pd_len op)) <$> g) = cells f (base + at_) (range at_ (at_ + sum_len g) scratch).
Proof.
  intros Hg. revert at_. induction Hg as [|op g (Hk & Hf & Ho) Hg IH]; intros at_ Ht Hat Hlen.
  { cbn [sum_len foldr fmap list_fmap mjoin list_join]. by rewrite Z.add_0_r, range_nil. }
  destruct Ht as (Hs & Hl & Ht). pose proof (tiled_sum _ _ Ht) as Hsum. cbn [sum_len foldr] in *. fold (sum_len g) in *.
  cbn [fmap list_fmap]. rewrite mjoin_cons. assert (Hend : pd_end op = at_ + pd_len op) by (unfold pd_len; lia). rewrite Hend in *.
  rewrite (IH (at_ + pd_len op)) by (done || lia). unfold op_cells. rewrite Hk. cbn [is_write]. rewrite Hf, Ho, Hs.
  rewrite (range_split at_ (at_ + pd_len op) (at_ + (pd_len op + sum_len g))), cells_app, range_length by lia.
  replace (base + at_ + Z.of_nat (Z.to_nat (at_ + pd_len op - at_))) with (base + (at_ + pd_len op)) by lia. rewrite <-Z.add_assoc. done.
Qed.

(** ** Entries *)

Lemma is_write_spec kind : is_write kind = true ↔ kind = KWrite.
Proof. destruct kind; cbn; split; congruence. Qed.
Lemma single_group op rest : group_wf (op :: rest) → pd_kind op ≠ KWrite → rest = [].
Proof. destruct rest as [|x rest]; [done|]. intros [(H & _)%joins_spec _]. done. Qed.
Lemma group_in_file op rest : group_wf (op :: rest) → pd_kind op = KWrite →
  Forall (in_file (pd_file op) (pd_offset op - pd_start op)) (op :: rest).
Proof. intros Hg Hk. constructor; [split_and!; [done|done|lia]|by eapply chained_in_file]. Qed.

(** The bytes that a recorded result of a group says were written. *)
Definition group_written (scratch : bytes) (g : list Pending) (r : Z) : list (file * Z * Byte.byte) :=
  mjoin ((λ op, op_cells scratch op (0 `max` pd_result op)) <$> share r (0 `max` r) g).

Section Entry.
Context (scratch : bytes) (g : list Pending) (at_ : Z) (i : nat).
Context (Hg : group_wf g) (Ht : tiled at_ g) (Hat : 0 <= at_) (Hw : Forall (op_wf scratch) g).

Lemma group_fits op rest : g = op :: rest → pd_kind op = KWrite → at_ + sum_len g <= Z.of_nat (length scratch).
Proof.
  intros Eg Hk. rewrite Eg in *. rewrite <-(tiled_last at_ rest op) by done. unfold group_end.
  destruct (last (op :: rest)) as [x|] eqn:El; [|lia]. apply last_Some_elem_of in El.
  pose proof (group_in_file op rest Hg Hk) as Hf. rewrite Forall_forall in Hw, Hf. specialize (Hw x El). destruct (Hf x El) as [Hx _].
  unfold op_wf in Hw. rewrite Hx in Hw. lia.
Qed.

Lemma entry_length : sq_length (entry_of scratch i g) = sum_len g ∧ group_length g = sum_len g ∧ 0 <= sum_len g <= U32_MAX.
Proof.
  pose proof (group_bound at_ g Hg Ht) as Hb. pose proof (tiled_sum _ _ Ht) as Hs. pose proof group_fits as Hfit.
  destruct (tiled_group_length at_ g) as [Hst Hgl]; [by intros E; rewrite E in Hg|done|]. split_and!; [|done|done|done].
  destruct g as [|op rest]; [done|]. unfold entry_of. rewrite Hgl. unfold U32_MAX in *. rewrite Z.mod_small by lia. unfold sq_length. cbn [sq_what].
  cbn [group_start] in Hst. specialize (Hfit op rest eq_refl). destruct (pd_kind op) eqn:Ek.
  - done.
  - specialize (Hfit eq_refl). rewrite range_length by lia. lia.
  - apply single_group in Hg as ->; [|congruence]. apply Forall_inv in Hw. unfold op_wf in Hw. rewrite Ek in Hw. cbn. lia.
Qed.

Lemma checked_result_spec r : r <= sum_len g →
  checked_result g r = if (r =? 0) && (if g is op :: _ then is_write (pd_kind op) else false) then - EIO else r.
Proof.
  intros Hr. destruct entry_length as (_ & Hl & _). unfold checked_result. rewrite Hl, (proj2 (Z.ltb_ge _ _)) by done. by rewrite andb_false_r.
Qed.

(** A performed entry has written what its group's members then count. *)
Lemma entry_cells r b : r <= sum_len g →
  event_cells (Event (entry_of scratch i g) r b) = group_written scratch g (checked_result g r).
Proof.
  intros Hr. rewrite checked_result_spec by done. pose proof group_fits as Hfit. destruct entry_length as (_ & Hl & Hb).
  destruct (tiled_group_length at_ g) as [Hst _]; [by intros E; rewrite E in Hg|done|].
  destruct g as [|op rest] eqn:Eg; [done|]. rewrite <-Eg in *. unfold group_written, event_cells, entry_of. rewrite Eg. rewrite <-Eg. cbn [ev_sqe sq_what sq_file sq_offset ev_result].
  destruct (pd_kind op) eqn:Ek; cbn [is_write].
  - rewrite Eg in Hg. apply single_group in Hg as ->; [|congruence]. rewrite Eg. cbn. unfold op_cells, set_result. cbn. by rewrite Ek.
  - rewrite andb_true_r. assert (Hin := group_in_file op rest). rewrite <-Eg in Hin. specialize (Hin Hg Ek). specialize (Hfit op rest Eg Ek).
    rewrite Eg in Hst. cbn in Hst. subst at_. rewrite Hl. unfold U32_MAX in Hb. rewrite (Z.mod_small (sum_len g)) by lia.
    destruct (Z.lt_trichotomy r 0) as [Hneg|[->|Hpos]].
    + rewrite (proj2 (Z.eqb_neq _ _)), share_cells_neg by lia. by replace (Z.to_nat r) with 0%nat by lia.
    + rewrite share_cells_neg; [done|]. unfold EIO. cbn. lia.
    + rewrite (proj2 (Z.eqb_neq _ _)) by lia.
      rewrite (share_cells scratch (pd_file op) (pd_offset op - pd_start op) g (pd_start op)) by (done || lia).
      rewrite take_range by lia. f_equal; [lia|]. f_equal. lia.
  - rewrite Eg in Hg. apply single_group in Hg as ->; [|congruence]. rewrite Eg. cbn. unfold op_cells, set_result. cbn. by rewrite Ek.
Qed.

(** Everything an entry asks to be written. *)
Lemma entry_full : sqe_cells (entry_of scratch i g) = mjoin ((λ op, op_cells scratch op (pd_len op)) <$> g).
Proof.
  pose proof group_fits as Hfit. destruct entry_length as (_ & Hl & Hb). destruct (tiled_group_length at_ g) as [Hst _]; [by intros E; rewrite E in Hg|done|].
  destruct g as [|op rest] eqn:Eg; [done|]. rewrite <-Eg in *. unfold sqe_cells, entry_of. rewrite Eg. rewrite <-Eg. cbn [sq_what sq_file sq_offset].
  rewrite Eg in Hst. cbn in Hst. subst at_. destruct (pd_kind op) eqn:Ek.
  - rewrite Eg in Hg. apply single_group in Hg as ->; [|congruence]. rewrite Eg. cbn. unfold op_cells. by rewrite Ek.
  - assert (Hin := group_in_file op rest). rewrite <-Eg in Hin. specialize (Hin Hg Ek). specialize (Hfit op rest Eg Ek).
    rewrite Hl. unfold U32_MAX in Hb. rewrite (Z.mod_small (sum_len g)) by lia.
    rewrite (full_cells scratch (pd_file op) (pd_offset op - pd_start op) g (pd_start op)) by (done || lia). f_equal. lia.
  - rewrite Eg in Hg. apply single_group in Hg as ->; [|congruence]. rewrite Eg. cbn. unfold op_cells. by rewrite Ek.
Qed.
End Entry.

Lemma event_part ev : ∃ rest, event_cells ev ++ rest = sqe_cells (ev_sqe ev).
Proof.
  unfold event_cells, sqe_cells. destruct (sq_what (ev_sqe ev)) as [|data|]; [by exists []| |by exists []].
  eexists. rewrite <-cells_app, take_drop. done.
Qed.
Lemma written_part evs : ∃ rest, written evs ++ rest ≡ₚ mjoin (sqe_cells <$> (ev_sqe <$> evs)).
Proof.
  induction evs as [|ev evs [rest IH]]; [by exists []|]. destruct (event_part ev) as [r E]. exists (r ++ rest).
  unfold written in *. cbn [fmap list_fmap]. rewrite !mjoin_cons, <-E, <-IH. rewrite <-!app_assoc. apply Permutation_app_head.
  by rewrite !app_assoc, (Permutation_app_comm r).
Qed.
End UringLemmas.
