(* ===== verification/UringWave.v ===== *)
(** * The io_uring engine: one wave

    Draining a wave: whatever order the completions arrive in, every submission
    is answered once, the bytes written are those the members of its group then
    count, and a read's bytes are in its own buffer.  After an error no
    submission has been performed twice. *)
From stdpp Require Import base numbers list sorting.
From S2P Require Import Prelude Errors Loops Uring UringSpec.

Module WaveLemmas.
Import UringLemmas.

(** ** Buffers *)

Lemma overwrite_length buf at_ data : 0 <= at_ → at_ + Z.of_nat (length data) <= Z.of_nat (length buf) → length (overwrite buf at_ data) = length buf.
Proof. intros. unfold overwrite. lengths. Qed.
Lemma overwrite_take buf at_ data : at_ <= Z.of_nat (length buf) → take (Z.to_nat at_) (overwrite buf at_ data) = take (Z.to_nat at_) buf.
Proof. intros. unfold overwrite. rewrite take_app_length'; [done|]. lengths. Qed.
Lemma overwrite_range buf at_ data r : 0 <= at_ <= Z.of_nat (length buf) → 0 <= r <= Z.of_nat (length data) →
  range at_ (at_ + r) (overwrite buf at_ data) = take (Z.to_nat r) data.
Proof.
  intros. unfold overwrite, range, slice. replace (Z.to_nat (at_ + r)) with (Z.to_nat at_ + Z.to_nat r)%nat by lia.
  rewrite <-take_drop_commute. rewrite drop_app_length' by (lengths). by rewrite take_app_le by lia.
Qed.
Lemma range_lookup a b buf i : (i < Z.to_nat b - Z.to_nat a)%nat → range a b buf !! i = buf !! (Z.to_nat a + i)%nat.
Proof. intros. unfold range, slice. rewrite lookup_drop, lookup_take_lt by lia. done. Qed.
Lemma range_lookup_ge a b buf i : (Z.to_nat b - Z.to_nat a <= i)%nat → range a b buf !! i = None.
Proof. intros. apply lookup_ge_None_2. unfold range, slice. lengths. Qed.
Lemma overwrite_lookup buf at_ data i : at_ <= Z.of_nat (length buf) → ((i < Z.to_nat at_)%nat ∨ (Z.to_nat at_ + length data <= i)%nat) →
  overwrite buf at_ data !! i = buf !! i.
Proof.
  intros Hat Hi. unfold overwrite. assert (Hl : length (take (Z.to_nat at_) buf) = Z.to_nat at_) by (lengths).
  destruct Hi as [Hi|Hi].
  - rewrite lookup_app_l by lia. by apply lookup_take_lt.
  - rewrite lookup_app_r by lia. rewrite lookup_app_r by lia. rewrite lookup_drop. f_equal. lia.
Qed.
Lemma overwrite_other buf at_ data a b : 0 <= a → 0 <= at_ <= Z.of_nat (length buf) →
  b <= at_ ∨ at_ + Z.of_nat (length data) <= a → range a b (overwrite buf at_ data) = range a b buf.
Proof.
  intros Ha Hat Hd. apply list_eq. intros i. destruct (decide (i < Z.to_nat b - Z.to_nat a)%nat) as [Hi|Hi].
  - rewrite !range_lookup by done. apply overwrite_lookup; [lia|]. destruct Hd; [left|right]; lia.
  - rewrite !range_lookup_ge by lia. done.
Qed.

(** ** Outstanding submissions *)

(** The entries without a result yet. *)
Definition outstanding (es : list sqe) (rs : list (option Z)) : list sqe :=
  mjoin (zip_with (λ e (r : option Z), if r is None then [e] else []) es rs).

Lemma outstanding_insert es rs i e x : es !! i = Some e → rs !! i = Some None →
  outstanding es rs ≡ₚ e :: outstanding es (<[i := Some x]> rs).
Proof.
  revert rs i. induction es as [|e' es IH]; intros [|r rs] [|i]; try done.
  - intros [= ->] [= ->]. cbn. done.
  - intros He Hr. cbn [list_insert insert]. unfold outstanding in *. cbn [zip_with]. rewrite !mjoin_cons.
    cbn [lookup list_lookup] in He, Hr. rewrite (IH rs i He Hr). by rewrite Permutation_middle.
Qed.
Lemma outstanding_elem es rs e : e ∈ outstanding es rs → ∃ i, es !! i = Some e ∧ rs !! i = Some None.
Proof.
  revert rs. induction es as [|e' es IH]; intros [|r rs]; try (by intros ?%not_elem_of_nil). unfold outstanding. cbn [zip_with].
  rewrite mjoin_cons, elem_of_app. intros [He|He].
  - destruct r; [by apply not_elem_of_nil in He|]. apply list_elem_of_singleton in He as ->. by exists 0%nat.
  - destruct (IH rs He) as (i & ? & ?). by exists (S i).
Qed.
Lemma outstanding_none es : outstanding es (replicate (length es) None) = es.
Proof. induction es as [|e es IH]; [done|]. unfold outstanding in *. cbn [length replicate zip_with]. by rewrite mjoin_cons, IH. Qed.
Lemma outstanding_all es rs : length rs = length es → outstanding es rs = [] → Forall (λ r, is_Some r) rs.
Proof.
  revert rs. induction es as [|e es IH]; intros [|r rs]; try done. intros [= Hl]. unfold outstanding. cbn [zip_with]. rewrite mjoin_cons.
  intros [Hr Hrs]%app_eq_nil. constructor; [|by apply IH]. by destruct r; [eauto|].
Qed.

(** ** Draining *)

Section Drain.
Context (scratch0 : bytes) (groups0 : list (list Pending)) (content : file → bytes).
Context (Hwf : Forall group_wf groups0) (Htiled : tiled 0 (mjoin groups0)) (Hops : Forall (op_wf scratch0) (mjoin groups0)).
Let entries := imap (entry_of scratch0) groups0.
Let reads_only := Forall (λ op, pd_kind op ≠ KWrite) (mjoin groups0).

(** Where a group lies in the arena. *)
Definition gstart (i : nat) : Z := sum_len (mjoin (take i groups0)).

Lemma group_facts i g : groups0 !! i = Some g →
  tiled (gstart i) g ∧ 0 <= gstart i ∧ group_wf g ∧ Forall (op_wf scratch0) g ∧ ∀ j, (i < j)%nat → gstart i + sum_len g <= gstart j.
Proof.
  intros Hi. assert (E := take_drop_middle groups0 i g Hi). assert (Hi' := lookup_lt_Some _ _ _ Hi). unfold gstart.
  rewrite <-E in Htiled, Hops. rewrite join_app, mjoin_cons in Htiled, Hops. apply tiled_app in Htiled as [H1 H2]. apply tiled_app in H2 as [H2 H3].
  apply Forall_app in Hops as [_ [Ho _]%Forall_app]. split_and!; [done|by eapply tiled_sum|by eapply Forall_lookup_1|done|].
  intros j Hj. replace (take j groups0) with (take i groups0 ++ g :: take (j - S i) (drop (S i) groups0)).
  - rewrite join_app, mjoin_cons, !sum_len_app. rewrite <-(take_drop (j - S i) (drop (S i) groups0)), join_app in H3.
    apply tiled_app in H3 as [H3%tiled_sum _]. lia.
  - rewrite <-E at 3. rewrite take_app_ge by (lengths). f_equal. rewrite length_take.
    replace (j - i `min` length groups0)%nat with (S (j - S i)) by lia. done.
Qed.

(** What completion changes of an operation: the contents of its own buffer. *)
Definition same_but_owned (op0 op : Pending) : Prop :=
  op = set_owned op0 (pd_owned op) ∧
  match pd_owned op0, pd_owned op with
  | None, None => True
  | Some b0, Some b => length b = length b0 ∧ take (Z.to_nat (pd_owned_start op0)) b = take (Z.to_nat (pd_owned_start op0)) b0
  | _, _ => False
  end.
(** The bytes of a completed read are in place. *)
Definition read_done (scratch : bytes) (op : Pending) (r : Z) : Prop :=
  match pd_owned op with
  | None => range (pd_start op) (pd_start op + r) scratch
  | Some b => range (pd_owned_start op) (pd_owned_start op + r) b
  end `prefix_of` drop (Z.to_nat (pd_offset op)) (content (pd_file op)).

Definition group_state (scratch : bytes) (g0 g : list Pending) (r : option Z) : Prop :=
  match r with
  | None => g = g0
  | Some r =>
      r <= sum_len g0 ∧ (r = 0 → if head g0 is Some op then pd_kind op ≠ KWrite else True) ∧ Forall2 same_but_owned g0 g ∧
      (reads_only → 0 <= r → Forall (λ op, pd_kind op = KRead → read_done scratch op r) g)
  end.

Record dinv (done : list event) (out : list sqe) (d : drained) : Prop := {
  di_results : length (dr_results d) = length groups0;
  di_groups : length (dr_groups d) = length groups0;
  di_scratch : length (dr_scratch d) = length scratch0;
  di_out : outstanding entries (dr_results d) ≡ₚ out;
  di_remaining : dr_remaining d = Z.of_nat (length out);
  di_perm : (ev_sqe <$> done) ++ out ≡ₚ entries;
  di_plausible : Forall plausible done;
  di_written : written done ≡ₚ
    mjoin (zip_with (λ g (r : option Z), if r is Some r then group_written scratch0 g r else []) groups0 (dr_results d));
  di_group : ∀ i g0 g r, groups0 !! i = Some g0 → dr_groups d !! i = Some g → dr_results d !! i = Some r →
    group_state (dr_scratch d) g0 g r;
}.

Lemma same_but_owned_refl op : same_but_owned op op.
Proof. split; [by destruct op|]. by destruct (pd_owned op). Qed.

Lemma zip_with_insert_perm {A B C} (f : A → option B → list C) (l : list A) (rs : list (option B)) i a x :
  l !! i = Some a → rs !! i = Some None → f a None = [] →
  mjoin (zip_with f l (<[i := Some x]> rs)) ≡ₚ mjoin (zip_with f l rs) ++ f a (Some x).
Proof.
  revert rs i. induction l as [|a' l IH]; intros [|r rs] [|i]; try done.
  - intros [= ->] [= ->] Hf. cbn [insert list_insert zip_with]. rewrite !mjoin_cons, Hf. by rewrite (Permutation_app_comm (f a (Some x))).
  - intros Ha Hr Hf. cbn [insert list_insert zip_with]. rewrite !mjoin_cons, <-app_assoc. by rewrite (IH rs i Ha Hr Hf).
Qed.

Lemma deliver_ok i g0 data scratch : groups0 !! i = Some g0 → length scratch = length scratch0 →
  let '(g, scratch') := deliver data g0 scratch in
  length scratch' = length scratch0 ∧ Forall2 same_but_owned g0 g ∧
  (∀ a b, 0 <= a → b <= gstart i ∨ gstart i + sum_len g0 <= a → range a b scratch' = range a b scratch) ∧
  (∀ r ev, 0 <= r <= sum_len g0 → ev_bytes ev = data → ev_result ev = r → ev_sqe ev = entry_of scratch0 i g0 → reads_content content ev →
     Forall (λ op, pd_kind op = KRead → read_done scratch' op r) g).
Proof.
  intros Hi Hl. destruct (group_facts i g0 Hi) as (Ht & H0 & Hg & Hw & _).
  destruct (tiled_group_length (gstart i) g0) as [Hst Hgl]; [by intros ->|done|].
  assert (Hrefl : Forall2 same_but_owned g0 g0) by (apply Forall_Forall2_diag, Forall_true, same_but_owned_refl).
  destruct g0 as [|op rest]; [done|]. unfold deliver. destruct (pd_kind op) eqn:Ek.
  2: { split_and!; [done|done|done|]. intros. eapply Forall_impl; [by apply group_in_file|]. by intros ? (-> & _). }
  2: { split_and!; [done|done|done|]. intros. assert (rest = []) as -> by (eapply single_group; [done|congruence]). repeat constructor. by rewrite Ek. }
  assert (rest = []) as -> by (eapply single_group; [done|congruence]). rewrite Hgl. cbn [sum_len foldr group_start] in *. rewrite Z.add_0_r in *.
  apply Forall_inv in Hw. unfold op_wf in Hw. rewrite Ek in Hw. destruct Hw as [Hpos Hfit].
  set (data' := take (Z.to_nat (pd_len op)) data). assert (Hd : Z.of_nat (length data') <= pd_len op) by (unfold data'; lengths).
  assert (Hread : ∀ r ev, 0 <= r <= pd_len op → ev_bytes ev = data → ev_result ev = r → ev_sqe ev = entry_of scratch0 i [op] → reads_content content ev →
    r <= Z.of_nat (length data') ∧ take (Z.to_nat r) data' `prefix_of` drop (Z.to_nat (pd_offset op)) (content (pd_file op))).
  { intros r ev Hr <- <- Hs Hc. unfold reads_content in Hc. rewrite Hs in Hc. unfold entry_of in Hc. rewrite Ek in Hc. cbn [sq_what sq_offset sq_file] in Hc.
    destruct Hc as [Hc1 Hc2]; [lia|]. unfold data'. rewrite length_take, take_take. split; [lia|]. by rewrite Nat.min_l by lia. }
  assert (Hend : pd_end op = pd_start op + pd_len op) by (unfold pd_len; lia). destruct (pd_owned op) as [b|] eqn:Eo.
  - split_and!; [done| |done|].
    + repeat constructor. cbn. rewrite Eo. rewrite overwrite_length by lia. split; [done|]. apply overwrite_take. lia.
    + intros r ev Hr E1 E2 E3 Hc. destruct (Hread r ev Hr E1 E2 E3 Hc) as [H1 H2]. repeat constructor. intros _. unfold read_done.
      cbn [set_owned pd_owned pd_owned_start pd_offset pd_file]. rewrite overwrite_range by lia. done.
  - split_and!.
    + rewrite overwrite_length by lia. done.
    + done.
    + intros a b' Ha Hab. apply overwrite_other; lia.
    + intros r ev Hr E1 E2 E3 Hc. destruct (Hread r ev Hr E1 E2 E3 Hc) as [H1 H2]. repeat constructor. intros _. unfold read_done.
      rewrite Eo, overwrite_range by lia. done.
Qed.

Lemma read_alone g op : group_wf g → op ∈ g → pd_kind op = KRead → g = [op].
Proof.
  intros Hg Hop Hk. destruct g as [|first rest]; [done|]. destruct (is_write (pd_kind first)) eqn:Ew.
  - apply is_write_spec in Ew. assert (Hf := group_in_file first rest Hg Ew). rewrite Forall_forall in Hf. destruct (Hf op Hop) as [? _]. congruence.
  - assert (rest = []) as -> by (eapply single_group; [done|intros E; by rewrite E in Ew]). by apply list_elem_of_singleton in Hop as ->.
Qed.

Lemma Forall2_elem_r {A B} (P : A → B → Prop) l k y : Forall2 P l k → y ∈ k → ∃ x, x ∈ l ∧ P x y.
Proof.
  intros H [i Hi]%list_elem_of_lookup. destruct (Forall2_lookup_r _ _ _ _ _ H Hi) as (x & Hx & ?). exists x. split; [by eapply list_elem_of_lookup_2|done].
Qed.

Lemma read_done_other i j g0 g scratch scratch' r : groups0 !! j = Some g0 → Forall2 same_but_owned g0 g → i ≠ j →
  (∀ gi a b, groups0 !! i = Some gi → 0 <= a → b <= gstart i ∨ gstart i + sum_len gi <= a → range a b scratch' = range a b scratch) →
  is_Some (groups0 !! i) → r <= sum_len g0 →
  Forall (λ op, pd_kind op = KRead → read_done scratch op r) g → Forall (λ op, pd_kind op = KRead → read_done scratch' op r) g.
Proof.
  intros Hj Hs Hij Hsame [gi Hi] Hr Hf. destruct (group_facts j g0 Hj) as (Ht & H0 & Hg & _ & Hbelow).
  destruct (group_facts i gi Hi) as (_ & Hi0 & _ & _ & Hbelow').
  apply Forall_forall. intros op Hop Hk. rewrite Forall_forall in Hf. specialize (Hf op Hop Hk). unfold read_done in *.
  destruct (pd_owned op) eqn:Eo; [done|].
  assert (Hps : pd_start op = gstart j).
  { destruct (Forall2_elem_r _ _ _ _ Hs Hop) as (op0 & Hop0 & [E _]). rewrite E in Hk |- *. cbn in Hk |- *.
    rewrite (read_alone g0 op0 Hg Hop0 Hk) in Ht. by destruct Ht. }
  rewrite Hps in *. rewrite (Hsame gi) by (done || (destruct (Nat.lt_total i j) as [Hlt|[?|Hlt]]; [|done|]; [specialize (Hbelow' j Hlt)|specialize (Hbelow i Hlt)]; lia)).
  done.
Qed.

(** One completion. *)
Lemma completion_ok ev cqes done out d : dinv done (ev_sqe ev :: out) d → plausible ev → (reads_only → reads_content content ev) →
  ∃ d', take_completions (ev_cqe ev :: cqes) d = take_completions cqes d' ∧ dinv (done ++ [ev]) out d'.
Proof.
  intros [Hrl Hgl Hsl Hout Hrem Hperm Hpl Hwr Hgr] Hev Hread.
  destruct (outstanding_elem entries (dr_results d) (ev_sqe ev)) as (i & He & Hr). { rewrite Hout. apply elem_of_cons. by left. }
  assert (Hi : is_Some (groups0 !! i)) by (apply lookup_lt_is_Some; rewrite <-Hrl; by eapply lookup_lt_Some). destruct Hi as [g0 Hg0].
  assert (Hent : ev_sqe ev = entry_of scratch0 i g0). { unfold entries in He. rewrite list_lookup_imap, Hg0 in He. cbn in He. congruence. }
  assert (Hgd : dr_groups d !! i = Some g0).
  { assert (Hi : is_Some (dr_groups d !! i)) by (apply lookup_lt_is_Some; rewrite Hgl; by eapply lookup_lt_Some). destruct Hi as [g Hg].
    specialize (Hgr i g0 g None Hg0 Hg Hr). cbn in Hgr. by subst. }
  destruct (group_facts i g0 Hg0) as (Ht & Hz & Hg & Hw & _). destruct (entry_length scratch0 g0 (gstart i) i Hg Ht Hz Hw) as (Hlen & Hgl0 & Hs0).
  assert (Hle : ev_result ev <= sum_len g0) by (unfold plausible in Hev; rewrite Hent, Hlen in Hev; done).
  cbn [take_completions]. change (cq_data (ev_cqe ev)) with (sq_data (ev_sqe ev)).
  change (cq_result (ev_cqe ev)) with (ev_result ev). change (cq_bytes (ev_cqe ev)) with (ev_bytes ev).
  assert (Hidx : Z.to_nat (sq_data (ev_sqe ev)) = i). { rewrite Hent. unfold entry_of. destruct g0; [done|]. cbn. lia. }
  rewrite Hidx, Hr, Hgd. pose proof (deliver_ok i g0 (ev_bytes ev) (dr_scratch d) Hg0 Hsl) as Hdel.
  destruct (deliver (ev_bytes ev) g0 (dr_scratch d)) as [g scratch']. destruct Hdel as (Hsl' & Hsame & Hother & Hnew).
  eexists. split; [reflexivity|]. set (r := checked_result g0 (ev_result ev)).
  assert (Hrr : r <= sum_len g0 ∧ (r = 0 → if head g0 is Some op then pd_kind op ≠ KWrite else True) ∧ (0 <= r → r = ev_result ev)).
  { unfold r. rewrite (checked_result_spec scratch0 g0 (gstart i) i) by done. destruct g0 as [|op rest]; [done|]. cbn [head].
    destruct (is_write (pd_kind op)) eqn:Ek; rewrite ?andb_true_r, ?andb_false_r.
    - unfold EIO. destruct (Z.eqb_spec (ev_result ev) 0); split_and!; intros; (lia || done).
    - split_and!; [done| |done]. intros _ E. by rewrite E in Ek. }
  split; cbn [dr_results dr_groups dr_scratch dr_remaining].
  - by rewrite length_insert.
  - by rewrite length_insert.
  - done.
  - rewrite (outstanding_insert entries _ i _ r He Hr) in Hout. exact (Permutation.Permutation_cons_inv Hout).
  - rewrite Hrem. cbn [length]. lia.
  - rewrite fmap_app. cbn. by rewrite <-app_assoc.
  - apply Forall_app. split; [done|by repeat constructor].
  - unfold written. rewrite fmap_app, join_app. cbn [fmap list_fmap]. rewrite mjoin_cons. cbn [mjoin list_join]. rewrite app_nil_r.
    rewrite (zip_with_insert_perm _ groups0 (dr_results d) i g0 r Hg0 Hr) by done. rewrite <-Hwr. apply Permutation_app_head.
    destruct ev as [e res b]. cbn [ev_sqe ev_result] in *. rewrite Hent. by rewrite (entry_cells scratch0 g0 (gstart i) i) by done.
  - intros j gj g' r' Hj Hg' Hr'. destruct (decide (i = j)) as [<-|Hne].
    + rewrite list_lookup_insert_eq in Hg' by (by eapply lookup_lt_Some). rewrite list_lookup_insert_eq in Hr' by (by eapply lookup_lt_Some).
      injection Hg' as <-. injection Hr' as <-. assert (gj = g0) as -> by congruence. destruct Hrr as (H1 & H2 & H3). split_and!; [done|done|done|].
      intros Hro H0r. apply (Hnew r ev); [lia|done|by symmetry; apply H3|done|by apply Hread].
    + rewrite list_lookup_insert_ne in Hg' by done. rewrite list_lookup_insert_ne in Hr' by done. specialize (Hgr j gj g' r' Hj Hg' Hr'). destruct r' as [r'|]; [|done].
      destruct Hgr as (H1 & H2 & H3 & H4). split_and!; [done|done|done|]. intros Hro H0r.
      eapply (read_done_other i j gj g' (dr_scratch d)); [done|done|done| |by eexists|done|by apply H4].
      intros gi a b Hgi Ha Hab. assert (gi = g0) as -> by congruence. by apply Hother.
Qed.

Lemma take_completions_ok evs done out d : dinv done ((ev_sqe <$> evs) ++ out) d → Forall plausible evs → (reads_only → Forall (reads_content content) evs) →
  ∃ d', take_completions (ev_cqe <$> evs) d = Ok d' ∧ dinv (done ++ evs) out d'.
Proof.
  revert done d. induction evs as [|ev evs IH]; intros done d Hd Hp Hr; [exists d; by rewrite app_nil_r|].
  apply Forall_cons in Hp as [Hp1 Hp]. cbn [fmap list_fmap app] in *.
  destruct (completion_ok ev (ev_cqe <$> evs) done ((ev_sqe <$> evs) ++ out) d Hd Hp1) as (d1 & E & Hd1). { intros H. by apply Forall_inv in Hr. }
  destruct (IH (done ++ [ev]) d1 Hd1 Hp) as (d' & E' & Hd'). { intros H. by apply Forall_inv_tail in Hr. }
  exists d'. rewrite E. split; [done|]. by rewrite <-app_assoc in Hd'.
Qed.

Lemma dinv_perm done out out' d : out ≡ₚ out' → dinv done out d → dinv done out' d.
Proof. intros Hp [? ? ? Ho Hr Hpm ? ? ?]. split; try done; [by rewrite Ho|by rewrite Hr, Hp|by rewrite <-Hp]. Qed.

Lemma reads_only_entries : reads_only → Forall (λ e, sq_is_write e = false) entries.
Proof.
  intros Hro. apply Forall_lookup_2. intros i e He. unfold entries in He. rewrite list_lookup_imap in He. destruct (groups0 !! i) as [g|] eqn:Eg; [|done].
  injection He as <-. destruct g as [|op rest]; [done|]. unfold entry_of, sq_is_write. cbn.
  assert (Hop : op ∈ mjoin groups0) by (apply list_elem_of_join; exists (op :: rest); split; [apply elem_of_cons; by left|by eapply list_elem_of_lookup_2]).
  unfold reads_only in Hro. rewrite Forall_forall in Hro. specialize (Hro op Hop). by destruct (pd_kind op).
Qed.

Lemma dinv_start stats :
  dinv [] entries (Drained groups0 (replicate (length entries) None) scratch0 (Z.of_nat (length entries)) stats).
Proof.
  assert (Hl : length entries = length groups0) by (unfold entries; by rewrite length_imap).
  split; cbn [dr_results dr_groups dr_scratch dr_remaining]; try done.
  - by rewrite length_replicate.
  - by rewrite outstanding_none.
  - rewrite Hl. clear -groups0. induction groups0 as [|g gs IH]; [done|]. cbn [length replicate zip_with]. by rewrite mjoin_cons, <-IH.
  - intros i g0 g r Hg0 Hg Hr. apply lookup_replicate in Hr as [-> _]. cbn. congruence.
Qed.

Section Kernel.
Context {W : Type} (k : kernel W) (v : kernel_view W) (Hk : kernel_ok k v) (tr : list event).

(** The kernel between two calls of a drain; an interrupted call may leave
    completions to be taken later. *)
Definition drain_inv (signals : nat) (st : drained * W) : Prop :=
  ∃ done left, dinv done ((ev_sqe <$> left) ++ kv_queue v st.2) st.1 ∧ kv_ready v st.2 = ev_cqe <$> left ∧ kv_trace v st.2 = tr ++ (done ++ left) ∧
    Forall plausible left ∧ (reads_only → Forall (reads_content content) left) ∧
    (reads_only → kv_content v st.2 = content) ∧ (kv_signals v st.2 <= signals)%nat.
Definition drain_end (signals : nat) (a : result ioerr drained * Stats * W) : Prop :=
  let '(r, _, w) := a in
  (kv_signals v w <= signals)%nat ∧
  match r with
  | Ok d => ∃ done, dinv done [] d ∧ kv_queue v w = [] ∧ kv_ready v w = [] ∧ kv_trace v w = tr ++ done ∧ (reads_only → kv_content v w = content)
  | Err _ => ∃ done, kv_trace v w = tr ++ done ∧ (ev_sqe <$> done) ++ kv_queue v w ≡ₚ entries ∧ Forall plausible done
  end.

(** A call of [submit_and_wait] performs some of the queue. *)
Lemma enter_ok signals d w want r w' : drain_inv signals (d, w) → k_enter k want w = (r, w') →
  drain_inv signals (d, w') ∧ (kv_signals v w' <= kv_signals v w)%nat ∧
  match r with
  | Ok _ => want <= Z.of_nat (length (kv_ready v w')) ∨ (kv_signals v w' < kv_signals v w)%nat
  | Err error => is_interrupted error = true → (kv_signals v w' < kv_signals v w)%nat
  end.
Proof.
  intros (done & left & Hd & Hr & Ht & Hpl & Hrc & Hc & Hs) E. cbn [fst snd] in *.
  destruct (ko_enter k v Hk _ _ _ _ E) as (evs & Hq & Htr & Hrd & Hpl' & Hct & Hs' & Hres). split; [|done].
  assert (Hct' : reads_only → kv_content v w' = content ∧ Forall (reads_content content) evs).
  { intros Hro. rewrite (Hc Hro) in Hct. apply Hct. pose proof (reads_only_entries Hro) as He. destruct Hd as [_ _ _ _ _ Hp _ _ _].
    rewrite <-Hp in He. apply Forall_app in He as [_ He]. apply Forall_app in He as [_ He]. rewrite Hq in He.
    apply Forall_app in He as [He _]. by apply Forall_fmap in He. }
  exists done, (left ++ evs). cbn [fst snd]. split_and!.
  - eapply dinv_perm; [|exact Hd]. by rewrite fmap_app, <-app_assoc, Hq.
  - by rewrite Hrd, Hr, fmap_app.
  - by rewrite Htr, Ht, <-!app_assoc.
  - by apply Forall_app.
  - intros Hro. apply Forall_app. split; [by apply Hrc|by apply Hct'].
  - intros Hro. by apply Hct'.
  - lia.
Qed.

Lemma count_dinv done out d stats : dinv done out d → dinv done out (Drained (dr_groups d) (dr_results d) (dr_scratch d) (dr_remaining d) stats).
Proof. by intros [? ? ? ? ? ? ? ? ?]. Qed.
Lemma count_inv signals d w stats : drain_inv signals (d, w) →
  drain_inv signals (Drained (dr_groups d) (dr_results d) (dr_scratch d) (dr_remaining d) stats, w).
Proof. intros (done & left & Hd & H). exists done, left. split; [by apply count_dinv|done]. Qed.

Lemma drain_turn_ok signals st : drain_inv signals st → negb (dr_remaining st.1 =? 0) = true →
  turn_keeps (drain_inv signals) (λ st, Z.of_nat (kv_signals v st.2) + (if dr_remaining st.1 =? 0 then 0 else 1)) (drain_end signals) st (drain_turn k st).
Proof.
  destruct st as [d w]. intros Hinv Hrem. apply negb_true_iff in Hrem. cbn [fst snd] in *. unfold turn_keeps. cbn [fst snd]. rewrite Hrem.
  unfold drain_turn. apply (count_inv _ _ _ (count_enter (dr_stats d))) in Hinv. set (d1 := Drained _ _ _ _ _) in *.
  change (dr_remaining d) with (dr_remaining d1) in Hrem. clearbody d1. clear d.
  destruct (k_enter k (dr_remaining d1) w) as [r w1] eqn:E.
  destruct (enter_ok signals d1 w (dr_remaining d1) r w1 Hinv E) as (Hinv1 & Hsg & Hres). destruct r as [submitted|error].
  - apply (count_inv _ _ _ (count_submitted submitted (dr_stats d1))) in Hinv1. change (dr_remaining d1) with (dr_remaining
      (Drained (dr_groups d1) (dr_results d1) (dr_scratch d1) (dr_remaining d1) (count_submitted submitted (dr_stats d1)))) in Hrem, Hres.
    set (d2 := Drained _ _ _ _ _) in *. clearbody d2. clear Hinv d1 E. destruct Hinv1 as (done & left & Hd & Hr & Ht & Hpl & Hrc & Hc & Hs). cbn [fst snd] in *.
    destruct (ko_completions k v Hk w1) as (w2 & E2 & Hr2 & Hq2 & Ht2 & Hc2 & Hs2). rewrite E2, Hr.
    destruct (take_completions_ok left done (kv_queue v w1) d2 Hd Hpl Hrc) as (d3 & E3 & Hd3). rewrite E3. cbn [fst snd]. split.
    + exists (done ++ left), []. cbn [fst snd fmap list_fmap app]. rewrite Hq2, Ht2, Hc2, Hs2, app_nil_r. by split_and!.
    + rewrite Hs2. destruct Hres as [Hall|Hlt]; [|case_match; lia].
      rewrite (proj2 (Z.eqb_eq (dr_remaining d3) 0)); [lia|]. rewrite Hr, length_fmap in Hall. destruct Hd as [_ _ _ _ Hrm _ _ _ _].
      destruct Hd3 as [_ _ _ _ Hrm3 _ _ _ _]. rewrite length_app, length_fmap in Hrm. lia.
  - destruct (is_interrupted error) eqn:Ei; cbn [fst snd].
    + specialize (Hres eq_refl). split; [done|]. rewrite Hrem. lia.
    + destruct Hinv1 as (done & left & Hd & Hr & Ht & Hpl & _ & _ & Hs). cbn [fst snd] in *. split; [done|]. exists (done ++ left). split_and!; [done| |].
      * destruct Hd as [_ _ _ _ _ Hp _ _ _]. by rewrite fmap_app, <-app_assoc.
      * apply Forall_app. split; [by destruct Hd|done].
Qed.

Lemma drain_ok fuel d w : drain_inv (kv_signals v w) (d, w) → (kv_signals v w + 1 < fuel)%nat →
  ∃ a, drain k fuel d w = Done a ∧ drain_end (kv_signals v w) a.
Proof.
  intros Hinv Hfuel. unfold drain.
  eapply (run_ok _ _ _ (drain_inv (kv_signals v w)) (λ st, Z.of_nat (kv_signals v st.2) + (if dr_remaining st.1 =? 0 then 0 else 1)) (drain_end (kv_signals v w))).
  - intros st _. case_match; lia.
  - intros st Hi Hg. by apply drain_turn_ok.
  - intros [d' w'] (done & left & Hd & Hr & Ht & Hpl & Hrc & Hc & Hs) Hrem%negb_false_iff%Z.eqb_eq. cbn [fst snd] in *.
    assert (Hout : (ev_sqe <$> left) ++ kv_queue v w' = []) by (apply length_zero_iff_nil; destruct Hd as [_ _ _ _ Hrm _ _ _ _]; lia).
    rewrite Hout in Hd. apply app_eq_nil in Hout as [Hl%fmap_nil_inv Hq]. subst left. rewrite app_nil_r in Ht. split; [done|]. exists done. by split_and!.
  - exact Hinv.
  - cbn. case_match; lia.
Qed.
End Kernel.

(** ** The shares of the members *)

(** A completed operation: its result, and its buffer if it owns one. *)
Definition completed_op (scratch : bytes) (op0 op : Pending) : Prop :=
  op = set_result (set_owned op0 (pd_owned op)) (pd_result op) ∧ same_but_owned op0 (set_owned op0 (pd_owned op)) ∧
  pd_result op <= pd_len op0 ∧ (reads_only → pd_kind op0 = KRead → 0 <= pd_result op → read_done scratch op (pd_result op)).

Lemma share_step op0 op r n : same_but_owned op0 op → 0 <= n → 0 <= pd_len op0 →
  let op' := set_result op (if r <? 0 then r else n `min` pd_len op) in
  op' = set_result (set_owned op0 (pd_owned op')) (pd_result op') ∧ same_but_owned op0 (set_owned op0 (pd_owned op')) ∧ pd_result op' <= pd_len op0.
Proof.
  intros [E1 E2] Hn Hl. assert (El : pd_len op = pd_len op0) by (rewrite E1; done). rewrite El. cbn [set_result pd_owned pd_result].
  split_and!; [|by split|destruct (Z.ltb_spec r 0); lia]. destruct op0, op. unfold set_owned in E1. cbn in E1. injection E1 as -> -> -> -> -> -> -> ->. done.
Qed.

Lemma share_completed scratch g0 g r : group_wf g0 → Forall (op_wf scratch0) g0 → group_state scratch g0 g (Some r) →
  Forall2 (completed_op scratch) g0 (share r (0 `max` r) g).
Proof.
  intros Hg Hw (Hr & _ & Hs & Hread). assert (Hlen : Forall (λ op, 0 <= pd_len op) g0).
  { eapply Forall_impl; [exact Hw|]. intros op. unfold op_wf. destruct (pd_kind op); lia. }
  destruct (decide (Exists (λ op, pd_kind op = KRead) g0)) as [(op0 & Hop & Hk)%Exists_exists|Hnone].
  - pose proof (read_alone g0 op0 Hg Hop Hk) as ->. inversion Hs as [|? op ? ? H1 H2]; subst. inversion H2; subst. cbn [share]. constructor; [|constructor].
    apply Forall_inv in Hlen. destruct (share_step op0 op r (0 `max` r) H1) as (E1 & E2 & E3); [lia|done|]. split_and!; [done|done|done|].
    intros Hro _ H0. cbn [set_result pd_result] in *. assert (El : pd_len op = pd_len op0) by (destruct H1 as [-> _]; done).
    destruct (Z.ltb_spec r 0); [lia|]. cbn [sum_len foldr] in Hr. replace ((0 `max` r) `min` pd_len op) with r in * by lia.
    specialize (Hread Hro ltac:(lia)). apply Forall_inv in Hread. apply Hread. destruct H1 as [-> _]. done.
  - assert (Hnr : Forall (λ op, pd_kind op ≠ KRead) g0) by (apply Forall_forall; intros op Hop Hk; apply Hnone, Exists_exists; eauto).
    assert (Hn : 0 <= 0 `max` r) by lia. revert Hn. generalize (0 `max` r) as n. clear Hg Hw Hr Hread Hnone.
    induction Hs as [|op0 op g0 g H1 Hs IH]; intros n Hn; [constructor|]. apply Forall_cons in Hlen as [Hl Hlen]. apply Forall_cons in Hnr as [Hk Hnr].
    assert (El : pd_len op = pd_len op0) by (destruct H1 as [-> _]; done).
    cbn [share]. constructor; [|apply IH; [done|done|lia]]. destruct (share_step op0 op r n H1) as (E1 & E2 & E3); [done|done|]. by split_and!.
Qed.

Lemma share_same_cells g0 g r n : Forall2 same_but_owned g0 g →
  (λ op, op_cells scratch0 op (0 `max` pd_result op)) <$> share r n g = (λ op, op_cells scratch0 op (0 `max` pd_result op)) <$> share r n g0.
Proof.
  intros Hs. revert n. induction Hs as [|op0 op g0 g [H1 _] Hs IH]; intros n; [done|]. cbn [share fmap list_fmap].
  assert (El : pd_len op = pd_len op0) by (rewrite H1; done). rewrite El, IH. f_equal. rewrite H1. done.
Qed.

Definition shared (g : list Pending) (r : option Z) : list Pending := share (default 0 r) (0 `max` default 0 r) g.
Lemma share_all_spec gs rs : length gs = length rs → Forall (λ r, is_Some r) rs → share_all gs rs = Some (mjoin (zip_with shared gs rs)).
Proof.
  intros Hl Hs. unfold share_all. assert (E : mapM (λ gr : list Pending * option Z, r ← gr.2; Some (share r (0 `max` r) gr.1)) (zip gs rs) = Some (zip_with shared gs rs)).
  { revert gs Hl. induction Hs as [|r rs [x ->] Hs IH]; intros [|g gs]; try done. intros [= Hl]. cbn [zip_with mapM]. cbn. rewrite (IH gs Hl). done. }
  by rewrite E.
Qed.

Lemma join_groups (P : Pending → Pending → Prop) (f : Pending → list (file * Z * Byte.byte)) gs0 gs rs :
  length gs = length gs0 → length rs = length gs0 →
  (∀ i g0 g r, gs0 !! i = Some g0 → gs !! i = Some g → rs !! i = Some r → Forall2 P g0 (shared g r) ∧ f <$> shared g r = f <$> shared g0 r) →
  Forall2 P (mjoin gs0) (mjoin (zip_with shared gs rs)) ∧
  mjoin (f <$> mjoin (zip_with shared gs rs)) = mjoin (zip_with (λ g r, mjoin (f <$> shared g r)) gs0 rs).
Proof.
  revert gs rs. induction gs0 as [|g0 gs0 IH]; intros [|g gs] [|r rs]; try done. intros [= Hg] [= Hr] H.
  destruct (IH gs rs Hg Hr (λ i, H (S i))) as [IH1 IH2]. destruct (H 0%nat g0 g r eq_refl eq_refl eq_refl) as [H1 H2].
  cbn [zip_with]. rewrite !mjoin_cons, fmap_app, join_app, IH2, H2. split; [by apply Forall2_app|done].
Qed.

Lemma completed_groups d done : dinv done [] d →
  share_all (dr_groups d) (dr_results d) = Some (mjoin (zip_with shared (dr_groups d) (dr_results d))) ∧
  Forall2 (completed_op (dr_scratch d)) (mjoin groups0) (mjoin (zip_with shared (dr_groups d) (dr_results d))) ∧
  written done ≡ₚ mjoin ((λ op, op_cells scratch0 op (0 `max` pd_result op)) <$> mjoin (zip_with shared (dr_groups d) (dr_results d))).
Proof.
  intros [Hrl Hgl _ Hout _ _ _ Hwr Hgr]. apply Permutation_nil_r in Hout. apply outstanding_all in Hout; [|by unfold entries; rewrite length_imap].
  split; [apply share_all_spec; [congruence|done]|].
  destruct (join_groups (completed_op (dr_scratch d)) (λ op, op_cells scratch0 op (0 `max` pd_result op)) groups0 (dr_groups d) (dr_results d)) as [H1 H2];
    [done|done| |split; [done|]].
  - intros i g0 g r Hg0 Hg Hr. rewrite Forall_lookup in Hout. destruct (Hout i r Hr) as [x ->]. specialize (Hgr i g0 g (Some x) Hg0 Hg Hr).
    destruct (group_facts i g0 Hg0) as (_ & _ & Hgw & Hw & _). split; [by apply share_completed|]. destruct Hgr as (_ & _ & Hs & _). by apply share_same_cells.
  - rewrite H2, Hwr. apply reflexive_eq. clear -Hout. f_equal. revert Hout. generalize (dr_results d) as rs. clear d.
    induction groups0 as [|g gs IH]; intros [|r rs] Hs; try done. apply Forall_cons in Hs as [[x ->] Hs]. cbn [zip_with]. by rewrite (IH rs Hs).
Qed.

Lemma head_join {A} (gs : list (list A)) g x : gs !! 0%nat = Some (x :: g) → head (mjoin gs) = Some x.
Proof. destruct gs; [done|]. by intros [= ->]. Qed.

(** The first write makes progress or fails. *)
Lemma first_progress d done : dinv done [] d →
  if head (mjoin groups0) is Some op then
    pd_kind op = KWrite → if head (mjoin (zip_with shared (dr_groups d) (dr_results d))) is Some op then pd_result op ≠ 0 else True
  else True.
Proof.
  intros [Hrl Hgl _ Hout _ _ _ _ Hgr]. apply Permutation_nil_r in Hout. apply outstanding_all in Hout; [|by unfold entries; rewrite length_imap].
  destruct (groups0 !! 0%nat) as [g0|] eqn:Hg0; [|apply lookup_ge_None_1, Nat.le_0_r, nil_length_inv in Hg0; by rewrite Hg0].
  destruct (group_facts 0 g0 Hg0) as (_ & _ & Hgw & Hw & _). destruct g0 as [|op0 rest]; [done|]. rewrite (head_join _ _ _ Hg0). intros Hk0.
  assert (Hlt := lookup_lt_Some _ _ _ Hg0). destruct (lookup_lt_is_Some_2 (dr_groups d) 0) as [g Eg]; [lia|].
  destruct (lookup_lt_is_Some_2 (dr_results d) 0) as [r Er]; [lia|]. rewrite Forall_lookup in Hout. destruct (Hout _ _ Er) as [x ->].
  destruct (Hgr 0%nat _ g (Some x) Hg0 Eg Er) as (_ & Hz & Hs & _). cbn [head] in Hz.
  inversion Hs as [|? op ? ? [E _] _]; subst g.
  erewrite head_join by (rewrite lookup_zip_with, Eg, Er; reflexivity). cbn [set_result pd_result from_option id]. unfold id.
  apply Forall_inv in Hw. unfold op_wf in Hw. rewrite Hk0 in Hw. destruct Hw as (Hw & _). assert (El : pd_len op = pd_len op0) by (rewrite E; done).
  destruct (Z.eq_dec x 0) as [->|]; [by specialize (Hz eq_refl)|]. destruct (Z.ltb_spec x 0); lia.
Qed.

(** After an error: what was written is a part of what was asked for. *)
Lemma entries_full : mjoin (sqe_cells <$> entries) = mjoin ((λ op, op_cells scratch0 op (pd_len op)) <$> mjoin groups0).
Proof.
  assert (H : sqe_cells <$> entries = (λ g, mjoin ((λ op, op_cells scratch0 op (pd_len op)) <$> g)) <$> groups0).
  { apply list_eq. intros i. unfold entries. rewrite !list_lookup_fmap, list_lookup_imap. destruct (groups0 !! i) as [g|] eqn:Eg; [|done]. cbn. f_equal.
    destruct (group_facts i g Eg) as (Ht & Hz & Hg & Hw & _). by apply (entry_full scratch0 g (gstart i)). }
  rewrite H. clear. induction groups0 as [|g gs IH]; [done|]. cbn [fmap list_fmap]. by rewrite !mjoin_cons, fmap_app, join_app, <-IH.
Qed.
Lemma error_part done queue : (ev_sqe <$> done) ++ queue ≡ₚ entries →
  ∃ rest, written done ++ rest ≡ₚ mjoin ((λ op, op_cells scratch0 op (pd_len op)) <$> mjoin groups0).
Proof.
  intros Hp. destruct (written_part done) as [r Hr]. exists (r ++ mjoin (sqe_cells <$> queue)).
  rewrite app_assoc, Hr, <-join_app, <-fmap_app, <-entries_full. by rewrite Hp.
Qed.
End Drain.

(** ** The wave *)

Section Wave.
Context {W : Type} (k : kernel W) (v : kernel_view W) (Hk : kernel_ok k v).

Lemma push_all_ok es w : Z.of_nat (length (kv_queue v w) + length es) <= kv_capacity v →
  ∃ w', push_all k es w = (Ok (), w') ∧ kv_queue v w' = kv_queue v w ++ es ∧ kv_ready v w' = kv_ready v w ∧ kv_trace v w' = kv_trace v w ∧
    kv_content v w' = kv_content v w ∧ kv_signals v w' = kv_signals v w.
Proof.
  revert w. induction es as [|e es IH]; intros w Hc; cbn [push_all length] in *; [exists w; by rewrite app_nil_r|].
  destruct (ko_push k v Hk e w) as (w1 & E & Hq & Hr & Ht & Hct & Hs); [lia|]. rewrite E.
  destruct (IH w1) as (w2 & E2 & Hq2 & Hr2 & Ht2 & Hct2 & Hs2); [rewrite Hq, length_app; cbn; lia|].
  exists w2. rewrite Hq2, Hr2, Ht2, Hct2, Hs2, Hq, Hr, Ht, Hct, Hs, <-app_assoc. by split_and!.
Qed.

Definition idle (w : W) : Prop := kv_queue v w = [] ∧ kv_ready v w = [].

(** What a wave over [ops] leaves. *)
Definition wave_end (ops : list Pending) (e : Engine) (w : W) (a : result ioerr (list Pending) * Engine * W) : Prop :=
  let '(r, e', w') := a in
  en_options e' = en_options e ∧ nowait_supported e' = nowait_supported e ∧ (kv_signals v w' <= kv_signals v w)%nat ∧
  ∃ evs, kv_trace v w' = kv_trace v w ++ evs ∧
  match r with
  | Ok completed =>
      en_ring e' = true ∧ idle w' ∧ length (en_scratch e') = length (en_scratch e) ∧
      written evs ≡ₚ mjoin ((λ op, op_cells (en_scratch e) op (0 `max` pd_result op)) <$> completed) ∧
      Forall2 (completed_op (groups_of ops) (kv_content v w) (en_scratch e')) ops completed ∧
      (if head ops is Some op then pd_kind op = KWrite → if head completed is Some op then pd_result op ≠ 0 else True else True) ∧
      (Forall (λ op, pd_kind op ≠ KWrite) ops → kv_content v w' = kv_content v w)
  | Err _ =>
      en_ring e' = false ∧ ∃ rest, written evs ++ rest ≡ₚ mjoin ((λ op, op_cells (en_scratch e) op (pd_len op)) <$> ops)
  end.

Lemma wave_ok fuel ops e w : en_ring e = true → tiled 0 ops → Forall (op_wf (en_scratch e)) ops → Z.of_nat (length ops) <= kv_capacity v → idle w →
  (kv_signals v w + 1 < fuel)%nat → ∃ a, wave k fuel ops e w = Done a ∧ wave_end ops e w a.
Proof.
  intros Hring Ht Hw Hcap [Hq Hr] Hfuel. destruct (groups_of_spec ops) as [Hj Hg]. pose proof (groups_count _ Hg) as Hcount. rewrite Hj in Hcount.
  unfold wave. rewrite Hring. cbn [negb]. set (e1 := with_stats e _). set (entries := imap (entry_of (en_scratch e)) (groups_of ops)).
  rewrite <-Hj in Ht, Hw.
  destruct (push_all_ok entries w) as (w1 & E & Hq1 & Hr1 & Ht1 & Hc1 & Hs1). { unfold entries. rewrite Hq, length_imap. cbn. lia. }
  rewrite E. rewrite Hq in Hq1. cbn [app] in Hq1. set (d0 := Drained _ _ _ _ _).
  destruct (drain_ok (en_scratch e) (groups_of ops) (kv_content v w) Hg Ht Hw k v Hk (kv_trace v w) fuel d0 w1) as ([[r stats] w2] & E2 & Hs2 & Hend).
  { exists [], []. cbn [fst snd fmap list_fmap app]. rewrite Hq1, Hr1, Ht1, app_nil_r, Hc1, Hr. split_and!; try done. by apply dinv_start. }
  { rewrite Hs1. done. }
  rewrite E2. cbn [mbind outcome_bind]. destruct r as [d|error].
  - destruct Hend as (done & Hd & Hq2 & Hr2 & Htr & Hc2).
    destruct (completed_groups (en_scratch e) (groups_of ops) (kv_content v w) Hg Ht Hw d done Hd) as (Esh & Hall & Hwr).
    rewrite Esh. cbn [or_panic mbind outcome_bind]. eexists. split; [reflexivity|]. cbn [wave_end].
    split_and!; [done|done|by rewrite <-Hs1|]. exists done. split_and!; [done|done|done|by destruct Hd|done|by rewrite Hj in Hall| |].
    + pose proof (first_progress _ _ _ Hg Ht Hw d done Hd) as Hf. by rewrite Hj in Hf.
    + intros Hro. apply Hc2. by rewrite Hj.
  - destruct Hend as (done & Htr & Hp & _). eexists. split; [reflexivity|]. split_and!; [done|done|by rewrite <-Hs1|]. exists done. split_and!; [done|done|].
    destruct (error_part (en_scratch e) (groups_of ops) Hg Ht Hw done _ Hp) as [rest Hrest]. exists rest. by rewrite Hj in Hrest.
Qed.
End Wave.
End WaveLemmas.
