(* ===== verification/UringCall.v ===== *)
(** * The io_uring engine: a call

    The loop over waves: planning keeps every operation inside its buffer and the
    wave inside its bounds, completion moves each job by what its operation
    counted, and every turn finishes a job or advances one.  The theorems on
    whole calls are at the end. *)
From stdpp Require Import base numbers list sorting.
From S2P Require Import Prelude Errors Loops Uring UringSpec UringWave.

Module CallLemmas.
Import UringLemmas WaveLemmas.

Definition job_len (j : Job) : Z := (kind_length (jb_buffer j)).2.
Definition job_kind (j : Job) : Kind := (kind_length (jb_buffer j)).1.
Definition no_error (s : slot) : Prop := sl_error s = None.

Section Call.
(** The files as they are when no job writes. *)
Context (reads : Prop) (content : file → bytes).

(** Bytes of a file, at the beginning of a buffer. *)
Definition holds (j : Job) (p : Z) (b : bytes) : Prop :=
  reads → take (Z.to_nat p) b `prefix_of` drop (Z.to_nat (jb_offset j)) (content (jb_file j)).

(** How far a job has come; a buffer handed to the kernel is lost after an error. *)
Definition slot_inv (j : Job) (s : slot) : Prop :=
  jb_file (sl_job s) = jb_file j ∧ jb_offset (sl_job s) = jb_offset j ∧ 0 <= sl_progress s <= job_len j ∧
  match jb_buffer j, jb_buffer (sl_job s) with
  | BWrite d, BWrite d' => d' = d ∧ (sl_done s = true → sl_error s = None → sl_progress s = job_len j)
  | BSync a, BSync b => a = b
  | BRead b0, BRead b => length b = length b0 ∧ drop (Z.to_nat (sl_progress s)) b = drop (Z.to_nat (sl_progress s)) b0 ∧ holds j (sl_progress s) b
  | BOwnedRead b0, BOwnedRead b => sl_error s = None → length b = length b0 ∧ holds j (sl_progress s) b
  | _, _ => False
  end.

(** A slot with its operation in the wave. *)
Record planned_inv (index : nat) (j : Job) (s : slot) (op : Pending) : Prop := {
  pi_file : jb_file (sl_job s) = jb_file j ∧ pd_file op = jb_file j;
  pi_offset : jb_offset (sl_job s) = jb_offset j ∧ pd_offset op = jb_offset j + sl_progress s;
  pi_progress : 0 <= sl_progress s;
  pi_len : 0 <= pd_len op <= U32_MAX ∧ sl_progress s + pd_len op <= job_len j ∧ (is_sync (job_kind j) = false → 0 < pd_len op);
  pi_kind : pd_kind op = job_kind j;
  pi_job : pd_job op = index;
  pi_done : sl_done s = false ∧ sl_error s = None;
  pi_owned : pd_owned_start op = sl_progress s;
  pi_buffer :
    match jb_buffer j, jb_buffer (sl_job s), pd_owned op with
    | BWrite d, BWrite d', None => d' = d
    | BSync a, BSync b, None => a = b
    | BRead b0, BRead b, None =>
        length b = length b0 ∧ drop (Z.to_nat (sl_progress s)) b = drop (Z.to_nat (sl_progress s)) b0 ∧ holds j (sl_progress s) b
    | BOwnedRead b0, BOwnedRead [], Some b => length b = length b0 ∧ holds j (sl_progress s) b
    | _, _, _ => False
    end;
}.

(** The slots of a call, from the one at [index] on, with the wave planned. *)
Inductive planned : nat → list Job → list slot → list Pending → Prop :=
| planned_nil index : planned index [] [] []
| planned_skip index j js s ss ops : slot_inv j s → planned (S index) js ss ops → planned index (j :: js) (s :: ss) ops
| planned_op index j js s ss op ops :
    planned_inv index j s op → planned (S index) js ss ops → planned index (j :: js) (s :: ss) (op :: ops).

Lemma planned_none index js ss : Forall2 slot_inv js ss → planned index js ss [].
Proof. intros H. revert index. induction H; intros index; by constructor. Qed.

(** ** Planning *)

Section Plan.
Context (o : Options) (Ho : 0 < queue_depth o ∧ 0 < max_batch_bytes o).

(** What planning from [slots] gives. *)
Record plan_spec (js : list Job) (slots : list slot) (index n : nat) (budget : Z) (failed : bool) (r : list slot * list Pending * bool) : Prop := {
  ps_planned : planned index js r.1.1 r.1.2;
  ps_tiled : tiled (max_batch_bytes o - budget) r.1.2;
  ps_bytes : sum_len r.1.2 <= budget;
  ps_depth : Z.of_nat (n + length r.1.2) <= queue_depth o;
  ps_failed : r.2 = false → failed = false ∧ Forall2 (λ s s', sl_error s = None → sl_error s' = None) slots r.1.1;
  ps_kept : Forall2 (λ s s', sl_progress s' = sl_progress s ∧ (sl_done s = true → s' = s)) slots r.1.1;
  ps_error : r.2 = true → failed = true ∨ ¬ Forall no_error r.1.1;
  ps_none : r.1.2 = [] → Z.of_nat n < queue_depth o → 0 < budget → Forall (λ s, sl_done s = true) r.1.1;
}.

Lemma plan_stop js slots index n budget failed : Forall2 slot_inv js slots → Z.of_nat n <= queue_depth o → 0 <= budget →
  (Z.of_nat n = queue_depth o ∨ budget = 0) → plan_spec js slots index n budget failed (slots, [], failed).
Proof.
  intros Hs Hn Hb Hstop. split; cbn [fst snd sum_len foldr length]; [by apply planned_none|done|done|lia| | |by left|intros; lia].
  - intros ->. split; [done|]. apply Forall_Forall2_diag, Forall_true. done.
  - apply Forall_Forall2_diag, Forall_true. done.
Qed.

(** A slot passed over: done before, or finished by the planning. *)
Lemma plan_skip j js s s' slots index n budget failed failed1 r : slot_inv j s' → sl_progress s' = sl_progress s → (sl_done s = true → s' = s) →
  sl_done s' = true → (failed1 = false → failed = false ∧ (sl_error s = None → sl_error s' = None)) →
  (failed1 = true → failed = true ∨ ¬ no_error s') → plan_spec js slots (S index) n budget failed1 r →
  plan_spec (j :: js) (s :: slots) index n budget failed (let '(slots, ops, failed) := r in (s' :: slots, ops, failed)).
Proof.
  destruct r as [[slots' ops] failed']. intros Hj Hp Hd Hd' Hf Hf' [P1 P2 P3 P4 P5 P6 P8 P7]. cbn [fst snd] in *. split; cbn [fst snd]; try done.
  - by constructor.
  - intros ->. destruct (P5 eq_refl) as [H1 H2]. destruct (Hf H1) as [-> H3]. split; [done|by constructor].
  - by constructor.
  - intros E. rewrite Forall_cons. destruct (P8 E) as [E1|E1]; [|tauto]. destruct (Hf' E1); tauto.
  - intros. constructor; [done|by apply P7].
Qed.

Lemma plan_push j js s s' slots index n budget failed op r : planned_inv index j s' op → sl_progress s' = sl_progress s → sl_done s = false → sl_error s = None →
  pd_start op = max_batch_bytes o - budget → pd_len op <= budget → Z.of_nat n < queue_depth o →
  plan_spec js slots (S index) (S n) (budget - pd_len op) failed r →
  plan_spec (j :: js) (s :: slots) index n budget failed (let '(slots, ops, failed) := r in (s' :: slots, op :: ops, failed)).
Proof.
  destruct r as [[slots' ops] failed']. intros Hj Hp Hd He Hst Hl Hn [P1 P2 P3 P4 P5 P6 P8 P7]. cbn [fst snd] in *. split; cbn [fst snd]; try done.
  - by constructor.
  - cbn [tiled]. split_and!; try done; [apply (pi_len _ _ _ _ Hj)..|]. by replace (pd_end op) with (max_batch_bytes o - (budget - pd_len op)) by (unfold pd_len in *; lia).
  - cbn [sum_len foldr]. fold (sum_len ops). lia.
  - cbn [length]. lia.
  - intros ->. destruct (P5 eq_refl) as [-> H2]. split; [done|]. constructor; [|done]. intros _. by destruct (pi_done _ _ _ _ Hj).
  - constructor; [|done]. split; [done|]. congruence.
  - intros E. rewrite Forall_cons. destruct (P8 E); tauto.
Qed.

Lemma plan_ok slots : ∀ js index n budget failed, Forall2 slot_inv js slots → Forall (λ s, sl_done s = false → sl_error s = None) slots →
  Z.of_nat n <= queue_depth o → 0 <= budget <= max_batch_bytes o → plan_spec js slots index n budget failed (plan o slots index n budget failed).
Proof.
  induction slots as [|s slots IH]; intros js index n budget failed Hs He Hn Hb; inversion Hs as [|j ? js' ? Hj Hjs]; subst.
  { cbn [plan]. split; cbn; try done; try lia; try (by left); constructor. }
  apply Forall_cons in He as [He1 He]. cbn [plan]. destruct (sl_done s) eqn:Hd.
  { eapply (plan_skip _ _ s s _ _ _ _ _ failed); [done|done|done|done|done|by left|by apply IH]. }
  specialize (He1 eq_refl). destruct (Z.eqb_spec (Z.of_nat n) (queue_depth o)) as [E|Hne]; [by apply plan_stop; [|lia|lia|left]|].
  destruct (kind_length (jb_buffer (sl_job s))) as [kind len] eqn:Ekl.
  assert (Hkl : kind = job_kind j ∧ len = job_len j).
  { destruct Hj as (_ & _ & _ & Hj). unfold job_kind, job_len. destruct (jb_buffer j), (jb_buffer (sl_job s)); try done; cbn in Ekl |- *; injection Ekl as <- <-.
    - destruct Hj as [-> _]. done.
    - specialize (Hj He1). destruct Hj as [-> _]. done.
    - destruct Hj as [-> _]. done.
    - by rewrite Hj. }
  destruct Hkl as [-> ->]. pose proof Hj as (Hf & Hoff & Hp & Hbuf).
  destruct ((job_len j =? sl_progress s) && negb (is_sync (job_kind j))) eqn:Efull.
  { apply andb_true_iff in Efull as [Efull%Z.eqb_eq _].
    eapply (plan_skip _ _ s (set_done s true) _ _ _ _ _ failed); [|done|congruence|done|done|by left|by apply IH].
    split_and!; [done|done|cbn; lia|cbn; lia|]. cbn [set_done sl_job sl_progress sl_done sl_error]. destruct (jb_buffer j), (jb_buffer (sl_job s)); try done.
    destruct Hbuf as [-> _]. split; [done|]. intros. lia. }
  destruct ((budget =? 0) && negb (job_len j =? 0)) eqn:Ebud.
  { apply andb_true_iff in Ebud as [Ebud%Z.eqb_eq _]. apply plan_stop; [done|lia|lia|by right]. }
  destruct (checked_add (jb_offset (sl_job s)) (sl_progress s)) as [offset|] eqn:Eoff.
  2: { eapply (plan_skip _ _ s (fail_slot s EOVERFLOW) _ _ _ _ _ true); [|done|congruence|done|done|by right|by apply IH].
       split_and!; [done|done|cbn; lia|cbn; lia|]. cbn [fail_slot sl_job sl_progress sl_done sl_error]. destruct (jb_buffer j), (jb_buffer (sl_job s)); try done.
       destruct Hbuf as [-> _]. done. }
  assert (Hoffset : offset = jb_offset j + sl_progress s) by (unfold checked_add in Eoff; case_match; [|done]; injection Eoff as <-; lia).
  set (count := ((job_len j - sl_progress s) `min` budget) `min` U32_MAX).
  assert (Hc : 0 <= count <= U32_MAX ∧ sl_progress s + count <= job_len j ∧ count <= budget ∧ (is_sync (job_kind j) = false → 0 < count)).
  { unfold count, U32_MAX in *. split_and!; try lia. intros Hsync. rewrite Hsync, andb_true_r in Efull. apply Z.eqb_neq in Efull.
    apply andb_false_iff in Ebud as [Ebud%Z.eqb_neq|Ebud%negb_false_iff%Z.eqb_eq]; lia. }
  destruct Hc as (Hc1 & Hc2 & Hc3 & Hc4).
  destruct (match jb_buffer (sl_job s) with BOwnedRead b => (set_buffer s (BOwnedRead []), Some b) | _ => (s, None) end) as [s' owned] eqn:Es'.
  assert (Hs' : sl_progress s' = sl_progress s ∧ sl_done s' = false ∧ sl_error s' = None ∧ jb_file (sl_job s') = jb_file j ∧ jb_offset (sl_job s') = jb_offset j).
  { destruct (jb_buffer (sl_job s)); injection Es' as <- <-; done. }
  destruct Hs' as (Hp' & Hd' & He' & Hf' & Ho').
  set (op := MakePending _ _ _ _ _ _ _ _ _). assert (Hlen : pd_len op = count) by (unfold op, pd_len; cbn; lia).
  rewrite <-Hlen at 1. apply plan_push; [|done|done|done|done|lia|lia|rewrite Hlen; apply IH; (done || lia)].
  split; cbn [op pd_file pd_offset pd_kind pd_job pd_owned_start]; rewrite ?Hlen, ?Hp'; try done; try lia.
  destruct (jb_buffer j) eqn:Ej, (jb_buffer (sl_job s)) eqn:Es; try done; injection Es' as <- <-; rewrite ?Es; cbn [set_buffer set_job sl_job jb_buffer op pd_owned];
    first [done|by apply Hbuf|by destruct Hbuf as [-> _]].
Qed.
End Plan.

(** ** The arena *)

Lemma scratch_need_le ops op : op ∈ ops → pd_owned op = None → pd_end op <= scratch_need ops.
Proof.
  induction ops as [|x ops IH]; [by intros ?%not_elem_of_nil|]. intros [->|Hin]%elem_of_cons Ho; cbn [scratch_need foldr]; fold (scratch_need ops).
  - rewrite Ho. lia.
  - specialize (IH Hin Ho). destruct (pd_owned x); lia.
Qed.

Lemma grow_scratch_ok ops e : scratch_need ops <= Z.of_nat (length (en_scratch (grow_scratch ops e))) ∧ en_ring (grow_scratch ops e) = en_ring e ∧
  en_options (grow_scratch ops e) = en_options e ∧ nowait_supported (grow_scratch ops e) = nowait_supported e.
Proof.
  unfold grow_scratch. destruct (Z.ltb_spec (Z.of_nat (length (en_scratch e))) (scratch_need ops)); [|by split_and!].
  cbn. rewrite length_app, length_replicate. split_and!; try done. lia.
Qed.

Lemma planned_wf index js ss ops scratch : planned index js ss ops → (∀ op, op ∈ ops → pd_owned op = None → pd_end op <= Z.of_nat (length scratch)) →
  Forall (op_wf scratch) ops.
Proof.
  intros H. induction H as [|index j js s ss ops Hs H IH|index j js s ss op ops [Hf Ho Hp (Hl1 & Hl2 & Hl3) Hk Hj Hd How Hb] H IH]; intros Hend; [by apply Forall_nil|by apply IH|].
  constructor; [|apply IH; intros; apply Hend; [by apply elem_of_cons; right|done]].
  specialize (Hend op ltac:(apply elem_of_cons; by left)). unfold op_wf. rewrite Hk. unfold job_kind, job_len in *.
  destruct (jb_buffer j), (jb_buffer (sl_job s)), (pd_owned op) as [b|]; try done; cbn in *; try (by case_match).
  - split; [by apply Hl3|by apply Hend].
  - case_match; [|done]. destruct Hb as [Hb _]. split; [by apply Hl3|]. rewrite Hb. lia.
  - split_and!; [by apply Hl3|done|by apply Hend].
  - split; [lia|done].
Qed.

Lemma load_writes_ok slots ops at_ scratch : tiled at_ ops → 0 <= at_ →
  (∀ op s d, op ∈ ops → slots !! pd_job op = Some s → jb_buffer (sl_job s) = BWrite d →
     pd_end op <= Z.of_nat (length scratch) ∧ 0 <= sl_progress s ∧ sl_progress s + pd_len op <= Z.of_nat (length d)) →
  length (load_writes ops slots scratch) = length scratch ∧
  (∀ a b, 0 <= a → b <= at_ → range a b (load_writes ops slots scratch) = range a b scratch) ∧
  (∀ op s d, op ∈ ops → slots !! pd_job op = Some s → jb_buffer (sl_job s) = BWrite d →
     range (pd_start op) (pd_end op) (load_writes ops slots scratch) = range (sl_progress s) (sl_progress s + pd_len op) d).
Proof.
  revert at_ scratch. induction ops as [|op ops IH]; intros at_ scratch Ht Hat Hin. { split_and!; try done. by intros ? ? ? ?%not_elem_of_nil. }
  destruct Ht as (Hst & Hl & Ht). cbn [load_writes foldl]. set (scratch1 := match slots !! pd_job op with Some _ => _ | None => _ end).
  fold (load_writes ops slots scratch1). assert (Hend : pd_end op = at_ + pd_len op) by (unfold pd_len; lia).
  assert (H1 : length scratch1 = length scratch ∧ (∀ a b, 0 <= a → b <= at_ → range a b scratch1 = range a b scratch) ∧
    (∀ s d, slots !! pd_job op = Some s → jb_buffer (sl_job s) = BWrite d → range (pd_start op) (pd_end op) scratch1 = range (sl_progress s) (sl_progress s + pd_len op) d)).
  { subst scratch1. destruct (slots !! pd_job op) as [[[f off buf] p dn er]|] eqn:Es; [|by split_and!]. destruct buf as [| |d|]; try (split_and!; [done|done|by intros ? ? [= <-]]).
    destruct (Hin op _ d ltac:(apply elem_of_cons; by left) Es eq_refl) as (B1 & B2 & B3). cbn [sl_progress] in *.
    assert (Hrl : Z.of_nat (length (range p (p + pd_len op) d)) = pd_len op) by (rewrite range_length; lia).
    split_and!; [rewrite overwrite_length; lia|intros; apply overwrite_other; lia|].
    intros s d' [= <-] [= <-]. cbn [sl_progress]. replace (pd_end op) with (pd_start op + pd_len op) by lia. rewrite overwrite_range by lia.
    apply take_ge. lia. }
  destruct H1 as (L1 & O1 & R1). destruct (IH (pd_end op) scratch1 Ht) as (L2 & O2 & R2); [lia| |].
  { intros op' s d Hop. rewrite L1. apply Hin. apply elem_of_cons. by right. }
  split_and!; [by rewrite L2|intros; rewrite O2, O1 by lia; done|].
  intros op' s d [->|Hop]%elem_of_cons Hs Hd; [|by apply R2]. rewrite O2 by lia. by apply R1.
Qed.

Lemma fresh_slot j : slot_inv j (Slot j 0 false None).
Proof.
  unfold slot_inv. cbn [sl_job sl_progress sl_done sl_error]. assert (Hl : 0 <= job_len j) by (unfold job_len; destruct (jb_buffer j); cbn; lia).
  split; [done|split; [done|split; [lia|]]]. destruct (jb_buffer j); try intros _; try done; split_and!; try done; intros ?; apply prefix_nil.
Qed.

(** ** Completion *)

(** The work left of a job. *)
Definition left (j : Job) (s : slot) : Z := if sl_done s then 0 else 1 + (job_len j - sl_progress s).

Lemma take_range_join p r (d : bytes) : 0 <= p → 0 <= r → take (Z.to_nat (p + r)) d = take (Z.to_nat p) d ++ range p (p + r) d.
Proof.
  intros. unfold range, slice. rewrite <-(take_drop (Z.to_nat p) (take (Z.to_nat (p + r)) d)) at 1. f_equal. rewrite take_take. f_equal. lia.
Qed.
Lemma prefix_join (x y l : bytes) : x `prefix_of` l → y `prefix_of` drop (length x) l → x ++ y `prefix_of` l.
Proof. intros [k ->] Hy. rewrite drop_app_length in Hy. by apply prefix_app. Qed.

Lemma holds_more j p r b more : 0 <= p → 0 <= jb_offset j → holds j p b → (Z.to_nat p <= length b)%nat →
  (reads → more `prefix_of` drop (Z.to_nat (jb_offset j + p)) (content (jb_file j))) → take (Z.to_nat (p + r)) b = take (Z.to_nat p) b ++ more → holds j (p + r) b.
Proof.
  intros Hp Ho Hh Hl Hm Ht Hr. rewrite Ht. apply prefix_join; [by apply Hh|]. rewrite length_take, drop_drop.
  replace (Z.to_nat (jb_offset j) + Z.to_nat p `min` length b)%nat with (Z.to_nat (jb_offset j + p)) by lia. by apply Hm.
Qed.

Lemma holds_take j p b b' : take (Z.to_nat p) b' = take (Z.to_nat p) b → holds j p b → holds j p b'.
Proof. intros E H Hr. rewrite E. by apply H. Qed.

(** The bytes of a read arrive in a borrowed buffer. *)
Lemma read_into j p b0 b data : 0 <= p → 0 <= jb_offset j → p + Z.of_nat (length data) <= Z.of_nat (length b) → length b = length b0 →
  drop (Z.to_nat p) b = drop (Z.to_nat p) b0 → holds j p b → (reads → data `prefix_of` drop (Z.to_nat (jb_offset j + p)) (content (jb_file j))) →
  let b' := overwrite b p data in let p' := p + Z.of_nat (length data) in
  length b' = length b0 ∧ drop (Z.to_nat p') b' = drop (Z.to_nat p') b0 ∧ holds j p' b'.
Proof.
  intros Hp Ho Hfit Hl Hd Hh Hdata b' p'. subst b' p'. split_and!.
  - by rewrite overwrite_length by lia.
  - replace (Z.to_nat (p + Z.of_nat (length data))) with (Z.to_nat p + length data)%nat by lia.
    unfold overwrite. rewrite drop_app_ge, drop_app_ge by (rewrite ?length_take; lia). rewrite drop_drop, length_take.
    rewrite <-(drop_drop b0), <-Hd, drop_drop. f_equal. lia.
  - eapply (holds_more _ _ _ _ data); [done|done| |rewrite overwrite_length; lia|done|].
    + eapply holds_take; [|exact Hh]. apply overwrite_take. lia.
    + rewrite take_range_join by lia. f_equal. rewrite overwrite_range by lia. apply take_ge. lia.
Qed.

Record completion_spec (j : Job) (s : slot) (op : Pending) (scratch0 : bytes) (r : slot * Z * bool) : Prop := {
  cs_inv : slot_inv j r.1.1;
  cs_cells : job_cells (sl_job r.1.1) (sl_progress r.1.1) = job_cells (sl_job s) (sl_progress s) ++ op_cells scratch0 op (0 `max` pd_result op);
  cs_ok : r.2 = false → sl_error r.1.1 = None ∧ left j r.1.1 <= left j s ∧ (pd_kind op = KWrite → pd_result op ≠ 0 → left j r.1.1 < left j s) ∧
    (pd_kind op ≠ KWrite → left j r.1.1 < left j s);
  cs_failed : r.2 = true → ¬ no_error r.1.1;
}.

(** A completed operation with a negative result fails its job and changes nothing else. *)
Lemma complete_failed index j s op0 op scratch0 : planned_inv index j s op0 → 0 <= jb_offset j →
  op = set_result (set_owned op0 (pd_owned op)) (pd_result op) → same_but_owned op0 (set_owned op0 (pd_owned op)) → pd_result op < 0 →
  ∀ scratch, completion_spec j s op scratch0 (complete_slot op scratch s).
Proof.
  intros [Hf Ho Hp (Hl1 & Hl2 & Hl3) Hk Hj Hd How Hb] Hoff E Hs Hr scratch. unfold complete_slot. rewrite (proj2 (Z.ltb_lt _ _)) by done.
  assert (Hcells : op_cells scratch0 op (0 `max` pd_result op) = []).
  { unfold op_cells. replace (0 `max` pd_result op) with 0 by lia. rewrite Z.add_0_r, range_nil. by destruct (is_write (pd_kind op)). }
  split; cbn [fst snd fail_slot sl_job sl_progress sl_done]; try done; rewrite ?Hcells, ?app_nil_r.
  - unfold slot_inv. cbn [fail_slot sl_job sl_progress sl_done sl_error]. destruct Hs as [_ Hs]. unfold set_owned in Hs. cbn [pd_owned] in Hs.
    destruct (jb_buffer j) eqn:Ej, (jb_buffer (sl_job s)) eqn:Es, (pd_owned op0), (pd_owned op); try done;
      cbn [set_buffer set_job sl_job jb_file jb_offset jb_buffer sl_progress]; rewrite ?Es; (split; [tauto|split; [tauto|split; [lia|]]]);
      first [done|exact Hb|by split|by case_match].
  - destruct (jb_buffer (sl_job s)) eqn:Es, (pd_owned op); try done. unfold job_cells. cbn. by rewrite Es.
Qed.

Section Succeeded.
Context (index : nat) (j : Job) (s : slot) (op0 op : Pending) (scratch0 scratch : bytes).
Context (Hinv : planned_inv index j s op0) (Hoff : 0 <= jb_offset j) (Hr : 0 <= pd_result op <= pd_len op0).
Context (E : op = set_result (set_owned op0 (pd_owned op)) (pd_result op)) (Hs : same_but_owned op0 (set_owned op0 (pd_owned op))).
Context (Hread : reads → pd_kind op0 = KRead → read_done content scratch op (pd_result op)).
Context (Hload : ∀ d, jb_buffer j = BWrite d → pd_end op0 <= Z.of_nat (length scratch0) ∧ 0 <= pd_start op0 ∧
  range (pd_start op0) (pd_end op0) scratch0 = range (sl_progress s) (sl_progress s + pd_len op0) d).
Context (Hfit : pd_kind op0 = KRead → pd_owned op0 = None → 0 <= pd_start op0 ∧ pd_end op0 <= Z.of_nat (length scratch)).

Lemma op_fields : pd_file op = pd_file op0 ∧ pd_offset op = pd_offset op0 ∧ pd_start op = pd_start op0 ∧ pd_len op = pd_len op0 ∧ pd_kind op = pd_kind op0 ∧
  pd_owned_start op = pd_owned_start op0.
Proof. by rewrite E. Qed.

Lemma complete_slot_eq : complete_slot op scratch s =
  let s := match jb_buffer (sl_job s), pd_owned op with BOwnedRead _, Some b => set_buffer s (BOwnedRead b) | _, _ => s end in
  let '(s, copied) :=
    match jb_buffer (sl_job s) with
    | BRead buffer => (set_buffer s (BRead (overwrite buffer (sl_progress s) (range (pd_start op) (pd_start op + pd_result op) scratch))), pd_result op)
    | _ => (s, 0)
    end in
  let s := set_progress s (sl_progress s + pd_result op) in
  let finished :=
    match pd_kind op with
    | KRead => (pd_result op <? pd_len op) || (sl_progress s =? snd (kind_length (jb_buffer (sl_job s))))
    | KWrite => false
    | KSync _ => true
    end in
  (set_done s finished, copied, false).
Proof.
  destruct op_fields as (_ & _ & _ & El & _). unfold complete_slot. rewrite (proj2 (Z.ltb_ge _ _)) by lia. rewrite (proj2 (Z.ltb_ge _ _)) by lia. done.
Qed.

(** What moves the work left: a read is done or full, a write counts. *)
Lemma left_less (s' : slot) : sl_progress s' = sl_progress s + pd_result op →
  (pd_kind op = KRead → sl_done s' = true ∨ pd_result op = pd_len op) → (is_sync (pd_kind op) = true → sl_done s' = true) →
  left j s' <= left j s ∧ (pd_kind op = KWrite → pd_result op ≠ 0 → left j s' < left j s) ∧ (pd_kind op ≠ KWrite → left j s' < left j s).
Proof.
  intros Hp' Hrd Hsy. destruct Hinv as [_ _ Hp (Hl1 & Hl2 & Hl3) Hk _ [Hd _] _ _]. destruct op_fields as (_ & _ & _ & El & Ek & _). unfold left. rewrite Hd, Hp'.
  split_and!.
  - destruct (sl_done s'); lia.
  - intros _ ?. destruct (sl_done s'); lia.
  - intros Hnw. destruct (sl_done s') eqn:Ed; [lia|]. rewrite Ek, Hk in Hnw, Hrd, Hsy. unfold job_kind in *. destruct (kind_length (jb_buffer j)) as [kind len]. destruct kind.
    + destruct (Hrd eq_refl) as [?|Hfull]; [done|]. specialize (Hl3 eq_refl). lia.
    + done.
    + by specialize (Hsy eq_refl).
Qed.

Lemma complete_succeeded : completion_spec j s op scratch0 (complete_slot op scratch s).
Proof.
  rewrite complete_slot_eq. pose proof left_less as Hleft. destruct op_fields as (Ef & Eo & Est & El & Ek & Eow). destruct Hinv as [[Hf1 Hf2] [Ho1 Ho2] Hp (Hl1 & Hl2 & Hl3) Hk Hj [Hd1 Hd2] How Hb].
  unfold job_kind, job_len in *. destruct Hs as [_ Hso]. cbn [set_owned pd_owned] in Hso.
  destruct (jb_buffer j) as [b0|b0|d|data_only] eqn:Ej, (jb_buffer (sl_job s)) as [b|b|d'|x] eqn:Es, (pd_owned op0) as [ob|] eqn:Eob; try done; try (by destruct b);
    cbn [kind_length fst snd] in *.
  - destruct (pd_owned op) as [ow|] eqn:Eow'; [done|]. destruct Hb as (Hb1 & Hb2 & Hb3). rewrite Es. split; cbn [fst snd]; try done.
    + destruct Hfit as [Hfit1 Hfit2]; [by rewrite Hk|done|].
      set (data := range (pd_start op) (pd_start op + pd_result op) scratch).
      assert (Hdl : Z.of_nat (length data) = pd_result op) by (unfold data, pd_len in *; rewrite range_length; lia).
      destruct (read_into j (sl_progress s) b0 b data) as (R1 & R2 & R3); [done|done|lia|done|done|done| |].
      { intros Hro. specialize (Hread Hro Hk). unfold read_done in Hread. rewrite Eow', Eo, Ho2, Ef, Hf2 in Hread. done. }
      rewrite Hdl in *. unfold slot_inv. cbn. rewrite Ej. unfold job_len. rewrite Ej. cbn. split_and!; (done || lia).
    + unfold job_cells, op_cells. cbn. by rewrite Es, Ek, Hk.
    + intros _. split; [done|]. apply Hleft; [done| |by rewrite Ek, Hk].
      intros _. cbn. rewrite Ek, Hk. destruct (Z.ltb_spec (pd_result op) (pd_len op)); [by left|right; lia].
  - destruct (pd_owned op) as [ow|] eqn:Eow'; [|done]. destruct b; [|done]. destruct Hb as (Hb1 & Hb3). cbn [set_buffer set_job sl_job jb_buffer]. split; cbn [fst snd]; try done.
    + destruct Hso as [Hso1 Hso2]. rewrite How in Hso2. unfold slot_inv. cbn. rewrite Ej. unfold job_len. rewrite Ej. cbn. split_and!; try (done || lia).
      intros _. split; [congruence|]. eapply holds_more; [done|done|by eapply holds_take|lia| |apply take_range_join; lia].
      intros Hro. specialize (Hread Hro Hk). unfold read_done in Hread. rewrite Eow', Eo, Ho2, Ef, Hf2, Eow, How in Hread. done.
    + unfold job_cells, op_cells. cbn. by rewrite Es, Ek, Hk.
    + intros _. split; [done|]. apply Hleft; [done| |by rewrite Ek, Hk].
      intros _. cbn. rewrite Ek, Hk. destruct (Z.ltb_spec (pd_result op) (pd_len op)); [by left|right; lia].
  - destruct (pd_owned op) as [ow|] eqn:Eow'; [done|]. rewrite Es. split; cbn [fst snd]; try done.
    + unfold slot_inv. cbn. rewrite Ej, Es, Ek, Hk. unfold job_len. rewrite Ej. cbn. split_and!; (done || lia).
    + destruct (Hload d eq_refl) as (L1 & L2 & L3). unfold job_cells, op_cells. cbn. rewrite Es, Ek, Hk. cbn [is_write]. subst d'.
      rewrite take_range_join, cells_app by lia. f_equal. rewrite Hf1, Ef, Hf2, Eo, Ho2, Est.
      rewrite length_take, Nat.min_l by lia. rewrite Z2Nat.id by done. rewrite Ho1. f_equal.
      assert (Hend : pd_end op0 = pd_start op0 + pd_len op0) by (unfold pd_len; lia).
      replace (0 `max` pd_result op) with (pd_result op) by lia.
      apply (f_equal (take (Z.to_nat (pd_result op)))) in L3. rewrite !take_range in L3 by lia.
      replace (pd_end op0 `min` (pd_start op0 + pd_result op)) with (pd_start op0 + pd_result op) in L3 by lia. rewrite L3. f_equal. lia.
    + intros _. split; [done|]. apply Hleft; [done| |]; cbn; rewrite Ek, Hk; done.
  - destruct (pd_owned op) as [ow|] eqn:Eow'; [done|]. rewrite Es. split; cbn [fst snd]; try done.
    + unfold slot_inv. cbn. rewrite Ej, Es. unfold job_len. rewrite Ej. cbn. split_and!; (done || lia).
    + unfold job_cells, op_cells. cbn. by rewrite Es, Ek, Hk.
    + intros _. split; [done|]. apply Hleft; [done|by rewrite Ek, Hk|]. cbn. by rewrite Ek, Hk.
Qed.
End Succeeded.

Definition total_left (js : list Job) (ss : list slot) : Z := foldr Z.add 0 (zip_with left js ss).
Definition all_cells (ss : list slot) : list (file * Z * Byte.byte) := mjoin ((λ s, job_cells (sl_job s) (sl_progress s)) <$> ss).

Lemma fresh_slots js : let slots := (λ j, Slot j 0 false None) <$> js in
  Forall2 slot_inv js slots ∧ total_left js slots = foldr Z.add 0 ((λ j, 1 + job_len j) <$> js) ∧ Forall no_error slots ∧ all_cells slots = [].
Proof.
  induction js as [|j js (I1 & I2 & I3 & I4)]; [by repeat constructor|]. cbn [fmap list_fmap]. split_and!.
  - constructor; [by apply fresh_slot|done].
  - unfold total_left in *. cbn [zip_with foldr]. rewrite I2. unfold left. cbn [sl_done sl_progress]. lia.
  - by constructor.
  - unfold all_cells in *. cbn [fmap list_fmap]. rewrite mjoin_cons, I4. unfold job_cells. cbn. by destruct (jb_buffer _).
Qed.

(** What the arena holds for the writes of a wave. *)
Definition loaded (scratch0 : bytes) (index : nat) (ss : list slot) (ops : list Pending) : Prop :=
  ∀ op i s d, op ∈ ops → pd_job op = (index + i)%nat → ss !! i = Some s → jb_buffer (sl_job s) = BWrite d →
    pd_end op <= Z.of_nat (length scratch0) ∧ 0 <= pd_start op ∧
    range (pd_start op) (pd_end op) scratch0 = range (sl_progress s) (sl_progress s + pd_len op) d.
Definition fits (scratch : bytes) (op : Pending) : Prop :=
  pd_kind op = KRead → pd_owned op = None → 0 <= pd_start op ∧ pd_end op <= Z.of_nat (length scratch).
(** A completed operation, for the jobs of the call. *)
Definition answered (scratch : bytes) (op0 op : Pending) : Prop :=
  op = set_result (set_owned op0 (pd_owned op)) (pd_result op) ∧ same_but_owned op0 (set_owned op0 (pd_owned op)) ∧ pd_result op <= pd_len op0 ∧
  (reads → pd_kind op0 = KRead → 0 <= pd_result op → read_done content scratch op (pd_result op)).

Lemma complete_one index j s op0 op scratch0 scratch : planned_inv index j s op0 → 0 <= jb_offset j → answered scratch op0 op → fits scratch op0 →
  (∀ d, jb_buffer (sl_job s) = BWrite d → pd_end op0 <= Z.of_nat (length scratch0) ∧ 0 <= pd_start op0 ∧
    range (pd_start op0) (pd_end op0) scratch0 = range (sl_progress s) (sl_progress s + pd_len op0) d) →
  completion_spec j s op scratch0 (complete_slot op scratch s).
Proof.
  intros Hp Ho (E & Hs & Hr & Hread) Hfit Hload. destruct (Z.ltb_spec (pd_result op) 0); [by eapply complete_failed|].
  eapply (complete_succeeded index j s op0 op scratch0 scratch); try done; [intros; by apply Hread|].
  intros d Ej. apply Hload. pose proof (pi_buffer _ _ _ _ Hp) as Hb. rewrite Ej in Hb. destruct (jb_buffer (sl_job s)), (pd_owned op0); try done. by subst.
Qed.

Record all_completed (js : list Job) (ss ss' : list slot) (completed : list Pending) (scratch0 : bytes) (failed : bool) : Prop := {
  ac_inv : Forall2 slot_inv js ss';
  ac_cells : all_cells ss' ≡ₚ all_cells ss ++ mjoin ((λ op, op_cells scratch0 op (0 `max` pd_result op)) <$> completed);
  ac_left : failed = false → total_left js ss' <= total_left js ss ∧
    (if head completed is Some op then (pd_kind op = KWrite → pd_result op ≠ 0) → total_left js ss' < total_left js ss else True);
  ac_errors : failed = false → Forall no_error ss → Forall no_error ss';
  ac_failed : failed = true ∨ ¬ Forall no_error ss → ¬ Forall no_error ss';
  ac_done : Forall2 (λ s s', sl_done s = true → s' = s) ss ss';
}.

Lemma all_completed_skip js ss ss' j s completed scratch0 f : slot_inv j s → all_completed js ss ss' completed scratch0 f →
  all_completed (j :: js) (s :: ss) (s :: ss') completed scratch0 f.
Proof.
  intros Hs [A1 A2 A3 A4 A5 A6]. split.
  - by constructor.
  - unfold all_cells in *. cbn [fmap list_fmap]. by rewrite !mjoin_cons, A2, app_assoc.
  - intros ->. destruct (A3 eq_refl) as [A3a A3b]. unfold total_left in *. cbn [zip_with foldr]. split; [lia|].
    destruct (head completed); [|done]. intros Hw. specialize (A3b Hw). lia.
  - intros ->. rewrite !Forall_cons. naive_solver.
  - rewrite !Forall_cons. tauto.
  - by constructor.
Qed.
Lemma all_completed_op js ss ss' j s s1 op completed n scratch0 f1 f : no_error s → sl_done s = false → completion_spec j s op scratch0 (s1, n, f1) →
  all_completed js ss ss' completed scratch0 f → all_completed (j :: js) (s :: ss) (s1 :: ss') (op :: completed) scratch0 (f1 || f).
Proof.
  intros Hne Hnd [S1 S2 S3 S4] [A1 A2 A3 A4 A5 A6]. cbn [fst snd] in *. split.
  - by constructor.
  - unfold all_cells in *. cbn [fmap list_fmap]. rewrite !mjoin_cons, A2, S2, <-!app_assoc. apply Permutation_app_head.
    rewrite !app_assoc. apply Permutation_app_tail, Permutation_app_comm.
  - intros [-> ->]%orb_false_iff. destruct (A3 eq_refl) as [A3a _]. destruct (S3 eq_refl) as (_ & S3a & S3b & S3c). unfold total_left in *.
    cbn [zip_with foldr head]. split; [lia|]. intros Hw.
    destruct (is_write (pd_kind op)) eqn:Ew; [apply is_write_spec in Ew; specialize (S3b Ew (Hw Ew)); lia|].
    assert (pd_kind op ≠ KWrite) as Hk by (intros Hk; by rewrite Hk in Ew). specialize (S3c Hk). lia.
  - intros [-> ->]%orb_false_iff. rewrite !Forall_cons. intros [_ H]. split; [by apply S3|by apply A4].
  - rewrite !Forall_cons. intros [[->| ->]%orb_true_iff|H]; [naive_solver..|]. tauto.
  - constructor; [congruence|done].
Qed.

Lemma complete_all_ok scratch0 scratch js ss ops index : planned index js ss ops → Forall (λ j, 0 <= jb_offset j) js → Forall (fits scratch) ops →
  ∀ completed pre copied failed, Forall2 (answered scratch) ops completed → loaded scratch0 index ss ops → length pre = index →
  ∃ ss' copied' f, complete_all completed scratch (pre ++ ss) copied failed = (pre ++ ss', copied', failed || f) ∧ all_completed js ss ss' completed scratch0 f.
Proof.
  intros H. induction H as [index|index j js s ss ops Hs H IH|index j js s ss op0 ops Hp H IH]; intros Ho Hfit completed pre copied failed Hans Hload Hpre.
  - inversion Hans; subst. exists [], copied, false. rewrite orb_false_r. split; [done|]. split; [constructor|done|done|done| |constructor]. intros [?|H1]; [done|]. by destruct H1.
  - apply Forall_cons in Ho as [Ho1 Ho].
    destruct (IH Ho Hfit completed (pre ++ [s]) copied failed Hans) as (ss' & copied' & f & E & Hall).
    { intros op i s' d Hop Hjob Hs'. apply (Hload op (S i)); [done|lia|done]. } { rewrite length_app. cbn. lia. }
    exists (s :: ss'), copied', f. rewrite <-!app_assoc in E. split; [done|]. by apply all_completed_skip.
  - apply Forall_cons in Ho as [Ho1 Ho]. apply Forall_cons in Hfit as [Hf1 Hfit]. inversion Hans as [|? op ? completed' Ha Hans']; subst completed. clear Hans.
    pose proof (pi_job _ _ _ _ Hp) as Hjob.
    assert (Hspec : completion_spec j s op scratch0 (complete_slot op scratch s)).
    { eapply complete_one; [done|done|done|done|]. intros d Hd. apply (Hload op0 0%nat s d); [apply elem_of_cons; by left|lia|done|done]. }
    assert (Hjop : pd_job op = length pre) by (destruct Ha as [-> _]; cbn; lia).
    cbn [complete_all]. rewrite Hjop, (list_lookup_middle pre ss s (length pre)) by done.
    destruct (complete_slot op scratch s) as [[s1 n] f1].
    replace (<[length pre := s1]> (pre ++ s :: ss)) with ((pre ++ [s1]) ++ ss) by (rewrite <-app_assoc; cbn; rewrite insert_app_r_alt, Nat.sub_diag by lia; done).
    destruct (IH Ho Hfit completed' (pre ++ [s1]) (copied + n) (failed || f1) Hans') as (ss' & copied' & f & E & Hall).
    { intros op' i s' d Hop Hj' Hs'. apply (Hload op' (S i)); [apply elem_of_cons; by right|lia|done]. } { rewrite length_app. cbn. lia. }
    exists (s1 :: ss'), copied', (f1 || f). rewrite E, <-app_assoc, orb_assoc. split; [done|].
    apply (all_completed_op _ _ _ _ _ _ _ _ n); [by apply (pi_done _ _ _ _ Hp)..|done|done].
Qed.

(** ** Facts on a planned wave *)

Lemma tiled_start at_ os op : tiled at_ os → 0 <= at_ → op ∈ os → 0 <= pd_start op.
Proof.
  revert at_. induction os as [|x os IH]; intros at_ Ht Hat Hop; [by apply not_elem_of_nil in Hop|]. destruct Ht as (<- & Hl & Ht).
  apply elem_of_cons in Hop as [->|Hop]; [done|]. eapply IH; [exact Ht| |done]. unfold pd_len in Hl. lia.
Qed.
Lemma planned_before n js ss js' ss' ops : Forall2 slot_inv js ss → planned (n + length ss) js' ss' ops → planned n (js ++ js') (ss ++ ss') ops.
Proof.
  intros H. revert n. induction H as [|j s js ss Hj H IH]; intros n Hp; cbn [length app] in *; [by rewrite Nat.add_0_r in Hp|].
  constructor; [done|]. apply IH. by rewrite Nat.add_succ_r in Hp.
Qed.

Lemma slot_cells j s p : slot_inv j s → job_cells (sl_job s) p = job_cells j p.
Proof. intros (Hf & Ho & _ & Hb). unfold job_cells. rewrite Hf, Ho. destruct (jb_buffer j), (jb_buffer (sl_job s)); try done. by destruct Hb as [-> _]. Qed.
Lemma op_slot_cells index j s op p : planned_inv index j s op → job_cells (sl_job s) p = job_cells j p.
Proof.
  intros [[Hf _] [Ho _] _ _ _ _ _ _ Hb]. unfold job_cells. rewrite Hf, Ho.
  destruct (jb_buffer j), (jb_buffer (sl_job s)), (pd_owned op); try done; try (by case_match). by subst.
Qed.
Lemma planned_cells index js ss ss' ops : planned index js ss' ops → Forall2 slot_inv js ss →
  Forall2 (λ s s', sl_progress s' = sl_progress s ∧ (sl_done s = true → s' = s)) ss ss' → all_cells ss' = all_cells ss.
Proof.
  intros H. revert ss. induction H as [index|index j js s' ss' ops Hs' H IH|index j js s' ss' op ops Hp H IH]; intros ss Hs Hk.
  - by inversion Hk.
  - inversion Hs as [|? s ? ss1 Hj Hjs]; subst. inversion Hk as [|? ? ? ? [E _] Hk']; subst. unfold all_cells in *. cbn [fmap list_fmap]. rewrite !mjoin_cons, (IH ss1 Hjs Hk').
    by rewrite E, !(slot_cells j).
  - inversion Hs as [|? s ? ss1 Hj Hjs]; subst. inversion Hk as [|? ? ? ? [E _] Hk']; subst. unfold all_cells in *. cbn [fmap list_fmap]. rewrite !mjoin_cons, (IH ss1 Hjs Hk').
    by rewrite E, (slot_cells j s), (op_slot_cells index j s' op).
Qed.
Lemma planned_left index js ss ss' ops : planned index js ss' ops → Forall2 slot_inv js ss →
  Forall2 (λ s s', sl_progress s' = sl_progress s ∧ (sl_done s = true → s' = s)) ss ss' → total_left js ss' <= total_left js ss.
Proof.
  intros _ Hs. revert ss'. induction Hs as [|j s js ss (_ & _ & Hp & _) Hs IH]; intros ss' Hk; inversion Hk as [|? s' ? ss1 [E Hd] Hk']; subst; [done|].
  specialize (IH ss1 Hk'). unfold total_left in *. cbn [zip_with foldr]. enough (left j s' <= left j s) by lia. unfold left. rewrite E.
  destruct (sl_done s) eqn:Ed; [by rewrite (Hd eq_refl), Ed|]. destruct (sl_done s'); lia.
Qed.
Lemma planned_empty index js ss : planned index js ss [] → Forall2 slot_inv js ss.
Proof. intros H. remember [] as ops. induction H; [constructor|constructor; auto|done]. Qed.
Lemma planned_failed index js ss ops errno : planned index js ss ops → Forall2 slot_inv js ((λ s, if sl_done s then s else fail_slot s errno) <$> ss).
Proof.
  assert (Hfail : ∀ j s, slot_inv j s → slot_inv j (fail_slot s errno)).
  { intros j s (Hf & Ho & Hp & Hb). unfold slot_inv. cbn [fail_slot sl_job sl_progress sl_error sl_done]. split; [done|split; [done|split; [done|]]].
    destruct (jb_buffer j), (jb_buffer (sl_job s)); try done. by destruct Hb as [-> _]. }
  intros H. induction H as [index|index j js s ss ops Hs H IH|index j js s ss op ops Hp H IH]; cbn [fmap list_fmap]; constructor; try done.
  - destruct (sl_done s); [done|by apply Hfail].
  - destruct Hp as [[Hf _] [Ho _] Hp (Hl1 & Hl2 & _) _ _ [Hd _] _ Hb]. rewrite Hd. unfold slot_inv. cbn [fail_slot sl_job sl_progress sl_error sl_done].
    split; [done|split; [done|split; [lia|]]]. destruct (jb_buffer j), (jb_buffer (sl_job s)), (pd_owned op); try done; try (by case_match).
Qed.

Lemma planned_lookup index js ss ops op : planned index js ss ops → op ∈ ops →
  ∃ i j s, js !! i = Some j ∧ ss !! i = Some s ∧ planned_inv (index + i) j s op.
Proof.
  intros H. induction H as [index|index j js s ss ops Hs H IH|index j js s ss op0 ops Hp H IH]; intros Hop.
  - by apply not_elem_of_nil in Hop.
  - destruct (IH Hop) as (i & j' & s' & H1 & H2 & H3). exists (S i), j', s'. by rewrite Nat.add_succ_r.
  - apply elem_of_cons in Hop as [->|Hop].
    + exists 0%nat, j, s. by rewrite Nat.add_0_r.
    + destruct (IH Hop) as (i & j' & s' & H1 & H2 & H3). exists (S i), j', s'. by rewrite Nat.add_succ_r.
Qed.

(** What a job has written is part of what it asks for. *)
Lemma slot_part j s : slot_inv j s → ∃ rest, job_cells (sl_job s) (sl_progress s) ++ rest = job_cells j (job_len j).
Proof.
  intros (Hf & Ho & Hp & Hb). destruct (jb_buffer j) as [| |d|] eqn:Ej, (jb_buffer (sl_job s)) as [| |d'|] eqn:Es; try done;
    try (exists []; unfold job_cells; rewrite Ej, Es; done). destruct Hb as [-> _]. exists (cells (jb_file j) (jb_offset j + sl_progress s) (drop (Z.to_nat (sl_progress s)) d)).
  unfold job_cells, job_len in *. rewrite Ej, Es, Hf, Ho in *. cbn [kind_length snd] in *. rewrite Nat2Z.id, firstn_all.
  rewrite <-(take_drop (Z.to_nat (sl_progress s)) d) at 3. rewrite cells_app, length_take, Nat.min_l by lia. by rewrite Z2Nat.id by lia.
Qed.
Lemma slots_part js ss : Forall2 slot_inv js ss → ∃ rest, all_cells ss ++ rest ≡ₚ mjoin ((λ j, job_cells j (job_len j)) <$> js).
Proof.
  induction 1 as [|j s js ss Hj Hs [rest IH]]; [by exists []|]. destruct (slot_part j s Hj) as [r E]. exists (r ++ rest). unfold all_cells in *. cbn [fmap list_fmap].
  rewrite !mjoin_cons, <-E, <-IH, <-!app_assoc. apply Permutation_app_head. rewrite !app_assoc. apply Permutation_app_tail, Permutation_app_comm.
Qed.
Lemma op_part index j s op scratch0 : planned_inv index j s op →
  (∀ d, jb_buffer (sl_job s) = BWrite d → range (pd_start op) (pd_end op) scratch0 = range (sl_progress s) (sl_progress s + pd_len op) d) →
  ∃ rest, job_cells (sl_job s) (sl_progress s) ++ op_cells scratch0 op (pd_len op) ++ rest = job_cells j (job_len j).
Proof.
  intros [[Hf1 Hf2] [Ho1 Ho2] Hp (Hl1 & Hl2 & Hl3) Hk _ _ _ Hb] Hload. unfold job_kind, job_len in *.
  destruct (jb_buffer j) as [b0|b0|d|x] eqn:Ej, (jb_buffer (sl_job s)) as [b|b|d'|y] eqn:Es; try done;
    try (exists []; unfold job_cells, op_cells; rewrite Ej, Es, Hk; done).
  destruct (pd_owned op); [done|]. subst d'. cbn [kind_length fst snd] in *.
  exists (cells (jb_file j) (jb_offset j + sl_progress s + pd_len op) (drop (Z.to_nat (sl_progress s + pd_len op)) d)).
  specialize (Hload d eq_refl). unfold job_cells, op_cells. rewrite Ej, Es, Hk, Hf1, Ho1, Hf2, Ho2, Nat2Z.id, firstn_all. cbn [is_write].
  assert (Hend : pd_end op = pd_start op + pd_len op) by (unfold pd_len; lia). rewrite Hend in Hload. rewrite Hload.
  rewrite <-(take_drop (Z.to_nat (sl_progress s + pd_len op)) d) at 4. rewrite take_range_join by lia. rewrite !cells_app, length_app, length_take, range_length by lia.
  rewrite <-app_assoc. f_equal. f_equal; f_equal; lia.
Qed.

Lemma perm_front {A} (a o r rest : list A) : a ++ o ++ r ++ rest ≡ₚ r ++ a ++ o ++ rest.
Proof. rewrite !app_assoc. apply Permutation_app_tail. rewrite <-(app_assoc r a o). apply Permutation_app_comm. Qed.

Lemma perm_fronts {A} (a p o r rest : list A) : a ++ p ++ o ++ r ++ rest ≡ₚ p ++ r ++ a ++ o ++ rest.
Proof. rewrite (app_assoc a p), (Permutation_app_comm a p), <-app_assoc. apply Permutation_app_head, perm_front. Qed.

Lemma planned_part index js ss ops scratch0 : planned index js ss ops → loaded scratch0 index ss ops →
  ∃ rest, all_cells ss ++ mjoin ((λ op, op_cells scratch0 op (pd_len op)) <$> ops) ++ rest ≡ₚ mjoin ((λ j, job_cells j (job_len j)) <$> js).
Proof.
  intros H. induction H as [index|index j js s ss ops Hs H IH|index j js s ss op ops Hp H IH]; intros Hload.
  - by exists [].
  - destruct IH as [rest IH]. { intros op i s' d Hop Hjob Hs'. apply (Hload op (S i)); [done|lia|done]. }
    destruct (slot_part j s Hs) as [r E]. exists (r ++ rest). unfold all_cells in *. cbn [fmap list_fmap]. rewrite !mjoin_cons, <-E, <-IH.
    rewrite <-!app_assoc. apply Permutation_app_head, perm_front.
  - destruct IH as [rest IH]. { intros op' i s' d Hop Hjob Hs'. apply (Hload op' (S i)); [apply elem_of_cons; by right|lia|done]. }
    destruct (op_part index j s op scratch0 Hp) as [r E].
    { intros d Hd. pose proof (pi_job _ _ _ _ Hp). apply (Hload op 0%nat s d); [apply elem_of_cons; by left|lia|done|done]. }
    exists (r ++ rest). unfold all_cells in *. cbn [fmap list_fmap]. rewrite !mjoin_cons, <-E, <-IH.
    rewrite <-!app_assoc. apply Permutation_app_head, perm_fronts.
Qed.
End Call.

(** ** The loop over waves *)

Section Loop.
Context {W : Type} (k : kernel W) (v : kernel_view W) (Hk : kernel_ok k v).
Context (jobs : list Job) (o : Options) (w0 : W).
Context (Ho : 0 < queue_depth o <= kv_capacity v ∧ 0 < max_batch_bytes o) (Hoff : Forall (λ j, 0 <= jb_offset j) jobs).
Let reads := Forall (λ j, job_kind j ≠ KWrite) jobs.
Let content := kv_content v w0.
Let full := mjoin ((λ j, job_cells j (job_len j)) <$> jobs).
Let slot_ok := slot_inv reads content.

(** The state between waves, without what the loop needs of errors. *)
Record call_state (c : call (W := W)) : Prop := {
  ci_ring : en_ring (ca_engine c) = true;
  ci_options : en_options (ca_engine c) = o;
  ci_idle : idle v (ca_world c);
  ci_signals : (kv_signals v (ca_world c) <= kv_signals v w0)%nat;
  ci_slots : Forall2 slot_ok jobs (ca_slots c);
  ci_content : reads → kv_content v (ca_world c) = content;
  ci_trace : ∃ evs, kv_trace v (ca_world c) = kv_trace v w0 ++ evs ∧ written evs ≡ₚ all_cells (ca_slots c);
}.
Definition call_inv (c : call (W := W)) : Prop :=
  call_state c ∧ (Forall no_error (ca_slots c) ∨ Forall (λ s, sl_done s = true) (ca_slots c)) ∧
  (ca_first c <= length (ca_slots c))%nat ∧ Forall (λ s, sl_done s = true) (take (ca_first c) (ca_slots c)).

(** What a call returns: every job with its progress, its buffer, and what was
    written; after the ring was given up, what the last wave wrote is not known. *)
Definition call_end (a : list (result ioerr Z) * list Job * Engine * W) : Prop :=
  let '(results, jobs', e, w) := a in
  ∃ slots evs extra rest,
    results = (λ s, match sl_error s with Some errno => Err (Os errno) | None => Ok (sl_progress s) end) <$> slots ∧ jobs' = sl_job <$> slots ∧
    en_options e = o ∧ Forall2 slot_ok jobs slots ∧ (Forall no_error slots → Forall (λ s, sl_done s = true) slots) ∧
    kv_trace v w = kv_trace v w0 ++ evs ∧ written evs ≡ₚ all_cells slots ++ extra ∧ written evs ++ rest ≡ₚ full ∧
    (kv_signals v w <= kv_signals v w0)%nat ∧
    (en_ring e = true → extra = [] ∧ idle v w ∧ (reads → kv_content v w = content)).

Lemma skip_done_ok slots : ∀ first, let n := (skip_done slots first - first)%nat in
  (first <= skip_done slots first)%nat ∧ (n <= length slots)%nat ∧ Forall (λ s, sl_done s = true) (take n slots) ∧
  if slots !! n is Some s then sl_done s = false else n = length slots.
Proof.
  induction slots as [|s slots IH]; intros first; cbn [skip_done]; [rewrite Nat.sub_diag; cbn; split_and!; (lia || constructor)|]. destruct (sl_done s) eqn:Ed.
  - destruct (IH (S first)) as (H1 & H2 & H3 & H4). replace (skip_done slots (S first) - first)%nat with (S (skip_done slots (S first) - S first)) by lia.
    cbn [take lookup list_lookup length]. split_and!; [lia|lia|by constructor|]. by destruct (slots !! _); [|lia].
  - rewrite Nat.sub_diag. cbn. split_and!; [lia|lia|constructor|done].
Qed.

Lemma total_left_pos js ss : Forall2 slot_ok js ss → 0 <= total_left js ss.
Proof.
  induction 1 as [|j s js ss (_ & _ & Hp & _) _ IH]; [done|]. unfold total_left in *. cbn [zip_with foldr]. unfold left at 1. destruct (sl_done s); lia.
Qed.
Lemma total_left_done js ss : Forall2 slot_ok js ss → Forall (λ s, sl_done s = true) ss → total_left js ss = 0.
Proof.
  induction 1 as [|j s js ss _ _ IH]; [done|]. intros [Hd Hds]%Forall_cons. unfold total_left in *. cbn [zip_with foldr]. unfold left at 1. rewrite Hd, IH by done. done.
Qed.
Lemma total_left_app js1 js2 ss1 ss2 : length js1 = length ss1 → total_left (js1 ++ js2) (ss1 ++ ss2) = total_left js1 ss1 + total_left js2 ss2.
Proof.
  revert ss1. induction js1 as [|j js1 IH]; intros [|s ss1]; try done. intros [= Hl]. unfold total_left in *. cbn [app zip_with foldr]. rewrite IH by done. lia.
Qed.

(** The end of the loop. *)
Lemma finish_call_ok c : call_state c → (Forall no_error (ca_slots c) → Forall (λ s, sl_done s = true) (ca_slots c)) → call_end (finish_call c).
Proof.
  intros [C1 C2 C3 C4 C5 C8 (evs & C9 & C10)] Hd. destruct (slots_part _ _ _ _ C5) as [rest Hrest].
  exists (ca_slots c), evs, [], rest. cbn [with_stats en_options en_ring]. rewrite app_nil_r, C10. by split_and!.
Qed.

(** A wave that has been planned. *)
Section Turn.
Context (c : call (W := W)) (first : nat) (rest : list slot) (ops : list Pending) (failed : bool) (fuel : nat).
Context (Hc : call_state c) (Hne : Forall no_error (ca_slots c)) (Hfirst : (first <= length (ca_slots c))%nat).
Context (Hdone : Forall (λ s, sl_done s = true) (take first (ca_slots c))) (Hfuel : (kv_signals v w0 + 1 < fuel)%nat).
Context (Hplan : plan o (drop first (ca_slots c)) first 0 (max_batch_bytes o) false = (rest, ops, failed)).
Let slots := take first (ca_slots c) ++ rest.

Lemma turn_plan : planned reads content 0 jobs slots ops ∧ tiled 0 ops ∧ Z.of_nat (length ops) <= queue_depth o ∧
  Forall2 (λ s s', sl_progress s' = sl_progress s ∧ (sl_done s = true → s' = s)) (ca_slots c) slots ∧
  (failed = false → Forall no_error slots) ∧ (failed = true → ¬ Forall no_error slots) ∧
  (ops = [] → Forall (λ s, sl_done s = true) slots).
Proof.
  assert (Hs := ci_slots _ Hc). rewrite <-(take_drop first jobs), <-(take_drop first (ca_slots c)) in Hs.
  assert (Hlj : length jobs = length (ca_slots c)) by (apply (Forall2_length _ _ _ (ci_slots _ Hc))).
  apply Forall2_app_inv in Hs as [Hs1 Hs2]; [|by rewrite !length_take, Hlj].
  assert (Hne' := Hne). rewrite <-(take_drop first (ca_slots c)), Forall_app in Hne'. destruct Hne' as [Hn1 Hn2].
  pose proof (plan_ok reads content o (conj (proj1 (proj1 Ho)) (proj2 Ho)) (drop first (ca_slots c)) (drop first jobs) first 0 (max_batch_bytes o) false Hs2) as Hp.
  destruct Hp as [P1 P2 P3 P4 P5 P6 P7 P8]; [by eapply Forall_impl|lia|lia|]. rewrite Hplan in *. cbn [fst snd] in *. rewrite Z.sub_diag in P2.
  split_and!; [|done|done| | | |].
  - rewrite <-(take_drop first jobs). apply planned_before; [done|]. by rewrite length_take, Nat.min_l.
  - rewrite <-(take_drop first (ca_slots c)) at 1. apply Forall2_app; [|done]. apply Forall_Forall2_diag, Forall_true. done.
  - intros ->. destruct (P5 eq_refl) as [_ P5']. apply Forall_app. split; [done|]. clear -P5' Hn2. induction P5'; [done|]. apply Forall_cons in Hn2 as [? ?]. constructor; unfold no_error in *; auto.
  - intros ->. destruct (P7 eq_refl) as [|Hx]; [done|]. intros Hall. apply Forall_app in Hall. tauto.
  - intros Hn. apply Forall_app. split; [done|]. apply P8; [done|lia|lia].
Qed.

Let e1 := grow_scratch ops (ca_engine c).
Let e2 := with_scratch e1 (load_writes ops slots (en_scratch e1)).

(** The arena before the wave. *)
Lemma turn_loaded : loaded (en_scratch e2) 0 slots ops ∧ Forall (op_wf (en_scratch e2)) ops ∧ en_ring e2 = true ∧ en_options e2 = o.
Proof.
  destruct turn_plan as (Hp & Ht & _). destruct (grow_scratch_ok ops (ca_engine c)) as (G1 & G2 & G3 & G4). fold e1 in G1, G2, G3, G4.
  assert (Hin : ∀ op s d, op ∈ ops → slots !! pd_job op = Some s → jb_buffer (sl_job s) = BWrite d →
    pd_end op <= Z.of_nat (length (en_scratch e1)) ∧ 0 <= sl_progress s ∧ sl_progress s + pd_len op <= Z.of_nat (length d)).
  { intros op s d Hop Hs Hd. destruct (planned_lookup _ _ _ _ _ _ _ Hp Hop) as (i & j & s' & Hj & Hs' & [Hf Ho' Hpr (Hl1 & Hl2 & _) Hk' Hjob _ _ Hb]).
    rewrite Hjob in Hs. cbn in Hs. assert (s' = s) as -> by congruence. rewrite Hd in Hb. unfold job_len in Hl2.
    destruct (jb_buffer j) as [| |d0|]; try done. destruct (pd_owned op) eqn:Eo; [done|]. subst d0. cbn in Hl2. pose proof (scratch_need_le ops op Hop Eo). lia. }
  destruct (load_writes_ok slots ops 0 (en_scratch e1) Ht ltac:(lia) Hin) as (L1 & _ & L3).
  split_and!; [| |by rewrite <-(ci_ring _ Hc)|by rewrite <-(ci_options _ Hc)].
  - intros op i s d Hop Hjob Hs Hd. cbn in Hjob. rewrite <-Hjob in Hs. cbn [e2 with_scratch en_scratch]. rewrite L1.
    split_and!; [by eapply Hin|by eapply tiled_start|by apply L3].
  - eapply planned_wf; [exact Hp|]. intros op Hop Eo. cbn [e2 with_scratch en_scratch]. rewrite L1. pose proof (scratch_need_le ops op Hop Eo). lia.
Qed.

Lemma turn_reads : reads → Forall (λ op, pd_kind op ≠ KWrite) ops.
Proof.
  intros Hr. destruct turn_plan as (Hp & _). apply Forall_forall. intros op Hop.
  destruct (planned_lookup _ _ _ _ _ _ _ Hp Hop) as (i & j & s & Hj & _ & Hi). rewrite (pi_kind _ _ _ _ _ _ Hi). unfold reads in Hr.
  by eapply (Forall_lookup_1 _ _ _ _ Hr).
Qed.

(** The slots after a wave that was drained. *)
Lemma turn_completed completed e w : wave_end v ops e2 (ca_world c) (Ok completed, e, w) → ops ≠ [] →
  let '(slots', copied, f) := complete_all completed (en_scratch e) slots (ca_copied c) failed in
  let c' := Call e slots' first copied w in
  call_state c' ∧ (f = true → ¬ Forall no_error slots') ∧
  (f = false → Forall no_error slots' ∧ total_left jobs slots' < total_left jobs (ca_slots c) ∧ length slots' = length jobs ∧
     Forall (λ s, sl_done s = true) (take first slots')).
Proof.
  intros (W1 & W2 & W3 & evs & W4 & W5 & W6 & W7 & W8 & W9 & W10 & W11) Hops.
  destruct turn_plan as (Hp & Ht & Hd & Hkept & Hf1 & Hf2 & _). destruct turn_loaded as (Hl & Hw & Hr2 & Ho2).
  assert (Hans : Forall2 (answered reads content (en_scratch e)) ops completed).
  { eapply Forall2_impl; [exact W9|]. intros op0 op (A1 & A2 & A3 & A4). split_and!; [done|done|done|]. intros Hr Hk' Hres.
    rewrite <-(ci_content _ Hc Hr). apply A4; [|done|done]. rewrite (proj1 (groups_of_spec ops)). by apply turn_reads. }
  assert (Hfits : Forall (fits (en_scratch e)) ops).
  { apply Forall_forall. intros op Hop Hk' Eo. rewrite Forall_forall in Hw. specialize (Hw op Hop). unfold op_wf in Hw. rewrite Hk', Eo in Hw. rewrite W7.
    split; [by eapply tiled_start|tauto]. }
  destruct (complete_all_ok reads content (en_scratch e2) (en_scratch e) jobs slots ops 0 Hp Hoff Hfits completed [] (ca_copied c) failed Hans Hl eq_refl)
    as (slots' & copied & f & E & [A1 A2 A3 A4 A5 A6]). cbn [app] in E. rewrite E. split_and!.
  - split; cbn [ca_engine ca_world ca_slots]; [done|by rewrite W1|done|pose proof (ci_signals _ Hc); lia|done| |].
    + intros Hr. rewrite W11 by (by apply turn_reads). by apply (ci_content _ Hc).
    + destruct (ci_trace _ Hc) as (evs0 & T1 & T2). exists (evs0 ++ evs). rewrite W4, T1, app_assoc. split; [done|].
      unfold written in *. rewrite fmap_app, join_app, T2, A2, W8. apply Permutation_app_tail. by rewrite (planned_cells _ _ _ _ _ _ _ Hp (ci_slots _ Hc) Hkept).
  - intros [->|Hx]%orb_true_iff; apply A5; [right; by apply Hf2|by left].
  - intros [-> ->]%orb_false_iff. split_and!; [apply A4; [done|by apply Hf1]| |by rewrite <-(Forall2_length _ _ _ A1)|].
    + destruct (A3 eq_refl) as [_ A3']. pose proof (planned_left _ _ _ _ _ _ _ Hp (ci_slots _ Hc) Hkept) as Hle.
      destruct ops as [|op0 ops']; [done|]. inversion W9 as [|? op1 ? ? B1 B2]; subst. cbn [head] in A3', W10. 
      enough (total_left jobs slots' < total_left jobs slots) by lia. apply A3'. intros Hkw. apply W10. destruct B1 as [B1 _]. by rewrite B1 in Hkw.
    + apply (Forall2_take _ _ _ first) in A6. unfold slots in A6. rewrite take_app_length' in A6 by (lengths).
      clear -A6 Hdone. induction A6 as [|s s' ss ss' E _ IH]; [constructor|]. apply Forall_cons in Hdone as [Hd Hds]. constructor; [by rewrite (E Hd)|by apply IH].
Qed.

(** The slots after the ring was given up. *)
Lemma turn_poisoned error e w errno : wave_end v ops e2 (ca_world c) (Err error, e, w) →
  call_end (finish_call (Call e ((λ s, if sl_done s then s else fail_slot s errno) <$> slots) first (ca_copied c) w)).
Proof.
  intros (W1 & W2 & W3 & evs & W4 & W5 & rest1 & W6). destruct turn_plan as (Hp & Ht & Hd & Hkept & _). destruct turn_loaded as (Hl & Hw & Hr2 & Ho2).
  destruct (ci_trace _ Hc) as (evs0 & T1 & T2). destruct (planned_part _ _ _ _ _ _ _ Hp Hl) as [rest2 Hrest].
  assert (Hcells : all_cells ((λ s, if sl_done s then s else fail_slot s errno) <$> slots) = all_cells (ca_slots c)).
  { rewrite <-(planned_cells _ _ _ _ _ _ _ Hp (ci_slots _ Hc) Hkept). unfold all_cells. rewrite <-list_fmap_compose. f_equal.
    apply list_fmap_ext. intros i s _. cbn. by destruct (sl_done s). }
  exists ((λ s, if sl_done s then s else fail_slot s errno) <$> slots), (evs0 ++ evs), (written evs), (rest1 ++ rest2).
  cbn [ca_engine ca_slots ca_world with_stats en_options en_ring]. rewrite Hcells.
  assert (Hwr : written (evs0 ++ evs) ≡ₚ all_cells (ca_slots c) ++ written evs) by (unfold written in *; by rewrite fmap_app, join_app, T2).
  split_and!; [done|done|by rewrite W1|by eapply planned_failed| |by rewrite W4, T1, app_assoc|done| |pose proof (ci_signals _ Hc); lia|congruence].
  - intros Hall. rewrite Forall_fmap in Hall. apply Forall_fmap. eapply Forall_impl; [exact Hall|]. intros s. cbn. destruct (sl_done s) eqn:Ed; [by rewrite Ed|done].
  - rewrite Hwr, <-app_assoc, (app_assoc (written evs)), W6, <-(planned_cells _ _ _ _ _ _ _ Hp (ci_slots _ Hc) Hkept). done.
Qed.

Lemma turn_wave_ok : ops ≠ [] → ∃ a, wave k fuel ops e2 (ca_world c) = Done a ∧ wave_end v ops e2 (ca_world c) a.
Proof.
  intros Hops. destruct turn_plan as (Hp & Ht & Hd & _). destruct turn_loaded as (Hl & Hw & Hr2 & Ho2).
  apply wave_ok; [done|done|done|done|lia|by apply (ci_idle _ Hc)|pose proof (ci_signals _ Hc); lia].
Qed.
End Turn.

(** The first unfinished slot. *)
Lemma first_ok c : call_inv c → let first := skip_done (drop (ca_first c) (ca_slots c)) (ca_first c) in
  (first <= length (ca_slots c))%nat ∧ Forall (λ s, sl_done s = true) (take first (ca_slots c)) ∧
  ((first < length (ca_slots c))%nat → Forall no_error (ca_slots c) ∧ 0 < total_left jobs (ca_slots c)).
Proof.
  intros (Hc & Herr & Hf1 & Hf2) first. destruct (skip_done_ok (drop (ca_first c) (ca_slots c)) (ca_first c)) as (K1 & K2 & K3 & K4). fold first in K1, K2, K3, K4.
  set (n := (first - ca_first c)%nat) in *. rewrite length_drop in K2. assert (Hn : first = (ca_first c + n)%nat) by lia.
  split_and!; [lia| |].
  { rewrite Hn, <-(take_drop (ca_first c) (ca_slots c)), take_app_add' by (lengths). by apply Forall_app. }
  intros Hlt. rewrite lookup_drop, <-Hn in K4. destruct (ca_slots c !! first) as [s|] eqn:Es; [|apply lookup_ge_None in Es; lia].
  split; [destruct Herr as [?|Hall]; [done|]; pose proof (Forall_lookup_1 _ _ _ _ Hall Es) as E; cbn in E; congruence|].
  pose proof (ci_slots _ Hc) as Hs. destruct (Forall2_lookup_r _ _ _ _ _ Hs Es) as (j & Hj & Hjs). clear -Hs Es Hj Hjs K4.
  rewrite <-(take_drop_middle jobs first j Hj), <-(take_drop_middle (ca_slots c) first s Es) in *.
  assert (Hl : length (take first jobs) = length (take first (ca_slots c))).
  { rewrite !length_take. apply lookup_lt_Some in Hj, Es. lia. }
  rewrite total_left_app by done. apply Forall2_app_inv in Hs as [H1 H2]; [|done]. apply Forall2_cons in H2 as [_ H2].
  apply total_left_pos in H1, H2. unfold total_left at 2. cbn [zip_with foldr]. fold (total_left (drop (S first) jobs) (drop (S first) (ca_slots c))).
  unfold left. rewrite K4. destruct Hjs as (_ & _ & Hp & _). lia.
Qed.

Lemma call_turn_ok fuel c : call_inv c → (kv_signals v w0 + 1 < fuel)%nat →
  ∃ t, call_turn k fuel c = Done t ∧ turn_keeps call_inv (λ c, total_left jobs (ca_slots c)) call_end c (Some t).
Proof.
  intros Hinv Hfuel. destruct (first_ok c Hinv) as (F1 & F2 & F3). destruct Hinv as (Hc & _). unfold call_turn.
  set (first := skip_done _ _) in *. destruct (Nat.eqb_spec first (length (ca_slots c))) as [Hend|Hend].
  { eexists. split; [reflexivity|]. apply finish_call_ok; [done|]. intros _. rewrite Hend, firstn_all in F2. done. }
  destruct (F3 ltac:(lia)) as [Hne Hpos]. rewrite (ci_options _ Hc).
  destruct (plan o (drop first (ca_slots c)) first 0 (max_batch_bytes o) false) as [[rest ops] failed] eqn:Eplan.
  destruct (turn_plan c first rest ops failed fuel Hc Hne F1 F2 Hfuel Eplan) as (Hp & _ & _ & Hkept & _ & _ & Hnone).
  pose proof (turn_wave_ok c first rest ops failed fuel Hc Hne F1 F2 Hfuel Eplan) as Hwave.
  destruct (decide (ops = [])) as [->|Hops].
  - eexists. split; [reflexivity|]. specialize (Hnone eq_refl). apply planned_empty in Hp. split.
    + split_and!; [|by right|cbn; lengths|cbn; rewrite take_app_length' by (lengths); done].
      destruct Hc as [C1 C2 C3 C4 C5 C6 (evs & C7 & C8)]. split; try done. exists evs. split; [done|]. cbn [ca_slots].
      by rewrite (planned_cells _ _ 0 _ _ _ [] (planned_none _ _ _ _ _ Hp) C5 Hkept).
    + cbn [ca_slots]. by rewrite (total_left_done _ _ Hp Hnone).
  - destruct (Hwave Hops) as ([[r e] w] & E & Hend'). clear Hwave. destruct ops as [|op ops']; [done|]. rewrite E. cbn [mbind outcome_bind]. destruct r as [completed|error].
    + pose proof (turn_completed c first rest (op :: ops') failed fuel Hc Hne F1 F2 Hfuel Eplan completed e w Hend' ltac:(done)) as Ht.
      destruct (complete_all _ _ _ _ _) as [[slots' copied] f]. destruct Ht as (T1 & T2 & T3). eexists. split; [reflexivity|]. destruct f.
      * apply finish_call_ok; [done|]. intros H. by destruct (T2 eq_refl).
      * destruct (T3 eq_refl) as (T4 & T5 & T6 & T7). split; [|done]. pose proof (Forall2_length _ _ _ (ci_slots _ Hc)). split_and!; [done|by left|cbn; lia|done].
    + eexists. split; [reflexivity|]. by eapply (turn_poisoned c first rest (op :: ops') failed fuel Hc Hne F1 F2 Hfuel Eplan).
Qed.

(** The whole call. *)
Lemma execute_ok fuel e : en_ring e = true → en_options e = o → idle v w0 → (kv_signals v w0 + 1 < fuel)%nat →
  foldr Z.add 0 ((λ j, 1 + job_len j) <$> jobs) < Z.of_nat fuel →
  ∃ a, execute k fuel jobs e w0 = Done a ∧ call_end a.
Proof.
  intros Hring Hopt Hidle Hsig Hfuel. unfold execute. rewrite Hring. cbn [negb].
  set (slots := (λ j, Slot j 0 false None) <$> jobs).
  pose proof (fresh_slots reads content jobs) as Hslots. fold slots in Hslots.
  destruct Hslots as (S1 & S2 & S3 & S4).
  eapply (run_in_ok _ _ _ call_inv (λ c, total_left jobs (ca_slots c)) call_end).
  - intros c (Hc & _). apply total_left_pos, (ci_slots _ Hc).
  - intros c Hc _. by apply call_turn_ok.
  - intros c (Hc & Herr & Hf1 & Hf2) Hg%Nat.ltb_ge. apply finish_call_ok; [done|]. intros _. by rewrite firstn_all2 in Hf2.
  - split_and!; [|by left|cbn; lia|constructor]. split; cbn [ca_engine ca_world ca_slots]; try done. exists []. rewrite app_nil_r, S4. done.
  - cbn [ca_slots]. lia.
Qed.
End Loop.
End CallLemmas.
