(* ===== verification/UringApi.v ===== *)
(** * The io_uring engine: batches of writes and reads

    The executor operations over whole calls, and a kernel that performs queued
    submissions in reverse order, a few bytes at a time, to which they apply. *)
From stdpp Require Import base numbers list sorting strings.
From S2P Require Import Prelude Errors Loops Uring UringSpec UringWave UringCall.

(** The first [n] bytes of a write. *)
Definition write_cells (op : WriteOp) (n : Z) : list (file * Z * Byte.byte) :=
  cells (wr_file op) (wr_offset op) (take (Z.to_nat n) (wr_data op)).
Definition write_len (op : WriteOp) : Z := Z.of_nat (length (wr_data op)).

(** The engine can use the ring: its waves fit the queue. *)
Definition usable {W} (v : kernel_view W) (e : Engine) (w : W) : Prop :=
  en_ring e = true ∧ 0 < queue_depth (en_options e) <= kv_capacity v ∧ 0 < max_batch_bytes (en_options e) ∧ WaveLemmas.idle v w.

(** What a read may return: bytes of the file from its offset on, the rest of the
    buffer as it was. *)
Definition read_result (content : file → bytes) (op : ReadOp) (rb : result ioerr Z * bytes) : Prop :=
  length rb.2 = length (rd_buffer op) ∧
  ∀ n, rb.1 = Ok n →
    0 <= n <= Z.of_nat (length (rd_buffer op)) ∧ take (Z.to_nat n) rb.2 `prefix_of` drop (Z.to_nat (rd_offset op)) (content (rd_file op)) ∧
    drop (Z.to_nat n) rb.2 = drop (Z.to_nat n) (rd_buffer op).

(** An owned read: bytes of the file from its offset on, no more than asked for. *)
Definition owned_result (content : file → bytes) (op : ReadOp) (r : result ioerr bytes) : Prop :=
  ∀ data, r = Ok data → (length data <= length (rd_buffer op))%nat ∧ data `prefix_of` drop (Z.to_nat (rd_offset op)) (content (rd_file op)).

Module ApiLemmas.
Import UringLemmas WaveLemmas CallLemmas.

Section Api.
Context {W : Type} (k : kernel W) (v : kernel_view W) (Hk : kernel_ok k v).

(** ** Writes *)

Lemma write_slots reads content ops slots : Forall2 (slot_inv reads content) (job_of_write <$> ops) slots →
  all_cells slots = mjoin (zip_with write_cells ops (sl_progress <$> slots)) ∧
  Forall2 (λ op s, 0 <= sl_progress s <= write_len op ∧ (sl_done s = true → sl_error s = None → sl_progress s = write_len op)) ops slots.
Proof.
  revert slots. induction ops as [|op ops IH]; intros slots Hs; cbn [fmap list_fmap] in Hs; inversion Hs as [|? s ? slots' Hj Hs']; subst; [by repeat constructor|].
  destruct (IH slots' Hs') as [IH1 IH2]. unfold all_cells in *. cbn [fmap list_fmap zip_with]. rewrite !mjoin_cons, IH1, (slot_cells _ _ _ _ _ Hj). split; [done|].
  constructor; [|done]. destruct Hj as (_ & _ & Hp & Hb). cbn in Hb, Hp. split; [done|]. destruct (jb_buffer (sl_job s)); try done. by destruct Hb.
Qed.

(** C11: A batch of writes through the ring ends with one result per operation.
    Whatever the kernel's short writes, reordered completions and interrupted
    waits: an acknowledged operation has all of its first [n] bytes in the file,
    [n] its result, each written once and at its place; no byte of the batch is
    ever written twice; nothing else is written.  As long as the ring survives,
    the bytes written are exactly those counted, and a batch without an error
    has been written completely. *)
Theorem engine_writes_exactly_once fuel ops e w : usable v e w → syscall_writes (en_options e) = false → Forall (λ op, 0 <= wr_offset op) ops →
  (kv_signals v w + 1 < fuel)%nat → foldr Z.add 0 ((λ op, 1 + write_len op) <$> ops) < Z.of_nat fuel →
  ∃ results e' w' evs progress extra rest,
    write k fuel ops e w = Done (results, e', w') ∧ kv_trace v w' = kv_trace v w ++ evs ∧
    Forall2 (λ op n, 0 <= n <= write_len op) ops progress ∧ Forall2 (λ n r, if r is Ok m then m = n else True) progress results ∧
    written evs ≡ₚ mjoin (zip_with write_cells ops progress) ++ extra ∧
    written evs ++ rest ≡ₚ mjoin ((λ op, write_cells op (write_len op)) <$> ops) ∧
    (en_ring e' = true → extra = [] ∧ idle v w') ∧
    ((∀ r, r ∈ results → ∃ n, r = Ok n) → progress = write_len <$> ops).
Proof.
  intros (U1 & U2 & U3 & U4) Hsys Hoff Hsig Hfuel. unfold write. rewrite Hsys. cbn [andb].
  assert (Hj : foldr Z.add 0 ((λ j, 1 + job_len j) <$> (job_of_write <$> ops)) = foldr Z.add 0 ((λ op, 1 + write_len op) <$> ops)) by (by rewrite <-list_fmap_compose).
  destruct (execute_ok k v Hk (job_of_write <$> ops) (en_options e) w (conj U2 U3) ltac:(by apply Forall_fmap) fuel e) as ([[[results jobs] e'] w'] & E & Hend);
    [done|done|done|done|by rewrite Hj|].
  rewrite E. cbn [mbind outcome_bind]. destruct Hend as (slots & evs & extra & rest & -> & -> & _ & Hs & Hdone & Ht & Hw & Hr & _ & Hring).
  destruct (write_slots _ _ _ _ Hs) as [Hc Hp]. rewrite Hc in Hw. rewrite <-list_fmap_compose in Hr.
  exists ((λ s, match sl_error s with Some errno => Err (Os errno) | None => Ok (sl_progress s) end) <$> slots), e', w', evs, (sl_progress <$> slots), extra, rest.
  split_and!; [done|done| | |done|done|intros Hr1; destruct (Hring Hr1) as (? & ? & _); done|].
  - clear -Hp. induction Hp as [|? ? ? ? [? _]]; constructor; done.
  - clear. induction slots as [|s slots IH]; constructor; [|done]. by destruct (sl_error s).
  - intros Hall. assert (Hne : Forall no_error slots).
    { apply Forall_forall. intros s Hs'. unfold no_error. destruct (sl_error s) eqn:Ee; [|done].
      destruct (Hall (Err (Os z))) as [n ?]; [|done]. apply list_elem_of_fmap. exists s. by rewrite Ee. }
    specialize (Hdone Hne). clear -Hp Hne Hdone. induction Hp as [|op s ops slots [_ H1] Hp IH]; [done|]. apply Forall_cons in Hne as [N1 N2], Hdone as [D1 D2].
    cbn [fmap list_fmap]. by rewrite (H1 D1 N1), IH.
Qed.

(** ** Reads *)

Definition read_of_job (j : Job) : ReadOp := MakeRead (jb_file j) (jb_offset j) (buffer_of j).
Definition is_read_job (j : Job) : Prop := ∃ b, jb_buffer j = BRead b.
(** The ring's answer to a job of reading. *)
Definition ring_result (content : file → bytes) (j : Job) (rj : result ioerr Z * Job) : Prop :=
  is_read_job rj.2 ∧ read_result content (read_of_job j) (rj.1, buffer_of rj.2).

Lemma read_slots content jobs slots : Forall is_read_job jobs → Forall2 (slot_inv True content) jobs slots →
  Forall2 (ring_result content) jobs
    (zip ((λ s, match sl_error s with Some errno => Err (Os errno) | None => Ok (sl_progress s) end) <$> slots) (sl_job <$> slots)).
Proof.
  intros Hr Hs. induction Hs as [|j s jobs slots (Hf & Ho & Hp & Hb) Hs IH]; [constructor|]. apply Forall_cons in Hr as [[b0 Ej] Hr].
  cbn [fmap list_fmap zip zip_with]. constructor; [|by apply IH]. rewrite Ej in Hb. unfold job_len in Hp. rewrite Ej in Hp. cbn in Hp.
  destruct (jb_buffer (sl_job s)) as [b| | |] eqn:Es; try done. destruct Hb as (B1 & B2 & B3).
  split; [by eexists|]. unfold read_result, read_of_job, buffer_of. cbn. rewrite Ej, Es. split; [done|]. intros n E. destruct (sl_error s); [done|]. injection E as <-.
  split_and!; [lia|lia|by apply B3|done].
Qed.

Lemma slot_inv_reads (reads : Prop) content j s : reads → slot_inv reads content j s → slot_inv True content j s.
Proof.
  intros Hr (H1 & H2 & H3 & H4). split; [done|split; [done|split; [done|]]].
  destruct (jb_buffer j), (jb_buffer (sl_job s)); try done; unfold holds in *; naive_solver.
Qed.

Lemma ring_reads fuel jobs e w : usable v e w → Forall is_read_job jobs → Forall (λ j, 0 <= jb_offset j) jobs → (kv_signals v w + 1 < fuel)%nat →
  foldr Z.add 0 ((λ j, 1 + job_len j) <$> jobs) < Z.of_nat fuel →
  ∃ results jobs' e' w', execute k fuel jobs e w = Done (results, jobs', e', w') ∧ length results = length jobs ∧ length jobs' = length jobs ∧
    Forall2 (ring_result (kv_content v w)) jobs (zip results jobs') ∧
    en_options e' = en_options e ∧ (en_ring e' = true → usable v e' w' ∧ kv_content v w' = kv_content v w).
Proof.
  intros (U1 & U2 & U3 & U4) Hr Hoff Hsig Hfuel.
  destruct (execute_ok k v Hk jobs (en_options e) w (conj U2 U3) Hoff fuel e) as ([[[results jobs'] e'] w'] & E & Hend); [done..|].
  destruct Hend as (slots & evs & extra & rest & -> & -> & Ho & Hs & _ & _ & _ & _ & _ & Hring).
  assert (Hro : Forall (λ j, job_kind j ≠ KWrite) jobs) by (eapply Forall_impl; [exact Hr|]; intros j [b Ej]; unfold job_kind; by rewrite Ej).
  pose proof (Forall2_length _ _ _ Hs) as Hl. eexists _, _, e', w'. split; [exact E|]. rewrite !length_fmap. split_and!; [done|done| |done|].
  - apply read_slots; [done|]. eapply Forall2_impl; [exact Hs|]. intros j s. by apply slot_inv_reads.
  - intros H. destruct (Hring H) as (_ & H2 & H3). split; [by rewrite <-Ho in U2, U3|by apply H3].
Qed.

(** *** Probing *)

(** A probe changes nothing but what it reads. *)
Definition quiet (w w' : W) : Prop := same_ring v w w' ∧ kv_content v w' = kv_content v w.
Lemma quiet_refl w : quiet w w.
Proof. by split. Qed.
Lemma quiet_trans w1 w2 w3 : quiet w1 w2 → quiet w2 w3 → quiet w1 w3.
Proof. intros [(A1 & A2 & A3 & A4) A5] [(B1 & B2 & B3 & B4) B5]. split; [split_and!|]; congruence. Qed.

Lemma attempt_ok op p w r p' w' : attempt k op p w = (r, p', w') → pr_failed p' = pr_failed p ∧ quiet w w' ∧
  ∀ data, r = Ok data → Z.of_nat (length data) <= Z.of_nat (length (rd_buffer op)) ∧ data `prefix_of` drop (Z.to_nat (rd_offset op)) (kv_content v w (rd_file op)).
Proof.
  unfold attempt. intros E. destruct (pr_probe p && _); [|by injection E as <- <- <-].
  destruct ((pr_warm p =? 0) || _).
  - destruct (k_nowait k _ _ _ w) as [r1 w1] eqn:Ek. injection E as <- <- <-. destruct (ko_nowait k v Hk _ _ _ _ _ _ Ek) as (H1 & H2 & H3). by split_and!.
  - destruct (k_pread k _ _ _ w) as [r1 w1] eqn:Ek. injection E as <- <- <-. destruct (ko_pread k v Hk _ _ _ _ _ _ Ek) as (H1 & H2 & H3). by split_and!.
Qed.

(** The bytes of a probe at the beginning of a buffer. *)
Lemma probe_result content op data : Z.of_nat (length data) <= Z.of_nat (length (rd_buffer op)) →
  data `prefix_of` drop (Z.to_nat (rd_offset op)) (content (rd_file op)) →
  read_result content op (Ok (Z.of_nat (length data)), overwrite (rd_buffer op) 0 data).
Proof.
  intros Hl Hp. unfold read_result. cbn [fst snd]. change (overwrite (rd_buffer op) 0 data) with (data ++ drop (length data) (rd_buffer op)).
  split; [lengths|]. intros n [= <-]. rewrite Nat2Z.id, take_app_length, drop_app_length. by split_and!; [lia|lia| |].
Qed.

(** What a probed operation leaves to the ring. *)
Definition probed_ok (content : file → bytes) (op : ReadOp) (x : result ioerr Z * bytes * option Job) : Prop :=
  read_result content op x.1 ∧
  ∀ j, x.2 = Some j → ∃ n, x.1.1 = Ok n ∧ 0 <= n ∧ j = job_of_read (MakeRead (rd_file op) (rd_offset op + n) (drop (Z.to_nat n) x.1.2)).

Lemma read_result_same content op : 0 <= rd_offset op → read_result content op (Ok 0, rd_buffer op).
Proof. intros Ho. split; [done|]. intros n [= <-]. cbn. split_and!; [lia|lia|apply prefix_nil|done]. Qed.
Lemma read_result_err content op error b : length b = length (rd_buffer op) → read_result content op (Err error, b).
Proof. by intros Hl. Qed.

Lemma probe_rest_ok op data p w w1 : quiet w w1 → Z.of_nat (length data) <= Z.of_nat (length (rd_buffer op)) →
  data `prefix_of` drop (Z.to_nat (rd_offset op)) (kv_content v w (rd_file op)) →
  let '(r, b, j, p', w') := probe_rest op data p w1 in quiet w w' ∧ probed_ok (kv_content v w) op (r, b, j).
Proof.
  intros Hq H1 H2. pose proof (probe_result _ _ _ H1 H2) as Hres. unfold probe_rest, checked_add. destruct (_ <=? _); (split; [done|]).
  - split; [done|]. intros j [= <-]. cbn [fst snd]. exists (Z.of_nat (length data)). split_and!; [done|lia|]. unfold job_of_read. cbn. by rewrite Nat2Z.id.
  - split; [|done]. apply read_result_err. by destruct Hres.
Qed.

Lemma probe_one_ok op p w : 0 <= rd_offset op → let '(r, b, j, p', w') := probe_one k op p w in
  quiet w w' ∧ probed_ok (kv_content v w) op (r, b, j).
Proof.
  intros Ho. unfold probe_one. destruct (pr_failed p) eqn:Ef; [split; [by apply quiet_refl|split; [by apply read_result_same|done]]|].
  case_bool_decide as Hempty; [split; [by apply quiet_refl|split; [by apply read_result_same|done]]|].
  destruct (attempt k op p w) as [[r p1] w1] eqn:Ea. destruct (attempt_ok _ _ _ _ _ _ Ea) as (_ & Hq & Hd).
  assert (Hnil : ∀ p2, let '(r, b, j, p', w') := probe_rest op [] p2 w1 in quiet w w' ∧ probed_ok (kv_content v w) op (r, b, j))
    by (intros p2; apply probe_rest_ok; [done|cbn; lia|apply prefix_nil]).
  destruct r as [data|error].
  - destruct (Hd data eq_refl) as [H1 H2]. destruct (Z.eqb_spec (Z.of_nat (length data)) (Z.of_nat (length (rd_buffer op)))) as [E|].
    + split; [done|]. split; [|done]. rewrite <-E. by apply probe_result.
    + by apply probe_rest_ok.
  - case_bool_decide; [exact (Hnil _)|]. destruct (_ || _); [exact (Hnil _)|]. split; [done|]. split; [by apply read_result_err|done].
Qed.

Lemma probe_all_ok ops p w : Forall (λ op, 0 <= rd_offset op) ops → let '(probed, p', w') := probe_all k ops p w in
  quiet w w' ∧ Forall2 (probed_ok (kv_content v w)) ops probed.
Proof.
  intros Ho. revert p w. induction Ho as [|op ops H1 Ho IH]; intros p w; cbn [probe_all]; [split; [apply quiet_refl|constructor]|].
  pose proof (probe_one_ok op p w H1) as Hone. destruct (probe_one k op p w) as [[[[r b] j] p1] w1]. destruct Hone as [Q1 P1].
  specialize (IH p1 w1). destruct (probe_all k ops p1 w1) as [[rest p2] w2]. destruct IH as [Q2 P2]. split; [by eapply quiet_trans|].
  destruct Q1 as [_ Q1]. rewrite Q1 in P2. by constructor.
Qed.

(** A read continued by the ring. *)
Lemma continue_result content op n b r j : 0 <= rd_offset op → 0 <= n → read_result content op (Ok n, b) →
  ring_result content (job_of_read (MakeRead (rd_file op) (rd_offset op + n) (drop (Z.to_nat n) b))) (r, j) →
  read_result content op (match r with Ok count => Ok (count + n) | Err error => Err error end,
    match jb_buffer j with BRead suffix => take (Z.to_nat n) b ++ suffix | _ => b end).
Proof.
  intros Ho Hn [Hl Hres] [[suffix Ej] [Hl2 Hres2]]. cbn [fst snd] in *. destruct (Hres n eq_refl) as (R1 & R2 & R3). unfold buffer_of, read_of_job, job_of_read in *.
  cbn in *. rewrite Ej in *. rewrite length_drop in Hl2. split; cbn [fst snd]; [lengths|].
  intros m E. destruct r as [count|]; [|done]. injection E as <-. destruct (Hres2 count eq_refl) as (Q1 & Q2 & Q3). rewrite length_drop in Q1.
  replace (Z.to_nat (count + n)) with (Z.to_nat n + Z.to_nat count)%nat by lia. assert (Htl : length (take (Z.to_nat n) b) = Z.to_nat n) by (lengths).
  split_and!; [lia|lia| |].
  - rewrite take_app_add' by done. apply prefix_join; [done|]. rewrite Htl, drop_drop. by replace (Z.to_nat (rd_offset op) + Z.to_nat n)%nat with (Z.to_nat (rd_offset op + n)) by lia.
  - rewrite drop_app_add' by done. rewrite Q3, drop_drop. rewrite <-(drop_drop (rd_buffer op)), <-R3, drop_drop. done.
Qed.

Lemma merge_ring_ok content ops probed results jobs : Forall (λ op, 0 <= rd_offset op) ops → Forall2 (probed_ok content) ops probed →
  length results = length jobs → Forall2 (ring_result content) (omap (λ x, x.2) probed) (zip results jobs) →
  Forall2 (read_result content) ops (merge_ring probed results jobs).
Proof.
  intros Ho Hp. revert results jobs. induction Hp as [|op [[r b] j] ops probed [P1 P2] Hp IH]; intros results jobs Hl Hr; [constructor|].
  apply Forall_cons in Ho as [Ho1 Ho]. specialize (IH Ho). cbn [merge_ring]. destruct j as [j|]; [|constructor; [done|by apply IH]].
  cbn [omap list_omap] in Hr. cbn in Hr. destruct results as [|r' results], jobs as [|j' jobs]; try (by inversion Hr). injection Hl as Hl.
  cbn [zip zip_with] in Hr. inversion Hr as [|? ? ? ? R1 R2]; subst. destruct (P2 j eq_refl) as (n & E & Hn & Ej). cbn [fst snd] in E, Ej. subst r j.
  constructor; [by apply continue_result|by apply IH].
Qed.

Definition read_len (op : ReadOp) : Z := Z.of_nat (length (rd_buffer op)).

Lemma fallback_fuel content ops probed : Forall2 (probed_ok content) ops probed →
  foldr Z.add 0 ((λ j, 1 + job_len j) <$> omap (λ x, x.2) probed) <= foldr Z.add 0 ((λ op, 1 + read_len op) <$> ops).
Proof.
  induction 1 as [|op [[r b] [j|]] ops probed [[Hl _] P2] Hp IH]; [done| |].
  - change (1 + job_len j + foldr Z.add 0 ((λ j, 1 + job_len j) <$> omap (λ x, x.2) probed) <= 1 + read_len op + foldr Z.add 0 ((λ op, 1 + read_len op) <$> ops)).
    destruct (P2 j eq_refl) as (n & _ & _ & ->). assert (Hj : job_len (job_of_read (MakeRead (rd_file op) (rd_offset op + n) (drop (Z.to_nat n) b))) <= read_len op)
      by (unfold job_len, read_len; cbn; rewrite length_drop; cbn in Hl; lia). cbn [fst snd]. lia.
  - change (foldr Z.add 0 ((λ j, 1 + job_len j) <$> omap (λ x, x.2) probed) <= 1 + read_len op + foldr Z.add 0 ((λ op, 1 + read_len op) <$> ops)).
    unfold read_len at 1. lia.
Qed.

Lemma omap_Forall (P : ReadOp → Prop) (Q : Job → Prop) content ops probed : Forall P ops → Forall2 (probed_ok content) ops probed →
  (∀ op x j, P op → probed_ok content op x → x.2 = Some j → Q j) → Forall Q (omap (λ x, x.2) probed).
Proof.
  intros Ho Hp HQ. induction Hp as [|op [rb j] ops probed H1 Hp IH]; [constructor|]. apply Forall_cons in Ho as [Ho1 Ho]. cbn [omap list_omap].
  destruct j as [j|]; cbn; [constructor; [by eapply HQ|]|]; by apply IH.
Qed.

Lemma Forall2_zip_snd {A} (P : A → result ioerr Z * bytes → Prop) (xs : list A) (results : list (result ioerr Z)) (jobs : list Job) :
  length results = length jobs → Forall2 (λ x rj, P x (rj.1, buffer_of rj.2)) xs (zip results jobs) → Forall2 P xs (zip results (buffer_of <$> jobs)).
Proof.
  revert results jobs. induction xs as [|x xs IH]; intros [|r results] [|j jobs] Hl H; cbn [zip zip_with fmap list_fmap] in *; inversion H; subst; try done.
  constructor; [done|]. apply IH; [by injection Hl|done].
Qed.

Lemma read_ok fuel ops e w : usable v e w → Forall (λ op, 0 <= rd_offset op) ops → (kv_signals v w + 1 < fuel)%nat →
  foldr Z.add 0 ((λ op, 1 + read_len op) <$> ops) < Z.of_nat fuel →
  ∃ results e' w', read k fuel ops e w = Done (results, e', w') ∧ Forall2 (read_result (kv_content v w)) ops results ∧
    (en_ring e' = true → usable v e' w' ∧ kv_content v w' = kv_content v w).
Proof.
  intros Hu Ho Hsig Hfuel. unfold read. destruct (cached_reads _ && _ && _ && _).
  - pose proof (probe_all_ok ops (Probing false true 0 true 0 0 0 0) w Ho) as Hp. destruct (probe_all k ops _ w) as [[probed p] w1].
    destruct Hp as [[(Q1 & Q2 & Q3 & Q4) Q5] Hp].
    set (e1 := with_stats _ _). assert (Hu1 : usable v e1 w1).
    { destruct Hu as (U1 & U2 & U3 & U4 & U5). unfold e1, usable, idle. rewrite Q1, Q2. destruct (pr_nowait p); exact (conj U1 (conj U2 (conj U3 (conj U4 U5)))). }
    destruct (pr_failed p || _).
    + eexists _, e1, w1. split; [reflexivity|]. split; [|done]. clear -Hp. induction Hp as [|? ? ? ? [? _]]; constructor; done.
    + destruct (ring_reads fuel (omap (λ x, x.2) probed) e1 w1) as (results & jobs & e' & w' & E & L1 & L2 & Hr & Ho' & Hring); [done| | |by rewrite Q4|pose proof (fallback_fuel _ _ _ Hp); lia|].
      * apply (omap_Forall _ _ _ _ _ Ho Hp). clear. intros op x j _ [_ H] E. destruct (H j E) as (n & _ & _ & ->). by eexists.
      * apply (omap_Forall _ _ _ _ _ Ho Hp). clear. intros op x j H1 [_ H] E. destruct (H j E) as (n & _ & Hn & ->). cbn in *. lia.
      * rewrite E. cbn [mbind outcome_bind]. eexists _, e', w'. split; [reflexivity|]. rewrite <-Q5. split; [|done]. rewrite <-Q5 in Hp. apply merge_ring_ok; [done|done|congruence|done].
  - destruct (ring_reads fuel (job_of_read <$> ops) e w) as (results & jobs & e' & w' & E & L1 & L2 & Hr & Ho' & Hring); [done| |by apply Forall_fmap|done| |].
    + apply Forall_fmap, Forall_true. intros op. by eexists.
    + by rewrite <-list_fmap_compose.
    + rewrite E. cbn [mbind outcome_bind]. eexists _, e', w'. split; [reflexivity|]. split; [|done]. apply Forall2_zip_snd; [congruence|]. apply (Forall2_fmap_l job_of_read) in Hr. eapply Forall2_impl; [exact Hr|]. by intros op [r j] [_ H].
Qed.

(** *** Owned buffers *)

Lemma owned_slots content ops slots : Forall2 (slot_inv True content) (job_of_owned <$> ops) slots →
  Forall2 (owned_result content) ops
    (zip_with (λ r j, match r with Ok count => Ok (take (Z.to_nat count) (buffer_of j)) | Err error => Err error end)
      ((λ s, match sl_error s with Some errno => Err (Os errno) | None => Ok (sl_progress s) end) <$> slots) (sl_job <$> slots)).
Proof.
  revert slots. induction ops as [|op ops IH]; intros slots Hs; cbn [fmap list_fmap] in Hs; inversion Hs as [|? s ? slots' (Hf & Ho & Hp & Hb) Hs']; subst; [constructor|].
  cbn [fmap list_fmap zip_with]. constructor; [|by apply IH]. intros data E. destruct (sl_error s); [done|]. injection E as <-.
  cbn in Hb. unfold job_len in Hp. cbn in Hp. unfold buffer_of. destruct (jb_buffer (sl_job s)) as [|b| |]; try done. destruct (Hb eq_refl) as [B1 B2].
  split; [lengths|by apply B2].
Qed.

Lemma owned_of_read content op rb : read_result content op rb →
  owned_result content op (match rb.1 with
    | Ok count => if Z.of_nat (length rb.2) <? count then Err (Simple InvalidData) else Ok (take (Z.to_nat count) rb.2)
    | Err error => Err error end).
Proof.
  intros [Hl Hres] data E. destruct rb.1 as [count|]; [|done]. destruct (Hres count eq_refl) as (R1 & R2 & _). destruct (Z.ltb_spec (Z.of_nat (length rb.2)) count); [done|].
  injection E as <-. split; [lengths|done].
Qed.

Lemma read_owned_ok fuel ops e w : usable v e w → Forall (λ op, 0 <= rd_offset op) ops → (kv_signals v w + 1 < fuel)%nat →
  foldr Z.add 0 ((λ op, 1 + read_len op) <$> ops) < Z.of_nat fuel →
  ∃ results e' w', read_owned k fuel ops e w = Done (results, e', w') ∧ Forall2 (owned_result (kv_content v w)) ops results ∧
    (en_ring e' = true → usable v e' w' ∧ kv_content v w' = kv_content v w).
Proof.
  intros Hu Ho Hsig Hfuel. unfold read_owned. destruct (_ || _).
  - destruct (read_ok fuel ops e w) as (results & e' & w' & E & Hr & Hring); [done..|]. unfold read_owned_via_borrowed. rewrite E. cbn [mbind outcome_bind].
    rewrite <-(Forall2_length _ _ _ Hr), Nat.eqb_refl. eexists _, e', w'. split; [reflexivity|]. split; [|done].
    apply Forall2_fmap_r. eapply Forall2_impl; [exact Hr|]. intros op rb. apply owned_of_read.
  - destruct Hu as (U1 & U2 & U3 & U4).
    destruct (execute_ok k v Hk (job_of_owned <$> ops) (en_options e) w (conj U2 U3) ltac:(by apply Forall_fmap) fuel e) as ([[[results jobs] e'] w'] & E & Hend);
      [done|done|done|done|by rewrite <-list_fmap_compose|].
    destruct Hend as (slots & evs & extra & rest & -> & -> & Hopt & Hs & _ & _ & _ & _ & _ & Hring). rewrite E. cbn [mbind outcome_bind].
    assert (Hro : Forall (λ j, job_kind j ≠ KWrite) (job_of_owned <$> ops)) by (by apply Forall_fmap, Forall_true).
    eexists _, e', w'. split; [reflexivity|]. split.
    + apply owned_slots. eapply Forall2_impl; [exact Hs|]. intros j s. apply slot_inv_reads. done.
    + intros H. destruct (Hring H) as (_ & H2 & H3). split; [by rewrite <-Hopt in U2, U3|by apply H3].
Qed.

(** C12: A batch of reads ends, whether it probes the page cache first, shares
    waves of the ring or does both: each operation that succeeds has in its
    buffer a prefix of the file's bytes from its offset on, as many as its result
    says, and what lies beyond is untouched; an owned buffer is cut to them.
    The files are as before and, unless the ring was given up, it is ready for
    the next call. *)
Theorem engine_reads_correct fuel ops e w : usable v e w → Forall (λ op, 0 <= rd_offset op) ops → (kv_signals v w + 1 < fuel)%nat →
  foldr Z.add 0 ((λ op, 1 + read_len op) <$> ops) < Z.of_nat fuel →
  (∃ results e' w', read k fuel ops e w = Done (results, e', w') ∧ Forall2 (read_result (kv_content v w)) ops results ∧
     (en_ring e' = true → usable v e' w' ∧ kv_content v w' = kv_content v w)) ∧
  (∃ results e' w', read_owned k fuel ops e w = Done (results, e', w') ∧ Forall2 (owned_result (kv_content v w)) ops results ∧
     (en_ring e' = true → usable v e' w' ∧ kv_content v w' = kv_content v w)).
Proof. intros. split; [by apply read_ok|by apply read_owned_ok]. Qed.
End Api.
End ApiLemmas.

(** ** A kernel *)

(** Performs a submission at a time, up to three bytes of it, the last queued
    first; a wait is interrupted while signals are due, after one submission. *)
Module ToyKernel.
Record world := World { wo_queue : list sqe; wo_ready : list cqe; wo_trace : list event; wo_content : file → bytes; wo_signals : nat }.

Definition perform (e : sqe) (content : file → bytes) : event * (file → bytes) :=
  let here := content (sq_file e) in
  let at_ := Z.to_nat (sq_offset e) in
  match sq_what e with
  | SqRead len => let data := take (Z.to_nat (3 `min` len)) (drop at_ here) in (Event e (len `min` Z.of_nat (length data)) data, content)
  | SqWrite data =>
      let part := take 3 data in
      (Event e (Z.of_nat (length part)) [],
       λ f, if bool_decide (f = sq_file e) then take at_ here ++ part ++ drop (at_ + length part) here else content f)
  | SqFsync _ => (Event e 0 [], content)
  end.
Fixpoint perform_all (es : list sqe) (content : file → bytes) : list event * (file → bytes) :=
  match es with
  | [] => ([], content)
  | e :: es => let '(ev, content) := perform e content in let '(evs, content) := perform_all es content in (ev :: evs, content)
  end.
Definition advance (now later : list sqe) (signals : nat) (w : world) : world :=
  let '(evs, content) := perform_all now (wo_content w) in
  World later (wo_ready w ++ (ev_cqe <$> evs)) (wo_trace w ++ evs) content signals.
Definition enter (want : Z) (w : world) : result ioerr Z * world :=
  match wo_signals w, rev (wo_queue w) with
  | S n, last :: before => (Err (Os EINTR), advance [last] (rev before) n w)
  | S n, [] => (Err (Os EINTR), advance [] [] n w)
  | O, all =>
      let w := advance all [] 0 w in
      (if want <=? Z.of_nat (length (wo_ready w)) then Ok (Z.of_nat (length all)) else Err (Os EIO), w)
  end.
Definition pread (f : file) (offset len : Z) (w : world) : result ioerr bytes * world :=
  (if len <? 0 then Err (Os EINVAL) else Ok (take (Z.to_nat (3 `min` len)) (drop (Z.to_nat offset) (wo_content w f))), w).
Definition toy : kernel world := {|
  k_push e w := if Z.of_nat (length (wo_queue w)) <? 4 then Some (World (wo_queue w ++ [e]) (wo_ready w) (wo_trace w) (wo_content w) (wo_signals w)) else None;
  k_enter := enter;
  k_completions w := (wo_ready w, World (wo_queue w) [] (wo_trace w) (wo_content w) (wo_signals w));
  k_nowait := pread;
  k_pread := pread;
  k_pwrite f offset data w :=
    let '(ev, content) := perform (Sqe f offset (SqWrite data) 0) (wo_content w) in
    (Ok (ev_result ev), World (wo_queue w) (wo_ready w) (wo_trace w) content (wo_signals w));
  k_fsync _ _ w := (Ok (), w);
|}.
Definition view : kernel_view world := KernelView _ 4 wo_queue wo_ready wo_trace wo_content wo_signals.

Lemma perform_ok e content : let '(ev, content') := perform e content in
  ev_sqe ev = e ∧ plausible ev ∧ (sq_is_write e = false → content' = content ∧ reads_content content ev).
Proof.
  unfold perform, plausible, reads_content, sq_length, sq_is_write. destruct (sq_what e) as [len|data|] eqn:E; cbn [ev_sqe ev_result ev_bytes]; rewrite E; split_and!; try done.
  - lia.
  - intros _. split; [done|]. intros Hl. split; [lia|]. etrans; apply prefix_take.
  - lengths.
Qed.

Lemma perform_all_ok es content : let '(evs, content') := perform_all es content in
  ev_sqe <$> evs = es ∧ Forall plausible evs ∧
  (Forall (λ ev, sq_is_write (ev_sqe ev) = false) evs → content' = content ∧ Forall (reads_content content) evs).
Proof.
  revert content. induction es as [|e es IH]; intros content; cbn [perform_all]; [by repeat constructor|].
  pose proof (perform_ok e content) as H1. destruct (perform e content) as [ev content1]. destruct H1 as (E1 & P1 & R1).
  specialize (IH content1). destruct (perform_all es content1) as [evs content2]. destruct IH as (E2 & P2 & R2). split_and!.
  - cbn [fmap list_fmap]. by rewrite E1, E2.
  - by constructor.
  - intros [Hw Hws]%Forall_cons. rewrite E1 in Hw. destruct (R1 Hw) as [-> ?]. destruct (R2 Hws) as [-> ?]. split; [done|by constructor].
Qed.

Lemma advance_ok now later signals w : wo_queue w ≡ₚ now ++ later → let w' := advance now later signals w in
  ∃ evs, wo_queue w ≡ₚ (ev_sqe <$> evs) ++ wo_queue w' ∧ wo_trace w' = wo_trace w ++ evs ∧ wo_ready w' = wo_ready w ++ (ev_cqe <$> evs) ∧ Forall plausible evs ∧
    (Forall (λ ev, sq_is_write (ev_sqe ev) = false) evs → wo_content w' = wo_content w ∧ Forall (reads_content (wo_content w)) evs) ∧ wo_signals w' = signals.
Proof.
  intros Hq. unfold advance. pose proof (perform_all_ok now (wo_content w)) as H. destruct (perform_all now _) as [evs content]. destruct H as (E & P & R).
  exists evs. cbn. rewrite E. by split_and!.
Qed.

Lemma pread_ok f offset len w r w' : pread f offset len w = (r, w') → same_ring view w w' ∧ wo_content w' = wo_content w ∧
  ∀ data, r = Ok data → Z.of_nat (length data) <= len ∧ data `prefix_of` drop (Z.to_nat offset) (wo_content w f).
Proof.
  unfold pread. intros [= <- <-]. split_and!; try done. destruct (Z.ltb_spec len 0); intros data [= <-]. split; [lengths|apply prefix_take].
Qed.

Lemma toy_ok : kernel_ok toy view.
Proof.
  split.
  - intros e w Hl. cbn in *. rewrite (proj2 (Z.ltb_lt _ _)) by done. eexists. by split_and!.
  - intros want w r w' E. cbn in E |- *. unfold enter in E. destruct (wo_signals w) as [|n] eqn:Es.
    + injection E as <- <-. destruct (advance_ok (rev (wo_queue w)) [] 0 w) as (evs & H1 & H2 & H3 & H4 & H5 & H6); [rewrite app_nil_r; apply Permutation_rev|].
      exists evs. split_and!; try done; [lia|]. destruct (Z.leb_spec want (Z.of_nat (length (wo_ready (advance (rev (wo_queue w)) [] 0 w))))); [by left|done].
    + assert (Hq : ∃ now later, (r, w') = (Err (Os EINTR), advance now later n w) ∧ wo_queue w ≡ₚ now ++ later).
      { destruct (rev (wo_queue w)) as [|last before] eqn:Er.
        - exists [], []. split; [done|]. rewrite (Permutation_rev (wo_queue w)). by rewrite Er.
        - exists [last], (rev before). split; [done|]. rewrite (Permutation_rev (wo_queue w)), Er. cbn. by rewrite <-Permutation_rev. }
      destruct Hq as (now & later & [= -> ->] & Hq). destruct (advance_ok now later n w Hq) as (evs & H1 & H2 & H3 & H4 & H5 & H6).
      exists evs. split_and!; try done; lia.
  - intros w. eexists. by split_and!.
  - intros f offset len w r w'. apply pread_ok.
  - intros f offset len w r w'. apply pread_ok.
Qed.

(** A queue of two over a kernel with two signals due. *)
Definition files (f : file) : bytes := if bool_decide (f = 7) then bstr "abcdefgh" else bstr "01234".
Definition world0 : world := World [] [] [] files 2.
Definition engine0 (cached : bool) : Engine := MakeEngine true (MakeOptions 2 64 cached false) no_stats [] true.
Definition writes0 : list WriteOp := [MakeWrite 7 1 (bstr "WXYZ"); MakeWrite 7 5 (bstr "!"); MakeWrite 8 0 (bstr "+-")].
Definition reads0 : list ReadOp := [MakeRead 7 2 (bstr "..."); MakeRead 8 1 (bstr ".."); MakeRead 7 6 (bstr "....")].

Lemma engine_writes_exactly_once_witness :
  match write toy 40 writes0 (engine0 false) world0 with
  | Done (results, e, w) => results = [Ok 4; Ok 1; Ok 2] ∧ en_ring e = true ∧ wo_content w 7 = bstr "aWXYZ!gh" ∧ wo_content w 8 = bstr "+-234"
  | _ => False
  end ∧
  ∃ results e' w' evs progress extra rest,
    write toy 40 writes0 (engine0 false) world0 = Done (results, e', w') ∧ wo_trace w' = evs ∧
    Forall2 (λ op n, 0 <= n <= write_len op) writes0 progress ∧ Forall2 (λ n r, if r is Ok m then m = n else True) progress results ∧
    written evs ≡ₚ mjoin (zip_with write_cells writes0 progress) ++ extra ∧
    written evs ++ rest ≡ₚ mjoin ((λ op, write_cells op (write_len op)) <$> writes0) ∧
    (en_ring e' = true → extra = [] ∧ WaveLemmas.idle view w') ∧
    ((∀ r, r ∈ results → ∃ n, r = Ok n) → progress = write_len <$> writes0).
Proof.
  split; [vm_compute; by split_and!|]. apply (ApiLemmas.engine_writes_exactly_once toy view toy_ok 40 writes0 (engine0 false) world0).
  - by vm_compute.
  - reflexivity.
  - by repeat constructor.
  - cbn. lia.
  - vm_compute. reflexivity.
Defined.

Lemma engine_reads_correct_witness :
  match read toy 40 reads0 (engine0 true) world0 with
  | Done (results, e, w) => results = [(Ok 3, bstr "cde"); (Ok 2, bstr "12"); (Ok 2, bstr "gh..")] ∧ en_ring e = true
  | _ => False
  end ∧
  (∃ results e' w', read toy 40 reads0 (engine0 true) world0 = Done (results, e', w') ∧ Forall2 (read_result files) reads0 results ∧
     (en_ring e' = true → usable view e' w' ∧ wo_content w' = files)) ∧
  (∃ results e' w', read_owned toy 40 reads0 (engine0 true) world0 = Done (results, e', w') ∧ Forall2 (owned_result files) reads0 results ∧
     (en_ring e' = true → usable view e' w' ∧ wo_content w' = files)).
Proof.
  split; [vm_compute; by split_and!|]. apply (ApiLemmas.engine_reads_correct toy view toy_ok 40 reads0 (engine0 true) world0).
  - by vm_compute.
  - by repeat constructor.
  - cbn. lia.
  - vm_compute. reflexivity.
Defined.
End ToyKernel.
