(* ===== verification/StdPath.v ===== *)
(** * Paths of the standard library

    What the code uses of [std::path::Path] on Unix: components, comparison and
    prefixes by components, joining.  A path is its bytes. *)
From Stdlib Require Import Strings.Byte.
From stdpp Require Import base numbers list strings.
From S2P Require Import Prelude Path.

Inductive component := RootDir | CurDir | ParentDir | Normal (name : bytes).
#[global] Instance component_eq_dec : EqDecision component.
Proof. solve_decision. Defined.

Definition is_absolute (p : bytes) : bool := starts_with p (bstr "/").

(** A piece between slashes; a dot counts only at the beginning of a relative
    path. *)
Definition piece_component (first : bool) (x : bytes) : option component :=
  if bool_decide (x = []) then None
  else if bool_decide (x = bstr ".") then (if first then Some CurDir else None)
  else if bool_decide (x = bstr "..") then Some ParentDir
  else Some (Normal x).
Fixpoint pieces_components (first : bool) (ps : list bytes) : list component :=
  match ps with
  | [] => []
  | x :: ps => option_list (piece_component first x) ++ pieces_components false ps
  end.
Definition components (p : bytes) : list component :=
  let ps := split_on is_slash p in
  if is_absolute p then RootDir :: pieces_components false ps else pieces_components true ps.

(** [==] of paths. *)
Definition path_eqb (a b : bytes) : bool := bool_decide (components a = components b).
(** [a.starts_with(b)]. *)
Definition path_starts_with (a b : bytes) : bool := starts_with (components a) (components b).

(** What [Components::as_path] leaves out at both ends. *)
Definition blank (x : bytes) : bool := bool_decide (x = []) || bool_decide (x = bstr ".").
Fixpoint trim_front (ps : list bytes) : list bytes :=
  match ps with [] => [] | x :: ps => if blank x then trim_front ps else x :: ps end.
Definition trim_back (ps : list bytes) : list bytes := reverse (trim_front (reverse ps)).
(** The pieces after the first [n] components. *)
Fixpoint skip_components (first : bool) (n : nat) (ps : list bytes) : list bytes :=
  match n, ps with
  | O, _ | _, [] => ps
  | S n', x :: ps => skip_components false (if piece_component first x is Some _ then n' else n) ps
  end.
(** [a.strip_prefix(b)]. *)
Definition path_strip_prefix (a b : bytes) : option bytes :=
  if path_starts_with a b then
    let ps := split_on is_slash a in
    Some (match length (components b) with
          | O => match ps with
                 | [] => []
                 | x :: rest =>
                     let rest := trim_back rest in
                     if is_absolute a && bool_decide (rest = []) then bstr "/" else join_sep "/"%byte (x :: rest)
                 end
          | S n => join_sep "/"%byte (trim_back (trim_front (skip_components true (if is_absolute a then n else S n) ps)))
          end)
  else None.

(** [a.join(b)]. *)
Definition path_join (a b : bytes) : bytes :=
  if is_absolute b then b
  else a ++ (match last a with Some c => if is_slash c then [] else ["/"%byte] | None => [] end) ++ b.

(** [parent] and [file_name]. *)
Definition file_name (p : bytes) : option bytes :=
  match last (components p) with Some (Normal n) => Some n | _ => None end.
Definition parent (p : bytes) : option bytes :=
  match last (components p) with
  | Some (Normal _) | Some CurDir | Some ParentDir =>
      let ps := reverse (drop 1 (trim_front (reverse (split_on is_slash p)))) in
      Some (match ps with
            | [] => []
            | x :: rest =>
                let rest := trim_back rest in
                if is_absolute p && bool_decide (rest = []) then bstr "/" else join_sep "/"%byte (x :: rest)
            end)
  | _ => None
  end.

(** ** Lemmas *)

Lemma is_absolute_cons c p : is_absolute (c :: p) = is_slash c.
Proof.
  unfold is_absolute, starts_with. cbn. rewrite andb_true_r. destruct (is_slash c) eqn:Hc.
  - by apply is_slash_spec in Hc as ->.
  - apply bool_decide_eq_false. intros ->. done.
Qed.

Lemma comps_path_join a b : is_absolute b = false → comps (path_join a b) = comps a ++ comps b.
Proof.
  intros Hb. unfold path_join. rewrite Hb. destruct a as [|y m _] using rev_ind; [done|]. rewrite last_snoc.
  destruct (is_slash y) eqn:Hy; cbn [app]; [|by apply comps_app_sep].
  rewrite <-app_assoc. cbn [app]. rewrite !comps_app_sep by done. by rewrite comps_nil, app_nil_r.
Qed.

Lemma join_sep_relative parts : Forall is_component parts → is_absolute (join_sep "/"%byte parts) = false.
Proof.
  destruct 1 as [|[|c p] parts [Hne Hc] _]; [done|done|]. apply Forall_cons in Hc as [Hc _].
  by destruct parts; cbn [join_sep app]; rewrite is_absolute_cons.
Qed.

Lemma normal_components parts : Forall normal_component parts → Forall is_component parts.
Proof. intros H. eapply Forall_impl; [exact H|]. by intros c []. Qed.

Lemma normalize_relative p : is_absolute (normalize_bytes p) = false.
Proof. rewrite normalize_bytes_join. apply join_sep_relative, normal_components, resolve_comps_normal. Qed.

(** Pieces between slashes, joined again. *)
Lemma comps_join_pieces ps : Forall (Forall (λ b, is_slash b = false)) ps →
  comps (join_sep "/"%byte ps) = filter (λ c, c ≠ []) ps.
Proof.
  intros Hps. destruct (decide (ps = [])) as [->|Hne]; [done|]. unfold comps. by rewrite split_on_join.
Qed.

Lemma trim_front_suffix ps : ∃ pre, ps = pre ++ trim_front ps ∧ Forall (λ x, blank x = true) pre.
Proof.
  induction ps as [|x ps (pre & Hps & Hb)]; cbn; [by exists []|]. destruct (blank x) eqn:Hx.
  - exists (x :: pre). rewrite Hps at 1. split; [done|by constructor].
  - by exists [].
Qed.

Lemma trim_back_prefix ps : ∃ post, ps = trim_back ps ++ post ∧ Forall (λ x, blank x = true) post.
Proof.
  destruct (trim_front_suffix (reverse ps)) as (pre & Hps & Hb). exists (reverse pre). unfold trim_back.
  rewrite <-reverse_app, <-Hps, reverse_involutive. split; [done|]. by apply Forall_reverse.
Qed.

Lemma foldl_normalize_blank parts ps : Forall (λ x, blank x = true) ps → foldl normalize_step parts ps = parts.
Proof.
  intros Hps. induction Hps as [|x ps Hx _ IH]; cbn; [done|].
  assert (normalize_step parts x = parts) as ->; [|done]. unfold blank in Hx. unfold normalize_step.
  apply orb_true_iff in Hx as [Hx|Hx]; apply bool_decide_eq_true in Hx as ->; done.
Qed.

(** Stripping the root does not change where a path leads. *)
Lemma resolve_strip_root p q : path_strip_prefix p (bstr "/") = Some q → is_absolute p = true →
  resolve (comps q) = resolve (comps p).
Proof.
  unfold path_strip_prefix. change (components (bstr "/")) with [RootDir]. intros H Ha. rewrite Ha in H.
  destruct (path_starts_with p (bstr "/")); [|done]. cbn [length skip_components] in H.
  injection H as <-. pose proof (split_on_pieces is_slash p) as Hp. set (ps := split_on is_slash p) in *.
  assert (skip_components true 0 ps = ps) as -> by (by destruct ps).
  destruct (trim_front_suffix ps) as (pre & Hpre & Hb). destruct (trim_back_prefix (trim_front ps)) as (post & Hpost & Hb').
  rewrite comps_join_pieces.
  - unfold comps, resolve. fold ps. rewrite !foldl_normalize_filter. rewrite Hpre at 2. rewrite Hpost at 2.
    rewrite !foldl_app, (foldl_normalize_blank [] pre Hb). symmetry. by apply foldl_normalize_blank.
  - rewrite Hpre in Hp. apply Forall_app in Hp as [_ Hp]. rewrite Hpost in Hp. by apply Forall_app in Hp as [Hp _].
Qed.

(** The separator join of two lists. *)
Lemma join_sep_app a b : a ≠ [] → b ≠ [] → join_sep "/"%byte (a ++ b) = join_sep "/"%byte a ++ "/"%byte :: join_sep "/"%byte b.
Proof.
  intros Ha Hb. induction a as [|x a IH]; [done|]. destruct a as [|y a].
  - cbn [app]. by destruct b.
  - change (join_sep "/"%byte ((x :: y :: a) ++ b)) with (x ++ "/"%byte :: join_sep "/"%byte ((y :: a) ++ b)).
    rewrite IH by done. change (join_sep "/"%byte (x :: y :: a)) with (x ++ "/"%byte :: join_sep "/"%byte (y :: a)).
    by rewrite <-app_assoc.
Qed.

Lemma join_sep_last a : Forall is_component a → a ≠ [] → ∃ c, last (join_sep "/"%byte a) = Some c ∧ is_slash c = false.
Proof.
  intros Ha Hne. destruct a as [|x a _] using rev_ind; [done|]. apply Forall_app in Ha as [_ Hx].
  apply Forall_singleton in Hx as [Hx Hc]. destruct x as [|c x _] using rev_ind; [done|].
  apply Forall_app in Hc as [_ Hc]. apply (proj1 (Forall_singleton _ _)) in Hc. exists c. split; [|exact Hc].
  destruct (decide (a = [])) as [->|Ha]; [by cbn; rewrite last_snoc|]. rewrite join_sep_app by done.
  change (join_sep "/"%byte [x ++ [c]]) with (x ++ [c]).
  change (?l ++ ?s :: x ++ [c]) with (l ++ (s :: x) ++ [c]). by rewrite app_assoc, last_snoc.
Qed.

Lemma join_sep_nil a : Forall is_component a → join_sep "/"%byte a = [] → a = [].
Proof.
  intros Ha H. destruct (decide (a = [])) as [|Hne]; [done|]. destruct (join_sep_last a Ha Hne) as (c & Hl & _).
  by rewrite H in Hl.
Qed.

(** Joining clean paths is joining their components. *)
Lemma path_join_clean a b : Forall is_component a → Forall is_component b → b ≠ [] →
  path_join (join_sep "/"%byte a) (join_sep "/"%byte b) = join_sep "/"%byte (a ++ b).
Proof.
  intros Ha Hb Hne. unfold path_join. rewrite join_sep_relative by done.
  destruct (decide (a = [])) as [->|Hna]; [done|]. destruct (join_sep_last a Ha Hna) as (c & -> & ->). by rewrite join_sep_app.
Qed.

Lemma join_path_clean a b : Forall is_component a → b ≠ [] →
  join_path_bytes (join_sep "/"%byte a) (join_sep "/"%byte b) = join_sep "/"%byte (a ++ b).
Proof.
  intros Ha Hne. unfold join_path_bytes. case_bool_decide as Hd; [by rewrite (join_sep_nil a Ha Hd)|].
  assert (a ≠ []) as Hna by (by intros ->). destruct (join_sep_last a Ha Hna) as (c & -> & Hc).
  rewrite bool_decide_true by (intros [= ->]; done). rewrite <-app_assoc. by rewrite join_sep_app.
Qed.
