(* ===== verification/Backend.v ===== *)
(** * The NFS backend: state and operations

    Models the state of [NfsVecFs] of [crates/vfsi-nfs/src/nfs.rs] and the
    operations of [crates/vfsi-nfs/src/nfs/] on it that touch neither names nor
    data.  An operation takes the backend and the world behind it and gives a
    result, the backend and the world: [op].  [returns] is what such an operation
    does, with the rules for composing it; the files above reason with them.
    Telemetry, the observer and the fault injection of tests are left out. *)
From stdpp Require Import base numbers countable list list_numbers gmap strings.
From S2P Require Import Prelude Path Errors Types Planner Compound Session Client Loops Exchange Server Batch BatchOps BatchRun Resolve Single BatchSpec Mutations Opens.

(** ** State *)

Record ReopenFile := Reopen { ro_path : bytes; ro_flags : Z }.
Record NfsOpenState := OpenState {
  os_fh : nfs_fh4;
  os_stateid : stateid4;
  os_cur_offset : Z;
  os_append : bool;
  os_reopen : option ReopenFile;
}.
Definition set_cur_offset (o : NfsOpenState) (n : Z) : NfsOpenState :=
  OpenState (os_fh o) (os_stateid o) n (os_append o) (os_reopen o).
Definition close_of (o : NfsOpenState) : CloseOp := Close (os_fh o) (os_stateid o).

Inductive MergedIoMode := Full | OpenWrite | Off.

Record NfsVecFs := MakeFs {
  nfs : NfsClient.t;
  conn_root : bytes;   (* [connection.root] *)
  cwd : bytes;
  next_fd : Z;
  open_files : gmap Z NfsOpenState;
  deferred_descriptor_closes : list NfsOpenState;
  merged_mode : MergedIoMode;
  read_only : bool;
  auto_reconnect : bool;
  recovery_in_progress : bool;
  configured_max_compound_bytes : Z;
}.
Definition set_nfs (b : NfsVecFs) (c : NfsClient.t) : NfsVecFs :=
  MakeFs c (conn_root b) (cwd b) (next_fd b) (open_files b) (deferred_descriptor_closes b) (merged_mode b) (read_only b)
    (auto_reconnect b) (recovery_in_progress b) (configured_max_compound_bytes b).
Definition set_files (b : NfsVecFs) (m : gmap Z NfsOpenState) : NfsVecFs :=
  MakeFs (nfs b) (conn_root b) (cwd b) (next_fd b) m (deferred_descriptor_closes b) (merged_mode b) (read_only b)
    (auto_reconnect b) (recovery_in_progress b) (configured_max_compound_bytes b).
Definition set_table (b : NfsVecFs) (n : Z) (m : gmap Z NfsOpenState) : NfsVecFs :=
  MakeFs (nfs b) (conn_root b) (cwd b) n m (deferred_descriptor_closes b) (merged_mode b) (read_only b)
    (auto_reconnect b) (recovery_in_progress b) (configured_max_compound_bytes b).
Definition set_deferred (b : NfsVecFs) (l : list NfsOpenState) : NfsVecFs :=
  MakeFs (nfs b) (conn_root b) (cwd b) (next_fd b) (open_files b) l (merged_mode b) (read_only b)
    (auto_reconnect b) (recovery_in_progress b) (configured_max_compound_bytes b).
Definition set_mode (b : NfsVecFs) (m : MergedIoMode) : NfsVecFs :=
  MakeFs (nfs b) (conn_root b) (cwd b) (next_fd b) (open_files b) (deferred_descriptor_closes b) m (read_only b)
    (auto_reconnect b) (recovery_in_progress b) (configured_max_compound_bytes b).
Definition set_recovering (b : NfsVecFs) (r : bool) : NfsVecFs :=
  MakeFs (nfs b) (conn_root b) (cwd b) (next_fd b) (open_files b) (deferred_descriptor_closes b) (merged_mode b) (read_only b)
    (auto_reconnect b) r (configured_max_compound_bytes b).

Definition set_max_compound_bytes (b : NfsVecFs) (n : Z) : NfsVecFs :=
  MakeFs (NfsClient.set_max_compound_bytes (nfs b) n) (conn_root b) (cwd b) (next_fd b) (open_files b) (deferred_descriptor_closes b)
    (merged_mode b) (read_only b) (auto_reconnect b) (recovery_in_progress b) n.

(** ** Operations *)

Section Op.
Context {W : Type}.

Definition op (A : Type) : Type := NfsVecFs → W → outcome (VfResult A * NfsVecFs * W).

Definition ret {A} (a : A) : op A := λ b w, Done (Ok a, b, w).
Definition fail {A} (e : VfError.t) : op A := λ b w, Done (Err e, b, w).
Definition panic {A} : op A := λ _ _, Panicked.
#[global] Instance op_bind : MBind op := λ A B k m b w,
  match m b w with
  | Done (Ok a, b, w) => k a b w
  | Done (Err e, b, w) => Done (Err e, b, w)
  | Panicked => Panicked
  | OutOfFuel => OutOfFuel
  end.
Definition map_err {A} (f : VfError.t → VfError.t) (m : op A) : op A := λ b w,
  match m b w with
  | Done (Err e, b, w) => Done (Err (f e), b, w)
  | x => x
  end.
(** The result as a value: a [match] on a call, or a discarded result. *)
Definition attempt {A} (m : op A) : op (VfResult A) := λ b w,
  match m b w with
  | Done (r, b, w) => Done (Ok r, b, w)
  | Panicked => Panicked
  | OutOfFuel => OutOfFuel
  end.
Definition gets {A} (f : NfsVecFs → A) : op A := λ b w, Done (Ok (f b), b, w).
Definition modify (f : NfsVecFs → NfsVecFs) : op unit := λ b w, Done (Ok tt, f b, w).
Definition lift {A} (r : VfResult A) : op A := λ b w, Done (r, b, w).
Definition lift_outcome {A} (r : outcome (VfResult A)) : op A := λ b w,
  match r with Done r => Done (r, b, w) | Panicked => Panicked | OutOfFuel => OutOfFuel end.
Definition expect {A} (o : option A) : op A := match o with Some a => ret a | None => panic end.

(** A call of the client with its result as a value. *)
Definition client_result {A} (call : NfsClient.t → W → outcome (RpcResult A * NfsClient.t * W)) : op (RpcResult A) :=
  λ b w,
    match call (nfs b) w with
    | Done (r, c, w) => Done (Ok r, set_nfs b c, w)
    | Panicked => Panicked
    | OutOfFuel => OutOfFuel
    end.
(** A call of the client, with [map_err] applied to its error. *)
Definition client {A} (call : NfsClient.t → W → outcome (RpcResult A * NfsClient.t * W)) (f : RpcError.t → VfError.t) : op A :=
  λ b w,
    match call (nfs b) w with
    | Done (Ok a, c, w) => Done (Ok a, set_nfs b c, w)
    | Done (Err e, c, w) => Done (Err (f e), set_nfs b c, w)
    | Panicked => Panicked
    | OutOfFuel => OutOfFuel
    end.
Definition client1 {A} (call : NfsClient.t → W → option (RpcResult A * NfsClient.t * W)) (f : RpcError.t → VfError.t) : op A :=
  client (λ c w, or_panic (call c w)) f.

(** [for x in xs { body }], keeping an accumulator. *)
Fixpoint for_each {A S} (body : A → S → op S) (xs : list A) (s : S) : op S :=
  match xs with
  | [] => ret s
  | x :: xs => s ← body x s; for_each body xs s
  end.

(** [while guard s { s = body s }]. *)
Fixpoint while_ {S} (fuel : nat) (guard : S → bool) (body : S → op S) (s : S) : op S :=
  if guard s then
    match fuel with
    | O => λ _ _, OutOfFuel
    | S fuel => s ← body s; while_ fuel guard body s
    end
  else ret s.
End Op.
Arguments op : clear implicits.

(** [enumerate]. *)
Lemma imap_snd {A} (l : list A) : (imap pair l).*2 = l.
Proof. rewrite fmap_imap. change (imap (const id) l = l). by rewrite imap_const, list_fmap_id. Qed.
Lemma imap_split {A} (l : list A) pre k x post : imap pair l = pre ++ (k, x) :: post → k = length pre ∧ l !! length pre = Some x.
Proof.
  intros E. assert (Hi : imap pair l !! length pre = Some (k, x)) by (by rewrite E, lookup_app_r, Nat.sub_diag by lia).
  rewrite list_lookup_imap in Hi. destruct (l !! length pre); [|done]. by injection Hi as <- <-.
Qed.

(** ** What an operation does *)

Section Returns.
Context {W : Type}.

Definition returns {A} (m : op W A) (b : NfsVecFs) (w : W) (Q : VfResult A → NfsVecFs → W → Prop) : Prop :=
  ∃ r b' w', m b w = Done (r, b', w') ∧ Q r b' w'.

Lemma returns_mono {A} (m : op W A) b w (Q Q' : VfResult A → NfsVecFs → W → Prop) :
  returns m b w Q → (∀ r b' w', Q r b' w' → Q' r b' w') → returns m b w Q'.
Proof. intros (r & b' & w' & E & H) HQ. exists r, b', w'. auto. Qed.

Lemma returns_ret {A} (a : A) b w (Q : VfResult A → NfsVecFs → W → Prop) : Q (Ok a) b w → returns (ret a) b w Q.
Proof. intros H. by exists (Ok a), b, w. Qed.
Lemma returns_fail {A} e b w (Q : VfResult A → NfsVecFs → W → Prop) : Q (Err e) b w → returns (fail e) b w Q.
Proof. intros H. by exists (Err e), b, w. Qed.
Lemma returns_lift {A} (r : VfResult A) b w (Q : VfResult A → NfsVecFs → W → Prop) : Q r b w → returns (lift r) b w Q.
Proof. intros H. by exists r, b, w. Qed.
Lemma returns_gets {A} (f : NfsVecFs → A) b w (Q : VfResult A → NfsVecFs → W → Prop) : Q (Ok (f b)) b w → returns (gets f) b w Q.
Proof. intros H. by exists (Ok (f b)), b, w. Qed.
Lemma returns_modify f b w (Q : VfResult unit → NfsVecFs → W → Prop) : Q (Ok tt) (f b) w → returns (modify f) b w Q.
Proof. intros H. by exists (Ok tt), (f b), w. Qed.

Lemma returns_bind {A B} (m : op W A) (k : A → op W B) b w (Q1 : VfResult A → NfsVecFs → W → Prop) (Q : VfResult B → NfsVecFs → W → Prop) :
  returns m b w Q1 → (∀ a b' w', Q1 (Ok a) b' w' → returns (k a) b' w' Q) → (∀ e b' w', Q1 (Err e) b' w' → Q (Err e) b' w') →
  returns (m ≫= k) b w Q.
Proof.
  intros (r & b' & w' & E & H) Hk He. unfold returns, mbind, op_bind. rewrite E. destruct r as [a|e].
  - exact (Hk a b' w' H).
  - exists (Err e), b', w'. auto.
Qed.

(** Binding what does not fail and does not call out. *)
Lemma returns_gets_bind {A B} (f : NfsVecFs → A) (k : A → op W B) b w Q : returns (k (f b)) b w Q → returns (gets f ≫= k) b w Q.
Proof. done. Qed.
Lemma returns_modify_bind {B} f (k : unit → op W B) b w Q : returns (k tt) (f b) w Q → returns (modify f ≫= k) b w Q.
Proof. done. Qed.
Lemma returns_expect_bind {A B} (o : option A) a (k : A → op W B) b w Q : o = Some a → returns (k a) b w Q → returns (expect o ≫= k) b w Q.
Proof. by intros ->. Qed.
Lemma returns_lift_bind {A B} (r : VfResult A) (k : A → op W B) b w (Q : VfResult B → NfsVecFs → W → Prop) :
  match r with Ok a => returns (k a) b w Q | Err e => Q (Err e) b w end → returns (lift r ≫= k) b w Q.
Proof. destruct r as [a|e]; [done|]. intros H. by exists (Err e), b, w. Qed.

Lemma returns_map_err {A} f (m : op W A) b w (Q : VfResult A → NfsVecFs → W → Prop) :
  returns m b w (λ r b' w', Q (match r with Ok a => Ok a | Err e => Err (f e) end) b' w') → returns (map_err f m) b w Q.
Proof. intros (r & b' & w' & E & H). unfold returns, map_err. rewrite E. destruct r as [a|e]; eauto. Qed.

Lemma returns_attempt {A} (m : op W A) b w (Q : VfResult (VfResult A) → NfsVecFs → W → Prop) :
  returns m b w (λ r b' w', Q (Ok r) b' w') → returns (attempt m) b w Q.
Proof. intros (r & b' & w' & E & H). unfold returns, attempt. rewrite E. eauto. Qed.

Lemma returns_attempt_bind {A B} (m : op W A) (k : VfResult A → op W B) b w Q :
  returns m b w (λ r b' w', returns (k r) b' w' Q) → returns (attempt m ≫= k) b w Q.
Proof. intros (r & b' & w' & E & H). unfold returns, attempt, mbind, op_bind. by rewrite E. Qed.

Lemma returns_client {A} (call : NfsClient.t → W → outcome (RpcResult A * NfsClient.t * W)) f b w (Q : VfResult A → NfsVecFs → W → Prop) :
  (∃ r c w', call (nfs b) w = Done (r, c, w') ∧ Q (match r with Ok a => Ok a | Err e => Err (f e) end) (set_nfs b c) w') →
  returns (client call f) b w Q.
Proof. intros (r & c & w' & E & H). unfold returns, client. rewrite E. destruct r; eauto. Qed.

Lemma returns_client_result {A} (call : NfsClient.t → W → outcome (RpcResult A * NfsClient.t * W)) b w (Q : VfResult (RpcResult A) → NfsVecFs → W → Prop) :
  (∃ r c w', call (nfs b) w = Done (r, c, w') ∧ Q (Ok r) (set_nfs b c) w') → returns (client_result call) b w Q.
Proof. intros (r & c & w' & E & H). unfold returns, client_result. rewrite E. eauto. Qed.

Lemma returns_expect {A} (o : option A) a b w (Q : VfResult A → NfsVecFs → W → Prop) :
  o = Some a → Q (Ok a) b w → returns (expect o) b w Q.
Proof. intros -> H. by apply returns_ret. Qed.

(** A loop over a list, with what holds after each element. *)
Lemma returns_for_each {A S} (body : A → S → op W S) (I : list A → S → NfsVecFs → W → Prop) (E : VfError.t → NfsVecFs → W → Prop) xs s b w :
  I [] s b w →
  (∀ pre x post s b w, xs = pre ++ x :: post → I pre s b w →
     returns (body x s) b w (λ r b' w', match r with Ok s' => I (pre ++ [x]) s' b' w' | Err e => E e b' w' end)) →
  returns (for_each body xs s) b w (λ r b' w', match r with Ok s' => I xs s' b' w' | Err e => E e b' w' end).
Proof.
  intros H0 Hstep.
  cut (∀ post pre s b w, xs = pre ++ post → I pre s b w →
    returns (for_each body post s) b w (λ r b' w', match r with Ok s' => I xs s' b' w' | Err e => E e b' w' end)).
  { intros H. by apply (H xs []). }
  clear s b w H0. intros post. induction post as [|x post IH]; intros pre s b w Hxs HI; cbn [for_each].
  - apply returns_ret. by rewrite Hxs, app_nil_r.
  - eapply returns_bind; [eapply Hstep; [exact Hxs|exact HI]| |done].
    cbn beta iota. intros s' b' w' HI'. apply (IH (pre ++ [x])); [|done]. by rewrite <-app_assoc.
Qed.

Lemma returns_while {S} fuel guard (body : S → op W S) (I : S → NfsVecFs → W → Prop) (E : VfError.t → NfsVecFs → W → Prop) (measure : S → Z) s b w :
  (∀ s b w, I s b w → guard s = true → 0 <= measure s) →
  (∀ s b w, I s b w → guard s = true →
     returns (body s) b w (λ r b' w', match r with Ok s' => I s' b' w' ∧ measure s' < measure s | Err e => E e b' w' end)) →
  I s b w → measure s < Z.of_nat fuel →
  returns (while_ fuel guard body s) b w (λ r b' w', match r with Ok s' => I s' b' w' ∧ guard s' = false | Err e => E e b' w' end).
Proof.
  intros Hpos Hstep. revert s b w. induction fuel as [|fuel IH]; intros s b w HI Hm; cbn [while_];
    (destruct (guard s) eqn:Hg; [|by apply returns_ret]); pose proof (Hpos s b w HI Hg); [lia|].
  eapply returns_bind; [by apply Hstep| |done]. cbn beta iota. intros s' b' w' [HI' Hlt]. apply IH; [done|lia].
Qed.
End Returns.
