(* ===== verification/Namespace.v ===== *)
(** * Names of the NFS backend

    Models [crates/vfsi-nfs/src/nfs/namespace.rs]: how the application's paths
    become paths of the server, and the path walk that follows symbolic links
    on the client.  The specification is a relation between lists of components,
    one link expanded at a time.  The theorems show that every walk finishes,
    leaves the server as it is, never leaves the configured root, and that the
    handle it returns is the one the expanded path leads to. *)
From Stdlib Require Import Strings.Byte.
From stdpp Require Import base numbers countable list list_numbers gmap strings relations.
From S2P Require Import Prelude Path Errors Types Planner Compound Session Cursor Client Loops Exchange Server Batch BatchOps BatchRun Resolve Single BatchSpec Mutations Opens Lifecycle Remove Merged PathIo PathSpec Metadata StdPath Backend.

Definition NFS4ERR_SYMLINK : Z := 10029.
Definition NFS4ERR_NOENT : Z := 2.

(** ** Paths *)

Definition namespace_path (cwd path : bytes) : bytes :=
  normalize_bytes (if is_absolute path then default path (path_strip_prefix path (bstr "/")) else path_join cwd path).

Definition server_path_for (root cwd path : bytes) : bytes := path_join root (namespace_path cwd path).

Definition visible_path (root server_path : bytes) : bytes :=
  path_join (bstr "/") (default server_path (path_strip_prefix server_path root)).

Definition server_path (b : NfsVecFs) (path : bytes) : bytes := server_path_for (conn_root b) (cwd b) path.

Definition server_vf_path (b : NfsVecFs) (file : FileOperand) : VfResult bytes :=
  match file with
  | PathOperand BaseAbs path => Ok (server_path b (path_join (bstr "/") path))
  | PathOperand BaseCwd path | CwdPath path => Ok (server_path b path)
  | Cwd => Ok (server_path b [])
  | Fd _ | Saved => Err (VfError.from_kind (Some 0) InvalidInput)
  end.

(** [link_path] below the root, as bytes. *)
Definition link_relative (namespace_root link_path : bytes) : bytes :=
  match strip_prefix link_path namespace_root with
  | Some p => default p (strip_prefix p (bstr "/"))
  | None => link_path
  end.

(** [relative] names the target below the root. *)
Definition target_relative (namespace_root link_path target : bytes) : bytes :=
  if bool_decide (head target = Some "/"%byte) then normalize_bytes (drop 1 target)
  else
    let link := link_relative namespace_root link_path in
    normalize_bytes ((match rposition is_slash link with Some idx => take (S idx) link | None => [] end) ++ target).

Definition resolve_target (namespace_root link_path target : bytes) : bytes :=
  path_join namespace_root (target_relative namespace_root link_path target).

(** ** The path walk *)

Definition resolve_lookup_result {W T} (result : T * Z) (follow : bool) (resolve_target : op W (T * Z)) : op W (T * Z) :=
  if follow && (result.2 =? NF4LNK) then resolve_target else ret result.

Inductive walked := Reached (fh : nfs_fh4) (ftype : Z) | Spliced (path : bytes) | NotFollowed.

(** [vfsi_core::error_from_rpc(e, 0)]. *)
Definition from_rpc0 (e : RpcError.t) : VfError.t := error_from_rpc e (Some 0).

Section Walk.
Context {W : Type} (rpc : Compound.t → W → RpcResult COMPOUND4res * W) (xdr_len : Compound.t → Z).

(** [self.nfs.resolve(&path)]; as many rounds as its loop can need. *)
Definition walk_fuel (path : bytes) : nat :=
  (length (path_components path) + 1) * (length (path_components path) + 1).
Definition client_resolve (path : bytes) : op W (RpcResult nfs_fh4) :=
  client_result (λ cl w, Resolve.resolve rpc xdr_len (walk_fuel path) cl path w).

(** The component-wise walk of [resolve_path_and_type]. *)
Fixpoint walk_components (follow_final : bool) (cur_fh : nfs_fh4) (consumed : bytes) (comps : list bytes) : op W walked :=
  match comps with
  | [] => ret NotFollowed
  | comp :: later =>
      '(child, ftype) ← client1 (λ cl w, NfsOps.lookup_getattr rpc xdr_len cl cur_fh comp w) from_rpc0;
      let full_comp := join_path_bytes consumed comp in
      let is_last := bool_decide (later = []) in
      if (ftype =? NF4LNK) && (follow_final || negb is_last) then
        target ← client1 (λ cl w, Single.readlink rpc xdr_len cl child w) from_rpc0;
        let rest := join_parts later in
        root ← gets conn_root;
        let base := resolve_target root full_comp target in
        ret (Spliced (if bool_decide (rest = []) then base else join_path_bytes base rest))
      else if is_last then ret (Reached child ftype)
      else walk_components follow_final child full_comp later
  end.

(** The loop of [resolve_path_and_type]; [hops_left] is 41 minus [hops]. *)
Fixpoint resolve_loop (hops_left : nat) (follow_final : bool) (path : bytes) : op W (nfs_fh4 * Z) :=
  match hops_left with
  | O => fail (VfError.errno (Some 0) NFS4ERR_IO)
  | S hops_left =>
      r ← client_resolve path;
      match r with
      | Ok fh =>
          if negb follow_final then ret (fh, 0)
          else
            attrs ← client1 (λ cl w, Single.getattr rpc xdr_len cl fh [FATTR4_TYPE] w) from_rpc0;
            is_symlink ← lift (type_is_symlink attrs);
            if negb is_symlink then ret (fh, be_u32 attrs)
            else
              target ← client1 (λ cl w, Single.readlink rpc xdr_len cl fh w) from_rpc0;
              root ← gets conn_root;
              resolve_loop hops_left follow_final (resolve_target root path target)
      | Err e =>
          if RpcError.status e =? NFS4ERR_SYMLINK then
            let comps := components_bytes path in
            if bool_decide (comps = []) then fail (from_rpc0 e)
            else
              root_fh ← gets (λ b, NfsClient.root (nfs b));
              x ← walk_components follow_final root_fh [] comps;
              match x with
              | Reached fh ftype => ret (fh, ftype)
              | Spliced path => resolve_loop hops_left follow_final path
              | NotFollowed => fail (from_rpc0 e)
              end
          else fail (from_rpc0 e)
      end
  end.

Definition resolve_path_and_type (root_rel : bytes) (follow_final : bool) : op W (nfs_fh4 * Z) :=
  resolve_loop 41 follow_final (normalize_bytes root_rel).
Definition resolve_path (root_rel : bytes) (follow_final : bool) : op W nfs_fh4 :=
  '(fh, _) ← resolve_path_and_type root_rel follow_final; ret fh.
Definition resolve_follow (path : bytes) : op W nfs_fh4 := resolve_path path true.

Definition resolve_directory_path (dir : bytes) (follow_symlinks : bool) : op W nfs_fh4 :=
  path ← gets (λ b, server_path b dir);
  if follow_symlinks then resolve_path path true
  else
    let path := normalize_bytes path in
    client (λ cl w, Resolve.resolve rpc xdr_len (walk_fuel path) cl path w) from_rpc0.

Definition resolve_tcfile (f : FileOperand) (follow : bool) : op W nfs_fh4 :=
  match f with
  | Fd fd =>
      o ← gets (λ b, open_files b !! fd);
      match o with Some o => ret (os_fh o) | None => fail (VfError.errno (Some 0) EBADF) end
  | PathOperand _ _ | Cwd | CwdPath _ =>
      path ← gets (λ b, server_vf_path b f);
      path ← lift path;
      if follow then resolve_follow path else resolve_path path false
  | Saved => fail (VfError.errno (Some 0) NFS4ERR_INVAL)
  end.
End Walk.

(** ** Specification: names, and links expanded one at a time *)

(** The components of a path operand below the root. *)
Definition operand_names (b : NfsVecFs) (file : FileOperand) : list bytes :=
  resolve (match file with
           | PathOperand BaseAbs p => comps p
           | PathOperand BaseCwd p | CwdPath p => if is_absolute p then comps p else comps (cwd b) ++ comps p
           | _ => comps (cwd b)
           end).

Section Links.
Context {F : Type} (s : nfs_spec F) (f : F).

Fixpoint spec_walk (d : nfs_fh4) (names : list bytes) : result Z nfs_fh4 :=
  match names with
  | [] => Ok d
  | n :: names => match sp_lookup s f d n with Ok x => spec_walk x names | Err st => Err st end
  end.
Definition leads_to (names : list bytes) (fh : nfs_fh4) : Prop := spec_walk (sp_root s) names = Ok fh.

Definition ftype_of (fh : nfs_fh4) : option Z :=
  match sp_getattr s f fh (Compound.bitmap [FATTR4_TYPE]) with Ok v => Some (be_u32 v.2) | Err _ => None end.
Definition is_link (fh : nfs_fh4) : Prop := ftype_of fh = Some NF4LNK.

(** What a link with [target], found at [pre] below the root [R] and followed by
    [post], is replaced by: a relative target starts at the directory of the link,
    an absolute one at the root; [".."] takes away the component before it, and
    does not lead above the root. *)
Definition expansion (R pre : list bytes) (target : bytes) (post : list bytes) : list bytes :=
  R ++ resolve ((if is_absolute target then [] else pre) ++ comps target) ++ post.

(** One link expanded; a final one only if it is to be followed. *)
Inductive hop (R : list bytes) (follow : bool) (cs : list bytes) : list bytes → Prop :=
| Hop pre name post fh target :
    cs = R ++ pre ++ name :: post → post ≠ [] ∨ follow = true →
    leads_to (R ++ pre ++ [name]) fh → is_link fh → sp_readlink s f fh = Ok target →
    hop R follow cs (expansion R pre target post).

(** Where POSIX walks from the directory [pre] along the names of a target: [".."]
    at the beginning climbs.  A [".."] behind a name leads to the parent of what
    that name stands for, which names alone do not tell: [None]. *)
Fixpoint enter (pre names : list bytes) : option (list bytes) :=
  match names with
  | [] => Some pre
  | n :: names =>
      if bool_decide (n = bstr ".") then enter pre names
      else if bool_decide (n = bstr "..") then enter (removelast pre) names
      else if bool_decide (bstr ".." ∈ names) then None
      else Some (pre ++ filter (λ n, n ≠ bstr ".") (n :: names))
  end.

(** A target whose [".."] are all at its beginning. *)
Definition plain_target (target : bytes) : Prop := is_Some (enter [] (comps target)).
Definition plain_links : Prop := ∀ fh target, is_link fh → sp_readlink s f fh = Ok target → plain_target target.

(** A link followed as POSIX does, with the configured root as the root. *)
Inductive posix_hop (R : list bytes) (follow : bool) (cs : list bytes) : list bytes → Prop :=
| PosixHop pre name post fh target rel :
    cs = R ++ pre ++ name :: post → post ≠ [] ∨ follow = true →
    leads_to (R ++ pre ++ [name]) fh → is_link fh → sp_readlink s f fh = Ok target →
    enter (if is_absolute target then [] else pre) (comps target) = Some rel →
    posix_hop R follow cs (R ++ rel ++ post).
End Links.

Module NamespaceLemmas.
Import ExchangeLemmas ServerLemmas SingleLemmas.

(** *** Paths *)

Lemma resolve_normal cs : Forall normal_component cs → resolve cs = cs.
Proof. intros H. exact (foldl_normalize_push [] cs H). Qed.

Section Root.
Context (R : list bytes) (HR : Forall normal_component R).
Let root : bytes := join_sep "/"%byte R.

Lemma comps_root : comps root = R.
Proof. by apply comps_join_sep, normal_components. Qed.

Lemma server_path_names cwd path : comps (server_path_for root cwd path) =
  R ++ resolve (if is_absolute path then comps path else comps cwd ++ comps path).
Proof.
  unfold server_path_for. rewrite comps_path_join, comps_root by apply normalize_relative. f_equal.
  unfold namespace_path. rewrite comps_normalize. destruct (is_absolute path) eqn:Ha.
  - destruct (path_strip_prefix path (bstr "/")) as [q|] eqn:E; [|done]. by apply resolve_strip_root.
  - by rewrite comps_path_join.
Qed.

(** A path below the root, as the code writes it: the root itself may end with a
    slash. *)
Definition clean (path : bytes) (cs : list bytes) : Prop :=
  comps path = cs ∧ Forall normal_component cs ∧ (path = join_sep "/"%byte cs ∨ cs = R).

Lemma clean_join rel : Forall normal_component rel → clean (path_join root (join_sep "/"%byte rel)) (R ++ rel).
Proof.
  intros Hrel. split; [|split; [by apply Forall_app|]].
  - rewrite comps_path_join by by apply join_sep_relative, normal_components.
    by rewrite comps_root, comps_join_sep by by apply normal_components.
  - destruct (decide (rel = [])) as [->|Hne]; [right; by rewrite app_nil_r|left].
    apply path_join_clean; [by apply normal_components..|done].
Qed.

Lemma link_relative_clean cs : Forall is_component cs → cs ≠ [] →
  link_relative root (join_sep "/"%byte (R ++ cs)) = join_sep "/"%byte cs.
Proof.
  intros Hcs Hne. unfold link_relative. unfold root. destruct (decide (R = [])) as [->|HRne].
  - cbn [join_sep app]. cbn [strip_prefix]. assert (strip_prefix (join_sep "/"%byte cs) (bstr "/") = None) as ->; [|done].
    pose proof (join_sep_relative cs Hcs) as Hrel. destruct (join_sep "/"%byte cs) as [|c l]; [done|].
    rewrite is_absolute_cons in Hrel. cbn. destruct (decide (c = "/"%byte)) as [->|]; [done|done].
  - rewrite join_sep_app by done. by rewrite (proj2 (strip_prefix_spec _ _ _) eq_refl).
Qed.

Lemma target_relative_clean pre name target : Forall is_component (pre ++ [name]) →
  target_relative root (join_sep "/"%byte (R ++ pre ++ [name])) target =
  join_sep "/"%byte (resolve ((if is_absolute target then [] else pre) ++ comps target)).
Proof.
  intros Hcs. unfold target_relative. rewrite link_relative_clean by (done || by destruct pre).
  apply Forall_app in Hcs as [Hpre Hname]. apply (proj1 (Forall_singleton _ _)) in Hname as [Hne Hname].
  case_bool_decide as Hh.
  - destruct target as [|c t]; [done|]. injection Hh as ->. rewrite normalize_bytes_join. cbn [drop].
    by rewrite is_absolute_cons.
  - assert (is_absolute target = false) as ->.
    { destruct target as [|c t]; [done|]. rewrite is_absolute_cons. destruct (is_slash c) eqn:E; [|done].
      apply is_slash_spec in E as ->. done. }
    rewrite normalize_bytes_join. f_equal. f_equal. destruct (decide (pre = [])) as [->|Hp].
    + cbn [app join_sep]. by rewrite (proj2 (rposition_None _ _) Hname).
    + rewrite join_sep_app by done. cbn [join_sep]. rewrite rposition_intro by done.
      rewrite take_S_r with (x := "/"%byte) by by rewrite lookup_app_r, Nat.sub_diag by lia.
      rewrite take_app_length, <-app_assoc. cbn [app]. rewrite comps_app_sep by done. by rewrite comps_join_sep.
Qed.

(** A link expanded by the code, before the rest of the path is appended. *)
Lemma resolve_target_clean pre name target : Forall is_component (pre ++ [name]) →
  clean (resolve_target root (join_sep "/"%byte (R ++ pre ++ [name])) target) (expansion R pre target []).
Proof.
  intros Hcs. unfold resolve_target, expansion. rewrite target_relative_clean by done. rewrite app_nil_r.
  apply clean_join. apply foldl_normalize_normal; [constructor|]. apply Forall_app. split; [|apply comps_Forall].
  apply Forall_app in Hcs as [Hpre _]. by destruct (is_absolute target).
Qed.

(** And with the rest. *)
Lemma spliced_clean pre name target post : Forall is_component (pre ++ [name]) → Forall normal_component post →
  let base := resolve_target root (join_sep "/"%byte (R ++ pre ++ [name])) target in
  clean (if bool_decide (join_parts post = []) then base else join_path_bytes base (join_parts post)) (expansion R pre target post).
Proof.
  intros Hcs Hpost base. pose proof (resolve_target_clean pre name target Hcs) as Hb. rewrite join_parts_sep.
  case_bool_decide as Hnil; [by apply join_sep_nil in Hnil as ->; [|apply normal_components]|].
  assert (Hne : post ≠ []) by (by intros ->). fold base in Hb. unfold expansion in *. rewrite app_nil_r in Hb.
  set (rel := resolve _) in *. destruct Hb as (Hc & Hn & Hp). rewrite app_assoc.
  assert (Hj : join_path_bytes base (join_sep "/"%byte post) = join_sep "/"%byte ((R ++ rel) ++ post)).
  { destruct (decide (R ++ rel = R)) as [E|E]; [|destruct Hp as [->|?]; [by apply join_path_clean; [apply normal_components|]|done]].
    assert (rel = []) as Hrel by (apply (app_inv_head R); by rewrite app_nil_r).
    unfold base, resolve_target. rewrite target_relative_clean by done. fold rel. rewrite Hrel. cbn [join_sep].
    rewrite app_nil_r. unfold path_join. cbn [is_absolute starts_with bstr]. 
    destruct (decide (R = [])) as [->|HRne]; [done|]. destruct (join_sep_last R (normal_components _ HR) HRne) as (c & Hl & Hs).
    unfold root. change (is_absolute []) with false. cbn iota. rewrite Hl, Hs, app_nil_r. unfold join_path_bytes.
    rewrite bool_decide_false by by destruct (join_sep "/"%byte R).
    rewrite last_snoc, bool_decide_false by naive_solver. rewrite app_nil_r, <-app_assoc. by rewrite join_sep_app. }
  rewrite Hj. assert (Forall normal_component ((R ++ rel) ++ post)) by by apply Forall_app.
  split; [by apply comps_join_sep, normal_components|]. split; [done|by left].
Qed.
End Root.

Lemma operand_names_normal b file : Forall normal_component (operand_names b file).
Proof.
  apply foldl_normalize_normal; [constructor|].
  destruct file as [|?|[] ?|?|]; try case_match; try apply Forall_app; auto using comps_Forall.
Qed.

Lemma operand_path_names b file path : conn_root b = join_sep "/"%byte (comps (conn_root b)) →
  Forall normal_component (comps (conn_root b)) → server_vf_path b file = Ok path →
  comps path = comps (conn_root b) ++ operand_names b file.
Proof.
  intros Hroot HR Hp. unfold operand_names.
  assert (Hserver : ∀ p, comps (server_path b p) =
    comps (conn_root b) ++ resolve (if is_absolute p then comps p else comps (cwd b) ++ comps p)).
  { intros p. unfold server_path. rewrite Hroot at 1. by apply server_path_names. }
  destruct file as [|?|[] p|p|]; [|done| | | |done]; injection Hp as <-; rewrite Hserver; [by rewrite app_nil_r|done| |done].
  f_equal. unfold path_join. destruct (is_absolute p) eqn:Ha; [by rewrite Ha|].
  cbn [app last]. change (is_slash "/"%byte) with true. cbn iota. change (is_absolute (bstr "/" ++ [] ++ p)) with true. cbn iota.
  done.
Qed.

Lemma server_vf_path_nil b file path : conn_root b = join_sep "/"%byte (comps (conn_root b)) →
  server_vf_path b file = Ok path → comps path = [] → path = [].
Proof.
  intros Hroot. assert (Hserver : ∀ p, comps (server_path b p) = [] → server_path b p = []).
  { intros p. unfold server_path, server_path_for. set (x := namespace_path _ _). intros H.
    rewrite comps_path_join in H by apply normalize_relative. apply app_eq_nil in H as [Hr Hx].
    assert (x = []) as ->.
    { unfold x, namespace_path in *. rewrite comps_normalize in Hx. by rewrite normalize_bytes_join, Hx. }
    by rewrite Hroot, Hr. }
  destruct file as [|?|[] p|p|]; try done; intros [= <-]; apply Hserver.
Qed.

(** *** Requests that look but do not touch *)

Definition quiet (op : argop) : bool :=
  match op with
  | APutFh _ | APutRootFh | AGetFh | ASaveFh | ARestoreFh | ALookup _ | ALookupp | AGetattr _ | ANverify _ | AReadlink
  | AReaddir _ _ _ _ _ | ARead _ _ _ => true
  | _ => false
  end.

Lemma quiet_file ops : Forall quiet ops → Forall file_op ops.
Proof. intros H. eapply Forall_impl; [exact H|]. by intros []. Qed.

Section Quiet.
Context {F W : Type} (s : nfs_spec F) (rpc : Compound.t → W → RpcResult COMPOUND4res * W) (fs : W → F).
Context (Hrpc : transport_ok rpc) (Himp : implements s rpc fs).
Context (xdr_len : Compound.t → Z) `{!XdrSizes xdr_len}.

Lemma quiet_steps m ops m' rs : Forall quiet ops → spec_steps s m ops = Some (m', rs) → mc_fs m' = mc_fs m.
Proof.
  intros Hq. revert m rs. induction Hq as [|op ops Hop _ IH]; intros m rs; cbn; [by intros [= <- _]|].
  destruct (spec_step s m op) as [[m1 r1]|st] eqn:E; [|done]. intros ([m2 r2] & H & [= <- _])%bind_Some.
  rewrite (IH _ _ H). destruct m as [f c sv], op; try done; cbn in E; machine; by simplify_eq.
Qed.

Lemma quiet_sent ops w r w' : Forall quiet ops → sent rpc ops w r w' → fs w' = fs w.
Proof.
  intros Hq (req & sid & q & Hreq & Hops).
  destruct (Himp _ _ _ _ _ _ _ Hreq Hops (quiet_file _ Hq)) as (k & m & rs & Hk & -> & _).
  apply quiet_steps in Hk; [done|by apply Forall_take].
Qed.

(** The server said nothing of the objects: it is short of resources, the
    request is too large for the session, or it was refused as a whole. *)
Definition declined (st : Z) : Prop :=
  resource_status st = true ∨ st = NFS4ERR_TOO_MANY_OPS ∨ st = NFS4ERR_REQ_TOO_BIG ∨
  ∃ req w res w', rpc req w = (Ok res, w') ∧ (CompoundRes.nops res <= 1 ∨ CompoundRes.op_status res 0 ≠ NFS_OK) ∧
    st = CompoundRes.status res.

(** What a quiet exchange comes to. *)
Lemma quiet_exchange {R} cl c (extract : COMPOUND4res → option R) (P : R → Prop) w :
  Compound.size_check c = None → Forall quiet (Compound.ops c) →
  (∀ m rs res, spec_steps s (start (fs w)) (Compound.ops c) = Some (m, rs) → complete res rs → ∃ v, extract res = Some v ∧ P v) →
  ∃ r cl' w', NfsOps.exchange_one rpc xdr_len cl c extract w = Some (r, cl', w') ∧ same_limits cl cl' ∧ fs w' = fs w ∧
    match r with
    | Ok v => P v
    | Err e => RpcError.is_transport e = true ∨ declined (RpcError.status e) ∨
        ∃ k m rs o, spec_steps s (start (fs w)) (take k (Compound.ops c)) = Some (m, rs) ∧
          Compound.ops c !! k = Some o ∧ spec_step s m o = Err (RpcError.status e)
    end.
Proof.
  intros Hc Hq Hext.
  destruct (exchange_one_runs s rpc fs Hrpc Himp xdr_len cl c extract (λ f' v, f' = fs w ∧ P v) w Hc (quiet_file _ Hq))
    as (r & cl' & w' & Hx & Hs & Hr).
  { intros m rs res Hst Hcomp. destruct (Hext m rs res Hst Hcomp) as (v & Hv & HP). exists v. split; [done|].
    split; [|done]. by apply (quiet_steps _ _ _ _ Hq) in Hst. }
  exists r, cl', w'. split; [done|]. split; [done|]. destruct r as [v|e]; [done|].
  destruct Hr as (k & m & rs & Hk & Hfs & Hwhy). split.
  { rewrite Hfs. apply quiet_steps in Hk; [done|by apply Forall_take]. }
  destruct Hwhy as [?|[(_ & _ & Hd)|(o & Ho & _ & [Hst|Hres])]]; [by left|right; left|right; right|right; left].
  - unfold declined. destruct Hd as [?|[?|(res & w1 & (req & sid & q & Hreq & _) & Hn & Hst)]]; [tauto|tauto|].
    do 3 right. exists req, w, res, w1. auto.
  - by exists k, m, rs, o.
  - by left.
Qed.

(** The server's answer [st] about a path: walking it reaches an object of which
    the next step fails. *)
Definition answered (f : F) (cs : list bytes) (st : Z) : Prop :=
  ∃ pre fh, pre `prefix_of` cs ∧ leads_to s f pre fh ∧
    (sp_putfh s f fh = Err st ∨ (∃ name, pre ++ [name] `prefix_of` cs ∧ sp_lookup s f fh name = Err st) ∨
     sp_getattr s f fh (Compound.bitmap [FATTR4_TYPE]) = Err st ∨ sp_readlink s f fh = Err st).

(** Why a path was not resolved. *)
Definition walk_error (f : F) (cs : list bytes) (e : RpcError.t) : Prop :=
  RpcError.is_transport e = true ∨ declined (RpcError.status e) ∨ answered f cs (RpcError.status e).

Context (f : F).

Lemma spec_walk_app d a b : spec_walk s f d (a ++ b) = match spec_walk s f d a with Ok x => spec_walk s f x b | Err st => Err st end.
Proof. revert d. induction a as [|n a IH]; intros d; cbn; [done|]. by destruct (sp_lookup s f d n). Qed.

Lemma leads_to_snoc cs d name x : leads_to s f cs d → sp_lookup s f d name = Ok x → leads_to s f (cs ++ [name]) x.
Proof. unfold leads_to. intros Hd Hl. rewrite spec_walk_app, Hd. cbn. by rewrite Hl. Qed.

Lemma lookup_getattr_walks cl cs d name w : fs w = f → leads_to s f cs d →
  ∃ r cl' w', NfsOps.lookup_getattr rpc xdr_len cl d name w = Some (r, cl', w') ∧ same_limits cl cl' ∧ fs w' = f ∧
    match r with
    | Ok (x, t) => sp_lookup s f d name = Ok x ∧ ftype_of s f x = Some t
    | Err e => walk_error f (cs ++ [name]) e
    end.
Proof.
  intros Hf Hd. unfold NfsOps.lookup_getattr. set (c := add_lookup_getattr _ _).
  destruct (quiet_exchange cl c (λ res, fh ← CompoundRes.getfh res 3; t ← CompoundRes.getattr res 4; Some (fh, be_u32 t))
    (λ v, sp_lookup s f d name = Ok v.1 ∧ ftype_of s f v.1 = Some v.2) w) as (r & cl' & w' & -> & Hs & Hw & Hr);
    [done|by repeat constructor| |].
  { intros m rs res Hst Hcomp. rewrite Hf in Hst. cbn -[Compound.bitmap] in Hst. machine.
    pose proof (complete_accessors _ _ 2 _ Hcomp eq_refl) as H2. pose proof (complete_accessors _ _ 3 _ Hcomp eq_refl) as H3.
    cbn -[vec_of CompoundRes.vec_bytes Compound.bitmap] in H2, H3. rewrite vec_of_bytes in H2, H3. eexists (_, _).
    change (1 + Z.of_nat 2) with 3 in H2. change (1 + Z.of_nat 3) with 4 in H3. rewrite H2, H3. cbn. split; [reflexivity|]. split; [done|]. unfold ftype_of. by case_match; simplify_eq. }
  exists r, cl', w'. split; [done|]. split; [done|]. split; [congruence|]. destruct r as [[x t]|e]; [done|].
  destruct Hr as [?|[?|(k & m & rs & o & Hk & Ho & Hst)]]; [by left|by right; left|right; right]. rewrite Hf in Hk. clear Hf Hw.
  change (Compound.ops c) with [APutFh d; ALookup name; AGetFh; AGetattr (Compound.bitmap [FATTR4_TYPE])] in Hk, Ho.
  destruct k as [|[|[|[|k]]]]; cbn -[Compound.bitmap] in Hk, Ho; simplify_eq; machine; try done.
  - exists cs, d. split; [by apply prefix_app_r|]. by auto.
  - exists cs, d. split; [by apply prefix_app_r|]. split; [done|]. right. left. by exists name.
  - eexists (cs ++ [name]), _. split; [done|]. split; [by eapply leads_to_snoc|]. by auto.
Qed.

(** A request on one handle that was walked to. *)
Lemma getattr_walks cl cs fh w : fs w = f → leads_to s f cs fh →
  ∃ r cl' w', Single.getattr rpc xdr_len cl fh [FATTR4_TYPE] w = Some (r, cl', w') ∧ same_limits cl cl' ∧ fs w' = f ∧
    match r with Ok attrs => ftype_of s f fh = Some (be_u32 attrs) | Err e => walk_error f cs e end.
Proof.
  intros Hf Hd. unfold Single.getattr. set (c := Compound.getattr _ _).
  destruct (quiet_exchange cl c (λ res, CompoundRes.getattr res 2) (λ v, ftype_of s f fh = Some (be_u32 v)) w)
    as (r & cl' & w' & -> & Hs & Hw & Hr); [done|by repeat constructor| |].
  { intros m rs res Hst Hcomp. rewrite Hf in Hst. cbn -[Compound.bitmap] in Hst. machine.
    pose proof (complete_accessors _ _ 1 _ Hcomp eq_refl) as H1.
    cbn -[vec_of CompoundRes.vec_bytes Compound.bitmap] in H1. rewrite vec_of_bytes in H1. eexists. split; [exact H1|].
    unfold ftype_of. by case_match; simplify_eq. }
  exists r, cl', w'. split; [done|]. split; [done|]. split; [congruence|]. destruct r as [v|e]; [done|].
  destruct Hr as [?|[?|(k & m & rs & o & Hk & Ho & Hst)]]; [by left|by right; left|right; right]. rewrite Hf in Hk. clear Hf Hw.
  change (Compound.ops c) with [APutFh fh; AGetattr (Compound.bitmap [FATTR4_TYPE])] in Hk, Ho.
  exists cs, fh. split; [done|]. split; [done|].
  destruct k as [|[|k]]; cbn -[Compound.bitmap] in Hk, Ho; simplify_eq; machine; auto.
Qed.

Lemma readlink_walks cl cs fh w : fs w = f → leads_to s f cs fh →
  ∃ r cl' w', Single.readlink rpc xdr_len cl fh w = Some (r, cl', w') ∧ same_limits cl cl' ∧ fs w' = f ∧
    match r with Ok target => sp_readlink s f fh = Ok target | Err e => walk_error f cs e end.
Proof.
  intros Hf Hd. unfold Single.readlink. set (c := Compound.readlink _).
  destruct (quiet_exchange cl c (λ res, CompoundRes.readlink res 2) (λ v, sp_readlink s f fh = Ok v) w)
    as (r & cl' & w' & -> & Hs & Hw & Hr); [done|by repeat constructor| |].
  { intros m rs res Hst Hcomp. rewrite Hf in Hst. cbn in Hst. machine.
    pose proof (complete_accessors _ _ 1 _ Hcomp eq_refl) as H1.
    cbn -[vec_of CompoundRes.vec_bytes] in H1. rewrite vec_of_bytes in H1. by eexists. }
  exists r, cl', w'. split; [done|]. split; [done|]. split; [congruence|]. destruct r as [v|e]; [done|].
  destruct Hr as [?|[?|(k & m & rs & o & Hk & Ho & Hst)]]; [by left|by right; left|right; right]. rewrite Hf in Hk. clear Hf Hw.
  change (Compound.ops c) with [APutFh fh; AReadlink] in Hk, Ho.
  exists cs, fh. split; [done|]. split; [done|].
  destruct k as [|[|k]]; cbn in Hk, Ho; simplify_eq; machine; auto.
Qed.

Lemma answered_prefix cs cs' st : cs `prefix_of` cs' → answered f cs st → answered f cs' st.
Proof.
  intros Hp (pre & fh & Hpre & Hl & Hst). exists pre, fh. split; [by etrans|]. split; [done|].
  destruct Hst as [?|[(name & Hn & ?)|?]]; [by left|right; left; exists name; split; [by etrans|done]|by right; right].
Qed.

Lemma walk_error_prefix cs cs' e : cs `prefix_of` cs' → walk_error f cs e → walk_error f cs' e.
Proof. intros Hp [?|[?|?]]; [by left|by right; left|right; right]. by eapply answered_prefix. Qed.

Lemma lookup_chain cur names m rs : spec_steps s (start f) (APutFh cur :: (ALookup <$> names)) = Some (m, rs) →
  spec_walk s f cur names = Ok (default [] (mc_cur m)) ∧ is_Some (mc_cur m) ∧ mc_fs m = f.
Proof.
  cbn [spec_steps]. destruct (spec_step s (start f) (APutFh cur)) as [[m1 r1]|st] eqn:E; [|done].
  assert (m1 = Machine f (Some cur) None) as -> by (unfold start in E; cbn in E; machine; by simplify_eq).
  intros ([m2 r2] & H & [= <- _])%bind_Some. clear E r1 rs. revert cur r2 H. generalize (@None nfs_fh4) as sv.
  induction names as [|n names IH]; intros sv cur rs; cbn; [intros [= <- _]; by eauto|].
  destruct (sp_lookup s f cur n) as [x|st] eqn:El; cbn; [|by cbn].
  intros ([m1 r1] & H & [= <- _])%bind_Some. by eapply IH.
Qed.

(** The failure of a chain of LOOKUPs, after a part of it. *)
Lemma chain_answered done_ cur chunk k m rs op st : leads_to s f done_ cur →
  spec_steps s (start f) (take k ((APutFh cur :: (ALookup <$> chunk)) ++ [AGetFh])) = Some (m, rs) →
  ((APutFh cur :: (ALookup <$> chunk)) ++ [AGetFh]) !! k = Some op → spec_step s m op = Err st →
  answered f (done_ ++ chunk) st.
Proof.
  intros Hcur Hrun Hop Hst. destruct k as [|k].
  { cbn in Hop. injection Hop as <-. cbn in Hrun. injection Hrun as <- <-. exists done_, cur. split; [by apply prefix_app_r|].
    split; [done|]. left. unfold start in Hst. cbn in Hst. machine. done. }
  change (((ALookup <$> chunk) ++ [AGetFh]) !! k = Some op) in Hop.
  pose proof (lookup_lt_Some _ _ _ Hop) as Hlt. rewrite length_app, length_fmap in Hlt. cbn in Hlt.
  cbn [take app] in Hrun. rewrite take_app_le, <-fmap_take in Hrun by (lengths).
  destruct (lookup_chain _ _ _ _ Hrun) as (Hw & [fh Hfh] & Hf). rewrite Hfh in Hw. cbn in Hw.
  destruct m as [f1 c1 s1]. cbn in Hfh, Hf. subst f1 c1.
  exists (done_ ++ take k chunk), fh. split; [apply prefix_app, prefix_take|].
  split; [unfold leads_to; by rewrite spec_walk_app, Hcur|]. right. left.
  destruct (decide (k < length chunk)%nat) as [Hk|Hk].
  - rewrite lookup_app_l, list_lookup_fmap in Hop by (lengths).
    destruct (chunk !! k) as [name|] eqn:En; [|done]. injection Hop as <-. exists name.
    rewrite <-app_assoc, <-take_S_r by done. split; [apply prefix_app, prefix_take|]. cbn in Hst. machine. done.
  - rewrite lookup_app_r, length_fmap in Hop by (lengths). replace (k - length chunk)%nat with 0%nat in Hop by lia.
    injection Hop as <-. done.
Qed.

(** A chunk of the walk. *)
Lemma chunk_walked path done_ chunk rest cur w res w' :
  path_components path = (done_ ++ chunk) ++ rest → leads_to s f done_ cur → fs w = f →
  exchanged rpc (ResolveLemmas.chain cur chunk) w res w' →
  if CompoundRes.status res =? NFS_OK then
    ∃ fh, CompoundRes.getfh res (2 + Z.of_nat (length chunk)) = Some fh ∧ leads_to s f (done_ ++ chunk) fh
  else declined (CompoundRes.status res) ∨ answered f (comps path) (CompoundRes.status res).
Proof.
  intros Hsplit Hcur Hf Hex. rewrite CursorLemmas.path_components_comps in Hsplit. rewrite Hsplit.
  destruct (exchanged_runs s rpc fs Himp _ _ _ _ Hex) as (m & rs & Hrun & _ & Hc & Hdone).
  { constructor; [done|]. apply Forall_app. split; [by apply Forall_fmap, Forall_true|by constructor]. }
  rewrite Hf in Hrun. unfold ResolveLemmas.chain in *. set (ops := APutFh cur :: (ALookup <$> chunk)) in *.
  change (APutFh cur :: ?l ++ [AGetFh]) with (ops ++ [AGetFh]) in *.
  assert (Hlen : length ops = S (length chunk)) by (unfold ops; cbn; by rewrite length_fmap).
  destruct (CompoundRes.status res =? NFS_OK) eqn:Hok.
  - rewrite Hdone, firstn_all, spec_steps_app in Hrun.
    apply bind_Some in Hrun as ([m1 r1] & H1 & ([m2 r2] & H2 & [= <- <-])%bind_Some).
    pose proof (spec_steps_length _ _ _ _ _ H1) as Hl1. destruct (lookup_chain _ _ _ _ H1) as (Hw & [fh Hfh] & _).
    rewrite Hfh in Hw. exists fh. split; [|unfold leads_to; by rewrite spec_walk_app, Hcur].
    destruct m1 as [f1 c1 s1]. cbn in Hfh. rewrite Hfh in H2. cbn in H2. injection H2 as <- <-.
    pose proof (complete_accessors res _ (length r1) (RGetFh NFS_OK (vec_of fh)) Hc) as Hacc.
    rewrite Hl1, Hlen in Hacc. replace (2 + Z.of_nat (length chunk)) with (1 + Z.of_nat (S (length chunk))) by lia.
    rewrite Hacc; [by apply vec_of_bytes|]. by rewrite lookup_app_r, Hl1, Hlen, Nat.sub_diag by lia.
  - destruct Hdone as [[Hn _]|(op & Hop & _ & [Hst|Hres])].
    + left. do 3 right. destruct Hex as (req & sid & q & Hr & _). exists req, w, res, w'. auto.
    + right. eapply answered_prefix; [by apply prefix_app_r|]. by eapply chain_answered.
    + left. by left.
Qed.

(** [resolve] of the client, about the file system at hand. *)
Lemma resolve_walks cl path w : 0 <= NfsClient.max_ops cl < USIZE_MAX → NfsClient.root cl = sp_root s → fs w = f →
  ∃ r cl' w', Resolve.resolve rpc xdr_len (walk_fuel path) cl path w = Done (r, cl', w') ∧ same_limits cl cl' ∧ fs w' = f ∧
    match r with Ok fh => leads_to s f (comps path) fh | Err e => walk_error f (comps path) e end.
Proof.
  intros Hmax Hroot Hf.
  destruct (ResolveLemmas.resolve_ok rpc Hrpc xdr_len (path_components path) cl Hmax (λ w, fs w = f)
    (leads_to s f) (λ st, declined st ∨ answered f (comps path) st)) with (path := path) (w := w) (fuel := walk_fuel path)
    as (r & cl' & w' & E & Hs & HP' & Hr); [| | |done|done|unfold walk_fuel; lia|].
  - by rewrite Hroot.
  - intros cur chunk w1 r w2 HP1 Hsent. rewrite <-HP1. eapply quiet_sent, Hsent. constructor; [done|].
    apply Forall_app. split; [by apply Forall_fmap, Forall_true|by constructor].
  - intros done_ chunk rest cur w1 res w2 Hsplit Hcur HP1 Hex. by apply (chunk_walked path done_ chunk rest cur w1 res w2).
  - exists r, cl', w'. split; [done|]. split; [done|]. split; [done|]. destruct r as [fh|e].
    + by rewrite <-CursorLemmas.path_components_comps.
    + destruct Hr as [?|[[? _]|[?|?]]]; [by left|right; left; right; right; by left|by right; left|by right; right].
Qed.
End Quiet.

(** *** The walk *)

Lemma type_is_symlink_type attrs :
  match type_is_symlink attrs with
  | Ok l => l = (be_u32 attrs =? NF4LNK)
  | Err e => VfError.is_transport e = true
  end.
Proof.
  unfold type_is_symlink, read_u32, get_range. change (checked_add 0 4) with (Some 4).
  cbv beta iota delta [ok_or mbind result_bind]. change (0 <=? 4) with true. cbn [andb].
  unfold be_u32. destruct (4 <=? Z.of_nat (length attrs)); [|done]. done.
Qed.

(** The backend differs in its client only, and that in what it has learned. *)
Definition kept (b b' : NfsVecFs) : Prop := b' = set_nfs b (nfs b') ∧ same_limits (nfs b) (nfs b').
#[global] Instance kept_preorder : PreOrder kept.
Proof.
  split; [intros b; split; [by destruct b|auto with vnfs]|].
  intros b b1 b2 [E1 H1] [E2 H2]. split; [rewrite E2, E1; by destruct b|by etrans].
Qed.
Lemma kept_set b c : same_limits (nfs b) c → kept b (set_nfs b c).
Proof. by destruct b. Qed.
#[global] Hint Resolve kept_set : vnfs.
Lemma kept_root b b' : kept b b' → conn_root b' = conn_root b.
Proof. intros [-> _]. by destruct b. Qed.

Lemma kept_path b b' file : kept b b' → server_vf_path b' file = server_vf_path b file.
Proof. intros [-> _]. by destruct b. Qed.

Section Walk.
Context {F W : Type} (s : nfs_spec F) (rpc : Compound.t → W → RpcResult COMPOUND4res * W) (fs : W → F).
Context (Hrpc : transport_ok rpc) (Himp : implements s rpc fs).
Context (xdr_len : Compound.t → Z) `{!XdrSizes xdr_len}.
Context (f : F) (R : list bytes) (HR : Forall normal_component R).
(** No directory on the way to the root is a link. *)
Context (Hreal : ∀ names fh, names `prefix_of` R → leads_to s f names fh → ¬ is_link s f fh).
Let root : bytes := join_sep "/"%byte R.

(** The paths a walk meets: at the root or below, or above it. *)
Definition along (cs : list bytes) : Prop := R `prefix_of` cs ∨ cs `prefix_of` R.

Lemma link_below cs pre name fh : along cs → pre ++ [name] `prefix_of` cs → leads_to s f (pre ++ [name]) fh → is_link s f fh →
  ∃ rel, pre = R ++ rel.
Proof.
  intros Hcs Hp Hl Hlink. assert (Hn : ¬ pre ++ [name] `prefix_of` R) by (intros H; by eapply Hreal).
  destruct Hcs as [Hcs|Hcs]; [|by destruct Hn; etrans].
  destruct (prefix_weak_total _ _ _ Hcs Hp) as [[k Hk]|?]; [|done].
  destruct k as [|x k _] using rev_ind; [destruct Hn; by rewrite Hk, app_nil_r|].
  rewrite app_assoc in Hk. apply app_inj_tail in Hk as [-> _]. by exists k.
Qed.

(** A call about an object of the path: the backend is kept, the file system is
    as before, and an error is one of [walk_error]. *)
Definition looked {A} (cs : list bytes) (b : NfsVecFs) (Q : A → Prop) (r : VfResult A) (b' : NfsVecFs) (w' : W) : Prop :=
  kept b b' ∧ fs w' = f ∧
  match r with Ok a => Q a | Err e => ∃ e', e = from_rpc0 e' ∧ walk_error s rpc f cs e' end.

Lemma client1_looks {A} (call : NfsClient.t → W → option (RpcResult A * NfsClient.t * W)) cs (Q : A → Prop) b w :
  (∃ r cl' w', call (nfs b) w = Some (r, cl', w') ∧ same_limits (nfs b) cl' ∧ fs w' = f ∧
     match r with Ok a => Q a | Err e => walk_error s rpc f cs e end) →
  returns (client1 call from_rpc0) b w (looked cs b Q).
Proof.
  intros (r & cl' & w' & E & Hs & Hf & Hr). apply returns_client. exists r, cl', w'. rewrite E. split; [done|].
  split; [auto with vnfs|]. split; [done|]. destruct r as [a|e]; [done|by eauto].
Qed.

Lemma looked_err {A A'} cs cs' b b1 (Q : A → Prop) (Q' : A' → Prop) e b' w' : cs `prefix_of` cs' → kept b b1 →
  looked cs b1 Q (Err e) b' w' → looked cs' b Q' (Err e) b' w'.
Proof.
  intros Hp Hb (Hb' & Hf & e' & -> & He). split; [by etrans|]. split; [done|]. exists e'. split; [done|].
  by eapply walk_error_prefix.
Qed.

(** What the walk by components comes to. *)
Definition walked_ok (follow : bool) (cs todo : list bytes) (x : walked) : Prop :=
  match x with
  | Reached fh t => leads_to s f cs fh ∧ ftype_of s f fh = Some t ∧ (follow = true → t ≠ NF4LNK)
  | Spliced p => ∃ cs', hop s f R follow cs cs' ∧ clean R p cs'
  | NotFollowed => todo = []
  end.

Lemma walk_components_ok follow todo gone cur b w :
  let cs := gone ++ todo in
  conn_root b = root → Forall normal_component cs → along cs → leads_to s f gone cur → fs w = f →
  returns (walk_components rpc xdr_len follow cur (join_sep "/"%byte gone) todo) b w (looked cs b (walked_ok follow cs todo)).
Proof.
  revert gone cur b w. induction todo as [|comp later IH]; intros gone cur b w cs Hb Hcs Hal Hcur Hf; cbn [walk_components].
  { apply returns_ret. by split; [|split]. }
  assert (Hp : gone ++ [comp] `prefix_of` cs) by (exists later; unfold cs; by rewrite <-app_assoc).
  assert (Hgone : Forall is_component gone) by (apply normal_components; unfold cs in Hcs; by apply Forall_app in Hcs as [? _]).
  eapply returns_bind; [apply (client1_looks _ (gone ++ [comp])); by apply lookup_getattr_walks| |].
  2:{ intros e b1 w1 H. by eapply looked_err. }
  intros [child t] b1 w1 (Hb1 & Hf1 & Hl & Ht). pose proof (leads_to_snoc s f _ _ _ _ Hcur Hl) as Hchild.
  rewrite (join_path_clean gone [comp] Hgone ltac:(done) : join_path_bytes _ comp = _).
  destruct ((t =? NF4LNK) && (follow || negb (bool_decide (later = [])))) eqn:Hlink.
  - apply andb_true_iff in Hlink as [Hlnk Hfol]. apply Z.eqb_eq in Hlnk as ->.
    eapply returns_bind; [apply (client1_looks _ (gone ++ [comp])); by apply readlink_walks| |].
    2:{ intros e b2 w2 H. by eapply looked_err. }
    intros target b2 w2 (Hb2 & Hf2 & Htarget).
    destruct (link_below cs gone comp child Hal Hp Hchild Ht) as [pre ->].
    apply returns_gets_bind. rewrite (kept_root _ _ Hb2), (kept_root _ _ Hb1), Hb.
    apply returns_ret. split; [by etrans|]. split; [done|]. exists (expansion R pre target later).
    unfold cs in Hcs. rewrite <-!app_assoc in Hcs. apply Forall_app in Hcs as [_ Hcs]. apply Forall_app in Hcs as [Hpre Hcs].
    apply Forall_cons in Hcs as [Hcomp Hlater]. split.
    + apply (Hop s f R follow cs pre comp later child target); [unfold cs; by rewrite <-app_assoc| |by rewrite app_assoc|done|done].
      apply orb_true_iff in Hfol as [->|Hl']; [by right|left]. by case_bool_decide.
    + rewrite <-app_assoc. apply spliced_clean; [done| |done]. apply Forall_app. split; [by apply normal_components|].
      constructor; [apply Hcomp|done].
  - case_bool_decide as Hlast.
    + subst later. apply returns_ret. split; [done|]. split; [done|]. split; [done|]. split; [done|].
      intros ->. intros ->. done.
    + eapply returns_mono; [apply (IH (gone ++ [comp]) child b1 w1)|].
      * by rewrite (kept_root _ _ Hb1).
      * by rewrite <-app_assoc.
      * by rewrite <-app_assoc.
      * done.
      * done.
      * rewrite <-app_assoc. cbn [app]. fold cs. intros r b' w' (Hb' & Hf' & Hr). split; [by etrans|]. split; [done|].
        destruct r as [[]|]; cbn in *; naive_solver.
Qed.

Lemma hop_along follow cs cs' : hop s f R follow cs cs' → R `prefix_of` cs'.
Proof. intros []. by apply prefix_app_r. Qed.

Lemma hops_along follow n cs cs' : nsteps (hop s f R follow) n cs cs' → R `prefix_of` cs → R `prefix_of` cs'.
Proof. induction 1 as [|n x y z Hxy _ IH]; [done|]. intros _. by apply IH, (hop_along follow x). Qed.

(** Plain targets mean the same to POSIX as to the code. *)
Lemma names_pushed pre names : Forall is_component names → bstr ".." ∉ names →
  foldl normalize_step pre names = pre ++ filter (λ n, n ≠ bstr ".") names.
Proof.
  intros Hc. revert pre. induction Hc as [|n names [Hn _] _ IH]; intros pre Hno; cbn [foldl]; [by rewrite app_nil_r|].
  apply not_elem_of_cons in Hno as [Hdd Hno]. rewrite IH by done. unfold normalize_step.
  rewrite (bool_decide_false (n = [])), (bool_decide_false (n = bstr "..")) by done.
  destruct (decide (n = bstr ".")) as [->|Hd].
  - by rewrite bool_decide_true, filter_cons_False by naive_solver.
  - by rewrite bool_decide_false, filter_cons_True, <-app_assoc by done.
Qed.

Lemma enter_resolves pre names rel : Forall is_component names → enter pre names = Some rel →
  foldl normalize_step pre names = rel.
Proof.
  intros Hc. revert pre. induction Hc as [|n names Hn Hc IH]; intros pre; [by intros [= ->]|]. cbn [enter].
  case_bool_decide as Hd; [|case_bool_decide as Hdd; [|case_bool_decide as Hin; [done|]]]; cbn [foldl].
  - subst n. intros H. rewrite <-(IH _ H). done.
  - subst n. intros H. rewrite <-(IH _ H). f_equal. by rewrite removelast_firstn_len, <-Nat.sub_1_r.
  - intros [= <-]. by apply (names_pushed pre (n :: names)); [constructor|apply not_elem_of_cons].
Qed.

Lemma enter_from pre pre' names : is_Some (enter pre names) → is_Some (enter pre' names).
Proof.
  revert pre pre'. induction names as [|n names IH]; intros pre pre'; [done|]. cbn [enter].
  repeat case_bool_decide; [apply IH|apply IH|done|done].
Qed.

Lemma posix_hops follow n cs cs' : plain_links s f → Forall normal_component cs → nsteps (hop s f R follow) n cs cs' →
  nsteps (posix_hop s f R follow) n cs cs'.
Proof.
  intros Hplain Hcs. induction 1 as [|n x y z Hxy _ IH]; [by apply nsteps_O|].
  destruct Hxy as [pre name post fh target -> Hpost Hl Hk Ht].
  apply Forall_app in Hcs as [HRn [Hpre [_ Hpost']%Forall_cons]%Forall_app].
  set (from := if is_absolute target then [] else pre).
  assert (Hfrom : Forall normal_component from) by (unfold from; by destruct (is_absolute target)).
  destruct (enter_from [] from _ (Hplain fh target Hk Ht)) as [rel Hrel].
  assert (Heq : resolve (from ++ comps target) = rel).
  { unfold resolve. rewrite foldl_app, (foldl_normalize_push [] from) by done. apply enter_resolves; [apply comps_Forall|done]. }
  assert (Hy : expansion R pre target post = R ++ rel ++ post) by (unfold expansion; fold from; by rewrite Heq).
  rewrite Hy in IH. eapply nsteps_l; [by apply (PosixHop s f R follow _ pre name post fh target rel)|]. apply IH. apply Forall_app. split; [done|].
  apply Forall_app. split; [|done]. rewrite <-Heq. unfold resolve. rewrite foldl_app, (foldl_normalize_push [] from) by done.
  apply foldl_normalize_normal; [done|apply comps_Forall].
Qed.

(** What a walk that may expand fewer than [n] links comes to. *)
Definition walk_result (n : nat) (follow : bool) (cs : list bytes) (r : VfResult (nfs_fh4 * Z)) : Prop :=
  match r with
  | Ok (fh, t) => ∃ k cs', (k < n)%nat ∧ nsteps (hop s f R follow) k cs cs' ∧ leads_to s f cs' fh ∧
      (follow = true → ftype_of s f fh = Some t ∧ t ≠ NF4LNK)
  | Err e => VfError.is_transport e = true ∨
      (e = VfError.errno (Some 0) NFS4ERR_IO ∧ ∃ cs', nsteps (hop s f R follow) n cs cs') ∨
      ∃ k cs' e', (k < n)%nat ∧ nsteps (hop s f R follow) k cs cs' ∧ e = from_rpc0 e' ∧ walk_error s rpc f cs' e'
  end.

Lemma walk_result_hop n follow cs cs' r : hop s f R follow cs cs' → walk_result n follow cs' r → walk_result (S n) follow cs r.
Proof.
  intros Hhop. destruct r as [[fh t]|e]; cbn.
  - intros (k & cs2 & Hk & Hn & H). exists (S k), cs2. split; [lia|]. split; [by eapply nsteps_l|done].
  - intros [?|[[? [cs2 Hn]]|(k & cs2 & e' & Hk & Hn & H)]]; [by left|right; left|right; right].
    + split; [done|]. exists cs2. by eapply nsteps_l.
    + exists (S k), cs2, e'. split; [lia|]. split; [by eapply nsteps_l|done].
Qed.

Lemma walk_result_here n follow cs e : walk_error s rpc f cs e → walk_result (S n) follow cs (Err (from_rpc0 e)).
Proof. intros He. right. right. exists 0%nat, cs, e. split; [lia|]. split; [constructor|done]. Qed.

Lemma looked_here {A} n follow cs b b1 (Q : A → Prop) e b' w' : kept b b1 → looked cs b1 Q (Err e) b' w' →
  kept b b' ∧ fs w' = f ∧ walk_result (S n) follow cs (Err e).
Proof. intros Hb (Hb' & Hf & e' & -> & He). split; [by etrans|]. split; [done|]. by apply walk_result_here. Qed.

Definition usable (cl : NfsClient.t) : Prop := 0 <= NfsClient.max_ops cl < USIZE_MAX ∧ NfsClient.root cl = sp_root s.
Lemma usable_same cl cl' : same_limits cl cl' → usable cl → usable cl'.
Proof. intros (Hm & _ & _ & _ & _ & Hr & _) [? ?]. unfold usable. by rewrite Hm, Hr. Qed.

(** A link at the end of the path. *)
Lemma final_link path cs fh target : clean R path cs → along cs → leads_to s f cs fh → is_link s f fh →
  sp_readlink s f fh = Ok target → ∃ cs', hop s f R true cs cs' ∧ clean R (resolve_target root path target) cs'.
Proof.
  intros (Hcs & Hn & Hp) Hal Hl Hlink Ht. destruct cs as [|name pre _] using rev_ind.
  { by destruct (Hreal [] fh (prefix_nil R) Hl). }
  destruct (link_below _ _ _ _ Hal ltac:(done) Hl Hlink) as [rel ->]. rewrite <-app_assoc in *.
  exists (expansion R rel target []). split; [by apply (Hop s f R true _ rel name [] fh target); auto|].
  destruct Hp as [->|Hp].
  - apply resolve_target_clean; [done|]. apply Forall_app in Hn as [_ Hn]. by apply normal_components.
  - apply (f_equal length) in Hp. rewrite !length_app in Hp. cbn in Hp. lia.
Qed.

Lemma resolve_loop_ok follow n path cs b w :
  conn_root b = root → usable (nfs b) → clean R path cs → along cs → fs w = f →
  returns (resolve_loop rpc xdr_len n follow path) b w (λ r b' w', kept b b' ∧ fs w' = f ∧ walk_result n follow cs r).
Proof.
  revert path cs b w. induction n as [|n IH]; intros path cs b w Hb Hu Hclean Hal Hf; cbn [resolve_loop].
  { apply returns_fail. split; [done|]. split; [done|]. right. left. split; [done|]. exists cs. constructor. }
  pose proof Hclean as (Hcs & Hn & Hp).
  eapply returns_bind; [apply (returns_client_result _ _ _ (λ r b' w', kept b b' ∧ fs w' = f ∧
    match r with Ok (Ok fh) => leads_to s f cs fh | Ok (Err e) => walk_error s rpc f cs e | Err _ => False end))| |by intros ? ? ? (_ & _ & [])].
  { destruct (resolve_walks s rpc fs Hrpc Himp xdr_len f (nfs b) path w) as (r & cl' & w' & E & Hs & Hf' & Hr); [apply Hu..|done|].
    exists r, cl', w'. split; [done|]. split; [auto with vnfs|]. split; [done|]. by rewrite Hcs in Hr. }
  intros r b1 w1 (Hb1 & Hf1 & Hr). destruct r as [fh|e].
  - destruct follow; cbn [negb].
    2:{ apply returns_ret. split; [done|]. split; [done|]. exists 0%nat, cs. split; [lia|]. split; [constructor|]. split; [done|]. done. }
    eapply returns_bind; [apply (client1_looks _ cs); by apply getattr_walks| |intros ???; by apply looked_here].
    intros attrs b2 w2 (Hb2 & Hf2 & Ht). apply returns_lift_bind. pose proof (type_is_symlink_type attrs) as Hsym.
    destruct (type_is_symlink attrs) as [l|e]; [|split; [by etrans|]; split; [done|]; by left].
    subst l. destruct (be_u32 attrs =? NF4LNK) eqn:Hl; cbn [negb].
    2:{ apply returns_ret. split; [by etrans|]. split; [done|]. exists 0%nat, cs. split; [lia|]. split; [constructor|].
        split; [done|]. intros _. split; [done|]. by apply Z.eqb_neq. }
    eapply returns_bind; [apply (client1_looks _ cs); by apply readlink_walks| |].
    2:{ intros ???. apply looked_here. by etrans. }
    intros target b3 w3 (Hb3 & Hf3 & Htarget). apply returns_gets_bind. apply Z.eqb_eq in Hl. rewrite Hl in Ht.
    destruct (final_link path cs fh target Hclean Hal Hr Ht Htarget) as (cs' & Hhop & Hclean').
    assert (kept b b3) as Hb03 by (etrans; [exact Hb1|]; by etrans). rewrite (kept_root _ _ Hb03), Hb.
    eapply returns_mono; [apply (IH _ cs'); [by rewrite (kept_root _ _ Hb03)|by eapply usable_same, Hu; apply Hb03|done| |done]|].
    { left. by apply (hop_along _ _ _ Hhop). }
    intros r b' w' (Hb' & Hf' & Hr'). split; [by etrans|]. split; [done|]. by apply (walk_result_hop _ _ cs cs').
  - destruct (RpcError.status e =? NFS4ERR_SYMLINK); cbn beta iota zeta.
    2:{ apply returns_fail. split; [done|]. split; [done|]. by apply walk_result_here. }
    rewrite components_bytes_comps, Hcs. case_bool_decide as Hnil.
    { apply returns_fail. split; [done|]. split; [done|]. by apply walk_result_here. }
    apply returns_gets_bind. assert (usable (nfs b1)) as [_ Hroot] by (by eapply usable_same, Hu; apply Hb1). rewrite Hroot.
    eapply returns_bind; [apply (walk_components_ok follow cs [] (sp_root s) b1 w1); [by rewrite (kept_root _ _ Hb1)|done|done|done|done]| |].
    2:{ intros ???. by apply looked_here. }
    intros x b2 w2 (Hb2 & Hf2 & Hx). cbn [app] in Hx. assert (kept b b2) as Hb02 by by etrans. destruct x as [fh t|p|].
    + apply returns_ret. split; [done|]. split; [done|]. exists 0%nat, cs. split; [lia|]. split; [constructor|].
      destruct Hx as (? & ? & ?). split; [done|]. intros Hfol. by auto.
    + destruct Hx as (cs' & Hhop & Hclean').
      eapply returns_mono; [apply (IH _ cs'); [by rewrite (kept_root _ _ Hb02)|by eapply usable_same, Hu; apply Hb02|done| |done]|].
      { left. by apply (hop_along _ _ _ Hhop). }
      intros r b' w' (Hb' & Hf' & Hr'). split; [by etrans|]. split; [done|]. by apply (walk_result_hop _ _ cs cs').
    + done.
Qed.

(** The walk of a path along the root. *)
Lemma path_resolved path follow b w :
  conn_root b = root → usable (nfs b) → Forall normal_component (comps path) → along (comps path) → fs w = f →
  returns (resolve_path_and_type rpc xdr_len path follow) b w
    (λ r b' w', kept b b' ∧ fs w' = f ∧ walk_result 41 follow (comps path) r).
Proof.
  intros Hb Hu Hn Hal Hf. apply resolve_loop_ok; [done|done| |done|done].
  rewrite normalize_bytes_join, resolve_normal by done. split; [by apply comps_join_sep, normal_components|]. split; [done|by left].
Qed.

(** A path without links left is not expanded further, and otherwise in one way
    only, if links are not directories. *)
Context (Hopaque : ∀ fh name x, is_link s f fh → sp_lookup s f fh name ≠ Ok x).

Lemma link_is_last cs post fh x : leads_to s f cs fh → is_link s f fh → leads_to s f (cs ++ post) x → post = [] ∧ x = fh.
Proof.
  unfold leads_to. intros Hfh Hl Hx. rewrite spec_walk_app, Hfh in Hx. destruct post as [|n post]; cbn in Hx; [by injection Hx|].
  destruct (sp_lookup s f fh n) as [y|st] eqn:E; [|done]. by apply Hopaque in E.
Qed.

Lemma first_link cs a n c a' n' c' fh fh' : cs = a ++ n :: c → cs = a' ++ n' :: c' →
  leads_to s f (a ++ [n]) fh → is_link s f fh → leads_to s f (a' ++ [n']) fh' → is_link s f fh' → a = a' ∧ n = n' ∧ c = c' ∧ fh = fh'.
Proof.
  intros -> E Hl Hk Hl' Hk'.
  assert (a ++ [n] = a' ++ [n'] ∧ fh = fh') as [Heq ->].
  { destruct (prefix_weak_total (a ++ [n]) (a' ++ [n']) (a ++ n :: c)) as [[k Hp]|[k Hp]];
      [by exists c; rewrite <-app_assoc|by exists c'; rewrite E, <-app_assoc| |].
    - rewrite Hp in Hl'. destruct (link_is_last _ _ _ _ Hl Hk Hl') as [-> ->]. by rewrite Hp, app_nil_r.
    - rewrite Hp in Hl. destruct (link_is_last _ _ _ _ Hl' Hk' Hl) as [-> ->]. by rewrite Hp, app_nil_r. }
  apply app_inj_tail in Heq as [-> ->]. apply app_inv_head in E as [= ->]. done.
Qed.

Lemma hop_functional follow cs c1 c2 : hop s f R follow cs c1 → hop s f R follow cs c2 → c1 = c2.
Proof.
  intros [pre n post fh t E _ Hl Hk Ht] [pre' n' post' fh' t' E' _ Hl' Hk' Ht']. rewrite app_assoc in E, E', Hl, Hl'.
  destruct (first_link _ _ _ _ _ _ _ _ _ E E' Hl Hk Hl' Hk') as (Hpre & -> & -> & ->).
  apply app_inv_head in Hpre as ->. congruence.
Qed.

Lemma resolved_final follow cs fh c : leads_to s f cs fh → (follow = true → ¬ is_link s f fh) → ¬ hop s f R follow cs c.
Proof.
  intros Hfh Hno [pre n post fh' t E Hpost Hl Hk _]. rewrite E in Hfh.
  replace (R ++ pre ++ n :: post) with ((R ++ pre ++ [n]) ++ post) in Hfh by (by rewrite <-!app_assoc).
  destruct (link_is_last _ _ _ _ Hl Hk Hfh) as [-> ->]. destruct Hpost as [|Hfol]; [done|]. by apply Hno.
Qed.

Lemma resolved_once follow cs c1 c2 fh1 fh2 : rtc (hop s f R follow) cs c1 → rtc (hop s f R follow) cs c2 →
  leads_to s f c1 fh1 → leads_to s f c2 fh2 →
  (follow = true → ¬ is_link s f fh1) → (follow = true → ¬ is_link s f fh2) → c1 = c2 ∧ fh1 = fh2.
Proof.
  intros H1 H2 L1 L2 N1 N2. assert (c1 = c2) as ->; [|split; [done|]; unfold leads_to in *; congruence].
  revert c2 H2 L2. induction H1 as [c1|cs y c1 Hy H1 IH]; intros c2 H2 L2.
  - inversion H2 as [|? z ? Hz]; [done|]. by destruct (resolved_final follow c1 fh1 z).
  - inversion H2 as [|? z ? Hz H2']; subst; [by destruct (resolved_final follow c2 fh2 y)|].
    apply IH; [done| |done]. by rewrite (hop_functional follow cs y z).
Qed.
End Walk.

(** The root as the connection keeps it. *)
Lemma root_normal r : r = normalize_bytes r → r = join_sep "/"%byte (comps r) ∧ Forall normal_component (comps r).
Proof.
  intros Hr. assert (HR : Forall normal_component (comps r)) by (rewrite Hr, comps_normalize; apply resolve_comps_normal).
  split; [|done]. rewrite Hr at 1. rewrite normalize_bytes_join. by rewrite resolve_normal.
Qed.

(** The walk of an operand. *)
Definition root_real {F} (s : nfs_spec F) (f : F) (R : list bytes) : Prop :=
  ∀ names fh, names `prefix_of` R → leads_to s f names fh → ¬ is_link s f fh.

Lemma operand_resolved {F W} (s : nfs_spec F) (rpc : Compound.t → W → RpcResult COMPOUND4res * W) (fs : W → F)
    (xdr_len : Compound.t → Z) `{!XdrSizes xdr_len} (b : NfsVecFs) (w : W) (file : FileOperand) (path : bytes) (follow : bool) :
  transport_ok rpc → implements s rpc fs → usable s (nfs b) → conn_root b = normalize_bytes (conn_root b) →
  let R := comps (conn_root b) in
  root_real s (fs w) R → server_vf_path b file = Ok path →
  returns (resolve_path_and_type rpc xdr_len path follow) b w
    (λ r b' w', kept b b' ∧ fs w' = fs w ∧ walk_result s rpc (fs w) R 41 follow (R ++ operand_names b file) r).
Proof.
  intros Hrpc Himp Hu Hroot R Hreal Hpath. set (cs := R ++ operand_names b file).
  destruct (root_normal (conn_root b) Hroot) as [Hjoin HR]. fold R in Hjoin, HR.
  assert (Hcs : comps path = cs) by (by apply operand_path_names).
  assert (Hn : Forall normal_component cs).
  { apply Forall_app. split; [done|]. apply operand_names_normal. }
  rewrite <-Hcs in Hn |- *. apply (path_resolved s rpc fs Hrpc Himp xdr_len (fs w) R HR Hreal); [done|done|done| |done].
  rewrite Hcs. left. by apply prefix_app_r.
Qed.
End NamespaceLemmas.

Import NamespaceLemmas.

(** C13: The path walk follows links as POSIX does, with the configured root as the
    root.  For every server on which no component of the configured root is a link
    and every link's target has its [".."] at the beginning, every transport and
    every path operand, [resolve_path_and_type] of its server path returns after a
    bounded number of requests, without changing the file system.  A handle it
    returns is the one the operand's path leads to after at most forty links have
    been expanded: a relative target is entered from the directory its link is in,
    climbing for every [".."], an absolute one from the configured root.  Every
    path on the way stays below that root, whatever the targets say.  When the
    final link is to be followed, the object is not a link and its type is the one
    reported.  An error is a failed exchange, a path with more than forty links, or
    what the server answers about the path at hand.  (The operand itself is
    normalized by its names, as documented; a [".."] behind a name in a target the
    code cancels by name as well, which POSIX does not.) *)
Theorem path_walk_correct {F W} (s : nfs_spec F) (rpc : Compound.t → W → RpcResult COMPOUND4res * W) (fs : W → F)
    (xdr_len : Compound.t → Z) `{!XdrSizes xdr_len} (b : NfsVecFs) (w : W) (file : FileOperand) (path : bytes) (follow : bool) :
  transport_ok rpc → implements s rpc fs → usable s (nfs b) → conn_root b = normalize_bytes (conn_root b) →
  let R := comps (conn_root b) in
  root_real s (fs w) R → plain_links s (fs w) →
  server_vf_path b file = Ok path →
  let cs := R ++ operand_names b file in
  let hops := nsteps (posix_hop s (fs w) R follow) in
  ∃ r b' w', resolve_path_and_type rpc xdr_len path follow b w = Done (r, b', w') ∧ kept b b' ∧ fs w' = fs w ∧
    match r with
    | Ok (fh, t) => ∃ k cs', (k <= 40)%nat ∧ hops k cs cs' ∧ R `prefix_of` cs' ∧ leads_to s (fs w) cs' fh ∧
        (follow = true → ftype_of s (fs w) fh = Some t ∧ t ≠ NF4LNK)
    | Err e =>
        VfError.is_transport e = true ∨
        (e = VfError.errno (Some 0) NFS4ERR_IO ∧ ∃ cs', hops 41%nat cs cs') ∨
        ∃ k cs' e', (k <= 40)%nat ∧ hops k cs cs' ∧ R `prefix_of` cs' ∧ e = from_rpc0 e' ∧ walk_error s rpc (fs w) cs' e'
    end.
Proof.
  intros Hrpc Himp Hu Hroot R Hreal Hplain Hpath cs hops.
  assert (Hcsr : R `prefix_of` cs) by by apply prefix_app_r.
  assert (Hn : Forall normal_component cs)
    by (apply Forall_app; split; [by apply root_normal in Hroot as [_ ?]|apply operand_names_normal]).
  assert (Hposix : ∀ k cs', nsteps (hop s (fs w) R follow) k cs cs' → hops k cs cs') by (intros k cs'; by apply posix_hops).
  destruct (operand_resolved s rpc fs xdr_len b w file path follow Hrpc Himp Hu Hroot Hreal Hpath)
    as (r & b' & w' & E & Hb & Hf & Hr). exists r, b', w'. split; [exact E|]. split; [done|]. split; [done|].
  destruct r as [[fh t]|e].
  - destruct Hr as (k & cs' & Hk & Hhops & ? & ?). exists k, cs'. split; [lia|]. split; [by apply Hposix|].
    split; [by eapply hops_along|done].
  - destruct Hr as [?|[(? & cs' & ?)|(k & cs' & e' & Hk & Hhops & ? & ?)]]; [by left|right; left|right; right].
    + split; [done|]. exists cs'. by apply Hposix.
    + exists k, cs', e'. split; [lia|]. split; [by apply Hposix|]. split; [by eapply hops_along|done].
Qed.

(** A name means one object.  If LOOKUP in a symbolic link fails, as the
    protocol says, two walks that succeed return the same handle whenever their
    operands have the same components below the same root: it does not depend on
    the spelling of the path, the working directory, the limits of the session
    or the way the server splits and rejects requests. *)
Theorem path_walk_unique {F W} (s : nfs_spec F) (rpc rpc' : Compound.t → W → RpcResult COMPOUND4res * W) (fs : W → F)
    (xdr_len : Compound.t → Z) `{!XdrSizes xdr_len} (b1 b2 : NfsVecFs) (w1 w2 : W) (file1 file2 : FileOperand)
    (path1 path2 : bytes) (follow : bool) fh1 t1 b1' w1' fh2 t2 b2' w2' :
  transport_ok rpc → implements s rpc fs → transport_ok rpc' → implements s rpc' fs →
  usable s (nfs b1) → usable s (nfs b2) →
  conn_root b1 = normalize_bytes (conn_root b1) → conn_root b2 = conn_root b1 → fs w2 = fs w1 →
  root_real s (fs w1) (comps (conn_root b1)) →
  (∀ fh name x, is_link s (fs w1) fh → sp_lookup s (fs w1) fh name ≠ Ok x) →
  server_vf_path b1 file1 = Ok path1 → server_vf_path b2 file2 = Ok path2 → operand_names b1 file1 = operand_names b2 file2 →
  resolve_path_and_type rpc xdr_len path1 follow b1 w1 = Done (Ok (fh1, t1), b1', w1') →
  resolve_path_and_type rpc' xdr_len path2 follow b2 w2 = Done (Ok (fh2, t2), b2', w2') →
  fh1 = fh2 ∧ (follow = true → t1 = t2).
Proof.
  intros Hr1 Hi1 Hr2 Hi2 Hu1 Hu2 Hroot Hsame Hfs Hreal Hopaque Hp1 Hp2 Hnames E1 E2.
  destruct (operand_resolved s rpc fs xdr_len b1 w1 file1 path1 follow Hr1 Hi1 Hu1 Hroot Hreal Hp1)
    as (r1 & c1 & x1 & E1' & _ & _ & H1). rewrite E1 in E1'. injection E1' as <- <- <-.
  destruct (operand_resolved s rpc' fs xdr_len b2 w2 file2 path2 follow Hr2 Hi2 Hu2) as (r2 & c2 & x2 & E2' & _ & _ & H2);
    [by rewrite Hsame|by rewrite Hsame, Hfs|done|]. rewrite E2 in E2'. injection E2' as <- <- <-.
  rewrite Hsame, Hfs, <-Hnames in H2.
  destruct H1 as (k1 & cs1 & _ & Hh1 & Hl1 & Ht1), H2 as (k2 & cs2 & _ & Hh2 & Hl2 & Ht2).
  assert (Hno : ∀ fh t, (follow = true → ftype_of s (fs w1) fh = Some t ∧ t ≠ NF4LNK) → follow = true → ¬ is_link s (fs w1) fh).
  { intros fh t Ht Hfol. destruct (Ht Hfol). unfold is_link. congruence. }
  destruct (resolved_once s (fs w1) (comps (conn_root b1)) Hopaque follow _ cs1 cs2 fh1 fh2 (rtc_nsteps_2 _ _ _ Hh1)
    (rtc_nsteps_2 _ _ _ Hh2) Hl1 Hl2 (Hno _ _ Ht1) (Hno _ _ Ht2)) as [_ <-]. split; [done|].
  intros Hfol. destruct (Ht1 Hfol), (Ht2 Hfol). congruence.
Qed.

(** *** An example: links up, down, absolute and in a circle *)

Definition example_links : mem := Mem (list_to_map [
  (bstr "root", NDir (list_to_map [(bstr "exp", bstr "E"); (bstr "out", bstr "O")]));
  (bstr "O", NFile (bstr "not ours"));
  (bstr "E", NDir (list_to_map [(bstr "d", bstr "D"); (bstr "abs", bstr "L1"); (bstr "via", bstr "L2"); (bstr "loop", bstr "L3")]));
  (bstr "D", NDir (list_to_map [(bstr "f", bstr "FF"); (bstr "up", bstr "L4")]));
  (bstr "L1", NLink (bstr "/d"));
  (bstr "L2", NLink (bstr "abs/./up"));
  (bstr "L3", NLink (bstr "./loop"));
  (bstr "L4", NLink (bstr "../../../abs"));
  (bstr "FF", NFile (bstr "data"))]) 7 [].
Definition example_nfs : NfsClient.t :=
  NfsClient.Make SlotLemmas.example_session (bstr "root") 4096 4096 8 (AdaptiveCompoundLimits.new 8) 4096 None 1024 [] 0.
Definition example_backend : NfsVecFs := MakeFs example_nfs (bstr "exp") (bstr "d") 0 ∅ [] Full false true false 0.
Definition example_rpc := spec_server MemFs.spec 20.

Lemma example_usable : usable MemFs.spec example_nfs.
Proof. split; [|reflexivity]. change (NfsClient.max_ops example_nfs) with 8. unfold USIZE_MAX, U64_MAX. lia. Qed.
Lemma example_limits : AdaptiveCompoundLimits.wf (NfsClient.compound_limits example_nfs).
Proof. split; [cbn; unfold USIZE_MAX, U64_MAX; lia|]. intros tag size Ht. change ((∅ : gmap bytes AdaptiveBatchSizer.t) !! tag = Some size) in Ht. by rewrite lookup_empty in Ht. Qed.
Lemma example_root_real : root_real MemFs.spec example_links [bstr "exp"].
Proof.
  intros names fh [k Hk] Hl Hlink. destruct names as [|n names]; [by injection Hl as <-|].
  injection Hk as <- Hk. symmetry in Hk. apply app_eq_nil in Hk as [-> ->].
  vm_compute in Hl. injection Hl as <-. done.
Qed.
Lemma example_opaque fh name x : is_link MemFs.spec example_links fh → sp_lookup MemFs.spec example_links fh name ≠ Ok x.
Proof.
  unfold is_link, ftype_of. cbn -[example_links Compound.bitmap]. unfold MemFs.lookup, MemFs.dir_at.
  destruct (MemFs.node_at example_links fh) as [[]|]; try done; by rewrite bool_decide_true.
Qed.

Lemma plain_nodes (m : mem) :
  forallb (λ p, match p.2 with NLink l => bool_decide (is_Some (enter [] (comps l))) | _ => true end)
    (map_to_list (nodes m)) = true → plain_links MemFs.spec m.
Proof.
  intros H fh target _. cbn. unfold MemFs.node_at. intros Ht. repeat case_match; simplify_eq.
  match goal with Hm : nodes m !! fh = _ |- _ => rename Hm into E end. apply Is_true_true, forallb_True in H. rewrite Forall_forall in H.
  apply elem_of_map_to_list, H in E. by apply bool_decide_unpack in E.
Qed.
Lemma example_plain : plain_links MemFs.spec example_links.
Proof. apply plain_nodes. vm_compute. reflexivity. Qed.

Lemma example_run limit : limit = 20 ∨ limit = 5 →
  ∃ b' w', resolve_path_and_type (spec_server MemFs.spec limit) SendLemmas.example_xdr_len (bstr "exp/via/f") true
    example_backend example_links = Done (Ok (bstr "FF", 1), b', w').
Proof.
  intros Hl. set (a := resolve_path_and_type _ _ _ _ _ _).
  assert (Hr : match a with Done (v, _, _) => v = Ok (bstr "FF", 1) | _ => False end)
    by (unfold a; destruct Hl as [->| ->]; vm_compute; reflexivity).
  clearbody a. destruct a as [[[r b'] w']| |]; [|done|done]. subst r. by eauto.
Qed.

Lemma path_walk_correct_witness :
  ∃ b' w' k cs', resolve_path_and_type example_rpc SendLemmas.example_xdr_len (bstr "exp/via/f") true example_backend example_links =
      Done (Ok (bstr "FF", 1), b', w') ∧ (k <= 40)%nat ∧
    nsteps (posix_hop MemFs.spec example_links [bstr "exp"] true) k [bstr "exp"; bstr "via"; bstr "f"] cs' ∧
    leads_to MemFs.spec example_links cs' (bstr "FF").
Proof.
  destruct (path_walk_correct MemFs.spec example_rpc id SendLemmas.example_xdr_len example_backend example_links
    (PathOperand BaseCwd (bstr "../../via//./f")) (bstr "exp/via/f") true) as (r & b' & w' & E & _ & _ & H).
  - apply ServerLemmas.spec_server_transport; [apply MemFs.mem_spec_ok|reflexivity].
  - apply ServerLemmas.spec_server_implements, MemFs.mem_spec_ok.
  - exact example_usable.
  - reflexivity.
  - apply example_root_real.
  - apply example_plain.
  - reflexivity.
  - destruct (example_run 20 (or_introl eq_refl)) as (b1 & w1 & E1). unfold example_rpc in E. rewrite E1 in E.
    injection E as <- <- <-. rename b1 into b', w1 into w', E1 into E. destruct H as (k & cs' & Hk & Hh & _ & Hl & _). exists b', w', k, cs'.
    split; [exact E|]. split; [exact Hk|]. split; [exact Hh|exact Hl].
Defined.

Lemma path_walk_unique_witness : bstr "FF" = bstr "FF" ∧ (true = true → 1 = 1).
Proof.
  destruct (example_run 20 (or_introl eq_refl)) as (b1' & w1' & E1), (example_run 5 (or_intror eq_refl)) as (b2' & w2' & E2).
  refine (path_walk_unique MemFs.spec example_rpc (spec_server MemFs.spec 5) id SendLemmas.example_xdr_len example_backend
    example_backend example_links example_links (PathOperand BaseAbs (bstr "/via/f")) (CwdPath (bstr "../via/./f"))
    (bstr "exp/via/f") (bstr "exp/via/f") true (bstr "FF") 1 b1' w1' (bstr "FF") 1 b2' w2' _ _ _ _ _ _ _ _ _ _ _ _ _ _ E1 E2).
  - apply ServerLemmas.spec_server_transport; [apply MemFs.mem_spec_ok|reflexivity].
  - apply ServerLemmas.spec_server_implements, MemFs.mem_spec_ok.
  - apply ServerLemmas.spec_server_transport; [apply MemFs.mem_spec_ok|reflexivity].
  - apply ServerLemmas.spec_server_implements, MemFs.mem_spec_ok.
  - exact example_usable.
  - exact example_usable.
  - reflexivity.
  - reflexivity.
  - reflexivity.
  - apply example_root_real.
  - apply example_opaque.
  - reflexivity.
  - reflexivity.
  - reflexivity.
Defined.
