(* ===== verification/Files.v ===== *)
(** * Many names at once

    Models the rest of [crates/vfsi-nfs/src/nfs/namespace.rs]: [resolve_files_nfs],
    which resolves every parent directory once and looks all children up in
    batches, and the phased forms of rename and remove, which resolve first and
    mutate after.  The theorems show that a batch of operands is resolved as each
    operand alone, and that a phased mutation carries out a prefix of its steps
    on the objects its operands name. *)
From Stdlib Require Import Strings.Byte.
From stdpp Require Import base numbers countable list list_numbers gmap strings relations.
From S2P Require Import Prelude Path Errors Types Planner Compound Session Cursor Client Loops Exchange Server Batch BatchOps BatchRun Resolve Single BatchSpec Mutations Opens Lifecycle Remove Merged PathIo PathSpec Metadata StdPath Backend Namespace.

(** ** [BTreeMap<Box<[u8]>, Vec<A>>] *)

Fixpoint bytes_ltb (a b : bytes) : bool :=
  match a, b with
  | _, [] => false
  | [], _ :: _ => true
  | x :: a, y :: b => (byte_val x <? byte_val y) || (bool_decide (x = y) && bytes_ltb a b)
  end.

(** [groups.entry(key).or_default().push(a)]; the keys stay in order. *)
Fixpoint group_push {A} (key : bytes) (a : A) (groups : list (bytes * list A)) : list (bytes * list A) :=
  match groups with
  | [] => [(key, [a])]
  | (k, items) :: rest =>
      if bool_decide (k = key) then (k, items ++ [a]) :: rest
      else if bytes_ltb key k then (key, [a]) :: groups
      else (k, items) :: group_push key a rest
  end.

(** ** Operations *)

Section Files.
Context {W : Type} (rpc : Compound.t → W → RpcResult COMPOUND4res * W) (xdr_len : Compound.t → Z).
Context (os_kind : Z → ErrorKind).

Definition groups : Type := list (bytes * list (nat * bytes)).
Definition resolved : Type := result Z (nfs_fh4 * Z).

(** The first loop of [resolve_files_nfs]: descriptors and the export root are
    answered, the other operands grouped by parent directory. *)
Definition group_path (i : nat) (path : bytes) (gs : groups) (out : list resolved) : op W (groups * list resolved) :=
  if bool_decide (path = []) then
    root ← gets (λ b, NfsClient.root (nfs b));
    ret (gs, <[i := Ok (root, NF4DIR)]> out)
  else
    match split_path_bytes path with
    | Err _ => fail (VfError.errno (Some (Z.of_nat i)) ENOENT)
    | Ok (dir, name) => ret (group_push dir (i, name) gs, out)
    end.
Definition group_file (x : nat * FileOperand) (st : groups * list resolved) : op W (groups * list resolved) :=
  let '(i, f) := x in
  let '(gs, out) := st in
  match FileOperand.fd f with
  | Some fd =>
      o ← gets (λ b, open_files b !! fd);
      ret (gs, <[i := match o with Some o => Ok (os_fh o, 0) | None => Err EBADF end]> out)
  | None =>
      path ← gets (λ b, server_vf_path b f);
      path ← map_err (λ e, VfError.with_index e (Z.of_nat i)) (lift path);
      group_path i path gs out
  end.

(** The answer for a child that was looked up. *)
Definition finish_child (files : list FileOperand) (follow : bool) (x : (nat * bytes) * resolved) (out : list resolved)
    : op W (list resolved) :=
  let '((i, _), r) := x in
  match r with
  | Err status => ret (<[i := Err status]> out)
  | Ok child =>
      r ← attempt (resolve_lookup_result child follow (
            file ← expect (files !! i);
            full ← gets (λ b, server_vf_path b file);
            full ← lift full;
            resolve_path_and_type rpc xdr_len full true));
      match r with
      | Ok result => ret (<[i := Ok result]> out)
      | Err error =>
          if VfError.is_transport error then fail (VfError.map_index error (λ _, Z.of_nat i))
          else ret (<[i := Err (VfError.raw_code os_kind error)]> out)
      end
  end.

(** [for (i, _) in &entries { out[*i] = Err(err) }]. *)
Definition fail_entries (entries : list (nat * bytes)) (code : Z) (out : list resolved) : list resolved :=
  foldl (λ out '(i, _), <[i := Err code]> out) out entries.

Definition resolve_group (fuel : nat) (files : list FileOperand) (follow : bool) (g : bytes * list (nat * bytes))
    (out : list resolved) : op W (list resolved) :=
  let '(dir, entries) := g in
  r ← attempt (resolve_path rpc xdr_len dir true);
  match r with
  | Err e => if VfError.is_transport e then fail e else ret (fail_entries entries (VfError.raw_code os_kind e) out)
  | Ok dirfh =>
      let ops := (λ entry : nat * bytes, (dirfh, entry.2)) <$> entries in
      results ← client (λ cl w, lookup_getattr_many rpc xdr_len fuel cl ops w) (λ e, error_from_rpc e None);
      for_each (finish_child files follow) (zip entries results) out
  end.

Definition resolve_files_nfs (fuel : nat) (files : list FileOperand) (follow : bool) : op W (list resolved) :=
  '(gs, out) ← for_each group_file (imap pair files) ([], replicate (length files) (Err NFS4ERR_NOENT));
  for_each (resolve_group fuel files follow) gs out.

(** A parent directory, resolved once per [renamev_phased]. *)
Definition cached_parent (i : nat) (dir : bytes) (cache : gmap bytes nfs_fh4) : op W (nfs_fh4 * gmap bytes nfs_fh4) :=
  match cache !! dir with
  | Some fh => ret (fh, cache)
  | None =>
      fh ← map_err (λ e, VfError.with_index e (Z.of_nat i)) (resolve_path rpc xdr_len dir true);
      ret (fh, <[dir := fh]> cache)
  end.

Definition rename_state : Type := gmap bytes nfs_fh4 * gmap bytes nfs_fh4 * list RenameOp.

Definition prepare_rename (x : nat * (FileOperand * FileOperand)) (st : rename_state) : op W rename_state :=
  let '(i, (src, dst)) := x in
  let '(src_cache, dst_cache, ops) := st in
  s ← gets (λ b, server_vf_path b src);
  s ← map_err (λ e, VfError.with_index e (Z.of_nat i)) (lift s);
  d ← gets (λ b, server_vf_path b dst);
  d ← map_err (λ e, VfError.with_index e (Z.of_nat i)) (lift d);
  match split_path_bytes s, split_path_bytes d with
  | Ok (sdir, sname), Ok (ddir, dname) =>
      '(sdirfh, src_cache) ← cached_parent i sdir src_cache;
      '(ddirfh, dst_cache) ← cached_parent i ddir dst_cache;
      ret (src_cache, dst_cache, ops ++ [Rename sdirfh sname ddirfh dname])
  | _, _ => fail (VfError.errno (Some (Z.of_nat i)) ENOENT)
  end.

Definition renamev_phased (fuel : nat) (pairs : list (FileOperand * FileOperand)) : op W unit :=
  '(_, ops) ← for_each prepare_rename (imap pair pairs) (∅, ∅, []);
  client (λ cl w, rename_many rpc xdr_len fuel cl ops w) error_from_rpc_indexed.

(** [removev_phased]: the operands grouped by parent, one batch per group. *)
Definition group_remove (x : nat * FileOperand) (gs : groups) : op W groups :=
  let '(i, f) := x in
  path ← gets (λ b, server_vf_path b f);
  path ← map_err (λ e, VfError.with_index e (Z.of_nat i)) (lift path);
  match split_path_bytes path with
  | Err _ => fail (VfError.errno (Some (Z.of_nat i)) ENOENT)
  | Ok (dir, name) => ret (group_push dir (i, name) gs)
  end.

Definition remove_group (fuel : nat) (g : bytes * list (nat * bytes)) (_ : unit) : op W unit :=
  let '(dir, entries) := g in
  let indices := Z.of_nat <$> entries.*1 in
  first ← expect (indices !! 0%nat);
  dirfh ← map_err (λ e, VfError.with_index e first) (resolve_path rpc xdr_len dir true);
  client (λ cl w, RemoveMany.remove_many rpc xdr_len fuel cl dirfh entries.*2 w)
    (λ e, VfError.map_index (error_from_rpc_indexed e) (λ relative, default relative (indices !! Z.to_nat relative))).

Definition removev_phased (fuel : nat) (files : list FileOperand) : op W unit :=
  gs ← for_each group_remove (imap pair files) [];
  for_each (remove_group fuel) gs tt.

(** The paths and the caller indices of the directories whose mode is given. *)
Fixpoint mode_paths (b : NfsVecFs) (i : nat) (dirs : list VfAttrs) : VfResult (list (bytes * nat)) :=
  match dirs with
  | [] => Ok []
  | a :: dirs =>
      if Z.land (va_masks a) AttrMask.MODE =? AttrMask.MODE then
        match server_vf_path b (va_file a) with
        | Err e => Err (VfError.with_index e (Z.of_nat i))
        | Ok p => rest ← mode_paths b (S i) dirs; Ok ((visible_path (conn_root b) p, i) :: rest)
        end
      else mode_paths b (S i) dirs
  end.

(** [dirs[indices[k]].mode & 0o7777] for every directory that was found. *)
Fixpoint mode_ops (dirs : list VfAttrs) (xs : list (nat * resolved)) : option (VfResult (list SetattrOp)) :=
  match xs with
  | [] => Some (Ok [])
  | (i, Err status) :: _ => Some (Err (VfError.nfs (Some (Z.of_nat i)) status))
  | (i, Ok (fh, _)) :: xs =>
      a ← dirs !! i;
      rest ← mode_ops dirs xs;
      Some (match rest with
            | Ok ops => Ok (Setattr fh (Some (Z.land (va_mode a) 4095)) None None None None None :: ops)
            | Err e => Err e
            end)
  end.

Definition apply_dir_modes (fuel : nat) (dirs : list VfAttrs) : op W unit :=
  ps ← gets (λ b, mode_paths b 0 dirs);
  ps ← lift ps;
  if bool_decide (ps = []) then ret tt
  else
    let indices := ps.*2 in
    resolved ← map_err (λ e, VfError.map_index e (λ rel, default rel (Z.of_nat <$> indices !! Z.to_nat rel)))
      (resolve_files_nfs fuel (FileOperand.from_path_bytes <$> ps.*1) true);
    setattrs ← expect (mode_ops dirs (zip indices resolved));
    setattrs ← lift setattrs;
    if bool_decide (setattrs = []) then ret tt
    else
      client (λ cl w, setattr_many rpc xdr_len fuel cl setattrs w)
        (λ e, let orig := default 0 (Z.of_nat <$> indices !! Z.to_nat (RpcError.op_index e)) in
              error_from_rpc_indexed (RpcError.with_op_index e orig)).
End Files.

Definition NFS4ERR_STALE_STATEID : Z := 10023.
Definition NFS4ERR_BAD_SEQID : Z := 10026.
Definition NFS4ERR_NOTSUPP : Z := 10004.
Definition is_stateid_error (status : Z) : bool :=
  (status =? Planner.NFS4ERR_BAD_STATEID) || (status =? Planner.NFS4ERR_OLD_STATEID) || (status =? NFS4ERR_STALE_STATEID)
  || (status =? NFS4ERR_BAD_SEQID) || (status =? NFS4ERR_NOTSUPP).

Module FilesLemmas.
Import ExchangeLemmas ServerLemmas SingleLemmas NamespaceLemmas.

(** *** Groups *)

Definition in_groups {A} (gs : list (bytes * list A)) (key : bytes) (a : A) : Prop := ∃ items, (key, items) ∈ gs ∧ a ∈ items.
Definition total {A} (gs : list (bytes * list A)) : nat := sum_list_with (λ g, length g.2) gs.

Lemma in_groups_cons {A} k (items : list A) gs key a :
  in_groups ((k, items) :: gs) key a ↔ (key = k ∧ a ∈ items) ∨ in_groups gs key a.
Proof. unfold in_groups. set_solver. Qed.

Lemma in_group_push {A} key (a : A) gs k x : in_groups (group_push key a gs) k x ↔ (k = key ∧ x = a) ∨ in_groups gs k x.
Proof.
  induction gs as [|[k0 items] gs IH]; cbn [group_push].
  { rewrite in_groups_cons. set_solver. }
  case_bool_decide as Hk; [subst k0|case_match]; rewrite !in_groups_cons, ?IH; set_solver.
Qed.

Lemma total_push {A} key (a : A) gs : total (group_push key a gs) = S (total gs).
Proof.
  induction gs as [|[k0 items] gs IH]; cbn [group_push]; [done|]. case_bool_decide; [|case_match].
  - unfold total. cbn. rewrite length_app. cbn. lia.
  - done.
  - unfold total in *. cbn. lia.
Qed.
Lemma push_nonempty {A} key (a : A) gs : Forall (λ g, g.2 ≠ []) gs → Forall (λ g, g.2 ≠ []) (group_push key a gs).
Proof.
  induction 1 as [|[k0 items] gs H0 H IH]; cbn [group_push]; [by repeat constructor|].
  case_bool_decide; [|case_match]; repeat (constructor; try done). cbn. by destruct items.
Qed.
Lemma total_elem {A} key (items : list A) gs : (key, items) ∈ gs → (length items <= total gs)%nat.
Proof.
  induction gs as [|g gs IH]; [by intros ?%not_elem_of_nil|]. intros [<-|H]%elem_of_cons; unfold total in *; cbn; [lia|].
  specialize (IH H). lia.
Qed.

(** *** One item of a quiet batch *)

Section Items.
Context {F W : Type} (s : nfs_spec F) (rpc : Compound.t → W → RpcResult COMPOUND4res * W) (fs : W → F).
Context (Himp : implements s rpc fs).
Context {T : Type} (item_ops : T → list argop) (p : nat).
Context (Hlen : ∀ x, length (item_ops x) = p) (Hquiet : ∀ x, Forall quiet (item_ops x)).

Lemma items_quiet items : Forall quiet (mjoin (item_ops <$> items)).
Proof. apply Forall_join, Forall_fmap, Forall_true. exact Hquiet. Qed.

Lemma mjoin_split items j x : items !! j = Some x →
  ∃ pre post, mjoin (item_ops <$> items) = pre ++ item_ops x ++ post ∧ length pre = (p * j)%nat.
Proof.
  revert j. induction items as [|y items IH]; intros [|j] Hj; [done|done|..].
  - injection Hj as ->. exists [], (mjoin (item_ops <$> items)). by rewrite Nat.mul_0_r.
  - destruct (IH j Hj) as (pre & post & E & Hl). exists (item_ops y ++ pre), post.
    change (mjoin (item_ops <$> y :: items)) with (item_ops y ++ mjoin (item_ops <$> items)).
    rewrite E, length_app, Hl, Hlen, <-!app_assoc. split; [done|lia].
Qed.

(** Where a run of the whole batch stands at an item. *)
Lemma item_run items j x k m rs : items !! j = Some x → (k <= p)%nat →
  spec_steps s m (take (p * j + k) (mjoin (item_ops <$> items))) = Some rs →
  ∃ m1 r1 r2, spec_steps s m1 (take k (item_ops x)) = Some (rs.1, r2) ∧ mc_fs m1 = mc_fs m ∧ rs.2 = r1 ++ r2 ∧ length r1 = (p * j)%nat.
Proof.
  intros Hj Hk H. destruct (mjoin_split items j x Hj) as (pre & post & E & Hl). rewrite E, <-Hl in H.
  rewrite take_app_add, take_app_le, spec_steps_app in H by (rewrite Hlen; lia).
  apply bind_Some in H as ([m1 r1] & H1 & ([m2 r2] & H2 & [= <-])%bind_Some). exists m1, r1, r2. split; [done|].
  pose proof (spec_steps_length _ _ _ _ _ H1). split; [|split; [done|lia]].
  eapply quiet_steps, H1. pose proof (items_quiet items) as Hq. rewrite E in Hq. by apply Forall_app in Hq as [? _].
Qed.

(** An item whose operations all succeeded. *)
Lemma item_succeeds items w res w' j x : exchanged rpc (mjoin (item_ops <$> items)) w res w' → items !! j = Some x →
  (∀ i, 1 + Z.of_nat (p * j) <= i < 1 + Z.of_nat (p * j) + Z.of_nat p → i < CompoundRes.nops res ∧ CompoundRes.op_status res i = NFS_OK) →
  ∃ m m' r0 rs r1, mc_fs m = fs w ∧ spec_steps s m (item_ops x) = Some (m', rs) ∧ complete res (r0 ++ rs ++ r1) ∧
    length r0 = (p * j)%nat.
Proof.
  intros Hex Hj Hall. destruct (exchanged_runs s rpc fs Himp _ _ _ _ Hex (quiet_file _ (items_quiet items))) as (m & rs & Hrun & _ & Hc & Hdone).
  set (ops := mjoin (item_ops <$> items)) in *.
  assert (Hlast : (p * j + p <= ops_done res)%nat).
  { destruct (decide (p = 0%nat)) as [->|Hp]; [lia|].
    destruct (Hall (Z.of_nat (p * j) + Z.of_nat p) ltac:(lia)) as [Hn Hst].
    pose proof Hex as (req & sid & q & _ & Hops & Hd & Hok). rewrite (validated_status _ res _ Hd Hok) in Hst by lia.
    destruct (CompoundRes.status res =? NFS_OK) eqn:Es.
    - rewrite Hdone. destruct (mjoin_split items j x Hj) as (pre & post & E & Hl). unfold ops. rewrite E, !length_app, Hl, Hlen. lia.
    - destruct Hdone as [[? _]|(op & _ & Hn' & _)]; [lia|]. apply Z.eqb_neq in Es.
      destruct (Z.eqb_spec (Z.of_nat (p * j) + Z.of_nat p + 1) (CompoundRes.nops res)); [done|lia]. }
  assert (Hsplit : take (ops_done res) ops = take (p * j + p) ops ++ take (ops_done res - (p * j + p)) (drop (p * j + p) ops)).
  { by rewrite take_take_drop, Nat.add_sub_assoc, Nat.add_comm, Nat.add_sub by lia. }
  rewrite Hsplit, spec_steps_app in Hrun. apply bind_Some in Hrun as ([m1 r1] & H1 & ([m2 r2] & H2 & [= <- <-])%bind_Some).
  destruct (item_run items j x p _ _ Hj ltac:(lia) H1) as (m0 & r0 & rs & Hrs & Hm0 & Hr & Hl). cbn [fst snd] in Hrs, Hr.
  rewrite take_ge in Hrs by (by rewrite Hlen). exists m0, m1, r0, rs, r2. split; [done|]. split; [done|].
  rewrite Hr, <-app_assoc in Hc. done.
Qed.

(** One that failed. *)
Lemma item_fails items w res w' j x i : exchanged rpc (mjoin (item_ops <$> items)) w res w' → items !! j = Some x →
  1 + Z.of_nat (p * j) <= i < 1 + Z.of_nat (p * j) + Z.of_nat p → i < CompoundRes.nops res → CompoundRes.op_status res i ≠ NFS_OK →
  resource_status (CompoundRes.op_status res i) = true ∨
  ∃ m m' rs k o, mc_fs m = fs w ∧ spec_steps s m (take k (item_ops x)) = Some (m', rs) ∧ item_ops x !! k = Some o ∧
    spec_step s m' o = Err (CompoundRes.op_status res i).
Proof.
  intros Hex Hj Hi Hn Hne. destruct (exchanged_runs s rpc fs Himp _ _ _ _ Hex (quiet_file _ (items_quiet items))) as (m & rs & Hrun & _ & _ & Hdone).
  pose proof Hex as (req & sid & q & _ & Hops & Hd & Hok). rewrite (validated_status _ res _ Hd Hok) in Hne |- * by lia.
  destruct (Z.eqb_spec (i + 1) (CompoundRes.nops res)) as [Hlast|]; [|done].
  destruct (Z.eqb_spec (CompoundRes.status res) NFS_OK) as [|_]; [done|].
  destruct Hdone as [[? _]|(o & Ho & Hn' & [Hst|?])]; [lia|right|by left]. set (k := (ops_done res - p * j)%nat).
  assert (Hk : ops_done res = (p * j + k)%nat ∧ (k < p)%nat) by lia. destruct Hk as [Hk Hkp]. rewrite Hk in Hrun, Ho.
  destruct (item_run items j x k _ _ Hj ltac:(lia) Hrun) as (m0 & r0 & rs0 & Hrs & Hm0 & Hr & Hl).
  exists m0, m, rs0, k, o. split; [done|]. split; [done|]. split; [|done].
  destruct (mjoin_split items j x Hj) as (pre & post & E & Hl'). rewrite E, lookup_app_r, lookup_app_l in Ho by (rewrite ?Hlen; lia).
  by replace (p * j + k - length pre)%nat with k in Ho by lia.
Qed.
End Items.

Section Resolve.
Context {F W : Type} (s : nfs_spec F) (rpc : Compound.t → W → RpcResult COMPOUND4res * W) (fs : W → F).
Context (Hrpc : transport_ok rpc) (Himp : implements s rpc fs).
Context (xdr_len : Compound.t → Z) `{!XdrSizes xdr_len} (os_kind : Z → ErrorKind).
Context (f : F).

(** What looking a child up and asking for its type says. *)
Definition child_truth (x : nfs_fh4 * bytes) (v : resolved) : Prop :=
  match v with
  | Ok (fh, t) => sp_lookup s f x.1 x.2 = Ok fh ∧ ftype_of s f fh = Some t
  | Err st => ∀ cs, leads_to s f cs x.1 → answered s f (cs ++ [x.2]) st
  end.

Lemma children_tell_truth :
  TolerantLemmas.tells_truth rpc 4
    (λ res start, fh ← CompoundRes.getfh res (start + 2); b ← CompoundRes.getattr res (start + 3); Some (fh, be_u32 b))
    (λ op : nfs_fh4 * bytes, [APutFh op.1; ALookup op.2; AGetFh; AGetattr (Compound.bitmap [FATTR4_TYPE])])
    child_truth (λ w, fs w = f).
Proof.
  intros items w res w' Hf Hex j [d name] Hj start. set (item_ops := λ _, _) in Hex.
  assert (Hlen : ∀ x, length (item_ops x) = 4%nat) by done.
  assert (Hq : ∀ x, Forall quiet (item_ops x)) by (by repeat constructor).
  assert (Hst : start = 1 + Z.of_nat (4 * j)) by lia. rewrite Hst. clear Hst start. split.
  - intros Hall. destruct (item_succeeds s rpc fs Himp item_ops 4 Hlen Hq items w res w' j (d, name) Hex Hj Hall)
      as ([f0 cur sav] & m' & r0 & rs & r1 & Hm & Hrun & Hc & Hl0). cbn in Hm. subst f0.
    cbn -[Compound.bitmap] in Hrun. rewrite Hf in Hrun. clear Hf Hall Hex. machine.
    pose proof (complete_accessors res _ (length r0 + 2) (RGetFh NFS_OK (vec_of value)) Hc) as H2.
    pose proof (complete_accessors res _ (length r0 + 3) (RGetattr NFS_OK value0.1 (vec_of value0.2)) Hc) as H3.
    cbn beta zeta iota in H2, H3 |- *. rewrite vec_of_bytes in H2, H3.
    match goal with |- context [CompoundRes.getfh res ?z] => replace z with (1 + Z.of_nat (length r0 + 2)) by lia end.
    match goal with |- context [CompoundRes.getattr res ?z] => replace z with (1 + Z.of_nat (length r0 + 3)) by lia end.
    rewrite H2, H3 by (by rewrite lookup_app_r, Nat.add_comm, Nat.add_sub by lia).
    eexists (_, _). split; [reflexivity|]. split; [done|]. unfold ftype_of. by case_match; simplify_eq.
  - intros i st Hi Hn Hs Hne.
    destruct (item_fails s rpc fs Himp item_ops 4 Hlen Hq items w res w' j (d, name) i Hex Hj ltac:(lia) Hn) as [?|Hfail];
      [by rewrite Hs|left; by rewrite <-Hs|right]. rewrite Hs in Hfail.
    destruct Hfail as ([f0 cur sav] & m' & rs & k & o & Hm & Hrun & Ho & Hstep). cbn in Hm. subst f0. rewrite Hf in Hrun.
    intros cs Hd. cbn [fst snd] in *. clear Hf Hex.
    destruct k as [|[|[|[|k]]]]; cbn -[Compound.bitmap] in Hrun, Ho; simplify_eq; machine; try done.
    + exists cs, d. split; [by apply prefix_app_r|]. by auto.
    + exists cs, d. split; [by apply prefix_app_r|]. split; [done|]. right. left. by exists name.
    + eexists (cs ++ [name]), _. split; [done|]. split; [by eapply leads_to_snoc|]. by auto.
Qed.

(** The batch of lookups. *)
Lemma lookups_walk cl ops w fuel : AdaptiveCompoundLimits.wf (NfsClient.compound_limits cl) → 0 <= NfsClient.max_ops cl < USIZE_MAX →
  TolerantLemmas.enough_fuel ops cl <= Z.of_nat fuel → fs w = f →
  ∃ r cl' w', lookup_getattr_many rpc xdr_len fuel cl ops w = Done (r, cl', w') ∧ same_limits cl cl' ∧ fs w' = f ∧
    match r with
    | Ok vs => Forall2 (λ x v, child_truth x v ∨ ∃ st, v = Err st ∧ declined rpc st) ops vs
    | Err e => RpcError.is_transport e = true ∨ declined rpc (RpcError.status e)
    end.
Proof.
  intros Hwf Hmax Hfuel Hf.
  destruct (TolerantLemmas.many_ok rpc Hrpc xdr_len "lookup_typev" 4 add_lookup_getattr _ _ _ (λ w, fs w = f)
    ltac:(intros items w1 r w2 <- Hs; eapply quiet_sent, Hs; [done|apply items_quiet; by repeat constructor])
    children_tell_truth ops cl Hmax fuel w Hwf Hfuel Hf) as (r & cl' & w' & E & Hr & Hs & Hf').
  exists r, cl', w'. split; [done|]. split; [done|]. split; [done|]. destruct r as [vs|e].
  - destruct Hr as [Hl Hg]. apply Forall2_same_length_lookup_2; [done|]. intros i x v Hx Hv.
    destruct (Hg i x v Hx Hv) as [?|(st & -> & ?)]; [by left|right]. exists st. split; [done|]. by left.
  - destruct Hr as [?|[[_ ->]|[[-> _]|(req & w1 & res & w2 & Hr & -> & Hn)]]]; [by left|right; right; by left|right; right; right; by left|].
    right. do 3 right. exists req, w1, res, w2. split; [done|]. split; [|done]. destruct Hn; [left; lia|by right].
Qed.

(** *** Operands *)

Context (R : list bytes) (HR : Forall normal_component R) (Hreal : root_real s f R).
Let root : bytes := join_sep "/"%byte R.

(** What the entry of an operand with the components [cs] may be. *)
Definition operand_result (follow : bool) (cs : list bytes) (r : resolved) : Prop :=
  match r with
  | Ok (fh, t) => ∃ k cs', (k <= 40)%nat ∧ nsteps (hop s f R follow) k cs cs' ∧ leads_to s f cs' fh ∧
      (cs ≠ [] → ftype_of s f fh = Some t) ∧ (follow = true → t ≠ NF4LNK)
  | Err st =>
      (st = NFS4ERR_IO ∧ ∃ cs', nsteps (hop s f R follow) 41 cs cs') ∨
      ∃ k cs', (k <= 40)%nat ∧ nsteps (hop s f R follow) k cs cs' ∧ (declined rpc st ∨ answered s f cs' st)
  end.

Lemma hop_snoc follow cs cs' name : hop s f R true cs cs' → hop s f R follow (cs ++ [name]) (cs' ++ [name]).
Proof.
  intros [pre n post fh target -> _ Hl Hk Ht]. unfold expansion. rewrite <-!app_assoc. cbn [app].
  apply (Hop s f R follow _ pre n (post ++ [name]) fh target); [done| |done|done|done]. left. by destruct post.
Qed.
Lemma hops_snoc follow k cs cs' name : nsteps (hop s f R true) k cs cs' → nsteps (hop s f R follow) k (cs ++ [name]) (cs' ++ [name]).
Proof. induction 1 as [|k a b c Hab _ IH]; [constructor|]. eapply nsteps_l; [by apply hop_snoc|done]. Qed.

Lemma raw_code_rpc e : RpcError.is_transport e = false → VfError.raw_code os_kind (from_rpc0 e) = RpcError.status e.
Proof. intros He. unfold from_rpc0, error_from_rpc. rewrite He. by case_bool_decide. Qed.
Lemma from_rpc0_transport e : VfError.is_transport (from_rpc0 e) = RpcError.is_transport e.
Proof. unfold from_rpc0, error_from_rpc. destruct (RpcError.is_transport e); [done|]. by case_bool_decide. Qed.

(** The code of a failed walk. *)
Lemma walk_code follow cs e : walk_result s rpc f R 41 follow cs (Err e) → VfError.is_transport e = false →
  operand_result follow cs (Err (VfError.raw_code os_kind e)).
Proof.
  intros [?|[[-> [cs' Hh]]|(k & cs' & e' & Hk & Hh & -> & He)]] Ht; [congruence|left; split; [done|by exists cs']|right].
  rewrite from_rpc0_transport in Ht. exists k, cs'. split; [lia|]. split; [done|]. rewrite raw_code_rpc by done.
  destruct He as [?|He]; [congruence|done].
Qed.

(** A failed walk to the parent fails the child. *)
Lemma parent_fails follow dcs name st : operand_result true dcs (Err st) → operand_result follow (dcs ++ [name]) (Err st).
Proof.
  intros [[-> [cs' Hh]]|(k & cs' & Hk & Hh & Hst)]; [left; split; [done|exists (cs' ++ [name]); by apply hops_snoc]|right].
  exists k, (cs' ++ [name]). split; [done|]. split; [by apply hops_snoc|]. destruct Hst as [?|?]; [by left|right].
  eapply answered_prefix; [by apply prefix_app_r|done].
Qed.

(** A child looked up in the directory its parent path leads to. *)
Lemma child_found follow dcs name d v : (∃ k cs', (k <= 40)%nat ∧ nsteps (hop s f R true) k dcs cs' ∧ leads_to s f cs' d) →
  child_truth (d, name) v ∨ (∃ st, v = Err st ∧ declined rpc st) →
  match v with Ok (fh, t) => follow && (t =? NF4LNK) = false | Err _ => True end → operand_result follow (dcs ++ [name]) v.
Proof.
  intros (k & cs' & Hk & Hh & Hd) Hv Hlink. apply (hops_snoc follow _ _ _ name) in Hh. destruct v as [[fh t]|st].
  - destruct Hv as [[Hl Ht]|(st & ? & _)]; [|done]. exists k, (cs' ++ [name]). split; [done|]. split; [done|].
    split; [by eapply leads_to_snoc|]. split; [done|]. intros ->. cbn in Hlink. by apply Z.eqb_neq.
  - right. exists k, (cs' ++ [name]). split; [done|]. split; [done|]. destruct Hv as [Hv|(? & [= <-] & ?)]; [right|by left].
    by apply Hv.
Qed.

Section Loops.
Context (b0 : NfsVecFs) (w0 : W) (files : list FileOperand) (follow : bool) (fuel : nat).
Context (Hroot : conn_root b0 = root) (HRc : comps (conn_root b0) = R) (Hu : usable s (nfs b0)) (Hw0 : fs w0 = f).
Let n : nat := length files.

(** The answer for the operand at [i]. *)
Definition answer_for (i : nat) (r : resolved) : Prop := ∀ file, files !! i = Some file →
  match file with
  | Fd fd => r = match open_files b0 !! fd with Some o => Ok (os_fh o, 0) | None => Err EBADF end
  | _ => operand_result follow (R ++ operand_names b0 file) r
  end.
Definition filled (out : list resolved) (i : nat) : Prop := ∃ r, out !! i = Some r ∧ answer_for i r.

(** An operand waiting in a group. *)
Definition entry_ok (dir : bytes) (e : nat * bytes) : Prop :=
  ∃ file path, files !! e.1 = Some file ∧ FileOperand.is_fd file = false ∧ server_vf_path b0 file = Ok path ∧
    Forall normal_component (comps dir) ∧ comps dir ++ [e.2] = R ++ operand_names b0 file.

Lemma filled_insert out i j r : filled out j → answer_for i r → filled (<[i := r]> out) j.
Proof.
  intros (x & Hx & Ha) Hr. destruct (decide (i = j)) as [->|Hne].
  - exists r. by rewrite list_lookup_insert_eq by (by eapply lookup_lt_Some).
  - exists x. by rewrite list_lookup_insert_ne.
Qed.
Lemma filled_here out i r : (i < length out)%nat → answer_for i r → filled (<[i := r]> out) i.
Proof. intros Hi Hr. exists r. by rewrite list_lookup_insert_eq. Qed.

Lemma entry_answer dir e r : entry_ok dir e → operand_result follow (comps dir ++ [e.2]) r → answer_for e.1 r.
Proof.
  intros (file & path & Hf & Hfd & _ & _ & ->) Hr file' Hf'. rewrite Hf in Hf'. injection Hf' as <-. by destruct file.
Qed.

(** *** Grouping *)

Definition grouped (k : nat) (st : groups * list resolved) : Prop :=
  length st.2 = n ∧ (total st.1 <= k)%nat ∧
  (∀ i, (i < k)%nat → filled st.2 i ∨ ∃ dir name, in_groups st.1 dir (i, name)) ∧
  (∀ dir e, in_groups st.1 dir e → entry_ok dir e) ∧ Forall (λ g, g.2 ≠ []) st.1.

(** An operand that has no path. *)
Definition no_path (e : VfError.t) : Prop :=
  ∃ i, files !! i = Some Saved ∧ e = VfError.with_index (VfError.from_kind (Some 0) InvalidInput) (Z.of_nat i).

Lemma path_operand_names file path : server_vf_path b0 file = Ok path → comps path = R ++ operand_names b0 file.
Proof. intros Hp. rewrite <-HRc. apply operand_path_names; [|by rewrite HRc|done]. by rewrite HRc. Qed.

Lemma grouped_filled i gs out r : (i < n)%nat → grouped i (gs, out) → answer_for i r → grouped (S i) (gs, <[i := r]> out).
Proof.
  intros Hi (Hl & Ht & Hfill & Hok & Hne') Hr. cbn [fst snd] in *. split; [cbn; by rewrite length_insert|]. split; [cbn [fst]; lia|]. split; [|done].
  intros j Hj. destruct (decide (j = i)) as [->|Hne]; [left; apply filled_here; [lia|done]|].
  destruct (Hfill j ltac:(lia)) as [?|?]; [left; by apply filled_insert|by right].
Qed.

Lemma root_answer : R = [] → operand_result follow [] (Ok (NfsClient.root (nfs b0), NF4DIR)).
Proof. intros _. exists 0%nat, []. split; [lia|]. split; [constructor|]. split; [by destruct Hu as [_ ->]|]. by split. Qed.

Lemma group_path_ok i file path gs out : files !! i = Some file → FileOperand.is_fd file = false →
  server_vf_path b0 file = Ok path → grouped i (gs, out) →
  returns (group_path (W := W) i path gs out) b0 w0
    (λ r b' w', b' = b0 ∧ w' = w0 ∧ match r with Ok st => grouped (S i) st | Err e => no_path e end).
Proof.
  intros Hfile Hfd Hp Hg. pose proof (lookup_lt_Some _ _ _ Hfile) as Hi. pose proof (path_operand_names file path Hp) as Hc.
  unfold group_path. case_bool_decide as Hnil.
  { apply returns_gets_bind, returns_ret. split; [done|]. split; [done|]. apply grouped_filled; [done|done|].
    intros file' Hf'. rewrite Hfile in Hf'. injection Hf' as <-. rewrite Hnil, comps_nil in Hc. symmetry in Hc.
    rewrite Hc. apply app_eq_nil in Hc as [HRnil _]. pose proof (root_answer HRnil). by destruct file. }
  pose proof (split_path_bytes_spec path) as Hsp. destruct (split_path_bytes path) as [[dir name]|[]].
  - apply returns_ret. split; [done|]. split; [done|]. destruct Hg as (Hl & Ht & Hfill & Hok & Hne'). cbn [fst snd] in *.
    destruct Hsp as (Hname & _ & Hcs). split; [done|]. split; [cbn [fst]; rewrite total_push; lia|]. split.
    + intros j Hj. destruct (decide (j = i)) as [->|Hne]; [right; exists dir, name; apply in_group_push; by left|].
      destruct (Hfill j ltac:(lia)) as [?|(d & nm & ?)]; [by left|right]. exists d, nm. apply in_group_push. by right.
    + split; [|by apply push_nonempty]. intros d e [[-> ->]|He]%in_group_push; [|by apply Hok]. exists file, path. cbn [fst snd]. split; [done|]. split; [done|].
      split; [done|]. rewrite <-Hcs, <-Hc. split; [|done].
      assert (Hn : Forall normal_component (comps path)) by (rewrite Hc; apply Forall_app; split; [done|apply operand_names_normal]).
      rewrite Hcs in Hn. by apply Forall_app in Hn as [? _].
  - destruct Hnil. apply (server_vf_path_nil b0 file); [by rewrite HRc|done|done].
Qed.

Lemma group_file_ok i file gs out : files !! i = Some file → grouped i (gs, out) →
  returns (group_file (W := W) (i, file) (gs, out)) b0 w0
    (λ r b' w', b' = b0 ∧ w' = w0 ∧ match r with Ok st => grouped (S i) st | Err e => no_path e end).
Proof.
  intros Hfile Hg. pose proof (lookup_lt_Some _ _ _ Hfile) as Hi. unfold group_file.
  destruct (FileOperand.fd file) as [fd|] eqn:Hfd.
  { apply returns_gets_bind, returns_ret. split; [done|]. split; [done|]. apply grouped_filled; [done|done|].
    intros file' Hf'. rewrite Hfile in Hf'. injection Hf' as <-. destruct file; try done. by injection Hfd as ->. }
  apply returns_gets_bind. destruct (server_vf_path b0 file) as [path|e] eqn:Hp.
  - eapply (group_path_ok i file path gs out); [done| |done|done]. by destruct file.
  - exists (Err (VfError.with_index e (Z.of_nat i))), b0, w0. split; [done|]. split; [done|]. split; [done|].
    exists i. destruct file as [|?|[] ?|?|]; try done. by injection Hp as <-.
Qed.

Lemma grouping_ok :
  returns (for_each (group_file (W := W)) (imap pair files) ([], replicate n (Err NFS4ERR_NOENT))) b0 w0
    (λ r b' w', b' = b0 ∧ w' = w0 ∧ match r with Ok st => grouped n st | Err e => no_path e end).
Proof.
  eapply returns_mono; [apply (returns_for_each _ (λ pre st b w, b = b0 ∧ w = w0 ∧ grouped (length pre) st)
    (λ e b w, b = b0 ∧ w = w0 ∧ no_path e))|].
  - split; [done|]. split; [done|]. split; [cbn; by rewrite length_replicate|]. split; [cbn; lia|]. split; [cbn; lia|].
    split; [|constructor]. intros dir e (items & H & _). by apply not_elem_of_nil in H.
  - intros pre [i file] post [gs out] b w Hxs (-> & -> & Hg).
    destruct (imap_split _ _ _ _ _ Hxs) as [-> Hx].
    eapply returns_mono; [by apply group_file_ok|]. intros r b' w' (-> & -> & Hr). destruct r as [st|e]; [|done].
    split; [done|]. split; [done|]. by rewrite length_app, Nat.add_comm.
  - intros r b' w'. destruct r as [st|e]; [|done]. intros (-> & -> & Hg). split; [done|]. split; [done|].
    by rewrite length_imap in Hg.
Qed.

(** *** Children *)

(** Why the batch as a whole failed after grouping. *)
Definition files_error (e : VfError.t) : Prop :=
  VfError.is_transport e = true ∨ ∃ e', e = error_from_rpc e' None ∧ declined rpc (RpcError.status e').

Definition extends (out out' : list resolved) : Prop := length out' = length out ∧ ∀ j, filled out j → filled out' j.
Lemma extends_insert out i r : answer_for i r → extends out (<[i := r]> out).
Proof. intros Hr. split; [by rewrite length_insert|]. intros j Hj. by apply filled_insert. Qed.

Lemma operand_path_walk b w file path : kept b0 b → fs w = f → server_vf_path b0 file = Ok path →
  returns (resolve_path_and_type rpc xdr_len path true) b w
    (λ r b' w', kept b b' ∧ fs w' = f ∧ walk_result s rpc f R 41 true (R ++ operand_names b0 file) r).
Proof.
  intros Hb Hf Hp. rewrite <-(path_operand_names file path Hp).
  apply (path_resolved s rpc fs Hrpc Himp xdr_len f R HR Hreal); [by rewrite (kept_root _ _ Hb)|by eapply usable_same, Hu; apply Hb| | |done].
  - rewrite (path_operand_names file path Hp). apply Forall_app. split; [done|apply operand_names_normal].
  - rewrite (path_operand_names file path Hp). left. by apply prefix_app_r.
Qed.

Lemma finish_child_ok dir e d v out b w : kept b0 b → fs w = f → entry_ok dir e → (e.1 < length out)%nat →
  (∃ k cs', (k <= 40)%nat ∧ nsteps (hop s f R true) k (comps dir) cs' ∧ leads_to s f cs' d) →
  child_truth (d, e.2) v ∨ (∃ st, v = Err st ∧ declined rpc st) →
  returns (finish_child rpc xdr_len os_kind files follow (e, v) out) b w
    (λ r b' w', kept b b' ∧ fs w' = f ∧
       match r with Ok out' => extends out out' ∧ filled out' e.1 | Err e => files_error e end).
Proof.
  intros Hb Hf He Hlen Hd Hv. destruct e as [i name]. cbn [fst snd] in *. unfold finish_child.
  assert (Hput : ∀ r b' w', kept b b' → fs w' = f → answer_for i r →
    returns (ret (W := W) (<[i := r]> out)) b' w' (λ r b'' w'', kept b b'' ∧ fs w'' = f ∧
      match r with Ok out' => extends out out' ∧ filled out' i | Err e => files_error e end)).
  { intros r b' w' Hb' Hf' Ha. apply returns_ret. split; [done|]. split; [done|].
    split; [by apply extends_insert|by apply filled_here]. }
  destruct v as [[fh t]|st]; [|apply Hput; [done|done|]; by eapply (entry_answer dir (i, name)), child_found].
  destruct (follow && (t =? NF4LNK)) eqn:Hlink.
  2:{ unfold resolve_lookup_result. cbn [snd]. rewrite Hlink. apply returns_attempt_bind, returns_ret, Hput; [done|done|].
      by eapply (entry_answer dir (i, name)), child_found. }
  unfold resolve_lookup_result. cbn [snd]. rewrite Hlink. apply andb_true_iff in Hlink as [Hfollow _].
  pose proof He as (file & path & Hfile & Hfd & Hp & _ & Hnames). cbn [fst snd] in Hfile, Hnames.
  apply returns_attempt_bind. rewrite Hfile. change (expect (Some file) ≫= ?k) with (k file). apply returns_gets_bind.
  rewrite (kept_path _ _ _ Hb), Hp. apply returns_lift_bind.
  eapply returns_mono; [apply (operand_path_walk b w file path Hb Hf Hp)|]. cbn beta.
  intros r b1 w1 (Hb1 & Hf1 & Hr). destruct r as [[fh' t']|error]; [|destruct (VfError.is_transport error) eqn:Ht].
  - apply Hput; [done|done|]. apply (entry_answer dir (i, name) _ He). cbn [snd]. rewrite Hnames.
    destruct Hr as (k & cs' & Hk & Hh & Hl & Hty). destruct (Hty eq_refl). exists k, cs'. rewrite Hfollow. split; [lia|]. auto.
  - apply returns_fail. split; [done|]. split; [done|]. left. by destruct error as [? [] ?].
  - apply Hput; [done|done|]. apply (entry_answer dir (i, name) _ He). cbn [snd]. rewrite Hnames, Hfollow.
    apply walk_code; done.
Qed.

Lemma fail_entries_ok entries code out : (∀ e, e ∈ entries → (e.1 < length out)%nat ∧ answer_for e.1 (Err code)) →
  extends out (fail_entries entries code out) ∧ ∀ e, e ∈ entries → filled (fail_entries entries code out) e.1.
Proof.
  unfold fail_entries. revert out. induction entries as [|[i name] entries IH]; intros out H; cbn.
  { split; [by split|]. by intros e ?%not_elem_of_nil. }
  destruct (H (i, name)) as [Hi Ha]; [by left|]. pose proof (extends_insert out i _ Ha) as [Hl1 He1].
  destruct (IH (<[i := Err code]> out)) as [[Hl2 He2] Hf2].
  { intros e He. rewrite length_insert. apply H. by right. }
  split; [split; [exact (eq_trans Hl2 Hl1)|auto]|]. intros e [->|He]%elem_of_cons; [|by apply Hf2]. apply He2. by apply filled_here.
Qed.

Lemma entry_along dir e : entry_ok dir e → along R (comps dir).
Proof.
  intros (file & path & _ & _ & _ & _ & Hn). assert (Hp : comps dir `prefix_of` R ++ operand_names b0 file) by (rewrite <-Hn; by apply prefix_app_r).
  destruct (prefix_weak_total (comps dir) R _ Hp) as [?|?]; [by apply prefix_app_r|by right|by left].
Qed.

(** The limits of the client, which it keeps. *)
Context (Hwf : AdaptiveCompoundLimits.wf (NfsClient.compound_limits (nfs b0))).
Context (Hfuel : (Z.of_nat n + 1) * (AdaptiveCompoundLimits.negotiated_ops (NfsClient.compound_limits (nfs b0)) + 1) * (Z.of_nat n + 1)
  <= Z.of_nat fuel).

Lemma children_ok dir entries d out b w : kept b0 b → fs w = f → (∀ e, e ∈ entries → entry_ok dir e ∧ (e.1 < length out)%nat) →
  (length entries <= n)%nat →
  (∃ k cs', (k <= 40)%nat ∧ nsteps (hop s f R true) k (comps dir) cs' ∧ leads_to s f cs' d) →
  returns (results ← client (λ cl w, lookup_getattr_many rpc xdr_len fuel cl ((λ entry : nat * bytes, (d, entry.2)) <$> entries) w)
             (λ e, error_from_rpc e None);
           for_each (finish_child rpc xdr_len os_kind files follow) (zip entries results) out) b w
    (λ r b' w', kept b b' ∧ fs w' = f ∧
       match r with Ok out' => extends out out' ∧ ∀ e, e ∈ entries → filled out' e.1 | Err e => files_error e end).
Proof.
  intros Hb Hf Hent Hlen Hd. set (ops := _ <$> entries). assert (Hl : length ops = length entries) by apply length_fmap.
  pose proof Hb as [_ Hsame]. destruct Hsame as (Hm & _ & _ & _ & _ & _ & _ & _ & [Hneg Hwf']).
  destruct (lookups_walk (nfs b) ops w fuel) as (r & cl' & w' & E & Hs & Hf' & Hr); [by apply Hwf'|by rewrite Hm; apply Hu| |done|].
  { unfold TolerantLemmas.enough_fuel. rewrite Hl, Hneg. pose proof (proj1 Hwf). nia. }
  eapply returns_bind; [apply (returns_client _ _ _ _ (λ r b' w', kept b b' ∧ fs w' = f ∧
    match r with Ok vs => Forall2 (λ x v, child_truth x v ∨ ∃ st, v = Err st ∧ declined rpc st) ops vs | Err e => files_error e end))| |done].
  { exists r, cl', w'. split; [done|]. split; [auto with vnfs|]. split; [done|]. destruct r as [vs|e]; [done|].
    destruct Hr as [He|?]; [left|right; by exists e]. unfold error_from_rpc. by rewrite He. }
  intros vs b1 w1 (Hb1 & Hf1 & Hvs). pose proof (Forall2_length _ _ _ Hvs) as Hlv.
  eapply returns_mono; [apply (returns_for_each _ (λ pre out' b' w', kept b b' ∧ fs w' = f ∧ extends out out' ∧
    ∀ x, x ∈ pre → filled out' x.1.1) (λ e b' w', kept b b' ∧ fs w' = f ∧ files_error e))|].
  - split; [done|]. split; [done|]. split; [by split|]. by intros x ?%not_elem_of_nil.
  - intros pre [e v] post out1 b2 w2 Hxs (Hb2 & Hf2 & [Hl1 Hx1] & Hdone).
    assert (Hin : zip entries vs !! length pre = Some (e, v)) by (by rewrite Hxs, lookup_app_r, Nat.sub_diag by lia).
    apply lookup_zip_Some in Hin as [He Hv]. destruct (Hent e) as [Hok Hlt]; [by eapply list_elem_of_lookup_2|].
    eapply returns_mono; [apply (finish_child_ok dir e d v out1 b2 w2); [by etrans|done|done|by rewrite Hl1|done|]|].
    { eapply (Forall2_lookup_lr _ _ _ (length pre) (d, e.2) v Hvs); [|done]. unfold ops. by rewrite list_lookup_fmap, He. }
    intros r1 b' w'' (Hb' & Hf'' & Hr1). destruct r1 as [out'|err]; [|split; [by etrans|done]].
    split; [by etrans|]. split; [done|]. destruct Hr1 as [[Hl2 Hx2] Hfill]. split; [split; [congruence|auto]|].
    intros x [Hx| ->%list_elem_of_singleton]%elem_of_app; [by apply Hx2, Hdone|done].
  - intros r1 b' w'' Hr1. destruct r1 as [out'|err]; [|done]. destruct Hr1 as (? & ? & ? & Hfill). split; [done|]. split; [done|].
    split; [done|]. intros e [k He]%list_elem_of_lookup.
    assert (is_Some (vs !! k)) as [v Hv] by (apply lookup_lt_is_Some; apply lookup_lt_Some in He; lia).
    apply (Hfill (e, v)). eapply list_elem_of_lookup_2. by apply lookup_zip_Some.
Qed.

Lemma resolve_group_ok dir entries out b w : kept b0 b → fs w = f → (∀ e, e ∈ entries → entry_ok dir e ∧ (e.1 < length out)%nat) →
  entries ≠ [] → (length entries <= n)%nat →
  returns (resolve_group rpc xdr_len os_kind fuel files follow (dir, entries) out) b w
    (λ r b' w', kept b b' ∧ fs w' = f ∧
       match r with Ok out' => extends out out' ∧ ∀ e, e ∈ entries → filled out' e.1 | Err e => files_error e end).
Proof.
  intros Hb Hf Hent Hne Hlen. unfold resolve_group.
  assert (∃ e, e ∈ entries) as [e0 He0] by (destruct entries as [|e ?]; [done|exists e; by left]).
  destruct (Hent e0 He0) as [Hok0 _]. pose proof Hok0 as (file & path & _ & _ & _ & Hn & _).
  apply returns_attempt_bind. unfold resolve_path.
  eapply returns_bind; [apply (path_resolved s rpc fs Hrpc Himp xdr_len f R HR Hreal);
    [by rewrite (kept_root _ _ Hb)|by eapply usable_same, Hu; apply Hb|done|by eapply entry_along|done]|..].
  - intros [d t] b1 w1 (Hb1 & Hf1 & k & cs' & Hk & Hh & Hl & _). apply returns_ret.
    eapply returns_mono; [apply (children_ok dir); [by etrans|done|done|done|]|].
    + exists k, cs'. split; [lia|done].
    + intros r b' w' (Hb' & ?). split; [by etrans|done].
  - intros e b1 w1 (Hb1 & Hf1 & Hr). destruct (VfError.is_transport e) eqn:Ht.
    + apply returns_fail. split; [done|]. split; [done|]. by left.
    + apply returns_ret. split; [done|]. split; [done|]. apply fail_entries_ok. intros x Hx. destruct (Hent x Hx) as [Hok Hi].
      split; [done|]. apply (entry_answer dir x _ Hok), parent_fails. by apply walk_code.
Qed.

Lemma resolve_files_ok :
  returns (resolve_files_nfs rpc xdr_len os_kind fuel files follow) b0 w0
    (λ r b' w', kept b0 b' ∧ fs w' = f ∧
       match r with
       | Ok out => length out = n ∧ ∀ i, (i < n)%nat → filled out i
       | Err e => no_path e ∨ files_error e
       end).
Proof.
  unfold resolve_files_nfs. eapply returns_bind; [apply grouping_ok| |].
  2:{ intros e b w (-> & -> & He). split; [done|]. split; [done|]. by left. }
  intros [gs out] b w (-> & -> & Hlen & Htot & Hfill & Hok & Hne). cbn [fst snd] in *.
  eapply returns_mono; [apply (returns_for_each _ (λ pre out' b' w', kept b0 b' ∧ fs w' = f ∧ extends out out' ∧
    ∀ g e, g ∈ pre → e ∈ g.2 → filled out' e.1) (λ e b' w', kept b0 b' ∧ fs w' = f ∧ files_error e))|].
  - split; [done|]. split; [done|]. split; [by split|]. by intros g e ?%not_elem_of_nil.
  - intros pre [dir entries] post out1 b w Hgs (Hb & Hf & [Hl1 Hx1] & Hdone).
    assert (Hin : (dir, entries) ∈ gs) by (rewrite Hgs; set_solver).
    eapply returns_mono; [apply (resolve_group_ok dir entries out1 b w Hb Hf)|].
    + intros e He. assert (entry_ok dir e) as Hoke by (apply Hok; by exists entries). split; [done|].
      destruct Hoke as (file & path & Hfile & _). apply lookup_lt_Some in Hfile. unfold n in *. lia.
    + by apply (proj1 (Forall_forall _ _) Hne (dir, entries)).
    + pose proof (total_elem dir entries gs Hin). lia.
    + intros r b' w' (Hb' & Hf' & Hr). destruct r as [out'|e]; [|split; [by etrans|done]]. split; [by etrans|]. split; [done|].
      destruct Hr as [[Hl2 Hx2] Hfill2]. split; [split; [congruence|auto]|].
      intros g e [Hg| ->%list_elem_of_singleton]%elem_of_app He; [by eapply Hx2, Hdone|by apply Hfill2].
  - intros r b' w' Hr. destruct r as [out'|e]; [|by destruct Hr as (? & ? & ?); auto].
    destruct Hr as (Hb' & Hf' & [Hl Hx] & Hall). split; [done|]. split; [done|]. split; [congruence|]. intros i Hi.
    destruct (Hfill i Hi) as [?|(dir & name & entries & Hg & He)]; [by apply Hx|]. by apply (Hall (dir, entries) (i, name)).
Qed.
End Loops.

(** *** Renaming *)

Section Renames.
Context (b0 : NfsVecFs) (Hroot : conn_root b0 = root) (HRc : comps (conn_root b0) = R) (Hu : usable s (nfs b0)).

(** The directory a path of components leads to, links followed. *)
Definition dir_named (dcs : list bytes) (d : nfs_fh4) : Prop :=
  ∃ k cs', (k <= 40)%nat ∧ nsteps (hop s f R true) k dcs cs' ∧ leads_to s f cs' d ∧ ¬ is_link s f d.
(** The entry an operand names. *)
Definition entry_named (file : FileOperand) (d : nfs_fh4) (name : bytes) : Prop :=
  ∃ dcs, R ++ operand_names b0 file = dcs ++ [name] ∧ dir_named dcs d.
Definition rename_named (x : FileOperand * FileOperand) (o : RenameOp) : Prop :=
  entry_named x.1 (rn_srcdir o) (rn_oldname o) ∧ entry_named x.2 (rn_dstdir o) (rn_newname o).

Definition cache_ok (cache : gmap bytes nfs_fh4) : Prop := ∀ dir d, cache !! dir = Some d → dir_named (comps dir) d.

Lemma cached_parent_ok i dir cache b w : kept b0 b → fs w = f → Forall normal_component (comps dir) → along R (comps dir) →
  cache_ok cache →
  returns (cached_parent rpc xdr_len i dir cache) b w
    (λ r b' w', kept b b' ∧ fs w' = f ∧ match r with Ok (d, cache') => dir_named (comps dir) d ∧ cache_ok cache' | Err _ => True end).
Proof.
  intros Hb Hf Hn Hal Hc. unfold cached_parent. destruct (cache !! dir) as [d|] eqn:E.
  { apply returns_ret. split; [done|]. split; [done|]. split; [by apply Hc|done]. }
  eapply returns_bind; [apply returns_map_err; unfold resolve_path;
    eapply returns_bind; [apply (path_resolved s rpc fs Hrpc Himp xdr_len f R HR Hreal);
      [by rewrite (kept_root _ _ Hb)|by eapply usable_same, Hu; apply Hb|done|done|done]|..]|..].
  - intros [d t] b1 w1 (Hb1 & Hf1 & k & cs' & Hk & Hh & Hl & Hty). apply (returns_ret (A := nfs_fh4)).
    instantiate (1 := λ r b' w', kept b b' ∧ fs w' = f ∧ match r with Ok d => dir_named (comps dir) d | Err _ => True end).
    split; [done|]. split; [done|]. exists k, cs'. split; [lia|]. split; [done|]. split; [done|].
    destruct (Hty eq_refl). unfold is_link. congruence.
  - intros e b1 w1 (Hb1 & Hf1 & _). done.
  - intros d b1 w1 (Hb1 & Hf1 & Hd). apply returns_ret. split; [done|]. split; [done|]. split; [done|].
    intros dir' d' [[<- <-]|[_ ?]]%lookup_insert_Some; [done|by apply Hc].
  - intros e b1 w1 (Hb1 & Hf1 & _). done.
Qed.

Lemma split_named file path dir name : server_vf_path b0 file = Ok path → split_path_bytes path = Ok (dir, name) →
  Forall normal_component (comps dir) ∧ along R (comps dir) ∧ R ++ operand_names b0 file = comps dir ++ [name].
Proof.
  intros Hp Hs. pose proof (split_path_bytes_spec path) as H. rewrite Hs in H. destruct H as (_ & _ & Hc).
  assert (Hcs : comps path = R ++ operand_names b0 file).
  { rewrite <-HRc. apply operand_path_names; [|by rewrite HRc|done]. by rewrite HRc. }
  assert (Hn : Forall normal_component (comps path)) by (rewrite Hcs; apply Forall_app; split; [done|apply operand_names_normal]).
  rewrite Hc in Hn, Hcs. apply Forall_app in Hn as [Hn _]. split; [done|]. split; [|done].
  destruct (prefix_weak_total (comps dir) R (comps dir ++ [name])) as [?|?]; [by apply prefix_app_r|rewrite Hcs; by apply prefix_app_r|by right|by left].
Qed.

Definition preparing (done_ : list (nat * (FileOperand * FileOperand))) (st : rename_state) (b : NfsVecFs) (w : W) : Prop :=
  let '(sc, dc, ops) := st in
  kept b0 b ∧ fs w = f ∧ cache_ok sc ∧ cache_ok dc ∧ Forall2 rename_named done_.*2 ops.

Lemma prepare_rename_ok done_ i src dst st b w : preparing done_ st b w →
  returns (prepare_rename rpc xdr_len (i, (src, dst)) st) b w
    (λ r b' w', match r with
                | Ok st => preparing (done_ ++ [(i, (src, dst))]) st b' w'
                | Err _ => kept b0 b' ∧ fs w' = f
                end).
Proof.
  destruct st as [[sc dc] ops]. intros (Hb & Hf & Hsc & Hdc & Hops). unfold prepare_rename.
  assert (Hbad : ∀ e, returns (A := rename_state) (fail e) b w (λ r b' w', match r with
    Ok st => preparing (done_ ++ [(i, (src, dst))]) st b' w' | Err _ => kept b0 b' ∧ fs w' = f end)) by (intros e; by apply returns_fail).
  apply returns_gets_bind. rewrite (kept_path _ _ _ Hb). destruct (server_vf_path b0 src) as [sp|e] eqn:Hsp; [|by apply Hbad].
  change (map_err ?g (lift (Ok sp)) ≫= ?k) with (k sp). apply returns_gets_bind. rewrite (kept_path _ _ _ Hb).
  destruct (server_vf_path b0 dst) as [dp|e] eqn:Hdp; [|by apply Hbad]. change (map_err ?g (lift (Ok dp)) ≫= ?k) with (k dp). cbn beta.
  destruct (split_path_bytes sp) as [[sdir sname]|] eqn:Hss; [|by apply Hbad].
  destruct (split_path_bytes dp) as [[ddir dname]|] eqn:Hds; [|by apply Hbad].
  destruct (split_named src sp sdir sname Hsp Hss) as (Hsn & Hsa & Hse), (split_named dst dp ddir dname Hdp Hds) as (Hdn & Hda & Hde).
  eapply returns_bind; [by apply (cached_parent_ok i sdir sc)| |intros e b1 w1 (Hb1 & Hf1 & _); split; [by etrans|done]].
  intros [sd sc'] b1 w1 (Hb1 & Hf1 & Hsd & Hsc').
  eapply returns_bind; [apply (cached_parent_ok i ddir dc); [by etrans|done..]| |].
  2:{ intros e b2 w2 (Hb2 & Hf2 & _). split; [|done]. etrans; [exact Hb|]. by etrans. }
  intros [dd dc'] b2 w2 (Hb2 & Hf2 & Hdd & Hdc'). apply returns_ret. split; [etrans; [exact Hb|]; by etrans|].
  split; [done|]. split; [done|]. split; [done|]. rewrite fmap_app. apply Forall2_app; [done|]. constructor; [|constructor].
  split; [by exists (comps sdir)|by exists (comps ddir)].
Qed.

(** How a phased rename may end. *)
Definition renames_done (pairs : list (FileOperand * FileOperand)) (r : VfResult unit) (f' : F) : Prop :=
  match r with
  | Ok _ => ∃ ops vs, Forall2 rename_named pairs ops ∧ answers (steps_of s (BRename ops)) f = Ok (f', vs)
  | Err e => f' = f ∨ ∃ ops k vs, Forall2 rename_named pairs ops ∧ answers (take k (steps_of s (BRename ops))) f = Ok (f', vs) ∧
      (VfError.is_transport e = true ∨ VfError.index e = Some (Z.of_nat k))
  end.

Lemma renamev_phased_ok fuel pairs w : fs w = f →
  (Z.of_nat (length pairs) + 1) * (Z.of_nat (length pairs) + 1) <= Z.of_nat fuel →
  returns (renamev_phased rpc xdr_len fuel pairs) b0 w (λ r b' w', kept b0 b' ∧ renames_done pairs r (fs w')).
Proof.
  intros Hf Hfuel. unfold renamev_phased.
  eapply returns_bind; [apply (returns_for_each _ preparing (λ _ b' w', kept b0 b' ∧ fs w' = f))| |].
  - split; [done|]. split; [done|]. split; [done|]. split; [done|]. constructor.
  - intros pre [i [src dst]] post st b1 w1 _ Hst. by apply prepare_rename_ok.
  - intros [[sc dc] ops] b1 w1 (Hb1 & Hf1 & _ & _ & Hops). rewrite imap_snd in Hops.
    apply returns_client. destruct (MutationLemmas.run_batch_refines s rpc fs Hrpc Himp xdr_len (BRename ops) (nfs b1) w1 fuel)
      as (r & cl' & w' & E & Hs & Hr).
    + destruct Hb1 as [_ (Hm & _)]. rewrite Hm. apply Hu.
    + cbn. rewrite length_fmap, <-(Forall2_length _ _ _ Hops). done.
    + exists r, cl', w'. split; [done|]. split; [etrans; [exact Hb1|auto with vnfs]|]. rewrite Hf1 in Hr. destruct r as [[]|e].
      * destruct Hr as (vs & Hans & _). by exists ops, vs.
      * destruct Hr as (k & vs & Hans & Hwhy). right. exists ops, k, vs. split; [done|]. split; [done|].
        unfold error_from_rpc_indexed, error_from_rpc. destruct (RpcError.is_transport e); [by left|right].
        destruct Hwhy as [?|[<- _]]; [done|]. by case_bool_decide.
  - intros e b1 w1 [Hb1 Hf1]. split; [done|]. by left.
Qed.
End Renames.
End Resolve.
End FilesLemmas.

Import NamespaceLemmas FilesLemmas.

(** C14: Resolving a batch of operands is resolving each of them.  For every list
    of operands, every server on which no component of the configured root is a
    link, and every transport, [resolve_files_nfs] returns without changing the file system, and the entry of each operand is its own:
    a descriptor gives the handle of its open file, or EBADF; a path gives the
    object it leads to after at most forty links have been expanded, their targets
    normalized by name as the code does, with that object's type and not a link if links are followed, or the code for which the
    walk of this very path fails.  Operands are grouped by directory and looked up
    in batches, but no entry is another operand's.  The call fails as a whole only
    for an operand that is not a path, or because the server declined the batch. *)
Theorem resolve_files_correct {F W} (s : nfs_spec F) (rpc : Compound.t → W → RpcResult COMPOUND4res * W) (fs : W → F)
    (xdr_len : Compound.t → Z) `{!XdrSizes xdr_len} (os_kind : Z → ErrorKind) (b : NfsVecFs) (w : W)
    (files : list FileOperand) (follow : bool) (fuel : nat) :
  transport_ok rpc → implements s rpc fs → usable s (nfs b) → conn_root b = normalize_bytes (conn_root b) →
  AdaptiveCompoundLimits.wf (NfsClient.compound_limits (nfs b)) →
  let R := comps (conn_root b) in
  let n := Z.of_nat (length files) in
  root_real s (fs w) R →
  (n + 1) * (AdaptiveCompoundLimits.negotiated_ops (NfsClient.compound_limits (nfs b)) + 1) * (n + 1) <= Z.of_nat fuel →
  ∃ r b' w', resolve_files_nfs rpc xdr_len os_kind fuel files follow b w = Done (r, b', w') ∧ kept b b' ∧ fs w' = fs w ∧
    match r with
    | Ok out => length out = length files ∧ ∀ i file, files !! i = Some file → ∃ r, out !! i = Some r ∧
        match file with
        | Fd fd => r = match open_files b !! fd with Some o => Ok (os_fh o, 0) | None => Err EBADF end
        | _ => operand_result s rpc (fs w) R follow (R ++ operand_names b file) r
        end
    | Err e => no_path files e ∨ files_error rpc e
    end.
Proof.
  intros Hrpc Himp Hu Hroot Hwf R n Hreal Hfuel.
  destruct (root_normal (conn_root b) Hroot) as [Hjoin HR]. fold R in Hjoin, HR.
  destruct (resolve_files_ok s rpc fs Hrpc Himp xdr_len os_kind (fs w) R HR Hreal b w files follow fuel Hjoin eq_refl Hu eq_refl Hwf Hfuel)
    as (r & b' & w' & E & Hb & Hf & Hr). exists r, b', w'. split; [done|]. split; [done|]. split; [done|].
  destruct r as [out|e]; [|done]. destruct Hr as [Hl Hfill]. split; [done|]. intros i file Hfile.
  destruct (Hfill i ltac:(by eapply lookup_lt_Some)) as (r & Hr & Ha). exists r. split; [done|]. exact (Ha file Hfile).
Qed.

(** C15: A phased rename moves what its operands name, in order.  For every list
    of pairs, every server on which no component of the configured root is a link,
    and every transport, [renamev_phased] resolves the parents of all operands first and then renames.  A success means that the
    renames of all pairs happened one after the other, each from and to the entry
    its operands named before the first of them; an error means that nothing
    changed, or that exactly the renames before the reported index happened (some
    prefix, if the exchange failed). *)
Theorem renamev_phased_refines {F W} (s : nfs_spec F) (rpc : Compound.t → W → RpcResult COMPOUND4res * W) (fs : W → F)
    (xdr_len : Compound.t → Z) `{!XdrSizes xdr_len} (b : NfsVecFs) (w : W) (pairs : list (FileOperand * FileOperand)) (fuel : nat) :
  transport_ok rpc → implements s rpc fs → usable s (nfs b) → conn_root b = normalize_bytes (conn_root b) →
  let R := comps (conn_root b) in
  let n := Z.of_nat (length pairs) in
  root_real s (fs w) R → (n + 1) * (n + 1) <= Z.of_nat fuel →
  ∃ r b' w', renamev_phased rpc xdr_len fuel pairs b w = Done (r, b', w') ∧ kept b b' ∧
    let named := rename_named s (fs w) R b in
    match r with
    | Ok _ => ∃ ops vs, Forall2 named pairs ops ∧ answers (steps_of s (BRename ops)) (fs w) = Ok (fs w', vs)
    | Err e => fs w' = fs w ∨
        ∃ ops k vs, Forall2 named pairs ops ∧ answers (take k (steps_of s (BRename ops))) (fs w) = Ok (fs w', vs) ∧
          (VfError.is_transport e = true ∨ VfError.index e = Some (Z.of_nat k))
    end.
Proof.
  intros Hrpc Himp Hu Hroot R n Hreal Hfuel. destruct (root_normal (conn_root b) Hroot) as [Hjoin HR]. fold R in Hjoin, HR.
  exact (renamev_phased_ok s rpc fs Hrpc Himp xdr_len (fs w) R HR Hreal b Hjoin eq_refl Hu fuel pairs w eq_refl Hfuel).
Qed.

(** *** Examples *)

Definition example_files : list FileOperand :=
  [PathOperand BaseAbs (bstr "/via/f"); Fd 3; PathOperand BaseCwd (bstr "up"); CwdPath (bstr "missing"); PathOperand BaseAbs (bstr "/loop")].

Lemma resolve_files_correct_witness :
  ∃ out b' w', resolve_files_nfs example_rpc SendLemmas.example_xdr_len (λ _, Unsupported) 400 example_files true example_backend
      example_links = Done (Ok out, b', w') ∧
    out = [Ok (bstr "FF", 1); Err EBADF; Ok (bstr "D", 2); Err 2; Err NFS4ERR_IO] ∧
    operand_result MemFs.spec example_rpc example_links [bstr "exp"] true [bstr "exp"; bstr "d"; bstr "up"] (Ok (bstr "D", 2)).
Proof.
  destruct (resolve_files_correct MemFs.spec example_rpc id SendLemmas.example_xdr_len (λ _, Unsupported) example_backend example_links
    example_files true 400) as (r & b' & w' & E & _ & _ & H).
  - apply ServerLemmas.spec_server_transport; [apply MemFs.mem_spec_ok|reflexivity].
  - apply ServerLemmas.spec_server_implements, MemFs.mem_spec_ok.
  - exact example_usable.
  - reflexivity.
  - exact example_limits.
  - apply example_root_real.
  - vm_compute. discriminate.
  - assert (Hr : match resolve_files_nfs example_rpc SendLemmas.example_xdr_len (λ _, Unsupported) 400 example_files true example_backend
      example_links with Done (v, _, _) => v = Ok [Ok (bstr "FF", 1); Err EBADF; Ok (bstr "D", 2); Err 2; Err NFS4ERR_IO] | _ => False end)
      by (vm_compute; reflexivity).
    rewrite E in Hr. subst r. eexists _, b', w'. split; [exact E|]. split; [reflexivity|].
    destruct H as [_ H]. destruct (H 2%nat _ eq_refl) as (r & [= <-] & Hr). exact Hr.
Defined.

Definition example_renames : list (FileOperand * FileOperand) :=
  [(PathOperand BaseAbs (bstr "/via/f"), CwdPath (bstr "../g")); (CwdPath (bstr "../g"), PathOperand BaseAbs (bstr "/abs/h"))].

Lemma renamev_phased_refines_witness :
  ∃ b' w' ops vs, renamev_phased example_rpc SendLemmas.example_xdr_len 9 example_renames example_backend example_links =
      Done (Ok tt, b', w') ∧
    Forall2 (rename_named MemFs.spec example_links [bstr "exp"] example_backend) example_renames ops ∧
    answers (steps_of MemFs.spec (BRename ops)) example_links = Ok (w', vs).
Proof.
  destruct (renamev_phased_refines MemFs.spec example_rpc id SendLemmas.example_xdr_len example_backend example_links example_renames 9)
    as (r & b' & w' & E & _ & H).
  - apply ServerLemmas.spec_server_transport; [apply MemFs.mem_spec_ok|reflexivity].
  - apply ServerLemmas.spec_server_implements, MemFs.mem_spec_ok.
  - exact example_usable.
  - reflexivity.
  - apply example_root_real.
  - vm_compute. discriminate.
  - assert (Hr : match renamev_phased example_rpc SendLemmas.example_xdr_len 9 example_renames example_backend example_links
      with Done (v, _, _) => v = Ok tt | _ => False end) by (vm_compute; reflexivity).
    rewrite E in Hr. subst r. destruct H as (ops & vs & Hn & Ha). exists b', w', ops, vs. split; [exact E|]. split; [exact Hn|exact Ha].
Defined.
