(* ===== verification/DescriptorIo.v ===== *)
(** * Vectored reads through open files

    Models the reading half of [crates/vfsi-nfs/src/nfs/io.rs]: where an operation
    starts, how a batch is cut into READs and packed into compounds, how a short
    READ is completed, and when the cursors of the open files move.  The theorem
    shows that a batch returns for every operation the bytes of its file from its
    offset on, all that were asked for unless the file ends before, and that no
    cursor moves unless the whole batch succeeds. *)
From Stdlib Require Import Strings.Byte.
From stdpp Require Import base numbers countable list list_numbers gmap strings.
From S2P Require Import Prelude Path Errors Types Planner Compound Session Cursor Client IoProgress Loops Exchange Server Batch BatchOps BatchRun Resolve Single BatchSpec Reads Mutations Opens Lifecycle Remove Merged PathIo PathSpec Metadata StdPath Backend Namespace.

(** ** Data *)

(** [vfsi_core::ReadOp] and [ReadResult]. *)
Record FileRead := MakeRead { fr_file : FileOperand; fr_offset : VfOffset; fr_length : Z }.
Record ReadResult := MakeReadResult { rr_file : FileOperand; rr_offset : Z; rr_data : bytes; rr_eof : bool }.

Record DescriptorReadPlan := MakePlan { pl_ops : list ReadOp; pl_owners : list Z; pl_offsets : list Z }.

Definition remap_descriptor_chunk_error (error : VfError.t) (start : Z) (owners : list Z) : VfError.t :=
  VfError.map_index error (λ local_index,
    let chunk_index := sat_add start local_index in default chunk_index (owners !! Z.to_nat chunk_index)).

Definition remap_active_error (error : VfError.t) (active : list Z) : VfError.t :=
  match VfError.index error ≫= (λ index, active !! Z.to_nat index) with
  | Some original => VfError.with_index error original
  | None => error
  end.

(** [VfError::errno(i, libc::EOVERFLOW)]. *)
Definition overflow (i : Z) : VfError.t := VfError.errno (Some i) EOVERFLOW.

Section Io.
Context {W : Type} (rpc : Compound.t → W → RpcResult COMPOUND4res * W) (xdr_len : Compound.t → Z).

(** ** Offsets *)

Definition file_size (fh : nfs_fh4) : op W Z :=
  attrs ← client1 (λ cl w, Single.getattr rpc xdr_len cl fh [FATTR4_SIZE] w) from_rpc0;
  '(size, _) ← lift (read_u64 attrs 0);
  ret size.

Definition resolve_offset (file : FileOperand) (off : VfOffset) : op W Z :=
  match off with
  | At offset => ret offset
  | Cur =>
      match FileOperand.fd file with
      | Some fd => gets (λ b, match open_files b !! fd with Some o => os_cur_offset o | None => 0 end)
      | None => fail (VfError.errno (Some 0) NFS4ERR_INVAL)
      end
  | End_ =>
      fh ← resolve_tcfile rpc xdr_len file true;
      file_size fh
  end.

Definition advance_offset (file : FileOperand) (new_offset : Z) : op W unit :=
  modify (λ b,
    match FileOperand.fd file with
    | Some fd => set_files b (alter (λ o, set_cur_offset o new_offset) fd (open_files b))
    | None => b
    end).

(** ** Planning *)

(** The inner loop of [descriptor_read_plan]: [length] bytes from [off] on, at
    most [per] per READ; a read of no bytes is one READ of no bytes. *)
Fixpoint plan_chunks (fuel : nat) (per : Z) (o : NfsOpenState) (i off remaining chunk_off : Z) : outcome (VfResult (list ReadOp)) :=
  match fuel with
  | O => OutOfFuel
  | S fuel =>
      let n := Z.min remaining per in
      match checked_add off chunk_off with
      | None => Done (Err (overflow i))
      | Some offset =>
          let op := Read (os_fh o) (os_stateid o) offset (as_u32 n) in
          if remaining - n =? 0 then Done (Ok [op])
          else
            match checked_add chunk_off n with
            | None => Done (Err (overflow i))
            | Some chunk_off =>
                rest ← plan_chunks fuel per o i off (remaining - n) chunk_off;
                Done (match rest with Ok ops => Ok (op :: ops) | Err e => Err e end)
            end
      end
  end.

(** One operation of [descriptor_read_plan]; [buffer] is the length of its
    buffer when the caller provides one. *)
Definition plan_read (per : Z) (buffers : option (list Z)) (x : nat * FileRead) (plan : DescriptorReadPlan) : op W DescriptorReadPlan :=
  let '(k, r) := x in
  let i := Z.of_nat k in
  let unfit := match buffers with
               | Some lens => match lens !! k with Some len => negb (len =? fr_length r) | None => true end
               | None => false
               end in
  if unfit then fail (VfError.from_kind (Some i) InvalidInput)
  else
    off ← map_err (λ e, VfError.with_index e i) (resolve_offset (fr_file r) (fr_offset r));
    match checked_add off (fr_length r) with
    | None => fail (overflow i)
    | Some _ =>
        fd ← expect (FileOperand.fd (fr_file r));
        o ← gets (λ b, open_files b !! fd);
        match o with
        | None => fail (VfError.errno (Some i) EBADF)
        | Some o =>
            ops ← lift_outcome (plan_chunks (S (Z.to_nat (fr_length r))) per o i off (fr_length r) 0);
            ret (MakePlan (pl_ops plan ++ ops) (pl_owners plan ++ replicate (length ops) i) (pl_offsets plan ++ [off]))
        end
    end.

Definition descriptor_read_plan (reads : list FileRead) (buffers : option (list Z)) : op W DescriptorReadPlan :=
  per ← gets (λ b, NfsClient.read_per_op_bytes (nfs b));
  for_each (plan_read per buffers) (imap pair reads) (MakePlan [] [] []).

(** ** Sending *)

(** How many READs go into the next compound. *)
Fixpoint pack_reads (byte_limit bytes : Z) (first : bool) (ops : list ReadOp) : nat :=
  match ops with
  | [] => 0
  | op :: ops =>
      let next := rd_count op in
      if negb first && (byte_limit <? sat_add bytes next) then 0
      else S (pack_reads byte_limit (sat_add bytes next) false ops)
  end.

Definition byte_limit (cl : NfsClient.t) : Z :=
  if 0 <? NfsClient.max_response_bytes cl then sat_sub (NfsClient.read_compound_bytes cl) 128 else USIZE_MAX.

(** [while start < ops.len()]: the start and the results so far. *)
Definition send_reads (fuel : nat) (limit : Z) (plan : DescriptorReadPlan) (st : Z * list (bytes * bool))
    : op W (Z * list (bytes * bool)) :=
  let '(start, results) := st in
  let end_ := start + Z.of_nat (pack_reads limit 0 true (drop (Z.to_nat start) (pl_ops plan))) in
  r ← client (λ cl w, Readv.readv rpc xdr_len fuel cl (slice (Z.to_nat start) (Z.to_nat end_) (pl_ops plan)) w)
        (λ e, remap_descriptor_chunk_error (error_from_rpc_indexed e) start (pl_owners plan));
  ret (end_, results ++ r).

(** ** Completion *)

(** [complete_read_chunk]: the bytes after the first [received] ones, whether
    the end was reached. *)
Definition complete_turn (fuel : nat) (op : ReadOp) (index : Z) (st : Z * bool * bytes) : Backend.op W (Z * bool * bytes) :=
  let '(received, _, more) := st in
  let remaining := rd_count op - received in
  match checked_add (rd_offset op) received with
  | None => fail (overflow index)
  | Some offset =>
      let retry := Read (rd_fh op) (rd_stateid op) offset (as_u32 remaining) in
      result ← client (λ cl w, Readv.readv rpc xdr_len fuel cl [retry] w)
                 (λ e, VfError.with_index (error_from_rpc_indexed e) index);
      match result with
      | [(data, end_)] =>
          let n := Z.of_nat (length data) in
          if (remaining <? n) || ((n =? 0) && negb end_) then fail (VfError.errno (Some index) EIO)
          else ret (received + n, end_, more ++ data)
      | _ => fail (VfError.transport (Some index) "malformed short READ reply")
      end
  end.
Definition complete_read_chunk (fuel : nat) (op : ReadOp) (received : Z) (eof : bool) (index : Z) : Backend.op W (Z * bool * bytes) :=
  if (rd_count op <? received) || (negb (rd_count op =? 0) && (received =? 0) && negb eof)
  then fail (VfError.errno (Some index) EIO)
  else
    while_ (S (Z.to_nat (rd_count op))) (λ '(received, eof, _), (received <? rd_count op) && negb eof)
      (complete_turn fuel op index) (received, eof, []).

(** The chunks of one operation: [while ci < owner.len() && owner[ci] == i]. *)
Fixpoint collect_chunks (fuel : nat) (i : Z) (chunks : list (ReadOp * option (bytes * bool))) (data : bytes) (eof : bool)
    : op W (bytes * bool) :=
  match chunks with
  | [] => ret (data, eof)
  | (op, result) :: chunks =>
      if eof then collect_chunks fuel i chunks data eof
      else
        '(chunk, end_) ← expect result;
        '(_, end_, more) ← complete_read_chunk fuel op (Z.of_nat (length chunk)) end_ i;
        collect_chunks fuel i chunks (data ++ chunk ++ more) end_
  end.

(** The prefix of the chunks that belong to operation [i]. *)
Fixpoint owned (i : Z) (owners : list Z) : nat :=
  match owners with
  | [] => 0
  | o :: owners => if o =? i then S (owned i owners) else 0
  end.

(** Each READ with its result, [results[ci]]. *)
Definition paired (ops : list ReadOp) (results : list (bytes * bool)) : list (ReadOp * option (bytes * bool)) :=
  imap (λ j op, (op, results !! j)) ops.

Definition collect_read (fuel : nat) (plan : DescriptorReadPlan) (results : list (bytes * bool)) (x : nat * FileRead)
    (st : nat * list ReadResult) : op W (nat * list ReadResult) :=
  let '(k, r) := x in
  let '(ci, out) := st in
  let i := Z.of_nat k in
  off ← expect (pl_offsets plan !! k);
  let n := owned i (drop ci (pl_owners plan)) in
  '(data, eof) ← collect_chunks fuel i (take n (drop ci (paired (pl_ops plan) results))) [] false;
  match checked_add off (Z.of_nat (length data)) with
  | None => fail (overflow i)
  | Some _ => ret ((ci + n)%nat, out ++ [MakeReadResult (fr_file r) off data eof])
  end.

(** The cursors, moved at the end. *)
Definition publish (x : FileRead * ReadResult) (_ : unit) : op W unit :=
  let '(r, res) := x in
  match fr_offset r with
  | Cur => advance_offset (fr_file r) (rr_offset res + Z.of_nat (length (rr_data res)))
  | _ => ret tt
  end.

Definition vread_batch_nfs (fuel : nat) (reads : list FileRead) : op W (list ReadResult) :=
  plan ← descriptor_read_plan reads None;
  limit ← gets (λ b, byte_limit (nfs b));
  '(_, results) ← while_ (length (pl_ops plan)) (λ '(start, _), start <? Z.of_nat (length (pl_ops plan)))
                    (send_reads fuel limit plan) (0, []);
  '(_, out) ← for_each (collect_read fuel plan results) (imap pair reads) (0%nat, []);
  _ ← for_each publish (zip reads out) tt;
  ret out.
End Io.

(** ** Specification *)

(** The cursors after a batch. *)
Definition moved_cursors (files : gmap Z NfsOpenState) (xs : list (FileRead * ReadResult)) : gmap Z NfsOpenState :=
  foldl (λ m '(r, res),
    match fr_offset r, FileOperand.fd (fr_file r) with
    | Cur, Some fd => alter (λ o, set_cur_offset o (rr_offset res + Z.of_nat (length (rr_data res)))) fd m
    | _, _ => m
    end) files xs.

(** What READ shows of the files in the state [f]: the bytes of [content] from
    the offset on, possibly fewer than asked for, and the end only at the end. *)
Definition shows {F} (s : nfs_spec F) (f : F) (content : nfs_fh4 → option bytes) : Prop :=
  ∀ x st off n data eof, sp_read s f x st off n = Ok (data, eof) →
    ∃ c, content x = Some c ∧ data `prefix_of` drop (Z.to_nat off) c ∧
      (eof = true → Z.of_nat (length c) <= off + Z.of_nat (length data)).

(** A read of [n] bytes at [off] that is complete. *)
Definition filled (c : bytes) (off n : Z) (data : bytes) (eof : bool) : Prop :=
  data = take (Z.to_nat n) (drop (Z.to_nat off) c) ∧ (eof = false → Z.of_nat (length data) = n) ∧
  (eof = true → Z.of_nat (length c) <= off + Z.of_nat (length data)).

(** Where an operation on the open file [o] starts. *)
Definition size_of {F} (s : nfs_spec F) (f : F) (fh : nfs_fh4) (n : Z) : Prop :=
  ∃ v k, sp_getattr s f fh (Compound.bitmap [FATTR4_SIZE]) = Ok v ∧ read_u64 v.2 0 = Ok (n, k).
Definition starts {F} (s : nfs_spec F) (f : F) (o : NfsOpenState) (offset : VfOffset) (off : Z) : Prop :=
  match offset with At x => off = x | Cur => off = os_cur_offset o | End_ => size_of s f (os_fh o) off end.

(** The operations of the batch: through a descriptor, with [u64] offsets. *)
Definition through_fd (r : FileRead) : Prop :=
  (∃ fd, fr_file r = Fd fd) ∧ 0 <= fr_length r ∧ match fr_offset r with At x => 0 <= x | _ => True end.
Definition cursors_ok (b : NfsVecFs) : Prop := map_Forall (λ _ o, 0 <= os_cur_offset o) (open_files b).

(** A correct answer to one operation. *)
Definition read_answers {F} (s : nfs_spec F) (f : F) (content : nfs_fh4 → option bytes) (b : NfsVecFs) (r : FileRead) (res : ReadResult) : Prop :=
  ∃ fd o c, fr_file r = Fd fd ∧ open_files b !! fd = Some o ∧ content (os_fh o) = Some c ∧
    rr_file res = fr_file r ∧ starts s f o (fr_offset r) (rr_offset res) ∧
    filled c (rr_offset res) (fr_length r) (rr_data res) (rr_eof res).

(** How many READs a batch can need. *)
Definition most_reads (reads : list FileRead) : Z := foldr (λ r n, 1 + fr_length r + n) 0 reads.

(** The error is the connection's, or names an operation of the batch. *)
Definition names_item (n : nat) (e : VfError.t) : Prop :=
  VfError.is_transport e = true ∨ ∃ i, VfError.index e = Some i ∧ 0 <= i < Z.of_nat n.

Module DescriptorLemmas.
Import ExchangeLemmas ServerLemmas SingleLemmas ReadLemmas NamespaceLemmas SetattrLemmas.

Section Plan.
(** READs of one file that follow one another from [pos] on. *)
Fixpoint contiguous (fh : nfs_fh4) (pos : Z) (ops : list ReadOp) : Prop :=
  match ops with
  | [] => True
  | op :: ops => rd_fh op = fh ∧ rd_offset op = pos ∧ 0 <= rd_count op ∧ contiguous fh (pos + rd_count op) ops
  end.
Definition span (ops : list ReadOp) : Z := foldr (λ op n, rd_count op + n) 0 ops.

Lemma contiguous_span fh pos ops : contiguous fh pos ops → 0 <= span ops.
Proof.
  revert pos. induction ops as [|op ops IH]; intros pos; cbn [contiguous span foldr]; [done|]. intros (_ & _ & ? & H).
  apply IH in H. unfold span in H. lia.
Qed.

Lemma plan_chunks_ok fuel per o i off remaining chunk_off :
  1 <= per <= U32_MAX → 0 <= remaining → 0 <= off → 0 <= chunk_off → off + chunk_off + remaining <= U64_MAX → remaining < Z.of_nat fuel →
  ∃ ops, plan_chunks fuel per o i off remaining chunk_off = Done (Ok ops) ∧ contiguous (os_fh o) (off + chunk_off) ops ∧
    span ops = remaining ∧ ops ≠ [] ∧ Z.of_nat (length ops) <= 1 + remaining ∧ Forall (λ op, rd_count op <= U32_MAX) ops.
Proof.
  intros Hper. revert remaining chunk_off. induction fuel as [|fuel IH]; intros remaining chunk_off Hr Ho Hc Hmax Hf; [lia|].
  cbn [plan_chunks]. set (n := Z.min remaining per). unfold checked_add at 1. replace (off + chunk_off <=? U64_MAX) with true by lia.
  assert (Hu32 : as_u32 n = n) by (unfold as_u32; rewrite Z.mod_small; [done|unfold U32_MAX in *; lia]). rewrite Hu32.
  destruct (Z.eqb_spec (remaining - n) 0) as [Hz|Hz].
  - eexists. split; [reflexivity|]. cbn. split; [by split_and!; [| |lia|]|]. split; [lia|]. split; [done|]. split; [lia|].
    apply Forall_singleton. cbn. lia.
  - unfold checked_add. replace (chunk_off + n <=? U64_MAX) with true by lia.
    destruct (IH (remaining - n) (chunk_off + n)) as (ops & -> & Hcont & Hspan & Hne & Hlen & Hcounts); [lia..|]. cbn [mbind outcome_bind].
    eexists. split; [reflexivity|]. cbn [contiguous rd_fh rd_offset rd_count span foldr length]. fold (span ops). rewrite Z.add_assoc in Hcont.
    split; [by split_and!; [| |lia|]|]. split; [lia|]. split; [done|]. split; [lia|]. constructor; [cbn; lia|done].
Qed.
End Plan.

(** ** Completing one READ *)

(** As [filled], with bytes possibly missing. *)
Definition partly (c : bytes) (off n : Z) (data : bytes) (eof : bool) : Prop :=
  data `prefix_of` drop (Z.to_nat off) c ∧ Z.of_nat (length data) <= n ∧
  (eof = true → Z.of_nat (length c) <= off + Z.of_nat (length data)).

Lemma prefix_take_eq {A} (l l' : list A) : l `prefix_of` l' → l = take (length l) l'.
Proof. intros [k ->]. by rewrite take_app_length. Qed.

Lemma partly_filled c off n data eof : 0 <= off → partly c off n data eof → Z.of_nat (length data) = n ∨ eof = true → filled c off n data eof.
Proof.
  intros Ho (Hp & Hn & He) Hd. split; [|split; [by destruct Hd as [?| ->]|done]]. rewrite (prefix_take_eq _ _ Hp) at 1.
  destruct Hd as [Hd|Hd]; [f_equal; lia|]. specialize (He Hd). rewrite !take_ge; [done|lengths..].
Qed.

Lemma partly_app c off m n d1 d2 e1 e2 : 0 <= off → partly c off m d1 e1 → partly c (off + Z.of_nat (length d1)) n d2 e2 →
  partly c off (Z.of_nat (length d1) + n) (d1 ++ d2) e2.
Proof.
  intros Ho (Hp1 & Hn1 & _) (Hp2 & Hn2 & He2). rewrite Z2Nat.inj_add, Nat2Z.id, <-drop_drop in Hp2 by lia. split.
  - destruct Hp1 as [k Hk]. rewrite Hk in Hp2 |- *. rewrite drop_app_length in Hp2. by apply prefix_app.
  - rewrite length_app. split; [lia|]. intros H. specialize (He2 H). lia.
Qed.

Lemma filled_ended c off m n data : 0 <= m → 0 <= n → 0 <= off → filled c off m data true → filled c off (m + n) data true.
Proof.
  intros Hm Hn Ho (Hd & _ & He). specialize (He eq_refl). assert (Hall : length (drop (Z.to_nat off) c) = length data).
  { apply (f_equal length) in Hd. rewrite length_take in Hd. rewrite length_drop in *. lia. }
  split; [|done]. rewrite Hd, length_take in Hall. rewrite Hd, !take_ge; [done|lia..].
Qed.

Lemma filled_app c off m n d1 d2 eof : 0 <= m → 0 <= off → 0 <= n → filled c off m d1 false → filled c (off + m) n d2 eof → filled c off (m + n) (d1 ++ d2) eof.
Proof.
  intros Hm Ho Hn (H1 & Hl1 & _) (H2 & Hl2 & He2). specialize (Hl1 eq_refl). split; [|split; intros He; [specialize (Hl2 He)|specialize (He2 He)]; lengths].
  rewrite Z2Nat.inj_add in H2 |- * by lia. rewrite <-drop_drop in H2. subst d2. rewrite H1.
  rewrite <-(take_drop (Z.to_nat m) (take (Z.to_nat m + Z.to_nat n) _)), take_take, skipn_firstn_comm. f_equal; f_equal; lia.
Qed.

Lemma kept_limits b b' : kept b b' → same_limits (nfs b) (nfs b').
Proof. by intros [_ ?]. Qed.
Definition fits (b : NfsVecFs) : Prop := 0 <= NfsClient.max_ops (nfs b) < USIZE_MAX.
Lemma fits_kept b b' : kept b b' → fits b → fits b'.
Proof. intros [_ (Hm & _)]. unfold fits. by rewrite Hm. Qed.
#[global] Hint Resolve kept_limits fits_kept : vnfs.

Section Reading.
Context {F W : Type} (s : nfs_spec F) (rpc : Compound.t → W → RpcResult COMPOUND4res * W) (fs : W → F).
Context (Hrpc : transport_ok rpc) (Himp : implements s rpc fs).
Context (xdr_len : Compound.t → Z) `{!XdrSizes xdr_len}.
Context (f : F).


(** One [readv] of the client. *)
Lemma client_reads fuel ops (conv : RpcError.t → VfError.t) b w : fs w = f → fits b →
  (Z.of_nat (length ops) + 1) * (Z.of_nat (length ops) + 1) <= Z.of_nat fuel →
  returns (client (λ cl w, Readv.readv rpc xdr_len fuel cl ops w) conv) b w (λ r b' w', kept b b' ∧ fs w' = f ∧
    match r with
    | Ok out => Forall2 (read_answer s f) ops out
    | Err e => ∃ e0, e = conv e0 ∧ (RpcError.is_transport e0 = true ∨ 0 <= RpcError.op_index e0 < Z.of_nat (length ops))
    end).
Proof.
  intros Hf Hb Hfuel. apply returns_client. unfold Readv.readv.
  destruct (readv_loop_ok s rpc fs Hrpc Himp xdr_len ops f (nfs b) Hb fuel
    (sat_sub (NfsClient.read_compound_bytes (nfs b)) 128) fuel (Readv.State (nfs b) w 0 [])) as ([[r cl'] w'] & E & Hs & Hf' & Hr).
  - split; cbn; [auto with vnfs|done|lia|constructor].
  - cbn. nia.
  - done.
  - exists r, cl', w'. split; [exact E|]. split; [auto with vnfs|]. split; [done|]. destruct r as [out|e]; [done|eauto].
Qed.

Section Content.
Context (content : nfs_fh4 → option bytes) (Hshows : shows s f content).

Lemma answer_partly op v : read_answer s f op v → ∃ c, content (rd_fh op) = Some c ∧ partly c (rd_offset op) (rd_count op) v.1 v.2.
Proof.
  destruct v as [data eof]. intros [Hm Hl]. cbn [meaning] in Hm. rewrite Z.min_id in Hm.
  assert (Hr : sp_read s f (rd_fh op) (rd_stateid op) (rd_offset op) (rd_count op) = Ok (data, eof)).
  { revert Hm. unfold at_fh, unchanged. repeat case_match; try done. by intros [= ->]. }
  apply Hshows in Hr as (c & Hc & Hp & He). exists c. done.
Qed.

Lemma complete_turn_ok fuel op index c chunk more b w : fs w = f → fits b → 4 <= Z.of_nat fuel →
  content (rd_fh op) = Some c → 0 <= rd_offset op → 0 <= rd_count op <= U32_MAX → rd_offset op + rd_count op <= U64_MAX →
  partly c (rd_offset op) (rd_count op) (chunk ++ more) false → Z.of_nat (length (chunk ++ more)) < rd_count op →
  returns (complete_turn rpc xdr_len fuel op index (Z.of_nat (length (chunk ++ more)), false, more)) b w (λ r b' w', kept b b' ∧ fs w' = f ∧
    match r with
    | Ok (received, eof, more') => received = Z.of_nat (length (chunk ++ more')) ∧ partly c (rd_offset op) (rd_count op) (chunk ++ more') eof ∧
        (eof = true ∨ Z.of_nat (length (chunk ++ more)) < received)
    | Err e => VfError.index e = Some index
    end).
Proof.
  intros Hf Hb Hfuel Hc Ho Hcount Hmax Hpart Hlt. unfold complete_turn. set (received := Z.of_nat (length (chunk ++ more))) in *.
  unfold checked_add. replace (rd_offset op + received <=? U64_MAX) with true by lia.
  assert (as_u32 (rd_count op - received) = rd_count op - received) as -> by (unfold as_u32; rewrite Z.mod_small; [done|unfold U32_MAX in *; lia]).
  set (retry := Read _ _ _ _). eapply returns_bind; [by apply (client_reads fuel [retry])| |].
  2:{ intros e b' w' (Hk & Hw & e0 & -> & _). done. }
  cbn beta iota. intros out b1 w1 (Hk & Hw & Hout). apply Forall2_cons_inv_l in Hout as ([data end_] & ? & Hv & ->%Forall2_nil_inv_l & ->).
  destruct (answer_partly _ _ Hv) as (c' & Hc' & Hd). cbn [rd_fh rd_offset rd_count fst snd retry] in *. rewrite Hc in Hc'. injection Hc' as <-.
  pose proof (proj1 (proj2 Hd)) as Hlen. destruct (Z.ltb_spec (rd_count op - received) (Z.of_nat (length data))) as [?|_]; [lia|].
  destruct (Z.eqb_spec (Z.of_nat (length data)) 0) as [Hz|Hz]; destruct end_; cbn [orb andb negb];
    [apply returns_ret|by apply returns_fail|apply returns_ret..].
  all: split; [done|]; split; [done|]; rewrite app_assoc; split; [rewrite (length_app (chunk ++ more)); lia|].
  all: split; [|by (left + right; rewrite ?length_app; lia)].
  all: replace (rd_count op) with (received + (rd_count op - received)) by lia; by eapply partly_app.
Qed.

Lemma complete_chunk_ok fuel op index c chunk eof b w : fs w = f → fits b → 4 <= Z.of_nat fuel →
  content (rd_fh op) = Some c → 0 <= rd_offset op → 0 <= rd_count op <= U32_MAX → rd_offset op + rd_count op <= U64_MAX →
  partly c (rd_offset op) (rd_count op) chunk eof →
  returns (complete_read_chunk rpc xdr_len fuel op (Z.of_nat (length chunk)) eof index) b w (λ r b' w', kept b b' ∧ fs w' = f ∧
    match r with
    | Ok (_, eof', more) => filled c (rd_offset op) (rd_count op) (chunk ++ more) eof'
    | Err e => VfError.index e = Some index
    end).
Proof.
  intros Hf Hb Hfuel Hc Ho Hcount Hmax Hpart. unfold complete_read_chunk.
  destruct (_ || _); [by apply returns_fail|].
  eapply returns_mono; [apply (returns_while _ _ _
    (λ '(received, eof, more) b1 w1, kept b b1 ∧ fs w1 = f ∧ received = Z.of_nat (length (chunk ++ more)) ∧
       partly c (rd_offset op) (rd_count op) (chunk ++ more) eof)
    (λ e b1 w1, kept b b1 ∧ fs w1 = f ∧ VfError.index e = Some index)
    (λ '(received, eof, _), if (eof : bool) then 0 else rd_count op - received))|].
  - intros [[received e] more] b1 w1 (_ & _ & -> & (_ & ? & _)) _. destruct e; lia.
  - intros [[received e] more] b1 w1 (Hk & Hw & -> & Hp) [Hlt%Z.ltb_lt He]%andb_prop. destruct e; [done|].
    eapply returns_mono; [apply (complete_turn_ok fuel op index c chunk more); try done; eauto with vnfs|].
    cbn beta. intros r b2 w2 (Hk2 & Hw2 & Hr). destruct r as [[[r e] more2]|e].
    + destruct Hr as (-> & Hp2 & Hprog). split; [split; [by etrans|done]|]. destruct e, Hprog; try done; lia.
    + split; [by etrans|done].
  - rewrite app_nil_r. done.
  - destruct eof; lia.
  - cbn beta. intros [[[r e] more]|e] b' w' H; [|exact H]. destruct H as [(Hk & Hw & -> & Hp) Hg]. split; [done|]. split; [done|].
    apply partly_filled; [done..|]. destruct e; [by right|left]. pose proof (proj1 (proj2 Hp)). destruct (Z.ltb_spec (Z.of_nat (length (chunk ++ more))) (rd_count op)); [done|lia].
Qed.

(** ** Putting the READs of one operation together *)

Lemma collect_chunks_ok fuel i c fh off chunks data eof pos b w : fs w = f → fits b → 4 <= Z.of_nat fuel →
  content fh = Some c → contiguous fh pos chunks.*1 → Forall (λ op, rd_count op <= U32_MAX) chunks.*1 →
  0 <= off <= pos → pos + span chunks.*1 <= U64_MAX → Forall (λ '(op, r), ∃ v, r = Some v ∧ read_answer s f op v) chunks →
  filled c off (pos - off) data eof →
  returns (collect_chunks rpc xdr_len fuel i chunks data eof) b w (λ r b' w', kept b b' ∧ fs w' = f ∧
    match r with
    | Ok (data', eof') => filled c off (pos - off + span chunks.*1) data' eof'
    | Err e => VfError.index e = Some i
    end).
Proof.
  intros Hf Hb Hfuel Hc. revert data eof pos b w Hf Hb.
  induction chunks as [|[op r] chunks IH]; intros data eof pos b w Hf Hb Hcont Hcounts Hoff Hmax Hres Hd; cbn [collect_chunks].
  { apply returns_ret. split; [done|]. split; [done|]. cbn. by rewrite Z.add_0_r. }
  apply Forall_cons in Hres as [(v & -> & Hv) Hres]. cbn [fmap list_fmap fst] in *. apply Forall_cons in Hcounts as [Hcount Hcounts].
  destruct Hcont as (Hfh & Hpos & H0 & Hcont). cbn [span foldr] in *. fold (span chunks.*1) in *.
  pose proof (contiguous_span _ _ _ Hcont) as Hspan.
  rewrite !Z.add_assoc. destruct eof.
  - replace (pos - off + rd_count op) with (pos + rd_count op - off) by lia. apply IH; [done|done|done|done|lia|lia|done|].
    replace (pos + rd_count op - off) with (pos - off + rd_count op) by lia. apply filled_ended; [lia..|done].
  - destruct v as [chunk end_]. apply (returns_expect_bind _ (chunk, end_)); [done|].
    destruct (answer_partly _ _ Hv) as (c' & Hc' & Hp). rewrite Hfh, Hc in Hc'. injection Hc' as <-. cbn [fst snd] in Hp.
    eapply (returns_bind (complete_read_chunk _ _ _ _ _ _ _)); [apply (complete_chunk_ok fuel op i c); try done; [by rewrite Hfh|lia..]| |done].
    cbn beta iota. intros [[rcv e] more] b1 w1 (Hk & Hw & Hfill). eapply returns_mono.
    + apply (IH _ _ (pos + rd_count op)); [done|eauto with vnfs|done|done|lia|lia|done|]. rewrite Hpos in Hfill.
      replace (pos + rd_count op - off) with (pos - off + rd_count op) by lia. apply filled_app; [lia..|done|].
      by replace (off + (pos - off)) with pos by lia.
    + cbn beta. intros r b2 w2 (Hk2 & Hw2 & Hr). split; [by etrans|]. split; [done|].
      by replace (pos + rd_count op - off) with (pos - off + rd_count op) in Hr by lia.
Qed.

End Content.

(** ** Planning *)

Lemma be_val_nonneg b : 0 <= be_val b.
Proof.
  induction b as [|x b IH]; [done|]. rewrite be_val_cons. assert (0 <= byte_val x) by (unfold byte_val; lia).
  assert (0 < 256 ^ Z.of_nat (length b)) by (apply Z.pow_pos_nonneg; lia). nia.
Qed.

Lemma file_size_ok fh b w : fs w = f →
  returns (file_size rpc xdr_len fh) b w (λ r b' w', kept b b' ∧ fs w' = f ∧
    match r with Ok n => size_of s f fh n ∧ 0 <= n | Err _ => True end).
Proof.
  intros Hf. unfold file_size. eapply returns_bind.
  - apply returns_client. unfold Single.getattr. set (c := Compound.getattr _ _).
    destruct (quiet_exchange s rpc fs Hrpc Himp xdr_len (nfs b) c (λ res, CompoundRes.getattr res 2)
      (λ a, ∃ v, sp_getattr s f fh (Compound.bitmap [FATTR4_SIZE]) = Ok v ∧ v.2 = a) w) as (r & cl' & w' & -> & Hs & Hw & Hr);
      [done|by repeat constructor| |].
    { intros m rs res Hst Hcomp. rewrite Hf in Hst. cbn -[Compound.bitmap] in Hst. machine.
      pose proof (complete_accessors _ _ 1 _ Hcomp eq_refl) as H1.
      cbn -[vec_of CompoundRes.vec_bytes Compound.bitmap] in H1. rewrite vec_of_bytes in H1. eexists. split; [exact H1|eauto]. }
    exists r, cl', w'. split; [done|]. instantiate (1 := λ r b' w', kept b b' ∧ fs w' = f ∧
      match r with Ok a => ∃ v, sp_getattr s f fh (Compound.bitmap [FATTR4_SIZE]) = Ok v ∧ v.2 = a | Err _ => True end).
    cbn beta. split; [auto with vnfs|]. split; [congruence|]. by destruct r.
  - cbn beta iota. intros a b1 w1 (Hk & Hw & v & Hv & <-). apply returns_lift_bind. destruct (read_u64 v.2 0) as [[n k]|e] eqn:E; [|done].
    apply returns_ret. split; [done|]. split; [done|]. split; [by exists v, k|].
    unfold read_u64 in E. destruct (checked_add 0 8) as [j|]; [cbn [ok_or mbind result_bind] in E|done].
    destruct (get_range v.2 0 j); [|done]. injection E as <- _. apply be_val_nonneg.
  - done.
Qed.

Lemma resolve_offset_ok fd offset b w : fs w = f → cursors_ok b → match offset with At x => 0 <= x | _ => True end →
  returns (resolve_offset rpc xdr_len (Fd fd) offset) b w (λ r b' w', kept b b' ∧ fs w' = f ∧
    match r with Ok off => 0 <= off ∧ ∀ o, open_files b !! fd = Some o → starts s f o offset off | Err _ => True end).
Proof.
  intros Hf Hcur Hat. destruct offset as [x| |]; cbn [resolve_offset FileOperand.fd].
  - by apply returns_ret.
  - apply returns_gets. split; [done|]. split; [done|]. destruct (open_files b !! fd) as [o|] eqn:E; [|done].
    split; [exact (Hcur _ _ E)|]. by intros ? [= ->].
  - cbn [resolve_tcfile]. destruct (open_files b !! fd) as [o|] eqn:E.
    + eapply (returns_bind _ _ _ _ (λ r b' w', r = Ok (os_fh o) ∧ b' = b ∧ w' = w)).
      * apply returns_gets_bind. rewrite E. by apply returns_ret.
      * intros fh b' w' ([= ->] & -> & ->). eapply returns_mono; [by apply file_size_ok|]. cbn beta.
        intros r b' w' (Hk & Hw & Hr). split; [done|]. split; [done|]. destruct r as [n|]; [|done]. destruct Hr as [? ?].
        split; [done|]. by intros ? [= ->].
      * by intros e b' w' (? & _).
    + eapply (returns_bind _ _ _ _ (λ r b' w', (∃ e, r = Err e) ∧ b' = b ∧ w' = w)).
      * apply returns_gets_bind. rewrite E. by apply returns_fail; eauto.
      * intros fh b' w' ([? ?] & _); done.
      * intros e b' w' (_ & -> & ->). done.
Qed.

(** The READs planned for one operation. *)
Definition planned (b : NfsVecFs) (r : FileRead) (off : Z) (ops : list ReadOp) : Prop :=
  ∃ fd o, fr_file r = Fd fd ∧ open_files b !! fd = Some o ∧ starts s f o (fr_offset r) off ∧ 0 <= off ∧ off + fr_length r <= U64_MAX ∧
    contiguous (os_fh o) off ops ∧ span ops = fr_length r ∧ ops ≠ [] ∧ Z.of_nat (length ops) <= 1 + fr_length r ∧
    Forall (λ op, rd_count op <= U32_MAX) ops.

(** The owners of the READs, operation by operation from [k] on. *)
Fixpoint owners_from (k : nat) (opss : list (list ReadOp)) : list Z :=
  match opss with [] => [] | ops :: opss => replicate (length ops) (Z.of_nat k) ++ owners_from (S k) opss end.
Lemma owners_from_app k l1 l2 : owners_from k (l1 ++ l2) = owners_from k l1 ++ owners_from (k + length l1) l2.
Proof.
  revert k. induction l1 as [|ops l1 IH]; intros k; cbn; [by rewrite Nat.add_0_r|]. rewrite IH, app_assoc. do 2 f_equal. lia.
Qed.

Definition plan_for (b : NfsVecFs) (reads : list FileRead) (plan : DescriptorReadPlan) : Prop :=
  ∃ opss, pl_ops plan = mjoin opss ∧ pl_owners plan = owners_from 0 opss ∧ Forall3 (planned b) reads (pl_offsets plan) opss.

Lemma plan_read_ok per b0 b pre r plan w : fs w = f → kept b0 b → cursors_ok b0 → 1 <= per <= U32_MAX → through_fd r →
  plan_for b0 pre plan →
  returns (plan_read rpc xdr_len per None (length pre, r) plan) b w (λ res b' w', kept b0 b' ∧ fs w' = f ∧
    match res with Ok plan' => plan_for b0 (pre ++ [r]) plan' | Err e => VfError.index e = Some (Z.of_nat (length pre)) end).
Proof.
  intros Hf Hk Hcur Hper ([fd Hfd] & Hlen & Hat) (opss & Hops & Howners & Hall). cbn [plan_read].
  assert (Hfiles : ∀ b', kept b0 b' → open_files b' = open_files b0) by (by intros b' [-> _]; destruct b0).
  eapply returns_bind.
  - apply returns_map_err. rewrite Hfd. eapply returns_mono; [apply resolve_offset_ok; [done| |done]|].
    { unfold cursors_ok. by rewrite (Hfiles b Hk). }
    instantiate (1 := λ r' b' w', kept b0 b' ∧ fs w' = f ∧
      match r' with Ok off => 0 <= off ∧ ∀ o, open_files b0 !! fd = Some o → starts s f o (fr_offset r) off
      | Err e => VfError.index e = Some (Z.of_nat (length pre)) end). cbn beta.
    intros r' b' w' (Hk' & Hw & Hr). split; [by etrans|]. split; [done|]. destruct r'; [|done]. by rewrite <-(Hfiles b Hk).
  - cbn beta iota. intros off b1 w1 (Hk1 & Hw1 & Hoff & Hst). unfold checked_add.
    destruct (Z.leb_spec (off + fr_length r) U64_MAX) as [Hmax|]; [|by apply returns_fail].
    rewrite Hfd. apply (returns_expect_bind _ fd); [done|]. apply returns_gets_bind. rewrite (Hfiles _ Hk1).
    destruct (open_files b0 !! fd) as [o|] eqn:Eo; [|by apply returns_fail].
    destruct (plan_chunks_ok (S (Z.to_nat (fr_length r))) per o (Z.of_nat (length pre)) off (fr_length r) 0)
      as (ops & -> & Hcont & Hspan & Hne & Hn & Hcounts); [lia..|]. rewrite Z.add_0_r in Hcont.
    exists (Ok (MakePlan (pl_ops plan ++ ops) (pl_owners plan ++ replicate (length ops) (Z.of_nat (length pre))) (pl_offsets plan ++ [off]))), b1, w1.
    split; [done|]. split; [done|]. split; [done|]. exists (opss ++ [ops]). cbn [pl_ops pl_owners pl_offsets].
    split; [by rewrite join_app, Hops; cbn; rewrite app_nil_r|]. split.
    { rewrite owners_from_app, Howners. cbn. rewrite app_nil_r. do 3 f_equal. by eapply Forall3_length_lr. }
    apply Forall3_app; [done|]. constructor; [|constructor]. exists fd, o. auto 12.
  - done.
Qed.

Lemma names_at n e k : (k < n)%nat → VfError.index e = Some (Z.of_nat k) → names_item n e.
Proof. intros Hk He. right. exists (Z.of_nat k). split; [done|lia]. Qed.

Lemma descriptor_read_plan_ok reads b w : fs w = f → cursors_ok b → Forall through_fd reads →
  returns (descriptor_read_plan rpc xdr_len reads None) b w (λ r b' w', kept b b' ∧ fs w' = f ∧
    match r with Ok plan => plan_for b reads plan | Err e => names_item (length reads) e end).
Proof.
  intros Hf Hcur Hreads. unfold descriptor_read_plan. apply returns_gets_bind. set (per := NfsClient.read_per_op_bytes _).
  assert (Hper : 1 <= per <= U32_MAX).
  { unfold per, NfsClient.read_per_op_bytes, NfsClient.per_op_bytes. change MAX_OP_BYTES with 67108864. unfold U32_MAX. lia. }
  eapply returns_mono; [apply (returns_for_each _ (λ pre plan b' w', kept b b' ∧ fs w' = f ∧ plan_for b pre.*2 plan)
    (λ e b' w', kept b b' ∧ fs w' = f ∧ names_item (length reads) e))|].
  - split; [done|]. split; [done|]. exists []. by repeat constructor.
  - intros pre [k r] post plan b1 w1 Hxs (Hk & Hw & Hplan). destruct (imap_split _ _ _ _ _ Hxs) as [-> Hr].
    rewrite Forall_forall in Hreads. rewrite <-(length_fmap snd pre) at 1. eapply returns_mono.
    { eapply (plan_read_ok per b b1 pre.*2 r plan w1 Hw Hk Hcur Hper); [|done]. apply Hreads. by eapply list_elem_of_lookup_2. }
    { cbn beta. intros res b2 w2 (Hk2 & Hw2 & Hres). destruct res as [plan'|e]; (split; [done|]); (split; [done|]).
      + by rewrite fmap_app.
      + rewrite length_fmap in Hres. eapply names_at; [|done]. by eapply lookup_lt_Some. }
  - cbn beta. intros [plan|e] b' w' H; [|exact H]. by rewrite imap_snd in H.
Qed.

Lemma plan_bound b reads offs opss : Forall3 (planned b) reads offs opss → Z.of_nat (length (mjoin opss)) <= most_reads reads.
Proof.
  induction 1 as [|r off ops reads offs opss H _ IH]; [done|]. change (mjoin (ops :: opss)) with (ops ++ mjoin opss).
  change (most_reads (r :: reads)) with (1 + fr_length r + most_reads reads). rewrite length_app.
  destruct H as (fd & o & _ & _ & _ & _ & _ & _ & _ & _ & ? & _). lia.
Qed.

(** ** Sending *)

Lemma owners_length k opss : length (owners_from k opss) = length (mjoin opss).
Proof. revert k. induction opss as [|ops opss IH]; intros k; cbn; [done|]. by rewrite !length_app, length_replicate, IH. Qed.
Lemma owners_range k opss i : i ∈ owners_from k opss → Z.of_nat k <= i < Z.of_nat (k + length opss).
Proof.
  revert k. induction opss as [|ops opss IH]; intros k; cbn; [by intros ?%not_elem_of_nil|].
  intros [H|H]%elem_of_app; [apply elem_of_replicate in H as [-> _]; lia|apply IH in H; lia].
Qed.

Lemma pack_le limit bytes first ops : (pack_reads limit bytes first ops <= length ops)%nat.
Proof. revert bytes first. induction ops as [|op ops IH]; intros bytes first; cbn; [done|]. case_match; [lia|]. specialize (IH (sat_add bytes (rd_count op)) false). lia. Qed.
Lemma pack_pos limit bytes ops : ops ≠ [] → (1 <= pack_reads limit bytes true ops)%nat.
Proof. destruct ops; [done|]. cbn. lia. Qed.

Lemma remap_names n start owners len e0 : 0 <= start → start + len <= Z.of_nat (length owners) → Z.of_nat (length owners) <= USIZE_MAX →
  (∀ i, i ∈ owners → 0 <= i < Z.of_nat n) → RpcError.is_transport e0 = true ∨ 0 <= RpcError.op_index e0 < len →
  names_item n (remap_descriptor_chunk_error (error_from_rpc_indexed e0) start owners).
Proof.
  intros H0 Hlen Hmax Hrange He0. destruct (error_from_rpc_indexed_attribution e0) as (Ht & Hi & _).
  destruct (RpcError.is_transport e0); [by left|]. destruct He0 as [|He0]; [done|]. right.
  unfold remap_descriptor_chunk_error, VfError.map_index. cbn [VfError.index]. rewrite Hi. cbn [fmap option_fmap option_map].
  assert (sat_add start (RpcError.op_index e0) = start + RpcError.op_index e0) as -> by (unfold sat_add, USIZE_MAX in *; lia).
  destruct (lookup_lt_is_Some_2 owners (Z.to_nat (start + RpcError.op_index e0))) as [i Hx]; [lia|]. rewrite Hx. exists i. split; [done|].
  apply Hrange. by eapply list_elem_of_lookup_2.
Qed.

Lemma slice_app_take {A} (l : list A) i j : (i <= j)%nat → take j l = take i l ++ slice i j l.
Proof. intros H. unfold slice. rewrite <-(take_drop i (take j l)) at 1. by rewrite take_take, Nat.min_l by lia. Qed.

Lemma send_all_ok fuel limit plan n b w : fs w = f → fits b → length (pl_owners plan) = length (pl_ops plan) →
  (∀ i, i ∈ pl_owners plan → 0 <= i < Z.of_nat n) → Z.of_nat (length (pl_ops plan)) <= USIZE_MAX →
  (Z.of_nat (length (pl_ops plan)) + 1) * (Z.of_nat (length (pl_ops plan)) + 1) <= Z.of_nat fuel →
  returns (while_ (length (pl_ops plan)) (λ '(start, _), start <? Z.of_nat (length (pl_ops plan))) (send_reads rpc xdr_len fuel limit plan) (0, [])) b w
    (λ r b' w', kept b b' ∧ fs w' = f ∧
      match r with Ok (_, results) => Forall2 (read_answer s f) (pl_ops plan) results | Err e => names_item n e end).
Proof.
  intros Hf Hb Hlen Hown Hmax Hfuel. set (N := Z.of_nat (length (pl_ops plan))) in *.
  eapply returns_mono; [apply (returns_while _ _ _
    (λ '(start, results) b' w', kept b b' ∧ fs w' = f ∧ 0 <= start <= N ∧ Forall2 (read_answer s f) (take (Z.to_nat start) (pl_ops plan)) results)
    (λ e b' w', kept b b' ∧ fs w' = f ∧ names_item n e) (λ '(start, _), N - start - 1))|].
  - intros [start results] b1 w1 _ Hg%Z.ltb_lt. lia.
  - intros [start results] b1 w1 (Hk & Hw & Hstart & Hres) Hg%Z.ltb_lt. cbn [send_reads].
    set (k := pack_reads _ _ _ _). assert (Hk1 : (1 <= k)%nat).
    { apply pack_pos. intros E. apply (f_equal length) in E. rewrite length_drop in E. cbn in E. unfold N in *. lia. }
    pose proof (pack_le limit 0 true (drop (Z.to_nat start) (pl_ops plan))) as Hk2. fold k in Hk2. rewrite length_drop in Hk2.
    assert (Hpart : Z.of_nat (length (slice (Z.to_nat start) (Z.to_nat (start + Z.of_nat k)) (pl_ops plan))) = Z.of_nat k).
    { unfold slice. rewrite length_drop, length_take. unfold N in *. lia. }
    eapply returns_bind; [apply client_reads; [done|eauto with vnfs|rewrite Hpart; unfold N in *; nia]| |].
    + cbn beta iota. intros r b2 w2 (Hk3 & Hw2 & Hr). apply returns_ret. split; [|lia]. split; [by etrans|]. split; [done|].
      split; [unfold N in *; lia|]. rewrite (slice_app_take _ (Z.to_nat start)) by lia. by apply Forall2_app.
    + cbn beta iota. intros e b2 w2 (Hk3 & Hw2 & e0 & -> & He0). split; [by etrans|]. split; [done|]. rewrite Hpart in He0.
      eapply remap_names; [lia| |by rewrite Hlen|done|done]. rewrite Hlen. unfold N in *. lia.
  - split; [done|]. split; [done|]. split; [lia|]. constructor.
  - unfold N. lia.
  - cbn beta. intros [[start results]|e] b' w' H; [|exact H]. destruct H as [(Hk & Hw & Hs & Hr) Hg%Z.ltb_ge].
    by rewrite take_ge in Hr by (unfold N in *; lia).
Qed.

(** ** Collecting *)

Lemma owned_replicate i n rest : owned i (replicate n i ++ rest) = (n + owned i rest)%nat.
Proof. induction n as [|n IH]; [done|]. cbn. by rewrite Z.eqb_refl, IH. Qed.
Lemma owned_later i k opss : i < Z.of_nat k → owned i (owners_from k opss) = 0%nat.
Proof.
  revert k. induction opss as [|ops opss IH]; intros k Hi; [done|]. cbn. destruct ops as [|op ops]; [apply IH; lia|]. cbn.
  by destruct (Z.eqb_spec (Z.of_nat k) i); [lia|].
Qed.

Section Collect.
Context (content : nfs_fh4 → option bytes) (Hshows : shows s f content).

Lemma paired_fst ops results : (paired ops results).*1 = ops.
Proof. unfold paired. rewrite fmap_imap. change (imap (const id) ops = ops). by rewrite imap_const, list_fmap_id. Qed.
Lemma paired_answers ops results : Forall2 (read_answer s f) ops results →
  Forall (λ '(op, r), ∃ v, r = Some v ∧ read_answer s f op v) (paired ops results).
Proof.
  intros H. apply Forall_lookup. intros j [op r]. unfold paired. rewrite list_lookup_imap.
  destruct (ops !! j) as [op'|] eqn:E; [|done]. intros [= <- <-]. destruct (Forall2_lookup_l _ _ _ _ _ H E) as (v & -> & Hv). eauto.
Qed.

Lemma collect_descriptor_ok fuel plan results b0 b w ops l1 l2 pre r out off : fs w = f → kept b0 b → fits b0 → 4 <= Z.of_nat fuel →
  pl_ops plan = mjoin (l1 ++ ops :: l2) → pl_owners plan = owners_from 0 (l1 ++ ops :: l2) → length l1 = pre →
  pl_offsets plan !! pre = Some off → planned b0 r off ops → Forall2 (read_answer s f) (pl_ops plan) results →
  returns (collect_read rpc xdr_len fuel plan results (pre, r) (length (mjoin l1), out)) b w (λ res b' w', kept b0 b' ∧ fs w' = f ∧
    match res with
    | Ok (ci, out') => ci = length (mjoin (l1 ++ [ops])) ∧ ∃ x, out' = out ++ [x] ∧ read_answers s f content b0 r x
    | Err e => VfError.index e = Some (Z.of_nat pre)
    end).
Proof.
  intros Hf Hk Hb Hfuel Hops Howners Hl1 Hoff (fd & o & Hfd & Ho & Hst & Hoff0 & Hmax & Hcont & Hspan & Hne & _ & Hcounts) Hres.
  cbn [collect_read]. apply (returns_expect_bind _ _ _ _ _ _ Hoff).
  rewrite join_app in Hops. change (mjoin (ops :: l2)) with (ops ++ mjoin l2) in Hops.
  assert (owned (Z.of_nat pre) (drop (length (mjoin l1)) (pl_owners plan)) = length ops) as Hn.
  { rewrite Howners, owners_from_app, <-(owners_length 0 l1), drop_app_length. cbn [owners_from Nat.add]. rewrite Hl1, owned_replicate, owned_later by lia. lia. }
  rewrite Hn. cbn zeta. set (chunks := take _ (drop _ (paired _ _))).
  assert (Hfst : chunks.*1 = ops) by (unfold chunks; by rewrite fmap_take, fmap_drop, paired_fst, Hops, drop_app_length, take_app_length).
  assert (Hans : Forall (λ '(op, r), ∃ v, r = Some v ∧ read_answer s f op v) chunks) by (apply Forall_take, Forall_drop; by apply paired_answers).
  assert (∃ c, content (os_fh o) = Some c) as [c Hc].
  { destruct chunks as [|[op v] chunks']; [by destruct Hne|]. apply Forall_cons in Hans as [(v0 & _ & Hv) _].
    destruct (answer_partly content Hshows _ _ Hv) as (c & Hc & _). rewrite <-Hfst in Hcont. destruct Hcont as [<- _]. eauto. }
  eapply returns_bind.
  - eapply (collect_chunks_ok content Hshows fuel _ c (os_fh o) off chunks [] false off); rewrite ?Hfst; try done; [eauto with vnfs|by rewrite Hspan|].
    rewrite Z.sub_diag. split; [done|]. by split.
  - cbn beta iota. intros [data eof] b1 w1 (Hk1 & Hw1 & Hfill). rewrite Hfst, Hspan, Z.sub_diag in Hfill.
    assert (Hlen : Z.of_nat (length data) <= fr_length r).
    { destruct Hfill as [-> _]. rewrite length_take. assert (0 <= fr_length r) by (rewrite <-Hspan; by eapply contiguous_span). lia. }
    unfold checked_add. replace (off + Z.of_nat (length data) <=? U64_MAX) with true by lia. apply returns_ret.
    split; [by etrans|]. split; [done|]. split; [rewrite join_app, length_app; cbn; by rewrite app_nil_r|].
    eexists. split; [reflexivity|]. exists fd, o, c. auto 10.
  - cbn beta iota. intros e b1 w1 (? & ? & ?). split; [by etrans|done].
Qed.

Lemma collect_all_ok fuel plan results reads b0 b w : fs w = f → kept b0 b → fits b0 → (reads ≠ [] → 4 <= Z.of_nat fuel) → plan_for b0 reads plan →
  Forall2 (read_answer s f) (pl_ops plan) results →
  returns (for_each (collect_read rpc xdr_len fuel plan results) (imap pair reads) (0%nat, [])) b w (λ r b' w', kept b0 b' ∧ fs w' = f ∧
    match r with Ok (_, out) => Forall2 (read_answers s f content b0) reads out | Err e => names_item (length reads) e end).
Proof.
  intros Hf Hk Hb Hfuel (opss & Hops & Howners & Hall) Hres.
  eapply returns_mono; [apply (returns_for_each _
    (λ pre '(ci, out) b' w', kept b0 b' ∧ fs w' = f ∧ ci = length (mjoin (take (length pre) opss)) ∧ Forall2 (read_answers s f content b0) pre.*2 out)
    (λ e b' w', kept b0 b' ∧ fs w' = f ∧ names_item (length reads) e))|].
  - split_and!; [done|done|done|constructor].
  - intros pre [k r] post [ci out] b1 w1 Hxs (Hk1 & Hw1 & -> & Hout). destruct (imap_split _ _ _ _ _ Hxs) as [-> Hr].
    destruct (Forall3_lookup_l _ _ _ _ _ _ Hall Hr) as (off & ops & Hoff & Hopsk & Hplanned).
    assert (Hsplit : opss = take (length pre) opss ++ ops :: drop (S (length pre)) opss) by (by rewrite take_drop_middle).
    pose proof (lookup_lt_Some _ _ _ Hopsk) as Hlt.
    eapply returns_mono; [eapply (collect_descriptor_ok fuel plan results b0 b1 w1 ops (take (length pre) opss) (drop (S (length pre)) opss)); try done;
      [apply Hfuel; by intros ->|by rewrite <-Hsplit..|lengths]|].
    cbn beta. intros [[ci' out']|e] b2 w2 (Hk2 & Hw2 & H).
    + destruct H as (-> & x & -> & Hx). split_and!; [done|done| |].
      * rewrite length_app. cbn. replace (length pre + 1)%nat with (S (length pre)) by lia. by rewrite (take_S_r _ _ _ Hopsk).
      * rewrite fmap_app. apply Forall2_app; [done|]. by repeat constructor.
    + split_and!; [done|done|]. eapply names_at; [|done]. by eapply lookup_lt_Some.
  - cbn beta. intros [[ci out]|e] b' w' H; [|exact H]. destruct H as (? & ? & _ & H). by rewrite imap_snd in H.
Qed.
End Collect.
End Reading.

(** ** Publishing *)

Lemma publish_all {W} xs b (w : W) :
  for_each publish xs tt b w = Done (Ok tt, set_files b (moved_cursors (open_files b) xs), w).
Proof.
  revert b. induction xs as [|[r res] xs IH]; intros b; [by destruct b|].
  cbn [for_each publish]. unfold mbind, op_bind, publish, advance_offset, modify. cbn [moved_cursors foldl].
  destruct (fr_offset r), (FileOperand.fd (fr_file r)); cbn [ret]; unfold ret; cbn beta iota; rewrite IH; by destruct b.
Qed.
End DescriptorLemmas.

Import DescriptorLemmas.

Lemma vread_batch_ok {F W} (s : nfs_spec F) (rpc : Compound.t → W → RpcResult COMPOUND4res * W) (fs : W → F)
    (xdr_len : Compound.t → Z) `{!XdrSizes xdr_len} (content : nfs_fh4 → option bytes) (reads : list FileRead) (b : NfsVecFs) (w : W) (fuel : nat) :
  transport_ok rpc → implements s rpc fs → shows s (fs w) content → 0 <= NfsClient.max_ops (nfs b) < USIZE_MAX →
  cursors_ok b → Forall through_fd reads → most_reads reads <= USIZE_MAX →
  (most_reads reads + 1) * (most_reads reads + 1) <= Z.of_nat fuel →
  ∃ r b' w', vread_batch_nfs rpc xdr_len fuel reads b w = Done (r, b', w') ∧ fs w' = fs w ∧ same_limits (nfs b) (nfs b') ∧
    match r with
    | Ok out => Forall2 (read_answers s (fs w) content b) reads out ∧
        b' = set_files (set_nfs b (nfs b')) (moved_cursors (open_files b) (zip reads out))
    | Err e => b' = set_nfs b (nfs b') ∧ names_item (length reads) e
    end.
Proof.
  intros Hrpc Himp Hshows Hmax Hcur Hreads Hsize Hfuel. unfold vread_batch_nfs.
  assert (Hpos : 0 <= most_reads reads ∧ (reads ≠ [] → 1 <= most_reads reads)).
  { clear -Hreads. induction Hreads as [|r reads (_ & ? & _) _ IH]; [done|]. change (most_reads (r :: reads)) with (1 + fr_length r + most_reads reads). lia. }
  eapply returns_bind; [by apply (descriptor_read_plan_ok s rpc fs Hrpc Himp xdr_len (fs w))| |].
  2:{ intros e b1 w1 (Hk & Hw & He). split; [done|]. split; [auto with vnfs|]. destruct Hk as [-> _]. by destruct b. }
  cbn beta iota. intros plan b1 w1 (Hk1 & Hw1 & Hplan). apply returns_gets_bind. pose proof Hplan as (opss & Hops & Howners & Hall).
  pose proof (plan_bound _ _ _ _ _ _ Hall) as Hbound. rewrite <-Hops in Hbound.
  eapply returns_bind; [eapply (send_all_ok s rpc fs Hrpc Himp xdr_len (fs w) fuel _ plan (length reads)); try done|..].
  - eauto with vnfs.
  - by rewrite Howners, Hops, owners_length.
  - intros i Hi. rewrite Howners in Hi. apply owners_range in Hi. rewrite (Forall3_length_lr _ _ _ _ Hall). lia.
  - lia.
  - nia.
  - cbn beta iota. intros [start results] b2 w2 (Hk2 & Hw2 & Hres). eapply returns_bind.
    + eapply (collect_all_ok s rpc fs Hrpc Himp xdr_len (fs w) content Hshows fuel plan results reads b); try done; [by etrans|].
      intros Hne. destruct Hpos as [_ Hpos]. specialize (Hpos Hne). nia.
    + cbn beta iota. intros [ci out] b3 w3 (Hk3 & Hw3 & Hout). pose proof (kept_limits _ _ Hk3). destruct Hk3 as [E _]. exists (Ok out), (set_files b3 (moved_cursors (open_files b3) (zip reads out))), w3.
      split; [unfold mbind, op_bind; by rewrite publish_all|]. split; [done|]. split; [done|]. split; [done|]. rewrite E. by destruct b.
    + intros e b3 w3 (Hk3 & Hw3 & He). split; [done|]. split; [auto with vnfs|]. split; [exact (proj1 Hk3)|done].
  - cbn beta iota. intros e b2 w2 (Hk2 & Hw2 & He). assert (Hk : NamespaceLemmas.kept b b2) by (by etrans).
    split; [done|]. split; [auto with vnfs|]. split; [exact (proj1 Hk)|done].
Qed.

(** C16: Vectored reads through open files return what the files hold.  For every
    server and transport, with any pattern of size rejections, lost replies and
    short READs, a batch of reads of at least one byte on descriptors terminates without panicking and leaves
    the files as they are.  If it succeeds, every operation gets the bytes of
    its file from its offset on, where the offset is the one given, the cursor of
    the open file or the size of the file; all the bytes asked for, unless the
    result says that the file ended, as it does when there are none; and only the cursors of operations at the
    cursor move, to the end of what they read.  If it fails, no cursor has moved,
    and the error is the connection's or names an operation of the batch. *)
Theorem descriptor_reads_correct {F W} (s : nfs_spec F) (rpc : Compound.t → W → RpcResult COMPOUND4res * W) (fs : W → F)
    (xdr_len : Compound.t → Z) `{!XdrSizes xdr_len} (content : nfs_fh4 → option bytes) (reads : list FileRead) (b : NfsVecFs) (w : W) (fuel : nat) :
  transport_ok rpc → implements s rpc fs → shows s (fs w) content → 0 <= NfsClient.max_ops (nfs b) < USIZE_MAX →
  cursors_ok b → Forall through_fd reads → Forall (λ r, 0 < fr_length r) reads → most_reads reads <= USIZE_MAX →
  (most_reads reads + 1) * (most_reads reads + 1) <= Z.of_nat fuel →
  ∃ r b' w', vread_batch_nfs rpc xdr_len fuel reads b w = Done (r, b', w') ∧ fs w' = fs w ∧
    match r with
    | Ok out => Forall2 (read_answers s (fs w) content b) reads out ∧
        Forall (λ res, rr_data res = [] → rr_eof res = true) out ∧
        b' = set_files (set_nfs b (nfs b')) (moved_cursors (open_files b) (zip reads out))
    | Err e => b' = set_nfs b (nfs b') ∧ names_item (length reads) e
    end.
Proof.
  intros Hrpc Himp Hshows Hmax Hcur Hreads Hpos Hsize Hfuel.
  destruct (vread_batch_ok s rpc fs xdr_len content reads b w fuel Hrpc Himp Hshows Hmax Hcur Hreads Hsize Hfuel) as (r & b' & w' & E & Hw & _ & H).
  exists r, b', w'. split; [exact E|]. split; [done|]. destruct r as [out|e]; [|done]. destruct H as [Hall Hb'].
  split; [done|]. split; [|done]. clear -Hall Hpos. induction Hall as [|r res reads out Hr _ IH]; [constructor|].
  apply Forall_cons in Hpos as [Hp Hpos]. constructor; [|by apply IH].
  destruct Hr as (fd & o & c & _ & _ & _ & _ & _ & _ & Hlen & _). intros Hnil. rewrite Hnil in Hlen.
  destruct (rr_eof res); [done|]. specialize (Hlen eq_refl). cbn in Hlen. lia.
Qed.

(** Two open files: one operation at the cursor, one past the end of its file
    and one at the end. *)
Definition example_open (fh : bytes) (cur : Z) : NfsOpenState := OpenState fh zero_stateid cur false None.
Definition example_table : NfsVecFs :=
  set_files example_backend (list_to_map [(3, example_open (bstr "FF") 1); (4, example_open (bstr "O") 0)]).
Definition example_batch : list FileRead :=
  [MakeRead (Fd 3) Cur 2; MakeRead (Fd 4) (At 4) 10; MakeRead (Fd 3) End_ 5].
Definition example_answers : list ReadResult :=
  [MakeReadResult (Fd 3) 1 (bstr "at") false; MakeReadResult (Fd 4) 4 (bstr "ours") true;
   MakeReadResult (Fd 3) 4 [] true].

Lemma mem_shows f : shows MemFs.spec f (MemTree.content f).
Proof.
  intros x st off n data eof. cbn. change nfs_fh4 with bytes in x. unfold MemFs.read, MemFs.node_at, MemTree.content.
  destruct (nodes f !! x) as [[c| |]|]; [|done..]. destruct (Z.ltb_spec off 0); [done|]. intros [= <- <-].
  exists c. split; [done|]. unfold slice. rewrite skipn_firstn_comm. split; [apply prefix_take|]. rewrite Z.leb_le, length_take, length_drop. lia.
Qed.

Lemma descriptor_reads_correct_witness :
  ∃ b' w', vread_batch_nfs example_rpc SendLemmas.example_xdr_len 484 example_batch example_table example_links =
      Done (Ok example_answers, b', w') ∧ w' = example_links ∧
    b' = set_files (set_nfs example_table (nfs b')) (moved_cursors (open_files example_table) (zip example_batch example_answers)).
Proof.
  destruct (descriptor_reads_correct MemFs.spec example_rpc id SendLemmas.example_xdr_len (MemTree.content example_links) example_batch
    example_table example_links 484) as (r & b' & w' & E & Hw & H).
  - apply ServerLemmas.spec_server_transport; [apply MemFs.mem_spec_ok|reflexivity].
  - apply ServerLemmas.spec_server_implements, MemFs.mem_spec_ok.
  - apply mem_shows.
  - exact (proj1 example_usable).
  - apply (bool_decide_unpack _). vm_compute. exact I.
  - repeat constructor; cbn; eauto; lia.
  - repeat constructor; cbn; lia.
  - change (most_reads example_batch) with 20. unfold USIZE_MAX, U64_MAX. lia.
  - change (most_reads example_batch) with 20. lia.
  - assert (Hr : match vread_batch_nfs example_rpc SendLemmas.example_xdr_len 484 example_batch example_table example_links with
      Done (v, _, _) => v = Ok example_answers | _ => False end) by (vm_compute; reflexivity).
    rewrite E in Hr. subst r. exists b', w'. split; [exact E|]. split; [exact Hw|exact (proj2 (proj2 H))].
Defined.
