(* ===== verification/DescriptorWrite.v ===== *)
(** * Vectored writes through open files: the waves

    Models [vwrite_batch_nfs] of [crates/vfsi-nfs/src/nfs/io.rs]: the requests
    are planned and cut into chunks, and sent in waves.  A wave takes the requests
    in order until one depends on a request of the wave: writes to one file go
    into one wave only if they are positional and do not overlap.  The suffixes
    the server did not take go into later waves.  The vectors of the code that are
    indexed by request are the fields of [pending] here, those indexed by chunk
    the fields of [chunk], and a chunk is named by its request and its place in
    it. *)
From Stdlib Require Import Strings.Byte.
From stdpp Require Import base numbers countable list list_numbers gmap strings.
From S2P Require Import Prelude Path Errors Types Planner Compound Session Cursor Client IoProgress Loops Exchange Server Batch BatchOps BatchRun Resolve Single BatchSpec Reads Mutations Opens Lifecycle Remove Merged PathIo PathSpec Metadata StdPath Backend Namespace DescriptorIo.

(** ** Data *)

(** [vfsi_core::WriteOp] and [WriteResult]. *)
Record FileWrite := MakeWrite { fw_file : FileOperand; fw_offset : VfOffset; fw_data : bytes }.
Record WriteResult := MakeWriteResult { wres_file : FileOperand; wres_offset : Z; bytes_written : Z; wres_stable : bool }.

(** One element of [ops], [progress] and [complete]. *)
Record chunk := Chunk { ck_offset : Z; ck_data : bytes; ck_progress : Z; ck_complete : bool }.
(** One element of the vectors indexed by request. *)
Record pending := Pending {
  pd_write : FileWrite;
  pd_offset : Z;
  pd_fh : nfs_fh4;
  pd_stateid : stateid4;
  pd_predecessor : bool;
  pd_positional : bool;
  pd_chunks : list chunk;
  pd_next : nat;          (* [next_chunks], from the first chunk of the request *)
  pd_prefix : Z;          (* [complete_prefix] *)
  pd_done : bool;
  pd_activated : bool;
  pd_stable : bool;
}.
Definition pd_length (p : pending) : Z := Z.of_nat (length (fw_data (pd_write p))).
Definition set_placed (p : pending) (offset : Z) (chunks : list chunk) : pending :=
  Pending (pd_write p) offset (pd_fh p) (pd_stateid p) (pd_predecessor p) (pd_positional p) chunks (pd_next p) (pd_prefix p)
    (pd_done p) true (pd_stable p).
Definition set_written (p : pending) (chunks : list chunk) (stable : bool) : pending :=
  Pending (pd_write p) (pd_offset p) (pd_fh p) (pd_stateid p) (pd_predecessor p) (pd_positional p) chunks (pd_next p) (pd_prefix p)
    (pd_done p) (pd_activated p) stable.
Definition set_settled (p : pending) (next : nat) (prefix : Z) (done : bool) : pending :=
  Pending (pd_write p) (pd_offset p) (pd_fh p) (pd_stateid p) (pd_predecessor p) (pd_positional p) (pd_chunks p) next prefix
    done (pd_activated p) (pd_stable p).

(** A wave being filled: [selected] with [owners], [bytes], [active_files]. *)
Record wave := MakeWave { wv_selected : list (nat * nat); wv_bytes : Z; wv_files : gmap bytes WriteWaveAccess.t }.

(** ** Planning *)

(** [for part in (0..len.max(1)).step_by(per)]. *)
Definition chunks_of (per offset : Z) (data : bytes) : list chunk :=
  let len := Z.of_nat (length data) in
  (λ k, let part := k * per in
        Chunk (offset + part) (slice (Z.to_nat part) (Z.to_nat (Z.min len (sat_add part per))) data) 0 false)
    <$> seqZ 0 ((Z.max len 1 + per - 1) / per).

(** The offsets of the chunks again, for a request that starts at [offset]. *)
Fixpoint place (offset : Z) (chunks : list chunk) : list chunk :=
  match chunks with
  | [] => []
  | c :: cs => Chunk offset (ck_data c) (ck_progress c) (ck_complete c) :: place (offset + Z.of_nat (length (ck_data c))) cs
  end.

Definition is_at (off : VfOffset) : bool := match off with At _ => true | _ => false end.

Section Io.
Context {W : Type} (rpc : Compound.t → W → RpcResult COMPOUND4res * W) (xdr_len : Compound.t → Z).

Definition write_offset (file : FileOperand) (off : VfOffset) : op W Z :=
  offset ← resolve_offset rpc xdr_len file off;
  append_fh ← gets (λ b,
    match FileOperand.fd file with
    | Some fd => o ← open_files b !! fd; if os_append o then Some (os_fh o) else None
    | None => None
    end);
  match append_fh with
  | Some fh => file_size rpc xdr_len fh
  | None => ret offset
  end.

Definition plan_write (per : Z) (x : nat * FileWrite) (st : gset bytes * list pending) : op W (gset bytes * list pending) :=
  let '(k, r) := x in
  let '(seen, ps) := st in
  let i := Z.of_nat k in
  offset ← map_err (λ e, VfError.with_index e i) (write_offset (fw_file r) (fw_offset r));
  match checked_add offset (Z.of_nat (length (fw_data r))) with
  | None => fail (overflow i)
  | Some _ =>
      fd ← expect (FileOperand.fd (fw_file r));
      o ← gets (λ b, open_files b !! fd);
      match o with
      | None => fail (VfError.errno (Some i) EBADF)
      | Some o =>
          let p := Pending r offset (os_fh o) (os_stateid o) (bool_decide (os_fh o ∈ seen)) (is_at (fw_offset r) && negb (os_append o))
                     (chunks_of per offset (fw_data r)) 0 0 false false true in
          ret ({[os_fh o]} ∪ seen, ps ++ [p])
      end
  end.

(** ** One wave *)

(** Whether the request joins the wave, and the files of the wave with it. *)
Definition joins (files : gmap bytes WriteWaveAccess.t) (p : pending) : option (gmap bytes WriteWaveAccess.t) :=
  let range := (pd_offset p, pd_offset p + pd_length p) in
  match files !! pd_fh p with
  | None => Some (<[pd_fh p := WriteWaveAccess.new range (pd_positional p)]> files)
  | Some access =>
      let '(ok, access) := WriteWaveAccess.admit_ access range (pd_positional p) in
      if ok then Some (<[pd_fh p := access]> files) else None
  end.

(** [if !activated[index]]: the offset is found again after earlier writes to
    the file. *)
Definition activate (k : nat) (p : pending) : op W pending :=
  if pd_activated p then ret p
  else
    offset ← (if pd_predecessor p && negb (pd_positional p)
              then map_err (λ e, VfError.with_index e (Z.of_nat k)) (write_offset (fw_file (pd_write p)) (fw_offset (pd_write p)))
              else ret (pd_offset p));
    match checked_add offset (pd_length p) with
    | None => fail (overflow (Z.of_nat k))
    | Some _ => ret (set_placed p offset (place offset (pd_chunks p)))
    end.

(** The chunks of one request; [true] if the wave is full. *)
Fixpoint pick (limit : Z) (k j : nat) (chunks : list chunk) (selected : list (nat * nat)) (bytes : Z) : bool * list (nat * nat) * Z :=
  match chunks with
  | [] => (false, selected, bytes)
  | c :: chunks =>
      if ck_complete c then pick limit k (S j) chunks selected bytes
      else
        let next := sat_add (Z.of_nat (length (ck_data c)) - ck_progress c) 256 in
        if negb (bool_decide (selected = [])) && (limit <? sat_add bytes next) then (true, selected, bytes)
        else pick limit k (S j) chunks (selected ++ [(k, j)]) (sat_add bytes next)
  end.

(** ['requests: for (index, request) in writes.iter().enumerate()]. *)
Fixpoint select (limit : Z) (k : nat) (todo : list pending) (wv : wave) : op W (list pending * wave) :=
  match todo with
  | [] => ret ([], wv)
  | p :: todo =>
      if pd_done p then
        '(rest, wv) ← select limit (S k) todo wv;
        ret (p :: rest, wv)
      else
        match joins (wv_files wv) p with
        | None => ret (p :: todo, wv)
        | Some files =>
            p ← activate k p;
            let '(full, selected, bytes) := pick limit k (pd_next p) (drop (pd_next p) (pd_chunks p)) (wv_selected wv) (wv_bytes wv) in
            let wv := MakeWave selected bytes files in
            if full then ret (p :: todo, wv)
            else
              '(rest, wv) ← select limit (S k) todo wv;
              ret (p :: rest, wv)
        end
  end.

Definition wire_op (ps : list pending) (x : nat * nat) : option WriteOp :=
  p ← ps !! x.1;
  c ← pd_chunks p !! x.2;
  Some (Write (pd_fh p) (pd_stateid p) (ck_offset c + ck_progress c) (drop (Z.to_nat (ck_progress c)) (ck_data c))).

(** What the server took of one chunk. *)
Definition absorb (x : nat * nat * (Z * Z)) (ps : list pending) : op W (list pending) :=
  let '((k, j), (count, committed)) := x in
  p ← expect (ps !! k);
  c ← expect (pd_chunks p !! j);
  let remaining := Z.of_nat (length (ck_data c)) - ck_progress c in
  if (remaining <? count) || ((count =? 0) && negb (remaining =? 0)) then fail (VfError.errno (Some (Z.of_nat k)) EIO)
  else
    let progress := ck_progress c + count in
    let c' := Chunk (ck_offset c) (ck_data c) progress (progress =? Z.of_nat (length (ck_data c))) in
    ret (<[k := set_written p (<[j := c']> (pd_chunks p)) (pd_stable p && (committed =? FILE_SYNC4))]> ps).

(** [while next_chunks[index] < end && complete[next_chunks[index]]]. *)
Fixpoint complete_run (chunks : list chunk) (next : nat) (prefix : Z) : nat * Z :=
  match chunks with
  | c :: chunks => if ck_complete c then complete_run chunks (S next) (prefix + Z.of_nat (length (ck_data c))) else (next, prefix)
  | [] => (next, prefix)
  end.

Definition settle (p : pending) (ps : list pending) : op W (list pending) :=
  if negb (pd_activated p) || pd_done p then ret (ps ++ [p])
  else
    let '(next, prefix) := complete_run (drop (pd_next p) (pd_chunks p)) (pd_next p) (pd_prefix p) in
    let done := bool_decide (next = length (pd_chunks p)) in
    part ← (if done then ret 0 else c ← expect (pd_chunks p !! next); ret (ck_progress c));
    _ ← match fw_offset (pd_write p) with
        | Cur => advance_offset (fw_file (pd_write p)) (pd_offset p + (prefix + part))
        | _ => ret tt
        end;
    ret (ps ++ [set_settled p next prefix done]).

Definition write_wave (fuel : nat) (limit : Z) (ps : list pending) : op W (list pending) :=
  '(ps, wv) ← select limit 0 ps (MakeWave [] 0 ∅);
  wire_ops ← expect (mapM (wire_op ps) (wv_selected wv));
  results ← client (λ cl w, writev rpc xdr_len fuel cl wire_ops w)
    (λ e, VfError.map_index (error_from_rpc_indexed e) (λ i, default i (Z.of_nat ∘ fst <$> wv_selected wv !! Z.to_nat i)));
  if negb (bool_decide (length results = length (wv_selected wv))) then fail (VfError.transport None "malformed descriptor WRITE reply")
  else
    ps ← for_each absorb (zip (wv_selected wv) results) ps;
    for_each settle ps [].

Definition write_result (p : pending) : WriteResult :=
  MakeWriteResult (fw_file (pd_write p)) (pd_offset p) (pd_length p) (pd_stable p).

(** As many waves as there are bytes and chunks. *)
Definition waves_needed (ps : list pending) : nat :=
  sum_list_with (λ p, length (fw_data (pd_write p)) + length (pd_chunks p))%nat ps.

Definition vwrite_batch_nfs (fuel : nat) (writes : list FileWrite) : op W (list WriteResult) :=
  per ← gets (λ b, NfsClient.per_op_bytes (nfs b));
  '(_, ps) ← for_each (plan_write per) (imap pair writes) (∅, []);
  limit ← gets (λ b, sat_sub (NfsClient.max_request_arg_bytes (nfs b)) 1024);
  ps ← while_ (waves_needed ps) (existsb (negb ∘ pd_done)) (write_wave fuel limit) ps;
  ret (write_result <$> ps).
End Io.
