(* ===== verification/WriteSpec.v ===== *)
(** * Writes to a file, one after the other

    What a write does to the bytes of a file, when two writes commute, and a
    batch of writes through open files done one after the other: the reference
    for the waves of [DescriptorWrite]. *)
From Stdlib Require Import Strings.Byte.
From stdpp Require Import base numbers countable list list_numbers gmap strings.
From S2P Require Import Prelude Path Errors Types Planner Compound Session Cursor Client IoProgress Loops Exchange Server Batch BatchOps BatchRun Resolve Single BatchSpec Reads Mutations Opens Lifecycle Remove Merged PathIo PathSpec Metadata StdPath Backend Namespace DescriptorIo DescriptorWrite.

(** ** The bytes of a file *)

(** A write past the end leaves zeros in between; a write of nothing has no
    effect. *)
Definition write_at (c : bytes) (o : nat) (d : bytes) : bytes :=
  if d is [] then c else take o c ++ replicate (o - length c) Byte.x00 ++ d ++ drop (o + length d) c.
Definition write_all (c : bytes) (l : list (nat * bytes)) : bytes := foldl (λ c x, write_at c x.1 x.2) c l.

(** Neither write touches a byte of the other. *)
Definition apart (x y : nat * bytes) : Prop :=
  x.2 = [] ∨ y.2 = [] ∨ (x.1 + length x.2 <= y.1)%nat ∨ (y.1 + length y.2 <= x.1)%nat.

(** ** The batch, one write after the other *)

(** The contents of the files and the open files. *)
Record store := Store { st_view : nfs_fh4 → bytes; st_files : gmap Z NfsOpenState }.

(** Where a write starts. *)
Definition seq_offset (st : store) (o : NfsOpenState) (off : VfOffset) : Z :=
  let size := Z.of_nat (length (st_view st (os_fh o))) in
  if os_append o then size else match off with At x => x | Cur => os_cur_offset o | End_ => size end.
Definition seq_write (st : store) (r : FileWrite) : option (Z * store) :=
  fd ← FileOperand.fd (fw_file r);
  o ← st_files st !! fd;
  let off := seq_offset st o (fw_offset r) in
  Some (off, Store
    (λ x, if decide (x = os_fh o) then write_at (st_view st x) (Z.to_nat off) (fw_data r) else st_view st x)
    (match fw_offset r with
     | Cur => alter (λ o, set_cur_offset o (off + Z.of_nat (length (fw_data r)))) fd (st_files st)
     | _ => st_files st
     end)).
Fixpoint seq_writes (st : store) (rs : list FileWrite) : option (list Z * store) :=
  match rs with
  | [] => Some ([], st)
  | r :: rs =>
      '(off, st) ← seq_write st r;
      '(offs, st) ← seq_writes st rs;
      Some (off :: offs, st)
  end.

Module WriteAtLemmas.

Lemma length_write_at c o d : length (write_at c o d) = if decide (d = []) then length c else (length c `max` (o + length d))%nat.
Proof.
  destruct d as [|x d]; [done|]. rewrite decide_False by done. unfold write_at.
  rewrite !length_app, length_take, length_replicate, length_drop. cbn [length]. lia.
Qed.

Lemma lookup_write_at c o d p : d ≠ [] →
  write_at c o d !! p =
    if decide (o <= p < o + length d)%nat then d !! (p - o)%nat
    else if decide (p < length c)%nat then c !! p
    else if decide (p < o)%nat then Some Byte.x00 else None.
Proof.
  intros Hd. destruct d as [|x d]; [done|]. unfold write_at. set (e := x :: d).
  destruct (decide (p < o `min` length c)%nat) as [H|H].
  { rewrite lookup_app_l by (lengths). rewrite lookup_take_lt by lia.
    rewrite decide_False by lia. by rewrite decide_True by lia. }
  rewrite lookup_app_r by (lengths). rewrite length_take.
  destruct (decide (p < o)%nat) as [Ho|Ho].
  { rewrite lookup_app_l by (lengths). rewrite lookup_replicate_2 by lia.
    rewrite decide_False by lia. by rewrite decide_False by lia. }
  rewrite lookup_app_r by (lengths). rewrite length_replicate.
  replace (p - o `min` length c - (o - length c))%nat with (p - o)%nat by lia.
  destruct (decide (p < o + length e)%nat) as [He|He].
  { rewrite decide_True by lia. by rewrite lookup_app_l by lia. }
  rewrite decide_False by lia. rewrite lookup_app_r by lia. rewrite lookup_drop.
  replace (o + length e + (p - o - length e))%nat with p by lia.
  destruct (decide (p < length c)%nat); [done|]. apply lookup_ge_None. lia.
Qed.

(** Two contents are compared byte by byte. *)
Ltac bytewise :=
  apply list_eq; intros ?p; rewrite ?lookup_write_at by done;
  rewrite ?length_write_at, ?length_app; repeat case_decide; try done; try lia.

Lemma write_at_app c o d1 d2 : write_at (write_at c o d1) (o + length d1) d2 = write_at c o (d1 ++ d2).
Proof.
  destruct (decide (d1 = [])) as [->|H1]; [by rewrite Nat.add_0_r|]. destruct (decide (d2 = [])) as [->|H2]; [by rewrite app_nil_r|].
  assert (H3 : d1 ++ d2 ≠ []) by (by intros [? ?]%app_eq_nil).
  bytewise.
  - rewrite lookup_app_r by lia. f_equal. lia.
  - by rewrite lookup_app_l by lia.
Qed.

Lemma write_at_commute c x y : apart x y → write_at (write_at c x.1 x.2) y.1 y.2 = write_at (write_at c y.1 y.2) x.1 x.2.
Proof.
  destruct x as [o1 d1], y as [o2 d2]. unfold apart. cbn [fst snd]. intros Hap.
  destruct (decide (d1 = [])) as [->|H1]; [done|]. destruct (decide (d2 = [])) as [->|H2]; [done|].
  destruct Hap as [?|[?|Hap]]; [done..|]. bytewise.
Qed.

Lemma write_all_app c l1 l2 : write_all c (l1 ++ l2) = write_all (write_all c l1) l2.
Proof. apply foldl_app. Qed.

(** A write may be done before the writes it does not touch. *)
Lemma write_all_before c l x : Forall (apart x) l → write_at (write_all c l) x.1 x.2 = write_all (write_at c x.1 x.2) l.
Proof.
  intros Hl. revert c. induction Hl as [|y l Hy _ IH]; intros c; [done|]. cbn [write_all foldl].
  change (write_at (write_all (write_at c y.1 y.2) l) x.1 x.2 = write_all (write_at (write_at c x.1 x.2) y.1 y.2) l).
  rewrite IH. by rewrite (write_at_commute c x y Hy).
Qed.

Lemma write_all_nothing c l : Forall (λ x, x.2 = []) l → write_all c l = c.
Proof. intros Hl. revert c. induction Hl as [|[o d] l Hd _ IH]; intros c; [done|]. cbn in *. by rewrite Hd, IH. Qed.

(** Where the bytes of a file may come from: the file before, a hole past its
    end, or a write. *)
Definition origin (c0 : bytes) (ok : nat → Byte.byte → Prop) (c : bytes) : Prop :=
  ∀ p v, c !! p = Some v → c0 !! p = Some v ∨ v = Byte.x00 ∧ (length c0 <= p)%nat ∨ ok p v.

Lemma origin_write c0 ok c o d : origin c0 ok c → (length c0 <= length c)%nat → (∀ j v, d !! j = Some v → ok (o + j)%nat v) →
  origin c0 ok (write_at c o d) ∧ (length c0 <= length (write_at c o d))%nat.
Proof.
  intros Hc Hlen Hd. destruct (decide (d = [])) as [->|Hne]; [done|].
  split; [|rewrite length_write_at, decide_False by done; lia]. intros p v. rewrite lookup_write_at by done. repeat case_decide; [|apply Hc| |done].
  - intros Hv. apply Hd in Hv. right. right. by replace (o + (p - o))%nat with p in Hv by lia.
  - intros [= <-]. right. left. split; [done|lia].
Qed.
End WriteAtLemmas.

Module SeqLemmas.
Import WriteAtLemmas.

Definition is_cur (off : VfOffset) : bool := match off with Cur => true | _ => false end.
Definition fh_of (files : gmap Z NfsOpenState) (r : FileWrite) : option nfs_fh4 :=
  fd ← FileOperand.fd (fw_file r); os_fh <$> files !! fd.
(** The handles a batch writes through. *)
Definition handles (files : gmap Z NfsOpenState) (rs : list FileWrite) : list nfs_fh4 := omap (fh_of files) rs.
(** What the writes before do to the file [x], and to the cursor of [fd]. *)
Definition writes_on (files : gmap Z NfsOpenState) (x : nfs_fh4) (l : list (FileWrite * Z)) : list (nat * bytes) :=
  omap (λ '(r, off), if decide (fh_of files r = Some x) then Some (Z.to_nat off, fw_data r) else None) l.
Definition cursor_after (fd : Z) (l : list (FileWrite * Z)) (c : Z) : Z :=
  foldl (λ c '(r, off), if is_cur (fw_offset r) && bool_decide (FileOperand.fd (fw_file r) = Some fd)
                        then off + Z.of_nat (length (fw_data r)) else c) c l.

Lemma fh_of_cursors files files' r : (∀ fd, os_fh <$> files' !! fd = os_fh <$> files !! fd) → fh_of files' r = fh_of files r.
Proof. intros H. unfold fh_of. destruct (FileOperand.fd (fw_file r)) as [fd|]; [|done]. exact (H fd). Qed.

Lemma set_cur_twice o a b : set_cur_offset (set_cur_offset o a) b = set_cur_offset o b.
Proof. by destruct o. Qed.
Lemma set_cur_same o : set_cur_offset o (os_cur_offset o) = o.
Proof. by destruct o. Qed.

Lemma seq_write_files st r off st' fd : seq_write st r = Some (off, st') →
  st_files st' !! fd = (λ o, set_cur_offset o (cursor_after fd [(r, off)] (os_cur_offset o))) <$> st_files st !! fd.
Proof.
  unfold seq_write. intros (fd' & Hfd & H)%bind_Some. apply bind_Some in H as (o & Ho & [= <- <-]). cbn [st_files cursor_after foldl]. rewrite Hfd.
  assert (Hid : st_files st !! fd = (λ o, set_cur_offset o (os_cur_offset o)) <$> st_files st !! fd).
  { destruct (st_files st !! fd); [|done]. cbn. by rewrite set_cur_same. }
  destruct (fw_offset r); cbn [is_cur andb]; [done| |done].
  destruct (decide (fd' = fd)) as [->|Hne].
  - rewrite bool_decide_true by done. by rewrite lookup_alter_eq.
  - rewrite bool_decide_false by congruence. by rewrite lookup_alter_ne.
Qed.

Lemma seq_write_view st r off st' x : seq_write st r = Some (off, st') →
  st_view st' x = write_all (st_view st x) (writes_on (st_files st) x [(r, off)]).
Proof.
  unfold seq_write. intros (fd & Hfd & H)%bind_Some. apply bind_Some in H as (o & Ho & [= <- <-]). cbn [st_view writes_on omap list_omap].
  unfold fh_of. rewrite Hfd. cbn [mbind option_bind]. rewrite Ho. cbn [fmap option_fmap option_map].
  destruct (decide (x = os_fh o)) as [->|Hne]; [by rewrite decide_True by done|]. rewrite decide_False by congruence. done.
Qed.

Lemma writes_on_files files files' x l : (∀ fd, os_fh <$> files' !! fd = os_fh <$> files !! fd) → writes_on files' x l = writes_on files x l.
Proof.
  intros H. unfold writes_on. induction l as [|[r off] l IH]; [done|]. cbn [omap list_omap]. by rewrite (fh_of_cursors files files'), IH.
Qed.
Lemma handles_in files rs i r x : rs !! i = Some r → fh_of files r = Some x → x ∈ handles files rs.
Proof. intros Hr Hx. apply list_elem_of_omap. exists r. split; [by eapply list_elem_of_lookup_2|done]. Qed.
Lemma writes_on_none files x rs offs : x ∉ handles files rs → writes_on files x (zip rs offs) = [].
Proof.
  revert offs. induction rs as [|r rs IH]; intros [|off offs] Hx; [done..|]. unfold handles in Hx. cbn [omap list_omap] in Hx.
  cbn [zip zip_with writes_on omap list_omap]. case_decide as E; [rewrite E in Hx; by destruct Hx; left|].
  apply IH. intros H. apply Hx. destruct (fh_of files r); [by right|done].
Qed.
Lemma writes_on_app files x l1 l2 : writes_on files x (l1 ++ l2) = writes_on files x l1 ++ writes_on files x l2.
Proof. apply omap_app. Qed.

(** The store after some writes, by their offsets. *)
Lemma seq_writes_char st rs offs st' : seq_writes st rs = Some (offs, st') →
  length offs = length rs ∧
  (∀ x, st_view st' x = write_all (st_view st x) (writes_on (st_files st) x (zip rs offs))) ∧
  (∀ fd, st_files st' !! fd = (λ o, set_cur_offset o (cursor_after fd (zip rs offs) (os_cur_offset o))) <$> st_files st !! fd).
Proof.
  revert st offs. induction rs as [|r rs IH]; intros st offs; cbn [seq_writes].
  { intros [= <- <-]. split; [done|]. split; [done|]. intros fd. destruct (st_files st !! fd) as [o|]; [|done]. cbn. by rewrite set_cur_same. }
  intros ([off st1] & H1 & H)%bind_Some. apply bind_Some in H as ([offs1 st2] & H2 & [= <- <-]).
  destruct (IH _ _ H2) as (Hlen & Hview & Hfiles).
  assert (Hf : ∀ fd, st_files st1 !! fd = (λ o, set_cur_offset o (cursor_after fd [(r, off)] (os_cur_offset o))) <$> st_files st !! fd)
    by (intros fd; by apply seq_write_files).
  split; [cbn; by rewrite Hlen|]. change (zip (r :: rs) (off :: offs1)) with ([(r, off)] ++ zip rs offs1). split.
  - intros x. rewrite Hview, writes_on_app, write_all_app, (seq_write_view _ _ _ _ x H1). f_equal. apply writes_on_files.
    intros fd. rewrite Hf. by destruct (st_files st !! fd).
  - intros fd. rewrite Hfiles, Hf. destruct (st_files st !! fd) as [o|]; [|done]. cbn [fmap option_fmap option_map]. rewrite set_cur_twice.
    cbn [os_cur_offset set_cur_offset]. unfold cursor_after at 3. by rewrite foldl_app.
Qed.

(** The batch up to a write, and that write. *)
Lemma seq_writes_at st rs offs st' i r : seq_writes st rs = Some (offs, st') → rs !! i = Some r →
  ∃ sti off fd o, seq_writes st (take i rs) = Some (take i offs, sti) ∧ offs !! i = Some off ∧ FileOperand.fd (fw_file r) = Some fd ∧
    st_files sti !! fd = Some o ∧ off = seq_offset sti o (fw_offset r).
Proof.
  revert st offs i. induction rs as [|r' rs IH]; intros st offs i; [done|]. cbn [seq_writes].
  intros ([off st1] & H1 & H)%bind_Some. apply bind_Some in H as ([offs1 st2] & H2 & [= <- <-]). destruct i as [|i]; cbn [lookup list_lookup].
  - intros [= ->]. cbn [take]. pose proof H1 as H3. unfold seq_write in H3. apply bind_Some in H3 as (fd & Hfd & H3).
    apply bind_Some in H3 as (o & Ho & [= <- _]). by exists st, (seq_offset st o (fw_offset r)), fd, o.
  - intros Hr. destruct (IH _ _ _ H2 Hr) as (sti & off' & fd & o & Hi & Ho & Hfd & Hfile & Hoff). exists sti, off', fd, o.
    split; [|done]. cbn [take seq_writes]. rewrite H1. cbn [mbind option_bind]. by rewrite Hi.
Qed.

(** Two stores that agree on the handles of a batch do so after it. *)
Definition agree (hs : list nfs_fh4) (st st' : store) : Prop := st_files st = st_files st' ∧ ∀ x, x ∈ hs → st_view st x = st_view st' x.

Lemma seq_write_agree hs st st' r off st1 : agree hs st st' → (∀ x, fh_of (st_files st) r = Some x → x ∈ hs) →
  seq_write st r = Some (off, st1) → ∃ st1', seq_write st' r = Some (off, st1') ∧ agree hs st1 st1'.
Proof.
  intros [Hf Hv] Hr (fd & Hfd & H)%bind_Some. apply bind_Some in H as (o & Ho & [= <- <-]).
  assert (Hx : os_fh o ∈ hs) by (apply Hr; unfold fh_of; rewrite Hfd; cbn; by rewrite Ho).
  assert (Hoff : seq_offset st' o (fw_offset r) = seq_offset st o (fw_offset r)) by (unfold seq_offset; by rewrite (Hv _ Hx)).
  unfold seq_write. rewrite Hfd. cbn [mbind option_bind]. rewrite <-Hf, Ho. cbn [mbind option_bind]. eexists. rewrite Hoff. split; [done|].
  split; [done|]. intros x Hin. cbn [st_view]. by rewrite (Hv _ Hin).
Qed.
Lemma seq_writes_agree hs rs : ∀ st st' offs last, agree hs st st' → (∀ x, x ∈ handles (st_files st) rs → x ∈ hs) →
  seq_writes st rs = Some (offs, last) → ∃ last', seq_writes st' rs = Some (offs, last') ∧ agree hs last last'.
Proof.
  induction rs as [|r rs IH]; intros st st' offs last Ha Hin; cbn [seq_writes]; [intros [= <- <-]; by exists st'|].
  intros ([off st1] & H1 & H)%bind_Some. apply bind_Some in H as ([offs1 st2] & H2 & [= <- <-]).
  destruct (seq_write_agree hs st st' r off st1 Ha) as (st1' & -> & Ha1); [|done|].
  { intros x Hx. apply Hin. unfold handles. cbn [omap list_omap]. rewrite Hx. by left. }
  destruct (IH st1 st1' offs1 st2 Ha1) as (last' & E & Hl); [|done|cbn [mbind option_bind]; rewrite E; cbn [mbind option_bind]; by eexists].
  intros x Hx. apply Hin. unfold handles in *. cbn [omap list_omap].
  assert (Hx' : x ∈ omap (fh_of (st_files st)) rs).
  { apply list_elem_of_omap in Hx as (r' & Hr' & Hx). apply list_elem_of_omap. exists r'. split; [done|]. rewrite <-Hx. symmetry.
    apply fh_of_cursors. intros fd. rewrite (seq_write_files _ _ _ _ fd H1). by destruct (st_files st !! fd). }
  destruct (fh_of (st_files st) r); [by right|done].
Qed.

Lemma seq_writes_defined st rs : (∀ r, r ∈ rs → is_Some (fh_of (st_files st) r)) → is_Some (seq_writes st rs).
Proof.
  revert st. induction rs as [|r rs IH]; intros st H; [by eexists|]. cbn [seq_writes].
  assert (∃ off st1, seq_write st r = Some (off, st1)) as (off & st1 & H1).
  { destruct (H r ltac:(left)) as [fh (fd & Hfd & (o & Ho & _)%fmap_Some)%bind_Some]. unfold seq_write. rewrite Hfd. cbn [mbind option_bind].
    change nfs_fh4 with bytes. rewrite Ho. cbn [mbind option_bind]. eauto. }
  rewrite H1. cbn [mbind option_bind]. destruct (IH st1) as [[offs st2] ->]; [|by eexists].
  intros r' Hr'. rewrite (fh_of_cursors (st_files st)); [apply H; by right|]. intros fd. rewrite (seq_write_files _ _ _ _ fd H1).
  by destruct (st_files st !! fd).
Qed.
End SeqLemmas.
