(* ===== verification/WriteWaves.v ===== *)
(** * Vectored writes through open files, as the writes one after the other

    The theorem about [vwrite_batch_nfs]: however the batch is cut into chunks,
    packed into waves and completed after short writes, it leaves the files and
    the cursors as its writes done one after the other do.  A wave holds only
    writes that do not touch each other, so each write the server does may be
    moved back to its place in the sequence. *)
From Stdlib Require Import Strings.Byte.
From stdpp Require Import base numbers countable list list_numbers gmap strings.
From S2P Require Import Prelude Path Errors Types Planner Compound Session Cursor Client IoProgress Loops Exchange Server Batch BatchOps BatchRun Resolve Single BatchSpec Reads Mutations Opens Lifecycle Remove Merged PathIo PathSpec Metadata StdPath Backend Namespace DescriptorIo DescriptorWrite WriteSpec.

(** What WRITE does to the files of a service, and the size it reports.  Two
    handles may be of one object (RFC 8881, section 10.3.4): [object] says of
    which, and the contents are those of the objects.  The server may take fewer
    bytes than it is sent. *)
Record stores {F O} `{EqDecision O} (s : nfs_spec F) (object : nfs_fh4 → O) (content : F → O → bytes) : Prop := {
  sw_write f x st off how data f' n level : sp_write s f x st off how data = Ok (f', (n, level)) →
    0 <= n ∧ ∀ y, content f' y =
      if decide (y = object x) then write_at (content f (object x)) (Z.to_nat off) (take (Z.to_nat n) data) else content f y;
  sw_size f x v n k : sp_getattr s f x (Compound.bitmap [FATTR4_SIZE]) = Ok v → read_u64 v.2 0 = Ok (n, k) →
    n = Z.of_nat (length (content f (object x)));
}.

(** The same of the contents behind handles, for the handles [hs], no two of
    which are of one object. *)
Record stores_through {F} (hs : list nfs_fh4) (s : nfs_spec F) (content : F → nfs_fh4 → bytes) : Prop := {
  st_write f x st off how data f' n level : x ∈ hs → sp_write s f x st off how data = Ok (f', (n, level)) →
    0 <= n ∧ ∀ y, content f' y = if decide (y = x) then write_at (content f x) (Z.to_nat off) (take (Z.to_nat n) data) else content f y;
  st_size f x v n k : x ∈ hs → sp_getattr s f x (Compound.bitmap [FATTR4_SIZE]) = Ok v → read_u64 v.2 0 = Ok (n, k) →
    n = Z.of_nat (length (content f x));
}.

Module WaveProofs.
Import ExchangeLemmas ServerLemmas SingleLemmas BatchSpecLemmas NamespaceLemmas MutationLemmas DescriptorLemmas WriteAtLemmas SeqLemmas.

(** ** Chunks *)

Definition chunk_ok (c : chunk) : Prop :=
  0 <= ck_progress c <= Z.of_nat (length (ck_data c)) ∧ (ck_complete c = true → ck_progress c = Z.of_nat (length (ck_data c))).
Definition fresh_chunk (c : chunk) : Prop := ck_progress c = 0 ∧ ck_complete c = false.
(** What the server has of a chunk. *)
Definition piece (c : chunk) : nat * bytes := (Z.to_nat (ck_offset c), take (Z.to_nat (ck_progress c)) (ck_data c)).
Definition data_of (cs : list chunk) : bytes := mjoin (ck_data <$> cs).

Lemma data_cons c cs : data_of (c :: cs) = ck_data c ++ data_of cs.
Proof. done. Qed.
Lemma data_split cs j c : cs !! j = Some c → data_of cs = data_of (take j cs) ++ ck_data c ++ data_of (drop (S j) cs).
Proof. intros Hj. rewrite <-(take_drop_middle cs j c Hj) at 1. unfold data_of. by rewrite fmap_app, join_app. Qed.
Lemma data_place off cs : data_of (place off cs) = data_of cs.
Proof. revert off. induction cs as [|c cs IH]; intros off; [done|]. cbn [place]. by rewrite !data_cons, IH. Qed.
Lemma place_place off off' cs : place off (place off' cs) = place off cs.
Proof. revert off off'. induction cs as [|c cs IH]; intros off off'; [done|]. cbn [place ck_data]. by rewrite IH. Qed.
Lemma length_place off cs : length (place off cs) = length cs.
Proof. revert off. induction cs as [|c cs IH]; intros off; [done|]. cbn. by rewrite IH. Qed.
Lemma place_app off cs cs' : place off (cs ++ cs') = place off cs ++ place (off + Z.of_nat (length (data_of cs))) cs'.
Proof.
  revert off. induction cs as [|c cs IH]; intros off; cbn [app place]; [by rewrite Z.add_0_r|].
  rewrite IH, data_cons, length_app, Nat2Z.inj_add. do 3 f_equal. lia.
Qed.
Lemma take_place off cs n : take n (place off cs) = place off (take n cs).
Proof. revert off n. induction cs as [|c cs IH]; intros off [|n]; [done..|]. cbn. by rewrite IH. Qed.
Lemma lookup_place off cs j : ∃ o, place off cs !! j = (λ c, Chunk o (ck_data c) (ck_progress c) (ck_complete c)) <$> cs !! j.
Proof. revert off j. induction cs as [|c cs IH]; intros off [|j]; [by exists 0..|by exists off|apply IH]. Qed.
Lemma Forall_place (P : chunk → Prop) off cs : (∀ c o, P c → P (Chunk o (ck_data c) (ck_progress c) (ck_complete c))) →
  Forall P cs → Forall P (place off cs).
Proof. intros HP. revert off. induction cs as [|c cs IH]; intros off H; [done|]. apply Forall_cons in H as [? ?]. constructor; auto. Qed.
Lemma place_insert off cs j c c' : place off cs = cs → cs !! j = Some c → ck_data c' = ck_data c → ck_offset c' = ck_offset c →
  place off (<[j := c']> cs) = <[j := c']> cs.
Proof.
  revert off j. induction cs as [|d cs IH]; intros off [|j] Hp Hj Hd Ho; [done..| |]; cbn in Hp, Hj |- *; injection Hp as Hc Hp.
  - injection Hj as ->. rewrite Hd, Hp. f_equal. destruct c', c. cbn in *. congruence.
  - rewrite IH by done. by f_equal.
Qed.
(** A chunk in its place. *)
Lemma placed_at off cs j c : place off cs = cs → cs !! j = Some c →
  ck_offset c = off + Z.of_nat (length (data_of (take j cs))) ∧
  place (ck_offset c + Z.of_nat (length (ck_data c))) (drop (S j) cs) = drop (S j) cs.
Proof.
  intros Hp Hj. rewrite <-(take_drop_middle cs j c Hj) in Hp at 1 2. rewrite place_app in Hp.
  apply app_inj_1 in Hp as [_ Hp]; [|apply length_place]. cbn [place] in Hp. injection Hp as Hc Hrest. rewrite <-Hc at 1 2. cbn [ck_offset ck_data].
  split; [done|]. by rewrite <-Hc in Hrest.
Qed.

Lemma pieces_fresh c cs : Forall fresh_chunk cs → write_all c (piece <$> cs) = c.
Proof.
  intros H. apply write_all_nothing, Forall_fmap. eapply Forall_impl; [exact H|]. intros d [Hd _]. unfold piece. cbn. by rewrite Hd.
Qed.

Lemma pieces_whole c off cs : 0 <= off → place off cs = cs → Forall (λ d, ck_progress d = Z.of_nat (length (ck_data d))) cs →
  write_all c (piece <$> cs) = write_at c (Z.to_nat off) (data_of cs).
Proof.
  revert c off. induction cs as [|d cs IH]; intros c off Hoff Hp Hall; [done|]. apply Forall_cons in Hall as [Hd Hall].
  cbn [place] in Hp. injection Hp as Hd' Hp. cbn [fmap list_fmap write_all foldl].
  change (write_all (write_at c (piece d).1 (piece d).2) (piece <$> cs) = write_at c (Z.to_nat off) (data_of (d :: cs))).
  rewrite (IH _ (off + Z.of_nat (length (ck_data d)))); [|lia|done|done]. rewrite data_cons, <-write_at_app.
  assert (Hpiece : piece d = (Z.to_nat off, ck_data d)).
  { unfold piece. rewrite Hd, Nat2Z.id, take_ge by done. by rewrite <-Hd'. }
  rewrite Hpiece. cbn [fst snd]. f_equal. lia.
Qed.

(** A write that goes on where an earlier one stopped. *)
Lemma write_all_grow c l1 o d l2 d' : Forall (apart ((o + length d)%nat, d')) l2 →
  write_at (write_all c (l1 ++ (o, d) :: l2)) (o + length d) d' = write_all c (l1 ++ (o, d ++ d') :: l2).
Proof.
  intros Hl. rewrite !write_all_app. cbn [write_all foldl]. set (c1 := write_all c l1).
  change (write_at (write_all (write_at c1 o d) l2) ((o + length d)%nat, d').1 ((o + length d)%nat, d').2 = write_all (write_at c1 o (d ++ d')) l2).
  rewrite write_all_before by done. cbn [fst snd]. by rewrite write_at_app.
Qed.

(** Where the bytes of a piece lie. *)
Lemma piece_length c : chunk_ok c → length (piece c).2 = Z.to_nat (ck_progress c).
Proof. intros [H _]. unfold piece. cbn. lengths. Qed.
Lemma placed_within off cs j c : place off cs = cs → cs !! j = Some c →
  off <= ck_offset c ∧ ck_offset c + Z.of_nat (length (ck_data c)) <= off + Z.of_nat (length (data_of cs)).
Proof.
  intros Hp Hj. destruct (placed_at _ _ _ _ Hp Hj) as [-> _]. rewrite (data_split _ _ _ Hj), !length_app. lia.
Qed.

(** ** Requests *)

Definition pd_range (p : pending) : Z * Z := (pd_offset p, pd_offset p + pd_length p).
(** Two requests that may be under way at the same time. *)
Definition compatible (p q : pending) : Prop :=
  pd_positional p = true ∧ pd_positional q = true ∧ WaveLemmas.overlap (pd_range p) (pd_range q) = false.

(** The bytes from the offset on that the server has, as the cursor counts them. *)
Definition contiguous_bytes (p : pending) : Z :=
  pd_prefix p + (if pd_done p then 0 else from_option ck_progress 0 (pd_chunks p !! pd_next p)).
Definition pieces_on (x : nfs_fh4) (ps : list pending) : list (nat * bytes) :=
  mjoin ((λ p, if decide (pd_fh p = x) then piece <$> pd_chunks p else []) <$> ps).
Definition at_cursor (fd : Z) (p : pending) : bool :=
  is_cur (fw_offset (pd_write p)) && bool_decide (FileOperand.fd (fw_file (pd_write p)) = Some fd).
Definition cursor_of (fd : Z) (ps : list pending) (c : Z) : Z :=
  foldl (λ c p, if pd_activated p && at_cursor fd p then pd_offset p + contiguous_bytes p else c) c ps.

Lemma pieces_on_app x l1 l2 : pieces_on x (l1 ++ l2) = pieces_on x l1 ++ pieces_on x l2.
Proof. unfold pieces_on. by rewrite fmap_app, join_app. Qed.
Lemma pieces_on_one x p : pieces_on x [p] = if decide (pd_fh p = x) then piece <$> pd_chunks p else [].
Proof. apply app_nil_r. Qed.
Lemma cursor_of_app fd l1 l2 c : cursor_of fd (l1 ++ l2) c = cursor_of fd l2 (cursor_of fd l1 c).
Proof. apply foldl_app. Qed.

Section Waves.
Context {F : Type} (content : F → nfs_fh4 → bytes) (f0 : F) (files0 : gmap Z NfsOpenState).
Context (rs : list FileWrite) (offs : list Z) (last : store).
Context (Hseq : seq_writes (Store (content f0) files0) rs = Some (offs, last)).

Record request_ok (i : nat) (p : pending) : Prop := {
  rq_write : rs !! i = Some (pd_write p);
  rq_open : ∃ fd o, fw_file (pd_write p) = Fd fd ∧ files0 !! fd = Some o ∧ pd_fh p = os_fh o ∧
    pd_positional p = is_at (fw_offset (pd_write p)) && negb (os_append o);
  rq_first : pd_predecessor p = false → ∀ k r, (k < i)%nat → rs !! k = Some r → fh_of files0 r ≠ Some (pd_fh p);
  rq_data : data_of (pd_chunks p) = fw_data (pd_write p);
  rq_chunks : Forall chunk_ok (pd_chunks p);
  rq_next : Forall (λ c, ck_complete c = true) (take (pd_next p) (pd_chunks p));
  rq_prefix : pd_prefix p = Z.of_nat (length (data_of (take (pd_next p) (pd_chunks p))));
  rq_bound : (pd_next p <= length (pd_chunks p))%nat;
  rq_done : pd_done p = true → pd_next p = length (pd_chunks p);
  rq_active : if pd_activated p then offs !! i = Some (pd_offset p) ∧ place (pd_offset p) (pd_chunks p) = pd_chunks p
    else Forall fresh_chunk (pd_chunks p) ∧ pd_done p = false;
  rq_known : pd_positional p = true ∨ pd_predecessor p = false → offs !! i = Some (pd_offset p);
  rq_offset : 0 <= pd_offset p;
}.

(** A request that is not done has a chunk to send next. *)
Definition unfinished (p : pending) : Prop := pd_done p = false → ∃ c, pd_chunks p !! pd_next p = Some c ∧ ck_complete c = false.

Definition requests_ok (ps : list pending) : Prop :=
  length ps = length rs ∧ ∀ i p, ps !! i = Some p → request_ok i p.
Definition exclusive (ps : list pending) : Prop := ∀ i k p q, (i < k)%nat → ps !! i = Some p → ps !! k = Some q →
  pd_fh p = pd_fh q → pd_activated q = true → pd_done p = true ∨ compatible p q.
Definition written (ps : list pending) (f : F) : Prop := ∀ x, content f x = write_all (content f0 x) (pieces_on x ps).
Definition cursors (ps : list pending) (b : NfsVecFs) : Prop :=
  ∀ fd, open_files b !! fd = (λ o, set_cur_offset o (cursor_of fd ps (os_cur_offset o))) <$> files0 !! fd.

(** *** Requests that are done *)

Lemma done_progress i p : request_ok i p → pd_done p = true →
  pd_activated p = true ∧ Forall (λ c, ck_progress c = Z.of_nat (length (ck_data c))) (pd_chunks p) ∧ contiguous_bytes p = pd_length p.
Proof.
  intros H Hd. pose proof (rq_done _ _ H Hd) as Hn. pose proof (rq_active _ _ H) as Ha.
  split; [destruct (pd_activated p); [done|]; destruct Ha; congruence|]. split.
  - pose proof (rq_next _ _ H) as Hc. rewrite take_ge in Hc by lia. pose proof (rq_chunks _ _ H) as Hok.
    apply Forall_lookup. intros j c Hj. rewrite Forall_lookup in Hc, Hok. by apply (Hok _ _ Hj), (Hc _ _ Hj).
  - unfold contiguous_bytes, pd_length. rewrite Hd, (rq_prefix _ _ H), take_ge, (rq_data _ _ H) by lia. lia.
Qed.

Lemma offs_length : length offs = length rs.
Proof. exact (proj1 (seq_writes_char _ _ _ _ Hseq)). Qed.
Lemma zip_at i r off : rs !! i = Some r → offs !! i = Some off → zip rs offs !! i = Some (r, off).
Proof. intros Hr Ho. by apply lookup_zip_Some. Qed.
Lemma request_fh i p : request_ok i p → fh_of files0 (pd_write p) = Some (pd_fh p).
Proof. intros (fd & o & Hf & Ho & Hfh & _)%rq_open. unfold fh_of. rewrite Hf. cbn. by rewrite Ho, Hfh. Qed.
Lemma request_in i p : request_ok i p → pd_fh p ∈ handles files0 rs.
Proof. intros Hr. eapply handles_in; [exact (rq_write _ _ Hr)|by eapply request_fh]. Qed.

(** The requests before [i] to the file [x], all done, leave it as the
    sequence does. *)
Lemma settled_view ps i x c : requests_ok ps → (i <= length ps)%nat →
  (∀ k q, (k < i)%nat → ps !! k = Some q → pd_fh q = x → pd_done q = true) →
  write_all c (pieces_on x (take i ps)) = write_all c (writes_on files0 x (take i (zip rs offs))).
Proof.
  intros [Hlen Hok]. induction i as [|i IH]; intros Hi Hd; [done|].
  destruct (lookup_lt_is_Some_2 ps i) as [q Hq]; [lia|]. pose proof (Hok _ _ Hq) as Hr.
  destruct (lookup_lt_is_Some_2 offs i) as [off Hoff]; [rewrite offs_length; lia|].
  rewrite (take_S_r _ _ _ Hq), (take_S_r _ _ _ (zip_at _ _ _ (rq_write _ _ Hr) Hoff)), pieces_on_app, writes_on_app, !write_all_app.
  rewrite IH; [|lia|intros k p Hk; apply Hd; lia]. cbn [writes_on omap list_omap]. rewrite (request_fh _ _ Hr), pieces_on_one.
  destruct (decide (pd_fh q = x)) as [E|E]; [rewrite decide_True by congruence|by rewrite decide_False by congruence].
  destruct (done_progress i q Hr (Hd i q ltac:(lia) Hq E)) as (Ha & Hp & _). pose proof (rq_active _ _ Hr) as Hact. rewrite Ha in Hact.
  destruct Hact as [Ho Hplace]. rewrite Hoff in Ho. injection Ho as ->.
  rewrite (pieces_whole _ (pd_offset q)) by (done || apply (rq_offset _ _ Hr)). by rewrite (rq_data _ _ Hr).
Qed.

Lemma settled_cursor ps i fd o c : requests_ok ps → (i <= length ps)%nat → files0 !! fd = Some o →
  (∀ k q, (k < i)%nat → ps !! k = Some q → pd_fh q = os_fh o → pd_done q = true) →
  cursor_of fd (take i ps) c = cursor_after fd (take i (zip rs offs)) c.
Proof.
  intros [Hlen Hok] Hi Ho. induction i as [|i IH]; intros Hd; [done|].
  destruct (lookup_lt_is_Some_2 ps i) as [q Hq]; [lia|]. pose proof (Hok _ _ Hq) as Hr.
  destruct (lookup_lt_is_Some_2 offs i) as [off Hoff]; [rewrite offs_length; lia|].
  rewrite (take_S_r _ _ _ Hq), (take_S_r _ _ _ (zip_at _ _ _ (rq_write _ _ Hr) Hoff)). unfold cursor_after. rewrite cursor_of_app, foldl_app.
  fold (cursor_after fd (take i (zip rs offs)) c). rewrite IH; [|lia|intros k p Hk; apply Hd; lia]. cbn [cursor_of foldl]. fold (at_cursor fd q).
  destruct (at_cursor fd q) eqn:Hat; [|by rewrite andb_false_r].
  assert (Hfh : pd_fh q = os_fh o).
  { destruct (rq_open _ _ Hr) as (fd' & o' & Hf & Ho' & -> & _). unfold at_cursor in Hat. apply andb_prop in Hat as [_ Hat%bool_decide_eq_true].
    rewrite Hf in Hat. injection Hat as ->. congruence. }
  destruct (done_progress i q Hr (Hd i q ltac:(lia) Hq Hfh)) as (Ha & _ & Hc). pose proof (rq_active _ _ Hr) as Hact. rewrite Ha in *. cbn [andb].
  destruct Hact as [Hoff' _]. rewrite Hoff in Hoff'. injection Hoff' as ->. by rewrite Hc.
Qed.

(** Requests that have not begun do nothing. *)
Lemma idle_view x c ps : (∀ i p, ps !! i = Some p → Forall fresh_chunk (pd_chunks p) ∨ pd_fh p ≠ x) → write_all c (pieces_on x ps) = c.
Proof.
  revert c. induction ps as [|p ps IH]; intros c H; [done|]. change (p :: ps) with ([p] ++ ps). rewrite pieces_on_app, write_all_app, pieces_on_one.
  assert (write_all c (if decide (pd_fh p = x) then piece <$> pd_chunks p else []) = c) as ->.
  { destruct (decide (pd_fh p = x)); [|done]. apply pieces_fresh. by destruct (H 0%nat p eq_refl). }
  apply IH. intros i q Hq. by apply (H (S i)).
Qed.
Lemma idle_cursor fd c ps : (∀ i p, ps !! i = Some p → pd_activated p && at_cursor fd p = false) → cursor_of fd ps c = c.
Proof.
  revert c. induction ps as [|p ps IH]; intros c H; [done|]. cbn [cursor_of foldl]. rewrite (H 0%nat p eq_refl).
  apply IH. intros i q Hq. by apply (H (S i)).
Qed.

Lemma at_cursor_fh i p fd o : request_ok i p → at_cursor fd p = true → files0 !! fd = Some o → pd_fh p = os_fh o.
Proof.
  intros Hr [_ Hat%bool_decide_eq_true]%andb_prop Ho. destruct (rq_open _ _ Hr) as (fd' & o' & Hf & Ho' & -> & _).
  rewrite Hf in Hat. injection Hat as ->. congruence.
Qed.

(** When the earlier writes to a file are done and no later one has begun, the
    file and its cursors are where the sequence has them. *)
Lemma current_offset ps b f i p fd o : requests_ok ps → written ps f → cursors ps b → ps !! i = Some p →
  (∀ k q, (k < i)%nat → ps !! k = Some q → pd_fh q = pd_fh p → pd_done q = true) →
  (∀ k q, (i <= k)%nat → ps !! k = Some q → pd_fh q = pd_fh p → pd_activated q = false) →
  fw_file (pd_write p) = Fd fd → open_files b !! fd = Some o →
  offs !! i = Some (seq_offset (Store (content f) (open_files b)) o (fw_offset (pd_write p))).
Proof.
  intros Hok Hw Hcur Hp Hbefore Hafter Hfd Ho. pose proof (proj2 Hok _ _ Hp) as Hr.
  destruct (seq_writes_at _ _ _ _ _ _ Hseq (rq_write _ _ Hr)) as (sti & off & fd' & o' & Hi & Hoff & Hfd' & Ho' & ->).
  rewrite Hfd in Hfd'. injection Hfd' as <-. rewrite Hoff. f_equal.
  destruct (seq_writes_char _ _ _ _ Hi) as (_ & Hview & Hfiles). cbn [st_view st_files] in *. rewrite <-zip_with_take in Hview, Hfiles.
  assert (Hilen : (i <= length ps)%nat) by (apply lookup_lt_Some in Hp; lia).
  destruct (rq_open _ _ Hr) as (fd1 & o0 & Hfd1 & Ho0 & Hfh & _). rewrite Hfd in Hfd1. injection Hfd1 as <-.
  rewrite Hfiles, Ho0 in Ho'. injection Ho' as <-. rewrite (Hcur fd), Ho0 in Ho. injection Ho as <-.
  unfold seq_offset. cbn [os_fh os_append os_cur_offset set_cur_offset st_view]. rewrite Hview, (Hw (os_fh o0)).
  rewrite <-(take_drop i ps). rewrite pieces_on_app, write_all_app, cursor_of_app.
  rewrite idle_view, settled_view, idle_cursor, (settled_cursor ps i fd o0); try done.
  - intros k q Hk Hq E. eapply Hbefore; [done..|congruence].
  - intros k q Hq. rewrite lookup_drop in Hq. destruct (at_cursor fd q) eqn:Hat; [|by rewrite andb_false_r].
    rewrite (Hafter (i + k)%nat q); [done|lia|done|]. rewrite Hfh. eapply at_cursor_fh; [by eapply (proj2 Hok)|done..].
  - intros k q Hk Hq E. eapply Hbefore; [done..|congruence].
  - intros k q Hq. rewrite lookup_drop in Hq. destruct (decide (pd_fh q = os_fh o0)) as [E|E]; [left|by right].
    pose proof (rq_active _ _ (proj2 Hok _ _ Hq)) as Ha. rewrite (Hafter (i + k)%nat q) in Ha; [apply Ha|lia|done|congruence].
Qed.

(** ** Filling a wave *)

(** What filling a wave does to a request: it may give it its place. *)
Definition evolved (p p' : pending) : Prop :=
  p' = p ∨ pd_activated p = false ∧ pd_done p = false ∧ Forall fresh_chunk (pd_chunks p) ∧
    ∃ off, p' = set_placed p off (place off (pd_chunks p)) ∧ (pd_positional p = true → off = pd_offset p).

Lemma evolved_same p p' : evolved p p' → pd_fh p' = pd_fh p ∧ pd_done p' = pd_done p ∧ pd_write p' = pd_write p ∧
  pd_positional p' = pd_positional p ∧ (pd_positional p = true → pd_range p' = pd_range p).
Proof. intros [->|(_ & _ & _ & off & -> & Hoff)]; [done|]. split_and!; try done. intros Hp. unfold pd_range. cbn. by rewrite (Hoff Hp). Qed.

Lemma fresh_place off cs : Forall fresh_chunk cs → Forall fresh_chunk (place off cs).
Proof. by apply Forall_place. Qed.

Lemma evolved_pieces x c ps ps' : Forall2 evolved ps ps' → write_all c (pieces_on x ps') = write_all c (pieces_on x ps).
Proof.
  intros H. revert c. induction H as [|p p' ps ps' Hp _ IH]; intros c; [done|]. change (p :: ps) with ([p] ++ ps).
  change (p' :: ps') with ([p'] ++ ps'). rewrite !pieces_on_app, !write_all_app, IH, !pieces_on_one. f_equal.
  destruct Hp as [->|(_ & _ & Hf & off & -> & _)]; [done|]. cbn [set_placed pd_fh pd_chunks]. destruct (decide (pd_fh p = x)); [|done].
  rewrite !pieces_fresh; [done..|by apply fresh_place].
Qed.

(** The files of the wave know the requests of the wave. *)
Definition knows_of (x : nfs_fh4) (pre : list pending) (entry : option WriteWaveAccess.t) : Prop :=
  match entry with
  | None => ∀ i q, pre !! i = Some q → pd_fh q = x → pd_done q = true
  | Some a => ∃ admitted, WaveLemmas.represents a admitted ∧
      ∀ i q, pre !! i = Some q → pd_fh q = x → pd_done q = false → WriteWaveAccess.positional a = true →
        pd_positional q = true ∧ pd_range q ∈ admitted
  end.
Definition wave_knows (pre : list pending) (files : gmap bytes WriteWaveAccess.t) : Prop := ∀ x, knows_of x pre (files !! x).

Lemma lookup_snoc {A} (l : list A) x i y : (l ++ [x]) !! i = Some y → l !! i = Some y ∨ y = x.
Proof. intros [?|[_ H]]%lookup_app_Some; [by left|right]. by apply list_lookup_singleton_Some in H as [_ <-]. Qed.

Lemma knows_more x pre p entry : pd_done p = true ∨ pd_fh p ≠ x → knows_of x pre entry → knows_of x (pre ++ [p]) entry.
Proof.
  intros Hp. destruct entry as [a|].
  - intros (admitted & Ha & H). exists admitted. split; [done|]. intros i q [Hq| ->]%lookup_snoc E Hd; [by eapply H|]. destruct Hp; congruence.
  - intros H i q [Hq| ->]%lookup_snoc E; [by eapply H|]. by destruct Hp.
Qed.

Lemma joins_ok pre files p files' : wave_knows pre files → joins files p = Some files' →
  (∀ i q, pre !! i = Some q → pd_fh q = pd_fh p → pd_done q = true ∨ compatible q p) ∧
  ∀ p', evolved p p' → wave_knows (pre ++ [p']) files'.
Proof.
  intros Hk. unfold joins. fold (pd_range p). pose proof (Hk (pd_fh p)) as Hfh.
  assert (Hmore : ∀ p' a', evolved p p' → knows_of (pd_fh p) (pre ++ [p']) (Some a') → wave_knows (pre ++ [p']) (<[pd_fh p := a']> files)).
  { intros p' a' [Efh _]%evolved_same Ha' x. destruct (decide (x = pd_fh p)) as [->|Hne]; [by rewrite lookup_insert_eq|].
    rewrite lookup_insert_ne by done. apply knows_more; [right; congruence|apply Hk]. }
  change bytes with nfs_fh4 in *. destruct (files !! pd_fh p) as [a|] eqn:Ea.
  - destruct Hfh as (admitted & Hrep & Hin).
    destruct (WaveLemmas.admit_pairwise a admitted (pd_range p) (pd_positional p) Hrep) as (Hok & Hpos & Hrep').
    destruct (WriteWaveAccess.admit_ a (pd_range p) (pd_positional p)) as [ok a']. cbn [fst snd] in *.
    destruct ok; [|done]. intros [= <-]. symmetry in Hok. rewrite Hok in Hrep'.
    apply andb_prop in Hok as [[Hap Hpp]%andb_prop Hno]. rewrite WaveLemmas.forallb_overlap in Hno. split.
    + intros i q Hq E. destruct (pd_done q) eqn:Hd; [by left|right]. destruct (Hin i q Hq E Hd Hap). split; [done|]. split; [done|]. by apply Hno.
    + intros p' Hp'. apply Hmore; [done|]. destruct (evolved_same _ _ Hp') as (Efh & _ & _ & Epos & Er).
      exists (pd_range p :: admitted). split; [done|]. intros i q [Hq| ->]%lookup_snoc E Hd _.
      * destruct (Hin i q Hq E Hd Hap). split; [done|by right].
      * rewrite Epos, (Er Hpp). split; [done|left].
  - intros [= <-]. split; [intros i q Hq E; left; by eapply Hfh|]. intros p' Hp'. apply Hmore; [done|].
    destruct (evolved_same _ _ Hp') as (Efh & _ & _ & Epos & Er).
    exists [pd_range p]. split; [apply WaveLemmas.represents_new|]. cbn [WriteWaveAccess.new WriteWaveAccess.positional].
    intros i q [Hq| ->]%lookup_snoc E Hd Hpp; [by rewrite (Hfh i q Hq E) in Hd|]. rewrite Epos, (Er Hpp). split; [done|left].
Qed.

(** The chunks selected: of requests under way, each once. *)
Definition picked (ps : list pending) (sel : list (nat * nat)) : Prop :=
  NoDup sel ∧ ∀ k j, (k, j) ∈ sel → ∃ p c, ps !! k = Some p ∧ pd_done p = false ∧ pd_activated p = true ∧
    pd_chunks p !! j = Some c ∧ ck_complete c = false.

Lemma pick_ok limit k j chunks selected bytes full selected' bytes' :
  pick limit k j chunks selected bytes = (full, selected', bytes') →
  ∃ js, selected' = selected ++ (pair k <$> js) ∧ NoDup js ∧
    Forall (λ j', ∃ c, (j <= j')%nat ∧ chunks !! (j' - j)%nat = Some c ∧ ck_complete c = false) js ∧
    (∀ c rest, chunks = c :: rest → ck_complete c = false → selected' ≠ []).
Proof.
  revert j selected bytes. induction chunks as [|c chunks IH]; intros j selected bytes; cbn [pick].
  { intros [= <- <- <-]. exists []. rewrite app_nil_r. split_and!; [done|constructor|constructor|done]. }
  assert (Hshift : ∀ js, Forall (λ j', ∃ c0, (S j <= j')%nat ∧ chunks !! (j' - S j)%nat = Some c0 ∧ ck_complete c0 = false) js →
    Forall (λ j', ∃ c0, (j <= j')%nat ∧ (c :: chunks) !! (j' - j)%nat = Some c0 ∧ ck_complete c0 = false) js).
  { intros js H. eapply Forall_impl; [exact H|]. intros j' (c0 & Hj & Hc & ?). exists c0. split; [lia|]. by replace (j' - j)%nat with (S (j' - S j)) by lia. }
  destruct (ck_complete c) eqn:Hcomp.
  - intros (js & -> & Hnd & Hall & _)%IH. exists js. split_and!; [done|done|by apply Hshift|]. intros ? ? [= <- _]. congruence.
  - destruct (negb _ && _) eqn:Hfull.
    + intros [= <- <- <-]. exists []. rewrite app_nil_r. split_and!; [done|constructor|constructor|].
      apply andb_prop in Hfull as [Hne _]. intros _ _ _ _ E. by rewrite bool_decide_true in Hne.
    + intros (js & -> & Hnd & Hall & _)%IH. exists (j :: js). rewrite <-app_assoc. split_and!; [done| | |by destruct selected].
      * constructor; [|done]. intros Hin. rewrite Forall_forall in Hall. destruct (Hall _ Hin) as (? & ? & _). lia.
      * constructor; [exists c; by rewrite Nat.sub_diag|by apply Hshift].
Qed.

Context {W : Type} (s : nfs_spec F) (rpc : Compound.t → W → RpcResult COMPOUND4res * W) (fs : W → F).
Context (Hrpc : transport_ok rpc) (Himp : implements s rpc fs).
Context (xdr_len : Compound.t → Z) `{!XdrSizes xdr_len} (Hstores : stores_through (handles files0 rs) s content).

Lemma write_offset_ok fd off b w f : fs w = f → (∀ o, open_files b !! fd = Some o → os_fh o ∈ handles files0 rs) → cursors_ok b → match off with At x => 0 <= x | _ => True end →
  returns (write_offset rpc xdr_len (Fd fd) off) b w (λ r b' w', kept b b' ∧ fs w' = f ∧
    match r with
    | Ok n => 0 <= n ∧ ∀ o, open_files b !! fd = Some o → n = seq_offset (Store (content f) (open_files b)) o off
    | Err _ => True
    end).
Proof.
  intros Hf Hin Hcur Hat. unfold write_offset.
  eapply returns_bind; [by apply (resolve_offset_ok s rpc fs Hrpc Himp xdr_len f)| |by intros e b' w' (? & ? & _)].
  cbn beta iota. intros n b1 w1 (Hk & Hw & Hn & Hst). apply returns_gets_bind. cbn [FileOperand.fd].
  assert (Hfiles : open_files b1 = open_files b) by (by destruct Hk as [-> _]; destruct b). rewrite Hfiles.
  destruct (open_files b !! fd) as [o|] eqn:Ho; cbn [mbind option_bind]; [|by apply returns_ret].
  specialize (Hst o eq_refl). specialize (Hin o eq_refl). destruct (os_append o) eqn:Happ.
  - eapply returns_mono; [by apply (file_size_ok s rpc fs Hrpc Himp xdr_len f)|]. cbn beta. intros r b2 w2 (Hk2 & Hw2 & Hr).
    split; [by etrans|]. split; [done|]. destruct r as [m|]; [|done]. destruct Hr as [(v & k & Hv & Hu) Hm]. split; [done|]. intros ? [= <-].
    unfold seq_offset. rewrite Happ. by eapply (st_size _ s content Hstores).
  - apply returns_ret. split; [done|]. split; [done|]. split; [done|]. intros ? [= <-]. unfold seq_offset. rewrite Happ.
    destruct off; [done|done|]. destruct Hst as (v & k & Hv & Hu). by eapply (st_size _ s content Hstores).
Qed.

(** ** The state between the waves *)

Record waves_inv (ps : list pending) (b : NfsVecFs) (f : F) : Prop := {
  wi_requests : requests_ok ps;
  wi_unfinished : Forall unfinished ps;
  wi_exclusive : exclusive ps;
  wi_written : written ps f;
  wi_cursors : cursors ps b;
}.

Lemma contiguous_nonneg i p : request_ok i p → 0 <= contiguous_bytes p.
Proof.
  intros Hr. unfold contiguous_bytes. rewrite (rq_prefix _ _ Hr). destruct (pd_done p); [lia|].
  destruct (pd_chunks p !! pd_next p) as [c|] eqn:Hc; cbn; [|lia]. pose proof (rq_chunks _ _ Hr) as Hok. rewrite Forall_lookup in Hok.
  destruct (Hok _ _ Hc). lia.
Qed.

Lemma cursors_nonneg ps b : requests_ok ps → cursors ps b → map_Forall (λ _ o, 0 <= os_cur_offset o) files0 → cursors_ok b.
Proof.
  intros [_ Hok] Hcur H0 fd o Ho. rewrite (Hcur fd) in Ho. destruct (files0 !! fd) as [o0|] eqn:E; [|done]. injection Ho as <-.
  cbn [os_cur_offset set_cur_offset]. pose proof (H0 _ _ E) as Hc. clear -Hok Hc. cbn beta in Hc. revert Hc. generalize (os_cur_offset o0) as c.
  assert (Hall : Forall (λ p, 0 <= pd_offset p + contiguous_bytes p) ps).
  { apply Forall_lookup. intros i p Hp. pose proof (contiguous_nonneg _ _ (Hok _ _ Hp)). pose proof (rq_offset _ _ (Hok _ _ Hp)). lia. }
  clear Hok. induction Hall as [|p ps Hp _ IH]; intros c Hc; [done|]. cbn [cursor_of foldl]. apply IH. by case_match.
Qed.

Lemma place_ok i p off : request_ok i p → pd_activated p = false → offs !! i = Some off → 0 <= off →
  request_ok i (set_placed p off (place off (pd_chunks p))).
Proof.
  intros Hr Ha Hoff H0. destruct Hr as [Hw Ho Hfirst Hdata Hcs Hnext Hpre Hbound Hdone Hact Hknown _]. rewrite Ha in Hact. destruct Hact as [_ Hd].
  split; cbn [set_placed pd_write pd_fh pd_positional pd_predecessor pd_chunks pd_next pd_prefix pd_done pd_activated pd_offset]; try done.
  - by rewrite data_place.
  - by apply Forall_place.
  - rewrite take_place. by apply Forall_place.
  - by rewrite take_place, data_place.
  - by rewrite length_place.
  - congruence.
  - by rewrite place_place.
Qed.

Lemma place_unfinished p off : unfinished p → unfinished (set_placed p off (place off (pd_chunks p))).
Proof.
  intros H Hd. destruct (H Hd) as (c & Hc & Hcomp). cbn. destruct (lookup_place off (pd_chunks p) (pd_next p)) as [o ->]. rewrite Hc. by eexists.
Qed.
Lemma evolved_unfinished p p' : evolved p p' → unfinished p → unfinished p'.
Proof. intros [->|(_ & _ & _ & off & -> & _)]; [done|]. apply place_unfinished. Qed.

Lemma activate_ok ps b f i p w : fs w = f → waves_inv ps b f → cursors_ok b → ps !! i = Some p → pd_done p = false →
  match fw_offset (pd_write p) with At x => 0 <= x | _ => True end →
  (∀ k q, (k < i)%nat → ps !! k = Some q → pd_fh q = pd_fh p → pd_done q = true ∨ compatible q p) →
  returns (activate rpc xdr_len i p) b w (λ r b' w', kept b b' ∧ fs w' = f ∧
    match r with
    | Ok p' => evolved p p' ∧ request_ok i p' ∧ pd_activated p' = true
    | Err e => VfError.index e = Some (Z.of_nat i)
    end).
Proof.
  intros Hf [Hok Hunf Hex Hw Hcur] Hnn Hp Hd Hat Hbefore. pose proof (proj2 Hok _ _ Hp) as Hr. unfold activate.
  destruct (pd_activated p) eqn:Ha; [apply returns_ret; split; [done|]; split; [done|]; split; [by left|done]|].
  pose proof (rq_active _ _ Hr) as Hact. rewrite Ha in Hact. destruct Hact as [Hfresh _].
  eapply (returns_bind _ _ _ _ (λ r b' w', kept b b' ∧ fs w' = f ∧
    match r with Ok off => offs !! i = Some off ∧ 0 <= off ∧ (pd_positional p = true → off = pd_offset p)
    | Err e => VfError.index e = Some (Z.of_nat i) end)).
  - destruct (pd_predecessor p && negb (pd_positional p)) eqn:Hagain.
    + apply andb_prop in Hagain as [_ Hpos%negb_true_iff]. destruct (rq_open _ _ Hr) as (fd & o0 & Hfd & Ho0 & _).
      apply returns_map_err. rewrite Hfd. eapply returns_mono; [apply (write_offset_ok fd _ b w f); [done| |done..]|].
      { intros o Ho. rewrite (Hcur fd), Ho0 in Ho. injection Ho as <-. by eapply handles_in; [apply (rq_write _ _ Hr)|unfold fh_of; rewrite Hfd; cbn; by rewrite Ho0]. }
      cbn beta.
      intros r b' w' (Hk & Hw' & Hres). split; [done|]. split; [done|]. destruct r as [off|]; [|done]. destruct Hres as [Hn Hoff].
      split; [|split; [done|congruence]]. pose proof (Hcur fd) as Hfd'. rewrite Ho0 in Hfd'. rewrite (Hoff _ Hfd').
      eapply current_offset; try done.
      * intros k q Hk' Hq E. destruct (Hbefore k q Hk' Hq E) as [?|(_ & ? & _)]; [done|congruence].
      * intros k q Hk' Hq E. destruct (decide (k = i)) as [->|]; [congruence|]. destruct (pd_activated q) eqn:Hqa; [|done].
        destruct (Hex i k p q) as [?|(? & _)]; [lia|congruence..].
    + apply returns_ret. split; [done|]. split; [done|]. split; [|split; [apply (rq_offset _ _ Hr)|done]]. apply (rq_known _ _ Hr).
      apply andb_false_iff in Hagain as [?|?%negb_false_iff]; auto.
  - intros off b' w' (Hk & Hw' & Hoff & H0 & Hpos). unfold checked_add.
    destruct (off + pd_length p <=? U64_MAX); [apply returns_ret|by apply returns_fail].
    split; [done|]. split; [done|]. split; [right; eauto 10|]. split; [by apply place_ok|done].
  - intros e b' w' H. exact H.
Qed.

Lemma inv_kept ps b b' f : kept b b' → waves_inv ps b f → waves_inv ps b' f.
Proof. intros Hk [? ? ? ? Hc]. split; [done..|]. intros fd. rewrite <-(Hc fd). destruct Hk as [-> _]. by destruct b. Qed.

Lemma compatible_evolved p p' q : evolved p p' → (compatible p q → compatible p' q) ∧ (compatible q p → compatible q p').
Proof.
  intros (_ & _ & _ & Hpos & Hr)%evolved_same. unfold compatible. rewrite Hpos.
  split; intros (H1 & H2 & H3); rewrite Hr by done; done.
Qed.

Lemma lookup_middle {A} (pre : list A) x post i y : (pre ++ x :: post) !! i = Some y →
  i = length pre ∧ y = x ∨ i ≠ length pre ∧ ∀ x', (pre ++ x' :: post) !! i = Some y.
Proof.
  intros H. destruct (decide (i = length pre)) as [->|Hne].
  - left. rewrite list_lookup_middle in H by done. by injection H as ->.
  - right. split; [done|]. intros x'. rewrite <-H. destruct (decide (i < length pre)%nat); [by rewrite !lookup_app_l by done|].
    rewrite !lookup_app_r by lia. by destruct (i - length pre)%nat eqn:E; [lia|].
Qed.

Lemma exclusive_evolved pre p p' todo : exclusive (pre ++ p :: todo) → evolved p p' →
  (∀ i q, pre !! i = Some q → pd_fh q = pd_fh p → pd_done q = true ∨ compatible q p) → exclusive (pre ++ p' :: todo).
Proof.
  intros Hex He Hj i k q q' Hik Hq Hq' E Ha. pose proof (evolved_same _ _ He) as (Efh & Ed & _).
  apply lookup_middle in Hq as [[-> ->]|[Hi Hq]]; apply lookup_middle in Hq' as [[-> ->]|[Hk Hq']]; [lia|..].
  - destruct (Hex (length pre) k p q') as [?|?]; [done|by apply list_lookup_middle|done|congruence|done|left; congruence|right].
    by apply (compatible_evolved p p' q').
  - specialize (Hq p). rewrite lookup_app_l in Hq by lia. destruct (Hj i q Hq) as [?|?]; [congruence|by left|right].
    by apply (compatible_evolved p p' q).
  - by apply (Hex i k).
Qed.

Lemma picked_app ps ps' sel : picked ps sel → picked (ps ++ ps') sel.
Proof.
  intros [Hnd H]. split; [done|]. intros k j Hin. destruct (H k j Hin) as (p & c & Hp & ?). exists p, c. split; [|done]. by apply lookup_app_l_Some.
Qed.

Lemma picked_more pre p limit sel bytes full sel' bytes' : picked pre sel → unfinished p → pd_done p = false → pd_activated p = true →
  pick limit (length pre) (pd_next p) (drop (pd_next p) (pd_chunks p)) sel bytes = (full, sel', bytes') →
  picked (pre ++ [p]) sel' ∧ sel' ≠ [].
Proof.
  intros [Hnd Hsel] Hr Hd Ha (js & -> & Hjs & Hall & Hne)%pick_ok. split.
  - split.
    + apply NoDup_app. split; [done|]. split; [|by apply NoDup_fmap_2; [intros ?? [= ->]|]].
      intros [k j] Hin Hin'. apply list_elem_of_fmap in Hin' as (j' & [= -> ->] & _). destruct (Hsel _ _ Hin) as (q & c & Hq & _).
      apply lookup_lt_Some in Hq. lia.
    + intros k j [Hin|Hin]%elem_of_app; [by apply (picked_app pre [p] sel (conj Hnd Hsel))|].
      apply list_elem_of_fmap in Hin as (j' & [= -> ->] & Hj). rewrite Forall_forall in Hall. destruct (Hall _ Hj) as (c & Hle & Hc & Hcomp).
      rewrite lookup_drop in Hc. replace (pd_next p + (j' - pd_next p))%nat with j' in Hc by lia.
      exists p, c. split_and!; try done. by apply list_lookup_middle.
  - destruct (Hr Hd) as (c & Hc & Hcomp). eapply Hne; [|exact Hcomp].
    by apply drop_S.
Qed.

Context (Hnonneg : map_Forall (λ _ o, 0 <= os_cur_offset o) files0).
Context (Hat : Forall (λ r, match fw_offset r with At x => 0 <= x | _ => True end) rs).

Definition filled_wave (pre todo : list pending) (sel : list (nat * nat)) (rest : list pending) (sel' : list (nat * nat)) : Prop :=
  Forall2 evolved todo rest ∧ (∀ i q, (pre ++ rest) !! i = Some q → request_ok i q) ∧ exclusive (pre ++ rest) ∧ picked (pre ++ rest) sel' ∧
  (sel ≠ [] ∨ Exists (λ p, pd_done p = false) todo → sel' ≠ []).

Lemma filled_wave_refl pre todo sel : (∀ i q, (pre ++ todo) !! i = Some q → request_ok i q) → exclusive (pre ++ todo) → picked pre sel →
  (Exists (λ p, pd_done p = false) todo → sel ≠ []) → filled_wave pre todo sel todo sel.
Proof.
  intros Hok Hex Hp Hne. split; [apply Forall2_same_length_lookup_2; [done|]; intros i x y -> [= ->]; by left|].
  split; [done|]. split; [done|]. split; [by apply picked_app|]. by intros [?|?%Hne].
Qed.

Lemma filled_wave_cons pre p p' todo sel sel1 rest sel' : evolved p p' → (sel1 ≠ [] ∨ sel1 = sel ∧ pd_done p = true) →
  filled_wave (pre ++ [p']) todo sel1 rest sel' → filled_wave pre (p :: todo) sel (p' :: rest) sel'.
Proof.
  intros He Hsel (H1 & H2 & H3 & H4 & H5). rewrite <-!app_assoc in *. split_and!; [by constructor|done..|].
  intros Hex. apply H5. destruct Hsel as [?|[-> Hd]]; [by left|]. destruct Hex as [?|Hex]; [by left|right].
  apply Exists_cons in Hex as [?|?]; [congruence|done].
Qed.

Lemma select_ok limit f bI ps todo : waves_inv ps bI f → ∀ old pre wv b w, fs w = f → kept bI b → ps = old ++ todo → Forall2 evolved old pre →
  (∀ i q, (pre ++ todo) !! i = Some q → request_ok i q) → exclusive (pre ++ todo) → wave_knows pre (wv_files wv) →
  picked pre (wv_selected wv) → (wv_files wv = ∅ ∨ wv_selected wv ≠ []) →
  returns (select rpc xdr_len limit (length pre) todo wv) b w (λ r b' w', kept bI b' ∧ fs w' = f ∧
    match r with
    | Ok (rest, wv') => filled_wave pre todo (wv_selected wv) rest (wv_selected wv')
    | Err e => ∃ i, VfError.index e = Some i ∧ 0 <= i < Z.of_nat (length ps)
    end).
Proof.
  intros Hinv. induction todo as [|p todo IH]; intros old pre wv b w Hf Hk Hps Hev Hok Hex Hkn Hpick Hsel; cbn [select].
  { apply returns_ret. split; [done|]. split; [done|]. apply filled_wave_refl; try done. by intros ?%Exists_nil. }
  assert (Hlen : length old = length pre) by (by eapply Forall2_length).
  assert (Hp : ps !! length pre = Some p) by (rewrite Hps; by apply list_lookup_middle).
  assert (Hr : request_ok (length pre) p) by (apply Hok; by apply list_lookup_middle).
  assert (Hcat : ∀ p', Forall2 evolved (old ++ [p]) (pre ++ [p']) ↔ evolved p p').
  { intros p'. split; [intros H; apply Forall2_app_inv in H as [_ H]; [by inversion H|done]|intros H; apply Forall2_app; [done|by constructor]]. }
  destruct (pd_done p) eqn:Hd.
  - eapply returns_bind.
    + replace (S (length pre)) with (length (pre ++ [p])) by (rewrite length_app; cbn; lia).
      apply (IH (old ++ [p]) (pre ++ [p])); [done|done|by rewrite <-app_assoc|apply Hcat; by left|by rewrite <-app_assoc..| | |done].
      * intros x. apply knows_more; [by left|apply Hkn].
      * by apply picked_app.
    + cbn beta iota. intros [rest wv'] b' w' (Hk' & Hw' & Hfill). apply returns_ret. split; [done|]. split; [done|].
      eapply filled_wave_cons; [by left| |done]. by right.
    + cbn beta iota. intros e b' w' H. exact H.
  - destruct (joins (wv_files wv) p) as [files|] eqn:Ej.
    2:{ apply returns_ret. split; [done|]. split; [done|]. apply filled_wave_refl; try done. intros _. destruct Hsel as [He|]; [|done].
        unfold joins in Ej. rewrite He in Ej. change ((∅ : gmap bytes WriteWaveAccess.t) !! pd_fh p) with (@None WriteWaveAccess.t) in Ej. done. }
    destruct (joins_ok _ _ _ _ Hkn Ej) as [Hbefore Hkn'].
    eapply returns_bind.
    + apply (activate_ok ps b f (length pre) p w); try done; [by eapply inv_kept| | |].
      * eapply cursors_nonneg; [exact (wi_requests _ _ _ Hinv)| |done]. eapply wi_cursors, inv_kept; done.
      * rewrite Forall_lookup in Hat. exact (Hat _ _ (rq_write _ _ Hr)).
      * intros k q Hlt Hq E. rewrite Hps, lookup_app_l in Hq by lia.
        destruct (Forall2_lookup_l _ _ _ _ _ Hev Hq) as (q' & Hq' & Hqe). destruct (evolved_same _ _ Hqe) as (Ef & Ed & _ & Ep & Er).
        destruct (Hbefore k q' Hq') as [?|(H1 & H2 & H3)]; [congruence|left; congruence|right].
        rewrite Ep in H1. split; [done|]. split; [done|]. by rewrite Er in H3.
    + cbn beta iota. intros p' b1 w1 (Hk1 & Hw1 & Hpe & Hr' & Ha').
      assert (Hd' : pd_done p' = false) by (destruct (evolved_same _ _ Hpe); naive_solver).
      destruct (pick _ _ _ _ _ _) as [[full sel'] bytes'] eqn:Epick.
      assert (Hunf : unfinished p').
      { eapply evolved_unfinished; [done|]. pose proof (wi_unfinished _ _ _ Hinv) as Hu. rewrite Forall_lookup in Hu. by eapply Hu. }
      destruct (picked_more _ _ _ _ _ _ _ _ Hpick Hunf Hd' Ha' Epick) as [Hpick' Hne'].
      assert (Hok' : ∀ i q, (pre ++ p' :: todo) !! i = Some q → request_ok i q).
      { intros i q [[-> ->]|[_ Hq]]%lookup_middle; [done|]. by apply Hok. }
      pose proof (exclusive_evolved pre p p' todo Hex Hpe Hbefore) as Hex'.
      destruct full.
      * apply returns_ret. split; [by etrans|]. split; [done|]. eapply (filled_wave_cons pre p p'); [done|by left|].
        apply filled_wave_refl; rewrite <-?app_assoc; done.
      * replace (S (length pre)) with (length (pre ++ [p'])) by (rewrite length_app; cbn; lia). eapply returns_bind.
        -- apply (IH (old ++ [p]) (pre ++ [p'])); rewrite <-?app_assoc; cbn [wv_files wv_selected app]; try done; [by etrans|by apply Hcat|by apply Hkn'|by right].
        -- cbn beta iota. intros [rest wv'] b2 w2 (Hk2 & Hw2 & Hfill). apply returns_ret. split; [done|]. split; [done|].
           eapply filled_wave_cons; [done| |done]. by left.
        -- cbn beta iota. intros e b2 w2 H. exact H.
    + cbn beta iota. intros e b1 w1 (Hk1 & Hw1 & He). split; [by etrans|]. split; [done|]. exists (Z.of_nat (length pre)). split; [done|].
      apply lookup_lt_Some in Hp. lia.
Qed.

(** ** What the server took *)

(** A chunk with [n] more bytes at the server. *)
Definition grown (c : chunk) (n : Z) : chunk :=
  Chunk (ck_offset c) (ck_data c) (ck_progress c + n) (ck_progress c + n =? Z.of_nat (length (ck_data c))).
Definition grown_request (p : pending) (j : nat) (c : chunk) (n : Z) (stable : bool) : pending :=
  set_written p (<[j := grown c n]> (pd_chunks p)) stable.

Lemma pieces_split x ps k p j c : ps !! k = Some p → pd_fh p = x → pd_chunks p !! j = Some c →
  pieces_on x ps = (pieces_on x (take k ps) ++ (piece <$> take j (pd_chunks p))) ++
    piece c :: (piece <$> drop (S j) (pd_chunks p)) ++ pieces_on x (drop (S k) ps).
Proof.
  intros Hp Hx Hc. rewrite <-(take_drop_middle ps k p Hp) at 1. change (p :: drop (S k) ps) with ([p] ++ drop (S k) ps).
  rewrite !pieces_on_app, pieces_on_one, decide_True by done. rewrite <-(take_drop_middle _ _ _ Hc) at 1.
  rewrite fmap_app. cbn [fmap list_fmap]. by rewrite <-!app_assoc.
Qed.

Lemma piece_grown c n : 0 <= ck_progress c → 0 <= n →
  piece (grown c n) = (Z.to_nat (ck_offset c), take (Z.to_nat (ck_progress c)) (ck_data c) ++ take (Z.to_nat n) (drop (Z.to_nat (ck_progress c)) (ck_data c))).
Proof. intros ? ?. unfold piece, grown. cbn. by rewrite Z2Nat.inj_add, take_take_drop by lia. Qed.

Lemma overlap_apart p q x y : WaveLemmas.overlap (pd_range p) (pd_range q) = false → 0 <= pd_offset p → 0 <= pd_offset q →
  pd_offset p <= Z.of_nat x.1 → Z.of_nat x.1 + Z.of_nat (length x.2) <= pd_offset p + pd_length p →
  pd_offset q <= Z.of_nat y.1 → Z.of_nat y.1 + Z.of_nat (length y.2) <= pd_offset q + pd_length q → apart x y.
Proof.
  unfold WaveLemmas.overlap, range_is_empty, pd_range, apart. cbn [fst snd]. intros Ho Hp Hq Hx1 Hx2 Hy1 Hy2.
  destruct x as [o1 [|a d1]], y as [o2 [|b d2]]; cbn [fst snd] in *; [by left|by left|by right; left|]. cbn [length] in *.
  right. right. lia.
Qed.

(** The next write of a chunk does not touch what was written after it. *)
Lemma later_apart ps k p j c n : (∀ i q, ps !! i = Some q → request_ok i q) → exclusive ps → ps !! k = Some p → pd_done p = false →
  pd_activated p = true → pd_chunks p !! j = Some c → 0 <= n <= Z.of_nat (length (ck_data c)) - ck_progress c →
  Forall (apart (Z.to_nat (ck_offset c + ck_progress c), take (Z.to_nat n) (drop (Z.to_nat (ck_progress c)) (ck_data c))))
    ((piece <$> drop (S j) (pd_chunks p)) ++ pieces_on (pd_fh p) (drop (S k) ps)).
Proof.
  intros Hok Hex Hp Hd Ha Hc Hn. pose proof (Hok _ _ Hp) as Hr. pose proof (rq_active _ _ Hr) as Hact. rewrite Ha in Hact. destruct Hact as [_ Hpl].
  pose proof (rq_chunks _ _ Hr) as Hcs. rewrite Forall_lookup in Hcs. destruct (Hcs _ _ Hc) as [Hprog _].
  pose proof (rq_offset _ _ Hr) as H0. destruct (placed_within _ _ _ _ Hpl Hc) as [Hlo Hhi]. rewrite (rq_data _ _ Hr) in Hhi.
  set (w := (_, _)). assert (Hw : Z.of_nat w.1 + Z.of_nat (length w.2) <= ck_offset c + Z.of_nat (length (ck_data c)) ∧ ck_offset c <= Z.of_nat w.1).
  { unfold w. cbn [fst snd]. lengths. }
  apply Forall_app. split.
  - apply Forall_fmap, Forall_lookup. intros i c2 Hc2. cbn. destruct (placed_at _ _ _ _ Hpl Hc) as [_ Hrest].
    destruct (placed_within _ _ _ _ Hrest Hc2) as [Hlo2 _]. unfold apart, piece. cbn [fst snd]. right. right. left. lia.
  - apply Forall_lookup. intros i y Hy. unfold pieces_on in Hy. apply join_lookup_Some in Hy as (m & l & m' & Hl & Hm' & _).
    rewrite list_lookup_fmap in Hl. destruct (drop (S k) ps !! m) as [q|] eqn:Hq; [|done]. injection Hl as <-.
    destruct (decide (pd_fh q = pd_fh p)) as [E|]; [|done]. rewrite lookup_drop in Hq. pose proof (Hok _ _ Hq) as Hrq.
    rewrite list_lookup_fmap in Hm'. destruct (pd_chunks q !! m') as [c2|] eqn:Hc2; [|done]. injection Hm' as <-.
    pose proof (rq_active _ _ Hrq) as Haq. destruct (pd_activated q) eqn:Eq.
    + destruct Haq as [_ Hplq]. destruct (Hex k (S k + m)%nat p q) as [?|(_ & _ & Hov)]; [lia|congruence..|].
      destruct (placed_within _ _ _ _ Hplq Hc2) as [Hlo2 Hhi2]. rewrite (rq_data _ _ Hrq) in Hhi2.
      pose proof (rq_chunks _ _ Hrq) as Hcq. rewrite Forall_lookup in Hcq. pose proof (piece_length _ (Hcq _ _ Hc2)) as Hpl2.
      destruct (Hcq _ _ Hc2) as [Hprog2 _]. pose proof (rq_offset _ _ Hrq).
      eapply (overlap_apart p q); try done; unfold pd_length in *; cbn [piece fst] in *; lia.
    + destruct Haq as [Hfresh _]. rewrite Forall_lookup in Hfresh. destruct (Hfresh _ _ Hc2) as [Hz _]. unfold apart, piece. cbn. rewrite Hz. by right; left.
Qed.

(** A later state of the same request. *)
Definition carried (p p' : pending) : Prop :=
  pd_write p' = pd_write p ∧ pd_offset p' = pd_offset p ∧ pd_fh p' = pd_fh p ∧ pd_stateid p' = pd_stateid p ∧
  pd_positional p' = pd_positional p ∧ pd_activated p' = pd_activated p ∧ (pd_done p = true → p' = p).
#[local] Instance carried_preorder : PreOrder carried.
Proof.
  split; [done|]. intros p q r (? & ? & ? & ? & ? & ? & Hq) (? & ? & ? & ? & ? & ? & Hr). split_and!; try congruence.
  intros Hd. pose proof (Hq Hd). subst q. auto.
Qed.

(** As far as the server's answers are concerned. *)
Definition absorbed (p p' : pending) : Prop := carried p p' ∧ pd_done p' = pd_done p ∧ (pd_activated p = false → p' = p).
#[local] Instance absorbed_preorder : PreOrder absorbed.
Proof.
  split; [done|]. intros p q r (H1 & H2 & H3) (H4 & H5 & H6). split; [by etrans|]. split; [congruence|].
  intros Hp. pose proof (H3 Hp). subst q. auto.
Qed.
Lemma absorbed_carried ps ps' : Forall2 absorbed ps ps' → Forall2 carried ps ps'.
Proof. intros H. eapply Forall2_impl; [exact H|]. by intros ?? []. Qed.

Lemma carried_exclusive ps ps' : Forall2 carried ps ps' → exclusive ps → exclusive ps'.
Proof.
  intros H Hex i k p' q' Hik Hp' Hq' E Ha. destruct (Forall2_lookup_r _ _ _ _ _ H Hp') as (p & Hp & Cp).
  destruct (Forall2_lookup_r _ _ _ _ _ H Hq') as (q & Hq & Cq). destruct Cp as (Hw1 & Ho1 & Hf1 & _ & Hp1 & _ & Hd1), Cq as (Hw2 & Ho2 & Hf2 & _ & Hp2 & Ha2 & _).
  destruct (Hex i k p q) as [Hd|Hc]; [done..|congruence|congruence|left; by rewrite (Hd1 Hd)|right].
  unfold compatible, pd_range, pd_length in *. by rewrite Hp1, Hp2, Ho1, Ho2, Hw1, Hw2.
Qed.

Lemma absorbed_insert ps k p p' : ps !! k = Some p → absorbed p p' → Forall2 absorbed ps (<[k := p']> ps).
Proof.
  intros Hp Hc. apply Forall2_same_length_lookup_2; [by rewrite length_insert|]. intros i q q' Hq Hq'.
  apply list_lookup_insert_Some in Hq' as [(-> & -> & _)|[_ Hq']]; [rewrite Hp in Hq; by injection Hq as ->|]. rewrite Hq in Hq'. by injection Hq' as ->.
Qed.

Lemma grow_request_ok i p j c n stable : request_ok i p → pd_activated p = true → pd_done p = false → pd_chunks p !! j = Some c → ck_complete c = false →
  0 <= n <= Z.of_nat (length (ck_data c)) - ck_progress c → request_ok i (grown_request p j c n stable).
Proof.
  intros Hr Ha Hd Hc Hcomp Hn. destruct Hr as [Hw Ho Hfirst Hdata Hcs Hnext Hpre Hbound Hdone Hact Hknown H0]. rewrite Ha in Hact. destruct Hact as [Hoff Hpl].
  assert (Hge : (pd_next p <= j)%nat).
  { destruct (decide (pd_next p <= j)%nat); [done|]. rewrite Forall_lookup in Hnext. rewrite (Hnext j c) in Hcomp; [done|]. rewrite lookup_take_lt by lia. done. }
  assert (Hok : chunk_ok c) by (rewrite Forall_lookup in Hcs; by eapply Hcs).
  split; cbn [grown_request set_written pd_write pd_fh pd_positional pd_predecessor pd_chunks pd_next pd_prefix pd_done pd_activated pd_offset]; try done.
  - rewrite <-Hdata. unfold data_of. rewrite list_fmap_insert. cbn [grown ck_data]. rewrite list_insert_id; [done|]. by rewrite list_lookup_fmap, Hc.
  - apply Forall_insert; [done|]. destruct Hok as [? _]. split; cbn [grown ck_progress ck_data ck_complete]; [lia|]. by intros ?%Z.eqb_eq.
  - by rewrite take_insert_ge.
  - by rewrite take_insert_ge.
  - by rewrite length_insert.
  - congruence.
  - rewrite Ha. split; [done|]. by eapply place_insert.
Qed.

Lemma grow_written ps k p j c n stable f f1 : (∀ i q, ps !! i = Some q → request_ok i q) → exclusive ps → ps !! k = Some p → pd_done p = false →
  pd_activated p = true → pd_chunks p !! j = Some c → 0 <= n <= Z.of_nat (length (ck_data c)) - ck_progress c → written ps f →
  (∀ y, content f1 y = if decide (y = pd_fh p)
     then write_at (content f (pd_fh p)) (Z.to_nat (ck_offset c + ck_progress c)) (take (Z.to_nat n) (drop (Z.to_nat (ck_progress c)) (ck_data c)))
     else content f y) →
  written (<[k := grown_request p j c n stable]> ps) f1.
Proof.
  intros Hok Hex Hp Hd Ha Hc Hn Hw Hf1 x. rewrite Hf1. set (p1 := grown_request p j c n stable).
  assert (Hklt : (k < length ps)%nat) by (by eapply lookup_lt_Some). assert (Hjlt : (j < length (pd_chunks p))%nat) by (by eapply lookup_lt_Some).
  pose proof (Hok _ _ Hp) as Hr. pose proof (rq_chunks _ _ Hr) as Hcs. rewrite Forall_lookup in Hcs. destruct (Hcs _ _ Hc) as [Hprog _].
  destruct (decide (x = pd_fh p)) as [->|Hne].
  - rewrite (pieces_split (pd_fh p) (<[k := p1]> ps) k p1 j (grown c n)); [|by rewrite list_lookup_insert_eq|done|by cbn; rewrite list_lookup_insert_eq].
    cbn [p1 grown_request set_written pd_chunks]. rewrite !take_insert_ge, !drop_insert_lt by lia. rewrite piece_grown by lia.
    pose proof (rq_active _ _ Hr) as Hact. rewrite Ha in Hact. destruct Hact as [_ Hpl]. destruct (placed_within _ _ _ _ Hpl Hc) as [Hlo _].
    pose proof (rq_offset _ _ Hr) as H0.
    assert (E : Z.to_nat (ck_offset c + ck_progress c) = (Z.to_nat (ck_offset c) + length (take (Z.to_nat (ck_progress c)) (ck_data c)))%nat)
      by (lengths).
    pose proof (later_apart ps k p j c n Hok Hex Hp Hd Ha Hc Hn) as Hap. rewrite E in Hap |- *.
    rewrite (Hw (pd_fh p)), (pieces_split (pd_fh p) ps k p j c) by done. unfold piece at 2. by rewrite write_all_grow.
  - rewrite (Hw x). f_equal. rewrite <-(take_drop_middle ps k p Hp) at 1. rewrite insert_take_drop by done.
    change (p :: drop (S k) ps) with ([p] ++ drop (S k) ps). change (p1 :: drop (S k) ps) with ([p1] ++ drop (S k) ps).
    rewrite !pieces_on_app, !pieces_on_one. by rewrite !decide_False by done.
Qed.

(** What is left to do: bytes, and chunks. *)
Definition left_of (c : chunk) : nat := (length (ck_data c) - Z.to_nat (ck_progress c)) + (if ck_complete c then 0 else 1).
Definition left_in (p : pending) : nat := sum_list_with left_of (pd_chunks p).
Definition left_over (ps : list pending) : nat := sum_list_with left_in ps.

Lemma sum_insert {A} (g : A → nat) l i x y : l !! i = Some x → (sum_list_with g (<[i := y]> l) + g x = sum_list_with g l + g y)%nat.
Proof.
  intros Hx. rewrite insert_take_drop by (by eapply lookup_lt_Some). rewrite <-(take_drop_middle l i x Hx) at 3.
  rewrite !sum_list_with_app. cbn. lia.
Qed.

Lemma left_grown ps k p j c n stable : ps !! k = Some p → pd_chunks p !! j = Some c → ck_complete c = false → chunk_ok c →
  0 <= n <= Z.of_nat (length (ck_data c)) - ck_progress c → n ≠ 0 ∨ Z.of_nat (length (ck_data c)) - ck_progress c = 0 →
  (left_over (<[k := grown_request p j c n stable]> ps) < left_over ps)%nat.
Proof.
  intros Hp Hc Hcomp [Hok _] Hn Hprog. pose proof (sum_insert left_in ps k p (grown_request p j c n stable) Hp) as E1. fold (left_over ps) in E1.
  pose proof (sum_insert left_of (pd_chunks p) j c (grown c n) Hc) as E2. unfold left_over.
  change (left_in p) with (sum_list_with left_of (pd_chunks p)) in E1.
  change (left_in (grown_request p j c n stable)) with (sum_list_with left_of (<[j := grown c n]> (pd_chunks p))) in E1. unfold left_over in E1.
  assert (left_of (grown c n) < left_of c)%nat; [|lia]. unfold left_of. rewrite Hcomp. cbn [grown ck_data ck_progress ck_complete].
  destruct (Z.eqb_spec (ck_progress c + n) (Z.of_nat (length (ck_data c)))); lia.
Qed.

Lemma wire_op_grown ps k p j c n stable x : ps !! k = Some p → pd_chunks p !! j = Some c → x ≠ (k, j) →
  wire_op (<[k := grown_request p j c n stable]> ps) x = wire_op ps x.
Proof.
  intros Hp Hc Hx. destruct x as [k' j']. unfold wire_op. cbn [fst snd]. destruct (decide (k' = k)) as [->|Hne].
  - rewrite list_lookup_insert_eq by (by eapply lookup_lt_Some). rewrite Hp. cbn [mbind option_bind grown_request set_written pd_chunks pd_fh pd_stateid].
    rewrite list_lookup_insert_ne; [done|]. congruence.
  - by rewrite list_lookup_insert_ne by congruence.
Qed.

Lemma mapM_ext_in {A B} (g h : A → option B) l : (∀ x, x ∈ l → g x = h x) → mapM g l = mapM h l.
Proof. induction l as [|x l IH]; intros H; [done|]. cbn [mapM]. rewrite (H x) by left. rewrite IH; [done|]. intros y Hy. apply H. by right. Qed.

Definition under_way (ps : list pending) (x : nat * nat) : Prop :=
  ∃ p c, ps !! x.1 = Some p ∧ pd_done p = false ∧ pd_activated p = true ∧ pd_chunks p !! x.2 = Some c ∧ ck_complete c = false.

Lemma under_way_grown ps k p j c n stable x : ps !! k = Some p → pd_chunks p !! j = Some c → x ≠ (k, j) →
  under_way ps x → under_way (<[k := grown_request p j c n stable]> ps) x.
Proof.
  intros Hp Hc Hx (q & d & Hq & Hd & Ha & Hc' & Hcomp). destruct x as [k' j']. cbn [fst snd] in *. destruct (decide (k' = k)) as [->|Hne].
  - rewrite Hp in Hq. injection Hq as <-. exists (grown_request p j c n stable), d. cbn [fst snd].
    rewrite list_lookup_insert_eq by (by eapply lookup_lt_Some). split_and!; try done. cbn. rewrite list_lookup_insert_ne; [done|]. congruence.
  - exists q, d. cbn [fst snd]. by rewrite list_lookup_insert_ne by congruence.
Qed.

Lemma absorb_ok sel : ∀ ps f wires vs f' (b : NfsVecFs) (w : W), NoDup sel → Forall (under_way ps) sel → mapM (wire_op ps) sel = Some wires →
  (∀ i q, ps !! i = Some q → request_ok i q) → exclusive ps → written ps f → BatchSpec.answers (steps_of s (BWrite wires)) f = Ok (f', vs) →
  returns (for_each absorb (zip sel vs) ps) b w (λ r b' w', b' = b ∧ w' = w ∧
    match r with
    | Ok ps' => (∀ i q, ps' !! i = Some q → request_ok i q) ∧ Forall2 absorbed ps ps' ∧ written ps' f' ∧ (left_over ps' + length sel <= left_over ps)%nat
    | Err e => ∃ i, VfError.index e = Some i ∧ 0 <= i < Z.of_nat (length ps)
    end).
Proof.
  induction sel as [|[k j] sel IH]; intros ps f wires vs f' b w Hnd Huw Hwires Hok Hex Hw Hans.
  { cbn [for_each zip zip_with]. apply returns_ret. injection Hwires as <-. injection Hans as <- _.
    split; [done|]. split; [done|]. split; [done|]. split; [|split; [done|cbn; lia]].
    apply Forall2_same_length_lookup_2; [done|]. intros i x y -> [= ->]. done. }
  apply NoDup_cons in Hnd as [Hnot Hnd]. apply Forall_cons in Huw as [(p & c & Hp & Hd & Ha & Hc & Hcomp) Huw]. cbn [fst snd] in Hp, Hc.
  cbn [mapM] in Hwires. apply bind_Some in Hwires as (wr & Hwr & Hwires). apply bind_Some in Hwires as (wires' & Hwires' & [= <-]).
  unfold wire_op in Hwr. cbn [fst snd] in Hwr. rewrite Hp in Hwr. cbn [mbind option_bind] in Hwr. rewrite Hc in Hwr. injection Hwr as <-.
  cbn [steps_of fmap list_fmap BatchSpec.answers wr_fh wr_stateid wr_offset wr_data] in Hans. unfold step_of in Hans at 1. cbn [meaning] in Hans.
  destruct (at_fh _ _ _ _) as [[f1 [n level]]|] eqn:E1 in Hans; [|done].
  destruct (BatchSpec.answers _ f1) as [[f2 vs']|] eqn:E2 in Hans; [|done]. injection Hans as -> <-.
  assert (Hsw : sp_write s f (pd_fh p) (pd_stateid p) (ck_offset c + ck_progress c) FILE_SYNC4 (drop (Z.to_nat (ck_progress c)) (ck_data c)) = Ok (f1, (n, level))).
  { revert E1. unfold at_fh. by case_match. }
  pose proof (Hok _ _ Hp) as Hr. destruct (st_write _ _ _ Hstores _ _ _ _ _ _ _ _ _ (request_in _ _ Hr) Hsw) as [Hn0 Hcontent].
  pose proof (rq_chunks _ _ Hr) as Hcs. rewrite Forall_lookup in Hcs. pose proof (Hcs _ _ Hc) as Hcok.
  cbn [zip zip_with for_each]. set (bad := (Z.of_nat (length (ck_data c)) - ck_progress c <? n) || ((n =? 0) && negb (Z.of_nat (length (ck_data c)) - ck_progress c =? 0))).
  eapply (returns_bind _ _ _ _ (λ r b' w', b' = b ∧ w' = w ∧
    if bad then r = Err (VfError.errno (Some (Z.of_nat k)) EIO) else r = Ok (<[k := grown_request p j c n (pd_stable p && (level =? FILE_SYNC4))]> ps))).
  { unfold absorb. apply (returns_expect_bind _ p); [done|]. apply (returns_expect_bind _ c); [done|]. fold bad.
    destruct bad; [by apply returns_fail|by apply returns_ret]. }
  - intros ps1 b' w' (-> & -> & H). destruct bad eqn:Hbad; [done|]. injection H as ->. unfold bad in Hbad.
    assert (Hn : 0 <= n <= Z.of_nat (length (ck_data c)) - ck_progress c ∧ (n ≠ 0 ∨ Z.of_nat (length (ck_data c)) - ck_progress c = 0)).
    { apply orb_false_elim in Hbad as [Hbad1%Z.ltb_ge Hbad2]. split; [lia|]. destruct (Z.eqb_spec n 0); [right|by left]. cbn in Hbad2. lia. }
    destruct Hn as [Hn Hprogress]. set (p1 := grown_request p j c n _).
    assert (Hcar : Forall2 absorbed ps (<[k := p1]> ps)).
    { eapply absorbed_insert; [done|]. split; [split_and!; try done; congruence|]. split; [done|congruence]. }
    eapply returns_mono; [eapply (IH (<[k := p1]> ps) f1 wires' vs' f')|].
    + done.
    + rewrite Forall_forall in Huw |- *. intros x Hx. apply under_way_grown; [done..| |by apply Huw]. by intros ->.
    + rewrite <-Hwires'. apply mapM_ext_in. intros x Hx. eapply wire_op_grown; [done..|]. by intros ->.
    + intros i q [(<- & <- & _)|[_ Hq]]%list_lookup_insert_Some; [by apply grow_request_ok|by apply Hok].
    + by eapply carried_exclusive; [apply absorbed_carried|].
    + by apply (grow_written ps k p j c n _ f).
    + exact E2.
    + cbn beta. intros r b' w' (-> & -> & H). split; [done|]. split; [done|]. rewrite length_insert in H. destruct r as [ps'|e]; [|done].
      destruct H as (H1 & H2 & H3 & H4). split_and!; [done|by etrans|done|].
      pose proof (left_grown ps k p j c n (pd_stable p && (level =? FILE_SYNC4)) Hp Hc Hcomp Hcok Hn Hprogress). fold p1 in H. cbn [length]. lia.
  - intros e b' w' (-> & -> & H). destruct bad; [|done]. injection H as ->. split; [done|]. split; [done|]. exists (Z.of_nat k). split; [done|].
    apply lookup_lt_Some in Hp. lia.
Qed.

(** ** After a wave *)

Lemma complete_run_ok cs next prefix : ∃ m, complete_run cs next prefix = ((next + m)%nat, prefix + Z.of_nat (length (data_of (take m cs)))) ∧
  Forall (λ c, ck_complete c = true) (take m cs) ∧ (m = length cs ∨ ∃ c, cs !! m = Some c ∧ ck_complete c = false).
Proof.
  revert next prefix. induction cs as [|c cs IH]; intros next prefix; cbn [complete_run].
  { exists 0%nat. rewrite Nat.add_0_r, Z.add_0_r. split; [done|]. by split; [|left]. }
  destruct (ck_complete c) eqn:Hc.
  - destruct (IH (S next) (prefix + Z.of_nat (length (ck_data c)))) as (m & -> & Hall & Hend). exists (S m). cbn [take length lookup list_lookup].
    rewrite data_cons, length_app. split; [f_equal; lia|]. split; [by constructor|]. destruct Hend as [->|?]; [by left|by right].
  - exists 0%nat. rewrite Nat.add_0_r, Z.add_0_r. split; [done|]. split; [constructor|]. right. by exists c.
Qed.

(** A request after a wave: its chunks are as they were, and it is done when all
    of them are. *)
Definition settled (i : nat) (p p' : pending) : Prop :=
  carried p p' ∧ pd_chunks p' = pd_chunks p ∧ request_ok i p' ∧ unfinished p'.
Definition advances (fd : Z) (p : pending) : bool := pd_activated p && negb (pd_done p) && at_cursor fd p.

Lemma settled_run i p m : request_ok i p → pd_activated p = true → pd_done p = false →
  Forall (λ c, ck_complete c = true) (take m (drop (pd_next p) (pd_chunks p))) →
  m = length (drop (pd_next p) (pd_chunks p)) ∨ (∃ c, drop (pd_next p) (pd_chunks p) !! m = Some c ∧ ck_complete c = false) →
  settled i p (set_settled p (pd_next p + m) (pd_prefix p + Z.of_nat (length (data_of (take m (drop (pd_next p) (pd_chunks p))))))
    (bool_decide ((pd_next p + m)%nat = length (pd_chunks p)))).
Proof.
  intros Hr Ha Hd Hall Hend. set (next := (pd_next p + m)%nat). pose proof (rq_bound _ _ Hr) as Hb.
  assert (Htake : take next (pd_chunks p) = take (pd_next p) (pd_chunks p) ++ take m (drop (pd_next p) (pd_chunks p))) by (by rewrite take_take_drop).
  split; [split_and!; try done; congruence|]. split; [done|]. split.
  - destruct Hr as [Hw Ho Hfirst Hdata Hcs Hnext Hpre Hbound Hdone Hact Hknown H0].
    split; cbn [set_settled pd_write pd_fh pd_positional pd_predecessor pd_chunks pd_next pd_prefix pd_done pd_activated pd_offset]; try done.
    + rewrite Htake. by apply Forall_app.
    + rewrite Htake, Hpre. unfold data_of. rewrite fmap_app, join_app, length_app. lia.
    + destruct Hend as [->|(c & Hc & _)]; [rewrite length_drop in *; unfold next; lengths|].
      apply lookup_lt_Some in Hc. rewrite length_drop in Hc. unfold next. lia.
    + by intros ?%bool_decide_eq_true.
    + by rewrite Ha in *.
  - intros Hnd%bool_decide_eq_false. cbn [set_settled pd_chunks pd_next]. destruct Hend as [E|(c & Hc & Hcomp)].
    + rewrite length_drop in E. destruct Hnd. unfold next. lia.
    + rewrite lookup_drop in Hc. by exists c.
Qed.

Lemma settle_ok i p acc b (w : W) : request_ok i p → (pd_activated p = false → unfinished p) →
  returns (settle p acc) b w (λ r b' w', w' = w ∧ ∃ p', r = Ok (acc ++ [p']) ∧ settled i p p' ∧ b' = set_files b (open_files b') ∧
    ∀ fd, open_files b' !! fd = (λ o, if advances fd p then set_cur_offset o (pd_offset p + contiguous_bytes p') else o) <$> open_files b !! fd).
Proof.
  intros Hr Hunf. unfold settle, advances.
  assert (Hid : ∀ fd, open_files b !! fd = (λ o, o) <$> open_files b !! fd) by (intros fd; by destruct (open_files b !! fd)).
  destruct (negb (pd_activated p) || pd_done p) eqn:Hskip.
  { apply returns_ret. split; [done|]. exists p. split; [done|]. split.
    - split; [done|]. split; [done|]. split; [done|]. intros Hd. apply orb_prop in Hskip as [?%negb_true_iff|?]; [|congruence]. by apply Hunf.
    - split; [by destruct b|]. intros fd. replace (pd_activated p && negb (pd_done p)) with false by (by destruct (pd_activated p), (pd_done p)). apply Hid. }
  apply orb_false_elim in Hskip as [Ha%negb_false_iff Hd]. rewrite Ha, Hd. cbn [andb negb].
  destruct (complete_run_ok (drop (pd_next p) (pd_chunks p)) (pd_next p) (pd_prefix p)) as (m & -> & Hall & Hend).
  pose proof (settled_run i p m Hr Ha Hd Hall Hend) as Hset. set (p' := set_settled p _ _ _) in *.
  set (prefix := pd_prefix p + _) in *.
  eapply (returns_bind _ _ _ _ (λ r b' w', (∃ part, r = Ok part ∧ prefix + part = contiguous_bytes p') ∧ b' = b ∧ w' = w)); [| |by intros ??? [(? & ? & _) _]].
  { unfold contiguous_bytes. cbn [p' set_settled pd_prefix pd_done pd_chunks pd_next]. case_bool_decide as Hdone; [by apply returns_ret; eauto|].
    destruct Hset as (_ & _ & _ & Hu). destruct Hu as (c & Hc & _); [done|]. cbn [p' set_settled pd_chunks pd_next] in Hc. rewrite Hc.
    cbn [expect from_option]. apply returns_ret. eauto. }
  cbn beta iota. intros ? b1 w1 ((part & [= ->] & Hsum) & -> & ->). rewrite Hsum. destruct (rq_open _ _ Hr) as (fd0 & o0 & Hfd & _). unfold at_cursor. rewrite Hfd. cbn [FileOperand.fd].
  destruct (fw_offset (pd_write p)); cbn [is_cur andb]; [|unfold advance_offset; cbn [FileOperand.fd]; apply returns_modify_bind|].
  1,3: exists (Ok (acc ++ [p'])), b, w; (split; [done|]); (split; [done|]); exists p'; (split; [done|]); (split; [done|]); (split; [by destruct b|done]).
  apply returns_ret. split; [done|]. exists p'. split; [done|]. split; [done|]. split; [by destruct b|]. intros fd. cbn [open_files set_files].
  destruct (decide (fd0 = fd)) as [->|Hne]; [rewrite bool_decide_true by done; apply lookup_alter_eq|].
  rewrite bool_decide_false by congruence. rewrite lookup_alter_ne by done. apply Hid.
Qed.

Lemma settle_cursors acc q rest p p' b b' : cursors (acc ++ q :: rest) b → pd_write q = pd_write p → carried p p' →
  (pd_done p = true → q = p) → (pd_activated p = false → pd_activated q = false) →
  (∀ fd, advances fd p = true → ∀ i r, rest !! i = Some r → pd_activated r && at_cursor fd r = false) →
  (∀ fd, open_files b' !! fd = (λ o, if advances fd p then set_cur_offset o (pd_offset p + contiguous_bytes p') else o) <$> open_files b !! fd) →
  cursors (acc ++ p' :: rest) b'.
Proof.
  intros Hcur Hq (Hw & Ho & _ & _ & _ & Ha & Hd) Hdone Hact Hidle Hopen fd. rewrite Hopen, (Hcur fd).
  destruct (files0 !! fd) as [o|]; [|done]. cbn [fmap option_fmap option_map]. f_equal.
  assert (Hat' : at_cursor fd p' = at_cursor fd p) by (unfold at_cursor; by rewrite Hw). assert (Hatq : at_cursor fd q = at_cursor fd p) by (unfold at_cursor; by rewrite Hq).
  rewrite !cursor_of_app. cbn [cursor_of foldl]. rewrite Hat', Hatq, Ha. pose proof (Hidle fd) as Hi. destruct (advances fd p) eqn:Hadv; unfold advances in Hadv.
  - apply andb_prop in Hadv as [[-> _]%andb_prop ->]. cbn [andb]. rewrite set_cur_twice, Ho. f_equal. symmetry. apply idle_cursor. by apply Hi.
  - destruct (at_cursor fd p); [|by rewrite !andb_false_r]. destruct (pd_activated p) eqn:Hpa; [|by rewrite (Hact eq_refl)].
    cbn in Hadv. rewrite andb_true_r in Hadv. apply negb_false_iff in Hadv. rewrite (Hd Hadv), (Hdone Hadv). by rewrite Hpa.
Qed.

Lemma evolved_active p p' : evolved p p' → pd_activated p' = false → pd_activated p = false ∧ p' = p.
Proof. by intros [->|(_ & _ & _ & off & -> & _)]. Qed.
Lemma evolved_done p p' : evolved p p' → pd_done p' = true → p' = p.
Proof. intros [->|(_ & Hd & _ & off & -> & _)]; [done|]. cbn. congruence. Qed.

Lemma evolved_active_up p p' : evolved p p' → pd_activated p = true → pd_activated p' = true.
Proof. by intros [->|(_ & _ & _ & off & -> & _)]. Qed.

(** No later request moves the cursor a request under way moves. *)
Lemma settle_idle old mid ps i k p fd x : Forall2 evolved old mid → Forall2 absorbed mid ps → (∀ i q, ps !! i = Some q → request_ok i q) →
  exclusive ps → ps !! i = Some p → advances fd p = true → (i < k)%nat → old !! k = Some x → pd_activated x && at_cursor fd x = false.
Proof.
  intros Hev Hcar Hok Hex Hp Hadv Hik Hx. destruct (pd_activated x) eqn:Hxa; [|done]. destruct (at_cursor fd x) eqn:Hxat; [|done]. exfalso.
  destruct (Forall2_lookup_l _ _ _ _ _ Hev Hx) as (m & Hm & Em). destruct (Forall2_lookup_l _ _ _ _ _ Hcar Hm) as (y & Hy & ((Hw & _ & _ & _ & _ & Ha & _) & _)).
  destruct (evolved_same _ _ Em) as (_ & _ & Hwm & _). pose proof (evolved_active_up _ _ Em Hxa) as Hma.
  apply andb_prop in Hadv as [[_ Hd%negb_true_iff]%andb_prop Hat']. pose proof (Hok _ _ Hp) as Hr. pose proof (Hok _ _ Hy) as Hry.
  destruct (rq_open _ _ Hr) as (fd' & o & Hfd & Ho & Hfh & Hpos). pose proof Hat' as [Hc Hf%bool_decide_eq_true]%andb_prop.
  rewrite Hfd in Hf. injection Hf as ->.
  destruct (Hex i k p y Hik Hp Hy) as [?|(H & _)]; [|congruence..|].
  - rewrite Hfh. symmetry. eapply at_cursor_fh; [exact Hry| |done]. unfold at_cursor in *. by rewrite Hw, Hwm.
  - rewrite Hpos in H. by destruct (fw_offset (pd_write p)).
Qed.

Lemma settle_all_ok old mid ps b (w : W) : Forall2 evolved old mid → Forall2 absorbed mid ps → (∀ i q, ps !! i = Some q → request_ok i q) →
  exclusive ps → Forall unfinished mid → cursors old b →
  returns (for_each settle ps []) b w (λ r b' w', w' = w ∧ b' = set_files b (open_files b') ∧ ∃ ps', r = Ok ps' ∧
    Forall2 (λ p p', carried p p' ∧ pd_chunks p' = pd_chunks p ∧ unfinished p') ps ps' ∧ (∀ i q, ps' !! i = Some q → request_ok i q) ∧ cursors ps' b').
Proof.
  intros Hev Hcar Hok Hex Hunf Hcur.
  assert (Hlen : length old = length ps) by (rewrite (Forall2_length _ _ _ Hev); by eapply Forall2_length).
  eapply returns_mono; [apply (returns_for_each _ (λ pre acc b' w', w' = w ∧ b' = set_files b (open_files b') ∧ 
    Forall2 (λ p p', carried p p' ∧ pd_chunks p' = pd_chunks p ∧ unfinished p') pre acc ∧ (∀ i q, acc !! i = Some q → request_ok i q) ∧
    cursors (acc ++ drop (length pre) old) b') (λ _ _ _, False))|].
  - split_and!; [done|by destruct b|constructor|done|by rewrite drop_0].
  - intros pre p post acc b1 w1 Hps (-> & Hb1 & Hacc & Hokacc & Hc1).
    assert (Hp : ps !! length pre = Some p) by (rewrite Hps; by apply list_lookup_middle).
    destruct (Forall2_lookup_r _ _ _ _ _ Hcar Hp) as (m & Hm & Cm). destruct (Forall2_lookup_r _ _ _ _ _ Hev Hm) as (q & Hq & Eq).
    pose proof Cm as ((Hw & _ & _ & _ & _ & Ha & _) & Hdm & Hidm).
    eapply returns_mono; [apply (settle_ok (length pre) p acc b1 w); [by apply Hok|]|].
    { intros Hna. rewrite Hidm by congruence. rewrite Forall_lookup in Hunf. by eapply Hunf. }
    cbn beta. intros r b2 w2 (-> & p' & -> & (Cp & Hch & Hrq & Hu) & Hb2 & Hopen). rewrite (drop_S _ _ _ Hq) in Hc1.
    split; [done|]. split; [rewrite Hb2, Hb1; by destruct b|]. split; [apply Forall2_app; [done|constructor; [done|constructor]]|]. split.
    + assert (Hla : length acc = length pre) by (symmetry; by eapply Forall2_length).
      intros i x Hx. apply lookup_app_Some in Hx as [Hx|[Hge Hx]]; [by apply Hokacc|].
      apply list_lookup_singleton_Some in Hx as [Hi <-]. by replace i with (length pre) by lia.
    + rewrite length_app, <-app_assoc. cbn [length app]. replace (length pre + 1)%nat with (S (length pre)) by lia.
      eapply (settle_cursors acc q _ p p' b1 b2); try done.
      * destruct (evolved_same _ _ Eq) as (_ & _ & H & _). congruence.
      * intros Hpd. rewrite Hdm in Hpd. destruct Cm as [(_ & _ & _ & _ & _ & _ & Hd) _]. rewrite (Hd Hpd). symmetry. by apply evolved_done.
      * intros Hna. destruct (evolved_active _ _ Eq); [congruence|done].
      * intros fd Hadv i x Hx. rewrite lookup_drop in Hx. eapply (settle_idle old mid ps (length pre) _ p); try done. lia.
  - cbn beta. intros [ps'|e] b' w' H; [|done]. destruct H as (-> & Hb & H1 & H2 & H3). split; [done|]. split; [done|]. exists ps'.
    split; [done|]. split; [done|]. split; [done|]. by rewrite drop_ge, app_nil_r in H3 by lia.
Qed.

(** ** Where bytes may come from *)

(** The byte [v] that the sequence puts at [p] of the file [x]. *)
Definition puts (x : nfs_fh4) (p : nat) (v : Byte.byte) : Prop :=
  ∃ i r off, rs !! i = Some r ∧ offs !! i = Some off ∧ fh_of files0 r = Some x ∧ (Z.to_nat off <= p)%nat ∧ fw_data r !! (p - Z.to_nat off)%nat = Some v.
Definition safe (f : F) : Prop := ∀ x,
  (origin (content f0 x) (puts x) (content f x) ∧ (length (content f0 x) <= length (content f x))%nat) ∧
  (x ∉ handles files0 rs → content f x = content f0 x).

Definition proper (x : nfs_fh4) (y : nat * bytes) : Prop := ∀ m v, y.2 !! m = Some v → puts x (y.1 + m) v.

Lemma origin_all c0 ok l c : origin c0 ok c → (length c0 <= length c)%nat → Forall (λ y : nat * bytes, ∀ m v, y.2 !! m = Some v → ok (y.1 + m)%nat v) l →
  origin c0 ok (write_all c l) ∧ (length c0 <= length (write_all c l))%nat.
Proof.
  intros Ho Hl Hall. revert c Ho Hl. induction Hall as [|y l Hy _ IH]; intros c Ho Hl; [done|]. cbn [write_all foldl].
  destruct (origin_write c0 ok c y.1 y.2 Ho Hl Hy) as [Ho' Hl']. by apply IH.
Qed.

(** What a request under way writes. *)
Lemma chunk_proper i p j c : request_ok i p → pd_activated p = true → pd_chunks p !! j = Some c →
  ∀ n m v, 0 <= n → drop (Z.to_nat n) (ck_data c) !! m = Some v → puts (pd_fh p) (Z.to_nat (ck_offset c + n) + m) v.
Proof.
  intros Hr Ha Hc n m v Hn Hv. pose proof (rq_active _ _ Hr) as Hact. rewrite Ha in Hact. destruct Hact as [Hoff Hpl].
  destruct (placed_at _ _ _ _ Hpl Hc) as [Ho _]. pose proof (rq_offset _ _ Hr) as H0. rewrite lookup_drop in Hv.
  exists i, (pd_write p), (pd_offset p). split; [apply (rq_write _ _ Hr)|]. split; [done|]. split; [by eapply request_fh|]. split; [lia|].
  rewrite <-(rq_data _ _ Hr), (data_split _ _ _ Hc), lookup_app_r by lia. rewrite lookup_app_l; [|apply lookup_lt_Some in Hv; lia].
  rewrite <-Hv. f_equal. lia.
Qed.

Lemma no_pieces ps x : (∀ i q, ps !! i = Some q → request_ok i q) → x ∉ handles files0 rs → pieces_on x ps = [].
Proof.
  intros Hok Hx. unfold pieces_on. apply join_nil_2, Forall_fmap, Forall_lookup. intros i q Hq. cbn. rewrite decide_False; [done|].
  intros <-. by eapply Hx, request_in, Hok.
Qed.
Lemma written_safe ps f : (∀ i q, ps !! i = Some q → request_ok i q) → written ps f → safe f.
Proof.
  intros Hok Hw x. rewrite (Hw x). split; [|by intros Hx; rewrite (no_pieces ps x Hok Hx)].
  apply origin_all; [by left|done|]. apply Forall_lookup. intros k y Hy.
  unfold pieces_on in Hy. apply join_lookup_Some in Hy as (i & l & j & Hl & Hj & _). rewrite list_lookup_fmap in Hl.
  destruct (ps !! i) as [q|] eqn:Hq; [|done]. injection Hl as <-. destruct (decide (pd_fh q = x)) as [<-|]; [|done].
  rewrite list_lookup_fmap in Hj. destruct (pd_chunks q !! j) as [c|] eqn:Hc; [|done]. injection Hj as <-. pose proof (Hok _ _ Hq) as Hr.
  intros m v. unfold piece. cbn [fst snd]. intros [Hv Hm]%lookup_take_Some. destruct (pd_activated q) eqn:Ha.
  - replace (ck_offset c) with (ck_offset c + 0) by lia. by eapply (chunk_proper i q j c Hr Ha Hc 0).
  - pose proof (rq_active _ _ Hr) as Hact. rewrite Ha in Hact. destruct Hact as [Hfresh _]. rewrite Forall_lookup in Hfresh.
    destruct (Hfresh _ _ Hc) as [Hz _]. rewrite Hz in Hm. cbn in Hm. lia.
Qed.

Lemma answers_safe wires k f f' vs : Forall (λ wr, wr_fh wr ∈ handles files0 rs ∧ proper (wr_fh wr) (Z.to_nat (wr_offset wr), wr_data wr)) wires →
  BatchSpec.answers (take k (steps_of s (BWrite wires))) f = Ok (f', vs) → safe f → safe f'.
Proof.
  intros Hall. revert k f vs. induction Hall as [|wr wires [Hin Hwr] _ IH]; intros k f vs Hans Hf.
  { cbn [steps_of fmap list_fmap] in Hans. rewrite take_nil in Hans. by injection Hans as <- _. }
  destruct k as [|k]; [by injection Hans as <- _|].
  cbn [steps_of fmap list_fmap take BatchSpec.answers] in Hans. unfold step_of in Hans at 1. cbn [meaning] in Hans.
  destruct (at_fh _ _ _ _) as [[f1 [n level]]|] eqn:E1 in Hans; [|done].
  destruct (BatchSpec.answers _ f1) as [[f2 vs']|] eqn:E2 in Hans; [|done]. injection Hans as -> _.
  apply (IH k f1 vs'); [exact E2|].
  assert (Hsw : sp_write s f (wr_fh wr) (wr_stateid wr) (wr_offset wr) FILE_SYNC4 (wr_data wr) = Ok (f1, (n, level))) by (revert E1; unfold at_fh; by case_match).
  destruct (st_write _ _ _ Hstores _ _ _ _ _ _ _ _ _ Hin Hsw) as [_ Hc]. intros x. rewrite Hc. destruct (decide (x = wr_fh wr)) as [->|]; [|apply Hf].
  destruct (Hf (wr_fh wr)) as [[Ho Hl] _]. split; [|done]. apply origin_write; [done..|]. intros j v [Hv _]%lookup_take_Some. by apply Hwr.
Qed.

Lemma wires_proper ps sel wires : (∀ i q, ps !! i = Some q → request_ok i q) → Forall (under_way ps) sel → mapM (wire_op ps) sel = Some wires →
  Forall (λ wr, wr_fh wr ∈ handles files0 rs ∧ proper (wr_fh wr) (Z.to_nat (wr_offset wr), wr_data wr)) wires.
Proof.
  intros Hok Huw Hm. apply mapM_Some in Hm. revert Huw. induction Hm as [|[k j] wr sel wires Hwr _ IH]; intros Huw; [constructor|].
  apply Forall_cons in Huw as [(p & c & Hp & Hd & Ha & Hc & _) Huw]. constructor; [|by apply IH]. unfold wire_op in Hwr. cbn [fst snd] in *.
  rewrite Hp in Hwr. cbn [mbind option_bind] in Hwr. rewrite Hc in Hwr. injection Hwr as <-. cbn [wr_fh wr_offset wr_data].
  pose proof (Hok _ _ Hp) as Hr. split; [by eapply request_in|]. intros m v Hv. cbn [fst snd] in *. pose proof (rq_chunks _ _ Hr) as Hcs. rewrite Forall_lookup in Hcs.
  destruct (Hcs _ _ Hc) as [? _]. eapply chunk_proper; try done. lia.
Qed.

(** ** One wave *)

Lemma evolved_left ps ps' : Forall2 evolved ps ps' → left_over ps' = left_over ps.
Proof.
  assert (Hp : ∀ off cs, sum_list_with left_of (place off cs) = sum_list_with left_of cs).
  { intros off cs. revert off. induction cs as [|c cs IH]; intros off; [done|]. cbn [place sum_list_with]. by rewrite IH. }
  induction 1 as [|p p' ps ps' He _ IH]; [done|]. unfold left_over in *. cbn [sum_list_with]. rewrite IH. f_equal.
  destruct He as [->|(_ & _ & _ & off & -> & _)]; [done|]. apply Hp.
Qed.

Lemma picked_bound sel ps : NoDup sel → Forall (under_way ps) sel → (∀ i q, ps !! i = Some q → Forall chunk_ok (pd_chunks q)) →
  (length sel <= left_over ps)%nat.
Proof.
  revert ps. induction sel as [|[k j] sel IH]; intros ps Hnd Huw Hok; [cbn; lia|].
  apply NoDup_cons in Hnd as [Hnot Hnd]. apply Forall_cons in Huw as [(p & c & Hp & Hd & Ha & Hc & Hcomp) Huw]. cbn [fst snd] in *.
  pose proof (Hok _ _ Hp) as Hcs. rewrite Forall_lookup in Hcs. pose proof (Hcs _ _ Hc) as Hcok. destruct Hcok as [Hprog _].
  set (n := Z.of_nat (length (ck_data c)) - ck_progress c).
  assert (Hlt : (left_over (<[k := grown_request p j c n (pd_stable p)]> ps) < left_over ps)%nat).
  { apply left_grown; try done; [by apply (Hcs _ _ Hc)|unfold n; lia|]. destruct (decide (n = 0)); [right; unfold n in *; lia|by left]. }
  specialize (IH (<[k := grown_request p j c n (pd_stable p)]> ps) Hnd).
  enough (length sel <= left_over (<[k := grown_request p j c n (pd_stable p)]> ps))%nat by (cbn; lia). apply IH.
  - rewrite Forall_forall in Huw |- *. intros x Hx. apply under_way_grown; [done..| |by apply Huw]. by intros ->.
  - intros i q [(<- & <- & _)|[_ Hq]]%list_lookup_insert_Some; [|by eapply Hok]. cbn. apply Forall_insert; [by eapply Hok|].
    split; cbn [grown ck_progress ck_data ck_complete]; [unfold n; lia|]. by intros ?%Z.eqb_eq.
Qed.

Lemma picked_under_way ps sel : picked ps sel → NoDup sel ∧ Forall (under_way ps) sel.
Proof. intros [Hnd H]. split; [done|]. apply Forall_forall. intros [k j] Hx. exact (H k j Hx). Qed.

Lemma wires_defined ps sel : Forall (under_way ps) sel → is_Some (mapM (wire_op ps) sel).
Proof.
  intros H. apply mapM_is_Some_2. eapply Forall_impl; [exact H|]. intros [k j] (p & c & Hp & _ & _ & Hc & _). cbn [fst snd] in *.
  assert (Hwr : is_Some (wire_op ps (k, j))); [|exact Hwr]. unfold wire_op. cbn [fst snd]. rewrite Hp. cbn [mbind option_bind]. rewrite Hc. by eexists.
Qed.

Definition moved (b b' : NfsVecFs) : Prop := b' = set_files (set_nfs b (nfs b')) (open_files b') ∧ same_limits (nfs b) (nfs b').
#[local] Instance moved_preorder : PreOrder moved.
Proof.
  split; [intros b; split; [by destruct b|auto with vnfs]|].
  intros b b1 b2 [E1 H1] [E2 H2]. split; [rewrite E2, E1; by destruct b|by eapply SendLemmas.same_limits_trans].
Qed.
Lemma kept_moved b b' : kept b b' → moved b b'.
Proof. intros [-> H]. split; [by destruct b|done]. Qed.

(** The client's batch of WRITEs. *)
Lemma client_writes fuel wires (conv : RpcError.t → VfError.t) b w : fits b →
  (Z.of_nat (length wires) + 1) * (Z.of_nat (length wires) + 1) <= Z.of_nat fuel →
  returns (client (λ cl w, writev rpc xdr_len fuel cl wires w) conv) b w (λ r b' w', kept b b' ∧
    match r with
    | Ok vs => BatchSpec.answers (steps_of s (BWrite wires)) (fs w) = Ok (fs w', vs)
    | Err e => ∃ e0 k vs, e = conv e0 ∧ BatchSpec.answers (take k (steps_of s (BWrite wires))) (fs w) = Ok (fs w', vs) ∧
        (RpcError.is_transport e0 = true ∨ RpcError.op_index e0 = Z.of_nat k ∧ (k < length wires)%nat)
    end).
Proof.
  intros Hb Hfuel. apply returns_client.
  assert (Hlen : length (steps_of s (BWrite wires)) = length wires) by apply length_fmap.
  destruct (run_batch_refines s rpc fs Hrpc Himp xdr_len (BWrite wires) (nfs b) w fuel Hb) as (r & cl' & w' & E & Hs & Hr).
  { by rewrite Hlen. }
  exists r, cl', w'. split; [exact E|]. split; [auto with vnfs|]. destruct r as [vs|e].
  - destruct Hr as (vs' & Ha & ->). exact Ha.
  - destruct Hr as (k & vs & Ha & Hi). exists e, k, vs. split; [done|]. split; [exact Ha|]. by rewrite Hlen in Hi.
Qed.

Lemma moved_fits b b' : moved b b' → fits b → fits b'.
Proof. intros [_ (Hm & _)]. unfold fits. by rewrite Hm. Qed.

Lemma wave_error n (sel : list (nat * nat)) ps e0 k : Forall (under_way ps) sel → length ps = n →
  RpcError.is_transport e0 = true ∨ RpcError.op_index e0 = Z.of_nat k ∧ (k < length sel)%nat →
  names_item n (VfError.map_index (error_from_rpc_indexed e0) (λ i, default i (Z.of_nat ∘ fst <$> sel !! Z.to_nat i))).
Proof.
  intros Huw <- He0. destruct (error_from_rpc_indexed_attribution e0) as (Ht & Hi & _).
  destruct (RpcError.is_transport e0); [by left|]. destruct He0 as [|[Hk Hlt]]; [done|]. right.
  unfold VfError.map_index. cbn [VfError.index]. rewrite Hi, Hk. cbn [fmap option_fmap option_map]. rewrite Nat2Z.id.
  destruct (lookup_lt_is_Some_2 sel k Hlt) as [[k' j] Hx]. rewrite Hx. cbn. exists (Z.of_nat k'). split; [done|].
  rewrite Forall_lookup in Huw. destruct (Huw _ _ Hx) as (p & c & Hp & _). apply lookup_lt_Some in Hp. cbn in Hp. lia.
Qed.

Lemma settled_inv old mid ps ps' b b' f : waves_inv old b f → Forall2 absorbed mid ps → exclusive ps → length mid = length old → ∀ f',
  written ps f' → Forall2 (λ p p', carried p p' ∧ pd_chunks p' = pd_chunks p ∧ unfinished p') ps ps' →
  (∀ i q, ps' !! i = Some q → request_ok i q) → cursors ps' b' → waves_inv ps' b' f' ∧ left_over ps' = left_over ps.
Proof.
  intros Hinv Habs Hex Hlen f' Hw Hset Hok Hcur. assert (Hpl : length ps' = length rs).
  { rewrite <-(Forall2_length _ _ _ Hset), <-(Forall2_length _ _ _ Habs), Hlen. apply (wi_requests _ _ _ Hinv). }
  split.
  - split; [done| | | |done].
    + apply Forall_lookup. intros i p' Hp'. by destruct (Forall2_lookup_r _ _ _ _ _ Hset Hp') as (p & _ & _ & _ & ?).
    + eapply carried_exclusive; [|exact Hex]. eapply Forall2_impl; [exact Hset|]. by intros ?? [].
    + intros x. rewrite (Hw x). f_equal. unfold pieces_on. f_equal. clear -Hset. induction Hset as [|p p' ps ps' (Hc & Hch & _) _ IH]; [done|].
      cbn [fmap list_fmap]. rewrite IH. destruct Hc as (_ & _ & -> & _). by rewrite Hch.
  - unfold left_over. clear -Hset. induction Hset as [|p p' ps ps' (_ & Hch & _) _ IH]; [done|]. cbn [sum_list_with]. rewrite IH. unfold left_in. by rewrite Hch.
Qed.

Lemma write_wave_ok fuel limit ps b w : waves_inv ps b (fs w) → fits b → Exists (λ p, pd_done p = false) ps →
  (Z.of_nat (left_over ps) + 1) * (Z.of_nat (left_over ps) + 1) <= Z.of_nat fuel →
  returns (write_wave rpc xdr_len fuel limit ps) b w (λ r b' w', moved b b' ∧
    match r with
    | Ok ps' => waves_inv ps' b' (fs w') ∧ (left_over ps' < left_over ps)%nat
    | Err e => names_item (length rs) e ∧ safe (fs w')
    end).
Proof.
  intros Hinv Hfits Hundone Hfuel. unfold write_wave. pose proof (wi_requests _ _ _ Hinv) as [Hlen Hok].
  pose proof (written_safe ps (fs w) Hok (wi_written _ _ _ Hinv)) as Hsafe.
  eapply returns_bind; [apply (select_ok limit (fs w) b ps ps Hinv [] [] (MakeWave [] 0 ∅) b w); try done|..].
  { exact (wi_exclusive _ _ _ Hinv). }
  { intros x. cbn. by rewrite lookup_empty. }
  { split; [constructor|]. by intros ?? ?%not_elem_of_nil. }
  { by left. }
  2:{ cbn beta iota. intros e b1 w1 (Hk & Hw & i & Hi & Hr). split; [by apply kept_moved|]. split; [right; exists i; split; [done|lia]|]. by rewrite Hw. }
  cbn beta iota. intros [mid wv] b1 w1 (Hk1 & Hw1 & Hev & Hokm & Hexm & Hpick & Hne). cbn [app wv_selected] in *.
  set (sel := wv_selected wv) in *. destruct (picked_under_way _ _ Hpick) as [Hnd Huw]. destruct (wires_defined _ _ Huw) as [wires Hwires].
  assert (Hlm : length mid = length ps) by (symmetry; by eapply Forall2_length).
  assert (Hlw : length wires = length sel) by (apply mapM_Some, Forall2_length in Hwires; congruence).
  assert (Hwm : written mid (fs w)) by (intros x; rewrite (wi_written _ _ _ Hinv x); symmetry; by apply evolved_pieces).
  assert (Hbound : (length sel <= left_over ps)%nat).
  { rewrite <-(evolved_left _ _ Hev). apply picked_bound; [done..|]. intros i q Hq. exact (rq_chunks _ _ (Hokm _ _ Hq)). }
  apply (returns_expect_bind _ wires); [done|].
  eapply returns_bind; [apply (client_writes fuel wires); [eauto with vnfs|rewrite Hlw; nia]|..].
  - cbn beta iota. intros vs b2 w2 (Hk2 & Hans). rewrite Hw1 in Hans.
    assert (Hlv : length vs = length sel) by (rewrite (answers_length _ _ _ _ Hans), <-Hlw; apply length_fmap).
    rewrite bool_decide_true by done. cbn [negb].
    eapply returns_bind; [apply (absorb_ok sel mid (fs w) wires vs (fs w2)); done|..].
    + cbn beta iota. intros ps2 b3 w3 (-> & -> & Hok2 & Habs & Hw2 & Hleft).
      assert (Hex2 : exclusive ps2) by (by eapply carried_exclusive; [apply absorbed_carried|]).
      eapply returns_mono; [apply (settle_all_ok ps mid ps2 b2 w2 Hev Habs Hok2 Hex2)|].
      * apply Forall_lookup. intros i q Hq. destruct (Forall2_lookup_r _ _ _ _ _ Hev Hq) as (q0 & Hq0 & He). eapply evolved_unfinished; [done|].
        pose proof (wi_unfinished _ _ _ Hinv) as Hu. rewrite Forall_lookup in Hu. by eapply Hu.
      * eapply wi_cursors, inv_kept; [|exact Hinv]. by etrans.
      * cbn beta. intros r b3 w3 (-> & Hb3 & ps3 & -> & Hset & Hok3 & Hcur3).
        destruct (settled_inv ps mid ps2 ps3 b b3 (fs w) Hinv Habs Hex2 Hlm (fs w2) Hw2 Hset Hok3 Hcur3) as [Hinv3 Hl3]. split.
        -- etrans; [apply kept_moved; etrans; [exact Hk1|exact Hk2]|]. split; [rewrite Hb3; by destruct b2|]. rewrite Hb3. auto with vnfs.
        -- split; [done|]. rewrite Hl3, <-(evolved_left _ _ Hev). assert (sel ≠ []) by (apply Hne; by right). destruct sel; [done|]. cbn in Hleft. lia.
    + cbn beta iota. intros e b3 w3 (-> & -> & i & Hi & Hr). split; [apply kept_moved; by etrans|]. split; [right; exists i; split; [done|lia]|].
      eapply (answers_safe wires (length wires) (fs w) _ vs); [by eapply wires_proper| |done]. rewrite take_ge; [exact Hans|]. cbn [steps_of]. by rewrite length_fmap.
  - cbn beta iota. intros e b2 w2 (Hk2 & e0 & k & vs & -> & Hans & Hi). rewrite Hw1 in Hans. split; [apply kept_moved; by etrans|].
    split; [|by eapply answers_safe; [eapply wires_proper|..]]. rewrite Hlw in Hi. eapply wave_error; [done|lia|done].
Qed.

(** ** All waves *)

Lemma undone_left ps : Forall unfinished ps → Exists (λ p, pd_done p = false) ps → (1 <= left_over ps)%nat.
Proof.
  intros Hu (p & Hp & Hd)%Exists_exists. rewrite Forall_forall in Hu. destruct (Hu p Hp Hd) as (c & Hc & Hcomp).
  pose proof (sum_list_with_in p left_in ps Hp) as H1. pose proof (sum_list_with_in c left_of (pd_chunks p) ltac:(by eapply list_elem_of_lookup_2)) as H2.
  unfold left_over. unfold left_in in H1 at 1. unfold left_of in H2 at 1. rewrite Hcomp in H2. lia.
Qed.

Lemma guard_undone ps : existsb (negb ∘ pd_done) ps = true → Exists (λ p, pd_done p = false) ps.
Proof. intros (p & Hin & Hp)%existsb_exists. apply Exists_exists. exists p. split; [by apply list_elem_of_In|]. by apply negb_true_iff. Qed.
Lemma guard_done ps i p : existsb (negb ∘ pd_done) ps = false → ps !! i = Some p → pd_done p = true.
Proof.
  intros H Hp. destruct (pd_done p) eqn:E; [done|]. rewrite <-H. apply existsb_exists. exists p.
  split; [apply list_elem_of_In; by eapply list_elem_of_lookup_2|]. cbn. by rewrite E.
Qed.

Lemma waves_ok fuel limit ps b w : waves_inv ps b (fs w) → fits b → waves_needed ps = left_over ps →
  (Z.of_nat (left_over ps) + 1) * (Z.of_nat (left_over ps) + 1) <= Z.of_nat fuel →
  returns (while_ (waves_needed ps) (existsb (negb ∘ pd_done)) (write_wave rpc xdr_len fuel limit) ps) b w (λ r b' w', moved b b' ∧
    match r with
    | Ok ps' => waves_inv ps' b' (fs w') ∧ existsb (negb ∘ pd_done) ps' = false
    | Err e => names_item (length rs) e ∧ safe (fs w')
    end).
Proof.
  intros Hinv Hfits Hneed Hfuel.
  eapply returns_mono; [apply (returns_while _ _ _ (λ ps' b' w', moved b b' ∧ waves_inv ps' b' (fs w') ∧ (left_over ps' <= left_over ps)%nat)
    (λ e b' w', moved b b' ∧ names_item (length rs) e ∧ safe (fs w')) (λ ps', Z.of_nat (left_over ps') - 1))|].
  - intros ps1 b1 w1 (_ & Hi & _) Hg%guard_undone. pose proof (undone_left ps1 (wi_unfinished _ _ _ Hi) Hg). lia.
  - intros ps1 b1 w1 (Hm & Hi & Hle) Hg%guard_undone.
    eapply returns_mono; [apply (write_wave_ok fuel limit ps1 b1 w1 Hi); [by eapply moved_fits|done|nia]|].
    cbn beta. intros [ps2|e] b2 w2 [Hm2 H]; [|split; [by etrans|done]]. destruct H as [Hi2 Hlt]. split; [|lia]. split; [by etrans|]. split; [done|lia].
  - split; [done|]. split; [done|lia].
  - rewrite Hneed. lia.
  - cbn beta. intros [ps'|e] b' w' H; [|exact H]. destruct H as [(Hm & Hi & _) Hg]. done.
Qed.

(** When all requests are done, the sequence is. *)
Lemma waves_done ps b f : waves_inv ps b f → existsb (negb ∘ pd_done) ps = false →
  (∀ x, content f x = st_view last x) ∧ (∀ x, x ∉ handles files0 rs → content f x = content f0 x) ∧
  open_files b = st_files last ∧ pd_offset <$> ps = offs ∧ pd_write <$> ps = rs.
Proof.
  intros Hinv Hg. pose proof (wi_requests _ _ _ Hinv) as Hreq. destruct Hreq as [Hlen Hok] eqn:E. clear E.
  destruct (seq_writes_char _ _ _ _ Hseq) as (Hlo & Hview & Hfiles). cbn [st_view st_files] in *.
  assert (Hall : ∀ k q, ps !! k = Some q → pd_done q = true) by (intros k q; by apply guard_done).
  assert (Hzip : take (length ps) (zip rs offs) = zip rs offs) by (apply take_ge; lengths).
  split_and!.
  - intros x. rewrite (wi_written _ _ _ Hinv x), Hview, <-(take_ge ps (length ps)) at 1 by done.
    rewrite settled_view, Hzip; [done|done|done|]. intros k q _ Hq _. by eapply Hall.
  - intros x Hx. by rewrite (wi_written _ _ _ Hinv x), (no_pieces ps x Hok Hx).
  - apply map_eq. intros fd. rewrite (wi_cursors _ _ _ Hinv fd), Hfiles. destruct (files0 !! fd) as [o|] eqn:Ho; [|done].
    cbn [fmap option_fmap option_map]. do 2 f_equal. rewrite <-(take_ge ps (length ps)) at 1 by done.
    rewrite (settled_cursor ps (length ps) fd o), Hzip; try done. intros k q _ Hq _. by eapply Hall.
  - apply list_eq. intros i. rewrite list_lookup_fmap. destruct (ps !! i) as [p|] eqn:Hp.
    + cbn. pose proof (Hok _ _ Hp) as Hr. destruct (done_progress _ _ Hr (Hall _ _ Hp)) as (Ha & _). pose proof (rq_active _ _ Hr) as Hact.
      rewrite Ha in Hact. by destruct Hact as [-> _].
    + cbn. symmetry. apply lookup_ge_None. apply lookup_ge_None in Hp. lia.
  - apply list_eq. intros i. rewrite list_lookup_fmap. destruct (ps !! i) as [p|] eqn:Hp.
    + cbn. symmetry. exact (rq_write _ _ (Hok _ _ Hp)).
    + cbn. symmetry. apply lookup_ge_None. apply lookup_ge_None in Hp. lia.
Qed.
End Waves.
End WaveProofs.
