(* ===== verification/WriteBatch.v ===== *)
(** * Vectored writes through open files: the theorem

    Planning a batch, and the theorem about [vwrite_batch_nfs] of
    [crates/vfsi-nfs/src/nfs/io.rs], from the lemmas of [WriteWaves]. *)
From Stdlib Require Import Strings.Byte.
From stdpp Require Import base numbers countable list list_numbers gmap strings.
From S2P Require Import Prelude Path Errors Types Planner Compound Session Cursor Client IoProgress Loops Exchange Server Batch BatchOps BatchRun Resolve Single BatchSpec Reads Mutations Opens Lifecycle Remove Merged PathIo PathSpec Metadata StdPath Backend Namespace DescriptorIo DescriptorWrite WriteSpec WriteWaves.

(** The byte [v] that the batch, done one write after the other, puts at [p] of
    the file [x]. *)
Definition sequence_puts (st : store) (rs : list FileWrite) (x : nfs_fh4) (p : nat) (v : Byte.byte) : Prop :=
  ∃ offs last i r off, seq_writes st rs = Some (offs, last) ∧ rs !! i = Some r ∧ offs !! i = Some off ∧
    SeqLemmas.fh_of (st_files st) r = Some x ∧ (Z.to_nat off <= p)%nat ∧ fw_data r !! (p - Z.to_nat off)%nat = Some v.

(** The requests of the batch: through a descriptor, with [u64] offsets. *)
Definition write_through_fd (r : FileWrite) : Prop :=
  (∃ fd, fw_file r = Fd fd) ∧ match fw_offset r with At x => 0 <= x | _ => True end.
(** How many bytes and chunks a batch can have. *)
Definition most_writes (rs : list FileWrite) : nat := sum_list_with (λ r, 1 + 2 * length (fw_data r))%nat rs.

Module BatchProofs.
Import ExchangeLemmas ServerLemmas SingleLemmas NamespaceLemmas DescriptorLemmas WriteAtLemmas SeqLemmas WaveProofs.

(** ** The chunks of a request *)

Lemma chunks_data per offset data : 1 <= per → Z.of_nat (length data) <= U64_MAX → data_of (chunks_of per offset data) = data.
Proof.
  intros Hper Hmax. unfold data_of, chunks_of. set (len := Z.of_nat (length data)).
  assert (H : ∀ n : nat, mjoin (ck_data <$> ((λ k, Chunk (offset + k * per)
      (slice (Z.to_nat (k * per)) (Z.to_nat (Z.min len (sat_add (k * per) per))) data) 0 false) <$> seqZ 0 (Z.of_nat n))) = take (Z.to_nat (Z.of_nat n * per)) data).
  { intros m. induction m as [|m IH]; [done|]. rewrite seqZ_S. rewrite Nat2Z.inj_succ. set (n := Z.of_nat m) in *.
    rewrite !fmap_app, join_app, IH. cbn [fmap list_fmap mjoin list_join ck_data]. rewrite app_nil_r, Z.add_0_l. unfold slice.
    destruct (decide (n * per <= len)) as [Hle|Hgt].
    - assert (Hend : Z.to_nat (Z.min len (sat_add (n * per) per)) = (Z.to_nat (Z.succ n * per) `min` length data)%nat) by (unfold sat_add; lia).
      rewrite Hend, <-take_take, (take_ge data (length data)) by done. 
      rewrite <-(take_drop (Z.to_nat (n * per)) (take (Z.to_nat (Z.succ n * per)) data)) at 2. rewrite take_take. do 2 f_equal. lia.
    - rewrite drop_ge; [|lengths]. rewrite app_nil_r, !take_ge; [done|lia..]. }
  set (q := (Z.max len 1 + per - 1) / per). assert (Hq : 0 <= q) by (apply Z.div_pos; lia).
  rewrite <-(Z2Nat.id q Hq), H, Z2Nat.id by done. apply take_ge. unfold q.
  pose proof (Z.mul_div_le (Z.max len 1 + per - 1) per ltac:(lia)). pose proof (Z.mod_pos_bound (Z.max len 1 + per - 1) per ltac:(lia)).
  pose proof (Z.div_mod (Z.max len 1 + per - 1) per ltac:(lia)). lia.
Qed.

Lemma chunks_count per offset data : 1 <= per → (1 <= length (chunks_of per offset data) <= length data + 1)%nat.
Proof.
  intros Hper. unfold chunks_of. rewrite length_fmap, length_seqZ. set (len := Z.of_nat (length data)).
  assert (1 <= (Z.max len 1 + per - 1) / per <= Z.max len 1); [|lia]. split.
  - apply Z.div_le_lower_bound; lia.
  - apply Z.div_le_upper_bound; [lia|]. nia.
Qed.

Lemma chunks_fresh per offset data : Forall fresh_chunk (chunks_of per offset data).
Proof. unfold chunks_of. apply Forall_fmap, Forall_forall. intros k _. done. Qed.

Lemma left_fresh cs : Forall fresh_chunk cs → sum_list_with left_of cs = (length (data_of cs) + length cs)%nat.
Proof.
  induction 1 as [|c cs [Hp Hc] _ IH]; [done|]. cbn [sum_list_with length]. rewrite IH, data_cons, length_app. unfold left_of. rewrite Hp, Hc. cbn. lia.
Qed.

(** ** Planning *)

Section Plan.
Context {F W : Type} (s : nfs_spec F) (rpc : Compound.t → W → RpcResult COMPOUND4res * W) (fs : W → F).
Context (Hrpc : transport_ok rpc) (Himp : implements s rpc fs).
Context (xdr_len : Compound.t → Z) `{!XdrSizes xdr_len}.
Context (content : F → nfs_fh4 → bytes) (rs : list FileWrite) (f0 : F) (files0 : gmap Z NfsOpenState) (per : Z) (Hper : 1 <= per).
Context (Hstores : stores_through (handles files0 rs) s content).

(** The request [i] as planned. *)
Definition planned_at (i : nat) (p : pending) : Prop :=
  ∃ r fd o off pred, rs !! i = Some r ∧ fw_file r = Fd fd ∧ files0 !! fd = Some o ∧
    off = seq_offset (Store (content f0) files0) o (fw_offset r) ∧ 0 <= off ∧ Z.of_nat (length (fw_data r)) <= U64_MAX ∧
    (pred = false → ∀ k r', (k < i)%nat → rs !! k = Some r' → fh_of files0 r' ≠ Some (os_fh o)) ∧
    p = Pending r off (os_fh o) (os_stateid o) pred (is_at (fw_offset r) && negb (os_append o)) (chunks_of per off (fw_data r)) 0 0 false false true.

Definition planned_all (seen : gset bytes) (ps : list pending) : Prop :=
  (∀ i p, ps !! i = Some p → planned_at i p) ∧ (length ps <= length rs)%nat ∧
  ∀ k r x, (k < length ps)%nat → rs !! k = Some r → fh_of files0 r = Some x → x ∈ seen.

Lemma plan_write_ok b0 b w k r seen ps : fs w = f0 → open_files b0 = files0 → kept b0 b → cursors_ok b0 → write_through_fd r →
  rs !! k = Some r → length ps = k → planned_all seen ps →
  returns (plan_write rpc xdr_len per (k, r) (seen, ps)) b w (λ res b' w', kept b0 b' ∧ fs w' = f0 ∧
    match res with
    | Ok (seen', ps') => length ps' = S k ∧ planned_all seen' ps'
    | Err e => VfError.index e = Some (Z.of_nat k)
    end).
Proof.
  intros Hf Hb0 Hk Hcur ([fd Hfd] & Hat) Hr Hlen (Hps & Hle & Hseen). cbn [plan_write].
  assert (Hfiles : ∀ b', kept b0 b' → open_files b' = files0) by (rewrite <-Hb0; by intros b' [-> _]; destruct b0).
  eapply (returns_bind _ _ _ _ (λ r' b' w', kept b0 b' ∧ fs w' = f0 ∧
    match r' with Ok off => 0 <= off ∧ ∀ o, files0 !! fd = Some o → off = seq_offset (Store (content f0) files0) o (fw_offset r)
    | Err e => VfError.index e = Some (Z.of_nat k) end)).
  - apply returns_map_err. rewrite Hfd. eapply returns_mono.
    { apply (write_offset_ok content files0 rs s rpc fs Hrpc Himp xdr_len Hstores fd (fw_offset r) b w f0 Hf); [| |done]; rewrite ?(Hfiles b Hk).
      - intros o Ho. eapply handles_in; [exact Hr|]. unfold fh_of. rewrite Hfd. cbn. by rewrite Ho.
      - unfold cursors_ok in *. by rewrite (Hfiles b Hk), <-Hb0. }
    cbn beta. rewrite (Hfiles b Hk). intros r' b' w' (Hk' & Hw & H). split; [by etrans|]. split; [done|]. by destruct r'.
  - cbn beta iota. intros off b1 w1 (Hk1 & Hw1 & H0 & Hoff). unfold checked_add.
    destruct (Z.leb_spec (off + Z.of_nat (length (fw_data r))) U64_MAX) as [Hmax|]; [|by apply returns_fail].
    apply (returns_expect_bind _ fd); [by rewrite Hfd|]. apply returns_gets_bind. rewrite (Hfiles _ Hk1).
    destruct (files0 !! fd) as [o|] eqn:Ho; [|by apply returns_fail]. apply returns_ret. split; [done|]. split; [done|].
    assert (Hfh : fh_of files0 r = Some (os_fh o)) by (unfold fh_of; rewrite Hfd; cbn; by rewrite Ho).
    rewrite length_app, Hlen. cbn [length]. split; [lia|]. split; [|split].
    + intros i p Hp. apply lookup_app_Some in Hp as [Hp|[Hge Hp]]; [by apply Hps|]. apply list_lookup_singleton_Some in Hp as [Hi <-].
      replace i with k by lia. eexists r, fd, o, off, _. split_and!; try done; [by apply Hoff|lia|]. intros Hn%bool_decide_eq_false k' r' Hk' Hr' Hx.
      destruct Hn. eapply (Hseen k' r'); [lia|done..].
    + rewrite length_app. cbn. apply lookup_lt_Some in Hr. lia.
    + intros k' r' x Hk' Hr' Hx. rewrite length_app in Hk'. cbn in Hk'. apply elem_of_union. destruct (decide (k' = k)) as [->|].
      * left. rewrite Hr in Hr'. injection Hr' as <-. rewrite Hfh in Hx. injection Hx as <-. by apply elem_of_singleton.
      * right. eapply (Hseen k' r'); [lia|done..].
  - done.
Qed.

Lemma plan_all_ok b w : fs w = f0 → open_files b = files0 → cursors_ok b → Forall write_through_fd rs →
  returns (for_each (plan_write rpc xdr_len per) (imap pair rs) (∅, [])) b w (λ res b' w', kept b b' ∧ fs w' = f0 ∧
    match res with
    | Ok (_, ps) => length ps = length rs ∧ ∀ i p, ps !! i = Some p → planned_at i p
    | Err e => names_item (length rs) e
    end).
Proof.
  intros Hf Hb Hcur Hrs.
  eapply returns_mono; [apply (returns_for_each _ (λ pre '(seen, ps) b' w', kept b b' ∧ fs w' = f0 ∧ length ps = length pre ∧ planned_all seen ps)
    (λ e b' w', kept b b' ∧ fs w' = f0 ∧ names_item (length rs) e))|].
  - split; [done|]. split; [done|]. split; [done|]. split; [done|]. split; [cbn; lia|]. cbn. lia.
  - intros pre [k r] post [seen ps] b1 w1 Hxs (Hk & Hw & Hlen & Hpl). destruct (imap_split _ _ _ _ _ Hxs) as [-> Hr]. rewrite Forall_lookup in Hrs.
    pose proof (Hrs _ _ Hr) as Hthrough. eapply returns_mono; [by apply (plan_write_ok b b1 w1 (length pre) r seen ps)|]. cbn beta.
    intros [[seen' ps']|e] b2 w2 (Hk2 & Hw2 & H).
    + destruct H as [H1 H2]. split; [done|]. split; [done|]. split; [rewrite length_app; cbn; lia|done].
    + split; [done|]. split; [done|]. eapply names_at; [|done]. by eapply lookup_lt_Some.
  - cbn beta. intros [[seen ps]|e] b' w' H; [|exact H]. destruct H as (? & ? & Hlen & Hpl & _). rewrite length_imap in Hlen. done.
Qed.

(** ** The state before the first wave *)

Section Start.
Context (offs : list Z) (last : store) (Hseq : seq_writes (Store (content f0) files0) rs = Some (offs, last)).

(** The offset is known at once if it is given, or if no earlier write goes to
    the file. *)
Lemma known_offset i r fd o : rs !! i = Some r → fw_file r = Fd fd → files0 !! fd = Some o →
  is_at (fw_offset r) && negb (os_append o) = true ∨ (∀ k r', (k < i)%nat → rs !! k = Some r' → fh_of files0 r' ≠ Some (os_fh o)) →
  offs !! i = Some (seq_offset (Store (content f0) files0) o (fw_offset r)).
Proof.
  intros Hr Hfd Ho Hcase. destruct (seq_writes_at _ _ _ _ _ _ Hseq Hr) as (sti & off & fd' & o' & Hi & Hoff & Hfd' & Ho' & ->).
  rewrite Hfd in Hfd'. injection Hfd' as <-. rewrite Hoff. f_equal.
  destruct (seq_writes_char _ _ _ _ Hi) as (_ & Hview & Hfiles). cbn [st_view st_files] in *. rewrite <-zip_with_take in Hview, Hfiles.
  rewrite Hfiles, Ho in Ho'. injection Ho' as <-. unfold seq_offset. cbn [os_fh os_append os_cur_offset set_cur_offset st_view].
  destruct Hcase as [[Hat Happ%negb_true_iff]%andb_prop|Hnone]; [rewrite Happ; by destruct (fw_offset r)|].
  assert (Hz : ∀ k r' off, take i (zip rs offs) !! k = Some (r', off) → fh_of files0 r' ≠ Some (os_fh o)).
  { intros k r' off [Hk Hlt]%lookup_take_Some. apply lookup_zip_Some in Hk as [Hk _]. by eapply Hnone. }
  rewrite Hview. clear Hview Hfiles Hi. revert Hz. generalize (take i (zip rs offs)) as l. intros l Hz.
  assert (Hwrites : writes_on files0 (os_fh o) l = []).
  { clear -Hz. induction l as [|[r' off] l IH]; [done|]. cbn [writes_on omap list_omap]. rewrite decide_False by (by apply (Hz 0%nat r' off)).
    apply IH. intros k. by apply (Hz (S k)). }
  rewrite Hwrites. cbn [write_all foldl]. assert (Hcursor : cursor_after fd l (os_cur_offset o) = os_cur_offset o); [|by rewrite Hcursor].
  clear -Hz Ho. generalize (os_cur_offset o) as c. induction l as [|[r' off] l IH]; intros c; [done|]. cbn [cursor_after foldl].
  rewrite (bool_decide_false (FileOperand.fd _ = _)); [rewrite andb_false_r; apply IH; intros k; by apply (Hz (S k))|].
  intros E. apply (Hz 0%nat r' off eq_refl). unfold fh_of. rewrite E. cbn. by rewrite Ho.
Qed.

Lemma planned_request i p : planned_at i p → request_ok files0 rs offs i p ∧ unfinished p ∧ pd_activated p = false ∧ Forall fresh_chunk (pd_chunks p).
Proof.
  intros (r & fd & o & off & pred & Hr & Hfd & Ho & Hoff & H0 & Hmax & Hpred & ->).
  pose proof (chunks_fresh per off (fw_data r)) as Hfresh. split_and!; [|..|done|done].
  - split; cbn [pd_write pd_fh pd_positional pd_predecessor pd_chunks pd_next pd_prefix pd_done pd_activated pd_offset]; try done.
    + eauto 10.
    + by apply chunks_data.
    + eapply Forall_impl; [exact Hfresh|]. intros c [Hp Hc]. split; [lia|congruence].
    + lia.
    + intros Hknown. rewrite Hoff. eapply known_offset; [done..|]. by destruct Hknown; [left|right; apply Hpred].
  - intros _. cbn [pd_chunks pd_next]. pose proof (chunks_count per off (fw_data r) Hper) as Hn.
    destruct (chunks_of per off (fw_data r)) as [|c cs]; [cbn in Hn; lia|]. exists c. split; [done|]. by apply Forall_cons in Hfresh as [[_ ?] _].
Qed.

Lemma planned_inv ps b : open_files b = files0 → length ps = length rs → (∀ i p, ps !! i = Some p → planned_at i p) →
  waves_inv content f0 files0 rs offs ps b f0.
Proof.
  intros Hb Hlen Hall. split.
  - split; [done|]. intros i p Hp. by apply planned_request, Hall.
  - apply Forall_lookup. intros i p Hp. by eapply planned_request, Hall.
  - intros i k p q _ _ Hq _ Ha. apply Hall, planned_request in Hq as (_ & _ & Hq & _). congruence.
  - intros x. symmetry. apply idle_view. intros i p Hp. left. by eapply planned_request, Hall.
  - intros fd. rewrite Hb. destruct (files0 !! fd) as [o|]; [|done]. cbn [fmap option_fmap option_map].
    rewrite idle_cursor; [by rewrite set_cur_same|]. intros i p Hp. apply Hall, planned_request in Hp as (_ & _ & -> & _). done.
Qed.
End Start.

Lemma planned_writes_left ps : length ps = length rs → (∀ i p, ps !! i = Some p → planned_at i p) →
  waves_needed ps = left_over ps ∧ (left_over ps <= most_writes rs)%nat.
Proof.
  intros Hlen Hall.
  assert (H : ∀ i p, ps !! i = Some p → ∃ r, rs !! i = Some r ∧ left_in p = (length (fw_data (pd_write p)) + length (pd_chunks p))%nat ∧
    (left_in p <= 1 + 2 * length (fw_data r))%nat).
  { intros i p Hp. destruct (Hall _ _ Hp) as (r & fd & o & off & pred & Hr & _ & _ & _ & _ & Hmax & _ & ->). exists r. split; [done|].
    unfold left_in. cbn [pd_chunks pd_write]. rewrite left_fresh, chunks_data by (done || apply chunks_fresh).
    split; [done|]. pose proof (chunks_count per off (fw_data r) Hper). lia. }
  clear Hall. unfold waves_needed, left_over, most_writes. clear Hstores. generalize dependent rs. clear rs. induction ps as [|p ps IH]; intros [|r rs] Hlen H; try done.
  cbn [sum_list_with]. destruct (H 0%nat p eq_refl) as (r' & [= <-] & H1 & H2). destruct (IH rs) as [H3 H4]; [cbn in Hlen; lia|intros i q Hq; by apply (H (S i))|].
  rewrite H3. lia.
Qed.
End Plan.

(** ** The batch, for contents behind handles *)

Section Batch.
Context {F W : Type} (s : nfs_spec F) (rpc : Compound.t → W → RpcResult COMPOUND4res * W) (fs : W → F).
Context (Hrpc : transport_ok rpc) (Himp : implements s rpc fs).
Context (xdr_len : Compound.t → Z) `{!XdrSizes xdr_len}.

Lemma write_batch_ok (content : F → nfs_fh4 → bytes) (writes : list FileWrite) (b : NfsVecFs) (w : W) (fuel : nat) :
  let hs := handles (open_files b) writes in
  stores_through hs s content → fits b → cursors_ok b → Forall write_through_fd writes →
  (Z.of_nat (most_writes writes) + 1) * (Z.of_nat (most_writes writes) + 1) <= Z.of_nat fuel →
  let st := Store (content (fs w)) (open_files b) in
  returns (vwrite_batch_nfs rpc xdr_len fuel writes) b w (λ r b' w', b' = set_files (set_nfs b (nfs b')) (open_files b') ∧
    (∀ x, x ∉ hs → content (fs w') x = content (fs w) x) ∧
    match r with
    | Ok out => ∃ offs last, seq_writes st writes = Some (offs, last) ∧
        (∀ x, content (fs w') x = st_view last x) ∧ open_files b' = st_files last ∧
        Forall3 (λ r off res, wres_file res = fw_file r ∧ wres_offset res = off ∧ bytes_written res = Z.of_nat (length (fw_data r))) writes offs out
    | Err e => names_item (length writes) e ∧
        ∀ x, WriteAtLemmas.origin (content (fs w) x) (sequence_puts st writes x) (content (fs w') x)
    end).
Proof.
  intros hs Hstores Hmax Hcur Hwrites Hfuel st. unfold vwrite_batch_nfs. apply returns_gets_bind.
  set (per := NfsClient.per_op_bytes (nfs b)). assert (Hper : 1 <= per).
  { unfold per, NfsClient.per_op_bytes. change MAX_OP_BYTES with 67108864. lia. }
  assert (Hsame : ∀ b' : NfsVecFs, NamespaceLemmas.kept b b' → b' = set_files (set_nfs b (nfs b')) (open_files b')) by (intros b' [-> _]; by destruct b).
  eapply returns_bind.
  { by apply (plan_all_ok s rpc fs Hrpc Himp xdr_len content writes (fs w) (open_files b) per Hstores b w). }
  2:{ cbn beta iota. intros e b1 w1 (Hk & Hw & He). rewrite Hw. split; [by apply Hsame|]. split; [done|]. split; [done|]. intros x p v Hv. by left. }
  cbn beta iota. intros [seen ps] b1 w1 (Hk & Hw & Hlen & Hps). apply returns_gets_bind.
  assert (Hb1 : open_files b1 = open_files b) by (by destruct Hk as [-> _]; destruct b).
  destruct (planned_writes_left content writes (fs w) (open_files b) per Hper ps Hlen Hps) as [Hneed Hleft].
  destruct (seq_writes_defined st writes) as [[offs last] Hseq].
  { intros r [i Hr]%list_elem_of_lookup. destruct (lookup_lt_is_Some_2 ps i) as [p Hp]; [apply lookup_lt_Some in Hr; lia|].
    destruct (Hps _ _ Hp) as (r' & fd & o & off & pred & Hr' & Hfd & Ho & _). rewrite Hr in Hr'. injection Hr' as <-.
    exists (os_fh o). unfold SeqLemmas.fh_of. rewrite Hfd. cbn. by rewrite Ho. }
  eapply returns_bind.
  { eapply (waves_ok content (fs w) (open_files b) writes offs last Hseq s rpc fs Hrpc Himp xdr_len Hstores Hcur); [|rewrite Hw| |done|nia].
    - eapply Forall_impl; [exact Hwrites|]. by intros r [_ ?].
    - by apply (planned_inv content writes (fs w) (open_files b) per Hper offs last Hseq).
    - eauto with vnfs. }
  - cbn beta iota. intros ps' b2 w2 ([E _] & Hinv & Hdone). apply returns_ret.
    destruct (waves_done content (fs w) (open_files b) writes offs last Hseq ps' b2 (fs w2) Hinv Hdone) as (Hc & Hrest & Hf & Ho & Hr).
    split; [rewrite E; destruct Hk as [-> _]; by destruct b|]. split; [exact Hrest|]. exists offs, last. split; [done|].
    split; [done|]. split; [done|]. rewrite <-Ho, <-Hr. clear. induction ps' as [|p ps' IH]; [constructor|]. by constructor.
  - cbn beta iota. intros e b2 w2 ([E _] & He & Hsafe). split; [rewrite E; destruct Hk as [-> _]; by destruct b|].
    split; [intros x; apply Hsafe|]. split; [done|].
    intros x p v Hv. destruct (proj1 (proj1 (Hsafe x)) p v Hv) as [?|[?|(i & r & off & H)]]; [by left|by right; left|right; right].
    by exists offs, last, i, r, off.
Qed.

(** ** Objects behind handles *)

Section Objects.
Context {O : Type} `{EqDecision O} (object : nfs_fh4 → O) (content : F → O → bytes) (Hstores : stores s object content).
Context (hs : list nfs_fh4) (Hone : ∀ x y, x ∈ hs → y ∈ hs → object x = object y → x = y).

(** The contents behind the handles [hs], and [rest] behind the others. *)
Definition behind (rest : F → bytes) (f : F) (x : nfs_fh4) : bytes := if decide (x ∈ hs) then content f (object x) else rest f.

Lemma behind_in rest f x : x ∈ hs → behind rest f x = content f (object x).
Proof. intros Hx. unfold behind. by rewrite decide_True. Qed.
Lemma behind_out rest f x : x ∉ hs → behind rest f x = rest f.
Proof. intros Hx. unfold behind. by rewrite decide_False. Qed.

Lemma behind_stores rest : (∀ f x st off how data f' v, x ∈ hs → sp_write s f x st off how data = Ok (f', v) → rest f' = rest f) →
  stores_through hs s (behind rest).
Proof.
  intros Hrest. split.
  - intros f x st off how data f' n level Hx Hw. destruct (sw_write _ _ _ Hstores _ _ _ _ _ _ _ _ _ Hw) as [Hn Hc]. split; [done|]. intros y.
    rewrite (behind_in _ _ _ Hx). destruct (decide (y ∈ hs)) as [Hy|Hy].
    + rewrite !(behind_in _ _ _ Hy), Hc. destruct (decide (y = x)) as [->|Hne]; [by rewrite decide_True|]. rewrite decide_False; [done|]. by intros ?%Hone.
    + rewrite !(behind_out _ _ _ Hy). rewrite decide_False by (by intros ->). by eapply Hrest.
  - intros f x v n k Hx. rewrite (behind_in _ _ _ Hx). apply (sw_size _ _ _ Hstores).
Qed.

Lemma another_handle (l : list nfs_fh4) : ∃ z, z ∉ l.
Proof.
  exists (replicate (S (sum_list_with length l)) Byte.x00). intros Hz. pose proof (sum_list_with_in _ length l Hz) as H.
  rewrite length_replicate in H. lia.
Qed.

(** An object that no handle of [hs] is of is not written to. *)
Lemma others_kept y : (∀ x, x ∈ hs → object x ≠ y) → stores_through hs s (behind (λ f, content f y)).
Proof.
  intros Hy. apply behind_stores. intros f x st off how data f' [n level] Hx Hw. destruct (sw_write _ _ _ Hstores _ _ _ _ _ _ _ _ _ Hw) as [_ ->].
  rewrite decide_False; [done|]. intros ->. by apply (Hy x).
Qed.

Lemma sequence_puts_agree st st' rs x p v : agree hs st st' → (∀ x, x ∈ handles (st_files st) rs → x ∈ hs) →
  sequence_puts st rs x p v → sequence_puts st' rs x p v.
Proof.
  intros Ha Hin (offs & last & i & r & off & Hseq & Hr & Hoff & Hfh & H). destruct (seq_writes_agree hs rs st st' offs last Ha Hin Hseq) as (last' & E & _).
  exists offs, last', i, r, off. destruct Ha as [<- _]. done.
Qed.
End Objects.
End Batch.
End BatchProofs.

Import NamespaceLemmas DescriptorLemmas SeqLemmas WaveProofs BatchProofs.

(** C3: A vectored write through open files is its writes one after the other.
    For every server and transport, with any pattern of size rejections, lost
    replies and short writes, a batch on descriptors whose unequal handles are of
    different objects terminates without panicking.  If it succeeds, every file
    written to holds, every cursor is at and every result reports what the writes
    done one after the other give, although writes that do not touch each other
    were sent together, whatever overlaps, appends, writes at the cursor and
    writes at the end the batch mixes.  If it fails, the error is the
    connection's or names a request of the batch, and every byte of these files
    is the one before, a hole, or a byte that the sequence puts at that place.
    Either way no other object has changed. *)
Theorem descriptor_writes_correct {F W O} `{EqDecision O} (s : nfs_spec F) (rpc : Compound.t → W → RpcResult COMPOUND4res * W) (fs : W → F)
    (xdr_len : Compound.t → Z) `{!XdrSizes xdr_len} (object : nfs_fh4 → O) (content : F → O → bytes)
    (writes : list FileWrite) (b : NfsVecFs) (w : W) (fuel : nat) :
  let hs := handles (open_files b) writes in
  transport_ok rpc → implements s rpc fs → stores s object content → 0 <= NfsClient.max_ops (nfs b) < USIZE_MAX →
  cursors_ok b → Forall write_through_fd writes → (∀ x y, x ∈ hs → y ∈ hs → object x = object y → x = y) →
  (Z.of_nat (most_writes writes) + 1) * (Z.of_nat (most_writes writes) + 1) <= Z.of_nat fuel →
  let st := Store (λ x, content (fs w) (object x)) (open_files b) in
  ∃ r b' w', vwrite_batch_nfs rpc xdr_len fuel writes b w = Done (r, b', w') ∧ b' = set_files (set_nfs b (nfs b')) (open_files b') ∧
    (∀ y, (∀ x, x ∈ hs → object x ≠ y) → content (fs w') y = content (fs w) y) ∧
    match r with
    | Ok out => ∃ offs last, seq_writes st writes = Some (offs, last) ∧
        (∀ x, x ∈ hs → content (fs w') (object x) = st_view last x) ∧ open_files b' = st_files last ∧
        Forall3 (λ r off res, wres_file res = fw_file r ∧ wres_offset res = off ∧ bytes_written res = Z.of_nat (length (fw_data r))) writes offs out
    | Err e => names_item (length writes) e ∧
        ∀ x, x ∈ hs → WriteAtLemmas.origin (content (fs w) (object x)) (sequence_puts st writes x) (content (fs w') (object x))
    end.
Proof.
  intros hs Hrpc Himp Hstores Hmax Hcur Hwrites Hone Hfuel st.
  pose proof (behind_stores s object content Hstores hs Hone (λ _, []) ltac:(done)) as Hs0.
  destruct (write_batch_ok s rpc fs Hrpc Himp xdr_len _ writes b w fuel Hs0 Hmax Hcur Hwrites Hfuel) as (r & b' & w' & E & Hb' & _ & Hr).
  assert (Ha : agree hs (Store (behind object content hs (λ _, []) (fs w)) (open_files b)) st) by (split; [done|]; intros x Hx; by apply behind_in).
  exists r, b', w'. split; [exact E|]. split; [exact Hb'|]. split.
  - intros y Hy. pose proof (others_kept s object content Hstores hs Hone y Hy) as Hs1.
    destruct (write_batch_ok s rpc fs Hrpc Himp xdr_len _ writes b w fuel Hs1 Hmax Hcur Hwrites Hfuel) as (r1 & b1 & w1 & E1 & _ & Hrest & _).
    rewrite E in E1. injection E1 as <- <- <-. destruct (another_handle hs) as [z Hz]. specialize (Hrest _ Hz). by rewrite !behind_out in Hrest by exact Hz.
  - destruct r as [out|e].
    + destruct Hr as (offs & last & Hseq & Hc & Hf & Hall). destruct (seq_writes_agree hs writes _ st offs last Ha ltac:(done) Hseq) as (last' & Hseq' & Hf' & Hv').
      exists offs, last'. split; [exact Hseq'|]. split; [|by rewrite <-Hf']. intros x Hx. by rewrite <-(Hv' x Hx), <-Hc, behind_in.
    + destruct Hr as [He Hor]. split; [done|]. intros x Hx p v Hv. specialize (Hor x p v). rewrite !(behind_in object content hs) in Hor by done.
      destruct (Hor Hv) as [?|[?|Hputs]]; [by left|by right; left|right; right]. by eapply sequence_puts_agree.
Qed.

(** ** A service with two handles for one file *)

Module AliasFs.
Definition canon (x : nfs_fh4) : nfs_fh4 := if bool_decide ((x : bytes) = bstr "FG") then bstr "FF" else x.

(** The reference file service, [FG] being a second handle of the file [FF]. *)
Definition spec : nfs_spec mem := {|
  sp_putfh f x := sp_putfh MemFs.spec f (canon x);
  sp_root := sp_root MemFs.spec;
  sp_lookup f x := sp_lookup MemFs.spec f (canon x);
  sp_lookupp f x := sp_lookupp MemFs.spec f (canon x);
  sp_getattr f x := sp_getattr MemFs.spec f (canon x);
  sp_nverify f x := sp_nverify MemFs.spec f (canon x);
  sp_setattr f x := sp_setattr MemFs.spec f (canon x);
  sp_readlink f x := sp_readlink MemFs.spec f (canon x);
  sp_readdir f x := sp_readdir MemFs.spec f (canon x);
  sp_read f x := sp_read MemFs.spec f (canon x);
  sp_write f x := sp_write MemFs.spec f (canon x);
  sp_copy f x y := sp_copy MemFs.spec f (canon x) (canon y);
  sp_create f x := sp_create MemFs.spec f (canon x);
  sp_remove f x := sp_remove MemFs.spec f (canon x);
  sp_rename f x n y := sp_rename MemFs.spec f (canon x) n (canon y);
  sp_link f x y := sp_link MemFs.spec f (canon x) (canon y);
  sp_open f x := sp_open MemFs.spec f (canon x);
  sp_close f x := sp_close MemFs.spec f (canon x);
|}.
Definition rpc := spec_server spec 20.
Definition mem_bytes (f : mem) (x : bytes) : bytes := if nodes f !! x is Some (NFile c) then c else [].

Lemma alias_spec_ok : ServerLemmas.spec_ok spec.
Proof.
  split; [|done]. intros [f c sv] op st.
  destruct op; cbn; unfold need, keep_fh, keep_at, keep_fs, go_fh, MemFs.write, MemFs.read, MemFs.close, MemFs.open, MemFs.new_object, MemFs.rename,
    MemFs.remove, MemFs.link, MemFs.lookup, MemFs.dir_at, MemFs.node_at; intros H; repeat (case_match; simplify_eq/=); simplify_eq; done.
Qed.

Lemma alias_stores : stores spec canon mem_bytes.
Proof.
  split.
  - intros f x st off how data f' n level. cbn. generalize (canon x). clear x. intros x. change nfs_fh4 with bytes in x. unfold MemFs.write, MemFs.node_at, mem_bytes.
    destruct (nodes f !! x) as [[c| |]|] eqn:E; [|done..]. intros [= <- <- <-]. split; [lia|]. intros y. change nfs_fh4 with bytes in y. cbn.
    rewrite Nat2Z.id, (take_ge data) by done.
    destruct (decide (y = x)) as [->|Hne]; [by rewrite lookup_insert_eq, decide_True|by rewrite lookup_insert_ne, decide_False].
  - intros f x v n k. cbn -[Compound.bitmap be_bytes read_u64 canon]. generalize (canon x). clear x. intros x. change nfs_fh4 with bytes in x. unfold MemFs.node_at, mem_bytes.
    destruct (nodes f !! x) as [nd|]; [|done]. rewrite bool_decide_false by done.
    set (size := match nd with NFile c => Z.of_nat (length c) | _ => 0 end). destruct (Z.leb_spec size U64_MAX) as [Hs|]; [|done].
    intros Hv%(f_equal (λ r : result Z (bitmap4 * bytes), match r with Ok v => v.2 | Err _ => [] end)). cbn -[be_bytes Compound.bitmap] in Hv. rewrite <-Hv.
    assert (Hsize : 0 <= size) by (unfold size; destruct nd; lia).
    pose proof (MetadataLemmas.read_u64_at [] [] ltac:(done) size ltac:(split; [done|exact Hs])) as Hu. rewrite app_nil_r in Hu. cbn [app length] in Hu.
    change (Z.of_nat 0) with 0 in Hu. rewrite Hu. intros [= <- _]. unfold size. by destruct nd.
Qed.

(** Three descriptors on two files, one of them for appending, and a fourth on
    the first file by its other handle. *)
Definition writers : NfsVecFs :=
  set_files example_backend (list_to_map [(3, example_open (bstr "FF") 1); (4, example_open (bstr "O") 0);
    (5, OpenState (bstr "FF") zero_stateid 0 true None); (6, example_open (bstr "FG") 0)]).
(** The batch writes at the cursor twice, appends, and overlaps itself. *)
Definition writes : list FileWrite :=
  [MakeWrite (Fd 3) Cur (bstr "XY"); MakeWrite (Fd 4) (At 2) (bstr "zz"); MakeWrite (Fd 3) Cur (bstr "W"); MakeWrite (Fd 5) Cur (bstr "!!");
   MakeWrite (Fd 4) (At 0) (bstr "ab"); MakeWrite (Fd 4) (At 1) (bstr "q")].
End AliasFs.

Import AliasFs.

Lemma descriptor_writes_correct_witness :
  ∃ out b' w', vwrite_batch_nfs AliasFs.rpc SendLemmas.example_xdr_len 729 writes writers example_links = Done (Ok out, b', w') ∧
    wres_offset <$> out = [1; 2; 3; 4; 0; 1] ∧ mem_bytes w' (bstr "FF") = bstr "dXYW!!" ∧ mem_bytes w' (bstr "O") = bstr "aqzzours".
Proof.
  destruct (descriptor_writes_correct AliasFs.spec AliasFs.rpc id SendLemmas.example_xdr_len canon mem_bytes writes writers example_links 729)
    as (r & b' & w' & E & _ & _ & H).
  - apply ServerLemmas.spec_server_transport; [apply alias_spec_ok|reflexivity].
  - apply ServerLemmas.spec_server_implements, alias_spec_ok.
  - exact alias_stores.
  - exact (proj1 example_usable).
  - apply (bool_decide_unpack _). vm_compute. exact I.
  - repeat constructor; cbn; eauto; lia.
  - assert (Hall : Forall (λ x : bytes, Forall (λ y : bytes, (canon x : bytes) = canon y → x = y) (handles (open_files writers) writes))
      (handles (open_files writers) writes)) by (apply (bool_decide_unpack _); vm_compute; exact I).
    intros x y Hx Hy. exact (proj1 (Forall_forall _ _) (proj1 (Forall_forall _ _) Hall x Hx) y Hy).
  - by vm_compute.
  - assert (Hr : match vwrite_batch_nfs AliasFs.rpc SendLemmas.example_xdr_len 729 writes writers example_links with
      Done (Ok out, _, _) => wres_offset <$> out = [1; 2; 3; 4; 0; 1] | _ => False end) by (vm_compute; reflexivity).
    rewrite E in Hr. destruct r as [out|]; [|destruct Hr]. exists out, b', w'. split; [exact E|]. split; [exact Hr|].
    destruct H as (offs & last & Hseq & Hc & _).
    assert (Hs : match seq_writes (Store (λ x, mem_bytes example_links (canon x)) (open_files writers)) writes with
      Some (_, st) => st_view st (bstr "FF") = bstr "dXYW!!" ∧ st_view st (bstr "O") = bstr "aqzzours" | None => False end)
      by (vm_compute; split; reflexivity).
    change (id example_links) with example_links in Hseq. rewrite Hseq in Hs. change (id w') with w' in Hc.
    rewrite <-(Hc (bstr "FF")) in Hs by (eapply (handles_in _ _ 0%nat); reflexivity).
    rewrite <-(Hc (bstr "O")) in Hs by (eapply (handles_in _ _ 1%nat); reflexivity). exact Hs.
Defined.

(** Two handles of one file: of two writes at its end the second lands on the
    first, which the sequence does not do. *)
Example aliased_writes_overlap :
  match vwrite_batch_nfs AliasFs.rpc SendLemmas.example_xdr_len 100 [MakeWrite (Fd 3) End_ (bstr "one"); MakeWrite (Fd 6) End_ (bstr "two")]
    writers example_links with
  | Done (Ok out, _, w') => wres_offset <$> out = [4; 4] ∧ mem_bytes w' (bstr "FF") = bstr "datatwo"
  | _ => False
  end.
Proof. vm_compute. split; reflexivity. Qed.
