(* ===== verification/Descriptors.v ===== *)
(** * The table of open files

    Models how [crates/vfsi-nfs/src/nfs/] fills and empties the table of open
    files: the flags of [open.rs], registering a descriptor, closing one
    ([close_impl] of [handle_backend.rs]) and many ([vclose_impl] of
    [vector_backend.rs]), the closes that failed and are kept
    ([drain_deferred_descriptor_closes]), and seeking.  The theorem shows that
    closing accounts for every open state: the ones the server confirmed are
    gone, and no other is forgotten. *)
From stdpp Require Import base numbers countable list list_numbers gmap strings.
From S2P Require Import Prelude Path Errors Types Planner Compound Session Client Loops Exchange Server Batch BatchOps BatchRun Resolve Single BatchSpec Mutations Opens Lifecycle Metadata StdPath Backend Namespace DescriptorIo.

(** ** Flags *)

Definition O_ACCMODE : Z := 3.
Definition OPEN4_SHARE_ACCESS_READ : Z := 1.
Definition OPEN4_SHARE_ACCESS_WRITE : Z := 2.
Definition OPEN4_SHARE_ACCESS_BOTH : Z := 3.

Definition non_destructive_reopen_flags (flags : Z) : Z := Z.ldiff flags (Z.lor O_CREAT (Z.lor O_EXCL O_TRUNC)).

Definition open_flags_mutate (flags : Z) : bool :=
  negb (Z.land flags O_ACCMODE =? O_RDONLY) || negb (Z.land flags (Z.lor O_CREAT (Z.lor O_TRUNC O_APPEND)) =? 0).

Definition flags_to_access (flags : Z) : Z :=
  if negb (Z.land flags O_RDWR =? 0) then OPEN4_SHARE_ACCESS_BOTH
  else if negb (Z.land flags O_WRONLY =? 0) then OPEN4_SHARE_ACCESS_WRITE
  else OPEN4_SHARE_ACCESS_READ.

(** ** The table *)

Section Table.
Context {W : Type} (rpc : Compound.t → W → RpcResult COMPOUND4res * W) (xdr_len : Compound.t → Z).

Definition insert_open_file (o : NfsOpenState) : op W Z := λ b w,
  let '(r, (next, files)) := insert_fd (next_fd b) (open_files b) o in Done (r, set_table b next files, w).

Definition drain_deferred_descriptor_closes (fuel : nat) : op W unit :=
  pending ← gets deferred_descriptor_closes;
  match pending with
  | [] => ret tt
  | _ =>
      modify (λ b, set_deferred b []) ;;
      r ← client_result (λ cl w, close_many rpc xdr_len fuel cl (close_of <$> pending) w);
      match r with
      | Ok _ => ret tt
      | Err error =>
          let first_unconfirmed :=
            if RpcError.is_transport error then 0 else Z.min (RpcError.op_index error) (Z.of_nat (length pending)) in
          modify (λ b, set_deferred b (deferred_descriptor_closes b ++ drop (Z.to_nat first_unconfirmed) pending)) ;;
          fail (error_from_rpc error None)
      end
  end.

Definition close_impl (file : FileOperand) : op W unit :=
  match FileOperand.fd file with
  | None => fail (VfError.errno (Some 0) NFS4ERR_INVAL)
  | Some fd =>
      o ← gets (λ b, open_files b !! fd);
      match o with
      | None => fail (VfError.errno (Some 0) EBADF)
      | Some o =>
          modify (λ b, set_files b (delete fd (open_files b))) ;;
          r ← client_result (λ cl w, or_panic (Single.close rpc xdr_len cl (os_fh o) (os_stateid o) w));
          match r with
          | Ok _ => ret tt
          | Err error =>
              modify (λ b, set_deferred b (deferred_descriptor_closes b ++ [o])) ;;
              fail (error_from_rpc error (Some 0))
          end
      end
  end.

Definition close_deferred (fuel : nat) (file : FileOperand) : op W unit :=
  match FileOperand.fd file with
  | None => fail (VfError.from_kind (Some 0) InvalidInput)
  | Some fd =>
      o ← gets (λ b, open_files b !! fd);
      match o with
      | Some _ => close_impl file
      | None => drain_deferred_descriptor_closes fuel
      end
  end.

(** The operands of a batch as entries of the table. *)
Fixpoint close_targets (open_files : gmap Z NfsOpenState) (i : nat) (files : list FileOperand) : VfResult (list (Z * NfsOpenState)) :=
  match files with
  | [] => Ok []
  | f :: files =>
      match FileOperand.fd f with
      | None => Err (VfError.errno (Some (Z.of_nat i)) NFS4ERR_INVAL)
      | Some fd =>
          match open_files !! fd with
          | None => Err (VfError.errno (Some (Z.of_nat i)) EBADF)
          | Some o =>
              match close_targets open_files (S i) files with
              | Ok rest => Ok ((fd, o) :: rest)
              | Err e => Err e
              end
          end
      end
  end.

Definition remove_all (fds : list Z) (m : gmap Z NfsOpenState) : gmap Z NfsOpenState := foldl (λ m fd, delete fd m) m fds.

Definition vclose_impl (fuel : nat) (files : list FileOperand) : op W unit :=
  table ← gets open_files;
  targets ← lift (close_targets table 0 files);
  r ← client_result (λ cl w, close_many rpc xdr_len fuel cl (close_of <$> targets.*2) w);
  match r with
  | Ok _ => modify (λ b, set_files b (remove_all targets.*1 (open_files b)))
  | Err error =>
      modify (λ b, if RpcError.is_transport error then b
                   else set_files b (remove_all (take (Z.to_nat (RpcError.op_index error)) targets.*1) (open_files b))) ;;
      fail (error_from_rpc_indexed error)
  end.

Definition sync_data (file : FileOperand) : op W unit :=
  match FileOperand.fd file with
  | None => fail (VfError.from_kind (Some 0) InvalidInput)
  | Some fd =>
      o ← gets (λ b, open_files b !! fd);
      match o with Some _ => ret tt | None => fail (VfError.errno (Some 0) EBADF) end
  end.
Definition vfsync_impl (files : list FileOperand) : op W unit :=
  for_each (λ x _, map_err (λ e, VfError.map_index e (λ _, Z.of_nat x.1)) (sync_data x.2)) (imap pair files) tt.

(** [i64::try_from(x).ok().and_then(|x| x.checked_add(offset))]. *)
Definition seek_add (x offset : Z) : VfResult Z :=
  if (x <=? I64_MAX) && (- I64_MAX - 1 <=? x + offset) && (x + offset <=? I64_MAX) then Ok (x + offset)
  else Err (VfError.errno (Some 0) EOVERFLOW).

(** [seek_raw_impl] under recovery. *)
Definition seek_raw (file : FileOperand) (offset : Z) (whence : SeekFrom) : op W Z :=
  match FileOperand.fd file with
  | None => fail (VfError.errno (Some 0) NFS4ERR_INVAL)
  | Some fd =>
      o ← gets (λ b, open_files b !! fd);
      match o with
      | None => fail (VfError.errno (Some 0) EBADF)
      | Some o =>
          new ← match whence with
                | SeekSet => ret offset
                | SeekCur => lift (seek_add (os_cur_offset o) offset)
                | SeekEnd => size ← file_size rpc xdr_len (os_fh o); lift (seek_add size offset)
                end;
          if new <? 0 then fail (VfError.errno (Some 0) NFS4ERR_INVAL)
          else advance_offset file new ;; ret new
      end
  end.
End Table.

(** ** What closing does *)

Section Spec.
Context {F : Type} (s : nfs_spec F).

(** The server released the states of a list, in order. *)
Definition released_all (os : list NfsOpenState) (f f' : F) : Prop :=
  ∃ vs, answers (closed s <$> (close_of <$> os)) f = Ok (f', vs).

(** A batch of closes: all of them, or those before the one the error names; a
    connection failure leaves open how far it got. *)
Definition closes_refined (os : list NfsOpenState) (f : F) (r : RpcResult unit) (f' : F) : Prop :=
  match r with
  | Ok _ => released_all os f f'
  | Err e =>
      ∃ k, released_all (take k os) f f' ∧
        (RpcError.is_transport e = true ∨ RpcError.is_transport e = false ∧ RpcError.op_index e = Z.of_nat k ∧ (k < length os)%nat)
  end.

(** [vclose_impl]: a bad operand is refused before anything is sent.  Otherwise
    the descriptors whose closes the server confirmed are gone, and no other. *)
Definition closed_batch (files : list FileOperand) (b : NfsVecFs) (f : F) (r : VfResult unit) (b' : NfsVecFs) (f' : F) : Prop :=
    match close_targets (open_files b) 0 files with
    | Err e => r = Err e ∧ b' = b ∧ f' = f
    | Ok targets =>
        ∃ done, b' = set_files (set_nfs b (nfs b')) (remove_all (take done targets.*1) (open_files b)) ∧
          match r with
          | Ok _ => (length files <= done)%nat ∧ released_all targets.*2 f f'
          | Err e =>
              if VfError.is_transport e then done = 0%nat ∧ ∃ k, released_all (take k targets.*2) f f'
              else VfError.index e = Some (Z.of_nat done) ∧ (done < length files)%nat ∧ released_all (take done targets.*2) f f'
          end
    end.

(** [close_impl]: the descriptor is gone; a state that may still be open is kept. *)
Definition closed_one (fd : Z) (o : NfsOpenState) (b : NfsVecFs) (f : F) (r : VfResult unit) (b' : NfsVecFs) (f' : F) : Prop :=
    b' = set_deferred (set_files (set_nfs b (nfs b')) (delete fd (open_files b)))
           (deferred_descriptor_closes b ++ match r with Ok _ => [] | Err _ => [o] end) ∧
    match r with
    | Ok _ => released_all [o] f f'
    | Err e => f' = f ∨ VfError.is_transport e = true ∧ released_all [o] f f'
    end.

(** [drain_deferred_descriptor_closes]: what the server confirmed is no longer
    kept, and everything else is. *)
Definition drained (b : NfsVecFs) (f : F) (r : VfResult unit) (b' : NfsVecFs) (f' : F) : Prop :=
  let pending := deferred_descriptor_closes b in
    ∃ done, b' = set_deferred (set_nfs b (nfs b')) (drop done pending) ∧
      match r with
      | Ok _ => (length pending <= done)%nat ∧ released_all pending f f'
      | Err e =>
          if VfError.is_transport e then done = 0%nat ∧ ∃ k, released_all (take k pending) f f'
          else (done < length pending)%nat ∧ released_all (take done pending) f f'
      end.
End Spec.

Module TableLemmas.
Import NamespaceLemmas DescriptorLemmas.

(** The targets are the entries of the operands. *)
Lemma close_targets_ok table i files targets : close_targets table i files = Ok targets →
  files = Fd <$> targets.*1 ∧ Forall (λ x, table !! x.1 = Some x.2) targets.
Proof.
  revert i targets. induction files as [|f files IH]; intros i targets; cbn; [by intros [= <-]|].
  destruct f as [|fd| | |]; cbn; try done. destruct (table !! fd) as [o|] eqn:Ho; [|done].
  destruct (close_targets table (S i) files) as [rest|e] eqn:Hr; [|done]. intros [= <-].
  destruct (IH _ _ Hr) as [-> Hall]. split; [done|by constructor].
Qed.
Lemma close_targets_err table i files e : close_targets table i files = Err e →
  ∃ k f, files !! k = Some f ∧ VfError.index e = Some (Z.of_nat (i + k)) ∧
    match f with Fd fd => table !! fd = None | _ => True end.
Proof.
  revert i. induction files as [|f files IH]; intros i; cbn; [done|].
  destruct f as [|fd| | |]; cbn; try (intros [= <-]; exists 0%nat; eexists; rewrite Nat.add_0_r; by split_and!).
  destruct (table !! fd) as [o|] eqn:Ho.
  - destruct (close_targets table (S i) files) as [rest|e0] eqn:Hr; [done|]. intros [= <-].
    destruct (IH _ Hr) as (k & f & Hk & Hi & Hf). exists (S k), f. rewrite Hi. split; [done|]. split; [f_equal; lia|done].
  - intros [= <-]. exists 0%nat, (Fd fd). rewrite Nat.add_0_r. by split_and!.
Qed.

(** The conversions keep apart the connection and the server. *)
Lemma from_rpc_transport e i : VfError.is_transport (error_from_rpc e i) = RpcError.is_transport e.
Proof. unfold error_from_rpc. destruct (RpcError.is_transport e); [done|]. by case_bool_decide. Qed.
Lemma error_transport e : VfError.is_transport (error_from_rpc_indexed e) = RpcError.is_transport e.
Proof. unfold error_from_rpc_indexed. case_match eqn:E; rewrite from_rpc_transport; done. Qed.
Lemma error_index e : VfError.index (error_from_rpc_indexed e) = if RpcError.is_transport e then None else Some (RpcError.op_index e).
Proof. unfold error_from_rpc_indexed, error_from_rpc. destruct (RpcError.is_transport e); [done|]. by case_bool_decide. Qed.

Section Closing.
Context {F W : Type} (s : nfs_spec F) (rpc : Compound.t → W → RpcResult COMPOUND4res * W) (fs : W → F).
Context (Hrpc : transport_ok rpc) (Himp : implements s rpc fs).
Context (xdr_len : Compound.t → Z) `{!XdrSizes xdr_len}.

Lemma close_many_refines fuel cl os w : 0 <= NfsClient.max_ops cl < USIZE_MAX →
  (Z.of_nat (length os) + 1) * (Z.of_nat (length os) + 1) <= Z.of_nat fuel →
  ∃ r cl' w', close_many rpc xdr_len fuel cl (close_of <$> os) w = Done (r, cl', w') ∧ same_limits cl cl' ∧
    closes_refined s os (fs w) r (fs w').
Proof.
  intros Hmax Hfuel.
  destruct (MutationLemmas.run_batch_refines s rpc fs Hrpc Himp xdr_len (BClose (close_of <$> os)) cl w fuel Hmax) as (r & cl' & w' & E & Hs & Hr).
  { cbn [steps_of]. by rewrite !length_fmap. }
  exists r, cl', w'. split; [done|]. split; [done|]. destruct r as [[]|e]; cbn in Hr |- *.
  - destruct Hr as (vs & Hvs & _). by exists vs.
  - destruct Hr as (k & vs & Hvs & Hk). exists k. split; [exists vs; by rewrite !fmap_take|]. rewrite !length_fmap in Hk.
    destruct (RpcError.is_transport e); [by left|right]. by destruct Hk.
Qed.

Lemma client_closes fuel os b w : fits b → (Z.of_nat (length os) + 1) * (Z.of_nat (length os) + 1) <= Z.of_nat fuel →
  returns (client_result (λ cl w, close_many rpc xdr_len fuel cl (close_of <$> os) w)) b w
    (λ r b' w', kept b b' ∧ match r with Ok r => closes_refined s os (fs w) r (fs w') | Err _ => False end).
Proof.
  intros Hb Hfuel. apply returns_client_result. destruct (close_many_refines fuel (nfs b) os w Hb Hfuel) as (r & cl' & w' & E & Hs & Hr).
  exists r, cl', w'. split; [done|]. split; [auto with vnfs|done].
Qed.

Lemma vclose_ok fuel files b w : fits b → (Z.of_nat (length files) + 1) * (Z.of_nat (length files) + 1) <= Z.of_nat fuel →
  returns (vclose_impl rpc xdr_len fuel files) b w (λ r b' w', closed_batch s files b (fs w) r b' (fs w')).
Proof.
  intros Hb Hfuel. unfold vclose_impl, closed_batch. apply returns_gets_bind, returns_lift_bind.
  destruct (close_targets (open_files b) 0 files) as [targets|e] eqn:Ht; [|done].
  apply close_targets_ok in Ht as [-> _]. rewrite !length_fmap in *.
  eapply returns_bind; [apply client_closes; [done|by rewrite length_fmap]| |by intros ??? [_ []]].
  cbn beta iota. intros r b1 w1 [[Hb1 Hs] Hr]. destruct r as [[]|e].
  - apply returns_modify. exists (length targets). rewrite take_ge by (by rewrite length_fmap). rewrite Hb1. by destruct b.
  - apply returns_modify_bind, returns_fail. destruct Hr as (k & Hrel & Hk). rewrite error_transport.
    destruct (RpcError.is_transport e) eqn:Et.
    + exists 0%nat. split; [rewrite Hb1; by destruct b|]. eauto.
    + destruct Hk as [?|(_ & Hi & Hlt)]; [done|]. exists k. rewrite error_index, Et, Hi, Nat2Z.id. split; [rewrite Hb1; by destruct b|].
      rewrite length_fmap in Hlt. done.
Qed.

Lemma close_ok fd o b w : open_files b !! fd = Some o →
  returns (close_impl rpc xdr_len (Fd fd)) b w (λ r b' w', closed_one s fd o b (fs w) r b' (fs w')).
Proof.
  intros Ho. unfold close_impl, closed_one. cbn [FileOperand.fd]. apply returns_gets_bind. rewrite Ho. apply returns_modify_bind.
  set (b0 := set_files b _). 
  eapply (returns_bind _ _ _ _ (λ r b' w', kept b0 b' ∧ match r with
    | Ok (Ok _) => released_all s [o] (fs w) (fs w')
    | Ok (Err e) => fs w' = fs w ∨ RpcError.is_transport e = true ∧ released_all s [o] (fs w) (fs w')
    | Err _ => False end)).
  - apply returns_client_result.
    destruct (SingleLemmas.perform_refines_most s rpc fs Hrpc Himp xdr_len (nfs b0) (SClose (os_fh o) (os_stateid o)) w) as (r & cl' & w' & E & Hs & Hr).
    cbn [perform] in E. exists r, cl', w'. rewrite E. split; [done|]. split; [auto with vnfs|].
    assert (Hone : ∀ f', meaning s (fs w) (as_u32 (NfsClient.read_per_op_bytes (nfs b0))) (SClose (os_fh o) (os_stateid o)) = Ok (f', tt) →
      released_all s [o] (fs w) f').
    { intros f' H. exists [tt]. cbn. unfold closed, step_of. cbn [meaning close_of cl_fh cl_stateid] in *. by rewrite H. }
    destruct r as [[]|e]; cbn in Hr; [by apply Hone|]. destruct (RpcError.is_transport e).
    + destruct Hr as [?|[[] ?]]; auto.
    + left. destruct (_ =? 0); [done|]. destruct Hr as [[? _]|[_ [?|[[] _]]]]; done.
  - cbn beta iota. intros r b1 w1 [[E _] Hr]. destruct r as [[]|e].
    + apply returns_ret. split; [|done]. rewrite app_nil_r, E. by destruct b.
    + apply returns_modify_bind, returns_fail. split; [rewrite E; by destruct b|]. by rewrite from_rpc_transport.
  - by intros ??? [_ []].
Qed.

Lemma drain_deferred_ok fuel b w : fits b →
  let pending := deferred_descriptor_closes b in
  (Z.of_nat (length pending) + 1) * (Z.of_nat (length pending) + 1) <= Z.of_nat fuel →
  returns (drain_deferred_descriptor_closes rpc xdr_len fuel) b w (λ r b' w', drained s b (fs w) r b' (fs w')).
Proof.
  intros Hb pending Hfuel. unfold drain_deferred_descriptor_closes, drained. apply returns_gets_bind. fold pending.
  destruct (decide (pending = [])) as [E|Hne].
  { rewrite E. apply returns_ret. exists 0%nat. split; [rewrite drop_nil, <-E; by destruct b|]. split; [cbn; lia|by exists []]. }
  assert (∀ {B} (x y : B), match pending with [] => x | _ => y end = y) as -> by (by destruct pending).
  apply returns_modify_bind. set (b0 := set_deferred b []). eapply returns_bind; [by apply client_closes| |by intros ??? [_ []]].
  cbn beta iota. intros r b1 w1 [[E _] Hr]. destruct r as [[]|e].
  - apply returns_ret. exists (length pending). rewrite drop_all. split; [rewrite E; by destruct b|done].
  - apply returns_modify_bind, returns_fail. destruct Hr as (k & Hrel & Hk). rewrite from_rpc_transport.
    destruct (RpcError.is_transport e).
    + exists 0%nat. split; [rewrite E; by destruct b|]. eauto.
    + destruct Hk as [?|(_ & Hi & Hlt)]; [done|]. exists k. rewrite Hi, Z.min_l, Nat2Z.id by lia. split; [rewrite E; by destruct b|done].
Qed.
End Closing.
End TableLemmas.

Import TableLemmas.

(** C18: Closing accounts for every open state.  For every server and transport
    the three ways to close terminate without panicking.  A batch with a bad
    operand is refused at that operand before anything is sent; otherwise the
    descriptors leave the table whose closes the server confirmed, which are all
    of them on success and those before the failing one on an error of the
    server, and every other descriptor stays.  Closing one descriptor takes it
    out of the table, and keeps its state among the deferred closes unless the
    server confirmed.  Draining those sends them in order and keeps exactly the
    ones not confirmed.  After a connection failure nothing counts as confirmed. *)
Theorem closing_accounts {F W} (s : nfs_spec F) (rpc : Compound.t → W → RpcResult COMPOUND4res * W) (fs : W → F)
    (xdr_len : Compound.t → Z) `{!XdrSizes xdr_len} (b : NfsVecFs) (files : list FileOperand) (w : W) (fuel : nat) :
  transport_ok rpc → implements s rpc fs → 0 <= NfsClient.max_ops (nfs b) < USIZE_MAX →
  let n := Z.of_nat (length files `max` length (deferred_descriptor_closes b)) in
  (n + 1) * (n + 1) <= Z.of_nat fuel →
  returns (vclose_impl rpc xdr_len fuel files) b w (λ r b' w', closed_batch s files b (fs w) r b' (fs w')) ∧
  (∀ fd o, open_files b !! fd = Some o →
     returns (close_impl rpc xdr_len (Fd fd)) b w (λ r b' w', closed_one s fd o b (fs w) r b' (fs w'))) ∧
  returns (drain_deferred_descriptor_closes rpc xdr_len fuel) b w (λ r b' w', drained s b (fs w) r b' (fs w')).
Proof.
  intros Hrpc Himp Hmax n Hfuel. split_and!.
  - apply vclose_ok; [done..|]. unfold n in Hfuel. nia.
  - intros fd o Ho. by apply close_ok.
  - apply drain_deferred_ok; [done..|]. unfold n in Hfuel. nia.
Qed.

(** Two open files, of which the first is closed twice in one batch. *)
Definition example_held : NfsVecFs :=
  set_files example_backend (list_to_map [(3, OpenState (bstr "FF") (StateId 1 (be_bytes 12 7)) 0 false None);
                                          (4, OpenState (bstr "O") (StateId 1 (be_bytes 12 8)) 0 false None)]).
Definition example_server : mem := Mem (nodes example_links) 9 [StateId 1 (be_bytes 12 7); StateId 1 (be_bytes 12 8)].

Lemma closing_accounts_witness :
  ∃ e b' w', vclose_impl example_rpc SendLemmas.example_xdr_len 16 [Fd 3; Fd 3; Fd 4] example_held example_server = Done (Err e, b', w') ∧
    VfError.index e = Some 1 ∧ open_files b' !! 3 = None ∧ open_files b' !! 4 = open_files example_held !! 4 ∧
    opened w' = [StateId 1 (be_bytes 12 8)].
Proof.
  destruct (closing_accounts MemFs.spec example_rpc id SendLemmas.example_xdr_len example_held [Fd 3; Fd 3; Fd 4] example_server 16)
    as [(r & b' & w' & E & H) _].
  - apply ServerLemmas.spec_server_transport; [apply MemFs.mem_spec_ok|reflexivity].
  - apply ServerLemmas.spec_server_implements, MemFs.mem_spec_ok.
  - by vm_compute.
  - by vm_compute.
  - assert (Hrun : match vclose_impl example_rpc SendLemmas.example_xdr_len 16 [Fd 3; Fd 3; Fd 4] example_held example_server with
      | Done (Err e, _, w') => VfError.is_transport e = false ∧ VfError.index e = Some 1 ∧ opened w' = [StateId 1 (be_bytes 12 8)]
      | _ => False end) by (vm_compute; repeat split; reflexivity).
    rewrite E in Hrun. destruct r as [|e]; [destruct Hrun|]. destruct Hrun as (Ht & Hi & Ho). exists e, b', w'. split; [exact E|]. split; [exact Hi|].
    destruct H as (k & Hb & H). rewrite Ht in H. destruct H as [Hk _]. rewrite Hi in Hk. injection Hk as Hk.
    assert (k = 1%nat) as -> by lia. rewrite Hb. split; [reflexivity|]. split; [reflexivity|exact Ho].
Defined.
