(* ===== verification/Recovery.v ===== *)
(** * Losing the connection

    Models [crates/vfsi-nfs/src/nfs/recovery.rs]: dropping and shutting down a
    backend, connecting a new client, [reconnect_once], which reopens every
    descriptor by its file handle and retires the state of the old connection,
    [reconnect] with its attempts and pauses, and [read_with_recovery], which
    repeats a read once; and of [vector_backend.rs] the beginning of
    [vread_impl].  The theorems show that a reconnect keeps every descriptor or
    changes nothing, and that a read is right whether or not the connection was
    lost in the middle of it. *)
From stdpp Require Import base numbers countable list list_numbers gmap strings.
From S2P Require Import Prelude Path Errors Types Planner Compound Session Client Loops Exchange Server Batch BatchOps BatchRun Resolve Single BatchSpec Reads Mutations Opens Lifecycle OpenPaths PathSpec Metadata StdPath Backend Namespace Files DescriptorIo Descriptors.

Definition NFS4ERR_EXPIRED : Z := 10011.
Definition NFS4ERR_GRACE : Z := 10013.
Definition NFS4ERR_STALE_CLIENTID : Z := 10022.

(** ** Configuration *)

(** The host and the timeouts belong to the transport. *)
Record ConnectionConfig := MakeConnection {
  cc_root : bytes;
  cc_minorversion : option Z;
  cc_authentication : NfsAuth;
  cc_client_owner : option bytes;
  cc_client_verifier : verifier4;
}.

(** Durations in nanoseconds. *)
Record NfsRecoveryPolicy := Policy {
  reconnect_attempts : Z;
  initial_backoff : Z;
  max_backoff : Z;
  max_elapsed : Z;
}.
Definition default_policy : NfsRecoveryPolicy := Policy 128 (100 * 1000000) (1000 * 1000000) (120 * 1000000000).

(** [Duration::MAX], and [checked_mul(2).unwrap_or(limit).min(limit)]. *)
Definition DURATION_MAX : Z := U64_MAX * 1000000000 + 999999999.
Definition next_backoff (backoff limit : Z) : Z :=
  Z.min (if 2 * backoff <=? DURATION_MAX then 2 * backoff else limit) limit.

Definition needs_recovery (error : VfError.t) : bool :=
  match VfError.transport_kind error with
  | Some Timeout | Some Connection | Some OtherTransport => true
  | _ => false
  end ||
  match VfError.status error with
  | Some (NfsStatus status) =>
      (status =? NFS4ERR_EXPIRED) || (status =? NFS4ERR_GRACE) || (status =? NFS4ERR_STALE_CLIENTID) ||
      (status =? NFS4ERR_STALE_STATEID) || (status =? NFS4ERR_BAD_STATEID) || (status =? NFS4ERR_BADSESSION) ||
      (status =? NFS4ERR_DEADSESSION)
  | _ => false
  end.

(** What is kept of an open file: its descriptor, how to open it, its cursor and
    its handle. *)
Record snapshot := Snapshot { sn_fd : Z; sn_recipe : ReopenFile; sn_offset : Z; sn_fh : nfs_fh4 }.

Fixpoint snapshots (files : list (Z * NfsOpenState)) : VfResult (list snapshot) :=
  match files with
  | [] => Ok []
  | (fd, o) :: files =>
      match os_reopen o with
      | None => Err (VfError.transport None "cannot recover while an internal temporary descriptor is live")
      | Some recipe =>
          match snapshots files with
          | Ok rest => Ok (Snapshot fd recipe (os_cur_offset o) (os_fh o) :: rest)
          | Err e => Err e
          end
      end
  end.

(** [for (snapshot, opened) in snapshots.iter().zip(outcome.opened)]. *)
Definition retained (x : snapshot * option (nfs_fh4 * stateid4)) (m : gmap Z NfsOpenState) : gmap Z NfsOpenState :=
  match x.2 with
  | Some (fh, stateid) =>
      let recipe := sn_recipe x.1 in
      <[sn_fd x.1 := OpenState fh stateid (sn_offset x.1) (negb (Z.land (ro_flags recipe) O_APPEND =? 0)) (Some recipe)]> m
  | None => m
  end.

(** [from_client] and the fields the new backend takes over, before its files are
    reopened. *)
Definition replacement_of (cl : NfsClient.t) (b : NfsVecFs) : NfsVecFs :=
  let cl := NfsClient.prepare_reconnect cl (nfs b) in
  let configured := configured_max_compound_bytes b in
  let cl := if negb (configured =? 0) then NfsClient.set_max_compound_bytes cl configured else cl in
  MakeFs cl (conn_root b) (cwd b) (next_fd b) ∅ [] (merged_mode b) (read_only b) (auto_reconnect b) false configured.

Section Recovery.
Context {W : Type} (rpc : Compound.t → W → RpcResult COMPOUND4res * W) (xdr_len : Compound.t → Z).
Context (connection : ConnectionConfig) (policy : NfsRecoveryPolicy).
(** The owner id derived from the process and the clock, the clock, sleeping,
    and the order in which a table is iterated. *)
Context (generated : W → bytes) (now : W → Z) (sleep : Z → W → W) (iter : gmap Z NfsOpenState → list (Z * NfsOpenState)).
Context (os_error_kind : Z → ErrorKind).

(** ** Dropping *)

(** The states a backend still holds. *)
Definition held (b : NfsVecFs) : list NfsOpenState := (iter (open_files b)).*2 ++ deferred_descriptor_closes b.

Definition drop_fs (fuel : nat) (b : NfsVecFs) (w : W) : outcome W :=
  '(_, cl, w) ← close_many rpc xdr_len fuel (nfs b) (close_of <$> held b) w;
  Done (Session.drop_session rpc (NfsClient.session cl) w).

(** [shutdown] up to the drop of what is left. *)
Definition shutdown (fuel : nat) (b : NfsVecFs) (w : W) : outcome (VfResult unit * NfsVecFs * W) :=
  '(close_result, cl, w) ← close_many rpc xdr_len fuel (nfs b) (close_of <$> held b) w;
  '(shutdown_result, cl, w) ← or_panic (Lifecycle.shutdown rpc xdr_len cl w);
  Done (match close_result with
        | Err e => Err (error_from_rpc_indexed e)
        | Ok _ => match shutdown_result with Err e => Err (error_from_rpc e None) | Ok _ => Ok tt end
        end, set_deferred (set_files (set_nfs b cl) ∅) [], w).

(** ** Connecting *)

Definition connect_client (w : W) : outcome (VfResult NfsClient.t * W) :=
  '(r, w) ← or_panic
    match cc_minorversion connection with
    | Some version =>
        Lifecycle.connect_minor_with_identity rpc (cc_authentication connection) (cc_client_owner connection)
          (cc_client_verifier connection) (generated w) version w
    | None =>
        Lifecycle.connect_with_identity rpc (cc_authentication connection) (cc_client_owner connection)
          (cc_client_verifier connection) (generated w) w
    end;
  Done (match r with Ok cl => Ok cl | Err e => Err (error_from_rpc e (Some 0)) end, w).

(** ** Reconnecting *)

(** The files are reopened by handle on the new connection. *)
Definition reopen_all (fuel : nat) (snaps : list snapshot) (b : NfsVecFs) (w : W) : outcome (VfResult unit * NfsVecFs * W) :=
  match snaps with
  | [] => Done (Ok tt, b, w)
  | _ =>
      let ops := (λ x, (sn_fh x, flags_to_access (ro_flags (sn_recipe x)))) <$> snaps in
      '(r, cl, w) ← openv_handle_compound rpc xdr_len fuel (nfs b) ops w;
      let b := set_nfs b cl in
      match r with
      | Err e => Done (Err (error_from_rpc_indexed e), b, w)
      | Ok out =>
          let b := set_files b (foldl (λ m x, retained x m) (open_files b) (zip snaps (oo_opened out))) in
          match oo_failed out with
          | None => Done (Ok tt, b, w)
          | Some (index, status) =>
              x ← or_panic (snaps !! Z.to_nat index);
              Done (Err (VfError.with_context (VfError.nfs (Some index) status) "reconnect retained object" (ro_path (sn_recipe x))), b, w)
          end
      end
  end.

(** [reconnect_once] of a backend that was not made from a kernel mount
    ([mount_source] is [None]); the table of directories and the counters of the
    server-side copies, which the new backend takes over as they are, belong to
    operations outside this model. *)
Definition reconnect_once (fuel : nat) : op W unit := λ b w,
  match snapshots (iter (open_files b)) with
  | Err e => Done (Err e, b, w)
  | Ok snaps =>
      '(r, w) ← connect_client w;
      match r with
      | Err e => Done (Err e, b, w)
      | Ok cl =>
          '(r, replacement, w) ← reopen_all fuel snaps (replacement_of cl b) w;
          match r with
          | Err e => w ← drop_fs fuel replacement w; Done (Err e, b, w)
          | Ok _ =>
              '(cl, w) ← Lifecycle.retire_replaced_connection rpc xdr_len fuel (nfs replacement) (nfs b) (close_of <$> held b) w;
              w ← drop_fs fuel (set_deferred (set_files (set_nfs b (NfsClient.abandon (nfs b))) ∅) []) w;
              Done (Ok tt, set_nfs replacement cl, w)
          end
      end
  end.

(** The pause before the next attempt. *)
Definition pause (backoff elapsed : Z) (w : W) : W :=
  if backoff =? 0 then w
  else sleep (Z.min (Z.min backoff (max_backoff policy)) (sat_sub (max_elapsed policy) elapsed)) w.

(** [for attempt in 0..attempts], [more] of which remain. *)
Fixpoint attempts (fuel more : nat) (attempt backoff started : Z) : op W unit :=
  match more with
  | O => fail (VfError.transport None "NFS reconnect failed")
  | S more => λ b w,
      '(r, b, w) ← reconnect_once fuel b w;
      match r with
      | Ok _ => Done (Ok tt, b, w)
      | Err error =>
          let identity_changed := negb (VfError.is_transport error) && (VfError.raw_code os_error_kind error =? ESTALE) in
          let elapsed := now w - started in
          if identity_changed || (reconnect_attempts policy <=? attempt + 1) || (max_elapsed policy <=? elapsed)
          then Done (Err error, b, w)
          else
            attempts fuel more (attempt + 1) (if backoff =? 0 then 0 else next_backoff backoff (max_backoff policy)) started
              b (pause backoff elapsed w)
      end
  end.
Definition reconnect (fuel : nat) : op W unit := λ b w,
  attempts fuel (Z.to_nat (reconnect_attempts policy)) 0 (initial_backoff policy) (now w) b w.

(** ** Reading *)

(** [self.recovery_in_progress = true; operation(self); self.recovery_in_progress = false]. *)
Definition recovering {A} (operation : op W A) : op W (VfResult A) :=
  modify (λ b, set_recovering b true) ;;
  r ← attempt operation;
  modify (λ b, set_recovering b false) ;;
  ret r.

Definition read_with_recovery {A} (fuel : nat) (operation : op W A) : op W A :=
  first ← recovering operation;
  auto ← gets auto_reconnect;
  match first with
  | Err error =>
      if auto && needs_recovery error then
        reconnect fuel ;;
        retry ← recovering operation;
        lift retry
      else fail error
  | Ok a => ret a
  end.

(** [vread_impl], its part on paths being [by_path]. *)
Definition vread_body (fuel : nat) (by_path : list FileRead → op W (list ReadResult)) (reads : list FileRead) : op W (list ReadResult) :=
  match reads with
  | [] => ret []
  | _ =>
      if forallb (λ r, FileOperand.is_fd (fr_file r)) reads then vread_batch_nfs rpc xdr_len fuel reads
      else by_path reads
  end.
Definition vread_impl (fuel : nat) (by_path : list FileRead → op W (list ReadResult)) (reads : list FileRead) : op W (list ReadResult) :=
  running ← gets recovery_in_progress;
  if running : bool then vread_body fuel by_path reads
  else read_with_recovery fuel (vread_body fuel by_path reads).

(** [seek_raw_impl]. *)
Definition seek_raw_impl (fuel : nat) (file : FileOperand) (offset : Z) (whence : SeekFrom) : op W Z :=
  running ← gets recovery_in_progress;
  if running : bool then seek_raw rpc xdr_len file offset whence
  else read_with_recovery fuel (seek_raw rpc xdr_len file offset whence).
End Recovery.

(** ** What a reconnect is *)

(** An observation of the file system that managing sessions and reopening and
    closing files by handle leave alone (RFC 8881, sections 18.2, 18.16 and
    18.34 to 18.51): the contents, say. *)
Record undisturbed {F W D} (s : nfs_spec F) (rpc : Compound.t → W → RpcResult COMPOUND4res * W) (fs : W → F) (view : F → D) : Prop := {
  un_session c w r w' : rpc c w = (r, w') → Forall (λ o, file_op o = false) (Compound.ops c) → view (fs w') = view (fs w);
  un_open f fh access cid owner f' v :
    sp_open s f fh (OpenArgs 0 access 0 cid owner NoCreate ClaimFh) = Ok (f', v) → view f' = view f;
  un_close f fh q st f' : sp_close s f fh q st = Ok f' → view f' = view f;
}.

(** An open file after it was reopened. *)
Definition reopened_as (o : NfsOpenState) (st : stateid4) (o' : NfsOpenState) : Prop :=
  ∃ recipe, os_reopen o = Some recipe ∧
    o' = OpenState (os_fh o) st (os_cur_offset o) (negb (Z.land (ro_flags recipe) O_APPEND =? 0)) (Some recipe).
Definition handle_of (o : NfsOpenState) : nfs_fh4 * Z := (os_fh o, flags_to_access (default 0 (ro_flags <$> os_reopen o))).

Section Reconnected.
Context {F W D : Type} (s : nfs_spec F) (rpc : Compound.t → W → RpcResult COMPOUND4res * W) (fs : W → F) (view : F → D).
Context (connection : ConnectionConfig) (generated : W → bytes) (iter : gmap Z NfsOpenState → list (Z * NfsOpenState)).

(** One request of session management. *)
Definition session_step (w w' : W) : Prop :=
  ∃ c r, rpc c w = (r, w') ∧ Forall (λ o, file_op o = false) (Compound.ops c).

(** The states of the old connection: those of the open files, and the closes it
    still had to send. *)
Definition obsolete (b : NfsVecFs) : list CloseOp :=
  (close_of <$> held iter b) ++ NfsClient.deferred_path_closes (nfs b).

(** What became of the states of [b] when [cl] took over: where the server takes
    [cl] for the same client, and so keeps them, they are closed in order, up to
    a failure, and kept to be closed again if not all are; where it does not,
    nothing is sent. *)
Definition retired (b : NfsVecFs) (cl : NfsClient.t) (w : W) (b' : NfsVecFs) (w' : W) : Prop :=
  if Session.shares_identity (NfsClient.session cl) (NfsClient.session (nfs b)) then
    ∃ k vs, answers (closed s <$> take k (obsolete b)) (fs w) = Ok (fs w', vs) ∧
      ((length (obsolete b) <= k)%nat ∧ NfsClient.deferred_path_closes (nfs b') = [] ∨
       NfsClient.deferred_path_closes (nfs b') = obsolete b)
  else w' = w ∧ NfsClient.deferred_path_closes (nfs b') = [].

(** The backend [b'] and the world [w'] after a reconnect from [b] in [w]: the
    configuration is the same, the table has the same descriptors, and each has
    its file, its cursor and the stateid the server gave for opening that very
    file again.  The attempt that succeeded began in [w0], the failed ones having
    left the observation alone; it connected the client [cl], whose identity the
    backend has, reopened all the files from [w1] to [w2], retired the old states
    from [w2] to [w3], and then only managed sessions. *)
Record reconnected (b : NfsVecFs) (w : W) (b' : NfsVecFs) (w' : W) : Prop := {
  rc_fields : b' = MakeFs (nfs b') (conn_root b) (cwd b) (next_fd b) (open_files b') [] (merged_mode b) (read_only b)
                     (auto_reconnect b) false (configured_max_compound_bytes b);
  rc_client : 1 <= NfsClient.max_ops (nfs b') <= MAX_COMPOUND_OPS;
  rc_descriptors : dom (open_files b') = dom (open_files b);
  rc_states : ∃ w0 cl w1 w2 w3 owners sts,
    view (fs w0) = view (fs w) ∧
    connect_client rpc connection generated w0 = Done (Ok cl, w1) ∧ clientid (nfs b') = clientid cl ∧
    answers (item_groups (reopen_step s (clientid cl)) 0 (zip (handle_of <$> (iter (open_files b)).*2) owners)) (fs w1) = Ok (fs w2, sts) ∧
    Forall2 (λ x st, ∃ o', open_files b' !! x.1 = Some o' ∧ reopened_as x.2 st o') (iter (open_files b)) sts ∧
    retired b cl w2 b' w3 ∧ rtc session_step w3 w';
}.
End Reconnected.

Module RecoveryLemmas.
Import ExchangeLemmas ServerLemmas SingleLemmas BatchOpsLemmas BatchSpecLemmas NamespaceLemmas DescriptorLemmas TableLemmas.

(** ** Managing sessions *)

Section Sessions.
Context {W : Type} (rpc : Compound.t → W → RpcResult COMPOUND4res * W).

Lemma call_steps c w r w' : call rpc c w = (r, w') → Forall (λ o, file_op o = false) (Compound.ops c) → rtc (session_step rpc) w w'.
Proof.
  unfold call. destruct (rpc c w) as [r1 w1] eqn:E. intros Hr Hops.
  assert (w' = w1) as -> by (destruct r1; [destruct (validate_response_ops _ _)|]; by injection Hr as _ <-). apply rtc_once. by exists c, r1.
Qed.
Lemma single_steps ss tag o w r w' : call rpc (Session.single ss tag o) w = (r, w') → file_op o = false → rtc (session_step rpc) w w'.
Proof. intros E Ho. eapply call_steps; [exact E|]. by constructor. Qed.

Lemma shutdown_steps ss w : rtc (session_step rpc) w (Session.shutdown rpc ss w).2.
Proof.
  unfold Session.shutdown. destruct (_ =? 0); [done|].
  set (first := if Session.session_created ss then _ else _). assert (H1 : rtc (session_step rpc) w first.2).
  { unfold first, Session.destroy_session. destruct (Session.session_created ss); [|done].
    destruct (call rpc _ w) as [r1 w1] eqn:E1. apply single_steps in E1; [|done]. by repeat case_match; simplify_eq/=. }
  destruct first as [first_error w1]. cbn in H1. destruct (Session.owns_clientid ss); [|done].
  destruct (call rpc _ w1) as [r2 w2] eqn:E2. apply single_steps in E2; [|done]. destruct r2, first_error; cbn; by etransitivity.
Qed.
Lemma retire_session_steps ss previous w : rtc (session_step rpc) w (Session.retire_previous_session rpc ss previous w).2.
Proof.
  unfold Session.retire_previous_session, Session.destroy_session. destruct (call rpc _ w) as [r w1] eqn:E.
  apply single_steps in E; [|done]. destruct r as [res|e]; [|done]. destruct (_ =? NFS_OK); [|done]. cbn [snd].
  destruct (call rpc _ w1) as [r2 w2] eqn:E2. apply single_steps in E2; [|done].
  destruct r2; [destruct (_ || _)|]; cbn; by etransitivity.
Qed.
End Sessions.

Section Connecting.
Context {F W D : Type} (s : nfs_spec F) (rpc : Compound.t → W → RpcResult COMPOUND4res * W) (fs : W → F) (view : F → D).
Context (Hrpc : transport_ok rpc) (Himp : implements s rpc fs) (Hun : undisturbed s rpc fs view).

Lemma steps_view w w' : rtc (session_step rpc) w w' → view (fs w') = view (fs w).
Proof. induction 1 as [|w w1 w2 (c & r & E & Hops) _ IH]; [done|]. rewrite IH. by eapply un_session. Qed.
Lemma single_view ss tag o w r w' : call rpc (Session.single ss tag o) w = (r, w') → file_op o = false → view (fs w') = view (fs w).
Proof. intros E Ho. eapply steps_view, single_steps; [exact E|done]. Qed.
Lemma drop_view ss w : view (fs (Session.drop_session rpc ss w)) = view (fs w).
Proof. apply steps_view, shutdown_steps. Qed.

Lemma compound_view ss c w r ss' w' : Session.compound rpc ss c w = (r, ss', w') →
  Forall (λ o, file_op o = false) (Compound.ops c) → view (fs w') = view (fs w).
Proof.
  unfold Session.compound. intros E Hops. destruct (Session.poisoned ss); [by simplify_eq|].
  destruct (call rpc _ w) as [r1 w1] eqn:E1. apply call_steps, steps_view in E1; [|by constructor]. by destruct r1; simplify_eq.
Qed.

Lemma connect_view mv owner verifier generated w r w' : Session.connect rpc mv owner verifier generated w = (r, w') →
  view (fs w') = view (fs w).
Proof.
  unfold Session.connect. destruct (Session.exchange_id rpc _ _ _ _) as [[r1 s1] w1] eqn:E1.
  assert (H1 : view (fs w1) = view (fs w)).
  { unfold Session.exchange_id in E1. destruct (call rpc _ w) as [r0 w0] eqn:E0. apply single_view in E0; [|done].
    repeat (case_match; simplify_eq/=); done. }
  destruct r1 as [[]|e]; [|intros [= <- <-]; by rewrite drop_view].
  destruct (Session.create_session rpc s1 w1) as [[r2 s2] w2] eqn:E2.
  assert (H2 : view (fs w2) = view (fs w)).
  { rewrite <-H1. unfold Session.create_session in E2. destruct (call rpc _ w1) as [r0 w0] eqn:E0. apply single_view in E0; [|done].
    repeat (case_match; simplify_eq/=); done. }
  destruct r2 as [[]|e]; [|intros [= <- <-]; by rewrite drop_view].
  destruct (Session.reclaim_complete rpc s2 w2) as [[r3 s3] w3] eqn:E3.
  assert (H3 : view (fs w3) = view (fs w)).
  { rewrite <-H2. unfold Session.reclaim_complete in E3. destruct (Session.compound rpc _ _ w2) as [[r0 s0] w0] eqn:E0.
    apply compound_view in E0; [|by repeat constructor]. repeat (case_match; simplify_eq/=); done. }
  destruct r3 as [[]|e]; intros [= <- <-]; [done|]. by rewrite drop_view.
Qed.

(** Mounting finds the root of the file system. *)
Lemma mount_ok ss w : ∃ r ss' w', Lifecycle.session_mount_root rpc ss w = Some (r, ss', w') ∧ fs w' = fs w ∧
  match r with Ok root => root = sp_root s | Err _ => True end.
Proof.
  unfold Lifecycle.session_mount_root. set (c := Compound.getfh _). unfold Session.compound.
  destruct (Session.poisoned ss); [by eexists _, _, _|]. destruct (call rpc _ w) as [r w'] eqn:E.
  assert (Hsent : fs w' = fs w).
  { unfold call in E. destruct (rpc _ w) as [r1 w1] eqn:E1.
    destruct (Himp _ _ _ _ _ _ [APutRootFh; AGetFh] E1 eq_refl ltac:(by repeat constructor)) as (k & m & rs & Hk & Hfs & _).
    assert (mc_fs m = fs w) by (destruct k as [|[|[]]]; cbn in Hk; by simplify_eq/=). 
    destruct r1; [destruct (validate_response_ops _ _)|]; injection E as _ <-; congruence. }
  destruct r as [res|e]; [|by eexists _, _, _].
  assert (Hex : exchanged rpc [APutRootFh; AGetFh] w res w').
  { pose proof (SlotLemmas.call_inv rpc _ _ _ _ E) as Hr. eexists _, _, _. split; [exact Hr|]. split; [reflexivity|].
    split; [by eapply tr_decoded|]. revert E. unfold call. rewrite Hr. destruct (validate_response_ops _ res) as [[]|] eqn:Hv; [|done].
    intros _. apply ValidateReplyLemmas.validate_response_ops_iff; [by eapply tr_decoded|done]. }
  destruct (exchanged_runs s rpc fs Himp _ _ _ _ Hex ltac:(by repeat constructor)) as (m & rs & Hrun & _ & Hcomp & Hst).
  destruct Hex as (req & sid & q & _ & _ & Hd & Hok). rewrite (expect_all_ok_spec _ _ Hd Hok).
  destruct (CompoundRes.status res =? NFS_OK); [|by eexists _, _, _]. rewrite Hst in Hrun. cbn in Hrun. simplify_eq/=.
  pose proof (complete_accessors _ _ 1 _ Hcomp eq_refl) as Hacc. cbn -[vec_of CompoundRes.vec_bytes] in Hacc. rewrite vec_of_bytes in Hacc.
  change (1 + Z.of_nat 1) with 2 in Hacc. rewrite Hacc. by eexists _, _, _.
Qed.

(** What connecting gives. *)
Definition connected (cl : NfsClient.t) : Prop :=
  client_wf cl ∧ NfsClient.root cl = sp_root s ∧ NfsClient.deferred_path_closes cl = [].

Lemma connect_minor_ok auth owner verifier generated mv w :
  ∃ r w', Lifecycle.connect_minor_with_identity rpc auth owner verifier generated mv w = Some (r, w') ∧ view (fs w') = view (fs w) ∧
    match r with Ok cl => connected cl | Err _ => True end.
Proof.
  destruct (Lifecycle.connect_minor_with_identity rpc auth owner verifier generated mv w) as [[r w']|] eqn:E.
  - exists r, w'. split; [done|]. pose proof E as E0. unfold Lifecycle.connect_minor_with_identity in E0.
    destruct (Session.connect rpc mv owner verifier generated w) as [r1 w1] eqn:E1. pose proof (connect_view _ _ _ _ _ _ _ E1) as H1.
    destruct r1 as [ss|e]; [|by simplify_eq]. destruct (mount_ok ss w1) as (r2 & s2 & w2 & E2 & H2 & Hroot). rewrite E2 in E0. cbn in E0.
    destruct r2 as [root|e]; [|simplify_eq; rewrite drop_view; by rewrite H2].
    destruct (Lifecycle.client_of auth s2 root) as [cl|e] eqn:Ecl; simplify_eq; [|rewrite drop_view; by rewrite H2].
    split; [by rewrite H2|]. split; [by eapply LifecycleLemmas.connected_wf; [apply Hrpc|]|].
    unfold Lifecycle.client_of in Ecl. destruct (_ <=? _); [done|]. by injection Ecl as <-.
  - exfalso. unfold Lifecycle.connect_minor_with_identity in E. destruct (Session.connect rpc mv owner verifier generated w) as [[ss|] w1]; [|done].
    destruct (mount_ok ss w1) as (r2 & s2 & w2 & E2 & _). rewrite E2 in E. cbn in E. by repeat case_match.
Qed.

Lemma connect_client_ok connection generated w :
  ∃ r w', connect_client rpc connection generated w = Done (r, w') ∧ view (fs w') = view (fs w) ∧
    match r with Ok cl => connected cl | Err _ => True end.
Proof.
  unfold connect_client. set (m := match cc_minorversion connection with Some _ => _ | None => _ end).
  enough (∃ r w', m = Some (r, w') ∧ view (fs w') = view (fs w) ∧ match r with Ok cl => connected cl | Err _ => True end)
    as (r & w' & -> & Hv & Hr) by (exists (match r with Ok cl => Ok cl | Err e => Err (error_from_rpc e (Some 0)) end), w'; by destruct r).
  unfold m. destruct (cc_minorversion connection) as [v|]; [apply connect_minor_ok|].
  unfold Lifecycle.connect_with_identity.
  edestruct connect_minor_ok as (r & w1 & -> & Hv & Hr). cbn. destruct r as [cl|e]; [by eexists _, _|].
  destruct (_ =? _); [|by eexists _, _]. edestruct connect_minor_ok as (r2 & w2 & E2 & Hv2 & Hr2). exists r2, w2. rewrite E2. split; [done|].
  split; [congruence|done].
Qed.
End Connecting.
(** ** Snapshots and the new table *)

Lemma snapshots_ok files snaps : snapshots files = Ok snaps →
  Forall2 (λ x sn, sn_fd sn = x.1 ∧ os_reopen x.2 = Some (sn_recipe sn) ∧ sn_offset sn = os_cur_offset x.2 ∧ sn_fh sn = os_fh x.2) files snaps.
Proof.
  revert snaps. induction files as [|[fd o] files IH]; intros snaps; cbn; [by intros [= <-]|].
  destruct (os_reopen o) as [recipe|] eqn:Er; [|done]. destruct (snapshots files) as [rest|e]; [|done]. intros [= <-].
  constructor; [done|by apply IH].
Qed.

Definition reopened_snapshot (x : snapshot) (st : stateid4) : NfsOpenState :=
  OpenState (sn_fh x) st (sn_offset x) (negb (Z.land (ro_flags (sn_recipe x)) O_APPEND =? 0)) (Some (sn_recipe x)).

Lemma retained_all snaps : ∀ (m : gmap Z NfsOpenState) sts, length sts = length snaps → NoDup (sn_fd <$> snaps) →
  let m' := foldl (λ m x, retained x m) m (zip snaps (Some <$> zip (sn_fh <$> snaps) sts)) in
  dom m' = dom m ∪ list_to_set (sn_fd <$> snaps) ∧ (∀ fd, fd ∉ sn_fd <$> snaps → m' !! fd = m !! fd) ∧
  Forall2 (λ x st, m' !! sn_fd x = Some (reopened_snapshot x st)) snaps sts.
Proof.
  induction snaps as [|x snaps IH]; intros m sts Hlen Hnd; cbn zeta.
  { destruct sts; [|done]. cbn. split; [set_solver|]. by split; [|constructor]. }
  destruct sts as [|st sts]; [done|]. apply NoDup_cons in Hnd as [Hx Hnd].
  destruct (IH (<[sn_fd x := reopened_snapshot x st]> m) sts ltac:(cbn in Hlen; lia) Hnd) as (Hdom & Hout & Hin).
  split; [|split].
  - etransitivity; [exact Hdom|]. rewrite dom_insert_L. set_solver.
  - intros fd Hfd. apply not_elem_of_cons in Hfd as [Hne Hfd]. etransitivity; [exact (Hout fd Hfd)|]. by rewrite lookup_insert_ne by done.
  - constructor; [|exact Hin]. etransitivity; [exact (Hout _ Hx)|]. by rewrite lookup_insert_eq.
Qed.

Section Reconnecting.
Context {F W D : Type} (s : nfs_spec F) (rpc : Compound.t → W → RpcResult COMPOUND4res * W) (fs : W → F) (view : F → D).
Context (Hrpc : transport_ok rpc) (Himp : implements s rpc fs) (Hun : undisturbed s rpc fs view).
Context (xdr_len : Compound.t → Z) `{!XdrSizes xdr_len}.
Context (iter : gmap Z NfsOpenState → list (Z * NfsOpenState)) (Hiter : ∀ m, iter m ≡ₚ map_to_list m).

Lemma answers_view {A} (steps : list (F → result Z (F * A))) f f' vs :
  Forall (λ st, ∀ f f' v, st f = Ok (f', v) → view f' = view f) steps → answers steps f = Ok (f', vs) → view f' = view f.
Proof.
  intros Hst. revert f vs. induction Hst as [|st steps Hs _ IH]; intros f vs; cbn; [by intros [= <-]|].
  destruct (st f) as [[f1 v]|e] eqn:E; [|done]. destruct (answers steps f1) as [[f2 vs2]|e] eqn:E2; [|done]. intros [= <- _].
  rewrite (IH _ _ E2). by eapply Hs.
Qed.
Lemma closes_observed ops f f' vs : answers (closed s <$> ops) f = Ok (f', vs) → view f' = view f.
Proof.
  apply answers_view, Forall_fmap, Forall_true. intros op f0 f1 v. unfold closed, step_of. cbn [meaning]. unfold at_fh, changed. 
  destruct (sp_putfh s f0 _); [|done]. destruct (sp_close s f0 _ _ _) as [f2|] eqn:E; [|done]. intros [= <- _]. by eapply un_close.
Qed.
Lemma retired_view b cl w b' w' : retired s fs iter b cl w b' w' → view (fs w') = view (fs w).
Proof. unfold retired. destruct (Session.shares_identity _ _); [intros (k & vs & H & _); by eapply closes_observed|by intros [-> _]]. Qed.
Lemma reopens_view cid items j f f' vs : answers (take j (item_groups (reopen_step s cid) 0 items)) f = Ok (f', vs) → view f' = view f.
Proof.
  apply answers_view, Forall_take. generalize 0. induction items as [|x items IH]; intros i; [constructor|].
  constructor; [|apply IH]. intros f0 f1 v. unfold reopen_step, at_fh. destruct (sp_putfh s f0 _); [|done].
  destruct (sp_open s f0 _ _) as [[f2 [[y st] mask]]|] eqn:E; [|done]. intros [= <- _]. by eapply un_open.
Qed.

Lemma iter_nodup m : NoDup (iter m).*1.
Proof. rewrite Hiter. apply NoDup_fst_map_to_list. Qed.
Lemma iter_dom m : list_to_set (iter m).*1 = dom m.
Proof. apply set_eq. intros fd. rewrite elem_of_list_to_set, Hiter, list_elem_of_fmap, elem_of_dom.
  split; [intros ([k o] & -> & H%elem_of_map_to_list); by exists o|]. intros [o Ho]. exists (fd, o). by rewrite elem_of_map_to_list. Qed.
Lemma iter_length m : length (iter m) = size m.
Proof. by rewrite Hiter, length_map_to_list. Qed.
Lemma iter_lookup m fd o : (fd, o) ∈ iter m ↔ m !! fd = Some o.
Proof. by rewrite Hiter, elem_of_map_to_list. Qed.

Lemma drop_fs_ok fuel b w : fits b → (Z.of_nat (length (held iter b)) + 1) * (Z.of_nat (length (held iter b)) + 1) <= Z.of_nat fuel →
  ∃ w', drop_fs rpc xdr_len iter fuel b w = Done w' ∧ view (fs w') = view (fs w).
Proof.
  intros Hb Hfuel. unfold drop_fs. destruct (close_many_refines s rpc fs Hrpc Himp xdr_len fuel (nfs b) (held iter b) w Hb Hfuel)
    as (r & cl & w1 & -> & _ & Hr). eexists. split; [reflexivity|]. rewrite (drop_view s rpc fs view Hun).
  destruct r as [[]|e]; cbn in Hr; [destruct Hr as [vs Hr]|destruct Hr as (k & [vs Hr] & _)]; by eapply closes_observed.
Qed.
Lemma snapshot_handles files snaps : snapshots files = Ok snaps →
  (λ x, (sn_fh x, flags_to_access (ro_flags (sn_recipe x)))) <$> snaps = handle_of <$> files.*2.
Proof.
  intros H%snapshots_ok. induction H as [|[fd o] sn files snaps (_ & Hr & _ & Hf) _ IH]; [done|]. cbn in *. rewrite IH.
  unfold handle_of. by rewrite Hr, Hf.
Qed.
Lemma snapshot_fds files snaps : snapshots files = Ok snaps → sn_fd <$> snaps = files.*1.
Proof. intros H%snapshots_ok. induction H as [|x sn files snaps (Hfd & _) _ IH]; [done|]. cbn. by rewrite Hfd, IH. Qed.

Lemma retained_size l (m : gmap Z NfsOpenState) : (size (foldl (λ m x, retained x m) m l) <= size m + length l)%nat.
Proof.
  revert m. induction l as [|x l IH]; intros m; cbn; [lia|]. etransitivity; [apply IH|].
  enough (size (retained x m) <= S (size m))%nat by lia. unfold retained. destruct x.2 as [[fh st]|]; [|lia].
  rewrite map_size_insert. destruct (m !! _); cbn; lia.
Qed.

Lemma public_owner_names_clientid n cl : clientid (public_owner_names n cl).2 = clientid cl.
Proof.
  revert cl. induction n as [|n IH]; intros cl; [done|]. cbn [public_owner_names].
  destruct (NfsClient.next_public_open_owner_name cl) as [name cl1] eqn:E. unfold NfsClient.next_public_open_owner_name in E.
  injection E as <- <-. specialize (IH (NfsClient.set_next_owner cl (wrapping_add64 (NfsClient.next_public_open_owner_id cl) 1))).
  by destruct (public_owner_names n _).
Qed.

(** What reopening does to the new backend [b]. *)
Definition reopened_files (files : list (Z * NfsOpenState)) (b : NfsVecFs) (f : F) (b' : NfsVecFs) (f' : F) : Prop :=
  clientid (nfs b') = clientid (nfs b) ∧ NfsClient.deferred_path_closes (nfs b') = NfsClient.deferred_path_closes (nfs b) ∧
  dom (open_files b') = list_to_set files.*1 ∧
  ∃ owners sts, answers (item_groups (reopen_step s (clientid (nfs b))) 0 (zip (handle_of <$> files.*2) owners)) f = Ok (f', sts) ∧
    Forall2 (λ x st, ∃ o', open_files b' !! x.1 = Some o' ∧ reopened_as x.2 st o') files sts.

Lemma reopened_table files snaps sts : snapshots files = Ok snaps → NoDup files.*1 → length sts = length files →
  let m := foldl (λ m x, retained x m) ∅ (zip snaps (reopened (handle_of <$> files.*2) sts)) in
  dom m = list_to_set files.*1 ∧ Forall2 (λ x st, ∃ o', m !! x.1 = Some o' ∧ reopened_as x.2 st o') files sts.
Proof.
  intros Hsn Hnd Hlen. pose proof (snapshot_handles _ _ Hsn) as Hh. pose proof (snapshot_fds _ _ Hsn) as Hfd. apply snapshots_ok in Hsn.
  pose proof (Forall2_length _ _ _ Hsn) as Hl. rewrite <-Hfd in Hnd.
  assert (reopened (handle_of <$> files.*2) sts = Some <$> zip (sn_fh <$> snaps) sts) as ->.
  { unfold reopened. rewrite <-Hh, !length_fmap, Hlen, <-Hl, Nat.sub_diag, app_nil_r, <-list_fmap_compose. done. }
  destruct (retained_all snaps ∅ sts ltac:(lia) Hnd) as (Hdom & _ & Hin). cbn zeta. set (m := foldl _ _ _) in *. split.
  - rewrite Hdom, dom_empty_L, Hfd. set_solver.
  - clear -Hsn Hin. clearbody m. revert sts Hin. induction Hsn as [|[fd o] sn files snaps (Hx & Hr & Ho & Hf) _ IH]; intros sts Hin; inversion_clear Hin; constructor.
    + eexists. rewrite <-Hx. split; [done|]. cbn in *. exists (sn_recipe sn). unfold reopened_snapshot. by rewrite Ho, Hf.
    + by apply IH.
Qed.

Lemma reopen_all_ok fuel files snaps b w : snapshots files = Ok snaps → NoDup files.*1 → open_files b = ∅ →
  0 <= NfsClient.max_ops (nfs b) <= U32_MAX →
  (Z.of_nat (length files) + 1) * ((NfsClient.max_ops (nfs b) + 1) * (Z.of_nat (length files) + 1)) <= Z.of_nat fuel →
  ∃ r b' w', reopen_all rpc xdr_len fuel snaps b w = Done (r, b', w') ∧ view (fs w') = view (fs w) ∧
    b' = set_files (set_nfs b (nfs b')) (open_files b') ∧ NfsClient.max_ops (nfs b') = NfsClient.max_ops (nfs b) ∧
    (size (open_files b') <= length files)%nat ∧
    match r with Ok _ => reopened_files files b (fs w) b' (fs w') | Err _ => True end.
Proof.
  intros Hsn Hnd Hempty Hmax Hfuel. pose proof (snapshot_handles _ _ Hsn) as Hh. pose proof (snapshot_fds _ _ Hsn) as Hfd.
  assert (Hl : length snaps = length files) by (by rewrite <-(length_fmap sn_fd), Hfd, length_fmap).
  destruct (decide (snaps = [])) as [->|Hne].
  { destruct files; [|done]. exists (Ok tt), b, w. split; [done|]. split; [done|]. split; [by destruct b|]. split; [done|].
    rewrite Hempty. split; [done|]. split; [done|]. split; [done|]. rewrite Hempty. split; [done|]. exists [], []. by split; [|constructor]. }
  unfold reopen_all. assert (∀ {B} (x y : B), match snaps with [] => x | _ => y end = y) as -> by (by destruct snaps).
  rewrite Hh. set (ops := handle_of <$> files.*2) in *. assert (Hlo : length ops = length files) by (unfold ops; by rewrite !length_fmap).
  pose proof (ReopenLemmas.openv_handle_ok s rpc fs xdr_len (nfs b) ops w fuel Hrpc Himp Hmax ltac:(by rewrite Hlo)) as H.
  pose proof (public_owner_names_clientid (length ops) (nfs b)) as Hcid. pose proof (ReopenLemmas.public_owner_names_length (length ops) (nfs b)) as Hown.
  destruct (public_owner_names (length ops) (nfs b)) as [owners cl0]. cbn [fst snd] in Hcid, Hown.
  destruct H as (r & cl & w' & -> & Hm & Hc & Hr). cbn [mbind outcome_bind]. rewrite Hcid in *. destruct r as [out|e]; cbn [reopens_refined] in Hr.
  - destruct Hr as (k & sts & Ha & Ho & Hd & Hf). change (open_files (set_nfs b cl)) with (open_files b). rewrite Hempty, Ho. specialize (Hc _ eq_refl).
    pose proof (retained_size (zip snaps (reopened ops sts)) ∅) as Hsz. rewrite length_zip_with, map_size_empty in Hsz.
    pose proof (reopens_view _ _ _ _ _ _ Ha) as Hv. destruct (oo_failed out) as [[index status]|].
    + destruct Hf as [-> Hlt]. rewrite Nat2Z.id. destruct (lookup_lt_is_Some_2 snaps k ltac:(lia)) as [x Hx]. cbn [or_panic mbind outcome_bind].
      rewrite Hx. cbn. eexists _, _, _. split; [reflexivity|]. split_and!; [done|by destruct b|done|cbn; lia|done].
    + eexists _, _, _. split; [reflexivity|]. split; [done|]. split; [by destruct b|]. split; [done|]. split; [cbn; lia|].
      rewrite take_ge in Ha by (rewrite item_groups_length, length_zip_with; lia).
      assert (Hls : length sts = length files) by (rewrite (answers_length _ _ _ _ Ha), item_groups_length, length_zip_with; lia).
      destruct (reopened_table files snaps sts Hsn Hnd Hls) as [Hdom Hall].
      split; [by cbn|]. split; [by cbn|]. split; [exact Hdom|]. exists owners, sts. split; [exact Ha|exact Hall].
  - destruct Hr as (k & k' & cl1 & w0 & w1 & sts & _ & _ & Ha & _ & _ & j & vs & Hj & _). eexists _, _, _. split; [reflexivity|].
    split; [rewrite (closes_observed _ _ _ _ Hj); by eapply reopens_view|]. split; [by destruct b|]. split; [done|]. split; [|done].
    cbn. rewrite Hempty, map_size_empty. lia.
Qed.
(** [previous] being retired by [cl] with [closes] and what it still had to close. *)
Lemma retire_ok fuel cl previous closes w : 0 <= NfsClient.max_ops cl < USIZE_MAX →
  let all := closes ++ NfsClient.deferred_path_closes previous in
  let kept := NfsClient.deferred_path_closes in
  (Z.of_nat (length all) + 1) * (Z.of_nat (length all) + 1) <= Z.of_nat fuel →
  ∃ cl' w1 w', Lifecycle.retire_replaced_connection rpc xdr_len fuel cl previous closes w = Done (cl', w') ∧
    NfsClient.max_ops cl' = NfsClient.max_ops cl ∧ clientid cl' = clientid cl ∧ rtc (session_step rpc) w1 w' ∧
    if Session.shares_identity (NfsClient.session cl) (NfsClient.session previous) then
      ∃ k vs, answers (closed s <$> take k all) (fs w) = Ok (fs w1, vs) ∧
        ((length all <= k)%nat ∧ kept cl' = kept cl ∨ kept cl' = kept cl ++ all)
    else w1 = w ∧ kept cl' = kept cl.
Proof.
  intros Hmax all kept Hfuel. unfold Lifecycle.retire_replaced_connection. fold all.
  destruct (Session.shares_identity _ _); cbn [negb]; [|by exists cl, w, w].
  destruct (LifecycleLemmas.close_path_or_defer_spec s rpc fs Hrpc Himp xdr_len fuel cl all w Hmax Hfuel)
    as (cl1 & w1 & -> & [Hm _] & Hid & k & vs & Hk & Hfin). cbn [mbind outcome_bind].
  pose proof (retire_session_steps rpc (NfsClient.session cl1) (NfsClient.session previous) w1) as Hv.
  unfold Session.retire_previous_session in *. destruct (call rpc _ w1) as [r w2]. eexists _, w1, _. split; [reflexivity|].
  split; [exact Hm|]. split; [exact Hid|]. split; [exact Hv|]. by exists k, vs.
Qed.

(** How much fuel a reconnect needs. *)
Definition states_held (b : NfsVecFs) : Z :=
  Z.of_nat (size (open_files b) + length (deferred_descriptor_closes b) + length (NfsClient.deferred_path_closes (nfs b))).
Definition reconnect_fuel (b : NfsVecFs) : Z := (states_held b + 1) * ((MAX_COMPOUND_OPS + 1) * (states_held b + 1)).

Lemma obsolete_length b : Z.of_nat (length (obsolete iter b)) = states_held b.
Proof. unfold obsolete, states_held, held. rewrite length_app, length_fmap, length_app, length_fmap, iter_length. lia. Qed.

Lemma abandoned_drop fuel b w : 1 <= Z.of_nat fuel →
  ∃ w', drop_fs rpc xdr_len iter fuel (set_deferred (set_files (set_nfs b (NfsClient.abandon (nfs b))) ∅) []) w = Done w' ∧
    rtc (session_step rpc) w w'.
Proof.
  intros Hf. set (b0 := set_deferred _ _).
  assert (Hz : held iter b0 = []) by (apply nil_length_inv; unfold held; rewrite length_app, length_fmap; cbn; by rewrite iter_length, map_size_empty).
  unfold drop_fs. rewrite Hz. destruct fuel as [|fuel]; [lia|]. eexists. split; [reflexivity|]. apply shutdown_steps.
Qed.

Lemma reconnect_once_ok connection generated fuel b w : fits b → reconnect_fuel b <= Z.of_nat fuel →
  returns (reconnect_once rpc xdr_len connection generated iter fuel) b w (λ r b' w', view (fs w') = view (fs w) ∧
    match r with Ok _ => reconnected s rpc fs view connection generated iter b w b' w' | Err _ => b' = b end).
Proof.
  intros Hb Hfuel. unfold returns, reconnect_once. set (files := iter (open_files b)).
  assert (Hn : 0 <= states_held b) by (unfold states_held; lia). unfold reconnect_fuel in Hfuel.
  assert (Hlen : Z.of_nat (length files) <= states_held b) by (unfold states_held, files; rewrite iter_length; lia).
  destruct (snapshots files) as [snaps|e] eqn:Hsn; [|by eexists _, _, _].
  destruct (connect_client_ok s rpc fs view Hrpc Himp Hun connection generated w) as (r & w1 & Econn & Hv1 & Hr). rewrite Econn. cbn [mbind outcome_bind].
  destruct r as [cl|e]; [|by eexists _, _, _]. destruct Hr as (Hwf & _ & Hd).
  set (b0 := replacement_of cl b).
  assert (Hb0 : NfsClient.max_ops (nfs b0) = NfsClient.max_ops cl ∧ NfsClient.deferred_path_closes (nfs b0) = [] ∧ clientid (nfs b0) = clientid cl)
    by (unfold b0, replacement_of; cbn; by destruct (negb _)). destruct Hb0 as (Hm0 & Hd0 & Hc0).
  pose proof (wf_ops _ Hwf) as Hops. assert (Hmc : MAX_COMPOUND_OPS < USIZE_MAX ∧ MAX_COMPOUND_OPS <= U32_MAX ∧ 0 <= MAX_COMPOUND_OPS) by done.
  destruct (reopen_all_ok fuel files snaps b0 w1 Hsn (iter_nodup _) eq_refl) as (r & b1 & w2 & -> & Hv2 & Hb1 & Hm1 & Hsize & Hr);
    [lia|rewrite Hm0; etransitivity; [|exact Hfuel]; apply Z.mul_le_mono_nonneg; [lia|lia|nia|apply Z.mul_le_mono_nonneg; lia]|]. cbn [mbind outcome_bind].
  assert (Hfit1 : fits b1) by (unfold fits; lia). destruct r as [[]|e].
  - destruct (retire_ok fuel (nfs b1) (nfs b) (close_of <$> held iter b) w2) as (cl2 & w3 & w4 & -> & Hm2 & Hc2 & Hst & Hret).
    { lia. } { fold (obsolete iter b). rewrite obsolete_length. nia. }
    cbn [mbind outcome_bind]. destruct (abandoned_drop fuel b w4 ltac:(nia)) as (w5 & -> & Hst'). cbn [mbind outcome_bind].
    destruct Hr as (Hc & Hdef & Hdom & owners & sts & Ha & Hall). rewrite Hc0 in Hc, Ha.
    assert (Hret' : retired s fs iter b cl w2 (set_nfs b1 cl2) w3).
    { unfold retired, Session.shares_identity in *. fold (obsolete iter b) in Hret. unfold clientid in *. by rewrite Hc, Hdef, Hd0 in Hret. }
    eexists _, _, _. split; [reflexivity|]. assert (Hsteps : rtc (session_step rpc) w3 w5) by (by etransitivity). split.
    { rewrite (steps_view s rpc fs view Hun _ _ Hsteps), (retired_view _ _ _ _ _ Hret'). congruence. }
    split; [rewrite Hb1; unfold b0, replacement_of; by destruct (negb _)|cbn [nfs set_nfs]; lia| |].
    + change (dom (open_files b1) = dom (open_files b)). rewrite Hdom. apply iter_dom.
    + exists w, cl, w1, w2, w3, owners, sts. split; [done|]. split; [done|]. split; [cbn; congruence|]. by split.
  - assert (Hh : Z.of_nat (length (held iter b1)) <= states_held b).
    { unfold held. rewrite length_app, length_fmap, iter_length, Hb1. unfold b0, replacement_of. cbn. lia. }
    destruct (drop_fs_ok fuel b1 w2 Hfit1 ltac:(nia)) as (w3 & -> & Hv3). cbn [mbind outcome_bind]. eexists _, _, _. split; [reflexivity|].
    split; [congruence|done].
Qed.
Lemma reconnected_view connection generated b w0 w b' w' : view (fs w0) = view (fs w) →
  reconnected s rpc fs view connection generated iter b w0 b' w' → reconnected s rpc fs view connection generated iter b w b' w'.
Proof.
  intros Hv [H1 H2 H3 (w1 & cl & w2 & w3 & w4 & owners & sts & Hf0 & H4)]. split; [done..|].
  exists w1, cl, w2, w3, w4, owners, sts. split; [congruence|done].
Qed.

Lemma attempts_ok connection policy generated now sleep os_error_kind fuel more attempt backoff started b w :
  (∀ d w, fs (sleep d w) = fs w) → fits b → reconnect_fuel b <= Z.of_nat fuel →
  returns (attempts rpc xdr_len connection policy generated now sleep iter os_error_kind fuel more attempt backoff started) b w
    (λ r b' w', view (fs w') = view (fs w) ∧
       match r with Ok _ => reconnected s rpc fs view connection generated iter b w b' w' | Err _ => b' = b end).
Proof.
  intros Hsleep Hb Hfuel. revert attempt backoff w. induction more as [|more IH]; intros attempt backoff w; cbn [attempts].
  { by apply returns_fail. }
  destruct (reconnect_once_ok connection generated fuel b w Hb Hfuel) as (r & b1 & w1 & E & Hv & Hr). unfold returns. rewrite E.
  cbn [mbind outcome_bind]. destruct r as [[]|e]; [by eexists _, _, _|]. subst b1. destruct (_ || _ || _); [by eexists _, _, _|].
  edestruct IH as (r & b2 & w2 & E2 & Hv2 & Hr2). rewrite E2. eexists _, _, _. split; [reflexivity|].
  assert (Hp : ∀ d d', fs (pause policy sleep d d' w1) = fs w1) by (intros d d'; unfold pause; destruct (d =? 0); [done|apply Hsleep]).
  rewrite Hp, Hv in Hv2. split; [done|]. destruct r; [|done]. eapply reconnected_view; [|exact Hr2]. by rewrite Hp.
Qed.
End Reconnecting.

(** ** Reading *)

(** The file and the cursor of every descriptor. *)
Definition cursors (b : NfsVecFs) : gmap Z (nfs_fh4 * Z) := (λ o, (os_fh o, os_cur_offset o)) <$> open_files b.

Lemma cursors_lookup b b' fd o : cursors b = cursors b' → open_files b !! fd = Some o →
  ∃ o', open_files b' !! fd = Some o' ∧ os_fh o' = os_fh o ∧ os_cur_offset o' = os_cur_offset o.
Proof.
  intros E Ho. assert (H : cursors b' !! fd = Some (os_fh o, os_cur_offset o)) by (by rewrite <-E; unfold cursors; rewrite lookup_fmap, Ho).
  unfold cursors in H. rewrite lookup_fmap in H. destruct (open_files b' !! fd) as [o'|]; [|done]. exists o'. by injection H as -> ->.
Qed.
Lemma cursors_moved m m' xs : (λ o, (os_fh o, os_cur_offset o)) <$> m = (λ o, (os_fh o, os_cur_offset o)) <$> m' →
  (λ o, (os_fh o, os_cur_offset o)) <$> moved_cursors m xs = (λ o, (os_fh o, os_cur_offset o)) <$> moved_cursors m' xs.
Proof.
  revert m m'. induction xs as [|[r res] xs IH]; intros m m' E; [done|]. cbn. apply IH.
  destruct (fr_offset r), (FileOperand.fd (fr_file r)) as [fd|]; try done.
  set (n := rr_offset res + _). assert (Ha : ∀ m : gmap Z NfsOpenState, (λ o, (os_fh o, os_cur_offset o)) <$> alter (λ o, set_cur_offset o n) fd m =
    alter (λ x : nfs_fh4 * Z, (x.1, n)) fd ((λ o, (os_fh o, os_cur_offset o)) <$> m)).
  { intros m0. apply map_eq. intros k. destruct (decide (k = fd)) as [->|Hne].
    - rewrite lookup_fmap, !lookup_alter_eq, lookup_fmap. by destruct (m0 !! fd).
    - by rewrite lookup_fmap, !lookup_alter_ne, lookup_fmap by done. }
  by rewrite !Ha, E.
Qed.
Lemma cursors_answers {F} (s : nfs_spec F) f content b b' r res : cursors b = cursors b' →
  read_answers s f content b r res → read_answers s f content b' r res.
Proof.
  intros E (fd & o & c & Hfd & Ho & Hc & Hf & Hst & Hfill). destruct (cursors_lookup _ _ _ _ E Ho) as (o' & Ho' & Hfh & Hcur).
  exists fd, o', c. rewrite Hfh. split_and!; [done..| |done]. destruct (fr_offset r); cbn in *; congruence.
Qed.
Lemma cursors_fine b b' : cursors b = cursors b' → cursors_ok b → cursors_ok b'.
Proof. intros E H fd o Ho. destruct (cursors_lookup b' b fd o (eq_sym E) Ho) as (o' & Ho' & _ & <-). exact (H _ _ Ho'). Qed.

Lemma returns_recovering {W A} (m : op W A) b w (Q : VfResult (VfResult A) → NfsVecFs → W → Prop) :
  returns m (set_recovering b true) w (λ r b' w', Q (Ok r) (set_recovering b' false) w') → returns (recovering m) b w Q.
Proof.
  intros H. unfold recovering. apply returns_modify_bind, returns_attempt_bind. eapply returns_mono; [exact H|]. cbn beta.
  intros r b' w' HQ. by apply returns_modify_bind, returns_ret.
Qed.

Section Reading.
Context {F W : Type} (s : nfs_spec F) (rpc : Compound.t → W → RpcResult COMPOUND4res * W) (fs : W → F) (content : F → nfs_fh4 → option bytes).
Context (Hrpc : transport_ok rpc) (Himp : implements s rpc fs) (Hun : undisturbed s rpc fs content) (Hshows : ∀ f, shows s f (content f)).
Context (xdr_len : Compound.t → Z) `{!XdrSizes xdr_len}.
Context (iter : gmap Z NfsOpenState → list (Z * NfsOpenState)) (Hiter : ∀ m, iter m ≡ₚ map_to_list m).

Lemma reconnected_cursors connection generated b w b' w' :
  reconnected s rpc fs content connection generated iter b w b' w' → cursors b' = cursors b.
Proof.
  intros [_ _ Hdom (? & ? & ? & ? & ? & ? & sts & _ & _ & _ & _ & Hall & _)]. apply map_eq. intros fd. unfold cursors. rewrite !lookup_fmap.
  destruct (open_files b !! fd) as [o|] eqn:Ho.
  - pose proof (proj2 (iter_lookup iter Hiter _ _ _) Ho) as [i Hi]%list_elem_of_lookup_1.
    destruct (Forall2_lookup_l _ _ _ _ _ Hall Hi) as (st & _ & o' & Ho' & recipe & _ & E). cbn in Ho'. by rewrite Ho', E.
  - apply not_elem_of_dom in Ho. rewrite <-Hdom in Ho. apply not_elem_of_dom in Ho. by rewrite Ho.
Qed.

(** A correct end of a read from the table of [b], the contents being [c]. *)
Definition read_ended (reads : list FileRead) (c : nfs_fh4 → option bytes) (b : NfsVecFs) (r : VfResult (list ReadResult)) (b' : NfsVecFs) : Prop :=
  match r with
  | Ok out =>
      (∃ f, content f = c ∧ Forall2 (read_answers s f c b) reads out) ∧
      cursors b' = (λ o, (os_fh o, os_cur_offset o)) <$> moved_cursors (open_files b) (zip reads out)
  | Err _ => cursors b' = cursors b
  end.

Lemma read_ended_cursors reads c b b0 r b' : cursors b = cursors b0 → read_ended reads c b r b' → read_ended reads c b0 r b'.
Proof.
  intros E. destruct r as [out|e]; cbn; [|congruence]. intros [(f & Hf & Hall) Hc]. split.
  - exists f. split; [done|]. eapply Forall2_impl; [exact Hall|]. intros x y. by apply cursors_answers.
  - rewrite Hc. by apply cursors_moved.
Qed.

Lemma vread_body_ok by_path reads b w fuel : fits b → cursors_ok b → Forall through_fd reads → most_reads reads <= USIZE_MAX →
  (most_reads reads + 1) * (most_reads reads + 1) <= Z.of_nat fuel →
  returns (vread_body rpc xdr_len fuel by_path reads) b w (λ r b' w', fs w' = fs w ∧ same_limits (nfs b) (nfs b') ∧
    b' = set_files (set_nfs b (nfs b')) (open_files b') ∧ (∀ e, r = Err e → open_files b' = open_files b) ∧
    read_ended reads (content (fs w)) b r b').
Proof.
  intros Hb Hcur Hreads Hsize Hfuel. destruct (decide (reads = [])) as [->|Hne].
  { apply returns_ret. split; [done|]. split; [done|]. split; [by destruct b|]. split; [done|]. cbn. split; [|done]. by exists (fs w). }
  unfold vread_body. assert (∀ {B} (x y : B), match reads with [] => x | _ => y end = y) as -> by (by destruct reads).
  assert (forallb (λ r, FileOperand.is_fd (fr_file r)) reads = true) as ->.
  { apply forallb_forall. intros r Hr%list_elem_of_In. destruct (proj1 (Forall_forall _ _) Hreads r Hr) as ([fd ->] & _). done. }
  destruct (vread_batch_ok s rpc fs xdr_len (content (fs w)) reads b w fuel Hrpc Himp (Hshows _) Hb Hcur Hreads Hsize Hfuel)
    as (r & b' & w' & E & Hw & Hl & Hr).
  exists r, b', w'. split; [done|]. split; [done|]. split; [done|]. destruct r as [out|e].
  - destruct Hr as [Hall Hb']. rewrite Hb'. split; [by destruct b|]. split; [done|]. cbn. split; [|done]. by exists (fs w).
  - destruct Hr as [Hb' _]. rewrite Hb'. split; [by destruct b|]. split; [by destruct b|]. cbn. done.
Qed.
Lemma recovering_read_ok by_path reads b w fuel : fits b → cursors_ok b → Forall through_fd reads → most_reads reads <= USIZE_MAX →
  (most_reads reads + 1) * (most_reads reads + 1) <= Z.of_nat fuel →
  returns (recovering (vread_body rpc xdr_len fuel by_path reads)) b w (λ r b' w', ∃ r0, r = Ok r0 ∧ fs w' = fs w ∧
    same_limits (nfs b) (nfs b') ∧ b' = set_files (set_recovering (set_nfs b (nfs b')) false) (open_files b') ∧
    (∀ e, r0 = Err e → open_files b' = open_files b) ∧ read_ended reads (content (fs w)) b r0 b').
Proof.
  intros Hb Hcur Hreads Hsize Hfuel. apply returns_recovering.
  eapply returns_mono; [by apply (vread_body_ok by_path reads (set_recovering b true))|]. cbn beta.
  intros r b' w' (Hw & Hl & Hb' & He & Hr). exists r. split; [done|]. split; [done|]. split; [done|]. split; [rewrite Hb'; by destruct b|].
  split; [exact He|exact Hr].
Qed.
End Reading.
End RecoveryLemmas.

Import NamespaceLemmas DescriptorLemmas RecoveryLemmas.

(** C17: A reconnect keeps every descriptor or changes nothing.  For every server
    and transport, whatever fails on the way and in whatever order the table is
    iterated, [reconnect] ends after at most the configured attempts without
    panicking, and nothing that opening by handle and closing leave alone has
    changed on the server.  If it fails the backend is as before.  If it
    succeeds the same descriptors are open, each on its own file and at its own
    cursor, under the stateid the server gave to the new client for reopening
    that file by its handle; the directory, the next descriptor and the settings
    are those of before.  When the new client has the identity of the old one,
    the states of the old connection were closed, in order, right after the files
    were reopened, or are all kept to be closed again; otherwise none is.  The
    state the server is left in is the one after these closes, but for requests
    of session management. *)
Theorem reconnect_keeps_descriptors {F W D} (s : nfs_spec F) (rpc : Compound.t → W → RpcResult COMPOUND4res * W) (fs : W → F) (view : F → D)
    (xdr_len : Compound.t → Z) `{!XdrSizes xdr_len} (connection : ConnectionConfig) (policy : NfsRecoveryPolicy) (generated : W → bytes)
    (now : W → Z) (sleep : Z → W → W) (iter : gmap Z NfsOpenState → list (Z * NfsOpenState)) (os_error_kind : Z → ErrorKind)
    (b : NfsVecFs) (w : W) (fuel : nat) :
  transport_ok rpc → implements s rpc fs → undisturbed s rpc fs view → (∀ m, iter m ≡ₚ map_to_list m) → (∀ d w, fs (sleep d w) = fs w) →
  0 <= NfsClient.max_ops (nfs b) < USIZE_MAX → reconnect_fuel b <= Z.of_nat fuel →
  ∃ r b' w', reconnect rpc xdr_len connection policy generated now sleep iter os_error_kind fuel b w = Done (r, b', w') ∧
    view (fs w') = view (fs w) ∧
    match r with Ok _ => reconnected s rpc fs view connection generated iter b w b' w' | Err _ => b' = b end.
Proof. intros. by apply attempts_ok. Qed.

(** C4: A read survives the loss of the connection.  A vectored read through open
    files, for every server and transport, ends without panicking, with the
    contents of the files as they were.  If it succeeds, at once or after a
    reconnect, every operation got the bytes of its file from its offset on, the
    file and the cursor being those its descriptor had before the call, and only
    the cursors of operations at the cursor have moved; if it fails no descriptor
    is lost and no cursor has moved. *)
Theorem reads_survive_reconnect {F W} (s : nfs_spec F) (rpc : Compound.t → W → RpcResult COMPOUND4res * W) (fs : W → F)
    (content : F → nfs_fh4 → option bytes) (xdr_len : Compound.t → Z) `{!XdrSizes xdr_len} (connection : ConnectionConfig)
    (policy : NfsRecoveryPolicy) (generated : W → bytes) (now : W → Z) (sleep : Z → W → W)
    (iter : gmap Z NfsOpenState → list (Z * NfsOpenState)) (os_error_kind : Z → ErrorKind) (by_path : list FileRead → op W (list ReadResult))
    (reads : list FileRead) (b : NfsVecFs) (w : W) (fuel : nat) :
  transport_ok rpc → implements s rpc fs → undisturbed s rpc fs content → (∀ f, shows s f (content f)) →
  (∀ m, iter m ≡ₚ map_to_list m) → (∀ d w, fs (sleep d w) = fs w) →
  0 <= NfsClient.max_ops (nfs b) < USIZE_MAX → cursors_ok b → recovery_in_progress b = false →
  Forall through_fd reads → most_reads reads <= USIZE_MAX →
  reconnect_fuel b <= Z.of_nat fuel → (most_reads reads + 1) * (most_reads reads + 1) <= Z.of_nat fuel →
  ∃ r b' w', vread_impl rpc xdr_len connection policy generated now sleep iter os_error_kind fuel by_path reads b w = Done (r, b', w') ∧
    content (fs w') = content (fs w) ∧ read_ended s content reads (content (fs w)) b r b'.
Proof.
  intros Hrpc Himp Hun Hshows Hiter Hsleep Hb Hcur Hflag Hreads Hsize Hfuel Hfuel2. unfold vread_impl.
  apply returns_gets_bind. rewrite Hflag. unfold read_with_recovery.
  eapply returns_bind; [by apply (recovering_read_ok s rpc fs content)| |by intros ??? (? & ? & _)].
  cbn beta iota. intros first b1 w1 (r0 & [= <-] & Hw1 & Hl1 & Hb1 & He1 & Hr1). apply returns_gets_bind. rewrite Hb1. cbn [auto_reconnect].
  destruct first as [out|e]; [apply returns_ret; rewrite Hw1; rewrite Hb1 in Hr1; by destruct b|].
  destruct (_ && needs_recovery e); [|apply returns_fail; rewrite Hw1; rewrite Hb1 in Hr1; by destruct b].
  rewrite <-Hb1. specialize (He1 _ eq_refl). assert (Hc1 : cursors b1 = cursors b) by exact Hr1.
  assert (Hfit1 : fits b1) by (destruct Hl1 as [Hm _]; unfold fits; lia).
  assert (Hheld : states_held b1 = states_held b).
  { destruct Hl1 as (_ & _ & _ & _ & _ & _ & Hd & _). unfold states_held. rewrite Hd, He1, Hb1. by destruct b. }
  eapply returns_bind; [apply (attempts_ok s rpc fs content Hrpc Himp Hun xdr_len iter Hiter); [done|done|]| |].
  { unfold reconnect_fuel in *. by rewrite Hheld. }
  - cbn beta iota. intros [] b2 w2 [Hv2 Hrec]. pose proof (reconnected_cursors s rpc fs content iter Hiter _ _ _ _ _ _ Hrec) as Hc2.
    assert (Hc : cursors b = cursors b2) by congruence. pose proof (rc_client _ _ _ _ _ _ _ _ _ _ _ Hrec) as Hm2.
    eapply returns_bind; [apply (recovering_read_ok s rpc fs content); try done| |by intros ??? (? & ? & _)].
    + unfold fits. assert (MAX_COMPOUND_OPS < USIZE_MAX) by done. lia.
    + by eapply cursors_fine.
    + cbn beta iota. intros r b3 w3 (r3 & [= <-] & Hw3 & _ & _ & _ & Hr3). apply returns_lift. rewrite Hw3, Hv2, Hw1.
      split; [done|]. rewrite Hv2, Hw1 in Hr3. eapply read_ended_cursors; [symmetry; exact Hc|exact Hr3].
  - cbn beta iota. intros e1 b2 w2 [Hv2 ->]. rewrite Hv2, Hw1. by split.
Qed.

(** ** A connection that is lost once *)

Module LostOnce.
(** The world: the files, and whether the connection is still the first one,
    whose compounds are all lost.  Connecting establishes a new one. *)
Definition world : Type := mem * bool.
Definition session_answer (ops : list argop) : option (list resop) :=
  match ops with
  | [AExchangeId _ _ _] => Some [RExchangeId 0 77 1 0]
  | [ACreateSession _ _] => Some [RCreateSession 0 [] 4096 4096 16]
  | [ASequence _ _ _ _; AReclaimComplete] => Some [RPlain OP_SEQUENCE 0; RPlain OP_RECLAIM_COMPLETE 0]
  | [ABindConn _] => Some [RPlain OP_BIND_CONN_TO_SESSION 0]
  | [ADestroySession _] => Some [RPlain OP_DESTROY_SESSION 0]
  | _ => None
  end.
Definition rpc (c : Compound.t) (w : world) : RpcResult COMPOUND4res * world :=
  match session_answer (Compound.ops c) with
  | Some l => (Ok (Res 0 (Z.of_nat (length l)) (Some l)), (w.1, false))
  | None =>
      if w.2 then (Err (RpcError.transport_with_kind Connection "connection reset"), w)
      else let '(r, m) := spec_server MemFs.spec 20 c w.1 in (r, (m, false))
  end.

Lemma answer_decoded ops l : session_answer ops = Some l → Forall resop_decoded l ∧ (length l <= 2)%nat.
Proof.
  intros H. assert (l = [RExchangeId 0 77 1 0] ∨ l = [RCreateSession 0 [] 4096 4096 16] ∨
    l = [RPlain OP_SEQUENCE 0; RPlain OP_RECLAIM_COMPLETE 0] ∨ l = [RPlain OP_BIND_CONN_TO_SESSION 0] ∨ l = [RPlain OP_DESTROY_SESSION 0]) as Hl
    by (unfold session_answer in H; repeat case_match; simplify_eq; tauto).
  destruct Hl as [->|[->|[->|[->| ->]]]]; (split; [|cbn; lia]); repeat (constructor; [by apply (bool_decide_unpack _) || done|]); constructor.
Qed.

Lemma rpc_transport : transport_ok rpc.
Proof.
  destruct (ServerLemmas.spec_server_transport MemFs.spec MemFs.mem_spec_ok 20 eq_refl) as [Hd He]. split.
  - intros c w res w'. unfold rpc. destruct (session_answer (Compound.ops c)) as [l|] eqn:E.
    + intros [= <- _]. apply answer_decoded in E as [Hl Hlen]. split; [cbn; unfold U32_MAX; lia|]. intros l' [= <-]. split; [cbn; lia|done].
    + destruct w.2; [done|]. destruct (spec_server MemFs.spec 20 c w.1) as [r m] eqn:Es. intros [= -> _]. by eapply Hd.
  - intros c w e w'. unfold rpc. destruct (session_answer _); [done|]. destruct w.2; [by intros [= <- _]|].
    destruct (spec_server MemFs.spec 20 c w.1) as [r m] eqn:Es. intros [= -> _]. by eapply He.
Qed.

Lemma rpc_implements : implements MemFs.spec rpc fst.
Proof.
  intros c w r w' sid q ops Hr Hops Hf. unfold rpc in Hr.
  assert (session_answer (Compound.ops c) = None) as E.
  { rewrite Hops. destruct Hf as [|o l Ho [|]]; [done| |]; by destruct o. }
  rewrite E in Hr. destruct w.2.
  - injection Hr as <- <-. exists 0%nat, (start w.1), []. split; [done|]. split; [done|]. by intros res [=].
  - destruct (spec_server MemFs.spec 20 c w.1) as [r0 m] eqn:Es. injection Hr as <- <-.
    exact (ServerLemmas.spec_server_implements MemFs.spec MemFs.mem_spec_ok 20 c w.1 r0 m sid q ops Es Hops Hf).
Qed.

Lemma rpc_undisturbed : undisturbed MemFs.spec rpc fst MemTree.content.
Proof.
  split.
  - intros c w r w' Hr Hops. unfold rpc in Hr. destruct (session_answer _); [by injection Hr as _ <-|]. destruct w.2; [by injection Hr as _ <-|].
    destruct (spec_server MemFs.spec 20 c w.1) as [r0 m] eqn:Es. injection Hr as _ <-. unfold spec_server in Es.
    destruct (Compound.ops c) as [|o l]; [by injection Es as _ <-|]. destruct o; try by injection Es as _ <-.
    destruct (_ <? _); [by injection Es as _ <-|]. apply Forall_cons in Hops as [_ Hops]. destruct Hops as [|o l Ho _]; [by injection Es as _ <-|].
    destruct o; try done; by injection Es as _ <-.
  - intros f fh access cid owner f' v H. cbn in H. unfold MemFs.open in H. cbn in H. destruct (MemFs.node_at f fh); [|done]. by injection H as <- _.
  - intros f fh q st f' H. cbn in H. unfold MemFs.close in H. case_bool_decide; [|done]. by injection H as <-.
Qed.

(** Two open files; the client identity is a stable one. *)
Definition recipe (path : string) : ReopenFile := Reopen (bstr path) 0.
Definition backend : NfsVecFs :=
  set_files (set_nfs example_backend (NfsClient.set_session example_nfs (Session.set_exchanged SlotLemmas.example_session 77 1 true)))
    (list_to_map [(3, OpenState (bstr "FF") (StateId 1 (be_bytes 12 7)) 1 false (Some (recipe "/f")));
                  (4, OpenState (bstr "O") (StateId 1 (be_bytes 12 8)) 0 false (Some (recipe "/o")))]).
Definition before : world := (Mem (nodes example_links) 9 [StateId 1 (be_bytes 12 7); StateId 1 (be_bytes 12 8)], true).
Definition connection : ConnectionConfig := MakeConnection (bstr "exp") (Some 1) AuthSys (Some (bstr "stable")) [].
Definition sleep (d : Z) (w : world) : world := w.
Definition fuel : nat := 3000.
End LostOnce.

Import LostOnce.

Lemma reconnect_keeps_descriptors_witness :
  ∃ b' w', reconnect LostOnce.rpc SendLemmas.example_xdr_len connection default_policy (λ _, []) (λ _, 0) LostOnce.sleep map_to_list (λ _, Other)
      LostOnce.fuel backend before = Done (Ok tt, b', w') ∧
    dom (open_files b') = dom (open_files backend) ∧ cwd b' = cwd backend ∧
    opened w'.1 = [StateId 1 (be_bytes 12 10); StateId 1 (be_bytes 12 9)].
Proof.
  destruct (reconnect_keeps_descriptors MemFs.spec LostOnce.rpc fst MemTree.content SendLemmas.example_xdr_len connection default_policy (λ _, [])
    (λ _, 0) LostOnce.sleep map_to_list (λ _, Other) backend before LostOnce.fuel) as (r & b' & w' & E & _ & H).
  - exact rpc_transport.
  - exact rpc_implements.
  - exact rpc_undisturbed.
  - intros m. reflexivity.
  - intros d w. reflexivity.
  - exact (proj1 example_usable).
  - vm_compute. discriminate.
  - assert (Hrun : match reconnect LostOnce.rpc SendLemmas.example_xdr_len connection default_policy (λ _, []) (λ _, 0) LostOnce.sleep map_to_list
        (λ _, Other) LostOnce.fuel backend before with
      | Done (Ok _, _, w') => opened w'.1 = [StateId 1 (be_bytes 12 10); StateId 1 (be_bytes 12 9)]
      | _ => False end) by (vm_compute; reflexivity).
    rewrite E in Hrun. destruct r as [[]|]; [|destruct Hrun]. exists b', w'. split; [exact E|]. split; [exact (rc_descriptors _ _ _ _ _ _ _ _ _ _ _ H)|].
    split; [|exact Hrun]. rewrite (rc_fields _ _ _ _ _ _ _ _ _ _ _ H). reflexivity.
Defined.

(** The read at the cursor of the first file and the one in the second. *)
Definition lost_reads : list FileRead := [MakeRead (Fd 3) Cur 2; MakeRead (Fd 4) (At 4) 10].

Lemma reads_survive_reconnect_witness :
  ∃ b' w', vread_impl LostOnce.rpc SendLemmas.example_xdr_len connection default_policy (λ _, []) (λ _, 0) LostOnce.sleep map_to_list (λ _, Other)
      LostOnce.fuel (λ _, ret []) lost_reads backend before =
      Done (Ok [MakeReadResult (Fd 3) 1 (bstr "at") false; MakeReadResult (Fd 4) 4 (bstr "ours") true], b', w') ∧
    cursors b' !! 3 = Some (bstr "FF", 3) ∧ cursors b' !! 4 = Some (bstr "O", 0).
Proof.
  destruct (reads_survive_reconnect MemFs.spec LostOnce.rpc fst MemTree.content SendLemmas.example_xdr_len connection default_policy (λ _, [])
    (λ _, 0) LostOnce.sleep map_to_list (λ _, Other) (λ _, ret []) lost_reads backend before LostOnce.fuel) as (r & b' & w' & E & _ & H).
  - exact rpc_transport.
  - exact rpc_implements.
  - exact rpc_undisturbed.
  - exact mem_shows.
  - intros m. reflexivity.
  - intros d w. reflexivity.
  - exact (proj1 example_usable).
  - apply (bool_decide_unpack _). vm_compute. exact I.
  - reflexivity.
  - repeat constructor; eauto; vm_compute; discriminate.
  - vm_compute. discriminate.
  - vm_compute. discriminate.
  - vm_compute. discriminate.
  - assert (Hrun : match vread_impl LostOnce.rpc SendLemmas.example_xdr_len connection default_policy (λ _, []) (λ _, 0) LostOnce.sleep map_to_list
        (λ _, Other) LostOnce.fuel (λ _, ret []) lost_reads backend before with
      | Done (r, _, _) => r = Ok [MakeReadResult (Fd 3) 1 (bstr "at") false; MakeReadResult (Fd 4) 4 (bstr "ours") true]
      | _ => False end) by (vm_compute; reflexivity).
    rewrite E in Hrun. subst r. exists b', w'. split; [exact E|]. destruct H as [_ H]. rewrite H. split; reflexivity.
Defined.
